(* ===== verification/_CoqProject ===== *)
-Q . S2P
Prelude.v
Double.v
NativeInt.v
NativeIntFacts.v
NativeIntProps.v
ModArith.v
NativeVec.v
NativeVecProps.v
SchemeCore.v
PrimeField.v
NumberTheory.v
NumberTheoryFacts.v
Negacyclic.v
BitReverse.v
Ntt.v
NttFacts.v
NttSpec.v
NttProps.v
NttRing.v
Poly.v
PolyFacts.v
Automorphism.v
Gadget.v
PolyProps.v
Lwe.v
LweProps.v
MkLwe.v
MkLweProps.v
MNtru.v
MNtruProps.v
RingNoise.v
RingCoefficients.v
AccCore.v
AccCoreFacts.v
MkAcc.v
MkAccFacts.v
MkAccSteps.v
MkAccKeys.v
RgswAcc.v
LogTable.v
RgswFacts.v
RgswRotation.v
RgswKeys.v
AutoKeys.v
LmkRotation.v
AccSpec.v
RgswProps.v
VntruAcc.v
VntruFacts.v
VntruRotation.v
Gates.v
GatesFacts.v
GatesSpec.v
GatesEval.v
GatesKeys.v
GatesProps.v
FuncSpec.v
SignSpec.v
Context.v
ContextSpec.v
ContextProps.v
MkGate.v
MkGateFacts.v
MkGateSpec.v
MkGateNtru.v
MkGateNtruProps.v
MkGateProps.v
MkContext.v
MkContextSpec.v
MkContextProps.v
VntruGate.v
VntruGateSpec.v
VntruGateProps.v
NumberTheoryProps.v
