(* ===== verification/Prelude.v ===== *)
(** * MK-FHE: a verification development

    This library models the arithmetic and the encryption schemes of the
    multi-key boolean FHE library in [src/] and proves that they compute what
    they are meant to.  This file is its root: it documents the whole, and
    holds the vocabulary (errors, loops, checked accesses, congruences, finite
    sums) that the other files share.

    ** The program

    The library is a fork of OpenFHE.  Under [src/src/core] there are integers
    of machine width ([ubintnat.h]), vectors of them ([mubintvecnat.cpp]), the
    number theoretic transform ([transformnat-impl.h]) and polynomials over
    them; under [src/src/binfhe] the boolean schemes: LWE ([lwe-pke.cpp]),
    multi-key LWE ([mklwe-pke.cpp]), multi-key matrix NTRU ([mntru-pke.cpp]),
    and the bootstrapping built on them.  A gate adds ciphertexts, refreshes
    the sum in an accumulator of ring elements, switches the modulus and
    switches the key back; the schemes therefore rest on exact modular
    arithmetic, and the ring operations on the transform.

    ** Files

    - [Prelude]: [res], the error monad; [for_], a counted loop; [vget] and
      [vset], the checked accesses; [tabulateM], a vector filled by a loop;
      [eqm], congruence modulo an integer, with its [Proper] instances;
      [sumZ], finite sums.
    - [Double]: the binary64 operations the schemes round with ([rnd] rounds a
      fraction to 53 bits, ties to even).
    - [NativeInt], [NativeIntFacts], [NativeIntProps]: [NativeIntegerT] at any
      width [w], its lemmas, its properties.  An integer is a [Z]; wrapping is
      written out ([wrap]), and so are the signed conversions of [ModInverse].
    - [ModArith]: the overloads chosen for a width, and the class
      [NativeModulus], the interface between the integers and their clients:
      what a modulus has to satisfy, and the laws [nm_*] that follow.
    - [NativeVec], [NativeVecProps]: [NativeVectorT].
    - [SchemeCore]: the pieces the three schemes repeat (encoding, decoding,
      rounding, inner products, digits).
    - [Negacyclic]: products modulo [x^n + 1] and their values at the roots.
    - [BitReverse], [Ntt], [NttFacts], [NttSpec], [NttProps]: [ReverseBits], the
      transforms and the cache of their tables; the loops as stages, the
      stages as evaluation at the odd powers of the root; the properties.
    - [NttRing]: the class [RingTransform], the interface between the transform
      and the ring elements: with ready tables, the forward transform is [ntt],
      the inverse undoes it, and neither changes the cache.
    - [Poly], [PolyFacts]: [PolyImpl] over native vectors ([poly.h],
      [poly-impl.h]), and its members as operations of the ring ([radd],
      [rsub], [rmul], [rscale] on coefficient lists; [poly_of] is the element
      that holds a list in a format).  [Automorphism]: the substitution
      [x -> x^k].  [Gadget]: [SignedDigitDecompose] of [mk-acc.cpp].
      [PolyProps]: the properties of the three.
    - [RingNoise]: sums of ring elements, products by monomials, and the norms
      in which noise is measured.
      [RingCoefficients]: their coefficients.
    - [AccCore], [AccCoreFacts]: what the single-key and the multi-key
      accumulators share: tables of keys, of gadget powers, of gate constants
      and of monomials, decompositions, inner products.
    - [RgswAcc]: the single-key accumulators of [rgsw-acc-cggi.cpp] (GINX),
      [rgsw-acc-dm.cpp] (AP) and [rgsw-acc-lmkcdey.cpp] (LMKCDEY), with
      [RingGSWCryptoParams].  [RgswFacts]: external products and one update;
      [RgswRotation]: the class [BlindRotation], the interface between the
      accumulators and the gates, and its instances for GINX and AP;
      [RgswKeys]: the generated keys are the keys that the rotations need.
      For LMKCDEY: [LogTable] (the powers of 5 and the table of logarithms),
      [AutoKeys] (automorphisms of a noisy ciphertext and their keys),
      [LmkRotation] (the buckets, the loop over the logarithms, the instance of
      [BlindRotation] and its keys).  [AccSpec]: the three methods behind one
      statement; [RgswProps]: the properties.
    - [Gates]: the single-key part of [binfhe-base-scheme.cpp]: [KeyGen], the
      gates, [Bootstrap], the evaluation of functions, floor, sign and digits.
      [GatesFacts] (test vectors, extraction), [GatesSpec] (one bootstrapping
      from phase to phase), [GatesEval] (every gate; straight-line programs
      over them, on ciphertexts and on bits), [GatesKeys] ([KeyGen] makes good
      keys), [GatesProps] (the properties).
    - [FuncSpec] (evaluation of functions given by tables, floor), [SignSpec]
      (the rounds of the sign and of the digits of large precision): theorems
      about [Gates], from phase to phase.
    - [PrimeField]: Fermat's theorem and roots modulo a prime.  [NumberTheory]:
      [nbtheory-impl.h] (random numbers below a bound, Miller-Rabin, searches
      for primes, Pollard's factorization, generators, roots of unity), with
      the generator of random numbers as a state; [NumberTheoryFacts], its
      lemmas.
    - [Context]: [binfhecontext.cpp]: the parameter sets, the generation of a
      context, its keys ([BTKeyGen]) and its operations.  [ContextSpec]: the
      keys of a new context are those that the evaluations need;
      [ContextProps]: functions, sign and digits from encryption to decryption;
      [NumberTheoryProps]: the parameters of a context.
    - [MkAcc]: the accumulators of [mk-acc-xzw.cpp] (ternary keys) and
      [mk-acc-xzw_B.cpp] (binary keys), with [UniEncCryptoParams::PreCompute].
      [MkAccFacts] (phase of the accumulator, hybrid product), [MkAccSteps]
      (one update, the blind rotation), [MkAccKeys] (the keys that the
      generators make are the keys that the rotation needs).
    - [MkGate]: the multi-key part of [binfhe-base-scheme.cpp]: keys, blind
      rotation of a gate, [EvalBinGate].  [MkGateFacts], [MkGateSpec]
      (parameters and draws a gate needs, as records; the gate step by step),
      [MkGateProps] (the properties of the accumulator and of the gate);
      [MkGateNtru], [MkGateNtruProps]: the same for multi-key NTRU.
    - [MkContext]: the multi-key members of the same context, and straight-line
      programs over [EvalBinGate] with the lemma that a gate which refines an
      operation gives runs that refine runs.  [MkContextSpec] (the parameters
      and keys of a new context; both schemes as instances of that lemma),
      [MkContextProps] (the properties).
    - [VntruAcc]: the accumulator of [vntru-acc-xzddf.cpp] with NTRU ciphertexts,
      its parameters, and the inverse on [usint].  [VntruFacts]: the inverse,
      the product with a key and one update; [VntruRotation]: the class
      [NtruRotation], the interface between the accumulator and the gates, its
      instance, and the keys that [KeyGenAcc] makes.
    - [VntruGate]: the gates of [binfhe-base-scheme.cpp] over vector NTRU keys and
      the members of a context for them.  [VntruGateSpec] (one bootstrapping and
      every gate, from phase to phase; the generated keys), [VntruGateProps]
      (straight-line programs; the properties).
    - [Lwe], [LweProps]; [MkLwe], [MkLweProps]; [MNtru], [MNtruProps]: the
      schemes, one definition for each member function, with the ciphertexts,
      keys and parameters as records.

    ** Conventions

    A C++ member function is a definition of the same name (the suffixes
    [_same], [_mu], [V], [_precon] and the prefix [MK] separate overloads; [Eq]
    members return the new value).  A member that throws, or runs into
    undefined behaviour (division by zero, an access outside a vector, a shift
    by the width), returns [Throw]; effects made before an exception are not
    tracked.  Values drawn from random generators are arguments, so a theorem
    holds for every draw, and the noise in its statement is the noise of the
    draw.  A loop with a C++ counter runs as many times as its bounds say;
    the doubling loops of the transform have fuel 32, the width of their
    counter, the exponentiation loop and the Euclidean loop a fuel that the
    theorems show to be enough.  A theorem that a call succeeds says so ([returns],
    [= Ok]); [ends_within] says of a loop that it stops before its fuel is used
    up, whether by its condition or by an exception of its body; and
    [out_of_fuel] is the conclusion only where non-termination is what a
    theorem states (the rounds of [EvalSign] for [q = 2 beta]).  Copies of a ciphertext
    have the default plaintext modulus 4, as those of the copy constructors
    ([copy_LWECiphertext]).
    Rejection sampling and Pollard's method end with probability one only: the
    theorems ask that the generator delivers ([fair]), or that a generator of
    the group was found.  Indices
    are [nat]: the lengths of the sources are far below [2^31].  The number of
    digits [ceil(log Q / log B)] is the exact one, the least [d] with
    [Q <= B^d]; the code takes the quotient of two doubles.  Of the branches
    that depend on the compiler, those of GCC are modelled.

    ** What the theorems show

    - Multi-key gate: for multi-key LWE, the tables of [PreCompute], the keys of
      [MKKeyGen], two encryptions, [EvalBinGate] and the decryption compose to
      the NAND of the two bits, for every draw whose noise is under a bound
      stated in the parameters; this is the composition of all the components.
      For multi-key NTRU with the ternary accumulator, the same from [MKKeyGen]
      and [ctGateGen] to [Decrypt].
    - Multi-key circuits: for multi-key LWE, from the parameters of a new
      context to the decryption of every wire, any straight-line program over
      [EvalBinGate] refines the program of NANDs on bits, with a noise that does
      not depend on its length.  For multi-key NTRU the results of gates are
      encoded differently from encryptions: a gate on two encryptions is a
      NAND and a gate on two results an OR, which is the theorem.
    - Single-key gates: for each of the three methods, [PreCompute], [KeyGen],
      encryptions of bits, any straight-line program over NOT, the two-input
      gates, CMUX and [Bootstrap], and the decryption of every wire compose to
      the program on bits: the run on ciphertexts refines the run on bits, with
      a noise that does not depend on the length of the program.  The gates on
      three and four ciphertexts are threshold functions.
    - Functions and large precision: from the generation of the keys of a
      context to decryption, [EvalFunc] returns the value of any function of a
      table, [EvalSign] the highest bit and [EvalDecomp] digits that recompose
      a value of large precision; the gadget changes between the rounds when
      the context has the keys of the three bases.  The loops of [EvalSign] and
      [EvalDecomp] end when [2 beta < q], within a number of rounds that is
      stated, and that of [EvalSign] does not when [q = 2 beta].
    - Parameters: the Miller-Rabin test accepts every prime and, of the odd
      numbers above 5, only those to which all the drawn bases are strong; the
      searches for primes end at the first number that the test accepts; the
      root of unity of a ring does not depend on the draws, and with its tables
      the transforms are those of the ring; [GenerateBinFHEContext] makes the
      parameters of its table, and refuses three of the sets.
    - Single-key accumulators: the blind rotations of GINX, AP and LMKCDEY
      multiply the phase by the monomial of the negated inner product of mask
      and secret.  LMKCDEY makes the entries of the mask odd, which costs an
      error in the inner product of at most the sum of the absolute values of
      the secret; the bound of the gates asks for room for the worst case.  The
      keys of GINX reveal the secret, because the rows of an encryption
      share their uniform element.
    - Vector NTRU gates: from [NBTKeyGen] to decryption, straight-line programs
      over NOT and [EvalBinGate] compute XOR and XNOR as such and every other
      gate as a NAND (the fast gates as 1), when the modulus of the ciphertexts
      is the dimension of the ring.  The accumulator is a pointer that nothing
      in the program sets: as the program is, [NBTKeyGen] calls through null,
      which the theorem states first; the circuits are those of the class in
      [vntru-acc-xzddf.cpp], if the pointer were set to it.
      The rotation multiplies the exponent of the accumulator by an odd number
      between two keys, and the sum of the exponents telescopes.
    - Multi-key accumulator: one hybrid product multiplies the phase by the message of
      the key, the blind rotation multiplies it by the monomial whose exponent
      is the inner product of mask and secret (divided by the first user's
      ring key), both up to explicit noise.  The key generators multiply the
      reference string by an entry of the transform of the ephemeral [r] of a
      key instead of by [r] ([mk-acc-xzw.cpp], line 167).  For any [r], the
      hybrid product is that of the relation and an excess, which the theorem
      gives as a formula; the blind rotation, the gates and the circuits are
      proved for keys whose [r] is a constant polynomial, where the excess is
      zero: the hypothesis [constant_ephemerals] of their statements.  The
      generator of [r] has standard deviation 0.15, with which [r] is nearly
      always the constant zero.
    - Ring elements: the members of [PolyImpl] are the operations of
      [Z_q[x]/(x^n + 1)] in either format; automorphisms are substitutions;
      the signed digits recompose up to the dropped ones.
    - Schemes: decryption inverts encryption for every key, message and draw
      whose noise is small (secret and public key LWE, multi-key LWE, multi-key
      NTRU); evaluation adds phases; modulus switching and key switching
      preserve the phase up to an explicit error, and the table-driven key
      switching of the NTRU scheme computes exactly what the plain one does;
      key generation returns a key of the right type whenever an invertible
      candidate is drawn.
    - Transform: the forward transform evaluates at the roots of [x^n + 1],
      the inverse one undoes it, forward-multiply-inverse is the product of
      the ring, the optimised variants agree, and the cache keeps its
      invariant, for dimensions up to [2^24]; from [2^25] on [ReverseBits] is
      wrong, which is a theorem too.
    - Vectors and integers: every modular operation returns the canonical
      residue under the bounds of [NativeModulus]; Barrett and Shoup variants
      agree with it; the bound on the modulus is tight; checked operations,
      strings and rounding do what their branches say, including where that
      is not what they mean to do.

    ** Not modelled

    The public-key schemes of OpenFHE ([src/src/pke]), multiprecision integers,
    RNS polynomials, the distributions of the random generators,
    serialization, and the inversion of polynomials by the NTL library (a parameter).  Bluestein's
    transform serves orders that are not powers of two, which the boolean
    schemes do not use; it is the parameter [ArbitrarySwitchFormat].  Key
    generation of the schemes is sampling only, and so its members of a context
    are left out.
    The state of the gadget base that an exception in [EvalSign] leaves behind
    is not tracked.  The common reference string is an argument: the
    constructor copies one sample into all its entries. *)

From Stdlib Require Import ZArith Lia String Znumtheory Morphisms Setoid.
From stdpp Require Import base tactics numbers list strings.

Global Open Scope Z_scope.
Global Set Default Goal Selector "!".

(** ** Errors and the error monad

    An exception of the library, or a C++ operation whose behaviour is
    undefined (division by zero, a shift by the width of the operand or
    more, an access outside a vector).  [out_of_fuel] is returned by a loop
    whose fuel ran out. *)
Inductive exn :=
  | math_error (msg : string)
  | type_error (msg : string)
  | not_implemented_error (msg : string)
  | config_error (msg : string)
  | openfhe_error (msg : string)
  | not_available_error (msg : string)
  | out_of_range (msg : string)
  | process_exit (status : Z)
  | undefined_behaviour
  | out_of_fuel.

Inductive res (A : Type) := Ok (a : A) | Throw (e : exn).
Arguments Ok {_} _.
Arguments Throw {_} _.

#[export] Instance res_ret : MRet res := fun A a => Ok a.
#[export] Instance res_bind : MBind res := fun A B f m =>
  match m with Ok a => f a | Throw e => Throw e end.

#[export] Instance exn_eq_dec : EqDecision exn.
Proof. solve_decision. Defined.
#[export] Instance res_eq_dec {A} `{EqDecision A} : EqDecision (res A).
Proof. solve_decision. Defined.

(** [returns m Q]: the computation [m] returns a value, and the value
    satisfies [Q] (total correctness). *)
Definition returns {A} (m : res A) (Q : A -> Prop) : Prop :=
  exists a, m = Ok a /\ Q a.

(** A loop [for (i = 0; i < n; ++i) s = f(i, s)]. *)
Fixpoint for_ {S : Type} (n : nat) (f : nat -> S -> res S) (s : S) : res S :=
  match n with
  | O => Ok s
  | S n' => s' ← for_ n' f s; f n' s'
  end.

(** [while (go x) x = body(x);]. *)
Fixpoint while_ {S : Type} (fuel : nat) (go : S -> bool) (body : S -> res S) (x : S) : res S :=
  if go x then match fuel with O => Throw out_of_fuel | Datatypes.S fuel' => y ← body x; while_ fuel' go body y end else Ok x.

(** Vector access and update with the undefined behaviour of the C++
    [operator[]] outside the bounds made explicit. *)
Definition vget {A} (v : list A) (i : nat) : res A :=
  match v !! i with Some x => Ok x | None => Throw undefined_behaviour end.
Definition vset {A} (v : list A) (i : nat) (x : A) : res (list A) :=
  if decide (i < length v)%nat then Ok (<[i := x]> v) else Throw undefined_behaviour.

Section Returns.
Context {A B : Type}.
Implicit Types (m : res A) (f : A -> res B).

Lemma returns_ok (a : A) (Q : A -> Prop) : Q a -> returns (Ok a) Q.
Proof. by exists a. Qed.

Lemma returns_bind m f (P : A -> Prop) (Q : B -> Prop) :
  returns m P -> (forall a, P a -> returns (f a) Q) -> returns (m ≫= f) Q.
Proof. intros (a & -> & HP) Hf. by apply Hf. Qed.

Lemma returns_mono m (P Q : A -> Prop) :
  returns m P -> (forall a, P a -> Q a) -> returns m Q.
Proof. intros (a & -> & HP) HPQ. exists a. auto. Qed.

Lemma returns_eq m (a : A) : returns m (fun x => x = a) <-> m = Ok a.
Proof. split; [by intros (? & -> & ->)|]. intros ->. by exists a. Qed.
End Returns.

Lemma bind_ok {A B} (a : A) (f : A -> res B) : (Ok a ≫= f) = f a.
Proof. done. Qed.

Lemma bind_throw {A B} e (f : A -> res B) : (Throw e ≫= f) = Throw e.
Proof. done. Qed.

(** The loop rule: an invariant that holds on entry and is kept by every
    iteration, each of which returns. *)
Lemma returns_for {S : Type} (P : nat -> S -> Prop) n f s :
  P O s ->
  (forall i s', (i < n)%nat -> P i s' -> returns (f i s') (P (Datatypes.S i))) ->
  returns (for_ n f s) (P n).
Proof.
  intros H0 Hstep. induction n as [|n IH]; simpl.
  - by apply returns_ok.
  - eapply returns_bind.
    + apply IH. intros i s' Hi. apply Hstep. lia.
    + intros s' Hs'. by apply Hstep; [lia|].
Qed.

(** [n + 1] rounds: the first one, then [n] more. *)
Lemma for_succ {S : Type} (body : S -> res S) n x :
  for_ (Datatypes.S n) (fun _ => body) x = (y ← body x; for_ n (fun _ => body) y).
Proof.
  induction n as [|n IH]; [cbn; by destruct (body x)|]. change (for_ (Datatypes.S (Datatypes.S n)) (fun _ => body) x) with (for_ (Datatypes.S n) (fun _ => body) x ≫= body).
  rewrite IH. by destruct (body x).
Qed.

(** The loop ends within [bound] rounds: some number of rounds go through,
    after which either the condition is false and the loop returns the state
    reached, or the next round throws and the loop throws what the round
    threw.  Fuel for [bound] rounds is enough for it. *)
Definition ends_within {S : Type} (bound : nat) (go : S -> bool) (body : S -> res S) (x : S) : Prop :=
  exists n y, (n <= bound)%nat /\ for_ n (fun _ => body) x = Ok y /\
    ((go y = false /\ forall fuel, (bound <= fuel)%nat -> while_ fuel go body x = Ok y) \/
     (go y = true /\ exists e, body y = Throw e /\ forall fuel, (bound <= fuel)%nat -> while_ fuel go body x = Throw e)).

(** A loop whose measure decreases ends within as many rounds as the measure. *)
Lemma while_ends {S : Type} (P : S -> Prop) (mu : S -> nat) (go : S -> bool) body :
  (forall x, P x -> go x = true -> (0 < mu x)%nat) ->
  (forall x y, P x -> go x = true -> body x = Ok y -> P y /\ (mu y < mu x)%nat) ->
  forall bound x, P x -> (mu x <= bound)%nat -> ends_within bound go body x.
Proof.
  intros Hpos Hdec bound. induction bound as [|bound IH]; intros x Hx Hle.
  - exists 0%nat, x. destruct (go x) eqn:Ego; [specialize (Hpos x Hx Ego); lia|].
    split; [done|]. split; [done|]. left. split; [done|]. intros [|fuel] _; cbn [while_]; by rewrite Ego.
  - destruct (go x) eqn:Ego.
    + destruct (body x) as [y|e] eqn:Ey.
      * destruct (Hdec x y Hx Ego Ey) as [Hy Hm]. destruct (IH y Hy ltac:(lia)) as (n & z & Hn & Hrun & Hend).
        exists (Datatypes.S n), z. split; [lia|]. split; [by rewrite for_succ, Ey, bind_ok|].
        assert (forall fuel r, (Datatypes.S bound <= fuel)%nat -> (forall fuel, (bound <= fuel)%nat -> while_ fuel go body y = r) -> while_ fuel go body x = r) as Hstep.
        { intros [|fuel] r Hf Hr; [lia|]. cbn [while_]. rewrite Ego, Ey, bind_ok. apply Hr. lia. }
        destruct Hend as [[Hg Hr]|(Hg & e & Ee & Hr)]; [left|right]; (split; [done|]); [|exists e; split; [done|]]; intros fuel Hf; by apply Hstep.
      * exists 0%nat, x. split; [lia|]. split; [done|]. right. split; [done|]. exists e. split; [done|].
        intros [|fuel] Hf; [lia|]. cbn [while_]. by rewrite Ego, Ey.
    + exists 0%nat, x. split; [lia|]. split; [done|]. left. split; [done|]. intros [|fuel] _; cbn [while_]; by rewrite Ego.
Qed.

Lemma ends_fuel {S : Type} bound (go : S -> bool) body x fuel :
  ends_within bound go body x -> (bound <= fuel)%nat -> while_ fuel go body x = while_ bound go body x.
Proof. intros (n & y & _ & _ & [[_ H]|(_ & e & _ & H)]) Hf; by rewrite !H by lia. Qed.

(** A loop whose rounds keep its condition true: however many of them go
    through, it is not at its end, and it never returns. *)
Lemma while_exhausts {S : Type} (P : S -> Prop) (go : S -> bool) body :
  (forall x, P x -> go x = true) -> (forall x y, P x -> body x = Ok y -> P y) ->
  forall fuel x, P x -> (forall y, for_ fuel (fun _ => body) x = Ok y -> P y /\ while_ fuel go body x = Throw out_of_fuel) /\
    forall r, while_ fuel go body x <> Ok r.
Proof.
  intros Hgo Hkeep fuel. induction fuel as [|fuel IH]; intros x Hx.
  - cbn. rewrite Hgo by done. split; [by intros y [= <-]|done].
  - rewrite for_succ. cbn [while_]. rewrite Hgo by done. destruct (body x) as [y|] eqn:Ey; [|done]. rewrite !bind_ok. apply IH. by apply (Hkeep x).
Qed.

Lemma vget_lookup {A} (v : list A) i x : v !! i = Some x -> vget v i = Ok x.
Proof. unfold vget. by intros ->. Qed.

Lemma vget_total `{Inhabited A} (v : list A) i :
  (i < length v)%nat -> vget v i = Ok (v !!! i).
Proof.
  intros Hi. apply vget_lookup. by apply list_lookup_lookup_total_lt.
Qed.

(** A loop over a vector whose body returns on every element of a class. *)
Lemma mapM_ok {A B} (P : A -> Prop) (f : A -> res B) (g : A -> B) l :
  (forall a, P a -> f a = Ok (g a)) -> Forall P l -> mapM f l = Ok (map g l).
Proof.
  intros Hf Hl. induction Hl as [|a l Ha Hl IH]; [done|].
  cbn [mapM map]. rewrite (Hf a Ha), bind_ok, IH. done.
Qed.

(** ... and one that stops at the first element on which the body throws. *)
Lemma mapM_throw {A B} (P : exn -> Prop) (f : A -> res B) l :
  (forall a e, a ∈ l -> f a = Throw e -> P e) -> (exists a e, a ∈ l /\ f a = Throw e) -> exists e, mapM f l = Throw e /\ P e.
Proof.
  intros HP. induction l as [|a l IH]; intros (a' & e & Hin & He); [by apply not_elem_of_nil in Hin|].
  cbn [mapM]. destruct (f a) as [b|e'] eqn:E; [|exists e'; split; [done|]; apply (HP a); [by apply elem_of_cons; left|done]].
  rewrite bind_ok. apply elem_of_cons in Hin as [->|Hin]; [congruence|].
  destruct IH as (e' & -> & He'); [intros b' e' Hb'; apply HP; by apply elem_of_cons; right|eauto|]. by exists e'.
Qed.

(** A vector filled by a loop, entry by entry. *)
Definition tabulateM {A} (n : nat) (f : nat -> res A) : res (list A) := mapM f (seq 0 n).

Lemma tabulateM_ok {A} n (f : nat -> res A) (g : nat -> A) :
  (forall i, (i < n)%nat -> f i = Ok (g i)) -> tabulateM n f = Ok (map g (seq 0 n)).
Proof.
  intros Hf. apply (mapM_ok (fun i => (i < n)%nat)); [done|].
  apply Forall_forall. intros i Hi. apply elem_of_seq in Hi. lia.
Qed.

Lemma length_tab {A} n (g : nat -> A) : length (map g (seq 0 n)) = n.
Proof. by rewrite length_map, length_seq. Qed.

Lemma lookup_tab {A} n (g : nat -> A) i : (i < n)%nat -> map g (seq 0 n) !! i = Some (g i).
Proof.
  intros Hi. change (map g (seq 0 n)) with (g <$> seq 0 n). rewrite list_lookup_fmap.
  by rewrite lookup_seq_lt.
Qed.

Lemma lookup_total_tab `{Inhabited A} n (g : nat -> A) i : (i < n)%nat -> map g (seq 0 n) !!! i = g i.
Proof. intros Hi. apply list_lookup_total_correct. by apply lookup_tab. Qed.

(** Rows of equal length, concatenated. *)
Lemma length_concat {A} d (l : list (list A)) :
  Forall (fun r => length r = d) l -> length (concat l) = (length l * d)%nat.
Proof. induction 1 as [|r l Hr Hl IH]; [done|]. cbn. rewrite length_app. lia. Qed.

Lemma concat_lookup `{Inhabited A} d (l : list (list A)) i j :
  Forall (fun r => length r = d) l -> (i < length l)%nat -> (j < d)%nat ->
  concat l !!! (i * d + j)%nat = (l !!! i) !!! j.
Proof.
  intros Hl. revert i. induction Hl as [|r l Hr Hl IH]; intros i Hi Hj; [cbn in Hi; lia|]. cbn [concat].
  destruct i as [|i].
  - rewrite lookup_total_app_l by lia. done.
  - rewrite lookup_total_app_r by lia. replace (S i * d + j - length r)%nat with (i * d + j)%nat by lia.
    apply IH; [cbn in Hi; lia|done].
Qed.

Lemma Forall_tab {A} (P : A -> Prop) n (g : nat -> A) : (forall i, (i < n)%nat -> P (g i)) -> Forall P (map g (seq 0 n)).
Proof.
  intros Hg. apply Forall_forall. intros x (i & -> & Hi)%list_elem_of_fmap. apply Hg. apply elem_of_seq in Hi. lia.
Qed.

(** Two vectors of the same length with the same entries. *)
Lemma list_total_ext `{Inhabited A} (l k : list A) :
  length l = length k -> (forall i, (i < length l)%nat -> l !!! i = k !!! i) -> l = k.
Proof.
  intros Hl He. apply list_eq. intros i. destruct (decide (i < length l)%nat).
  - rewrite !list_lookup_lookup_total_lt by lia. f_equal. by apply He.
  - rewrite !lookup_ge_None_2 by lia. done.
Qed.

(** The zero vector. *)
Lemma length_zeros n : length (repeat 0 n) = n.
Proof. apply repeat_length. Qed.
Lemma zeros_lookup n i : (i < n)%nat -> repeat 0 n !!! i = 0.
Proof.
  revert i. induction n as [|n IH]; intros [|i] Hi; try lia; [done|]. apply (IH i). lia.
Qed.
Lemma zeros_Forall (P : Z -> Prop) n : P 0 -> Forall P (repeat 0 n).
Proof. intros HP. induction n; constructor; done. Qed.

Lemma lookup_total_map `{Inhabited A, Inhabited B} (f : A -> B) l i :
  (i < length l)%nat -> map f l !!! i = f (l !!! i).
Proof. intros Hi. change (map f l) with (f <$> l). by apply list_lookup_total_fmap. Qed.

Lemma tabulateM_returns `{Inhabited A} n (f : nat -> res A) (P : nat -> A -> Prop) :
  (forall i, (i < n)%nat -> returns (f i) (P i)) ->
  returns (tabulateM n f) (fun l => length l = n /\ forall i, (i < n)%nat -> P i (l !!! i)).
Proof.
  intros Hf.
  set (g := fun i => match f i with Ok a => a | Throw _ => inhabitant end).
  assert (forall i, (i < n)%nat -> f i = Ok (g i) /\ P i (g i)) as Hg.
  { intros i Hi. destruct (Hf i Hi) as (a & E & Ha). unfold g. by rewrite E. }
  rewrite (tabulateM_ok n f g) by (intros i Hi; by apply Hg). apply returns_ok.
  split; [apply length_tab|]. intros i Hi. rewrite lookup_total_tab by done. by apply Hg.
Qed.

Lemma mapM_inv {A B} (f : A -> res B) l l' :
  mapM f l = Ok l' -> length l' = length l /\ forall i x, l !! i = Some x -> exists y, l' !! i = Some y /\ f x = Ok y.
Proof.
  revert l'. induction l as [|x l IH]; intros l' H; cbn in H.
  - injection H as <-. split; [done|]. intros i y Hy. by rewrite lookup_nil in Hy.
  - destruct (f x) as [y|] eqn:Ex; [|done]. cbn in H. destruct (mapM f l) as [k|] eqn:El; [|done]. cbn in H. injection H as <-.
    destruct (IH k eq_refl) as [L Hk]. split; [cbn; lia|]. intros [|i] z Hz; cbn in *; [|by apply Hk].
    injection Hz as <-. by exists y.
Qed.

(** A map that takes every entry to its partner. *)
Lemma mapM_related {A B} (P : B -> A -> Prop) (f : A -> res B) l l' :
  (forall x y, P y x -> f x = Ok y) -> Forall2 P l' l -> mapM f l = Ok l'.
Proof. intros Hf. induction 1 as [|y x l' l Hy _ IH]; [done|]. cbn [mapM]. by rewrite (Hf x y Hy), bind_ok, IH, bind_ok. Qed.

Lemma tabulateM_related `{Inhabited A} {B} (P : A -> B -> Prop) (f : nat -> res B) l :
  (forall i, (i < length l)%nat -> returns (f i) (P (l !!! i))) -> returns (tabulateM (length l) f) (Forall2 P l).
Proof.
  unfold tabulateM. assert (forall s, (forall i, (i < length l)%nat -> returns (f (s + i)%nat) (P (l !!! i))) -> returns (mapM f (seq s (length l))) (Forall2 P l)) as Hs; [|exact (Hs 0%nat)].
  induction l as [|x l IH]; intros s Hf; [by apply returns_ok|]. cbn [length seq mapM].
  eapply returns_bind; [rewrite <- (Nat.add_0_r s); apply (Hf 0%nat); cbn; lia|]. intros y Hy.
  eapply returns_bind; [apply (IH (S s)); intros i Hi; rewrite Nat.add_succ_l, <- Nat.add_succ_r; apply (Hf (S i)); cbn; lia|]. intros w Hw. apply returns_ok. by constructor.
Qed.

Lemma tabulateM_inv `{Inhabited A} n (f : nat -> res A) l :
  tabulateM n f = Ok l -> length l = n /\ forall i, (i < n)%nat -> f i = Ok (l !!! i).
Proof.
  intros E. destruct (mapM_inv _ _ _ E) as [L Hl]. rewrite length_seq in L. split; [done|]. intros i Hi.
  destruct (Hl i i) as (y & Hy & ->); [by apply lookup_seq_lt|]. by rewrite (list_lookup_total_correct _ _ _ Hy).
Qed.

Lemma vset_lt {A} (v : list A) i x :
  (i < length v)%nat -> vset v i x = Ok (<[i := x]> v).
Proof. intros Hi. unfold vset. by rewrite decide_True. Qed.

(** ** Congruence modulo an integer

    [eqm m] is an equivalence the ring operations respect, so [rewrite]
    works under sums and products; [eqm_ring] closes congruences between
    expressions that are equal as integers once the reductions are
    removed. *)
Definition eqm (m a b : Z) : Prop := a mod m = b mod m.
Notation "a ≡[ m ] b" := (eqm m a b) (at level 70, m at next level, no associativity).

#[export] Instance eqm_equiv m : Equivalence (eqm m).
Proof. split; unfold eqm; congruence. Qed.
#[export] Instance eqm_add m : Proper (eqm m ==> eqm m ==> eqm m) Z.add.
Proof. intros a a' Ha b b' Hb. unfold eqm in *. rewrite Zplus_mod, Ha, Hb. symmetry. apply Zplus_mod. Qed.
#[export] Instance eqm_sub m : Proper (eqm m ==> eqm m ==> eqm m) Z.sub.
Proof. intros a a' Ha b b' Hb. unfold eqm in *. rewrite Zminus_mod, Ha, Hb. symmetry. apply Zminus_mod. Qed.
#[export] Instance eqm_mul m : Proper (eqm m ==> eqm m ==> eqm m) Z.mul.
Proof. intros a a' Ha b b' Hb. unfold eqm in *. rewrite Zmult_mod, Ha, Hb. symmetry. apply Zmult_mod. Qed.
#[export] Instance eqm_opp m : Proper (eqm m ==> eqm m) Z.opp.
Proof. intros a a' Ha. rewrite <- !Z.sub_0_l. by rewrite Ha. Qed.

Lemma eqm_pow_nonneg m a b n : a ≡[m] b -> 0 <= n -> a ^ n ≡[m] b ^ n.
Proof.
  intros H Hn. revert n Hn. apply natlike_ind; [done|]. intros n Hn IH.
  rewrite !Z.pow_succ_r by done. by apply eqm_mul.
Qed.
#[export] Instance eqm_pow m : Proper (eqm m ==> eq ==> eqm m) Z.pow.
Proof.
  intros a b H n ? <-. destruct (decide (0 <= n)); [by apply eqm_pow_nonneg|].
  by rewrite !Z.pow_neg_r by lia.
Qed.

Section Congruence.
Context (m : Z).
Implicit Types a b c k : Z.

Lemma eqm_mod a : a mod m ≡[m] a.
Proof. apply Zmod_mod. Qed.

Lemma eqm_refl a b : a = b -> a ≡[m] b.
Proof. by intros ->. Qed.

Lemma eqm_iff a b : a ≡[m] b <-> (exists k, a = b + k * m).
Proof.
  unfold eqm. split.
  - intros H. exists (a / m - b / m).
    destruct (decide (m = 0)) as [->|Hm].
    + rewrite !Z.mod_0_r in H. lia.
    + pose proof (Z.div_mod a m Hm). pose proof (Z.div_mod b m Hm). nia.
  - intros [k ->]. apply Z_mod_plus_full.
Qed.

Lemma eqm_multiple a k : a + k * m ≡[m] a.
Proof. apply eqm_iff. by exists k. Qed.

Lemma eqm_small a b : 0 <= a < m -> 0 <= b < m -> a ≡[m] b -> a = b.
Proof. intros Ha Hb H. unfold eqm in H. by rewrite !Z.mod_small in H. Qed.

Lemma eqm_canon a b : 0 <= a < m -> a ≡[m] b -> a = b mod m.
Proof. intros Ha H. unfold eqm in H. by rewrite (Z.mod_small a) in H. Qed.

Lemma eqm_modulus : m ≡[m] 0.
Proof. apply eqm_iff. exists 1. lia. Qed.

(** A congruence in an interval shorter than the modulus is an equality. *)
Lemma eqm_close a b : a ≡[m] b -> - m < a - b < m -> a = b.
Proof. intros [k ->]%eqm_iff Hb. assert (k = 0) by nia. subst k. lia. Qed.
End Congruence.

Lemma eqm_divisor m d a b : (d | m) -> a ≡[m] b -> a ≡[d] b.
Proof.
  intros [c ->] [k ->]%eqm_iff. apply eqm_iff. exists (k * c). ring.
Qed.

Ltac eqm_ring :=
  repeat rewrite !eqm_mod; apply eqm_refl; ring.

(** ** Finite sums *)
Fixpoint sumZ (n : nat) (f : nat -> Z) : Z :=
  match n with O => 0 | S n' => sumZ n' f + f n' end.

Lemma sumZ_ext n f g : (forall i, (i < n)%nat -> f i = g i) -> sumZ n f = sumZ n g.
Proof. induction n as [|n IH]; intros H; simpl; [done|]. rewrite IH by (intros; apply H; lia). rewrite H by lia. done. Qed.

Lemma sumZ_eqm m n f g :
  (forall i, (i < n)%nat -> f i ≡[m] g i) -> sumZ n f ≡[m] sumZ n g.
Proof.
  induction n as [|n IH]; intros H; simpl; [done|].
  rewrite IH by (intros; apply H; lia). by rewrite H by lia.
Qed.

Lemma sumZ_add n f g : sumZ n (fun i => f i + g i) = sumZ n f + sumZ n g.
Proof. induction n as [|n IH]; simpl; lia. Qed.

Lemma sumZ_sub n f g : sumZ n (fun i => f i - g i) = sumZ n f - sumZ n g.
Proof. induction n as [|n IH]; simpl; lia. Qed.

Lemma sumZ_scale n c f : sumZ n (fun i => c * f i) = c * sumZ n f.
Proof. induction n as [|n IH]; simpl; lia. Qed.

Lemma sumZ_zero n : sumZ n (fun _ => 0) = 0.
Proof. induction n as [|n IH]; simpl; lia. Qed.

Lemma sumZ_swap n k (f : nat -> nat -> Z) :
  sumZ n (fun i => sumZ k (fun j => f i j)) = sumZ k (fun j => sumZ n (fun i => f i j)).
Proof.
  induction n as [|n IH]; simpl.
  - by rewrite sumZ_zero.
  - by rewrite IH, <- sumZ_add.
Qed.

Lemma sumZ_split a b f : sumZ (a + b) f = sumZ a f + sumZ b (fun i => f (a + i)%nat).
Proof.
  induction b as [|b IH]; simpl.
  - rewrite Nat.add_0_r. lia.
  - rewrite Nat.add_succ_r. simpl. rewrite IH. lia.
Qed.

Lemma sumZ_split_at n a f : (a <= n)%nat -> sumZ n f = sumZ a f + sumZ (n - a) (fun i => f (a + i)%nat).
Proof. intros Ha. rewrite <- sumZ_split. f_equal. lia. Qed.

Lemma sumZ_prod n d f : sumZ (n * d) f = sumZ n (fun i => sumZ d (fun j => f (i * d + j)%nat)).
Proof.
  induction n as [|n IH]; [done|]. cbn [sumZ]. rewrite <- IH, <- sumZ_split. f_equal. lia.
Qed.

(** A sum with one term that counts. *)
Lemma sumZ_delta n k (f : nat -> Z) : (k < n)%nat -> sumZ n (fun i => if decide (i = k) then f i else 0) = f k.
Proof.
  induction n as [|n IH]; intros Hk; [lia|]. cbn [sumZ]. destruct (decide (n = k)) as [->|NE].
  - rewrite (sumZ_ext k _ (fun _ => 0)), sumZ_zero; [lia|].
    intros i Hi. by rewrite decide_False by lia.
  - rewrite IH by lia. lia.
Qed.

Lemma sumZ_scale_r n c f : sumZ n (fun i => f i * c) = sumZ n f * c.
Proof. induction n as [|n IH]; simpl; lia. Qed.

Lemma sumZ_bound n f B : (forall i, (i < n)%nat -> Z.abs (f i) <= B) -> Z.abs (sumZ n f) <= Z.of_nat n * B.
Proof.
  induction n as [|n IH]; intros H; [simpl; lia|].
  cbn [sumZ]. pose proof (H n ltac:(lia)).
  assert (Z.abs (sumZ n f) <= Z.of_nat n * B) by (apply IH; intros; apply H; lia). lia.
Qed.

Lemma sumZ_range n f lo hi :
  (forall i, (i < n)%nat -> lo <= f i <= hi) -> Z.of_nat n * lo <= sumZ n f <= Z.of_nat n * hi.
Proof.
  induction n as [|n IH]; intros H; [simpl; lia|].
  cbn [sumZ]. pose proof (H n ltac:(lia)).
  assert (Z.of_nat n * lo <= sumZ n f <= Z.of_nat n * hi) by (apply IH; intros; apply H; lia). lia.
Qed.

(** A loop that accumulates a sum modulo [m], and one that accumulates it
    exactly. *)
Lemma for_sum_mod m n (f : nat -> Z -> res Z) (g : nat -> Z) a :
  0 < m -> 0 <= a < m ->
  (forall i acc, (i < n)%nat -> 0 <= acc < m -> f i acc = Ok ((acc + g i) mod m)) ->
  for_ n f a = Ok ((a + sumZ n g) mod m).
Proof.
  intros Hm Ha Hf. induction n as [|n IH]; cbn [for_ sumZ].
  - rewrite Z.add_0_r, Z.mod_small; done.
  - rewrite IH by (intros; apply Hf; lia). rewrite bind_ok, Hf by (lia || by apply Z.mod_pos_bound).
    f_equal. change ((a + sumZ n g) mod m + g n ≡[m] a + (sumZ n g + g n)). rewrite eqm_mod. by rewrite Z.add_assoc.
Qed.

Lemma for_sum n (f : nat -> Z -> res Z) (g : nat -> Z) (B : Z) a :
  0 <= a -> (forall i, (i < n)%nat -> 0 <= g i) -> a + sumZ n g <= B ->
  (forall i acc, (i < n)%nat -> 0 <= acc -> acc + g i <= B -> f i acc = Ok (acc + g i)) ->
  for_ n f a = Ok (a + sumZ n g).
Proof.
  intros Ha Hg HB Hf. induction n as [|n IH]; cbn [for_ sumZ] in *.
  - by rewrite Z.add_0_r.
  - assert (0 <= sumZ n g) as Hs.
    { clear - Hg. induction n as [|n IH]; cbn [sumZ]; [lia|].
      pose proof (Hg n ltac:(lia)). assert (0 <= sumZ n g); [apply IH; intros; apply Hg; lia|lia]. }
    pose proof (Hg n ltac:(lia)).
    rewrite IH by (first [lia | intros; first [apply Hg | apply Hf]; lia]).
    rewrite bind_ok, Hf by lia. f_equal. lia.
Qed.

(** ** Powers of two *)
Lemma pow2_pos n : 0 <= n -> 0 < 2 ^ n.
Proof. intros. by apply Z.pow_pos_nonneg. Qed.

Lemma pow2_split a b : 0 <= a -> 0 <= b -> 2 ^ (a + b) = 2 ^ a * 2 ^ b.
Proof. intros. by apply Z.pow_add_r. Qed.

Lemma land_1_mod x : Z.land x 1 = x mod 2.
Proof. change 1 with (Z.ones 1). by rewrite Z.land_ones by lia. Qed.

Lemma testbit_small lo k i : 0 <= lo < 2 ^ k -> k <= i -> Z.testbit lo i = false.
Proof.
  intros Hlo Hki. destruct (decide (lo = 0)) as [->|Hz]; [apply Z.bits_0|].
  apply Z.bits_above_log2; [lia|].
  apply Z.lt_le_trans with k; [|done]. apply Z.log2_lt_pow2; lia.
Qed.

Lemma land_shiftl_low lo hi k : 0 <= k -> 0 <= lo < 2 ^ k -> Z.land lo (Z.shiftl hi k) = 0.
Proof.
  intros Hk Hlo. apply Z.bits_inj'. intros i Hi. rewrite Z.land_spec, Z.bits_0.
  destruct (decide (i < k)).
  - rewrite Z.shiftl_spec_low by lia. apply andb_false_r.
  - by rewrite (testbit_small lo k) by lia.
Qed.

(** Disjoint bits: the [|] of a low part and a shifted high part is a sum. *)
Lemma lor_shiftl_add lo hi k :
  0 <= k -> 0 <= lo < 2 ^ k -> Z.lor lo (Z.shiftl hi k) = lo + hi * 2 ^ k.
Proof.
  intros Hk Hlo. rewrite <- Z.shiftl_mul_pow2 by lia.
  rewrite <- Z.lxor_lor by (by apply land_shiftl_low). symmetry.
  apply Z.add_nocarry_lxor. by apply land_shiftl_low.
Qed.

(** Closed arithmetic side conditions of witnesses. *)
Ltac zdec := repeat split; vm_compute; first [reflexivity | discriminate | congruence].

(** Integers chosen one by one below a bound. *)
Lemma choice_below k (P : nat -> Z -> Prop) :
  (forall u, (u < k)%nat -> exists z, P u z) -> exists f : nat -> Z, forall u, (u < k)%nat -> P u (f u).
Proof.
  induction k as [|k IH]; intros H; [exists (fun _ => 0); intros; lia|].
  destruct IH as [f Hf]; [intros; apply H; lia|]. destruct (H k ltac:(lia)) as [z Hz].
  exists (fun u => if decide (u = k) then z else f u). intros u Hu. destruct (decide (u = k)) as [->|]; [done|].
  apply Hf. lia.
Qed.
