(* ===== verification/Double.v ===== *)
(** * IEEE binary64 arithmetic on non-negative values

    The language's [double] as the sources use it: integers are converted to
    [double], multiplied, divided, added to [0.5] and truncated.  A value is
    a dyadic [mant * 2^expo]; every operation computes the exact result and
    rounds it to 53 significant bits, ties to even.  All operands of the
    sources are below [2^128], and their quotients above [2^-128], so the
    exponent range of binary64 is never left and is not modelled. *)

From Stdlib Require Import ZArith Lia QArith Lqa.
From stdpp Require Import base tactics numbers.
From S2P Require Import Prelude.

Record double := Dbl { mant : Z; expo : Z }.

(** The value as a fraction [dnum / dden]. *)
Definition dnum (x : double) : Z := mant x * 2 ^ Z.max 0 (expo x).
Definition dden (x : double) : Z := 2 ^ Z.max 0 (- expo x).

(** The exponent that scales [n / d] into [[2^52, 2^53)]. *)
Definition rnd_expo (n d : Z) : Z :=
  let e0 := Z.log2 n - Z.log2 d - 53 in
  if n * 2 ^ Z.max 0 (- e0) <? 2 ^ 53 * (d * 2 ^ Z.max 0 e0) then e0 else e0 + 1.

(** The double nearest to [n / d], ties to even. *)
Definition rnd (n d : Z) : double :=
  if n =? 0 then Dbl 0 0 else
  let e := rnd_expo n d in
  let num := n * 2 ^ Z.max 0 (- e) in
  let den := d * 2 ^ Z.max 0 e in
  let q := num / den in
  let r := num mod den in
  Dbl (if 2 * r <? den then q else if den <? 2 * r then q + 1
       else if Z.even q then q else q + 1) e.

(** The conversions and operations of the language. *)
Definition of_int (z : Z) : double := rnd z 1.
Definition dmul (x y : double) : double := rnd (dnum x * dnum y) (dden x * dden y).
Definition ddiv (x y : double) : double := rnd (dnum x * dden y) (dden x * dnum y).
Definition dadd (x y : double) : double :=
  rnd (dnum x * dden y + dnum y * dden x) (dden x * dden y).
Definition dhalf : double := Dbl 1 (-1).
Definition dfloor (x : double) : Z := dnum x / dden x.

Lemma dden_pos x : 0 < dden x.
Proof. unfold dden. apply pow2_pos. lia. Qed.

Section Rounding.
Context (n d : Z) (Hn : 0 < n) (Hd : 0 < d).
Let e := rnd_expo n d.
Let num := n * 2 ^ Z.max 0 (- e).
Let den := d * 2 ^ Z.max 0 e.

Lemma rnd_den_pos : 0 < den.
Proof. unfold den. pose proof (pow2_pos (Z.max 0 e)). nia. Qed.

(** The scaled quotient has 53 significant bits. *)
Lemma rnd_scaled : 2 ^ 52 * den <= num.
Proof.
  unfold num, den, e, rnd_expo.
  set (e0 := Z.log2 n - Z.log2 d - 53).
  pose proof (Z.log2_spec n Hn) as [Hln _].
  pose proof (Z.log2_spec d Hd) as [_ Hld].
  pose proof (Z.log2_nonneg n). pose proof (Z.log2_nonneg d).
  case_match eqn:Hc.
  - transitivity (2 ^ Z.log2 n * 2 ^ Z.max 0 (- e0)).
    2: { apply Z.mul_le_mono_nonneg_r; [|done]. apply Z.lt_le_incl, pow2_pos. lia. }
    transitivity (2 ^ 52 * (2 ^ (Z.log2 d + 1) * 2 ^ Z.max 0 e0)).
    { apply Z.mul_le_mono_nonneg_l; [lia|]. apply Z.mul_le_mono_nonneg_r.
      - apply Z.lt_le_incl, pow2_pos. lia.
      - rewrite <- Z.add_1_r in Hld. lia. }
    rewrite <- !Z.pow_add_r by lia. apply Z.pow_le_mono_r; lia.
  - apply Z.ltb_ge in Hc.
    destruct (decide (0 <= e0)).
    + replace (Z.max 0 (- (e0 + 1))) with 0 by lia.
      replace (Z.max 0 (- e0)) with 0 in Hc by lia.
      replace (Z.max 0 e0) with e0 in Hc by lia.
      replace (Z.max 0 (e0 + 1)) with (e0 + 1) by lia.
      rewrite Z.pow_add_r by lia. change (2 ^ 53) with (2 ^ 52 * 2) in Hc.
      change (2 ^ 1) with 2. lia.
    + replace (Z.max 0 (e0 + 1)) with 0 by lia.
      replace (Z.max 0 e0) with 0 in Hc by lia.
      replace (Z.max 0 (- e0)) with (Z.max 0 (- (e0 + 1)) + 1) in Hc by lia.
      rewrite Z.pow_add_r in Hc by lia. change (2 ^ 53) with (2 ^ 52 * 2) in Hc.
      change (2 ^ 1) with 2 in Hc. lia.
Qed.

Lemma rnd_unfold :
  expo (rnd n d) = e /\
  2 * Z.abs (mant (rnd n d) * den - num) <= den /\
  ((den | num) -> mant (rnd n d) * den = num).
Proof.
  unfold rnd. rewrite (proj2 (Z.eqb_neq n 0)) by lia. cbn [expo mant].
  fold e. fold num. fold den. split; [done|].
  pose proof rnd_den_pos as Hp.
  pose proof (Z.div_mod num den ltac:(lia)) as Hdm.
  pose proof (Z.mod_pos_bound num den Hp) as Hb.
  split.
  - destruct (Z.ltb_spec (2 * (num mod den)) den); [nia|].
    destruct (Z.ltb_spec den (2 * (num mod den))); [nia|].
    destruct (Z.even _); nia.
  - intros H%Z.mod_divide; [|lia]. rewrite H in Hdm |- *.
    destruct (Z.ltb_spec (2 * 0) den); nia.
Qed.

Lemma rnd_num : dnum (rnd n d) * d = mant (rnd n d) * den.
Proof. unfold dnum, den. rewrite (proj1 rnd_unfold). ring. Qed.

Lemma rnd_den : n * dden (rnd n d) = num.
Proof. unfold dden, num. by rewrite (proj1 rnd_unfold). Qed.
End Rounding.

(** The relative error of a rounding is at most [2^-53]. *)
Lemma rnd_err n d :
  0 <= n -> 0 < d ->
  2 ^ 53 * Z.abs (dnum (rnd n d) * d - n * dden (rnd n d)) <= n * dden (rnd n d).
Proof.
  intros Hn Hd. destruct (decide (n = 0)) as [->|Hz].
  { unfold rnd, dnum, dden. simpl. lia. }
  rewrite rnd_num, rnd_den by lia.
  pose proof (rnd_unfold n d ltac:(lia) Hd) as (_ & H & _).
  pose proof (rnd_scaled n d ltac:(lia) Hd). lia.
Qed.

(** A value with at most 53 significant bits is not changed. *)
Lemma rnd_exact n d j k :
  0 <= n -> 0 < d -> 0 <= k -> 0 <= j < 2 ^ 53 -> n * 2 ^ k = j * d ->
  dnum (rnd n d) * 2 ^ k = j * dden (rnd n d).
Proof.
  intros Hn Hd Hk Hj Heq. pose proof (pow2_pos k Hk) as Hpk.
  destruct (decide (n = 0)) as [->|Hz].
  { assert (j = 0) as -> by nia. unfold rnd, dnum, dden. simpl. lia. }
  pose proof (rnd_num n d ltac:(lia) Hd) as Hnum. pose proof (rnd_den n d ltac:(lia) Hd) as Hden.
  pose proof (rnd_unfold n d ltac:(lia) Hd) as (He & _ & Hex).
  pose proof (rnd_scaled n d ltac:(lia) Hd) as Hsc.
  set (e := rnd_expo n d) in *.
  assert (e <= - k) as Hek.
  { destruct (decide (e <= - k)); [done|]. exfalso.
    assert (2 ^ 53 * d * 2 ^ (Z.max 0 e) * 2 ^ k <= 2 * (n * 2 ^ Z.max 0 (- e)) * 2 ^ k) as H
      by (change (2 ^ 53) with (2 * 2 ^ 52); nia).
    assert (n * 2 ^ Z.max 0 (- e) * 2 ^ k = j * d * 2 ^ Z.max 0 (- e)) as H2 by nia.
    assert (2 * 2 ^ Z.max 0 (- e) <= 2 ^ Z.max 0 e * 2 ^ k) as H3.
    { change 2 with (2 ^ 1) at 1. rewrite <- !Z.pow_add_r by lia. apply Z.pow_le_mono_r; lia. }
    pose proof (pow2_pos (Z.max 0 (- e))). pose proof (pow2_pos (Z.max 0 e)).
    assert (2 ^ 53 * (d * (2 * 2 ^ Z.max 0 (- e))) <= 2 * j * d * 2 ^ Z.max 0 (- e)) by nia.
    assert (2 ^ 53 <= j) by nia. lia. }
  assert (dnum (rnd n d) * d = n * dden (rnd n d)) as Hval.
  { rewrite Hnum, Hden. apply Hex. replace (Z.max 0 e) with 0 by lia.
    replace (Z.max 0 (- e)) with (k + (- e - k)) by lia. rewrite Z.pow_add_r by lia.
    exists (j * 2 ^ (- e - k)). rewrite Z.mul_1_r. nia. }
  assert (d * (dnum (rnd n d) * 2 ^ k) = d * (j * dden (rnd n d))) by nia. nia.
Qed.

(** ** Values as rationals *)
Local Open Scope Q_scope.

Definition frac (n d : Z) : Q := n # Z.to_pos d.
Definition dval (x : double) : Q := frac (dnum x) (dden x).
Definition ulp53 : Q := 1 # 9007199254740992.

Lemma frac_le n d n' d' :
  (0 < d)%Z -> (0 < d')%Z -> frac n d <= frac n' d' <-> (n * d' <= n' * d)%Z.
Proof. intros. unfold frac, Qle. simpl. by rewrite !Z2Pos.id by done. Qed.

Lemma frac_eq n d n' d' :
  (0 < d)%Z -> (0 < d')%Z -> (n * d' = n' * d)%Z -> frac n d == frac n' d'.
Proof. intros. unfold frac, Qeq. simpl. by rewrite !Z2Pos.id by done. Qed.

Lemma frac_mul n d n' d' :
  (0 < d)%Z -> (0 < d')%Z -> frac (n * n') (d * d') == frac n d * frac n' d'.
Proof.
  intros. unfold frac, Qeq, Qmult. cbn [Qnum Qden].
  by rewrite Pos2Z.inj_mul, !Z2Pos.id by lia.
Qed.

Lemma frac_add n d n' d' :
  (0 < d)%Z -> (0 < d')%Z -> frac (n * d' + n' * d) (d * d') == frac n d + frac n' d'.
Proof.
  intros. unfold frac, Qeq, Qplus. cbn [Qnum Qden].
  by rewrite Pos2Z.inj_mul, !Z2Pos.id by lia.
Qed.

Lemma dval_rnd n d :
  (0 <= n)%Z -> (0 < d)%Z ->
  frac n d * (1 - ulp53) <= dval (rnd n d) <= frac n d * (1 + ulp53).
Proof.
  intros Hn Hd. pose proof (rnd_err n d Hn Hd) as He. unfold dval.
  pose proof (dden_pos (rnd n d)) as Hp.
  set (a := dnum (rnd n d)) in *. set (b := dden (rnd n d)) in *.
  assert (1 - ulp53 == frac (2 ^ 53 - 1) (2 ^ 53)) as -> by reflexivity.
  assert (1 + ulp53 == frac (2 ^ 53 + 1) (2 ^ 53)) as -> by reflexivity.
  rewrite <- !frac_mul by lia. rewrite !frac_le by lia. lia.
Qed.

Lemma dval_rnd_exact n d j k :
  (0 <= n)%Z -> (0 < d)%Z -> (0 <= k)%Z -> (0 <= j < 2 ^ 53)%Z -> (n * 2 ^ k = j * d)%Z ->
  dval (rnd n d) == frac n d.
Proof.
  intros Hn Hd Hk Hj Heq. pose proof (rnd_exact n d j k Hn Hd Hk Hj Heq) as H.
  pose proof (pow2_pos k Hk). pose proof (dden_pos (rnd n d)).
  apply frac_eq; [done|done|]. nia.
Qed.

Lemma dval_of_int z : (0 <= z < 2 ^ 53)%Z -> dval (of_int z) == frac z 1.
Proof. intros Hz. apply (dval_rnd_exact z 1 z 0); lia. Qed.

Lemma dnum_nonneg_rnd n d : (0 <= n)%Z -> (0 < d)%Z -> (0 <= dnum (rnd n d))%Z.
Proof.
  intros Hn Hd. pose proof (rnd_err n d Hn Hd). pose proof (dden_pos (rnd n d)). nia.
Qed.

(** [frac] determines a fraction up to cross multiplication. *)
Lemma frac_inv n d n' d' :
  (0 < d)%Z -> (0 < d')%Z -> frac n d == frac n' d' -> (n * d' = n' * d)%Z.
Proof. intros ?? H. unfold frac, Qeq in H. simpl in H. by rewrite !Z2Pos.id in H by done. Qed.

Lemma dfloor_bounds x t :
  dfloor x = t <-> frac t 1 <= dval x /\ ~ (frac (t + 1) 1 <= dval x).
Proof.
  unfold dfloor, dval. pose proof (dden_pos x) as Hp. rewrite !frac_le by lia.
  split.
  - intros <-. pose proof (Z.div_mod (dnum x) (dden x)). pose proof (Z.mod_pos_bound (dnum x) (dden x)).
    nia.
  - intros [H1 H2]. symmetry. apply (Z.div_unique_pos _ _ _ (dnum x - dden x * t)); nia.
Qed.

Lemma dadd_half x :
  (0 <= dnum x)%Z ->
  (dval x + (1 # 2)) * (1 - ulp53) <= dval (dadd dhalf x) <= (dval x + (1 # 2)) * (1 + ulp53).
Proof.
  intros Hx. pose proof (dden_pos x) as Hp. unfold dadd.
  change (dnum dhalf) with 1%Z. change (dden dhalf) with 2%Z.
  assert (dval x + (1 # 2) == frac (1 * dden x + dnum x * 2) (2 * dden x)) as ->.
  { rewrite frac_add by lia. unfold dval. change (frac 1 2) with (1 # 2). ring. }
  apply dval_rnd; lia.
Qed.

Lemma dadd_half_exact x t :
  (0 <= dnum x)%Z -> (0 <= t < 2 ^ 53)%Z -> dval x + (1 # 2) == frac t 1 ->
  dval (dadd dhalf x) == frac t 1.
Proof.
  intros Hx Ht Heq. pose proof (dden_pos x) as Hp.
  assert (frac (1 * dden x + dnum x * 2) (2 * dden x) == frac t 1) as E.
  { rewrite <- Heq, frac_add by lia. unfold dval. change (frac 1 2) with (1 # 2). ring. }
  rewrite <- E. apply frac_inv in E; [|lia..]. unfold dadd.
  change (dnum dhalf) with 1%Z. change (dden dhalf) with 2%Z.
  apply (dval_rnd_exact _ _ t 0); lia.
Qed.

(** ** The scale-and-round expression [floor(0.5 + v * q / Q)] *)
Definition dscale_round (v q Q : Z) : Z :=
  dfloor (dadd dhalf (ddiv (dmul (of_int v) (of_int q)) (of_int Q))).

Section ScaleRound.
Context (v q Q : Z) (Hv : (0 <= v)%Z) (Hq : (0 < q)%Z) (HQ : (0 < Q)%Z).
Context (Hbound : (6 * (v * q) + 2 * Q + v + q < 2 ^ 53)%Z).

Lemma dscale_product :
  let p := dmul (of_int v) (of_int q) in dval p == frac (v * q) 1 /\ (0 <= dnum p)%Z.
Proof.
  pose proof (dval_of_int v ltac:(nia)) as Ev. pose proof (dval_of_int q ltac:(nia)) as Eq.
  pose proof (dden_pos (of_int v)). pose proof (dden_pos (of_int q)).
  apply frac_inv in Ev, Eq; [|lia..].
  pose proof (dnum_nonneg_rnd v 1 Hv ltac:(lia)). pose proof (dnum_nonneg_rnd q 1 ltac:(lia) ltac:(lia)).
  fold (of_int v) (of_int q) in *.
  cbn zeta. split; [|apply dnum_nonneg_rnd; nia].
  unfold dmul. rewrite (dval_rnd_exact _ _ (v * q) 0); [|nia..].
  apply frac_eq; nia.
Qed.

Lemma dscale_quotient :
  let x := ddiv (dmul (of_int v) (of_int q)) (of_int Q) in
  frac (v * q) Q * (1 - ulp53) <= dval x <= frac (v * q) Q * (1 + ulp53) /\
  ((Q | 2 * (v * q))%Z -> dval x == frac (v * q) Q) /\ (0 <= dnum x)%Z.
Proof.
  destruct dscale_product as [Ep Hp]. set (p := dmul (of_int v) (of_int q)) in *.
  pose proof (dval_of_int Q ltac:(nia)) as EQ. pose proof (dden_pos p) as Hdp.
  pose proof (dden_pos (of_int Q)) as HdQ. apply frac_inv in EQ, Ep; [|lia..].
  cbn zeta. unfold ddiv.
  set (a := dnum p) in *. set (b := dden p) in *.
  set (c := dnum (of_int Q)) in *. set (d := dden (of_int Q)) in *.
  assert (c = Q * d)%Z as -> by lia. assert (a = v * q * b)%Z as -> by lia.
  assert (frac (v * q * b * d) (b * (Q * d)) == frac (v * q) Q) as Heq by (apply frac_eq; nia).
  split; [|split].
  - rewrite <- Heq. apply dval_rnd; nia.
  - intros [j Hj]. rewrite <- Heq.
    apply (dval_rnd_exact _ _ j 1); [nia|nia|lia|nia|].
    change (2 ^ 1)%Z with 2%Z. transitivity ((2 * (v * q)) * (b * d))%Z; [ring|]. rewrite Hj. ring.
  - apply dnum_nonneg_rnd; nia.
Qed.

(** Within the precision of [double] the expression is the exact rounded
    quotient: half is added, and the floor taken, without any error. *)
Lemma dscale_round_exact : dscale_round v q Q = ((2 * (v * q) + Q) / (2 * Q))%Z.
Proof.
  unfold dscale_round. destruct dscale_quotient as ([Hlo Hhi] & Hex & Hnn).
  set (x := ddiv (dmul (of_int v) (of_int q)) (of_int Q)) in *.
  set (t := ((2 * (v * q) + Q) / (2 * Q))%Z).
  assert (t * (2 * Q) <= 2 * (v * q) + Q < (t + 1) * (2 * Q))%Z as [Ht1 Ht2].
  { unfold t. pose proof (Z.div_mod (2 * (v * q) + Q) (2 * Q) ltac:(lia)).
    pose proof (Z.mod_pos_bound (2 * (v * q) + Q) (2 * Q) ltac:(lia)). lia. }
  assert (0 <= t <= v * q + 1)%Z as Htb by nia.
  destruct (dadd_half x Hnn) as [Hclo Hchi].
  apply dfloor_bounds. set (c := dval (dadd dhalf x)) in *.
  assert (ulp53 * (3 * frac (v * q) Q + 1) <= frac 1 (2 * Q)) as Hgap.
  { change ulp53 with (frac 1 (2 ^ 53)). change 3 with (frac 3 1). change 1 with (frac 1 1).
    rewrite <- frac_mul, <- frac_add, <- frac_mul, frac_le by lia.
    apply Z.le_trans with ((6 * (v * q) + 2 * Q) * Q)%Z; [lia|].
    apply Z.le_trans with (2 ^ 53 * Q)%Z; [|lia]. apply Z.mul_le_mono_nonneg_r; lia. }
  assert (0 <= frac (v * q) Q) as Hx0 by (change 0 with (frac 0 1); rewrite frac_le by lia; nia).
  assert (frac (v * q) Q + (1 # 2) + frac 1 (2 * Q) <= frac (t + 1) 1) as Hup.
  { change (1 # 2) with (frac 1 2). rewrite <- !frac_add by lia. rewrite frac_le by lia. nia. }
  split.
  - destruct (decide (t * (2 * Q) = 2 * (v * q) + Q)%Z) as [E|NE].
    + unfold c. rewrite dadd_half_exact with (t := t); [apply Qle_refl|done|split; [lia|nia]|].
      rewrite Hex by (exists (2 * t - 1)%Z; lia).
      change (1 # 2) with (frac 1 2). rewrite <- frac_add by lia. apply frac_eq; lia.
    + assert (frac t 1 + frac 1 (2 * Q) <= frac (v * q) Q + (1 # 2)) as Hl.
      { change (1 # 2) with (frac 1 2). rewrite <- !frac_add by lia. rewrite frac_le by lia. nia. }
      unfold ulp53 in *. lra.
  - intros Hc. unfold ulp53 in *. lra.
Qed.
End ScaleRound.
