(* ===== verification/NativeInt.v ===== *)
(** * The native integer layer: [NativeIntegerT]

    Models [src/core/include/math/hal/intnat/ubintnat.h] and the bit helpers
    of [src/core/include/math/nbtheory.h].  An integer of the class template
    is the [Z] its [m_value] holds; the width [w] of [NativeInt] is a
    variable of the section, so the three instantiations (32, 64 and 128
    bits) are covered at once.  The members the template selects with
    [enable_if] come in two versions: the plain name is the one for a
    [NativeInt] that has a double-width companion [DNativeInt] (of [2 * w]
    bits), the suffix [_same] the one for the widest type, which works on
    pairs of words ([typeD]).  The suffix [_mu] marks the overloads that take
    the precomputed Barrett constant. *)

From Stdlib Require Import ZArith Lia Ascii String Zpow_facts.
From stdpp Require Import base tactics numbers list.
From S2P Require Import Prelude Double.

(** ** Leading bits ([clz_u128], [GetMSB]) *)
Definition clzll (x : Z) : Z := 63 - Z.log2 x.

Definition clz_u128 (u : Z) : Z :=
  let hi := Z.shiftr u 64 in
  let lo := u mod 2 ^ 64 in
  if negb (hi =? 0) then clzll hi else if negb (lo =? 0) then clzll lo + 64 else 128.

Definition GetMSB (w x : Z) : Z :=
  if w <=? 64 then (if x =? 0 then 0 else 64 - clzll x)
  else 128 - clz_u128 x.

(** The value of a [char], which is signed. *)
Definition char_val (c : ascii) : Z :=
  let n := Z.of_nat (nat_of_ascii c) in if n <? 128 then n else n - 256.

(** A double word as two words ([typeD]). *)
Record typeD := TypeD { hi : Z; lo : Z }.

Section NativeInteger.
Context (w : Z).

(** Unsigned arithmetic of [NativeInt] and [DNativeInt] wraps around. *)
Definition wrap (x : Z) : Z := x mod 2 ^ w.
Definition dwrap (x : Z) : Z := x mod 2 ^ (2 * w).
Definition to_signed (x : Z) : Z := if x <? 2 ^ (w - 1) then x else x - 2 ^ w.

(** [/] and [%] by zero, and shifts by a negative amount or by the width
    of the operand or more, are undefined. *)
Definition udiv (a b : Z) : res Z :=
  if b =? 0 then Throw undefined_behaviour else Ok (a / b).
Definition umod (a b : Z) : res Z :=
  if b =? 0 then Throw undefined_behaviour else Ok (a mod b).
Definition ushr (width x s : Z) : res Z :=
  if (0 <=? s) && (s <? width) then Ok (Z.shiftr x s) else Throw undefined_behaviour.
Definition ushl (width x s : Z) : res Z :=
  if (0 <=? s) && (s <? width) then Ok (Z.shiftl x s mod 2 ^ width) else Throw undefined_behaviour.

(** ** Conversion from a decimal string *)
Fixpoint SetValue_loop (s : list ascii) (acc tst : Z) : res Z :=
  match s with
  | [] => Ok acc
  | c :: s' =>
    if 9 <? char_val c - 48 then Throw (type_error "String contains a non-digit") else
    let acc' := wrap (wrap (10 * acc) + wrap (char_val c - 48)) in
    if acc' <? tst then Throw (math_error " is too large to fit in this native integer object")
    else SetValue_loop s' acc' acc'
  end.
Definition SetValue (str : string) : res Z := SetValue_loop (list_ascii_of_string str) 0 0.

(** ** Addition, subtraction, multiplication *)
Definition AddCheck (a b : Z) : res Z :=
  let r := wrap (a + b) in
  if (r <? a) || (r <? b) then Throw (math_error "NativeIntegerT AddCheck: Overflow") else Ok r.
Definition AddFast (a b : Z) : Z := wrap (b + a).
Definition AddEqCheck (a b : Z) : res Z :=
  let v := wrap (a + b) in
  if v <? a then Throw (math_error "NativeIntegerT AddEqCheck: Overflow") else Ok v.
Definition AddEqFast (a b : Z) : Z := wrap (b + a).
Definition SubCheck (a b : Z) : Z := if a <=? b then 0 else wrap (a - b).
Definition SubFast (a b : Z) : Z := wrap (a - b).
Definition SubEqCheck (a b : Z) : res Z :=
  if a <? b then Throw (math_error "NativeIntegerT SubEqCheck: neg value") else Ok (wrap (a - b)).
Definition SubEqFast (a b : Z) : Z := wrap (a - b).

(** [NATIVEINT_DO_CHECKS] is [false]: the dispatchers take the fast
    versions. *)
Definition NATIVEINT_DO_CHECKS : bool := false.
Definition Add (a b : Z) : res Z := if NATIVEINT_DO_CHECKS then AddCheck a b else Ok (AddFast a b).
Definition AddEq (a b : Z) : res Z := if NATIVEINT_DO_CHECKS then AddEqCheck a b else Ok (AddEqFast a b).
Definition Sub (a b : Z) : Z := if NATIVEINT_DO_CHECKS then SubCheck a b else SubFast a b.
Definition SubEq (a b : Z) : res Z := if NATIVEINT_DO_CHECKS then SubEqCheck a b else Ok (SubEqFast a b).
Definition opp (a : Z) : Z := Sub 0 a.

Definition MulCheck (a b : Z) : res Z :=
  let p := wrap (b * a) in
  if (p <? a) || (p <? b) then Throw (math_error "NativeIntegerT MulCheck: Overflow") else Ok p.
Definition MulFast (a b : Z) : Z := wrap (b * a).
Definition MulEqCheck (a b : Z) : res Z :=
  let v := wrap (a * b) in
  if v <? a then Throw (math_error "NativeIntegerT MulEqCheck: Overflow") else Ok v.
Definition MulEqFast (a b : Z) : Z := wrap (b * a).
Definition Mul (a b : Z) : res Z := if NATIVEINT_DO_CHECKS then MulCheck a b else Ok (MulFast a b).
Definition MulEq (a b : Z) : res Z := if NATIVEINT_DO_CHECKS then MulEqCheck a b else Ok (MulEqFast a b).

(** ** Division, exponentiation, rounding *)
Definition DividedBy (a b : Z) : res Z :=
  if b =? 0 then Throw (math_error "NativeIntegerT DividedBy: zero") else Ok (a / b).
Definition DividedByEq (a b : Z) : res Z :=
  if b =? 0 then Throw (math_error "NativeIntegerT DividedByEq: zero") else Ok (a / b).

(** [for (x = m_value; p > 0; p >>= 1, x *= x) r *= (p & 1) ? x : 1], the
    exponent [p] being a 32-bit [usint]. *)
Fixpoint Exp_loop (fuel : nat) (x p r : Z) : res Z :=
  match fuel with
  | O => Throw out_of_fuel
  | S fuel' =>
    if 0 <? p
    then Exp_loop fuel' (wrap (x * x)) (Z.shiftr p 1) (wrap (r * if Z.land p 1 =? 0 then 1 else x))
    else Ok r
  end.
Definition Exp (a p : Z) : res Z := Exp_loop 33 a p 1.
Definition ExpEq (a p : Z) : res Z := Exp_loop 33 a p 1.

(** [static_cast<NativeInt>(p * (this / q) + 0.5)] on doubles; the
    conversion of a value that does not fit is undefined. *)
Definition MultiplyAndRound (a p q : Z) : res Z :=
  if q =? 0 then Throw (math_error "NativeIntegerT MultiplyAndRound: Divide by zero") else
  let r := dfloor (dadd (dmul (of_int p) (ddiv (of_int a) (of_int q))) dhalf) in
  if r <? 2 ^ w then Ok r else Throw undefined_behaviour.
Definition MultiplyAndRoundEq (a p q : Z) : res Z :=
  if q =? 0 then Throw (math_error "NativeIntegerT MultiplyAndRoundEq: Divide by zero") else
  let r := dfloor (dadd (dmul (of_int p) (ddiv (of_int a) (of_int q))) dhalf) in
  if r <? 2 ^ w then Ok r else Throw undefined_behaviour.

Definition DivideAndRound (a q : Z) : res Z :=
  if q =? 0 then Throw (math_error "NativeIntegerT DivideAndRound: zero") else
  let ans := a / q in
  let rem := a mod q in
  let halfQ := Z.shiftr q 1 in
  if halfQ <? rem then Ok (wrap (ans + 1)) else Ok ans.
Definition DivideAndRoundEq (a q : Z) : res Z :=
  if q =? 0 then Throw (math_error "NativeIntegerT DivideAndRoundEq: zero") else
  let ans := a / q in
  let rem := a mod q in
  let halfQ := Z.shiftr q 1 in
  if halfQ <? rem then Ok (wrap (ans + 1)) else Ok ans.

(** ** Words and double words *)
Definition SubtractD (r a : typeD) : typeD :=
  if lo r <? lo a
  then TypeD (wrap (wrap (hi r - 1) - hi a)) (wrap (lo r + wrap (wrap (2 ^ w - 1 + 1) - lo a)))
  else TypeD (wrap (hi r - hi a)) (wrap (lo r - lo a)).

Definition RShiftD (x : typeD) (shift : Z) : res Z :=
  l ← ushr w (lo x) shift;
  h ← ushl w (hi x) (w - shift);
  Ok (Z.lor l h).

(** [MultD] for 32 and 64 bits: the product is computed in [DNativeInt]. *)
Definition MultD (a b : Z) : typeD :=
  let c := dwrap (a * b) in TypeD (wrap (Z.shiftr c w)) (wrap c).

(** [MultD] for 128 bits: schoolbook multiplication of 64-bit halves. *)
Definition MultD_u128 (a b : Z) : typeD :=
  let masklo := 2 ^ 64 - 1 in
  let onehi := 2 ^ 64 in
  let u128 x := x mod 2 ^ 128 in
  let a1 := Z.shiftr a 64 in
  let a2 := Z.land a masklo in
  let b1 := Z.shiftr b 64 in
  let b2 := Z.land b masklo in
  let a1b2 := u128 (a1 * b2) in
  let a2b1 := u128 (a2 * b1) in
  let tmp := u128 (a1b2 + a2b1) in
  let l := u128 (a2 * b2) in
  let h := u128 (a1 * b1) in
  let rlo := u128 (l + u128 (Z.shiftl tmp 64)) in
  let h := if rlo <? l then u128 (h + 1) else h in
  let h := if (tmp <? a1b2) || (tmp <? a2b1) then u128 (h + onehi) else h in
  TypeD (u128 (h + Z.shiftr tmp 64)) rlo.

(** The overload the instantiation selects. *)
Definition MultD_ (a b : Z) : typeD := if w =? 128 then MultD_u128 a b else MultD a b.

Definition MultDHi (a b : Z) : Z := hi (MultD_ a b).

Definition GetD (x : typeD) : Z := Z.lor (dwrap (Z.shiftl (hi x) w)) (lo x).

(** ** Reduction *)
Definition Mod (a m : Z) : res Z := umod a m.
Definition ModEq (a m : Z) : res Z := umod a m.

Definition ComputeMu (m : Z) : res Z :=
  if m =? 0 then Throw (math_error "NativeIntegerT ComputeMu: Divide by zero") else
  tmp ← ushl (2 * w) 1 (2 * GetMSB w m + 3);
  Ok (wrap (tmp / m)).
Definition ComputeMu_same (m : Z) : res Z :=
  if m =? 0 then Throw (math_error "NativeIntegerT ComputeMu: Divide by zero") else
  let tmp := Z.shiftl 1 (2 * GetMSB w m + 3) in
  Ok (wrap (tmp / m)).

(** The reduction step of the Barrett functions; [n] is [GetMSB(mv) - 2]. *)
Definition ModMu (a mv mu n : Z) : res Z :=
  s ← RShiftD (TypeD 0 a) n;
  t ← ushr (2 * w) (GetD (MultD s mu)) (n + 7);
  let a := wrap (a - wrap (dwrap (t * mv))) in
  Ok (if mv <=? a then wrap (a - mv) else a).
Definition ModMu_same (a mv mu n : Z) : res Z :=
  s ← RShiftD (TypeD 0 a) n;
  t ← RShiftD (MultD_ s mu) (n + 7);
  let a := wrap (a - lo (MultD_ t mv)) in
  Ok (if mv <=? a then wrap (a - mv) else a).

Definition Mod_mu (a m mu : Z) : res Z := ModMu a m mu (GetMSB w m - 2).
Definition ModEq_mu (a m mu : Z) : res Z := ModMu a m mu (GetMSB w m - 2).
Definition Mod_mu_same (a m mu : Z) : res Z := ModMu_same a m mu (GetMSB w m - 2).

(** ** Modular addition *)
Definition ModAdd (a b m : Z) : res Z :=
  av ← (if m <=? a then umod a m else Ok a);
  bv ← (if m <=? b then umod b m else Ok b);
  let av := wrap (av + bv) in
  Ok (if m <=? av then wrap (av - m) else av).
Definition ModAddEq (a b m : Z) : res Z :=
  v ← (if m <=? a then umod a m else Ok a);
  bv ← (if m <=? b then umod b m else Ok b);
  let v := wrap (v + bv) in
  Ok (if m <=? v then wrap (v - m) else v).
Definition ModAddFast (a b m : Z) : Z :=
  let r := wrap (a + b) in if m <=? r then wrap (r - m) else r.
Definition ModAddFastEq (a b m : Z) : Z :=
  let v := wrap (a + b) in if m <=? v then wrap (v - m) else v.
Definition ModAdd_mu (a b m mu : Z) : res Z :=
  av ← (if m <=? a then ModEq_mu a m mu else Ok a);
  bv ← (if m <=? b then ModEq_mu b m mu else Ok b);
  let av := wrap (av + bv) in
  Ok (if m <=? av then wrap (av - m) else av).
Definition ModAddEq_mu (a b m mu : Z) : res Z :=
  av ← (if m <=? a then ModEq_mu a m mu else Ok a);
  bv ← (if m <=? b then ModEq_mu b m mu else Ok b);
  let v := wrap (av + bv) in
  Ok (if m <=? v then wrap (v - m) else v).

(** ** Modular subtraction *)
Definition ModSub (a b m : Z) : res Z :=
  av ← (if m <=? a then umod a m else Ok a);
  bv ← (if m <=? b then umod b m else Ok b);
  Ok (if av <? bv then wrap (wrap (av + m) - bv) else wrap (av - bv)).
Definition ModSubEq (a b m : Z) : res Z :=
  av ← (if m <=? a then umod a m else Ok a);
  bv ← (if m <=? b then umod b m else Ok b);
  Ok (if av <? bv then wrap (wrap (av + m) - bv) else wrap (av - bv)).
Definition ModSubFast (a b m : Z) : Z :=
  if a <? b then wrap (wrap (a + m) - b) else wrap (a - b).
Definition ModSubFastEq (a b m : Z) : Z :=
  if a <? b then wrap (wrap (a + m) - b) else wrap (a - b).
Definition ModSub_mu (a b m mu : Z) : res Z :=
  av ← (if m <=? a then ModEq_mu a m mu else Ok a);
  bv ← (if m <=? b then ModEq_mu b m mu else Ok b);
  Ok (if av <? bv then wrap (wrap (av + m) - bv) else wrap (av - bv)).
Definition ModSubEq_mu (a b m mu : Z) : res Z :=
  av ← (if m <=? a then ModEq_mu a m mu else Ok a);
  bv ← (if m <=? b then ModEq_mu b m mu else Ok b);
  Ok (if av <? bv then wrap (wrap (av + m) - bv) else wrap (av - bv)).

(** ** Modular multiplication

    [barrett] is the common tail of the [_mu] functions: the product as a
    double word, the quotient estimate, one conditional subtraction. *)
Definition barrett (a b m mu n : Z) : res Z :=
  let tmp := MultD a b in
  s ← RShiftD tmp n;
  t ← ushr (2 * w) (GetD (MultD s mu)) (n + 7);
  let rv := dwrap (GetD tmp - dwrap (m * t)) in
  let r := wrap rv in
  Ok (if m <=? r then wrap (r - m) else r).
Definition barrett_same (a b m mu n : Z) : res Z :=
  let tmp := MultD_ a b in
  s ← RShiftD tmp n;
  t ← RShiftD (MultD_ s mu) (n + 7);
  let r := lo (SubtractD tmp (MultD_ t m)) in
  Ok (if m <=? r then wrap (r - m) else r).

Definition ModMul (a b m : Z) : res Z :=
  av ← (if m <=? a then umod a m else Ok a);
  bv ← (if m <=? b then umod b m else Ok b);
  let rv := dwrap (av * bv) in
  rv ← (if m <=? rv then umod rv m else Ok rv);
  Ok (wrap rv).
Definition ModMulEq (a b m : Z) : res Z :=
  av ← (if m <=? a then umod a m else Ok a);
  bv ← (if m <=? b then umod b m else Ok b);
  let rv := dwrap (av * bv) in
  rv ← (if m <=? rv then umod rv m else Ok rv);
  Ok (wrap rv).
Definition ModMul_same (a b m : Z) : res Z :=
  mu ← ComputeMu_same m;
  let n := GetMSB w m - 2 in
  av ← (if m <=? a then ModMu_same a m mu n else Ok a);
  bv ← (if m <=? b then ModMu_same b m mu n else Ok b);
  barrett_same av bv m mu n.
Definition ModMul_mu (a b m mu : Z) : res Z :=
  let n := GetMSB w m - 2 in
  av ← (if m <=? a then ModMu a m mu n else Ok a);
  bv ← (if m <=? b then ModMu b m mu n else Ok b);
  barrett av bv m mu n.
Definition ModMulEq_mu (a b m mu : Z) : res Z :=
  let n := GetMSB w m - 2 in
  av ← (if m <=? a then ModMu a m mu n else Ok a);
  bv ← (if m <=? b then ModMu b m mu n else Ok b);
  barrett av bv m mu n.
Definition ModMul_mu_same (a b m mu : Z) : res Z :=
  let n := GetMSB w m - 2 in
  av ← (if m <=? a then ModMu_same a m mu n else Ok a);
  bv ← (if m <=? b then ModMu_same b m mu n else Ok b);
  barrett_same av bv m mu n.
Definition ModMulFast (a b m : Z) : res Z :=
  let rv := dwrap (a * b) in
  rv ← (if m <=? rv then umod rv m else Ok rv);
  Ok (wrap rv).
Definition ModMulFastEq (a b m : Z) : res Z :=
  let rv := dwrap (a * b) in
  rv ← (if m <=? rv then umod rv m else Ok rv);
  Ok (wrap rv).
Definition ModMulFast_same (a b m : Z) : res Z :=
  mu ← ComputeMu_same m; barrett_same a b m mu (GetMSB w m - 2).
Definition ModMulFast_mu (a b m mu : Z) : res Z := barrett a b m mu (GetMSB w m - 2).
Definition ModMulFastEq_mu (a b m mu : Z) : res Z := barrett a b m mu (GetMSB w m - 2).
Definition ModMulFast_mu_same (a b m mu : Z) : res Z := barrett_same a b m mu (GetMSB w m - 2).
Definition ModMulFastEq_mu_same (a b m mu : Z) : res Z := barrett_same a b m mu (GetMSB w m - 2).

(** Shoup's multiplication by a constant [b] with precomputed [bInv]. *)
Definition PrepModMulConst (a m : Z) : res Z :=
  if m =? 0 then Throw (math_error "Divide by zero") else
  x ← ushl (2 * w) a w;
  Ok (wrap (x / m)).
Definition PrepModMulConst_same (a m : Z) : res Z :=
  if m =? 0 then Throw (math_error "Divide by zero") else
  Ok (wrap (Z.shiftl a w / m)).
Definition ModMulFastConst (a b m bInv : Z) : Z :=
  let q := wrap (MultDHi a bInv + 1) in
  let yprime := to_signed (wrap (wrap (a * b) - wrap (q * m))) in
  if 0 <=? yprime then yprime else wrap (wrap yprime + m).
Definition ModMulFastConstEq (a b m bInv : Z) : Z :=
  let q := wrap (MultDHi a bInv + 1) in
  let yprime := to_signed (wrap (wrap (a * b) - wrap (q * m))) in
  if 0 <=? yprime then yprime else wrap (wrap yprime + m).

(** ** Modular exponentiation

    [while (p >>= 1) { t = t * t; ... }], the exponent being a
    [DNativeInt] (a [NativeInt] in the [_same] version). *)
Definition dmulmod (x y m : Z) : res Z :=
  let r := dwrap (x * y) in if m <=? r then umod r m else Ok r.

Fixpoint ModExp_loop (fuel : nat) (t p r m : Z) : res Z :=
  match fuel with
  | O => Throw out_of_fuel
  | S fuel' =>
    let p := Z.shiftr p 1 in
    if p =? 0 then Ok r else
    t ← dmulmod t t m;
    r ← (if Z.land p 1 =? 0 then Ok r else dmulmod r t m);
    ModExp_loop fuel' t p r m
  end.
Definition ModExp (a b m : Z) : res Z :=
  r ← (if Z.land b 1 =? 0 then Ok 1 else dmulmod 1 a m);
  r ← ModExp_loop (Z.to_nat (2 * w) + 1) a b r m;
  Ok (wrap r).

Fixpoint ModExp_same_loop (fuel : nat) (t p r m mu : Z) : res Z :=
  match fuel with
  | O => Throw out_of_fuel
  | S fuel' =>
    let p := Z.shiftr p 1 in
    if p =? 0 then Ok r else
    t ← ModMulFastEq_mu_same t t m mu;
    r ← (if Z.land p 1 =? 0 then Ok r else ModMulFastEq_mu_same r t m mu);
    ModExp_same_loop fuel' t p r m mu
  end.
Definition ModExp_same (a b m : Z) : res Z :=
  t ← umod a m;
  mu ← ComputeMu_same m;
  r ← (if Z.land b 1 =? 0 then Ok 1 else ModMulFastEq_mu_same 1 t m mu);
  ModExp_same_loop (Z.to_nat w + 1) t b r m mu.
Definition ModExpEq (a b m : Z) : res Z := ModExp a b m.

(** ** Modular inverse

    The extended Euclidean algorithm in [SignedNativeInt]; a signed
    operation whose result does not fit is undefined, and so is a division
    by zero. *)
Definition sck (x : Z) : res Z :=
  if (- 2 ^ (w - 1) <=? x) && (x <? 2 ^ (w - 1)) then Ok x else Throw undefined_behaviour.
Definition sdiv (a b : Z) : res Z :=
  if b =? 0 then Throw undefined_behaviour else sck (Z.quot a b).
Definition srem (a b : Z) : res Z :=
  if b =? 0 then Throw undefined_behaviour else Ok (Z.rem a b).

Fixpoint ModInverse_loop (fuel : nat) (modulus a y x : Z) : res Z :=
  match fuel with
  | O => Throw out_of_fuel
  | S fuel' =>
    if 1 <? a then
      q ← sdiv a modulus;
      r ← srem a modulus;
      qy ← sck (q * y);
      y' ← sck (x - qy);
      ModInverse_loop fuel' r modulus y' y
    else Ok x
  end.
Definition ModInverse (a m : Z) : res Z :=
  r ← umod a m;
  let modulus := to_signed m in
  let a := to_signed r in
  if a =? 0 then Throw (math_error " does not have a ModInverse using ") else
  if modulus =? 1 then Ok 0 else
  x ← ModInverse_loop (2 * Z.to_nat w + 2) modulus a 0 1;
  let x := if x <? 0 then to_signed (wrap (wrap x + m)) else x in
  Ok (wrap x).
Definition ModInverseEq (a m : Z) : res Z := ModInverse a m.

(** ** Shifts, comparison, conversions *)
Definition LShift (a shift : Z) : res Z := ushl w a shift.
Definition LShiftEq (a shift : Z) : res Z := ushl w a shift.
Definition RShift (a shift : Z) : res Z := ushr w a shift.
Definition RShiftEq (a shift : Z) : res Z := ushr w a shift.
Definition Compare (a b : Z) : Z := if a <? b then -1 else if b <? a then 1 else 0.

(** [ConvertToInt<T>] for an unsigned [T] of [k] bits. *)
Definition ConvertToInt (k a : Z) : Z := a mod 2 ^ k.
Definition ConvertToDouble (a : Z) : double := of_int a.

Fixpoint FromBinary_loop (s : list ascii) (v : Z) : res Z :=
  match s with
  | [] => Ok v
  | c :: s' =>
    let n := char_val c - 48 in
    if (n <? 0) || (1 <? n) then Throw (math_error "Bit string must contain only 0 or 1")
    else FromBinary_loop s' (Z.lor (wrap (Z.shiftl v 1)) n)
  end.
Definition FromBinaryString (str : string) : res Z :=
  let l := list_ascii_of_string str in
  if w <? Z.of_nat (length l) then Throw (math_error "Bit string is too long to fit in an intnat")
  else FromBinary_loop l 0.

(** [ceil(log2(base))] is exact for a 32-bit [base]. *)
Definition GetBitAtIndex (a index : Z) : res Z :=
  if index =? 0 then Throw (math_error "Zero index in GetBitAtIndex") else
  x ← ushr w a (index - 1);
  Ok (Z.land x 1).
Fixpoint GetDigit_loop (fuel : nat) (a i base newIndex digit : Z) : res Z :=
  match fuel with
  | O => Throw out_of_fuel
  | S fuel' =>
    if i <? base then
      b ← GetBitAtIndex a newIndex;
      GetDigit_loop fuel' a ((2 * i) mod 2 ^ 32) base ((newIndex + 1) mod 2 ^ 32) ((digit + b * i) mod 2 ^ 32)
    else Ok digit
  end.
Definition GetDigitAtIndexForBase (a index base : Z) : res Z :=
  let DigitLen := Z.log2_up base in
  let newIndex := (1 + (index - 1) * DigitLen) mod 2 ^ 32 in
  GetDigit_loop 33 a 1 base newIndex 0.
End NativeInteger.

(** Quick evaluations at the three widths. *)
Example ModMul_64 : ModMul 64 (2 ^ 63) 12345 (2 ^ 50 - 27) = Ok ((2 ^ 63 * 12345) mod (2 ^ 50 - 27)).
Proof. vm_compute. reflexivity. Qed.
Example ModMul_128 : ModMul_same 128 (2 ^ 110) 12345 (2 ^ 119 - 69) = Ok ((2 ^ 110 * 12345) mod (2 ^ 119 - 69)).
Proof. vm_compute. reflexivity. Qed.
Example ModExp_64 : ModExp 64 3 1000003 (2 ^ 50 - 27) = Ok (Zpow_facts.Zpow_mod 3 1000003 (2 ^ 50 - 27)).
Proof. vm_compute. reflexivity. Qed.
Example ModInverse_32 : ModInverse 32 3 7 = Ok 5.
Proof. vm_compute. reflexivity. Qed.
Example ModInverse_not_coprime : ModInverse 32 2 4 = Throw undefined_behaviour.
Proof. vm_compute. reflexivity. Qed.
Example MulCheck_zero : MulCheck 32 5 0 = Throw (math_error "NativeIntegerT MulCheck: Overflow").
Proof. vm_compute. reflexivity. Qed.
Example SetValue_sign : SetValue 32 "-" = Ok (2 ^ 32 - 3).
Proof. vm_compute. reflexivity. Qed.
Example SetValue_overflow : exists v, SetValue 64 "30000000000000000000" = Ok v.
Proof. eexists. vm_compute. reflexivity. Qed.
Example Barrett_boundary : exists mu, ComputeMu 64 (2 ^ 59) = Ok mu /\ ModMulFast_mu 64 (2 ^ 58 + 1) 13 (2 ^ 59) mu <> Ok ((13 * (2 ^ 58 + 1)) mod 2 ^ 59).
Proof. eexists. split; [vm_compute; reflexivity|]. vm_compute. congruence. Qed.
