(* ===== verification/NativeIntFacts.v ===== *)
(** * Lemmas on the native integer layer

    The functional specifications of [NativeInt]: what every modular
    operation returns, under which bounds of the modulus. *)

From Stdlib Require Import ZArith Lia Ascii String Znumtheory.
From stdpp Require Import base tactics numbers list.
From S2P Require Import Prelude Double NativeInt.

Lemma GetMSB_spec w x : w <= 128 -> 0 < x < 2 ^ w -> GetMSB w x = Z.log2 x + 1.
Proof.
  intros Hw Hx. unfold GetMSB, clz_u128, clzll.
  destruct (Z.leb_spec w 64).
  { rewrite (proj2 (Z.eqb_neq x 0)) by lia. lia. }
  assert (x < 2 ^ 128) by (apply Z.lt_le_trans with (2 ^ w); [lia|apply Z.pow_le_mono_r; lia]).
  rewrite Z.shiftr_div_pow2 by lia.
  destruct (Z.eqb_spec (x / 2 ^ 64) 0) as [E|NE]; simpl negb; cbn iota.
  - assert (x < 2 ^ 64) by (apply Z.div_small_iff in E; lia).
    rewrite Z.mod_small by lia. rewrite (proj2 (Z.eqb_neq x 0)) by lia. simpl. lia.
  - assert (2 ^ 64 <= x).
    { destruct (decide (2 ^ 64 <= x)); [done|]. rewrite Z.div_small in NE by lia. lia. }
    rewrite <- Z.shiftr_div_pow2, Z.log2_shiftr by lia.
    pose proof (Z.log2_le_mono (2 ^ 64) x ltac:(lia)) as Hl. rewrite Z.log2_pow2 in Hl by lia. lia.
Qed.

(** The bit length brackets the value. *)
Lemma GetMSB_bounds w x :
  w <= 128 -> 0 < x < 2 ^ w -> 0 < GetMSB w x <= w /\ 2 ^ (GetMSB w x - 1) <= x < 2 ^ GetMSB w x.
Proof.
  intros Hw Hx. rewrite GetMSB_spec by done.
  pose proof (Z.log2_spec x ltac:(lia)) as Hl. rewrite <- Z.add_1_r in Hl.
  replace (Z.log2 x + 1 - 1) with (Z.log2 x) by lia. split; [|lia].
  pose proof (Z.log2_nonneg x). split; [lia|].
  assert (Z.log2 x < w); [|lia]. apply Z.log2_lt_pow2; lia.
Qed.

(** The error analysis of the Barrett quotient: one off at most, for a
    dividend of up to [2 k + 2] bits. *)
Lemma barrett_quotient k m x :
  2 <= k -> 2 ^ (k - 1) <= m < 2 ^ k -> 0 <= x < 2 ^ (2 * k + 2) ->
  let q := (x / 2 ^ (k - 2)) * (2 ^ (2 * k + 3) / m) / 2 ^ (k + 5) in
  0 <= q /\ 0 <= x - q * m < 2 * m.
Proof.
  intros Hk Hm Hx. cbn zeta.
  set (A := 2 ^ (k - 2)). assert (0 < A) as HA by (apply pow2_pos; lia).
  assert (2 ^ (2 * k + 3) = 2 ^ (k + 5) * A) as ->.
  { unfold A. rewrite <- Z.pow_add_r by lia. f_equal. lia. }
  assert (2 ^ (k - 1) = 2 * A) as E1.
  { unfold A. replace (k - 1) with (1 + (k - 2)) by lia. by rewrite Z.pow_add_r by lia. }
  assert (2 ^ (k + 5) = 128 * A) as E2.
  { unfold A. replace (k + 5) with (7 + (k - 2)) by lia. by rewrite Z.pow_add_r by lia. }
  assert (2 ^ (2 * k + 2) = 64 * A * A) as E3.
  { unfold A. replace (2 * k + 2) with (6 + (k - 2) + (k - 2)) by lia. by rewrite !Z.pow_add_r by lia. }
  rewrite E1 in Hm. rewrite E2. rewrite E3 in Hx. clear E1 E2 E3. clearbody A.
  set (B := 128 * A). set (a := x / A). set (mu := B * A / m). set (q := a * mu / B).
  pose proof (Z.div_mod x A ltac:(lia)). pose proof (Z.mod_pos_bound x A HA).
  pose proof (Z.div_mod (B * A) m ltac:(lia)). pose proof (Z.mod_pos_bound (B * A) m ltac:(lia)).
  pose proof (Z.div_mod (a * mu) B ltac:(lia)). pose proof (Z.mod_pos_bound (a * mu) B ltac:(lia)).
  fold a in H. fold mu in H1. fold q in H3.
  set (r := x mod A) in *. set (s := (B * A) mod m) in *. set (t := (a * mu) mod B) in *.
  assert (0 <= a < 64 * A) by nia. assert (0 <= mu) by (apply Z.div_pos; nia).
  assert (B * (x - q * m) = B * r + a * s + t * m) as Heq.
  { replace (B * (x - q * m)) with (B * x - (B * q) * m) by ring.
    replace (B * q) with (a * mu - t) by lia.
    replace ((a * mu - t) * m) with (a * (m * mu) - t * m) by ring.
    replace (m * mu) with (B * A - s) by lia. rewrite H. ring. }
  assert (0 < B) by (unfold B; lia).
  assert (0 <= q) by (apply Z.div_pos; nia).
  split; [done|].
  assert (a * s <= 64 * A * m) by nia. assert (B * r <= B * A) by nia.
  assert (t * m <= B * m) by nia. unfold B in *. nia.
Qed.

(** *** The 128-bit schoolbook product *)
Lemma u128_product X a1 a2 b1 b2 :
  0 < X -> 0 <= a1 < X -> 0 <= a2 < X -> 0 <= b1 < X -> 0 <= b2 < X ->
  let tmp := (a1 * b2 + a2 * b1) mod (X * X) in
  let l := a2 * b2 in
  let rlo := (l + (tmp * X) mod (X * X)) mod (X * X) in
  let c1 := if rlo <? l then 1 else 0 in
  let c2 := if (tmp <? a1 * b2) || (tmp <? a2 * b1) then X else 0 in
  (a1 * X + a2) * (b1 * X + b2) = (a1 * b1 + c1 + c2 + tmp / X) * (X * X) + rlo /\
  0 <= rlo < X * X.
Proof.
  intros HX Ha1 Ha2 Hb1 Hb2 tmp l rlo.
  assert (0 <= a1 * b2 < X * X) by nia. assert (0 <= a2 * b1 < X * X) by nia.
  assert (0 <= l < X * X) by (unfold l; nia).
  assert (tmp = a1 * b2 + a2 * b1 - (if (tmp <? a1 * b2) || (tmp <? a2 * b1) then X * X else 0)) as Ht.
  { unfold tmp. destruct (decide (a1 * b2 + a2 * b1 < X * X)).
    - rewrite !Z.mod_small by lia.
      replace (_ || _) with false by (symmetry; apply orb_false_intro; apply Z.ltb_ge; lia). lia.
    - rewrite <- (Z.mod_unique_pos (a1 * b2 + a2 * b1) (X * X) 1 (a1 * b2 + a2 * b1 - X * X)) by lia.
      replace (_ <? a1 * b2) with true by (symmetry; apply Z.ltb_lt; lia). simpl. lia. }
  assert (0 <= tmp < X * X) as Htr by (apply Z.mod_pos_bound; nia).
  assert ((tmp * X) mod (X * X) = (tmp mod X) * X) as Hm by (rewrite Z.mul_mod_distr_r by lia; done).
  pose proof (Z.div_mod tmp X ltac:(lia)) as Hdm. pose proof (Z.mod_pos_bound tmp X HX) as Hmb.
  assert (rlo = l + (tmp mod X) * X - (if rlo <? l then X * X else 0) /\ 0 <= rlo < X * X) as [Hr Hrb].
  { unfold rlo. rewrite Hm. destruct (decide (l + tmp mod X * X < X * X)).
    - rewrite !Z.mod_small by nia. rewrite (proj2 (Z.ltb_ge _ _)) by nia. nia.
    - rewrite <- (Z.mod_unique_pos (l + tmp mod X * X) (X * X) 1 (l + tmp mod X * X - X * X)) by nia.
      rewrite (proj2 (Z.ltb_lt _ _)) by nia. nia. }
  cbn zeta. split; [|done].
  replace ((a1 * X + a2) * (b1 * X + b2)) with (a1 * b1 * (X * X) + (a1 * b2 + a2 * b1) * X + l)
    by (unfold l; ring).
  destruct ((tmp <? a1 * b2) || (tmp <? a2 * b1)), (rlo <? l); nia.
Qed.

Lemma MultD_u128_spec a b :
  0 <= a < 2 ^ 128 -> 0 <= b < 2 ^ 128 ->
  hi (MultD_u128 a b) = a * b / 2 ^ 128 /\ lo (MultD_u128 a b) = (a * b) mod 2 ^ 128.
Proof.
  intros Ha Hb. unfold MultD_u128. change (2 ^ 64 - 1) with (Z.ones 64).
  rewrite !Z.land_ones, !Z.shiftr_div_pow2, Z.shiftl_mul_pow2 by lia.
  assert (2 ^ 128 = 2 ^ 64 * 2 ^ 64) as E by reflexivity. rewrite E in *.
  assert (0 < 2 ^ 64) as HX by lia. revert HX Ha Hb. generalize (2 ^ 64). clear E. intros X HX Ha Hb.
  pose proof (Z.div_mod a X ltac:(lia)) as Ea. pose proof (Z.mod_pos_bound a X HX) as Ba.
  pose proof (Z.div_mod b X ltac:(lia)) as Eb. pose proof (Z.mod_pos_bound b X HX) as Bb.
  set (a1 := a / X) in *. set (a2 := a mod X) in *. set (b1 := b / X) in *. set (b2 := b mod X) in *.
  assert (0 <= a1 < X) by nia. assert (0 <= b1 < X) by nia.
  pose proof (u128_product X a1 a2 b1 b2 HX ltac:(lia) Ba ltac:(lia) Bb) as [Hp Hr].
  rewrite (Z.mod_small (a1 * b2)), (Z.mod_small (a2 * b1)), (Z.mod_small (a2 * b2)) by nia.
  set (tmp := (a1 * b2 + a2 * b1) mod (X * X)) in *.
  set (rlo := (a2 * b2 + (tmp * X) mod (X * X)) mod (X * X)) in *.
  replace (a1 * X + a2) with a in Hp by lia. replace (b1 * X + b2) with b in Hp by lia.
  match type of Hp with _ = ?Q * (X * X) + _ => set (V := Q) in Hp; assert (V = Q) as HV by done end.
  assert (0 <= a * b < X * X * (X * X)) by nia.
  assert (0 <= V < X * X) by nia.
  cbn [hi lo]. split; [|apply Z.mod_unique_pos with V; lia].
  rewrite <- (Z.div_unique_pos (a * b) (X * X) V rlo) by lia.
  apply (eqm_small (X * X)); [apply Z.mod_pos_bound; nia|done|]. rewrite eqm_mod, HV.
  destruct (rlo <? a2 * b2), ((tmp <? a1 * b2) || (tmp <? a2 * b1)); rewrite ?eqm_mod; apply eqm_refl; ring.
Qed.

Section Facts.
Context (w : Z) (Hw : 8 <= w <= 128).

Lemma pow_w_pos : 0 < 2 ^ w.
Proof using Hw. apply pow2_pos. lia. Qed.

Lemma wrap_small x : 0 <= x < 2 ^ w -> wrap w x = x.
Proof. apply Z.mod_small. Qed.

Lemma wrap_range x : 0 <= wrap w x < 2 ^ w.
Proof using Hw. apply Z.mod_pos_bound, pow_w_pos. Qed.

Lemma dwrap_small x : 0 <= x < 2 ^ w * 2 ^ w -> dwrap w x = x.
Proof using Hw. intros. apply Z.mod_small. by rewrite <- Z.add_diag, Z.pow_add_r by lia. Qed.

Lemma wrap_eqm x : wrap w x ≡[2 ^ w] x.
Proof. apply eqm_mod. Qed.

(** *** Double words *)
Definition dval (x : typeD) : Z := hi x * 2 ^ w + lo x.

Lemma MultD_spec a b :
  0 <= a < 2 ^ w -> 0 <= b < 2 ^ w ->
  hi (MultD w a b) = a * b / 2 ^ w /\ lo (MultD w a b) = (a * b) mod 2 ^ w.
Proof using Hw.
  intros Ha Hb. unfold MultD. cbn [hi lo].
  rewrite dwrap_small by nia. rewrite Z.shiftr_div_pow2 by lia. split; [|done].
  apply wrap_small. split; [apply Z.div_pos; nia|apply Z.div_lt_upper_bound; nia].
Qed.

Lemma MultD_val a b :
  0 <= a < 2 ^ w -> 0 <= b < 2 ^ w -> dval (MultD w a b) = a * b.
Proof using Hw.
  intros Ha Hb. destruct (MultD_spec a b Ha Hb) as [E1 E2]. unfold dval. rewrite E1, E2.
  pose proof (Z.div_mod (a * b) (2 ^ w) ltac:(lia)). lia.
Qed.

Definition wfD (x : typeD) : Prop := 0 <= hi x < 2 ^ w /\ 0 <= lo x < 2 ^ w.

Lemma MultD_wf a b : wfD (MultD w a b).
Proof using Hw. split; apply wrap_range. Qed.

Lemma GetD_spec x : wfD x -> GetD w x = dval x.
Proof using Hw.
  intros [Hh Hl]. unfold GetD, dval. rewrite dwrap_small.
  - rewrite Z.lor_comm, lor_shiftl_add by lia. lia.
  - rewrite Z.shiftl_mul_pow2 by lia. nia.
Qed.

Lemma RShiftD_spec x n :
  wfD x -> 0 < n < w -> dval x < 2 ^ (w + n) -> RShiftD w x n = Ok (dval x / 2 ^ n).
Proof using Hw.
  intros [Hh Hl] Hn Hx. unfold RShiftD, ushr, ushl, dval in *.
  replace ((0 <=? n) && (n <? w)) with true by lia. rewrite bind_ok.
  replace ((0 <=? w - n) && (w - n <? w)) with true by lia. rewrite bind_ok. f_equal.
  assert (2 ^ w = 2 ^ (w - n) * 2 ^ n) as E by (rewrite <- Z.pow_add_r by lia; f_equal; lia).
  rewrite Z.pow_add_r in Hx by lia.
  assert (0 < 2 ^ n) by (apply pow2_pos; lia). assert (0 < 2 ^ (w - n)) by (apply pow2_pos; lia).
  assert (hi x < 2 ^ n) by nia.
  rewrite (Z.mod_small (Z.shiftl _ _)) by (rewrite Z.shiftl_mul_pow2 by lia; nia).
  rewrite Z.shiftr_div_pow2 by lia.
  rewrite lor_shiftl_add; [|lia|split; [apply Z.div_pos; lia|apply Z.div_lt_upper_bound; nia]].
  rewrite E. replace (hi x * (2 ^ (w - n) * 2 ^ n) + lo x) with (lo x + hi x * 2 ^ (w - n) * 2 ^ n) by ring.
  by rewrite Z.div_add by lia.
Qed.

Lemma ushr_spec width x n : 0 <= n < width -> ushr width x n = Ok (x / 2 ^ n).
Proof.
  intros Hn. unfold ushr. replace ((0 <=? n) && (n <? width)) with true by lia.
  by rewrite Z.shiftr_div_pow2 by lia.
Qed.

(** *** Barrett reduction *)

(** The moduli for which the Barrett constant fits a word. *)
Definition barrett_mod (m : Z) : Prop :=
  4 <= m < 2 ^ w /\ 2 ^ (2 * GetMSB w m + 3) / m < 2 ^ w.

Definition mu_of (m : Z) : Z := 2 ^ (2 * GetMSB w m + 3) / m.

Section Barrett.
Context (m : Z) (Hm : barrett_mod m).
Let k := GetMSB w m.

Lemma barrett_k : 3 <= k /\ k + 4 <= w /\ 2 ^ (k - 1) <= m < 2 ^ k.
Proof using Hw Hm.
  destruct Hm as [Hr Hmu]. destruct (GetMSB_bounds w m ltac:(lia) ltac:(lia)) as [Hb1 Hb2].
  fold k in Hb1, Hb2, Hmu. split; [|split; [|done]].
  - destruct (decide (3 <= k)); [done|]. assert (2 ^ k <= 2 ^ 2) by (apply Z.pow_le_mono_r; lia). lia.
  - assert (2 ^ (k + 3) < 2 ^ w) as H.
    { apply Z.le_lt_trans with (2 ^ (2 * k + 3) / m); [|done].
      apply Z.div_le_lower_bound; [lia|].
      replace (2 ^ (2 * k + 3)) with (2 ^ k * 2 ^ (k + 3)) by (rewrite <- Z.pow_add_r by lia; f_equal; lia).
      apply Z.mul_le_mono_nonneg_r; [|lia]. apply Z.lt_le_incl, pow2_pos. lia. }
    apply Z.pow_lt_mono_r_iff in H; lia.
Qed.

Lemma mu_of_range : 0 <= mu_of m < 2 ^ w.
Proof using Hw Hm.
  destruct Hm as [Hr Hmu]. split; [|done]. apply Z.div_pos; [|lia].
  apply Z.lt_le_incl, pow2_pos. pose proof barrett_k. fold k. lia.
Qed.

Lemma ComputeMu_spec : ComputeMu w m = Ok (mu_of m).
Proof using Hw Hm.
  pose proof barrett_k as (H1 & H2 & H3). pose proof mu_of_range as Hr.
  unfold ComputeMu, ushl. rewrite (proj2 (Z.eqb_neq m 0)) by lia. fold k.
  replace ((0 <=? 2 * k + 3) && (2 * k + 3 <? 2 * w)) with true by lia. rewrite bind_ok.
  rewrite Z.shiftl_1_l, Z.mod_small by (split; [apply Z.lt_le_incl, pow2_pos; lia|apply Z.pow_lt_mono_r; lia]).
  f_equal. by apply wrap_small.
Qed.

Lemma ComputeMu_same_spec : ComputeMu_same w m = Ok (mu_of m).
Proof using Hw Hm.
  pose proof barrett_k as (H1 & H2 & H3). unfold ComputeMu_same.
  rewrite (proj2 (Z.eqb_neq m 0)) by lia. f_equal.
  rewrite Z.shiftl_1_l. apply wrap_small, mu_of_range.
Qed.

(** The bounds every Barrett step of a dividend [x] relies on. *)
Lemma barrett_step x :
  0 <= x < 2 ^ (2 * k + 2) ->
  let s := x / 2 ^ (k - 2) in
  let q := s * mu_of m / 2 ^ (k + 5) in
  0 <= s < 2 ^ w /\ 0 <= q /\ 0 <= x - q * m < 2 * m /\
  (if m <=? x - q * m then x - q * m - m else x - q * m) = x mod m.
Proof using Hw Hm.
  intros Hx. pose proof barrett_k as (H1 & H2 & H3). cbn zeta.
  destruct (barrett_quotient k m x ltac:(lia) H3 Hx) as [Hq Hd].
  change (2 ^ (2 * k + 3) / m) with (mu_of m) in *. split; [|split; [done|split; [done|]]].
  - assert (2 ^ (2 * k + 2) = 2 ^ (k + 4) * 2 ^ (k - 2)) as E by (rewrite <- Z.pow_add_r by lia; f_equal; lia).
    assert (2 ^ (k + 4) <= 2 ^ w) by (apply Z.pow_le_mono_r; lia).
    pose proof (pow2_pos (k - 2) ltac:(lia)).
    split; [apply Z.div_pos; lia|]. apply Z.lt_le_trans with (2 ^ (k + 4)); [|done].
    apply Z.div_lt_upper_bound; lia.
  - set (q := x / 2 ^ (k - 2) * mu_of m / 2 ^ (k + 5)) in *.
    destruct (Z.leb_spec m (x - q * m)).
    + apply Z.mod_unique_pos with (q + 1); lia.
    + apply Z.mod_unique_pos with q; lia.
Qed.

Lemma small_2m : 2 * m <= 2 ^ w.
Proof using Hw Hm.
  pose proof barrett_k as (H1 & H2 & H3).
  assert (2 ^ (k + 1) <= 2 ^ w) as H by (apply Z.pow_le_mono_r; lia).
  rewrite Z.pow_add_r in H by lia. lia.
Qed.

Lemma barrett_spec a b :
  0 <= a < 2 ^ w -> 0 <= b < 2 ^ w -> a * b < 2 ^ (2 * k + 2) ->
  barrett w a b m (mu_of m) (k - 2) = Ok ((a * b) mod m).
Proof using Hw Hm.
  intros Ha Hb Hab. pose proof barrett_k as (H1 & H2 & H3).
  pose proof (barrett_step (a * b) ltac:(nia)) as (Hs & Hq & Hd & <-).
  pose proof mu_of_range as Hmu. pose proof small_2m as H2m.
  unfold barrett. rewrite RShiftD_spec; [|apply MultD_wf|lia|].
  2: { rewrite MultD_val by done. apply Z.lt_le_trans with (2 ^ (2 * k + 2)); [done|].
       apply Z.pow_le_mono_r; lia. }
  rewrite bind_ok, MultD_val by done.
  rewrite ushr_spec by lia. rewrite bind_ok.
  rewrite !GetD_spec by apply MultD_wf. rewrite !MultD_val by done.
  replace (k - 2 + 7) with (k + 5) by lia.
  set (q := a * b / 2 ^ (k - 2) * mu_of m / 2 ^ (k + 5)) in *.
  rewrite (dwrap_small (m * q)) by nia. rewrite (Z.mul_comm m q).
  rewrite dwrap_small by nia. rewrite (wrap_small (a * b - q * m)) by lia.
  destruct (Z.leb_spec m (a * b - q * m)); [|done].
  by rewrite wrap_small by lia.
Qed.

Lemma ModMu_spec a :
  0 <= a < 2 ^ w -> a < 2 ^ (2 * k + 2) -> ModMu w a m (mu_of m) (k - 2) = Ok (a mod m).
Proof using Hw Hm.
  intros Ha Hx. pose proof barrett_k as (H1 & H2 & H3).
  pose proof (barrett_step a ltac:(lia)) as (Hs & Hq & Hd & <-).
  pose proof mu_of_range as Hmu. pose proof small_2m as H2m.
  unfold ModMu. rewrite RShiftD_spec; [|split; cbn; pose proof pow_w_pos; lia|lia|].
  2: { unfold dval. cbn. apply Z.lt_le_trans with (2 ^ w); [lia|]. apply Z.pow_le_mono_r; lia. }
  rewrite bind_ok. change (dval (TypeD 0 a)) with (0 * 2 ^ w + a). rewrite Z.mul_0_l, Z.add_0_l.
  rewrite ushr_spec by lia. rewrite bind_ok.
  rewrite GetD_spec by apply MultD_wf. rewrite MultD_val by done.
  replace (k - 2 + 7) with (k + 5) by lia.
  set (q := a / 2 ^ (k - 2) * mu_of m / 2 ^ (k + 5)) in *.
  rewrite dwrap_small by nia. rewrite (wrap_small (q * m)) by nia. rewrite (wrap_small (a - q * m)) by lia.
  destruct (Z.leb_spec m (a - q * m)); [|done].
  by rewrite wrap_small by lia.
Qed.
End Barrett.

(** Every overload of [MultD] splits the exact product. *)
Lemma MultD__spec a b :
  0 <= a < 2 ^ w -> 0 <= b < 2 ^ w ->
  hi (MultD_ w a b) = a * b / 2 ^ w /\ lo (MultD_ w a b) = (a * b) mod 2 ^ w.
Proof using Hw.
  intros Ha Hb. unfold MultD_. destruct (Z.eqb_spec w 128) as [E|NE].
  - rewrite E in *. by apply MultD_u128_spec.
  - by apply MultD_spec.
Qed.

Lemma MultD__val a b :
  0 <= a < 2 ^ w -> 0 <= b < 2 ^ w -> dval (MultD_ w a b) = a * b /\ wfD (MultD_ w a b).
Proof using Hw.
  intros Ha Hb. destruct (MultD__spec a b Ha Hb) as [E1 E2]. unfold dval, wfD. rewrite E1, E2.
  pose proof (Z.div_mod (a * b) (2 ^ w) ltac:(lia)).
  pose proof (Z.mod_pos_bound (a * b) (2 ^ w) ltac:(lia)).
  split; [lia|]. split; [|done]. split; [apply Z.div_pos; nia|apply Z.div_lt_upper_bound; nia].
Qed.

Lemma SubtractD_lo r a :
  wfD r -> wfD a -> lo (SubtractD w r a) = (dval r - dval a) mod 2 ^ w.
Proof using Hw.
  intros [Hr1 Hr2] [Ha1 Ha2]. unfold SubtractD, dval.
  assert (forall x, x ≡[2 ^ w] dval r - dval a -> wrap w x = (dval r - dval a) mod 2 ^ w) as Hx by (intros x Hx; exact Hx).
  assert (dval r - dval a ≡[2 ^ w] lo r - lo a) as E.
  { unfold dval. transitivity (lo r - lo a + (hi r - hi a) * 2 ^ w); [apply eqm_refl; ring|apply eqm_multiple]. }
  destruct (_ <? _); cbn [lo]; apply Hx; rewrite E; [rewrite !wrap_eqm; apply eqm_iff; exists 1; ring|done].
Qed.

(** The moduli the pair-of-words versions accept: one more shift has to
    stay below the width. *)
Lemma barrett_same_spec m a b :
  barrett_mod m -> GetMSB w m + 6 <= w ->
  0 <= a < 2 ^ w -> 0 <= b < 2 ^ w -> a * b < 2 ^ (2 * GetMSB w m + 2) ->
  barrett_same w a b m (mu_of m) (GetMSB w m - 2) = Ok ((a * b) mod m).
Proof using Hw.
  intros Hm Hk Ha Hb Hab. pose proof (barrett_k m Hm) as (H1 & H2 & H3).
  pose proof (barrett_step m Hm (a * b) ltac:(nia)) as (Hs & Hq & Hd & <-).
  pose proof (mu_of_range m Hm) as Hmu. pose proof (small_2m m Hm) as H2m.
  set (k := GetMSB w m) in *. set (s := a * b / 2 ^ (k - 2)) in *.
  destruct (MultD__val a b Ha Hb) as [E1 W1]. destruct (MultD__val s (mu_of m) Hs Hmu) as [E2 W2].
  unfold barrett_same. rewrite RShiftD_spec; [|done|lia|].
  2: { rewrite E1. apply Z.lt_le_trans with (2 ^ (2 * k + 2)); [done|]. apply Z.pow_le_mono_r; lia. }
  rewrite bind_ok, E1. fold s. replace (k - 2 + 7) with (k + 5) by lia.
  set (q := s * mu_of m / 2 ^ (k + 5)) in *.
  assert (0 <= q < 2 ^ w) as Hqw.
  { assert (a * b < 2 ^ w * 2 ^ (k - 2)).
    { rewrite <- Z.pow_add_r by lia. apply Z.lt_le_trans with (2 ^ (2 * k + 2)); [done|]. apply Z.pow_le_mono_r; lia. }
    assert (2 ^ (k - 1) = 2 * 2 ^ (k - 2)).
    { replace (k - 1) with (1 + (k - 2)) by lia. by rewrite Z.pow_add_r by lia. }
    nia. }
  assert (s * mu_of m < 2 ^ (w + (k + 5))) as Hsm.
  { rewrite Z.pow_add_r by lia. unfold q in Hqw. destruct Hqw as [_ Hqw].
    pose proof (pow2_pos (k + 5) ltac:(lia)).
    pose proof (Z.div_mod (s * mu_of m) (2 ^ (k + 5)) ltac:(lia)).
    pose proof (Z.mod_pos_bound (s * mu_of m) (2 ^ (k + 5)) ltac:(lia)). nia. }
  rewrite RShiftD_spec; [|done|lia|by rewrite E2].
  rewrite bind_ok, E2. fold q.
  destruct (MultD__val q m Hqw ltac:(lia)) as [E3 W3].
  rewrite SubtractD_lo, E1, E3 by done. rewrite (Z.mod_small (a * b - q * m)) by lia.
  destruct (Z.leb_spec m (a * b - q * m)); [|done]. by rewrite wrap_small by lia.
Qed.

Lemma ModMu_same_spec m a :
  barrett_mod m -> GetMSB w m + 6 <= w ->
  0 <= a < 2 ^ w -> a < 2 ^ (2 * GetMSB w m + 2) ->
  ModMu_same w a m (mu_of m) (GetMSB w m - 2) = Ok (a mod m).
Proof using Hw.
  intros Hm Hk Ha Hx. pose proof (barrett_k m Hm) as (H1 & H2 & H3).
  pose proof (barrett_step m Hm a ltac:(lia)) as (Hs & Hq & Hd & <-).
  pose proof (mu_of_range m Hm) as Hmu. pose proof (small_2m m Hm) as H2m.
  set (k := GetMSB w m) in *. set (s := a / 2 ^ (k - 2)) in *.
  destruct (MultD__val s (mu_of m) Hs Hmu) as [E2 W2].
  unfold ModMu_same. rewrite RShiftD_spec; [|split; cbn; pose proof pow_w_pos; lia|lia|].
  2: { unfold dval. cbn. apply Z.lt_le_trans with (2 ^ w); [lia|]. apply Z.pow_le_mono_r; lia. }
  rewrite bind_ok. change (dval (TypeD 0 a)) with (0 * 2 ^ w + a). rewrite Z.mul_0_l, Z.add_0_l.
  fold s. replace (k - 2 + 7) with (k + 5) by lia. set (q := s * mu_of m / 2 ^ (k + 5)) in *.
  assert (0 <= q < 2 ^ w) as Hqw by nia.
  assert (s * mu_of m < 2 ^ (w + (k + 5))) as Hsm.
  { rewrite Z.pow_add_r by lia. unfold q in Hqw. destruct Hqw as [_ Hqw].
    pose proof (pow2_pos (k + 5) ltac:(lia)).
    pose proof (Z.div_mod (s * mu_of m) (2 ^ (k + 5)) ltac:(lia)).
    pose proof (Z.mod_pos_bound (s * mu_of m) (2 ^ (k + 5)) ltac:(lia)). nia. }
  rewrite RShiftD_spec; [|done|lia|by rewrite E2]. rewrite bind_ok, E2. fold q.
  destruct (MultD__spec q m Hqw ltac:(lia)) as [_ ->].
  rewrite (Z.mod_small (q * m)) by nia. rewrite (wrap_small (a - q * m)) by lia.
  destruct (Z.leb_spec m (a - q * m)); [|done]. by rewrite wrap_small by lia.
Qed.

(** *** Addition and subtraction *)
Lemma umod_spec a m : 0 < m -> umod a m = Ok (a mod m).
Proof. intros Hm. unfold umod. by rewrite (proj2 (Z.eqb_neq m 0)) by lia. Qed.

Lemma reduce_spec a m :
  0 < m -> 0 <= a -> (if m <=? a then umod a m else Ok a) = Ok (a mod m).
Proof.
  intros Hm Ha. destruct (Z.leb_spec m a); [by apply umod_spec|].
  by rewrite Z.mod_small by lia.
Qed.

Lemma cond_sub_spec a b m :
  0 <= a < m -> 0 <= b < m -> 2 * m <= 2 ^ w ->
  (let v := wrap w (a + b) in if m <=? v then wrap w (v - m) else v) = (a + b) mod m.
Proof using Hw.
  intros Ha Hb Hm. cbn zeta. rewrite (wrap_small (a + b)) by lia.
  destruct (Z.leb_spec m (a + b)).
  - rewrite wrap_small by lia. apply Z.mod_unique_pos with 1; lia.
  - symmetry. apply Z.mod_small. lia.
Qed.

Lemma cond_add_spec a b m :
  0 <= a < m -> 0 <= b < m -> 2 * m <= 2 ^ w ->
  (if a <? b then wrap w (wrap w (a + m) - b) else wrap w (a - b)) = (a - b) mod m.
Proof using Hw.
  intros Ha Hb Hm. destruct (Z.ltb_spec a b).
  - rewrite (wrap_small (a + m)), wrap_small by lia. apply Z.mod_unique_pos with (-1); lia.
  - rewrite wrap_small by lia. symmetry. apply Z.mod_small. lia.
Qed.

Lemma ModAddFast_spec a b m :
  0 <= a < m -> 0 <= b < m -> 2 * m <= 2 ^ w -> ModAddFast w a b m = (a + b) mod m.
Proof using Hw. intros. by apply cond_sub_spec. Qed.

Lemma ModSubFast_spec a b m :
  0 <= a < m -> 0 <= b < m -> 2 * m <= 2 ^ w -> ModSubFast w a b m = (a - b) mod m.
Proof using Hw. intros. by apply cond_add_spec. Qed.

Lemma ModAdd_spec a b m :
  0 < m -> 2 * m <= 2 ^ w -> 0 <= a -> 0 <= b -> ModAdd w a b m = Ok ((a + b) mod m).
Proof using Hw.
  intros Hm H2 Ha Hb. unfold ModAdd. rewrite !reduce_spec, !bind_ok by lia.
  pose proof (Z.mod_pos_bound a m Hm). pose proof (Z.mod_pos_bound b m Hm).
  f_equal. etransitivity; [by apply cond_sub_spec|]. symmetry. apply Zplus_mod.
Qed.

Lemma ModSub_spec a b m :
  0 < m -> 2 * m <= 2 ^ w -> 0 <= a -> 0 <= b -> ModSub w a b m = Ok ((a - b) mod m).
Proof using Hw.
  intros Hm H2 Ha Hb. unfold ModSub. rewrite !reduce_spec, !bind_ok by lia.
  pose proof (Z.mod_pos_bound a m Hm). pose proof (Z.mod_pos_bound b m Hm).
  f_equal. rewrite cond_add_spec by done. symmetry. apply Zminus_mod.
Qed.

Lemma reduce_mu_spec a m :
  barrett_mod m -> 0 <= a < 2 ^ w -> a < 2 ^ (2 * GetMSB w m + 2) ->
  (if m <=? a then ModMu w a m (mu_of m) (GetMSB w m - 2) else Ok a) = Ok (a mod m).
Proof using Hw.
  intros Hm Ha Hx. destruct (Z.leb_spec m a); [by apply ModMu_spec|].
  by rewrite Z.mod_small by lia.
Qed.

Lemma ModAdd_mu_spec a b m :
  barrett_mod m -> 0 <= a < 2 ^ w -> 0 <= b < 2 ^ w ->
  a < 2 ^ (2 * GetMSB w m + 2) -> b < 2 ^ (2 * GetMSB w m + 2) ->
  ModAdd_mu w a b m (mu_of m) = Ok ((a + b) mod m).
Proof using Hw.
  intros Hm Ha Hb Ha' Hb'. unfold ModAdd_mu, ModEq_mu. rewrite !reduce_mu_spec, !bind_ok by done.
  pose proof (small_2m m Hm). destruct Hm as [Hm _].
  pose proof (Z.mod_pos_bound a m ltac:(lia)). pose proof (Z.mod_pos_bound b m ltac:(lia)).
  f_equal. etransitivity; [by apply cond_sub_spec|]. symmetry. apply Zplus_mod.
Qed.

Lemma ModSub_mu_spec a b m :
  barrett_mod m -> 0 <= a < 2 ^ w -> 0 <= b < 2 ^ w ->
  a < 2 ^ (2 * GetMSB w m + 2) -> b < 2 ^ (2 * GetMSB w m + 2) ->
  ModSub_mu w a b m (mu_of m) = Ok ((a - b) mod m).
Proof using Hw.
  intros Hm Ha Hb Ha' Hb'. unfold ModSub_mu, ModEq_mu. rewrite !reduce_mu_spec, !bind_ok by done.
  pose proof (small_2m m Hm). destruct Hm as [Hm _].
  pose proof (Z.mod_pos_bound a m ltac:(lia)). pose proof (Z.mod_pos_bound b m ltac:(lia)).
  f_equal. rewrite cond_add_spec by done. symmetry. apply Zminus_mod.
Qed.

(** *** Multiplication *)
Lemma dreduce_spec a b m :
  0 < m <= 2 ^ w -> 0 <= a < 2 ^ w -> 0 <= b < 2 ^ w ->
  (if m <=? dwrap w (a * b) then umod (dwrap w (a * b)) m else Ok (dwrap w (a * b))) = Ok ((a * b) mod m).
Proof using Hw. intros Hm Ha Hb. rewrite dwrap_small by nia. apply reduce_spec; nia. Qed.

Lemma mod_word x m : 0 < m <= 2 ^ w -> wrap w (x mod m) = x mod m.
Proof. intros Hm. pose proof (Z.mod_pos_bound x m ltac:(lia)). apply wrap_small. lia. Qed.

Lemma ModMulFast_spec a b m :
  0 < m <= 2 ^ w -> 0 <= a < 2 ^ w -> 0 <= b < 2 ^ w -> ModMulFast w a b m = Ok ((a * b) mod m).
Proof using Hw.
  intros Hm Ha Hb. unfold ModMulFast. rewrite dreduce_spec, bind_ok by done.
  f_equal. by apply mod_word.
Qed.

Lemma ModMul_spec a b m :
  0 < m <= 2 ^ w -> 0 <= a < 2 ^ w -> 0 <= b < 2 ^ w -> ModMul w a b m = Ok ((a * b) mod m).
Proof using Hw.
  intros Hm Ha Hb. unfold ModMul. rewrite !reduce_spec, !bind_ok by lia.
  pose proof (Z.mod_pos_bound a m ltac:(lia)). pose proof (Z.mod_pos_bound b m ltac:(lia)).
  rewrite dreduce_spec, bind_ok by lia. rewrite <- Zmult_mod. f_equal. by apply mod_word.
Qed.

Lemma reduced_product m a b :
  barrett_mod m -> 0 <= a < m -> 0 <= b < m -> a * b < 2 ^ (2 * GetMSB w m + 2).
Proof using Hw.
  intros Hm Ha Hb. pose proof (barrett_k m Hm) as (H1 & H2 & H3).
  replace (2 * GetMSB w m + 2) with (GetMSB w m + GetMSB w m + 2) by lia.
  rewrite !Z.pow_add_r by lia. nia.
Qed.

Lemma ModMulFast_mu_spec a b m :
  barrett_mod m -> 0 <= a < m -> 0 <= b < m ->
  ModMulFast_mu w a b m (mu_of m) = Ok ((a * b) mod m).
Proof using Hw.
  intros Hm Ha Hb. pose proof (reduced_product m a b Hm Ha Hb). pose proof (proj1 Hm).
  apply barrett_spec; auto; lia.
Qed.

Lemma ModMul_mu_spec a b m :
  barrett_mod m -> 0 <= a < 2 ^ w -> 0 <= b < 2 ^ w ->
  a < 2 ^ (2 * GetMSB w m + 2) -> b < 2 ^ (2 * GetMSB w m + 2) ->
  ModMul_mu w a b m (mu_of m) = Ok ((a * b) mod m).
Proof using Hw.
  intros Hm Ha Hb Ha' Hb'. unfold ModMul_mu. rewrite !reduce_mu_spec, !bind_ok by done.
  pose proof (proj1 Hm). pose proof (Z.mod_pos_bound a m ltac:(lia)). pose proof (Z.mod_pos_bound b m ltac:(lia)).
  rewrite barrett_spec; auto; [|lia..|apply reduced_product; auto].
  by rewrite <- Zmult_mod.
Qed.

Lemma ModMul_mu_same_spec a b m :
  barrett_mod m -> GetMSB w m + 6 <= w -> 0 <= a < 2 ^ w -> 0 <= b < 2 ^ w ->
  a < 2 ^ (2 * GetMSB w m + 2) -> b < 2 ^ (2 * GetMSB w m + 2) ->
  ModMul_mu_same w a b m (mu_of m) = Ok ((a * b) mod m).
Proof using Hw.
  intros Hm Hk Ha Hb Ha' Hb'. unfold ModMul_mu_same. pose proof (proj1 Hm).
  assert (forall x, 0 <= x < 2 ^ w -> x < 2 ^ (2 * GetMSB w m + 2) ->
    (if m <=? x then ModMu_same w x m (mu_of m) (GetMSB w m - 2) else Ok x) = Ok (x mod m)) as Hred.
  { intros x Hx Hx'. destruct (Z.leb_spec m x); [by apply ModMu_same_spec|]. by rewrite Z.mod_small by lia. }
  rewrite !Hred, !bind_ok by done.
  pose proof (Z.mod_pos_bound a m ltac:(lia)). pose proof (Z.mod_pos_bound b m ltac:(lia)).
  rewrite barrett_same_spec; auto; [|lia..|apply reduced_product; auto].
  by rewrite <- Zmult_mod.
Qed.

(** *** Shoup multiplication *)
Lemma PrepModMulConst_spec b m :
  0 <= b < m -> m <= 2 ^ w -> PrepModMulConst w b m = Ok (b * 2 ^ w / m).
Proof using Hw.
  intros Hb Hm. unfold PrepModMulConst, ushl. rewrite (proj2 (Z.eqb_neq m 0)) by lia.
  replace ((0 <=? w) && (w <? 2 * w)) with true by lia. rewrite bind_ok.
  rewrite Z.shiftl_mul_pow2 by lia. replace (2 ^ (2 * w)) with (2 ^ w * 2 ^ w)
    by (rewrite <- Z.pow_add_r by lia; f_equal; lia).
  rewrite Z.mod_small by nia. f_equal. apply wrap_small.
  split; [apply Z.div_pos; nia|apply Z.div_lt_upper_bound; nia].
Qed.

Lemma ModMulFastConst_spec a b m :
  0 <= a < 2 ^ w -> 0 <= b < m -> 2 * m <= 2 ^ w ->
  ModMulFastConst w a b m (b * 2 ^ w / m) = (a * b) mod m.
Proof using Hw.
  intros Ha Hb Hm. unfold ModMulFastConst, MultDHi.
  set (bi := b * 2 ^ w / m).
  assert (0 <= bi < 2 ^ w) as Hbi by (split; [apply Z.div_pos; nia|apply Z.div_lt_upper_bound; nia]).
  destruct (MultD__spec a bi Ha Hbi) as [-> _].
  pose proof (Z.div_mod (b * 2 ^ w) m ltac:(lia)) as E1. fold bi in E1.
  pose proof (Z.mod_pos_bound (b * 2 ^ w) m ltac:(lia)) as B1.
  set (r := (b * 2 ^ w) mod m) in *.
  pose proof (Z.div_mod (a * bi) (2 ^ w) ltac:(lia)) as E2.
  pose proof (Z.mod_pos_bound (a * bi) (2 ^ w) ltac:(lia)) as B2.
  set (q := a * bi / 2 ^ w) in *. set (t := (a * bi) mod 2 ^ w) in *.
  assert (2 ^ w * (a * b - q * m) = a * r + t * m) as E3.
  { replace (2 ^ w * (a * b - q * m)) with (a * (b * 2 ^ w) - (2 ^ w * q) * m) by ring.
    rewrite E1. replace (2 ^ w * q) with (a * bi - t) by lia. ring. }
  assert (0 <= a * b - q * m < 2 * m) as Hd by nia.
  set (y := to_signed w (wrap w (wrap w (a * b) - wrap w (wrap w (q + 1) * m)))).
  assert (2 ^ w = 2 * 2 ^ (w - 1)) as E4.
  { replace w with (1 + (w - 1)) at 1 by lia. by rewrite Z.pow_add_r by lia. }
  assert (y = a * b - (q + 1) * m) as ->.
  { apply (eqm_close (2 ^ w)).
    - transitivity (wrap w (wrap w (a * b) - wrap w (wrap w (q + 1) * m))).
      + unfold y, to_signed. destruct (_ <? _); [done|]. apply eqm_iff. exists (-1). ring.
      + rewrite !wrap_eqm. done.
    - pose proof (wrap_range (wrap w (a * b) - wrap w (wrap w (q + 1) * m))).
      unfold y, to_signed. destruct (Z.ltb_spec (wrap w (wrap w (a * b) - wrap w (wrap w (q + 1) * m))) (2 ^ (w - 1))); lia. }
  destruct (Z.leb_spec 0 (a * b - (q + 1) * m)).
  - apply Z.mod_unique_pos with (q + 1); lia.
  - assert (wrap w (wrap w (a * b - (q + 1) * m) + m) = a * b - q * m) as ->.
    { apply (eqm_small (2 ^ w)); [apply wrap_range|lia|]. rewrite !wrap_eqm. apply eqm_refl. ring. }
    apply Z.mod_unique_pos with q; lia.
Qed.

(** *** Exponentiation: squaring until the exponent is used up *)
Lemma half_exponent p : 0 <= p -> Z.shiftr p 1 = p / 2 /\ p = 2 * (p / 2) + Z.land p 1.
Proof.
  intros Hp. rewrite Z.shiftr_div_pow2, land_1_mod by lia. split; [done|].
  apply Z.div_mod. lia.
Qed.

Lemma pow_step t r p :
  0 <= p -> r * t ^ p = (if Z.land p 1 =? 0 then r else r * t) * (t * t) ^ (p / 2).
Proof.
  intros Hp. destruct (half_exponent p Hp) as [_ E]. rewrite land_1_mod in *.
  assert (0 <= p / 2) by (apply Z.div_pos; lia).
  replace (t * t) with (t ^ 2) by ring. rewrite <- Z.pow_mul_r by lia.
  replace (t ^ p) with (t ^ (2 * (p / 2) + p mod 2)) by (f_equal; lia).
  pose proof (Z.mod_pos_bound p 2 ltac:(lia)).
  destruct (Z.eqb_spec (p mod 2) 0) as [->|NE]; [by rewrite Z.add_0_r|].
  replace (p mod 2) with 1 by lia. rewrite Z.pow_add_r by lia. ring.
Qed.

Lemma half_fuel p fuel : 0 < p < 2 ^ Z.of_nat (S fuel) -> 0 <= p / 2 < 2 ^ Z.of_nat fuel.
Proof.
  rewrite Nat2Z.inj_succ, Z.pow_succ_r by lia. intros Hp.
  split; [apply Z.div_pos; lia|apply Z.div_lt_upper_bound; lia].
Qed.

Lemma dmulmod_spec x y m :
  0 < m <= 2 ^ w -> 0 <= x < 2 ^ w -> 0 <= y < 2 ^ w -> dmulmod w x y m = Ok ((x * y) mod m).
Proof using Hw. intros. by apply dreduce_spec. Qed.

Lemma ModExp_loop_spec m (Hm : 0 < m <= 2 ^ w) fuel : forall t p r,
  0 <= t < 2 ^ w -> 0 <= r < 2 ^ w -> 0 <= p < 2 ^ Z.of_nat fuel -> (0 < fuel)%nat ->
  returns (ModExp_loop w fuel t p r m) (fun v => v ≡[m] r * (t * t) ^ (p / 2) /\ (r < m -> 0 <= v < m) /\ 0 <= v < 2 ^ w).
Proof using Hw.
  induction fuel as [|fuel IH]; intros t p r Ht Hr Hp Hf; [lia|].
  cbn [ModExp_loop]. destruct (half_exponent p ltac:(lia)) as [-> _].
  destruct (Z.eqb_spec (p / 2) 0) as [->|NE].
  { apply returns_ok. rewrite Z.pow_0_r. split; [apply eqm_refl; ring|lia]. }
  rewrite dmulmod_spec, bind_ok by lia.
  set (p' := p / 2) in *. set (t' := (t * t) mod m).
  assert (0 <= t' < m) as Ht' by (apply Z.mod_pos_bound; lia).
  assert (0 <= p' < 2 ^ Z.of_nat fuel) as Hp'.
  { apply half_fuel. split; [|lia]. destruct (decide (0 < p)); [done|].
    assert (p = 0) by lia. subst p. exfalso. by apply NE. }
  set (r' := if Z.land p' 1 =? 0 then r else (r * t') mod m).
  assert ((if Z.land p' 1 =? 0 then Ok r else dmulmod w r t' m) = Ok r') as ->.
  { unfold r'. destruct (Z.land p' 1 =? 0); [done|]. apply dmulmod_spec; lia. }
  rewrite bind_ok. pose proof (Z.mod_pos_bound (r * t') m ltac:(lia)) as Hrm.
  assert (0 < fuel)%nat as Hf'.
  { destruct fuel; [|lia]. simpl in Hp'. lia. }
  eapply returns_mono; [apply IH; [lia|unfold r'; destruct (_ =? 0); lia|done|done]|].
  intros v (Hv & Hvm & Hvw). split; [|split; [|done]].
  - rewrite Hv. rewrite (pow_step (t * t) r p') by lia.
    assert (r' ≡[m] if Z.land p' 1 =? 0 then r else r * (t * t)) as ->.
    { unfold r'. destruct (_ =? 0); [done|]. rewrite eqm_mod. unfold t'. by rewrite eqm_mod. }
    apply eqm_mul; [done|]. unfold t'. by rewrite eqm_mod.
  - intros Hrm'. apply Hvm. unfold r'. destruct (_ =? 0); lia.
Qed.

Lemma ModExp_spec a b m :
  1 < m <= 2 ^ w -> 0 <= a < 2 ^ w -> 0 <= b < 2 ^ w -> ModExp w a b m = Ok ((a ^ b) mod m).
Proof using Hw.
  intros Hm Ha Hb. unfold ModExp.
  set (r0 := if Z.land b 1 =? 0 then 1 else (1 * a) mod m).
  assert ((if Z.land b 1 =? 0 then Ok 1 else dmulmod w 1 a m) = Ok r0) as ->.
  { unfold r0. destruct (Z.land b 1 =? 0); [done|]. apply dmulmod_spec; lia. }
  rewrite bind_ok. pose proof (Z.mod_pos_bound (1 * a) m ltac:(lia)).
  assert (0 <= r0 < m) as Hr0 by (unfold r0; destruct (_ =? 0); lia).
  destruct (ModExp_loop_spec m ltac:(lia) (Z.to_nat (2 * w) + 1) a b r0) as (v & -> & Hv & Hvm & _).
  - lia.
  - lia.
  - split; [lia|]. apply Z.lt_le_trans with (2 ^ w); [lia|]. apply Z.pow_le_mono_r; lia.
  - lia.
  - rewrite bind_ok. specialize (Hvm ltac:(lia)). rewrite wrap_small by lia. f_equal.
    apply eqm_canon; [lia|]. rewrite Hv. rewrite <- (Z.mul_1_l (a ^ b)), (pow_step a 1 b) by lia.
    apply eqm_mul; [|done]. unfold r0. destruct (_ =? 0); [done|apply eqm_mod].
Qed.

(** *** The modular inverse *)
Lemma sck_spec x : - 2 ^ (w - 1) <= x < 2 ^ (w - 1) -> sck w x = Ok x.
Proof. intros Hx. unfold sck. by replace (_ && _) with true by lia. Qed.

(** The loop invariant of the extended Euclidean algorithm for [a0] and
    [m0]: two Bezout congruences, coefficients of opposite signs, and the
    determinant [|y| a + |x| modulus = m0] that bounds both. *)
Definition egcd_inv (a0 m0 modulus a y x : Z) : Prop :=
  x * a0 ≡[m0] a /\ y * a0 ≡[m0] modulus /\ 0 <= modulus < a /\
  Z.gcd a modulus = Z.gcd a0 m0 /\
  x * y <= 0 /\ Z.abs y * a + Z.abs x * modulus = m0 /\ 2 * Z.abs x <= m0.

Lemma egcd_step a0 m0 modulus a y x :
  egcd_inv a0 m0 modulus a y x -> 1 < a -> 0 < modulus ->
  egcd_inv a0 m0 (Z.rem a modulus) modulus (x - Z.quot a modulus * y) y /\
  Z.abs (Z.quot a modulus * y) <= m0 /\ Z.abs (x - Z.quot a modulus * y) <= m0.
Proof.
  intros (Hx & Hy & Hr & Hg & Hs & Hd & Hb) Ha Hmod.
  rewrite Z.quot_div_nonneg, Z.rem_mod_nonneg by lia.
  pose proof (Z.div_mod a modulus ltac:(lia)) as E.
  pose proof (Z.mod_pos_bound a modulus Hmod) as B.
  set (q := a / modulus) in *. set (r := a mod modulus) in *.
  assert (1 <= q) by nia.
  assert (Z.abs (x - q * y) = Z.abs x + q * Z.abs y) as Eabs by nia.
  assert (Z.abs (q * y) <= Z.abs (x - q * y)) as Hq by nia.
  assert (Z.abs (x - q * y) * modulus + Z.abs y * r = m0) as Hd' by (rewrite Eabs; nia).
  split; [|split; nia].
  split; [done|]. split; [|split; [lia|split; [|split; [nia|split; [done|nia]]]]].
  - replace ((x - q * y) * a0) with (x * a0 - q * (y * a0)) by ring. rewrite Hx, Hy.
    apply eqm_refl. lia.
  - rewrite <- Hg, Z.gcd_comm. unfold r. rewrite Z.gcd_mod by lia. apply Z.gcd_comm.
Qed.

Lemma ModInverse_loop_sound a0 m0 fuel : forall modulus a y x v,
  m0 < 2 ^ (w - 1) -> egcd_inv a0 m0 modulus a y x ->
  ModInverse_loop w fuel modulus a y x = Ok v -> Z.gcd a0 m0 = 1 /\ v * a0 ≡[m0] 1 /\ 2 * Z.abs v <= m0.
Proof.
  induction fuel as [|fuel IH]; intros modulus a y x v Hm0 Hi E; [done|].
  cbn [ModInverse_loop] in E. destruct (Z.ltb_spec 1 a).
  - unfold sdiv, srem in E. destruct (Z.eqb_spec modulus 0); [done|].
    assert (0 < modulus) as Hmod by (destruct Hi as (_ & _ & ? & _); lia).
    destruct (egcd_step a0 m0 modulus a y x Hi ltac:(lia) Hmod) as (Hi' & B1 & B2).
    unfold sck in E. repeat (case_match; [|done]; cbn in E). by apply IH in E.
  - injection E as <-. destruct Hi as (Hx & Hy & Hr & Hg & Hs & Hd & Hb).
    assert (a = 1) by lia. subst a. assert (modulus = 0) by lia. subst modulus.
    by rewrite <- Hg.
Qed.

(** The fuel is enough: the loop returns, or it comes to a division by zero,
    and then the operands are not coprime. *)
Lemma ModInverse_loop_ends a0 m0 fuel : forall modulus a y x,
  m0 < 2 ^ (w - 1) -> egcd_inv a0 m0 modulus a y x -> a < 2 ^ (w - 1) ->
  Z.log2 a + Z.log2 modulus + 1 < Z.of_nat fuel ->
  (exists v, ModInverse_loop w fuel modulus a y x = Ok v) \/
  Z.gcd a0 m0 <> 1 /\ ModInverse_loop w fuel modulus a y x = Throw undefined_behaviour.
Proof using Hw.
  induction fuel as [|fuel IH]; intros modulus a y x Hm0 Hi Haw Hf.
  { pose proof (Z.log2_nonneg a). pose proof (Z.log2_nonneg modulus). lia. }
  cbn [ModInverse_loop]. destruct (Z.ltb_spec 1 a) as [Ha|Ha]; [|eauto].
  destruct (Z.eqb_spec modulus 0) as [->|Hne].
  { right. destruct Hi as (_ & _ & Hr & Hg & _). rewrite Z.gcd_0_r in Hg. split; [lia|done]. }
  assert (0 < modulus) as Hmod by (destruct Hi as (_ & _ & Hr & _); lia).
  destruct (egcd_step a0 m0 modulus a y x Hi Ha Hmod) as (Hi' & B1 & B2).
  pose proof Hi as (_ & _ & Hr & _).
  unfold sdiv, srem. rewrite (proj2 (Z.eqb_neq modulus 0)) by lia.
  rewrite (sck_spec (Z.quot a modulus)).
  2: { rewrite Z.quot_div_nonneg by lia. pose proof (Z.div_pos a modulus ltac:(lia) Hmod).
       assert (a / modulus <= a) by (apply Z.div_le_upper_bound; nia). lia. }
  rewrite !bind_ok, (sck_spec (Z.quot a modulus * y)), bind_ok, sck_spec, bind_ok by lia.
  apply IH; auto; [lia|].
  rewrite Z.rem_mod_nonneg by lia.
  pose proof (Z.div_mod a modulus ltac:(lia)) as E. pose proof (Z.mod_pos_bound a modulus Hmod) as B.
  set (r := a mod modulus) in *. assert (1 <= a / modulus) by nia. assert (2 * r + 1 <= a) by nia.
  assert (Z.log2 r < Z.log2 a); [|lia].
  destruct (decide (r = 0)) as [->|NE].
  { change (Z.log2 0) with 0. apply Z.log2_pos. lia. }
  apply Z.lt_le_trans with (Z.log2 (2 * r)); [|apply Z.log2_le_mono; lia].
  rewrite Z.log2_double by lia. lia.
Qed.

Lemma pow_w_half : 2 ^ w = 2 * 2 ^ (w - 1).
Proof using Hw. replace w with (1 + (w - 1)) at 1 by lia. by rewrite Z.pow_add_r by lia. Qed.

Lemma to_signed_small x : 0 <= x < 2 ^ (w - 1) -> to_signed w x = x.
Proof. intros Hx. unfold to_signed. destruct (Z.ltb_spec x (2 ^ (w - 1))); lia. Qed.

Lemma to_signed_eqm x : to_signed w x ≡[2 ^ w] x.
Proof. unfold to_signed. destruct (_ <? _); [done|]. apply eqm_iff. exists (-1). ring. Qed.

(** The loop is entered with the operands in the wrong order; its first
    iteration swaps them. *)
Lemma ModInverse_first a0 m0 fuel :
  0 < a0 < m0 -> m0 < 2 ^ (w - 1) ->
  ModInverse_loop w (S fuel) m0 a0 0 1 =
  (if 1 <? a0 then ModInverse_loop w fuel a0 m0 1 0 else Ok 1).
Proof using Hw.
  intros Ha Hm. cbn [ModInverse_loop]. destruct (1 <? a0); [|done].
  pose proof (pow2_pos (w - 1) ltac:(lia)).
  unfold sdiv, srem. rewrite (proj2 (Z.eqb_neq m0 0)) by lia.
  rewrite Z.quot_small, Z.rem_small by lia.
  assert (1 < 2 ^ (w - 1)) by (apply Z.pow_gt_1; lia).
  repeat (rewrite sck_spec, bind_ok by lia; rewrite ?bind_ok). done.
Qed.

Lemma egcd_inv_init a0 m0 : 0 < a0 < m0 -> egcd_inv a0 m0 a0 m0 1 0.
Proof.
  intros Ha. split; [rewrite Z.mul_0_l; symmetry; apply eqm_modulus|].
  split; [apply eqm_refl; ring|]. split; [lia|]. split; [apply Z.gcd_comm|]. lia.
Qed.

Lemma ModInverse_finish v a0 m :
  2 <= m < 2 ^ (w - 1) -> v * a0 ≡[m] 1 -> 2 * Z.abs v <= m ->
  let r := wrap w (if v <? 0 then to_signed w (wrap w (wrap w v + m)) else v) in
  0 <= r < m /\ r * a0 ≡[m] 1.
Proof using Hw.
  intros Hm Hv Hb. pose proof pow_w_half as Hp. pose proof (pow2_pos (w - 1) ltac:(lia)).
  cbn zeta. destruct (Z.ltb_spec v 0).
  - assert (wrap w (to_signed w (wrap w (wrap w v + m))) = v + m) as ->.
    { apply (eqm_small (2 ^ w)); [apply wrap_range|lia|].
      rewrite wrap_eqm, to_signed_eqm, !wrap_eqm. done. }
    split; [lia|]. rewrite <- Hv.
    apply eqm_iff. exists a0. ring.
  - rewrite wrap_small by lia. split; [|done].
    assert (v <> m); [|lia]. lia.
Qed.

Lemma ModInverse_spec a m :
  2 <= m < 2 ^ (w - 1) -> 0 <= a ->
  (Z.gcd a m = 1 -> exists v, ModInverse w a m = Ok v) /\
  (forall v, ModInverse w a m = Ok v -> Z.gcd a m = 1 /\ 0 <= v < m /\ v * a ≡[m] 1).
Proof using Hw.
  intros Hm Ha. unfold ModInverse. rewrite umod_spec, bind_ok by lia.
  pose proof (Z.mod_pos_bound a m ltac:(lia)) as Hr.
  rewrite (to_signed_small m), (to_signed_small (a mod m)) by lia.
  assert (Z.gcd a m = Z.gcd (a mod m) m) as -> by (rewrite Z.gcd_mod by lia; apply Z.gcd_comm).
  destruct (Z.eqb_spec (a mod m) 0) as [E0|NE0].
  { split; [|done]. rewrite E0. intros Hg. rewrite ?Z.gcd_0_l, ?Z.gcd_0_r in Hg. lia. }
  rewrite (proj2 (Z.eqb_neq m 1)) by lia.
  assert (a mod m ≡[m] a) as Ham by apply eqm_mod.
  set (a0 := a mod m) in *.
  replace (2 * Z.to_nat w + 2)%nat with (S (2 * Z.to_nat w + 1)) by lia.
  rewrite ModInverse_first by lia.
  pose proof (egcd_inv_init a0 m ltac:(lia)) as Hi. split.
  - intros Hg. destruct (Z.ltb_spec 1 a0); [|rewrite bind_ok; eauto].
    destruct (ModInverse_loop_ends a0 m (2 * Z.to_nat w + 1) a0 m 1 0) as [[v ->]|[Hn _]]; eauto; try lia.
    assert (Z.log2 m < w - 1) by (apply Z.log2_lt_pow2; lia).
    pose proof (Z.log2_le_mono a0 m ltac:(lia)). lia.
  - intros v Hv.
    assert (exists x, (if 1 <? a0 then ModInverse_loop w (2 * Z.to_nat w + 1) a0 m 1 0 else Ok 1) = Ok x /\
      Z.gcd a0 m = 1 /\ x * a0 ≡[m] 1 /\ 2 * Z.abs x <= m) as (x & Hx & Hg & Hxa & Hxb).
    { destruct (Z.ltb_spec 1 a0).
      - destruct (ModInverse_loop _ _ _ _ _ _) as [x|] eqn:E; [|done].
        apply (ModInverse_loop_sound a0 m) in E; [eauto|lia|done].
      - exists 1. assert (a0 = 1) as -> by lia. rewrite Z.gcd_1_l. repeat split; lia. }
    rewrite Hx, bind_ok in Hv. injection Hv as <-.
    destruct (ModInverse_finish x a0 m Hm Hxa Hxb) as [? Hra].
    split; [done|]. split; [done|]. by rewrite <- Ham.
Qed.

(** Without an inverse: an operand divisible by the modulus is refused, and on
    the others the loop divides by zero. *)
Lemma ModInverse_none a m :
  2 <= m < 2 ^ (w - 1) -> 0 <= a -> Z.gcd a m <> 1 ->
  ModInverse w a m = Throw (if a mod m =? 0 then math_error " does not have a ModInverse using " else undefined_behaviour).
Proof using Hw.
  intros Hm Ha Hg. unfold ModInverse. rewrite umod_spec, bind_ok by lia. pose proof (Z.mod_pos_bound a m ltac:(lia)) as Hr.
  rewrite (to_signed_small m), (to_signed_small (a mod m)) by lia. destruct (Z.eqb_spec (a mod m) 0) as [_|NE0]; [done|].
  assert (Z.gcd (a mod m) m <> 1) as Hg0 by (rewrite Z.gcd_mod, Z.gcd_comm by lia; done).
  rewrite (proj2 (Z.eqb_neq m 1)) by lia. set (a0 := a mod m) in *.
  replace (2 * Z.to_nat w + 2)%nat with (S (2 * Z.to_nat w + 1)) by lia. rewrite ModInverse_first by lia.
  pose proof (egcd_inv_init a0 m ltac:(lia)) as Hi. assert (a0 <> 1) by (intros E; rewrite E, Z.gcd_1_l in Hg0; done).
  rewrite (proj2 (Z.ltb_lt 1 a0)) by lia. assert (Z.log2 m < w - 1) by (apply Z.log2_lt_pow2; lia). pose proof (Z.log2_le_mono a0 m ltac:(lia)).
  destruct (ModInverse_loop_ends a0 m (2 * Z.to_nat w + 1) a0 m 1 0) as [[v E]|[_ ->]]; try done; try lia.
  apply (ModInverse_loop_sound a0 m) in E; [tauto|lia|done].
Qed.

(** *** The remaining single operations *)
Lemma Exp_loop_spec fuel : forall x p r,
  0 <= r < 2 ^ w -> 0 <= p < 2 ^ Z.of_nat fuel ->
  Exp_loop w (S fuel) x p r = Ok ((r * x ^ p) mod 2 ^ w).
Proof using Hw.
  induction fuel as [|fuel IH]; intros x p r Hr Hp; cbn [Exp_loop];
    (destruct (Z.ltb_spec 0 p) as [H0|H0];
     [|assert (p = 0) as -> by lia; by rewrite Z.pow_0_r, Z.mul_1_r, Z.mod_small by lia]).
  { change (2 ^ Z.of_nat 0) with 1 in Hp. lia. }
  destruct (half_exponent p ltac:(lia)) as [-> _].
  change (Exp_loop w (S fuel) (wrap w (x * x)) (p / 2) (wrap w (r * (if Z.land p 1 =? 0 then 1 else x)))
    = Ok ((r * x ^ p) mod 2 ^ w)).
  rewrite IH; [|apply wrap_range|apply half_fuel; lia]. f_equal.
  change (wrap w (r * (if Z.land p 1 =? 0 then 1 else x)) * wrap w (x * x) ^ (p / 2) ≡[2 ^ w] r * x ^ p).
  rewrite (pow_step x r p) by lia. rewrite !wrap_eqm. apply eqm_mul; [|done].
  destruct (_ =? 0); apply eqm_refl; ring.
Qed.

Lemma DivideAndRound_nearest a q :
  0 <= a < 2 ^ w -> 0 < q < 2 ^ w -> 2 <= q \/ a < 2 ^ w - 1 ->
  DivideAndRound w a q = Ok ((2 * a + q - 1) / (2 * q)).
Proof using Hw.
  intros Ha Hq Hov. unfold DivideAndRound. rewrite (proj2 (Z.eqb_neq q 0)) by lia.
  rewrite Z.shiftr_div_pow2 by lia. change (2 ^ 1) with 2.
  pose proof (Z.div_mod a q ltac:(lia)) as E. pose proof (Z.mod_pos_bound a q ltac:(lia)) as B.
  pose proof (Z.div_mod q 2 ltac:(lia)) as E2. pose proof (Z.mod_pos_bound q 2 ltac:(lia)) as B2.
  set (d := a / q) in *. set (r := a mod q) in *. set (h := q / 2) in *.
  assert (0 <= d) by (apply Z.div_pos; lia).
  destruct (Z.ltb_spec h r).
  - assert (2 <= q) by lia. rewrite wrap_small by nia. f_equal.
    apply Z.div_unique_pos with (2 * r + q - 1 - 2 * q); lia.
  - f_equal. apply Z.div_unique_pos with (2 * r + q - 1); lia.
Qed.

Lemma wrap_add_carry a b :
  0 <= a < 2 ^ w -> 0 <= b < 2 ^ w ->
  wrap w (a + b) = if a + b <? 2 ^ w then a + b else a + b - 2 ^ w.
Proof using Hw.
  intros Ha Hb. destruct (Z.ltb_spec (a + b) (2 ^ w)); [apply wrap_small; lia|].
  symmetry. apply Z.mod_unique_pos with 1; lia.
Qed.

Lemma AddCheck_eq a b :
  0 <= a < 2 ^ w -> 0 <= b < 2 ^ w ->
  AddCheck w a b = if a + b <? 2 ^ w then Ok (a + b) else Throw (math_error "NativeIntegerT AddCheck: Overflow").
Proof using Hw.
  intros Ha Hb. unfold AddCheck. rewrite (wrap_add_carry a b Ha Hb).
  destruct (Z.ltb_spec (a + b) (2 ^ w)).
  - by rewrite (proj2 (Z.ltb_ge (a + b) a)), (proj2 (Z.ltb_ge (a + b) b)) by lia.
  - by rewrite (proj2 (Z.ltb_lt (a + b - 2 ^ w) a)) by lia.
Qed.

Lemma AddEqCheck_eq a b :
  0 <= a < 2 ^ w -> 0 <= b < 2 ^ w ->
  AddEqCheck w a b = if a + b <? 2 ^ w then Ok (a + b) else Throw (math_error "NativeIntegerT AddEqCheck: Overflow").
Proof using Hw.
  intros Ha Hb. unfold AddEqCheck. rewrite (wrap_add_carry a b Ha Hb).
  destruct (Z.ltb_spec (a + b) (2 ^ w)).
  - by rewrite (proj2 (Z.ltb_ge (a + b) a)) by lia.
  - by rewrite (proj2 (Z.ltb_lt (a + b - 2 ^ w) a)) by lia.
Qed.

Lemma SubCheck_eq a b : 0 <= a < 2 ^ w -> 0 <= b < 2 ^ w -> SubCheck w a b = Z.max 0 (a - b).
Proof using Hw.
  intros Ha Hb. unfold SubCheck. destruct (Z.leb_spec a b); [lia|]. rewrite wrap_small; lia.
Qed.

Lemma SubEqCheck_eq a b :
  0 <= a < 2 ^ w -> 0 <= b < 2 ^ w ->
  SubEqCheck w a b = if a <? b then Throw (math_error "NativeIntegerT SubEqCheck: neg value") else Ok (a - b).
Proof using Hw.
  intros Ha Hb. unfold SubEqCheck. destruct (Z.ltb_spec a b); [done|]. by rewrite wrap_small by lia.
Qed.

(** *** Strings of digits *)
Definition digit_val (c : ascii) : Z := char_val c - 48.
Definition is_digit (b : Z) (c : ascii) : Prop := 0 <= digit_val c < b.
Definition digits_val (b : Z) (l : list ascii) (acc : Z) : Z :=
  foldl (fun acc c => b * acc + digit_val c) acc l.

Lemma digits_val_cons b c l acc : digits_val b (c :: l) acc = digits_val b l (b * acc + digit_val c).
Proof. done. Qed.

Lemma digits_val_mono b l acc : 2 <= b -> 0 <= acc -> Forall (is_digit b) l -> acc <= digits_val b l acc.
Proof.
  intros Hb. revert acc. induction l as [|c l IH]; intros acc Ha Hl; simpl; [lia|].
  apply Forall_cons in Hl as [[Hc1 Hc2] Hl].
  transitivity (b * acc + digit_val c); [nia|]. apply IH; [nia|done].
Qed.

Lemma SetValue_loop_spec l : forall acc,
  0 <= acc -> Forall (is_digit 10) l -> digits_val 10 l acc < 2 ^ w ->
  SetValue_loop w l acc acc = Ok (digits_val 10 l acc).
Proof using Hw.
  assert (2 ^ 8 <= 2 ^ w) as H8 by (apply Z.pow_le_mono_r; lia).
  induction l as [|c l IH]; intros acc Ha Hl Hv; [done|].
  apply Forall_cons in Hl as [Hc Hl]. unfold is_digit in Hc. cbn [SetValue_loop].
  rewrite digits_val_cons in *. change (char_val c - 48) with (digit_val c).
  rewrite (proj2 (Z.ltb_ge 9 _)) by lia.
  pose proof (digits_val_mono 10 l (10 * acc + digit_val c) ltac:(lia) ltac:(lia) Hl).
  rewrite (wrap_small (10 * acc)), (wrap_small (digit_val c)), wrap_small by lia.
  rewrite (proj2 (Z.ltb_ge _ acc)) by lia. apply IH; [lia|done|done].
Qed.

Lemma FromBinary_loop_spec l : forall acc,
  0 <= acc -> Forall (is_digit 2) l -> (acc + 1) * 2 ^ Z.of_nat (length l) <= 2 ^ w ->
  FromBinary_loop w l acc = Ok (digits_val 2 l acc).
Proof using Hw.
  induction l as [|c l IH]; intros acc Ha Hl Hv; [done|].
  apply Forall_cons in Hl as [Hc Hl]. unfold is_digit in Hc. cbn [FromBinary_loop].
  rewrite digits_val_cons in *. change (char_val c - 48) with (digit_val c).
  rewrite (proj2 (Z.ltb_ge _ 0)), (proj2 (Z.ltb_ge 1 _)) by lia. simpl orb. cbn iota.
  simpl length in Hv. rewrite Nat2Z.inj_succ, Z.pow_succ_r in Hv by lia.
  pose proof (pow2_pos (Z.of_nat (length l)) ltac:(lia)).
  rewrite Z.shiftl_mul_pow2, (wrap_small (acc * 2 ^ 1)) by (change (2 ^ 1) with 2; (lia || nia)).
  rewrite <- (Z.shiftl_mul_pow2 acc 1) by lia.
  rewrite Z.lor_comm, (lor_shiftl_add _ _ 1); [|lia|change (2 ^ 1) with 2; lia].
  change (2 ^ 1) with 2. replace (digit_val c + acc * 2) with (2 * acc + digit_val c) by lia.
  apply IH; [lia|done|nia].
Qed.
End Facts.
