(* ===== verification/NativeIntProps.v ===== *)
(** * Properties of the native integer layer *)

From Stdlib Require Import ZArith Lia Ascii String Znumtheory.
From stdpp Require Import base tactics numbers list.
From S2P Require Import Prelude Double NativeInt NativeIntFacts.

(** C38: Barrett multiplication.  For every modulus whose Barrett constant fits
    a word, [ComputeMu] returns the constant and every overload of [ModMul]
    that takes it returns the exact residue of the product: the general
    overloads for operands of up to [2 * MSB + 2] bits, the fast ones for
    reduced operands.  The in-place overloads return the same value. *)
Theorem barrett_mul_correct (w m a b : Z) :
  8 <= w <= 128 -> barrett_mod w m -> 0 <= a < 2 ^ w -> 0 <= b < 2 ^ w ->
  a < 2 ^ (2 * GetMSB w m + 2) -> b < 2 ^ (2 * GetMSB w m + 2) ->
  exists mu, ComputeMu w m = Ok mu /\
    ModMul_mu w a b m mu = Ok ((a * b) mod m) /\ ModMulEq_mu w a b m mu = Ok ((a * b) mod m) /\
    (a < m -> b < m ->
     ModMulFast_mu w a b m mu = Ok ((a * b) mod m) /\ ModMulFastEq_mu w a b m mu = Ok ((a * b) mod m)).
Proof.
  intros Hw Hm Ha Hb Ha' Hb'. exists (mu_of w m).
  split; [by apply ComputeMu_spec|].
  pose proof (ModMul_mu_spec w Hw a b m Hm Ha Hb Ha' Hb') as E.
  split; [exact E|]. split; [exact E|]. intros Ham Hbm.
  pose proof (ModMulFast_mu_spec w Hw a b m Hm ltac:(lia) ltac:(lia)) as E'. by split.
Qed.

Lemma barrett_mul_correct_witness :
  barrett_mod 32 134215681 /\
  exists mu, ComputeMu 32 134215681 = Ok mu /\ ModMul_mu 32 (2 ^ 32 - 1) 123456789 134215681 mu = Ok (((2 ^ 32 - 1) * 123456789) mod 134215681).
Proof.
  assert (barrett_mod 32 134215681) as Hm by zdec.
  split; [exact Hm|].
  destruct (barrett_mul_correct 32 134215681 (2 ^ 32 - 1) 123456789 ltac:(lia) Hm ltac:(lia) ltac:(lia) ltac:(zdec) ltac:(zdec))
    as (mu & H1 & H2 & _).
  exists mu. split; assumption.
Defined.

(** The pair-of-words versions, selected for the widest type, compute the
    same residues: multiplication by the schoolbook product of 64-bit halves,
    two word-pair shifts and a word-pair subtraction. *)
Theorem barrett_same_correct (w m a b : Z) :
  8 <= w <= 128 -> barrett_mod w m -> GetMSB w m + 6 <= w ->
  0 <= a < 2 ^ w -> 0 <= b < 2 ^ w ->
  a < 2 ^ (2 * GetMSB w m + 2) -> b < 2 ^ (2 * GetMSB w m + 2) ->
  exists mu, ComputeMu_same w m = Ok mu /\
    ModMul_same w a b m = Ok ((a * b) mod m) /\ ModMul_mu_same w a b m mu = Ok ((a * b) mod m) /\
    (a < m -> b < m ->
     ModMulFast_same w a b m = Ok ((a * b) mod m) /\ ModMulFast_mu_same w a b m mu = Ok ((a * b) mod m) /\
     ModMulFastEq_mu_same w a b m mu = Ok ((a * b) mod m)).
Proof.
  intros Hw Hm Hk Ha Hb Ha' Hb'. exists (mu_of w m).
  pose proof (ComputeMu_same_spec w Hw m Hm) as Hmu. split; [done|].
  pose proof (ModMul_mu_same_spec w Hw a b m Hm Hk Ha Hb Ha' Hb') as E.
  split; [unfold ModMul_same; rewrite Hmu; exact E|]. split; [exact E|]. intros Ham Hbm.
  pose proof (barrett_same_spec w Hw m a b Hm Hk Ha Hb (reduced_product w Hw m a b Hm ltac:(lia) ltac:(lia))) as E'.
  split; [unfold ModMulFast_same; rewrite Hmu; exact E'|]. by split.
Qed.

Lemma barrett_same_correct_witness :
  exists mu, ComputeMu_same 128 (2 ^ 119 - 69) = Ok mu /\
    ModMul_mu_same 128 (2 ^ 128 - 1) (2 ^ 100 + 7) (2 ^ 119 - 69) mu = Ok (((2 ^ 128 - 1) * (2 ^ 100 + 7)) mod (2 ^ 119 - 69)).
Proof.
  destruct (barrett_same_correct 128 (2 ^ 119 - 69) (2 ^ 128 - 1) (2 ^ 100 + 7) ltac:(lia) ltac:(zdec)
    ltac:(zdec) ltac:(lia) ltac:(lia) ltac:(zdec) ltac:(zdec)) as (mu & H1 & _ & H2 & _).
  exists mu. split; assumption.
Defined.

(** The bound is sharp.  At the largest bit length the library accepts
    ([MAX_MODULUS_SIZE]: 60 bits of 64, 28 bits of 32) the power of two is a
    modulus whose Barrett constant wraps around to zero, and the fast
    multiplication of reduced operands is then wrong. *)
Theorem barrett_boundary :
  (GetMSB 64 (2 ^ 59) = 60 /\ ComputeMu 64 (2 ^ 59) = Ok 0 /\
   exists a b, 0 <= a < 2 ^ 59 /\ 0 <= b < 2 ^ 59 /\ ModMulFast_mu 64 a b (2 ^ 59) 0 <> Ok ((a * b) mod 2 ^ 59)) /\
  (GetMSB 32 (2 ^ 27) = 28 /\ ComputeMu 32 (2 ^ 27) = Ok 0 /\
   exists a b, 0 <= a < 2 ^ 27 /\ 0 <= b < 2 ^ 27 /\ ModMulFast_mu 32 a b (2 ^ 27) 0 <> Ok ((a * b) mod 2 ^ 27)).
Proof.
  split; (split; [done|split; [done|]]).
  - exists (2 ^ 58 + 1), 13. split; [lia|split; [lia|]]. vm_compute. congruence.
  - exists (2 ^ 26 + 1), 13. split; [lia|split; [lia|]]. vm_compute. congruence.
Qed.

(** Modular addition and subtraction return the canonical residue of the
    sum and the difference, for any operands in the general overloads, for
    reduced ones in the fast overloads, as long as twice the modulus fits. *)
Theorem modular_add_sub_correct (w m a b : Z) :
  8 <= w <= 128 -> 0 < m -> 2 * m <= 2 ^ w -> 0 <= a -> 0 <= b ->
  ModAdd w a b m = Ok ((a + b) mod m) /\ ModAddEq w a b m = Ok ((a + b) mod m) /\
  ModSub w a b m = Ok ((a - b) mod m) /\ ModSubEq w a b m = Ok ((a - b) mod m) /\
  (a < m -> b < m ->
   ModAddFast w a b m = (a + b) mod m /\ ModAddFastEq w a b m = (a + b) mod m /\
   ModSubFast w a b m = (a - b) mod m /\ ModSubFastEq w a b m = (a - b) mod m).
Proof.
  intros Hw Hm H2 Ha Hb.
  pose proof (ModAdd_spec w Hw a b m Hm H2 Ha Hb) as E1. pose proof (ModSub_spec w Hw a b m Hm H2 Ha Hb) as E2.
  do 4 (split; [assumption|]). intros Ham Hbm.
  pose proof (ModAddFast_spec w Hw a b m ltac:(lia) ltac:(lia) H2).
  pose proof (ModSubFast_spec w Hw a b m ltac:(lia) ltac:(lia) H2). by repeat split.
Qed.

Lemma modular_add_sub_correct_witness :
  ModAdd 32 4000000000 7 100 = Ok 7 /\ ModSub 32 3 4000000001 100 = Ok 2.
Proof.
  split.
  - exact (proj1 (modular_add_sub_correct 32 100 4000000000 7 ltac:(lia) ltac:(lia) ltac:(lia) ltac:(lia) ltac:(lia))).
  - exact (proj1 (proj2 (proj2 (modular_add_sub_correct 32 100 3 4000000001 ltac:(lia) ltac:(lia) ltac:(lia) ltac:(lia) ltac:(lia))))).
Defined.

(** Shoup multiplication.  With the constant that [PrepModMulConst]
    precomputes for a reduced multiplier, the multiplication returns the exact
    residue for every word, reduced or not. *)
Theorem shoup_mul_correct (w m a b : Z) :
  8 <= w <= 128 -> 2 * m <= 2 ^ w -> 0 <= a < 2 ^ w -> 0 <= b < m ->
  exists bInv, PrepModMulConst w b m = Ok bInv /\ PrepModMulConst_same w b m = Ok bInv /\
    ModMulFastConst w a b m bInv = (a * b) mod m /\ ModMulFastConstEq w a b m bInv = (a * b) mod m.
Proof.
  intros Hw H2 Ha Hb. exists (b * 2 ^ w / m).
  pose proof (pow_w_pos w Hw). pose proof (PrepModMulConst_spec w Hw b m Hb ltac:(lia)) as E.
  pose proof (ModMulFastConst_spec w Hw a b m Ha Hb H2) as E2.
  split; [exact E|]. split; [|by split].
  unfold PrepModMulConst_same. rewrite (proj2 (Z.eqb_neq m 0)) by lia.
  rewrite Z.shiftl_mul_pow2 by lia. f_equal. apply wrap_small.
  split; [apply Z.div_pos; nia|apply Z.div_lt_upper_bound; nia].
Qed.

Lemma shoup_mul_correct_witness :
  exists bInv, PrepModMulConst 32 99 101 = Ok bInv /\ ModMulFastConst 32 4294967295 99 101 bInv = (4294967295 * 99) mod 101.
Proof.
  destruct (shoup_mul_correct 32 101 4294967295 99 ltac:(lia) ltac:(lia) ltac:(lia) ltac:(lia)) as (v & H1 & _ & H2 & _).
  exists v. split; assumption.
Defined.

(** Modular exponentiation terminates within the loop bound and returns
    the exact power, for every base and exponent of the type. *)
Theorem ModExp_correct (w m a b : Z) :
  8 <= w <= 128 -> 1 < m <= 2 ^ w -> 0 <= a < 2 ^ w -> 0 <= b < 2 ^ w ->
  ModExp w a b m = Ok ((a ^ b) mod m) /\ ModExpEq w a b m = Ok ((a ^ b) mod m).
Proof. intros Hw Hm Ha Hb. pose proof (ModExp_spec w Hw a b m Hm Ha Hb). by split. Qed.

Lemma ModExp_correct_witness : ModExp 32 3 10 1000 = Ok ((3 ^ 10) mod 1000).
Proof. exact (proj1 (ModExp_correct 32 1000 3 10 ltac:(lia) ltac:(lia) ltac:(lia) ltac:(lia))). Defined.

(** C39: the modular inverse exists in the program exactly when it exists: the
    signed extended Euclidean algorithm returns, without overflow, the
    canonical inverse of every operand coprime to the modulus.  On the others
    it throws the exception of the code when the modulus divides the operand,
    and otherwise, still within the bound on its rounds, its loop comes to a
    remainder of zero and divides by it, which is undefined. *)
Theorem ModInverse_correct (w m a : Z) :
  8 <= w <= 128 -> 2 <= m < 2 ^ (w - 1) -> 0 <= a < 2 ^ w ->
  (Z.gcd a m = 1 -> exists v, ModInverse w a m = Ok v /\ 0 <= v < m /\ (v * a) mod m = 1) /\
  (Z.gcd a m <> 1 ->
   ModInverse w a m = Throw (if a mod m =? 0 then math_error " does not have a ModInverse using " else undefined_behaviour)).
Proof.
  intros Hw Hm Ha. destruct (ModInverse_spec w Hw a m Hm ltac:(lia)) as [H1 H2]. split.
  - intros Hg. destruct (H1 Hg) as [v Hv]. exists v. split; [done|].
    destruct (H2 v Hv) as (_ & Hr & He). split; [done|]. unfold eqm in He. rewrite He. apply Z.mod_small. lia.
  - apply (ModInverse_none w Hw a m Hm). lia.
Qed.

Lemma ModInverse_correct_witness :
  (exists v, ModInverse 32 12345 134215681 = Ok v /\ 0 <= v < 134215681 /\ (v * 12345) mod 134215681 = 1) /\
  ModInverse 32 6 9 = Throw undefined_behaviour /\ ModInverse 32 18 9 = Throw (math_error " does not have a ModInverse using ").
Proof.
  split; [|split].
  - exact (proj1 (ModInverse_correct 32 134215681 12345 ltac:(lia) ltac:(lia) ltac:(lia)) eq_refl).
  - exact (proj2 (ModInverse_correct 32 9 6 ltac:(lia) ltac:(lia) ltac:(lia)) ltac:(discriminate)).
  - exact (proj2 (ModInverse_correct 32 9 18 ltac:(lia) ltac:(lia) ltac:(lia)) ltac:(discriminate)).
Defined.

(** C40: the checked operations.  Checked addition throws exactly when the sum
    does not fit, and the in-place version agrees; checked subtraction
    saturates at zero, while its in-place version throws.  The unchecked
    versions, which the dispatchers select, wrap around. *)
Theorem checked_arithmetic (w a b : Z) :
  8 <= w <= 128 -> 0 <= a < 2 ^ w -> 0 <= b < 2 ^ w ->
  (if a + b <? 2 ^ w
   then AddCheck w a b = Ok (a + b) /\ AddEqCheck w a b = Ok (a + b)
   else AddCheck w a b = Throw (math_error "NativeIntegerT AddCheck: Overflow") /\ AddEqCheck w a b = Throw (math_error "NativeIntegerT AddEqCheck: Overflow")) /\
  SubCheck w a b = Z.max 0 (a - b) /\
  (if a <? b then SubEqCheck w a b = Throw (math_error "NativeIntegerT SubEqCheck: neg value") else SubEqCheck w a b = Ok (a - b)) /\
  Add w a b = Ok ((a + b) mod 2 ^ w) /\ Sub w a b = (a - b) mod 2 ^ w /\ Mul w a b = Ok ((a * b) mod 2 ^ w).
Proof.
  intros Hw Ha Hb.
  rewrite AddCheck_eq, AddEqCheck_eq, SubCheck_eq, SubEqCheck_eq by done.
  unfold Add, Sub, Mul, AddFast, SubFast, MulFast; cbn [NATIVEINT_DO_CHECKS].
  rewrite (Z.add_comm b a), (Z.mul_comm b a).
  destruct (a + b <? 2 ^ w), (a <? b); repeat split; eauto.
Qed.

Lemma checked_arithmetic_witness :
  AddCheck 32 4294967295 1 = Throw (math_error "NativeIntegerT AddCheck: Overflow") /\ SubCheck 32 3 5 = 0.
Proof.
  split.
  - destruct (proj1 (checked_arithmetic 32 4294967295 1 ltac:(lia) ltac:(lia) ltac:(lia))) as [H _]. exact H.
  - exact (proj1 (proj2 (checked_arithmetic 32 3 5 ltac:(lia) ltac:(lia) ltac:(lia)))).
Defined.

(** Checked multiplication does not detect overflow: it throws on every
    product of a positive number and zero, and it accepts products that do
    not fit. *)
Theorem MulCheck_unsound :
  (forall w a, 0 < a < 2 ^ w -> exists e e', MulCheck w a 0 = Throw e /\ MulCheck w 0 a = Throw e /\ MulEqCheck w a 0 = Throw e') /\
  (exists a b v, 0 <= a < 2 ^ 64 /\ 0 <= b < 2 ^ 64 /\ 2 ^ 64 <= a * b /\ MulCheck 64 a b = Ok v /\ MulEqCheck 64 a b = Ok v).
Proof.
  split.
  - intros w a Ha. unfold MulCheck, MulEqCheck.
    rewrite Z.mul_0_l, Z.mul_0_r. assert (wrap w 0 = 0) as -> by (apply wrap_small; lia).
    rewrite (proj2 (Z.ltb_lt 0 a)) by lia. simpl. rewrite ?orb_true_r. eauto.
  - exists (2 ^ 32 + 1), (2 ^ 32 + 1). eexists. repeat split; try lia; vm_compute; reflexivity.
Qed.

(** Decimal strings.  [SetValue] reads every string of decimal digits
    whose value fits, and [FromBinaryString] every string of at most [w]
    binary digits; both return the value in the positional system. *)
Theorem string_conversions (w : Z) (s : string) :
  8 <= w <= 128 ->
  (Forall (is_digit 10) (list_ascii_of_string s) ->
   digits_val 10 (list_ascii_of_string s) 0 < 2 ^ w ->
   SetValue w s = Ok (digits_val 10 (list_ascii_of_string s) 0)) /\
  (Forall (is_digit 2) (list_ascii_of_string s) ->
   Z.of_nat (length (list_ascii_of_string s)) <= w ->
   FromBinaryString w s = Ok (digits_val 2 (list_ascii_of_string s) 0)).
Proof.
  intros Hw. split.
  - intros Hd Hv. by apply SetValue_loop_spec.
  - intros Hd Hl. unfold FromBinaryString. rewrite (proj2 (Z.ltb_ge w _)) by lia.
    apply FromBinary_loop_spec; [done|lia|done|].
    rewrite Z.add_0_l, Z.mul_1_l. apply Z.pow_le_mono_r; lia.
Qed.

Lemma string_conversions_witness :
  SetValue 32 "1024" = Ok 1024 /\ FromBinaryString 32 "1010" = Ok 10.
Proof.
  split.
  - apply (proj1 (string_conversions 32 "1024" ltac:(lia))); [|reflexivity].
    repeat constructor; vm_compute; congruence.
  - apply (proj2 (string_conversions 32 "1010" ltac:(lia))); [|vm_compute; congruence].
    repeat constructor; vm_compute; congruence.
Defined.

(** What [SetValue] lets through: a character below ['0'] is taken for a
    digit, and an overflow that does not make the accumulator decrease is not
    noticed. *)
Theorem SetValue_gaps :
  SetValue 64 "5-" = Ok 47 /\
  (exists v, SetValue 64 "30000000000000000000" = Ok v /\ v <> 30000000000000000000).
Proof.
  split; [vm_compute; reflexivity|]. eexists. split; [vm_compute; reflexivity|]. discriminate.
Qed.

(** Rounded division returns the nearest integer, a tie going down, and
    [Exp] is exponentiation modulo the word. *)
Theorem divide_round_and_exp (w a q p : Z) :
  8 <= w <= 128 -> 0 <= a < 2 ^ w -> 0 < q < 2 ^ w -> 0 <= p < 2 ^ 32 ->
  (2 <= q \/ a < 2 ^ w - 1 ->
   DivideAndRound w a q = Ok ((2 * a + q - 1) / (2 * q)) /\
   DivideAndRoundEq w a q = Ok ((2 * a + q - 1) / (2 * q))) /\
  Exp w a p = Ok ((a ^ p) mod 2 ^ w) /\ ExpEq w a p = Ok ((a ^ p) mod 2 ^ w).
Proof.
  intros Hw Ha Hq Hp. split.
  - intros Hov. pose proof (DivideAndRound_nearest w Hw a q Ha Hq Hov) as E. split; [done|].
    rewrite <- E. unfold DivideAndRoundEq, DivideAndRound. by rewrite (proj2 (Z.eqb_neq q 0)) by lia.
  - assert (1 < 2 ^ w) by (apply Z.pow_gt_1; lia).
    pose proof (Exp_loop_spec w Hw 32 a p 1 ltac:(lia) Hp) as E. rewrite Z.mul_1_l in E. by split.
Qed.

Lemma divide_round_and_exp_witness :
  DivideAndRound 32 7 2 = Ok 3 /\ Exp 32 7 20 = Ok ((7 ^ 20) mod 2 ^ 32).
Proof.
  split.
  - exact (proj1 (proj1 (divide_round_and_exp 32 7 2 20 ltac:(lia) ltac:(lia) ltac:(lia) ltac:(lia)) ltac:(lia))).
  - exact (proj1 (proj2 (divide_round_and_exp 32 7 2 20 ltac:(lia) ltac:(lia) ltac:(lia) ltac:(lia)))).
Defined.
