(* ===== verification/ModArith.v ===== *)
(** * The interface of the integer layer

    The vectors, the transforms and the schemes use the integers through the
    member functions the template selects for the width at hand.  This file
    makes the selection ([enable_if] on the presence of a double-width type)
    and states, as the class [NativeModulus], what a modulus has to satisfy
    for the integer layer to keep its promises; the lemmas [nm_*] are those
    promises, and the other files use only them. *)

From Stdlib Require Import ZArith Lia.
From stdpp Require Import base tactics numbers list.
From S2P Require Import Prelude Double NativeInt NativeIntFacts.

(** ** Selection of the overloads

    The widest type has no double-width companion. *)
Section Select.
Context (w : Z).

Definition wide : bool := w =? 128.
Definition ComputeMu_ (m : Z) : res Z := if wide then ComputeMu_same w m else ComputeMu w m.
Definition ModMul_ (a b m : Z) : res Z := if wide then ModMul_same w a b m else ModMul w a b m.
Definition ModMulEq_ (a b m : Z) : res Z := if wide then ModMul_same w a b m else ModMulEq w a b m.
Definition ModMul_mu_ (a b m mu : Z) : res Z :=
  if wide then ModMul_mu_same w a b m mu else ModMul_mu w a b m mu.
Definition ModMulFast_ (a b m : Z) : res Z := if wide then ModMulFast_same w a b m else ModMulFast w a b m.
Definition ModMulFast_mu_ (a b m mu : Z) : res Z :=
  if wide then ModMulFast_mu_same w a b m mu else ModMulFast_mu w a b m mu.
Definition ModMulFastEq_mu_ (a b m mu : Z) : res Z :=
  if wide then ModMulFastEq_mu_same w a b m mu else ModMulFastEq_mu w a b m mu.
Definition PrepModMulConst_ (a m : Z) : res Z :=
  if wide then PrepModMulConst_same w a m else PrepModMulConst w a m.
Definition ModExp_ (a b m : Z) : res Z := if wide then ModExp_same w a b m else ModExp w a b m.
End Select.

(** ** The contract *)
Class NativeModulus (w m : Z) : Prop := {
  nm_width : 8 <= w <= 128;
  nm_barrett : barrett_mod w m;
  nm_wide : w = 128 -> GetMSB w m + 6 <= w;
}.

(** A canonical residue. *)
Definition reduced (m x : Z) : Prop := 0 <= x < m.
#[export] Instance reduced_dec m x : Decision (reduced m x).
Proof. unfold reduced. apply _. Defined.

Section Laws.
Context {w m : Z} {Hm : NativeModulus w m}.
Implicit Types a b x y : Z.

Lemma nm_bounds : 4 <= m < 2 ^ w.
Proof using Hm. exact (proj1 nm_barrett). Qed.

Lemma nm_double : 2 * m <= 2 ^ w.
Proof using Hm. exact (small_2m w nm_width m nm_barrett). Qed.

Lemma nm_mod x : reduced m (x mod m).
Proof using Hm. pose proof nm_bounds. apply Z.mod_pos_bound. lia. Qed.

Lemma nm_reduced_word x : reduced m x -> 0 <= x < 2 ^ w.
Proof using Hm. pose proof nm_bounds. unfold reduced. lia. Qed.

Lemma nm_mu : ComputeMu_ w m = Ok (mu_of w m).
Proof using Hm.
  unfold ComputeMu_. destruct (wide w).
  - apply ComputeMu_same_spec; apply Hm.
  - apply ComputeMu_spec; apply Hm.
Qed.

Lemma nm_umod x : umod x m = Ok (x mod m).
Proof using Hm. pose proof nm_bounds. apply umod_spec. lia. Qed.

Lemma nm_reduce x : 0 <= x -> (if m <=? x then umod x m else Ok x) = Ok (x mod m).
Proof using Hm. pose proof nm_bounds. intros. apply reduce_spec; lia. Qed.

Lemma nm_add a b : reduced m a -> reduced m b -> ModAddFast w a b m = (a + b) mod m.
Proof using Hm. intros. apply ModAddFast_spec; [apply Hm|done..|apply nm_double]. Qed.

Lemma nm_sub a b : reduced m a -> reduced m b -> ModSubFast w a b m = (a - b) mod m.
Proof using Hm. intros. apply ModSubFast_spec; [apply Hm|done..|apply nm_double]. Qed.

Lemma nm_add_any a b : 0 <= a -> 0 <= b -> ModAdd w a b m = Ok ((a + b) mod m).
Proof using Hm. intros. pose proof nm_bounds. apply ModAdd_spec; [apply Hm|lia|apply nm_double|done..]. Qed.

Lemma nm_sub_any a b : 0 <= a -> 0 <= b -> ModSub w a b m = Ok ((a - b) mod m).
Proof using Hm. intros. pose proof nm_bounds. apply ModSub_spec; [apply Hm|lia|apply nm_double|done..]. Qed.

Lemma wide_spec : wide w = true -> w = 128.
Proof using Type. unfold wide. lia. Qed.

Lemma nm_mul_fast_mu a b :
  reduced m a -> reduced m b -> ModMulFastEq_mu_ w a b m (mu_of w m) = Ok ((a * b) mod m).
Proof using Hm.
  intros Ha Hb. unfold ModMulFastEq_mu_. destruct (wide w) eqn:E.
  - apply wide_spec in E. pose proof (nm_reduced_word _ Ha). pose proof (nm_reduced_word _ Hb).
    apply barrett_same_spec; [apply Hm|apply Hm|by apply Hm|done..|].
    apply reduced_product; [apply Hm..|done|done].
  - apply ModMulFast_mu_spec; [apply Hm..|done|done].
Qed.

Lemma nm_mul_mu a b :
  reduced m a -> reduced m b -> ModMulFast_mu_ w a b m (mu_of w m) = Ok ((a * b) mod m).
Proof using Hm. exact (nm_mul_fast_mu a b). Qed.

Lemma nm_mul_fast a b : reduced m a -> reduced m b -> ModMulFast_ w a b m = Ok ((a * b) mod m).
Proof using Hm.
  intros Ha Hb. pose proof (nm_mul_fast_mu a b Ha Hb) as E. pose proof nm_mu as Emu.
  unfold ModMulFast_, ModMulFastEq_mu_, ComputeMu_ in *. destruct (wide w).
  - unfold ModMulFast_same. rewrite Emu. exact E.
  - pose proof (nm_reduced_word _ Ha). pose proof (nm_reduced_word _ Hb). pose proof nm_bounds.
    apply ModMulFast_spec; [apply Hm|lia..].
Qed.

(** The operands of the wide version may have [2 * MSB + 2] bits. *)
Lemma nm_mul_any a b :
  0 <= a < 2 ^ w -> 0 <= b < 2 ^ w ->
  (w = 128 -> a < 2 ^ (2 * GetMSB w m + 2) /\ b < 2 ^ (2 * GetMSB w m + 2)) ->
  ModMul_ w a b m = Ok ((a * b) mod m) /\ ModMulEq_ w a b m = Ok ((a * b) mod m).
Proof using Hm.
  intros Ha Hb Hwide. unfold ModMul_, ModMulEq_. destruct (wide w) eqn:E.
  - apply wide_spec in E. destruct (Hwide E) as [Ha' Hb'].
    assert (ModMul_same w a b m = Ok ((a * b) mod m)); [|done].
    unfold ModMul_same. rewrite (ComputeMu_same_spec w nm_width m nm_barrett), bind_ok.
    by apply (ModMul_mu_same_spec w nm_width a b m nm_barrett (nm_wide E)).
  - pose proof nm_bounds. pose proof (ModMul_spec w nm_width a b m ltac:(lia) Ha Hb). by split.
Qed.

Lemma nm_mul_mu_any a b :
  0 <= a < 2 ^ w -> 0 <= b < 2 ^ w ->
  a < 2 ^ (2 * GetMSB w m + 2) -> b < 2 ^ (2 * GetMSB w m + 2) ->
  ModMul_mu_ w a b m (mu_of w m) = Ok ((a * b) mod m).
Proof using Hm.
  intros Ha Hb Ha' Hb'. unfold ModMul_mu_. destruct (wide w) eqn:E.
  - apply wide_spec in E. by apply (ModMul_mu_same_spec w nm_width a b m nm_barrett (nm_wide E)).
  - by apply (ModMul_mu_spec w nm_width a b m nm_barrett).
Qed.

Lemma nm_prep b : reduced m b -> PrepModMulConst_ w b m = Ok (b * 2 ^ w / m).
Proof using Hm.
  intros Hb. pose proof nm_bounds. unfold PrepModMulConst_. destruct (wide w).
  - unfold reduced in Hb. unfold PrepModMulConst_same. rewrite (proj2 (Z.eqb_neq m 0)) by lia.
    pose proof (nm_width (w := w)). rewrite Z.shiftl_mul_pow2 by lia.
    f_equal. apply wrap_small.
    split; [apply Z.div_pos; nia|apply Z.div_lt_upper_bound; nia].
  - apply PrepModMulConst_spec; [apply Hm|done|lia].
Qed.

Lemma nm_mul_const a b :
  0 <= a < 2 ^ w -> reduced m b -> ModMulFastConst w a b m (b * 2 ^ w / m) = (a * b) mod m.
Proof using Hm. intros. apply ModMulFastConst_spec; [apply Hm|done..|apply nm_double]. Qed.

Lemma nm_exp a b : w <> 128 -> 0 <= a < 2 ^ w -> 0 <= b < 2 ^ w -> ModExp_ w a b m = Ok ((a ^ b) mod m).
Proof using Hm.
  intros Hw Ha Hb. pose proof nm_bounds. unfold ModExp_.
  destruct (wide w) eqn:E; [by apply wide_spec in E|].
  apply ModExp_spec; [apply Hm|lia|done..].
Qed.
End Laws.

(** The moduli of at most [w - 5] bits satisfy the contract. *)
Lemma native_modulus_bits w m :
  8 <= w <= 128 -> 4 <= m -> m < 2 ^ (w - 5) -> (w = 128 -> m < 2 ^ (w - 6)) -> NativeModulus w m.
Proof.
  intros Hw H4 Hm Hwide.
  assert (forall j, 0 <= j -> m < 2 ^ j -> j <= w -> GetMSB w m <= j) as Hmsb.
  { intros j Hj Hmj Hjw.
    assert (m < 2 ^ w) by (apply Z.lt_le_trans with (2 ^ j); [done|apply Z.pow_le_mono_r; lia]).
    destruct (GetMSB_bounds w m ltac:(lia) ltac:(lia)) as [H1 H2].
    destruct (decide (GetMSB w m <= j)); [done|]. exfalso.
    assert (2 ^ j <= 2 ^ (GetMSB w m - 1)) by (apply Z.pow_le_mono_r; lia). lia. }
  assert (m < 2 ^ w) by (apply Z.lt_le_trans with (2 ^ (w - 5)); [done|apply Z.pow_le_mono_r; lia]).
  split; [done| |].
  - split; [lia|]. pose proof (Hmsb (w - 5) ltac:(lia) Hm ltac:(lia)) as Hk.
    destruct (GetMSB_bounds w m ltac:(lia) ltac:(lia)) as [H1 H2].
    set (k := GetMSB w m) in *. apply Z.div_lt_upper_bound; [lia|].
    apply Z.lt_le_trans with (2 ^ (k - 1) * 2 ^ w); [|nia].
    rewrite <- Z.pow_add_r by lia. apply Z.pow_lt_mono_r; lia.
  - intros E. pose proof (Hmsb (w - 6) ltac:(lia) (Hwide E) ltac:(lia)). lia.
Qed.

(** ** Automation

    Ranges of reduced values, for [auto with modarith]. *)
Create HintDb modarith.
#[export] Hint Resolve nm_mod nm_reduced_word nm_bounds nm_double nm_width : modarith.
#[export] Hint Extern 1 (_ <= _ < _) => (unfold reduced in *; lia) : modarith.
#[export] Hint Extern 1 (reduced _ _) => (unfold reduced in *; lia) : modarith.
