(* ===== verification/NativeVec.v ===== *)
(** * Vectors of native integers: [NativeVectorT]

    Models [src/core/lib/math/hal/intnat/mubintvecnat.cpp] and the checked
    accesses of [mubintvecnat.h].  A vector is its modulus and its data; a
    member that changes [*this] returns the new vector.  Loops over the data
    are [map], [mapM] (when an element may throw) and [vzip] (when the loop
    also reads [b[i]]). *)

From Stdlib Require Import ZArith Lia String.
From stdpp Require Import base tactics numbers list strings.
From S2P Require Import Prelude Double NativeInt NativeIntFacts ModArith.

Record NativeVector := NVec { modulus : Z; data : list Z }.

(** [for (i = 0; i < data.size(); ++i) data[i] = f(data[i], b[i])]: reading
    past the end of [b] is undefined. *)
Fixpoint vzip (f : Z -> Z -> res Z) (xs ys : list Z) : res (list Z) :=
  match xs, ys with
  | [], _ => Ok []
  | _ :: _, [] => Throw undefined_behaviour
  | x :: xs', y :: ys' => z ← f x y; zs ← vzip f xs' ys'; Ok (z :: zs)
  end.

Section NativeVectorT.
Context (w : Z).
Implicit Types x y : NativeVector.

Definition MAX_MODULUS_SIZE : Z := if w =? 128 then 121 else if w =? 64 then 60 else 28.

Definition with_data x (d : list Z) : NativeVector := NVec (modulus x) d.

(** ** Construction from lists of integers and of decimal strings *)
Fixpoint init_entries {A} (conv : A -> res Z) (len : nat) (rhs : list A) : res (list Z) :=
  match len, rhs with
  | O, _ => Ok []
  | S len', [] => Ok (repeat 0 len)
  | S len', s :: rhs' => v ← conv s; vs ← init_entries conv len' rhs'; Ok (v :: vs)
  end.
Definition FromStrings (length : nat) (m : Z) (rhs : list string) : res NativeVector :=
  d ← init_entries (fun s => v ← SetValue w s; umod v m) length rhs;
  Ok (NVec m d).
Definition FromInts (length : nat) (m : Z) (rhs : list Z) : res NativeVector :=
  d ← init_entries (fun v => umod (wrap w v) m) length rhs;
  Ok (NVec m d).
(** The assignments extend the vector when the list is longer; the rest of
    a longer vector is cleared. *)
Definition AssignStrings x (rhs : list string) : res NativeVector :=
  d ← init_entries (fun s => v ← SetValue w s; if modulus x =? 0 then Ok v else umod v (modulus x))
        (max (length (data x)) (length rhs)) rhs;
  Ok (with_data x d).
Definition AssignInts x (rhs : list Z) : res NativeVector :=
  d ← init_entries (fun v => if modulus x =? 0 then Ok (wrap w v) else umod (wrap w v) (modulus x))
        (max (length (data x)) (length rhs)) rhs;
  Ok (with_data x d).
Definition AssignInt x (val : Z) : res NativeVector :=
  match data x with
  | [] => Throw (out_of_range "vector::at")
  | _ :: d => Ok (with_data x (wrap w val :: repeat 0 (length d)))
  end.

Definition at_ x (i : nat) : res Z :=
  match data x !! i with
  | Some v => Ok v
  | None => Throw (math_error "NativeVectorT index out of range")
  end.

Definition SetModulus x (value : Z) : res NativeVector :=
  if MAX_MODULUS_SIZE <? GetMSB w value
  then Throw (not_available_error "NativeVectorT supports only modulus size")
  else Ok (NVec value (data x)).

(** ** Change of modulus *)
Definition switch_up (halfQ diff v : Z) : Z := if halfQ <? v then wrap w (v + diff) else v.
Definition switch_down (halfQ diff nm v : Z) : Z :=
  let v := if halfQ <? v then wrap w (v + diff) else v in
  if nm <=? v then v mod nm else v.

Definition SwitchModulus x (nm : Z) : res NativeVector :=
  let halfQ := Z.shiftr (modulus x) 1 in
  let om := modulus x in
  x ← SetModulus x nm;
  if om <? nm then Ok (with_data x (map (switch_up halfQ (wrap w (nm - om))) (data x)))
  else
    r ← umod om nm;
    Ok (with_data x (map (switch_down halfQ (wrap w (nm - r)) nm) (data x))).

Definition ModByTwo_entry (halfQ v : Z) : Z :=
  Z.land 1 (Z.lxor v (if halfQ <? v then 1 else 0)).
Definition ModByTwo x : NativeVector :=
  let halfQ := Z.shiftr (modulus x) 1 in with_data x (map (ModByTwo_entry halfQ) (data x)).
Definition ModByTwoEq x : NativeVector :=
  let halfQ := Z.shiftr (modulus x) 1 in with_data x (map (ModByTwo_entry halfQ) (data x)).

(** The modulus of the result stays the old one. *)
Definition Mod x (nm : Z) : res NativeVector :=
  if nm =? 2 then Ok (ModByTwoEq x) else
  let halfQ := Z.shiftr (modulus x) 1 in
  let om := modulus x in
  if om <? nm then Ok (with_data x (map (switch_up halfQ (wrap w (nm - om))) (data x)))
  else
    r ← umod om nm;
    Ok (with_data x (map (switch_down halfQ (wrap w (nm - r)) nm) (data x))).
Definition ModEq x (nm : Z) : res NativeVector :=
  if nm =? 2 then Ok (ModByTwoEq x) else
  let halfQ := Z.shiftr (modulus x) 1 in
  let om := modulus x in
  if om <? nm then Ok (with_data x (map (switch_up halfQ (wrap w (nm - om))) (data x)))
  else
    r ← umod om nm;
    Ok (with_data x (map (switch_down halfQ (wrap w (nm - r)) nm) (data x))).

(** ** Operations with a scalar *)
Definition reduce_scalar (b mv : Z) : res Z := if mv <=? b then NativeInt.ModEq b mv else Ok b.

Definition ModAdd x (b : Z) : res NativeVector :=
  let mv := modulus x in
  bv ← reduce_scalar b mv;
  Ok (with_data x (map (fun v => ModAddFast w v bv mv) (data x))).
Definition ModAddEq x (b : Z) : res NativeVector :=
  let mv := modulus x in
  bv ← reduce_scalar b mv;
  Ok (with_data x (map (fun v => ModAddFast w v bv mv) (data x))).
Definition ModSub x (b : Z) : res NativeVector :=
  let mv := modulus x in
  bv ← reduce_scalar b mv;
  Ok (with_data x (map (fun v => ModSubFastEq w v bv mv) (data x))).
Definition ModSubEq x (b : Z) : res NativeVector :=
  let mv := modulus x in
  bv ← reduce_scalar b mv;
  Ok (with_data x (map (fun v => ModSubFastEq w v bv mv) (data x))).
Definition ModMul x (b : Z) : res NativeVector :=
  let mv := modulus x in
  bv ← reduce_scalar b mv;
  bconst ← PrepModMulConst_ w bv mv;
  Ok (with_data x (map (fun v => ModMulFastConstEq w v bv mv bconst) (data x))).
Definition ModMulEq x (b : Z) : res NativeVector :=
  let mv := modulus x in
  bv ← reduce_scalar b mv;
  bconst ← PrepModMulConst_ w bv mv;
  Ok (with_data x (map (fun v => ModMulFastConstEq w v bv mv bconst) (data x))).
Definition ModExp x (b : Z) : res NativeVector :=
  let mv := modulus x in
  bv ← reduce_scalar b mv;
  d ← mapM (fun v => ModExp_ w v bv mv) (data x);
  Ok (with_data x d).
Definition ModExpEq x (b : Z) : res NativeVector :=
  let mv := modulus x in
  bv ← reduce_scalar b mv;
  d ← mapM (fun v => ModExp_ w v bv mv) (data x);
  Ok (with_data x d).
Definition ModInverse x : res NativeVector :=
  d ← mapM (fun v => NativeInt.ModInverse w v (modulus x)) (data x);
  Ok (with_data x d).
Definition ModInverseEq x : res NativeVector :=
  d ← mapM (fun v => NativeInt.ModInverse w v (modulus x)) (data x);
  Ok (with_data x d).

Definition ModAddAtIndex x (i : nat) (b : Z) : res NativeVector :=
  v ← at_ x i;
  v' ← NativeInt.ModAddEq w v b (modulus x);
  Ok (with_data x (<[i := v']> (data x))).
Definition ModAddAtIndexEq x (i : nat) (b : Z) : res NativeVector :=
  v ← at_ x i;
  v' ← NativeInt.ModAddEq w v b (modulus x);
  Ok (with_data x (<[i := v']> (data x))).

(** ** Operations on two vectors *)
Definition different x y : bool :=
  negb (modulus x =? modulus y) || negb (length (data x) =? length (data y))%nat.

Definition ModAddV x y : res NativeVector :=
  if different x y then Throw (math_error "ModAdd called on NativeVectorT's with different parameters.") else
  let mv := modulus x in
  d ← vzip (fun v b => Ok (ModAddFastEq w v b mv)) (data x) (data y);
  Ok (with_data x d).
Definition ModAddEqV x y : res NativeVector :=
  if different x y then Throw (math_error "ModAddEq called on NativeVectorT's with different parameters.") else
  let mv := modulus x in
  d ← vzip (fun v b => Ok (ModAddFastEq w v b mv)) (data x) (data y);
  Ok (with_data x d).
Definition ModAddNoCheckEq x y : res NativeVector :=
  let mv := modulus x in
  d ← vzip (fun v b => Ok (ModAddFastEq w v b mv)) (data x) (data y);
  Ok (with_data x d).
Definition ModSubV x y : res NativeVector :=
  if different x y then Throw (math_error "ModSub called on NativeVectorT's with different parameters.") else
  let mv := modulus x in
  d ← vzip (fun v b => Ok (ModSubFastEq w v b mv)) (data x) (data y);
  Ok (with_data x d).
Definition ModSubEqV x y : res NativeVector :=
  if different x y then Throw (math_error "ModSubEq called on NativeVectorT's with different parameters.") else
  d ← vzip (fun v b => Ok (ModSubFastEq w v b (modulus x))) (data x) (data y);
  Ok (with_data x d).
Definition ModMulV x y : res NativeVector :=
  if different x y then Throw (math_error "ModMul called on NativeVectorT's with different parameters.") else
  let mv := modulus x in
  mu ← ComputeMu_ w mv;
  d ← vzip (fun v b => ModMulFastEq_mu_ w v b mv mu) (data x) (data y);
  Ok (with_data x d).
Definition ModMulEqV x y : res NativeVector :=
  if different x y then Throw (math_error "ModMulEq called on NativeVectorT's with different parameters.") else
  let mv := modulus x in
  mu ← ComputeMu_ w mv;
  d ← vzip (fun v b => ModMulFastEq_mu_ w v b mv mu) (data x) (data y);
  Ok (with_data x d).
Definition ModMulNoCheckEq x y : res NativeVector :=
  let mv := modulus x in
  mu ← ComputeMu_ w mv;
  d ← vzip (fun v b => ModMulFastEq_mu_ w v b mv mu) (data x) (data y);
  Ok (with_data x d).
Definition MultWithOutMod x y : res NativeVector :=
  if different x y then Throw (math_error "ModMul called on NativeVectorT's with different parameters.") else
  d ← vzip (fun v b => Ok (wrap w (v * b))) (data x) (data y);
  Ok (with_data x d).

(** ** Scaling with rounding, on representatives of both signs *)
Definition MultiplyAndRound x (p q : Z) : res NativeVector :=
  let halfQ := Z.shiftr (modulus x) 1 in
  let mv := modulus x in
  d ← mapM (fun v =>
        if halfQ <? v
        then t ← NativeInt.MultiplyAndRound w (Sub w mv v) p q; Ok (Sub w mv t)
        else t ← NativeInt.MultiplyAndRound w v p q; NativeInt.Mod t mv) (data x);
  Ok (with_data x d).
Definition MultiplyAndRoundEq x (p q : Z) : res NativeVector :=
  let halfQ := Z.shiftr (modulus x) 1 in
  let mv := modulus x in
  d ← mapM (fun v =>
        if halfQ <? v
        then t ← NativeInt.MultiplyAndRound w (Sub w mv v) p q; Ok (Sub w mv t)
        else t ← NativeInt.MultiplyAndRound w v p q; NativeInt.Mod t mv) (data x);
  Ok (with_data x d).
Definition DivideAndRound x (q : Z) : res NativeVector :=
  let halfQ := Z.shiftr (modulus x) 1 in
  let mv := modulus x in
  d ← mapM (fun v =>
        if halfQ <? v
        then t ← NativeInt.DivideAndRound w (Sub w mv v) q; Ok (Sub w mv t)
        else NativeInt.DivideAndRound w v q) (data x);
  Ok (with_data x d).
Definition DivideAndRoundEq x (q : Z) : res NativeVector :=
  let halfQ := Z.shiftr (modulus x) 1 in
  let mv := modulus x in
  d ← mapM (fun v =>
        if halfQ <? v
        then t ← NativeInt.DivideAndRound w (Sub w mv v) q; Ok (Sub w mv t)
        else NativeInt.DivideAndRound w v q) (data x);
  Ok (with_data x d).
Definition GetDigitAtIndexForBase x (index base : Z) : res NativeVector :=
  d ← mapM (fun v => NativeInt.GetDigitAtIndexForBase w v index base) (data x);
  Ok (with_data x d).
End NativeVectorT.

Example SwitchModulus_up : SwitchModulus 64 (NVec 17 [0; 8; 9; 16]) 101 = Ok (NVec 101 [0; 8; 93; 100]).
Proof. vm_compute. reflexivity. Qed.
Example SwitchModulus_down : SwitchModulus 64 (NVec 101 [0; 8; 93; 100; 50; 51]) 17 = Ok (NVec 17 [0; 8; 9; 16; 16; 1]).
Proof. vm_compute. reflexivity. Qed.
Example DivideAndRound_modulus : DivideAndRound 64 (NVec 101 [100; 96; 4]) 10 = Ok (NVec 101 [101; 101; 0]).
Proof. vm_compute. reflexivity. Qed.

(** ** Lemmas *)

(** The representative of least absolute value. *)
Definition centred (m v : Z) : Z := if m / 2 <? v then v - m else v.

Lemma centred_eqm m v : centred m v ≡[m] v.
Proof.
  unfold centred. destruct (m / 2 <? v); [|done].
  apply eqm_iff. exists (-1). lia.
Qed.

Lemma centred_range m v : 0 <= v < m -> - m < 2 * centred m v <= m.
Proof.
  intros Hv. unfold centred. pose proof (Z.div_mod m 2 ltac:(lia)).
  pose proof (Z.mod_pos_bound m 2 ltac:(lia)). destruct (Z.ltb_spec (m / 2) v); lia.
Qed.

(** The centred lift is the only representative in its interval. *)
Lemma centred_unique m v c : 0 <= v < m -> c ≡[m] v -> - m < 2 * c <= m -> centred m v = c.
Proof.
  intros Hv Hc Hr. pose proof (centred_range m v Hv).
  apply (eqm_close m); [by rewrite centred_eqm, Hc|lia].
Qed.

Lemma vzip_ok (P Q : Z -> Prop) f g xs ys :
  (forall a b, P a -> Q b -> f a b = Ok (g a b)) ->
  Forall P xs -> Forall Q ys -> length xs = length ys ->
  vzip f xs ys = Ok (zip_with g xs ys).
Proof.
  intros Hf Hx. revert ys. induction Hx as [|a xs Ha Hx IH]; intros [|b ys] Hy Hl; try done.
  inversion Hy; subst. cbn [vzip zip_with]. rewrite (Hf a b), bind_ok by done.
  rewrite IH; [done|done|]. simpl in Hl. lia.
Qed.

Lemma map_reduced m (f : Z -> Z) l : (forall v, reduced m (f v)) -> Forall (reduced m) (map f l).
Proof. intros Hf. apply Forall_forall. intros v (a & -> & _)%list_elem_of_fmap. apply Hf. Qed.

Lemma Forall_reduced_total q (l : list Z) :
  Forall (reduced q) l <-> (forall i, (i < length l)%nat -> reduced q (l !!! i)).
Proof.
  rewrite Forall_lookup. split.
  - intros H i Hi. apply (H i). by apply list_lookup_lookup_total_lt.
  - intros H i v Hi. pose proof (lookup_lt_Some _ _ _ Hi) as Hl. specialize (H i Hl).
    by rewrite (list_lookup_total_correct _ _ _ Hi) in H.
Qed.

Lemma zip_with_reduced m (f : Z -> Z -> Z) l k :
  (forall a b, reduced m (f a b)) -> Forall (reduced m) (zip_with f l k).
Proof.
  intros Hf. revert k. induction l as [|a l IH]; intros [|b k]; cbn [zip_with]; constructor; [apply Hf|apply IH].
Qed.

Lemma different_false x y : modulus x = modulus y -> length (data x) = length (data y) -> different x y = false.
Proof. intros Hm Hl. unfold different. rewrite Hm, Hl, Z.eqb_refl, Nat.eqb_refl. done. Qed.

Section Switch.
Context (w om nm : Z).
Context (Hom : 0 < om) (Hnm : 0 < nm) (Hw : 0 <= w) (Hfit : om + nm <= 2 ^ w).

Lemma switch_up_spec v : om < nm -> reduced om v ->
  switch_up w (Z.shiftr om 1) (wrap w (nm - om)) v = centred om v mod nm.
Proof using All.
  intros Hlt Hv. unfold reduced in Hv. unfold switch_up, centred. rewrite Z.shiftr_div_pow2 by lia. change (2 ^ 1) with 2.
  rewrite (wrap_small w (nm - om)) by lia. destruct (Z.ltb_spec (om / 2) v).
  - rewrite wrap_small by lia. apply Z.mod_unique_pos with (-1); lia.
  - symmetry. apply Z.mod_small. lia.
Qed.

Lemma switch_down_spec v : nm <= om -> reduced om v ->
  switch_down w (Z.shiftr om 1) (wrap w (nm - om mod nm)) nm v = centred om v mod nm.
Proof using All.
  intros Hle Hv. unfold reduced in Hv. unfold switch_down, centred. rewrite Z.shiftr_div_pow2 by lia. change (2 ^ 1) with 2.
  pose proof (Z.mod_pos_bound om nm Hnm).
  rewrite (wrap_small w (nm - om mod nm)) by lia.
  assert (forall x, 0 <= x -> (if nm <=? x then x mod nm else x) = x mod nm) as Hr.
  { intros x Hx. destruct (Z.leb_spec nm x); [done|]. symmetry. apply Z.mod_small. lia. }
  destruct (Z.ltb_spec (om / 2) v).
  - rewrite wrap_small, Hr by lia. change (v + (nm - om mod nm) ≡[nm] v - om).
    rewrite eqm_mod. replace (v + (nm - om)) with (v - om + 1 * nm) by lia. apply eqm_multiple.
  - apply Hr. lia.
Qed.
End Switch.

(** Lifting to a larger modulus and back. *)
Lemma centred_roundtrip om nm v :
  0 < om <= nm -> reduced om v -> centred nm (centred om v mod nm) mod om = v.
Proof.
  intros Hle Hv. pose proof (centred_range om v Hv).
  rewrite (centred_unique nm _ (centred om v)).
  - rewrite <- (Z.mod_small v om) at 2 by done. apply centred_eqm.
  - apply Z.mod_pos_bound. lia.
  - symmetry. apply eqm_mod.
  - lia.
Qed.

Lemma ModByTwo_entry_spec om v :
  0 < om -> reduced om v ->
  ModByTwo_entry (Z.shiftr om 1) v = (v + (if om / 2 <? v then 1 else 0)) mod 2.
Proof.
  intros Ho Hv. unfold ModByTwo_entry. rewrite Z.shiftr_div_pow2 by lia. change (2 ^ 1) with 2.
  assert (forall x, Z.land 1 x = x mod 2) as Hl by (intros; by rewrite Z.land_comm, land_1_mod).
  rewrite Hl, <- !Z.bit0_mod, Z.lxor_spec.
  destruct (om / 2 <? v).
  - rewrite Z.add_bit0. done.
  - by rewrite Z.add_0_r, xorb_false_r.
Qed.

(** [DivideAndRound] on the two signs: the distance to zero is divided with
    rounding to nearest, ties towards zero. *)
Definition round_half_down (a q : Z) : Z := (2 * a + q - 1) / (2 * q).

Lemma round_half_down_bounds a q : 0 <= a -> 0 < q -> 0 <= round_half_down a q <= a.
Proof.
  intros Ha Hq. unfold round_half_down. split; [apply Z.div_pos; lia|].
  apply Z.lt_succ_r. apply Z.div_lt_upper_bound; nia.
Qed.

(** A vector of canonical residues for a modulus the integer layer accepts. *)
Definition wf_vec (w : Z) (x : NativeVector) : Prop :=
  NativeModulus w (modulus x) /\ Forall (reduced (modulus x)) (data x).

(** The test by evaluation. *)
Lemma wf_vec_check w m l :
  NativeModulus w m -> forallb (fun v => (0 <=? v) && (v <? m)) l = true -> wf_vec w (NVec m l).
Proof.
  intros Hm Hl. split; [exact Hm|]. apply Forall_forall. intros v Hv.
  rewrite forallb_forall in Hl. apply list_elem_of_In in Hv. specialize (Hl v Hv).
  unfold reduced. cbn [modulus]. lia.
Qed.

Section Vec.
Context (w : Z).
Implicit Types x y : NativeVector.

Lemma reduce_scalar_spec x b :
  NativeModulus w (modulus x) -> 0 <= b -> reduce_scalar b (modulus x) = Ok (b mod modulus x).
Proof. intros Hm Hb. unfold reduce_scalar, NativeInt.ModEq. by apply (nm_reduce (w := w)). Qed.

Lemma map_ok_on x (f g : Z -> Z) :
  Forall (reduced (modulus x)) (data x) -> (forall v, reduced (modulus x) v -> f v = g v) ->
  map f (data x) = map g (data x).
Proof.
  intros Hx Hf. apply map_ext_in. intros v Hv. apply Hf.
  rewrite Forall_forall in Hx. apply Hx. by apply list_elem_of_In.
Qed.

Lemma vzip_wf x y f g :
  wf_vec w x -> wf_vec w y -> modulus x = modulus y -> length (data x) = length (data y) ->
  (forall a b, reduced (modulus x) a -> reduced (modulus x) b -> f a b = Ok (g a b)) ->
  vzip f (data x) (data y) = Ok (zip_with g (data x) (data y)).
Proof.
  intros [_ Hx] [_ Hy] Hm Hl Hf. rewrite <- Hm in Hy.
  by apply (vzip_ok (reduced (modulus x)) (reduced (modulus x))).
Qed.

(** The two branches of a change of modulus, and the change itself. *)
Lemma switch_entries o n l :
  0 <= w -> 0 < o -> 0 < n -> o + n <= 2 ^ w -> Forall (reduced o) l ->
  (if o <? n then Ok (NVec n (map (switch_up w (Z.shiftr o 1) (wrap w (n - o))) l))
   else r ← umod o n; Ok (NVec n (map (switch_down w (Z.shiftr o 1) (wrap w (n - r)) n) l)))
  = Ok (NVec n (map (fun v => centred o v mod n) l)).
Proof.
  intros Hw Ho Hn Hf Hl. destruct (Z.ltb_spec o n).
  - do 2 f_equal. apply (map_ok_on (NVec o l)); [done|]. intros v Hv. apply switch_up_spec; first [done|lia].
  - rewrite umod_spec, bind_ok by done. do 2 f_equal.
    apply (map_ok_on (NVec o l)); [done|]. intros v Hv. apply switch_down_spec; first [done|lia].
Qed.

Lemma SwitchModulus_ok x n :
  0 <= w -> 0 < modulus x -> 0 < n -> modulus x + n <= 2 ^ w -> Forall (reduced (modulus x)) (data x) ->
  GetMSB w n <= MAX_MODULUS_SIZE w ->
  SwitchModulus w x n = Ok (NVec n (map (fun v => centred (modulus x) v mod n) (data x))).
Proof.
  intros Hw Ho Hn Hf Hl Hb. unfold SwitchModulus, SetModulus.
  rewrite (proj2 (Z.ltb_ge (MAX_MODULUS_SIZE w) (GetMSB w n)) Hb), bind_ok. cbn [modulus data].
  by apply switch_entries.
Qed.
End Vec.

(** ** What the schemes use of the vectors *)
Definition key_mod (q : Z) (s : NativeVector) : NativeVector :=
  NVec q (map (fun v => centred (modulus s) v mod q) (data s)).

Section Clients.
Context {w q : Z} {Hq : NativeModulus w q}.
Context (Hw : w = 64 \/ w = 32).

Lemma msb_accepted : GetMSB w q <= MAX_MODULUS_SIZE w.
Proof using All.
  pose proof (barrett_k w nm_width q nm_barrett) as (_ & Hk & _). pose proof (nm_wide (w := w) (m := q)).
  unfold MAX_MODULUS_SIZE. destruct (Z.eqb_spec w 128), (Z.eqb_spec w 64); lia.
Qed.

Lemma SwitchModulus_key s : wf_vec w s -> SwitchModulus w s q = Ok (key_mod q s).
Proof using All.
  intros [Hs Hf]. pose proof (nm_bounds (w := w) (m := q)). pose proof (nm_double (w := w) (m := q)).
  pose proof (nm_bounds (w := w) (m := modulus s)). pose proof (nm_double (w := w) (m := modulus s)).
  pose proof (nm_width (w := w) (m := q)).
  apply SwitchModulus_ok; [lia|lia|lia|lia|done|apply msb_accepted].
Qed.

Lemma key_mod_wf s : wf_vec w (key_mod q s).
Proof using Hq. split; [done|]. apply map_reduced. intros v. apply (nm_mod (w := w)). Qed.
End Clients.

Lemma length_key_mod q s : length (data (key_mod q s)) = length (data s).
Proof. apply length_map. Qed.

(** A key kept modulo [q] is unchanged. *)
Lemma key_mod_id q s : modulus s = q -> Forall (reduced q) (data s) -> key_mod q s = s.
Proof.
  intros E Hs. destruct s as [m l]. cbn in *. subst m. unfold key_mod; cbn. f_equal.
  transitivity (map (fun v => v) l); [|apply map_id].
  apply (map_ok_on (NVec q l)); [done|]. intros v Hv.
  rewrite <- (Z.mod_small v q Hv) at 2. apply centred_eqm.
Qed.

(** The two-vector operations of a client. *)
Section VecOps.
Context {w q : Z} {Hq : NativeModulus w q}.
Implicit Types x y : NativeVector.

Lemma vec_op_lookup (f : Z -> Z -> Z) (l k : list Z) i :
  length l = length k -> (i < length l)%nat -> zip_with f l k !!! i = f (l !!! i) (k !!! i).
Proof using Type.
  intros Hl Hi. apply list_lookup_total_correct. rewrite lookup_zip_with.
  rewrite (list_lookup_lookup_total_lt l i), (list_lookup_lookup_total_lt k i) by lia. done.
Qed.

Lemma ModAddEqV_ok x y :
  modulus x = q -> modulus y = q -> Forall (reduced q) (data x) -> Forall (reduced q) (data y) ->
  length (data x) = length (data y) ->
  ModAddEqV w x y = Ok (NVec q (zip_with (fun a b => (a + b) mod q) (data x) (data y))).
Proof using Hq.
  intros Ex Ey Hx Hy Hl. unfold ModAddEqV. rewrite different_false by (done || lia).
  rewrite (vzip_ok (reduced q) (reduced q) _ (fun a b => (a + b) mod q)); [|..|done|done|done].
  - rewrite bind_ok. unfold with_data. by rewrite Ex.
  - intros a b Ha Hb. f_equal. rewrite Ex. by apply nm_add.
Qed.

Lemma ModSubEqV_ok x y :
  modulus x = q -> modulus y = q -> Forall (reduced q) (data x) -> Forall (reduced q) (data y) ->
  length (data x) = length (data y) ->
  ModSubEqV w x y = Ok (NVec q (zip_with (fun a b => (a - b) mod q) (data x) (data y))).
Proof using Hq.
  intros Ex Ey Hx Hy Hl. unfold ModSubEqV. rewrite different_false by (done || lia).
  rewrite (vzip_ok (reduced q) (reduced q) _ (fun a b => (a - b) mod q)); [|..|done|done|done].
  - rewrite bind_ok. unfold with_data. by rewrite Ex.
  - intros a b Ha Hb. f_equal. rewrite Ex. by apply nm_sub.
Qed.

Lemma ModMulV_ok x y :
  modulus x = q -> modulus y = q -> Forall (reduced q) (data x) -> Forall (reduced q) (data y) ->
  length (data x) = length (data y) ->
  ModMulV w x y = Ok (NVec q (zip_with (fun a b => (a * b) mod q) (data x) (data y))).
Proof using Hq.
  intros Ex Ey Hx Hy Hl. unfold ModMulV. rewrite different_false by (done || lia). rewrite Ex.
  rewrite nm_mu, bind_ok.
  rewrite (vzip_ok (reduced q) (reduced q) _ (fun a b => (a * b) mod q)); [|..|done|done|done].
  - rewrite bind_ok. unfold with_data. by rewrite Ex.
  - intros a b Ha Hb. by apply nm_mul_fast_mu.
Qed.

Lemma ModMul_ok x b :
  modulus x = q -> Forall (reduced q) (data x) -> 0 <= b -> 
  ModMul w x b = Ok (NVec q (map (fun v => (v * b) mod q) (data x))).
Proof using Hq.
  intros Ex Hx Hb. unfold ModMul, with_data. rewrite Ex.
  assert (reduce_scalar b q = Ok (b mod q)) as ->.
  { unfold reduce_scalar, NativeInt.ModEq. by apply (nm_reduce (w := w)). }
  rewrite bind_ok, nm_prep, bind_ok by apply (nm_mod (w := w)). do 2 f_equal.
  apply (map_ok_on (NVec q (data x))); [done|]. intros v Hv. cbn [modulus] in Hv.
  etransitivity; [apply nm_mul_const; eauto with modarith|]. apply Zmult_mod_idemp_r.
Qed.
End VecOps.
