(* ===== verification/NativeVecProps.v ===== *)
(** * Properties of the vectors of native integers *)

From Stdlib Require Import ZArith Lia String.
From stdpp Require Import base tactics numbers list strings.
From S2P Require Import Prelude Double NativeInt NativeIntFacts ModArith NativeVec.

(** The operations on two vectors.  On vectors with the same modulus and
    length every member (copying, in place, unchecked) returns the vector of
    the canonical residues of the sums, differences and products; otherwise
    the checked members throw. *)
Theorem vector_ops_correct (w : Z) (x y : NativeVector) :
  wf_vec w x -> wf_vec w y ->
  (modulus x = modulus y -> length (data x) = length (data y) ->
   let sum := NVec (modulus x) (zip_with (fun a b => (a + b) mod modulus x) (data x) (data y)) in
   let dif := NVec (modulus x) (zip_with (fun a b => (a - b) mod modulus x) (data x) (data y)) in
   let pro := NVec (modulus x) (zip_with (fun a b => (a * b) mod modulus x) (data x) (data y)) in
   (ModAddV w x y = Ok sum /\ ModAddEqV w x y = Ok sum /\ ModAddNoCheckEq w x y = Ok sum) /\
   (ModSubV w x y = Ok dif /\ ModSubEqV w x y = Ok dif) /\
   (ModMulV w x y = Ok pro /\ ModMulEqV w x y = Ok pro /\ ModMulNoCheckEq w x y = Ok pro) /\
   wf_vec w sum /\ wf_vec w dif /\ wf_vec w pro) /\
  (modulus x <> modulus y \/ length (data x) <> length (data y) ->
   Forall (fun r : res NativeVector => exists e, r = Throw (math_error e))
     [ModAddV w x y; ModAddEqV w x y; ModSubV w x y; ModSubEqV w x y; ModMulV w x y; ModMulEqV w x y; MultWithOutMod w x y]).
Proof.
  intros Hx Hy. pose proof (proj1 Hx) as Hm. split.
  - intros Em El. cbn zeta.
    pose proof (vzip_wf w x y (fun v b => Ok (ModAddFastEq w v b (modulus x))) _ Hx Hy Em El
                  (fun a b Ha Hb => f_equal Ok (nm_add a b Ha Hb))) as Ea.
    pose proof (vzip_wf w x y (fun v b => Ok (ModSubFastEq w v b (modulus x))) _ Hx Hy Em El
                  (fun a b Ha Hb => f_equal Ok (nm_sub a b Ha Hb))) as Es.
    pose proof (vzip_wf w x y (fun v b => ModMulFastEq_mu_ w v b (modulus x) (mu_of w (modulus x))) _ Hx Hy Em El
                  nm_mul_fast_mu) as Ep.
    unfold ModAddV, ModAddEqV, ModAddNoCheckEq, ModSubV, ModSubEqV, ModMulV, ModMulEqV, ModMulNoCheckEq.
    rewrite (different_false x y Em El), nm_mu, bind_ok. cbn iota zeta beta.
    rewrite Ea, Es, Ep, !bind_ok. repeat (split; [done|]).
    split; [|split]; (split; [done|apply zip_with_reduced; intros; apply nm_mod]).
  - intros Hd. unfold ModAddV, ModAddEqV, ModSubV, ModSubEqV, ModMulV, ModMulEqV, MultWithOutMod.
    assert (different x y = true) as ->.
    { unfold different. destruct Hd as [Hd|Hd].
      - by rewrite (proj2 (Z.eqb_neq _ _) Hd).
      - rewrite (proj2 (Nat.eqb_neq _ _) Hd). apply orb_true_r. }
    repeat constructor; eauto.
Qed.

Lemma vector_ops_correct_witness :
  ModMulV 64 (NVec 12289 [12288; 5; 0]) (NVec 12289 [12288; 7; 1]) = Ok (NVec 12289 [1; 35; 0]) /\
  exists e, ModAddV 64 (NVec 12289 [1]) (NVec 12289 [1; 2]) = Throw (math_error e).
Proof.
  assert (NativeModulus 64 12289) as Hm by (apply native_modulus_bits; lia).
  assert (wf_vec 64 (NVec 12289 [12288; 5; 0])) as H1 by (apply wf_vec_check; [exact Hm|reflexivity]).
  assert (wf_vec 64 (NVec 12289 [12288; 7; 1])) as H2 by (apply wf_vec_check; [exact Hm|reflexivity]).
  assert (wf_vec 64 (NVec 12289 [1])) as H3 by (apply wf_vec_check; [exact Hm|reflexivity]).
  assert (wf_vec 64 (NVec 12289 [1; 2])) as H4 by (apply wf_vec_check; [exact Hm|reflexivity]).
  split.
  - pose proof (vector_ops_correct _ _ _ H1 H2) as [H _].
    specialize (H eq_refl eq_refl). cbv zeta in H. destruct H as (_ & _ & (H & _) & _).
    rewrite H. vm_compute. reflexivity.
  - pose proof (vector_ops_correct _ _ _ H3 H4) as [_ H].
    assert (length [1] <> length [1; 2]) as Hl by (simpl; lia).
    exact (Forall_inv (H (or_intror Hl))).
Defined.

(** The operations with a scalar, for every word as the scalar: the sum,
    difference and product with its residue, by Shoup multiplication for the
    product; addition at one index, which throws outside the vector. *)
Theorem scalar_ops_correct (w : Z) (x : NativeVector) (b : Z) (i : nat) :
  wf_vec w x -> 0 <= b < 2 ^ w ->
  let m := modulus x in
  let sum := NVec m (map (fun v => (v + b) mod m) (data x)) in
  let dif := NVec m (map (fun v => (v - b) mod m) (data x)) in
  let pro := NVec m (map (fun v => (v * b) mod m) (data x)) in
  ModAdd w x b = Ok sum /\ ModAddEq w x b = Ok sum /\
  ModSub w x b = Ok dif /\ ModSubEq w x b = Ok dif /\
  ModMul w x b = Ok pro /\ ModMulEq w x b = Ok pro /\
  (forall v, data x !! i = Some v -> ModAddAtIndex w x i b = Ok (NVec m (<[i := (v + b) mod m]> (data x)))) /\
  ((length (data x) <= i)%nat -> ModAddAtIndex w x i b = Throw (math_error "NativeVectorT index out of range")).
Proof.
  intros [Hm Hx] Hb. cbn zeta.
  unfold ModAdd, ModAddEq, ModSub, ModSubEq, ModMul, ModMulEq, ModAddAtIndex, at_, with_data.
  rewrite !(reduce_scalar_spec w x b Hm) by lia. rewrite !bind_ok.
  pose proof (nm_mod (w := w) (m := modulus x) b) as Hbm. rewrite (nm_prep _ Hbm), bind_ok.
  rewrite (map_ok_on x _ (fun v => (v + b) mod modulus x) Hx).
  2: { intros v Hv. rewrite nm_add by done. apply Zplus_mod_idemp_r. }
  rewrite (map_ok_on x (fun v => ModSubFastEq w v (b mod modulus x) (modulus x)) (fun v => (v - b) mod modulus x) Hx).
  2: { intros v Hv. etransitivity; [by apply nm_sub|]. apply Zminus_mod_idemp_r. }
  rewrite (map_ok_on x (fun v => ModMulFastConstEq w v (b mod modulus x) (modulus x) (b mod modulus x * 2 ^ w / modulus x))
    (fun v => (v * b) mod modulus x) Hx).
  2: { intros v Hv. etransitivity; [apply nm_mul_const; eauto with modarith|]. apply Zmult_mod_idemp_r. }
  repeat (split; [done|]). split.
  - intros v Hv. rewrite Hv, bind_ok.
    rewrite Forall_lookup in Hx. specialize (Hx i v Hv).
    assert (NativeInt.ModAddEq w v b (modulus x) = Ok ((v + b) mod modulus x)) as ->; [|done].
    apply nm_add_any; unfold reduced in Hx; lia.
  - intros Hi. by rewrite (proj2 (lookup_ge_None _ _) Hi).
Qed.

Lemma scalar_ops_correct_witness :
  ModMulEq 64 (NVec 12289 [12288; 5]) 24580 = Ok (NVec 12289 [12287; 10]) /\
  ModAddAtIndex 64 (NVec 12289 [12288; 5]) 2 1 = Throw (math_error "NativeVectorT index out of range").
Proof.
  assert (wf_vec 64 (NVec 12289 [12288; 5])) as Hwf.
  { split; [apply native_modulus_bits; simpl; lia|]. repeat constructor; simpl; lia. }
  split.
  - destruct (scalar_ops_correct 64 (NVec 12289 [12288; 5]) 24580 0 Hwf ltac:(lia)) as (_ & _ & _ & _ & _ & -> & _).
    vm_compute. reflexivity.
  - destruct (scalar_ops_correct 64 (NVec 12289 [12288; 5]) 1 2 Hwf ltac:(lia)) as (_ & _ & _ & _ & _ & _ & _ & H).
    apply H. simpl. lia.
Defined.

(** Changing the modulus reduces the representative of least absolute
    value modulo the new modulus; [Mod] computes the same entries and keeps
    the old modulus in the vector; a modulus of too many bits is refused; and
    going to a modulus at least as large and back is the identity. *)
Theorem SwitchModulus_correct (w nm : Z) (x : NativeVector) :
  wf_vec w x -> 0 < nm -> modulus x + nm <= 2 ^ w ->
  let d := map (fun v => centred (modulus x) v mod nm) (data x) in
  (MAX_MODULUS_SIZE w < GetMSB w nm -> exists e, SwitchModulus w x nm = Throw (not_available_error e)) /\
  (GetMSB w nm <= MAX_MODULUS_SIZE w -> SwitchModulus w x nm = Ok (NVec nm d)) /\
  (nm <> 2 -> Mod w x nm = Ok (NVec (modulus x) d) /\ ModEq w x nm = Ok (NVec (modulus x) d)) /\
  (modulus x <= nm -> GetMSB w (modulus x) <= MAX_MODULUS_SIZE w ->
   SwitchModulus w (NVec nm d) (modulus x) = Ok x).
Proof.
  intros [Hm Hx] Hnm Hfit d. set (om := modulus x) in *.
  pose proof (nm_bounds (w := w) (m := om)) as Hob. pose proof (nm_width (w := w) (m := om)) as Hw.
  assert (x = NVec om (data x)) as Ex by (by destruct x).
  split; [|split; [|split]].
  - intros Hb. unfold SwitchModulus, SetModulus. rewrite (proj2 (Z.ltb_lt (MAX_MODULUS_SIZE w) (GetMSB w nm)) Hb). eauto.
  - intros Hb. apply SwitchModulus_ok; first [done|lia].
  - intros H2. pose proof (switch_entries w om nm (data x) ltac:(lia) ltac:(lia) Hnm Hfit Hx) as Hsw.
    unfold ModEq, Mod. rewrite (proj2 (Z.eqb_neq nm 2)) by done. fold om. unfold with_data; fold om.
    destruct (om <? nm); [injection Hsw as ->; done|]. rewrite umod_spec, bind_ok in * by done.
    injection Hsw as ->; done.
  - intros Hle Hb. rewrite SwitchModulus_ok; cbn [modulus data]; [|lia|lia|lia|lia| |done].
    + rewrite Ex. cbn [modulus data]. do 2 f_equal. unfold d. rewrite map_map.
      rewrite <- (map_id (data x)) at 2. apply (map_ok_on x); [done|]. intros v Hv.
      apply centred_roundtrip; [lia|done].
    + unfold d. apply map_reduced. intros v. by apply Z.mod_pos_bound.
Qed.

Lemma SwitchModulus_correct_witness :
  SwitchModulus 64 (NVec 17 [0; 8; 9; 16]) 101 = Ok (NVec 101 [0; 8; 93; 100]) /\
  SwitchModulus 64 (NVec 101 [0; 8; 93; 100]) 17 = Ok (NVec 17 [0; 8; 9; 16]).
Proof.
  assert (wf_vec 64 (NVec 17 [0; 8; 9; 16])) as Hwf.
  { split; [apply native_modulus_bits; simpl; lia|]. repeat constructor; simpl; lia. }
  destruct (SwitchModulus_correct 64 101 (NVec 17 [0; 8; 9; 16]) Hwf ltac:(lia) ltac:(simpl; lia)) as (_ & H1 & _ & H2).
  split; [rewrite H1 by zdec; vm_compute; reflexivity|].
  specialize (H2 ltac:(simpl; lia) ltac:(zdec)). cbn in H2. exact H2.
Defined.

(** Scaling down.  [DivideAndRound] divides the distance to zero of the
    centred representative, rounding to nearest with ties towards zero, and
    gives the result the sign of the representative.  A negative
    representative that rounds to zero becomes the modulus itself, so the
    result is congruent to the rounded quotient, and canonical unless that
    happens. *)
Theorem DivideAndRound_correct (w : Z) (x : NativeVector) (q : Z) :
  wf_vec w x -> 0 < q < 2 ^ w ->
  let m := modulus x in
  let entry v := let c := centred m v in if c <? 0 then m - round_half_down (- c) q else round_half_down c q in
  DivideAndRound w x q = Ok (NVec m (map entry (data x))) /\
  DivideAndRoundEq w x q = Ok (NVec m (map entry (data x))) /\
  (forall v, reduced m v ->
     0 <= entry v <= m /\
     entry v ≡[m] (if centred m v <? 0 then - round_half_down (- centred m v) q else round_half_down (centred m v) q) /\
     (reduced m (entry v) <-> ~ (centred m v < 0 /\ round_half_down (- centred m v) q = 0))).
Proof.
  intros [Hm Hx] Hq m entry. pose proof (nm_bounds (w := w) (m := m)) as Hmb. pose proof (nm_width (w := w) (m := m)) as Hw.
  assert (forall v, reduced m v -> 0 <= entry v <= m) as Hr.
  { intros v Hv. pose proof (centred_range m v Hv). unfold entry. cbn zeta. destruct (Z.ltb_spec (centred m v) 0).
    - pose proof (round_half_down_bounds (- centred m v) q). lia.
    - pose proof (round_half_down_bounds (centred m v) q). lia. }
  assert (DivideAndRound w x q = Ok (NVec m (map entry (data x)))) as E; [|split; [exact E|split; [exact E|]]].
  - unfold DivideAndRound. erewrite (mapM_ok (reduced m) _ entry); [done| |done].
    intros v Hv. pose proof (Hr v Hv) as Hrv. unfold entry, centred in *. cbn zeta in *. fold m. unfold reduced in Hv.
    rewrite Z.shiftr_div_pow2 by lia. change (2 ^ 1) with 2.
    assert (0 <= m / 2) by (apply Z.div_pos; lia). destruct (Z.ltb_spec (m / 2) v).
    + rewrite (proj2 (Z.ltb_lt (v - m) 0)) in * by lia. unfold Sub, SubFast; cbn [NATIVEINT_DO_CHECKS].
      rewrite (wrap_small w (m - v)), DivideAndRound_nearest, bind_ok by lia.
      change ((2 * (m - v) + q - 1) / (2 * q)) with (round_half_down (m - v) q).
      replace (- (v - m)) with (m - v) in * by lia. by rewrite wrap_small by lia.
    + rewrite (proj2 (Z.ltb_ge v 0)) by lia. apply DivideAndRound_nearest; lia.
  - intros v Hv. split; [by apply Hr|]. specialize (Hr v Hv). pose proof (centred_range m v Hv).
    unfold entry in *. cbn zeta in *. destruct (Z.ltb_spec (centred m v) 0).
    + split; [apply eqm_iff; exists 1; lia|]. unfold reduced.
      pose proof (round_half_down_bounds (- centred m v) q). lia.
    + split; [done|]. pose proof (round_half_down_bounds (centred m v) q). unfold reduced. lia.
Qed.

Lemma DivideAndRound_correct_witness :
  DivideAndRound 64 (NVec 101 [96; 4; 83; 50]) 10 = Ok (NVec 101 [101; 0; 99; 5]).
Proof.
  assert (wf_vec 64 (NVec 101 [96; 4; 83; 50])) as Hwf.
  { apply wf_vec_check; [apply native_modulus_bits; lia|reflexivity]. }
  pose proof (DivideAndRound_correct 64 (NVec 101 [96; 4; 83; 50]) 10 Hwf ltac:(lia)) as [H _].
  cbv zeta in H. rewrite H. vm_compute. reflexivity.
Defined.

(** The parity of the centred representative.  [ModByTwo] and [Mod] by 2
    return it for every odd modulus; for an even modulus they flip it on the
    negative representatives, where [Mod]'s general branch and [SwitchModulus]
    do not. *)
Theorem ModByTwo_correct (w : Z) (x : NativeVector) :
  wf_vec w x ->
  let parity v := if Z.odd (modulus x) then centred (modulus x) v mod 2
                  else if modulus x / 2 <? v then (centred (modulus x) v + 1) mod 2 else centred (modulus x) v mod 2 in
  let d := map parity (data x) in
  ModByTwo x = NVec (modulus x) d /\ ModByTwoEq x = NVec (modulus x) d /\
  Mod w x 2 = Ok (NVec (modulus x) d) /\ ModEq w x 2 = Ok (NVec (modulus x) d) /\
  SwitchModulus w x 2 = Ok (NVec 2 (map (fun v => centred (modulus x) v mod 2) (data x))).
Proof.
  intros [Hm Hx] parity d. pose proof (nm_bounds (w := w) (m := modulus x)) as Hb.
  pose proof (nm_double (w := w) (m := modulus x)). pose proof (nm_width (w := w) (m := modulus x)).
  assert (ModByTwo x = NVec (modulus x) d) as E.
  { unfold ModByTwo, with_data, d. f_equal. apply map_ok_on; [done|]. intros v Hv.
    rewrite ModByTwo_entry_spec by (done || lia). unfold parity, centred.
    destruct (modulus x / 2 <? v) eqn:Ev; [|rewrite Z.add_0_r; by destruct (Z.odd _)].
    pose proof (Z.div_mod (modulus x) 2 ltac:(lia)) as E2. rewrite (Zmod_odd (modulus x)) in E2.
    destruct (Z.odd (modulus x)); apply eqm_iff.
    - exists (modulus x / 2 + 1). lia.
    - exists (modulus x / 2). lia. }
  split; [exact E|]. split; [exact E|].
  assert (Mod w x 2 = Ok (NVec (modulus x) d)) as E2 by (unfold Mod; rewrite <- E; done).
  split; [exact E2|]. split; [exact E2|]. apply SwitchModulus_ok; try done; try lia.
  rewrite GetMSB_spec; [|lia|split; [lia|]].
  - unfold MAX_MODULUS_SIZE. change (Z.log2 2) with 1. destruct (w =? 128), (w =? 64); lia.
  - apply Z.lt_le_trans with (2 ^ 8); [lia|]. apply Z.pow_le_mono_r; lia.
Qed.

Lemma ModByTwo_correct_witness :
  Mod 64 (NVec 101 [0; 1; 100; 99]) 2 = Ok (NVec 101 [0; 1; 1; 0]) /\
  Mod 64 (NVec 100 [0; 1; 99; 98]) 2 = Ok (NVec 100 [0; 1; 0; 1]).
Proof.
  assert (wf_vec 64 (NVec 101 [0; 1; 100; 99])) as H1.
  { apply wf_vec_check; [apply native_modulus_bits; lia|reflexivity]. }
  assert (wf_vec 64 (NVec 100 [0; 1; 99; 98])) as H2.
  { apply wf_vec_check; [apply native_modulus_bits; lia|reflexivity]. }
  split.
  - pose proof (ModByTwo_correct 64 _ H1) as (_ & _ & H & _). exact H.
  - pose proof (ModByTwo_correct 64 _ H2) as (_ & _ & H & _). exact H.
Defined.

(** Elementwise inversion and exponentiation.  [ModInverse] returns the
    vector of the inverses exactly when every entry is coprime to the modulus,
    and [ModExp] the powers to the exponent reduced modulo the modulus. *)
Theorem inverse_exp_correct (w : Z) (x : NativeVector) (b : Z) :
  wf_vec w x -> w <> 128 -> modulus x < 2 ^ (w - 1) -> 0 <= b < 2 ^ w ->
  ((forall v, v ∈ data x -> Z.gcd v (modulus x) = 1) ->
   exists d, ModInverse w x = Ok (NVec (modulus x) d) /\ ModInverseEq w x = Ok (NVec (modulus x) d) /\
     Forall2 (fun v i => reduced (modulus x) i /\ (i * v) mod modulus x = 1) (data x) d) /\
  ((exists v, v ∈ data x /\ Z.gcd v (modulus x) <> 1) ->
   exists e, ModInverse w x = Throw e /\ (e = math_error " does not have a ModInverse using " \/ e = undefined_behaviour)) /\
  ModExp w x b = Ok (NVec (modulus x) (map (fun v => (v ^ (b mod modulus x)) mod modulus x) (data x))).
Proof.
  intros [Hm Hx] Hw Hsm Hb. set (m := modulus x) in *. pose proof (nm_bounds (w := w) (m := m)) as Hmb.
  pose proof (nm_width (w := w) (m := m)) as Hww.
  split; [|split].
  - intros Hc. unfold ModInverseEq, ModInverse. fold m.
    assert (exists d, mapM (fun v => NativeInt.ModInverse w v m) (data x) = Ok d /\
              Forall2 (fun v i => reduced m i /\ (i * v) mod m = 1) (data x) d) as (d & -> & Hd).
    + clear - Hx Hc Hsm Hmb Hww. induction Hx as [|v l Hv Hl IH]; [by exists []|].
      destruct IH as (d & Ed & Hd); [intros v' Hv'; apply Hc; by apply elem_of_cons; right|].
      destruct (ModInverse_spec w Hww v m ltac:(lia) (proj1 Hv)) as [H1 H2].
      destruct (H1 (Hc v ltac:(by apply elem_of_cons; left))) as [i Hi].
      destruct (H2 i Hi) as (_ & Hr & He). exists (i :: d). cbn [mapM]. rewrite Hi, bind_ok, Ed. split; [done|].
      constructor; [|done]. split; [exact Hr|]. unfold eqm in He. rewrite He. apply Z.mod_small. lia.
    + rewrite bind_ok. exists d. by repeat split.
  - intros (v & Hv & Hg). unfold ModInverse. fold m.
    rewrite Forall_forall in Hx.
    destruct (mapM_throw (fun e => e = math_error " does not have a ModInverse using " \/ e = undefined_behaviour) (fun v => NativeInt.ModInverse w v m) (data x)) as (e & -> & He); [| |by exists e].
    + intros u e Hu E. destruct (decide (Z.gcd u m = 1)) as [Hc|Hc].
      * destruct (ModInverse_spec w Hww u m ltac:(lia) (proj1 (Hx u Hu))) as [H1 _]. destruct (H1 Hc) as [i Hi]. congruence.
      * rewrite (ModInverse_none w Hww u m ltac:(lia) (proj1 (Hx u Hu)) Hc) in E. injection E as <-. destruct (_ =? _); [by left|by right].
    + eexists v, _. split; [done|]. apply (ModInverse_none w Hww v m ltac:(lia) (proj1 (Hx v Hv)) Hg).
  - unfold ModExp. fold m. unfold m. rewrite (reduce_scalar_spec w x b Hm) by lia. rewrite bind_ok. fold m.
    rewrite (mapM_ok (reduced m) _ (fun v => (v ^ (b mod m)) mod m)); [done| |done].
    intros v Hv. apply nm_exp; [done|eauto with modarith..].
Qed.

Lemma inverse_exp_correct_witness :
  (exists d, ModInverse 64 (NVec 101 [2; 100]) = Ok (NVec 101 d) /\ Forall2 (fun v i => reduced 101 i /\ (i * v) mod 101 = 1) [2; 100] d) /\
  (exists e, ModInverse 64 (NVec 10 [3; 5]) = Throw e /\ (e = math_error " does not have a ModInverse using " \/ e = undefined_behaviour)).
Proof.
  assert (wf_vec 64 (NVec 101 [2; 100])) as H1.
  { apply wf_vec_check; [apply native_modulus_bits; lia|reflexivity]. }
  assert (wf_vec 64 (NVec 10 [3; 5])) as H2.
  { apply wf_vec_check; [apply native_modulus_bits; lia|reflexivity]. }
  split.
  - destruct (proj1 (inverse_exp_correct 64 _ 0 H1 ltac:(lia) ltac:(zdec) ltac:(lia))) as (d & Hd & _ & Hf).
    + intros v Hv. cbn in Hv. apply elem_of_cons in Hv as [->|Hv]; [reflexivity|].
      apply list_elem_of_singleton in Hv as ->. reflexivity.
    + exists d. split; [exact Hd|exact Hf].
  - apply (proj1 (proj2 (inverse_exp_correct 64 _ 0 H2 ltac:(lia) ltac:(zdec) ltac:(lia)))).
    exists 5. split; [cbn; apply elem_of_cons; right; by apply list_elem_of_singleton|discriminate].
Defined.
