(* ===== verification/SchemeCore.v ===== *)
(** * What the encryption schemes share

    [src/binfhe/lib/lwe-pke.cpp], [mklwe-pke.cpp] and [mntru-pke.cpp] repeat
    the same building blocks: the divisibility guard, the encoding of a
    plaintext, the scale-and-round operation [RoundqQ], the inner-product
    loops, the decomposition into digits and the rounding of a phase to a
    plaintext.  They are modelled here once, with the lemmas about them.  The
    schemes use [NativeInteger] of the default width, 64 bits. *)

From Stdlib Require Import ZArith Lia String.
From stdpp Require Import base tactics numbers list strings.
From S2P Require Import Prelude Double NativeInt NativeIntFacts ModArith NativeVec.

Definition W : Z := 64.

Declare Scope fhe_scope.
Notation "v .[ i ]" := (data v !!! i%nat) (at level 1, format "v .[ i ]") : fhe_scope.
Open Scope fhe_scope.

(** ** Definitions *)

(** [if (mod % d != 0 && mod.ConvertToInt() & (1 == 0)) OPENFHE_THROW(...)]:
    [&] binds weaker than [==], and [1 == 0] is [false]. *)
Definition divides_guard (d mod_ : Z) : res unit :=
  r ← umod mod_ d;
  if negb (r =? 0) && negb (Z.land (ConvertToInt 64 mod_) (if 1 =? 0 then 1 else 0) =? 0)
  then Throw (not_implemented_error "ERROR: ciphertext modulus q needs to be divisible by plaintext modulus p.")
  else Ok tt.

(** [NativeInteger(floor(0.5 + v * q / Q)).Mod(q)] on doubles. *)
Definition RoundqQ (v q Q : Z) : res Z :=
  if Q =? 0 then Throw undefined_behaviour else
  let r := dscale_round v q Q in
  if r <? 2 ^ W then NativeInt.Mod r q else Throw undefined_behaviour.

(** [(m % p) * (mod / p)]: the [int64_t] plaintext is converted to [uint64_t]. *)
Definition encode (m p mod_ : Z) : res Z :=
  r ← umod (m mod 2 ^ 64) p;
  d ← DividedBy mod_ p;
  Mul W r d.

(** [for (i < n) acc += a[i].ModMulFast(s[i], mod, mu)]. *)
Definition dot_loop (mod_ mu : Z) (a s : NativeVector) (n : nat) (acc : Z) : res Z :=
  for_ n (fun i acc =>
    ai ← vget (data a) i;
    si ← vget (data s) i;
    t ← ModMulFast_mu_ W ai si mod_ mu;
    AddEq W acc t) acc.

(** [for (l < n) sum.ModAddEq(temp[l], mod)]. *)
Definition sum_loop (mod_ : Z) (temp : NativeVector) (n : nat) : res Z :=
  for_ n (fun l sum => t ← vget (data temp) l; NativeInt.ModAddEq W sum t mod_) 0.

(** [for (k < n) a[k] = op(a[k], ref[k])]. *)
Definition update_loop (op : Z -> Z -> Z) (n : nat) (a ref : list Z) : res (list Z) :=
  for_ n (fun k a => x ← vget a k; y ← vget ref k; vset a k (op x y)) a.

(** [value = 1; for (i < digitCount) { digitsKS[i] = value; value *= baseKS; }] *)
Fixpoint powers_loop (base : Z) (count : nat) (value : Z) : list Z :=
  match count with
  | O => []
  | S c => value :: powers_loop base c (wrap W (value * base))
  end.

(** [r.ModAddFastEq(mod / d, mod); result = (NativeInteger(p) * r) / mod]. *)
Definition decode (p d mod_ r : Z) : res Z :=
  h ← DividedBy mod_ d;
  let r := ModAddFastEq W r h mod_ in
  t ← Mul W (wrap W p) r;
  DividedBy t mod_.

(** [ceil(log(Q) / log(base))], the number of digits of a residue modulo [Q]
    in base [base]. *)
Fixpoint digit_count_loop (fuel : nat) (base Q pw : Z) (d : nat) : nat :=
  match fuel with
  | O => d
  | S fuel' => if Q <=? pw then d else digit_count_loop fuel' base Q (pw * base) (S d)
  end.
Definition digit_count (base Q : Z) : nat := digit_count_loop 64 base Q 1 0.

(** ** Abstract specifications *)

(** The inner product of the first [n] entries. *)
Definition dot (n : nat) (a s : NativeVector) : Z := sumZ n (fun i => a.[i] * s.[i]).

(** Rounding a phase to the nearest multiple of [q / p], shifted by [h]. *)
Definition round_phase (p h q x : Z) : Z := (p * ((x + h) mod q)) / q.

Definition digit (base v : Z) (j : nat) : Z := (v / base ^ Z.of_nat j) mod base.

(** ** Lemmas *)
Lemma divides_guard_dead d mod_ : d <> 0 -> divides_guard d mod_ = Ok tt.
Proof.
  intros Hd. unfold divides_guard, umod. rewrite (proj2 (Z.eqb_neq d 0) Hd), bind_ok.
  cbn [Z.eqb Pos.eqb]. rewrite Z.land_0_r. by rewrite andb_false_r.
Qed.

Lemma vget_at (v : NativeVector) i : (i < length (data v))%nat -> vget (data v) i = Ok v.[i].
Proof. apply vget_total. Qed.

Lemma reduced_at m v i : Forall (reduced m) (data v) -> (i < length (data v))%nat -> reduced m v.[i].
Proof. intros Hf Hi. rewrite Forall_lookup in Hf. apply (Hf i). by apply list_lookup_lookup_total_lt. Qed.

Lemma digits_sum base v d :
  1 < base -> 0 <= v < base ^ Z.of_nat d -> sumZ d (fun j => digit base v j * base ^ Z.of_nat j) = v.
Proof.
  intros Hb Hv. cut (sumZ d (fun j => digit base v j * base ^ Z.of_nat j) = v mod base ^ Z.of_nat d).
  { intros ->. by apply Z.mod_small. }
  clear Hv. induction d as [|d IH]; cbn [sumZ].
  - by rewrite Z.mod_1_r.
  - rewrite IH. unfold digit. rewrite Nat2Z.inj_succ, Z.pow_succ_r by lia.
    assert (0 < base ^ Z.of_nat d) by (apply Z.pow_pos_nonneg; lia).
    rewrite (Z.mul_comm base), Z.rem_mul_r by lia. ring.
Qed.

Lemma digit_range base v j : 0 < base -> 0 <= digit base v j < base.
Proof. intros. unfold digit. by apply Z.mod_pos_bound. Qed.

Lemma digit_step base v j : 0 < base -> v / base ^ Z.of_nat j / base = v / base ^ Z.of_nat (S j).
Proof.
  intros Hb. rewrite Nat2Z.inj_succ, Z.pow_succ_r by lia.
  assert (0 < base ^ Z.of_nat j) by (apply Z.pow_pos_nonneg; lia).
  by rewrite Z.div_div, (Z.mul_comm base) by lia.
Qed.

(** The number of digits is enough. *)
Lemma digit_count_enough base Q : 2 <= base -> 0 < Q < 2 ^ 64 -> Q <= base ^ Z.of_nat (digit_count base Q).
Proof.
  intros Hb HQ. unfold digit_count.
  assert (forall fuel d pw, pw = base ^ Z.of_nat d -> Q <= base ^ Z.of_nat (d + fuel) ->
    Q <= base ^ Z.of_nat (digit_count_loop fuel base Q pw d)) as H.
  { induction fuel as [|fuel IH]; intros d pw Hpw Hf; cbn [digit_count_loop].
    - by rewrite Nat.add_0_r in Hf.
    - destruct (Z.leb_spec Q pw); [lia|]. apply IH.
      + rewrite Hpw, Nat2Z.inj_succ, Z.pow_succ_r by lia. ring.
      + by rewrite Nat.add_succ_l, <- Nat.add_succ_r. }
  apply H; [done|]. apply Z.le_trans with (2 ^ 64); [lia|].
  apply Z.pow_le_mono_l. lia.
Qed.

Lemma update_loop_spec op n a ref :
  (n <= length a)%nat -> (n <= length ref)%nat ->
  returns (update_loop op n a ref) (fun a' => length a' = length a /\
    (forall k, (k < n)%nat -> a' !!! k = op (a !!! k) (ref !!! k)) /\ (forall k, (n <= k)%nat -> a' !!! k = a !!! k)).
Proof.
  intros Ha Hr. unfold update_loop.
  apply (returns_for (fun i a' => length a' = length a /\
    (forall k, (k < i)%nat -> a' !!! k = op (a !!! k) (ref !!! k)) /\ (forall k, (i <= k)%nat -> a' !!! k = a !!! k))).
  - split; [done|split; [intros k Hk; lia|done]].
  - intros i a' Hi (Hl & H1 & H2). rewrite (vget_total a' i), bind_ok by lia.
    rewrite (vget_total ref i), bind_ok, vset_lt by lia. apply returns_ok. rewrite length_insert.
    split; [done|]. split.
    + intros k Hk. destruct (decide (k = i)) as [->|].
      * rewrite list_lookup_total_insert_eq by lia. by rewrite H2 by lia.
      * rewrite list_lookup_total_insert_ne by lia. apply H1. lia.
    + intros k Hk. rewrite list_lookup_total_insert_ne by lia. apply H2. lia.
Qed.

Lemma powers_loop_eq base count value :
  0 < base -> 0 <= value -> value * base ^ Z.of_nat (pred count) < 2 ^ 64 ->
  powers_loop base count value = map (fun j => value * base ^ Z.of_nat j) (seq 0 count).
Proof.
  intros Hb. revert value. induction count as [|count IH]; intros value Hv Hf; [done|].
  cbn [powers_loop seq map]. f_equal; [change (value = value * base ^ 0); rewrite Z.pow_0_r; lia|].
  destruct count as [|c]; [done|].
  assert (Z.of_nat (pred (S (S c))) = Z.of_nat c + 1) as E by lia. rewrite E, Z.pow_add_r, Z.pow_1_r in Hf by lia.
  assert (1 <= base ^ Z.of_nat c) by (apply (Z.pow_le_mono_r base 0); lia).
  assert (wrap W (value * base) = value * base) as -> by (apply wrap_small; change (2 ^ W) with (2 ^ 64); nia).
  rewrite IH by (cbn [pred]; lia || nia). rewrite <- (seq_shift (S c) 0), map_map. apply map_ext. intros j.
  rewrite Nat2Z.inj_succ, Z.pow_succ_r by lia. ring.
Qed.

Lemma powers_loop_spec base count value j :
  0 < base -> 0 <= value -> value * base ^ Z.of_nat (pred count) < 2 ^ 64 -> (j < count)%nat ->
  powers_loop base count value !!! j = value * base ^ Z.of_nat j.
Proof. intros Hb Hv Hf Hj. rewrite powers_loop_eq by done. by rewrite lookup_total_tab. Qed.

Section Loops.
Context {q : Z} {Hq : NativeModulus W q}.
Implicit Types a s v : NativeVector.

Lemma mod_W_small x : 0 <= x < 2 ^ 64 -> wrap W x = x.
Proof using Type. intros. by apply wrap_small. Qed.

(** The exact accumulator stays below the word as long as [n * q] does, and
    is congruent to the inner product. *)
Lemma dot_loop_spec a s n acc :
  Forall (reduced q) (data a) -> Forall (reduced q) (data s) ->
  (n <= length (data a))%nat -> (n <= length (data s))%nat ->
  0 <= acc -> acc + Z.of_nat n * q < 2 ^ 64 ->
  returns (dot_loop q (mu_of W q) a s n acc)
    (fun r => 0 <= r < acc + Z.of_nat n * q + 1 /\ r ≡[q] acc + dot n a s).
Proof using Hq.
  intros Ha Hs Hna Hns Hacc Hfit. pose proof (nm_bounds (w := W) (m := q)) as Hb.
  assert (forall n', (n' <= n)%nat -> 0 <= sumZ n' (fun i => (a.[i] * s.[i]) mod q) <= Z.of_nat n' * (q - 1)) as Hr.
  { intros n' _. pose proof (sumZ_range n' (fun i => (a.[i] * s.[i]) mod q) 0 (q - 1)) as H.
    destruct H as [H1 H2]; [intros i _; pose proof (Z.mod_pos_bound (a.[i] * s.[i]) q ltac:(lia)); lia|]. lia. }
  exists (acc + sumZ n (fun i => (a.[i] * s.[i]) mod q)). split; [|split].
  - unfold dot_loop. apply (for_sum n _ (fun i => (a.[i] * s.[i]) mod q) (2 ^ 64 - 1)); [done| | |].
    + intros i _. apply Z.mod_pos_bound. lia.
    + specialize (Hr n ltac:(lia)). lia.
    + intros i acc' Hi Hacc' Hle.
      rewrite (vget_at a i), bind_ok, (vget_at s i), bind_ok by lia.
      rewrite nm_mul_mu, bind_ok by (apply reduced_at; (done || lia)).
      pose proof (Z.mod_pos_bound (a.[i] * s.[i]) q ltac:(lia)).
      unfold AddEq, AddEqFast; cbn [NATIVEINT_DO_CHECKS]. rewrite mod_W_small by lia. f_equal. lia.
  - specialize (Hr n ltac:(lia)). lia.
  - apply eqm_add; [done|]. apply sumZ_eqm. intros i _. apply eqm_mod.
Qed.

Lemma sum_loop_spec v n :
  Forall (reduced q) (data v) -> (n <= length (data v))%nat ->
  sum_loop q v n = Ok (sumZ n (fun i => v.[i]) mod q).
Proof using Hq.
  intros Hv Hn. pose proof (nm_bounds (w := W) (m := q)) as Hb. unfold sum_loop.
  rewrite (for_sum_mod q n _ (fun i => v.[i])); [done|lia|lia|].
  intros i acc Hi Hacc. rewrite (vget_at v i), bind_ok by lia.
  pose proof (reduced_at q v i Hv ltac:(lia)) as Hr. unfold reduced in Hr. apply nm_add_any; lia.
Qed.

Lemma decode_spec p d r :
  0 < p -> 2 <= d -> p * q <= 2 ^ 64 -> reduced q r -> decode p d q r = Ok (round_phase p (q / d) q r).
Proof using Hq.
  intros Hp Hd Hfit Hr. pose proof (nm_bounds (w := W) (m := q)) as Hb. unfold decode, DividedBy.
  rewrite (proj2 (Z.eqb_neq d 0)), bind_ok by lia.
  assert (reduced q (q / d)) as Hh.
  { split; [apply Z.div_pos; lia|apply Z.div_lt; lia]. }
  assert (ModAddFastEq W r (q / d) q = (r + q / d) mod q) as -> by (by apply nm_add).
  pose proof (Z.mod_pos_bound (r + q / d) q ltac:(lia)) as Hm.
  unfold Mul, MulFast; cbn [NATIVEINT_DO_CHECKS]. rewrite (mod_W_small p) by nia.
  rewrite mod_W_small, bind_ok by nia. rewrite (proj2 (Z.eqb_neq q 0)) by lia.
  unfold round_phase. by rewrite (Z.mul_comm p).
Qed.

Lemma encode_spec m p : 0 < p <= q -> encode m p q = Ok ((m mod 2 ^ 64 mod p) * (q / p)) /\
  0 <= (m mod 2 ^ 64 mod p) * (q / p) < q.
Proof using Hq.
  intros Hp. pose proof (nm_bounds (w := W) (m := q)) as Hb. unfold encode.
  rewrite umod_spec, bind_ok by lia. unfold DividedBy. rewrite (proj2 (Z.eqb_neq p 0)), bind_ok by lia.
  pose proof (Z.mod_pos_bound (m mod 2 ^ 64) p ltac:(lia)) as Hm.
  pose proof (Z.mul_div_le q p ltac:(lia)). assert (0 < q / p) by (apply Z.div_str_pos; lia).
  unfold Mul, MulFast; cbn [NATIVEINT_DO_CHECKS]. assert (0 <= (m mod 2 ^ 64 mod p) * (q / p) < q) by nia.
  split; [|done]. f_equal. rewrite Z.mul_comm. apply mod_W_small. change (2 ^ W) with (2 ^ 64) in Hb. lia.
Qed.
End Loops.

(** Rounding removes a noise [e] smaller than half a step. *)
Lemma round_phase_correct p q m e x :
  0 < p -> 0 <= m < p -> 0 < q -> x ≡[q] m * (q / p) + e -> 2 * p * (Z.abs e + p) < q ->
  round_phase p (q / (p * 2)) q x = m.
Proof.
  intros Hp Hm Hq Hx He. unfold round_phase.
  set (D := q / p) in *. set (h := q / (p * 2)).
  pose proof (Z.div_mod q p ltac:(lia)) as E1. pose proof (Z.mod_pos_bound q p ltac:(lia)) as B1. fold D in E1.
  pose proof (Z.div_mod q (p * 2) ltac:(lia)) as E2. pose proof (Z.mod_pos_bound q (p * 2) ltac:(lia)) as B2. fold h in E2.
  assert (0 <= p * (m * D + e + h) - m * q < q) as Hr.
  { assert (2 * (p * (m * D + e + h) - m * q) = 2 * m * (p * D) + p * 2 * h + 2 * (p * e) - 2 * m * q) as E by ring.
    replace (p * D) with (q - q mod p) in E by lia. replace (p * 2 * h) with (q - q mod (p * 2)) in E by lia.
    assert (0 <= m * (q mod p) <= (p - 1) * (p - 1)) by nia.
    assert (Z.abs (p * e) = p * Z.abs e) by (rewrite Z.abs_mul; lia). lia. }
  assert ((x + h) mod q = m * D + e + h) as ->.
  { assert (0 <= m * D + e + h < q) as Hs by nia.
    rewrite <- (Z.mod_small _ _ Hs). change (x + h ≡[q] m * D + e + h). by rewrite Hx. }
  symmetry. apply Z.div_unique_pos with (p * (m * D + e + h) - m * q); lia.
Qed.

(** The scale-and-round operation on a canonical residue. *)
Lemma RoundqQ_spec v q Q :
  0 <= v < Q -> 0 < q -> 6 * v * q + 2 * Q + v + q < 2 ^ 53 ->
  RoundqQ v q Q = Ok (((2 * (v * q) + Q) / (2 * Q)) mod q).
Proof.
  intros Hv Hq Hfit. unfold RoundqQ. rewrite (proj2 (Z.eqb_neq Q 0)) by lia.
  rewrite dscale_round_exact by lia.
  assert ((2 * (v * q) + Q) / (2 * Q) < 2 ^ W) as ->%Z.ltb_lt.
  { apply Z.div_lt_upper_bound; [lia|]. change (2 ^ W) with (2 ^ 64). nia. }
  unfold NativeInt.Mod. by apply umod_spec.
Qed.

(** ... is the multiple [v * q / Q] up to one half. *)
Lemma RoundqQ_error v q Q :
  0 <= v < Q -> 0 < q -> 6 * v * q + 2 * Q + v + q < 2 ^ 53 ->
  exists r k, RoundqQ v q Q = Ok r /\ reduced q r /\ Z.abs (2 * (Q * (r + k * q) - v * q)) <= Q.
Proof.
  intros Hv Hq Hfit. rewrite RoundqQ_spec by done. set (t := (2 * (v * q) + Q) / (2 * Q)).
  exists (t mod q), (t / q). split; [done|]. split; [by apply Z.mod_pos_bound|].
  pose proof (Z.div_mod t q ltac:(lia)).
  pose proof (Z.div_mod (2 * (v * q) + Q) (2 * Q) ltac:(lia)) as E. fold t in E.
  pose proof (Z.mod_pos_bound (2 * (v * q) + Q) (2 * Q) ltac:(lia)).
  replace (t mod q + t / q * q) with t by lia. nia.
Qed.

(** ... and the powers of the base it ranges over are below [Q]. *)
Lemma digit_count_minimal base Q k :
  2 <= base -> 1 < Q -> (k < digit_count base Q)%nat -> base ^ Z.of_nat k < Q.
Proof.
  intros Hb HQ. unfold digit_count.
  assert (forall fuel d pw, pw = base ^ Z.of_nat d -> (forall k, (k < d)%nat -> base ^ Z.of_nat k < Q) ->
    (k < digit_count_loop fuel base Q pw d)%nat -> base ^ Z.of_nat k < Q) as H.
  { induction fuel as [|fuel IH]; intros d pw Hpw Hd; cbn [digit_count_loop]; [apply Hd|].
    destruct (Z.leb_spec Q pw); [apply Hd|]. apply IH.
    - rewrite Hpw, Nat2Z.inj_succ, Z.pow_succ_r by lia. ring.
    - intros k' Hk'. destruct (decide (k' = d)) as [->|]; [lia|]. apply Hd. lia. }
  apply H; [done|]. intros k' Hk'. lia.
Qed.

Lemma length_powers_loop base count value : length (powers_loop base count value) = count.
Proof. revert value. induction count as [|count IH]; intros value; [done|]. cbn. by rewrite IH. Qed.
