(* ===== verification/PrimeField.v ===== *)
(** * The residues modulo a prime

    Fermat's theorem, the square roots of one, the roots of order a power of
    two, and the strong bases of the Miller-Rabin test. *)

From Stdlib Require Import ZArith Lia.
From stdpp Require Import base tactics numbers list.
From S2P Require Import Prelude.

Section Prime.
Context (p : Z) (Hp : Z.prime p).

Lemma prime_pos : 2 <= p.
Proof using Hp. exact (Z.prime_ge_2 p Hp). Qed.

Lemma eqm0_divide a : a ≡[p] 0 <-> (p | a).
Proof using Hp. pose proof prime_pos. unfold eqm. rewrite Z.mod_0_l by lia. split; apply Z.mod_divide; lia. Qed.

Lemma integral a b : a * b ≡[p] 0 -> a ≡[p] 0 \/ b ≡[p] 0.
Proof using Hp. rewrite !eqm0_divide. apply Z.divide_prime_mul, Hp. Qed.

Lemma eqm_minus a b : a ≡[p] b <-> a - b ≡[p] 0.
Proof using Type. split; [intros ->; apply eqm_refl; lia|]. intros H. replace a with (a - b + b) by lia. rewrite H. apply eqm_refl. lia. Qed.

Lemma cancel_mul a b c : ~ c ≡[p] 0 -> a * c ≡[p] b * c -> a ≡[p] b.
Proof using Hp.
  intros Hc H. apply eqm_minus in H. rewrite <- Z.mul_sub_distr_r in H. destruct (integral _ _ H) as [H'|]; [|done]. by apply eqm_minus.
Qed.

Lemma not_zero_mul a b : ~ a ≡[p] 0 -> ~ b ≡[p] 0 -> ~ a * b ≡[p] 0.
Proof using Hp. intros Ha Hb H. by destruct (integral _ _ H). Qed.

Lemma small_not_zero a : 0 < a < p -> ~ a ≡[p] 0.
Proof using Hp. intros Ha H. apply eqm_small in H; lia. Qed.

(** A number whose square is that of another one is it or its opposite. *)
Lemma same_square a b : a * a ≡[p] b * b -> a ≡[p] b \/ a ≡[p] - b.
Proof using Hp.
  intros H. apply eqm_minus in H. replace (a * a - b * b) with ((a - b) * (a + b)) in H by ring. destruct (integral _ _ H) as [H'|H'].
  - left. by apply eqm_minus.
  - right. apply eqm_minus. by replace (a - - b) with (a + b) by lia.
Qed.

(** ** Fermat's theorem

    Multiplication by a unit permutes the numbers from 1 to [p - 1]. *)
Definition prodZ (l : list Z) : Z := foldr Z.mul 1 l.
#[local] Instance prodZ_perm : Proper (Permutation ==> eq) prodZ.
Proof. intros l l' H. unfold prodZ. induction H; cbn; lia. Qed.
Abbreviation units := (seqZ 1 (p - 1)).

Lemma prodZ_scale a l : prodZ (map (fun x => (x * a) mod p) l) ≡[p] prodZ l * a ^ Z.of_nat (length l).
Proof using Hp.
  pose proof prime_pos. induction l as [|x l IH]; [done|]. cbn [map prodZ foldr length]. fold (prodZ (map (fun x => (x * a) mod p) l)). fold (prodZ l).
  rewrite IH, eqm_mod, Nat2Z.inj_succ, Z.pow_succ_r by lia. apply eqm_refl. ring.
Qed.

Lemma prodZ_units l : Forall (fun x => ~ x ≡[p] 0) l -> ~ prodZ l ≡[p] 0.
Proof using Hp.
  induction 1 as [|x l Hx _ IH]; cbn [prodZ foldr]; [|by apply not_zero_mul]. apply small_not_zero. pose proof prime_pos. lia.
Qed.

Lemma units_permuted a : ~ a ≡[p] 0 -> map (fun x => (x * a) mod p) units ≡ₚ units.
Proof using Hp.
  intros Ha. pose proof prime_pos. apply submseteq_length_Permutation; [|by rewrite length_map]. apply NoDup_submseteq.
  - apply (NoDup_fmap_2_strong (fun x => (x * a) mod p)); [|apply NoDup_seqZ]. intros x y Hx%elem_of_seqZ Hy%elem_of_seqZ Exy.
    apply (eqm_small p); [lia..|]. by apply (cancel_mul x y a).
  - intros x (y & -> & Hy%elem_of_seqZ)%list_elem_of_fmap. apply elem_of_seqZ. pose proof (Z.mod_pos_bound (y * a) p).
    assert ((y * a) mod p <> 0); [|lia]. intros E. apply (not_zero_mul y a); [apply small_not_zero; lia|done|]. unfold eqm. rewrite E, Z.mod_0_l; lia.
Qed.

Theorem fermat a : ~ a ≡[p] 0 -> a ^ (p - 1) ≡[p] 1.
Proof using Hp.
  intros Ha. pose proof prime_pos. pose proof (prodZ_scale a units) as H1. rewrite (units_permuted a Ha) in H1. rewrite length_seqZ, Z2Nat.id in H1 by lia.
  apply (cancel_mul _ _ (prodZ units)); [apply prodZ_units; apply Forall_forall; intros x Hx%elem_of_seqZ; apply small_not_zero; lia|].
  rewrite Z.mul_1_l, Z.mul_comm. by symmetry.
Qed.

(** ** Roots of order a power of two *)
Section Roots.
Context (Hp2 : 2 < p).

Lemma one_not_opposite : ~ 1 ≡[p] -1.
Proof using Hp2. intros H. apply eqm_close in H; lia. Qed.

Lemma sqrt_one x : x * x ≡[p] 1 -> x ≡[p] 1 \/ x ≡[p] -1.
Proof using Hp. intros H. apply (same_square x 1). by rewrite Z.mul_1_r. Qed.

Lemma prime_odd : (2 | p - 1).
Proof using Hp Hp2.
  destruct (Z.even p) eqn:E; [|apply Z.mod_divide; [lia|]; rewrite Zmod_odd, Z.odd_sub, <- Z.negb_even, E; done].
  destruct Hp as [_ H]. exfalso. apply (H 2 ltac:(lia)). apply Z.mod_divide; [lia|]. by rewrite Zmod_even, E.
Qed.

Lemma half_power x : ~ x ≡[p] 0 -> ~ x ^ ((p - 1) / 2) ≡[p] 1 -> x ^ ((p - 1) / 2) ≡[p] -1.
Proof using Hp Hp2.
  intros Hx H1. destruct (sqrt_one (x ^ ((p - 1) / 2))) as [H|]; [|done..]. rewrite <- Z.pow_add_r by (apply Z.div_pos; lia).
  destruct prime_odd as [h E]. rewrite E, Z.div_mul by lia. replace (h + h) with (p - 1) by lia. by apply fermat.
Qed.

Lemma opposite_power i : 0 <= i -> (-1) ^ i ≡[p] 1 -> Z.Even i.
Proof using Hp2.
  intros Hi H. destruct (Z.Even_or_Odd i) as [|[h ->]]; [done|]. exfalso. apply one_not_opposite. rewrite <- H, Z.pow_add_r, Z.pow_mul_r by lia.
  change ((-1) ^ 2) with 1. by rewrite Z.pow_1_l by lia.
Qed.

Section Order.
Context (r : Z) (k : nat) (Hr : r ^ 2 ^ Z.of_nat k ≡[p] -1).

Lemma root_power i : 0 <= i -> r ^ (2 ^ Z.of_nat k * i) ≡[p] (-1) ^ i.
Proof using Hr. intros Hi. rewrite Z.pow_mul_r by (try apply Z.pow_nonneg; lia). by apply eqm_pow_nonneg. Qed.

Lemma even_exponent i j : 0 <= i -> (j <= k)%nat -> r ^ (i * 2 ^ Z.of_nat j) ≡[p] 1 -> Z.Even i.
Proof using Hp2 Hr.
  intros Hi Hj H. apply (opposite_power i Hi). rewrite <- root_power by done.
  assert (0 <= 2 ^ Z.of_nat j /\ 0 <= 2 ^ Z.of_nat (k - j)) as [H1 H2] by (split; apply Z.pow_nonneg; lia).
  assert (2 ^ Z.of_nat k * i = i * 2 ^ Z.of_nat j * 2 ^ Z.of_nat (k - j)) as -> by (rewrite <- Z.mul_assoc, <- Z.pow_add_r by lia; replace (Z.of_nat j + Z.of_nat (k - j)) with (Z.of_nat k) by lia; ring).
  rewrite Z.pow_mul_r by lia. rewrite (eqm_pow_nonneg p _ 1 _ H H2), Z.pow_1_l; done.
Qed.

(** Every root of an order that divides [2 ^ (k + 1)] is a power of [r]. *)
Lemma root_is_power j : (j <= S k)%nat -> forall y, y ^ 2 ^ Z.of_nat j ≡[p] 1 -> exists i, 0 <= i /\ y ≡[p] r ^ i.
Proof using Hp Hp2 Hr.
  induction j as [|j IH]; intros Hj y Hy.
  - exists 0. split; [done|]. rewrite Z.pow_0_r. change (2 ^ Z.of_nat 0) with 1 in Hy. by rewrite Z.pow_1_r in Hy.
  - rewrite Nat2Z.inj_succ, Z.pow_succ_r, Z.pow_mul_r in Hy by (try apply Z.pow_nonneg; lia). destruct (IH ltac:(lia) (y ^ 2) Hy) as (i & Hi & Ei).
    destruct (even_exponent i j Hi ltac:(lia)) as [h ->]. { rewrite Z.pow_mul_r by (try apply Z.pow_nonneg; lia). by rewrite <- (eqm_pow_nonneg p _ _ _ Ei) by (apply Z.pow_nonneg; lia). }
    destruct (same_square y (r ^ h)) as [E|E]; [|by exists h; split; [lia|]|].
    + replace (y * y) with (y ^ 2) by ring. rewrite Ei, <- Z.pow_add_r by lia. apply eqm_refl. f_equal. lia.
    + exists (2 ^ Z.of_nat k + h). pose proof (Z.pow_nonneg 2 (Z.of_nat k)). split; [lia|]. rewrite Z.pow_add_r, Hr, E by lia. apply eqm_refl. ring.
Qed.

(** Those whose power is the opposite of one are its odd powers. *)
Lemma root_is_odd_power y : y ^ 2 ^ Z.of_nat k ≡[p] -1 -> exists i, 0 < i < 2 ^ Z.of_nat (S k) /\ Z.Odd i /\ y ≡[p] r ^ i.
Proof using Hp Hp2 Hr.
  intros Hy. set (m := 2 ^ Z.of_nat (S k)). assert (m = 2 ^ Z.of_nat k * 2) as Em by (unfold m; rewrite Nat2Z.inj_succ, Z.pow_succ_r by lia; ring).
  assert (0 < 2 ^ Z.of_nat k) as Hk by (apply Z.pow_pos_nonneg; lia).
  destruct (root_is_power (S k) ltac:(lia) y) as (i & Hi & Ei). { fold m. rewrite Em, Z.pow_mul_r by lia. by rewrite (eqm_pow_nonneg p _ _ 2 Hy) by lia. }
  assert (Z.Odd i) as Ho.
  { destruct (Z.Even_or_Odd i) as [[h ->]|]; [|done]. exfalso. apply one_not_opposite. rewrite <- Hy, (eqm_pow_nonneg p _ _ _ Ei), <- Z.pow_mul_r by lia.
    rewrite (Z.mul_comm _ (2 ^ Z.of_nat k)), root_power, Z.pow_mul_r by lia. change ((-1) ^ 2) with 1. by rewrite Z.pow_1_l by lia. }
  assert (i = m * (i / m) + i mod m) as Edm by (apply Z.div_mod; lia). pose proof (Z.mod_pos_bound i m ltac:(lia)). pose proof (Z.div_pos i m Hi ltac:(lia)).
  assert (Z.Odd (i mod m)) as Hom. { destruct Ho as [h Eh]. exists (h - 2 ^ Z.of_nat k * (i / m)). lia. }
  exists (i mod m). split; [destruct Hom; lia|]. split; [done|]. rewrite Ei. rewrite Edm at 1. rewrite Z.pow_add_r by lia.
  assert (r ^ (m * (i / m)) ≡[p] 1) as ->; [|apply eqm_refl; ring].
  replace (m * (i / m)) with (2 ^ Z.of_nat k * (2 * (i / m))) by (rewrite Em; ring). rewrite root_power, Z.pow_mul_r by lia.
  change ((-1) ^ 2) with 1. by rewrite Z.pow_1_l by lia.
Qed.

Lemma odd_power_is_root i : 0 <= i -> Z.Odd i -> (r ^ i) ^ 2 ^ Z.of_nat k ≡[p] -1.
Proof using Hr.
  intros Hi [h ->]. assert (0 <= 2 ^ Z.of_nat k) by (apply Z.pow_nonneg; lia). rewrite <- Z.pow_mul_r, (Z.mul_comm _ (2 ^ Z.of_nat k)), root_power by lia.
  rewrite Z.pow_add_r, Z.pow_mul_r by lia. change ((-1) ^ 2) with 1. by rewrite Z.pow_1_l by lia.
Qed.
End Order.
End Roots.
End Prime.
