(* ===== verification/NumberTheory.v ===== *)
(** * Number theory

    Models [src/core/include/math/nbtheory-impl.h] and [GetTotient] of
    [src/core/lib/math/nbtheory2.cpp] for [NativeInteger]: the Miller-Rabin
    test, the search for primes of a size in an arithmetic progression, the
    factorization by Pollard's method, generators of the multiplicative group
    and roots of unity.  The generator of random numbers is a state [G] with the
    uniform distribution [draw] of the standard library; the loops that wait for
    a draw have fuel. *)

From Stdlib Require Import ZArith Lia String.
From stdpp Require Import base tactics numbers list strings gmap sorting.
From S2P Require Import NativeVec SchemeCore Prelude NativeInt NativeIntFacts ModArith.

(** A fold whose steps may fail. *)
Fixpoint foldlM {A S : Type} (f : S -> A -> res S) (s : S) (l : list A) : res S :=
  match l with [] => Ok s | x :: l' => s' ← f s x; foldlM f s' l' end.

Section Random.
Context {G : Type} (draw : Z -> Z -> G -> Z * G) (fuel : nat).

(** One attempt: the low chunks of 32 bits, then the highest one. *)
Fixpoint low_chunks (n : nat) (shift result : Z) (g : G) : Z * G :=
  match n with
  | O => (result, g)
  | S n' => let c := draw 0 (2 ^ 32 - 1) g in low_chunks n' (shift + 32) (wrap W (result + wrap W (Z.shiftl c.1 shift))) c.2
  end.
Definition attempt (modulus : Z) (g : G) : Z * G :=
  let chunksPerValue := ((GetMSB W modulus - 1) mod 2 ^ 32) / 32 in
  let shiftChunk := chunksPerValue * 32 in
  let r := low_chunks (Z.to_nat chunksPerValue) 0 0 g in
  let c := draw 0 (ConvertToInt 32 (Z.shiftr modulus shiftChunk)) r.2 in
  (wrap W (r.1 + wrap W (Z.shiftl c.1 shiftChunk)), c.2).
Fixpoint RNG_loop (tries : nat) (modulus : Z) (g : G) : res (Z * G) :=
  match tries with
  | O => Throw out_of_fuel
  | S tries' => let r := attempt modulus g in if r.1 <? modulus then Ok r else RNG_loop tries' modulus r.2
  end.
Definition RNG (modulus : Z) (g : G) : res (Z * G) := RNG_loop fuel modulus g.

(** ** The primality test *)
Fixpoint witness_loop (s : nat) (mod_ p : Z) : res bool :=
  match s with
  | O => Ok (negb (mod_ =? 1))
  | S s' =>
    let prevMod := negb (mod_ =? 1) && negb (mod_ =? Sub W p 1) in
    mod' ← ModMulFastEq W mod_ mod_ p;
    if (mod' =? 1) && prevMod then Ok true else witness_loop s' mod' p
  end.
Definition WitnessFunction (a d : Z) (s : nat) (p : Z) : res bool :=
  mod_ ← ModExp W a d p;
  witness_loop s mod_ p.

(** [d] and [s] with [p - 1 = 2 ^ s d]; 64 halvings reach an odd number. *)
Fixpoint odd_part (n : nat) (d : Z) (s : nat) : Z * nat :=
  match n with O => (d, s) | S n' => if d mod 2 =? 0 then odd_part n' (Z.shiftr d 1) (S s) else (d, s) end.

Fixpoint rounds (niter : nat) (d : Z) (s : nat) (p : Z) (g : G) : res (bool * G) :=
  match niter with
  | O => Ok (true, g)
  | S niter' =>
    r ← RNG (Sub W p 3) g;
    a ← ModAdd W r.1 2 p;
    w ← WitnessFunction a d s p;
    if (w : bool) then Ok (false, r.2) else rounds niter' d s p r.2
  end.
Definition MillerRabinPrimalityTest (p : Z) (niter : nat) (g : G) : res (bool * G) :=
  if (p =? 2) || (p =? 3) || (p =? 5) then Ok (true, g) else
  if (p <? 2) || (p mod 2 =? 0) then Ok (false, g) else
  let ds := odd_part 64 (Sub W p 1) 0 in
  rounds niter ds.1 ds.2 p g.

(** The number of rounds by default. *)
Definition niter_default : nat := 100.
Definition is_prime (p : Z) (g : G) : res (bool * G) := MillerRabinPrimalityTest p niter_default g.

(** ** Primes in a progression

    Any exception inside [FirstPrime] becomes a [math_error]. *)
Fixpoint first_loop (n : nat) (q m : Z) (g : G) : res (Z * G) :=
  match n with
  | O => Throw out_of_fuel
  | S n' =>
    t ← is_prime q g;
    if (t.1 : bool) then Ok (q, t.2)
    else let q' := wrap W (q + m) in if q' <? q then Throw (math_error "FirstPrime overflow growing candidate") else first_loop n' q' m t.2
  end.
Definition first_candidate (nBits m : Z) : res Z :=
  let q := wrap W (Z.shiftl 1 nBits) in
  r ← umod q m;
  let q2 := wrap W (q + 1) in
  let q2 := if 0 <? r then wrap W (q2 + wrap W (m - r)) else q2 in
  if q2 <? q then Throw (math_error "FirstPrime parameters overflow this integer implementation") else Ok q2.
Definition FirstPrime (steps : nat) (nBits m : Z) (g : G) : res (Z * G) :=
  if MAX_MODULUS_SIZE W <? nBits then Throw (math_error "Requested bit length exceeds maximum allowed length") else
  match (q ← first_candidate nBits m; first_loop steps q m g) with
  | Ok r => Ok r
  | Throw out_of_fuel => Throw out_of_fuel
  | Throw undefined_behaviour => Throw undefined_behaviour
  | Throw _ => Throw (math_error "FirstPrime math exception")
  end.

Fixpoint next_loop (n : nat) (q0 q m : Z) (g : G) : res (Z * G) :=
  match n with
  | O => Throw out_of_fuel
  | S n' =>
    t ← is_prime q g;
    if (t.1 : bool) then Ok (q, t.2)
    else let q' := wrap W (q + m) in if q' <? q0 then Throw (math_error "NextPrime overflow growing candidate") else next_loop n' q0 q' m t.2
  end.
Definition NextPrime (steps : nat) (q m : Z) (g : G) : res (Z * G) := next_loop steps q (wrap W (q + m)) m g.

Fixpoint previous_loop (n : nat) (q0 q m : Z) (g : G) : res (Z * G) :=
  match n with
  | O => Throw out_of_fuel
  | S n' =>
    t ← is_prime q g;
    if (t.1 : bool) then Ok (q, t.2)
    else let q' := Sub W q m in if q0 <? q' then Throw (config_error "Moduli size is not sufficient! Must be increased.") else previous_loop n' q0 q' m t.2
  end.
Definition PreviousPrime (steps : nat) (q m : Z) (g : G) : res (Z * G) := previous_loop steps q (Sub W q m) m g.

(** ** Greatest common divisor

    Every second step halves the remainder: 130 steps are enough for words of
    64 bits. *)
Fixpoint gcd_loop (n : nat) (a b : Z) : res Z :=
  match n with
  | O => Throw out_of_fuel
  | S n' => if b =? 0 then Ok a else gcd_loop n' b (a mod b)
  end.
Definition GreatestCommonDivisor (a b : Z) : res Z := gcd_loop 130 a b.

(** ** Factorization

    [x] moves one step and [xx] two steps of [x^2 + c] until their difference
    has a factor in common with [n]. *)
Definition pollard_step (n c mu x : Z) : res Z := y ← ModMul_mu W x x n mu; ModAdd_mu W y c n mu.
Fixpoint pollard_loop (steps : nat) (n c mu x xx : Z) : res Z :=
  match steps with
  | O => Throw out_of_fuel
  | S steps' =>
    x ← pollard_step n c mu x;
    xx ← pollard_step n c mu xx;
    xx ← pollard_step n c mu xx;
    divisor ← GreatestCommonDivisor (if xx <? x then Sub W x xx else Sub W xx x) n;
    if divisor =? 1 then pollard_loop steps' n c mu x xx else Ok divisor
  end.
Definition PollardRhoFactorization (n : Z) (g : G) : res (Z * G) :=
  if n mod 2 =? 0 then Ok (2, g) else
  c ← RNG n g;
  x ← RNG n c.2;
  mu ← ComputeMu W n;
  d ← pollard_loop fuel n c.1 mu x.1 x.1;
  Ok (d, x.2).

(** The set of the prime factors, in order. *)
Fixpoint PrimeFactorize (depth : nat) (n : Z) (factors : gset Z) (g : G) : res (gset Z * G) :=
  match depth with
  | O => Throw out_of_fuel
  | S depth' =>
    if (n =? 0) || (n =? 1) then Ok (factors, g) else
    t ← is_prime n g;
    if (t.1 : bool) then Ok ({[n]} ∪ factors, t.2) else
    d ← PollardRhoFactorization n t.2;
    f ← PrimeFactorize depth' d.1 factors d.2;
    q ← DividedBy n d.1;
    PrimeFactorize depth' q f.1 f.2
  end.
Definition sorted_elements (s : gset Z) : list Z := merge_sort Z.le (elements s).

(** Euler's function. *)
Definition GetTotient (n : Z) (g : G) : res (Z * G) :=
  f ← PrimeFactorize fuel n ∅ g;
  r ← foldlM (fun (np : Z * Z) r => a ← Mul W np.1 (Sub W r 1); b ← Mul W np.2 r; Ok (a, b)) (1, 1) (sorted_elements f.1);
  q ← DividedBy n r.2;
  t ← Mul W q r.1;
  Ok (t, f.2).

(** ** Generators and roots of unity

    [is_generator] is the common test: no power [group / r] of the candidate is
    one, for the prime factors [r] of the order of the group. *)
Fixpoint is_generator (factors : list Z) (x order m : Z) : res bool :=
  match factors with
  | [] => Ok true
  | r :: rest => e ← DividedBy order r; y ← ModExp W x e m; if y =? 1 then Ok false else is_generator rest x order m
  end.
Fixpoint generator_loop (tries : nat) (factors : list Z) (q : Z) (g : G) : res (Z * G) :=
  match tries with
  | O => Throw out_of_fuel
  | S tries' =>
    r ← RNG (Sub W q 2) g;
    gen ← Add W r.1 1;
    ok ← is_generator factors gen (Sub W q 1) q;
    if (ok : bool) then Ok (gen, r.2) else generator_loop tries' factors q r.2
  end.
Definition FindGenerator (q : Z) (g : G) : res (Z * G) :=
  f ← PrimeFactorize fuel (Sub W q 1) ∅ g;
  generator_loop fuel (sorted_elements f.1) q f.2.

(** The numbers below [n] that have no factor in common with it. *)
Definition GetTotientList (n : Z) : res (list Z) :=
  for_ (Z.to_nat (n - 1)) (fun k result => let i := Z.of_nat k + 1 in d ← GreatestCommonDivisor i n; Ok (if d =? 1 then result ++ [i] else result)) [].

(** The smallest of the powers of [result] with exponents in [coprimes]: [x] is
    multiplied by [result] once for every unit between two exponents. *)
Definition power_steps (count : nat) (result modulo mu x : Z) : res Z := for_ count (fun _ x => ModMulEq_mu W x result modulo mu) x.
Definition min_step (result modulo mu : Z) (s : Z * Z * Z) (next : Z) : res (Z * Z * Z) :=
  x ← power_steps (Z.to_nat (Sub W next s.2)) result modulo mu s.1.1;
  Ok (x, (if (x <? s.1.2) && negb (x =? 1) then x else s.1.2), next).
Definition min_root (result modulo : Z) (coprimes : list Z) : res Z :=
  mu ← ComputeMu W modulo;
  x ← ModMulEq_mu W 1 result modulo mu;
  r ← foldlM (min_step result modulo mu) (x, x, 1) coprimes;
  Ok r.1.2.

(** A root of order dividing [m], again while it is one, then the smallest. *)
Fixpoint RootOfUnity (tries : nat) (m modulo : Z) (g : G) : res (Z * G) :=
  match tries with
  | O => Throw out_of_fuel
  | S tries' =>
    r ← umod (Sub W modulo 1) m;
    if negb (r =? 0) then Throw (math_error "Please provide a primeModulus(q) and a cyclotomic number(m) satisfying the condition: (q-1)/m is an integer") else
    gen ← FindGenerator modulo g;
    e ← DividedBy (Sub W modulo 1) m;
    result ← ModExp W gen.1 e modulo;
    s ← (if result =? 1 then RootOfUnity tries' m modulo gen.2 else Ok (result, gen.2));
    coprimes ← GetTotientList m;
    root ← min_root s.1 modulo coprimes;
    Ok (root, s.2)
  end.
End Random.
