(* ===== verification/NumberTheoryFacts.v ===== *)
(** * Facts about the number theory

    The greatest common divisor, the strong bases of the Miller-Rabin test, the
    search for primes, the generators and the roots of unity. *)

From Stdlib Require Import ZArith Lia String.
From stdpp Require Import base tactics numbers list strings gmap sorting.
From S2P Require Import NativeVec SchemeCore Prelude NativeInt NativeIntFacts ModArith PrimeField NumberTheory.

(** ** Greatest common divisor

    Two steps halve the second operand. *)
Lemma gcd_step_half b r : 0 < r -> 0 <= b mod r -> r < b -> 2 * (b mod r) < b.
Proof. intros Hr Hm Hb. pose proof (Z.mod_pos_bound b r Hr). pose proof (Z.div_mod b r ltac:(lia)). assert (1 <= b / r) by (apply Z.div_le_lower_bound; lia). nia. Qed.

Lemma gcd_loop_spec j : forall n a b, 0 <= a -> 0 <= b < 2 ^ Z.of_nat j -> (2 * j + 1 <= n)%nat -> gcd_loop n a b = Ok (Z.gcd a b).
Proof.
  induction j as [|j IH]; intros [|n] a b Ha Hb Hn; try lia; cbn [gcd_loop].
  - change (2 ^ Z.of_nat 0) with 1 in Hb. assert (b = 0) as -> by lia. cbn [Z.eqb]. by rewrite Z.gcd_0_r_nonneg.
  - destruct (Z.eqb_spec b 0) as [->|Hb0]; [by rewrite Z.gcd_0_r_nonneg|]. rewrite (Z.gcd_comm a), <- (Z.gcd_mod a b), (Z.gcd_comm (a mod b)) by lia.
    pose proof (Z.mod_pos_bound a b ltac:(lia)) as Hr. set (r := a mod b) in *. destruct n as [|n]; [lia|]. cbn [gcd_loop].
    destruct (Z.eqb_spec r 0) as [->|Hr0]; [by rewrite Z.gcd_0_r_nonneg by lia|]. rewrite (Z.gcd_comm b), <- (Z.gcd_mod b r), (Z.gcd_comm (b mod r)) by lia.
    pose proof (Z.mod_pos_bound b r ltac:(lia)). pose proof (gcd_step_half b r ltac:(lia) ltac:(lia) ltac:(lia)).
    rewrite Nat2Z.inj_succ, Z.pow_succ_r in Hb by lia. apply IH; lia.
Qed.

Lemma GreatestCommonDivisor_spec a b : 0 <= a -> 0 <= b < 2 ^ 64 -> GreatestCommonDivisor a b = Ok (Z.gcd a b).
Proof. intros Ha Hb. apply (gcd_loop_spec 64); lia. Qed.

(** ** The Miller-Rabin test *)
Lemma odd_part_spec n : forall d s, 0 < d < 2 ^ Z.of_nat n -> let r := odd_part n d s in Z.Odd r.1 /\ 0 < r.1 /\ (s <= r.2)%nat /\ d = 2 ^ Z.of_nat (r.2 - s) * r.1.
Proof.
  induction n as [|n IH]; intros d s Hd; cbn [odd_part]; [change (2 ^ Z.of_nat 0) with 1 in Hd; lia|].
  rewrite Nat2Z.inj_succ, Z.pow_succ_r in Hd by lia. destruct (Z.eqb_spec (d mod 2) 0) as [E|E].
  - rewrite Z.shiftr_div_pow2 by lia. change (2 ^ 1) with 2. pose proof (Z.div_mod d 2 ltac:(lia)). destruct (IH (d / 2) (S s) ltac:(lia)) as (H1 & H2 & H3 & H4).
    split; [done|]. split; [done|]. split; [lia|]. replace (Z.of_nat (_ - s)) with (Z.succ (Z.of_nat ((odd_part n (d / 2) (S s)).2 - S s))) by lia. rewrite Z.pow_succ_r by lia. lia.
  - cbn [fst snd]. split; [apply Z.odd_spec; rewrite Zodd_mod; apply Z.eqb_eq; pose proof (Z.mod_pos_bound d 2); lia|]. split; [lia|]. split; [done|]. rewrite Nat.sub_diag. change (2 ^ Z.of_nat 0) with 1. lia.
Qed.

(** [a] is a strong base of [p], with [p - 1 = 2 ^ s d]: a prime has only strong
    bases. *)
Definition strong (a d : Z) (s : nat) (p : Z) : Prop := a ^ d ≡[p] 1 \/ exists r, (r < s)%nat /\ a ^ (d * 2 ^ Z.of_nat r) ≡[p] -1.

Section Witness.
Context (p : Z) (Hp : 3 <= p < 2 ^ 63).

Lemma minus_one x : reduced p x -> x = p - 1 <-> x ≡[p] -1.
Proof using Hp.
  intros Hx. split; [intros ->; apply eqm_iff; exists 1; lia|]. intros H. apply eqm_small with (m := p); [done|lia|]. rewrite H. apply eqm_iff. exists (-1). lia.
Qed.

Lemma is_one x : reduced p x -> x = 1 <-> x ≡[p] 1.
Proof using Hp. intros Hx. split; [by intros ->|]. intros H. by apply eqm_small in H; [|done|lia]. Qed.

Lemma square_spec x : reduced p x -> ModMulFastEq W x x p = Ok ((x * x) mod p).
Proof using Hp. intros Hx. unfold reduced in Hx. apply (ModMulFast_spec W); unfold W; lia. Qed.

Lemma not_opposite : ~ 1 ≡[p] -1.
Proof using Hp. intros H. apply eqm_close in H; lia. Qed.

Lemma pow_double x r : 0 <= r -> (x * x) ^ 2 ^ r = x ^ 2 ^ Z.succ r.
Proof using Type. intros Hr. replace (x * x) with (x ^ 2) by ring. rewrite <- Z.pow_mul_r, <- Z.pow_succ_r by (try apply Z.pow_nonneg; lia). done. Qed.

Lemma one_pow r : 0 <= r -> 1 ^ 2 ^ r = 1.
Proof using Type. intros. apply Z.pow_1_l. by apply Z.pow_nonneg. Qed.

(** The roots that a further squaring reaches. *)
Definition hits (s : nat) (x : Z) : Prop := exists r, (r < s)%nat /\ x ^ 2 ^ Z.of_nat r ≡[p] -1.

Lemma hits_S s x : hits (S s) x <-> x ≡[p] -1 \/ hits s ((x * x) mod p).
Proof using Type.
  assert (forall r, ((x * x) mod p) ^ 2 ^ Z.of_nat r ≡[p] x ^ 2 ^ Z.of_nat (S r)) as H.
  { intros r. rewrite (eqm_pow_nonneg p _ (x * x)) by (first [apply eqm_mod|apply Z.pow_nonneg; lia]). rewrite pow_double by lia. by rewrite Nat2Z.inj_succ. }
  split.
  - intros ([|r] & Hr & E); [left; by rewrite Z.pow_1_r in E|right]. exists r. split; [lia|]. by rewrite H.
  - intros [E|(r & Hr & E)]; [exists 0%nat; split; [lia|by rewrite Z.pow_1_r]|]. exists (S r). split; [lia|]. by rewrite <- H.
Qed.

Lemma hits_one s x : x ≡[p] 1 -> ~ hits s x.
Proof using Hp. intros Hx (r & _ & E). apply not_opposite. rewrite <- E, (eqm_pow_nonneg p _ _ _ Hx), one_pow by (try apply Z.pow_nonneg; lia). done. Qed.

Lemma witness_loop_spec s : forall x, reduced p x -> returns (witness_loop s x p) (fun b => b = false <-> x ≡[p] 1 \/ hits s x).
Proof using Hp.
  induction s as [|s IH]; intros x Hx; cbn [witness_loop].
  - apply returns_ok. rewrite <- is_one by done. destruct (Z.eqb_spec x 1) as [->|Hx1]; cbn [negb]; [tauto|]. split; [done|]. intros [|(r & Hr & _)]; [done|lia].
  - unfold Sub, SubFast. cbn [NATIVEINT_DO_CHECKS]. rewrite (wrap_small W) by (unfold W; lia). rewrite square_spec, bind_ok by done.
    pose proof (Z.mod_pos_bound (x * x) p ltac:(lia)) as Hx'. set (x' := (x * x) mod p) in *. assert (x' ≡[p] x * x) as Ex' by apply eqm_mod.
    apply (returns_mono _ (fun b => b = false <-> x ≡[p] 1 \/ x ≡[p] -1 \/ hits s x')); [|intros b ->; by rewrite hits_S].
    destruct (Z.eqb_spec x' 1) as [E1|E1]; cbn [andb].
    + destruct (Z.eqb_spec x 1) as [->|Hx1]; cbn [negb andb].
      { eapply returns_mono; [by apply IH|]. intros b ->. split; [by left|intros _; left; by apply is_one]. }
      destruct (Z.eqb_spec x (p - 1)) as [E|Hxm]; cbn [negb andb].
      { eapply returns_mono; [by apply IH|]. intros b ->. split; [intros _; right; left; by apply minus_one|intros _; left; by apply is_one]. }
      apply returns_ok. split; [done|]. intros [H|[H|H]]; [by apply is_one in H|by apply minus_one in H|]. exfalso. apply (hits_one s x'); [by apply is_one|done].
    + eapply returns_mono; [by apply IH|]. intros b ->. rewrite <- is_one by done. split; [intros [?|?]; [done|by right; right]|].
      assert (forall z, z * z = 1 -> x ≡[p] z -> x' = 1) as Hsq. { intros z Hz H. apply is_one; [done|]. by rewrite Ex', H, Hz. }
      intros [H|[H|H]]; [by left; apply (Hsq 1)|by left; apply (Hsq (-1))|by right].
Qed.

(** The test of one base. *)
Lemma WitnessFunction_spec a d s : 0 <= a < 2 ^ 64 -> 0 <= d < 2 ^ 64 -> returns (WitnessFunction a d s p) (fun b => b = false <-> strong a d s p).
Proof using Hp.
  intros Ha Hd. unfold WitnessFunction. rewrite (ModExp_spec W) by (unfold W; lia). rewrite bind_ok.
  eapply returns_mono; [apply witness_loop_spec, Z.mod_pos_bound; lia|]. intros b ->. unfold strong, hits. rewrite eqm_mod.
  assert (forall r, ((a ^ d) mod p) ^ 2 ^ Z.of_nat r ≡[p] a ^ (d * 2 ^ Z.of_nat r)) as H.
  { intros r. rewrite (eqm_pow_nonneg p _ (a ^ d)) by (first [apply eqm_mod|apply Z.pow_nonneg; lia]). by rewrite <- Z.pow_mul_r by (try apply Z.pow_nonneg; lia). }
  by setoid_rewrite H.
Qed.
End Witness.

(** A prime has only strong bases. *)
Lemma prime_strong p a d s : Z.prime p -> 2 < p -> 0 < d -> p - 1 = 2 ^ Z.of_nat s * d -> ~ a ≡[p] 0 -> strong a d s p.
Proof.
  intros Hp Hp2 Hd E Ha. pose proof (fermat p Hp a Ha) as HF. rewrite E, Z.mul_comm in HF. clear E.
  revert HF. induction s as [|s IH]; intros HF; [left; by rewrite Z.mul_1_r in HF|].
  rewrite Nat2Z.inj_succ, Z.pow_succ_r, (Z.mul_comm 2), Z.mul_assoc, Z.pow_mul_r, Z.pow_2_r in HF by (try apply Z.mul_nonneg_nonneg; try apply Z.pow_nonneg; lia).
  destruct (sqrt_one p Hp _ HF) as [H|H].
  - destruct (IH H) as [|(r & Hr & Er)]; [by left|]. right. exists r. split; [lia|done].
  - right. exists s. split; [lia|done].
Qed.

(** ** The generator of random numbers

    A number that [RNG] returns is below the bound; that it returns one is an
    assumption on what the generator draws. *)
Section Random.
Context {G : Type} (draw : Z -> Z -> G -> Z * G) (fuel : nat).
Definition fair : Prop := forall n g, 0 < n < 2 ^ 64 -> exists r, RNG draw fuel n g = Ok r.

Lemma RNG_range n g r : RNG draw fuel n g = Ok r -> 0 <= r.1 < n.
Proof using Type.
  unfold RNG. generalize fuel. intros f. revert g. induction f as [|f IH]; intros g; cbn [RNG_loop]; [done|].
  destruct (Z.ltb_spec (attempt draw n g).1 n) as [H|H]; [|apply IH]. intros [= <-]. split; [|done]. apply Z.mod_pos_bound. done.
Qed.

Lemma RNG_fair n g : fair -> 0 < n < 2 ^ 64 -> returns (RNG draw fuel n g) (fun r => 0 <= r.1 < n).
Proof using Type. intros Hf Hn. destruct (Hf n g Hn) as [r E]. exists r. split; [done|]. by apply (RNG_range n g). Qed.

(** The bases that the rounds of a test draw. *)
Fixpoint drawn (niter : nat) (p : Z) (g : G) : list Z :=
  match niter with
  | O => []
  | S niter' => match RNG draw fuel (p - 3) g with Ok r => (r.1 + 2) :: drawn niter' p r.2 | Throw _ => [] end
  end.

Section Test.
Context (Hfair : fair).

Lemma rounds_spec p d s niter : 5 <= p < 2 ^ 63 -> 0 <= d < 2 ^ 64 -> forall g,
  returns (rounds draw fuel niter d s p g) (fun r => r.1 = true <-> Forall (fun a => 2 <= a <= p - 2 /\ strong a d s p) (drawn niter p g)).
Proof using Hfair.
  intros Hp Hd. induction niter as [|niter IH]; intros g; cbn [rounds drawn]; [apply returns_ok; by split; [constructor|]|].
  unfold Sub, SubFast. cbn [NATIVEINT_DO_CHECKS]. rewrite (wrap_small W) by (unfold W; lia).
  destruct (RNG_fair (p - 3) g Hfair ltac:(lia)) as (r & -> & Hr). rewrite bind_ok. rewrite (ModAdd_spec W) by (unfold W; lia). rewrite bind_ok, Z.mod_small by lia.
  destruct (WitnessFunction_spec p ltac:(lia) (r.1 + 2) d s ltac:(lia) Hd) as ([|] & -> & Hw); rewrite bind_ok.
  - apply returns_ok. cbn [fst]. split; [done|]. intros H. apply Forall_inv in H as [_ H]. by apply Hw in H.
  - eapply returns_mono; [apply IH|]. intros b ->. rewrite Forall_cons. split; [|tauto]. intros H. split; [|done]. split; [lia|]. by apply Hw.
Qed.

Lemma prime_bases p d s niter : Z.prime p -> 2 < p -> 0 < d -> p - 1 = 2 ^ Z.of_nat s * d -> forall g, Forall (fun a => 2 <= a <= p - 2 /\ strong a d s p) (drawn niter p g).
Proof using Type.
  intros Hp Hp2 Hd E. induction niter as [|niter IH]; intros g; cbn [drawn]; [constructor|]. destruct (RNG draw fuel (p - 3) g) as [r|] eqn:Er; [|constructor].
  apply RNG_range in Er. constructor; [|apply IH]. split; [lia|]. apply prime_strong; try done. apply small_not_zero; [done|lia].
Qed.

(** The decomposition of [p - 1]. *)
Abbreviation ds p := (odd_part 64 (p - 1) 0).

Lemma ds_spec p : 2 <= p < 2 ^ 63 -> 0 < (ds p).1 < 2 ^ 64 /\ p - 1 = 2 ^ Z.of_nat (ds p).2 * (ds p).1.
Proof using Type.
  intros Hp. destruct (odd_part_spec 64 (p - 1) 0 ltac:(lia)) as (_ & H1 & _ & H2). rewrite Nat.sub_0_r in H2. split; [|done].
  assert (0 < 2 ^ Z.of_nat (ds p).2) by (apply Z.pow_pos_nonneg; lia). assert (1 * (ds p).1 <= 2 ^ Z.of_nat (ds p).2 * (ds p).1) by (apply Z.mul_le_mono_nonneg_r; lia). lia.
Qed.

Lemma MillerRabin_spec p niter g : 0 <= p < 2 ^ 63 ->
  returns (MillerRabinPrimalityTest draw fuel p niter g) (fun r =>
    (Z.prime p -> r.1 = true) /\
    (r.1 = true -> (p = 2 \/ p = 3 \/ p = 5) \/ (7 <= p /\ Z.odd p = true /\ Forall (fun a => 2 <= a <= p - 2 /\ strong a (ds p).1 (ds p).2 p) (drawn niter p g)))).
Proof using Hfair.
  intros Hp. unfold MillerRabinPrimalityTest. destruct (Z.eqb_spec p 2), (Z.eqb_spec p 3), (Z.eqb_spec p 5); cbn [orb]; try (apply returns_ok; cbn [fst]; split; [done|]; intros _; left; lia).
  destruct ((p <? 2) || (p mod 2 =? 0)) eqn:E.
  - apply returns_ok. cbn [fst]. split; [|done]. intros Hpr. exfalso. pose proof (Z.prime_ge_2 p Hpr). apply orb_prop in E as [E%Z.ltb_lt|E%Z.eqb_eq]; [lia|].
    destruct Hpr as [_ H']. apply (H' 2 ltac:(lia)). by apply Z.mod_divide.
  - apply orb_false_elim in E as [E1%Z.ltb_ge E2%Z.eqb_neq]. assert (Z.odd p = true) as Ho by (rewrite Zodd_mod; apply Z.eqb_eq; pose proof (Z.mod_pos_bound p 2); lia).
    assert (7 <= p). { destruct (Z.eq_dec p 4) as [->|]; [done|]. destruct (Z.eq_dec p 6) as [->|]; [done|]. lia. }
    unfold Sub, SubFast. cbn [NATIVEINT_DO_CHECKS]. rewrite (wrap_small W) by (unfold W; lia). destruct (ds_spec p ltac:(lia)) as [H1 H2].
    eapply returns_mono; [apply rounds_spec; lia|]. intros r Hr. split; [|intros Ht; right; split; [done|split; [done|]]; by apply Hr].
    intros Hpr. apply Hr. apply prime_bases; (done || lia).
Qed.

Lemma is_prime_spec p g : 0 <= p < 2 ^ 63 -> returns (is_prime draw fuel p g) (fun r => Z.prime p -> r.1 = true).
Proof using Hfair. intros Hp. eapply returns_mono; [by apply MillerRabin_spec|]. by intros r [H _]. Qed.

(** ** The searches for primes *)
Lemma first_loop_spec m q' : 0 < m < 2 ^ 62 -> Z.prime q' -> forall n q g j, q' = q + Z.of_nat j * m -> (j < n)%nat -> 0 < q -> q' < 2 ^ 62 ->
  returns (first_loop draw fuel n q m g) (fun r => exists i, (i <= j)%nat /\ r.1 = q + Z.of_nat i * m /\ forall i', (i' < i)%nat -> ~ Z.prime (q + Z.of_nat i' * m)).
Proof using Hfair.
  intros Hm Hq'. induction n as [|n IH]; intros q g j E Hj Hq Hb; [lia|]. cbn [first_loop]. assert (0 <= Z.of_nat j * m) by (apply Z.mul_nonneg_nonneg; lia).
  destruct (is_prime_spec q g ltac:(lia)) as (t & -> & Ht). rewrite bind_ok. destruct t.1 eqn:Et.
  - apply returns_ok. cbn [fst]. exists 0%nat. split; [lia|]. split; [lia|]. lia.
  - destruct j as [|j]; [rewrite Z.mul_0_l, Z.add_0_r in E; subst q'; discriminate (Ht Hq')|]. rewrite (wrap_small W) by (unfold W; lia). rewrite (proj2 (Z.ltb_ge _ _)) by lia.
    eapply returns_mono; [apply (IH _ t.2 j); lia|]. intros r (i & Hi & Er & Hn). exists (S i). split; [lia|]. split; [lia|].
    intros [|i'] Hi'; [rewrite Z.mul_0_l, Z.add_0_r; intros Hpr; discriminate (Ht Hpr)|]. replace (q + _) with (q + m + Z.of_nat i' * m) by lia. apply Hn. lia.
Qed.

Lemma first_candidate_spec nBits m : 0 <= nBits <= 60 -> 0 < m < 2 ^ 61 ->
  returns (first_candidate nBits m) (fun q => 2 ^ nBits < q <= 2 ^ nBits + m /\ q ≡[m] 1 /\ forall x, x ≡[m] 1 -> 2 ^ nBits < x -> exists j, x = q + Z.of_nat j * m).
Proof using Type.
  intros Hn Hm. unfold first_candidate. assert (0 < 2 ^ nBits <= 2 ^ 60) as Hp by (split; [apply Z.pow_pos_nonneg|apply Z.pow_le_mono_r]; lia).
  rewrite Z.shiftl_mul_pow2, Z.mul_1_l, (wrap_small W (2 ^ nBits)), umod_spec, bind_ok by (unfold W; lia). set (N := 2 ^ nBits) in *. pose proof (Z.mod_pos_bound N m ltac:(lia)) as Hr.
  pose proof (Z.div_mod N m ltac:(lia)) as Ed. set (r := N mod m) in *. set (q := if 0 <? r then N + 1 + (m - r) else N + 1).
  assert ((if 0 <? r then wrap W (wrap W (N + 1) + wrap W (m - r)) else wrap W (N + 1)) = q) as ->.
  { rewrite (wrap_small W (N + 1)), (wrap_small W (m - r)) by (unfold W; lia). unfold q. destruct (0 <? r); [apply wrap_small; unfold W; lia|done]. }
  assert (exists c, q = 1 + c * m /\ N < q <= N + m) as (c & Eq & Hq).
  { unfold q. destruct (Z.ltb_spec 0 r); [exists (N / m + 1)|exists (N / m)]; lia. }
  rewrite (proj2 (Z.ltb_ge _ _)) by lia. apply returns_ok. split; [done|]. split; [apply eqm_iff; by exists c|].
  intros x [d ->]%eqm_iff Hx. exists (Z.to_nat (d - c)). assert (c <= d); [|rewrite Z2Nat.id; lia]. assert (d > c - 1); [|lia].
  apply Z.lt_gt. apply Z.mul_lt_mono_pos_r with m; lia.
Qed.

Lemma FirstPrime_spec steps nBits m q' g : 0 <= nBits <= 60 -> 0 < m < 2 ^ 61 -> Z.prime q' -> q' ≡[m] 1 -> 2 ^ nBits < q' < 2 ^ 62 -> q' - 2 ^ nBits <= Z.of_nat steps * m ->
  returns (FirstPrime draw fuel steps nBits m g) (fun r => r.1 ≡[m] 1 /\ 2 ^ nBits < r.1 <= q' /\ forall x, Z.prime x -> x ≡[m] 1 -> 2 ^ nBits < x -> r.1 <= x).
Proof using Hfair.
  intros Hn Hm Hq' E Hb Hsteps. unfold FirstPrime. change (MAX_MODULUS_SIZE W) with 60. rewrite (proj2 (Z.ltb_ge _ _)) by lia.
  destruct (first_candidate_spec nBits m Hn Hm) as (q & -> & Hq & Eq & Hc). rewrite bind_ok. destruct (Hc q' E ltac:(lia)) as [j Ej].
  assert (j < steps)%nat as Hj. { apply Nat2Z.inj_lt. apply Z.mul_lt_mono_pos_r with m; lia. }
  assert (0 < 2 ^ nBits) by (apply Z.pow_pos_nonneg; lia).
  destruct (first_loop_spec m q' ltac:(lia) Hq' steps q g j Ej Hj ltac:(lia) ltac:(lia)) as (r & -> & i & Hi & Er & Hfirst). apply returns_ok.
  assert (Z.of_nat i * m <= Z.of_nat j * m) by (apply Z.mul_le_mono_nonneg_r; lia). assert (0 <= Z.of_nat i * m) by (apply Z.mul_nonneg_nonneg; lia).
  split; [rewrite Er, eqm_multiple; done|]. split; [lia|]. intros x Hx Ex Hxb. destruct (Hc x Ex Hxb) as [jx Ejx].
  destruct (decide (jx < i)%nat) as [Hlt|]; [rewrite Ejx in Hx; by apply Hfirst in Hlt|]. assert (Z.of_nat i * m <= Z.of_nat jx * m) by (apply Z.mul_le_mono_nonneg_r; lia). lia.
Qed.

Lemma previous_loop_spec m q0 q' : 0 < m -> Z.prime q' -> forall n q g j, q' = q - Z.of_nat j * m -> (j < n)%nat -> q <= q0 < 2 ^ 62 ->
  returns (previous_loop draw fuel n q0 q m g) (fun r => exists i, (i <= j)%nat /\ r.1 = q - Z.of_nat i * m /\ forall i', (i' < i)%nat -> ~ Z.prime (q - Z.of_nat i' * m)).
Proof using Hfair.
  intros Hm Hq'. pose proof (Z.prime_ge_2 q' Hq'). induction n as [|n IH]; intros q g j E Hj Hb; [lia|]. cbn [previous_loop]. assert (0 <= Z.of_nat j * m) by (apply Z.mul_nonneg_nonneg; lia).
  destruct (is_prime_spec q g ltac:(lia)) as (t & -> & Ht). rewrite bind_ok. destruct t.1 eqn:Et.
  - apply returns_ok. cbn [fst]. exists 0%nat. split; [lia|]. split; [lia|]. lia.
  - destruct j as [|j]; [rewrite Z.mul_0_l, Z.sub_0_r in E; subst q'; discriminate (Ht Hq')|]. assert (0 <= Z.of_nat j * m) by (apply Z.mul_nonneg_nonneg; lia).
    unfold Sub, SubFast. cbn [NATIVEINT_DO_CHECKS]. rewrite (wrap_small W) by (unfold W; lia). rewrite (proj2 (Z.ltb_ge _ _)) by lia.
    eapply returns_mono; [apply (IH _ t.2 j); lia|]. intros r (i & Hi & Er & Hn). exists (S i). split; [lia|]. split; [lia|].
    intros [|i'] Hi'; [rewrite Z.mul_0_l, Z.sub_0_r; intros Hpr; discriminate (Ht Hpr)|]. replace (q - _) with (q - m - Z.of_nat i' * m) by lia. apply Hn. lia.
Qed.

Lemma PreviousPrime_spec steps q m q' g : 0 < m -> Z.prime q' -> q' ≡[m] q -> q' < q < 2 ^ 62 -> q - q' <= Z.of_nat steps * m ->
  returns (PreviousPrime draw fuel steps q m g) (fun r => r.1 ≡[m] q /\ q' <= r.1 < q /\ forall x, Z.prime x -> x ≡[m] q -> x < q -> x <= r.1).
Proof using Hfair.
  intros Hm Hq' E Hb Hsteps. unfold PreviousPrime. pose proof (Z.prime_ge_2 q' Hq').
  assert (forall x, x ≡[m] q -> x < q -> exists j, x = q - m - Z.of_nat j * m) as Hc.
  { intros x [c ->]%eqm_iff Hx. exists (Z.to_nat (- c - 1)). assert (c < 0) by (apply (Z.mul_lt_mono_pos_r m); lia). rewrite Z2Nat.id; lia. }
  destruct (Hc q' E ltac:(lia)) as [j Ej]. assert (0 <= Z.of_nat j * m) by (apply Z.mul_nonneg_nonneg; lia).
  assert (j < steps)%nat as Hj. { apply Nat2Z.inj_lt. apply Z.mul_lt_mono_pos_r with m; lia. }
  unfold Sub, SubFast. cbn [NATIVEINT_DO_CHECKS]. rewrite (wrap_small W) by (unfold W; lia).
  eapply returns_mono; [apply (previous_loop_spec m q q' Hm Hq' steps (q - m) g j Ej Hj); lia|]. intros r (i & Hi & Er & Hfirst).
  assert (Z.of_nat i * m <= Z.of_nat j * m) by (apply Z.mul_le_mono_nonneg_r; lia). assert (0 <= Z.of_nat i * m) by (apply Z.mul_nonneg_nonneg; lia).
  split; [rewrite Er; apply eqm_iff; exists (-1 - Z.of_nat i); ring|]. split; [lia|]. intros x Hx Ex Hxb. destruct (Hc x Ex Hxb) as [jx Ejx].
  destruct (decide (jx < i)%nat) as [Hlt|]; [rewrite Ejx in Hx; by apply Hfirst in Hlt|]. assert (Z.of_nat i * m <= Z.of_nat jx * m) by (apply Z.mul_le_mono_nonneg_r; lia). lia.
Qed.
End Test.

(** ** Generators

    The set of factors grows; for an even number it contains 2. *)
Lemma is_prime_inv n g t : is_prime draw fuel n g = Ok t -> t.1 = true -> n = 2 \/ n mod 2 <> 0.
Proof using Type.
  unfold is_prime, MillerRabinPrimalityTest. destruct (Z.eqb_spec n 2) as [->|_]; [by left|]. destruct (Z.eqb_spec n 3) as [->|_]; [by right|].
  destruct (Z.eqb_spec n 5) as [->|_]; [by right|]. cbn [orb].
  destruct ((n <? 2) || (n mod 2 =? 0)) eqn:E; [by intros [= <-]|]. apply orb_false_elim in E as [_ E%Z.eqb_neq]. by right.
Qed.

Lemma PrimeFactorize_inv depth : forall n F g r, PrimeFactorize draw fuel depth n F g = Ok r -> F ⊆ r.1 /\ (n <> 0 -> n mod 2 = 0 -> 2 ∈ r.1).
Proof using Type.
  induction depth as [|depth IH]; intros n F g r; cbn [PrimeFactorize]; [done|].
  destruct (Z.eqb_spec n 0) as [->|Hn0]; cbn [orb]; [intros [= <-]; by split|]. destruct (Z.eqb_spec n 1) as [->|Hn1]; [intros [= <-]; by split|].
  destruct (is_prime draw fuel n g) as [t|] eqn:Et; [|done]. rewrite bind_ok. destruct t.1 eqn:Eb.
  - intros [= <-]. cbn [fst]. split; [apply union_subseteq_r|]. intros _ He. destruct (is_prime_inv n g t Et Eb) as [->|]; [by apply elem_of_union_l, elem_of_singleton|done].
  - destruct (PollardRhoFactorization draw fuel n t.2) as [d|] eqn:Ed; [|done]. rewrite bind_ok. destruct (PrimeFactorize draw fuel depth d.1 F d.2) as [f|] eqn:Ef; [|done]. rewrite bind_ok.
    destruct (DividedBy n d.1) as [q|]; [|done]. rewrite bind_ok. intros Er. pose proof (IH _ _ _ _ Ef) as [H1 H2]. pose proof (IH _ _ _ _ Er) as [H3 _].
    split; [by etransitivity|]. intros _ He. apply H3, H2; unfold PollardRhoFactorization in Ed; rewrite (proj2 (Z.eqb_eq _ _) He) in Ed; by injection Ed as <-.
Qed.

Lemma is_generator_inv factors x order m : is_generator factors x order m = Ok true ->
  forall r, r ∈ factors -> exists y, ModExp W x (order / r) m = Ok y /\ y <> 1.
Proof using Type.
  induction factors as [|f l IH]; intros H r Hr; [by apply elem_of_nil in Hr|]. cbn [is_generator] in H. unfold DividedBy in H. destruct (f =? 0); [done|]. rewrite bind_ok in H.
  destruct (ModExp W x (order / f) m) as [y|] eqn:Ey; [|done]. rewrite bind_ok in H. destruct (Z.eqb_spec y 1); [done|].
  apply elem_of_cons in Hr as [->|Hr]; [by exists y|by apply IH].
Qed.

Lemma generator_loop_inv factors q : forall tries g r, generator_loop draw fuel tries factors q g = Ok r -> 2 < q < 2 ^ 63 ->
  0 < r.1 < q /\ is_generator factors r.1 (q - 1) q = Ok true.
Proof using Type.
  induction tries as [|tries IH]; intros g r H Hq; [done|]. cbn [generator_loop] in H. unfold Sub, SubFast in H. cbn [NATIVEINT_DO_CHECKS] in H. rewrite !(wrap_small W) in H by (unfold W; lia).
  destruct (RNG draw fuel (q - 2) g) as [x|] eqn:Ex; [|done]. rewrite bind_ok in H. apply RNG_range in Ex. unfold Add, AddFast in H. cbn [NATIVEINT_DO_CHECKS] in H.
  rewrite (wrap_small W), bind_ok in H by (unfold W; lia). destruct (is_generator factors (1 + x.1) (q - 1) q) as [b|] eqn:Eb; [|done]. rewrite bind_ok in H. destruct b; [|by apply (IH x.2)].
  injection H as <-. cbn [fst]. split; [lia|done].
Qed.

Lemma sorted_elements_spec (s : gset Z) x : x ∈ sorted_elements s <-> x ∈ s.
Proof using Type. unfold sorted_elements. rewrite merge_sort_Permutation. apply elem_of_elements. Qed.

Lemma FindGenerator_inv q g r : Z.prime q -> 2 < q < 2 ^ 63 -> FindGenerator draw fuel q g = Ok r -> 0 < r.1 < q /\ r.1 ^ ((q - 1) / 2) ≡[q] -1.
Proof using Type.
  intros Hp Hq. unfold FindGenerator, Sub, SubFast. cbn [NATIVEINT_DO_CHECKS]. rewrite (wrap_small W) by (unfold W; lia).
  destruct (PrimeFactorize draw fuel fuel (q - 1) ∅ g) as [f|] eqn:Ef; [|done]. rewrite bind_ok. intros H. destruct (generator_loop_inv _ _ _ _ _ H Hq) as [Hx Hg]. split; [done|].
  destruct (prime_odd q Hp ltac:(lia)) as [h Eh]. assert ((q - 1) mod 2 = 0) as He by (rewrite Eh; apply Z.mod_mul; lia).
  destruct (PrimeFactorize_inv _ _ _ _ _ Ef) as [_ H2]. destruct (is_generator_inv _ _ _ _ Hg 2) as (y & Ey & Hy); [apply sorted_elements_spec, H2; [lia|done]|].
  rewrite (ModExp_spec W) in Ey by (unfold W; first [lia|split; [apply Z.div_pos|apply Z.div_lt_upper_bound]; lia]). injection Ey as <-.
  apply half_power; [done|lia|by apply small_not_zero|]. intros E. apply Hy. unfold eqm in E. by rewrite (Z.mod_small 1) in E by lia.
Qed.
End Random.

(** ** Roots of unity *)
Lemma GetTotientList_spec n : 1 <= n < 2 ^ 64 -> GetTotientList n = Ok (filter (fun i => Z.gcd i n = 1) (seqZ 1 (n - 1))).
Proof.
  intros Hn. apply returns_eq. unfold GetTotientList.
  replace (seqZ 1 (n - 1)) with (seqZ 1 (Z.of_nat (Z.to_nat (n - 1)))) by (f_equal; lia).
  apply (returns_for (fun j (l : list Z) => l = filter (fun i => Z.gcd i n = 1) (seqZ 1 (Z.of_nat j)))); [done|].
  intros j l Hj ->. rewrite GreatestCommonDivisor_spec, bind_ok by lia. apply returns_ok. rewrite seqZ_S, filter_app. replace (Z.of_nat j + 1) with (1 + Z.of_nat j) by lia.
  destruct (Z.eqb_spec (Z.gcd (1 + Z.of_nat j) n) 1) as [E|E]; [by rewrite filter_cons_True|by rewrite filter_cons_False, app_nil_r].
Qed.

(** For a power of two they are the odd numbers. *)
Lemma coprime_pow2 i k : Z.gcd i (2 ^ Z.of_nat (S k)) = 1 <-> Z.Odd i.
Proof.
  destruct (Z.Even_or_Odd i) as [[h ->]|[h ->]].
  - split; [|by intros [c Hc]; lia]. rewrite Nat2Z.inj_succ, Z.pow_succ_r, Z.gcd_mul_mono_l by lia. pose proof (Z.gcd_nonneg h (2 ^ Z.of_nat k)). cbn [Z.abs]. lia.
  - split; [intros _; by exists h|intros _]. rewrite Z.gcd_comm. induction (S k) as [|j IH]; [apply Z.gcd_1_l|]. rewrite Nat2Z.inj_succ, Z.pow_succ_r by lia.
    apply Z.coprime_mul_l; [|exact IH]. red. rewrite <- (Z.gcd_mod _ 2) by lia. rewrite (Z.mul_comm 2 h), Z.add_comm, Z.mod_add by lia. done.
Qed.

Section Roots.
Context {q : Z} {Hq : NativeModulus W q} (r : Z) (Hr : reduced q r).
Abbreviation pw i := (r ^ i mod q).

Lemma mul_mu x : reduced q x -> ModMulEq_mu W x r q (mu_of W q) = Ok ((x * r) mod q).
Proof using Hq Hr.
  intros Hx. pose proof (nm_bounds (w := W) (m := q)) as Bq. pose proof (barrett_k W nm_width q nm_barrett) as (H1 & H2 & H3).
  assert (2 ^ GetMSB W q <= 2 ^ (2 * GetMSB W q + 2)) by (apply Z.pow_le_mono_r; lia). unfold reduced in *.
  apply (ModMul_mu_spec W); first [apply nm_barrett|unfold W in *; lia].
Qed.

Lemma pw_step i : 0 <= i -> (pw i * r) mod q = pw (i + 1).
Proof using Type. intros Hi. by rewrite Z.pow_add_r, Z.pow_1_r, Zmult_mod_idemp_l by lia. Qed.

Lemma power_steps_spec n i : 0 <= i -> power_steps n r q (mu_of W q) (pw i) = Ok (pw (i + Z.of_nat n)).
Proof using Hq Hr.
  intros Hi. apply returns_eq. apply (returns_for (fun j x => x = pw (i + Z.of_nat j))); [by rewrite Z.add_0_r|].
  intros j x _ ->. rewrite mul_mu by apply nm_mod. apply returns_ok. rewrite pw_step by lia. do 2 f_equal. lia.
Qed.

Lemma min_step_spec cur best i : 0 <= cur <= i -> i < 2 ^ 63 -> pw i <> 1 ->
  min_step r q (mu_of W q) (pw cur, best, cur) i = Ok (pw i, (if pw i <? best then pw i else best), i).
Proof using Hq Hr.
  intros Hc Hi Hne. unfold min_step, Sub, SubFast. cbn [NATIVEINT_DO_CHECKS fst snd]. rewrite (wrap_small W) by (unfold W; lia).
  rewrite power_steps_spec, bind_ok by lia. rewrite Z2Nat.id by lia. replace (cur + (i - cur)) with i by lia. by rewrite (proj2 (Z.eqb_neq _ _) Hne), andb_true_r.
Qed.

(** The fold keeps the smallest power that it has seen. *)
Lemma min_fold_spec l : forall cur best, StronglySorted Z.lt (cur :: l) \/ (exists l', l = cur :: l' /\ StronglySorted Z.lt l) -> Forall (fun i => i < 2 ^ 63 /\ pw i <> 1) l -> 0 <= cur ->
  returns (foldlM (min_step r q (mu_of W q)) (pw cur, best, cur) l)
    (fun s => (s.1.2 = best \/ exists i, i ∈ l /\ s.1.2 = pw i) /\ s.1.2 <= best /\ forall i, i ∈ l -> s.1.2 <= pw i).
Proof using Hq Hr.
  induction l as [|i l IH]; intros cur best Hs Hl Hc; cbn [foldlM].
  - apply returns_ok. cbn [fst snd]. split; [by left|]. split; [done|]. intros i Hi. by apply elem_of_nil in Hi.
  - apply Forall_cons in Hl as [[Hi Hne] Hl]. assert (cur <= i) as Hle.
    { destruct Hs as [Hs|(l' & [= -> _] & _)]; [|done]. apply StronglySorted_inv in Hs as [_ Hs]. apply Forall_inv in Hs. lia. }
    assert (StronglySorted Z.lt (i :: l)) as Hs'. { destruct Hs as [Hs|(l' & _ & Hs)]; [by apply StronglySorted_inv in Hs as [Hs _]|done]. }
    rewrite min_step_spec, bind_ok by done.
    eapply returns_mono; [apply (IH i _ (or_introl Hs') Hl); lia|]. intros s (H1 & H2 & H3).
    assert (s.1.2 <= best /\ s.1.2 <= pw i) as [H4 H5] by (destruct (Z.ltb_spec (pw i) best); lia).
    split; [|split; [done|]].
    + destruct H1 as [H1|(x & Hx & H1)]; [|right; exists x; split; [by right|done]]. destruct (pw i <? best); [right; exists i; split; [by left|done]|by left].
    + intros x [->|Hx]%elem_of_cons; [done|by apply H3].
Qed.

Lemma min_root_spec l : StronglySorted Z.lt (1 :: l) -> Forall (fun i => i < 2 ^ 63 /\ pw i <> 1) (1 :: l) ->
  returns (min_root r q (1 :: l)) (fun x => (exists i, i ∈ 1 :: l /\ x = pw i) /\ forall i, i ∈ 1 :: l -> x <= pw i).
Proof using Hq Hr.
  intros Hs Hl. unfold min_root. change (ComputeMu W q) with (ComputeMu_ W q). rewrite nm_mu, bind_ok. pose proof (nm_bounds (w := W) (m := q)).
  rewrite mul_mu, bind_ok by (split; lia). rewrite Z.mul_1_l. assert (r mod q = pw 1) as -> by (by rewrite Z.pow_1_r).
  destruct (min_fold_spec (1 :: l) 1 (pw 1)) as (s & -> & H1 & H2 & H3); [right; by exists l|done|lia|]. rewrite bind_ok. apply returns_ok.
  split; [|done]. destruct H1 as [H1|]; [|done]. exists 1. split; [by left|done].
Qed.
End Roots.

(** The root that [RootOfUnity] returns is the smallest one: it does not depend
    on the generator that was found. *)
Lemma sorted_filter (P : Z -> Prop) `{!forall x, Decision (P x)} n : forall a, StronglySorted Z.lt (filter P (seqZ a (Z.of_nat n))).
Proof.
  induction n as [|n IH]; intros a; [constructor|]. rewrite seqZ_cons by lia. replace (Z.pred (Z.of_nat (S n))) with (Z.of_nat n) by lia.
  destruct (decide (P a)); [rewrite filter_cons_True by done|by rewrite filter_cons_False]. constructor; [apply IH|].
  apply Forall_forall. intros x [_ Hx%elem_of_seqZ]%list_elem_of_filter. lia.
Qed.

Lemma odd_list k : exists l, filter (fun i => Z.gcd i (2 ^ Z.of_nat (S k)) = 1) (seqZ 1 (2 ^ Z.of_nat (S k) - 1)) = 1 :: l /\ StronglySorted Z.lt (1 :: l).
Proof.
  set (P := fun i => Z.gcd i (2 ^ Z.of_nat (S k)) = 1). assert (2 <= 2 ^ Z.of_nat (S k)) as Hm. { rewrite Nat2Z.inj_succ, Z.pow_succ_r by lia. pose proof (Z.pow_pos_nonneg 2 (Z.of_nat k)). lia. }
  set (m := 2 ^ Z.of_nat (S k)) in *. assert (StronglySorted Z.lt (filter P (seqZ 1 (m - 1)))) as Hs by (rewrite <- (Z2Nat.id (m - 1)) by lia; apply sorted_filter).
  rewrite seqZ_cons in * by lia. rewrite filter_cons_True in * by (unfold P; apply Z.gcd_1_l). by eexists.
Qed.

Section Root.
Context {G : Type} (draw : Z -> Z -> G -> Z * G) (fuel : nat).

Lemma RootOfUnity_spec {q} {Hq : NativeModulus W q} k tries g gen : Z.prime q -> q < 2 ^ 63 -> (k < 31)%nat -> (2 ^ Z.of_nat (S k) | q - 1) ->
  FindGenerator draw fuel q g = Ok gen -> (0 < tries)%nat ->
  returns (RootOfUnity draw fuel tries (2 ^ Z.of_nat (S k)) q g) (fun r =>
    reduced q r.1 /\ r.1 ^ 2 ^ Z.of_nat k ≡[q] -1 /\ forall y, reduced q y -> y ^ 2 ^ Z.of_nat k ≡[q] -1 -> r.1 <= y).
Proof.
  intros Hp Hb Hk [c Ec] Hgen Htries. destruct tries as [|tries]; [lia|]. pose proof (nm_bounds (w := W) (m := q)) as Bq. set (m := 2 ^ Z.of_nat (S k)) in *.
  assert (m = 2 ^ Z.of_nat k * 2) as Em by (unfold m; rewrite Nat2Z.inj_succ, Z.pow_succ_r by lia; ring). assert (0 < 2 ^ Z.of_nat k <= 2 ^ 30) as Hk2 by (split; [apply Z.pow_pos_nonneg|apply Z.pow_le_mono_r]; lia).
  destruct (FindGenerator_inv draw fuel q g gen Hp ltac:(lia) Hgen) as [Hx Hhalf]. cbn [RootOfUnity].
  assert (Sub W q 1 = c * m) as -> by (rewrite <- Ec; unfold Sub, SubFast; cbn [NATIVEINT_DO_CHECKS]; apply wrap_small; unfold W; lia).
  rewrite umod_spec, Z.mod_mul, bind_ok by lia. cbn [Z.eqb negb]. rewrite Hgen, bind_ok. unfold DividedBy. rewrite (proj2 (Z.eqb_neq m 0)), bind_ok, Z.div_mul by lia.
  assert (0 <= c <= q) as Hc. { split; [apply (Z.mul_le_mono_pos_r _ _ m); lia|]. assert (c * 1 <= c * m) by (apply Z.mul_le_mono_nonneg_l; [apply (Z.mul_le_mono_pos_r _ _ m)|]; lia). lia. }
  rewrite (ModExp_spec W), bind_ok by (unfold W; lia). set (r := (gen.1 ^ c) mod q). assert (reduced q r) as Hr by apply nm_mod.
  assert (r ^ 2 ^ Z.of_nat k ≡[q] -1) as Hroot.
  { unfold r. rewrite (eqm_pow_nonneg q _ (gen.1 ^ c)) by (first [apply eqm_mod|lia]). rewrite <- Z.pow_mul_r by lia. rewrite <- Hhalf, Ec, Em. apply eqm_refl. f_equal.
    symmetry. rewrite Z.mul_assoc. apply Z.div_mul. lia. }
  assert (r <> 1) as Hr1. { intros E. rewrite E, Z.pow_1_l in Hroot by lia. by apply (one_not_opposite q ltac:(lia)). }
  rewrite (proj2 (Z.eqb_neq _ _) Hr1), bind_ok. cbn [fst snd]. rewrite GetTotientList_spec, bind_ok by lia.
  destruct (odd_list k) as (l & El & Hl). fold m in El. rewrite El.
  assert (forall i, i ∈ 1 :: l <-> 0 < i < m /\ Z.Odd i) as Hmem.
  { intros i. rewrite <- El, list_elem_of_filter, elem_of_seqZ. unfold m at 1. rewrite coprime_pow2. split; [intros [? ?]; split; [lia|done]|intros [? ?]; split; [done|lia]]. }
  assert (forall i, Z.Odd i -> 0 < i -> (r ^ i mod q) ^ 2 ^ Z.of_nat k ≡[q] -1) as Hodd.
  { intros i Ho Hi. rewrite (eqm_pow_nonneg q _ (r ^ i)) by (first [apply eqm_mod|lia]). apply (odd_power_is_root q r k Hroot); [lia|done]. }
  destruct (min_root_spec r Hr l Hl) as (x & -> & (i & Hi & ->) & Hmin).
  { apply Forall_forall. intros i [Hi Ho]%Hmem. split; [lia|]. intros E. specialize (Hodd i Ho ltac:(lia)). rewrite E, Z.pow_1_l in Hodd by lia. by apply (one_not_opposite q ltac:(lia)). }
  rewrite bind_ok. apply returns_ok. cbn [fst snd]. apply Hmem in Hi as [Hi Ho]. split; [apply nm_mod|]. split; [apply Hodd; [done|lia]|].
  intros y Hy Ey. destruct (root_is_odd_power q Hp ltac:(lia) r k Hroot y Ey) as (j & Hj & Hjo & Ej). fold m in Hj.
  apply eqm_canon in Ej; [|done]. rewrite Ej. by apply Hmin, Hmem.
Qed.
End Root.
