(* ===== verification/Negacyclic.v ===== *)
(** * Polynomials modulo [x^n + 1]

    Values of coefficient lists, the negacyclic product and the fact both the
    matrix scheme and the number theoretic transform rely on: at a root of
    [x^n + 1] the value of the product is the product of the values. *)

From Stdlib Require Import ZArith Lia.
From stdpp Require Import base tactics numbers list.
From S2P Require Import Prelude.

(** The value of the first [n] coefficients at [x]. *)
Definition peval (n : nat) (f : nat -> Z) (x : Z) : Z := sumZ n (fun j => f j * x ^ Z.of_nat j).

(** Row [i] of the matrix, as a polynomial, is [x^i * s(x)] at every root of
    [x^n + 1]. *)
Lemma MatrixA_row q (f : nat -> Z) n i x :
  (i < n)%nat -> x ^ Z.of_nat n ≡[q] -1 ->
  sumZ n (fun j => (if (j <? i)%nat then (- f (n - i + j)%nat) mod q else f (j - i)%nat) * x ^ Z.of_nat j) ≡[q]
  x ^ Z.of_nat i * sumZ n (fun t => f t * x ^ Z.of_nat t).
Proof.
  intros Hi Hx.
  rewrite (sumZ_split_at n i) by lia. rewrite (sumZ_split_at n (n - i) (fun t => f t * x ^ Z.of_nat t)) by lia.
  replace (n - (n - i))%nat with i by lia.
  rewrite Z.mul_add_distr_l, Z.add_comm, <- !sumZ_scale. apply eqm_add.
  - apply sumZ_eqm. intros j Hj. destruct (Nat.ltb_spec (i + j) i); [lia|].
    replace (i + j - i)%nat with j by lia. rewrite Nat2Z.inj_add, Z.pow_add_r by lia. apply eqm_refl. ring.
  - apply sumZ_eqm. intros j Hj. destruct (Nat.ltb_spec j i); [|lia]. rewrite eqm_mod.
    assert (x ^ Z.of_nat i * x ^ Z.of_nat (n - i + j) = x ^ Z.of_nat n * x ^ Z.of_nat j) as Ep.
    { rewrite <- !Z.pow_add_r by lia. f_equal. lia. }
    transitivity (f (n - i + j)%nat * (x ^ Z.of_nat n * x ^ Z.of_nat j)).
    + rewrite Hx. apply eqm_refl. ring.
    + rewrite <- Ep. apply eqm_refl. ring.
Qed.


(** Coefficient [j] of the product of [a] and [b] modulo [x^n + 1]. *)
Definition negacyclic (q : Z) (n : nat) (a b : nat -> Z) (j : nat) : Z :=
  sumZ n (fun i => a i * (if (j <? i)%nat then (- b (n - i + j)%nat) mod q else b (j - i)%nat)) mod q.

Lemma negacyclic_eval q n a b x :
  x ^ Z.of_nat n ≡[q] -1 -> peval n (negacyclic q n a b) x ≡[q] peval n a x * peval n b x.
Proof.
  intros Hx. unfold peval, negacyclic.
  transitivity (sumZ n (fun j => sumZ n (fun i => a i * ((if (j <? i)%nat then (- b (n - i + j)%nat) mod q else b (j - i)%nat) * x ^ Z.of_nat j)))).
  - apply sumZ_eqm. intros j Hj. rewrite eqm_mod, <- sumZ_scale_r. apply eqm_refl, sumZ_ext. intros. ring.
  - rewrite sumZ_swap, <- sumZ_scale_r. apply sumZ_eqm. intros i Hi. rewrite sumZ_scale.
    transitivity (a i * (x ^ Z.of_nat i * sumZ n (fun t => b t * x ^ Z.of_nat t))).
    + apply eqm_mul; [done|]. exact (MatrixA_row q b n i x Hi Hx).
    + apply eqm_refl. ring.
Qed.
