(* ===== verification/BitReverse.v ===== *)
(** * Bit reversal

    Models [reverse_byte], [shift_trick] and [ReverseBits] of
    [src/core/include/math/nbtheory.h], with the recursive reversal [bitrev]
    as the specification. *)

From Stdlib Require Import ZArith Lia.
From stdpp Require Import base tactics numbers list.
From S2P Require Import Prelude NativeInt.

(** The precomputed reversals of a byte. *)
Definition reverse_table : list Z := [
   0; 128; 64; 192; 32; 160; 96; 224; 16; 144; 80; 208; 48; 176; 112; 240;
   8; 136; 72; 200; 40; 168; 104; 232; 24; 152; 88; 216; 56; 184; 120; 248;
   4; 132; 68; 196; 36; 164; 100; 228; 20; 148; 84; 212; 52; 180; 116; 244;
   12; 140; 76; 204; 44; 172; 108; 236; 28; 156; 92; 220; 60; 188; 124; 252;
   2; 130; 66; 194; 34; 162; 98; 226; 18; 146; 82; 210; 50; 178; 114; 242;
   10; 138; 74; 202; 42; 170; 106; 234; 26; 154; 90; 218; 58; 186; 122; 250;
   6; 134; 70; 198; 38; 166; 102; 230; 22; 150; 86; 214; 54; 182; 118; 246;
   14; 142; 78; 206; 46; 174; 110; 238; 30; 158; 94; 222; 62; 190; 126; 254;
   1; 129; 65; 193; 33; 161; 97; 225; 17; 145; 81; 209; 49; 177; 113; 241;
   9; 137; 73; 201; 41; 169; 105; 233; 25; 153; 89; 217; 57; 185; 121; 249;
   5; 133; 69; 197; 37; 165; 101; 229; 21; 149; 85; 213; 53; 181; 117; 245;
   13; 141; 77; 205; 45; 173; 109; 237; 29; 157; 93; 221; 61; 189; 125; 253;
   3; 131; 67; 195; 35; 163; 99; 227; 19; 147; 83; 211; 51; 179; 115; 243;
   11; 139; 75; 203; 43; 171; 107; 235; 27; 155; 91; 219; 59; 187; 123; 251;
   7; 135; 71; 199; 39; 167; 103; 231; 23; 151; 87; 215; 55; 183; 119; 247;
   15; 143; 79; 207; 47; 175; 111; 239; 31; 159; 95; 223; 63; 191; 127; 255].
Definition reverse_byte (x : Z) : Z := reverse_table !!! Z.to_nat x.

Definition shift_trick : list Z := [0; 7; 6; 5; 4; 3; 2; 1].

(** A 32-bit pattern as an [int]. *)
Definition as_int (x : Z) : Z := if x <? 2 ^ 31 then x else x - 2 ^ 32.

(** [ReverseBits]: the number of bytes selects the case.  The bytes are
    promoted to [int]; with four of them the sign bit may be set, and the shift
    to the right then extends it before the result is converted to [usint].
    The result of the default case is [-1], converted the same way. *)
Definition ReverseBits (num msb : Z) : Z :=
  let msbb := Z.shiftr msb 3 + (if Z.land msb 7 =? 0 then 0 else 1) in
  let byte := fun i => reverse_byte (Z.land (Z.shiftr num (8 * i)) 255) in
  let shift := shift_trick !!! Z.to_nat (Z.land msb 7) in
  if msbb =? 1 then Z.shiftr (byte 0) shift
  else if msbb =? 2 then Z.shiftr (Z.lor (Z.shiftl (byte 0) 8) (byte 1)) shift
  else if msbb =? 3 then
    Z.shiftr (Z.lor (Z.lor (Z.shiftl (byte 0) 16) (Z.shiftl (byte 1) 8)) (byte 2)) shift
  else if msbb =? 4 then
    Z.shiftr (as_int (Z.lor (Z.lor (Z.lor (Z.shiftl (byte 0) 24) (Z.shiftl (byte 1) 16)) (Z.shiftl (byte 2) 8)) (byte 3))) shift
      mod 2 ^ 32
  else 2 ^ 32 - 1.

Example ReverseBits_11 : ReverseBits 6 11 = 768.
Proof. vm_compute. reflexivity. Qed.

(** ** Specification: the reversal of the [k] low bits *)
Fixpoint bitrev (k : nat) (x : Z) : Z :=
  match k with
  | O => 0
  | S k => (x mod 2) * 2 ^ Z.of_nat k + bitrev k (x / 2)
  end.

Lemma bitrev_range k x : 0 <= bitrev k x < 2 ^ Z.of_nat k.
Proof.
  revert x. induction k as [|k IH]; intros x; cbn [bitrev]; [lia|].
  specialize (IH (x / 2)). pose proof (Z.mod_pos_bound x 2 ltac:(lia)).
  rewrite Nat2Z.inj_succ, Z.pow_succ_r by lia. nia.
Qed.

(** The reversal of a concatenation. *)
Lemma bitrev_app a b x : bitrev (a + b) x = bitrev a x * 2 ^ Z.of_nat b + bitrev b (x / 2 ^ Z.of_nat a).
Proof.
  revert x. induction a as [|a IH]; intros x; cbn [bitrev Nat.add].
  - by rewrite Z.div_1_r.
  - rewrite IH, Nat2Z.inj_add, Z.pow_add_r, Nat2Z.inj_succ, Z.pow_succ_r, Z.div_div by lia. ring.
Qed.

Lemma bitrev_low k x : bitrev k (x mod 2 ^ Z.of_nat k) = bitrev k x.
Proof.
  revert x. induction k as [|k IH]; intros x; cbn [bitrev]; [done|].
  rewrite Nat2Z.inj_succ, Z.pow_succ_r by lia. rewrite Z.rem_mul_r by lia. f_equal.
  - f_equal. rewrite (Z.mul_comm 2), Z_mod_plus_full. by apply Z.mod_mod.
  - rewrite (Z.mul_comm 2), Z.div_add, Zmod_div, Z.add_0_l by lia. apply IH.
Qed.

Lemma bitrev_small a b x : 0 <= x < 2 ^ Z.of_nat a -> bitrev (a + b) x = bitrev a x * 2 ^ Z.of_nat b.
Proof.
  intros Hx. rewrite bitrev_app, Z.div_small by done.
  assert (forall b, bitrev b 0 = 0) as ->; [|lia]. clear. induction b as [|b IH]; [done|]. cbn [bitrev]. by rewrite Z.div_0_l, IH.
Qed.

(** The table reverses every byte. *)
Lemma reverse_byte_spec x : 0 <= x < 256 -> reverse_byte x = bitrev 8 x.
Proof.
  intros Hx.
  assert (forallb (fun i => reverse_byte (Z.of_nat i) =? bitrev 8 (Z.of_nat i)) (seq 0 256) = true) as H by (vm_compute; reflexivity).
  rewrite forallb_forall in H. specialize (H (Z.to_nat x) ltac:(apply in_seq; lia)). rewrite Z2Nat.id in H by lia. lia.
Qed.

Lemma byte_spec num i :
  0 <= num -> 0 <= i -> reverse_byte (Z.land (Z.shiftr num (8 * i)) 255) = bitrev 8 (num / 2 ^ (8 * i)).
Proof.
  intros Hn Hi. rewrite Z.shiftr_div_pow2 by lia. change 255 with (Z.ones 8). rewrite Z.land_ones by lia.
  rewrite reverse_byte_spec by (apply Z.mod_pos_bound; lia). exact (bitrev_low 8 _).
Qed.

Lemma lor_bytes hi lo : 0 <= hi -> 0 <= lo < 2 ^ 8 -> Z.lor (hi * 2 ^ 8) lo = hi * 2 ^ 8 + lo.
Proof.
  intros Hh Hl. rewrite <- (Z.shiftl_mul_pow2 hi 8) by lia. rewrite Z.lor_comm, (lor_shiftl_add lo hi 8), Z.shiftl_mul_pow2 by lia. lia.
Qed.

(** The bytes put together, by the number of bytes. *)
Lemma reversed_bytes num :
  0 <= num ->
  let b := fun i => bitrev 8 (num / 2 ^ (8 * i)) in
  Z.lor (Z.shiftl (b 0) 8) (b 1) = bitrev 16 num /\
  Z.lor (Z.lor (Z.shiftl (b 0) 16) (Z.shiftl (b 1) 8)) (b 2) = bitrev 24 num /\
  Z.lor (Z.lor (Z.lor (Z.shiftl (b 0) 24) (Z.shiftl (b 1) 16)) (Z.shiftl (b 2) 8)) (b 3) = bitrev 32 num.
Proof.
  intros Hn b.
  assert (forall i, 0 <= b i < 2 ^ 8) as Hb by (intros i; apply (bitrev_range 8)).
  assert (forall k : nat, bitrev (k + 8) num = bitrev k num * 2 ^ 8 + bitrev 8 (num / 2 ^ Z.of_nat k)) as Happ
    by (intros k; by rewrite bitrev_app).
  assert (bitrev 8 num = b 0) as E0 by (unfold b; by rewrite Z.mul_0_r, Z.div_1_r).
  pose proof (Happ 8%nat) as E1. cbn [Nat.add] in E1. rewrite E0 in E1. change (bitrev 8 (num / 2 ^ Z.of_nat 8)) with (b 1) in E1.
  pose proof (Happ 16%nat) as E2. cbn [Nat.add] in E2. rewrite E1 in E2. change (bitrev 8 (num / 2 ^ Z.of_nat 16)) with (b 2) in E2.
  pose proof (Happ 24%nat) as E3. cbn [Nat.add] in E3. rewrite E2 in E3. change (bitrev 8 (num / 2 ^ Z.of_nat 24)) with (b 3) in E3.
  clearbody b. clear Happ. rewrite E1, E2, E3. rewrite !Z.shiftl_mul_pow2 by lia. pose proof (Hb 0). pose proof (Hb 1). pose proof (Hb 2). pose proof (Hb 3).
  assert (Z.lor (b 0 * 2 ^ 16) (b 1 * 2 ^ 8) = (b 0 * 2 ^ 8 + b 1) * 2 ^ 8) as L1.
  { replace (b 0 * 2 ^ 16) with (b 0 * 2 ^ 8 * 2 ^ 8) by ring. rewrite <- !(Z.shiftl_mul_pow2 _ 8) by lia.
    rewrite <- Z.shiftl_lor, Z.shiftl_mul_pow2 by lia. rewrite Z.shiftl_mul_pow2, lor_bytes by lia. by rewrite Z.shiftl_mul_pow2 by lia. }
  assert (Z.lor (b 0 * 2 ^ 24) (b 1 * 2 ^ 16) = (b 0 * 2 ^ 8 + b 1) * 2 ^ 8 * 2 ^ 8) as L2.
  { rewrite <- L1. replace (b 0 * 2 ^ 24) with (b 0 * 2 ^ 16 * 2 ^ 8) by ring. replace (b 1 * 2 ^ 16) with (b 1 * 2 ^ 8 * 2 ^ 8) by ring.
    rewrite <- !(Z.shiftl_mul_pow2 _ 8) by lia. by rewrite <- Z.shiftl_lor. }
  split; [apply lor_bytes; [apply Hb|done]|]. split.
  - rewrite L1. apply lor_bytes; lia.
  - rewrite L2. assert (Z.lor ((b 0 * 2 ^ 8 + b 1) * 2 ^ 8 * 2 ^ 8) (b 2 * 2 ^ 8) = ((b 0 * 2 ^ 8 + b 1) * 2 ^ 8 + b 2) * 2 ^ 8) as ->.
    { rewrite <- !(Z.shiftl_mul_pow2 _ 8) by lia. rewrite <- Z.shiftl_lor. f_equal.
      rewrite !Z.shiftl_mul_pow2 by lia. apply lor_bytes; lia. }
    apply lor_bytes; lia.
Qed.

(** [ReverseBits] is the reversal for the widths up to 24. *)
Lemma ReverseBits_spec num msb :
  1 <= msb <= 24 -> 0 <= num < 2 ^ msb -> ReverseBits num msb = bitrev (Z.to_nat msb) num.
Proof.
  intros Hm Hn. unfold ReverseBits. rewrite !byte_spec by lia.
  destruct (reversed_bytes num) as (B2 & B3 & _); [lia|]. cbv zeta in B2, B3. rewrite B2, B3. clear B2 B3.
  change 7 with (Z.ones 3). rewrite Z.land_ones, Z.shiftr_div_pow2 by lia. change (2 ^ 3) with 8.
  rewrite Z.mul_0_r, Z.div_1_r.
  assert (forall sh : nat, Z.shiftr (bitrev (Z.to_nat msb + sh) num) (Z.of_nat sh) = bitrev (Z.to_nat msb) num) as Hsh.
  { intros sh. rewrite bitrev_small by (by rewrite Z2Nat.id by lia). rewrite Z.shiftr_div_pow2, Z.div_mul by lia. done. }
  assert (exists i : nat, (i < 24)%nat /\ msb = Z.of_nat i + 1) as (i & Hi & ->) by (exists (Z.to_nat (msb - 1)); lia).
  do 24 (destruct i as [|i];
    [first [exact (Hsh 0%nat) | exact (Hsh 1%nat) | exact (Hsh 2%nat) | exact (Hsh 3%nat) | exact (Hsh 4%nat) | exact (Hsh 5%nat)
      | exact (Hsh 6%nat) | exact (Hsh 7%nat)]|]).
  lia.
Qed.

(** From 25 to 31 bits the reversal of an odd number has its sign bit
    extended over the bits above the width. *)
Lemma ReverseBits_wide num msb :
  25 <= msb <= 32 -> 0 <= num < 2 ^ msb ->
  ReverseBits num msb = bitrev (Z.to_nat msb) num + (if Z.odd num then 2 ^ 32 - 2 ^ msb else 0).
Proof.
  intros Hm Hn. unfold ReverseBits. rewrite !byte_spec by lia.
  destruct (reversed_bytes num) as (_ & _ & B4); [lia|]. cbv zeta in B4. rewrite B4. clear B4.
  assert (bitrev 32 num = bitrev (Z.to_nat msb) num * 2 ^ (32 - msb)) as E.
  { replace 32%nat with (Z.to_nat msb + Z.to_nat (32 - msb))%nat by lia.
    rewrite bitrev_small, Z2Nat.id by (rewrite ?Z2Nat.id; lia). done. }
  assert (bitrev (Z.to_nat msb) num = (num mod 2) * 2 ^ (msb - 1) + bitrev (Z.to_nat (msb - 1)) (num / 2)) as Et.
  { replace (Z.to_nat msb) with (S (Z.to_nat (msb - 1))) by lia. cbn [bitrev]. by rewrite Z2Nat.id by lia. }
  pose proof (bitrev_range (Z.to_nat msb) num) as R. rewrite Z2Nat.id in R by lia.
  pose proof (bitrev_range (Z.to_nat (msb - 1)) (num / 2)) as R'. rewrite Z2Nat.id in R' by lia.
  rewrite E. set (r := bitrev (Z.to_nat msb) num) in *. set (r' := bitrev (Z.to_nat (msb - 1)) (num / 2)) in *.
  clearbody r r'. clear E. rewrite Zmod_odd in Et.
  assert (shift_trick !!! Z.to_nat (Z.land msb 7) = 32 - msb /\ Z.shiftr msb 3 + (if Z.land msb 7 =? 0 then 0 else 1) = 4) as [-> ->].
  { assert (exists i : nat, (i < 8)%nat /\ msb = Z.of_nat i + 25) as (i & Hi & ->) by (exists (Z.to_nat (msb - 25)); lia).
    do 8 (destruct i as [|i]; [done|]). lia. }
  cbn [Z.eqb Pos.eqb]. assert (2 ^ msb = 2 * 2 ^ (msb - 1)) as Ep by (rewrite <- Z.pow_succ_r by lia; f_equal; lia).
  assert (2 ^ 32 = 2 ^ msb * 2 ^ (32 - msb)) as Ew by (rewrite <- Z.pow_add_r by lia; f_equal; lia).
  assert (0 < 2 ^ (32 - msb)) as Hp by (apply Z.pow_pos_nonneg; lia).
  assert (2 ^ 31 = 2 ^ (msb - 1) * 2 ^ (32 - msb)) as Ev by (rewrite <- Z.pow_add_r by lia; f_equal; lia).
  assert (2 ^ msb <= 2 ^ 32) as Hle by (apply Z.pow_le_mono_r; lia).
  rewrite Z.shiftr_div_pow2 by lia. unfold as_int. rewrite Ev, Ew at 1. destruct (Z.odd num).
  - destruct (Z.ltb_spec (r * 2 ^ (32 - msb)) (2 ^ (msb - 1) * 2 ^ (32 - msb))); [nia|].
    rewrite <- Z.mul_sub_distr_r, Z.div_mul by lia. rewrite <- (Z.mod_add _ 1), Z.mod_small; lia.
  - destruct (Z.ltb_spec (r * 2 ^ (32 - msb)) (2 ^ (msb - 1) * 2 ^ (32 - msb))); [|nia].
    rewrite Z.div_mul, Z.mod_small; lia.
Qed.

(** Reversing twice is the identity. *)
Lemma bitrev_snoc k x : bitrev (S k) x = bitrev k x * 2 + (x / 2 ^ Z.of_nat k) mod 2.
Proof.
  replace (S k) with (k + 1)%nat by lia. rewrite bitrev_app. cbn [bitrev]. change (2 ^ Z.of_nat 1) with 2. change (2 ^ Z.of_nat 0) with 1. lia.
Qed.

Lemma bitrev_involutive k x : 0 <= x < 2 ^ Z.of_nat k -> bitrev k (bitrev k x) = x.
Proof.
  revert x. induction k as [|k IH]; intros x Hx; [cbn in *; lia|].
  rewrite Nat2Z.inj_succ, Z.pow_succ_r in Hx by lia.
  rewrite bitrev_snoc. cbn [bitrev]. pose proof (bitrev_range k (x / 2)) as Hr. pose proof (Z.mod_pos_bound x 2 ltac:(lia)) as Hb.
  pose proof (Z.div_mod x 2 ltac:(lia)) as E.
  set (p := 2 ^ Z.of_nat k) in *. assert (0 < p) by (apply Z.pow_pos_nonneg; lia).
  rewrite Z.div_add_l, (Z.div_small (bitrev k (x / 2)) p), Z.add_0_r, Z.mod_mod by lia.
  rewrite <- (bitrev_low k (x mod 2 * p + bitrev k (x / 2))). fold p. rewrite (Z.add_comm (x mod 2 * p)), Z_mod_plus_full.
  unfold p. rewrite bitrev_low. rewrite IH; [lia|]. fold p. split; [apply Z.div_pos; lia|apply Z.div_lt_upper_bound; lia].
Qed.

(** The bit-reversed index of a table entry of level [s], block [b]. *)
Lemma bitrev_level s h b : 0 <= b < 2 ^ Z.of_nat s ->
  bitrev (S s + h) (2 ^ Z.of_nat s + b) = bitrev s b * 2 ^ Z.of_nat (S h) + 2 ^ Z.of_nat h.
Proof.
  intros Hb. rewrite bitrev_small by (rewrite Nat2Z.inj_succ, Z.pow_succ_r by lia; lia).
  rewrite bitrev_snoc. assert (0 < 2 ^ Z.of_nat s) by (apply Z.pow_pos_nonneg; lia).
  replace ((2 ^ Z.of_nat s + b) / 2 ^ Z.of_nat s) with 1 by (apply Z.div_unique_pos with b; lia).
  rewrite <- (bitrev_low s (2 ^ Z.of_nat s + b)). replace (2 ^ Z.of_nat s + b) with (b + 1 * 2 ^ Z.of_nat s) by lia.
  rewrite Z_mod_plus_full, bitrev_low, Nat2Z.inj_succ, Z.pow_succ_r by lia. change (1 mod 2) with 1. lia.
Qed.

(** ... and of a position, seen from that level. *)
Lemma bitrev_position s h x : 0 <= x ->
  bitrev (S s + h) x = bitrev h x * 2 ^ Z.of_nat (S s) + ((x / 2 ^ Z.of_nat h) mod 2 * 2 ^ Z.of_nat s + bitrev s (x / 2 ^ Z.of_nat (S h))).
Proof.
  intros Hx. rewrite Nat.add_comm, bitrev_app. cbn [bitrev].
  assert (x / 2 ^ Z.of_nat h / 2 = x / 2 ^ Z.of_nat (S h)) as ->; [|done].
  assert (0 < 2 ^ Z.of_nat h) by (apply Z.pow_pos_nonneg; lia).
  rewrite Z.div_div, Nat2Z.inj_succ, Z.pow_succ_r by lia. f_equal. lia.
Qed.

(** C37: reversal of bits.  For a width from 1 to 24 the table-driven
    [ReverseBits] is the reversal of the low bits, and undoes itself.  From 25
    bits on the four bytes fill an [int]: the reversal of an even number is
    right, and the one of an odd number has all the bits above the width set
    as well (none at width 32). *)
Theorem ReverseBits_correct (num msb : Z) :
  1 <= msb <= 32 -> 0 <= num < 2 ^ msb ->
  (msb <= 24 \/ Z.even num = true -> ReverseBits num msb = bitrev (Z.to_nat msb) num) /\
  (msb <= 24 -> ReverseBits (ReverseBits num msb) msb = num) /\
  (25 <= msb -> Z.odd num = true -> ReverseBits num msb = bitrev (Z.to_nat msb) num + (2 ^ 32 - 2 ^ msb)).
Proof.
  intros Hm Hn. split; [|split].
  - intros [H|H]; [apply ReverseBits_spec; lia|].
    destruct (Z.le_gt_cases msb 24); [apply ReverseBits_spec; lia|].
    rewrite ReverseBits_wide, <- Z.negb_even, H by lia. cbn [negb]. lia.
  - intros H. rewrite ReverseBits_spec, ReverseBits_spec by
      (rewrite ?ReverseBits_spec; try pose proof (bitrev_range (Z.to_nat msb) num); rewrite ?Z2Nat.id in *; lia).
    apply bitrev_involutive. by rewrite Z2Nat.id by lia.
  - intros H Ho. by rewrite ReverseBits_wide, Ho by lia.
Qed.

Lemma ReverseBits_correct_witness : ReverseBits 6 11 = 768 /\ ReverseBits 1 31 = 2 ^ 30 + 2 ^ 31.
Proof.
  split.
  - rewrite (proj1 (ReverseBits_correct 6 11 ltac:(lia) ltac:(lia))) by lia. reflexivity.
  - rewrite (proj2 (proj2 (ReverseBits_correct 1 31 ltac:(lia) ltac:(lia)))) by (lia || reflexivity). reflexivity.
Defined.
