(* ===== verification/Ntt.v ===== *)
(** * The number theoretic transform

    Models [NumberTheoreticTransformNat] and the table management of
    [ChineseRemainderTransformFTTNat] of
    [src/core/include/math/hal/intnat/transformnat-impl.h], for vectors of
    64-bit words, with the code that GCC compiles.  A loop that doubles or
    halves its stride has fuel 32, the width of its counters. *)

From Stdlib Require Import ZArith Lia String.
From stdpp Require Import base tactics numbers list strings gmap.
From S2P Require Import Prelude Double NativeInt NativeIntFacts ModArith NativeVec SchemeCore BitReverse.

(** ** Butterflies

    The lines that add and subtract modulo the modulus in place. *)
Definition ct_combine (modulus_ loVal omegaFactor : Z) : res (Z * Z) :=
  hiVal ← Add W loVal omegaFactor;
  hiVal ← (if modulus_ <=? hiVal then SubEq W hiVal modulus_ else Ok hiVal);
  loVal ← (if loVal <? omegaFactor then AddEq W loVal modulus_ else Ok loVal);
  loVal ← SubEq W loVal omegaFactor;
  Ok (hiVal, loVal).

(** Forward: the factor multiplies the upper entry. *)
Definition ct_butterfly (mul : Z -> res Z) (modulus_ : Z) (v : list Z) (lo hi : nat) : res (list Z) :=
  loVal ← vget v lo;
  omegaFactor ← vget v hi;
  omegaFactor ← mul omegaFactor;
  c ← ct_combine modulus_ loVal omegaFactor;
  v ← vset v lo c.1;
  vset v hi c.2.

(** The copying variants skip the arithmetic when the upper entry is zero. *)
Definition ct_butterfly_nz (mul : Z -> res Z) (modulus_ : Z) (v : list Z) (lo hi : nat) : res (list Z) :=
  loVal ← vget v lo;
  omegaFactor ← vget v hi;
  if negb (omegaFactor =? 0) then
    omegaFactor ← mul omegaFactor;
    c ← ct_combine modulus_ loVal omegaFactor;
    v ← vset v lo c.1;
    vset v hi c.2
  else vset v hi loVal.

(** Inverse: the factor multiplies the difference. *)
Definition gs_combine (modulus_ loVal hiVal : Z) : res (Z * Z) :=
  omegaFactor ← (if loVal <? hiVal then AddEq W loVal modulus_ else Ok loVal);
  omegaFactor ← SubEq W omegaFactor hiVal;
  loVal ← AddEq W loVal hiVal;
  loVal ← (if modulus_ <=? loVal then SubEq W loVal modulus_ else Ok loVal);
  Ok (loVal, omegaFactor).

Definition gs_butterfly (mul_lo mul : Z -> res Z) (modulus_ : Z) (v : list Z) (lo hi : nat) : res (list Z) :=
  hiVal ← vget v hi;
  loVal ← vget v lo;
  c ← gs_combine modulus_ loVal hiVal;
  loVal ← mul_lo c.1;
  omegaFactor ← mul c.2;
  v ← vset v lo loVal;
  vset v hi omegaFactor.

(** ** Loops

    [for (i < m) { j1 = i << logt; for (indexLo = j1; indexLo < j1 + t; ...) }]
    with the table read once per [i], at index [m + i]. *)
Definition level {X} (read : nat -> res X) (bf : X -> list Z -> nat -> nat -> res (list Z)) (m t logt : nat) (v : list Z) :
    res (list Z) :=
  for_ m (fun i v =>
    let j1 := (i * 2 ^ logt)%nat in
    x ← read (m + i)%nat;
    for_ t (fun d v => bf x v (j1 + d)%nat (j1 + d + t)%nat) v) v.

(** [for (; m < n; m <<= 1) { ...; t >>= 1; logt--; }]. *)
Fixpoint levels_up {X} (read : nat -> res X) (bf : X -> list Z -> nat -> nat -> res (list Z)) (fuel n m t logt : nat) (v : list Z) :
    res (list Z) :=
  if (m <? n)%nat then
    match fuel with
    | O => Throw out_of_fuel
    | S fuel => v ← level read bf m t logt v; levels_up read bf fuel n (2 * m) (t / 2) (pred logt) v
    end
  else Ok v.

(** [for (; m >= 1; m >>= 1) { ...; t <<= 1; logt++; }]. *)
Fixpoint levels_down {X} (read : nat -> res X) (bf : X -> list Z -> nat -> nat -> res (list Z)) (fuel m t logt : nat) (v : list Z) :
    res (list Z) :=
  if (1 <=? m)%nat then
    match fuel with
    | O => Throw out_of_fuel
    | S fuel => v ← level read bf m t logt v; levels_down read bf fuel (m / 2) (2 * t) (S logt) v
    end
  else Ok v.

Definition FUEL : nat := 32.
Definition MSB (x : nat) : nat := Z.to_nat (GetMSB 64 (Z.of_nat x)).

(** [if (result->GetLength() != n) throw]. *)
Definition same_size (element result : NativeVector) : res unit :=
  if negb (length (data result) =? length (data element))%nat
  then Throw (math_error "size of input element and size of output element not of same size") else Ok tt.

(** [result->SetModulus(modulus)], then its entries are those of the element. *)
Definition copy_into (element result : NativeVector) : res NativeVector :=
  r ← NativeVec.SetModulus W result (modulus element);
  d ← for_ (length (data element)) (fun i d => x ← vget (data element) i; vset d i x) (data r);
  Ok (with_data r d).

(** ** Transforms in the ring [Z_q[X] / (X^n + 1)] *)
Section Transforms.
(** The two ways of multiplying by an entry of a table. *)
Definition read_root (table : NativeVector) (i : nat) : res Z := vget (data table) i.
Definition read_precon (table precon : NativeVector) (i : nat) : res (Z * Z) :=
  o ← vget (data table) i; p ← vget (data precon) i; Ok (o, p).
Definition mul_barrett (modulus_ mu omega x : Z) : res Z := ModMulFastEq_mu_ W x omega modulus_ mu.
Definition mul_precon (modulus_ : Z) (op : Z * Z) (x : Z) : res Z := Ok (ModMulFastConstEq W x op.1 modulus_ op.2).

Definition ForwardTransformToBitReverseInPlace (rootOfUnityTable element : NativeVector) : res NativeVector :=
  let n := length (data element) in
  let modulus_ := modulus element in
  mu ← ComputeMu_ W modulus_;
  let t := (n / 2)%nat in
  d ← levels_up (read_root rootOfUnityTable) (fun omega => ct_butterfly (mul_barrett modulus_ mu omega) modulus_)
        FUEL n 1 t (MSB t) (data element);
  Ok (with_data element d).

Definition ForwardTransformToBitReverse (element rootOfUnityTable result : NativeVector) : res NativeVector :=
  let n := length (data element) in
  let modulus_ := modulus element in
  _ ← same_size element result;
  mu ← ComputeMu_ W modulus_;
  result ← copy_into element result;
  let t := (n / 2)%nat in
  d ← levels_up (read_root rootOfUnityTable) (fun omega => ct_butterfly_nz (mul_barrett modulus_ mu omega) modulus_)
        FUEL n 1 t (MSB t) (data result);
  Ok (with_data result d).

(** The last level of the in-place precomputed variant is a loop of its own. *)
Definition ForwardTransformToBitReverseInPlace_precon (rootOfUnityTable preconRootOfUnityTable element : NativeVector) :
    res NativeVector :=
  let modulus_ := modulus element in
  let n := (length (data element) / 2)%nat in
  let bf := fun op => ct_butterfly (mul_precon modulus_ op) modulus_ in
  d ← levels_up (read_precon rootOfUnityTable preconRootOfUnityTable) bf FUEL n 1 n (MSB n) (data element);
  d ← for_ n (fun i d =>
        op ← read_precon rootOfUnityTable preconRootOfUnityTable (i + n)%nat;
        bf op d (2 * i)%nat (2 * i + 1)%nat) d;
  Ok (with_data element d).

Definition ForwardTransformToBitReverse_precon (element rootOfUnityTable preconRootOfUnityTable result : NativeVector) :
    res NativeVector :=
  let n := length (data element) in
  let modulus_ := modulus element in
  _ ← same_size element result;
  result ← copy_into element result;
  let t := (n / 2)%nat in
  d ← levels_up (read_precon rootOfUnityTable preconRootOfUnityTable)
        (fun op => ct_butterfly_nz (mul_precon modulus_ op) modulus_) FUEL n 1 t (MSB t) (data result);
  Ok (with_data result d).

Definition InverseTransformFromBitReverseInPlace (rootOfUnityInverseTable : NativeVector) (cycloOrderInv : Z)
    (element : NativeVector) : res NativeVector :=
  let n := length (data element) in
  let modulus_ := modulus element in
  mu ← ComputeMu_ W modulus_;
  d ← levels_down (read_root rootOfUnityInverseTable) (fun omega => gs_butterfly Ok (mul_barrett modulus_ mu omega) modulus_)
        FUEL (n / 2) 1 1 (data element);
  d ← for_ n (fun i d => x ← vget d i; x ← mul_barrett modulus_ mu cycloOrderInv x; vset d i x) d;
  Ok (with_data element d).

Definition InverseTransformFromBitReverse (element rootOfUnityInverseTable : NativeVector) (cycloOrderInv : Z)
    (result : NativeVector) : res NativeVector :=
  _ ← same_size element result;
  result ← copy_into element result;
  InverseTransformFromBitReverseInPlace rootOfUnityInverseTable cycloOrderInv result.

(** The first level of the precomputed variant also multiplies by the
    inverse of the length. *)
Definition InverseTransformFromBitReverseInPlace_precon (rootOfUnityInverseTable preconRootOfUnityInverseTable : NativeVector)
    (cycloOrderInv preconCycloOrderInv : Z) (element : NativeVector) : res NativeVector :=
  let modulus_ := modulus element in
  let n := length (data element) in
  let mul_inv := mul_precon modulus_ (cycloOrderInv, preconCycloOrderInv) in
  d ← for_ (Nat.div2 (n + 1)) (fun i d =>
        op ← read_precon rootOfUnityInverseTable preconRootOfUnityInverseTable ((2 * i + n) / 2)%nat;
        gs_butterfly mul_inv (fun x => x ← mul_precon modulus_ op x; mul_inv x) modulus_ d (2 * i)%nat (2 * i + 1)%nat)
        (data element);
  d ← levels_down (read_precon rootOfUnityInverseTable preconRootOfUnityInverseTable)
        (fun op => gs_butterfly Ok (mul_precon modulus_ op) modulus_) FUEL (n / 4) 2 2 d;
  Ok (with_data element d).

Definition InverseTransformFromBitReverse_precon (element rootOfUnityInverseTable preconRootOfUnityInverseTable : NativeVector)
    (cycloOrderInv preconCycloOrderInv : Z) (result : NativeVector) : res NativeVector :=
  _ ← same_size element result;
  result ← copy_into element result;
  InverseTransformFromBitReverseInPlace_precon rootOfUnityInverseTable preconRootOfUnityInverseTable cycloOrderInv
    preconCycloOrderInv result.
End Transforms.

(** ** The cached tables of [ChineseRemainderTransformFTTNat]

    Six static maps, keyed by the modulus alone. *)
Record FTT := FTTMaps {
  cycloOrderInverse : gmap Z NativeVector;
  cycloOrderInversePrecon : gmap Z NativeVector;
  rootReverse : gmap Z NativeVector;
  rootInverseReverse : gmap Z NativeVector;
  rootPreconReverse : gmap Z NativeVector;
  rootInversePreconReverse : gmap Z NativeVector
}.
Definition Reset : FTT := FTTMaps ∅ ∅ ∅ ∅ ∅ ∅.

(** [map[key]]: a missing key reads as a default vector. *)
Definition table_at (m : gmap Z NativeVector) (key : Z) : NativeVector := default (NVec 0 []) (m !! key).

(** The powers of the root and of its inverse, in bit-reversed order. *)
Definition root_tables (rootOfUnity modulus_ mu : Z) (n : nat) (msb : Z) : res (list Z * list Z) :=
  rootOfUnityInverse ← NativeInt.ModInverse W rootOfUnity modulus_;
  st ← for_ n (fun i (st : list Z * list Z * (Z * Z)) =>
         let '(Table, TableI, (x, xinv)) := st in
         let iinv := Z.to_nat (ReverseBits (Z.of_nat i) msb) in
         Table ← vset Table iinv x;
         TableI ← vset TableI iinv xinv;
         x ← ModMulEq_mu W x rootOfUnity modulus_ mu;
         xinv ← ModMulEq_mu W xinv rootOfUnityInverse modulus_ mu;
         Ok (Table, TableI, (x, xinv))) (repeat 0 n, repeat 0 n, (1, 1));
  Ok st.1.

(** [1 << i] on [int], and its inverse. *)
Definition order_inverse (modulus_ : Z) (i : nat) : res Z :=
  if (31 <=? i)%nat then Throw undefined_behaviour else NativeInt.ModInverse W (2 ^ Z.of_nat i) modulus_.

(** [mapSearch != end() && mapSearch->second.GetLength() == CycloOrderHf]. *)
Definition cached (st : FTT) (modulus_ CycloOrderHf : Z) : bool :=
  match rootReverse st !! modulus_ with
  | Some t => Z.of_nat (length (data t)) =? CycloOrderHf
  | None => false
  end.

Definition PreCompute (st : FTT) (rootOfUnity CycloOrder modulus_ : Z) : res FTT :=
  let CycloOrderHf := Z.shiftr CycloOrder 1 in
  if cached st modulus_ CycloOrderHf then Ok st else
  let n := Z.to_nat CycloOrderHf in
  let msb := GetMSB 64 ((CycloOrderHf - 1) mod 2 ^ 32) in
  mu ← ComputeMu_ W modulus_;
  tables ← root_tables rootOfUnity modulus_ mu n msb;
  coi ← tabulateM (Z.to_nat (msb + 1)) (order_inverse modulus_);
  let prec := fun v => PrepModMulConst_ W v modulus_ in
  preconTable ← mapM prec tables.1;
  preconTableI ← mapM prec tables.2;
  preconTableCOI ← mapM prec coi;
  let put := fun m v => <[modulus_ := NVec modulus_ v]> m in
  Ok (FTTMaps (put (cycloOrderInverse st) coi) (put (cycloOrderInversePrecon st) preconTableCOI)
    (put (rootReverse st) tables.1) (put (rootInverseReverse st) tables.2)
    (put (rootPreconReverse st) preconTable) (put (rootInversePreconReverse st) preconTableI)).

(** The overload for a chain of moduli. *)
Fixpoint PreCompute_loop (st : FTT) (rootOfUnity : list Z) (CycloOrder : Z) (moduliiChain : list Z) : res FTT :=
  match rootOfUnity, moduliiChain with
  | r :: rs, m :: ms => st ← PreCompute st r CycloOrder m; PreCompute_loop st rs CycloOrder ms
  | _, _ => Ok st
  end.
Definition PreCompute_chain (st : FTT) (rootOfUnity : list Z) (CycloOrder : Z) (moduliiChain : list Z) : res FTT :=
  if negb (length rootOfUnity =? length moduliiChain)%nat
  then Throw (math_error "size of root of unity and size of moduli chain not of same size")
  else PreCompute_loop st rootOfUnity CycloOrder moduliiChain.

Definition IsPowerOfTwo (x : Z) : bool := negb (x =? 0) && (Z.land x (x - 1) =? 0).
Definition trivial_root (rootOfUnity : Z) : bool := (rootOfUnity =? 1) || (rootOfUnity =? 0).

(** The checks and the table look-up the four transforms share; [len] is the
    length that is checked. *)
Definition prepare (st : FTT) (rootOfUnity CycloOrder : Z) (len : nat) (what : string) (modulus_ : Z) : res FTT :=
  if negb (IsPowerOfTwo CycloOrder) then Throw (math_error "CyclotomicOrder is not a power of two") else
  let CycloOrderHf := Z.shiftr CycloOrder 1 in
  if negb (Z.of_nat len =? CycloOrderHf) then Throw (math_error (what ++ " size must be equal to CyclotomicOrder / 2")) else
  if cached st modulus_ CycloOrderHf then Ok st else PreCompute st rootOfUnity CycloOrder modulus_.

Definition FTTForwardInPlace (st : FTT) (rootOfUnity CycloOrder : Z) (element : NativeVector) : res (FTT * NativeVector) :=
  if trivial_root rootOfUnity then Ok (st, element) else
  let modulus_ := modulus element in
  st ← prepare st rootOfUnity CycloOrder (length (data element)) "element" modulus_;
  v ← ForwardTransformToBitReverseInPlace_precon (table_at (rootReverse st) modulus_) (table_at (rootPreconReverse st) modulus_) element;
  Ok (st, v).

Definition FTTForward (st : FTT) (element : NativeVector) (rootOfUnity CycloOrder : Z) (result : NativeVector) : res (FTT * NativeVector) :=
  if trivial_root rootOfUnity then Ok (st, element) else
  let modulus_ := modulus element in
  st ← prepare st rootOfUnity CycloOrder (length (data result)) "result" modulus_;
  v ← ForwardTransformToBitReverse_precon element (table_at (rootReverse st) modulus_) (table_at (rootPreconReverse st) modulus_) result;
  Ok (st, v).

(** The common end of the inverse transforms. *)
Definition FTT_inverse (st : FTT) (CycloOrder : Z) (element : NativeVector) : res NativeVector :=
  let modulus_ := modulus element in
  let msb := Z.to_nat (GetMSB 64 ((Z.shiftr CycloOrder 1 - 1) mod 2 ^ 32)) in
  coi ← vget (data (table_at (cycloOrderInverse st) modulus_)) msb;
  coip ← vget (data (table_at (cycloOrderInversePrecon st) modulus_)) msb;
  InverseTransformFromBitReverseInPlace_precon (table_at (rootInverseReverse st) modulus_)
    (table_at (rootInversePreconReverse st) modulus_) coi coip element.

Definition FTTInverseInPlace (st : FTT) (rootOfUnity CycloOrder : Z) (element : NativeVector) : res (FTT * NativeVector) :=
  if trivial_root rootOfUnity then Ok (st, element) else
  st ← prepare st rootOfUnity CycloOrder (length (data element)) "element" (modulus element);
  v ← FTT_inverse st CycloOrder element;
  Ok (st, v).

(** The copying variant fills [result] from the element, without comparing
    their lengths. *)
Definition FTTInverse (st : FTT) (element : NativeVector) (rootOfUnity CycloOrder : Z) (result : NativeVector) : res (FTT * NativeVector) :=
  if trivial_root rootOfUnity then Ok (st, element) else
  st ← prepare st rootOfUnity CycloOrder (length (data result)) "result" (modulus element);
  result ← copy_into element result;
  v ← FTT_inverse st CycloOrder result;
  Ok (st, v).

(** The transform of [1 + 2x] modulo 17, with the root 4 of [x^2 + 1]. *)
Example FTT_example :
  (r ← FTTForwardInPlace Reset 4 4 (NVec 17 [1; 2]); FTTInverseInPlace r.1 4 4 r.2) ≫= (fun r => Ok r.2) = Ok (NVec 17 [1; 2]).
Proof. vm_compute. reflexivity. Qed.
