(* ===== verification/NttFacts.v ===== *)
(** * Correctness of the transform

    The loops of the transforms apply one pure stage per level; the stages
    evaluate the polynomial at the odd powers of the root, and the inverse
    stages undo them up to the factor the final multiplication removes. *)

From Stdlib Require Import ZArith Lia String.
From stdpp Require Import base tactics numbers list strings gmap.
From S2P Require Import Prelude Double NativeInt NativeIntFacts ModArith NativeVec SchemeCore Negacyclic BitReverse Ntt.

(** ** Pure stages

    [upd b lo hi] is the pair that replaces an upper and a lower entry of
    block [b]; blocks have [2 t] entries. *)
Definition stage (upd : nat -> Z -> Z -> Z * Z) (t : nat) (v : list Z) : list Z :=
  map (fun x => let b := (x / (2 * t))%nat in
    if (x mod (2 * t) <? t)%nat then (upd b (v !!! x) (v !!! (x + t)%nat)).1
    else (upd b (v !!! (x - t)%nat) (v !!! x)).2) (seq 0 (length v)).

(** The number of a pair, in the order of the loops. *)
Definition pidx (t x : nat) : nat :=
  (x / (2 * t) * t + (if (x mod (2 * t) <? t)%nat then x mod (2 * t) else x mod (2 * t) - t))%nat.

Lemma block_decomp t x : (0 < t)%nat ->
  exists b r, x = (b * (2 * t) + r)%nat /\ (r < 2 * t)%nat /\ (x / (2 * t))%nat = b /\ (x mod (2 * t))%nat = r.
Proof.
  intros Ht. exists (x / (2 * t))%nat, (x mod (2 * t))%nat. split; [|split; [apply Nat.mod_upper_bound; lia|done]].
  pose proof (Nat.div_mod x (2 * t) ltac:(lia)). lia.
Qed.

Lemma block_at t b r : (r < 2 * t)%nat -> ((b * (2 * t) + r) / (2 * t))%nat = b /\ ((b * (2 * t) + r) mod (2 * t))%nat = r.
Proof.
  intros Hr. split; symmetry.
  - apply Nat.div_unique with r; lia.
  - apply Nat.mod_unique with b; lia.
Qed.

(** Two positions of the same pair are its lower and its upper entry. *)
Lemma pidx_inj t i d x : (d < t)%nat -> pidx t x = (i * t + d)%nat -> x = (i * (2 * t) + d)%nat \/ x = (i * (2 * t) + d + t)%nat.
Proof.
  intros Hd. unfold pidx. destruct (block_decomp t x ltac:(lia)) as (b & r & Ex & Hr & -> & ->). intros E.
  assert (b = i) as ->.
  { destruct (r <? t)%nat eqn:Hc.
    - apply Nat.ltb_lt in Hc. destruct (Nat.lt_trichotomy b i) as [|[|]]; [nia|done|nia].
    - apply Nat.ltb_ge in Hc. destruct (Nat.lt_trichotomy b i) as [|[|]]; [nia|done|nia]. }
  destruct (Nat.ltb_spec r t); lia.
Qed.

Section Level.
Context {q : Z} {X : Type} (read : nat -> res X) (bf : X -> list Z -> nat -> nat -> res (list Z)).
Context (upd : nat -> Z -> Z -> Z * Z) (m t logt : nat) (x : nat -> X).
Context (Hlog : (2 ^ logt = 2 * t)%nat).
Context (Hread : forall i, (i < m)%nat -> read (m + i)%nat = Ok (x i)).
Context (Hupd : forall i a b, (i < m)%nat -> reduced q a -> reduced q b -> reduced q (upd i a b).1 /\ reduced q (upd i a b).2).
Context (Hbf : forall i v lo hi, (i < m)%nat -> (lo < length v)%nat -> (hi < length v)%nat -> lo <> hi ->
  reduced q (v !!! lo) -> reduced q (v !!! hi) ->
  bf (x i) v lo hi = Ok (<[hi := (upd i (v !!! lo) (v !!! hi)).2]> (<[lo := (upd i (v !!! lo) (v !!! hi)).1]> v))).

(** After [p] pairs: the entries of these pairs are those of the stage. *)
Definition done_upto (v : list Z) (p : nat) (v' : list Z) : Prop :=
  length v' = length v /\
  forall y, (y < length v)%nat -> v' !!! y = if (pidx t y <? p)%nat then stage upd t v !!! y else v !!! y.

Lemma level_step v v' i d :
  length v = (m * (2 * t))%nat -> Forall (reduced q) v -> (i < m)%nat -> (d < t)%nat -> done_upto v (i * t + d) v' ->
  returns (bf (x i) v' (i * (2 * t) + d)%nat (i * (2 * t) + d + t)%nat) (done_upto v (i * t + S d)).
Proof using All.
  intros Lv Fv Hi Hd [Lv' Hv']. set (lo := (i * (2 * t) + d)%nat). set (hi := (lo + t)%nat).
  assert (Hlt : (hi < length v)%nat) by (unfold hi, lo; nia).
  destruct (block_at t i d ltac:(lia)) as [B1 B2]. fold lo in B1, B2.
  destruct (block_at t i (d + t) ltac:(lia)) as [B3 B4]. rewrite Nat.add_assoc in B3, B4. fold lo in B3, B4. fold hi in B3, B4.
  assert (pidx t lo = (i * t + d)%nat) as Plo.
  { unfold pidx. rewrite B1, B2, (proj2 (Nat.ltb_lt d t)) by done. done. }
  assert (pidx t hi = (i * t + d)%nat) as Phi.
  { unfold pidx. rewrite B3, B4, (proj2 (Nat.ltb_ge (d + t) t)) by lia. lia. }
  assert (v' !!! lo = v !!! lo) as Elo by (rewrite Hv', Plo, Nat.ltb_irrefl by lia; done).
  assert (v' !!! hi = v !!! hi) as Ehi by (rewrite Hv', Phi, Nat.ltb_irrefl by lia; done).
  assert (forall y, (y < length v)%nat -> reduced q (v !!! y)) as Hred.
  { intros y Hy. rewrite Forall_lookup in Fv. apply (Fv y). by apply list_lookup_lookup_total_lt. }
  rewrite Hbf by (rewrite ?Elo, ?Ehi, ?Lv'; first [done | apply Hred; lia | lia]). rewrite Elo, Ehi.
  apply returns_ok. split; [by rewrite !length_insert|]. intros y Hy.
  destruct (decide (y = hi)) as [->|Nhi].
  { rewrite list_lookup_total_insert_eq by (rewrite length_insert; lia). rewrite Phi, (proj2 (Nat.ltb_lt _ _)) by lia.
    unfold stage. rewrite lookup_total_tab by lia. cbv zeta. rewrite B3, B4, (proj2 (Nat.ltb_ge (d + t) t)) by lia.
    by replace (hi - t)%nat with lo by lia. }
  rewrite list_lookup_total_insert_ne by done. destruct (decide (y = lo)) as [->|Nlo].
  { rewrite list_lookup_total_insert_eq by lia. rewrite Plo, (proj2 (Nat.ltb_lt _ _)) by lia.
    unfold stage. rewrite lookup_total_tab by lia. cbv zeta. by rewrite B1, B2, (proj2 (Nat.ltb_lt d t)) by lia. }
  rewrite list_lookup_total_insert_ne by done. rewrite Hv' by done.
  assert (pidx t y <> (i * t + d)%nat).
  { intros E. destruct (pidx_inj t i d y Hd E); unfold hi, lo in *; lia. }
  destruct (Nat.ltb_spec (pidx t y) (i * t + d)), (Nat.ltb_spec (pidx t y) (i * t + S d)); (done || lia).
Qed.

(** One level of the transforms is one stage. *)
Lemma level_stage v :
  length v = (m * (2 * t))%nat -> Forall (reduced q) v -> level read bf m t logt v = Ok (stage upd t v).
Proof using All.
  intros Lv Fv. apply returns_eq. unfold level.
  eapply returns_mono.
  { apply (returns_for (fun i v' => done_upto v (i * t) v')).
    - split; [done|]. intros y Hy. done.
    - intros i v' Hi Hv'. rewrite Hread, bind_ok, Hlog by done.
      replace (S i * t)%nat with (i * t + t)%nat by lia.
      apply (returns_for (fun d v'' => done_upto v (i * t + d) v'')); [by rewrite Nat.add_0_r|].
      intros d v'' Hd Hv''. apply level_step; done. }
  intros v' [Lv' Hv']. cbn beta in *. apply list_total_ext; [unfold stage; by rewrite length_tab|].
  intros y Hy. rewrite Lv' in Hy. rewrite Hv' by done. rewrite (proj2 (Nat.ltb_lt _ _)); [done|].
  unfold pidx. destruct (block_decomp t y) as (b & r & Ey & Hr & -> & ->); [destruct t; [|lia]; nia|].
  assert (b < m)%nat by nia. destruct (Nat.ltb_spec r t); nia.
Qed.
End Level.

Lemma stage_length upd t v : length (stage upd t v) = length v.
Proof. apply length_tab. Qed.

Lemma stage_reduced q upd m t v :
  (forall i a b, (i < m)%nat -> reduced q a -> reduced q b -> reduced q (upd i a b).1 /\ reduced q (upd i a b).2) ->
  length v = (m * (2 * t))%nat -> Forall (reduced q) v -> Forall (reduced q) (stage upd t v).
Proof.
  intros Hupd Lv Fv. apply Forall_tab. intros y Hy.
  assert (forall y, (y < length v)%nat -> reduced q (v !!! y)) as Hred.
  { intros z Hz. rewrite Forall_lookup in Fv. apply (Fv z). by apply list_lookup_lookup_total_lt. }
  destruct (block_decomp t y) as (b & r & Ey & Hr & -> & ->); [destruct t; [|lia]; nia|].
  assert (b < m)%nat by nia. destruct (Nat.ltb_spec r t); apply Hupd; try done; apply Hred; nia.
Qed.

(** ** The butterflies compute the stages *)
Definition fwd_upd (q : Z) (w : nat -> Z) (m b : nat) (lo hi : Z) : Z * Z :=
  ((lo + hi * w (m + b)%nat) mod q, (lo - hi * w (m + b)%nat) mod q).
Definition inv_upd (q : Z) (w : nat -> Z) (m b : nat) (lo hi : Z) : Z * Z :=
  ((lo + hi) mod q, ((lo - hi) * w (m + b)%nat) mod q).
(** The first inverse stage of the precomputed variant scales by [c]. *)
Definition inv_upd_scaled (q c : Z) (w : nat -> Z) (m b : nat) (lo hi : Z) : Z * Z :=
  (((lo + hi) mod q * c) mod q, (((lo - hi) * w (m + b)%nat) mod q * c) mod q).

Section Butterflies.
Context {q : Z} {Hq : NativeModulus W q}.

Lemma q_bounds : 4 <= q /\ 2 * q <= 2 ^ 64.
Proof using Hq. pose proof (nm_bounds (w := W) (m := q)). pose proof (nm_double (w := W) (m := q)). change (2 ^ W) with (2 ^ 64) in *. lia. Qed.

Lemma word_add a b : 0 <= a -> 0 <= b -> a + b < 2 ^ 64 -> Add W a b = Ok (a + b) /\ AddEq W a b = Ok (a + b).
Proof using Type.
  intros. unfold Add, AddEq, AddFast, AddEqFast; cbn [NATIVEINT_DO_CHECKS].
  rewrite (Z.add_comm b), !mod_W_small by lia. done.
Qed.

Lemma word_sub a b : 0 <= b <= a -> a < 2 ^ 64 -> SubEq W a b = Ok (a - b).
Proof using Type.
  intros. unfold SubEq, SubEqFast; cbn [NATIVEINT_DO_CHECKS]. by rewrite mod_W_small by lia.
Qed.

Lemma ct_combine_spec lo f :
  reduced q lo -> reduced q f -> ct_combine q lo f = Ok ((lo + f) mod q, (lo - f) mod q).
Proof using Hq.
  intros Hl Hf. pose proof q_bounds. unfold reduced in *. unfold ct_combine.
  rewrite (proj1 (word_add lo f ltac:(lia) ltac:(lia) ltac:(lia))), bind_ok.
  assert ((if q <=? lo + f then SubEq W (lo + f) q else Ok (lo + f)) = Ok ((lo + f) mod q)) as ->.
  { destruct (Z.leb_spec q (lo + f)).
    - rewrite word_sub by lia. f_equal. apply Z.mod_unique_pos with 1; lia.
    - by rewrite Z.mod_small by lia. }
  rewrite bind_ok. destruct (Z.ltb_spec lo f).
  - rewrite (proj2 (word_add lo q ltac:(lia) ltac:(lia) ltac:(lia))), bind_ok, word_sub, bind_ok by lia.
    do 2 f_equal. apply Z.mod_unique_pos with (-1); lia.
  - rewrite bind_ok, word_sub, bind_ok by lia. do 2 f_equal. by rewrite Z.mod_small by lia.
Qed.

Lemma gs_combine_spec lo hi :
  reduced q lo -> reduced q hi -> gs_combine q lo hi = Ok ((lo + hi) mod q, (lo - hi) mod q).
Proof using Hq.
  intros Hl Hf. pose proof q_bounds. unfold reduced in *. unfold gs_combine.
  assert ((o ← (if lo <? hi then AddEq W lo q else Ok lo); SubEq W o hi) = Ok ((lo - hi) mod q)) as E.
  { destruct (Z.ltb_spec lo hi).
    - rewrite (proj2 (word_add lo q ltac:(lia) ltac:(lia) ltac:(lia))), bind_ok, word_sub by lia.
      f_equal. apply Z.mod_unique_pos with (-1); lia.
    - rewrite bind_ok, word_sub by lia. by rewrite Z.mod_small by lia. }
  destruct (if lo <? hi then AddEq W lo q else Ok lo) as [o|]; [|done].
  change (SubEq W o hi = Ok ((lo - hi) mod q)) in E. rewrite bind_ok, E, bind_ok.
  rewrite (proj2 (word_add lo hi ltac:(lia) ltac:(lia) ltac:(lia))), bind_ok.
  destruct (Z.leb_spec q (lo + hi)).
  - rewrite word_sub, bind_ok by lia. do 2 f_equal. apply Z.mod_unique_pos with 1; lia.
  - rewrite bind_ok. do 2 f_equal. by rewrite Z.mod_small by lia.
Qed.

(** A way of multiplying by [w]. *)
Definition multiplies (mul : Z -> res Z) (w : Z) : Prop := forall a, reduced q a -> mul a = Ok ((a * w) mod q).

Lemma mul_barrett_ok w : reduced q w -> multiplies (mul_barrett q (mu_of W q) w) w.
Proof using Hq. intros Hw a Ha. by apply nm_mul_fast_mu. Qed.

Lemma mul_precon_ok w : reduced q w -> multiplies (mul_precon q (w, w * 2 ^ W / q)) w.
Proof using Hq.
  intros Hw a Ha. unfold mul_precon; cbn [fst snd]. f_equal.
  apply nm_mul_const; [by apply (nm_reduced_word (w := W))|done].
Qed.

Section One.
Context (v : list Z) (lo hi : nat) (Hlo : (lo < length v)%nat) (Hhi : (hi < length v)%nat) (Hne : lo <> hi).
Context (Rlo : reduced q (v !!! lo)) (Rhi : reduced q (v !!! hi)).
Context (mul : Z -> res Z) (om : Z) (Hmul : multiplies mul om).

Lemma ct_butterfly_ok :
  ct_butterfly mul q v lo hi = Ok (<[hi := (v !!! lo - v !!! hi * om) mod q]> (<[lo := (v !!! lo + v !!! hi * om) mod q]> v)).
Proof using All.
  unfold ct_butterfly. rewrite (vget_total v lo), bind_ok, (vget_total v hi), bind_ok, Hmul, bind_ok by done.
  rewrite ct_combine_spec, bind_ok by (done || apply (nm_mod (w := W))). cbn [fst snd].
  rewrite vset_lt, bind_ok, vset_lt by (rewrite ?length_insert; done). do 2 f_equal.
  - by rewrite Zminus_mod_idemp_r.
  - f_equal. by rewrite Zplus_mod_idemp_r.
Qed.

Lemma ct_butterfly_nz_ok : ct_butterfly_nz mul q v lo hi = ct_butterfly mul q v lo hi.
Proof using All.
  rewrite ct_butterfly_ok. unfold ct_butterfly_nz. rewrite (vget_total v lo), bind_ok, (vget_total v hi), bind_ok by done.
  destruct (Z.eqb_spec (v !!! hi) 0) as [E|_]; cbn [negb].
  - rewrite E, Z.mul_0_l, Z.sub_0_r, Z.add_0_r, vset_lt by done. unfold reduced in Rlo. rewrite Z.mod_small by done.
    f_equal. f_equal. rewrite list_insert_id; [done|]. by apply list_lookup_lookup_total_lt.
  - pose proof ct_butterfly_ok as H. unfold ct_butterfly in H.
    rewrite (vget_total v lo), bind_ok, (vget_total v hi), bind_ok in H by done. exact H.
Qed.

Lemma gs_butterfly_ok mul_lo c :
  multiplies mul_lo c -> gs_butterfly mul_lo mul q v lo hi =
    Ok (<[hi := ((v !!! lo - v !!! hi) * om) mod q]> (<[lo := ((v !!! lo + v !!! hi) mod q * c) mod q]> v)).
Proof using All.
  intros Hc. unfold gs_butterfly. rewrite (vget_total v hi), bind_ok, (vget_total v lo), bind_ok by done.
  rewrite gs_combine_spec, bind_ok by done. cbn [fst snd].
  rewrite Hc, bind_ok, Hmul, bind_ok by apply (nm_mod (w := W)).
  rewrite vset_lt, bind_ok, vset_lt by (rewrite ?length_insert; done). by rewrite Zmult_mod_idemp_l.
Qed.
End One.

Lemma multiplies_one : multiplies Ok 1.
Proof using Hq. intros a Ha. unfold reduced in Ha. by rewrite Z.mul_1_r, Z.mod_small. Qed.
End Butterflies.

(** ** All the levels, for [2^k] entries *)
Fixpoint stages_up (U : nat -> nat -> Z -> Z -> Z * Z) (k s : nat) (v : list Z) : list Z :=
  match s with
  | O => v
  | S s => stage (U (2 ^ s)%nat) (2 ^ (k - 1 - s)) (stages_up U k s v)
  end.
Fixpoint stages_down (U : nat -> nat -> Z -> Z -> Z * Z) (k s : nat) (v : list Z) : list Z :=
  match s with
  | O => v
  | S s => stages_down U k s (stage (U (2 ^ s)%nat) (2 ^ (k - 1 - s)) v)
  end.

Lemma pow2_half s : (2 ^ S s / 2 = 2 ^ s)%nat.
Proof. rewrite Nat.pow_succ_r', Nat.mul_comm. by apply Nat.div_mul. Qed.

Lemma pow2_pos_nat s : (0 < 2 ^ s)%nat.
Proof. pose proof (Nat.pow_nonzero 2 s ltac:(lia)). lia. Qed.

Lemma pow2_blocks k s : (s < k)%nat -> (2 ^ k = 2 ^ s * (2 * 2 ^ (k - 1 - s)))%nat.
Proof.
  intros Hs. rewrite <- Nat.pow_succ_r', <- Nat.pow_add_r. f_equal. lia.
Qed.

Section Levels.
Context {q : Z} {X : Type} (read : nat -> res X) (bf : X -> list Z -> nat -> nat -> res (list Z)).
Context (U : nat -> nat -> Z -> Z -> Z * Z) (k stop : nat) (x : nat -> X).
Context (Hstop : (stop <= k)%nat).
Context (Hread : forall j, (0 < j < 2 ^ stop)%nat -> read j = Ok (x j)).
Context (Hupd : forall m i a b, reduced q a -> reduced q b -> reduced q (U m i a b).1 /\ reduced q (U m i a b).2).
Context (Hbf : forall m i v lo hi, (0 < m + i < 2 ^ stop)%nat -> (lo < length v)%nat -> (hi < length v)%nat -> lo <> hi ->
  reduced q (v !!! lo) -> reduced q (v !!! hi) ->
  bf (x (m + i)%nat) v lo hi = Ok (<[hi := (U m i (v !!! lo) (v !!! hi)).2]> (<[lo := (U m i (v !!! lo) (v !!! hi)).1]> v))).

Definition wf_data (v : list Z) : Prop := length v = (2 ^ k)%nat /\ Forall (reduced q) v.

Lemma stage_wf s v : (s < k)%nat -> wf_data v -> wf_data (stage (U (2 ^ s)%nat) (2 ^ (k - 1 - s)) v).
Proof using Hstop Hupd.
  intros Hs [Lv Fv]. split; [by rewrite stage_length|].
  apply (stage_reduced q _ (2 ^ s)); [by intros; apply Hupd| |done]. rewrite Lv. by apply pow2_blocks.
Qed.

Lemma stages_up_wf s v : (s <= k)%nat -> wf_data v -> wf_data (stages_up U k s v).
Proof using Hstop Hupd. intros Hs Hv. induction s as [|s IH]; [done|]. apply stage_wf; [lia|]. apply IH. lia. Qed.

Lemma one_level s v : (s < stop)%nat -> wf_data v ->
  level read bf (2 ^ s) (2 ^ (k - 1 - s)) (k - s) v = Ok (stage (U (2 ^ s)%nat) (2 ^ (k - 1 - s)) v).
Proof using All.
  intros Hs [Lv Fv].
  assert (2 ^ S s <= 2 ^ stop)%nat as Hp by (apply Nat.pow_le_mono_r; lia). rewrite Nat.pow_succ_r' in Hp.
  pose proof (pow2_pos_nat s). apply (level_stage (q := q) read bf _ _ _ _ (fun i => x (2 ^ s + i)%nat)).
  - rewrite <- Nat.pow_succ_r'. f_equal. lia.
  - intros i Hi. apply Hread. lia.
  - intros i a b Hi. apply Hupd.
  - intros i v' lo hi Hi. apply Hbf. lia.
  - rewrite Lv. apply pow2_blocks. lia.
  - done.
Qed.

Lemma levels_up_eq j fuel s t logt v :
  (s + j = stop)%nat -> (j <= fuel)%nat -> ((s < stop)%nat -> t = (2 ^ (k - 1 - s))%nat /\ logt = (k - s)%nat) -> wf_data v ->
  levels_up read bf fuel (2 ^ stop) (2 ^ s) t logt (stages_up U k s v) = Ok (stages_up U k stop v).
Proof using All.
  revert fuel s t logt. induction j as [|j IH]; intros fuel s t logt Es Hf Ht Hv.
  - rewrite Nat.add_0_r in Es. subst s. destruct fuel; cbn [levels_up]; rewrite Nat.ltb_irrefl; done.
  - destruct fuel as [|fuel]; [lia|]. destruct (Ht ltac:(lia)) as [-> ->]. cbn [levels_up].
    rewrite (proj2 (Nat.ltb_lt _ _)) by (apply Nat.pow_lt_mono_r; lia).
    rewrite one_level, bind_ok by (first [lia | apply stages_up_wf; [lia|done]]).
    change (stage (U (2 ^ s)%nat) (2 ^ (k - 1 - s)) (stages_up U k s v)) with (stages_up U k (S s) v).
    rewrite <- Nat.pow_succ_r'. apply IH; [lia|lia| |done]. intros Hlt. split; [|lia].
    replace (k - 1 - s)%nat with (S (k - 1 - S s)) by lia. apply pow2_half.
Qed.

Lemma levels_down_eq s fuel v :
  (s <= stop)%nat -> (s <= fuel)%nat -> wf_data v ->
  levels_down read bf fuel (2 ^ s / 2) (2 ^ (k - s)) (k - s + 1) v = Ok (stages_down U k s v).
Proof using All.
  revert fuel v. induction s as [|s IH]; intros fuel v Hs Hf Hv.
  - destruct fuel; done.
  - destruct fuel as [|fuel]; [lia|]. cbn [levels_down]. rewrite pow2_half.
    pose proof (pow2_pos_nat s). rewrite (proj2 (Nat.leb_le 1 _)) by lia.
    replace (k - S s)%nat with (k - 1 - s)%nat by lia. replace (k - 1 - s + 1)%nat with (k - s)%nat by lia.
    rewrite one_level, bind_ok by (lia || done). cbn [stages_down].
    rewrite <- Nat.pow_succ_r'. replace (S (k - 1 - s)) with (k - s)%nat by lia.
    rewrite <- (IH fuel); [|lia|lia|apply stage_wf; [lia|done]]. f_equal. lia.
Qed.
End Levels.

(** ** The transforms as compositions of stages *)
Lemma for_ext {S : Type} n (f g : nat -> S -> res S) s :
  (forall i s, (i < n)%nat -> f i s = g i s) -> for_ n f s = for_ n g s.
Proof.
  intros H. induction n as [|n IH]; cbn [for_]; [done|]. rewrite IH by (intros; apply H; lia).
  destruct (for_ n g s) as [s'|]; [|done]. rewrite !bind_ok. apply H. lia.
Qed.

Lemma MSB_pow s : (s < 63)%nat -> MSB (2 ^ s) = S s.
Proof.
  intros Hs. unfold MSB. rewrite Nat2Z.inj_pow. change (Z.of_nat 2) with 2.
  rewrite (GetMSB_spec 64); [rewrite Z.log2_pow2 by lia; lia|lia|].
  split; [apply Z.pow_pos_nonneg; lia|apply Z.pow_lt_mono_r; lia].
Qed.

Definition fwd (q : Z) (w : nat -> Z) (k : nat) (v : list Z) : list Z := stages_up (fwd_upd q w) k k v.
Definition inv_scale (q c : Z) (v : list Z) : list Z := map (fun x => (x * c) mod q) v.

Section Transforms.
Context {q : Z} {Hq : NativeModulus W q} (k : nat) (Hk : (k <= 31)%nat).
Context (table precon : NativeVector).
Let w (j : nat) : Z := table.[j].
Context (Ltable : length (data table) = (2 ^ k)%nat) (Ftable : Forall (reduced q) (data table)).
Context (Hprecon : data precon = map (fun v => v * 2 ^ W / q) (data table)).

Lemma w_reduced j : (j < 2 ^ k)%nat -> reduced q (w j).
Proof using Hk Ltable Ftable. intros Hj. apply reduced_at; [done|]. by rewrite Ltable. Qed.

Lemma fwd_upd_reduced m i a b : reduced q a -> reduced q b -> reduced q (fwd_upd q w m i a b).1 /\ reduced q (fwd_upd q w m i a b).2.
Proof using Hq. intros _ _. split; apply (nm_mod (w := W)). Qed.
Lemma inv_upd_reduced m i a b : reduced q a -> reduced q b -> reduced q (inv_upd q w m i a b).1 /\ reduced q (inv_upd q w m i a b).2.
Proof using Hq. intros _ _. split; apply (nm_mod (w := W)). Qed.

Lemma read_root_ok j : (0 < j < 2 ^ k)%nat -> read_root table j = Ok (w j).
Proof using Hk Ltable. intros Hj. apply vget_at. rewrite Ltable. lia. Qed.

Lemma read_precon_ok j : (0 < j < 2 ^ k)%nat -> read_precon table precon j = Ok (w j, w j * 2 ^ W / q).
Proof using Hk Ltable Hprecon.
  intros Hj. unfold read_precon. rewrite (vget_at table), bind_ok by (rewrite Ltable; lia).
  assert (length (data precon) = 2 ^ k)%nat by (rewrite Hprecon, length_map; exact Ltable).
  rewrite (vget_total (data precon)), bind_ok by lia. rewrite Hprecon, lookup_total_map by lia. done.
Qed.

(** The forward transforms: the four variants compute the same stages. *)
Lemma forward_levels {X} (read : nat -> res X) (bf : X -> list Z -> nat -> nat -> res (list Z)) (x : nat -> X) v :
  (forall j, (0 < j < 2 ^ k)%nat -> read j = Ok (x j)) ->
  (forall m i v lo hi, (0 < m + i < 2 ^ k)%nat -> (lo < length v)%nat -> (hi < length v)%nat -> lo <> hi ->
    reduced q (v !!! lo) -> reduced q (v !!! hi) ->
    bf (x (m + i)%nat) v lo hi =
      Ok (<[hi := (fwd_upd q w m i (v !!! lo) (v !!! hi)).2]> (<[lo := (fwd_upd q w m i (v !!! lo) (v !!! hi)).1]> v))) ->
  wf_data (q := q) k v ->
  levels_up read bf FUEL (2 ^ k) 1 (2 ^ k / 2) (MSB (2 ^ k / 2)) v = Ok (fwd q w k v).
Proof using Hq Hk Ltable.
  intros Hread Hbf Hv.
  apply (levels_up_eq read bf (fwd_upd q w) k k x ltac:(lia) Hread fwd_upd_reduced Hbf k FUEL 0 _ _ v); [lia|unfold FUEL; lia| |done].
  intros Hlt. destruct k as [|k']; [lia|]. rewrite pow2_half, MSB_pow by lia. split; [f_equal|]; lia.
Qed.

Lemma barrett_bf m i v lo hi :
  (0 < m + i < 2 ^ k)%nat -> (lo < length v)%nat -> (hi < length v)%nat -> lo <> hi ->
  reduced q (v !!! lo) -> reduced q (v !!! hi) ->
  let mul := mul_barrett q (mu_of W q) (w (m + i)) in
  let r := Ok (<[hi := (fwd_upd q w m i (v !!! lo) (v !!! hi)).2]> (<[lo := (fwd_upd q w m i (v !!! lo) (v !!! hi)).1]> v)) in
  ct_butterfly mul q v lo hi = r /\ ct_butterfly_nz mul q v lo hi = r.
Proof using Hk Ltable Ftable Hq.
  intros Hj Hlo Hhi Hne Rlo Rhi mul r.
  assert (multiplies (q := q) mul (w (m + i))) as Hmul by (apply mul_barrett_ok, w_reduced; lia).
  assert (ct_butterfly mul q v lo hi = r) as E by (by apply ct_butterfly_ok).
  split; [done|]. rewrite <- E. by apply ct_butterfly_nz_ok with (om := w (m + i)).
Qed.

Lemma precon_bf m i v lo hi :
  (0 < m + i < 2 ^ k)%nat -> (lo < length v)%nat -> (hi < length v)%nat -> lo <> hi ->
  reduced q (v !!! lo) -> reduced q (v !!! hi) ->
  let mul := mul_precon q (w (m + i), w (m + i) * 2 ^ W / q) in
  let r := Ok (<[hi := (fwd_upd q w m i (v !!! lo) (v !!! hi)).2]> (<[lo := (fwd_upd q w m i (v !!! lo) (v !!! hi)).1]> v)) in
  ct_butterfly mul q v lo hi = r /\ ct_butterfly_nz mul q v lo hi = r.
Proof using Hk Ltable Ftable Hq.
  intros Hj Hlo Hhi Hne Rlo Rhi mul r.
  assert (multiplies (q := q) mul (w (m + i))) as Hmul by (apply mul_precon_ok, w_reduced; lia).
  assert (ct_butterfly mul q v lo hi = r) as E by (by apply ct_butterfly_ok).
  split; [done|]. rewrite <- E. by apply ct_butterfly_nz_ok with (om := w (m + i)).
Qed.

(** A modulus of the class fits the size that [SetModulus] checks. *)
Lemma native_size : GetMSB W q <= MAX_MODULUS_SIZE W.
Proof using Hq.
  clear -Hq. destruct (nm_barrett (w := W) (m := q)) as [Hr Hmu]. destruct (GetMSB_bounds W q) as [H1 H2]; [unfold W; lia|unfold W in *; lia|].
  change (MAX_MODULUS_SIZE W) with 60. destruct (Z.le_gt_cases (GetMSB W q) 60) as [|Hgt]; [done|]. exfalso.
  apply (Z.lt_irrefl (2 ^ W)). eapply Z.le_lt_trans; [|exact Hmu].
  assert (2 ^ (GetMSB W q + 3) <= 2 ^ (2 * GetMSB W q + 3) / q) as Hdiv.
  { apply Z.div_le_lower_bound; [lia|]. replace (2 * GetMSB W q + 3) with (GetMSB W q + (GetMSB W q + 3)) by lia.
    rewrite (Z.pow_add_r 2 (GetMSB W q) (GetMSB W q + 3)) by lia. apply Z.mul_le_mono_nonneg_r; lia. }
  etransitivity; [|exact Hdiv]. apply Z.pow_le_mono_r; [lia|]. assert (W = 64) by done. lia.
Qed.

Lemma same_size_ok element result : length (data result) = length (data element) -> same_size element result = Ok tt.
Proof using Type. intros Hl. unfold same_size. by rewrite Hl, Nat.eqb_refl. Qed.

Lemma copy_into_ok element result : modulus element = q -> length (data result) = length (data element) -> copy_into element result = Ok element.
Proof using Hq.
  clear -Hq. intros Em Hl. unfold copy_into, NativeVec.SetModulus. rewrite Em, (proj2 (Z.ltb_ge _ _) native_size), bind_ok. cbn [data].
  assert (returns (for_ (length (data element)) (fun i d => x ← vget (data element) i; vset d i x) (data result)) (fun d => d = data element)) as ->%returns_eq.
  { eapply returns_mono.
    - apply (returns_for (fun i d => length d = length (data element) /\ forall j, (j < i)%nat -> d !!! j = data element !!! j)); [split; [done|lia]|].
      intros i d Hi [Ld Hd]. rewrite (vget_total (data element)), bind_ok, vset_lt by lia. apply returns_ok.
      split; [by rewrite length_insert|]. intros j Hj. destruct (decide (j = i)) as [->|].
      + by rewrite list_lookup_total_insert_eq by lia.
      + rewrite list_lookup_total_insert_ne by done. apply Hd. lia.
    - intros d [Ld Hd]. apply list_total_ext; [done|]. intros j Hj. apply Hd. lia. }
  rewrite bind_ok. unfold with_data. cbn [modulus]. destruct element as [m d]. cbn in Em |- *. by subst m.
Qed.

Section Forward.
Context (element : NativeVector) (Em : modulus element = q) (Hv : wf_data (q := q) k (data element)).

Lemma ForwardInPlace_ok :
  ForwardTransformToBitReverseInPlace table element = Ok (NVec q (fwd q w k (data element))).
Proof using Hq Hk Ltable Ftable Em Hv.
  unfold ForwardTransformToBitReverseInPlace. rewrite Em, nm_mu, bind_ok, (proj1 Hv).
  rewrite (forward_levels _ _ w); [|apply read_root_ok| |done].
  - rewrite bind_ok. unfold with_data. by rewrite Em.
  - intros m i v lo hi Hj Hlo Hhi Hne Rl Rh. by apply (barrett_bf m i v lo hi).
Qed.

Lemma Forward_ok result : length (data result) = length (data element) ->
  ForwardTransformToBitReverse element table result = Ok (NVec q (fwd q w k (data element))).
Proof using Hq Hk Ltable Ftable Em Hv.
  intros Hl. unfold ForwardTransformToBitReverse. rewrite same_size_ok, bind_ok by done.
  rewrite Em, nm_mu, bind_ok, copy_into_ok, bind_ok, (proj1 Hv) by done. rewrite (forward_levels _ _ w); [|apply read_root_ok| |done].
  - rewrite bind_ok. unfold with_data. by rewrite Em.
  - intros m i v lo hi Hj Hlo Hhi Hne Rl Rh. by apply (barrett_bf m i v lo hi).
Qed.

Lemma Forward_precon_ok result : length (data result) = length (data element) ->
  ForwardTransformToBitReverse_precon element table precon result = Ok (NVec q (fwd q w k (data element))).
Proof using All.
  intros Hl. unfold ForwardTransformToBitReverse_precon. rewrite same_size_ok, bind_ok, copy_into_ok, bind_ok by done.
  rewrite Em, (proj1 Hv). rewrite (forward_levels _ _ (fun j => (w j, w j * 2 ^ W / q))); [|apply read_precon_ok| |done].
  - rewrite bind_ok. unfold with_data. by rewrite Em.
  - intros m i v lo hi Hj Hlo Hhi Hne Rl Rh. by apply (precon_bf m i v lo hi).
Qed.

Lemma ForwardInPlace_precon_ok :
  ForwardTransformToBitReverseInPlace_precon table precon element = Ok (NVec q (fwd q w k (data element))).
Proof using All.
  unfold ForwardTransformToBitReverseInPlace_precon. rewrite Em, (proj1 Hv).
  set (bf := fun op => ct_butterfly (mul_precon q op) q). set (x := fun j => (w j, w j * 2 ^ W / q)).
  assert (forall m i v lo hi, (0 < m + i < 2 ^ k)%nat -> (lo < length v)%nat -> (hi < length v)%nat -> lo <> hi ->
    reduced q (v !!! lo) -> reduced q (v !!! hi) -> bf (x (m + i)%nat) v lo hi =
      Ok (<[hi := (fwd_upd q w m i (v !!! lo) (v !!! hi)).2]> (<[lo := (fwd_upd q w m i (v !!! lo) (v !!! hi)).1]> v))) as Hbf
    by (intros m i v lo hi Hj Hlo Hhi Hne Rl Rh; by apply (precon_bf m i v lo hi)).
  destruct (decide (k = 0%nat)) as [E0|Hk0].
  { rewrite E0. cbn. unfold with_data. by rewrite Em. }
  set (k' := pred k). assert (k = S k') as Ek by lia. clearbody k'.
  assert (2 ^ k / 2 = 2 ^ k')%nat as -> by (rewrite Ek; apply pow2_half). rewrite MSB_pow by lia.
  assert (2 ^ k' < 2 ^ k)%nat as Hlt by (apply Nat.pow_lt_mono_r; lia).
  change (levels_up (read_precon table precon) bf FUEL (2 ^ k') 1 (2 ^ k') (S k') (data element))
    with (levels_up (read_precon table precon) bf FUEL (2 ^ k') (2 ^ 0) (2 ^ k') (S k') (stages_up (fwd_upd q w) k 0 (data element))).
  rewrite (levels_up_eq (q := q) _ _ (fwd_upd q w) k k' x ltac:(lia)
    ltac:(intros j Hj; apply read_precon_ok; lia) fwd_upd_reduced
    ltac:(intros m i v lo hi Hj; apply Hbf; lia) k' FUEL 0); [|lia|unfold FUEL; lia| |done].
  2: { intros _. split; [f_equal|]; lia. }
  rewrite bind_ok.
  pose proof (stages_up_wf (q := q) (fwd_upd q w) k k ltac:(lia) fwd_upd_reduced k' (data element) ltac:(lia) Hv) as Hv'.
  transitivity (d ← level (read_precon table precon) bf (2 ^ k') 1 1 (stages_up (fwd_upd q w) k k' (data element)); Ok (with_data element d)).
  - f_equal. unfold level. apply for_ext. intros i s Hi. rewrite (Nat.add_comm i).
    destruct (read_precon table precon (2 ^ k' + i)) as [op|]; [|done]. rewrite !bind_ok. cbn [for_]. rewrite bind_ok.
    f_equal; rewrite Nat.pow_1_r; lia.
  - pose proof (one_level (q := q) _ bf (fwd_upd q w) k k x ltac:(lia) read_precon_ok fwd_upd_reduced Hbf k' _ ltac:(lia) Hv') as Hl.
    replace (k - 1 - k')%nat with 0%nat in Hl by lia. replace (k - k')%nat with 1%nat in Hl by lia.
    change (2 ^ 0)%nat with 1%nat in Hl. rewrite Hl, bind_ok. unfold with_data, fwd. rewrite Em. do 2 f_equal.
    assert (forall j, j = S k' -> stage (fwd_upd q w (2 ^ k')) 1 (stages_up (fwd_upd q w) k k' (data element)) =
      stages_up (fwd_upd q w) k j (data element)) as H; [|by apply H].
    intros j ->. cbn [stages_up]. by replace (k - 1 - k')%nat with 0%nat by lia.
Qed.
End Forward.

Section Inverse.
Context (element : NativeVector) (Em : modulus element = q) (Hv : wf_data (q := q) k (data element)).
Context (c : Z) (Hc : reduced q c).

Lemma gs_bf {mul : Z -> res Z} m i v lo hi :
  multiplies (q := q) mul (w (m + i)) -> (lo < length v)%nat -> (hi < length v)%nat -> lo <> hi ->
  reduced q (v !!! lo) -> reduced q (v !!! hi) ->
  gs_butterfly Ok mul q v lo hi =
    Ok (<[hi := (inv_upd q w m i (v !!! lo) (v !!! hi)).2]> (<[lo := (inv_upd q w m i (v !!! lo) (v !!! hi)).1]> v)).
Proof using Hq.
  intros Hmul Hlo Hhi Hne Rl Rh. rewrite (gs_butterfly_ok v lo hi Hlo Hhi Hne Rl Rh mul _ Hmul Ok 1 multiplies_one).
  unfold inv_upd; cbn [fst snd]. do 3 f_equal. by rewrite Z.mul_1_r, Zmod_mod.
Qed.

Definition inv_plain : list Z := inv_scale q c (stages_down (inv_upd q w) k k (data element)).

Lemma InverseInPlace_ok :
  InverseTransformFromBitReverseInPlace table c element = Ok (NVec q inv_plain).
Proof using Hq Hk Ltable Ftable Em Hv Hc.
  unfold InverseTransformFromBitReverseInPlace. rewrite Em, nm_mu, bind_ok, (proj1 Hv).
  pose proof (levels_down_eq (q := q) (read_root table) (fun omega => gs_butterfly Ok (mul_barrett q (mu_of W q) omega) q)
    (inv_upd q w) k k w ltac:(lia) read_root_ok inv_upd_reduced
    ltac:(intros m i v lo hi Hj; apply gs_bf, mul_barrett_ok, w_reduced; lia) k FUEL (data element) ltac:(lia) ltac:(unfold FUEL; lia) Hv) as E.
  replace (k - k)%nat with 0%nat in E by lia. change (2 ^ 0)%nat with 1%nat in E. cbn [Nat.add] in E. rewrite E, bind_ok.
  assert (forall s v, (s <= k)%nat -> wf_data (q := q) k v -> wf_data (q := q) k (stages_down (inv_upd q w) k s v)) as Hwf.
  { induction s as [|s IH]; intros v Hs Hv'; [done|]. cbn [stages_down]. apply IH; [lia|].
    apply (stage_wf (inv_upd q w) k k ltac:(lia) inv_upd_reduced); [lia|done]. }
  destruct (Hwf k (data element) ltac:(lia) Hv) as [Lu Fu]. unfold inv_plain.
  set (u := stages_down (inv_upd q w) k k (data element)) in *.
  match goal with |- context [for_ _ ?f u] => set (step := f) end.
  assert (returns (for_ (2 ^ k) step u) (fun d => d = inv_scale q c u)) as ->%returns_eq; [|rewrite bind_ok; unfold with_data; by rewrite Em].
  eapply returns_mono.
  { apply (returns_for (fun i d => length d = (2 ^ k)%nat /\ forall j, (j < 2 ^ k)%nat ->
      d !!! j = if (j <? i)%nat then (u !!! j * c) mod q else u !!! j)); [by split|].
    intros i d Hi [Ld Hd]. unfold step. rewrite (vget_total d), bind_ok by lia. rewrite (Hd i Hi), Nat.ltb_irrefl.
    rewrite mul_barrett_ok, bind_ok, vset_lt; [|lia|done|by apply (reduced_at q (NVec q u)); [done|cbn [data]; lia]].
    apply returns_ok. split; [by rewrite length_insert|]. intros j Hj. destruct (decide (j = i)) as [->|].
    - rewrite list_lookup_total_insert_eq, (proj2 (Nat.ltb_lt _ _)) by lia. done.
    - rewrite list_lookup_total_insert_ne by done. rewrite (Hd j Hj).
      destruct (Nat.ltb_spec j i), (Nat.ltb_spec j (S i)); (done || lia). }
  intros d [Ld Hd]. unfold inv_scale. apply list_total_ext; [rewrite length_map; lia|]. intros j Hj.
  rewrite (Hd j), (proj2 (Nat.ltb_lt _ _)), lookup_total_map by lia. done.
Qed.

Definition inv_precon : list Z :=
  stages_down (inv_upd q w) k (k - 1) (stage (inv_upd_scaled q c w (2 ^ (k - 1))) 1 (data element)).

Lemma scaled_reduced m i a b :
  reduced q a -> reduced q b -> reduced q (inv_upd_scaled q c w m i a b).1 /\ reduced q (inv_upd_scaled q c w m i a b).2.
Proof using Hq. intros _ _. split; apply (nm_mod (w := W)). Qed.

Lemma InverseInPlace_precon_ok : (0 < k)%nat ->
  InverseTransformFromBitReverseInPlace_precon table precon c (c * 2 ^ W / q) element = Ok (NVec q inv_precon).
Proof using All.
  intros Hk0. unfold InverseTransformFromBitReverseInPlace_precon. rewrite Em, (proj1 Hv).
  set (k' := pred k). assert (k = S k') as Ek by lia. clearbody k'. unfold inv_precon. replace (k - 1)%nat with k' by lia.
  set (mi := mul_precon q (c, c * 2 ^ W / q)). set (x := fun j => (w j, w j * 2 ^ W / q)).
  set (bf := fun (op : Z * Z) => gs_butterfly mi (fun y => y ← mul_precon q op y; mi y) q).
  assert (2 ^ k = 2 * 2 ^ k')%nat as Epow by (rewrite Ek; apply Nat.pow_succ_r').
  assert (multiplies (q := q) mi c) as Hmi by (by apply mul_precon_ok).
  match goal with |- context [for_ _ ?f (data element)] => set (step := f) end.
  assert (for_ (Nat.div2 (2 ^ k + 1)) step (data element) = level (read_precon table precon) bf (2 ^ k') 1 1 (data element)) as ->.
  { rewrite Epow. replace (Nat.div2 (2 * 2 ^ k' + 1)) with (2 ^ k')%nat by (rewrite Nat.div2_div; apply Nat.div_unique with 1%nat; lia).
    unfold level, step. apply for_ext. intros i s Hi. rewrite Epow.
    replace ((2 * i + 2 * 2 ^ k') / 2)%nat with (2 ^ k' + i)%nat
      by (rewrite <- Nat.mul_add_distr_l, Nat.mul_comm, Nat.div_mul; lia).
    destruct (read_precon table precon (2 ^ k' + i)) as [op|]; [|done]. rewrite !bind_ok. cbn [for_]. rewrite bind_ok.
    unfold bf. f_equal; rewrite Nat.pow_1_r; lia. }
  pose proof (one_level (q := q) (read_precon table precon) bf (inv_upd_scaled q c w) k k x ltac:(lia) read_precon_ok scaled_reduced) as Hl.
  specialize (Hl ltac:(intros m i v lo hi Hj Hlo Hhi Hne Rl Rh; unfold bf;
    rewrite (gs_butterfly_ok v lo hi Hlo Hhi Hne Rl Rh _ (w (m + i) * c)) with (c := c);
    [unfold inv_upd_scaled; cbn [fst snd]; by rewrite !Zmult_mod_idemp_l, !Z.mul_assoc
    |intros a Ha; unfold x; rewrite (mul_precon_ok (w (m + i))), bind_ok by (done || apply w_reduced; lia);
     rewrite Hmi by apply (nm_mod (w := W)); by rewrite Zmult_mod_idemp_l, Z.mul_assoc
    |done]) k' (data element) ltac:(lia) Hv).
  replace (k - 1 - k')%nat with 0%nat in Hl by lia. replace (k - k')%nat with 1%nat in Hl by lia.
  change (2 ^ 0)%nat with 1%nat in Hl. rewrite Hl, bind_ok. clear Hl.
  pose proof (stage_wf (inv_upd_scaled q c w) k k ltac:(lia) scaled_reduced k' (data element) ltac:(lia) Hv) as Hwf.
  replace (k - 1 - k')%nat with 0%nat in Hwf by lia. change (2 ^ 0)%nat with 1%nat in Hwf.
  pose proof (levels_down_eq (q := q) (read_precon table precon) (fun op => gs_butterfly Ok (mul_precon q op) q)
    (inv_upd q w) k k x ltac:(lia) read_precon_ok inv_upd_reduced
    ltac:(intros m i v lo hi Hj; apply gs_bf, mul_precon_ok, w_reduced; lia) k' FUEL _ ltac:(lia) ltac:(unfold FUEL; lia) Hwf) as E.
  replace (k - k')%nat with 1%nat in E by lia. change (2 ^ 1)%nat with 2%nat in E. cbn [Nat.add] in E.
  replace (2 ^ k / 4)%nat with (2 ^ k' / 2)%nat by (rewrite Epow; change 4%nat with (2 * 2)%nat; rewrite Nat.Div0.div_mul_cancel_l; lia).
  rewrite E, bind_ok. unfold with_data. by rewrite Em.
Qed.
End Inverse.
End Transforms.
