(* ===== verification/NttSpec.v ===== *)
(** * What the transform computes

    Mathematics of the stages of [NttFacts]: the inverse stages undo the
    forward ones, the forward stages evaluate the polynomial at the odd powers
    of the root, and the tables of [PreCompute] satisfy what both need. *)

From Stdlib Require Import ZArith Lia String.
From stdpp Require Import base tactics numbers list strings gmap.
From S2P Require Import Prelude Double NativeInt NativeIntFacts ModArith NativeVec SchemeCore Negacyclic BitReverse Ntt NttFacts.

(** ** The inverse undoes the forward transform *)
Section Undo.
Context (q : Z) (w wi : nat -> Z) (k : nat).
Context (Hinv : forall j, (0 < j < 2 ^ k)%nat -> w j * wi j ≡[q] 1).

(** [u] is [c] times [v]. *)
Definition scaled (c : Z) (u v : list Z) : Prop :=
  length u = (2 ^ k)%nat /\ length v = (2 ^ k)%nat /\ forall x, (x < 2 ^ k)%nat -> u !!! x ≡[q] c * v !!! x.

(** An update that adds and subtracts, with a factor [e]. *)
Definition undoes (e : Z) (m : nat) (upd : nat -> Z -> Z -> Z * Z) : Prop :=
  forall b lo hi, (upd b lo hi).1 ≡[q] (lo + hi) * e /\ (upd b lo hi).2 ≡[q] (lo - hi) * wi (m + b)%nat * e.

Lemma inv_upd_undoes m : undoes 1 m (inv_upd q wi m).
Proof using Type.
  intros b lo hi. unfold inv_upd; cbn [fst snd]. rewrite !eqm_mod. split; apply eqm_refl; ring.
Qed.
Lemma inv_upd_scaled_undoes e m : undoes e m (inv_upd_scaled q e wi m).
Proof using Type.
  intros b lo hi. unfold inv_upd_scaled; cbn [fst snd]. by rewrite !eqm_mod.
Qed.

Lemma undo_stage c e s upd u v :
  (s < k)%nat -> undoes e (2 ^ s) upd -> scaled c u (stage (fwd_upd q w (2 ^ s)) (2 ^ (k - 1 - s)) v) ->
  scaled (2 * c * e) (stage upd (2 ^ (k - 1 - s)) u) v.
Proof using Hinv.
  intros Hs Hupd (Lu & Lv & Hu). rewrite stage_length in Lv. split; [by rewrite stage_length|]. split; [done|].
  intros x Hx. pose proof (pow2_blocks k s Hs) as Epow. set (t := (2 ^ (k - 1 - s))%nat) in *.
  pose proof (pow2_pos_nat (k - 1 - s)) as Ht. fold t in Ht.
  assert (2 ^ S s <= 2 ^ k)%nat as Hm by (apply Nat.pow_le_mono_r; lia). rewrite Nat.pow_succ_r' in Hm.
  pose proof (pow2_pos_nat s) as Hm0. set (m := (2 ^ s)%nat) in *.
  destruct (block_decomp t x Ht) as (b & r & Ex & Hr & Eb & Er).
  assert (b < m)%nat as Hb by nia.
  assert (forall b' r', (b' < m)%nat -> (r' < 2 * t)%nat -> u !!! (b' * (2 * t) + r')%nat ≡[q]
    c * (if (r' <? t)%nat then (fwd_upd q w m b' (v !!! (b' * (2 * t) + r')%nat) (v !!! (b' * (2 * t) + r' + t)%nat)).1
         else (fwd_upd q w m b' (v !!! (b' * (2 * t) + r' - t)%nat) (v !!! (b' * (2 * t) + r')%nat)).2)) as Hval.
  { intros b' r' Hb' Hr'. rewrite Hu by nia. unfold stage. rewrite lookup_total_tab by nia. cbv zeta.
    destruct (block_at t b' r' Hr') as [-> ->]. done. }
  unfold stage. rewrite lookup_total_tab by lia. cbv zeta. rewrite Eb, Er.
  pose proof (Hinv (m + b)%nat ltac:(lia)) as Hw.
  destruct (Nat.ltb_spec r t) as [Hc|Hc].
  - rewrite (proj1 (Hupd b _ _)). rewrite Ex at 1. rewrite (Hval b r) by lia.
    replace (x + t)%nat with (b * (2 * t) + (r + t))%nat by lia. rewrite (Hval b (r + t)%nat) by lia.
    rewrite (proj2 (Nat.ltb_lt r t)), (proj2 (Nat.ltb_ge (r + t) t)) by lia. unfold fwd_upd; cbn [fst snd].
    rewrite !eqm_mod. replace (b * (2 * t) + (r + t) - t)%nat with x by lia. replace (b * (2 * t) + r + t)%nat with (b * (2 * t) + (r + t))%nat by lia.
    rewrite <- Ex. apply eqm_refl. ring.
  - rewrite (proj2 (Hupd b _ _)). replace (x - t)%nat with (b * (2 * t) + (r - t))%nat by lia. rewrite (Hval b (r - t)%nat) by lia.
    rewrite Ex at 1. rewrite (Hval b r) by lia.
    rewrite (proj2 (Nat.ltb_lt (r - t) t)), (proj2 (Nat.ltb_ge r t)) by lia. unfold fwd_upd; cbn [fst snd].
    rewrite !eqm_mod. replace (b * (2 * t) + (r - t) + t)%nat with x by lia. rewrite <- Ex.
    replace (b * (2 * t) + (r - t))%nat with (x - t)%nat by lia.
    transitivity (2 * c * e * v !!! x * (w (m + b)%nat * wi (m + b)%nat)); [apply eqm_refl; ring|].
    rewrite Hw. apply eqm_refl. ring.
Qed.

Lemma undo_stages s c u v :
  (s <= k)%nat -> scaled c u (stages_up (fwd_upd q w) k s v) ->
  scaled (c * 2 ^ Z.of_nat s) (stages_down (inv_upd q wi) k s u) v.
Proof using Hinv.
  revert c u. induction s as [|s IH]; intros c u Hs Hu; cbn [stages_up stages_down] in *.
  - by rewrite Z.pow_0_r, Z.mul_1_r.
  - replace (c * 2 ^ Z.of_nat (S s)) with ((2 * c * 1) * 2 ^ Z.of_nat s) by (rewrite Nat2Z.inj_succ, Z.pow_succ_r by lia; ring).
    apply IH; [lia|]. apply undo_stage; [lia|apply inv_upd_undoes|done].
Qed.
End Undo.

Section RoundTrip.
Context {q : Z} {Hq : NativeModulus W q} (k : nat) (table tableI : NativeVector) (c : Z).
Let w (j : nat) : Z := table.[j].
Let wi (j : nat) : Z := tableI.[j].
Context (Hinv : forall j, (0 < j < 2 ^ k)%nat -> w j * wi j ≡[q] 1).
Context (Hc : 2 ^ Z.of_nat k * c ≡[q] 1).

Lemma scaled_eq d u v : d ≡[q] 1 -> scaled q k d u v -> Forall (reduced q) u -> Forall (reduced q) v -> u = v.
Proof using Type.
  intros Hd (Lu & Lv & Huv) Fu Fv. apply list_total_ext; [lia|]. intros x Hx.
  pose proof (reduced_at q (NVec q u) x Fu ltac:(cbn; lia)) as R1. pose proof (reduced_at q (NVec q v) x Fv ltac:(cbn; lia)) as R2.
  apply (eqm_small q); [done|done|]. rewrite Huv by lia. rewrite Hd. apply eqm_refl. ring.
Qed.

Context (v : list Z) (Hv : wf_data (q := q) k v).

Lemma fwd_wf : wf_data (q := q) k (fwd q w k v).
Proof using Hv Hq.
  apply (stages_up_wf (fwd_upd q w) k k ltac:(lia)); [|lia|done]. intros m i a b _ _. split; apply (nm_mod (w := W)).
Qed.

Lemma fwd_scaled : scaled q k 1 (fwd q w k v) (stages_up (fwd_upd q w) k k v).
Proof using Hv Hq.
  destruct fwd_wf as [L _]. split; [done|]. split; [done|]. intros x _. apply eqm_refl. unfold fwd. lia.
Qed.

Lemma roundtrip_plain (element : NativeVector) : data element = fwd q w k v -> inv_plain (q := q) k tableI element c = v.
Proof using All.
  intros E. pose proof (undo_stages q w wi k Hinv k 1 _ v ltac:(lia) fwd_scaled) as (Lu & Lv & H).
  unfold inv_plain. rewrite E. apply (scaled_eq (2 ^ Z.of_nat k * c) _ _ Hc).
  - split; [unfold inv_scale; by rewrite length_map|]. split; [done|]. intros x Hx. unfold inv_scale.
    rewrite lookup_total_map by (unfold wi in Lu; lia). rewrite eqm_mod. pose proof (H x Hx) as Hx'. unfold wi in Hx'. rewrite Hx'. apply eqm_refl. ring.
  - apply map_reduced. intros. apply (nm_mod (w := W)).
  - apply Hv.
Qed.

Lemma roundtrip_precon (element : NativeVector) : (0 < k)%nat ->
  data element = fwd q w k v -> inv_precon (q := q) k tableI element c = v.
Proof using All.
  intros Hk E. unfold inv_precon. rewrite E. change (fun j => tableI.[j]) with wi.
  assert (scaled q k 1 (fwd q w k v) (stage (fwd_upd q w (2 ^ (k - 1))) (2 ^ (k - 1 - (k - 1))) (stages_up (fwd_upd q w) k (k - 1) v))) as Hs.
  { pose proof fwd_scaled as H. replace k with (S (k - 1)) in H at 4 by lia. exact H. }
  pose proof (undo_stage q w wi k Hinv 1 c (k - 1) _ _ _ ltac:(lia) (inv_upd_scaled_undoes q wi c _) Hs) as H1.
  replace (k - 1 - (k - 1))%nat with 0%nat in H1 by lia. change (2 ^ 0)%nat with 1%nat in H1.
  pose proof (undo_stages q w wi k Hinv (k - 1) _ _ v ltac:(lia) H1) as H2.
  apply (scaled_eq _ _ _ ) in H2; [exact H2| | |apply Hv].
  - transitivity (2 ^ Z.of_nat k * c); [|exact Hc]. apply eqm_refl. replace (Z.of_nat k) with (Z.of_nat (k - 1) + 1) by lia. rewrite Z.pow_add_r by lia. ring.
  - assert (forall s u, (s <= k)%nat -> wf_data (q := q) k u -> wf_data (q := q) k (stages_down (inv_upd q wi) k s u)) as Hwf.
    { induction s as [|s IH]; intros u Hs' Hu; [done|]. cbn [stages_down]. apply IH; [lia|].
      apply (stage_wf (inv_upd q wi) k k ltac:(lia)); [|lia|done]. intros m i a b _ _. split; apply (nm_mod (w := W)). }
    apply Hwf; [lia|]. pose proof (stage_wf (inv_upd_scaled q c wi) k k ltac:(lia)
      ltac:(intros m i a b _ _; split; apply (nm_mod (w := W))) (k - 1) _ ltac:(lia) fwd_wf) as H3.
    replace (k - 1 - (k - 1))%nat with 0%nat in H3 by lia. exact H3.
Qed.
End RoundTrip.

(** ** The forward transform evaluates the polynomial *)
Section Evaluate.
Context (q : Z) (w : nat -> Z) (k : nat) (c : Z) (x : nat) (Hx : (x < 2 ^ k)%nat).
(** The point [c] of position [x]: its powers are the table entries the
    stages use on the way to [x], up to the sign of the half taken. *)
Context (Hpoint : forall s, (s < k)%nat ->
  let t := (2 ^ (k - 1 - s))%nat in
  c ^ Z.of_nat t ≡[q] (if (x mod (2 * t) <? t)%nat then 1 else -1) * w (2 ^ s + x / (2 * t))%nat).

Definition block_eval (T : nat) (v : list Z) : Z := sumZ T (fun j => v !!! (x / T * T + j)%nat * c ^ Z.of_nat j).

Lemma eval_stage s v : (s < k)%nat -> length v = (2 ^ k)%nat ->
  block_eval (2 ^ (k - S s)) (stage (fwd_upd q w (2 ^ s)) (2 ^ (k - 1 - s)) v) ≡[q] block_eval (2 ^ (k - s)) v.
Proof using All.
  intros Hs Lv. specialize (Hpoint s Hs). cbv zeta in Hpoint. pose proof (pow2_blocks k s Hs) as Epow.
  replace (2 ^ (k - s))%nat with (2 * 2 ^ (k - 1 - s))%nat by (rewrite <- Nat.pow_succ_r'; f_equal; lia).
  replace (k - S s)%nat with (k - 1 - s)%nat by lia.
  pose proof (pow2_pos_nat (k - 1 - s)) as Ht. set (t := (2 ^ (k - 1 - s))%nat) in *. set (m := (2 ^ s)%nat) in *.
  destruct (block_decomp t x Ht) as (b & r & Ex & Hr & Eb & Er). rewrite Eb, Er in Hpoint.
  unfold block_eval. rewrite Eb. assert (b < m)%nat as Hb by nia.
  assert (forall r', (r' < 2 * t)%nat -> stage (fwd_upd q w m) t v !!! (b * (2 * t) + r')%nat =
    (if (r' <? t)%nat then (fwd_upd q w m b (v !!! (b * (2 * t) + r')%nat) (v !!! (b * (2 * t) + r' + t)%nat)).1
     else (fwd_upd q w m b (v !!! (b * (2 * t) + r' - t)%nat) (v !!! (b * (2 * t) + r')%nat)).2)) as Hval.
  { intros r' Hr'. unfold stage. rewrite lookup_total_tab by nia. cbv zeta. by destruct (block_at t b r' Hr') as [-> ->]. }
  assert (forall f, sumZ (2 * t) f = sumZ t f + sumZ t (fun i => f (t + i)%nat)) as Hsplit
    by (intros f; replace (2 * t)%nat with (t + t)%nat by lia; apply sumZ_split).
  rewrite Hsplit, <- sumZ_add.
  assert (forall j, c ^ Z.of_nat (t + j) = c ^ Z.of_nat t * c ^ Z.of_nat j) as Hpow
    by (intros j; rewrite <- Z.pow_add_r by lia; f_equal; lia).
  destruct (Nat.ltb_spec r t) as [Hc|Hc].
  - assert (x / t = 2 * b)%nat as -> by (symmetry; apply Nat.div_unique with r; lia).
    apply sumZ_eqm. intros j Hj. replace (2 * b * t + j)%nat with (b * (2 * t) + j)%nat by lia.
    rewrite Hval, (proj2 (Nat.ltb_lt j t)) by lia. unfold fwd_upd; cbn [fst]. rewrite eqm_mod, Hpow, Hpoint.
    replace (b * (2 * t) + j + t)%nat with (b * (2 * t) + (t + j))%nat by lia. apply eqm_refl. ring.
  - assert (x / t = 2 * b + 1)%nat as -> by (symmetry; apply Nat.div_unique with (r - t)%nat; lia).
    apply sumZ_eqm. intros j Hj. replace ((2 * b + 1) * t + j)%nat with (b * (2 * t) + (t + j))%nat by lia.
    rewrite Hval, (proj2 (Nat.ltb_ge (t + j) t)) by lia. unfold fwd_upd; cbn [snd]. rewrite eqm_mod, Hpow, Hpoint.
    replace (b * (2 * t) + (t + j) - t)%nat with (b * (2 * t) + j)%nat by lia. apply eqm_refl. ring.
Qed.

Lemma stages_up_length U s v : length (stages_up U k s v) = length v.
Proof using Type. induction s as [|s IH]; [done|]. cbn [stages_up]. by rewrite stage_length. Qed.

Lemma fwd_eval v : length v = (2 ^ k)%nat -> fwd q w k v !!! x ≡[q] peval (2 ^ k) (fun j => v !!! j) c.
Proof using All.
  intros Lv.
  assert (forall s, (s <= k)%nat -> block_eval (2 ^ (k - s)) (stages_up (fwd_upd q w) k s v) ≡[q] block_eval (2 ^ k) v) as H.
  { induction s as [|s IH]; intros Hs; [by rewrite Nat.sub_0_r|]. cbn [stages_up].
    rewrite eval_stage by (first [lia | by rewrite stages_up_length]). apply IH. lia. }
  specialize (H k ltac:(lia)). rewrite Nat.sub_diag in H. change (2 ^ 0)%nat with 1%nat in H.
  transitivity (block_eval 1 (fwd q w k v)).
  - unfold block_eval. cbn [sumZ]. rewrite Nat.div_1_r, Nat.mul_1_r, Nat.add_0_r. change (Z.of_nat 0) with 0. rewrite Z.pow_0_r. apply eqm_refl. ring.
  - unfold fwd. rewrite H. unfold block_eval, peval. rewrite (Nat.div_small x (2 ^ k)) by done. done.
Qed.
End Evaluate.

(** ** The points: odd powers of the root, in bit-reversed order *)
Definition rev (k x : nat) : Z := bitrev k (Z.of_nat x).
Definition point (psi : Z) (k x : nat) : Z := psi ^ (2 * rev k x + 1).

Section Points.
Context (q psi : Z) (k : nat) (Hroot : psi ^ 2 ^ Z.of_nat k ≡[q] -1).

Lemma rev_nonneg x : 0 <= rev k x.
Proof using Type. apply bitrev_range. Qed.

(** Exponents matter modulo [2^(k+1)]; half of that changes the sign. *)
Lemma root_period a b : 0 <= a -> 0 <= b ->
  psi ^ (a + b * 2 ^ Z.of_nat k) ≡[q] (if Z.even b then 1 else -1) * psi ^ a.
Proof using Hroot.
  intros Ha Hb. assert (0 < 2 ^ Z.of_nat k) by (apply Z.pow_pos_nonneg; lia).
  rewrite Z.pow_add_r, Z.mul_comm by nia. apply eqm_mul; [|done].
  rewrite (Z.mul_comm b), Z.pow_mul_r by lia.
  rewrite (eqm_pow_nonneg q _ (-1) b Hroot Hb). apply eqm_refl. symmetry.
  destruct (Z.even b) eqn:E.
  - apply Z.even_spec in E as [c ->]. rewrite Z.pow_mul_r by lia. change ((-1) ^ 2) with 1. by rewrite Z.pow_1_l by lia.
  - assert (Z.odd b = true) as E' by (by rewrite <- Z.negb_even, E). apply Z.odd_spec in E' as [c ->].
    rewrite Z.pow_add_r, Z.pow_mul_r by lia. change ((-1) ^ 2) with 1. by rewrite Z.pow_1_l by lia.
Qed.

(** Every point is a root of [x^n + 1]. *)
Lemma point_root x : point psi k x ^ Z.of_nat (2 ^ k) ≡[q] -1.
Proof using Hroot.
  unfold point. pose proof (rev_nonneg x). rewrite Nat2Z.inj_pow. change (Z.of_nat 2) with 2.
  rewrite <- Z.pow_mul_r by lia. pose proof (root_period 0 (2 * rev k x + 1) ltac:(lia) ltac:(lia)) as H0.
  rewrite Z.add_0_l in H0. rewrite H0, Z.even_add, Z.even_mul. cbn. done.
Qed.

Lemma point_power s x : (s < k)%nat -> (x < 2 ^ k)%nat ->
  let t := (2 ^ (k - 1 - s))%nat in
  point psi k x ^ Z.of_nat t ≡[q] (if (x mod (2 * t) <? t)%nat then 1 else -1) * psi ^ rev k (2 ^ s + x / (2 * t))%nat.
Proof using Hroot.
  intros Hs Hx t. pose proof (pow2_blocks k s Hs) as Epow. fold t in Epow.
  pose proof (pow2_pos_nat (k - 1 - s)) as Ht. fold t in Ht.
  destruct (block_decomp t x Ht) as (b & r & Ex & Hr & Eb & Er). rewrite Eb, Er. assert (b < 2 ^ s)%nat as Hb by nia.
  set (h := (k - 1 - s)%nat) in *. assert (k = (S s + h)%nat) as Ek by lia.
  assert (Z.of_nat t = 2 ^ Z.of_nat h) as Et by (unfold t; rewrite Nat2Z.inj_pow; done).
  assert (Z.of_nat (2 ^ s) = 2 ^ Z.of_nat s) as Es by (by rewrite Nat2Z.inj_pow).
  assert (2 ^ Z.of_nat (S h) = 2 * Z.of_nat t) as E2t by (rewrite Nat2Z.inj_succ, Z.pow_succ_r, Et by lia; done).
  set (bit := if (r <? t)%nat then 0 else 1).
  assert (rev k x = bitrev h (Z.of_nat x) * 2 ^ Z.of_nat (S s) + (bit * 2 ^ Z.of_nat s + bitrev s (Z.of_nat b))) as E1.
  { unfold rev. rewrite Ek, bitrev_position by lia. do 2 f_equal.
    - f_equal. rewrite <- Et. unfold bit. destruct (Nat.ltb_spec r t).
      + replace (Z.of_nat x / Z.of_nat t) with (Z.of_nat b * 2) by (apply Z.div_unique_pos with (Z.of_nat r); lia). apply Z.mod_mul; lia.
      + replace (Z.of_nat x / Z.of_nat t) with (1 + Z.of_nat b * 2) by (apply Z.div_unique_pos with (Z.of_nat r - Z.of_nat t); lia).
        by rewrite Z_mod_plus_full.
    - f_equal. rewrite E2t. symmetry. apply Z.div_unique_pos with (Z.of_nat r); lia. }
  assert (rev k (2 ^ s + b)%nat = bitrev s (Z.of_nat b) * 2 ^ Z.of_nat (S h) + 2 ^ Z.of_nat h) as E3.
  { unfold rev. rewrite Ek, Nat2Z.inj_add, Es. apply bitrev_level. lia. }
  rewrite E3. unfold point. rewrite <- Z.pow_mul_r by (pose proof (rev_nonneg x); lia). rewrite Et.
  pose proof (bitrev_range h (Z.of_nat x)). pose proof (bitrev_range s (Z.of_nat b)). set (A := bitrev h (Z.of_nat x)) in *.
  set (B := bitrev s (Z.of_nat b)) in *. assert (0 <= bit <= 1) as Hbit by (unfold bit; destruct (r <? t)%nat; lia).
  assert (2 ^ Z.of_nat k = 2 ^ Z.of_nat (S s) * 2 ^ Z.of_nat h) as Ek2 by (rewrite Ek, Nat2Z.inj_add, Z.pow_add_r by lia; done).
  replace ((2 * rev k x + 1) * 2 ^ Z.of_nat h) with ((B * 2 ^ Z.of_nat (S h) + 2 ^ Z.of_nat h) + (2 * A + bit) * 2 ^ Z.of_nat k).
  - rewrite root_period by nia. apply eqm_mul; [|done]. rewrite Z.even_add, Z.even_mul. cbn [Z.even orb]. unfold bit.
    destruct (r <? t)%nat; done.
  - rewrite E1, Ek2, !Nat2Z.inj_succ, !Z.pow_succ_r by lia. ring.
Qed.
End Points.

(** ** The tables of [PreCompute] *)
Lemma rev_index k j : (j < 2 ^ k)%nat ->
  (Z.to_nat (rev k j) < 2 ^ k)%nat /\ rev k (Z.to_nat (rev k j)) = Z.of_nat j.
Proof.
  intros Hj. pose proof (bitrev_range k (Z.of_nat j)) as Hr. fold (rev k j) in Hr.
  assert (Z.of_nat (2 ^ k) = 2 ^ Z.of_nat k) as E by (by rewrite Nat2Z.inj_pow).
  split; [lia|]. unfold rev at 1. rewrite Z2Nat.id by lia. apply bitrev_involutive. lia.
Qed.

Lemma order_msb k : (0 < k <= 31)%nat -> GetMSB 64 ((2 ^ Z.of_nat k - 1) mod 2 ^ 32) = Z.of_nat k.
Proof.
  intros Hk. assert (2 <= 2 ^ Z.of_nat k <= 2 ^ 31).
  { split; [change 2 with (2 ^ 1) at 1|]; apply Z.pow_le_mono_r; lia. }
  rewrite Z.mod_small by lia. rewrite GetMSB_spec by lia. rewrite Z.sub_1_r, Z.log2_pred_pow2 by lia. lia.
Qed.

Section Tables.
Context {q : Z} {Hq : NativeModulus W q} (psi : Z) (k : nat) (Hk : (0 < k <= 24)%nat).
Context (Hodd : Z.odd q = true) (Hpsi : reduced q psi) (Hroot : psi ^ 2 ^ Z.of_nat k ≡[q] -1).

Lemma q_half : q < 2 ^ 63.
Proof using All.
  pose proof (q_bounds (q := q)). change (2 ^ 64) with (2 * 2 ^ 63) in *.
  destruct (decide (q = 2 ^ 63)) as [->|]; [discriminate Hodd|]. lia.
Qed.

(** The root and the orders are invertible. *)
Lemma coprime_root : Z.gcd psi q = 1.
Proof using All.
  pose proof (q_bounds (q := q)) as Hqb. assert (0 < 2 ^ Z.of_nat k) by (apply Z.pow_pos_nonneg; lia).
  apply (eqm_iff q) in Hroot as [c Hc].
  apply Z.bezout_1_gcd. exists (- psi ^ (2 ^ Z.of_nat k - 1)), c.
  assert (psi ^ 2 ^ Z.of_nat k = psi * psi ^ (2 ^ Z.of_nat k - 1)) as E.
  { rewrite <- Z.pow_succ_r by lia. f_equal. lia. }
  rewrite E in Hc. lia.
Qed.

Lemma coprime_order i : Z.gcd (2 ^ Z.of_nat i) q = 1.
Proof using All.
  induction i as [|i IH]; [by rewrite Z.gcd_1_l|]. rewrite Nat2Z.inj_succ, Z.pow_succ_r by lia.
  apply Z.gcd_bezout in IH as (a & b & E). apply Z.odd_spec in Hodd as [c ->].
  apply Z.bezout_1_gcd. exists (- a * c), (1 - 2 * c * b).
  transitivity (2 * c + 1 - 2 * c * (a * 2 ^ Z.of_nat i + b * (2 * c + 1))); [ring|]. rewrite E. ring.
Qed.

Lemma inverse_exists a : 0 <= a < 2 ^ 64 -> Z.gcd a q = 1 ->
  exists b, NativeInt.ModInverse W a q = Ok b /\ reduced q b /\ b * a ≡[q] 1.
Proof using All.
  intros Ha Hg. pose proof (q_bounds (q := q)). pose proof q_half.
  destruct (ModInverse_spec W (nm_width (w := W) (m := q)) a q) as [H1 H2]; [change (W - 1) with 63; lia|change (2 ^ W) with (2 ^ 64); lia|].
  destruct (H1 Hg) as [b Hb]. exists b. destruct (H2 b Hb) as (_ & Hr & He). by split.
Qed.

Lemma table_mul x r : reduced q x -> reduced q r -> ModMulEq_mu W x r q (mu_of W q) = Ok ((x * r) mod q).
Proof using All.
  intros Hx Hr. change (ModMulEq_mu W x r q (mu_of W q)) with (ModMul_mu_ W x r q (mu_of W q)).
  pose proof (nm_reduced_word (w := W) _ Hx). pose proof (nm_reduced_word (w := W) _ Hr).
  pose proof (nm_bounds (w := W) (m := q)) as Hb.
  destruct (GetMSB_bounds W q ltac:(unfold W; lia) ltac:(lia)) as [Hm1 Hm2].
  assert (q < 2 ^ (2 * GetMSB W q + 2)).
  { apply Z.lt_le_trans with (2 ^ GetMSB W q); [lia|apply Z.pow_le_mono_r; lia]. }
  unfold reduced in *. by apply nm_mul_mu_any; lia.
Qed.

(** A table of powers in bit-reversed order. *)
Definition power_table (r : Z) (t : list Z) : Prop :=
  length t = (2 ^ k)%nat /\ forall j, (j < 2 ^ k)%nat -> t !!! j = r ^ rev k j mod q.

Lemma root_tables_spec :
  returns (root_tables psi q (mu_of W q) (2 ^ k) (Z.of_nat k)) (fun '(T, TI) =>
    power_table psi T /\ exists psi', reduced q psi' /\ psi' * psi ≡[q] 1 /\ power_table psi' TI).
Proof using All.
  unfold root_tables. pose proof (nm_reduced_word (w := W) _ Hpsi) as Hw. change (2 ^ W) with (2 ^ 64) in Hw.
  destruct (inverse_exists psi Hw coprime_root) as (psi' & -> & Hr' & Hinv). rewrite bind_ok.
  assert (Z.of_nat (2 ^ k) = 2 ^ Z.of_nat k) as Ep by (by rewrite Nat2Z.inj_pow).
  set (P := fun (r : Z) (i : nat) (t : list Z) => length t = (2 ^ k)%nat /\
    forall j, (j < 2 ^ k)%nat -> rev k j < Z.of_nat i -> t !!! j = r ^ rev k j mod q).
  eapply returns_bind.
  { apply (returns_for (fun i (st : list Z * list Z * (Z * Z)) => P psi i st.1.1 /\ P psi' i st.1.2 /\
      st.2.1 = psi ^ Z.of_nat i mod q /\ st.2.2 = psi' ^ Z.of_nat i mod q)).
    - cbn [fst snd]. change (Z.of_nat 0) with 0. rewrite !Z.pow_0_r. pose proof (q_bounds (q := q)).
      rewrite Z.mod_small by lia. repeat split; try apply length_zeros; intros j Hj Hlt; pose proof (rev_nonneg k j); lia.
    - intros i [[T TI] [x xinv]] Hi ([LT HT] & [LTI HTI] & Ex & Exi). cbn [fst snd] in *.
      pose proof (rev_index k i Hi) as [Hri Hrr].
      assert (ReverseBits (Z.of_nat i) (Z.of_nat k) = rev k i) as ->.
      { rewrite ReverseBits_spec by lia. by rewrite Nat2Z.id. }
      rewrite (vset_lt T), bind_ok, (vset_lt TI), bind_ok by lia. rewrite Ex, Exi.
      rewrite !table_mul, !bind_ok by (done || apply (nm_mod (w := W))). apply returns_ok. cbn [fst snd].
      rewrite !Nat2Z.inj_succ, !Z.pow_succ_r, !Zmult_mod_idemp_l by lia.
      assert (forall r t, P r i t -> P r (S i) (<[Z.to_nat (rev k i) := r ^ Z.of_nat i mod q]> t)) as HP.
      { intros r t [Lt Ht]. split; [by rewrite length_insert|]. intros j Hj Hlt.
        destruct (decide (j = Z.to_nat (rev k i))) as [->|Hne].
        - rewrite list_lookup_total_insert_eq, Hrr by lia. done.
        - rewrite list_lookup_total_insert_ne by done. apply Ht; [done|].
          destruct (decide (rev k j = Z.of_nat i)) as [E|]; [|lia]. exfalso. apply Hne.
          rewrite <- (Nat2Z.id j). f_equal. rewrite <- (proj2 (rev_index k j Hj)), E, Nat2Z.id. done. }
      split; [by apply HP|]. split; [by apply HP|]. split; f_equal; ring. }
  intros [[T TI] [x xinv]] ([LT HT] & [LTI HTI] & _). cbn [fst snd] in *. apply returns_ok.
  assert (forall j, (j < 2 ^ k)%nat -> rev k j < Z.of_nat (2 ^ k)) as Hlt.
  { intros j Hj. rewrite Ep. apply bitrev_range. }
  split; [split; [done|]; intros j Hj; apply HT; auto|]. exists psi'. split; [done|]. split; [done|].
  split; [done|]. intros j Hj. apply HTI; auto.
Qed.
End Tables.

(** ** The cached tables *)
Definition shoup (q : Z) (t : list Z) : list Z := map (fun v => v * 2 ^ W / q) t.

(** The tables for the modulus [q] are those of the root [psi] of order
    [2^(k+1)] and its inverse [psi']. *)
Record tables_for (st : FTT) (q psi psi' : Z) (k : nat) (T TI C : list Z) : Prop := {
  tf_root : rootReverse st !! q = Some (NVec q T);
  tf_rootp : rootPreconReverse st !! q = Some (NVec q (shoup q T));
  tf_inv : rootInverseReverse st !! q = Some (NVec q TI);
  tf_invp : rootInversePreconReverse st !! q = Some (NVec q (shoup q TI));
  tf_coi : cycloOrderInverse st !! q = Some (NVec q C);
  tf_coip : cycloOrderInversePrecon st !! q = Some (NVec q (shoup q C));
  tf_T : power_table (q := q) k psi T;
  tf_TI : power_table (q := q) k psi' TI;
  tf_psi' : psi' * psi ≡[q] 1;
  tf_C : length C = S k /\ reduced q (C !!! k) /\ 2 ^ Z.of_nat k * (C !!! k) ≡[q] 1
}.
Definition FTT_ready (st : FTT) (q psi : Z) (k : nat) : Prop := exists psi' T TI C, tables_for st q psi psi' k T TI C.

(** The invariant of the cache: what is found in it is right. *)
Definition cache_ok (st : FTT) (q psi : Z) (k : nat) : Prop :=
  cached st q (2 ^ Z.of_nat k) = true -> FTT_ready st q psi k.

Section Cache.
Context {q : Z} {Hq : NativeModulus W q} (psi : Z) (k : nat) (Hk : (0 < k <= 24)%nat).
Context (Hodd : Z.odd q = true) (Hpsi : reduced q psi) (Hroot : psi ^ 2 ^ Z.of_nat k ≡[q] -1).

Lemma order_shift : Z.shiftr (2 ^ Z.of_nat (S k)) 1 = 2 ^ Z.of_nat k.
Proof using All.
  rewrite Z.shiftr_div_pow2, Nat2Z.inj_succ, Z.pow_succ_r by lia. change (2 ^ 1) with 2.
  rewrite Z.mul_comm. by apply Z.div_mul.
Qed.

Lemma order_power : IsPowerOfTwo (2 ^ Z.of_nat (S k)) = true.
Proof using All.
  unfold IsPowerOfTwo. assert (0 < 2 ^ Z.of_nat (S k)) by (apply Z.pow_pos_nonneg; lia).
  rewrite (proj2 (Z.eqb_neq (2 ^ Z.of_nat (S k)) 0)) by lia. cbn [negb andb].
  replace (2 ^ Z.of_nat (S k) - 1) with (Z.ones (Z.of_nat (S k))) by (rewrite Z.ones_equiv; lia).
  rewrite Z.land_ones, Z.mod_same by lia. done.
Qed.

Lemma prep_list t : Forall (reduced q) t -> mapM (fun v => PrepModMulConst_ W v q) t = Ok (shoup q t).
Proof using All. intros Ht. apply (mapM_ok (reduced q)); [|done]. intros v Hv. by apply nm_prep. Qed.

Lemma power_table_reduced r t : power_table (q := q) k r t -> Forall (reduced q) t.
Proof using All.
  intros [Lt Ht]. apply Forall_lookup. intros j v Hj. pose proof (lookup_lt_Some _ _ _ Hj).
  rewrite <- (list_lookup_total_correct _ _ _ Hj), Ht by lia. apply (nm_mod (w := W)).
Qed.

(** [PreCompute] fills the cache for the modulus and leaves the other moduli
    alone. *)
Lemma PreCompute_spec st : cache_ok st q psi k ->
  returns (PreCompute st psi (2 ^ Z.of_nat (S k)) q) (fun st' => FTT_ready st' q psi k /\
    (FTT_ready st q psi k \/ forall q', q' <> q -> rootReverse st' !! q' = rootReverse st !! q')).
Proof using All.
  intros Hok. unfold PreCompute. rewrite order_shift. unfold cache_ok in Hok.
  destruct (cached st q (2 ^ Z.of_nat k)); [apply returns_ok; split; [|left]; auto|]. clear Hok.
  rewrite order_msb, nm_mu, bind_ok by lia.
  assert (Z.to_nat (2 ^ Z.of_nat k) = 2 ^ k)%nat as ->.
  { rewrite <- (Nat2Z.id (2 ^ k)). f_equal. by rewrite Nat2Z.inj_pow. }
  eapply returns_bind; [apply (root_tables_spec psi k ltac:(lia) Hodd Hpsi Hroot)|].
  intros [T TI] [HT (psi' & Hr' & Hinv & HTI)]. replace (Z.to_nat (Z.of_nat k + 1)) with (S k) by lia.
  eapply returns_bind.
  { apply (tabulateM_returns (S k) _ (fun i b => reduced q b /\ b * 2 ^ Z.of_nat i ≡[q] 1)). intros i Hi.
    unfold order_inverse. rewrite (proj2 (Nat.leb_gt 31 i)) by lia.
    assert (0 < 2 ^ Z.of_nat i < 2 ^ 64) by (split; [apply Z.pow_pos_nonneg; lia|apply Z.pow_lt_mono_r; lia]).
    destruct (inverse_exists psi k ltac:(lia) Hodd Hpsi Hroot (2 ^ Z.of_nat i) ltac:(lia)) as (b & -> & Hb & Hbe);
      [by apply (coprime_order psi k ltac:(lia) Hodd Hpsi Hroot)|]. by apply returns_ok. }
  intros C [LC HC]. cbn [fst snd].
  assert (Forall (reduced q) C) as FC by (apply Forall_reduced_total; intros i Hi; apply HC; lia).
  rewrite !prep_list, !bind_ok by (first [done | by eapply power_table_reduced]). apply returns_ok. split.
  - exists psi', T, TI, C. split; cbn [rootReverse rootPreconReverse rootInverseReverse rootInversePreconReverse cycloOrderInverse
      cycloOrderInversePrecon]; rewrite ?lookup_insert_eq; try done.
    destruct (HC k ltac:(lia)) as [H1 H2]. split; [done|]. split; [done|]. by rewrite Z.mul_comm.
  - right. intros q' Hne. cbn [rootReverse]. by rewrite lookup_insert_ne.
Qed.

Lemma prepare_spec st len what : cache_ok st q psi k -> len = (2 ^ k)%nat ->
  returns (prepare st psi (2 ^ Z.of_nat (S k)) len what q) (fun st' => FTT_ready st' q psi k).
Proof using All.
  intros Hok ->. unfold prepare. rewrite order_power, order_shift. cbn [negb].
  rewrite Nat2Z.inj_pow. change (Z.of_nat 2) with 2. rewrite Z.eqb_refl. cbn [negb].
  destruct (cached st q (2 ^ Z.of_nat k)) eqn:E; [apply returns_ok; by apply Hok|].
  eapply returns_mono; [by apply PreCompute_spec|]. by intros st' [H _].
Qed.

Lemma not_trivial : trivial_root psi = false.
Proof using All.
  pose proof (q_bounds (q := q)). assert (0 < 2 ^ Z.of_nat k) by (apply Z.pow_pos_nonneg; lia).
  unfold trivial_root. destruct (Z.eqb_spec psi 1) as [->|_].
  - rewrite Z.pow_1_l in Hroot by lia. apply eqm_close in Hroot; lia.
  - destruct (Z.eqb_spec psi 0) as [->|_]; [|done]. rewrite Z.pow_0_l in Hroot by lia.
    apply eqm_close in Hroot; lia.
Qed.
End Cache.

(** ** The transforms of the class, with its cache *)
Section Class.
Context {q : Z} {Hq : NativeModulus W q} (psi : Z) (k : nat) (Hk : (0 < k <= 24)%nat).
Context (Hodd : Z.odd q = true) (Hpsi : reduced q psi) (Hroot : psi ^ 2 ^ Z.of_nat k ≡[q] -1).
Let order : Z := 2 ^ Z.of_nat (S k).
Context (st : FTT) (Hst : cache_ok st q psi k).
Context (v : list Z) (Hv : wf_data (q := q) k v).

(** What the forward transform returns. *)
Definition transformed (st' : FTT) (r : NativeVector) : Prop :=
  exists psi' T TI C, tables_for st' q psi psi' k T TI C /\ r = NVec q (fwd q (fun j => (NVec q T).[j]) k v).

Lemma root_of_table T x : power_table (q := q) k psi T -> (x < 2 ^ k)%nat ->
  fwd q (fun j => (NVec q T).[j]) k v !!! x ≡[q] peval (2 ^ k) (fun j => v !!! j) (point psi k x).
Proof using All.
  intros [LT HT] Hx. apply fwd_eval; [done| |apply Hv]. intros s Hs. cbv zeta.
  pose proof (point_power q psi k Hroot s x Hs Hx) as H. cbv zeta in H. rewrite H. apply eqm_mul; [done|].
  cbn [data]. rewrite HT; [by rewrite eqm_mod|].
  pose proof (pow2_blocks k s Hs) as Epow. pose proof (pow2_pos_nat (k - 1 - s)). set (t := (2 ^ (k - 1 - s))%nat) in *.
  assert (x / (2 * t) < 2 ^ s)%nat by (apply Nat.Div0.div_lt_upper_bound; lia).
  assert (2 ^ S s <= 2 ^ k)%nat as Hm by (apply Nat.pow_le_mono_r; lia). rewrite Nat.pow_succ_r' in Hm. lia.
Qed.

Lemma table_at_some m key t : m !! key = Some t -> table_at m key = t.
Proof using Type. unfold table_at. by intros ->. Qed.

Lemma forward_spec result : length (data result) = (2 ^ k)%nat ->
  returns (FTTForwardInPlace st psi order (NVec q v)) (fun '(st', r) => transformed st' r) /\
  returns (FTTForward st (NVec q v) psi order result) (fun '(st', r) => transformed st' r).
Proof using All.
  intros Hlen. pose proof Hv as [Lv Fv].
  unfold FTTForwardInPlace, FTTForward. rewrite (not_trivial psi k Hk Hodd Hpsi Hroot). cbn [modulus data].
  split; (eapply returns_bind; [by apply (prepare_spec psi k Hk Hodd Hpsi Hroot)|]); intros st' (psi' & T & TI & C & Ht);
    destruct (tf_T _ _ _ _ _ _ _ _ Ht) as [LT HT]; pose proof (power_table_reduced psi k Hk Hodd Hpsi Hroot psi T (tf_T _ _ _ _ _ _ _ _ Ht)) as FT;
    rewrite (table_at_some _ _ _ (tf_root _ _ _ _ _ _ _ _ Ht)), (table_at_some _ _ _ (tf_rootp _ _ _ _ _ _ _ _ Ht)).
  - rewrite (ForwardInPlace_precon_ok k ltac:(lia) (NVec q T) (NVec q (shoup q T)) LT FT eq_refl (NVec q v) eq_refl Hv), bind_ok.
    apply returns_ok. by exists psi', T, TI, C.
  - rewrite (Forward_precon_ok k ltac:(lia) (NVec q T) (NVec q (shoup q T)) LT FT eq_refl (NVec q v) eq_refl Hv), bind_ok
      by (cbn [data]; lia).
    apply returns_ok. by exists psi', T, TI, C.
Qed.

(** The inverse transform gives the vector back. *)
Lemma inverse_spec st' r : transformed st' r ->
  FTTInverseInPlace st' psi order r = Ok (st', NVec q v) /\
  forall result, length (data result) = (2 ^ k)%nat -> FTTInverse st' r psi order result = Ok (st', NVec q v).
Proof using All.
  intros (psi' & T & TI & C & Ht & ->).
  pose proof (tf_T _ _ _ _ _ _ _ _ Ht) as HT. pose proof (tf_TI _ _ _ _ _ _ _ _ Ht) as HTI.
  destruct (tf_C _ _ _ _ _ _ _ _ Ht) as (LC & RC & HC). pose proof (tf_psi' _ _ _ _ _ _ _ _ Ht) as Hpp.
  set (u := fwd q (fun j => (NVec q T).[j]) k v). pose proof (fwd_wf k (NVec q T) v Hv) as Hu. fold u in Hu.
  assert (prepare st' psi order (length u) "element" q = Ok st' /\ prepare st' psi order (2 ^ k) "result" q = Ok st') as [E1 E2].
  { assert (cached st' q (2 ^ Z.of_nat k) = true) as Hc.
    { unfold cached. rewrite (tf_root _ _ _ _ _ _ _ _ Ht). cbn [data]. rewrite (proj1 HT), Nat2Z.inj_pow. apply Z.eqb_refl. }
    assert (Z.of_nat (2 ^ k) = 2 ^ Z.of_nat k) as Ep by (by rewrite Nat2Z.inj_pow).
    unfold prepare. rewrite (proj1 Hu). unfold order. rewrite (order_power psi k Hk Hodd Hpsi Hroot), (order_shift psi k Hk Hodd Hpsi Hroot), Ep, Z.eqb_refl, Hc. done. }
  assert (FTT_inverse st' order (NVec q u) = Ok (NVec q v)) as Einv.
  { unfold FTT_inverse. cbn [modulus]. unfold order. rewrite (order_shift psi k Hk Hodd Hpsi Hroot), order_msb, Nat2Z.id by lia.
    rewrite (table_at_some _ _ _ (tf_coi _ _ _ _ _ _ _ _ Ht)), (table_at_some _ _ _ (tf_coip _ _ _ _ _ _ _ _ Ht)).
    rewrite (table_at_some _ _ _ (tf_inv _ _ _ _ _ _ _ _ Ht)), (table_at_some _ _ _ (tf_invp _ _ _ _ _ _ _ _ Ht)).
    cbn [data]. rewrite (vget_total C), bind_ok, (vget_total (shoup q C)), bind_ok by (unfold shoup; rewrite ?length_map; lia).
    unfold shoup at 2. rewrite lookup_total_map by lia.
    rewrite (InverseInPlace_precon_ok k ltac:(lia) (NVec q TI) (NVec q (shoup q TI)) (proj1 HTI)
      (power_table_reduced psi k Hk Hodd Hpsi Hroot psi' TI HTI) eq_refl (NVec q u) eq_refl Hu (C !!! k) RC ltac:(lia)).
    do 2 f_equal. apply (roundtrip_precon k (NVec q T) (NVec q TI) (C !!! k)); [|done|done|lia|done].
    intros j Hj. cbn [data]. rewrite (proj2 HT), (proj2 HTI), !eqm_mod by lia.
    rewrite <- Z.pow_mul_l, (Z.mul_comm psi), (eqm_pow_nonneg q _ 1 (rev k j) Hpp (rev_nonneg k j)).
    apply eqm_refl. apply Z.pow_1_l, rev_nonneg. }
  split.
  - unfold FTTInverseInPlace. rewrite (not_trivial psi k Hk Hodd Hpsi Hroot). cbn [modulus data]. by rewrite E1, bind_ok, Einv.
  - intros result Hl. unfold FTTInverse. rewrite (not_trivial psi k Hk Hodd Hpsi Hroot). cbn [modulus data].
    rewrite Hl, E2, bind_ok, copy_into_ok, bind_ok by (done || (cbn [data]; destruct Hu; lia)). by rewrite Einv.
Qed.
End Class.
