(* ===== verification/NttProps.v ===== *)
(** * Properties of the number theoretic transform *)

From Stdlib Require Import ZArith Lia String.
From stdpp Require Import base tactics numbers list strings gmap.
From S2P Require Import Prelude Double NativeInt NativeIntFacts ModArith NativeVec SchemeCore Negacyclic BitReverse Ntt NttFacts NttSpec.

Lemma cache_ok_Reset q psi k : cache_ok Reset q psi k.
Proof. intros H. vm_compute in H. discriminate H. Qed.

Lemma ready_cache_ok st q psi k : FTT_ready st q psi k -> cache_ok st q psi k.
Proof. by intros H _. Qed.

(** A product entry by entry. *)
Definition pointwise (q : Z) (u v : list Z) : list Z := zip_with (fun a b => (a * b) mod q) u v.

(** C29: the forward transform evaluates.  For an odd modulus, a root [psi]
    with [psi^n = -1] and any cache whose tables for the modulus are right,
    the transform in place and the copying one return, leave a cache that is
    right, and put at position [x] the canonical value of the polynomial at
    the point [psi^(2 rev(x) + 1)], a root of [x^n + 1]. *)
Theorem NTT_forward_evaluates (q psi : Z) (k : nat) (st : FTT) (v : list Z) (result : NativeVector) :
  NativeModulus W q -> (0 < k <= 24)%nat -> Z.odd q = true -> reduced q psi -> psi ^ 2 ^ Z.of_nat k ≡[q] -1 ->
  cache_ok st q psi k -> wf_data (q := q) k v -> length (data result) = (2 ^ k)%nat ->
  let order := 2 ^ Z.of_nat (S k) in
  let good := fun '(st', r) => FTT_ready st' q psi k /\ modulus r = q /\ wf_data (q := q) k (data r) /\
    forall x, (x < 2 ^ k)%nat -> r.[x] = peval (2 ^ k) (fun j => v !!! j) (point psi k x) mod q in
  returns (FTTForwardInPlace st psi order (NVec q v)) good /\
  returns (FTTForward st (NVec q v) psi order result) good.
Proof.
  intros Hq Hk Hodd Hpsi Hroot Hst Hv Hl order good.
  assert (forall st' r, transformed psi k v (q := q) st' r -> good (st', r)) as Hgood.
  { intros st' r (psi' & T & TI & C & Ht & ->). split; [by exists psi', T, TI, C|]. split; [done|].
    pose proof (fwd_wf k (NVec q T) v Hv) as Hu. split; [exact Hu|]. intros x Hx. cbn [data].
    apply eqm_canon.
    - apply (reduced_at q (NVec q (fwd q (fun j => (NVec q T).[j]) k v))); [apply Hu|]. destruct Hu as [Lu _]. cbn [data] in *. lia.
    - apply (root_of_table psi k Hk Hodd Hpsi Hroot st Hst v Hv); [exact (tf_T _ _ _ _ _ _ _ _ Ht)|done]. }
  destruct (forward_spec psi k Hk Hodd Hpsi Hroot st Hst v Hv result Hl) as [H1 H2].
  split; (eapply returns_mono; [eassumption|]); intros [st' r]; apply Hgood.
Qed.

Lemma NTT_forward_evaluates_witness :
  returns (FTTForwardInPlace Reset 2 8 (NVec 17 [1; 2; 3; 4])) (fun '(st', r) => r.[1] = peval 4 (fun j => [1; 2; 3; 4] !!! j) (point 2 2 1) mod 17).
Proof.
  assert (NativeModulus W 17) as Hq by (apply native_modulus_bits; unfold W; lia).
  eapply returns_mono.
  - apply (NTT_forward_evaluates 17 2 2 Reset [1; 2; 3; 4] (NVec 17 [0; 0; 0; 0])); try done; try lia.
    split; [done|]. apply (wf_vec_check W 17 [1; 2; 3; 4]); done.
  - intros [st' r] (_ & _ & _ & H). exact (H 1%nat ltac:(cbn; lia)).
Defined.

(** C30: the inverse transform.  Forward then inverse is the identity, in
    place and copying, and the inverse transform finds its tables in the cache
    that the forward transform left. *)
Theorem NTT_roundtrip (q psi : Z) (k : nat) (st : FTT) (v : list Z) (result : NativeVector) :
  NativeModulus W q -> (0 < k <= 24)%nat -> Z.odd q = true -> reduced q psi -> psi ^ 2 ^ Z.of_nat k ≡[q] -1 ->
  cache_ok st q psi k -> wf_data (q := q) k v -> length (data result) = (2 ^ k)%nat ->
  let order := 2 ^ Z.of_nat (S k) in
  returns (FTTForwardInPlace st psi order (NVec q v)) (fun '(st', r) =>
    FTTInverseInPlace st' psi order r = Ok (st', NVec q v) /\ FTTInverse st' r psi order result = Ok (st', NVec q v)).
Proof.
  intros Hq Hk Hodd Hpsi Hroot Hst Hv Hl order.
  destruct (forward_spec psi k Hk Hodd Hpsi Hroot st Hst v Hv result Hl) as [H1 _].
  eapply returns_mono; [exact H1|]. intros [st' r] Hr.
  destruct (inverse_spec psi k Hk Hodd Hpsi Hroot st Hst v Hv st' r Hr) as [E1 E2]. split; [exact E1|by apply E2].
Qed.

Lemma NTT_roundtrip_witness :
  returns (FTTForwardInPlace Reset 2 8 (NVec 17 [1; 2; 3; 16])) (fun '(st', r) =>
    FTTInverseInPlace st' 2 8 r = Ok (st', NVec 17 [1; 2; 3; 16]) /\ FTTInverse st' r 2 8 (NVec 17 [0; 0; 0; 0]) = Ok (st', NVec 17 [1; 2; 3; 16])).
Proof.
  assert (NativeModulus W 17) as Hq by (apply native_modulus_bits; unfold W; lia).
  apply (NTT_roundtrip 17 2 2 Reset [1; 2; 3; 16] (NVec 17 [0; 0; 0; 0])); try done; try lia.
  split; [done|]. apply (wf_vec_check W 17 [1; 2; 3; 16]); done.
Defined.

(** C28: multiplication of ring elements.  Transforming two vectors forward,
    multiplying entry by entry and transforming back computes the negacyclic
    product, that is, the product in [Z_q[x] / (x^n + 1)]. *)
Theorem NTT_multiplies (q psi : Z) (k : nat) (st : FTT) (a b : list Z) :
  NativeModulus W q -> (0 < k <= 24)%nat -> Z.odd q = true -> reduced q psi -> psi ^ 2 ^ Z.of_nat k ≡[q] -1 ->
  cache_ok st q psi k -> wf_data (q := q) k a -> wf_data (q := q) k b ->
  let order := 2 ^ Z.of_nat (S k) in
  returns (ra ← FTTForwardInPlace st psi order (NVec q a); rb ← FTTForwardInPlace ra.1 psi order (NVec q b);
           p ← ModMulV W ra.2 rb.2; FTTInverseInPlace rb.1 psi order p)
    (fun r => r.2 = NVec q (map (negacyclic q (2 ^ k) (fun i => a !!! i) (fun i => b !!! i)) (seq 0 (2 ^ k)))).
Proof.
  intros Hq Hk Hodd Hpsi Hroot Hst Ha Hb order. set (n := (2 ^ k)%nat).
  set (c := map (negacyclic q n (fun i => a !!! i) (fun i => b !!! i)) (seq 0 n)).
  assert (wf_data (q := q) k c) as Hc.
  { split; [apply length_tab|]. apply Forall_tab. intros. apply (nm_mod (w := W)). }
  eapply returns_bind; [exact (proj1 (forward_spec psi k Hk Hodd Hpsi Hroot st Hst a Ha (NVec q a) (proj1 Ha)))|].
  intros [s1 ra] (psi1 & T1 & TI1 & C1 & Ht1 & ->). cbn [fst snd].
  assert (cache_ok s1 q psi k) as Hs1 by (apply ready_cache_ok; by exists psi1, T1, TI1, C1).
  eapply returns_bind; [exact (proj1 (forward_spec psi k Hk Hodd Hpsi Hroot s1 Hs1 b Hb (NVec q b) (proj1 Hb)))|].
  intros [s2 rb] (psi2 & T2 & TI2 & C2 & Ht2 & ->). cbn [fst snd].
  pose proof (fwd_wf k (NVec q T1) a Ha) as [La Fa]. pose proof (fwd_wf k (NVec q T2) b Hb) as [Lb Fb].
  pose proof (fwd_wf k (NVec q T2) c Hc) as [Lc Fc].
  set (w1 := fun j => (NVec q T1).[j]) in *. set (w2 := fun j => (NVec q T2).[j]) in *.
  rewrite (ModMulV_ok (q := q) (w := W) (NVec q _) (NVec q _) eq_refl eq_refl Fa Fb (eq_trans La (eq_sym Lb))), bind_ok. cbn [data].
  assert (zip_with (fun x y => (x * y) mod q) (fwd q w1 k a) (fwd q w2 k b) = fwd q w2 k c) as ->.
  { apply list_total_ext; [rewrite length_zip_with; lia|]. intros x Hx. rewrite length_zip_with, La, Lb, Nat.min_id in Hx.
    rewrite vec_op_lookup by lia. symmetry. apply eqm_canon.
    { apply (reduced_at q (NVec q (fwd q w2 k c))); [exact Fc|]. change (x < length (fwd q w2 k c))%nat. lia. }
    pose proof (root_of_table psi k Hk Hodd Hpsi Hroot s1 Hs1 c Hc T2 x (tf_T _ _ _ _ _ _ _ _ Ht2) Hx) as Ec. fold w2 in Ec. rewrite Ec. clear Ec.
    pose proof (root_of_table psi k Hk Hodd Hpsi Hroot st Hst a Ha T1 x (tf_T _ _ _ _ _ _ _ _ Ht1) Hx) as Ea. fold w1 in Ea. rewrite Ea. clear Ea.
    pose proof (root_of_table psi k Hk Hodd Hpsi Hroot s1 Hs1 b Hb T2 x (tf_T _ _ _ _ _ _ _ _ Ht2) Hx) as Eb. fold w2 in Eb. rewrite Eb. clear Eb.
    rewrite <- negacyclic_eval by (apply point_root, Hroot). apply sumZ_eqm. intros j Hj. unfold c. by rewrite lookup_total_tab. }
  destruct (inverse_spec psi k Hk Hodd Hpsi Hroot s1 Hs1 c Hc s2 (NVec q (fwd q w2 k c))) as [E _];
    [by exists psi2, T2, TI2, C2|].
  unfold order. rewrite E. by apply returns_ok.
Qed.

Lemma NTT_multiplies_witness :
  returns (ra ← FTTForwardInPlace Reset 2 8 (NVec 17 [1; 2; 3; 16]); rb ← FTTForwardInPlace ra.1 2 8 (NVec 17 [0; 1; 0; 0]);
           p ← ModMulV W ra.2 rb.2; FTTInverseInPlace rb.1 2 8 p) (fun r => r.2 = NVec 17 [1; 1; 2; 3]).
Proof.
  assert (NativeModulus W 17) as Hq by (apply native_modulus_bits; unfold W; lia).
  apply (NTT_multiplies 17 2 2 Reset [1; 2; 3; 16] [0; 1; 0; 0]); try done; try lia.
  - split; [done|]. apply (wf_vec_check W 17 [1; 2; 3; 16]); done.
  - split; [done|]. apply (wf_vec_check W 17 [0; 1; 0; 0]); done.
Defined.

(** C31: the optimised variants agree.  With tables that hold the Shoup
    precomputations of each other, the four forward transforms (Barrett or
    precomputed, in place or copying, the latter skipping zero entries)
    compute the same vector, and for entrywise inverse tables both inverse
    transforms undo it. *)
Theorem NTT_variants_agree (q : Z) (k : nat) (T P TI PI : NativeVector) (c : Z) (v : list Z) (result : NativeVector) :
  NativeModulus W q -> (0 < k <= 31)%nat ->
  length (data T) = (2 ^ k)%nat -> Forall (reduced q) (data T) -> data P = shoup q (data T) ->
  length (data TI) = (2 ^ k)%nat -> Forall (reduced q) (data TI) -> data PI = shoup q (data TI) ->
  (forall j, (0 < j < 2 ^ k)%nat -> T.[j] * TI.[j] ≡[q] 1) -> reduced q c -> 2 ^ Z.of_nat k * c ≡[q] 1 ->
  wf_data (q := q) k v -> length (data result) = (2 ^ k)%nat ->
  exists r, ForwardTransformToBitReverseInPlace T (NVec q v) = Ok r /\ ForwardTransformToBitReverse (NVec q v) T result = Ok r /\
    ForwardTransformToBitReverseInPlace_precon T P (NVec q v) = Ok r /\
    ForwardTransformToBitReverse_precon (NVec q v) T P result = Ok r /\
    InverseTransformFromBitReverseInPlace TI c r = Ok (NVec q v) /\ InverseTransformFromBitReverse r TI c result = Ok (NVec q v) /\
    InverseTransformFromBitReverseInPlace_precon TI PI c (c * 2 ^ W / q) r = Ok (NVec q v) /\
    InverseTransformFromBitReverse_precon r TI PI c (c * 2 ^ W / q) result = Ok (NVec q v).
Proof.
  intros Hq Hk LT FT EP LTI FTI EPI Hinv Hc Hone Hv Hl. pose proof Hv as [Lv Fv].
  assert (k <= 31)%nat as Hk31 by lia.
  exists (NVec q (fwd q (fun j => T.[j]) k v)). pose proof (fwd_wf k T v Hv) as Hu.
  split; [by apply (ForwardInPlace_ok k Hk31 T LT FT (NVec q v))|].
  split; [apply (Forward_ok k Hk31 T LT FT (NVec q v)); cbn [data]; (done || lia)|].
  split; [by apply (ForwardInPlace_precon_ok k Hk31 T P LT FT EP (NVec q v))|].
  split; [apply (Forward_precon_ok k Hk31 T P LT FT EP (NVec q v)); cbn [data]; (done || lia)|].
  set (r := NVec q (fwd q (fun j => T.[j]) k v)).
  assert (InverseTransformFromBitReverseInPlace TI c r = Ok (NVec q v)) as E1.
  { rewrite (InverseInPlace_ok k Hk31 TI LTI FTI r eq_refl Hu c Hc). do 2 f_equal.
    by apply (roundtrip_plain k T TI c). }
  assert (InverseTransformFromBitReverseInPlace_precon TI PI c (c * 2 ^ W / q) r = Ok (NVec q v)) as E2.
  { rewrite (InverseInPlace_precon_ok k Hk31 TI PI LTI FTI EPI r eq_refl Hu c Hc) by lia. do 2 f_equal.
    apply (roundtrip_precon k T TI c); (done || lia). }
  assert (length (data result) = length (data r)) as Lr by (destruct Hu as [Lu _]; cbn [data r]; lia).
  pose proof (same_size_ok r result Lr) as Esize. pose proof (copy_into_ok r result eq_refl Lr) as Ecopy.
  split; [exact E1|]. split; [unfold InverseTransformFromBitReverse; by rewrite Esize, bind_ok, Ecopy, bind_ok|].
  split; [exact E2|]. unfold InverseTransformFromBitReverse_precon. by rewrite Esize, bind_ok, Ecopy, bind_ok.
Qed.

Lemma NTT_variants_agree_witness :
  exists r, ForwardTransformToBitReverseInPlace (NVec 17 [1; 4; 2; 8]) (NVec 17 [1; 0; 3; 4]) = Ok r /\
    InverseTransformFromBitReverseInPlace (NVec 17 [1; 13; 9; 15]) 13 r = Ok (NVec 17 [1; 0; 3; 4]).
Proof.
  assert (NativeModulus W 17) as Hq by (apply native_modulus_bits; unfold W; lia).
  destruct (NTT_variants_agree 17 2 (NVec 17 [1; 4; 2; 8]) (NVec 17 (shoup 17 [1; 4; 2; 8])) (NVec 17 [1; 13; 9; 15])
    (NVec 17 (shoup 17 [1; 13; 9; 15])) 13 [1; 0; 3; 4] (NVec 17 [0; 0; 0; 0]) Hq)
    as (r & E1 & _ & _ & _ & E2 & _).
  - lia.
  - reflexivity.
  - apply (wf_vec_check W 17 [1; 4; 2; 8]); done.
  - reflexivity.
  - reflexivity.
  - by apply (wf_vec_check W 17 [1; 13; 9; 15]).
  - reflexivity.
  - intros [|[|[|[|j]]]] Hj; cbn in Hj; try lia; reflexivity.
  - unfold reduced; lia.
  - reflexivity.
  - split; [reflexivity|]. by apply (wf_vec_check W 17 [1; 0; 3; 4]).
  - reflexivity.
  - exists r. split; [exact E1|exact E2].
Defined.
