(* ===== verification/NttRing.v ===== *)
(** * The transform as a change of representation

    The interface between the transform and the ring elements: [ntt v] is the
    list of the values of the polynomial [v] at the roots of [x^n + 1], the
    class [RingTransform] states that the transforms of [Ntt] convert between
    [v] and [ntt v] and leave the cache alone, and that the conversion is a
    bijection; the instance discharges it for a cache whose tables are
    ready. *)

From Stdlib Require Import ZArith Lia String.
From stdpp Require Import base tactics numbers list strings gmap.
From S2P Require Import Prelude Double NativeInt NativeIntFacts ModArith NativeVec SchemeCore Negacyclic BitReverse Ntt NttFacts NttSpec.

(** ** Every vector is a transform

    The forward stages undo the inverse ones as well. *)
Section Redo.
Context (q : Z) (w wi : nat -> Z) (k : nat).
Context (Hinv : forall j, (0 < j < 2 ^ k)%nat -> w j * wi j ≡[q] 1).

Lemma redo_stage c s u v :
  (s < k)%nat -> scaled q k c u (stage (inv_upd q wi (2 ^ s)) (2 ^ (k - 1 - s)) v) ->
  scaled q k (2 * c) (stage (fwd_upd q w (2 ^ s)) (2 ^ (k - 1 - s)) u) v.
Proof using Hinv.
  intros Hs (Lu & Lv & Hu). rewrite stage_length in Lv. split; [by rewrite stage_length|]. split; [done|].
  intros x Hx. pose proof (pow2_blocks k s Hs) as Epow. set (t := (2 ^ (k - 1 - s))%nat) in *.
  pose proof (pow2_pos_nat (k - 1 - s)) as Ht. fold t in Ht.
  assert (2 ^ S s <= 2 ^ k)%nat as Hm by (apply Nat.pow_le_mono_r; lia). rewrite Nat.pow_succ_r' in Hm.
  pose proof (pow2_pos_nat s) as Hm0. set (m := (2 ^ s)%nat) in *.
  destruct (block_decomp t x Ht) as (b & r & Ex & Hr & Eb & Er).
  assert (b < m)%nat as Hb by nia.
  assert (forall r', (r' < 2 * t)%nat -> u !!! (b * (2 * t) + r')%nat ≡[q]
    c * (if (r' <? t)%nat then v !!! (b * (2 * t) + r')%nat + v !!! (b * (2 * t) + r' + t)%nat
         else (v !!! (b * (2 * t) + r' - t)%nat - v !!! (b * (2 * t) + r')%nat) * wi (m + b)%nat)) as Hval.
  { intros r' Hr'. rewrite Hu by nia. unfold stage. rewrite lookup_total_tab by nia. cbv zeta.
    destruct (block_at t b r' Hr') as [-> ->]. unfold inv_upd. destruct (r' <? t)%nat; cbn [fst snd]; by rewrite eqm_mod. }
  unfold stage. rewrite lookup_total_tab by lia. cbv zeta. rewrite Eb, Er. unfold fwd_upd.
  pose proof (Hinv (m + b)%nat ltac:(lia)) as Hw.
  assert (forall lo hi, (b * (2 * t) <= lo)%nat -> (lo < b * (2 * t) + t)%nat -> hi = (lo + t)%nat ->
    u !!! lo ≡[q] c * (v !!! lo + v !!! hi) /\ u !!! hi * w (m + b)%nat ≡[q] c * (v !!! lo - v !!! hi)) as Hpair.
  { intros lo hi Hlo Hlt ->. split.
    - pose proof (Hval (lo - b * (2 * t))%nat ltac:(lia)) as E. rewrite (proj2 (Nat.ltb_lt _ t)) in E by lia.
      by replace (b * (2 * t) + (lo - b * (2 * t)))%nat with lo in E by lia.
    - pose proof (Hval (lo + t - b * (2 * t))%nat ltac:(lia)) as E. rewrite (proj2 (Nat.ltb_ge _ t)) in E by lia.
      replace (b * (2 * t) + (lo + t - b * (2 * t)))%nat with (lo + t)%nat in E by lia. rewrite E.
      replace (lo + t - t)%nat with lo by lia. transitivity (c * (v !!! lo - v !!! (lo + t)%nat) * (w (m + b)%nat * wi (m + b)%nat)).
      + apply eqm_refl. ring.
      + rewrite Hw. apply eqm_refl. ring. }
  destruct (Nat.ltb_spec r t) as [Hc|Hc]; cbn [fst snd]; rewrite eqm_mod.
  - destruct (Hpair x (x + t)%nat) as [E1 E2]; [lia|lia|done|]. rewrite E1, E2. apply eqm_refl. ring.
  - destruct (Hpair (x - t)%nat x) as [E1 E2]; [lia|lia|lia|]. rewrite E1, E2. apply eqm_refl. ring.
Qed.

Lemma redo_stages s c u v :
  (s <= k)%nat -> scaled q k c v (stages_down (inv_upd q wi) k s u) ->
  scaled q k (c * 2 ^ Z.of_nat s) (stages_up (fwd_upd q w) k s v) u.
Proof using Hinv.
  revert u. induction s as [|s IH]; intros u Hs Hv; cbn [stages_up stages_down] in *.
  - by rewrite Z.pow_0_r, Z.mul_1_r.
  - replace (c * 2 ^ Z.of_nat (S s)) with (2 * (c * 2 ^ Z.of_nat s)) by (rewrite Nat2Z.inj_succ, Z.pow_succ_r by lia; ring).
    apply redo_stage; [lia|]. apply IH; [lia|done].
Qed.
End Redo.

(** ** Values at the roots *)
Definition ntt (q psi : Z) (k : nat) (v : list Z) : list Z :=
  map (fun x => peval (2 ^ k) (fun j => v !!! j) (point psi k x) mod q) (seq 0 (2 ^ k)).

Lemma ntt_lookup q psi k v x : (x < 2 ^ k)%nat -> ntt q psi k v !!! x ≡[q] peval (2 ^ k) (fun j => v !!! j) (point psi k x).
Proof. intros Hx. unfold ntt. rewrite lookup_total_tab by done. apply eqm_mod. Qed.

Lemma length_ntt q psi k v : length (ntt q psi k v) = (2 ^ k)%nat.
Proof. apply length_tab. Qed.

(** ** The interface *)
Class RingTransform (st : FTT) (q psi : Z) (k : nat) : Prop := {
  rt_modulus : NativeModulus W q;
  rt_dim : (0 < k <= 24)%nat;
  rt_root_reduced : reduced q psi;
  rt_root : psi ^ 2 ^ Z.of_nat k ≡[q] -1;
  rt_forward v : wf_data (q := q) k v ->
    FTTForwardInPlace st psi (2 ^ Z.of_nat (S k)) (NVec q v) = Ok (st, NVec q (ntt q psi k v));
  rt_inverse v : wf_data (q := q) k v ->
    FTTInverseInPlace st psi (2 ^ Z.of_nat (S k)) (NVec q (ntt q psi k v)) = Ok (st, NVec q v);
  rt_injective u v : wf_data (q := q) k u -> wf_data (q := q) k v -> ntt q psi k u = ntt q psi k v -> u = v;
  rt_surjective u : wf_data (q := q) k u -> exists v, wf_data (q := q) k v /\ ntt q psi k v = u
}.

Section Instance_.
Context {q : Z} {Hq : NativeModulus W q} (psi : Z) (k : nat) (Hk : (0 < k <= 24)%nat).
Context (Hodd : Z.odd q = true) (Hpsi : reduced q psi) (Hroot : psi ^ 2 ^ Z.of_nat k ≡[q] -1).
Context (st : FTT) (Hst : FTT_ready st q psi k).

Lemma ntt_wf v : wf_data (q := q) k (ntt q psi k v).
Proof using Hq. split; [apply length_ntt|]. apply Forall_tab. intros. apply (nm_mod (w := W)). Qed.

Lemma fwd_ntt T v : power_table (q := q) k psi T -> wf_data (q := q) k v -> fwd q (fun j => (NVec q T).[j]) k v = ntt q psi k v.
Proof using Hq Hk Hodd Hpsi Hroot Hst.
  intros HT Hv. pose proof (fwd_wf k (NVec q T) v Hv) as [Lu Fu].
  apply list_total_ext; [rewrite length_ntt; exact Lu|]. intros x Hx. unfold ntt.
  assert (x < 2 ^ k)%nat as Hx' by (rewrite <- Lu; exact Hx). rewrite lookup_total_tab by done. apply eqm_canon.
  - exact (reduced_at q (NVec q (fwd q (fun j => (NVec q T).[j]) k v)) x Fu Hx).
  - apply (root_of_table psi k Hk Hodd Hpsi Hroot st ltac:(by intros _) v Hv); done.
Qed.

Lemma prepare_ready len what : len = (2 ^ k)%nat -> prepare st psi (2 ^ Z.of_nat (S k)) len what q = Ok st.
Proof using All.
  intros ->. destruct Hst as (psi' & T & TI & C & Ht). assert (Z.of_nat (2 ^ k) = 2 ^ Z.of_nat k) as Ep by (by rewrite Nat2Z.inj_pow).
  unfold prepare. rewrite (order_power psi k Hk Hodd Hpsi Hroot), (order_shift psi k Hk Hodd Hpsi Hroot), Ep, Z.eqb_refl. cbn [negb].
  unfold cached. rewrite (tf_root _ _ _ _ _ _ _ _ Ht). cbn [data]. by rewrite (proj1 (tf_T _ _ _ _ _ _ _ _ Ht)), Ep, Z.eqb_refl.
Qed.

Lemma forward_ready v : wf_data (q := q) k v ->
  FTTForwardInPlace st psi (2 ^ Z.of_nat (S k)) (NVec q v) = Ok (st, NVec q (ntt q psi k v)).
Proof using All.
  intros Hv. destruct (forward_spec psi k Hk Hodd Hpsi Hroot st ltac:(by intros _) v Hv (NVec q v) (proj1 Hv)) as [([st' r] & E & H) _].
  destruct H as (psi' & T & TI & C & Ht & ->). rewrite (fwd_ntt T v (tf_T _ _ _ _ _ _ _ _ Ht) Hv) in E. rewrite E. do 2 f_equal.
  revert E. unfold FTTForwardInPlace. rewrite (not_trivial psi k Hk Hodd Hpsi Hroot). cbn [modulus data].
  rewrite prepare_ready, bind_ok by apply Hv. destruct (ForwardTransformToBitReverseInPlace_precon _ _ _); [|discriminate].
  rewrite bind_ok. by intros [= -> _].
Qed.

Lemma transformed_ntt v : wf_data (q := q) k v -> transformed psi k v (q := q) st (NVec q (ntt q psi k v)).
Proof using All.
  intros Hv. destruct Hst as (psi' & T & TI & C & Ht). exists psi', T, TI, C. split; [done|].
  by rewrite (fwd_ntt T v (tf_T _ _ _ _ _ _ _ _ Ht) Hv).
Qed.

Lemma inverse_ready v : wf_data (q := q) k v ->
  FTTInverseInPlace st psi (2 ^ Z.of_nat (S k)) (NVec q (ntt q psi k v)) = Ok (st, NVec q v).
Proof using All.
  intros Hv. apply (inverse_spec psi k Hk Hodd Hpsi Hroot st ltac:(by intros _) v Hv). by apply transformed_ntt.
Qed.

Lemma tables_inverse psi' T TI C j : tables_for st q psi psi' k T TI C -> (0 < j < 2 ^ k)%nat -> (NVec q T).[j] * (NVec q TI).[j] ≡[q] 1.
Proof using All.
  intros Ht Hj. cbn [data]. rewrite (proj2 (tf_T _ _ _ _ _ _ _ _ Ht)), (proj2 (tf_TI _ _ _ _ _ _ _ _ Ht)), !eqm_mod by lia.
  rewrite <- Z.pow_mul_l, (Z.mul_comm psi), (eqm_pow_nonneg q _ 1 (rev k j) (tf_psi' _ _ _ _ _ _ _ _ Ht) (rev_nonneg k j)).
  apply eqm_refl. apply Z.pow_1_l, rev_nonneg.
Qed.

Lemma ntt_surjective u : wf_data (q := q) k u -> exists v, wf_data (q := q) k v /\ ntt q psi k v = u.
Proof using All.
  intros Hu. destruct Hst as (psi' & T & TI & C & Ht). destruct (tf_C _ _ _ _ _ _ _ _ Ht) as (LC & RC & HC).
  set (w := fun j => (NVec q T).[j]). set (wi := fun j => (NVec q TI).[j]).
  set (d := stages_down (inv_upd q wi) k k u). set (v := map (fun x => (x * C !!! k) mod q) d).
  assert (length d = (2 ^ k)%nat) as Ld.
  { assert (forall s u, length (stages_down (inv_upd q wi) k s u) = length u) as H.
    { induction s as [|s IH]; intros u'; [done|]. cbn [stages_down]. by rewrite IH, stage_length. }
    unfold d. rewrite H. apply Hu. }
  assert (wf_data (q := q) k v) as Hv.
  { split; [unfold v; by rewrite length_map|]. apply map_reduced. intros. apply (nm_mod (w := W)). }
  exists v. split; [done|]. rewrite <- (fwd_ntt T v (tf_T _ _ _ _ _ _ _ _ Ht) Hv). fold w.
  apply (scaled_eq (q := q) k ((C !!! k) * 2 ^ Z.of_nat k)); [by rewrite Z.mul_comm| |apply (fwd_wf k (NVec q T) v Hv)|apply Hu].
  apply (redo_stages q w wi k (fun j => tables_inverse psi' T TI C j Ht) k (C !!! k) u v ltac:(lia)).
  split; [apply Hv|]. split; [exact Ld|]. intros x Hx. unfold v. rewrite lookup_total_map by lia. rewrite eqm_mod.
  apply eqm_refl, Z.mul_comm.
Qed.

Lemma ntt_injective u v : wf_data (q := q) k u -> wf_data (q := q) k v -> ntt q psi k u = ntt q psi k v -> u = v.
Proof using All.
  intros Hu Hv E. pose proof (inverse_ready u Hu) as H. rewrite E, (inverse_ready v Hv) in H. by injection H.
Qed.

#[export] Instance FTT_RingTransform : RingTransform st q psi k.
Proof using All.
  split; [done..|exact forward_ready|exact inverse_ready|exact ntt_injective|exact ntt_surjective].
Qed.
End Instance_.

(** The cache that one transform leaves is such a cache. *)
Lemma ring_transform_exists q psi k : NativeModulus W q -> (0 < k <= 24)%nat -> Z.odd q = true -> reduced q psi -> psi ^ 2 ^ Z.of_nat k ≡[q] -1 ->
  exists st, RingTransform st q psi k.
Proof.
  intros Hq Hk Hodd Hpsi Hroot. pose proof (nm_bounds (w := W) (m := q)) as Bq. set (z := repeat 0 (2 ^ k)).
  assert (wf_data (q := q) k z) as Hz. { split; [apply repeat_length|]. apply Forall_forall. intros x Hx%list_elem_of_In%repeat_spec. unfold reduced. lia. }
  assert (cache_ok Reset q psi k) as H0. { intros H. unfold cached, Reset in H. cbn in H. rewrite lookup_empty in H. discriminate H. }
  destruct (forward_spec psi k Hk Hodd Hpsi Hroot Reset H0 z Hz (NVec q z)) as [([st r] & _ & psi' & T & TI & C & Ht & _) _]; [apply repeat_length|].
  exists st. apply FTT_RingTransform; try done. by exists psi', T, TI, C.
Qed.

(** A power by squarings, and the hypotheses as a check that needs small
    numbers only. *)
Fixpoint squarings (q : Z) (k : nat) (x : Z) : Z := match k with O => x | S k' => squarings q k' ((x * x) mod q) end.
Lemma squarings_spec q k : forall x, x ^ 2 ^ Z.of_nat k ≡[q] squarings q k x.
Proof.
  induction k as [|k IH]; intros x; cbn [squarings]; [change (2 ^ Z.of_nat 0) with 1; by rewrite Z.pow_1_r|].
  rewrite <- IH, Nat2Z.inj_succ, Z.pow_succ_r, Z.pow_mul_r by lia. apply eqm_pow_nonneg; [|lia]. rewrite eqm_mod. apply eqm_refl. ring.
Qed.

Definition ring_check (q psi : Z) (k : nat) : bool :=
  (3 <? q) && (q <? 2 ^ 59) && Z.odd q && (0 <? k)%nat && (k <=? 24)%nat && (0 <=? psi) && (psi <? q) && (squarings q k psi =? q - 1).
Lemma ring_transform_check q psi k : ring_check q psi k = true -> exists st, RingTransform st q psi k.
Proof.
  unfold ring_check. rewrite !andb_true_iff, !Z.ltb_lt, Nat.ltb_lt, Nat.leb_le, Z.leb_le, Z.eqb_eq. intros (((((((H1 & H2) & H3) & H4) & H5) & H6) & H7) & H8).
  apply ring_transform_exists; [apply native_modulus_bits; unfold W; lia|lia|done|done|]. rewrite squarings_spec, H8. apply eqm_iff. exists 1. ring.
Qed.
