(* ===== verification/Poly.v ===== *)
(** * Ring elements: [PolyImpl] over native vectors

    Models [src/core/include/lattice/hal/default/poly.h] and [poly-impl.h]
    ([NativePoly]), with [Transpose] of [poly-interface.h].  An element is its
    format, its parameters and its values, which may be missing (the null
    pointer of an element that was only declared).  The members that change
    the format take and return the cache of the transform ([Ntt.FTT]).  The
    transform for orders that are not powers of two is the argument
    [ArbitrarySwitchFormat]. *)

From Stdlib Require Import ZArith Lia String.
From stdpp Require Import base tactics numbers list strings gmap.
From S2P Require Import Prelude Double NativeInt NativeIntFacts ModArith NativeVec SchemeCore Negacyclic BitReverse Ntt.

Inductive Format := EVALUATION | COEFFICIENT.
#[export] Instance Format_eq_dec : EqDecision Format.
Proof. solve_decision. Defined.

Record ILParams := ILPar {
  cyclotomicOrder : Z;
  ringDimension : nat;
  ciphertextModulus : Z;
  rootOfUnity : Z
}.

Record NativePoly := MkPoly { p_format : Format; p_params : ILParams; p_values : option NativeVector }.

(** [*m_values]. *)
Definition values (p : NativePoly) : res NativeVector :=
  match p_values p with Some v => Ok v | None => Throw undefined_behaviour end.
Definition with_values (p : NativePoly) (v : NativeVector) : NativePoly := MkPoly (p_format p) (p_params p) (Some v).

(** ** Construction and access *)
Definition zero_vec (pp : ILParams) : NativeVector := NVec (ciphertextModulus pp) (repeat 0 (ringDimension pp)).
Definition new_poly (pp : ILParams) (f : Format) (initializeElementToZero : bool) : NativePoly :=
  MkPoly f pp (if initializeElementToZero then Some (zero_vec pp) else None).
Definition SetValuesToZero (p : NativePoly) : NativePoly := with_values p (zero_vec (p_params p)).
Definition SetValuesToMax (p : NativePoly) : res NativePoly :=
  let m := ciphertextModulus (p_params p) in
  max ← umod (Sub W m 1) m;
  Ok (with_values p (NVec m (repeat max (ringDimension (p_params p))))).

Definition GetValues (p : NativePoly) : res NativeVector :=
  match p_values p with Some v => Ok v | None => Throw (not_available_error "No values in PolyImpl") end.
Definition IsEmpty (p : NativePoly) : bool := match p_values p with Some _ => false | None => true end.
Definition p_at (p : NativePoly) (i : nat) : res Z := v ← GetValues p; at_ v i.
(** [operator[]]. *)
Definition p_get (p : NativePoly) (i : nat) : res Z := v ← values p; vget (data v) i.
Definition p_set (p : NativePoly) (i : nat) (x : Z) : res NativePoly :=
  v ← values p; d ← vset (data v) i x; Ok (with_values p (with_data v d)).

Definition SetValues (p : NativePoly) (v : NativeVector) (f : Format) : res NativePoly :=
  if rootOfUnity (p_params p) =? 0 then Throw (type_error "Polynomial has a 0 root of unity") else
  if negb (ringDimension (p_params p) =? length (data v))%nat || negb (ciphertextModulus (p_params p) =? modulus v)
  then Throw (type_error "Parameter mismatch on SetValues for Polynomial")
  else Ok (MkPoly f (p_params p) (Some v)).

(** Assignment of signed integers, and of one value to all the entries. *)
Definition AssignSigned (p : NativePoly) (rhs : list Z) : res NativePoly :=
  let pp := p_params p in
  let m := ciphertextModulus pp in
  p ← (if IsEmpty p
       then tmp ← SetModulus W (NVec 0 (repeat 0 (ringDimension pp))) m; SetValues p tmp COEFFICIENT
       else Ok p);
  v ← values p;
  d ← for_ (ringDimension pp) (fun j d =>
        vset d j (match rhs !! j with
                  | Some x => if x <? 0 then Sub W m (wrap W (- x)) else x
                  | None => 0
                  end)) (data v);
  Ok (MkPoly COEFFICIENT pp (Some (with_data v d))).
Definition AssignAll (p : NativePoly) (val : Z) : NativePoly :=
  let v := default (zero_vec (p_params p)) (p_values p) in
  MkPoly EVALUATION (p_params p) (Some (with_data v (repeat val (length (data v))))).

(** ** Arithmetic *)
Definition same_ring (p r : NativePoly) : res unit :=
  if negb (ringDimension (p_params p) =? ringDimension (p_params r))%nat then Throw (math_error "RingDimension missmatch") else
  if negb (ciphertextModulus (p_params p) =? ciphertextModulus (p_params r)) then Throw (math_error "Modulus missmatch") else
  Ok tt.

Definition PlusNoCheck (p r : NativePoly) : res NativePoly :=
  a ← values p; b ← values r; c ← ModAddNoCheckEq W a b; Ok (with_values p c).
Definition Plus (p r : NativePoly) : res NativePoly :=
  _ ← same_ring p r;
  if negb (bool_decide (p_format p = p_format r)) then Throw (not_implemented_error "Format missmatch") else
  PlusNoCheck p r.
Definition PlusEq (p r : NativePoly) : res NativePoly :=
  b ← values r;
  c ← ModAddEqV W (default (zero_vec (p_params p)) (p_values p)) b;
  Ok (with_values p c).
(** [Minus] looks neither at the formats nor at the parameters. *)
Definition Minus (p r : NativePoly) : res NativePoly :=
  a ← values p; b ← values r; c ← ModSubV W a b;
  SetValues (new_poly (p_params p) (p_format p) false) c (p_format p).
Definition MinusEq (p r : NativePoly) : res NativePoly :=
  b ← values r;
  c ← ModSubEqV W (default (zero_vec (p_params p)) (p_values p)) b;
  Ok (with_values p c).
Definition Negate (p : NativePoly) : res NativePoly := MinusEq (new_poly (p_params p) (p_format p) true) p.

Definition TimesNoCheck (p r : NativePoly) : res NativePoly :=
  a ← values p; b ← values r; c ← ModMulNoCheckEq W a b; Ok (with_values p c).
Definition both_evaluation (p r : NativePoly) : res unit :=
  _ ← same_ring p r;
  if bool_decide (p_format p = EVALUATION) && bool_decide (p_format r = EVALUATION) then Ok tt
  else Throw (not_implemented_error "operator* for PolyImpl supported only in Format::EVALUATION").
Definition Times (p r : NativePoly) : res NativePoly := _ ← both_evaluation p r; TimesNoCheck p r.
Definition TimesEq (p r : NativePoly) : res NativePoly :=
  _ ← both_evaluation p r;
  if IsEmpty p then Ok (SetValuesToZero p) else TimesNoCheck p r.

(** With an integer. *)
Definition with_vector (p : NativePoly) (op : NativeVector -> res NativeVector) : res NativePoly :=
  a ← values p; c ← op a; SetValues (new_poly (p_params p) (p_format p) false) c (p_format p).
Definition PlusInt (p : NativePoly) (element : Z) : res NativePoly :=
  with_vector p (fun a => if bool_decide (p_format p = COEFFICIENT) then ModAddAtIndex W a 0 element else ModAdd W a element).
Definition MinusInt (p : NativePoly) (element : Z) : res NativePoly := with_vector p (fun a => ModSub W a element).
Definition TimesInt (p : NativePoly) (element : Z) : res NativePoly := with_vector p (fun a => ModMul W a element).
Definition MinusEqInt (p : NativePoly) (element : Z) : res NativePoly :=
  a ← values p; c ← ModSubEq W a element; Ok (with_values p c).
Definition TimesEqInt (p : NativePoly) (element : Z) : res NativePoly :=
  a ← values p; c ← ModMulEq W a element; Ok (with_values p c).
Definition TimesSigned (p : NativePoly) (element : Z) : res NativePoly :=
  let q := ciphertextModulus (p_params p) in
  let reduced_ := fun e => if q <? e then NativeInt.ModEq e q else Ok e in
  with_vector p (fun a =>
    if element <? 0
    then e ← reduced_ (wrap W (- element)); ModMul W a (Sub W q e)
    else e ← reduced_ element; ModMul W a e).

Definition MultiplyAndRound (p : NativePoly) (a b : Z) : res NativePoly := with_vector p (fun v => NativeVec.MultiplyAndRound W v a b).
Definition DivideAndRound (p : NativePoly) (b : Z) : res NativePoly := with_vector p (fun v => NativeVec.DivideAndRound W v b).
Definition MultiplicativeInverse (p : NativePoly) : res NativePoly := with_vector p (NativeVec.ModInverse W).
Definition ModByTwo (p : NativePoly) : res NativePoly := with_vector p (fun v => Ok (NativeVec.ModByTwo v)).
Definition Mod (p : NativePoly) (m : Z) : res NativePoly := with_vector p (fun v => NativeVec.Mod W v m).
Definition AddILElementOne (p : NativePoly) : res NativePoly :=
  let m := ciphertextModulus (p_params p) in
  v ← values p;
  d ← for_ (ringDimension (p_params p)) (fun i d => x ← vget d i; vset d i (ModAddFastEq W x 1 m)) (data v);
  Ok (with_values p (with_data v d)).
Definition SwitchModulus (p : NativePoly) (m root : Z) : res NativePoly :=
  match p_values p with
  | None => Ok p
  | Some v =>
    v ← NativeVec.SwitchModulus W v m;
    Ok (MkPoly (p_format p) (ILPar (cyclotomicOrder (p_params p)) (ringDimension (p_params p)) m root) (Some v))
  end.
Definition MakeSparse (p : NativePoly) (wFactor : nat) : res NativePoly :=
  match p_values p with
  | None => Ok p
  | Some v =>
    if (wFactor =? 0)%nat then Throw undefined_behaviour else
    d ← for_ (ringDimension (p_params p)) (fun i d => if (i mod wFactor =? 0)%nat then Ok d else vset d i 0) (data v);
    Ok (with_values p (with_data v d))
  end.
Definition InverseExists (p : NativePoly) : res bool :=
  v ← values p;
  for_ (ringDimension (p_params p)) (fun i ok =>
    if negb ok then Ok false else x ← vget (data v) i; Ok (negb (x =? 0))) true.
(** The larger of the greatest entry up to half of the modulus and the
    distance to the modulus of the least entry above. *)
Definition Norm (p : NativePoly) : res double :=
  let q := ciphertextModulus (p_params p) in
  let half := Z.shiftr q 1 in
  v ← values p;
  r ← for_ (ringDimension (p_params p)) (fun i mm =>
        val ← vget (data v) i;
        Ok (if half <? val then (mm.1, if val <? mm.2 then val else mm.2)
            else (if mm.1 <? val then val else mm.1, mm.2))) (0, q);
  let minVal := Sub W q r.2 in
  Ok (of_int (if r.1 <? minVal then minVal else r.1)).

(** ** Automorphisms [x -> x^k] *)
Definition AutomorphismTransform (p : NativePoly) (k : Z) : res NativePoly :=
  let n := ringDimension (p_params p) in
  let m := cyclotomicOrder (p_params p) in
  if negb (Z.of_nat n =? Z.shiftr m 1)
  then Throw (not_implemented_error "Automorphism Poly Format not EVALUATION or not power-of-two") else
  if k mod 2 =? 0 then Throw (math_error "Automorphism index not odd") else
  let logm := GetMSB 64 m - 1 in
  let logn := logm - 1 in
  let mask := Z.shiftl 1 logn - 1 in
  let q := ciphertextModulus (p_params p) in
  v ← values p;
  r ← (if bool_decide (p_format p = EVALUATION)
       then for_ n (fun j (st : list Z * Z) =>
              let '(r, jk) := st in
              let jrev := ReverseBits (Z.of_nat j) logn in
              let idxrev := ReverseBits (Z.land (Z.shiftr jk 1) mask) logn in
              x ← vget (data v) (Z.to_nat idxrev);
              r ← vset r (Z.to_nat jrev) x;
              Ok (r, (jk + 2 * k) mod 2 ^ 32)) (repeat 0 n, k)
       else for_ n (fun j (st : list Z * Z) =>
              let '(r, jk) := st in
              x ← vget (data v) j;
              r ← vset r (Z.to_nat (Z.land jk mask)) (if Z.land (Z.shiftr jk logn) 1 =? 0 then x else Sub W q x);
              Ok (r, (jk + k) mod 2 ^ 32)) (repeat 0 n, 0));
  Ok (with_values p (NVec q r.1)).

(** The overload that reads a precomputed permutation. *)
Definition AutomorphismTransform_precomp (p : NativePoly) (k : Z) (precomp : list nat) : res NativePoly :=
  let n := ringDimension (p_params p) in
  if negb (bool_decide (p_format p = EVALUATION)) || negb (Z.of_nat n =? Z.shiftr (cyclotomicOrder (p_params p)) 1)
  then Throw (not_implemented_error "Automorphism Poly Format not EVALUATION or not power-of-two") else
  if k mod 2 =? 0 then Throw (math_error "Automorphism index not odd") else
  v ← values p;
  d ← tabulateM n (fun j => i ← vget precomp j; vget (data v) i);
  Ok (with_values p (NVec (ciphertextModulus (p_params p)) d)).

Definition Transpose (p : NativePoly) : res NativePoly :=
  if bool_decide (p_format p = COEFFICIENT)
  then Throw (not_implemented_error "PolyInterface element transposition is currently implemented only in the Evaluation representation.")
  else AutomorphismTransform p ((cyclotomicOrder (p_params p) - 1) mod 2 ^ 32).

(** ** Formats *)
Section Formats.
Context (ArbitrarySwitchFormat : FTT -> NativePoly -> res (FTT * NativePoly)).

Definition SwitchFormat (st : FTT) (p : NativePoly) : res (FTT * NativePoly) :=
  let co := cyclotomicOrder (p_params p) in
  let ru := rootOfUnity (p_params p) in
  if negb (Z.of_nat (ringDimension (p_params p)) =? Z.shiftr co 1) then ArbitrarySwitchFormat st p else
  match p_values p with
  | None => Throw (not_available_error "Poly switch format to empty values")
  | Some v =>
    if negb (bool_decide (p_format p = COEFFICIENT))
    then r ← FTTInverseInPlace st ru co v; Ok (r.1, MkPoly COEFFICIENT (p_params p) (Some r.2))
    else r ← FTTForwardInPlace st ru co v; Ok (r.1, MkPoly EVALUATION (p_params p) (Some r.2))
  end.

Definition SetFormat (st : FTT) (p : NativePoly) (f : Format) : res (FTT * NativePoly) :=
  if bool_decide (p_format p = f) then Ok (st, p) else SwitchFormat st p.

(** The digits of the coefficients in base [2^baseBits], and the multiples by
    the powers of the base. *)
Definition BaseDecompose (st : FTT) (p : NativePoly) (baseBits : Z) (evalModeAnswer : bool) : res (FTT * list NativePoly) :=
  if (baseBits =? 0) || (31 <=? baseBits) then Throw undefined_behaviour else
  let nBits := GetMSB 64 (ciphertextModulus (p_params p)) in
  let nWindows := nBits / baseBits + (if 0 <? nBits mod baseBits then 1 else 0) in
  r ← SetFormat st p COEFFICIENT;
  let '(st, x) := r in
  xs ← GetValues x;
  for_ (Z.to_nat nWindows) (fun i (sr : FTT * list NativePoly) =>
    let '(st, result) := sr in
    digit_ ← NativeVec.GetDigitAtIndexForBase W xs (Z.of_nat i + 1) (2 ^ baseBits);
    xDigit ← SetValues (new_poly (p_params p) EVALUATION false) digit_ (p_format x);
    if evalModeAnswer
    then r ← SwitchFormat st xDigit; Ok (r.1, result ++ [r.2])
    else Ok (st, result ++ [xDigit])) (st, []).

Definition PowersOfBase (p : NativePoly) (baseBits : Z) : res (list NativePoly) :=
  if baseBits =? 0 then Throw undefined_behaviour else
  let m := ciphertextModulus (p_params p) in
  let nBits := GetMSB 64 m in
  let nWindows := nBits / baseBits + (if 0 <? nBits mod baseBits then 1 else 0) in
  tabulateM (Z.to_nat nWindows) (fun i => c ← ModExp_ W 2 (Z.of_nat i * baseBits) m; TimesInt p c).
End Formats.
