(* ===== verification/PolyFacts.v ===== *)
(** * The ring behind the elements

    The abstract ring [Z_q[x] / (x^n + 1)] as lists of coefficients, and the
    members of [Poly] as operations of that ring: [poly_of f a] is the element
    that holds the ring element [a] in format [f], and every lemma has the
    form [op (poly_of f a) ... = Ok (poly_of f (rop a ...))]. *)

From Stdlib Require Import ZArith Lia String.
From stdpp Require Import base tactics numbers list strings gmap.
From S2P Require Import Prelude Double NativeInt NativeIntFacts ModArith NativeVec SchemeCore Negacyclic BitReverse Ntt NttFacts NttSpec NttRing Poly.

(** ** Ring operations on coefficient lists *)
Definition radd (q : Z) (a b : list Z) : list Z := zip_with (fun x y => (x + y) mod q) a b.
Definition rsub (q : Z) (a b : list Z) : list Z := zip_with (fun x y => (x - y) mod q) a b.
Definition rscale (q c : Z) (a : list Z) : list Z := map (fun x => (x * c) mod q) a.
Definition rmul (q : Z) (n : nat) (a b : list Z) : list Z :=
  map (negacyclic q n (fun i => a !!! i) (fun i => b !!! i)) (seq 0 n).
Definition rzero (n : nat) : list Z := repeat 0 n.

Lemma zip_tab `{Inhabited A, Inhabited B} {C} (f : A -> B -> C) (l : list A) (k : list B) n :
  length l = n -> length k = n -> zip_with f l k = map (fun i => f (l !!! i) (k !!! i)) (seq 0 n).
Proof.
  intros Hl Hk. apply list_eq. intros i. rewrite lookup_zip_with. destruct (decide (i < n)%nat).
  - rewrite !list_lookup_lookup_total_lt by lia. by rewrite lookup_tab.
  - rewrite (lookup_ge_None_2 l), (lookup_ge_None_2 (map _ _)) by (rewrite ?length_tab; lia). done.
Qed.

Lemma map_tab `{Inhabited A} {B} (f : A -> B) (l : list A) n :
  length l = n -> map f l = map (fun i => f (l !!! i)) (seq 0 n).
Proof.
  intros Hl. apply list_eq. intros i. change (map f l) with (f <$> l). rewrite list_lookup_fmap. destruct (decide (i < n)%nat).
  - rewrite !list_lookup_lookup_total_lt by lia. by rewrite lookup_tab.
  - rewrite (lookup_ge_None_2 l), (lookup_ge_None_2 (map _ _)) by (rewrite ?length_tab; lia). done.
Qed.

(** ** The transform is a ring homomorphism onto the lists of values *)
Section Values.
Context {q : Z} {Hq : NativeModulus W q} (psi : Z) (k : nat) (Hroot : psi ^ 2 ^ Z.of_nat k ≡[q] -1).
Implicit Types a b : list Z.
Abbreviation wf := (wf_data (q := q) k).

Lemma wf_tab f : wf (map (fun i => f i mod q) (seq 0 (2 ^ k))).
Proof using Hq. split; [apply length_tab|]. apply Forall_tab. intros. apply (nm_mod (w := W)). Qed.

Lemma radd_wf a b : wf a -> wf b -> wf (radd q a b).
Proof using Hq. intros [La _] [Lb _]. unfold radd. rewrite (zip_tab _ _ _ (2 ^ k)) by done. apply wf_tab. Qed.
Lemma rsub_wf a b : wf a -> wf b -> wf (rsub q a b).
Proof using Hq. intros [La _] [Lb _]. unfold rsub. rewrite (zip_tab _ _ _ (2 ^ k)) by done. apply wf_tab. Qed.
Lemma rscale_wf c a : wf a -> wf (rscale q c a).
Proof using Hq. intros [La _]. unfold rscale. rewrite (map_tab _ _ (2 ^ k)) by done. apply wf_tab. Qed.
Lemma rmul_wf a b : wf (rmul q (2 ^ k) a b).
Proof using Hq. unfold rmul, negacyclic. apply wf_tab. Qed.
Lemma rzero_wf : wf (rzero (2 ^ k)).
Proof using Hq. split; [apply length_zeros|]. apply zeros_Forall. split; [done|]. apply Z.lt_le_trans with 4; [done|apply (nm_bounds (w := W) (m := q))]. Qed.

(** Two lists of values are equal when their entries are congruent. *)
Lemma values_eq (u v : list Z) :
  wf u -> wf v -> (forall x, (x < 2 ^ k)%nat -> u !!! x ≡[q] v !!! x) -> u = v.
Proof using Hq.
  intros [Lu Fu] [Lv Fv] H. apply list_total_ext; [by rewrite Lu|]. intros x Hx. apply (eqm_small q).
  - exact (reduced_at q (NVec q u) x Fu Hx).
  - apply (reduced_at q (NVec q v) x Fv). cbn [data]. by rewrite Lv, <- Lu.
  - apply H. by rewrite <- Lu.
Qed.

Lemma peval_ext n f g x : (forall j, (j < n)%nat -> f j ≡[q] g j) -> peval n f x ≡[q] peval n g x.
Proof using Type. intros H. apply sumZ_eqm. intros j Hj. by rewrite H. Qed.

Lemma ntt_zip (f : Z -> Z -> Z) (g : Z -> Z -> Z) a b :
  wf a -> wf b -> (forall x y z w c, f (x * c + z) (y * c + w) ≡[q] f x y * c + f z w) -> f 0 0 = 0 ->
  ntt q psi k (zip_with (fun x y => f x y mod q) a b) = zip_with (fun x y => f x y mod q) (ntt q psi k a) (ntt q psi k b).
Proof using Hq.
  intros [La Fa] [Lb Fb] Hf H0. rewrite (zip_tab _ (ntt q psi k a) _ (2 ^ k)) by apply length_ntt.
  apply values_eq; [apply ntt_wf|apply wf_tab|]. intros x Hx. rewrite ntt_lookup, lookup_total_tab, eqm_mod by done.
  assert (forall n, (n <= 2 ^ k)%nat ->
    peval n (fun j => zip_with (fun x y => f x y mod q) a b !!! j) (point psi k x) ≡[q]
    f (peval n (fun j => a !!! j) (point psi k x)) (peval n (fun j => b !!! j) (point psi k x))) as H.
  { induction n as [|n IH]; intros Hn; cbn [peval sumZ]; [by rewrite H0|]. unfold peval in *. cbn [sumZ]. rewrite IH by lia.
    rewrite vec_op_lookup by lia. rewrite eqm_mod.
    rewrite (Z.add_comm _ (a !!! n * _)), (Z.add_comm _ (b !!! n * _)), Hf. apply eqm_refl. ring. }
  rewrite H by lia. 
  assert (forall x y x' y', x ≡[q] x' -> y ≡[q] y' -> f x y ≡[q] f x' y') as Hc; [|by apply Hc; symmetry; apply ntt_lookup].
  intros x1 y1 x2 y2 E1 E2. apply (eqm_iff q) in E1 as [c1 ->]. apply (eqm_iff q) in E2 as [c2 ->].
  rewrite (Z.add_comm x2), (Z.add_comm y2), Hf. apply eqm_iff. exists (f c1 c2). ring.
Qed.

Lemma ntt_radd a b : wf a -> wf b -> ntt q psi k (radd q a b) = radd q (ntt q psi k a) (ntt q psi k b).
Proof using Hq. intros Ha Hb. apply ntt_zip; [done..| |done]. intros. apply eqm_refl. ring. Qed.
Lemma ntt_rsub a b : wf a -> wf b -> ntt q psi k (rsub q a b) = rsub q (ntt q psi k a) (ntt q psi k b).
Proof using Hq. intros Ha Hb. apply ntt_zip; [done..| |done]. intros. apply eqm_refl. ring. Qed.

Lemma ntt_rscale c a : wf a -> ntt q psi k (rscale q c a) = rscale q c (ntt q psi k a).
Proof using Hq.
  intros Ha. unfold rscale at 2. rewrite (map_tab _ (ntt q psi k a) (2 ^ k)) by apply length_ntt.
  apply values_eq; [apply ntt_wf|apply wf_tab|]. intros x Hx. rewrite ntt_lookup, lookup_total_tab, eqm_mod, ntt_lookup by done.
  unfold peval. rewrite <- sumZ_scale_r. apply sumZ_eqm. intros j Hj. unfold rscale. rewrite lookup_total_map by (destruct Ha; lia).
  rewrite eqm_mod. apply eqm_refl. ring.
Qed.

Lemma ntt_rmul a b : wf a -> wf b ->
  ntt q psi k (rmul q (2 ^ k) a b) = zip_with (fun x y => (x * y) mod q) (ntt q psi k a) (ntt q psi k b).
Proof using Hq Hroot.
  intros Ha Hb. rewrite (zip_tab _ (ntt q psi k a) _ (2 ^ k)) by apply length_ntt.
  apply values_eq; [apply ntt_wf|apply wf_tab|]. intros x Hx. rewrite ntt_lookup, lookup_total_tab, eqm_mod, !ntt_lookup by done.
  rewrite <- negacyclic_eval by (apply point_root, Hroot). apply sumZ_eqm. intros j Hj. unfold rmul. by rewrite lookup_total_tab.
Qed.

Lemma ntt_rzero : ntt q psi k (rzero (2 ^ k)) = rzero (2 ^ k).
Proof using Hq.
  apply values_eq; [apply ntt_wf|apply rzero_wf|]. intros x Hx. rewrite ntt_lookup by done. unfold rzero. rewrite zeros_lookup by done.
  unfold peval. rewrite (sumZ_ext _ _ (fun _ => 0)); [by rewrite sumZ_zero|]. intros j Hj. by rewrite zeros_lookup.
Qed.
End Values.

(** ** Vectors of residues *)
Section Vectors.
Context {q : Z} {Hq : NativeModulus W q} (k : nat).
Implicit Types u v : list Z.
Abbreviation wf := (wf_data (q := q) k).

Lemma zip_add u v : wf u -> wf v -> vzip (fun x y => Ok (ModAddFastEq W x y q)) u v = Ok (radd q u v).
Proof using All.
  intros [Lu Fu] [Lv Fv]. apply (vzip_ok (reduced q) (reduced q)); [|done|done|congruence]. intros. f_equal. by apply (nm_add (w := W)).
Qed.
Lemma zip_sub u v : wf u -> wf v -> vzip (fun x y => Ok (ModSubFastEq W x y q)) u v = Ok (rsub q u v).
Proof using All.
  intros [Lu Fu] [Lv Fv]. apply (vzip_ok (reduced q) (reduced q)); [|done|done|congruence]. intros. f_equal. by apply (nm_sub (w := W)).
Qed.
Lemma zip_mul u v : wf u -> wf v ->
  vzip (fun x y => ModMulFastEq_mu_ W x y q (mu_of W q)) u v = Ok (zip_with (fun x y => (x * y) mod q) u v).
Proof using All.
  intros [Lu Fu] [Lv Fv]. apply (vzip_ok (reduced q) (reduced q)); [|done|done|congruence]. intros. by apply (nm_mul_fast_mu (w := W)).
Qed.
Lemma zip_different u v : wf u -> wf v -> different (NVec q u) (NVec q v) = false.
Proof using All. intros [Lu _] [Lv _]. apply different_false; cbn; congruence. Qed.
End Vectors.

(** ** Elements *)
Definition ring_par (q psi : Z) (k : nat) : ILParams := ILPar (2 ^ Z.of_nat (S k)) (2 ^ k) q psi.
Definition poly_of (q psi : Z) (k : nat) (f : Format) (a : list Z) : NativePoly :=
  MkPoly f (ring_par q psi k) (Some (NVec q (match f with EVALUATION => ntt q psi k a | COEFFICIENT => a end))).

Section Elements.
Context {st : FTT} {q psi : Z} {k : nat} {HR : RingTransform st q psi k}.
Implicit Types (a b : list Z) (f : Format).
Abbreviation wf := (wf_data (q := q) k).
Abbreviation of_ := (poly_of q psi k).
Abbreviation pp := (ring_par q psi k).

#[local] Instance ring_modulus : NativeModulus W q.
Proof using HR. exact rt_modulus. Qed.

Lemma rep_wf f a : wf a -> wf (match f with EVALUATION => ntt q psi k a | COEFFICIENT => a end).
Proof using HR. destruct f; [intros; apply ntt_wf|done]. Qed.

Lemma rep_radd f a b : wf a -> wf b ->
  radd q (match f with EVALUATION => ntt q psi k a | COEFFICIENT => a end) (match f with EVALUATION => ntt q psi k b | COEFFICIENT => b end) =
  match f with EVALUATION => ntt q psi k (radd q a b) | COEFFICIENT => radd q a b end.
Proof using HR. intros. destruct f; [by rewrite (ntt_radd psi k)|done]. Qed.
Lemma rep_rsub f a b : wf a -> wf b ->
  rsub q (match f with EVALUATION => ntt q psi k a | COEFFICIENT => a end) (match f with EVALUATION => ntt q psi k b | COEFFICIENT => b end) =
  match f with EVALUATION => ntt q psi k (rsub q a b) | COEFFICIENT => rsub q a b end.
Proof using HR. intros. destruct f; [by rewrite (ntt_rsub psi k)|done]. Qed.

Lemma zero_of f : new_poly pp f true = of_ f (rzero (2 ^ k)).
Proof using HR. unfold new_poly, poly_of, zero_vec. cbn. destruct f; [|done]. by rewrite (ntt_rzero psi k). Qed.

Lemma same_ring_of f g a b : same_ring (of_ f a) (of_ g b) = Ok tt.
Proof using Type. unfold same_ring. cbn. by rewrite Nat.eqb_refl, Z.eqb_refl. Qed.

(** [SetValues] accepts exactly the vectors of the ring. *)
Lemma SetValues_of p f a g : p_params p = pp -> wf a -> SetValues p (NVec q (match f with EVALUATION => ntt q psi k a | COEFFICIENT => a end)) f = Ok (of_ f a) /\
  (g = COEFFICIENT -> SetValues p (NVec q a) g = Ok (of_ g a)).
Proof using HR.
  intros Hp Ha. unfold SetValues. rewrite Hp. cbn [ring_par rootOfUnity ringDimension ciphertextModulus data modulus].
  assert ((psi =? 0) = false) as ->.
  { apply Z.eqb_neq. intros E. pose proof (rt_root (RingTransform := HR)) as Hr. rewrite E in Hr. pose proof (nm_bounds (w := W) (m := q)).
    rewrite Z.pow_0_l in Hr by (apply Z.pow_pos_nonneg; lia). apply (eqm_close q) in Hr; lia. }
  rewrite Z.eqb_refl. split.
  - rewrite (proj1 (rep_wf f a Ha)), Nat.eqb_refl. done.
  - intros ->. rewrite (proj1 Ha), Nat.eqb_refl. done.
Qed.

Lemma Plus_of f a b : wf a -> wf b -> Plus (of_ f a) (of_ f b) = Ok (of_ f (radd q a b)).
Proof using HR.
  intros Ha Hb. unfold Plus. rewrite same_ring_of, bind_ok, bool_decide_eq_true_2 by done. cbn [negb].
  unfold PlusNoCheck, values, ModAddNoCheckEq. cbn [poly_of p_values data modulus]. rewrite !bind_ok. cbn [data modulus].
  rewrite (zip_add k) by (by apply rep_wf). rewrite bind_ok. cbn. by rewrite rep_radd.
Qed.

Lemma PlusEq_of f a b : wf a -> wf b -> PlusEq (of_ f a) (of_ f b) = Ok (of_ f (radd q a b)).
Proof using HR.
  intros Ha Hb. unfold PlusEq, values, ModAddEqV. cbn [poly_of p_values p_params from_option id]. rewrite bind_ok.
  rewrite (zip_different k) by (by apply rep_wf). cbn [data modulus].
  rewrite (zip_add k) by (by apply rep_wf). rewrite bind_ok. cbn. by rewrite rep_radd.
Qed.

(** Adding to an element without values: they are taken as zero. *)
Lemma PlusEq_empty f b : wf b -> PlusEq (new_poly pp f false) (of_ f b) = Ok (of_ f b).
Proof using HR.
  intros Hb. pose proof (PlusEq_of f (rzero (2 ^ k)) b (rzero_wf (q := q) k) Hb) as E.
  assert (radd q (rzero (2 ^ k)) b = b) as Eb.
  { apply (values_eq (q := q) k); [by apply radd_wf; [apply rzero_wf|]|done|]. intros x Hx. unfold radd.
    rewrite vec_op_lookup by (unfold rzero; rewrite length_zeros; destruct Hb; lia). unfold rzero. by rewrite zeros_lookup, eqm_mod. }
  rewrite Eb in E. rewrite <- E. unfold PlusEq. rewrite <- zero_of. done.
Qed.

Lemma Minus_of f a b : wf a -> wf b -> Minus (of_ f a) (of_ f b) = Ok (of_ f (rsub q a b)).
Proof using HR.
  intros Ha Hb. unfold Minus, values, ModSubV. cbn [poly_of p_values p_format p_params]. rewrite !bind_ok.
  rewrite (zip_different k) by (by apply rep_wf). cbn [data modulus].
  rewrite (zip_sub k) by (by apply rep_wf). rewrite bind_ok. unfold with_data. cbn [modulus].
  rewrite rep_rsub by done. exact (proj1 (SetValues_of (new_poly pp f false) f _ f eq_refl (rsub_wf k a b Ha Hb))).
Qed.

Lemma MinusEq_of f a b : wf a -> wf b -> MinusEq (of_ f a) (of_ f b) = Ok (of_ f (rsub q a b)).
Proof using HR.
  intros Ha Hb. unfold MinusEq, values, ModSubEqV. cbn [poly_of p_values p_params from_option id]. rewrite bind_ok.
  rewrite (zip_different k) by (by apply rep_wf). cbn [data modulus].
  rewrite (zip_sub k) by (by apply rep_wf). rewrite bind_ok. cbn. by rewrite rep_rsub.
Qed.

Lemma Times_of a b : wf a -> wf b -> Times (of_ EVALUATION a) (of_ EVALUATION b) = Ok (of_ EVALUATION (rmul q (2 ^ k) a b)).
Proof using HR.
  intros Ha Hb. unfold Times, both_evaluation. rewrite same_ring_of, bind_ok. rewrite !bool_decide_eq_true_2 by done. cbn [andb].
  rewrite bind_ok. unfold TimesNoCheck, values, ModMulNoCheckEq. cbn [poly_of p_values]. rewrite !bind_ok. cbn [data modulus].
  rewrite (nm_mu (w := W)), bind_ok, (zip_mul k), bind_ok by apply ntt_wf. unfold with_values, with_data.
  rewrite <- (ntt_rmul psi k rt_root a b Ha Hb). done.
Qed.

Lemma TimesInt_of f a c : wf a -> 0 <= c -> TimesInt (of_ f a) c = Ok (of_ f (rscale q c a)).
Proof using HR.
  intros Ha Hc. unfold TimesInt, with_vector, values. cbn [poly_of p_values p_format p_params]. rewrite bind_ok.
  rewrite (ModMul_ok (q := q) (w := W)) by (done || apply rep_wf, Ha). rewrite bind_ok. cbn [data].
  assert (map (fun v => (v * c) mod q) (match f with EVALUATION => ntt q psi k a | COEFFICIENT => a end) =
    match f with EVALUATION => ntt q psi k (rscale q c a) | COEFFICIENT => rscale q c a end) as ->.
  { destruct f; [|done]. by rewrite (ntt_rscale psi k). }
  exact (proj1 (SetValues_of (new_poly pp f false) f _ f eq_refl (rscale_wf k c a Ha))).
Qed.

(** Formats: the cache is read, and stays as it is. *)
Section Switch.
Context (arb : FTT -> NativePoly -> res (FTT * NativePoly)).

Lemma dimension_of : (Z.of_nat (2 ^ k) =? Z.shiftr (2 ^ Z.of_nat (S k)) 1) = true.
Proof using Type.
  apply Z.eqb_eq. rewrite Z.shiftr_div_pow2, Nat2Z.inj_succ, Z.pow_succ_r, Nat2Z.inj_pow by lia. change (2 ^ 1) with 2.
  by rewrite Z.mul_comm, Z.div_mul.
Qed.

Lemma SwitchFormat_of f a : wf a ->
  SwitchFormat arb st (of_ f a) = Ok (st, of_ (match f with EVALUATION => COEFFICIENT | COEFFICIENT => EVALUATION end) a).
Proof using HR.
  intros Ha. unfold SwitchFormat. cbn [poly_of p_params ring_par ringDimension cyclotomicOrder rootOfUnity p_values p_format].
  rewrite dimension_of. cbn [negb]. destruct f.
  - rewrite bool_decide_eq_false_2 by done. cbn [negb]. by rewrite rt_inverse, bind_ok.
  - rewrite bool_decide_eq_true_2 by done. cbn [negb]. by rewrite rt_forward, bind_ok.
Qed.

Lemma SetFormat_of f g a : wf a -> SetFormat arb st (of_ f a) g = Ok (st, of_ g a).
Proof using HR.
  intros Ha. unfold SetFormat. cbn [poly_of p_format]. destruct (decide (f = g)) as [->|Hne].
  - by rewrite bool_decide_eq_true_2.
  - rewrite bool_decide_eq_false_2 by done. rewrite SwitchFormat_of by done. by destruct f, g.
Qed.
End Switch.

(** Every canonical element is [poly_of] of a ring element. *)
Lemma canonical_of f u : wf u -> exists a, wf a /\ MkPoly f pp (Some (NVec q u)) = of_ f a.
Proof using HR.
  intros Hu. destruct f.
  - destruct (rt_surjective (RingTransform := HR) u Hu) as (a & Ha & <-). by exists a.
  - by exists u.
Qed.
End Elements.

(** ** Slots

    The value of a ring element at root [x]; elements with congruent values at
    all the roots are equal, so that ring identities are proved by ring
    identities of integers. *)
Definition slot (q psi : Z) (k : nat) (x : nat) (a : list Z) : Z := peval (2 ^ k) (fun j => a !!! j) (point psi k x).

Section Slots.
Context {st : FTT} {q psi : Z} {k : nat} {HR : RingTransform st q psi k}.
Implicit Types (a b : list Z).
Abbreviation wf := (wf_data (q := q) k).
Abbreviation slot_ := (slot q psi k).

#[local] Instance slot_modulus : NativeModulus W q.
Proof using HR. exact rt_modulus. Qed.

Lemma slot_ntt x a : (x < 2 ^ k)%nat -> ntt q psi k a !!! x ≡[q] slot_ x a.
Proof using Type. apply ntt_lookup. Qed.

Lemma slot_ext a b : wf a -> wf b -> (forall x, (x < 2 ^ k)%nat -> slot_ x a ≡[q] slot_ x b) -> a = b.
Proof using HR.
  intros Ha Hb H. apply (rt_injective (RingTransform := HR)); [done..|].
  apply (values_eq (q := q) k); [apply ntt_wf|apply ntt_wf|]. intros x Hx. by rewrite !slot_ntt, H.
Qed.

Lemma slot_radd x a b : (x < 2 ^ k)%nat -> wf a -> wf b -> slot_ x (radd q a b) ≡[q] slot_ x a + slot_ x b.
Proof using HR.
  intros Hx Ha Hb. rewrite <- slot_ntt, (ntt_radd psi k) by done. unfold radd. rewrite vec_op_lookup, eqm_mod by (rewrite !length_ntt; lia).
  by rewrite !slot_ntt.
Qed.
Lemma slot_rsub x a b : (x < 2 ^ k)%nat -> wf a -> wf b -> slot_ x (rsub q a b) ≡[q] slot_ x a - slot_ x b.
Proof using HR.
  intros Hx Ha Hb. rewrite <- slot_ntt, (ntt_rsub psi k) by done. unfold rsub. rewrite vec_op_lookup, eqm_mod by (rewrite !length_ntt; lia).
  by rewrite !slot_ntt.
Qed.
Lemma slot_rmul x a b : (x < 2 ^ k)%nat -> wf a -> wf b -> slot_ x (rmul q (2 ^ k) a b) ≡[q] slot_ x a * slot_ x b.
Proof using HR.
  intros Hx Ha Hb. rewrite <- slot_ntt, (ntt_rmul psi k rt_root) by done. rewrite vec_op_lookup, eqm_mod by (rewrite !length_ntt; lia).
  by rewrite !slot_ntt.
Qed.
Lemma slot_rscale x a c : (x < 2 ^ k)%nat -> wf a -> slot_ x (rscale q c a) ≡[q] slot_ x a * c.
Proof using HR.
  intros Hx Ha. rewrite <- slot_ntt, (ntt_rscale psi k) by done. unfold rscale. rewrite lookup_total_map, eqm_mod by (rewrite length_ntt; lia).
  by rewrite slot_ntt.
Qed.
Lemma slot_rzero x : (x < 2 ^ k)%nat -> slot_ x (rzero (2 ^ k)) ≡[q] 0.
Proof using HR.
  intros Hx. rewrite <- slot_ntt, (ntt_rzero psi k) by done. unfold rzero. by rewrite zeros_lookup.
Qed.
End Slots.
