(* ===== verification/Automorphism.v ===== *)
(** * Automorphisms of the ring

    [raut K a] is the ring element [a(x^K)].  In the evaluation format
    [AutomorphismTransform] permutes the values, in the coefficient format it
    moves the coefficients and changes signs; both are related to [raut]
    here. *)

From Stdlib Require Import ZArith Lia String.
From stdpp Require Import base tactics numbers list strings gmap.
From S2P Require Import Prelude Double NativeInt NativeIntFacts ModArith NativeVec SchemeCore Negacyclic BitReverse Ntt NttFacts NttSpec NttRing Poly PolyFacts.

(** ** The automorphism on coefficients

    Coefficient [j] moves to position [K j mod n], with a change of sign for
    each time [x^n = -1] is used. *)
Definition raut_pos (n : nat) (K : Z) (j : nat) : nat := Z.to_nat ((K * Z.of_nat j) mod Z.of_nat n).
Definition raut_flips (n : nat) (K : Z) (j : nat) : bool := Z.odd ((K * Z.of_nat j) / Z.of_nat n).
Definition raut_with (neg : Z -> Z) (n : nat) (K : Z) (a : list Z) : list Z :=
  foldl (fun r j => <[raut_pos n K j := if raut_flips n K j then neg (a !!! j) else a !!! j]> r) (repeat 0 n) (seq 0 n).
Definition raut (q : Z) (n : nat) (K : Z) (a : list Z) : list Z := raut_with (fun x => (- x) mod q) n K a.

(** A loop that cannot fail is a fold. *)
Lemma for_foldl {S} (g : S -> nat -> S) n s : for_ n (fun j r => Ok (g r j)) s = Ok (foldl g s (seq 0 n)).
Proof.
  induction n as [|n IH]; [done|]. cbn [for_]. rewrite IH, bind_ok. rewrite seq_S, foldl_app. done.
Qed.

Section Positions.
Context (k : nat) (K : Z) (HK : Z.odd K = true) (HK0 : 0 < K).
Let n : nat := (2 ^ k)%nat.

Lemma n_pow : Z.of_nat n = 2 ^ Z.of_nat k.
Proof using Type. unfold n. by rewrite Nat2Z.inj_pow. Qed.

Lemma n_pos : 0 < 2 ^ Z.of_nat k.
Proof using Type. apply Z.pow_pos_nonneg; lia. Qed.

Lemma raut_pos_lt j : (raut_pos n K j < n)%nat.
Proof using Type.
  unfold raut_pos. pose proof n_pos as Hp. rewrite <- n_pow in Hp. pose proof (Z.mod_pos_bound (K * Z.of_nat j) (Z.of_nat n) Hp). lia.
Qed.

Lemma raut_pos_inj i j : (i < n)%nat -> (j < n)%nat -> raut_pos n K i = raut_pos n K j -> i = j.
Proof using HK.
  intros Hi Hj E. pose proof n_pos as Hp. rewrite <- n_pow in Hp. unfold raut_pos in E.
  pose proof (Z.mod_pos_bound (K * Z.of_nat i) (Z.of_nat n) Hp). pose proof (Z.mod_pos_bound (K * Z.of_nat j) (Z.of_nat n) Hp).
  assert ((K * Z.of_nat i) mod Z.of_nat n = (K * Z.of_nat j) mod Z.of_nat n) as E' by lia.
  apply (eqm_iff (Z.of_nat n)) in E' as [c Ec].
  assert (Z.gcd (Z.of_nat n) K = 1) as Hg.
  { rewrite n_pow, Z.gcd_comm. generalize (Z.of_nat k) (Nat2Z.is_nonneg k). apply natlike_ind.
    - rewrite Z.pow_0_r. apply Z.gcd_1_r.
    - intros x Hx IH. rewrite Z.pow_succ_r by done. apply Z.gcd_bezout in IH as (a & b & Eab).
      pose proof HK as HK'. apply Z.odd_spec in HK' as [h EK].
      apply Z.bezout_1_gcd. exists (1 - 2 * h * a), (- h * b).
      transitivity (K - 2 * h * (a * K + b * 2 ^ x)); [ring|]. rewrite Eab. lia. }
  assert (Z.divide (Z.of_nat n) (K * (Z.of_nat i - Z.of_nat j))) as Hd by (exists c; lia).
  apply Z.gauss in Hd; [|done]. destruct Hd as [d Hd]. assert (d = 0) by nia. lia.
Qed.

(** Replacing a zero coefficient. *)
Lemma insert_eval (r : list Z) e y x : length r = n -> (e < n)%nat -> r !!! e = 0 ->
  peval n (fun j => <[e := y]> r !!! j) x = peval n (fun j => r !!! j) x + y * x ^ Z.of_nat e.
Proof using Type.
  intros Lr He H0. unfold peval.
  rewrite <- (sumZ_delta n e (fun j => y * x ^ Z.of_nat j)) by done. rewrite <- sumZ_add. apply sumZ_ext. intros j Hj.
  destruct (decide (j = e)) as [->|Hne].
  - rewrite list_lookup_total_insert_eq, H0 by lia. ring.
  - rewrite list_lookup_total_insert_ne by done. ring.
Qed.

(** The fold of [raut_with], after [i] steps. *)
Lemma raut_partial (neg : Z -> Z) (a : list Z) i :
  (i <= n)%nat ->
  let r := foldl (fun r j => <[raut_pos n K j := if raut_flips n K j then neg (a !!! j) else a !!! j]> r) (repeat 0 n) (seq 0 i) in
  length r = n /\
  (forall t, (t < n)%nat -> (forall j, (j < i)%nat -> raut_pos n K j <> t) -> r !!! t = 0) /\
  (forall j, (j < i)%nat -> r !!! raut_pos n K j = if raut_flips n K j then neg (a !!! j) else a !!! j) /\
  (forall x, peval n (fun t => r !!! t) x =
     sumZ i (fun j => (if raut_flips n K j then neg (a !!! j) else a !!! j) * x ^ Z.of_nat (raut_pos n K j))).
Proof using HK.
  induction i as [|i IH]; intros Hi r.
  - unfold r. cbn [seq foldl]. split; [apply length_zeros|]. split; [|split].
    + intros t Ht _. by apply zeros_lookup.
    + lia.
    + intros x. cbn [sumZ]. unfold peval. rewrite (sumZ_ext _ _ (fun _ => 0)), sumZ_zero; [done|].
      intros j Hj. by rewrite zeros_lookup.
  - unfold r. rewrite seq_S, foldl_app. cbn [foldl Nat.add].
    destruct (IH ltac:(lia)) as (L & Hz & He & Hv). set (r' := foldl _ _ (seq 0 i)) in *. clearbody r'. clear r IH.
    pose proof (raut_pos_lt i) as Hlt.
    assert (forall j, (j < i)%nat -> raut_pos n K j <> raut_pos n K i) as Hne.
    { intros j Hj E. apply raut_pos_inj in E; lia. }
    split; [by rewrite length_insert|]. split; [|split].
    + intros t Ht Hall. rewrite list_lookup_total_insert_ne by (apply Hall; lia). apply Hz; [done|]. intros j Hj. apply Hall. lia.
    + intros j Hj. destruct (decide (j = i)) as [->|].
      * by rewrite list_lookup_total_insert_eq by lia.
      * rewrite list_lookup_total_insert_ne by (apply not_eq_sym, Hne; lia). apply He. lia.
    + intros x. rewrite insert_eval by (first [done | by apply Hz]). cbn [sumZ]. by rewrite Hv.
Qed.
End Positions.

(** ** The automorphism evaluates at the power *)
Section Evaluation.
Context {q : Z} {Hq : NativeModulus W q} (k : nat) (K : Z) (HK : Z.odd K = true) (HK0 : 0 < K).
Let n : nat := (2 ^ k)%nat.

Lemma entry_reduced (a : list Z) j : wf_data (q := q) k a -> reduced q (a !!! j).
Proof using Hq.
  intros [La Fa]. pose proof (nm_bounds (w := W) (m := q)). destruct (decide (j < 2 ^ k)%nat).
  - apply (reduced_at q (NVec q a) j Fa). by cbn; rewrite La.
  - rewrite list_lookup_total_alt, lookup_ge_None_2 by lia. cbn. split; [done|lia].
Qed.

Lemma raut_wf (a : list Z) : wf_data (q := q) k a -> wf_data (q := q) k (raut q n K a).
Proof using Hq.
  intros Ha. unfold raut, raut_with.
  assert (forall l r, wf_data (q := q) k r -> wf_data (q := q) k
    (foldl (fun r j => <[raut_pos n K j := if raut_flips n K j then (- a !!! j) mod q else a !!! j]> r) r l)) as H.
  { induction l as [|j l IH]; intros r Hr; [done|]. cbn [foldl]. apply IH. destruct Hr as [Lr Fr].
    split; [by rewrite length_insert|]. apply Forall_insert; [done|].
    destruct (raut_flips n K j); [apply (nm_mod (w := W))|by apply entry_reduced]. }
  apply H. apply (rzero_wf (q := q) k).
Qed.

Lemma raut_with_eval (neg : Z -> Z) (a : list Z) x : (forall y, neg y ≡[q] - y) -> x ^ Z.of_nat n ≡[q] -1 ->
  peval n (fun t => raut_with neg n K a !!! t) x ≡[q] peval n (fun t => a !!! t) (x ^ K).
Proof using HK HK0.
  intros Hneg Hx. destruct (raut_partial k K HK neg a n (Nat.le_refl n)) as (_ & _ & _ & Hv). fold n in Hv.
  unfold raut_with. rewrite Hv. unfold peval. apply sumZ_eqm. intros j Hj.
  pose proof (n_pos k) as Hp. rewrite <- (n_pow k) in Hp. fold n in Hp.
  rewrite <- Z.pow_mul_r by lia. set (e := K * Z.of_nat j) in *. unfold raut_pos, raut_flips. fold e. assert (0 <= e) by (unfold e; lia).
  rewrite Z2Nat.id by (apply Z.mod_pos_bound; lia). pose proof (Z.div_mod e (Z.of_nat n) ltac:(lia)) as Ee.
  pose proof (Z.mod_pos_bound e (Z.of_nat n) Hp). pose proof (Z.div_pos e (Z.of_nat n) ltac:(lia) Hp) as Hd.
  assert (x ^ e ≡[q] (if Z.odd (e / Z.of_nat n) then -1 else 1) * x ^ (e mod Z.of_nat n)) as ->.
  { rewrite Ee at 1. rewrite Z.pow_add_r, Z.pow_mul_r by nia. apply eqm_mul; [|done].
    rewrite (eqm_pow_nonneg q _ (-1) _ Hx Hd). apply eqm_refl. destruct (Z.odd (e / Z.of_nat n)) eqn:E.
    - apply Z.odd_spec in E as [c Ec]. rewrite Ec in Hd |- *. rewrite Z.pow_add_r, Z.pow_mul_r by lia. change ((-1) ^ 2) with 1. by rewrite Z.pow_1_l by lia.
    - assert (Z.even (e / Z.of_nat n) = true) as E' by (by rewrite <- Z.negb_odd, E). apply Z.even_spec in E' as [c Ec]. rewrite Ec in Hd |- *.
      rewrite Z.pow_mul_r by lia. change ((-1) ^ 2) with 1. by rewrite Z.pow_1_l by lia. }
  destruct (Z.odd (e / Z.of_nat n)).
  - rewrite Hneg. apply eqm_refl. ring.
  - apply eqm_refl. ring.
Qed.

Lemma raut_eval (a : list Z) x : x ^ Z.of_nat n ≡[q] -1 ->
  peval n (fun t => raut q n K a !!! t) x ≡[q] peval n (fun t => a !!! t) (x ^ K).
Proof using HK HK0. intros Hx. apply raut_with_eval; [|done]. intros y. apply eqm_mod. Qed.
End Evaluation.

(** ** [AutomorphismTransform] *)
Section Transform.
Context {st : FTT} {q psi : Z} {k : nat} {HR : RingTransform st q psi k}.
Context (K : Z) (HK : Z.odd K = true) (HK32 : 0 < K < 2 ^ 32).
Let n : nat := (2 ^ k)%nat.

#[local] Instance auto_modulus : NativeModulus W q.
Proof using HR. exact rt_modulus. Qed.

Lemma dim_pow : Z.of_nat n = 2 ^ Z.of_nat k.
Proof using Type. exact (n_pow k). Qed.

Lemma order_bits : GetMSB 64 (2 ^ Z.of_nat (S k)) - 1 - 1 = Z.of_nat k.
Proof using HR.
  pose proof (rt_dim (RingTransform := HR)). assert (0 < 2 ^ Z.of_nat (S k) < 2 ^ 64).
  { split; [apply Z.pow_pos_nonneg; lia|apply Z.pow_lt_mono_r; lia]. }
  rewrite GetMSB_spec, Z.log2_pow2 by lia. lia.
Qed.

Lemma index_mask e : Z.land (e mod 2 ^ 32) (Z.shiftl 1 (Z.of_nat k) - 1) = e mod Z.of_nat n.
Proof using HR.
  pose proof (rt_dim (RingTransform := HR)). rewrite Z.shiftl_1_l. replace (2 ^ Z.of_nat k - 1) with (Z.ones (Z.of_nat k)) by (rewrite Z.ones_equiv; lia).
  rewrite Z.land_ones, dim_pow by lia. apply Z.mod_mod_divide.
  exists (2 ^ (32 - Z.of_nat k)). rewrite <- Z.pow_add_r by lia. f_equal. lia.
Qed.

Lemma index_sign e : 0 <= e -> (Z.land (Z.shiftr (e mod 2 ^ 32) (Z.of_nat k)) 1 =? 0) = negb (Z.odd (e / Z.of_nat n)).
Proof using HR.
  intros He. pose proof (rt_dim (RingTransform := HR)). rewrite land_1_mod, Z.shiftr_div_pow2, dim_pow, Zmod_odd by lia.
  assert (Z.odd (e mod 2 ^ 32 / 2 ^ Z.of_nat k) = Z.odd (e / 2 ^ Z.of_nat k)) as ->.
  { rewrite <- !Z.shiftr_div_pow2 by lia. rewrite <- !Z.bit0_odd, !Z.shiftr_spec by lia. apply Z.mod_pow2_bits_low. lia. }
  destruct (Z.odd (e / 2 ^ Z.of_nat k)); reflexivity.
Qed.

Lemma start_of f a : wf_data (q := q) k a ->
  AutomorphismTransform (poly_of q psi k f a) K =
  (r ← (if bool_decide (f = EVALUATION)
        then for_ n (fun j (st : list Z * Z) =>
               let '(r, jk) := st in
               x ← vget (match f with EVALUATION => ntt q psi k a | COEFFICIENT => a end)
                     (Z.to_nat (ReverseBits (Z.land (Z.shiftr jk 1) (Z.shiftl 1 (Z.of_nat k) - 1)) (Z.of_nat k)));
               r ← vset r (Z.to_nat (ReverseBits (Z.of_nat j) (Z.of_nat k))) x;
               Ok (r, (jk + 2 * K) mod 2 ^ 32)) (repeat 0 n, K)
        else for_ n (fun j (st : list Z * Z) =>
               let '(r, jk) := st in
               x ← vget (match f with EVALUATION => ntt q psi k a | COEFFICIENT => a end) j;
               r ← vset r (Z.to_nat (Z.land jk (Z.shiftl 1 (Z.of_nat k) - 1)))
                     (if Z.land (Z.shiftr jk (Z.of_nat k)) 1 =? 0 then x else Sub W q x);
               Ok (r, (jk + K) mod 2 ^ 32)) (repeat 0 n, 0));
   Ok (MkPoly f (ring_par q psi k) (Some (NVec q r.1)))).
Proof using HR HK HK32.
  intros Ha. unfold AutomorphismTransform. cbn [poly_of p_params ring_par ringDimension cyclotomicOrder ciphertextModulus p_format].
  rewrite (dimension_of (k := k)). cbn [negb].
  assert ((K mod 2 =? 0) = false) as -> by (rewrite Zmod_odd, HK; done).
  rewrite order_bits. unfold values. cbn [poly_of p_values data]. rewrite bind_ok. done.
Qed.

(** Coefficients move, and a zero whose sign changes becomes the modulus. *)
Lemma Automorphism_coefficient a : wf_data (q := q) k a ->
  AutomorphismTransform (poly_of q psi k COEFFICIENT a) K =
  Ok (MkPoly COEFFICIENT (ring_par q psi k) (Some (NVec q (raut_with (fun x => q - x) n K a)))).
Proof using HR HK HK32.
  intros Ha. rewrite start_of by done. rewrite bool_decide_eq_false_2 by done.
  set (step := fun (r : list Z) j => <[raut_pos n K j := if raut_flips n K j then q - a !!! j else a !!! j]> r).
  assert (forall i, (i <= n)%nat -> for_ i (fun j (st : list Z * Z) =>
      let '(r, jk) := st in x ← vget a j;
      r ← vset r (Z.to_nat (Z.land jk (Z.shiftl 1 (Z.of_nat k) - 1))) (if Z.land (Z.shiftr jk (Z.of_nat k)) 1 =? 0 then x else Sub W q x);
      Ok (r, (jk + K) mod 2 ^ 32)) (repeat 0 n, 0) = Ok (foldl step (repeat 0 n) (seq 0 i), (K * Z.of_nat i) mod 2 ^ 32)) as H.
  { induction i as [|i IH]; intros Hi; [cbn; by rewrite Z.mul_0_r|]. cbn [for_]. rewrite IH, bind_ok by lia.
    rewrite (vget_total a), bind_ok by (destruct Ha as [-> _]; unfold n in Hi; lia).
    assert (length (foldl step (repeat 0 n) (seq 0 i)) = n) as L.
    { clear. generalize (seq 0 i). intros l. assert (length (repeat 0 n) = n) as L0 by apply length_zeros. revert L0.
      generalize (repeat 0 n). induction l as [|j l IH]; intros r Lr; [done|]. cbn [foldl]. apply IH. unfold step. by rewrite length_insert. }
    rewrite index_mask, index_sign by nia. fold (raut_pos n K i) (raut_flips n K i).
    rewrite vset_lt, bind_ok by (rewrite L; apply (raut_pos_lt k K)). rewrite seq_S, foldl_app. cbn [foldl Nat.add].
    do 2 f_equal.
    - unfold step at 2. f_equal. pose proof (entry_reduced (q := q) k a i Ha) as Hr. pose proof (nm_bounds (w := W) (m := q)).
      destruct (raut_flips n K i); cbn [negb]; [|done]. unfold Sub, SubFast. cbn [NATIVEINT_DO_CHECKS]. apply wrap_small. unfold reduced in Hr. lia.
    - rewrite Nat2Z.inj_succ. rewrite Zplus_mod_idemp_l. f_equal. ring. }
  rewrite H, bind_ok by lia. done.
Qed.

(** Writing at the reversal of the next index keeps the entries written before. *)
Lemma insert_reversed {A} `{Inhabited A} (r : list A) i (x : A) (f : nat -> A) : length r = n -> (i < n)%nat -> f i = x ->
  (forall j, (j < i)%nat -> r !!! Z.to_nat (rev k j) = f j) ->
  forall j, (j < S i)%nat -> <[Z.to_nat (rev k i) := x]> r !!! Z.to_nat (rev k j) = f j.
Proof using Type.
  intros Lr Hi <- Hr j Hj. pose proof (rev_index k i Hi) as [Hri Ei]. destruct (decide (j = i)) as [->|Hne]; [by rewrite list_lookup_total_insert_eq by (rewrite Lr; exact Hri)|].
  rewrite list_lookup_total_insert_ne; [apply Hr; lia|]. intros E. apply Hne.
  rewrite <- (Nat2Z.id j), <- (proj2 (rev_index k j ltac:(unfold n in *; lia))), <- E, Ei. by rewrite Nat2Z.id.
Qed.

(** The value at the reversal of [j] comes from the reversal of this index. *)
Definition raut_index (j : nat) : Z := (K * (2 * Z.of_nat j + 1) / 2) mod Z.of_nat n.

Lemma raut_index_bound j : 0 <= raut_index j < Z.of_nat n.
Proof using Type. apply Z.mod_pos_bound. rewrite dim_pow. apply Z.pow_pos_nonneg; lia. Qed.

Lemma values_of_raut a r : wf_data (q := q) k a -> length r = n ->
  (forall j, (j < n)%nat -> r !!! Z.to_nat (rev k j) = ntt q psi k a !!! Z.to_nat (rev k (Z.to_nat (raut_index j)))) ->
  r = ntt q psi k (raut q n K a).
Proof using HR HK HK32.
  intros Ha Lr Hr. pose proof (rt_root (RingTransform := HR)) as Hroot. pose proof dim_pow as En.
  apply list_total_ext; [by rewrite length_ntt|]. intros x Hx. rewrite Lr in Hx.
  pose proof (rev_index k x Hx) as [Hrx Exx]. specialize (Hr (Z.to_nat (rev k x)) Hrx). rewrite Exx, Nat2Z.id in Hr. rewrite Hr.
  set (j := Z.to_nat (rev k x)) in *. pose proof (raut_index_bound j) as Hidx.
  pose proof (rev_index k (Z.to_nat (raut_index j)) ltac:(unfold n in *; lia)) as [Hri Eri].
  assert (forall b i, (i < 2 ^ k)%nat -> reduced q (ntt q psi k b !!! i)) as Hred.
  { intros b i _. apply (entry_reduced (q := q) k). apply ntt_wf. }
  apply (eqm_small q); [by apply Hred|by apply Hred|].
  rewrite !ntt_lookup by done. transitivity (peval (2 ^ k) (fun t => a !!! t) (point psi k x ^ K));
    [|symmetry; apply (raut_eval k K HK); [lia|apply point_root, Hroot]].
  assert (point psi k (Z.to_nat (rev k (Z.to_nat (raut_index j)))) ≡[q] point psi k x ^ K) as Hp; [|unfold peval; apply sumZ_eqm; intros t _; by rewrite Hp].
  unfold point. rewrite Eri, Z2Nat.id by lia.
  assert (rev k x = Z.of_nat j) as -> by (unfold j; rewrite Z2Nat.id; [done|apply rev_nonneg]).
  rewrite <- Z.pow_mul_r by lia. apply Z.odd_spec in HK as [h Eh].
  assert (K * (2 * Z.of_nat j + 1) / 2 = K * Z.of_nat j + h) as Ediv.
  { symmetry. apply Z.div_unique_pos with 1; lia. }
  unfold raut_index. rewrite Ediv, En. assert (0 < 2 ^ Z.of_nat k) as Hp2 by (apply Z.pow_pos_nonneg; lia).
  set (e := K * Z.of_nat j + h). assert (0 <= e) by (unfold e; nia). pose proof (Z.div_mod e (2 ^ Z.of_nat k) ltac:(lia)) as Ee.
  pose proof (Z.mod_pos_bound e (2 ^ Z.of_nat k) Hp2). pose proof (Z.div_pos e (2 ^ Z.of_nat k) ltac:(lia) Hp2).
  assert ((2 * Z.of_nat j + 1) * K = 2 * (e mod 2 ^ Z.of_nat k) + 1 + 2 * (e / 2 ^ Z.of_nat k) * 2 ^ Z.of_nat k) as -> by (unfold e in *; lia).
  rewrite (root_period q psi k Hroot) by lia. rewrite Z.even_mul. cbn [Z.even orb]. by rewrite Z.mul_1_l.
Qed.

(** Values move. *)
Lemma Automorphism_evaluation a : wf_data (q := q) k a ->
  AutomorphismTransform (poly_of q psi k EVALUATION a) K = Ok (poly_of q psi k EVALUATION (raut q n K a)).
Proof using HR HK HK32.
  intros Ha. rewrite start_of by done. rewrite bool_decide_eq_true_2 by done.
  pose proof (rt_dim (RingTransform := HR)) as Hk. pose proof dim_pow as En.
  match goal with |- (?m ≫= _) = _ => assert (returns m (fun rj => length rj.1 = n /\ forall j, (j < n)%nat ->
    rj.1 !!! Z.to_nat (rev k j) = ntt q psi k a !!! Z.to_nat (rev k (Z.to_nat (raut_index j))))) as ([r jk] & E & Lr & Hr) end.
  { eapply returns_mono.
    - apply (returns_for (fun i (rj : list Z * Z) => rj.2 = (K * (2 * Z.of_nat i + 1)) mod 2 ^ 32 /\ length rj.1 = n /\
        forall j, (j < i)%nat -> rj.1 !!! Z.to_nat (rev k j) = ntt q psi k a !!! Z.to_nat (rev k (Z.to_nat (raut_index j))))).
      + cbn [fst snd]. split; [rewrite Z.mod_small; lia|]. split; [apply length_zeros|lia].
      + intros i [r jk] Hi (Ejk & Lr & Hr). cbn [fst snd] in *. subst jk.
        assert (Z.land (Z.shiftr ((K * (2 * Z.of_nat i + 1)) mod 2 ^ 32) 1) (Z.shiftl 1 (Z.of_nat k) - 1) = raut_index i) as ->.
        { unfold raut_index. rewrite Z.shiftl_1_l. replace (2 ^ Z.of_nat k - 1) with (Z.ones (Z.of_nat k)) by (rewrite Z.ones_equiv; lia).
          rewrite Z.land_ones, En by lia. rewrite <- (Z.shiftr_div_pow2 _ 1) by lia. apply Z.bits_inj'. intros b Hb.
          destruct (decide (b < Z.of_nat k)).
          - rewrite !Z.mod_pow2_bits_low, !Z.shiftr_spec by lia. apply Z.mod_pow2_bits_low. lia.
          - by rewrite !Z.mod_pow2_bits_high by lia. }
        pose proof (raut_index_bound i) as Hidx.
        rewrite !ReverseBits_spec, !Nat2Z.id by lia. change (bitrev k (Z.of_nat i)) with (rev k i).
        assert (bitrev k (raut_index i) = rev k (Z.to_nat (raut_index i))) as -> by (unfold rev; by rewrite Z2Nat.id by lia).
        pose proof (rev_index k i Hi) as [Hri _]. pose proof (rev_index k (Z.to_nat (raut_index i)) ltac:(unfold n in *; lia)) as [Hrx _].
        rewrite vget_total, bind_ok by (rewrite length_ntt; lia). rewrite vset_lt, bind_ok by (rewrite Lr; exact Hri). apply returns_ok. cbn [fst snd].
        split; [rewrite Zplus_mod_idemp_l, Nat2Z.inj_succ; f_equal; ring|]. split; [by rewrite length_insert|].
        intros j Hj. exact (insert_reversed r i _ (fun j => ntt q psi k a !!! Z.to_nat (rev k (Z.to_nat (raut_index j)))) Lr Hi eq_refl Hr j Hj).
    - intros [r jk] (_ & Lr & Hr). by split. }
  rewrite E, bind_ok. cbn [fst] in Lr, Hr |- *. unfold poly_of. do 4 f_equal. by apply values_of_raut.
Qed.
End Transform.

(** ** The automorphism is a map of rings *)
Section RingMap.
Context {st : FTT} {q psi : Z} {k : nat} {HR : RingTransform st q psi k}.
Context (K : Z) (HK : Z.odd K = true) (HK0 : 0 < K).
Let n : nat := (2 ^ k)%nat.
Abbreviation wf := (wf_data (q := q) k).

#[local] Instance map_modulus : NativeModulus W q.
Proof using HR. exact rt_modulus. Qed.

Lemma slot_raut x a : slot q psi k x (raut q n K a) ≡[q] peval n (fun j => a !!! j) (point psi k x ^ K).
Proof using HK HK0 HR. apply raut_eval; [done|done|]. apply point_root, rt_root. Qed.

Lemma power_root x : (point psi k x ^ K) ^ Z.of_nat n ≡[q] -1.
Proof using HK HK0 HR.
  unfold n. rewrite <- Z.pow_mul_r by lia. rewrite Z.mul_comm, Z.pow_mul_r by lia.
  rewrite (eqm_pow_nonneg q _ (-1) K (point_root q psi k rt_root x)) by lia.
  apply Z.odd_spec in HK as [h ->]. rewrite Z.pow_add_r, Z.pow_mul_r by lia. change ((-1) ^ 2) with 1. rewrite Z.pow_1_l by lia. done.
Qed.

Lemma raut_radd a b : wf a -> wf b -> raut q n K (radd q a b) = radd q (raut q n K a) (raut q n K b).
Proof using HK HK0 HR.
  intros Ha Hb. pose proof (raut_wf k K a Ha). pose proof (raut_wf k K b Hb). pose proof (radd_wf k a b Ha Hb).
  apply (slot_ext (HR := HR)); [by apply raut_wf|by apply radd_wf|]. intros x Hx.
  rewrite (slot_radd (HR := HR)), !slot_raut by done. unfold peval. rewrite <- sumZ_add. apply sumZ_eqm. intros j Hj.
  unfold radd. rewrite vec_op_lookup by (destruct Ha, Hb; unfold n in *; lia). rewrite eqm_mod. apply eqm_refl. ring.
Qed.

Lemma raut_rmul a b : wf a -> wf b -> raut q n K (rmul q n a b) = rmul q n (raut q n K a) (raut q n K b).
Proof using HK HK0 HR.
  intros Ha Hb. pose proof (raut_wf k K a Ha). pose proof (raut_wf k K b Hb).
  apply (slot_ext (HR := HR)); [apply raut_wf, rmul_wf|apply rmul_wf|]. intros x Hx. unfold n at 3.
  rewrite (slot_rmul (HR := HR)), !slot_raut by done. rewrite <- negacyclic_eval by apply power_root.
  apply peval_ext. intros j Hj. unfold rmul. by rewrite lookup_total_tab.
Qed.

(** The two ways to negate agree up to the representative of zero. *)
Lemma raut_with_related (neg1 neg2 : Z -> Z) (R : Z -> Z -> Prop) a :
  R 0 0 -> (forall j, (j < n)%nat -> R (if raut_flips n K j then neg1 (a !!! j) else a !!! j) (if raut_flips n K j then neg2 (a !!! j) else a !!! j)) ->
  Forall2 R (raut_with neg1 n K a) (raut_with neg2 n K a).
Proof using Type.
  clear. intros H0 H. unfold raut_with. assert (Forall2 R (repeat 0 n) (repeat 0 n)) as Hz.
  { generalize n. intros m. induction m; constructor; done. }
  assert (forall l, (forall j, j ∈ l -> (j < n)%nat) -> forall r1 r2, Forall2 R r1 r2 ->
    Forall2 R (foldl (fun r j => <[raut_pos n K j := if raut_flips n K j then neg1 (a !!! j) else a !!! j]> r) r1 l)
              (foldl (fun r j => <[raut_pos n K j := if raut_flips n K j then neg2 (a !!! j) else a !!! j]> r) r2 l)) as Hf.
  { induction l as [|j l IH]; intros Hl r1 r2 Hr; [done|]. cbn [foldl]. apply IH; [set_solver|].
    apply Forall2_insert; [done|]. apply H, Hl. set_solver. }
  apply Hf; [|done]. intros j Hj%elem_of_seq. lia.
Qed.
End RingMap.

(** [Transpose] is the substitution [x -> x^(2n-1)]. *)
Lemma Transpose_of {st : FTT} {q psi : Z} {k : nat} {HR : RingTransform st q psi k} a : wf_data (q := q) k a ->
  Transpose (poly_of q psi k EVALUATION a) = Ok (poly_of q psi k EVALUATION (raut q (2 ^ k) (2 * Z.of_nat (2 ^ k) - 1) a)).
Proof.
  intros Ha. unfold Transpose. cbn [poly_of p_format p_params ring_par cyclotomicOrder]. rewrite bool_decide_eq_false_2 by done.
  pose proof (rt_dim (RingTransform := HR)) as Hk. assert (Z.of_nat (2 ^ k) = 2 ^ Z.of_nat k) as En by (by rewrite Nat2Z.inj_pow).
  assert (0 < 2 ^ Z.of_nat k <= 2 ^ 24) by (split; [apply Z.pow_pos_nonneg; lia|apply Z.pow_le_mono_r; lia]).
  assert ((2 ^ Z.of_nat (S k) - 1) mod 2 ^ 32 = 2 * Z.of_nat (2 ^ k) - 1) as ->.
  { rewrite Nat2Z.inj_succ, Z.pow_succ_r, En by lia. apply Z.mod_small. lia. }
  apply (Automorphism_evaluation (HR := HR)); [|lia|done]. rewrite Z.odd_sub, Z.odd_mul. done.
Qed.
