(* ===== verification/Gadget.v ===== *)
(** * Gadget decomposition

    Models [UniEncAccumulator::SignedDigitDecompose] of
    [src/binfhe/lib/mk-acc.cpp], for one ring element and for a pair: the
    coefficients, as signed integers, are split into signed digits of a
    power-of-two base, of which the lowest is dropped. *)

From Stdlib Require Import ZArith Lia String.
From stdpp Require Import base tactics numbers list strings gmap.
From S2P Require Import Prelude Double NativeInt NativeIntFacts ModArith NativeVec SchemeCore Negacyclic BitReverse Ntt NttFacts NttSpec NttRing Poly PolyFacts Automorphism.

(** ** Definitions *)

(** [__builtin_ctz], for a positive argument. *)
Definition ctz (x : Z) : Z := Z.log2 (Z.land x (- x)).

(** [static_cast<int64_t>(t < QHalf ? t : t - Q)], in unsigned arithmetic. *)
Definition signed_lift (Q t : Z) : Z := to_signed W (if t <? Z.shiftr Q 1 then t else wrap W (t - Q)).

(** [(d << gBitsMaxBits) >> gBitsMaxBits] on [int64_t], and
    [d = (d - r) >> gBits]. *)
Definition low_digit (gBitsMaxBits d : Z) : Z := Z.shiftr (to_signed W (wrap W (Z.shiftl d gBitsMaxBits))) gBitsMaxBits.
Definition next_digits (gBits d r : Z) : res Z := x ← sck W (d - r); Ok (Z.shiftr x gBits).

(** One digit of coefficient [c]: [r = ...; d = ...; if (r < 0) r += Q;
    output[i][c] += r]. *)
Definition put_digit (Q gBits : Z) (c i : nat) (d : Z) (output : list NativePoly) : res (Z * list NativePoly) :=
  let r := low_digit (64 - gBits) d in
  d ← next_digits gBits d r;
  let r := if r <? 0 then r + Q else r in
  p ← vget output i;
  x ← p_get p c;
  x ← AddEq W x (wrap W r);
  p ← p_set p c x;
  output ← vset output i p;
  Ok (d, output).

Definition SignedDigitDecompose (Q baseG : Z) (digitsG N : nat) (input : NativePoly) (output : list NativePoly) : res (list NativePoly) :=
  let gBits := ctz baseG in
  for_ N (fun c output =>
    t0 ← p_get input c;
    let d0 := signed_lift Q t0 in
    d0 ← next_digits gBits d0 (low_digit (64 - gBits) d0);
    r ← for_ (digitsG - 1) (fun i (st : Z * list NativePoly) => put_digit Q gBits c i st.1 st.2) (d0, output);
    Ok r.2) output.

(** The overload for a pair interleaves the digits of the two elements. *)
Definition SignedDigitDecompose2 (Q baseG : Z) (digitsG N : nat) (input0 input1 : NativePoly) (output : list NativePoly) :
    res (list NativePoly) :=
  let gBits := ctz baseG in
  for_ N (fun c output =>
    t0 ← p_get input0 c;
    let d0 := signed_lift Q t0 in
    t1 ← p_get input1 c;
    let d1 := signed_lift Q t1 in
    d0 ← next_digits gBits d0 (low_digit (64 - gBits) d0);
    d1 ← next_digits gBits d1 (low_digit (64 - gBits) d1);
    r ← for_ (digitsG - 1) (fun i (st : Z * Z * list NativePoly) =>
          let '(d0, d1, output) := st in
          a ← put_digit Q gBits c (2 * i) d0 output;
          b ← put_digit Q gBits c (2 * i + 1) d1 a.2;
          Ok (a.1, b.1, b.2)) (d0, d1, output);
    Ok r.2) output.

(** ** Signed digits *)
Definition sd_low (B d : Z) : Z := (d + B / 2) mod B - B / 2.
Definition sd_next (B d : Z) : Z := (d + B / 2) / B.
Fixpoint sd_rest (B : Z) (m : nat) (d : Z) : Z := match m with O => d | S m => sd_rest B m (sd_next B d) end.
Definition sd_digit (B : Z) (i : nat) (d : Z) : Z := sd_low B (sd_rest B i d).

(** The signed value of a residue. *)
Definition lift (Q t : Z) : Z := if t <? Q / 2 then t else t - Q.

Section Digits.
Context (B : Z) (HB : 2 <= B) (Heven : Z.even B = true).

Lemma half_B : 2 * (B / 2) = B.
Proof using All. pose proof (Z.div_mod B 2 ltac:(lia)) as E. rewrite Zmod_even, Heven in E. lia. Qed.

Lemma sd_low_range d : - (B / 2) <= sd_low B d < B / 2.
Proof using All. unfold sd_low. pose proof (Z.mod_pos_bound (d + B / 2) B ltac:(lia)). pose proof half_B. lia. Qed.

Lemma sd_step d : d = sd_low B d + B * sd_next B d.
Proof using HB. unfold sd_low, sd_next. pose proof (Z.div_mod (d + B / 2) B ltac:(lia)). lia. Qed.

Lemma sd_rest_S m d : sd_rest B (S m) d = sd_next B (sd_rest B m d).
Proof using Type. revert d. induction m as [|m IH]; intros d; [done|]. cbn [sd_rest] in *. apply IH. Qed.

(** The digits and the rest recompose the integer. *)
Lemma sd_recompose m d : d = sumZ m (fun i => B ^ Z.of_nat i * sd_digit B i d) + B ^ Z.of_nat m * sd_rest B m d.
Proof using HB.
  induction m as [|m IH]; [cbn; lia|]. cbn [sumZ]. rewrite sd_rest_S, Nat2Z.inj_succ, Z.pow_succ_r by lia.
  rewrite IH at 1. unfold sd_digit. set (e := sd_rest B m d). rewrite (sd_step e) at 1. ring.
Qed.

(** The rest of an integer of at most half of [B^m] is a carry of 0 or 1. *)
Lemma sd_rest_formula m d : sd_rest B m d = (d + B / 2 * sumZ m (fun i => B ^ Z.of_nat i)) / B ^ Z.of_nat m.
Proof using HB.
  induction m as [|m IH]; [cbn [sd_rest sumZ]; by rewrite Z.mul_0_r, Z.add_0_r, Z.div_1_r|].
  rewrite sd_rest_S, IH. unfold sd_next. cbn [sumZ]. assert (0 < B ^ Z.of_nat m) by (apply Z.pow_pos_nonneg; lia).
  rewrite <- Z.div_add, Z.div_div by lia. rewrite Nat2Z.inj_succ, Z.pow_succ_r by lia. f_equal; ring.
Qed.

Lemma geometric m : (B - 1) * sumZ m (fun i => B ^ Z.of_nat i) = B ^ Z.of_nat m - 1.
Proof using HB.
  induction m as [|m IH]; [cbn; lia|]. cbn [sumZ]. rewrite Z.mul_add_distr_l, IH, Nat2Z.inj_succ, Z.pow_succ_r by lia. lia.
Qed.

Lemma sd_rest_carry m d : (0 < m)%nat -> - B ^ Z.of_nat m <= 2 * d <= B ^ Z.of_nat m ->
  sd_rest B m d = if 2 * (B - 1) * d <? (B - 2) * B ^ Z.of_nat m + B then 0 else 1.
Proof using All.
  intros Hm Hd. rewrite sd_rest_formula. pose proof (geometric m) as Hg. pose proof half_B as Hh.
  set (P := B ^ Z.of_nat m) in *. set (G := sumZ m _) in *.
  assert (0 < P) by (apply Z.pow_pos_nonneg; lia).
  assert (2 * (B - 1) * (d + B / 2 * G) = 2 * (B - 1) * d + B * (P - 1)) as E.
  { rewrite <- Hg. transitivity (2 * (B - 1) * d + (2 * (B / 2)) * ((B - 1) * G)); [ring|]. rewrite Hh. ring. }
  assert (B <= P).
  { unfold P. rewrite <- (Z.pow_1_r B) at 1. apply Z.pow_le_mono_r; lia. }
  assert ((B - 1) * - P <= (B - 1) * (2 * d) <= (B - 1) * P) as Hl by (split; apply Z.mul_le_mono_nonneg_l; lia).
  set (X := d + B / 2 * G) in *. assert (0 <= X) as HX by (apply (Z.mul_le_mono_pos_l _ _ (2 * (B - 1))); [|rewrite E]; lia).
  destruct (Z.ltb_spec (2 * (B - 1) * d) ((B - 2) * P + B)).
  - apply Z.div_small. split; [done|]. apply (Z.mul_lt_mono_pos_l (2 * (B - 1))); [|rewrite E]; lia.
  - symmetry. apply Z.div_unique_pos with (X - P); [|lia]. split.
    + apply Z.le_0_sub. apply (Z.mul_le_mono_pos_l _ _ (2 * (B - 1))); [|rewrite E]; lia.
    + assert (X < 2 * P); [|lia]. apply (Z.mul_lt_mono_pos_l (2 * (B - 1))); [lia|]. rewrite E.
      assert (2 * P <= B * P) by (apply Z.mul_le_mono_nonneg_r; lia). lia.
Qed.

Lemma sd_next_abs d : Z.abs (sd_next B d) <= Z.abs d.
Proof using All.
  unfold sd_next. pose proof half_B. destruct (Z.le_gt_cases 0 d).
  - assert (0 <= (d + B / 2) / B <= d); [|lia]. split; [apply Z.div_pos; lia|].
    apply Z.lt_succ_r, Z.div_lt_upper_bound; nia.
  - assert (d <= (d + B / 2) / B <= 0); [|lia]. split; [apply Z.div_le_lower_bound; nia|].
    apply Z.lt_succ_r, Z.div_lt_upper_bound; nia.
Qed.

Lemma sd_rest_abs m d : Z.abs (sd_rest B m d) <= Z.abs d.
Proof using All.
  revert d. induction m as [|m IH]; intros d; [done|]. cbn [sd_rest]. pose proof (IH (sd_next B d)). pose proof (sd_next_abs d). lia.
Qed.
End Digits.

(** ** The decomposition of the program *)
Lemma insert_tab {A} (f : nat -> A) n i x :
  <[i := x]> (map f (seq 0 n)) = map (fun j => if decide (j = i) then x else f j) (seq 0 n).
Proof.
  apply list_eq. intros j. destruct (decide (j < n)%nat) as [Hj|Hj].
  - rewrite lookup_tab by done. destruct (decide (j = i)) as [->|Hne].
    + rewrite list_lookup_insert_eq by (by rewrite length_tab). done.
    + rewrite list_lookup_insert_ne by done. by rewrite lookup_tab.
  - rewrite !lookup_ge_None_2; [done|rewrite length_tab; lia|rewrite length_insert, length_tab; lia].
Qed.

Definition residue (q r : Z) : Z := if r <? 0 then r + q else r.

Lemma residue_mod q r : 0 < q -> - q <= r < q -> residue q r = r mod q.
Proof.
  intros Hq Hr. unfold residue. destruct (Z.ltb_spec r 0).
  - rewrite <- (Z.mod_add r 1) by lia. rewrite Z.mod_small; lia.
  - by rewrite Z.mod_small by lia.
Qed.

Lemma signed_lift_spec q t : 4 <= q <= 2 ^ 63 -> reduced q t -> signed_lift q t = lift q t /\ Z.abs (lift q t) <= 2 ^ 62.
Proof.
  intros Hqb Ht. unfold reduced in Ht. pose proof (Z.div_mod q 2 ltac:(lia)). pose proof (Z.mod_pos_bound q 2 ltac:(lia)).
  unfold signed_lift, lift. rewrite Z.shiftr_div_pow2, Z.pow_1_r by lia. unfold to_signed.
  change (2 ^ (W - 1)) with (2 ^ 63). destruct (Z.ltb_spec t (q / 2)).
  - rewrite (proj2 (Z.ltb_lt _ _)) by lia. lia.
  - assert (wrap W (t - q) = t - q + 2 ^ 64) as ->.
    { unfold wrap. rewrite <- (Z.mod_add _ 1) by done. rewrite Z.mod_small; change (2 ^ W) with (2 ^ 64); lia. }
    rewrite (proj2 (Z.ltb_ge _ _)) by lia. change (2 ^ W) with (2 ^ 64). lia.
Qed.

Section Machine.
Context (g : Z) (Hg : 1 <= g <= 32).
Let B : Z := 2 ^ g.

Lemma base_pos : 2 <= B /\ Z.even B = true /\ B <= 2 ^ 32.
Proof using Hg.
  unfold B. split; [|split].
  - change 2 with (2 ^ 1) at 1. apply Z.pow_le_mono_r; lia.
  - rewrite Z.even_pow by lia. done.
  - apply Z.pow_le_mono_r; lia.
Qed.

Lemma ctz_pow : ctz (2 ^ g) = g.
Proof using Hg.
  unfold ctz. assert (Z.land (2 ^ g) (- 2 ^ g) = 2 ^ g) as ->; [|by rewrite Z.log2_pow2 by lia].
  apply Z.bits_inj'. intros i Hi. rewrite Z.land_spec, Z.pow2_bits_eqb by lia. destruct (Z.eqb_spec g i) as [E|]; [|done]. cbn [andb].
  rewrite Z.bits_opp by lia. rewrite <- E. replace (Z.pred (2 ^ g)) with (Z.ones g) by (rewrite Z.ones_equiv; lia).
  rewrite Z.ones_spec_high by lia. done.
Qed.

Lemma low_digit_spec d : low_digit (64 - g) d = sd_low B d.
Proof using Hg.
  destruct base_pos as (HB & Heven & _). pose proof (half_B B HB Heven) as Hh.
  unfold low_digit, sd_low. rewrite Z.shiftl_mul_pow2, Z.shiftr_div_pow2 by lia.
  set (P := 2 ^ (64 - g)). assert (0 < P) as HP by (apply Z.pow_pos_nonneg; lia).
  assert (2 ^ W = B * P) as EW by (unfold B, P, W; rewrite <- Z.pow_add_r by lia; f_equal; lia).
  assert (wrap W (d * P) = (d mod B) * P) as ->.
  { unfold wrap. rewrite EW. by rewrite Zmult_mod_distr_r. }
  pose proof (Z.mod_pos_bound d B ltac:(lia)) as Hd. unfold to_signed. change (2 ^ (W - 1)) with (2 ^ 63).
  assert (2 ^ 63 = B / 2 * P) as -> by (change (2 ^ W) with (2 * 2 ^ 63) in EW; nia). rewrite EW.
  assert ((d + B / 2) mod B = (d mod B + B / 2) mod B) as -> by (by rewrite Zplus_mod_idemp_l).
  destruct (Z.ltb_spec (d mod B * P) (B / 2 * P)).
  - assert (d mod B < B / 2) by (by apply (Z.mul_lt_mono_pos_r P)).
    rewrite Z.div_mul, (Z.mod_small (d mod B + B / 2)) by lia. lia.
  - assert (B / 2 <= d mod B) by (by apply (Z.mul_le_mono_pos_r _ _ P)).
    rewrite <- Z.mul_sub_distr_r, Z.div_mul by lia.
    rewrite <- (Z.mod_add (d mod B + B / 2) (-1)), (Z.mod_small (d mod B + B / 2 + -1 * B)) by lia. lia.
Qed.

Lemma next_digits_spec d : Z.abs d <= 2 ^ 62 -> next_digits g d (sd_low B d) = Ok (sd_next B d).
Proof using Hg.
  intros Hd. destruct base_pos as (HB & Heven & H32). pose proof (sd_low_range B HB Heven d). pose proof (half_B B HB Heven).
  unfold next_digits, sck. change (2 ^ (W - 1)) with (2 ^ 63).
  rewrite (proj2 (Z.leb_le (- 2 ^ 63) _)), (proj2 (Z.ltb_lt _ (2 ^ 63))) by lia. cbn [andb]. rewrite bind_ok.
  rewrite Z.shiftr_div_pow2 by lia. fold B. f_equal. rewrite (sd_step B HB d) at 1.
  replace (sd_low B d + B * sd_next B d - sd_low B d) with (sd_next B d * B) by ring. apply Z.div_mul. lia.
Qed.
End Machine.

(** Elements in coefficient form, given by their entries. *)
Definition elements_of (q psi : Z) (k : nat) (m : nat) (f : nat -> nat -> Z) : list NativePoly :=
  map (fun i => MkPoly COEFFICIENT (ring_par q psi k) (Some (NVec q (map (f i) (seq 0 (2 ^ k)))))) (seq 0 m).

Lemma elements_ext q psi k m f h : (forall i c, (i < m)%nat -> (c < 2 ^ k)%nat -> f i c = h i c) -> elements_of q psi k m f = elements_of q psi k m h.
Proof.
  intros E. unfold elements_of. apply map_ext_in. intros i Hi%in_seq. do 3 f_equal.
  apply map_ext_in. intros c Hc%in_seq. apply E; lia.
Qed.

(** Digit [i] of the decomposition of [t]; the digit below it is dropped. *)
Definition gadget_digit (q B : Z) (k i : nat) (t : list Z) : list Z :=
  map (fun c => sd_digit B (S i) (lift q (t !!! c)) mod q) (seq 0 (2 ^ k)).

Lemma gadget_digit_wf {q : Z} {Hq : NativeModulus W q} B k i t : wf_data (q := q) k (gadget_digit q B k i t).
Proof. apply wf_tab. Qed.

Lemma for_states {S} (f : nat -> S -> res S) n (s : nat -> S) :
  (forall i, (i < n)%nat -> f i (s i) = Ok (s (Datatypes.S i))) -> for_ n f (s O) = Ok (s n).
Proof.
  intros H. induction n as [|n IH]; [done|]. cbn [for_]. rewrite IH by (intros; apply H; lia). rewrite bind_ok. apply H. lia.
Qed.

Section Decompose.
Context {st : FTT} {q psi : Z} {k : nat} {HR : RingTransform st q psi k}.
Context (g : Z) (Hg : 1 <= g <= 32) (HgQ : 2 ^ g <= q).
Let B : Z := 2 ^ g.
Let n : nat := (2 ^ k)%nat.

#[local] Instance gadget_modulus : NativeModulus W q.
Proof using HR. exact rt_modulus. Qed.

Lemma put_digit_spec m f c i d :
  (i < m)%nat -> (c < n)%nat -> Z.abs d <= 2 ^ 62 -> f i c = 0 ->
  put_digit q g c i d (elements_of q psi k m f) =
  Ok (sd_next B d, elements_of q psi k m (fun i' c' => if decide (i' = i /\ c' = c) then sd_low B d mod q else f i' c')).
Proof using HR Hg HgQ.
  intros Hi Hc Hd H0. destruct (base_pos g Hg) as (HB & Heven & H32). fold B in HB, Heven, H32.
  pose proof (sd_low_range B HB Heven d) as Hr. pose proof (half_B B HB Heven) as Hh. pose proof (q_bounds (q := q)) as Hqb.
  unfold put_digit. rewrite (low_digit_spec g Hg), (next_digits_spec g Hg), bind_ok by done. fold B.
  fold (residue q (sd_low B d)). rewrite residue_mod by (unfold B in *; lia).
  unfold elements_of at 1 2. rewrite (vget_lookup _ _ _ (lookup_tab _ _ _ Hi)), bind_ok.
  unfold p_get, values. cbn [p_values data]. rewrite bind_ok. cbn [data]. rewrite (vget_lookup _ _ _ (lookup_tab _ _ _ Hc)), bind_ok, H0.
  pose proof (nm_mod (w := W) (m := q) (sd_low B d)) as Hres. unfold reduced in Hres.
  unfold AddEq. cbn [NATIVEINT_DO_CHECKS].
  assert (AddEqFast W 0 (wrap W (sd_low B d mod q)) = sd_low B d mod q) as ->.
  { unfold AddEqFast, AddFast. rewrite (wrap_small W (sd_low B d mod q)) by (change (2 ^ W) with (2 ^ 64); lia). rewrite Z.add_0_r. apply wrap_small. change (2 ^ W) with (2 ^ 64). lia. }
  rewrite bind_ok. unfold p_set, values. cbn [p_values data]. rewrite bind_ok. cbn [data].
  rewrite vset_lt, bind_ok by (by rewrite length_tab). rewrite insert_tab.
  unfold with_values, with_data. cbn [p_format p_params modulus].
  rewrite bind_ok, vset_lt, bind_ok by (by rewrite length_tab). unfold elements_of. rewrite insert_tab. do 2 f_equal.
  apply map_ext_in. intros i' _. destruct (decide (i' = i)) as [->|Hne].
  - do 3 f_equal. apply map_ext_in. intros c' _. destruct (decide (c' = c)) as [->|]; [by rewrite decide_True|].
    rewrite decide_False; [done|]. by intros [_ ?].
  - do 3 f_equal. apply map_ext_in. intros c' _. rewrite decide_False; [done|]. by intros [? _].
Qed.
(** The elements while the digits [D i c] (of row [i], coefficient [c]) are
    added: the coefficients below [c] are done, and [i] rows of [c]. *)
Let partial (D : nat -> nat -> Z) (c i i' c' : nat) : Z :=
  if (c' <? c)%nat || ((c' =? c)%nat && (i' <? i)%nat) then D i' c' mod q else 0.

Lemma put_step D m c i d : (i < m)%nat -> (c < n)%nat -> Z.abs d <= 2 ^ 62 -> D i c = sd_low B d ->
  put_digit q g c i d (elements_of q psi k m (partial D c i)) = Ok (sd_next B d, elements_of q psi k m (partial D c (S i))).
Proof using HR Hg HgQ.
  intros Hi Hc Hd HD.
  rewrite put_digit_spec; [|done|done|done|unfold partial; by rewrite !Nat.ltb_irrefl, andb_false_r].
  do 2 f_equal. apply elements_ext. intros i' c' Hi' Hc'. unfold partial.
  destruct (decide (i' = i /\ c' = c)) as [[-> ->]|Hne].
  - rewrite Nat.eqb_refl, (proj2 (Nat.ltb_lt i (S i))), orb_true_r, HD by lia. done.
  - destruct (Nat.eqb_spec c' c) as [->|]; [|done]. cbn [andb]. destruct (Nat.ltb_spec i' i), (Nat.ltb_spec i' (S i)); try done; lia.
Qed.

Lemma next_row D m c : elements_of q psi k m (partial D c m) = elements_of q psi k m (partial D (S c) 0).
Proof using Type.
  clear. apply elements_ext. intros i' c' Hi' Hc'. unfold partial. destruct (Nat.ltb_spec i' m); [|lia]. clear Hi'.
  destruct (Nat.ltb_spec c' c), (Nat.eqb_spec c' c), (Nat.ltb_spec c' (S c)), (Nat.eqb_spec c' (S c)); try done; lia.
Qed.

Lemma lift_small t c j : wf_data (q := q) k t -> signed_lift q (t !!! c) = lift q (t !!! c) /\ Z.abs (sd_rest B j (lift q (t !!! c))) <= 2 ^ 62.
Proof using HR Hg.
  intros Ht. destruct (base_pos g Hg) as (HB & Heven & _). pose proof (q_bounds (q := q)).
  destruct (signed_lift_spec q (t !!! c) ltac:(lia) (entry_reduced k t c Ht)) as [-> Habs]. split; [done|].
  pose proof (sd_rest_abs B HB Heven j (lift q (t !!! c))). lia.
Qed.

Lemma first_digit t c : wf_data (q := q) k t ->
  next_digits g (lift q (t !!! c)) (low_digit (64 - g) (lift q (t !!! c))) = Ok (sd_rest B 1 (lift q (t !!! c))).
Proof using HR Hg.
  intros Ht. rewrite (low_digit_spec g Hg), (next_digits_spec g Hg); [done|]. apply (lift_small t c 0 Ht).
Qed.

Lemma entry_of t c : (c < n)%nat -> wf_data (q := q) k t -> p_get (poly_of q psi k COEFFICIENT t) c = Ok (t !!! c).
Proof using Type.
  clear. intros Hc [L _]. unfold p_get, values. cbn [poly_of p_values]. rewrite bind_ok. cbn [data]. apply vget_lookup.
  rewrite list_lookup_lookup_total_lt by lia. done.
Qed.

Lemma all_digits D m : elements_of q psi k m (partial D n 0) = map (fun i => poly_of q psi k COEFFICIENT (map (fun c => D i c mod q) (seq 0 n))) (seq 0 m).
Proof using Type.
  clear. unfold elements_of, poly_of. apply map_ext. intros i. do 3 f_equal. apply map_ext_in. intros c Hc%in_seq.
  unfold partial. by rewrite (proj2 (Nat.ltb_lt c n)) by lia.
Qed.

Lemma no_digits D m : replicate m (new_poly (ring_par q psi k) COEFFICIENT true) = elements_of q psi k m (partial D 0 0).
Proof using Type.
  clear. unfold elements_of. apply list_eq. intros i. destruct (decide (i < m)%nat).
  - rewrite lookup_replicate_2, lookup_tab by done. unfold new_poly, zero_vec. cbn [ringDimension ciphertextModulus ring_par]. do 4 f_equal.
    apply list_total_ext; [by rewrite length_zeros, length_tab|]. intros j Hj. rewrite length_zeros in Hj.
    rewrite zeros_lookup, lookup_total_tab by done. unfold partial. by rewrite andb_false_r.
  - rewrite !lookup_ge_None_2; [done|rewrite length_tab; lia|rewrite length_replicate; lia].
Qed.

(** The decomposition of one element and of a pair. *)
Lemma SignedDigitDecompose_of digitsG t : wf_data (q := q) k t ->
  SignedDigitDecompose q B digitsG n (poly_of q psi k COEFFICIENT t)
    (replicate (digitsG - 1) (new_poly (ring_par q psi k) COEFFICIENT true)) =
  Ok (map (fun i => poly_of q psi k COEFFICIENT (gadget_digit q B k i t)) (seq 0 (digitsG - 1))).
Proof using All.
  intros Ht. set (D := fun i c => sd_digit B (S i) (lift q (t !!! c))). set (G := (digitsG - 1)%nat).
  rewrite (no_digits D). change (map _ (seq 0 G)) with (map (fun i => poly_of q psi k COEFFICIENT (map (fun c => D i c mod q) (seq 0 n))) (seq 0 G)).
  rewrite <- all_digits. unfold SignedDigitDecompose. fold G. cbv zeta. rewrite (ctz_pow g Hg : ctz B = g).
  apply (for_states _ n (fun c => elements_of q psi k G (partial D c 0))). intros c Hc.
  rewrite entry_of, bind_ok, (proj1 (lift_small t c 0 Ht)), first_digit, bind_ok by done.
  rewrite (for_states _ G (fun i => (sd_rest B (S i) (lift q (t !!! c)), elements_of q psi k G (partial D c i)))).
  - rewrite bind_ok. cbn [snd]. by rewrite next_row.
  - intros i Hi. cbn [fst snd]. rewrite put_step; [by rewrite <- sd_rest_S|done|done|apply (lift_small t c (S i) Ht)|done].
Qed.

Lemma SignedDigitDecompose2_of digitsG t0 t1 : wf_data (q := q) k t0 -> wf_data (q := q) k t1 ->
  SignedDigitDecompose2 q B digitsG n (poly_of q psi k COEFFICIENT t0) (poly_of q psi k COEFFICIENT t1)
    (replicate (2 * (digitsG - 1)) (new_poly (ring_par q psi k) COEFFICIENT true)) =
  Ok (map (fun i => poly_of q psi k COEFFICIENT (gadget_digit q B k (i / 2) (if Nat.even i then t0 else t1))) (seq 0 (2 * (digitsG - 1)))).
Proof using All.
  intros H0 H1. set (src := fun i => if Nat.even i then t0 else t1). set (D := fun i c => sd_digit B (S (i / 2)) (lift q (src i !!! c))).
  set (G := (digitsG - 1)%nat).
  rewrite (no_digits D). change (map _ (seq 0 (2 * G))) with (map (fun i => poly_of q psi k COEFFICIENT (map (fun c => D i c mod q) (seq 0 n))) (seq 0 (2 * G))).
  rewrite <- all_digits. unfold SignedDigitDecompose2. fold G. cbv zeta. rewrite (ctz_pow g Hg : ctz B = g).
  apply (for_states _ n (fun c => elements_of q psi k (2 * G) (partial D c 0))). intros c Hc.
  rewrite !entry_of, !bind_ok, (proj1 (lift_small t0 c 0 H0)), (proj1 (lift_small t1 c 0 H1)), !first_digit, !bind_ok by done.
  rewrite (for_states _ G (fun i => (sd_rest B (S i) (lift q (t0 !!! c)), sd_rest B (S i) (lift q (t1 !!! c)), elements_of q psi k (2 * G) (partial D c (2 * i))))).
  - rewrite bind_ok. cbn [snd]. by rewrite next_row.
  - intros i Hi. rewrite put_step; [|lia|done|apply (lift_small t0 c (S i) H0)|].
    + rewrite bind_ok. cbn [fst snd]. replace (2 * i + 1)%nat with (S (2 * i)) by lia.
      rewrite put_step; [|lia|done|apply (lift_small t1 c (S i) H1)|].
      * rewrite bind_ok. cbn [fst snd]. rewrite <- !sd_rest_S. replace (2 * S i)%nat with (S (S (2 * i))) by lia. done.
      * unfold D, src, sd_digit. replace (S (2 * i) / 2)%nat with i by (replace (S (2 * i)) with (1 + i * 2)%nat by lia; by rewrite Nat.div_add by lia).
        by rewrite Nat.even_succ, Nat.odd_mul.
    + unfold D, src, sd_digit. replace (2 * i / 2)%nat with i by (by rewrite Nat.mul_comm, Nat.div_mul by lia).
      by rewrite Nat.even_mul.
Qed.
End Decompose.
