(* ===== verification/PolyProps.v ===== *)
(** * Properties of the ring elements, the automorphisms and the gadget *)

From Stdlib Require Import ZArith Lia String.
From stdpp Require Import base tactics numbers list strings gmap.
From S2P Require Import Prelude Double NativeInt NativeIntFacts ModArith NativeVec SchemeCore Negacyclic BitReverse Ntt NttFacts NttSpec NttRing Poly PolyFacts Automorphism Gadget.

(** A concrete ring, with the tables that the transform leaves in the cache:
    the modulus 17, of which 2 is a primitive eighth root, and dimension 4. *)
Lemma ring17 : exists st, RingTransform st 17 2 2.
Proof.
  by apply ring_transform_check.
Qed.

Lemma wf17 l : length l = 4%nat -> bool_decide (Forall (reduced 17) l) = true -> wf_data (q := 17) 2 l.
Proof. intros H1 H2. split; [done|]. by apply bool_decide_eq_true in H2. Qed.

(** C20: the elements refine the ring [Z_q[x]/(x^n + 1)].  With a cache whose
    tables are ready, the sums, differences, products and multiples of elements
    that hold ring elements hold the sum, difference, product (negacyclic
    convolution) and multiple, in the same format; an assignment to an element
    that was only declared starts from zero; and changing the format keeps the
    ring element and the cache. *)
Theorem Poly_refines_ring (st : FTT) (q psi : Z) (k : nat) (arb : FTT -> NativePoly -> res (FTT * NativePoly)) (f : Format) (a b : list Z) (c : Z) :
  RingTransform st q psi k -> wf_data (q := q) k a -> wf_data (q := q) k b -> 0 <= c ->
  let p := poly_of q psi k in
  Plus (p f a) (p f b) = Ok (p f (radd q a b)) /\
  PlusEq (p f a) (p f b) = Ok (p f (radd q a b)) /\
  PlusEq (new_poly (ring_par q psi k) f false) (p f b) = Ok (p f b) /\
  Minus (p f a) (p f b) = Ok (p f (rsub q a b)) /\
  MinusEq (p f a) (p f b) = Ok (p f (rsub q a b)) /\
  Negate (p f b) = Ok (p f (rsub q (rzero (2 ^ k)) b)) /\
  Times (p EVALUATION a) (p EVALUATION b) = Ok (p EVALUATION (rmul q (2 ^ k) a b)) /\
  TimesEq (p EVALUATION a) (p EVALUATION b) = Ok (p EVALUATION (rmul q (2 ^ k) a b)) /\
  TimesInt (p f a) c = Ok (p f (rscale q c a)) /\
  (forall g, SetFormat arb st (p f a) g = Ok (st, p g a)).
Proof.
  intros HR Ha Hb Hc p. pose proof rt_modulus as Hq.
  split; [by apply Plus_of|]. split; [by apply PlusEq_of|]. split; [by apply PlusEq_empty|].
  split; [by apply Minus_of|]. split; [by apply MinusEq_of|].
  split; [unfold Negate; cbn [p poly_of p_params p_format]; rewrite (zero_of f); apply MinusEq_of; [apply rzero_wf|done]|].
  split; [by apply Times_of|]. split; [|split; [by apply TimesInt_of|intros g; by apply SetFormat_of]].
  pose proof (Times_of a b Ha Hb) as E. unfold Times in E. unfold TimesEq, both_evaluation, p in *. rewrite same_ring_of, bind_ok in *.
  rewrite !bool_decide_eq_true_2 in * by done. cbn [andb] in *. by rewrite bind_ok in *.
Qed.

Lemma Poly_refines_ring_witness : exists st, RingTransform st 17 2 2 /\
  Times (poly_of 17 2 2 EVALUATION [1; 2; 3; 4]) (poly_of 17 2 2 EVALUATION [0; 1; 0; 0]) = Ok (poly_of 17 2 2 EVALUATION [13; 1; 2; 3]).
Proof.
  destruct ring17 as [st HR]. exists st. split; [exact HR|].
  destruct (Poly_refines_ring st 17 2 2 (fun s p => Ok (s, p)) EVALUATION [1; 2; 3; 4] [0; 1; 0; 0] 0 HR) as (_ & _ & _ & _ & _ & _ & E & _);
    [by apply wf17|by apply wf17|lia|exact E].
Defined.

(** C21: automorphisms.  For an odd index, [AutomorphismTransform] in the
    evaluation format is the substitution [x -> x^K] of the ring; in the
    coefficient format every coefficient is congruent to the one of the
    substitution, and equal to it when no coefficient that changes its sign is
    zero; the substitution evaluates at the powers of the roots and respects
    sums and products; and [Transpose] is the substitution [x -> x^(2n-1)]. *)
Theorem Automorphism_correct (st : FTT) (q psi : Z) (k : nat) (K : Z) (a b : list Z) :
  RingTransform st q psi k -> Z.odd K = true -> 0 < K < 2 ^ 32 -> wf_data (q := q) k a -> wf_data (q := q) k b ->
  let n := (2 ^ k)%nat in
  let p := poly_of q psi k in
  AutomorphismTransform (p EVALUATION a) K = Ok (p EVALUATION (raut q n K a)) /\
  (exists r, AutomorphismTransform (p COEFFICIENT a) K = Ok (MkPoly COEFFICIENT (ring_par q psi k) (Some (NVec q r))) /\
     Forall2 (eqm q) r (raut q n K a) /\
     ((forall j, (j < n)%nat -> raut_flips n K j = true -> a !!! j <> 0) -> r = raut q n K a)) /\
  (forall x, slot q psi k x (raut q n K a) ≡[q] peval n (fun j => a !!! j) (point psi k x ^ K)) /\
  raut q n K (radd q a b) = radd q (raut q n K a) (raut q n K b) /\
  raut q n K (rmul q n a b) = rmul q n (raut q n K a) (raut q n K b) /\
  Transpose (p EVALUATION a) = Ok (p EVALUATION (raut q n (2 * Z.of_nat n - 1) a)).
Proof.
  intros HR HK HK32 Ha Hb n p. pose proof rt_modulus as Hq. pose proof (nm_bounds (w := W) (m := q)) as Hqb.
  split; [by apply Automorphism_evaluation|].
  split.
  { exists (raut_with (fun x => q - x) n K a). split; [by apply Automorphism_coefficient|]. unfold raut. split.
    - apply (raut_with_related K); [done|]. intros j _. destruct (raut_flips _ _ _); [|done]. rewrite eqm_mod. apply eqm_iff. exists 1. ring.
    - intros Hz. apply list_eq_Forall2. apply (raut_with_related K); [done|]. intros j Hj. specialize (Hz j Hj). fold n.
      destruct (raut_flips n K j); [|done]. pose proof (entry_reduced k a j Ha) as Hr. unfold reduced in Hr. specialize (Hz eq_refl).
      rewrite <- (Z.mod_add _ 1), Z.mod_small by lia. lia. }
  split; [intros x; by apply slot_raut; [|lia]|].
  split; [by apply raut_radd; [|lia|..]|]. split; [by apply (raut_rmul (HR := HR)); [|lia|..]|].
  by apply Transpose_of.
Qed.

Lemma Automorphism_correct_witness : exists st, RingTransform st 17 2 2 /\
  AutomorphismTransform (poly_of 17 2 2 EVALUATION [1; 2; 3; 4]) 3 = Ok (poly_of 17 2 2 EVALUATION [1; 4; 14; 2]).
Proof.
  destruct ring17 as [st HR]. exists st. split; [exact HR|].
  destruct (Automorphism_correct st 17 2 2 3 [1; 2; 3; 4] [0; 1; 0; 0] HR) as [E _]; [done|lia|by apply wf17|by apply wf17|exact E].
Defined.

(** C22: the gadget.  The decomposition returns [digitsG - 1] elements; with
    [t] the signed value of a coefficient, in the balanced interval of the
    modulus, their entries are residues of the digits [sd_digit B (i + 1) t],
    which lie in [[-B/2, B/2)], and [t] is the dropped digit, plus the digits
    times the powers of the base, plus a carry times the next power.  The
    carry is 0 or 1 when the power covers the modulus, and 0 exactly below the
    stated bound; and the decomposition of a pair interleaves the two. *)
Theorem SignedDigitDecompose_correct (st : FTT) (q psi : Z) (k : nat) (g : Z) (G : nat) (a b : list Z) :
  RingTransform st q psi k -> 1 <= g <= 31 -> 2 ^ g <= q -> q <= (2 ^ g) ^ Z.of_nat (S G) -> wf_data (q := q) k a -> wf_data (q := q) k b ->
  let B := 2 ^ g in
  let n := (2 ^ k)%nat in
  let blank := new_poly (ring_par q psi k) COEFFICIENT true in
  let p := poly_of q psi k COEFFICIENT in
  SignedDigitDecompose q B (S G) n (p a) (replicate G blank) = Ok (map (fun i => p (gadget_digit q B k i a)) (seq 0 G)) /\
  SignedDigitDecompose2 q B (S G) n (p a) (p b) (replicate (2 * G) blank) =
    Ok (map (fun i => p (gadget_digit q B k (i / 2) (if Nat.even i then a else b))) (seq 0 (2 * G))) /\
  (forall i, wf_data (q := q) k (gadget_digit q B k i a)) /\
  (forall c, (c < n)%nat -> let t := lift q (a !!! c) in
     t ≡[q] a !!! c /\ - q - 1 <= 2 * t < q /\
     (forall i, gadget_digit q B k i a !!! c = sd_digit B (S i) t mod q) /\
     (forall i, - (B / 2) <= sd_digit B i t < B / 2) /\
     t = sd_low B t + sumZ G (fun i => B ^ (Z.of_nat i + 1) * sd_digit B (S i) t) +
         B ^ Z.of_nat (S G) * (if 2 * (B - 1) * t <? (B - 2) * B ^ Z.of_nat (S G) + B then 0 else 1)).
Proof.
  intros HR Hg HgQ HGq Ha Hb B n blank p. pose proof rt_modulus as Hq. pose proof (nm_bounds (w := W) (m := q)) as Hqb.
  destruct (base_pos g ltac:(lia)) as (HB & Heven & _).
  split. { pose proof (SignedDigitDecompose_of g ltac:(lia) HgQ (S G) a Ha) as E. rewrite Nat.sub_succ, Nat.sub_0_r in E. exact E. }
  split. { pose proof (SignedDigitDecompose2_of g ltac:(lia) HgQ (S G) a b Ha Hb) as E. rewrite Nat.sub_succ, Nat.sub_0_r in E. exact E. }
  split; [intros i; apply gadget_digit_wf|]. intros c Hc t. pose proof (entry_reduced k a c Ha) as Hr. unfold reduced in Hr.
  pose proof (Z.div_mod q 2 ltac:(lia)). pose proof (Z.mod_pos_bound q 2 ltac:(lia)).
  split. { unfold t, lift. destruct (_ <? _); [done|]. apply eqm_iff. exists (-1). ring. }
  assert (- q - 1 <= 2 * t < q /\ - B ^ Z.of_nat (S G) <= 2 * t) as [Ht Hlow].
  { assert (exists e, B ^ Z.of_nat (S G) = 2 * e) as [e Ee].
    { exists (B / 2 * B ^ Z.of_nat G). rewrite Nat2Z.inj_succ, Z.pow_succ_r by lia. rewrite <- (half_B B HB Heven) at 1. ring. }
    unfold t, lift. fold B in HGq. destruct (Z.ltb_spec (a !!! c) (q / 2)); lia. }
  split; [lia|]. split; [intros i; unfold gadget_digit; by rewrite lookup_total_tab|].
  split; [intros i; by apply sd_low_range|].
  rewrite (sd_recompose B HB (S G) t) at 1. rewrite (sd_rest_carry B HB Heven (S G) t) by (unfold B in *; lia). f_equal.
  rewrite (sumZ_split 1 G). f_equal; [unfold sd_digit; cbn [sumZ sd_rest Z.of_nat]; lia|]. apply sumZ_ext. intros i _. f_equal. f_equal. lia.
Qed.

Lemma SignedDigitDecompose_correct_witness : exists st, RingTransform st 17 2 2 /\
  SignedDigitDecompose 17 4 3 4 (poly_of 17 2 2 COEFFICIENT [1; 7; 8; 16]) (replicate 2 (new_poly (ring_par 17 2 2) COEFFICIENT true)) =
  Ok [poly_of 17 2 2 COEFFICIENT [0; 15; 15; 0]; poly_of 17 2 2 COEFFICIENT [0; 1; 0; 0]].
Proof.
  destruct ring17 as [st HR]. exists st. split; [exact HR|].
  destruct (SignedDigitDecompose_correct st 17 2 2 2 2 [1; 7; 8; 16] [0; 0; 0; 0] HR) as [E _]; [lia|lia|lia|by apply wf17|by apply wf17|exact E].
Defined.
