(* ===== verification/Lwe.v ===== *)
(** * The LWE scheme: [LWEEncryptionScheme]

    Models [src/binfhe/lib/lwe-pke.cpp] with the ciphertext and the parameters
    of [lwe-ciphertext.h] and [lwe-cryptoparameters.h].  The values that the
    code draws from a random generator (masks, errors, ternary vectors) are
    arguments: an execution is a call with the values that were drawn. *)

From Stdlib Require Import ZArith Lia String.
From stdpp Require Import base tactics numbers list strings.
From S2P Require Import Prelude Double NativeInt NativeIntFacts ModArith NativeVec SchemeCore.

Record LWECryptoParams := LWEParams {
  m_n : nat; m_N : nat; m_q : Z; m_Q : Z; m_qKS : Z; m_baseKS : Z
}.

(** The constructor with its checks. *)
Definition new_LWECryptoParams (n N : nat) (q Q q_KS baseKS : Z) : res LWECryptoParams :=
  if (n =? 0)%nat then Throw (config_error "m_n (lattice parameter) can not be zero") else
  if (N =? 0)%nat then Throw (config_error "m_N (ring dimension) can not be zero") else
  if q =? 0 then Throw (config_error "m_q (modulus for additive LWE) can not be zero") else
  if Q =? 0 then Throw (config_error "m_Q (modulus for RingGSW/RLWE) can not be zero") else
  if q_KS =? 0 then Throw (config_error "q_KS (modulus for key switching) can not be zero") else
  if baseKS =? 0 then Throw (config_error "m_baseKS (the base used for key switching) can not be zero") else
  if MAX_MODULUS_SIZE W <? GetMSB W Q then Throw (config_error "Q.GetMSB() > MAX_MODULUS_SIZE") else
  Ok (LWEParams n N q Q q_KS baseKS).

Record LWECiphertext := LWECt { ct_a : NativeVector; ct_b : Z; ct_p : Z }.

(** The plaintext modulus of a new ciphertext is 4 until it is set. *)
Definition new_LWECiphertext (a : NativeVector) (b : Z) : LWECiphertext := LWECt a b 4.
Definition SetptModulus (ct : LWECiphertext) (p : Z) : LWECiphertext := LWECt (ct_a ct) (ct_b ct) p.

(** The copy constructor copies the mask and the body only: the plaintext
    modulus of a copy is that of a new ciphertext. *)
Definition copy_LWECiphertext (ct : LWECiphertext) : LWECiphertext := new_LWECiphertext (ct_a ct) (ct_b ct).
Definition GetModulus (ct : LWECiphertext) : Z := modulus (ct_a ct).
Definition GetLength (ct : LWECiphertext) : nat := length (data (ct_a ct)).
Definition SetModulus (ct : LWECiphertext) (mod_ : Z) : res LWECiphertext :=
  a ← ModEq W (ct_a ct) mod_;
  a ← NativeVec.SetModulus W a mod_;
  b ← NativeInt.ModEq (ct_b ct) mod_;
  Ok (LWECt a b (ct_p ct)).

Record LWEPublicKey := LWEPk { pk_A : list NativeVector; pk_v : NativeVector }.
Record LWESwitchingKey := LWESk {
  ks_A : list (list (list NativeVector)); ks_B : list (list (list Z))
}.

(** ** Public key: [v = A s + e] *)
Definition PubKeyGen (ps : LWECryptoParams) (skN : NativeVector) (A : list NativeVector) (e : NativeVector) :
    res LWEPublicKey :=
  let dim := m_N ps in
  let mod_ := m_Q ps in
  mu ← ComputeMu_ W mod_;
  v ← for_ dim (fun j v =>
        for_ dim (fun i v =>
          row ← vget A j;
          x ← vget (data row) i;
          si ← vget (data skN) i;
          t ← ModMulFast_mu_ W x si mod_ mu;
          vj ← vget v j;
          vset v j (ModAddFastEq W vj t mod_)) v) (data e);
  Ok (LWEPk A (with_data e v)).

(** ** Encryption and decryption *)
Definition Encrypt (sk : NativeVector) (m p mod_ : Z) (err : Z) (a : NativeVector) : res LWECiphertext :=
  _ ← divides_guard p mod_;
  let n := length (data sk) in
  s ← SwitchModulus W sk mod_;
  enc ← encode m p mod_;
  b ← Add W enc err;
  mu ← ComputeMu_ W mod_;
  b ← dot_loop mod_ mu a s n b;
  b ← NativeInt.Mod b mod_;
  Ok (SetptModulus (new_LWECiphertext a b) p).

Definition EncryptN (pk : LWEPublicKey) (m p mod_ : Z) (err : Z) (sp ep : NativeVector) : res LWECiphertext :=
  _ ← divides_guard p mod_;
  let N := length (data (pk_v pk)) in
  bp ← SwitchModulus W (pk_v pk) mod_;
  enc ← encode m p mod_;
  b ← Add W enc err;
  mu ← ComputeMu_ W mod_;
  a ← for_ N (fun j a =>
        row ← vget (pk_A pk) j;
        spj ← vget (data sp) j;
        t ← ModMul W row spj;
        ModAddEqV W a t) ep;
  b ← for_ N (fun i b =>
        x ← vget (data bp) i;
        y ← vget (data sp) i;
        t ← ModMulFast_mu_ W x y mod_ mu;
        NativeInt.ModAddEq W b t mod_) b;
  Ok (SetptModulus (new_LWECiphertext a b) p).

Definition Decrypt (sk : NativeVector) (ct : LWECiphertext) (p : Z) : res Z :=
  let mod_ := GetModulus ct in
  _ ← divides_guard (wrap W (p * 2)) mod_;
  let n := length (data sk) in
  mu ← ComputeMu_ W mod_;
  s ← SwitchModulus W sk mod_;
  inner ← dot_loop mod_ mu (ct_a ct) s n 0;
  inner ← NativeInt.ModEq inner mod_;
  let r := ModSubFastEq W (ct_b ct) inner mod_ in
  decode p (wrap W (p * 2)) mod_ r.

(** ** Homomorphic operations *)
Definition EvalAddEq (ct1 ct2 : LWECiphertext) : res LWECiphertext :=
  a ← ModAddEqV W (ct_a ct1) (ct_a ct2);
  Ok (LWECt a (ModAddFastEq W (ct_b ct1) (ct_b ct2) (GetModulus ct1)) (ct_p ct1)).
Definition EvalAddConstEq (ct : LWECiphertext) (cnst : Z) : LWECiphertext :=
  LWECt (ct_a ct) (ModAddFastEq W (ct_b ct) cnst (GetModulus ct)) (ct_p ct).
Definition EvalSubEq (ct1 ct2 : LWECiphertext) : res LWECiphertext :=
  a ← ModSubEqV W (ct_a ct1) (ct_a ct2);
  Ok (LWECt a (ModSubFastEq W (ct_b ct1) (ct_b ct2) (GetModulus ct1)) (ct_p ct1)).
(** The result replaces the second ciphertext. *)
Definition EvalSubEq2 (ct1 ct2 : LWECiphertext) : res LWECiphertext :=
  a ← ModSubV W (ct_a ct1) (ct_a ct2);
  Ok (LWECt a (ModSubFast W (ct_b ct1) (ct_b ct2) (GetModulus ct1)) (ct_p ct2)).
Definition EvalSubConstEq (ct : LWECiphertext) (cnst : Z) : LWECiphertext :=
  LWECt (ct_a ct) (ModSubFastEq W (ct_b ct) cnst (GetModulus ct)) (ct_p ct).
Definition EvalMultConstEq (ct : LWECiphertext) (cnst : Z) : res LWECiphertext :=
  a ← ModMulEq W (ct_a ct) cnst;
  b ← ModMulFast_ W (ct_b ct) cnst (GetModulus ct);
  Ok (LWECt a b (ct_p ct)).

(** ** Modulus switching *)
Definition ModSwitch (q : Z) (ctQ : LWECiphertext) : res LWECiphertext :=
  let n := GetLength ctQ in
  let Q := GetModulus ctQ in
  a ← tabulateM n (fun i => v ← vget (data (ct_a ctQ)) i; RoundqQ v q Q);
  b ← RoundqQ (ct_b ctQ) q Q;
  Ok (new_LWECiphertext (NVec q a) b).

(** ** Key switching

    [gaussA i j k] and [err i j k] are the vectors and the errors drawn in the
    iteration [(i, j, k)] of the generation. *)
Definition ksg_bodies (n N : nat) (qKS baseKS mu : Z) (digitCount : nat) (digitsKS : list Z) (sv svN : NativeVector)
    (gaussA : nat -> nat -> nat -> NativeVector) (err : nat -> nat -> nat -> Z) : res (list (list (list Z))) :=
  tabulateM N (fun i =>
    tabulateM (Z.to_nat baseKS) (fun j =>
      tabulateM digitCount (fun k =>
        dk ← vget digitsKS k;
        t ← Mul W (Z.of_nat j) dk;
        x ← vget (data svN) i;
        t ← ModMul_ W x t qKS;
        b ← NativeInt.ModAdd W (err i j k) t qKS;
        b ← dot_loop qKS mu (gaussA i j k) sv n b;
        NativeInt.ModEq b qKS))).
Definition ksg_masks (N : nat) (baseKS : Z) (digitCount : nat) (gaussA : nat -> nat -> nat -> NativeVector) :
    list (list (list NativeVector)) :=
  map (fun i => map (fun j => map (fun k => gaussA i j k) (seq 0 digitCount)) (seq 0 (Z.to_nat baseKS))) (seq 0 N).

Definition KeySwitchGen (ps : LWECryptoParams) (sk skN : NativeVector)
    (gaussA : nat -> nat -> nat -> NativeVector) (err : nat -> nat -> nat -> Z) : res LWESwitchingKey :=
  let n := m_n ps in
  let N := m_N ps in
  let qKS := m_qKS ps in
  let baseKS := m_baseKS ps in
  let digitCount := digit_count baseKS qKS in
  let digitsKS := powers_loop baseKS digitCount 1 in
  sv ← SwitchModulus W sk qKS;
  svN ← SwitchModulus W skN qKS;
  mu ← ComputeMu_ W qKS;
  B ← ksg_bodies n N qKS baseKS mu digitCount digitsKS sv svN gaussA err;
  Ok (LWESk (ksg_masks N baseKS digitCount gaussA) B).

(** The loop over the coefficients [atmp] of a mask and their digits, which
    subtracts the chosen entries of the key from [(a, b)]. *)
Definition ks_loop (n N : nat) (Q baseKS : Z) (digitCount : nat) (K : LWESwitchingKey) (mask : NativeVector) (b : Z) :
    res (list Z * Z) :=
  for_ N (fun i ab =>
    refA ← vget (ks_A K) i;
    refB ← vget (ks_B K) i;
    atmp ← vget (data mask) i;
    abt ← for_ digitCount (fun j abt =>
      let '(a, b, atmp) := abt in
      a0 ← umod atmp baseKS;
      atmp ← udiv atmp baseKS;
      rowB ← vget refB (Z.to_nat a0);
      refBj ← vget rowB j;
      let b := ModSubFastEq W b refBj Q in
      rowA ← vget refA (Z.to_nat a0);
      refAj ← vget rowA j;
      a ← update_loop (fun x y => ModSubFastEq W x y Q) n a (data refAj);
      Ok (a, b, atmp)) (ab.1, ab.2, atmp);
    Ok (abt.1.1, abt.1.2)) (repeat 0 n, b).

Definition KeySwitch (ps : LWECryptoParams) (K : LWESwitchingKey) (ctQN : LWECiphertext) : res LWECiphertext :=
  let n := m_n ps in
  let N := m_N ps in
  let Q := m_qKS ps in
  let baseKS := m_baseKS ps in
  let digitCount := digit_count baseKS Q in
  ab ← ks_loop n N Q baseKS digitCount K (ct_a ctQN) (ct_b ctQN);
  Ok (new_LWECiphertext (NVec Q ab.1) ab.2).

Definition SwitchCTtoqn (ps : LWECryptoParams) (ksk : LWESwitchingKey) (ct : LWECiphertext) : res LWECiphertext :=
  ctMS ← ModSwitch (m_qKS ps) ct;
  ctKS ← KeySwitch ps ksk ctMS;
  ModSwitch (m_q ps) ctKS.

(** [m * (q >> 2)] with a zero mask. *)
Definition NoiselessEmbedding (ps : LWECryptoParams) (m : Z) : res LWECiphertext :=
  s ← RShift W (m_q ps) 2;
  b ← Mul W (wrap W m) s;
  Ok (new_LWECiphertext (NVec (m_q ps) (repeat 0 (m_n ps))) b).

(** A small execution: encryption of 3 with noise 5, and decryption. *)
Example Encrypt_Decrypt_3 :
  (ct ← Encrypt (NVec 512 [1; 511; 0]) 3 4 512 5 (NVec 512 [100; 200; 300]);
   Decrypt (NVec 512 [1; 511; 0]) ct 4) = Ok 3.
Proof. vm_compute. reflexivity. Qed.

(** ** Specifications *)

(** The integers a key stands for, whatever the modulus it is kept with. *)
Definition key_ints (sk : NativeVector) : list Z := map (centred (modulus sk)) (data sk).

(** The phase of a ciphertext under a key of integers: [b - <a, s>]. *)
Definition phase (s : list Z) (ct : LWECiphertext) : Z :=
  ct_b ct - sumZ (length s) (fun i => (ct_a ct).[i] * s !!! i).

Definition wf_mask (q : Z) (n : nat) (a : NativeVector) : Prop :=
  modulus a = q /\ length (data a) = n /\ Forall (reduced q) (data a).
Definition wf_ct (q : Z) (n : nat) (ct : LWECiphertext) : Prop := wf_mask q n (ct_a ct) /\ reduced q (ct_b ct).

(** The plaintext the code encodes: the [int64_t] converted to [uint64_t],
    modulo [p]. *)
Definition plaintext (m p : Z) : Z := m mod 2 ^ 64 mod p.

Section Scheme.
Context {q : Z} {Hq : NativeModulus W q}.
Implicit Types (a s : NativeVector) (ct : LWECiphertext).

Lemma Q64 : 2 ^ W = 2 ^ 64.
Proof using Type. done. Qed.

Lemma two_q : 4 <= q /\ 2 * q <= 2 ^ 64.
Proof using Hq. pose proof (nm_bounds (w := W) (m := q)). pose proof (nm_double (w := W) (m := q)). rewrite Q64 in *. lia. Qed.

Lemma Switch_sk sk : wf_vec W sk -> SwitchModulus W sk q = Ok (key_mod q sk).
Proof using Hq. apply SwitchModulus_key. by left. Qed.

Lemma length_key_ints sk : length (key_ints sk) = length (data sk).
Proof using Type. apply length_map. Qed.

(** The inner product with the key reduced modulo [q]. *)
Lemma dot_key sk a : dot (length (data sk)) a (key_mod q sk) ≡[q] sumZ (length (key_ints sk)) (fun i => a.[i] * key_ints sk !!! i).
Proof using Type.
  rewrite length_key_ints. apply sumZ_eqm. intros i Hi. apply eqm_mul; [done|].
  unfold key_mod, key_ints; cbn [data].
  rewrite !lookup_total_map by done. apply eqm_mod.
Qed.

(** Encryption: the phase is the encoded plaintext and the drawn error. *)
Lemma Encrypt_spec sk m p err a :
  wf_vec W sk -> wf_mask q (length (data sk)) a -> reduced q err -> 0 < p <= q ->
  (Z.of_nat (length (data sk)) + 2) * q < 2 ^ 64 ->
  returns (Encrypt sk m p q err a)
    (fun ct => wf_ct q (length (data sk)) ct /\ ct_a ct = a /\ ct_p ct = p /\
       phase (key_ints sk) ct ≡[q] plaintext m p * (q / p) + err).
Proof using Hq.
  intros Hsk Ha Herr Hp Hfit. destruct Ha as (Ea & La & Fa). pose proof two_q.
  unfold Encrypt. rewrite divides_guard_dead, bind_ok, Switch_sk, bind_ok by (done || lia).
  destruct (encode_spec (q := q) m p Hp) as [-> Henc]. fold (plaintext m p) in *. rewrite bind_ok.
  unfold Add, AddFast; cbn [NATIVEINT_DO_CHECKS]. unfold reduced in Herr.
  rewrite mod_W_small, bind_ok by lia. rewrite nm_mu, bind_ok.
  eapply returns_bind.
  { apply (dot_loop_spec a (key_mod q sk)); [done|apply (key_mod_wf (w := W))|lia|rewrite length_key_mod; lia|lia|lia]. }
  intros b [Hb Eb]. unfold NativeInt.Mod. rewrite nm_umod, bind_ok. apply returns_ok.
  split; [split; [done|apply (nm_mod (w := W))]|]. split; [done|]. split; [done|].
  unfold phase; cbn [ct_a ct_b new_LWECiphertext SetptModulus].
  rewrite eqm_mod, Eb, dot_key. apply eqm_refl. ring.
Qed.

(** Decryption refines the rounding of the phase. *)
Lemma Decrypt_spec sk ct p :
  wf_vec W sk -> wf_ct q (length (data sk)) ct -> 0 < p -> p * q <= 2 ^ 64 ->
  Z.of_nat (length (data sk)) * q < 2 ^ 64 ->
  Decrypt sk ct p = Ok (round_phase p (q / (p * 2)) q (phase (key_ints sk) ct)).
Proof using Hq.
  intros Hsk [(Em & La & Fa) Hb] Hp Hpq Hfit. pose proof two_q.
  unfold Decrypt, GetModulus. rewrite Em. rewrite (mod_W_small (p * 2)) by nia.
  rewrite divides_guard_dead, bind_ok, nm_mu, bind_ok, Switch_sk, bind_ok by (done || lia).
  destruct (dot_loop_spec (ct_a ct) (key_mod q sk) (length (data sk)) 0) as (r & -> & Hr & Er);
    [done|apply (key_mod_wf (w := W))|lia|rewrite length_key_mod; lia|lia|lia|].
  rewrite bind_ok. unfold NativeInt.ModEq. rewrite nm_umod, bind_ok.
  assert (ModSubFastEq W (ct_b ct) (r mod q) q = (ct_b ct - r mod q) mod q) as ->.
  { apply nm_sub; [done|apply (nm_mod (w := W))]. }
  rewrite decode_spec by (done || lia || apply (nm_mod (w := W))).
  f_equal. unfold round_phase. do 2 f_equal.
  change ((ct_b ct - r mod q) mod q + q / (p * 2) ≡[q] phase (key_ints sk) ct + q / (p * 2)).
  rewrite !eqm_mod, Er. unfold phase. rewrite dot_key. apply eqm_refl. ring.
Qed.
End Scheme.

#[export] Instance NativeVector_inhabited : Inhabited NativeVector := populate (NVec 0 []).

Section Operations.
Context {q : Z} {Hq : NativeModulus W q}.
Implicit Types (a : NativeVector) (s : list Z) (ct : LWECiphertext).

(** The phase of an entrywise combination. *)
Lemma phase_combine (f : Z -> Z -> Z) s x y b p n :
  length s = n -> length (data x) = n -> length (data y) = n ->
  phase s (LWECt (NVec q (zip_with (fun u v => f u v mod q) (data x) (data y))) b p) ≡[q]
    b - sumZ n (fun i => f x.[i] y.[i] * s !!! i).
Proof using Type.
  intros Hs Hx Hy. unfold phase; cbn [ct_a ct_b data]. rewrite Hs. apply eqm_sub; [done|].
  apply sumZ_eqm. intros i Hi. rewrite vec_op_lookup by lia. by rewrite eqm_mod.
Qed.

Lemma EvalAddEq_spec n s ct1 ct2 :
  length s = n -> wf_ct q n ct1 -> wf_ct q n ct2 ->
  returns (EvalAddEq ct1 ct2) (fun ct => wf_ct q n ct /\ phase s ct ≡[q] phase s ct1 + phase s ct2).
Proof using Hq.
  intros Hs [(E1 & L1 & F1) B1] [(E2 & L2 & F2) B2]. unfold EvalAddEq, GetModulus. rewrite E1.
  rewrite ModAddEqV_ok, bind_ok by (done || lia). apply returns_ok.
  assert (ModAddFastEq W (ct_b ct1) (ct_b ct2) q = (ct_b ct1 + ct_b ct2) mod q) as -> by (by apply nm_add).
  split; [split; [split; [done|split]|apply (nm_mod (w := W))]|].
  - cbn [data ct_a]. rewrite length_zip_with. lia.
  - apply zip_with_reduced. intros. apply (nm_mod (w := W)).
  - rewrite (phase_combine Z.add s _ _ _ _ n) by done.
    rewrite eqm_mod. unfold phase. rewrite Hs. apply eqm_refl.
    rewrite (sumZ_ext n _ (fun i => (ct_a ct1).[i] * s !!! i + (ct_a ct2).[i] * s !!! i)) by (intros; ring).
    rewrite sumZ_add. ring.
Qed.

Lemma EvalSubEq_spec n s ct1 ct2 :
  length s = n -> wf_ct q n ct1 -> wf_ct q n ct2 ->
  returns (EvalSubEq ct1 ct2) (fun ct => wf_ct q n ct /\ phase s ct ≡[q] phase s ct1 - phase s ct2) /\
  returns (EvalSubEq2 ct1 ct2) (fun ct => wf_ct q n ct /\ phase s ct ≡[q] phase s ct1 - phase s ct2).
Proof using Hq.
  intros Hs [(E1 & L1 & F1) B1] [(E2 & L2 & F2) B2].
  pose proof (ModSubEqV_ok (w := W) _ _ E1 E2 F1 F2 ltac:(lia)) as Ev.
  assert (ModSubV W (ct_a ct1) (ct_a ct2) = ModSubEqV W (ct_a ct1) (ct_a ct2)) as Ev'.
  { unfold ModSubV, ModSubEqV. by rewrite different_false by lia. }
  unfold EvalSubEq, EvalSubEq2, GetModulus. rewrite E1, Ev', Ev, !bind_ok.
  assert (ModSubFast W (ct_b ct1) (ct_b ct2) q = (ct_b ct1 - ct_b ct2) mod q) as Eb by (by apply nm_sub).
  assert (forall p, let ct := LWECt (NVec q (zip_with (fun u v : Z => (u - v) mod q) (data (ct_a ct1)) (data (ct_a ct2))))
               ((ct_b ct1 - ct_b ct2) mod q) p in
     wf_ct q n ct /\ phase s ct ≡[q] phase s ct1 - phase s ct2) as H.
  { intros p. split; [split; [split; [done|split]|apply (nm_mod (w := W))]|].
    - cbn [data ct_a]. rewrite length_zip_with. lia.
    - apply zip_with_reduced. intros. apply (nm_mod (w := W)).
    - rewrite (phase_combine Z.sub s _ _ _ _ n) by done.
      rewrite eqm_mod. unfold phase. rewrite Hs. apply eqm_refl.
      rewrite (sumZ_ext n _ (fun i => (ct_a ct1).[i] * s !!! i - (ct_a ct2).[i] * s !!! i)) by (intros; ring).
      rewrite sumZ_sub. ring. }
  split; apply returns_ok; unfold ModSubFastEq; fold (ModSubFast W (ct_b ct1) (ct_b ct2) q); rewrite Eb; apply H.
Qed.

Lemma EvalMultConstEq_spec n s ct c :
  length s = n -> wf_ct q n ct -> reduced q c ->
  returns (EvalMultConstEq ct c) (fun ct' => wf_ct q n ct' /\ phase s ct' ≡[q] c * phase s ct).
Proof using Hq.
  intros Hs [(E & L & F) B] Hc. unfold EvalMultConstEq, GetModulus. rewrite E.
  assert (ModMulEq W (ct_a ct) c = Ok (NVec q (map (fun v => (v * c) mod q) (data (ct_a ct))))) as ->.
  { apply (ModMul_ok (w := W)); [done|done|apply Hc]. }
  rewrite bind_ok, nm_mul_fast, bind_ok by done. apply returns_ok.
  split; [split; [split; [done|split]|apply (nm_mod (w := W))]|].
  - cbn [data ct_a]. by rewrite length_map.
  - apply map_reduced. intros. apply (nm_mod (w := W)).
  - unfold phase; cbn [ct_a ct_b data]. rewrite Hs, eqm_mod.
    transitivity (ct_b ct * c - sumZ n (fun i => c * ((ct_a ct).[i] * s !!! i))).
    + apply eqm_sub; [done|]. apply sumZ_eqm. intros i Hi. rewrite lookup_total_map by lia.
      rewrite eqm_mod. apply eqm_refl. ring.
    + rewrite sumZ_scale. apply eqm_refl. ring.
Qed.

Lemma EvalConst_spec s ct c :
  reduced q (ct_b ct) -> modulus (ct_a ct) = q -> reduced q c ->
  phase s (EvalAddConstEq ct c) ≡[q] phase s ct + c /\ phase s (EvalSubConstEq ct c) ≡[q] phase s ct - c.
Proof using Hq.
  intros B E Hc. unfold EvalAddConstEq, EvalSubConstEq, GetModulus. rewrite E.
  assert (ModAddFastEq W (ct_b ct) c q = (ct_b ct + c) mod q) as -> by (by apply nm_add).
  assert (ModSubFastEq W (ct_b ct) c q = (ct_b ct - c) mod q) as -> by (by apply nm_sub).
  unfold phase; cbn [ct_a ct_b]. rewrite !eqm_mod. split; apply eqm_refl; ring.
Qed.
End Operations.

(** ** Modulus switching

    The phase is scaled by [q / Q]; the error is at most half a unit per
    coefficient of the key and half a unit for [b]. *)
Definition norm1 (s : list Z) : Z := sumZ (length s) (fun i => Z.abs (s !!! i)).

Lemma sumZ_abs_le n f g : (forall i, (i < n)%nat -> Z.abs (f i) <= g i) -> Z.abs (sumZ n f) <= sumZ n g.
Proof.
  induction n as [|n IH]; intros H; cbn [sumZ]; [done|].
  pose proof (H n ltac:(lia)). assert (Z.abs (sumZ n f) <= sumZ n g) by (apply IH; intros; apply H; lia). lia.
Qed.

(** Rounding one mask: the error of its inner product with the key. *)
Lemma round_mask_spec q Q n s (v : NativeVector) :
  0 < q -> 0 < Q -> 6 * Q * q + 3 * Q + q < 2 ^ 53 -> length s = n -> wf_mask Q n v ->
  returns (tabulateM n (fun i => x ← vget (data v) i; RoundqQ x q Q)) (fun a => wf_mask q n (NVec q a) /\
    exists k, 2 * Z.abs (Q * (sumZ n (fun i => a !!! i * s !!! i) + k * q) - q * sumZ n (fun i => v.[i] * s !!! i)) <= Q * norm1 s).
Proof.
  intros Hq HQ Hfit Hs (E & L & F).
  set (P := fun v r => reduced q r /\ exists k, Z.abs (2 * (Q * (r + k * q) - v * q)) <= Q).
  eapply returns_mono.
  { apply (tabulateM_returns n _ (fun i r => P v.[i] r)). intros i Hi.
    rewrite (vget_at v), bind_ok by lia. pose proof (reduced_at Q v i F ltac:(lia)) as Hr.
    destruct (RoundqQ_error v.[i] q Q Hr Hq) as (r & k & Er & Hr1 & Hr2); [unfold reduced in Hr; nia|].
    exists r. split; [done|]. split; [done|by exists k]. }
  intros a [La Ha]. cbn beta in *. split.
  { split; [done|]. split; [done|]. apply Forall_reduced_total. intros i Hi. cbn [data] in *. apply Ha. lia. }
  assert (exists kf : nat -> Z, forall i, (i < n)%nat -> Z.abs (2 * (Q * (a !!! i + kf i * q) - v.[i] * q)) <= Q) as [kf Hkf].
  { clear - Ha. induction n as [|n IH]; [exists (fun _ => 0); intros; lia|].
    destruct IH as [kf Hkf]; [intros; apply Ha; lia|]. destruct (Ha n ltac:(lia)) as [_ [k Hk]].
    exists (fun i => if decide (i = n) then k else kf i). intros i Hi. destruct (decide (i = n)) as [->|]; [done|].
    apply Hkf. lia. }
  exists (sumZ n (fun i => kf i * s !!! i)). unfold norm1. rewrite Hs.
  set (A := fun i => 2 * (Q * (a !!! i + kf i * q) - v.[i] * q)).
  replace (2 * Z.abs _) with (Z.abs (sumZ n (fun i => A i * s !!! i))).
  - assert (Z.abs (sumZ n (fun i => A i * s !!! i)) <= sumZ n (fun i => Q * Z.abs (s !!! i))) as Hsum.
    { apply sumZ_abs_le. intros i Hi. rewrite Z.abs_mul. specialize (Hkf i Hi). fold (A i) in Hkf. nia. }
    rewrite sumZ_scale in Hsum. lia.
  - rewrite <- (Z.abs_eq 2) at 1 by lia. rewrite <- Z.abs_mul. f_equal.
    rewrite (sumZ_ext n (fun i => A i * s !!! i) (fun i => 2 * Q * (a !!! i * s !!! i) + (2 * Q * q * (kf i * s !!! i) - 2 * q * (v.[i] * s !!! i))))
      by (intros; unfold A; ring).
    rewrite sumZ_add, sumZ_sub, !sumZ_scale. ring.
Qed.

Lemma ModSwitch_spec q Q n s ct :
  0 < q -> 0 < Q -> 6 * Q * q + 3 * Q + q < 2 ^ 53 -> length s = n -> wf_ct Q n ct ->
  returns (ModSwitch q ct) (fun ct' => wf_ct q n ct' /\
    exists k, 2 * Z.abs (Q * (phase s ct' + k * q) - q * phase s ct) <= Q * (1 + norm1 s)).
Proof.
  intros Hq HQ Hfit Hs [Hm B]. unfold ModSwitch, GetLength, GetModulus.
  rewrite (proj1 Hm), (proj1 (proj2 Hm)).
  eapply returns_bind; [by apply (round_mask_spec q Q n s (ct_a ct))|].
  intros a (Ha & ka & Hka).
  destruct (RoundqQ_error _ q Q B Hq) as (b & kb & -> & Hb1 & Hb2); [unfold reduced in B; nia|].
  rewrite bind_ok. apply returns_ok. split; [done|]. exists (kb - ka).
  unfold phase; cbn [ct_a ct_b new_LWECiphertext data]. rewrite Hs.
  set (x := sumZ n (fun i => a !!! i * s !!! i)) in *. set (y := sumZ n (fun i => (ct_a ct).[i] * s !!! i)) in *.
  replace (Q * (b - x + (kb - ka) * q) - q * (ct_b ct - y))
    with ((Q * (b + kb * q) - ct_b ct * q) - (Q * (x + ka * q) - q * y)) by ring.
  lia.
Qed.

(** ** Public keys *)
(** A public key for the key [s]: [v_j = <A_j, s> + e_j]. *)
Definition pk_valid (q : Z) (N : nat) (s : NativeVector) (pk : LWEPublicKey) (e : nat -> Z) : Prop :=
  length (pk_A pk) = N /\ (forall j, (j < N)%nat -> wf_mask q N (pk_A pk !!! j)) /\ wf_mask q N (pk_v pk) /\
  forall j, (j < N)%nat -> (pk_v pk).[j] ≡[q] dot N (pk_A pk !!! j) s + e j.

Section PublicKey.
Context {q : Z} {Hq : NativeModulus W q}.
Implicit Types (a s sk e : NativeVector).

(** One row of the product [A s], added to an entry of the vector. *)
Lemma PubKeyGen_row row sk j v :
  wf_mask q (length v) row -> wf_mask q (length v) sk -> Forall (reduced q) v -> (j < length v)%nat ->
  returns (for_ (length v) (fun i v' =>
      x ← vget (data row) i;
      si ← vget (data sk) i;
      t ← ModMulFast_mu_ W x si q (mu_of W q);
      vj ← vget v' j;
      vset v' j (ModAddFastEq W vj t q)) v)
    (fun v' => length v' = length v /\ Forall (reduced q) v' /\
       v' !!! j ≡[q] v !!! j + dot (length v) row sk /\ (forall r, r <> j -> v' !!! r = v !!! r)).
Proof using Hq.
  intros (Er & Lr & Fr) (Es & Ls & Fs) Fv Hj.
  apply (returns_for (fun i v' => length v' = length v /\ Forall (reduced q) v' /\
       v' !!! j ≡[q] v !!! j + dot i row sk /\ (forall r, r <> j -> v' !!! r = v !!! r))).
  - split; [done|]. split; [done|]. split; [|done]. apply eqm_refl. unfold dot; cbn [sumZ]. lia.
  - intros i v' Hi (Lv & F' & H1 & H2).
    rewrite (vget_at row), bind_ok, (vget_at sk), bind_ok by lia.
    rewrite nm_mul_mu, bind_ok by (apply reduced_at; (done || lia)).
    rewrite (vget_total v'), bind_ok, vset_lt by lia. apply returns_ok. rewrite length_insert.
    assert (ModAddFastEq W (v' !!! j) ((row.[i] * sk.[i]) mod q) q = (v' !!! j + (row.[i] * sk.[i]) mod q) mod q) as ->.
    { apply nm_add; [|apply (nm_mod (w := W))]. by apply Forall_reduced_total; [|lia]. }
    split; [done|]. split; [by apply Forall_insert; [|apply (nm_mod (w := W))]|]. split.
    + rewrite list_lookup_total_insert_eq by lia. rewrite !eqm_mod, H1. apply eqm_refl. unfold dot; cbn [sumZ]. lia.
    + intros r Hr. rewrite list_lookup_total_insert_ne by done. by apply H2.
Qed.

Lemma PubKeyGen_spec ps sk A e :
  m_Q ps = q -> wf_mask q (m_N ps) sk -> wf_mask q (m_N ps) e ->
  length A = m_N ps -> (forall j, (j < m_N ps)%nat -> wf_mask q (m_N ps) (A !!! j)) ->
  returns (PubKeyGen ps sk A e) (fun pk => pk_A pk = A /\ pk_valid q (m_N ps) sk pk (fun j => e.[j])).
Proof using Hq.
  intros EQ Hsk (Ee & Le & Fe) LA HA. unfold PubKeyGen. rewrite EQ, nm_mu, bind_ok. set (N := m_N ps) in *.
  eapply returns_bind.
  { apply (returns_for (fun j v => length v = N /\ Forall (reduced q) v /\
      forall r, (r < N)%nat -> v !!! r ≡[q] (if decide (r < j)%nat then dot N (A !!! r) sk else 0) + e.[r])).
    - split; [done|]. split; [done|]. intros r Hr. rewrite decide_False by lia. apply eqm_refl. lia.
    - intros j v Hj (Lv & Fv & Hv).
      assert (forall f g : nat -> list Z -> res (list Z), (forall i v', f i v' = g i v') -> for_ N f v = for_ N g v) as Hext.
      { intros f g Hfg. induction N as [|N' IH] in |- *; cbn [for_]; [done|]. rewrite IH.
        destruct (for_ N' g v); [apply Hfg|done]. }
      erewrite Hext; [|intros i v'; rewrite (vget_total A) by lia; rewrite bind_ok; reflexivity].
      pose proof (HA j Hj) as Hrow. rewrite <- Lv in Hrow, Hsk. rewrite <- Lv at 1.
      eapply returns_mono; [apply PubKeyGen_row; [done|done|done|lia]|].
      intros v' (Lv' & Fv' & H1 & H2). rewrite Lv in *. split; [lia|]. split; [done|]. intros r Hr.
      destruct (decide (r = j)) as [->|].
      + rewrite decide_True by lia. rewrite H1, (Hv j) by done. rewrite decide_False by lia. apply eqm_refl. lia.
      + rewrite H2 by done. rewrite (Hv r) by done.
        destruct (decide (r < j)%nat), (decide (r < S j)%nat); (lia || done). }
  intros v (Lv & Fv & Hv). apply returns_ok. cbn [pk_A]. split; [done|]. split; [done|]. split; [done|].
  split; [by split; [|split]|]. intros j Hj. cbn [pk_v pk_A with_data data]. rewrite (Hv j Hj).
  by rewrite decide_True by done.
Qed.

(** The mask of a public-key encryption: [A sp + ep]. *)
Lemma EncryptN_mask A sp ep N :
  length A = N -> (forall j, (j < N)%nat -> wf_mask q N (A !!! j)) -> wf_mask q N sp -> wf_mask q N ep ->
  returns (for_ N (fun j a =>
      row ← vget A j;
      spj ← vget (data sp) j;
      t ← ModMul W row spj;
      ModAddEqV W a t) ep)
    (fun a => wf_mask q N a /\
       forall i, (i < N)%nat -> a.[i] ≡[q] ep.[i] + sumZ N (fun j => (A !!! j).[i] * sp.[j])).
Proof using Hq.
  intros LA HA (Es & Ls & Fs) Hep.
  apply (returns_for (fun j a => wf_mask q N a /\
       forall i, (i < N)%nat -> a.[i] ≡[q] ep.[i] + sumZ j (fun j => (A !!! j).[i] * sp.[j]))).
  - split; [done|]. intros i Hi. apply eqm_refl. cbn [sumZ]. lia.
  - intros j a Hj [(Ea & La & Fa) Ha]. destruct (HA j Hj) as (Er & Lr & Fr).
    rewrite (vget_total A), bind_ok, (vget_at sp), bind_ok by lia.
    assert (reduced q sp.[j]) as Hspj by (apply reduced_at; [done|lia]).
    rewrite (ModMul_ok (w := W) _ _ Er Fr), bind_ok by apply Hspj.
    rewrite (ModAddEqV_ok (w := W)); [|done|done|done|..].
    + apply returns_ok. split; [split; [done|split]|].
      * cbn [data]. rewrite length_zip_with, length_map. lia.
      * apply zip_with_reduced. intros. apply (nm_mod (w := W)).
      * intros i Hi. cbn [data]. rewrite vec_op_lookup by (rewrite ?length_map; lia).
        rewrite lookup_total_map by lia. rewrite !eqm_mod, (Ha i Hi). cbn [sumZ]. apply eqm_refl. ring.
    + apply map_reduced. intros. apply (nm_mod (w := W)).
    + cbn [data]. rewrite length_map. lia.
Qed.

(** Public-key encryption: the phase under the key of the public key is the
    encoded plaintext plus [err + <e, sp> - <ep, s>]. *)
Lemma EncryptN_spec pk s noise m p err sp ep N :
  (0 < N)%nat -> pk_valid q N s pk noise -> wf_mask q N s -> wf_mask q N sp -> wf_mask q N ep ->
  0 <= err < q -> 0 < p <= q ->
  returns (EncryptN pk m p q err sp ep) (fun ct => wf_ct q N ct /\ ct_p ct = p /\
    ct_b ct - dot N (ct_a ct) s ≡[q]
      plaintext m p * (q / p) + (err + sumZ N (fun j => noise j * sp.[j]) - dot N ep s)).
Proof using Hq.
  intros HN (LA & HA & (Ev & Lv & Fv) & Hpk) Hs Hsp Hep Herr Hp. pose proof two_q as H2.
  unfold EncryptN. rewrite divides_guard_dead, bind_ok by lia.
  assert (SwitchModulus W (pk_v pk) q = Ok (pk_v pk)) as ->.
  { rewrite Switch_sk by (split; rewrite ?Ev; done). f_equal. by apply key_mod_id. }
  rewrite bind_ok. destruct (encode_spec (q := q) m p Hp) as [-> Henc]. fold (plaintext m p) in *. rewrite bind_ok.
  unfold Add, AddFast; cbn [NATIVEINT_DO_CHECKS]. rewrite mod_W_small, bind_ok by lia. rewrite nm_mu, bind_ok, Lv.
  eapply returns_bind; [by apply (EncryptN_mask _ sp ep N)|]. intros a [Ha Hai].
  destruct Hsp as (Es & Ls & Fs).
  eapply returns_bind.
  { apply (returns_for (fun i b => 0 <= b < 2 * q /\
      b ≡[q] plaintext m p * (q / p) + err + sumZ i (fun i => (pk_v pk).[i] * sp.[i]) /\ (0 < i -> reduced q b)%nat)).
    - split; [lia|]. split; [|lia]. apply eqm_refl. cbn [sumZ]. lia.
    - intros i b Hi (Hb & Eb & _). rewrite (vget_at (pk_v pk)), bind_ok, (vget_at sp), bind_ok by lia.
      rewrite nm_mul_mu, bind_ok by (apply reduced_at; (done || lia)).
      pose proof (nm_mod (w := W) (m := q) ((pk_v pk).[i] * sp.[i])) as Hr.
      pose proof (nm_mod (w := W) (m := q) (b + ((pk_v pk).[i] * sp.[i]) mod q)) as Hr2. unfold reduced in Hr, Hr2.
      exists ((b + ((pk_v pk).[i] * sp.[i]) mod q) mod q). split; [apply nm_add_any; lia|].
      split; [lia|]. split; [|done]. rewrite !eqm_mod, Eb. cbn [sumZ]. apply eqm_refl. ring. }
  intros b (Hb & Eb & Hbr). apply returns_ok. specialize (Hbr ltac:(lia)).
  split; [by split|]. split; [done|]. cbn [ct_a ct_b new_LWECiphertext SetptModulus]. rewrite Eb.
  assert (dot N a s ≡[q] dot N ep s + sumZ N (fun j => sp.[j] * dot N (pk_A pk !!! j) s)) as ->.
  { unfold dot. rewrite (sumZ_eqm q N _ (fun i => ep.[i] * s.[i] + sumZ N (fun j => sp.[j] * ((pk_A pk !!! j).[i] * s.[i])))).
    - rewrite sumZ_add. apply eqm_add; [done|]. rewrite sumZ_swap. apply eqm_refl, sumZ_ext. intros j _. apply sumZ_scale.
    - intros i Hi. rewrite (Hai i Hi). apply eqm_refl.
      rewrite (sumZ_ext N (fun j => sp.[j] * ((pk_A pk !!! j).[i] * s.[i])) (fun j => s.[i] * ((pk_A pk !!! j).[i] * sp.[j])))
        by (intros; ring).
      rewrite sumZ_scale. ring. }
  assert (sumZ N (fun i => (pk_v pk).[i] * sp.[i]) ≡[q]
          sumZ N (fun j => sp.[j] * dot N (pk_A pk !!! j) s) + sumZ N (fun j => noise j * sp.[j])) as ->.
  { rewrite <- sumZ_add. apply sumZ_eqm. intros j Hj. rewrite (Hpk j Hj). apply eqm_refl. ring. }
  apply eqm_refl. ring.
Qed.
End PublicKey.

(** ** Key switching *)
Definition keyA (K : LWESwitchingKey) (i j k : nat) : NativeVector := ((ks_A K !!! i) !!! j) !!! k.
Definition keyB (K : LWESwitchingKey) (i j k : nat) : Z := ((ks_B K !!! i) !!! j) !!! k.

(** Entry [(i, j, k)] of a switching key from [sN] to [s] encrypts
    [sN_i * j * base^k] with the error [e i j k]. *)
Record ksk_valid (q : Z) (base : nat) (d : nat) (s sN : list Z) (K : LWESwitchingKey) (e : nat -> nat -> nat -> Z) : Prop := {
  ksk_lenA : length (ks_A K) = length sN;
  ksk_lenB : length (ks_B K) = length sN;
  ksk_rows i : (i < length sN)%nat -> length (ks_A K !!! i) = base /\ length (ks_B K !!! i) = base;
  ksk_cols i j : (i < length sN)%nat -> (j < base)%nat -> length ((ks_A K !!! i) !!! j) = d /\ length ((ks_B K !!! i) !!! j) = d;
  ksk_entry i j k : (i < length sN)%nat -> (j < base)%nat -> (k < d)%nat ->
    wf_mask q (length s) (keyA K i j k) /\ reduced q (keyB K i j k) /\
    keyB K i j k - sumZ (length s) (fun l => (keyA K i j k).[l] * s !!! l) ≡[q]
      e i j k + sN !!! i * (Z.of_nat j * Z.of_nat base ^ Z.of_nat k)
}.

Section KeySwitching.
Context {q : Z} {Hq : NativeModulus W q}.
Context (base d : nat) (s sN : list Z) (K : LWESwitchingKey) (e : nat -> nat -> nat -> Z).
Context (Hbase : (1 < base)%nat) (HK : ksk_valid q base d s sN K e).

Let B : Z := Z.of_nat base.
Let n := length s.
Let pair_phase (a : list Z) (b : Z) : Z := b - sumZ n (fun l => a !!! l * s !!! l).

(** The digit [j] of the coefficient [i]: one entry of the key is
    subtracted. *)
Definition ks_step (i : nat) (refA : list (list NativeVector)) (refB : list (list Z)) (j : nat)
    (abt : list Z * Z * Z) : res (list Z * Z * Z) :=
  let '(a, b, atmp) := abt in
  a0 ← umod atmp B;
  atmp ← udiv atmp B;
  rowB ← vget refB (Z.to_nat a0);
  refBj ← vget rowB j;
  let b := ModSubFastEq W b refBj q in
  rowA ← vget refA (Z.to_nat a0);
  refAj ← vget rowA j;
  a ← update_loop (fun x y => ModSubFastEq W x y q) n a (data refAj);
  Ok (a, b, atmp).

Definition ks_noise (i : nat) (v : Z) : Z := sumZ d (fun j => e i (Z.to_nat (digit B v j)) j).

Lemma sub_list_spec a ref :
  length a = n -> Forall (reduced q) a -> wf_mask q n ref ->
  returns (update_loop (fun x y => ModSubFastEq W x y q) n a (data ref))
    (fun a' => length a' = n /\ Forall (reduced q) a' /\
       forall l, (l < n)%nat -> a' !!! l = (a !!! l - ref.[l]) mod q).
Proof using All.
  intros La Fa (Er & Lr & Fr). eapply returns_mono; [apply update_loop_spec; lia|].
  intros a' (L' & H' & _). cbn beta in *.
  assert (forall l, (l < n)%nat -> a' !!! l = (a !!! l - ref.[l]) mod q) as Hv.
  { intros l Hl. rewrite H' by done. apply nm_sub.
    - apply Forall_reduced_total; [done|lia].
    - apply Forall_reduced_total; [done|lia]. }
  split; [lia|]. split; [|done]. apply Forall_reduced_total. intros l Hl. rewrite Hv by lia.
  apply (nm_mod (w := W)).
Qed.

Lemma ks_step_spec i j a b v :
  (i < length sN)%nat -> (j < d)%nat -> 0 <= v -> length a = n -> Forall (reduced q) a -> reduced q b ->
  returns (ks_step i (ks_A K !!! i) (ks_B K !!! i) j (a, b, v / B ^ Z.of_nat j))
    (fun '(a', b', v') => length a' = n /\ Forall (reduced q) a' /\ reduced q b' /\ v' = v / B ^ Z.of_nat (S j) /\
       pair_phase a' b' ≡[q] pair_phase a b - (e i (Z.to_nat (digit B v j)) j + sN !!! i * (digit B v j * B ^ Z.of_nat j))).
Proof using All.
  intros Hi Hj Hv La Fa Hb. assert (1 < B) as HB by (unfold B; lia).
  unfold ks_step, umod, udiv. rewrite (proj2 (Z.eqb_neq B 0)), !bind_ok, digit_step by lia.
  fold (digit B v j). pose proof (digit_range B v j ltac:(lia)) as Hd. set (c := digit B v j) in *.
  set (x := Z.to_nat c). assert (x < base)%nat as Hx by (unfold x, B in *; lia).
  assert (Z.of_nat x = c) as Ex by (unfold x; lia).
  destruct (ksk_rows _ _ _ _ _ _ _ HK i Hi) as [R1 R2]. destruct (ksk_cols _ _ _ _ _ _ _ HK i x Hi Hx) as [C1 C2].
  destruct (ksk_entry _ _ _ _ _ _ _ HK i x j Hi Hx Hj) as (Hm & Hr & He).
  rewrite (vget_total (ks_B K !!! i)), bind_ok, (vget_total ((ks_B K !!! i) !!! x)), bind_ok by lia.
  rewrite (vget_total (ks_A K !!! i)), bind_ok, (vget_total ((ks_A K !!! i) !!! x)), bind_ok by lia.
  fold (keyA K i x j) (keyB K i x j).
  assert (ModSubFastEq W b (keyB K i x j) q = (b - keyB K i x j) mod q) as -> by (by apply nm_sub).
  eapply returns_bind; [by apply sub_list_spec|]. intros a' (La' & Fa' & Ha'). apply returns_ok.
  split; [done|]. split; [done|]. split; [apply (nm_mod (w := W))|]. split; [done|].
  unfold pair_phase. rewrite eqm_mod. fold n in He. rewrite Ex in He. fold B in He. rewrite <- He.
  transitivity (b - keyB K i x j - sumZ n (fun l => a !!! l * s !!! l - (keyA K i x j).[l] * s !!! l)).
  - apply eqm_sub; [done|]. apply sumZ_eqm. intros l Hl. rewrite Ha', eqm_mod by done. apply eqm_refl. ring.
  - rewrite sumZ_sub. apply eqm_refl. ring.
Qed.

(** The whole loop over one mask. *)
Lemma ks_loop_spec mask b0 :
  d = digit_count B q -> wf_mask q (length sN) mask -> reduced q b0 ->
  returns (ks_loop n (length sN) q B d K mask b0) (fun ab => length ab.1 = n /\ Forall (reduced q) ab.1 /\ reduced q ab.2 /\
      pair_phase ab.1 ab.2 ≡[q] b0 - sumZ (length sN) (fun i => ks_noise i mask.[i] + sN !!! i * mask.[i])).
Proof using All.
  intros Ed (Em & Lm & Fm) Hb. pose proof two_q (q := q) as H2. assert (1 < B) as HB by (unfold B; lia).
  unfold ks_loop.
  apply (returns_for (fun i ab => length ab.1 = n /\ Forall (reduced q) ab.1 /\ reduced q ab.2 /\
      pair_phase ab.1 ab.2 ≡[q] b0 - sumZ i (fun i => ks_noise i mask.[i] + sN !!! i * mask.[i]))).
    - cbn [fst snd]. rewrite length_zeros. split; [done|]. split; [|split; [done|]].
      + apply zeros_Forall. unfold reduced. lia.
      + unfold pair_phase; cbn [sumZ]. rewrite (sumZ_ext n _ (fun _ => 0)), sumZ_zero; [done|].
        intros l Hl. by rewrite zeros_lookup.
    - intros i [a b] Hi (La & Fa & Hbr & Hph). cbn [fst snd] in *.
      pose proof (ksk_lenA _ _ _ _ _ _ _ HK). pose proof (ksk_lenB _ _ _ _ _ _ _ HK).
      rewrite (vget_total (ks_A K)), bind_ok, (vget_total (ks_B K)), bind_ok, (vget_at mask), bind_ok by lia.
      pose proof (reduced_at q mask i Fm ltac:(lia)) as Hv. set (v := mask.[i]) in *.
      eapply returns_bind.
      { apply (returns_for (fun j '(a', b', v') => length a' = n /\ Forall (reduced q) a' /\ reduced q b' /\
          v' = v / B ^ Z.of_nat j /\
          pair_phase a' b' ≡[q] pair_phase a b - sumZ j (fun j => e i (Z.to_nat (digit B v j)) j + sN !!! i * (digit B v j * B ^ Z.of_nat j)))).
        - rewrite Z.div_1_r. do 4 (split; [done|]). apply eqm_refl. cbn [sumZ]. lia.
        - intros j [[a' b'] v'] Hj (La' & Fa' & Hb' & -> & Hp').
          eapply returns_mono; [apply (ks_step_spec i j a' b' v); try done; unfold reduced in Hv; lia|].
          intros [[a'' b''] v''] (La'' & Fa'' & Hb'' & Hv'' & Hp''). do 4 (split; [done|]).
          rewrite Hp'', Hp'. cbn [sumZ]. apply eqm_refl. ring. }
      intros [[a' b'] v'] (La' & Fa' & Hb' & _ & Hp'). apply returns_ok. cbn [fst snd].
      split; [done|]. split; [done|]. split; [done|]. rewrite Hp', Hph. cbn [sumZ]. fold v.
      rewrite (sumZ_add d (fun j => e i (Z.to_nat (digit B v j)) j)), sumZ_scale, digits_sum; [|lia|].
      + apply eqm_refl. unfold ks_noise. ring.
      + unfold reduced in Hv. rewrite Ed. pose proof (digit_count_enough B q ltac:(lia) ltac:(lia)). lia.
Qed.

Lemma KeySwitch_spec ps ct :
  m_n ps = n -> m_N ps = length sN -> m_qKS ps = q -> m_baseKS ps = B -> digit_count B q = d ->
  wf_ct q (length sN) ct ->
  returns (KeySwitch ps K ct) (fun ct' => wf_ct q n ct' /\
    phase s ct' ≡[q] phase sN ct - sumZ (length sN) (fun i => ks_noise i (ct_a ct).[i])).
Proof using All.
  intros En EN EQ Eb Ed [Hm Hb]. unfold KeySwitch. rewrite En, EN, EQ, Eb, Ed.
  eapply returns_bind; [by apply ks_loop_spec|].
  intros [a b] (La & Fa & Hbr & Hph). cbn [fst snd] in *. apply returns_ok. split; [by split|].
  transitivity (pair_phase a b); [done|]. rewrite Hph. unfold phase. rewrite sumZ_add.
  rewrite (sumZ_ext _ (fun i => sN !!! i * (ct_a ct).[i]) (fun i => (ct_a ct).[i] * sN !!! i)) by (intros; ring).
  apply eqm_refl. ring.
Qed.
End KeySwitching.

Section KeySwitchingKey.
Context {q : Z} {Hq : NativeModulus W q}.

(** The generated key is valid, with the drawn errors as its errors. *)
Lemma ksg_bodies_spec n N sk skN gaussA err base :
  let d := digit_count (Z.of_nat base) q in
  (1 < base)%nat -> length (data sk) = n -> length (data skN) = N -> wf_vec W sk -> wf_vec W skN ->
  (forall i j k, wf_mask q n (gaussA i j k)) -> (forall i j k, reduced q (err i j k)) ->
  (Z.of_nat n + 2) * q < 2 ^ 64 -> Z.of_nat base * q <= 2 ^ 64 ->
  returns (ksg_bodies n N q (Z.of_nat base) (mu_of W q) d (powers_loop (Z.of_nat base) d 1)
             (key_mod q sk) (key_mod q skN) gaussA err)
    (fun B => ksk_valid q base d (key_ints sk) (key_ints skN) (LWESk (ksg_masks N (Z.of_nat base) d gaussA) B) err).
Proof using Hq.
  intros d Hbase Ln LN Hsk HskN HA Herr Hfit HfitB. unfold ksg_bodies, ksg_masks. pose proof (two_q (q := q)) as H2.
  set (Bf := fun i j k => (err i j k + (((key_mod q skN).[i] * (Z.of_nat j * Z.of_nat base ^ Z.of_nat k)) mod q)
      + dot n (gaussA i j k) (key_mod q sk)) mod q).
  rewrite Nat2Z.id, (tabulateM_ok N _ (fun i => map (fun j => map (fun k => Bf i j k) (seq 0 d)) (seq 0 base))).
  - apply returns_ok.
    assert (forall i j k, (i < N)%nat -> (j < base)%nat -> (k < d)%nat ->
      (((map (fun i => map (fun j => map (fun k => Bf i j k) (seq 0 d)) (seq 0 base)) (seq 0 N)) !!! i) !!! j) !!! k = Bf i j k) as HBl.
    { intros i j k Hi Hj Hk. by rewrite !lookup_total_tab by done. }
    assert (forall i j k, (i < N)%nat -> (j < base)%nat -> (k < d)%nat ->
      (((map (fun i => map (fun j => map (fun k => gaussA i j k) (seq 0 d)) (seq 0 base)) (seq 0 N)) !!! i) !!! j) !!! k = gaussA i j k) as HAl.
    { intros i j k Hi Hj Hk. by rewrite !lookup_total_tab by done. }
    split; cbn [ks_A ks_B]; rewrite ?length_key_ints, ?LN, ?Ln; rewrite ?length_tab; try done.
    + intros i Hi. rewrite !lookup_total_tab by done. by rewrite !length_tab.
    + intros i j Hi Hj. rewrite !lookup_total_tab by done. by rewrite !length_tab.
    + intros i j k Hi Hj Hk. unfold keyA, keyB; cbn [ks_A ks_B]. rewrite HBl, HAl by done.
      split; [apply HA|]. split; [apply (nm_mod (w := W))|]. unfold Bf. rewrite !eqm_mod.
      rewrite <- Ln at 1. rewrite dot_key. rewrite length_key_ints, Ln.
      assert ((key_mod q skN).[i] ≡[q] key_ints skN !!! i) as ->.
      { unfold key_mod, key_ints; cbn [data]. rewrite !lookup_total_map by lia. apply eqm_mod. }
      apply eqm_refl. ring.
  - intros i Hi. apply tabulateM_ok. intros j Hj. apply tabulateM_ok. intros k Hk.
    pose proof (digit_count_minimal (Z.of_nat base) q k ltac:(lia) ltac:(lia) Hk) as Hpk.
    assert (0 < Z.of_nat base ^ Z.of_nat k) as Hpos by (apply Z.pow_pos_nonneg; lia).
    rewrite (vget_total (powers_loop (Z.of_nat base) d 1)), bind_ok by (by rewrite length_powers_loop).
    rewrite powers_loop_spec; [|lia|lia| |done].
    2: { rewrite Z.mul_1_l.
         pose proof (digit_count_minimal (Z.of_nat base) q (pred d) ltac:(lia) ltac:(lia) ltac:(unfold d in *; lia)). lia. }
    rewrite Z.mul_1_l. set (pw := Z.of_nat base ^ Z.of_nat k) in *.
    unfold Mul, MulFast; cbn [NATIVEINT_DO_CHECKS]. rewrite mod_W_small, bind_ok by nia.
    rewrite (vget_at (key_mod q skN)), bind_ok by (rewrite length_key_mod; lia).
    destruct (key_mod_wf (w := W) (q := q) skN) as [_ HfN]. cbn [modulus key_mod] in HfN.
    pose proof (reduced_at q (key_mod q skN) i HfN ltac:(rewrite length_key_mod; lia)) as Hsi.
    destruct (nm_mul_any (w := W) (m := q) (key_mod q skN).[i] (pw * Z.of_nat j)) as [-> _];
      [unfold reduced in Hsi; rewrite Q64; lia|rewrite Q64; nia|done|].
    rewrite bind_ok. pose proof (Herr i j k) as He. unfold reduced in He.
    pose proof (nm_mod (w := W) (m := q) ((key_mod q skN).[i] * (pw * Z.of_nat j))) as Ht.
    rewrite nm_add_any, bind_ok by (unfold reduced in Ht; lia).
    destruct (HA i j k) as (EA & LA & FA). destruct (key_mod_wf (w := W) (q := q) sk) as [_ Hf]. cbn [modulus key_mod] in Hf.
    set (acc := (err i j k + ((key_mod q skN).[i] * (pw * Z.of_nat j)) mod q) mod q).
    pose proof (nm_mod (w := W) (m := q) (err i j k + ((key_mod q skN).[i] * (pw * Z.of_nat j)) mod q)) as Hacc. fold acc in Hacc.
    destruct (dot_loop_spec (gaussA i j k) (key_mod q sk) n acc) as (r & -> & Hr & Er);
      [done|done|lia|rewrite length_key_mod; lia|apply Hacc|unfold reduced in Hacc; lia|].
    rewrite bind_ok. unfold NativeInt.ModEq. rewrite nm_umod. f_equal. unfold Bf.
    change (r ≡[q] err i j k + ((key_mod q skN).[i] * (Z.of_nat j * pw)) mod q + dot n (gaussA i j k) (key_mod q sk)).
    rewrite Er. unfold acc. rewrite eqm_mod. by rewrite (Z.mul_comm pw).
Qed.
Lemma KeySwitchGen_spec ps sk skN gaussA err base :
  m_qKS ps = q -> m_baseKS ps = Z.of_nat base -> (1 < base)%nat ->
  length (data sk) = m_n ps -> length (data skN) = m_N ps -> wf_vec W sk -> wf_vec W skN ->
  (forall i j k, wf_mask q (m_n ps) (gaussA i j k)) -> (forall i j k, reduced q (err i j k)) ->
  (Z.of_nat (m_n ps) + 2) * q < 2 ^ 64 -> Z.of_nat base * q <= 2 ^ 64 ->
  returns (KeySwitchGen ps sk skN gaussA err)
    (fun K => ksk_valid q base (digit_count (Z.of_nat base) q) (key_ints sk) (key_ints skN) K err).
Proof using Hq.
  intros EQ Eb Hbase Ln LN Hsk HskN HA Herr Hfit HfitB. unfold KeySwitchGen. rewrite EQ, Eb.
  rewrite !Switch_sk, !bind_ok, nm_mu, bind_ok by done.
  eapply returns_bind; [by apply ksg_bodies_spec|]. intros B HB. by apply returns_ok.
Qed.
End KeySwitchingKey.

(** ** The whole chain

    Modulus switch, key switch with errors of at most [beta], modulus switch to
    any [q]. *)
Lemma switch_chain_spec ps base s sN K e beta q Q ct :
  let qKS := m_qKS ps in
  let d := digit_count (Z.of_nat base) qKS in
  NativeModulus W qKS -> m_baseKS ps = Z.of_nat base -> (1 < base)%nat ->
  length s = m_n ps -> length sN = m_N ps -> 0 < q -> 0 < Q ->
  6 * Q * qKS + 3 * Q + qKS < 2 ^ 53 -> 6 * qKS * q + 3 * qKS + q < 2 ^ 53 ->
  ksk_valid qKS base d s sN K e -> (forall i j k, Z.abs (e i j k) <= beta) -> wf_ct Q (m_N ps) ct ->
  returns (ctMS ← ModSwitch (m_qKS ps) ct; ctKS ← KeySwitch ps K ctMS; ModSwitch q ctKS) (fun ct' => wf_ct q (m_n ps) ct' /\
    exists k, 2 * Z.abs (Q * qKS * (phase s ct' + k * q) - q * qKS * phase sN ct) <=
      Q * qKS * (1 + norm1 s) + q * Q * (1 + norm1 sN) + 2 * q * Q * (Z.of_nat (m_N ps) * (Z.of_nat d * beta))).
Proof.
  intros qKS d Hq Eb Hb Ls LN Hq0 HQ0 Hf1 Hf2 HK Hbeta Hct. pose proof (two_q (q := qKS)) as H2.
  eapply returns_bind; [apply (ModSwitch_spec qKS Q (m_N ps) sN ct); (done || lia)|].
  intros ctMS [HctMS [k1 Hk1]].
  eapply returns_bind.
  { apply (KeySwitch_spec base d s sN K e Hb HK ps ctMS); first [done|by rewrite LN|lia]. }
  intros ctKS [HctKS Hph]. rewrite Ls in HctKS.
  eapply returns_mono; [apply (ModSwitch_spec q qKS (m_n ps) s ctKS); (done || lia)|].
  intros ct' [Hct' [k3 Hk3]]. split; [done|].
  set (E := sumZ (length sN) _) in Hph.
  assert (Z.abs E <= Z.of_nat (m_N ps) * (Z.of_nat d * beta)) as HE.
  { unfold E. rewrite LN. apply sumZ_bound. intros i Hi. apply sumZ_bound. intros j Hj. apply Hbeta. }
  apply eqm_iff in Hph as [k2 Hk2]. exists (k3 + k1 - k2).
  set (x := phase sN ct) in *. set (x1 := phase sN ctMS) in *. set (x2 := phase s ctKS) in *. set (x3 := phase s ct') in *.
  set (u := Q * (x1 + k1 * qKS) - qKS * x) in *. set (v := qKS * (x3 + k3 * q) - q * x2) in *.
  replace (Q * qKS * (x3 + (k3 + k1 - k2) * q) - q * qKS * x) with (Q * v + q * u - q * Q * E)
    by (unfold u, v; rewrite Hk2; ring).
  assert (Z.abs (Q * v + q * u - q * Q * E) <= Q * Z.abs v + q * Z.abs u + q * Q * Z.abs E) by nia.
  nia.
Qed.
