(* ===== verification/LweProps.v ===== *)
(** * Properties of the LWE scheme *)

From Stdlib Require Import ZArith Lia String.
From stdpp Require Import base tactics numbers list strings.
From S2P Require Import Prelude Double NativeInt NativeIntFacts ModArith NativeVec SchemeCore Lwe.

(** A check by evaluation that a mask is well formed. *)
Lemma wf_mask_check q n a :
  (modulus a =? q) && (length (data a) =? n)%nat && forallb (fun v => (0 <=? v) && (v <? q)) (data a) = true -> wf_mask q n a.
Proof.
  intros H. apply andb_prop in H as [H Hf]. apply andb_prop in H as [H1 H2]. apply Nat.eqb_eq in H2.
  split; [lia|]. split; [done|]. apply Forall_forall. intros v Hv. rewrite forallb_forall in Hf.
  apply list_elem_of_In in Hv. specialize (Hf v Hv). unfold reduced. lia.
Qed.

(** C32: symmetric encryption and decryption.  For every accepted modulus,
    key, mask and plaintext, [Encrypt] returns, and [Decrypt] recovers the
    plaintext whenever twice [p * (|e| + p)] is below the modulus, [e] being
    the signed value of the drawn error; neither accumulation overflows as
    long as [(n + 2) * q] fits 64 bits.  The divisibility guard never throws:
    the modulus need not be divisible by [p]. *)
Theorem Encrypt_Decrypt_correct (q : Z) (sk : NativeVector) (m p err : Z) (a : NativeVector) :
  NativeModulus W q -> wf_vec W sk -> wf_mask q (length (data sk)) a -> reduced q err ->
  0 < p -> (Z.of_nat (length (data sk)) + 2) * q < 2 ^ 64 -> p * q <= 2 ^ 64 ->
  2 * p * (Z.abs (centred q err) + p) < q ->
  returns (Encrypt sk m p q err a) (fun ct =>
    ct_a ct = a /\ ct_p ct = p /\ reduced q (ct_b ct) /\ Decrypt sk ct p = Ok (m mod 2 ^ 64 mod p)).
Proof.
  intros Hq Hsk Ha He Hp Hfit Hpq Hnoise. pose proof (two_q (q := q)).
  eapply returns_mono; [apply Encrypt_spec; try done; nia|].
  intros ct (Hct & Ea & Ep & Hph). split; [done|]. split; [done|]. split; [apply Hct|].
  rewrite (Decrypt_spec sk ct p Hsk Hct Hp Hpq) by nia. f_equal.
  apply round_phase_correct with (e := centred q err); [done|apply Z.mod_pos_bound; lia|lia| |done].
  by rewrite Hph, centred_eqm.
Qed.

Lemma Encrypt_Decrypt_correct_witness :
  returns (Encrypt (NVec 512 [1; 511; 0]) 3 4 512 507 (NVec 512 [100; 200; 300]))
    (fun ct => ct_a ct = NVec 512 [100; 200; 300] /\ ct_p ct = 4 /\ reduced 512 (ct_b ct) /\
       Decrypt (NVec 512 [1; 511; 0]) ct 4 = Ok 3).
Proof.
  assert (NativeModulus W 512) as Hq by (apply native_modulus_bits; unfold W; lia).
  apply (Encrypt_Decrypt_correct 512 (NVec 512 [1; 511; 0]) 3 4 507 (NVec 512 [100; 200; 300])); try done; try (cbn; lia).
  - by apply wf_vec_check.
  - by apply wf_mask_check.
Defined.

(** C33: public-key encryption.  [PubKeyGen] returns the public key
    [(A, A s + e)] modulo [Q]: the matrix is [A], the vector is canonical, and
    its entry [j] is congruent to [<A_j, s> + e_j].  [EncryptN] with that key
    returns a canonical ciphertext whose phase under [s] is congruent to the
    plaintext times [Q / p] plus [err + <e, sp> - <ep, s>]; and whenever that
    noise, as a signed integer [t], is small, decryption under [s] returns the
    plaintext. *)
Theorem public_key_correct (ps : LWECryptoParams) (s e : NativeVector) (A : list NativeVector)
    (m p err : Z) (sp ep : NativeVector) :
  let Q := m_Q ps in
  let N := m_N ps in
  NativeModulus W Q -> (0 < N)%nat -> wf_mask Q N s -> wf_mask Q N e ->
  length A = N -> (forall j, (j < N)%nat -> wf_mask Q N (A !!! j)) ->
  wf_mask Q N sp -> wf_mask Q N ep -> reduced Q err ->
  0 < p <= Q -> (Z.of_nat N + 2) * Q < 2 ^ 64 -> p * Q <= 2 ^ 64 ->
  returns (PubKeyGen ps s A e) (fun pk =>
    pk_A pk = A /\ wf_mask Q N (pk_v pk) /\ forall j, (j < N)%nat -> (pk_v pk).[j] ≡[Q] dot N (A !!! j) s + e.[j]) /\
  returns (pk ← PubKeyGen ps s A e; EncryptN pk m p Q err sp ep) (fun ct =>
    ct_p ct = p /\ wf_ct Q N ct /\
    phase (data s) ct ≡[Q] (m mod 2 ^ 64 mod p) * (Q / p) + (err + dot N e sp - dot N ep s) /\
    forall t, t ≡[Q] err + dot N e sp - dot N ep s -> 2 * p * (Z.abs t + p) < Q -> Decrypt s ct p = Ok (m mod 2 ^ 64 mod p)).
Proof.
  intros Q N HQ HN Hs He LA HA Hsp Hep Herr Hp Hfit Hpq. pose proof (two_q (q := Q)).
  pose proof (PubKeyGen_spec (q := Q) ps s A e eq_refl Hs He LA HA) as Hgen. split.
  - eapply returns_mono; [exact Hgen|]. intros pk [EA (_ & _ & Hv & Hpk)]. rewrite EA in Hpk. by split.
  - eapply returns_bind; [exact Hgen|]. intros pk [_ Hpk].
    eapply returns_mono; [by apply (EncryptN_spec pk s (fun j => e.[j]) m p err sp ep N); try done; nia|].
    intros ct (Hct & Ep & Hph). destruct Hs as (Es & Ls & Fs). split; [done|]. split; [done|]. split; [unfold phase; by rewrite Ls|].
    intros t Ht Hnoise. assert (wf_vec W s) as Hwf by (split; rewrite ?Es; done).
    rewrite Decrypt_spec by (rewrite ?Ls; done || nia). f_equal.
    apply round_phase_correct with (e := t); [lia|apply Z.mod_pos_bound; lia|lia| |done].
    transitivity (ct_b ct - dot N (ct_a ct) s).
    + unfold phase. rewrite <- dot_key, Ls. by rewrite key_mod_id.
    + rewrite Hph. by rewrite Ht.
Qed.

Lemma public_key_correct_witness :
  let pk := PubKeyGen (LWEParams 2 2 512 4096 4096 32) (NVec 4096 [1; 4095]) [NVec 4096 [5; 6]; NVec 4096 [77; 4000]] (NVec 4096 [2; 4095]) in
  returns pk (fun pk => (pk_v pk).[0] ≡[4096] 5 * 1 + 6 * 4095 + 2) /\
  returns (pk ← pk; EncryptN pk 3 4 4096 1 (NVec 4096 [1; 1]) (NVec 4096 [0; 1]))
    (fun ct => ct_p ct = 4 /\ wf_ct 4096 2 ct /\ phase [1; 4095] ct ≡[4096] 3 * 1024 + 3 /\ Decrypt (NVec 4096 [1; 4095]) ct 4 = Ok 3).
Proof.
  assert (NativeModulus W 4096) as Hq by (apply native_modulus_bits; unfold W; lia). cbv zeta.
  destruct (public_key_correct (LWEParams 2 2 512 4096 4096 32) (NVec 4096 [1; 4095]) (NVec 4096 [2; 4095])
    [NVec 4096 [5; 6]; NVec 4096 [77; 4000]] 3 4 1 (NVec 4096 [1; 1]) (NVec 4096 [0; 1])) as [H1 H2]; try done; try (cbn; lia);
    try (by apply wf_mask_check); [intros [|[|j]] Hj; cbn in Hj; try lia; by apply wf_mask_check|]. split.
  - eapply returns_mono; [exact H1|]. intros pk (_ & _ & H). exact (H 0%nat ltac:(cbn; lia)).
  - eapply returns_mono; [exact H2|]. intros ct (Hp & Hct & Hph & Hdec). split; [exact Hp|]. split; [exact Hct|]. split; [etransitivity; [exact Hph|done]|].
    exact (Hdec 3 ltac:(done) ltac:(cbn; lia)).
Defined.

(** The homomorphic operations.  Under any key of integers, the phase of
    the result is the sum, the difference or the multiple of the phases, and
    the ciphertext stays canonical; ciphertexts of different modulus or
    length are refused. *)
Theorem homomorphic_operations (q : Z) (n : nat) (s : list Z) (ct1 ct2 : LWECiphertext) (c : Z) :
  NativeModulus W q -> length s = n -> wf_ct q n ct1 -> wf_ct q n ct2 -> reduced q c ->
  returns (EvalAddEq ct1 ct2) (fun ct => wf_ct q n ct /\ phase s ct ≡[q] phase s ct1 + phase s ct2) /\
  returns (EvalSubEq ct1 ct2) (fun ct => wf_ct q n ct /\ phase s ct ≡[q] phase s ct1 - phase s ct2) /\
  returns (EvalSubEq2 ct1 ct2) (fun ct => wf_ct q n ct /\ phase s ct ≡[q] phase s ct1 - phase s ct2) /\
  returns (EvalMultConstEq ct1 c) (fun ct => wf_ct q n ct /\ phase s ct ≡[q] c * phase s ct1) /\
  phase s (EvalAddConstEq ct1 c) ≡[q] phase s ct1 + c /\
  phase s (EvalSubConstEq ct1 c) ≡[q] phase s ct1 - c.
Proof.
  intros Hq Hs H1 H2 Hc. destruct (EvalSubEq_spec n s ct1 ct2 Hs H1 H2).
  destruct (EvalConst_spec s ct1 c (proj2 H1) (proj1 (proj1 H1)) Hc).
  split; [by apply EvalAddEq_spec|]. split; [done|]. split; [done|]. split; [|done]. by apply EvalMultConstEq_spec.
Qed.

Lemma homomorphic_operations_witness :
  returns (EvalSubEq2 (LWECt (NVec 512 [3; 500]) 7 4) (LWECt (NVec 512 [5; 6]) 9 4))
    (fun ct => wf_ct 512 2 ct /\ phase [1; -1] ct ≡[512] (7 - (3 - 500)) - (9 - (5 - 6))).
Proof.
  assert (NativeModulus W 512) as Hq by (apply native_modulus_bits; unfold W; lia).
  apply (homomorphic_operations 512 2 [1; -1] (LWECt (NVec 512 [3; 500]) 7 4) (LWECt (NVec 512 [5; 6]) 9 4) 3);
    try done; try (split; [by apply wf_mask_check|cbn; unfold reduced; lia]).
Defined.

(** Modulus switching scales the phase by [q / Q] with an error of at most
    half a unit for [b] and half a unit for each unit of the 1-norm of the
    key, as long as the double-precision products are exact. *)
Theorem ModSwitch_noise (q Q : Z) (n : nat) (s : list Z) (ct : LWECiphertext) :
  0 < q -> 0 < Q -> 6 * Q * q + 3 * Q + q < 2 ^ 53 -> length s = n -> wf_ct Q n ct ->
  returns (ModSwitch q ct) (fun ct' => wf_ct q n ct' /\
    exists k, 2 * Z.abs (Q * (phase s ct' + k * q) - q * phase s ct) <= Q * (1 + norm1 s)).
Proof. intros. by apply ModSwitch_spec. Qed.

Lemma ModSwitch_noise_witness :
  returns (ModSwitch 512 (LWECt (NVec 134215681 [100000000; 5; 77777]) 99999999 4)) (fun ct' => wf_ct 512 3 ct' /\
    exists k, 2 * Z.abs (134215681 * (phase [1; -1; 0] ct' + k * 512) -
      512 * phase [1; -1; 0] (LWECt (NVec 134215681 [100000000; 5; 77777]) 99999999 4)) <= 134215681 * (1 + norm1 [1; -1; 0])).
Proof.
  apply (ModSwitch_noise 512 134215681 3 [1; -1; 0]); try lia; try done.
  split; [by apply wf_mask_check|cbn; unfold reduced; lia].
Defined.

(** C34: key switching.  The key that [KeySwitchGen] makes is valid with the
    drawn errors, and [KeySwitch] with it returns a canonical ciphertext whose
    phase under the small key is the phase under the large key minus one
    error per digit of the mask. *)
Theorem KeySwitch_correct (ps : LWECryptoParams) (sk skN : NativeVector)
    (gaussA : nat -> nat -> nat -> NativeVector) (err : nat -> nat -> nat -> Z) (base : nat) (ct : LWECiphertext) :
  let q := m_qKS ps in
  let d := digit_count (Z.of_nat base) q in
  NativeModulus W q -> m_baseKS ps = Z.of_nat base -> (1 < base)%nat ->
  length (data sk) = m_n ps -> length (data skN) = m_N ps -> wf_vec W sk -> wf_vec W skN ->
  (forall i j k, wf_mask q (m_n ps) (gaussA i j k)) -> (forall i j k, reduced q (err i j k)) ->
  (Z.of_nat (m_n ps) + 2) * q < 2 ^ 64 -> Z.of_nat base * q <= 2 ^ 64 -> wf_ct q (m_N ps) ct ->
  returns (K ← KeySwitchGen ps sk skN gaussA err; KeySwitch ps K ct) (fun ct' =>
    wf_ct q (m_n ps) ct' /\
    phase (key_ints sk) ct' ≡[q] phase (key_ints skN) ct -
      sumZ (m_N ps) (fun i => sumZ d (fun j => err i (Z.to_nat (digit (Z.of_nat base) (ct_a ct).[i] j)) j))).
Proof.
  intros q d Hq Eb Hb Ln LN Hsk HskN HA Herr Hfit Hfit2 Hct.
  eapply returns_bind; [by apply (KeySwitchGen_spec (q := q) ps sk skN gaussA err base)|]. intros K HK.
  replace (m_n ps) with (length (key_ints sk)) by (by rewrite length_key_ints).
  replace (m_N ps) with (length (key_ints skN)) by (by rewrite length_key_ints).
  apply (KeySwitch_spec base d (key_ints sk) (key_ints skN) K err Hb HK ps ct);
    rewrite ?length_key_ints; first [done | by rewrite LN].
Qed.

Lemma KeySwitch_correct_witness :
  let ps := LWEParams 2 3 512 134215681 4096 32 in
  let g := fun i j k : nat => NVec 4096 [Z.of_nat (i + j); Z.of_nat k] in
  let ct := LWECt (NVec 4096 [4095; 33; 1000]) 5 4 in
  returns (K ← KeySwitchGen ps (NVec 4096 [1; 4095]) (NVec 134215681 [0; 1; 134215680]) (fun i j k => NVec 4096 [5; 9]) (fun i j k => 1);
           KeySwitch ps K ct) (fun ct' =>
    wf_ct 4096 2 ct' /\ phase [1; -1] ct' ≡[4096] phase [0; 1; -1] ct - 9).
Proof.
  cbn zeta. assert (NativeModulus W 4096) as Hq by (apply native_modulus_bits; unfold W; lia).
  assert (NativeModulus W 134215681) as HQ by (apply native_modulus_bits; unfold W; lia).
  eapply returns_mono; [apply (KeySwitch_correct (LWEParams 2 3 512 134215681 4096 32) (NVec 4096 [1; 4095])
    (NVec 134215681 [0; 1; 134215680]) (fun i j k => NVec 4096 [5; 9]) (fun i j k => 1) 32
    (LWECt (NVec 4096 [4095; 33; 1000]) 5 4)); try done; try (cbn; lia)|].
  - by apply wf_vec_check.
  - by apply wf_vec_check.
  - intros. by apply wf_mask_check.
  - split; [by apply wf_mask_check|cbn; unfold reduced; lia].
  - intros ct' [H1 H2]. split; [exact H1|exact H2].
Defined.

(** The whole path from modulus [Q] and dimension [N] to modulus [q] and
    dimension [n]: modulus switching, key switching with a key whose errors
    are at most [beta], and modulus switching again, compose, and the phase is
    the scaled phase up to the stated bound. *)
Theorem SwitchCTtoqn_noise (ps : LWECryptoParams) (base : nat) (s sN : list Z) (K : LWESwitchingKey)
    (e : nat -> nat -> nat -> Z) (beta Q : Z) (ct : LWECiphertext) :
  let q := m_q ps in
  let qKS := m_qKS ps in
  let d := digit_count (Z.of_nat base) qKS in
  NativeModulus W qKS -> m_baseKS ps = Z.of_nat base -> (1 < base)%nat ->
  length s = m_n ps -> length sN = m_N ps -> 0 < q -> 0 < Q ->
  6 * Q * qKS + 3 * Q + qKS < 2 ^ 53 -> 6 * qKS * q + 3 * qKS + q < 2 ^ 53 ->
  ksk_valid qKS base d s sN K e -> (forall i j k, Z.abs (e i j k) <= beta) -> wf_ct Q (m_N ps) ct ->
  returns (SwitchCTtoqn ps K ct) (fun ct' => wf_ct q (m_n ps) ct' /\
    exists k, 2 * Z.abs (Q * qKS * (phase s ct' + k * q) - q * qKS * phase sN ct) <=
      Q * qKS * (1 + norm1 s) + q * Q * (1 + norm1 sN) + 2 * q * Q * (Z.of_nat (m_N ps) * (Z.of_nat d * beta))).
Proof.
  intros q qKS d Hq Eb Hb Ls LN Hq0 HQ0 Hf1 Hf2 HK Hbeta Hct. by apply (switch_chain_spec ps base s sN K e beta q Q ct).
Qed.

Lemma SwitchCTtoqn_noise_witness :
  ksk_valid 4 2 2 [1] [1] (LWESk [[[NVec 4 [0]; NVec 4 [0]]; [NVec 4 [3]; NVec 4 [1]]]] [[[0; 0]; [0; 3]]]) (fun _ _ _ => 0) /\
  returns (SwitchCTtoqn (LWEParams 1 1 8 16 4 2) (LWESk [[[NVec 4 [0]; NVec 4 [0]]; [NVec 4 [3]; NVec 4 [1]]]] [[[0; 0]; [0; 3]]])
      (LWECt (NVec 16 [5]) 9 4)) (fun ct' => wf_ct 8 1 ct').
Proof.
  assert (NativeModulus W 4) as Hq by (apply native_modulus_bits; unfold W; lia).
  assert (ksk_valid 4 2 2 [1] [1] (LWESk [[[NVec 4 [0]; NVec 4 [0]]; [NVec 4 [3]; NVec 4 [1]]]] [[[0; 0]; [0; 3]]]) (fun _ _ _ => 0)) as HK.
  { split; try done.
    - intros [|i] Hi; cbn in Hi; [done|lia].
    - intros [|i] [|[|j]] Hi Hj; cbn in Hi; try lia; done.
    - intros [|i] [|[|j]] [|[|k]] Hi Hj Hk; cbn in Hi; try lia;
        (split; [by apply wf_mask_check|split; [unfold reduced, keyB; cbn; lia|reflexivity]]). }
  split; [exact HK|].
  eapply returns_mono; [apply (SwitchCTtoqn_noise (LWEParams 1 1 8 16 4 2) 2 [1] [1] _ (fun _ _ _ => 0) 0 16
    (LWECt (NVec 16 [5]) 9 4)); first [exact HK|done|cbn; lia|idtac]|].
  - split; [by apply wf_mask_check|cbn; unfold reduced; lia].
  - intros ct' [H _]. exact H.
Defined.
