(* ===== verification/MkLwe.v ===== *)
(** * The multi-key LWE scheme: [MKLWEEncryptionScheme]

    Models [src/binfhe/lib/mklwe-pke.cpp] with [mklwe-ciphertext.h] and
    [mklwe-cryptoparameters.h].  A ciphertext has one mask per user and one
    body; a key is the list of the users' keys.  Drawn values are arguments,
    as in [Lwe]. *)

From Stdlib Require Import ZArith Lia String.
From stdpp Require Import base tactics numbers list strings.
From S2P Require Import Prelude Double NativeInt NativeIntFacts ModArith NativeVec SchemeCore Lwe.

Record MKLWECryptoParams := MKLWEParams {
  mk_k : nat; mk_n : nat; mk_N : nat; mk_q : Z; mk_Q : Z; mk_qKS : Z; mk_baseKS : Z
}.
Definition new_MKLWECryptoParams (k n N : nat) (q Q q_KS baseKS : Z) : res MKLWECryptoParams :=
  if (k =? 0)%nat then Throw (config_error "m_k (number of users) can not be zero") else
  if (n =? 0)%nat then Throw (config_error "m_n (lattice parameter) can not be zero") else
  if (N =? 0)%nat then Throw (config_error "m_N (ring dimension) can not be zero") else
  if q =? 0 then Throw (config_error "m_q (modulus for additive MKLWE) can not be zero") else
  if Q =? 0 then Throw (config_error "m_Q (modulus for RingGSW/RMKLWE) can not be zero") else
  if q_KS =? 0 then Throw (config_error "q_KS (modulus for key switching) can not be zero") else
  if baseKS =? 0 then Throw (config_error "m_baseKS (the base used for key switching) can not be zero") else
  if MAX_MODULUS_SIZE W <? GetMSB W Q then Throw (config_error "Q.GetMSB() > MAX_MODULUS_SIZE") else
  Ok (MKLWEParams k n N q Q q_KS baseKS).

Record MKLWECiphertext := MKCt { mk_a : list NativeVector; mk_b : Z; mk_p : Z }.
Definition new_MKLWECiphertext (a : list NativeVector) (b : Z) : MKLWECiphertext := MKCt a b 4.
(** The copy constructor leaves the plaintext modulus at its initial value. *)
Definition copy_MKLWECiphertext (ct : MKLWECiphertext) : MKLWECiphertext := new_MKLWECiphertext (mk_a ct) (mk_b ct).
(** [m_a[0].GetModulus()]. *)
Definition MKGetModulus (ct : MKLWECiphertext) : res Z := a0 ← vget (mk_a ct) 0; Ok (modulus a0).
Definition MKGetLength (ct : MKLWECiphertext) : res nat := a0 ← vget (mk_a ct) 0; Ok (length (data a0)).
Definition GetAneg (ct : MKLWECiphertext) : res (list NativeVector) :=
  a0 ← vget (mk_a ct) 0;
  mapM (fun au => ModSubV W (NVec (modulus a0) (repeat 0 (length (data a0)))) au) (mk_a ct).

Record MKLWESwitchingKey := MKSk {
  mks_A : list (list (list (list NativeVector))); mks_B : list (list (list (list Z)))
}.

(** ** Encryption and decryption *)
Definition MKEncrypt (ps : MKLWECryptoParams) (sk : list NativeVector) (m p mod_ : Z) (err : Z) (a : list NativeVector) :
    res MKLWECiphertext :=
  _ ← divides_guard p mod_;
  let n := mk_n ps in
  let k := mk_k ps in
  enc ← encode m p mod_;
  b ← Add W enc err;
  b ← for_ k (fun u b =>
        s ← vget sk u;
        s ← SwitchModulus W s mod_;
        au ← vget a u;
        mu ← ComputeMu_ W mod_;
        dot_loop mod_ mu au s n b) b;
  b ← NativeInt.Mod b mod_;
  Ok (MKCt a b p).

(** The common part of the two decryptions: [b - sum_u <a_u, s_u>]. *)
Definition MKDecrypt_inner (ps : MKLWECryptoParams) (sk : list NativeVector) (ct : MKLWECiphertext) (mod_ mu : Z) : res Z :=
  inner ← for_ (mk_k ps) (fun u inner =>
    s ← vget sk u;
    s ← SwitchModulus W s mod_;
    au ← vget (mk_a ct) u;
    inner ← dot_loop mod_ mu au s (mk_n ps) inner;
    NativeInt.ModEq inner mod_) 0;
  Ok (ModSubFastEq W (mk_b ct) inner mod_).

Definition MKDecrypt (ps : MKLWECryptoParams) (sk : list NativeVector) (ct : MKLWECiphertext) (p : Z) : res Z :=
  mod_ ← MKGetModulus ct;
  _ ← divides_guard (wrap W (p * 2)) mod_;
  mu ← ComputeMu_ W mod_;
  r ← MKDecrypt_inner ps sk ct mod_ mu;
  decode p (wrap W (p * 2)) mod_ r.

(** The variant for the output of a NAND gate rounds to multiples of
    [q / (p / 2)]. *)
Definition MKDecryptNAND (ps : MKLWECryptoParams) (sk : list NativeVector) (ct : MKLWECiphertext) (p : Z) : res Z :=
  mod_ ← MKGetModulus ct;
  _ ← divides_guard (wrap W (p / 2 * 2)) mod_;
  mu ← ComputeMu_ W mod_;
  r ← MKDecrypt_inner ps sk ct mod_ mu;
  decode (p / 2) p mod_ r.

(** ** Modulus switching and key switching *)
Definition MKModSwitch (q : Z) (ctQ : MKLWECiphertext) : res MKLWECiphertext :=
  n ← MKGetLength ctQ;
  Q ← MKGetModulus ctQ;
  let k := length (mk_a ctQ) in
  a ← tabulateM k (fun u =>
        au ← vget (mk_a ctQ) u;
        d ← tabulateM n (fun i => v ← vget (data au) i; RoundqQ v q Q);
        Ok (NVec q d));
  b ← RoundqQ (mk_b ctQ) q Q;
  Ok (new_MKLWECiphertext a b).

Definition MKKeySwitchGen (ps : MKLWECryptoParams) (sk skN : list NativeVector)
    (gaussA : nat -> nat -> nat -> nat -> NativeVector) (err : nat -> nat -> nat -> nat -> Z) : res MKLWESwitchingKey :=
  let n := mk_n ps in
  let N := mk_N ps in
  let qKS := mk_qKS ps in
  let baseKS := mk_baseKS ps in
  let digitCount := digit_count baseKS qKS in
  let digitsKS := powers_loop baseKS digitCount 1 in
  let usrnum := mk_k ps in
  B ← tabulateM usrnum (fun u =>
    sk_u ← vget sk u;
    sv ← SwitchModulus W sk_u qKS;
    skN_u ← vget skN u;
    svN ← SwitchModulus W skN_u qKS;
    mu ← ComputeMu_ W qKS;
    ksg_bodies n N qKS baseKS mu digitCount digitsKS sv svN (gaussA u) (err u));
  Ok (MKSk (map (fun u => ksg_masks N baseKS digitCount (gaussA u)) (seq 0 usrnum)) B).

(** The loop of [Lwe.ks_loop], once per user, on the shared body. *)
Definition MKKeySwitch (ps : MKLWECryptoParams) (K : MKLWESwitchingKey) (ctQN : MKLWECiphertext) : res MKLWECiphertext :=
  let n := mk_n ps in
  let N := mk_N ps in
  let Q := mk_qKS ps in
  let k := mk_k ps in
  let baseKS := mk_baseKS ps in
  let digitCount := digit_count baseKS Q in
  ab ← for_ k (fun u ab =>
    KA ← vget (mks_A K) u;
    KB ← vget (mks_B K) u;
    mask ← vget (mk_a ctQN) u;
    ab' ← ks_loop n N Q baseKS digitCount (LWESk KA KB) mask ab.2;
    a ← vset ab.1 u (NVec Q ab'.1);
    Ok (a, ab'.2)) (repeat (NVec Q (repeat 0 n)) k, mk_b ctQN);
  Ok (new_MKLWECiphertext ab.1 ab.2).

(** ** Homomorphic operations *)
Definition MKEvalAddEq (ct1 ct2 : MKLWECiphertext) : res MKLWECiphertext :=
  a ← tabulateM (length (mk_a ct1)) (fun u =>
        x ← vget (mk_a ct1) u; y ← vget (mk_a ct2) u; ModAddEqV W x y);
  q ← MKGetModulus ct1;
  Ok (MKCt a (ModAddFastEq W (mk_b ct1) (mk_b ct2) q) (mk_p ct1)).
Definition MKEvalSubEq (ct1 ct2 : MKLWECiphertext) : res MKLWECiphertext :=
  a ← tabulateM (length (mk_a ct1)) (fun u =>
        x ← vget (mk_a ct1) u; y ← vget (mk_a ct2) u; ModSubEqV W x y);
  q ← MKGetModulus ct1;
  Ok (MKCt a (ModSubFastEq W (mk_b ct1) (mk_b ct2) q) (mk_p ct1)).

Example MKEncrypt_Decrypt_2 :
  (ct ← MKEncrypt (MKLWEParams 2 2 4 512 512 512 32) [NVec 512 [1; 511]; NVec 512 [0; 1]] 2 4 512 3 [NVec 512 [5; 6]; NVec 512 [500; 1]];
   MKDecrypt (MKLWEParams 2 2 4 512 512 512 32) [NVec 512 [1; 511]; NVec 512 [0; 1]] ct 4) = Ok 2.
Proof. vm_compute. reflexivity. Qed.

(** ** Specifications *)
Definition mk_phase (s : list (list Z)) (ct : MKLWECiphertext) : Z :=
  mk_b ct - sumZ (length s) (fun u => sumZ (length (s !!! u)) (fun i => (mk_a ct !!! u).[i] * (s !!! u) !!! i)).

Definition wf_mkct (q : Z) (k n : nat) (ct : MKLWECiphertext) : Prop :=
  length (mk_a ct) = k /\ (forall u, (u < k)%nat -> wf_mask q n (mk_a ct !!! u)) /\ reduced q (mk_b ct).
Definition wf_mkkey (k n : nat) (sk : list NativeVector) : Prop :=
  length sk = k /\ forall u, (u < k)%nat -> wf_vec W (sk !!! u) /\ length (data (sk !!! u)) = n.
Definition mk_ints (sk : list NativeVector) : list (list Z) := map key_ints sk.

Section MKScheme.
Context {q : Z} {Hq : NativeModulus W q}.
Implicit Types (ct : MKLWECiphertext) (sk : list NativeVector).

Lemma length_mk_ints sk : length (mk_ints sk) = length sk.
Proof using Type. apply length_map. Qed.

Lemma mk_ints_at k n sk u :
  wf_mkkey k n sk -> (u < k)%nat -> mk_ints sk !!! u = key_ints (sk !!! u) /\ length (mk_ints sk !!! u) = n.
Proof using Type.
  intros [Lk Hk] Hu. unfold mk_ints. rewrite lookup_total_map by lia. split; [done|].
  rewrite length_key_ints. by apply Hk.
Qed.

(** One user of the encryption and decryption loops. *)
Lemma mk_dot k n sk u a acc :
  wf_mkkey k n sk -> (u < k)%nat -> wf_mask q n a -> 0 <= acc -> acc + Z.of_nat n * q < 2 ^ 64 ->
  returns (s ← SwitchModulus W (sk !!! u) q; dot_loop q (mu_of W q) a s n acc)
    (fun r => 0 <= r <= acc + Z.of_nat n * q /\
       r ≡[q] acc + sumZ (length (mk_ints sk !!! u)) (fun i => a.[i] * (mk_ints sk !!! u) !!! i)).
Proof using Hq.
  intros Hsk Hu (Ea & La & Fa) Hacc Hfit. destruct (mk_ints_at k n sk u Hsk Hu) as [-> _].
  destruct Hsk as [Lk Hsk]. destruct (Hsk u Hu) as [Hw Ln].
  rewrite Switch_sk, bind_ok by done.
  eapply returns_mono.
  { apply (dot_loop_spec a (key_mod q (sk !!! u)) n acc);
      [done|apply (key_mod_wf (w := W))|lia|rewrite length_key_mod; lia|done|done]. }
  intros r [Hr Er]. split; [lia|]. rewrite Er. apply eqm_add; [done|]. rewrite <- Ln. apply dot_key.
Qed.

Lemma MKEncrypt_spec ps sk m p err a :
  let k := mk_k ps in let n := mk_n ps in
  wf_mkkey k n sk -> length a = k -> (forall u, (u < k)%nat -> wf_mask q n (a !!! u)) -> reduced q err -> 0 < p <= q ->
  (Z.of_nat (k * n) + 2) * q < 2 ^ 64 ->
  returns (MKEncrypt ps sk m p q err a) (fun ct => wf_mkct q k n ct /\ mk_a ct = a /\ mk_p ct = p /\
    mk_phase (mk_ints sk) ct ≡[q] plaintext m p * (q / p) + err).
Proof using Hq.
  intros k n Hsk La Ha Herr Hp Hfit. pose proof two_q (q := q) as H2.
  unfold MKEncrypt. fold k n. rewrite divides_guard_dead, bind_ok by lia.
  destruct (encode_spec (q := q) m p Hp) as [-> Henc]. fold (plaintext m p) in *. rewrite bind_ok.
  unfold Add, AddFast; cbn [NATIVEINT_DO_CHECKS]. unfold reduced in Herr. rewrite mod_W_small, bind_ok by lia.
  set (b0 := err + plaintext m p * (q / p)).
  set (D := fun u => sumZ (length (mk_ints sk !!! u)) (fun i => (a !!! u).[i] * (mk_ints sk !!! u) !!! i)).
  eapply returns_bind.
  { apply (returns_for (fun u b => 0 <= b <= 2 * q + Z.of_nat (u * n) * q /\ b ≡[q] b0 + sumZ u D)).
    - split; [lia|]. apply eqm_refl. cbn [sumZ]. lia.
    - intros u b Hu [Hb Eb]. rewrite (vget_total sk) by (destruct Hsk; lia). rewrite bind_ok.
      assert (Z.of_nat (u * n) + Z.of_nat n <= Z.of_nat (k * n)) by (rewrite <- Nat2Z.inj_add; nia).
      destruct (mk_dot k n sk u (a !!! u) b Hsk Hu (Ha u Hu)) as (r & Er & Hr & Hd); [lia|nia|].
      destruct (SwitchModulus W (sk !!! u) q) as [s|]; [|done]. rewrite bind_ok in *.
      rewrite (vget_total a), bind_ok, nm_mu, bind_ok, Er by lia. apply returns_ok.
      split; [|rewrite Hd, Eb; cbn [sumZ]; apply eqm_refl; unfold D; ring].
      rewrite Nat2Z.inj_mul, Nat2Z.inj_succ in *. nia. }
  intros b [Hb Eb]. unfold NativeInt.Mod. rewrite nm_umod, bind_ok. apply returns_ok.
  split; [split; [done|split; [done|apply (nm_mod (w := W))]]|]. split; [done|]. split; [done|].
  unfold mk_phase; cbn [mk_a mk_b]. rewrite eqm_mod, Eb. rewrite length_mk_ints.
  destruct Hsk as [-> _]. fold D. unfold b0. apply eqm_refl. ring.
Qed.

(** The inner part of the decryptions computes the phase. *)
Lemma MKDecrypt_inner_spec ps sk ct :
  let k := mk_k ps in let n := mk_n ps in
  wf_mkkey k n sk -> wf_mkct q k n ct -> (Z.of_nat n + 1) * q < 2 ^ 64 ->
  MKDecrypt_inner ps sk ct q (mu_of W q) = Ok (mk_phase (mk_ints sk) ct mod q).
Proof using Hq.
  intros k n Hsk (La & Ha & Hb) Hfit. pose proof two_q (q := q) as H2. unfold MKDecrypt_inner. fold k n.
  set (D := fun u => sumZ (length (mk_ints sk !!! u)) (fun i => (mk_a ct !!! u).[i] * (mk_ints sk !!! u) !!! i)).
  rewrite (for_sum_mod q k _ D); [|lia|lia|].
  - rewrite bind_ok. f_equal. etransitivity; [apply nm_sub; [done|apply (nm_mod (w := W))]|].
    change (mk_b ct - (0 + sumZ k D) mod q ≡[q] mk_phase (mk_ints sk) ct). rewrite eqm_mod.
    unfold mk_phase. rewrite length_mk_ints. destruct Hsk as [-> _]. fold D. apply eqm_refl. ring.
  - intros u acc Hu Hacc. rewrite (vget_total sk), bind_ok by (destruct Hsk; lia).
    destruct (mk_dot k n sk u (mk_a ct !!! u) acc Hsk Hu (Ha u Hu)) as (r & Er & Hr & Hd); [lia|lia|].
    destruct (SwitchModulus W (sk !!! u) q) as [s|]; [|done]. rewrite bind_ok in *.
    rewrite (vget_total (mk_a ct)), bind_ok, Er, bind_ok by lia. unfold NativeInt.ModEq. rewrite nm_umod. f_equal. exact Hd.
Qed.

Lemma MKGetModulus_spec k n ct : (0 < k)%nat -> wf_mkct q k n ct -> MKGetModulus ct = Ok q /\ MKGetLength ct = Ok n.
Proof using Type.
  intros Hk (La & Ha & _). unfold MKGetModulus, MKGetLength. rewrite (vget_total (mk_a ct)), !bind_ok by lia.
  destruct (Ha 0%nat Hk) as (-> & -> & _). done.
Qed.

(** Both decryptions refine the rounding of the phase. *)
Lemma MKDecrypt_spec ps sk ct p :
  let k := mk_k ps in let n := mk_n ps in
  (0 < k)%nat -> wf_mkkey k n sk -> wf_mkct q k n ct -> (Z.of_nat n + 1) * q < 2 ^ 64 -> 0 < p -> p * q <= 2 ^ 64 ->
  MKDecrypt ps sk ct p = Ok (round_phase p (q / (p * 2)) q (mk_phase (mk_ints sk) ct)) /\
  (2 <= p -> MKDecryptNAND ps sk ct p = Ok (round_phase (p / 2) (q / p) q (mk_phase (mk_ints sk) ct))).
Proof using Hq.
  intros k n Hk Hsk Hct Hfit Hp Hpq. pose proof two_q (q := q) as H2.
  destruct (MKGetModulus_spec k n ct Hk Hct) as [Em _].
  assert (forall p' h, round_phase p' h q (mk_phase (mk_ints sk) ct mod q) = round_phase p' h q (mk_phase (mk_ints sk) ct)) as Hr.
  { intros p' h. unfold round_phase. do 2 f_equal. apply Zplus_mod_idemp_l. }
  unfold MKDecrypt, MKDecryptNAND. rewrite Em, !bind_ok. rewrite (mod_W_small (p * 2)) by nia.
  rewrite nm_mu, !bind_ok.
  split.
  - rewrite divides_guard_dead, bind_ok by lia. rewrite (MKDecrypt_inner_spec ps sk ct Hsk Hct Hfit), bind_ok.
    rewrite decode_spec by (lia || apply (nm_mod (w := W))). by rewrite Hr.
  - intros Hp2. pose proof (Z.mul_div_le p 2 ltac:(lia)). assert (1 <= p / 2) by (apply Z.div_le_lower_bound; lia).
    rewrite (mod_W_small (p / 2 * 2)) by nia.
    rewrite divides_guard_dead, bind_ok by lia. rewrite (MKDecrypt_inner_spec ps sk ct Hsk Hct Hfit), bind_ok.
    rewrite decode_spec by (nia || apply (nm_mod (w := W))). by rewrite Hr.
Qed.
End MKScheme.

(** ** Modulus switching, key switching, addition *)
Definition mk_norm1 (s : list (list Z)) : Z := sumZ (length s) (fun u => norm1 (s !!! u)).

Lemma mk_phase_ext k n s ct :
  length s = k -> (forall u, (u < k)%nat -> length (s !!! u) = n) ->
  mk_phase s ct = mk_b ct - sumZ k (fun u => sumZ n (fun i => (mk_a ct !!! u).[i] * (s !!! u) !!! i)).
Proof.
  intros Lk Hn. unfold mk_phase. rewrite Lk. f_equal. apply sumZ_ext. intros u Hu. by rewrite (Hn u Hu).
Qed.

Lemma MKModSwitch_spec q Q k n s ct :
  0 < q -> 0 < Q -> 6 * Q * q + 3 * Q + q < 2 ^ 53 -> (0 < k)%nat ->
  length s = k -> (forall u, (u < k)%nat -> length (s !!! u) = n) -> wf_mkct Q k n ct ->
  returns (MKModSwitch q ct) (fun ct' => wf_mkct q k n ct' /\
    exists c, 2 * Z.abs (Q * (mk_phase s ct' + c * q) - q * mk_phase s ct) <= Q * (1 + mk_norm1 s)).
Proof.
  intros Hq HQ Hfit Hk Lk Ln Hct. destruct (MKGetModulus_spec (q := Q) k n ct Hk Hct) as [Em El].
  destruct Hct as (La & Ha & Hb). unfold MKModSwitch. rewrite El, Em, !bind_ok, La.
  eapply returns_bind.
  { apply (tabulateM_returns k _ (fun u a => wf_mask q n a /\ exists c, 2 * Z.abs
      (Q * (sumZ n (fun i => a.[i] * (s !!! u) !!! i) + c * q) - q * sumZ n (fun i => (mk_a ct !!! u).[i] * (s !!! u) !!! i)) <= Q * norm1 (s !!! u))).
    intros u Hu. rewrite (vget_total (mk_a ct)), bind_ok by lia.
    eapply returns_bind; [apply (round_mask_spec q Q n (s !!! u)); auto|]. intros a [H1 H2]. by apply returns_ok. }
  intros a [La' Ha']. cbn beta in *.
  destruct (RoundqQ_error _ q Q Hb Hq) as (b & kb & -> & Hb1 & Hb2); [unfold reduced in Hb; nia|].
  rewrite bind_ok. apply returns_ok. split; [split; [done|split; [|done]]; intros u Hu; by apply Ha'|].
  destruct (choice_below k _ (fun u Hu => proj2 (Ha' u Hu))) as [c Hc].
  exists (kb - sumZ k c). rewrite !(mk_phase_ext k n) by done. cbn [mk_a mk_b new_MKLWECiphertext].
  unfold mk_norm1. rewrite Lk.
  set (X := fun u => sumZ n (fun i => (a !!! u).[i] * (s !!! u) !!! i)) in *.
  set (Y := fun u => sumZ n (fun i => (mk_a ct !!! u).[i] * (s !!! u) !!! i)) in *.
  assert (Z.abs (sumZ k (fun u => 2 * (Q * (X u + c u * q) - q * Y u))) <= sumZ k (fun u => Q * norm1 (s !!! u))) as Hs.
  { apply sumZ_abs_le. intros u Hu. rewrite Z.abs_mul. specialize (Hc u Hu). cbn beta in Hc. fold (X u) (Y u) in Hc. lia. }
  rewrite (sumZ_scale k 2 (fun u => Q * (X u + c u * q) - q * Y u)), (sumZ_scale k Q) in Hs.
  rewrite (sumZ_ext k _ (fun u => Q * X u + (Q * q * c u - q * Y u))) in Hs by (intros; ring).
  rewrite sumZ_add, sumZ_sub, !sumZ_scale in Hs. lia.
Qed.

Section MKOps.
Context {q : Z} {Hq : NativeModulus W q}.

(** Entrywise addition and subtraction of the masks. *)
Lemma mk_combine (f : Z -> Z -> Z) (op : NativeVector -> NativeVector -> res NativeVector) s k n ct1 ct2 b p :
  (forall x y, wf_mask q n x -> wf_mask q n y ->
     op x y = Ok (NVec q (zip_with (fun a b => f a b mod q) (data x) (data y)))) ->
  (forall a b c, f a b * c = f (a * c) (b * c)) ->
  (forall m g h, sumZ m (fun i => f (g i) (h i)) = f (sumZ m g) (sumZ m h)) ->
  (forall a b c d : Z, f (a - c) (b - d) = f a b - f c d) ->
  length s = k -> (forall u, (u < k)%nat -> length (s !!! u) = n) -> wf_mkct q k n ct1 -> wf_mkct q k n ct2 ->
  reduced q b -> b ≡[q] f (mk_b ct1) (mk_b ct2) ->
  returns (a ← tabulateM (length (mk_a ct1)) (fun u => x ← vget (mk_a ct1) u; y ← vget (mk_a ct2) u; op x y); Ok (MKCt a b p))
    (fun ct => wf_mkct q k n ct /\ mk_phase s ct ≡[q] f (mk_phase s ct1) (mk_phase s ct2)).
Proof using Hq.
  intros Hop Hmul Hsum Hsub Lk Ln (L1 & H1 & B1) (L2 & H2 & B2) Hb Eb. rewrite L1.
  rewrite (tabulateM_ok k _ (fun u => NVec q (zip_with (fun a b => f a b mod q) (data (mk_a ct1 !!! u)) (data (mk_a ct2 !!! u))))).
  2: { intros u Hu. rewrite (vget_total (mk_a ct1)), bind_ok, (vget_total (mk_a ct2)), bind_ok by lia. apply Hop; auto. }
  rewrite bind_ok. apply returns_ok. split.
  - split; [apply length_tab|]. split; [|done]. intros u Hu. cbn [mk_a]. rewrite lookup_total_tab by done.
    destruct (H1 u Hu) as (E1' & L1' & F1'), (H2 u Hu) as (E2' & L2' & F2').
    split; [done|]. cbn [data]. split; [rewrite length_zip_with; lia|].
    apply zip_with_reduced. intros. apply (nm_mod (w := W)).
  - rewrite !(mk_phase_ext k n) by done. cbn [mk_a mk_b]. rewrite Hsub, <- Hsum, Eb. apply eqm_sub; [done|].
    apply sumZ_eqm. intros u Hu. rewrite lookup_total_tab by done. rewrite <- Hsum. apply sumZ_eqm. intros i Hi.
    destruct (H1 u Hu) as (_ & L1' & _), (H2 u Hu) as (_ & L2' & _). cbn [data].
    rewrite vec_op_lookup by lia. rewrite eqm_mod. by rewrite Hmul.
Qed.

Lemma MKEval_spec s k n ct1 ct2 :
  (0 < k)%nat -> length s = k -> (forall u, (u < k)%nat -> length (s !!! u) = n) -> wf_mkct q k n ct1 -> wf_mkct q k n ct2 ->
  returns (MKEvalAddEq ct1 ct2) (fun ct => wf_mkct q k n ct /\ mk_phase s ct ≡[q] mk_phase s ct1 + mk_phase s ct2) /\
  returns (MKEvalSubEq ct1 ct2) (fun ct => wf_mkct q k n ct /\ mk_phase s ct ≡[q] mk_phase s ct1 - mk_phase s ct2).
Proof using Hq.
  intros Hk Lk Ln H1 H2. destruct (MKGetModulus_spec (q := q) k n ct1 Hk H1) as [Em _].
  unfold MKEvalAddEq, MKEvalSubEq. rewrite Em.
  assert (ModAddFastEq W (mk_b ct1) (mk_b ct2) q = (mk_b ct1 + mk_b ct2) mod q) as Ea.
  { destruct H1 as (_ & _ & ?), H2 as (_ & _ & ?). by apply nm_add. }
  assert (ModSubFastEq W (mk_b ct1) (mk_b ct2) q = (mk_b ct1 - mk_b ct2) mod q) as Es.
  { destruct H1 as (_ & _ & ?), H2 as (_ & _ & ?). by apply nm_sub. }
  split.
  - apply (mk_combine Z.add (ModAddEqV W) s k n ct1 ct2 (ModAddFastEq W (mk_b ct1) (mk_b ct2) q) (mk_p ct1));
      try done; try (intros; ring); rewrite ?Ea; [|intros; apply sumZ_add|apply (nm_mod (w := W))|apply eqm_mod].
    intros x y (Ex & Lx & Fx) (Ey & Ly & Fy). apply (ModAddEqV_ok (w := W)); try done. lia.
  - apply (mk_combine Z.sub (ModSubEqV W) s k n ct1 ct2 (ModSubFastEq W (mk_b ct1) (mk_b ct2) q) (mk_p ct1));
      try done; try (intros; ring); rewrite ?Es; [|intros; apply sumZ_sub|apply (nm_mod (w := W))|apply eqm_mod].
    intros x y (Ex & Lx & Fx) (Ey & Ly & Fy). apply (ModSubEqV_ok (w := W)); try done. lia.
Qed.
End MKOps.

(** A multi-key switching key is one valid key per user. *)
Definition mk_ksk_valid (q : Z) (base d k n N : nat) (s sN : list (list Z)) (K : MKLWESwitchingKey)
    (e : nat -> nat -> nat -> nat -> Z) : Prop :=
  length (mks_A K) = k /\ length (mks_B K) = k /\ length s = k /\ length sN = k /\
  forall u, (u < k)%nat -> length (s !!! u) = n /\ length (sN !!! u) = N /\
    ksk_valid q base d (s !!! u) (sN !!! u) (LWESk (mks_A K !!! u) (mks_B K !!! u)) (e u).

Section MKKeySwitching.
Context {q : Z} {Hq : NativeModulus W q}.

Lemma MKKeySwitch_spec ps base s sN K e ct :
  let k := mk_k ps in let n := mk_n ps in let N := mk_N ps in
  let B := Z.of_nat base in let d := digit_count B q in
  mk_qKS ps = q -> mk_baseKS ps = B -> (1 < base)%nat -> mk_ksk_valid q base d k n N s sN K e -> wf_mkct q k N ct ->
  returns (MKKeySwitch ps K ct) (fun ct' => wf_mkct q k n ct' /\
    mk_phase s ct' ≡[q] mk_phase sN ct -
      sumZ k (fun u => sumZ N (fun i => ks_noise base d (e u) i (mk_a ct !!! u).[i]))).
Proof using Hq.
  intros k n N B d EQ Eb Hb (LA & LB & Ls & LsN & HK) (La & Ha & Hbr).
  unfold MKKeySwitch. rewrite EQ, Eb. fold k n N B d.
  set (F := fun u => sumZ N (fun i => ks_noise base d (e u) i (mk_a ct !!! u).[i] + (sN !!! u) !!! i * (mk_a ct !!! u).[i])).
  eapply returns_bind.
  { apply (returns_for (fun u ab => length ab.1 = k /\ (forall v, (v < u)%nat -> wf_mask q n (ab.1 !!! v)) /\ reduced q ab.2 /\
      ab.2 - sumZ u (fun v => sumZ n (fun i => (ab.1 !!! v).[i] * (s !!! v) !!! i)) ≡[q] mk_b ct - sumZ u F)).
    - cbn [fst snd]. split; [by rewrite repeat_length|]. split; [intros; lia|]. split; [done|]. apply eqm_refl. cbn [sumZ]. lia.
    - intros u [al b] Hu (Lal & Hal & Hb' & Hph). cbn [fst snd] in *. destruct (HK u Hu) as (Lsu & LsNu & HKu).
      rewrite (vget_total (mks_A K)), bind_ok, (vget_total (mks_B K)), bind_ok, (vget_total (mk_a ct)), bind_ok by lia.
      eapply returns_bind.
      { rewrite <- Lsu, <- LsNu. apply (ks_loop_spec base d _ _ _ _ Hb HKu (mk_a ct !!! u) b); [done| |done]. rewrite LsNu. by apply Ha. }
      intros [a b'] (Laa & Faa & Hb'' & Hp). cbn [fst snd] in *. rewrite vset_lt, bind_ok by lia. apply returns_ok. cbn [fst snd].
      rewrite length_insert. split; [done|]. split; [|split; [done|]].
      + intros v Hv. destruct (decide (v = u)) as [->|].
        * rewrite list_lookup_total_insert_eq by lia. split; [done|]. split; [by rewrite <- Lsu|done].
        * rewrite list_lookup_total_insert_ne by done. apply Hal. lia.
      + cbn [sumZ]. rewrite list_lookup_total_insert_eq by lia. cbn [data].
        rewrite (sumZ_ext u _ (fun v => sumZ n (fun i => (al !!! v).[i] * (s !!! v) !!! i)))
          by (intros v Hv; by rewrite list_lookup_total_insert_ne by lia).
        rewrite Lsu, LsNu in Hp. fold (F u) in Hp. set (S1 := sumZ u (fun v => _)) in *. set (S2 := sumZ n _) in *.
        transitivity (b' - S2 - S1); [apply eqm_refl; ring|]. rewrite Hp.
        transitivity (b - S1 - F u); [apply eqm_refl; unfold F; ring|]. rewrite Hph. apply eqm_refl. ring. }
  intros [al b] (Lal & Hal & Hbb & Hph). cbn [fst snd] in *. apply returns_ok.
  split; [by split|]. rewrite (mk_phase_ext k n) by (done || intros u Hu; by apply HK).
  rewrite (mk_phase_ext k N) by (done || intros u Hu; by apply HK). cbn [mk_a mk_b new_MKLWECiphertext]. rewrite Hph.
  apply eqm_refl. unfold F. rewrite (sumZ_ext k _ (fun u => sumZ N (fun i => ks_noise base d (e u) i (mk_a ct !!! u).[i]) +
    sumZ N (fun i => (mk_a ct !!! u).[i] * (sN !!! u) !!! i))).
  - rewrite sumZ_add. ring.
  - intros u Hu. rewrite <- sumZ_add. apply sumZ_ext. intros. ring.
Qed.

Lemma MKKeySwitchGen_spec ps sk skN gaussA err base :
  let k := mk_k ps in let n := mk_n ps in let N := mk_N ps in
  mk_qKS ps = q -> mk_baseKS ps = Z.of_nat base -> (1 < base)%nat -> wf_mkkey k n sk -> wf_mkkey k N skN ->
  (forall u i j c, wf_mask q n (gaussA u i j c)) -> (forall u i j c, reduced q (err u i j c)) ->
  (Z.of_nat n + 2) * q < 2 ^ 64 -> Z.of_nat base * q <= 2 ^ 64 ->
  returns (MKKeySwitchGen ps sk skN gaussA err) (fun K =>
    mk_ksk_valid q base (digit_count (Z.of_nat base) q) k n N (mk_ints sk) (mk_ints skN) K err).
Proof using Hq.
  intros k n N EQ Eb Hb Hsk HskN HA Herr Hf1 Hf2. unfold MKKeySwitchGen. rewrite EQ, Eb. fold k n N.
  set (d := digit_count (Z.of_nat base) q).
  eapply returns_bind.
  { apply (tabulateM_returns k _ (fun u B => ksk_valid q base d (key_ints (sk !!! u)) (key_ints (skN !!! u))
      (LWESk (ksg_masks N (Z.of_nat base) d (gaussA u)) B) (err u))).
    intros u Hu. destruct Hsk as [Lsk Hsk], HskN as [LskN HskN].
    destruct (Hsk u Hu) as [W1 L1], (HskN u Hu) as [W2 L2].
    rewrite (vget_total sk), bind_ok, Switch_sk, bind_ok, (vget_total skN), bind_ok, Switch_sk, bind_ok, nm_mu, bind_ok by (done || lia).
    by apply ksg_bodies_spec. }
  intros B [LB HB]. apply returns_ok. cbn beta in *. unfold mk_ksk_valid; cbn [mks_A mks_B].
  rewrite length_tab, !length_mk_ints. split; [done|]. split; [done|]. split; [apply Hsk|]. split; [apply HskN|].
  intros u Hu. rewrite lookup_total_tab by done.
  destruct (mk_ints_at k n sk u Hsk Hu) as [E1 L1], (mk_ints_at k N skN u HskN Hu) as [E2 L2].
  rewrite L1, L2. split; [done|]. split; [done|]. rewrite E1, E2. by apply HB.
Qed.
End MKKeySwitching.
