(* ===== verification/MkLweProps.v ===== *)
(** * Properties of the multi-key LWE scheme *)

From Stdlib Require Import ZArith Lia String.
From stdpp Require Import base tactics numbers list strings.
From S2P Require Import Prelude Double NativeInt NativeIntFacts ModArith NativeVec SchemeCore Lwe MkLwe.

(** Checks by evaluation, for the witnesses. *)
Lemma forall_below (P : nat -> Prop) (f : nat -> bool) k :
  (forall u, f u = true -> P u) -> forallb f (seq 0 k) = true -> forall u, (u < k)%nat -> P u.
Proof.
  intros H Hf u Hu. apply H. rewrite forallb_forall in Hf. apply Hf. apply in_seq. lia.
Qed.

Definition mask_ok (q : Z) (n : nat) (a : NativeVector) : bool :=
  (modulus a =? q) && (length (data a) =? n)%nat && forallb (fun v => (0 <=? v) && (v <? q)) (data a).

Lemma mask_ok_spec q n a : mask_ok q n a = true -> wf_mask q n a.
Proof.
  unfold mask_ok. intros H. apply andb_prop in H as [H Hf]. apply andb_prop in H as [H1 H2]. apply Nat.eqb_eq in H2.
  split; [lia|]. split; [done|]. apply Forall_forall. intros v Hv. rewrite forallb_forall in Hf.
  apply list_elem_of_In in Hv. specialize (Hf v Hv). unfold reduced. lia.
Qed.

Lemma mkkey_check q k n sk :
  NativeModulus W q -> (length sk =? k)%nat && forallb (mask_ok q n) sk = true -> wf_mkkey k n sk.
Proof.
  intros Hq H. apply andb_prop in H as [Hl Hf]. apply Nat.eqb_eq in Hl. split; [done|]. intros u Hu.
  rewrite forallb_forall in Hf. assert (sk !!! u ∈ sk) as Hin by (apply list_elem_of_lookup_total_2; lia).
  apply list_elem_of_In in Hin. destruct (mask_ok_spec q n _ (Hf _ Hin)) as (E & L & F).
  split; [|done]. split; rewrite E; done.
Qed.

(** C25: multi-key encryption and decryption.  The joint key of [k] users
    decrypts what [Encrypt] produced, whatever the users' masks, whenever the
    drawn error is small for the modulus; the accumulator that is reduced only
    at the end does not overflow as long as [(k * n + 2) * q] fits 64 bits. *)
Theorem MK_Encrypt_Decrypt_correct (q : Z) (ps : MKLWECryptoParams) (sk : list NativeVector) (m p err : Z)
    (a : list NativeVector) :
  let k := mk_k ps in let n := mk_n ps in
  NativeModulus W q -> (0 < k)%nat -> wf_mkkey k n sk -> length a = k ->
  (forall u, (u < k)%nat -> wf_mask q n (a !!! u)) -> reduced q err -> 0 < p ->
  (Z.of_nat (k * n) + 2) * q < 2 ^ 64 -> p * q <= 2 ^ 64 -> 2 * p * (Z.abs (centred q err) + p) < q ->
  returns (MKEncrypt ps sk m p q err a) (fun ct =>
    mk_a ct = a /\ mk_p ct = p /\ wf_mkct q k n ct /\ MKDecrypt ps sk ct p = Ok (m mod 2 ^ 64 mod p)).
Proof.
  intros k n Hq Hk Hsk La Ha He Hp Hfit Hpq Hnoise. pose proof (two_q (q := q)).
  eapply returns_mono; [apply MKEncrypt_spec; try done; nia|].
  intros ct (Hct & Ea & Ep & Hph). split; [done|]. split; [done|]. split; [done|].
  assert (Z.of_nat n <= Z.of_nat (k * n)) by nia.
  destruct (MKDecrypt_spec ps sk ct p Hk Hsk Hct) as [-> _]; [fold n; nia|done|done|]. f_equal.
  apply round_phase_correct with (e := centred q err); [done|apply Z.mod_pos_bound; lia|lia| |done].
  by rewrite Hph, centred_eqm.
Qed.

Lemma MK_Encrypt_Decrypt_correct_witness :
  returns (MKEncrypt (MKLWEParams 2 2 4 512 512 512 32) [NVec 512 [1; 511]; NVec 512 [0; 1]] 2 4 512 509 [NVec 512 [5; 6]; NVec 512 [500; 1]])
    (fun ct => MKDecrypt (MKLWEParams 2 2 4 512 512 512 32) [NVec 512 [1; 511]; NVec 512 [0; 1]] ct 4 = Ok 2).
Proof.
  assert (NativeModulus W 512) as Hq by (apply native_modulus_bits; unfold W; lia).
  eapply returns_mono.
  - apply (MK_Encrypt_Decrypt_correct 512 (MKLWEParams 2 2 4 512 512 512 32) [NVec 512 [1; 511]; NVec 512 [0; 1]] 2 4 509
      [NVec 512 [5; 6]; NVec 512 [500; 1]]); try done; try (cbn; lia).
    + by apply (mkkey_check 512).
    + apply (forall_below _ (fun u => mask_ok 512 2 ([NVec 512 [5; 6]; NVec 512 [500; 1]] !!! u))); [|done].
      intros u. apply mask_ok_spec.
  - intros ct (_ & _ & _ & H). exact H.
Defined.

(** The output of a NAND gate.  [DecryptNAND] returns the plaintext of any
    ciphertext whose phase encodes it modulo half of [p] with a small noise. *)
Theorem MK_DecryptNAND_correct (q : Z) (ps : MKLWECryptoParams) (sk : list NativeVector) (ct : MKLWECiphertext) (m p e : Z) :
  let k := mk_k ps in let n := mk_n ps in
  NativeModulus W q -> (0 < k)%nat -> wf_mkkey k n sk -> wf_mkct q k n ct -> (Z.of_nat n + 1) * q < 2 ^ 64 ->
  2 <= p -> Z.even p = true -> p * q <= 2 ^ 64 -> 0 <= m < p / 2 ->
  mk_phase (mk_ints sk) ct ≡[q] m * (q / (p / 2)) + e -> p * (Z.abs e + p / 2) < q ->
  MKDecryptNAND ps sk ct p = Ok m.
Proof.
  intros k n Hq Hk Hsk Hct Hfit Hp Hev Hpq Hm Hph He. pose proof (two_q (q := q)).
  assert (p = p / 2 * 2) as E.
  { pose proof (Z.div_mod p 2 ltac:(lia)). rewrite Zmod_even, Hev in *. lia. }
  destruct (MKDecrypt_spec ps sk ct p Hk Hsk Hct Hfit ltac:(lia) Hpq) as [_ ->]; [|done]. f_equal.
  rewrite E at 2. apply round_phase_correct with (e := e); try done; try lia.
Qed.

Lemma MK_DecryptNAND_correct_witness :
  MKDecryptNAND (MKLWEParams 2 1 4 512 512 512 32) [NVec 512 [1]; NVec 512 [511]] (MKCt [NVec 512 [7]; NVec 512 [9]] 260 4) 4 = Ok 1.
Proof.
  assert (NativeModulus W 512) as Hq by (apply native_modulus_bits; unfold W; lia).
  apply (MK_DecryptNAND_correct 512 (MKLWEParams 2 1 4 512 512 512 32) [NVec 512 [1]; NVec 512 [511]]
    (MKCt [NVec 512 [7]; NVec 512 [9]] 260 4) 1 4 6); try done; try (cbn; lia).
  - by apply (mkkey_check 512).
  - split; [done|]. split; [|cbn; unfold reduced; lia].
    apply (forall_below _ (fun u => mask_ok 512 1 ([NVec 512 [7]; NVec 512 [9]] !!! u))); [|done].
    intros u. apply mask_ok_spec.
Defined.

(** C27: multi-key key switching.  With the keys that [KeySwitchGen] makes, the
    phase under the users' small keys is the phase under their large keys
    minus one drawn error per user and digit. *)
Theorem MK_KeySwitch_correct (ps : MKLWECryptoParams) (sk skN : list NativeVector)
    (gaussA : nat -> nat -> nat -> nat -> NativeVector) (err : nat -> nat -> nat -> nat -> Z) (base : nat) (ct : MKLWECiphertext) :
  let q := mk_qKS ps in let k := mk_k ps in let n := mk_n ps in let N := mk_N ps in
  let d := digit_count (Z.of_nat base) q in
  NativeModulus W q -> mk_baseKS ps = Z.of_nat base -> (1 < base)%nat -> wf_mkkey k n sk -> wf_mkkey k N skN ->
  (forall u i j c, wf_mask q n (gaussA u i j c)) -> (forall u i j c, reduced q (err u i j c)) ->
  (Z.of_nat n + 2) * q < 2 ^ 64 -> Z.of_nat base * q <= 2 ^ 64 -> wf_mkct q k N ct ->
  returns (K ← MKKeySwitchGen ps sk skN gaussA err; MKKeySwitch ps K ct) (fun ct' =>
    wf_mkct q k n ct' /\
    mk_phase (mk_ints sk) ct' ≡[q] mk_phase (mk_ints skN) ct -
      sumZ k (fun u => sumZ N (fun i => sumZ d (fun j =>
        err u i (Z.to_nat (digit (Z.of_nat base) (mk_a ct !!! u).[i] j)) j)))).
Proof.
  intros q k n N d Hq Eb Hb Hsk HskN HA Herr Hf1 Hf2 Hct.
  eapply returns_bind; [by apply (MKKeySwitchGen_spec (q := q) ps sk skN gaussA err base)|]. intros K HK.
  by apply (MKKeySwitch_spec ps base).
Qed.

Lemma MK_KeySwitch_correct_witness :
  returns (K ← MKKeySwitchGen (MKLWEParams 2 1 2 512 134215681 4096 32) [NVec 4096 [1]; NVec 4096 [4095]]
             [NVec 134215681 [0; 1]; NVec 134215681 [134215680; 1]] (fun u i j c => NVec 4096 [5]) (fun u i j c => 2);
           MKKeySwitch (MKLWEParams 2 1 2 512 134215681 4096 32) K (MKCt [NVec 4096 [4095; 33]; NVec 4096 [7; 1000]] 5 4))
    (fun ct' => wf_mkct 4096 2 1 ct' /\
       mk_phase [[1]; [-1]] ct' ≡[4096] mk_phase [[0; 1]; [-1; 1]] (MKCt [NVec 4096 [4095; 33]; NVec 4096 [7; 1000]] 5 4) - 24).
Proof.
  assert (NativeModulus W 4096) as Hq by (apply native_modulus_bits; unfold W; lia).
  assert (NativeModulus W 134215681) as HQ by (apply native_modulus_bits; unfold W; lia).
  eapply returns_mono; [apply (MK_KeySwitch_correct (MKLWEParams 2 1 2 512 134215681 4096 32) [NVec 4096 [1]; NVec 4096 [4095]]
    [NVec 134215681 [0; 1]; NVec 134215681 [134215680; 1]] (fun u i j c => NVec 4096 [5]) (fun u i j c => 2) 32
    (MKCt [NVec 4096 [4095; 33]; NVec 4096 [7; 1000]] 5 4)); try done; try (cbn; lia)|].
  - by apply (mkkey_check 4096).
  - by apply (mkkey_check 134215681).
  - intros. by apply mask_ok_spec.
  - split; [done|]. split; [|cbn; unfold reduced; lia].
    apply (forall_below _ (fun u => mask_ok 4096 2 ([NVec 4096 [4095; 33]; NVec 4096 [7; 1000]] !!! u))); [|done].
    intros u. apply mask_ok_spec.
  - intros ct' [H1 H2]. split; [exact H1|exact H2].
Defined.

(** Modulus switching and addition of multi-key ciphertexts: the phase is
    scaled with an error of half a unit for [b] and for each unit of the
    1-norm of the joint key; the phases of sums and differences add up. *)
Theorem MK_operations_phase (q Q : Z) (k n : nat) (s : list (list Z)) (ct1 ct2 : MKLWECiphertext) :
  NativeModulus W Q -> 0 < q -> 6 * Q * q + 3 * Q + q < 2 ^ 53 -> (0 < k)%nat ->
  length s = k -> (forall u, (u < k)%nat -> length (s !!! u) = n) -> wf_mkct Q k n ct1 -> wf_mkct Q k n ct2 ->
  returns (MKModSwitch q ct1) (fun ct => wf_mkct q k n ct /\
    exists c, 2 * Z.abs (Q * (mk_phase s ct + c * q) - q * mk_phase s ct1) <= Q * (1 + mk_norm1 s)) /\
  returns (MKEvalAddEq ct1 ct2) (fun ct => wf_mkct Q k n ct /\ mk_phase s ct ≡[Q] mk_phase s ct1 + mk_phase s ct2) /\
  returns (MKEvalSubEq ct1 ct2) (fun ct => wf_mkct Q k n ct /\ mk_phase s ct ≡[Q] mk_phase s ct1 - mk_phase s ct2).
Proof.
  intros HQ Hq Hfit Hk Ls Hs H1 H2. pose proof (two_q (q := Q)).
  split; [apply MKModSwitch_spec; (done || lia)|]. by apply MKEval_spec.
Qed.

Lemma MK_operations_phase_witness :
  returns (MKEvalSubEq (MKCt [NVec 4096 [4095; 33]; NVec 4096 [7; 1000]] 5 4) (MKCt [NVec 4096 [1; 2]; NVec 4096 [3; 4]] 6 4))
    (fun ct => wf_mkct 4096 2 2 ct).
Proof.
  assert (NativeModulus W 4096) as Hq by (apply native_modulus_bits; unfold W; lia).
  eapply returns_mono; [apply (MK_operations_phase 512 4096 2 2 [[1; 0]; [-1; 1]] (MKCt [NVec 4096 [4095; 33]; NVec 4096 [7; 1000]] 5 4)
    (MKCt [NVec 4096 [1; 2]; NVec 4096 [3; 4]] 6 4)); try done; try (cbn; lia)|].
  - intros [|[|u]] Hu; (done || lia).
  - split; [done|]. split; [|cbn; unfold reduced; lia].
    apply (forall_below _ (fun u => mask_ok 4096 2 ([NVec 4096 [4095; 33]; NVec 4096 [7; 1000]] !!! u))); [|done].
    intros u. apply mask_ok_spec.
  - split; [done|]. split; [|cbn; unfold reduced; lia].
    apply (forall_below _ (fun u => mask_ok 4096 2 ([NVec 4096 [1; 2]; NVec 4096 [3; 4]] !!! u))); [|done].
    intros u. apply mask_ok_spec.
  - intros ct [H _]. exact H.
Defined.
