(* ===== verification/MNtru.v ===== *)
(** * The multi-key matrix-NTRU scheme: [MNTRUEncryptionScheme]

    Models [src/binfhe/lib/mntru-pke.cpp] with [mntru-privatekey.h],
    [mntru-ciphertext.h], [mntru-keyswitchkey.h] and
    [mntru-cryptoparameters.h].  The secret key of user [i] is a matrix [F_i]
    with its inverse, a matrix being the list of its rows.  The errors the
    code draws are arguments; the inversion of a matrix modulo [q], which the
    code takes from the NTL library, is the parameter [inv] of the key
    generation. *)

From Stdlib Require Import ZArith Lia String.
From stdpp Require Import base tactics numbers list strings.
From S2P Require Import Prelude Double NativeInt NativeIntFacts ModArith NativeVec SchemeCore Negacyclic Lwe.

Record MNTRUCryptoParams := MNTRUParams {
  n_k : nat; n_n : nat; n_N : nat; n_q : Z; n_Q : Z; n_qKS : Z; n_baseKS : Z
}.
Definition new_MNTRUCryptoParams (k n N : nat) (q Q q_KS baseKS : Z) : res MNTRUCryptoParams :=
  if (k =? 0)%nat then Throw (config_error "m_k (number of users) can not be zero") else
  if (n =? 0)%nat then Throw (config_error "m_n (lattice parameter) can not be zero") else
  if (N =? 0)%nat then Throw (config_error "m_N (ring dimension) can not be zero") else
  if q =? 0 then Throw (config_error "m_q (modulus for additive MNTRU) can not be zero") else
  if Q =? 0 then Throw (config_error "m_Q (modulus for RingGSW/RMNTRU) can not be zero") else
  if q_KS =? 0 then Throw (config_error "q_KS (modulus for key switching) can not be zero") else
  if baseKS =? 0 then Throw (config_error "m_baseKS (the base used for key switching) can not be zero") else
  if MAX_MODULUS_SIZE W <? GetMSB W Q then Throw (config_error "Q.GetMSB() > MAX_MODULUS_SIZE") else
  Ok (MNTRUParams k n N q Q q_KS baseKS).

Abbreviation matrix := (list NativeVector).
Record MNTRUPrivateKey := MNTRUSk { F : list matrix; F_inv : list matrix }.
Record MNTRUCiphertext := MNTRUCt { elements : list NativeVector; ct_pt : Z }.
(** The copy constructor leaves the plaintext modulus at its initial value. *)
Definition copy_MNTRUCiphertext (ct : MNTRUCiphertext) : MNTRUCiphertext := MNTRUCt (elements ct) 4.

(** [m_F[0][0]]: its length and modulus are those of the key. *)
Definition first_row (mats : list matrix) : res NativeVector := m0 ← vget mats 0; vget m0 0.
Definition sk_GetLength (sk : MNTRUPrivateKey) : res nat := r ← first_row (F sk); Ok (length (data r)).

(** Column [index] of every matrix ([GetF_col0], [GetF_inv_coli]). *)
Definition GetCol (mats : list matrix) (index : nat) : res (list NativeVector) :=
  r ← first_row mats;
  tabulateM (length mats) (fun i =>
    d ← tabulateM (length (data r)) (fun j =>
          mi ← vget mats i; row ← vget mi j; vget (data row) index);
    Ok (NVec (modulus r) d)).

Definition GetModulus (ct : MNTRUCiphertext) : res Z := v ← vget (elements ct) 0; Ok (modulus v).
Definition GetLength (ct : MNTRUCiphertext) : res nat := v ← vget (elements ct) 0; Ok (length (data v)).

(** ** Matrices *)

(** The negacyclic matrix of a vector. *)
Definition Get_MatrixA (s : NativeVector) : res matrix :=
  let n := length (data s) in
  let mod_ := modulus s in
  tabulateM n (fun i =>
    d ← tabulateM n (fun j =>
          if (j <? i)%nat
          then x ← vget (data s) (n - i + j); NativeInt.ModSubEq W 0 x mod_
          else vget (data s) (j - i));
    Ok (NVec mod_ d)).

Definition MatrixMultiply (A B : matrix) (mod_ : Z) : res matrix :=
  a0 ← vget A 0;
  b0 ← vget B 0;
  let numColsA := length (data a0) in
  let numColsB := length (data b0) in
  if negb (numColsA =? length B)%nat then Throw (process_exit 1) else
  tabulateM (length A) (fun i =>
    d ← tabulateM numColsB (fun j =>
          for_ numColsA (fun k acc =>
            ra ← vget A i; x ← vget (data ra) k;
            rb ← vget B k; y ← vget (data rb) j;
            temp ← ModMul_ W x y mod_;
            NativeInt.ModAddEq W acc temp mod_) 0);
    Ok (NVec mod_ d)).

(** ** Key generation

    A representative modulo [q_base] is lifted to an [int] around zero and
    stored again modulo [q_base]. *)
Definition to_int32 (x : Z) : Z := (x + 2 ^ 31) mod 2 ^ 32 - 2 ^ 31.

Definition lift_entry (q_base x : Z) : Z :=
  let half_q_base := q_base / 2 in
  let tmp_coef := x mod 2 ^ 32 in
  let tmp_coef := if half_q_base <? tmp_coef then (tmp_coef - q_base) mod 2 ^ 32 else tmp_coef in
  let v := to_int32 tmp_coef in
  if v <? 0 then wrap W (q_base - wrap W (- v)) else wrap W v.

Section KeyGen.
(** NTL's [inv] for matrices over [Z_q]: fails on a singular matrix. *)
Context (inv : Z -> list (list Z) -> option (list (list Z))).

(** [candidates] are the matrices the sampling loop draws. *)
Fixpoint Get_invertible_Matrix (modulus_ q_base : Z) (candidates : list (list (list Z))) : res (matrix * matrix) :=
  match candidates with
  | [] => Throw out_of_fuel
  | mat :: rest =>
    let mat := map (map (fun x => x mod q_base)) mat in
    match inv q_base mat with
    | None => Get_invertible_Matrix modulus_ q_base rest
    | Some mat_inv =>
      Ok (map (fun row => NVec modulus_ (map (lift_entry q_base) row)) mat,
          map (fun row => NVec modulus_ (map (lift_entry q_base) row)) mat_inv)
    end
  end.

Definition KeyGen (k : nat) (modulus_ : Z) (candidates : nat -> list (list (list Z))) : res MNTRUPrivateKey :=
  let Q := modulus_ mod 2 ^ 32 in
  l ← tabulateM k (fun i => Get_invertible_Matrix modulus_ Q (candidates i));
  Ok (MNTRUSk (map fst l) (map snd l)).
End KeyGen.

(** ** Encryption and decryption *)

(** [e[0].ModAddFastEq(enc, mod)]. *)
Definition add_first (enc mod_ : Z) (ei : NativeVector) : res NativeVector :=
  e0 ← vget (data ei) 0;
  d ← vset (data ei) 0 (ModAddFastEq W e0 enc mod_);
  Ok (with_data ei d).

(** [c_ij = <e_i, F_i^-1[.][j]>]. *)
Definition inverse_row (sk : MNTRUPrivateKey) (mod_ : Z) (n i : nat) (ei : NativeVector) : res NativeVector :=
  d ← tabulateM n (fun j =>
        cols ← GetCol (F_inv sk) j;
        col ← vget cols i;
        col ← SwitchModulus W col mod_;
        temp ← ModMulV W ei col;
        sum_loop mod_ temp n);
  Ok (NVec mod_ d).

Definition Encrypt (sk : MNTRUPrivateKey) (m p mod_ : Z) (e : list NativeVector) : res MNTRUCiphertext :=
  _ ← divides_guard p mod_;
  n ← sk_GetLength sk;
  let k := length (F sk) in
  c ← tabulateM k (fun i =>
    ei ← vget e i;
    ei ← (if (i =? 0)%nat then enc ← encode m p mod_; add_first enc mod_ ei else Ok ei);
    inverse_row sk mod_ n i ei);
  Ok (MNTRUCt c p).

(** [sum_i <c_i, F_i[.][0]>]. *)
Definition Decrypt_inner (sk : MNTRUPrivateKey) (ct : MNTRUCiphertext) (mod_ : Z) : res Z :=
  cols ← GetCol (F sk) 0;
  n ← sk_GetLength sk;
  for_ (length (F sk)) (fun i inner =>
    col ← vget cols i;
    col ← SwitchModulus W col mod_;
    ci ← vget (elements ct) i;
    temp ← ModMulV W ci col;
    sum ← sum_loop mod_ temp n;
    NativeInt.ModAddEq W inner sum mod_) 0.

Definition Decrypt2 (sk : MNTRUPrivateKey) (ct : MNTRUCiphertext) (p : Z) : res Z :=
  mod_ ← GetModulus ct;
  _ ← divides_guard (wrap W (p * 2)) mod_;
  inner ← Decrypt_inner sk ct mod_;
  decode p (wrap W (p * 2)) mod_ inner.

Definition DecryptNAND (sk : MNTRUPrivateKey) (ct : MNTRUCiphertext) (p : Z) : res Z :=
  mod_ ← GetModulus ct;
  _ ← divides_guard (wrap W (p / 2 * 2)) mod_;
  inner ← Decrypt_inner sk ct mod_;
  decode (p / 2) (wrap W (p / 2 * 2)) mod_ inner.

(** For bootstrapped ciphertexts, whose phase is lower by [q / (2 p)]. *)
Definition Decrypt (sk : MNTRUPrivateKey) (ct : MNTRUCiphertext) (p : Z) : res Z :=
  mod_ ← GetModulus ct;
  _ ← divides_guard (wrap W (p * 2)) mod_;
  inner ← Decrypt_inner sk ct mod_;
  decode p p mod_ inner.

(** ** Modulus switching and addition *)
Definition ModSwitch (q : Z) (ctQ : MNTRUCiphertext) : res MNTRUCiphertext :=
  n ← GetLength ctQ;
  Q ← GetModulus ctQ;
  c ← tabulateM (length (elements ctQ)) (fun i =>
        ci ← vget (elements ctQ) i;
        d ← tabulateM n (fun j => v ← vget (data ci) j; RoundqQ v q Q);
        Ok (NVec q d));
  Ok (MNTRUCt c 4).

Definition EvalAddEq (ct1 ct2 : MNTRUCiphertext) : res MNTRUCiphertext :=
  c ← tabulateM (length (elements ct1)) (fun i =>
        x ← vget (elements ct1) i; y ← vget (elements ct2) i; ModAddEqV W x y);
  Ok (MNTRUCt c (ct_pt ct1)).
Definition EvalSubEq (ct1 ct2 : MNTRUCiphertext) : res MNTRUCiphertext :=
  c ← tabulateM (length (elements ct1)) (fun i =>
        x ← vget (elements ct1) i; y ← vget (elements ct2) i; ModSubEqV W x y);
  Ok (MNTRUCt c (ct_pt ct1)).

(** ** Key switching

    The arithmetic of the generation is in [long]: signed 64-bit integers,
    whose overflow is undefined. *)
Definition long_add (x y : Z) : res Z := sck 64 (x + y).
Definition long_mul (x y : Z) : res Z := sck 64 (x * y).

(** [temp > qKS_long / 2 ? temp - qKS_long : temp]. *)
Definition centre (q x : Z) : Z := if Z.quot q 2 <? x then x - q else x.

(** The rows of the gadget matrix plus error: row [i * digitCount + j] is the
    drawn error with [s_i * baseKS^j] added to its first entry, the power
    being accumulated in a word.  All rows start from the same drawn vector. *)
Definition gadget_rows (N d : nat) (qKS baseKS : Z) (s e : NativeVector) : res (list (list Z)) :=
  l ← tabulateM N (fun i =>
        si ← vget (data s) i;
        coef_w_pwr ← (if (i =? 0)%nat then Ok si else NativeInt.ModAddEq W 0 si qKS);
        mapM (fun c =>
          e0 ← vget (data e) 0;
          x ← NativeInt.ModAddEq W e0 c qKS;
          vset (data e) 0 x) (powers_loop baseKS d coef_w_pwr));
  Ok (concat l).

(** One row times the inverse matrix.  The inner loop is unrolled by blocks of
    four columns, with a loop for the remaining columns. *)
Definition mac (qKS : Z) (coef : Z) (f_row : list Z) (k_row : list Z) (j : nat) : res (list Z) :=
  f ← vget f_row j;
  let fj := centre qKS f in
  k ← vget k_row j;
  t ← long_mul coef fj;
  v ← long_add k t;
  vset k_row j v.
Definition mac4 (qKS : Z) (coef : Z) (f_row : list Z) (k_row : list Z) (j : nat) : res (list Z) :=
  f ← vget f_row j; f1 ← vget f_row (j + 1); f2 ← vget f_row (j + 2); f3 ← vget f_row (j + 3);
  let fj := centre qKS f in
  let fj1 := centre qKS f1 in
  let fj2 := centre qKS f2 in
  let fj3 := centre qKS f3 in
  k ← vget k_row j; t ← long_mul coef fj; v ← long_add k t; k_row ← vset k_row j v;
  k ← vget k_row (j + 1); t ← long_mul coef fj1; v ← long_add k t; k_row ← vset k_row (j + 1) v;
  k ← vget k_row (j + 2); t ← long_mul coef fj2; v ← long_add k t; k_row ← vset k_row (j + 2) v;
  k ← vget k_row (j + 3); t ← long_mul coef fj3; v ← long_add k t; vset k_row (j + 3) v.

Definition row_product (n : nat) (qKS : Z) (sk_inv : matrix) (g_row : list Z) : res (list Z) :=
  let block := 4%nat in
  let nblocks := (n / block)%nat in
  let blocks := (nblocks * block)%nat in
  let rem_block := (n mod block)%nat in
  for_ n (fun l k_row =>
    f_row ← vget sk_inv l;
    coef ← vget g_row l;
    k_row ← for_ nblocks (fun b k_row => mac4 qKS coef (data f_row) k_row (b * block)) k_row;
    for_ rem_block (fun j k_row => mac qKS coef (data f_row) k_row (blocks + j)) k_row) (repeat 0 n).

(** [int32_t coef = input[i] % q; if (coef < 0) coef += q; output[i] = coef]. *)
Definition mod_q_entry (q x : Z) : res Z :=
  r ← srem x q;
  let coef := to_int32 r in
  let coef := if coef <? 0 then to_int32 (coef + q) else coef in
  Ok (wrap W coef).
Definition mod_q (input : list Z) (q : Z) : res (list Z) := mapM (mod_q_entry q) input.

(** The switching key of user [u]. *)
Definition ksk_user (ps : MNTRUCryptoParams) (d : nat) (sk : MNTRUPrivateKey) (skN e : NativeVector) (u : nat) : res matrix :=
  let n := n_n ps in
  let N := n_N ps in
  let qKS := n_qKS ps in
  s ← SwitchModulus W skN qKS;
  E ← gadget_rows N d qKS (n_baseKS ps) s e;
  E_long ← mapM (fun row => mapM (fun x => Ok (centre qKS x)) row) E;
  sk_inv ← vget (F_inv sk) u;
  mapM (fun g_row =>
    row ← row_product n qKS sk_inv g_row;
    row ← mod_q row qKS;
    Ok (NVec qKS row)) E_long.

Definition KeySwitchGen (ps : MNTRUCryptoParams) (sk : MNTRUPrivateKey) (skN : list NativeVector) (E : nat -> NativeVector) :
    res (list matrix) :=
  let digitCount := digit_count (n_baseKS ps) (n_qKS ps) in
  tabulateM (n_k ps) (fun u => s ← vget skN u; ksk_user ps digitCount sk s (E u) u).

(** The second kind of key stores all the multiples [j * KSK], [j < baseKS]. *)
Definition KeySwitchGen2 (ps : MNTRUCryptoParams) (sk : MNTRUPrivateKey) (skN : list NativeVector) (E : nat -> NativeVector) :
    res (list (list matrix)) :=
  let digitCount := digit_count (n_baseKS ps) (n_qKS ps) in
  let qKS := n_qKS ps in
  tabulateM (n_k ps) (fun u =>
    s ← vget skN u;
    KSKu ← ksk_user ps digitCount sk s (E u) u;
    tabulateM (Z.to_nat (n_baseKS ps)) (fun j =>
      mapM (fun row =>
        r ← mapM (fun x => ModMul_ W x (Z.of_nat j) qKS) (data row);
        Ok (NVec qKS r)) KSKu)).

(** The digits of the coefficients of one element. *)
Definition digits_of (N d : nat) (baseKS : Z) (v : NativeVector) : res (list Z) :=
  l ← tabulateM N (fun i =>
        ctmp ← vget (data v) i;
        ds ← for_ d (fun j st =>
               c0 ← umod st.2 baseKS;
               ctmp ← udiv st.2 baseKS;
               Ok (st.1 ++ [c0], ctmp)) ([], ctmp);
        Ok ds.1);
  Ok (concat l).

(** Column [index] of a switching key ([GetElements_coli]). *)
Definition GetElements_coli (key : list matrix) (index : nat) : res (list NativeVector) :=
  k0 ← vget key 0;
  r0 ← vget k0 0;
  tabulateM (length key) (fun i =>
    d ← tabulateM (length k0) (fun j => m ← vget key i; row ← vget m j; vget (data row) index);
    Ok (NVec (modulus r0) d)).

Definition KeySwitch (ps : MNTRUCryptoParams) (KSK : list matrix) (ctQN : MNTRUCiphertext) : res MNTRUCiphertext :=
  let n := n_n ps in
  let N := n_N ps in
  let Q := n_qKS ps in
  let digitCount := digit_count (n_baseKS ps) Q in
  c ← tabulateM (n_k ps) (fun u =>
    v ← vget (elements ctQN) u;
    hat ← digits_of N digitCount (n_baseKS ps) v;
    d ← tabulateM n (fun i =>
          cols ← GetElements_coli KSK i;
          col ← vget cols u;
          temp ← ModMulV W (NVec Q hat) col;
          sum_loop Q temp (length (data temp)));
    Ok (NVec Q d));
  Ok (MNTRUCt c 4).

Definition KeySwitch2 (ps : MNTRUCryptoParams) (KSK : list (list matrix)) (ctQN : MNTRUCiphertext) : res MNTRUCiphertext :=
  let n := n_n ps in
  let N := n_N ps in
  let Q := n_qKS ps in
  let digitCount := digit_count (n_baseKS ps) Q in
  c ← tabulateM (n_k ps) (fun u =>
    v ← vget (elements ctQN) u;
    hat ← digits_of N digitCount (n_baseKS ps) v;
    ksku ← vget KSK u;
    d ← for_ (N * digitCount) (fun l c =>
          h ← vget hat l;
          let index := Z.to_nat (h mod 2 ^ 32) in
          if (index =? 0)%nat then Ok c else
          tab ← vget ksku index;
          row ← vget tab l;
          update_loop (fun x y => ModAddFastEq W x y Q) n c (data row)) (repeat 0 n);
    Ok (NVec Q d));
  Ok (MNTRUCt c 4).

(** A small execution: keys [F = [[1, 1], [0, 1]]], one user. *)
Example NTRU_Encrypt_Decrypt :
  let sk := MNTRUSk [[NVec 512 [1; 1]; NVec 512 [0; 1]]] [[NVec 512 [1; 511]; NVec 512 [0; 1]]] in
  (ct ← Encrypt sk 3 4 512 [NVec 512 [2; 510]]; Decrypt2 sk ct 4) = Ok 3.
Proof. vm_compute. reflexivity. Qed.
Example NTRU_KeySwitch_agree :
  let ps := MNTRUParams 1 2 2 512 4096 1024 32 in
  let sk := MNTRUSk [[NVec 1024 [1; 1]; NVec 1024 [0; 1]]] [[NVec 1024 [1; 1023]; NVec 1024 [0; 1]]] in
  let ct := MNTRUCt [NVec 1024 [1000; 77]] 4 in
  (K ← KeySwitchGen ps sk [NVec 4096 [1; 4095]] (fun _ => NVec 1024 [1; 1023]); KeySwitch ps K ct) =
  (K ← KeySwitchGen2 ps sk [NVec 4096 [1; 4095]] (fun _ => NVec 1024 [1; 1023]); KeySwitch2 ps K ct).
Proof. vm_compute. reflexivity. Qed.

(** ** Specifications *)
Definition entry (mats : list matrix) (i r c : nat) : Z := ((mats !!! i) !!! r).[c].

Definition wf_mat (q : Z) (rows n : nat) (M : matrix) : Prop :=
  length M = rows /\ forall r, (r < rows)%nat -> wf_mask q n (M !!! r).
Definition wf_mats (q : Z) (k rows n : nat) (mats : list matrix) : Prop :=
  length mats = k /\ forall i, (i < k)%nat -> wf_mat q rows n (mats !!! i).

(** The integers a key stands for: the first column of [F_i], and [F_i^-1]. *)
Definition fcol (Qk : Z) (sk : MNTRUPrivateKey) (i l : nat) : Z := centred Qk (entry (F sk) i l 0).
Definition finv (Qk : Z) (sk : MNTRUPrivateKey) (i l j : nat) : Z := centred Qk (entry (F_inv sk) i l j).

(** The phase: [sum_i <c_i, F_i[.][0]>]. *)
Definition n_phase (k n : nat) (f : nat -> nat -> Z) (ct : MNTRUCiphertext) : Z :=
  sumZ k (fun i => sumZ n (fun l => (elements ct !!! i).[l] * f i l)).

Definition wf_nct (q : Z) (k n : nat) (ct : MNTRUCiphertext) : Prop :=
  length (elements ct) = k /\ forall i, (i < k)%nat -> wf_mask q n (elements ct !!! i).

(** A key for [k] users of dimension [n], kept modulo [Qk], whose inverses are
    inverses modulo [q] as far as the first column is concerned. *)
Record wf_nkey (Qk q : Z) (k n : nat) (sk : MNTRUPrivateKey) : Prop := {
  nk_F : wf_mats Qk k n n (F sk);
  nk_Finv : wf_mats Qk k n n (F_inv sk);
  nk_inverse i l : (i < k)%nat -> (l < n)%nat ->
    sumZ n (fun j => finv Qk sk i l j * fcol Qk sk i j) ≡[q] if decide (l = 0%nat) then 1 else 0
}.

(** *** Lemmas on columns and inner products *)
Lemma GetCol_spec Qk k n mats c :
  (0 < k)%nat -> (0 < n)%nat -> wf_mats Qk k n n mats -> (c < n)%nat ->
  GetCol mats c = Ok (map (fun i => NVec Qk (map (fun j => entry mats i j c) (seq 0 n))) (seq 0 k)).
Proof.
  intros Hk Hn [Lk Hm] Hc. unfold GetCol, first_row. rewrite (vget_total mats), bind_ok by lia.
  destruct (Hm 0%nat Hk) as [L0 H0]. rewrite (vget_total (mats !!! 0%nat)), bind_ok by lia.
  destruct (H0 0%nat Hn) as (Em & Lr & _). rewrite Em, Lr, Lk. apply tabulateM_ok. intros i Hi.
  rewrite (tabulateM_ok n _ (fun j => entry mats i j c)); [done|]. intros j Hj.
  destruct (Hm i Hi) as [Li Hrow]. destruct (Hrow j Hj) as (_ & Lj & _).
  rewrite (vget_total mats), bind_ok, (vget_total (mats !!! i)), bind_ok by lia. apply vget_at. lia.
Qed.

Lemma col_wf Qk k n mats i c :
  wf_mats Qk k n n mats -> (i < k)%nat -> (c < n)%nat ->
  wf_mask Qk n (NVec Qk (map (fun j => entry mats i j c) (seq 0 n))).
Proof.
  intros [Lk Hm] Hi Hc. split; [done|]. cbn [data]. rewrite length_tab. split; [done|].
  apply Forall_reduced_total. rewrite length_tab. intros j Hj. rewrite lookup_total_tab by done.
  destruct (Hm i Hi) as [Li Hrow]. destruct (Hrow j Hj) as (_ & Lj & Fj). apply reduced_at; [done|lia].
Qed.

Lemma sk_GetLength_spec Qk k n sk : (0 < k)%nat -> (0 < n)%nat -> wf_mats Qk k n n (F sk) -> sk_GetLength sk = Ok n.
Proof.
  intros Hk Hn [Lk Hm]. unfold sk_GetLength, first_row. rewrite (vget_total (F sk)), bind_ok by lia.
  destruct (Hm 0%nat Hk) as [L0 H0]. rewrite (vget_total (F sk !!! 0%nat)), bind_ok by lia.
  destruct (H0 0%nat Hn) as (_ & -> & _). done.
Qed.

Section Scheme.
Context {q : Z} {Hq : NativeModulus W q}.

Lemma mask_wf_vec Qk n v : NativeModulus W Qk -> wf_mask Qk n v -> wf_vec W v.
Proof using Type. intros HQ (E & L & Fv). split; rewrite E; done. Qed.

(** A product entry by entry followed by the sum of the entries. *)
Lemma product_sum n x y :
  wf_mask q n x -> wf_mask q n y ->
  (temp ← ModMulV W x y; sum_loop q temp n) = Ok (dot n x y mod q).
Proof using Hq.
  intros (Ex & Lx & Fx) (Ey & Ly & Fy). rewrite (ModMulV_ok (w := W)), bind_ok by (done || lia).
  rewrite sum_loop_spec.
  - f_equal. apply sumZ_eqm. intros i Hi. cbn [data]. rewrite vec_op_lookup by lia. apply eqm_mod.
  - cbn [data]. apply zip_with_reduced. intros. apply (nm_mod (w := W)).
  - cbn [data]. rewrite length_zip_with. lia.
Qed.

(** The inner product with a column of a key, brought to modulus [q]. *)
Lemma dot_col Qk n x (f : nat -> Z) :
  NativeModulus W Qk -> wf_mask q n x -> wf_mask Qk n (NVec Qk (map f (seq 0 n))) ->
  exists y, SwitchModulus W (NVec Qk (map f (seq 0 n))) q = Ok y /\ wf_mask q n y /\
    dot n x y ≡[q] sumZ n (fun j => x.[j] * centred Qk (f j)).
Proof using Hq.
  intros HQ Hx Hy. eexists. split; [apply Switch_sk; by apply (mask_wf_vec Qk n)|].
  split.
  - split; [done|]. rewrite length_key_mod. split; [apply Hy|]. apply (key_mod_wf (w := W)).
  - apply sumZ_eqm. intros j Hj. apply eqm_mul; [done|]. unfold key_mod; cbn [data modulus].
    rewrite lookup_total_map by (by rewrite length_tab). rewrite lookup_total_tab by done. apply eqm_mod.
Qed.

(** Encryption: entry [j] of element [i] is [<e_i, F_i^-1[.][j]>], with the
    plaintext added to the first entry of [e_0]. *)
Definition noisy (e : list NativeVector) (enc : Z) (i l : nat) : Z :=
  (e !!! i).[l] + (if decide (i = 0%nat /\ l = 0%nat) then enc else 0).

(** One row: the row of the errors, with [enc] added in front, times the
    inverse matrix. *)
Lemma inverse_row_spec Qk k n sk enc i ei :
  NativeModulus W Qk -> (0 < k)%nat -> (0 < n)%nat -> wf_nkey Qk q k n sk -> reduced q enc -> (i < k)%nat -> wf_mask q n ei ->
  returns (ei ← (if (i =? 0)%nat then add_first enc q ei else Ok ei); inverse_row sk q n i ei) (fun c => wf_mask q n c /\
    forall j, (j < n)%nat -> c.[j] ≡[q] sumZ n (fun l => (ei.[l] + (if decide (i = 0%nat /\ l = 0%nat) then enc else 0)) * finv Qk sk i l j)).
Proof using Hq.
  intros HQ Hk Hn [HF HFi _] Henc Hi (Ee & Lei & Fe).
  assert (exists e', (if (i =? 0)%nat then add_first enc q ei else Ok ei) = Ok e' /\ wf_mask q n e' /\
    forall l, (l < n)%nat -> e'.[l] ≡[q] ei.[l] + (if decide (i = 0%nat /\ l = 0%nat) then enc else 0)) as (e' & -> & He' & Hnoise).
  { destruct (Nat.eqb_spec i 0) as [->|Hi0].
    - unfold add_first. rewrite (vget_at ei), bind_ok, vset_lt, bind_ok by lia. eexists. split; [done|].
      assert (ModAddFastEq W ei.[0] enc q = (ei.[0] + enc) mod q) as ->.
      { apply nm_add; [apply reduced_at; [done|lia]|done]. }
      split; [split; [done|split; [by cbn [data with_data]; rewrite length_insert|]]|].
      + cbn [data with_data]. apply Forall_insert; [done|apply (nm_mod (w := W))].
      + intros l Hl. cbn [data with_data]. destruct (decide (l = 0%nat)) as [->|].
        * rewrite list_lookup_total_insert_eq, decide_True by (done || lia). apply eqm_mod.
        * rewrite list_lookup_total_insert_ne, decide_False by lia. apply eqm_refl. lia.
    - eexists. split; [done|]. split; [done|]. intros l Hl. rewrite decide_False by lia. apply eqm_refl. lia. }
  rewrite bind_ok. unfold inverse_row. eapply returns_bind.
  { apply (tabulateM_returns n _ (fun j r => reduced q r /\
      r ≡[q] sumZ n (fun l => (ei.[l] + (if decide (i = 0%nat /\ l = 0%nat) then enc else 0)) * finv Qk sk i l j))).
    intros j Hj. rewrite (GetCol_spec Qk k n) by done. rewrite bind_ok.
    rewrite (vget_total (map _ _)), bind_ok by (by rewrite length_tab). rewrite lookup_total_tab by done.
    destruct (dot_col Qk n e' (fun l => entry (F_inv sk) i l j) HQ He') as (y & -> & Hy & Hdot).
    { by apply (col_wf Qk k). }
    rewrite bind_ok, (product_sum n e' y He' Hy). apply returns_ok. split; [apply (nm_mod (w := W))|].
    rewrite eqm_mod, Hdot. apply sumZ_eqm. intros l Hl. by rewrite (Hnoise l Hl). }
  intros c [Lc Hc]. apply returns_ok. split.
  - split; [done|]. split; [done|]. apply Forall_reduced_total. intros j Hj. cbn [data] in *. apply Hc. lia.
  - intros j Hj. cbn [data]. by apply Hc.
Qed.

Lemma NTRU_Encrypt_spec Qk k n sk m p e :
  NativeModulus W Qk -> (0 < k)%nat -> (0 < n)%nat -> wf_nkey Qk q k n sk -> 0 < p <= q ->
  length e = k -> (forall i, (i < k)%nat -> wf_mask q n (e !!! i)) ->
  returns (Encrypt sk m p q e) (fun ct => wf_nct q k n ct /\ ct_pt ct = p /\
    forall i j, (i < k)%nat -> (j < n)%nat ->
      (elements ct !!! i).[j] ≡[q] sumZ n (fun l => noisy e (plaintext m p * (q / p)) i l * finv Qk sk i l j)).
Proof using Hq.
  intros HQ Hk Hn Hsk Hp Le He. pose proof (two_q (q := q)) as H2. pose proof (nk_F _ _ _ _ _ Hsk) as HF. unfold Encrypt.
  rewrite divides_guard_dead, bind_ok, (sk_GetLength_spec Qk k n), bind_ok by (done || lia).
  rewrite (proj1 HF). destruct (encode_spec (q := q) m p Hp) as [-> Henc]. fold (plaintext m p) in *.
  eapply returns_bind.
  { apply (tabulateM_returns k _ (fun i c => wf_mask q n c /\ forall j, (j < n)%nat ->
      c.[j] ≡[q] sumZ n (fun l => noisy e (plaintext m p * (q / p)) i l * finv Qk sk i l j))).
    intros i Hi. rewrite (vget_total e), !bind_ok by lia. apply (inverse_row_spec Qk k); try done. by apply He. }
  intros c [Lc Hc]. apply returns_ok. split; [|split; [done|]].
  - split; [done|]. intros i Hi. by apply Hc.
  - intros i j Hi Hj. cbn [elements]. by apply Hc.
Qed.

(** The phase of such rows is the encoded value and the first entries of the
    errors. *)
Lemma noisy_phase Qk k n sk (e : nat -> NativeVector) enc ct : (0 < k)%nat -> (0 < n)%nat -> wf_nkey Qk q k n sk ->
  (forall i j, (i < k)%nat -> (j < n)%nat -> (elements ct !!! i).[j] ≡[q]
     sumZ n (fun l => ((e i).[l] + (if decide (i = 0%nat /\ l = 0%nat) then enc else 0)) * finv Qk sk i l j)) ->
  n_phase k n (fcol Qk sk) ct ≡[q] enc + sumZ k (fun i => (e i).[0]).
Proof using Hq.
  intros Hk Hn Hsk Hc. set (h := fun i l => (e i).[l] + (if decide (i = 0%nat /\ l = 0%nat) then enc else 0)).
  transitivity (sumZ k (fun i => h i 0%nat)).
  - apply sumZ_eqm. intros i Hi.
    rewrite (sumZ_eqm q n _ (fun j => sumZ n (fun l => h i l * (finv Qk sk i l j * fcol Qk sk i j)))).
    + rewrite sumZ_swap. rewrite (sumZ_eqm q n _ (fun l => if decide (l = 0%nat) then h i l else 0)).
      * by rewrite sumZ_delta.
      * intros l Hl. rewrite sumZ_scale, (nk_inverse _ _ _ _ _ Hsk i l Hi Hl). apply eqm_refl.
        destruct (decide (l = 0%nat)); lia.
    + intros j Hj. rewrite (Hc i j Hi Hj). rewrite <- sumZ_scale_r. apply eqm_refl, sumZ_ext. intros; unfold h; ring.
  - apply eqm_refl. unfold h. rewrite sumZ_add. rewrite (sumZ_ext k (fun i => if decide (i = 0%nat /\ 0%nat = 0%nat) then enc else 0)
      (fun i => if decide (i = 0%nat) then enc else 0)).
    + rewrite (sumZ_delta k 0 (fun _ => enc)) by done. ring.
    + intros i _. destruct (decide (i = 0%nat)); [by rewrite decide_True|by rewrite decide_False by lia].
Qed.

(** The phase of a fresh ciphertext is the encoded plaintext and the first
    entries of the drawn errors. *)
Lemma Encrypt_phase Qk k n sk m p e :
  NativeModulus W Qk -> (0 < k)%nat -> (0 < n)%nat -> wf_nkey Qk q k n sk -> 0 < p <= q ->
  length e = k -> (forall i, (i < k)%nat -> wf_mask q n (e !!! i)) ->
  returns (Encrypt sk m p q e) (fun ct => wf_nct q k n ct /\ ct_pt ct = p /\
    n_phase k n (fcol Qk sk) ct ≡[q] plaintext m p * (q / p) + sumZ k (fun i => (e !!! i).[0])).
Proof using Hq.
  intros HQ Hk Hn Hsk Hp Le He. eapply returns_mono; [by apply (NTRU_Encrypt_spec Qk k n)|].
  intros ct (Hct & Ep & Hc). split; [done|]. split; [done|]. by apply (noisy_phase Qk k n sk (fun i => e !!! i)).
Qed.

(** All three decryptions compute the phase and round it. *)
Lemma Decrypt_inner_spec Qk k n sk ct :
  NativeModulus W Qk -> (0 < k)%nat -> (0 < n)%nat -> wf_mats Qk k n n (F sk) -> wf_nct q k n ct ->
  GetModulus ct = Ok q /\ Decrypt_inner sk ct q = Ok (n_phase k n (fcol Qk sk) ct mod q).
Proof using Hq.
  intros HQ Hk Hn HF [Lc Hc]. pose proof (two_q (q := q)) as H2. split.
  { unfold GetModulus. rewrite (vget_total (elements ct)), bind_ok by lia. by rewrite (proj1 (Hc 0%nat Hk)). }
  unfold Decrypt_inner. rewrite (GetCol_spec Qk k n), bind_ok, (sk_GetLength_spec Qk k n), bind_ok, (proj1 HF) by done.
  rewrite (for_sum_mod q k _ (fun i => sumZ n (fun l => (elements ct !!! i).[l] * fcol Qk sk i l))); [done|lia|lia|].
  intros i acc Hi Hacc. rewrite (vget_total (map _ _)), bind_ok by (by rewrite length_tab). rewrite lookup_total_tab by done.
  destruct (dot_col Qk n (elements ct !!! i) (fun l => entry (F sk) i l 0) HQ (Hc i Hi)) as (y & -> & Hy & Hdot).
  { by apply (col_wf Qk k). }
  rewrite bind_ok, (vget_total (elements ct)), bind_ok by lia.
  pose proof (product_sum n (elements ct !!! i) y (Hc i Hi) Hy) as Hps.
  destruct (ModMulV W (elements ct !!! i) y) as [temp|]; [|done]. rewrite bind_ok in Hps |- *. rewrite Hps, bind_ok.
  pose proof (nm_mod (w := W) (m := q) (dot n (elements ct !!! i) y)) as Hr. unfold reduced in Hr.
  unfold NativeInt.ModAddEq. etransitivity; [apply nm_add_any; lia|]. f_equal.
  change (acc + dot n (elements ct !!! i) y mod q ≡[q] acc + sumZ n (fun l => (elements ct !!! i).[l] * fcol Qk sk i l)).
  rewrite eqm_mod. by rewrite Hdot.
Qed.

Lemma NTRU_Decrypt_spec Qk k n sk ct p :
  NativeModulus W Qk -> (0 < k)%nat -> (0 < n)%nat -> wf_mats Qk k n n (F sk) -> wf_nct q k n ct ->
  2 <= p -> p * q <= 2 ^ 64 ->
  let x := n_phase k n (fcol Qk sk) ct in
  Decrypt2 sk ct p = Ok (round_phase p (q / (p * 2)) q x) /\
  Decrypt sk ct p = Ok (round_phase p (q / p) q x) /\
  DecryptNAND sk ct p = Ok (round_phase (p / 2) (q / (p / 2 * 2)) q x).
Proof using Hq.
  intros HQ Hk Hn HF Hct Hp Hpq x. pose proof (two_q (q := q)) as H2.
  destruct (Decrypt_inner_spec Qk k n sk ct HQ Hk Hn HF Hct) as [Em Ei]. fold x in Ei.
  assert (forall p' h, round_phase p' h q (x mod q) = round_phase p' h q x) as Hr.
  { intros p' h. unfold round_phase. do 2 f_equal. apply Zplus_mod_idemp_l. }
  pose proof (Z.mul_div_le p 2 ltac:(lia)). assert (1 <= p / 2) by (apply Z.div_le_lower_bound; lia).
  unfold Decrypt2, Decrypt, DecryptNAND. rewrite Em, !bind_ok. rewrite (mod_W_small (p * 2)) by nia.
  rewrite (mod_W_small (p / 2 * 2)) by nia.
  rewrite !divides_guard_dead, !bind_ok, Ei, !bind_ok by lia.
  rewrite !decode_spec by (nia || apply (nm_mod (w := W))). by rewrite !Hr.
Qed.

(** [Decrypt] adds a whole step before truncating, so it reads a phase that is
    lower than the encoding by the difference to half a step. *)
Lemma Decrypt_offset Qk k n sk ct m p e :
  NativeModulus W Qk -> (0 < k)%nat -> (0 < n)%nat -> wf_mats Qk k n n (F sk) -> wf_nct q k n ct ->
  2 <= p -> p * q <= 2 ^ 64 -> 2 * p * (Z.abs e + p) < q -> 0 <= m < p ->
  n_phase k n (fcol Qk sk) ct ≡[q] m * (q / p) + e - (q / p - q / (p * 2)) -> Decrypt sk ct p = Ok m.
Proof using Hq.
  intros HQk Hk Hn HF Hct Hp Hpq He Hm Hx. pose proof (two_q (q := q)).
  destruct (NTRU_Decrypt_spec Qk k n sk ct p) as (_ & -> & _); try done. f_equal.
  transitivity (round_phase p (q / (p * 2)) q (n_phase k n (fcol Qk sk) ct + (q / p - q / (p * 2)))).
  - unfold round_phase. do 3 f_equal. lia.
  - apply round_phase_correct with (e := e); try lia. rewrite Hx. apply eqm_refl. lia.
Qed.
End Scheme.

(** ** Matrices *)
Section Matrices.
Context {q : Z} {Hq : NativeModulus W q}.

Lemma Get_MatrixA_spec s :
  wf_mask q (length (data s)) s ->
  let n := length (data s) in
  Get_MatrixA s = Ok (map (fun i => NVec q (map (fun j =>
    if (j <? i)%nat then (- s.[n - i + j]) mod q else s.[j - i]) (seq 0 n))) (seq 0 n)).
Proof using Hq.
  intros (Em & _ & Fs) n. pose proof (two_q (q := q)). unfold Get_MatrixA. rewrite Em. fold n.
  apply tabulateM_ok. intros i Hi.
  rewrite (tabulateM_ok n _ (fun j => if (j <? i)%nat then (- s.[n - i + j]) mod q else s.[j - i])); [done|].
  intros j Hj. destruct (Nat.ltb_spec j i).
  - rewrite (vget_at s), bind_ok by (fold n; lia).
    pose proof (reduced_at q s (n - i + j) Fs ltac:(fold n; lia)) as Hr. unfold reduced in Hr.
    rewrite nm_sub_any by lia. by rewrite Z.sub_0_l.
  - apply vget_at. fold n. lia.
Qed.

Lemma MatrixMultiply_spec A B ra ca cb :
  (0 < ra)%nat -> (0 < ca)%nat -> wf_mat q ra ca A -> wf_mat q ca cb B ->
  MatrixMultiply A B q = Ok (map (fun i => NVec q (map (fun j =>
    sumZ ca (fun k => (A !!! i).[k] * (B !!! k).[j]) mod q) (seq 0 cb))) (seq 0 ra)).
Proof using Hq.
  intros Hra Hca [LA HA] [LB HB]. pose proof (two_q (q := q)) as H2. unfold MatrixMultiply.
  rewrite (vget_total A), bind_ok, (vget_total B), bind_ok by lia.
  destruct (HA 0%nat Hra) as (_ & -> & _). destruct (HB 0%nat Hca) as (_ & -> & _).
  rewrite LB, Nat.eqb_refl, LA. cbn [negb]. apply tabulateM_ok. intros i Hi.
  rewrite (tabulateM_ok cb _ (fun j => sumZ ca (fun k => (A !!! i).[k] * (B !!! k).[j]) mod q)); [done|].
  intros j Hj. apply (for_sum_mod q ca _ (fun k => (A !!! i).[k] * (B !!! k).[j]) 0); [lia|lia|].
  intros k acc Hk Hacc. destruct (HA i Hi) as (_ & Lai & Fai). destruct (HB k Hk) as (_ & Lbk & Fbk).
  rewrite (vget_total A), bind_ok, (vget_at (A !!! i)), bind_ok by lia.
  rewrite (vget_total B), bind_ok, (vget_at (B !!! k)), bind_ok by lia.
  pose proof (reduced_at q (A !!! i) k Fai ltac:(lia)) as R1. pose proof (reduced_at q (B !!! k) j Fbk ltac:(lia)) as R2.
  destruct (nm_mul_any (w := W) (m := q) (A !!! i).[k] (B !!! k).[j]) as [-> _];
    [by apply (nm_reduced_word (w := W))|by apply (nm_reduced_word (w := W))|done|].
  rewrite bind_ok. pose proof (nm_mod (w := W) (m := q) ((A !!! i).[k] * (B !!! k).[j])) as Hr. unfold reduced in Hr.
  etransitivity; [apply nm_add_any; lia|]. f_equal.
  change (acc + ((A !!! i).[k] * (B !!! k).[j]) mod q ≡[q] acc + (A !!! i).[k] * (B !!! k).[j]). by rewrite eqm_mod.
Qed.
End Matrices.

(** ** Key generation: lifting around zero and back is the identity *)
Lemma lift_entry_spec q x : 0 < q < 2 ^ 32 -> 0 <= x < q -> lift_entry q x = x.
Proof.
  intros Hq Hx. unfold lift_entry. rewrite (Z.mod_small x (2 ^ 32)) by lia.
  pose proof (Z.div_mod q 2 ltac:(lia)) as E. pose proof (Z.mod_pos_bound q 2 ltac:(lia)).
  change (2 ^ 32) with (2 * 2 ^ 31) in *.
  destruct (Z.ltb_spec (q / 2) x).
  - assert ((x - q) mod (2 * 2 ^ 31) = x - q + 2 * 2 ^ 31) as -> by (symmetry; apply Z.mod_unique_pos with (-1); lia).
    assert (to_int32 (x - q + 2 * 2 ^ 31) = x - q) as ->.
    { unfold to_int32. change (2 ^ 32) with (2 * 2 ^ 31).
      assert ((x - q + 2 * 2 ^ 31 + 2 ^ 31) mod (2 * 2 ^ 31) = x - q + 2 ^ 31) as -> by (symmetry; apply Z.mod_unique_pos with 1; lia).
      lia. }
    rewrite (proj2 (Z.ltb_lt _ 0)) by lia. rewrite (mod_W_small (- (x - q))) by lia. rewrite mod_W_small by lia. lia.
  - assert (to_int32 x = x) as -> by (unfold to_int32; rewrite Z.mod_small by lia; lia).
    rewrite (proj2 (Z.ltb_ge _ 0)) by lia. apply mod_W_small. lia.
Qed.

Lemma map_lift q l : 0 < q < 2 ^ 32 -> Forall (reduced q) l -> map (lift_entry q) l = l.
Proof.
  intros Hq Hl. rewrite <- (map_id l) at 2. apply (map_ok_on (NVec q l)); [done|].
  intros v Hv. by apply lift_entry_spec.
Qed.

(** A rectangular array of residues. *)
Definition wf_array (q : Z) (n : nat) (m : list (list Z)) : Prop :=
  length m = n /\ forall i, (i < n)%nat -> length (m !!! i) = n /\ Forall (reduced q) (m !!! i).

Definition mat_mul_is_one (q : Z) (n : nat) (a b : list (list Z)) : Prop :=
  forall i j, (i < n)%nat -> (j < n)%nat ->
    sumZ n (fun k => (a !!! i) !!! k * (b !!! k) !!! j) ≡[q] if decide (i = j) then 1 else 0.

Section KeyGenSpec.
Context (q : Z) (n : nat) (Hq : 0 < q < 2 ^ 32).
Context (inv : Z -> list (list Z) -> option (list (list Z))).
(** What NTL documents: the inverse of an array of residues, if returned, is
    an array of residues whose product with the argument is the identity. *)
Context (inv_ok : forall m m', wf_array q n m -> inv q m = Some m' -> wf_array q n m' /\ mat_mul_is_one q n m' m).

Lemma reduce_array m :
  length m = n -> (forall i, (i < n)%nat -> length (m !!! i) = n) -> wf_array q n (map (map (fun x => x mod q)) m).
Proof using Hq.
  intros Lm Hm. split; [by rewrite length_map|]. intros i Hi. rewrite lookup_total_map by lia.
  rewrite length_map. split; [by apply Hm|]. apply map_reduced. intros v. apply Z.mod_pos_bound. lia.
Qed.

Lemma array_mat Qm m :
  Qm = q -> wf_array q n m ->
  let M := map (fun row => NVec Qm (map (lift_entry q) row)) m in
  wf_mat q n n M /\ forall i j, (i < n)%nat -> (j < n)%nat -> (M !!! i).[j] = (m !!! i) !!! j.
Proof using Hq.
  intros -> [Lm Hm] M.
  assert (forall i, (i < n)%nat -> M !!! i = NVec q (m !!! i)) as HM.
  { intros i Hi. unfold M. rewrite lookup_total_map by lia. f_equal. apply map_lift; [done|]. by apply Hm. }
  split; [split; [unfold M; by rewrite length_map|]|].
  - intros i Hi. rewrite HM by done. destruct (Hm i Hi). by split.
  - intros i j Hi Hj. by rewrite HM.
Qed.

(** The sampling loop returns as soon as a candidate is invertible, and what
    it returns is the candidate and its inverse. *)
Lemma Get_invertible_Matrix_spec candidates :
  (forall c, c ∈ candidates -> length c = n /\ forall i, (i < n)%nat -> length (c !!! i) = n) ->
  (exists c, c ∈ candidates /\ inv q (map (map (fun x => x mod q)) c) <> None) ->
  returns (Get_invertible_Matrix inv q q candidates) (fun '(M, M') =>
    wf_mat q n n M /\ wf_mat q n n M' /\
    forall i j, (i < n)%nat -> (j < n)%nat -> sumZ n (fun k => (M' !!! i).[k] * (M !!! k).[j]) ≡[q] if decide (i = j) then 1 else 0).
Proof using Hq inv_ok.
  induction candidates as [|c rest IH]; intros Hc (c0 & Hin & Hinv); [by apply not_elem_of_nil in Hin|].
  cbn [Get_invertible_Matrix]. destruct (Hc c ltac:(by apply elem_of_cons; left)) as [Lc Hrow].
  pose proof (reduce_array c Lc Hrow) as Hwf.
  destruct (inv q (map (map (fun x => x mod q)) c)) as [m'|] eqn:E.
  - destruct (inv_ok _ _ Hwf E) as [Hwf' Hone]. apply returns_ok.
    destruct (array_mat q _ eq_refl Hwf) as [W1 E1]. destruct (array_mat q _ eq_refl Hwf') as [W2 E2].
    split; [done|]. split; [done|]. intros i j Hi Hj. rewrite <- (Hone i j Hi Hj). apply eqm_refl, sumZ_ext.
    intros k Hk. by rewrite E1, E2.
  - apply IH; [intros c' Hc'; apply Hc; by apply elem_of_cons; right|].
    exists c0. apply elem_of_cons in Hin as [->|Hin]; [by rewrite E in Hinv|]. done.
Qed.
End KeyGenSpec.

(** ** Key switching *)
Lemma centre_spec q x : 0 < q -> reduced q x -> centre q x = centred q x /\ - (q / 2) <= centred q x <= q / 2.
Proof.
  intros Hq Hx. unfold reduced in Hx. unfold centre, centred. rewrite Z.quot_div_nonneg by lia. split; [done|].
  pose proof (Z.div_mod q 2 ltac:(lia)). pose proof (Z.mod_pos_bound q 2 ltac:(lia)).
  destruct (Z.ltb_spec (q / 2) x); lia.
Qed.

Lemma mod_q_entry_spec q x : 0 < q <= 2 ^ 31 -> mod_q_entry q x = Ok (x mod q).
Proof.
  intros Hq. unfold mod_q_entry, srem. rewrite (proj2 (Z.eqb_neq q 0)), bind_ok by lia.
  pose proof (Z.quot_rem x q ltac:(lia)) as E. pose proof (Z.rem_bound_abs x q ltac:(lia)) as B.
  set (r := Z.rem x q) in *.
  assert (forall y, - 2 ^ 31 <= y < 2 ^ 31 -> to_int32 y = y) as Hi.
  { intros y Hy. unfold to_int32. rewrite Z.mod_small by lia. lia. }
  rewrite (Hi r) by lia. destruct (Z.ltb_spec r 0).
  - rewrite (Hi (r + q)), mod_W_small by lia. f_equal. apply Z.mod_unique_pos with (Z.quot x q - 1); lia.
  - rewrite mod_W_small by lia. f_equal. apply Z.mod_unique_pos with (Z.quot x q); lia.
Qed.

(** *** The unrolled row product *)
Section RowProduct.
Context (q : Z) (n : nat) (coef : Z) (f : list Z) (k0 : list Z).
Context (Lf : length f = n).
Context (Hbound : forall i, (i < n)%nat ->
  Z.abs (coef * centre q (f !!! i)) < 2 ^ 63 /\ Z.abs (k0 !!! i + coef * centre q (f !!! i)) < 2 ^ 63).

(** The columns below [j] are done. *)
Definition macd (j : nat) (k : list Z) : Prop :=
  length k = n /\ forall i, (i < n)%nat -> k !!! i = k0 !!! i + (if (i <? j)%nat then coef * centre q (f !!! i) else 0).

Lemma mac_step j k : (j < n)%nat -> macd j k -> returns (mac q coef f k j) (macd (S j)).
Proof using All.
  intros Hj [Lk Hk]. unfold mac. rewrite (vget_total f), bind_ok, (vget_total k), bind_ok by lia.
  destruct (Hbound j Hj) as [B1 B2]. unfold long_mul, long_add. change (2 ^ 63) with (2 ^ (64 - 1)) in *.
  rewrite (Hk j Hj), Nat.ltb_irrefl, Z.add_0_r.
  rewrite sck_spec, bind_ok, sck_spec, bind_ok, vset_lt by lia. apply returns_ok.
  split; [by rewrite length_insert|]. intros i Hi. destruct (decide (i = j)) as [->|].
  - rewrite list_lookup_total_insert_eq by lia. by rewrite (proj2 (Nat.ltb_lt j (S j))) by lia.
  - rewrite list_lookup_total_insert_ne by done. rewrite (Hk i Hi).
    destruct (Nat.ltb_spec i j), (Nat.ltb_spec i (S j)); (done || lia).
Qed.

(** A block is four columns in a row. *)
Lemma mac4_eq j k : (j + 3 < n)%nat ->
  mac4 q coef f k j = (k ← mac q coef f k j; k ← mac q coef f k (j + 1); k ← mac q coef f k (j + 2); mac q coef f k (j + 3)).
Proof using Lf.
  intros Hj. unfold mac4. rewrite (vget_total f j), bind_ok, (vget_total f (j + 1)), bind_ok by lia.
  rewrite (vget_total f (j + 2)), bind_ok, (vget_total f (j + 3)), bind_ok by lia. cbv zeta.
  assert (forall (A B C : Type) (m : res A) (g : A -> res B) (h : B -> res C), ((x ← m; g x) ≫= h) = (x ← m; g x ≫= h)) as Hassoc
    by (by intros A B C [x|e] g h).
  assert (forall i k, (i < n)%nat -> mac q coef f k i =
    (x ← vget k i; t ← long_mul coef (centre q (f !!! i)); v ← long_add x t; vset k i v)) as Hmac.
  { intros i k' Hi. unfold mac. by rewrite (vget_total f), bind_ok by lia. }
  rewrite (Hmac j) by lia. rewrite !Hassoc. destruct (vget k j) as [x|]; [rewrite !bind_ok|done].
  rewrite !Hassoc. destruct (long_mul coef (centre q (f !!! j))) as [t|]; [rewrite !bind_ok|done].
  rewrite !Hassoc. destruct (long_add _ _) as [v|]; [rewrite !bind_ok|done].
  destruct (vset k j v) as [k1|]; [rewrite !bind_ok|done].
  rewrite (Hmac (j + 1)%nat) by lia. rewrite !Hassoc. destruct (vget k1 _) as [x1|]; [rewrite !bind_ok|done].
  rewrite !Hassoc. destruct (long_mul coef (centre q (f !!! (j + 1)%nat))) as [t1|]; [rewrite !bind_ok|done].
  rewrite !Hassoc. destruct (long_add _ _) as [v1|]; [rewrite !bind_ok|done].
  destruct (vset k1 _ v1) as [k2|]; [rewrite !bind_ok|done].
  rewrite (Hmac (j + 2)%nat) by lia. rewrite !Hassoc. destruct (vget k2 _) as [x2|]; [rewrite !bind_ok|done].
  rewrite !Hassoc. destruct (long_mul coef (centre q (f !!! (j + 2)%nat))) as [t2|]; [rewrite !bind_ok|done].
  rewrite !Hassoc. destruct (long_add _ _) as [v2|]; [rewrite !bind_ok|done].
  destruct (vset k2 _ v2) as [k3|]; [rewrite !bind_ok|done].
  by rewrite (Hmac (j + 3)%nat) by lia.
Qed.

Lemma mac4_step j k : (j + 3 < n)%nat -> macd j k -> returns (mac4 q coef f k j) (macd (j + 4)).
Proof using All.
  intros Hj Hk. rewrite mac4_eq by done.
  eapply returns_bind; [apply mac_step; [lia|done]|]. intros k1 H1. replace (S j) with (j + 1)%nat in H1 by lia.
  eapply returns_bind; [apply mac_step; [lia|done]|]. intros k2 H2. replace (S (j + 1)) with (j + 2)%nat in H2 by lia.
  eapply returns_bind; [apply mac_step; [lia|done]|]. intros k3 H3. replace (S (j + 2)) with (j + 3)%nat in H3 by lia.
  replace (j + 4)%nat with (S (j + 3)) by lia. apply mac_step; [lia|done].
Qed.

(** The blocks and the remaining columns are all the columns. *)
Lemma mac_all : length k0 = n ->
  returns (k ← for_ (n / 4) (fun b k => mac4 q coef f k (b * 4)) k0;
           for_ (n mod 4) (fun j k => mac q coef f k (n / 4 * 4 + j)) k)
    (fun k => length k = n /\ forall i, (i < n)%nat -> k !!! i = k0 !!! i + coef * centre q (f !!! i)).
Proof using All.
  intros L0. pose proof (Nat.div_mod n 4 ltac:(lia)) as E. pose proof (Nat.mod_upper_bound n 4 ltac:(lia)) as B.
  set (b := (n / 4)%nat) in *. set (r := (n mod 4)%nat) in *.
  eapply returns_bind.
  { apply (returns_for (fun i => macd (i * 4))).
    - split; [done|]. intros i Hi. cbn. lia.
    - intros i k Hi Hk. replace (S i * 4)%nat with (i * 4 + 4)%nat by lia. apply mac4_step; [lia|done]. }
  intros k Hk. eapply returns_mono.
  { apply (returns_for (fun j => macd (b * 4 + j))).
    - by rewrite Nat.add_0_r.
    - intros j k' Hj Hk'. rewrite Nat.add_succ_r. apply mac_step; [lia|done]. }
  intros k' [Lk' Hk']. split; [done|]. intros i Hi. rewrite (Hk' i Hi).
  by rewrite (proj2 (Nat.ltb_lt i _)) by lia.
Qed.
End RowProduct.

Lemma row_product_spec q n h (Finv : matrix) g :
  0 < q -> 0 <= h -> q / 2 <= h -> Z.of_nat n * (h * h) < 2 ^ 63 ->
  wf_mat q n n Finv -> length g = n -> (forall l, (l < n)%nat -> Z.abs (g !!! l) <= h) ->
  returns (row_product n q Finv g) (fun r => length r = n /\
    forall c, (c < n)%nat -> r !!! c = sumZ n (fun l => g !!! l * centred q (Finv !!! l).[c])).
Proof.
  intros Hq Hh0 Hh Hfit [LF HF] Lg Hg. unfold row_product.
  assert (forall l c, (l < n)%nat -> (c < n)%nat -> Z.abs (g !!! l * centred q (Finv !!! l).[c]) <= h * h) as Hterm.
  { intros l c Hl Hc. destruct (HF l Hl) as (_ & Ll & Fl).
    destruct (centre_spec q (Finv !!! l).[c] Hq) as [_ Hb]; [apply reduced_at; [done|lia]|].
    rewrite Z.abs_mul. specialize (Hg l Hl). apply Z.mul_le_mono_nonneg; lia. }
  apply (returns_for (fun l k => length k = n /\
    forall c, (c < n)%nat -> k !!! c = sumZ l (fun l => g !!! l * centred q (Finv !!! l).[c]))).
  - split; [apply length_zeros|]. intros c Hc. by rewrite zeros_lookup.
  - intros l k Hl [Lk Hk]. rewrite (vget_total Finv), bind_ok, (vget_total g), bind_ok by lia.
    destruct (HF l Hl) as (_ & Ll & Fl).
    assert (forall c, (c < n)%nat -> centre q (data (Finv !!! l) !!! c) = centred q (Finv !!! l).[c]) as Hc.
    { intros c Hc. apply centre_spec; [done|]. apply reduced_at; [done|lia]. }
    eapply returns_mono; [apply (mac_all q n (g !!! l) (data (Finv !!! l)) k Ll); [|done]|].
    + intros c Hcn. rewrite (Hc c Hcn), (Hk c Hcn). pose proof (Hterm l c Hl Hcn).
      pose proof (sumZ_bound l (fun l => g !!! l * centred q (Finv !!! l).[c]) (h * h)
        ltac:(intros; apply Hterm; lia)).
      assert (Z.of_nat l + 1 <= Z.of_nat n) by lia. nia.
    + intros k' [Lk' Hk']. split; [done|]. intros c Hcn. rewrite (Hk' c Hcn), (Hc c Hcn), (Hk c Hcn). done.
Qed.

(** *** The switching key *)
Section Switching.
Context {q : Z} {Hq : NativeModulus W q}.
Context (base : Z) (Hbase : 2 <= base <= q) (Hsmall : q <= 2 ^ 31).
Let d := digit_count base q.

(** Row [(i, j)] of the gadget matrix, entry [l]. *)
Definition gadget (s e : NativeVector) (i j l : nat) : Z :=
  e.[l] + (if decide (l = 0%nat) then s.[i] * base ^ Z.of_nat j else 0).

Lemma digit_power_small x j : 0 <= x < q -> (j < d)%nat -> x * base ^ Z.of_nat j < 2 ^ 64.
Proof using All.
  intros Hx Hj. pose proof (two_q (q := q)).
  pose proof (digit_count_minimal base q j ltac:(lia) ltac:(lia) Hj).
  assert (0 < base ^ Z.of_nat j) by (apply Z.pow_pos_nonneg; lia). nia.
Qed.

Lemma gadget_rows_spec N n s e :
  (0 < n)%nat -> wf_mask q N s -> wf_mask q n e ->
  returns (gadget_rows N d q base s e) (fun E => length E = (N * d)%nat /\
    forall i j, (i < N)%nat -> (j < d)%nat -> length (E !!! (i * d + j)%nat) = n /\
      Forall (reduced q) (E !!! (i * d + j)%nat) /\
      forall l, (l < n)%nat -> (E !!! (i * d + j)%nat) !!! l ≡[q] gadget s e i j l).
Proof using All.
  intros Hn (Es & Ls & Fs) (Ee & Le & Fe). pose proof (two_q (q := q)) as H2. unfold gadget_rows.
  set (row := fun i j : nat => <[0%nat := (e.[0] + s.[i] * base ^ Z.of_nat j) mod q]> (data e)).
  rewrite (tabulateM_ok N _ (fun i => map (row i) (seq 0 d))).
  - rewrite bind_ok. apply returns_ok.
    assert (Forall (fun r : list (list Z) => length r = d) (map (fun i => map (row i) (seq 0 d)) (seq 0 N))) as Hl.
    { apply Forall_tab. intros. apply length_tab. }
    split; [by rewrite (length_concat d), length_tab|]. intros i j Hi Hj.
    rewrite (concat_lookup d), !lookup_total_tab by (done || by rewrite length_tab).
    unfold row. rewrite length_insert. split; [done|]. split; [apply Forall_insert; [done|apply (nm_mod (w := W))]|].
    intros l Hl'. unfold gadget. destruct (decide (l = 0%nat)) as [->|].
    + rewrite list_lookup_total_insert_eq by lia. apply eqm_mod.
    + rewrite list_lookup_total_insert_ne by lia. apply eqm_refl. lia.
  - intros i Hi. rewrite (vget_at s), bind_ok by lia.
    pose proof (reduced_at q s i Fs ltac:(lia)) as Hsi. unfold reduced in Hsi.
    assert ((if (i =? 0)%nat then Ok s.[i] else NativeInt.ModAddEq W 0 s.[i] q) = Ok s.[i]) as ->.
    { destruct (i =? 0)%nat; [done|]. etransitivity; [apply nm_add_any; lia|]. f_equal. apply Z.mod_small. lia. }
    rewrite bind_ok, powers_loop_eq; [|lia|lia|].
    2: { destruct d as [|d'] eqn:Ed; [cbn [pred]; rewrite Z.pow_0_r; lia|].
         apply digit_power_small; [lia|fold d; lia]. }
    unfold row; cbv beta. rewrite <- (map_map (fun j => s.[i] * base ^ Z.of_nat j) (fun c => <[0%nat := (e.[0] + c) mod q]> (data e))).
    apply (mapM_ok (fun c => 0 <= c)).
    + intros c Hc. rewrite (vget_at e), bind_ok by lia. pose proof (reduced_at q e 0 Fe ltac:(lia)) as He0. unfold reduced in He0.
      assert (NativeInt.ModAddEq W e.[0] c q = Ok ((e.[0] + c) mod q)) as -> by (apply nm_add_any; lia).
      rewrite bind_ok. apply vset_lt. lia.
    + apply Forall_tab. intros j _. assert (0 < base ^ Z.of_nat j) by (apply Z.pow_pos_nonneg; lia). nia.
Qed.

(** The rows of the key of a user: gadget row times the inverse matrix. *)
Lemma ksk_user_spec ps sk skN e u k :
  n_qKS ps = q -> n_baseKS ps = base -> (0 < n_n ps)%nat -> Z.of_nat (n_n ps) * (q / 2 * (q / 2)) < 2 ^ 63 ->
  wf_vec W skN -> length (data skN) = n_N ps -> wf_mask q (n_n ps) e ->
  wf_mats q k (n_n ps) (n_n ps) (F_inv sk) -> (u < k)%nat ->
  returns (ksk_user ps d sk skN e u) (fun M => wf_mat q (n_N ps * d) (n_n ps) M /\
    forall i j c, (i < n_N ps)%nat -> (j < d)%nat -> (c < n_n ps)%nat ->
      (M !!! (i * d + j)%nat).[c] ≡[q] sumZ (n_n ps) (fun l => gadget (key_mod q skN) e i j l * finv q sk u l c)).
Proof using All.
  intros EQ Eb Hn Hfit HskN LN He [LF HF] Hu. unfold ksk_user. rewrite EQ, Eb. set (n := n_n ps) in *. set (N := n_N ps) in *.
  pose proof (two_q (q := q)) as H2. rewrite Switch_sk, bind_ok by done.
  assert (wf_mask q N (key_mod q skN)) as Hs.
  { split; [done|]. rewrite length_key_mod. split; [done|]. apply (key_mod_wf (w := W)). }
  eapply returns_bind; [by apply (gadget_rows_spec N n)|]. intros E [LE HE].
  rewrite (mapM_ok (fun _ => True) _ (map (centre q))); [|intros row _; by apply (mapM_ok (fun _ => True)); [|apply Forall_true]|by apply Forall_true].
  rewrite bind_ok, (vget_total (F_inv sk)), bind_ok by lia.
  assert (forall r, (r < N * d)%nat -> exists i j, (i < N)%nat /\ (j < d)%nat /\ r = (i * d + j)%nat) as Hrow.
  { intros r Hr. exists (r / d)%nat, (r mod d)%nat. assert (d <> 0)%nat as Hd by (intros Hd; rewrite Hd, Nat.mul_0_r in Hr; lia).
    split; [apply Nat.Div0.div_lt_upper_bound; lia|]. split; [by apply Nat.mod_upper_bound|].
    rewrite Nat.mul_comm. by apply Nat.div_mod. }
  set (Q' := fun (r : nat) (v : NativeVector) => wf_mask q n v /\
    forall c, (c < n)%nat -> v.[c] ≡[q] sumZ n (fun l => (E !!! r) !!! l * finv q sk u l c)).
  assert (returns (mapM (fun g_row => row ← row_product n q (F_inv sk !!! u) g_row; row ← mod_q row q; Ok (NVec q row)) (map (map (centre q)) E))
    (fun M => length M = (N * d)%nat /\ forall r, (r < N * d)%nat -> Q' r (M !!! r))) as Hm.
  { assert (map (map (centre q)) E = map (fun r => map (centre q) (E !!! r)) (seq 0 (N * d))) as ->.
    { apply list_total_ext; [by rewrite length_map, length_tab|]. intros r Hr. rewrite length_map in Hr.
      rewrite lookup_total_map by done. by rewrite lookup_total_tab by lia. }
    assert (forall (f : list Z -> res NativeVector) (g : nat -> list Z) l, mapM f (map g l) = mapM (fun r => f (g r)) l) as Hmm.
    { intros f g l. induction l as [|x l IH]; [done|]. cbn [map mapM]. by rewrite IH. }
    rewrite Hmm. apply (tabulateM_returns (N * d) _ Q'). intros r Hr.
    destruct (Hrow r Hr) as (i & j & Hi & Hj & ->). destruct (HE i j Hi Hj) as (Lr & Fr & _).
    set (g := E !!! (i * d + j)%nat) in *.
    assert (forall l, (l < n)%nat -> map (centre q) g !!! l = centred q (g !!! l) /\ Z.abs (centred q (g !!! l)) <= q / 2) as Hg.
    { intros l Hl. rewrite lookup_total_map by lia. destruct (centre_spec q (g !!! l)) as [-> Hb]; [lia| |].
      - apply Forall_reduced_total; [done|lia].
      - split; [done|lia]. }
    eapply returns_bind.
    { apply (row_product_spec q n (q / 2)); [lia|apply Z.div_pos; lia|lia|done|by apply HF|by rewrite length_map|].
      intros l Hl. destruct (Hg l Hl) as [-> Hb]. done. }
    intros row [Lrow Hrowv]. unfold mod_q. rewrite (mapM_ok (fun _ => True) _ (fun x => x mod q));
      [|intros x _; apply mod_q_entry_spec; lia|by apply Forall_true].
    rewrite bind_ok. apply returns_ok. split.
    - split; [done|]. cbn [data]. rewrite length_map. split; [done|]. apply map_reduced. intros. apply (nm_mod (w := W)).
    - intros c Hc. cbn [data]. rewrite lookup_total_map, eqm_mod, (Hrowv c Hc) by lia. apply sumZ_eqm. intros l Hl.
      destruct (Hg l Hl) as [-> _]. apply eqm_mul; [apply centred_eqm|done]. }
  eapply returns_mono; [exact Hm|]. intros M [LM HM]. cbn beta in *. split.
  - split; [done|]. intros r Hr. by apply HM.
  - intros i j c Hi Hj Hc. destruct (HM (i * d + j)%nat ltac:(nia)) as [_ Hv]. rewrite (Hv c Hc).
    destruct (HE i j Hi Hj) as (_ & _ & Hl). apply sumZ_eqm. intros l Hln. by rewrite (Hl l Hln).
Qed.

(** A switching key for the large keys [sN] under the columns [f]: row
    [(i, j)] of user [u] has the phase [sN_ui * base^j + noise_u]. *)
Definition nksk_valid (k n N : nat) (f : nat -> nat -> Z) (sN : nat -> nat -> Z) (noise : nat -> Z) (K : list matrix) : Prop :=
  wf_mats q k (N * d) n K /\
  forall u i j, (u < k)%nat -> (i < N)%nat -> (j < d)%nat ->
    sumZ n (fun c => entry K u (i * d + j) c * f u c) ≡[q] noise u + sN u i * base ^ Z.of_nat j.

Lemma NTRU_KeySwitchGen_spec ps sk skN E :
  let k := n_k ps in let n := n_n ps in let N := n_N ps in
  n_qKS ps = q -> n_baseKS ps = base -> (0 < n)%nat -> Z.of_nat n * (q / 2 * (q / 2)) < 2 ^ 63 ->
  length skN = k -> (forall u, (u < k)%nat -> wf_vec W (skN !!! u) /\ length (data (skN !!! u)) = N) ->
  (forall u, wf_mask q n (E u)) -> wf_nkey q q k n sk ->
  returns (KeySwitchGen ps sk skN E) (fun K =>
    nksk_valid k n N (fcol q sk) (fun u i => key_ints (skN !!! u) !!! i) (fun u => (E u).[0]) K).
Proof using All.
  intros k n N EQ Eb Hn Hfit LN HN HE Hsk. unfold KeySwitchGen. rewrite EQ, Eb. fold d k.
  eapply returns_mono.
  { apply (tabulateM_returns k _ (fun u M => wf_mat q (N * d) n M /\ forall i j c, (i < N)%nat -> (j < d)%nat -> (c < n)%nat ->
      (M !!! (i * d + j)%nat).[c] ≡[q] sumZ n (fun l => gadget (key_mod q (skN !!! u)) (E u) i j l * finv q sk u l c))).
    intros u Hu. rewrite (vget_total skN), bind_ok by lia. destruct (HN u Hu) as [Hw Lu].
    apply (ksk_user_spec ps sk (skN !!! u) (E u) u k); try done; first [apply HE | apply Hsk]. }
  intros K [LK HK]. cbn beta in *. split; [split; [done|]; intros u Hu; by apply HK|].
  intros u i j Hu Hi Hj. destruct (HK u Hu) as [_ Hc].
  rewrite (sumZ_eqm q n _ (fun c => sumZ n (fun l => gadget (key_mod q (skN !!! u)) (E u) i j l * (finv q sk u l c * fcol q sk u c)))).
  2: { intros c Hcn. unfold entry. rewrite (Hc i j c Hi Hj Hcn). rewrite <- sumZ_scale_r. apply eqm_refl, sumZ_ext. intros; ring. }
  rewrite sumZ_swap. rewrite (sumZ_eqm q n _ (fun l => if decide (l = 0%nat) then gadget (key_mod q (skN !!! u)) (E u) i j l else 0)).
  2: { intros l Hl. rewrite sumZ_scale, (nk_inverse _ _ _ _ _ Hsk u l Hu Hl). apply eqm_refl. destruct (decide (l = 0%nat)); lia. }
  rewrite sumZ_delta by done. unfold gadget. rewrite decide_True by done. apply eqm_add; [done|]. apply eqm_mul; [|done].
  unfold key_mod, key_ints; cbn [data]. destruct (HN u Hu) as [_ Lu].
  rewrite !lookup_total_map by (rewrite ?Lu; done || lia). apply eqm_mod.
Qed.
End Switching.

(** *** The two key switching algorithms *)
Section KeySwitching.
Context {q : Z} {Hq : NativeModulus W q}.
Context (base : Z) (Hbase : 2 <= base <= q) (Hsmall : q <= 2 ^ 31).
Let d := digit_count base q.
Context (k n N : nat) (Hk : (0 < k)%nat) (HN : (0 < N)%nat).

Lemma digits_of_spec v :
  wf_mask q N v ->
  digits_of N d base v = Ok (concat (map (fun i => map (digit base v.[i]) (seq 0 d)) (seq 0 N))).
Proof using All.
  intros (Ev & Lv & Fv). unfold digits_of.
  rewrite (tabulateM_ok N _ (fun i => map (digit base v.[i]) (seq 0 d))); [done|]. intros i Hi.
  rewrite (vget_at v), bind_ok by lia.
  destruct (returns_for (fun j (st : list Z * Z) => st.1 = map (digit base v.[i]) (seq 0 j) /\ st.2 = v.[i] / base ^ Z.of_nat j) d
    (fun j st => c0 ← umod st.2 base; ctmp ← udiv st.2 base; Ok (st.1 ++ [c0], ctmp)) ([], v.[i])) as (st & -> & E & _).
  - cbn [fst snd]. by rewrite Z.div_1_r.
  - intros j st Hj [E1 E2]. unfold umod, udiv. rewrite (proj2 (Z.eqb_neq base 0)), !bind_ok by lia.
    apply returns_ok. cbn [fst snd]. rewrite E1, E2. split; [|apply digit_step; lia].
    by rewrite seq_S, map_app.
  - by rewrite bind_ok, E.
Qed.

Lemma digits_wf v : wf_mask q N v ->
  wf_mask q (N * d) (NVec q (concat (map (fun i => map (digit base v.[i]) (seq 0 d)) (seq 0 N)))) /\
  forall i j, (i < N)%nat -> (j < d)%nat ->
    concat (map (fun i => map (digit base v.[i]) (seq 0 d)) (seq 0 N)) !!! (i * d + j)%nat = digit base v.[i] j.
Proof using All.
  intros Hv.
  assert (Forall (fun r : list Z => length r = d) (map (fun i => map (digit base v.[i]) (seq 0 d)) (seq 0 N))) as Hl.
  { apply Forall_tab. intros. apply length_tab. }
  split.
  - split; [done|]. cbn [data]. rewrite (length_concat d), length_tab by done. split; [done|].
    apply Forall_concat. apply Forall_tab. intros i Hi. apply Forall_tab. intros j Hj.
    pose proof (digit_range base v.[i] j ltac:(lia)). unfold reduced. lia.
  - intros i j Hi Hj. rewrite (concat_lookup d), !lookup_total_tab by (done || by rewrite length_tab). done.
Qed.

Lemma GetElements_coli_spec K c :
  (0 < d)%nat -> wf_mats q k (N * d) n K -> (c < n)%nat ->
  GetElements_coli K c = Ok (map (fun i => NVec q (map (fun j => entry K i j c) (seq 0 (N * d)))) (seq 0 k)).
Proof using All.
  intros Hd [LK HK] Hc. unfold GetElements_coli. rewrite (vget_total K), bind_ok by lia.
  destruct (HK 0%nat Hk) as [L0 H0]. rewrite (vget_total (K !!! 0%nat)), bind_ok by nia.
  destruct (H0 0%nat ltac:(nia)) as (-> & _ & _). rewrite L0, LK. apply tabulateM_ok. intros i Hi.
  rewrite (tabulateM_ok (N * d) _ (fun j => entry K i j c)); [done|]. intros j Hj.
  destruct (HK i Hi) as [Li Hrow]. destruct (Hrow j Hj) as (_ & Lj & _).
  rewrite (vget_total K), bind_ok, (vget_total (K !!! i)), bind_ok by lia. apply vget_at. lia.
Qed.

(** The value both algorithms compute. *)
Definition switched (K : list matrix) (ct : MNTRUCiphertext) : MNTRUCiphertext :=
  MNTRUCt (map (fun u => NVec q (map (fun c => sumZ (N * d) (fun l =>
    concat (map (fun i => map (digit base (elements ct !!! u).[i]) (seq 0 d)) (seq 0 N)) !!! l * entry K u l c) mod q)
    (seq 0 n))) (seq 0 k)) 4.

Lemma KeySwitch_eq ps K ct :
  n_k ps = k -> n_n ps = n -> n_N ps = N -> n_qKS ps = q -> n_baseKS ps = base ->
  wf_mats q k (N * d) n K -> wf_nct q k N ct -> KeySwitch ps K ct = Ok (switched K ct).
Proof using All.
  intros Ek En EN EQ Eb HK [Lc Hc]. unfold KeySwitch, switched. rewrite Ek, En, EN, EQ, Eb. fold d.
  pose proof (two_q (q := q)) as H2.
  rewrite (tabulateM_ok k _ (fun u => NVec q (map (fun c => sumZ (N * d) (fun l =>
    concat (map (fun i => map (digit base (elements ct !!! u).[i]) (seq 0 d)) (seq 0 N)) !!! l * entry K u l c) mod q) (seq 0 n)))); [done|].
  intros u Hu. rewrite (vget_total (elements ct)), bind_ok, digits_of_spec, bind_ok by (done || lia || by apply Hc).
  destruct (digits_wf _ (Hc u Hu)) as [Hhat _]. set (hat := concat _) in *.
  rewrite (tabulateM_ok n _ (fun c => sumZ (N * d) (fun l => hat !!! l * entry K u l c) mod q)); [done|].
  intros c Hcn. destruct (decide (d = 0%nat)) as [Hd0|Hd0].
  { exfalso. pose proof (digit_count_enough base q ltac:(lia) ltac:(lia)) as En'. fold d in En'. rewrite Hd0, Z.pow_0_r in En'. lia. }
  rewrite GetElements_coli_spec, bind_ok by (done || lia).
  rewrite (vget_total (map _ _)), bind_ok by (by rewrite length_tab). rewrite lookup_total_tab by done.
  assert (wf_mask q (N * d) (NVec q (map (fun j => entry K u j c) (seq 0 (N * d))))) as Hcol.
  { split; [done|]. cbn [data]. rewrite length_tab. split; [done|]. apply Forall_tab. intros r Hr.
    destruct HK as [LK HK]. destruct (HK u Hu) as [Lu Hrow]. destruct (Hrow r Hr) as (_ & Lr & Fr).
    apply reduced_at; [done|lia]. }
  pose proof (product_sum (N * d) _ _ Hhat Hcol) as Hps.
  assert (length hat = length (map (fun j => entry K u j c) (seq 0 (N * d)))) as Ll.
  { destruct Hhat as (_ & Lhat & _). cbn [data] in Lhat. by rewrite length_tab. }
  pose proof (ModMulV_ok (w := W) (NVec q hat) (NVec q (map (fun j => entry K u j c) (seq 0 (N * d))))
    eq_refl eq_refl (proj2 (proj2 Hhat)) (proj2 (proj2 Hcol)) Ll) as Em.
  rewrite Em, bind_ok. rewrite Em, bind_ok in Hps.
  cbn [data] in *. rewrite length_zip_with, <- Ll. destruct Hhat as (_ & Lhat & _). cbn [data] in Lhat.
  rewrite Lhat, Nat.min_id, Hps. f_equal. apply sumZ_eqm. intros l Hl. apply eqm_refl. cbn [data].
  by rewrite lookup_total_tab.
Qed.

(** The table of multiples of a key. *)
Definition multiples (K : list matrix) (K2 : list (list matrix)) : Prop :=
  length K2 = k /\ forall u, (u < k)%nat -> length (K2 !!! u) = Z.to_nat base /\
    forall x, (x < Z.to_nat base)%nat -> length ((K2 !!! u) !!! x) = (N * d)%nat /\
      forall l, (l < N * d)%nat -> (((K2 !!! u) !!! x) !!! l) = NVec q (map (fun c => (entry K u l c * Z.of_nat x) mod q) (seq 0 n)).

Lemma KeySwitch2_eq ps K K2 ct :
  n_k ps = k -> n_n ps = n -> n_N ps = N -> n_qKS ps = q -> n_baseKS ps = base ->
  multiples K K2 -> wf_nct q k N ct -> KeySwitch2 ps K2 ct = Ok (switched K ct).
Proof using All.
  intros Ek En EN EQ Eb [LK2 HK2] [Lc Hc]. unfold KeySwitch2, switched. rewrite Ek, En, EN, EQ, Eb. fold d.
  pose proof (two_q (q := q)) as H2.
  rewrite (tabulateM_ok k _ (fun u => NVec q (map (fun c => sumZ (N * d) (fun l =>
    concat (map (fun i => map (digit base (elements ct !!! u).[i]) (seq 0 d)) (seq 0 N)) !!! l * entry K u l c) mod q) (seq 0 n)))); [done|].
  intros u Hu. rewrite (vget_total (elements ct)), bind_ok, digits_of_spec, bind_ok by (done || lia || by apply Hc).
  destruct (digits_wf _ (Hc u Hu)) as [(_ & Lhat & Fhat) Hdig]. set (hat := concat _) in *. cbn [data] in Lhat.
  rewrite (vget_total K2), bind_ok by lia. destruct (HK2 u Hu) as [Lu Hx].
  match goal with |- context [for_ _ ?f _] => set (step := f) end.
  assert (returns (for_ (N * d) step (repeat 0 n)) (fun c =>
    c = map (fun c => sumZ (N * d) (fun l => hat !!! l * entry K u l c) mod q) (seq 0 n))) as ->%returns_eq; [|done].
  apply (returns_for (fun l c => c = map (fun c => sumZ l (fun l => hat !!! l * entry K u l c) mod q) (seq 0 n))).
  - apply list_total_ext; [by rewrite length_zeros, length_tab|]. intros i Hi. rewrite length_zeros in Hi.
    rewrite zeros_lookup, lookup_total_tab by done. done.
  - intros l c Hl ->. unfold step. rewrite (vget_total hat), bind_ok by lia.
    assert (0 <= hat !!! l < base) as Hh.
    { assert (d <> 0)%nat as Hd by (intros Hd; rewrite Hd, Nat.mul_0_r in Hl; lia).
      rewrite (Nat.div_mod l d Hd), (Nat.mul_comm d), Hdig; [apply digit_range; lia|apply Nat.Div0.div_lt_upper_bound; lia|by apply Nat.mod_upper_bound]. }
    rewrite (Z.mod_small (hat !!! l)) by lia. destruct (Nat.eqb_spec (Z.to_nat (hat !!! l)) 0) as [E0|NE].
    + apply returns_ok. apply map_ext. intros i. cbn [sumZ]. replace (hat !!! l) with 0 by lia. f_equal. lia.
    + destruct (Hx (Z.to_nat (hat !!! l)) ltac:(lia)) as [Lx Hrow].
      rewrite (vget_total (K2 !!! u)), bind_ok, (vget_total ((K2 !!! u) !!! _)), bind_ok by lia. rewrite (Hrow l Hl). cbn [data].
      eapply returns_mono; [apply update_loop_spec; by rewrite length_tab|]. intros c (Lc' & Hc' & _).
      rewrite length_tab in Lc'. apply list_total_ext; [by rewrite length_tab|]. intros i Hi. rewrite Lc' in Hi.
      rewrite (Hc' i Hi), !lookup_total_tab by done. rewrite Z2Nat.id by lia.
      etransitivity; [apply nm_add; apply (nm_mod (w := W))|].
      match goal with |- ?a mod q = ?b mod q => change (a ≡[q] b) end. rewrite !eqm_mod. cbn [sumZ]. apply eqm_refl. ring.
Qed.

(** [KeySwitchGen2] tabulates the multiples of the key of [KeySwitchGen]. *)
Lemma KeySwitchGen2_multiples ps sk skN E K :
  n_k ps = k -> n_N ps = N -> n_n ps = n -> n_qKS ps = q -> n_baseKS ps = base ->
  KeySwitchGen ps sk skN E = Ok K -> wf_mats q k (N * d) n K ->
  returns (KeySwitchGen2 ps sk skN E) (multiples K).
Proof using All.
  intros Ek EN En EQ Eb HK [LK HwK]. unfold KeySwitchGen in HK. unfold KeySwitchGen2.
  rewrite Ek, EQ, Eb in *. fold d in HK |- *. destruct (tabulateM_inv _ _ _ HK) as [_ Hu].
  pose proof (two_q (q := q)) as H2.
  enough (returns (tabulateM k (fun u => s ← vget skN u; KSKu ← ksk_user ps d sk s (E u) u;
    tabulateM (Z.to_nat base) (fun j => mapM (fun row => r ← mapM (fun x => ModMul_ W x (Z.of_nat j) q) (data row); Ok (NVec q r)) KSKu)))
    (fun K2 => length K2 = k /\ forall u, (u < k)%nat -> length (K2 !!! u) = Z.to_nat base /\ forall x, (x < Z.to_nat base)%nat ->
    length ((K2 !!! u) !!! x) = (N * d)%nat /\ forall l, (l < N * d)%nat ->
      ((K2 !!! u) !!! x) !!! l = NVec q (map (fun c => (entry K u l c * Z.of_nat x) mod q) (seq 0 n)))) by done.
  apply (tabulateM_returns k _ (fun u M => length M = Z.to_nat base /\ forall x, (x < Z.to_nat base)%nat ->
    length (M !!! x) = (N * d)%nat /\ forall l, (l < N * d)%nat ->
      (M !!! x) !!! l = NVec q (map (fun c => (entry K u l c * Z.of_nat x) mod q) (seq 0 n)))).
  intros u Hku. specialize (Hu u Hku). cbn beta in Hu. destruct (vget skN u) as [s|] eqn:Es; [|discriminate].
  rewrite bind_ok. assert (ksk_user ps d sk s (E u) u = Ok (K !!! u)) as -> by exact Hu. rewrite bind_ok. destruct (HwK u Hku) as [Lu Hrow].
  apply (tabulateM_returns (Z.to_nat base) _ (fun x T => length T = (N * d)%nat /\ forall l, (l < N * d)%nat ->
    T !!! l = NVec q (map (fun c => (entry K u l c * Z.of_nat x) mod q) (seq 0 n)))).
  intros x Hx. rewrite (mapM_ok (wf_mask q n) _ (fun row => NVec q (map (fun v => (v * Z.of_nat x) mod q) (data row)))).
  - apply returns_ok. rewrite length_map. split; [done|]. intros l Hl. rewrite lookup_total_map by lia. f_equal.
    destruct (Hrow l Hl) as (_ & Ll & _). apply list_total_ext; [by rewrite length_map, length_tab|].
    intros c Hc. rewrite length_map, Ll in Hc. by rewrite lookup_total_map, lookup_total_tab by lia.
  - intros row (_ & _ & Fr). rewrite (mapM_ok (reduced q) _ (fun v => (v * Z.of_nat x) mod q)); [done| |done].
    intros v Hv. eapply nm_mul_any; [by apply (nm_reduced_word (w := W))|change (2 ^ W) with (2 ^ 64); lia|intros E'; discriminate E'].
  - apply Forall_lookup. intros l row Hl. pose proof (lookup_lt_Some _ _ _ Hl).
    rewrite <- (list_lookup_total_correct _ _ _ Hl). apply Hrow. lia.
Qed.

(** The phase of the result. *)
Lemma switched_phase f sN noise K ct :
  (0 < n)%nat -> nksk_valid (q := q) base k n N f sN noise K -> wf_nct q k N ct ->
  wf_nct q k n (switched K ct) /\
  n_phase k n f (switched K ct) ≡[q] n_phase k N sN ct +
    sumZ k (fun u => noise u * sumZ N (fun i => sumZ d (fun j => digit base (elements ct !!! u).[i] j))).
Proof using All.
  intros Hn [HK Hph] [Lc Hc]. pose proof (two_q (q := q)) as H2. split.
  { split; [apply length_tab|]. intros u Hu. cbn [switched elements]. rewrite lookup_total_tab by done.
    split; [done|]. cbn [data]. rewrite length_tab. split; [done|]. apply Forall_tab. intros. apply (nm_mod (w := W)). }
  unfold n_phase, switched; cbn [elements]. rewrite <- sumZ_add. apply sumZ_eqm. intros u Hu.
  rewrite lookup_total_tab by done. destruct (digits_wf _ (Hc u Hu)) as [_ Hdig].
  set (hat := concat (map (fun i => map (digit base (elements ct !!! u).[i]) (seq 0 d)) (seq 0 N))) in *.
  rewrite (sumZ_eqm q n _ (fun c => sumZ (N * d) (fun l => hat !!! l * (entry K u l c * f u c)))).
  2: { intros c Hcn. cbn [data]. rewrite lookup_total_tab, eqm_mod by done. rewrite <- sumZ_scale_r.
       apply eqm_refl, sumZ_ext. intros. ring. }
  rewrite sumZ_swap, sumZ_prod. rewrite <- sumZ_scale, <- sumZ_add. apply sumZ_eqm. intros i Hi.
  transitivity (sumZ d (fun j => noise u * digit base (elements ct !!! u).[i] j + sN u i * (digit base (elements ct !!! u).[i] j * base ^ Z.of_nat j))).
  - apply sumZ_eqm. intros j Hj. rewrite sumZ_scale, Hdig by done. pose proof (Hph u i j Hu Hi Hj) as Hp. fold d in Hp. rewrite Hp. apply eqm_refl. ring.
  - rewrite sumZ_add, !sumZ_scale, digits_sum; [rewrite Z.add_comm, (Z.mul_comm (sN u i)); reflexivity|lia|].
    destruct (Hc u Hu) as (_ & Lv & Fv). pose proof (reduced_at q _ i Fv ltac:(lia)) as Hr. unfold reduced in Hr.
    pose proof (digit_count_enough base q ltac:(lia) ltac:(lia)) as En'. fold d in En'. lia.
Qed.
End KeySwitching.

(** *** Modulus switching and addition *)
Definition n_norm1 (k n : nat) (f : nat -> nat -> Z) : Z := sumZ k (fun i => sumZ n (fun l => Z.abs (f i l))).

Lemma collect_witnesses k (P : nat -> Z -> Prop) :
  (forall i, (i < k)%nat -> exists c, P i c) -> exists f, forall i, (i < k)%nat -> P i (f i).
Proof.
  induction k as [|k IH]; intros H; [exists (fun _ => 0); intros; lia|].
  destruct IH as [f Hf]; [intros; apply H; lia|]. destruct (H k ltac:(lia)) as [c Hc].
  exists (fun i => if decide (i = k) then c else f i). intros i Hi. destruct (decide (i = k)) as [->|]; [done|].
  apply Hf. lia.
Qed.

Lemma NTRU_ModSwitch_spec q Q k n f ct :
  0 < q -> 0 < Q -> 6 * Q * q + 3 * Q + q < 2 ^ 53 -> (0 < k)%nat -> wf_nct Q k n ct ->
  returns (ModSwitch q ct) (fun ct' => wf_nct q k n ct' /\
    exists c, 2 * Z.abs (Q * (n_phase k n f ct' + c * q) - q * n_phase k n f ct) <= Q * n_norm1 k n f).
Proof.
  intros Hq HQ Hfit Hk [Lc Hc]. unfold ModSwitch, GetLength, GetModulus.
  rewrite (vget_total (elements ct)), !bind_ok by lia. destruct (Hc 0%nat Hk) as (-> & -> & _). rewrite Lc.
  set (sum := fun (v : NativeVector) (i : nat) => sumZ n (fun l => v.[l] * f i l)).
  set (P := fun (i : nat) (v : NativeVector) => wf_mask q n v /\
    exists c, 2 * Z.abs (Q * (sum v i + c * q) - q * sum (elements ct !!! i) i) <= Q * sumZ n (fun l => Z.abs (f i l))).
  eapply returns_bind.
  { apply (tabulateM_returns k _ P). intros i Hi. rewrite (vget_total (elements ct)), bind_ok by lia.
    eapply returns_bind; [apply (round_mask_spec q Q n (map (f i) (seq 0 n))); try done; [apply length_tab|by apply Hc]|].
    intros a (Ha & c & Hb). apply returns_ok. split; [done|]. exists c. unfold norm1 in Hb. rewrite length_tab in Hb.
    assert (forall g : nat -> Z -> Z, sumZ n (fun l => g l (map (f i) (seq 0 n) !!! l)) = sumZ n (fun l => g l (f i l))) as Hg.
    { intros g. apply sumZ_ext. intros l Hl. by rewrite lookup_total_tab. }
    rewrite (Hg (fun l x => a !!! l * x)), (Hg (fun l x => (elements ct !!! i).[l] * x)), (Hg (fun _ x => Z.abs x)) in Hb. exact Hb. }
  intros c [Lc' HP]. apply returns_ok. split.
  { split; [done|]. intros i Hi. by apply HP. }
  destruct (collect_witnesses k (fun i x => 2 * Z.abs (Q * (sum (c !!! i) i + x * q) - q * sum (elements ct !!! i) i) <= Q * sumZ n (fun l => Z.abs (f i l))))
    as [cs Hcs]; [intros i Hi; by apply HP|].
  exists (sumZ k cs). unfold n_phase, n_norm1; cbn [elements].
  assert (Z.abs (sumZ k (fun i => 2 * (Q * (sum (c !!! i) i + cs i * q) - q * sum (elements ct !!! i) i))) <=
    sumZ k (fun i => Q * sumZ n (fun l => Z.abs (f i l)))) as Hs.
  { apply sumZ_abs_le. intros i Hi. specialize (Hcs i Hi). lia. }
  rewrite sumZ_scale, sumZ_scale, sumZ_sub, !sumZ_scale, sumZ_add, sumZ_scale_r in Hs. unfold sum in Hs. lia.
Qed.

Section Operations.
Context {q : Z} {Hq : NativeModulus W q}.

Lemma combine_spec (op : Z -> Z -> Z) (vop : NativeVector -> NativeVector -> res NativeVector) k n ct1 ct2 :
  (forall x y, wf_mask q n x -> wf_mask q n y -> vop x y = Ok (NVec q (zip_with (fun a b => (op a b) mod q) (data x) (data y)))) ->
  wf_nct q k n ct1 -> wf_nct q k n ct2 ->
  returns (tabulateM k (fun i => x ← vget (elements ct1) i; y ← vget (elements ct2) i; vop x y)) (fun c =>
    wf_nct q k n (MNTRUCt c (ct_pt ct1)) /\ forall i l, (i < k)%nat -> (l < n)%nat ->
      (c !!! i).[l] ≡[q] op (elements ct1 !!! i).[l] (elements ct2 !!! i).[l]).
Proof using Hq.
  intros Hop [L1 H1] [L2 H2]. eapply returns_mono.
  { apply (tabulateM_returns k _ (fun i v => wf_mask q n v /\ forall l, (l < n)%nat ->
      v.[l] ≡[q] op (elements ct1 !!! i).[l] (elements ct2 !!! i).[l])). intros i Hi.
    rewrite (vget_total (elements ct1)), bind_ok, (vget_total (elements ct2)), bind_ok by lia.
    pose proof (H1 i Hi) as W1. pose proof (H2 i Hi) as W2. rewrite Hop by done. apply returns_ok.
    destruct W1 as (_ & Lx & _), W2 as (_ & Ly & _). split.
    - split; [done|]. cbn [data]. rewrite length_zip_with. split; [lia|]. apply zip_with_reduced. intros. apply (nm_mod (w := W)).
    - intros l Hl. cbn [data]. rewrite vec_op_lookup by lia. apply eqm_mod. }
  intros c [Lc Hc]. cbn beta in *. split; [split; [done|]|]; intros; by apply Hc.
Qed.

Lemma Eval_spec k n f ct1 ct2 : wf_nct q k n ct1 -> wf_nct q k n ct2 ->
  returns (EvalAddEq ct1 ct2) (fun ct => wf_nct q k n ct /\ n_phase k n f ct ≡[q] n_phase k n f ct1 + n_phase k n f ct2) /\
  returns (EvalSubEq ct1 ct2) (fun ct => wf_nct q k n ct /\ n_phase k n f ct ≡[q] n_phase k n f ct1 - n_phase k n f ct2).
Proof using Hq.
  intros H1 H2. unfold EvalAddEq, EvalSubEq. rewrite (proj1 H1). split.
  - eapply returns_bind; [apply (combine_spec Z.add _ k n); try done|].
    { intros x y (Ex & Lx & Fx) (Ey & Ly & Fy). by apply ModAddEqV_ok; [..|lia]. }
    intros c [Hc Hl]. apply returns_ok. split; [done|]. unfold n_phase; cbn [elements].
    rewrite <- sumZ_add. apply sumZ_eqm. intros i Hi. rewrite <- sumZ_add. apply sumZ_eqm. intros l Hln.
    rewrite (Hl i l Hi Hln). apply eqm_refl. ring.
  - eapply returns_bind; [apply (combine_spec Z.sub _ k n); try done|].
    { intros x y (Ex & Lx & Fx) (Ey & Ly & Fy). by apply ModSubEqV_ok; [..|lia]. }
    intros c [Hc Hl]. apply returns_ok. split; [done|]. unfold n_phase; cbn [elements].
    rewrite <- sumZ_sub. apply sumZ_eqm. intros i Hi. rewrite <- sumZ_sub. apply sumZ_eqm. intros l Hln.
    rewrite (Hl i l Hi Hln). apply eqm_refl. ring.
Qed.
End Operations.
