(* ===== verification/MNtruProps.v ===== *)
(** * Properties of the multi-key matrix-NTRU scheme *)

From Stdlib Require Import ZArith Lia String.
From stdpp Require Import base tactics numbers list strings.
From S2P Require Import Prelude Double NativeInt NativeIntFacts ModArith NativeVec SchemeCore Negacyclic Lwe MkLwe MkLweProps MNtru.

(** Checks by evaluation, for the witnesses. *)
Definition mat_ok (q : Z) (rows n : nat) (M : matrix) : bool := (length M =? rows)%nat && forallb (mask_ok q n) M.

Lemma mat_ok_spec q rows n M : mat_ok q rows n M = true -> wf_mat q rows n M.
Proof.
  intros H. apply andb_prop in H as [Hl Hf]. apply Nat.eqb_eq in Hl. split; [done|]. intros r Hr.
  rewrite forallb_forall in Hf. apply mask_ok_spec, Hf, list_elem_of_In, list_elem_of_lookup_total_2. lia.
Qed.

Lemma mats_ok_spec q k rows n mats : (length mats =? k)%nat && forallb (mat_ok q rows n) mats = true -> wf_mats q k rows n mats.
Proof.
  intros H. apply andb_prop in H as [Hl Hf]. apply Nat.eqb_eq in Hl. split; [done|]. intros r Hr.
  rewrite forallb_forall in Hf. apply mat_ok_spec, Hf, list_elem_of_In, list_elem_of_lookup_total_2. lia.
Qed.

Lemma nct_ok_spec q k n ct : mat_ok q k n (elements ct) = true -> wf_nct q k n ct.
Proof. apply mat_ok_spec. Qed.

Definition nkey_ok (Qk q : Z) (k n : nat) (sk : MNTRUPrivateKey) : bool :=
  ((length (F sk) =? k)%nat && forallb (mat_ok Qk n n) (F sk)) &&
  ((length (F_inv sk) =? k)%nat && forallb (mat_ok Qk n n) (F_inv sk)) &&
  forallb (fun i => forallb (fun l =>
    (sumZ n (fun j => finv Qk sk i l j * fcol Qk sk i j) - (if (l =? 0)%nat then 1 else 0)) mod q =? 0) (seq 0 n)) (seq 0 k).

Lemma nkey_ok_spec Qk q k n sk : 0 < q -> nkey_ok Qk q k n sk = true -> wf_nkey Qk q k n sk.
Proof.
  intros Hq H. apply andb_prop in H as [H Hi]. apply andb_prop in H as [H1 H2].
  split; [by apply mats_ok_spec|by apply mats_ok_spec|]. intros i l Hik Hln.
  rewrite forallb_forall in Hi. specialize (Hi i ltac:(apply in_seq; lia)).
  rewrite forallb_forall in Hi. specialize (Hi l ltac:(apply in_seq; lia)). apply Z.eqb_eq in Hi. apply Z.mod_divide in Hi; [|lia].
  destruct Hi as [c Hc]. apply eqm_iff. exists c. destruct (decide (l = 0%nat)) as [->|Hl0].
  - cbn [Nat.eqb] in Hc. lia.
  - rewrite (proj2 (Nat.eqb_neq l 0)) in Hc by done. lia.
Qed.

(** C24: encryption and decryption.  For every key whose matrices are inverse
    modulo the ciphertext modulus, [Encrypt] returns and [Decrypt2] recovers
    the plaintext whenever the sum of the first entries of the drawn error
    vectors, as a signed integer [t], is small for the modulus. *)
Theorem NTRU_Encrypt_Decrypt_correct (Qk q : Z) (k n : nat) (sk : MNTRUPrivateKey) (m p t : Z) (e : list NativeVector) :
  NativeModulus W Qk -> NativeModulus W q -> (0 < k)%nat -> (0 < n)%nat -> wf_nkey Qk q k n sk ->
  2 <= p -> p * q <= 2 ^ 64 -> length e = k -> (forall i, (i < k)%nat -> wf_mask q n (e !!! i)) ->
  t ≡[q] sumZ k (fun i => (e !!! i).[0]) -> 2 * p * (Z.abs t + p) < q ->
  returns (Encrypt sk m p q e) (fun ct => wf_nct q k n ct /\ ct_pt ct = p /\ Decrypt2 sk ct p = Ok (m mod 2 ^ 64 mod p)).
Proof.
  intros HQk Hq Hk Hn Hsk Hp Hpq Le He Ht Hnoise. pose proof (two_q (q := q)).
  assert (p <= q) by nia.
  eapply returns_mono; [apply (Encrypt_phase (q := q) Qk k n); (done || lia)|].
  intros ct (Hct & Ep & Hph). split; [done|]. split; [done|].
  destruct (NTRU_Decrypt_spec (q := q) Qk k n sk ct p) as [-> _]; try done; [apply Hsk|]. f_equal.
  apply round_phase_correct with (e := t); [lia|apply Z.mod_pos_bound; lia|lia| |done].
  by rewrite Hph, Ht.
Qed.

Lemma NTRU_Encrypt_Decrypt_correct_witness :
  returns (Encrypt (MNTRUSk [[NVec 512 [1; 1]; NVec 512 [0; 1]]] [[NVec 512 [1; 511]; NVec 512 [0; 1]]]) 3 4 512 [NVec 512 [2; 510]])
    (fun ct => Decrypt2 (MNTRUSk [[NVec 512 [1; 1]; NVec 512 [0; 1]]] [[NVec 512 [1; 511]; NVec 512 [0; 1]]]) ct 4 = Ok 3).
Proof.
  assert (NativeModulus W 512) as Hq by (apply native_modulus_bits; unfold W; lia).
  eapply returns_mono.
  - apply (NTRU_Encrypt_Decrypt_correct 512 512 1 2 (MNTRUSk [[NVec 512 [1; 1]; NVec 512 [0; 1]]] [[NVec 512 [1; 511]; NVec 512 [0; 1]]])
      3 4 2 [NVec 512 [2; 510]]); try done; try lia.
    + by apply nkey_ok_spec.
    + apply (forall_below _ (fun u => mask_ok 512 2 ([NVec 512 [2; 510]] !!! u))); [|done]. intros u. apply mask_ok_spec.
  - intros ct (_ & _ & H). exact H.
Defined.

(** The decryptions of the outputs of a gate.  [DecryptNAND] returns the
    plaintext of a ciphertext whose phase encodes it modulo half of [p];
    [Decrypt] that of a ciphertext whose phase is lower than the encoding by
    [q / p - q / (2 p)], the offset its rounding adds. *)
Theorem NTRU_gate_decryption (Qk q : Z) (k n : nat) (sk : MNTRUPrivateKey) (ct : MNTRUCiphertext) (m p e : Z) :
  let x := n_phase k n (fcol Qk sk) ct in
  NativeModulus W Qk -> NativeModulus W q -> (0 < k)%nat -> (0 < n)%nat -> wf_mats Qk k n n (F sk) -> wf_nct q k n ct ->
  2 <= p -> p * q <= 2 ^ 64 -> 2 * p * (Z.abs e + p) < q ->
  (0 <= m < p / 2 -> Z.even p = true -> x ≡[q] m * (q / (p / 2)) + e -> DecryptNAND sk ct p = Ok m) /\
  (0 <= m < p -> x ≡[q] m * (q / p) + e - (q / p - q / (p * 2)) -> Decrypt sk ct p = Ok m).
Proof.
  intros x HQk Hq Hk Hn HF Hct Hp Hpq He. pose proof (two_q (q := q)).
  destruct (NTRU_Decrypt_spec (q := q) Qk k n sk ct p) as (_ & E2 & E3); try done. fold x in E2, E3. rewrite E2, E3.
  split; intros Hm.
  - intros Hev Hx. f_equal. assert (p = p / 2 * 2) as E.
    { pose proof (Z.div_mod p 2 ltac:(lia)) as Ed. rewrite Zmod_even, Hev in Ed. lia. }
    apply round_phase_correct with (e := e); try done; nia.
  - intros Hx. rewrite <- E2. by apply (Decrypt_offset (q := q) Qk k n sk ct m p e).
Qed.

Lemma NTRU_gate_decryption_witness :
  Decrypt (MNTRUSk [[NVec 512 [1; 1]; NVec 512 [0; 1]]] [[NVec 512 [1; 511]; NVec 512 [0; 1]]]) (MNTRUCt [NVec 512 [194; 318]] 4) 4 = Ok 2.
Proof.
  assert (NativeModulus W 512) as Hq by (apply native_modulus_bits; unfold W; lia).
  apply (NTRU_gate_decryption 512 512 1 2 (MNTRUSk [[NVec 512 [1; 1]; NVec 512 [0; 1]]] [[NVec 512 [1; 511]; NVec 512 [0; 1]]])
    (MNTRUCt [NVec 512 [194; 318]] 4) 2 4 2); try done; try lia.
  - by apply mats_ok_spec.
  - by apply nct_ok_spec.
Defined.

(** C35: key generation.  For every inversion routine that returns, when it
    returns, an array of residues which is a left inverse, and for candidates
    of which each user has an invertible one, [KeyGen] returns a well-formed
    key: matrices of residues such that for every user the product of the
    second matrix by the first one is the identity modulo [q], entry by
    entry. *)
Theorem NTRU_KeyGen_correct (q : Z) (k n : nat) (inv : Z -> list (list Z) -> option (list (list Z)))
    (candidates : nat -> list (list (list Z))) :
  (forall m m', wf_array q n m -> inv q m = Some m' -> wf_array q n m' /\ mat_mul_is_one q n m' m) ->
  4 <= q < 2 ^ 32 -> (0 < n)%nat ->
  (forall u, (u < k)%nat -> (forall c, c ∈ candidates u -> length c = n /\ forall i, (i < n)%nat -> length (c !!! i) = n) /\
     exists c, c ∈ candidates u /\ inv q (map (map (fun x => x mod q)) c) <> None) ->
  returns (KeyGen inv k q candidates) (fun sk => wf_nkey q q k n sk /\
    forall u i j, (u < k)%nat -> (i < n)%nat -> (j < n)%nat ->
      sumZ n (fun l => entry (F_inv sk) u i l * entry (F sk) u l j) ≡[q] if decide (i = j) then 1 else 0).
Proof.
  intros Hinv Hq Hn Hc. unfold KeyGen. rewrite (Z.mod_small q (2 ^ 32)) by lia.
  eapply returns_bind.
  { apply (tabulateM_returns k _ (fun _ (MM : matrix * matrix) => wf_mat q n n MM.1 /\ wf_mat q n n MM.2 /\
      forall i j, (i < n)%nat -> (j < n)%nat -> sumZ n (fun l => (MM.2 !!! i).[l] * (MM.1 !!! l).[j]) ≡[q] if decide (i = j) then 1 else 0)).
    intros u Hu. destruct (Hc u Hu) as [Hlen Hex].
    eapply returns_mono; [by apply (Get_invertible_Matrix_spec q n ltac:(lia) inv)|]. intros [M M'] H. exact H. }
  intros l [Ll Hl]. apply returns_ok. split; [|intros u i j Hu Hi Hj; unfold entry; cbn [F F_inv]; rewrite !lookup_total_map by lia; by apply Hl]. split; cbn [F F_inv].
  - split; [by rewrite length_map|]. intros i Hi. rewrite lookup_total_map by lia. by apply Hl.
  - split; [by rewrite length_map|]. intros i Hi. rewrite lookup_total_map by lia. by apply Hl.
  - intros i r Hi Hr. destruct (Hl i Hi) as (_ & _ & Hone). specialize (Hone r 0%nat Hr Hn). rewrite <- Hone.
    unfold finv, fcol, entry; cbn [F F_inv]. rewrite !lookup_total_map by lia.
    apply sumZ_eqm. intros j Hj. by rewrite !centred_eqm.
Qed.

(** A concrete inversion: two by two matrices of determinant one. *)
Definition inv2 (q : Z) (m : list (list Z)) : option (list (list Z)) :=
  match m with
  | [[a; b]; [c; d]] => if (a * d - b * c) mod q =? 1 then Some [[d; (- b) mod q]; [(- c) mod q; a]] else None
  | _ => None
  end.

Lemma inv2_ok q m m' : 4 <= q -> wf_array q 2 m -> inv2 q m = Some m' -> wf_array q 2 m' /\ mat_mul_is_one q 2 m' m.
Proof.
  intros Hq [Lm Hm] E. destruct m as [|[|a [|b [|]]] [|[|c [|d [|]]] [|]]]; try done. cbn in E.
  destruct (Z.eqb_spec ((a * d - b * c) mod q) 1) as [Hdet|]; [|done]. injection E as <-.
  destruct (Hm 0%nat ltac:(lia)) as [_ H0]. destruct (Hm 1%nat ltac:(lia)) as [_ H1]. cbn in H0, H1.
  inversion H0 as [|? ? Ha H0']; inversion H0' as [|? ? Hb ?]. inversion H1 as [|? ? Hc H1']; inversion H1' as [|? ? Hd ?]. subst.
  assert (forall x, reduced q (x mod q)) as Hr by (intros; apply Z.mod_pos_bound; lia).
  assert (a * d - b * c ≡[q] 1) as Hd1 by (unfold eqm; rewrite Hdet, Z.mod_small; lia).
  split.
  - split; [done|]. intros [|[|i]] Hi; try lia; cbn; (split; [done|]; constructor; [first [done|apply Hr]|constructor; [first [done|apply Hr]|constructor]]).
  - intros [|[|i]] [|[|j]] Hi Hj; try lia; cbn; rewrite ?eqm_mod.
    + transitivity (a * d - b * c); [apply eqm_refl; ring|done].
    + rewrite decide_False by lia. apply eqm_refl. ring.
    + rewrite decide_False by lia. apply eqm_refl. ring.
    + transitivity (a * d - b * c); [apply eqm_refl; ring|done].
Qed.

Lemma NTRU_KeyGen_correct_witness :
  returns (KeyGen inv2 2 512 (fun u => [[[0; 1]; [1; 0]]; [[1; Z.of_nat u]; [-1; 1 - Z.of_nat u]]])) (fun sk => wf_nkey 512 512 2 2 sk /\
    forall u i j, (u < 2)%nat -> (i < 2)%nat -> (j < 2)%nat ->
      sumZ 2 (fun l => entry (F_inv sk) u i l * entry (F sk) u l j) ≡[512] if decide (i = j) then 1 else 0).
Proof.
  apply (NTRU_KeyGen_correct 512 2 2 inv2); [|lia|lia|].
  - intros m m'. by apply inv2_ok.
  - intros [|[|u]] Hu; try lia; split.
    + intros c Hc. apply elem_of_cons in Hc as [->|Hc]; [|apply list_elem_of_singleton in Hc as ->];
        (split; [done|intros [|[|i]] Hi; (done || lia)]).
    + exists [[1; 0]; [-1; 1]]. split; [apply elem_of_cons; right; by apply list_elem_of_singleton|done].
    + intros c Hc. apply elem_of_cons in Hc as [->|Hc]; [|apply list_elem_of_singleton in Hc as ->];
        (split; [done|intros [|[|i]] Hi; (done || lia)]).
    + exists [[1; 1]; [-1; 0]]. split; [apply elem_of_cons; right; by apply list_elem_of_singleton|done].
Defined.

(** C26: key switching.  With the key [KeySwitchGen] makes, whose product by
    the inverse matrices is unrolled by four columns and computed in signed
    64-bit arithmetic that does not overflow, the phase under the matrices is
    the phase under the large keys plus, for each user, the first entry of the
    drawn error times the sum of all the digits. *)
Theorem NTRU_KeySwitch_correct (ps : MNTRUCryptoParams) (sk : MNTRUPrivateKey) (skN : list NativeVector)
    (E : nat -> NativeVector) (ct : MNTRUCiphertext) :
  let q := n_qKS ps in let k := n_k ps in let n := n_n ps in let N := n_N ps in
  let d := digit_count (n_baseKS ps) q in
  NativeModulus W q -> 2 <= n_baseKS ps <= q -> q <= 2 ^ 31 -> (0 < k)%nat -> (0 < n)%nat -> (0 < N)%nat ->
  Z.of_nat n * (q / 2 * (q / 2)) < 2 ^ 63 ->
  length skN = k -> (forall u, (u < k)%nat -> wf_vec W (skN !!! u) /\ length (data (skN !!! u)) = N) ->
  (forall u, wf_mask q n (E u)) -> wf_nkey q q k n sk -> wf_nct q k N ct ->
  returns (K ← KeySwitchGen ps sk skN E; KeySwitch ps K ct) (fun ct' => wf_nct q k n ct' /\
    n_phase k n (fcol q sk) ct' ≡[q] n_phase k N (fun u i => key_ints (skN !!! u) !!! i) ct +
      sumZ k (fun u => (E u).[0] * sumZ N (fun i => sumZ d (fun j => digit (n_baseKS ps) (elements ct !!! u).[i] j)))).
Proof.
  intros q k n N d Hq Hb Hs Hk Hn HN Hfit LN HsN HE Hsk Hct.
  eapply returns_bind; [by apply (NTRU_KeySwitchGen_spec (q := q) (n_baseKS ps) Hb Hs ps sk skN E)|]. intros K HK.
  rewrite (KeySwitch_eq (n_baseKS ps) Hb Hs k n N) by (done || apply HK). apply returns_ok.
  apply (switched_phase (n_baseKS ps) Hb Hs k n N Hk HN) with (noise := fun u => (E u).[0]); done.
Qed.

(** The two key switchings agree.  [KeySwitchGen2] tabulates the multiples
    of the key of [KeySwitchGen] made with the same errors, and [KeySwitch2],
    which replaces every product by a lookup in the table and skips the zero
    digits, computes exactly the ciphertext of [KeySwitch]. *)
Theorem NTRU_KeySwitch2_equivalent (ps : MNTRUCryptoParams) (sk : MNTRUPrivateKey) (skN : list NativeVector)
    (E : nat -> NativeVector) (ct : MNTRUCiphertext) :
  let q := n_qKS ps in let k := n_k ps in let n := n_n ps in let N := n_N ps in
  NativeModulus W q -> 2 <= n_baseKS ps <= q -> q <= 2 ^ 31 -> (0 < k)%nat -> (0 < n)%nat -> (0 < N)%nat ->
  Z.of_nat n * (q / 2 * (q / 2)) < 2 ^ 63 ->
  length skN = k -> (forall u, (u < k)%nat -> wf_vec W (skN !!! u) /\ length (data (skN !!! u)) = N) ->
  (forall u, wf_mask q n (E u)) -> wf_nkey q q k n sk -> wf_nct q k N ct ->
  exists ct', (K ← KeySwitchGen ps sk skN E; KeySwitch ps K ct) = Ok ct' /\
              (K ← KeySwitchGen2 ps sk skN E; KeySwitch2 ps K ct) = Ok ct'.
Proof.
  intros q k n N Hq Hb Hs Hk Hn HN Hfit LN HsN HE Hsk Hct.
  destruct (NTRU_KeySwitchGen_spec (q := q) (n_baseKS ps) Hb Hs ps sk skN E) as (K & EK & [HK _]); try done.
  exists (switched (q := q) (n_baseKS ps) k n N K ct). split.
  - rewrite EK, bind_ok. by rewrite (KeySwitch_eq (n_baseKS ps) Hb Hs k n N).
  - destruct (KeySwitchGen2_multiples (q := q) (n_baseKS ps) Hb Hs k n N Hk HN ps sk skN E K) as (K2 & -> & HK2); try done.
    rewrite bind_ok. by rewrite (KeySwitch2_eq (n_baseKS ps) Hb Hs k n N Hk HN ps K K2).
Qed.

(** The instance of the two witnesses. *)
Definition ksw_params := MNTRUParams 1 2 2 512 4096 1024 32.
Definition ksw_key := MNTRUSk [[NVec 1024 [1; 1]; NVec 1024 [0; 1]]] [[NVec 1024 [1; 1023]; NVec 1024 [0; 1]]].
Definition ksw_big := [NVec 4096 [1; 4095]].
Definition ksw_err (_ : nat) : NativeVector := NVec 1024 [1; 1023].
Definition ksw_in := MNTRUCt [NVec 1024 [1000; 77]] 4.

Lemma ksw_q : NativeModulus W 1024.
Proof. apply native_modulus_bits; unfold W; lia. Qed.
Lemma ksw_skN u : (u < 1)%nat -> wf_vec W (ksw_big !!! u) /\ length (data (ksw_big !!! u)) = 2%nat.
Proof.
  assert (NativeModulus W 4096) by (apply native_modulus_bits; unfold W; lia).
  intros Hu. destruct u; [|lia]. split; [by apply wf_vec_check|done].
Qed.
Lemma ksw_E u : wf_mask 1024 2 (ksw_err u).
Proof. by apply mask_ok_spec. Qed.
Lemma ksw_sk : wf_nkey 1024 1024 1 2 ksw_key.
Proof. by apply nkey_ok_spec. Qed.
Lemma ksw_ct : wf_nct 1024 1 2 ksw_in.
Proof. by apply nct_ok_spec. Qed.

Lemma NTRU_KeySwitch_correct_witness :
  returns (K ← KeySwitchGen ksw_params ksw_key ksw_big ksw_err; KeySwitch ksw_params K ksw_in) (fun ct' => wf_nct 1024 1 2 ct' /\
    n_phase 1 2 (fcol 1024 ksw_key) ct' ≡[1024] n_phase 1 2 (fun _ i => [1; -1] !!! i) ksw_in + 54).
Proof.
  eapply returns_mono; [apply (NTRU_KeySwitch_correct ksw_params ksw_key ksw_big ksw_err ksw_in ksw_q); first [exact ksw_E | exact ksw_skN | exact ksw_sk
    | exact ksw_ct | done | (cbn; lia)]|].
  intros ct' [H1 H2]. split; [exact H1|exact H2].
Defined.

Lemma NTRU_KeySwitch2_equivalent_witness :
  exists ct', (K ← KeySwitchGen ksw_params ksw_key ksw_big ksw_err; KeySwitch ksw_params K ksw_in) = Ok ct' /\
              (K ← KeySwitchGen2 ksw_params ksw_key ksw_big ksw_err; KeySwitch2 ksw_params K ksw_in) = Ok ct'.
Proof.
  apply (NTRU_KeySwitch2_equivalent ksw_params ksw_key ksw_big ksw_err ksw_in ksw_q); first [exact ksw_E | exact ksw_skN | exact ksw_sk
    | exact ksw_ct | done | (cbn; lia)].
Defined.

(** Modulus switching and addition.  The phase is scaled by [q / Q] with
    an error of half a unit for each unit of the 1-norm of the first columns,
    and the phases of sums and differences add up. *)
Theorem NTRU_operations_phase (q Q : Z) (k n : nat) (f : nat -> nat -> Z) (ct1 ct2 : MNTRUCiphertext) :
  NativeModulus W Q -> 0 < q -> 6 * Q * q + 3 * Q + q < 2 ^ 53 -> (0 < k)%nat -> wf_nct Q k n ct1 -> wf_nct Q k n ct2 ->
  returns (ModSwitch q ct1) (fun ct => wf_nct q k n ct /\
    exists c, 2 * Z.abs (Q * (n_phase k n f ct + c * q) - q * n_phase k n f ct1) <= Q * n_norm1 k n f) /\
  returns (EvalAddEq ct1 ct2) (fun ct => wf_nct Q k n ct /\ n_phase k n f ct ≡[Q] n_phase k n f ct1 + n_phase k n f ct2) /\
  returns (EvalSubEq ct1 ct2) (fun ct => wf_nct Q k n ct /\ n_phase k n f ct ≡[Q] n_phase k n f ct1 - n_phase k n f ct2).
Proof.
  intros HQ Hq Hfit Hk H1 H2. pose proof (two_q (q := Q)).
  split; [apply NTRU_ModSwitch_spec; (done || lia)|by apply Eval_spec].
Qed.

Lemma NTRU_operations_phase_witness :
  returns (EvalSubEq (MNTRUCt [NVec 4096 [4095; 33]] 4) (MNTRUCt [NVec 4096 [7; 100]] 4)) (fun ct => wf_nct 4096 1 2 ct).
Proof.
  assert (NativeModulus W 4096) as Hq by (apply native_modulus_bits; unfold W; lia).
  eapply returns_mono; [apply (NTRU_operations_phase 512 4096 1 2 (fun _ l => Z.of_nat l) (MNTRUCt [NVec 4096 [4095; 33]] 4)
    (MNTRUCt [NVec 4096 [7; 100]] 4)); first [done | lia | by apply nct_ok_spec]|].
  intros ct [H _]. exact H.
Defined.

(** C36: the matrix of a ring element.  Multiplying a row by [Get_MatrixA s]
    with [MatrixMultiply] is the product in [Z_q[x] / (x^n + 1)]: the result is
    the negacyclic product of the coefficients, and its value at every root
    [x] of [x^n + 1] is the product of the values of the two factors. *)
Theorem NTRU_matrix_is_ring_product (q : Z) (n : nat) (v s : NativeVector) :
  NativeModulus W q -> (0 < n)%nat -> wf_mask q n v -> wf_mask q n s ->
  let r := map (negacyclic q n (fun i => v.[i]) (fun i => s.[i])) (seq 0 n) in
  (A ← Get_MatrixA s; P ← MatrixMultiply [v] A q; vget P 0) = Ok (NVec q r) /\
  forall x, x ^ Z.of_nat n ≡[q] -1 ->
    peval n (fun j => r !!! j) x ≡[q] peval n (fun i => v.[i]) x * peval n (fun i => s.[i]) x.
Proof.
  intros Hq Hn Hv Hs r. pose proof Hs as (Es & Ls & Fs). pose proof Hv as (Ev & Lv & Fv). split.
  - rewrite <- Ls in Hs. rewrite (Get_MatrixA_spec s Hs), bind_ok, Ls.
    set (a := fun i j => if (j <? i)%nat then (- s.[n - i + j]) mod q else s.[j - i]).
    set (A := map (fun i => NVec q (map (fun j => a i j) (seq 0 n))) (seq 0 n)).
    assert (forall i, (i < n)%nat -> A !!! i = NVec q (map (fun j => a i j) (seq 0 n))) as HA
      by (intros i Hi; unfold A; by rewrite lookup_total_tab).
    assert (wf_mat q n n A) as HwA.
    { split; [apply length_tab|]. intros i Hi. rewrite HA by done. split; [done|]. cbn [data]. rewrite length_tab. split; [done|].
      apply Forall_tab. intros j Hj. unfold a. destruct (j <? i)%nat; [apply (nm_mod (w := W))|]. apply reduced_at; [done|lia]. }
    rewrite (MatrixMultiply_spec [v] A 1 n n), bind_ok; [|lia|done| |done].
    2: { split; [done|]. intros i Hi. destruct i; [done|lia]. }
    cbn [seq map vget]. unfold r. change (vget [?x] 0) with (Ok x). f_equal. f_equal. apply list_total_ext; [by rewrite !length_tab|].
    intros j Hj. rewrite length_tab in Hj. rewrite !lookup_total_tab by done. unfold negacyclic. f_equal.
    apply sumZ_ext. intros i Hi. rewrite HA by done. cbn [data]. rewrite lookup_total_tab by done. done.
  - intros x Hx. rewrite <- negacyclic_eval by done. apply sumZ_eqm. intros j Hj. unfold r. by rewrite lookup_total_tab.
Qed.

Lemma NTRU_matrix_is_ring_product_witness :
  (A ← Get_MatrixA (NVec 17 [1; 16]); P ← MatrixMultiply [NVec 17 [2; 3]] A 17; vget P 0) = Ok (NVec 17 [5; 1]).
Proof.
  assert (NativeModulus W 17) as Hq by (apply native_modulus_bits; unfold W; lia).
  apply (NTRU_matrix_is_ring_product 17 2 (NVec 17 [2; 3]) (NVec 17 [1; 16])); try done; try lia; by apply mask_ok_spec.
Defined.
