(* ===== verification/RingNoise.v ===== *)
(** * Sizes of ring elements

    Sums and monomials of the ring, and two sizes of an element: [inf_le b a]
    says that every coefficient has a representative of absolute value at most
    [b], [l1_le l a] that the coefficients have representatives whose absolute
    values sum to at most [l].  They bound the noise of products. *)

From Stdlib Require Import ZArith Lia String.
From stdpp Require Import base tactics numbers list strings gmap.
From S2P Require Import Prelude Double NativeInt NativeIntFacts ModArith NativeVec SchemeCore Negacyclic BitReverse Ntt NttFacts NttSpec NttRing Poly PolyFacts.

(** ** Definitions *)
Fixpoint rsum (q : Z) (n m : nat) (f : nat -> list Z) : list Z :=
  match m with O => rzero n | S m => radd q (rsum q n m f) (f m) end.

(** [c x^j]. *)
Definition rterm (q : Z) (n : nat) (c : Z) (j : nat) : list Z := <[j := c mod q]> (repeat 0 n).

(** [x^e] with [x^n = -1], for any integer exponent. *)
Definition mono (q : Z) (n : nat) (e : Z) : list Z :=
  let r := Z.to_nat (e mod (2 * Z.of_nat n)) in
  if (r <? n)%nat then rterm q n 1 r else rterm q n (-1) (r - n).

Definition inf_le (q : Z) (n : nat) (b : Z) (a : list Z) : Prop := forall j, (j < n)%nat -> exists e, a !!! j ≡[q] e /\ Z.abs e <= b.
Definition l1_le (q : Z) (n : nat) (l : Z) (a : list Z) : Prop :=
  exists w : nat -> Z, (forall j, (j < n)%nat -> a !!! j ≡[q] w j) /\ sumZ n (fun j => Z.abs (w j)) <= l.

(** ** Integer sums *)
Lemma sumZ_abs n f : Z.abs (sumZ n f) <= sumZ n (fun j => Z.abs (f j)).
Proof. induction n as [|n IH]; cbn [sumZ]; lia. Qed.

Lemma sumZ_le n f g : (forall j, (j < n)%nat -> f j <= g j) -> sumZ n f <= sumZ n g.
Proof.
  induction n as [|n IH]; intros H; cbn [sumZ]; [lia|]. specialize (IH ltac:(intros; apply H; lia)). specialize (H n ltac:(lia)). lia.
Qed.

Lemma sumZ_rotate n i (g : nat -> Z) : (i < n)%nat -> sumZ n (fun j => if (j <? i)%nat then g (n - i + j)%nat else g (j - i)%nat) = sumZ n g.
Proof.
  intros Hi. rewrite (sumZ_split_at n i) by lia. rewrite (sumZ_split_at n (n - i) g) by lia.
  replace (n - (n - i))%nat with i by lia. rewrite Z.add_comm. f_equal; apply sumZ_ext; intros j Hj.
  - destruct (Nat.ltb_spec (i + j) i); [lia|]. f_equal. lia.
  - destruct (Nat.ltb_spec j i); [|lia]. f_equal.
Qed.

(** ** Sizes *)
Section Sizes.
Context (q : Z) (n : nat).
Implicit Types a : list Z.

Lemma inf_le_mono b b' a : b <= b' -> inf_le q n b a -> inf_le q n b' a.
Proof. intros Hb H j Hj. destruct (H j Hj) as (e & E & Hle). exists e. split; [done|lia]. Qed.
Lemma l1_le_mono l l' a : l <= l' -> l1_le q n l a -> l1_le q n l' a.
Proof. intros Hl (w & E & H). exists w. split; [done|lia]. Qed.

Lemma l1_inf l a : l1_le q n l a -> inf_le q n l a.
Proof.
  intros (w & E & H) j Hj. exists (w j). split; [by apply E|].
  assert (Z.abs (w j) <= sumZ n (fun j => Z.abs (w j))); [|lia]. rewrite (sumZ_split_at n j) by lia.
  assert (forall m f, (forall i, 0 <= f i) -> 0 <= sumZ m f) as Hnn.
  { intros m f Hf. induction m; cbn [sumZ]; [lia|]. specialize (Hf m). lia. }
  pose proof (Hnn j (fun j => Z.abs (w j)) ltac:(intros; lia)).
  replace (n - j)%nat with (1 + (n - j - 1))%nat by lia. rewrite sumZ_split. cbn [sumZ].
  pose proof (Hnn (n - j - 1)%nat (fun i => Z.abs (w (j + (1 + i))%nat)) ltac:(intros; lia)). rewrite Nat.add_0_r. lia.
Qed.

Lemma inf_radd b1 b2 a1 a2 : length a1 = n -> length a2 = n -> inf_le q n b1 a1 -> inf_le q n b2 a2 -> inf_le q n (b1 + b2) (radd q a1 a2).
Proof.
  intros L1 L2 H1 H2 j Hj. destruct (H1 j Hj) as (x & Ex & Hx), (H2 j Hj) as (y & Ey & Hy). exists (x + y). split; [|lia].
  unfold radd. rewrite vec_op_lookup by lia. by rewrite eqm_mod, Ex, Ey.
Qed.
Lemma inf_rsub b1 b2 a1 a2 : length a1 = n -> length a2 = n -> inf_le q n b1 a1 -> inf_le q n b2 a2 -> inf_le q n (b1 + b2) (rsub q a1 a2).
Proof.
  intros L1 L2 H1 H2 j Hj. destruct (H1 j Hj) as (x & Ex & Hx), (H2 j Hj) as (y & Ey & Hy). exists (x - y). split; [|lia].
  unfold rsub. rewrite vec_op_lookup by lia. by rewrite eqm_mod, Ex, Ey.
Qed.
Lemma inf_rzero : inf_le q n 0 (rzero n).
Proof. intros j Hj. exists 0. split; [|lia]. unfold rzero. by rewrite zeros_lookup. Qed.
Lemma l1_rzero : l1_le q n 0 (rzero n).
Proof.
  exists (fun _ => 0). split; [intros j Hj; unfold rzero; by rewrite zeros_lookup|]. cbn [Z.abs]. by rewrite sumZ_zero.
Qed.

Lemma l1_radd l1 l2 a1 a2 : length a1 = n -> length a2 = n -> l1_le q n l1 a1 -> l1_le q n l2 a2 -> l1_le q n (l1 + l2) (radd q a1 a2).
Proof.
  intros L1 L2 (w1 & E1 & H1) (w2 & E2 & H2). exists (fun j => w1 j + w2 j). split.
  - intros j Hj. unfold radd. rewrite vec_op_lookup by lia. by rewrite eqm_mod, E1, E2.
  - etransitivity; [apply (sumZ_le _ _ (fun j => Z.abs (w1 j) + Z.abs (w2 j))); intros; lia|]. rewrite sumZ_add. lia.
Qed.
Lemma l1_rsub l1 l2 a1 a2 : length a1 = n -> length a2 = n -> l1_le q n l1 a1 -> l1_le q n l2 a2 -> l1_le q n (l1 + l2) (rsub q a1 a2).
Proof.
  intros L1 L2 (w1 & E1 & H1) (w2 & E2 & H2). exists (fun j => w1 j - w2 j). split.
  - intros j Hj. unfold rsub. rewrite vec_op_lookup by lia. by rewrite eqm_mod, E1, E2.
  - etransitivity; [apply (sumZ_le _ _ (fun j => Z.abs (w1 j) + Z.abs (w2 j))); intros; lia|]. rewrite sumZ_add. lia.
Qed.

(** The product of an element with small sum and one with small entries. *)
Lemma inf_rmul l b c a : 0 <= b -> l1_le q n l c -> inf_le q n b a -> inf_le q n (l * b) (rmul q n c a).
Proof.
  intros Hb (w & Ew & Hw) Ha j Hj. unfold rmul. rewrite lookup_total_tab by done. unfold negacyclic.
  assert (forall m, (m <= n)%nat -> exists e, sumZ m (fun i => c !!! i * (if (j <? i)%nat then (- a !!! (n - i + j)%nat) mod q else a !!! (j - i)%nat)) ≡[q] e /\
    Z.abs e <= sumZ m (fun i => Z.abs (w i) * b)) as H.
  { induction m as [|m IH]; intros Hm; cbn [sumZ]; [by exists 0|]. destruct (IH ltac:(lia)) as (e & Ee & He).
    assert (exists y, (if (j <? m)%nat then (- a !!! (n - m + j)%nat) mod q else a !!! (j - m)%nat) ≡[q] y /\ Z.abs y <= b) as (y & Ey & Hy).
    { destruct (Nat.ltb_spec j m).
      - destruct (Ha (n - m + j)%nat ltac:(lia)) as (y & Ey & Hy). exists (- y). split; [by rewrite eqm_mod, Ey|lia].
      - destruct (Ha (j - m)%nat ltac:(lia)) as (y & Ey & Hy). by exists y. }
    exists (e + w m * y). split; [by rewrite Ee, Ey, Ew by lia|].
    assert (Z.abs (w m * y) <= Z.abs (w m) * b) by (rewrite Z.abs_mul; apply Z.mul_le_mono_nonneg_l; lia). lia. }
  destruct (H n ltac:(lia)) as (e & Ee & He). exists e. split; [by rewrite eqm_mod|]. rewrite sumZ_scale_r in He.
  assert (sumZ n (fun j => Z.abs (w j)) * b <= l * b) by (apply Z.mul_le_mono_nonneg_r; lia). lia.
Qed.

Lemma l1_rmul l l' c a : l1_le q n l c -> l1_le q n l' a -> 0 <= l' -> l1_le q n (l * l') (rmul q n c a).
Proof.
  intros (w & Ew & Hw) (v & Ev & Hv) Hl'.
  set (g := fun i j => if (j <? i)%nat then - v (n - i + j)%nat else v (j - i)%nat).
  exists (fun j => sumZ n (fun i => w i * g i j)). split.
  - intros j Hj. unfold rmul. rewrite lookup_total_tab by done. unfold negacyclic. rewrite eqm_mod. apply sumZ_eqm. intros i Hi.
    rewrite Ew by done. apply eqm_mul; [done|]. unfold g. destruct (Nat.ltb_spec j i); [rewrite eqm_mod|]; rewrite Ev by lia; done.
  - etransitivity; [apply (sumZ_le _ _ (fun j => sumZ n (fun i => Z.abs (w i) * Z.abs (g i j))))|].
    { intros j Hj. etransitivity; [apply sumZ_abs|]. apply sumZ_le. intros. rewrite Z.abs_mul. lia. }
    rewrite sumZ_swap. etransitivity; [apply (sumZ_le _ _ (fun i => Z.abs (w i) * l'))|].
    { intros i Hi. rewrite sumZ_scale. apply Z.mul_le_mono_nonneg_l; [lia|].
      rewrite (sumZ_ext _ _ (fun j => if (j <? i)%nat then Z.abs (v (n - i + j)%nat) else Z.abs (v (j - i)%nat))).
      - rewrite (sumZ_rotate n i (fun j => Z.abs (v j))) by done. done.
      - intros j Hj. unfold g. destruct (_ <? _)%nat; lia. }
    rewrite sumZ_scale_r. apply Z.mul_le_mono_nonneg_r; lia.
Qed.

Lemma rterm_lookup c j i : (i < n)%nat -> rterm q n c j !!! i = if decide (i = j) then c mod q else 0.
Proof.
  intros Hi. unfold rterm. destruct (decide (i = j)) as [->|].
  - rewrite list_lookup_total_insert_eq; [done|]. by rewrite length_zeros.
  - rewrite list_lookup_total_insert_ne by done. by apply zeros_lookup.
Qed.

Lemma l1_rterm c j : (j < n)%nat -> l1_le q n (Z.abs c) (rterm q n c j).
Proof.
  intros Hj. exists (fun i => if decide (i = j) then c else 0). split.
  - intros i Hi. rewrite rterm_lookup by done. destruct (decide _); [apply eqm_mod|done].
  - rewrite (sumZ_ext _ _ (fun i => if decide (i = j) then Z.abs c else 0)); [|intros i _; by destruct (decide _)].
    rewrite (sumZ_delta n j (fun _ => Z.abs c)) by done. done.
Qed.

Lemma l1_mono e : (0 < n)%nat -> l1_le q n 1 (mono q n e).
Proof.
  intros Hn. unfold mono. pose proof (Z.mod_pos_bound e (2 * Z.of_nat n) ltac:(lia)).
  destruct (Nat.ltb_spec (Z.to_nat (e mod (2 * Z.of_nat n))) n); apply (l1_rterm 1) || apply (l1_rterm (-1)); lia.
Qed.
End Sizes.

(** ** Sums and monomials at the roots *)
Section AtRoots.
Context {st : FTT} {q psi : Z} {k : nat} {HR : RingTransform st q psi k}.
Abbreviation n := (2 ^ k)%nat.
Implicit Types (a b : list Z).
Abbreviation wf := (wf_data (q := q) k).
Abbreviation slot_ := (slot q psi k).

#[local] Instance noise_modulus : NativeModulus W q.
Proof using HR. exact rt_modulus. Qed.

Lemma rsum_wf m f : (forall i, (i < m)%nat -> wf (f i)) -> wf (rsum q n m f).
Proof using HR.
  induction m as [|m IH]; intros H; cbn [rsum]; [apply rzero_wf|]. apply radd_wf; [apply IH; intros; apply H; lia|apply H; lia].
Qed.

Lemma rsum_ext m f g : (forall i, (i < m)%nat -> f i = g i) -> rsum q n m f = rsum q n m g.
Proof using Type.
  clear. induction m as [|m IH]; intros H; cbn [rsum]; [done|]. rewrite IH by (intros; apply H; lia). by rewrite H by lia.
Qed.

Lemma slot_rsum x m f : (x < n)%nat -> (forall i, (i < m)%nat -> wf (f i)) -> slot_ x (rsum q n m f) ≡[q] sumZ m (fun i => slot_ x (f i)).
Proof using HR.
  intros Hx. induction m as [|m IH]; intros H; cbn [rsum sumZ]; [by apply (slot_rzero (HR := HR))|].
  rewrite (slot_radd (HR := HR)), IH; [done|intros; apply H; lia|done|apply rsum_wf; intros; apply H; lia|apply H; lia].
Qed.

Lemma inf_rsum m f (b : Z) : (forall i, (i < m)%nat -> wf (f i)) -> (forall i, (i < m)%nat -> inf_le q n b (f i)) -> inf_le q n (Z.of_nat m * b) (rsum q n m f).
Proof using HR.
  intros Hw H. induction m as [|m IH]; cbn [rsum]; [apply inf_rzero|].
  replace (Z.of_nat (S m) * b) with (Z.of_nat m * b + b) by lia.
  apply inf_radd; [apply rsum_wf; intros; apply Hw; lia|apply Hw; lia|apply IH; intros; [apply Hw|apply H]; lia|apply H; lia].
Qed.

Lemma radd_0_l a : wf a -> radd q (rzero n) a = a.
Proof using HR.
  intros Ha. apply (slot_ext (HR := HR)); [apply radd_wf; [apply rzero_wf|done]|done|]. intros x Hx.
  rewrite (slot_radd (HR := HR)), (slot_rzero (HR := HR)) by (done || apply rzero_wf). done.
Qed.

Lemma radd_0_r a : wf a -> radd q a (rzero n) = a.
Proof using HR.
  intros Ha. pose proof (rzero_wf (q := q) k) as Wz. apply (slot_ext (HR := HR)); [by apply radd_wf|done|]. intros x Hx.
  rewrite (slot_radd (HR := HR)), (slot_rzero (HR := HR)), Z.add_0_r by done. done.
Qed.

Lemma rmul_comm a b : wf a -> wf b -> rmul q n a b = rmul q n b a.
Proof using HR.
  intros Ha Hb. apply (slot_ext (HR := HR)); [apply rmul_wf|apply rmul_wf|]. intros x Hx.
  rewrite !(slot_rmul (HR := HR)) by done. apply eqm_refl. ring.
Qed.

(** The product bound with the factors in the other order. *)
Lemma inf_rmul_r l (b : Z) a c : wf a -> wf c -> 0 <= b -> inf_le q n b a -> l1_le q n l c -> inf_le q n (b * l) (rmul q n a c).
Proof using HR. intros Ha Hc Hb H1 H2. rewrite rmul_comm, Z.mul_comm by done. by apply inf_rmul. Qed.

Lemma rterm_wf c j : wf (rterm q n c j).
Proof using HR.
  split; [unfold rterm; by rewrite length_insert, length_zeros|]. apply Forall_insert; [|apply (nm_mod (w := W))].
  apply (rzero_wf (q := q) k).
Qed.

Lemma mono_wf e : wf (mono q n e).
Proof using HR. unfold mono. destruct (_ <? _)%nat; apply rterm_wf. Qed.

Lemma slot_rterm x c j : (j < n)%nat -> slot_ x (rterm q n c j) ≡[q] c * point psi k x ^ Z.of_nat j.
Proof using HR.
  intros Hj. unfold slot, peval. rewrite (sumZ_eqm q _ _ (fun i => if decide (i = j) then c * point psi k x ^ Z.of_nat i else 0)).
  - by rewrite (sumZ_delta _ j (fun i => c * point psi k x ^ Z.of_nat i)).
  - intros i Hi.  rewrite rterm_lookup by done. destruct (decide (i = j)); [by rewrite eqm_mod|]. apply eqm_refl. ring.
Qed.

Lemma slot_mono x e : slot_ x (mono q n e) ≡[q] point psi k x ^ (e mod (2 * Z.of_nat n)).
Proof using HR.
  assert (0 < n)%nat as Hn by (pose proof (pow2_pos_nat k); exact H). unfold mono. pose proof (Z.mod_pos_bound e (2 * Z.of_nat n) ltac:(lia)).
  destruct (Nat.ltb_spec (Z.to_nat (e mod (2 * Z.of_nat n))) n).
  - rewrite slot_rterm, Z2Nat.id by lia. apply eqm_refl. ring.
  - rewrite slot_rterm by lia. rewrite <- (point_root q psi k rt_root x). rewrite <- Z.pow_add_r by lia. apply eqm_refl. f_equal. lia.
Qed.

Lemma point_period x e : 0 <= e -> point psi k x ^ e ≡[q] point psi k x ^ (e mod (2 * Z.of_nat n)).
Proof using HR.
  intros He. assert (0 < n)%nat as Hn by (pose proof (pow2_pos_nat k); exact H).
  rewrite (Z.div_mod e (2 * Z.of_nat n)) at 1 by lia. pose proof (Z.div_pos e (2 * Z.of_nat n) He ltac:(lia)).
  pose proof (Z.mod_pos_bound e (2 * Z.of_nat n) ltac:(lia)).
  assert (point psi k x ^ (2 * Z.of_nat n) ≡[q] 1) as E.
  { rewrite Z.mul_comm, Z.pow_mul_r by lia. rewrite (eqm_pow_nonneg q _ (-1) 2 (point_root q psi k rt_root x)) by lia. done. }
  rewrite Z.pow_add_r, Z.pow_mul_r by lia. set (d := e / (2 * Z.of_nat n)) in *. rewrite (eqm_pow_nonneg q _ 1 d E) by done.
  rewrite Z.pow_1_l by done. by rewrite Z.mul_1_l.
Qed.

Lemma mono_add e1 e2 : rmul q n (mono q n e1) (mono q n e2) = mono q n (e1 + e2).
Proof using HR.
  assert (0 < n)%nat as Hn by (pose proof (pow2_pos_nat k); exact H).
  apply (slot_ext (HR := HR)); [apply rmul_wf|apply mono_wf|]. intros x Hx.
  rewrite (slot_rmul (HR := HR)), !slot_mono by (done || apply mono_wf).
  pose proof (Z.mod_pos_bound e1 (2 * Z.of_nat n) ltac:(lia)). pose proof (Z.mod_pos_bound e2 (2 * Z.of_nat n) ltac:(lia)).
  rewrite <- Z.pow_add_r by lia. rewrite point_period by lia. by rewrite <- Z.add_mod by lia.
Qed.

Lemma mono_periodic e e' : e mod (2 * Z.of_nat n) = e' mod (2 * Z.of_nat n) -> mono q n e = mono q n e'.
Proof using Type. unfold mono. by intros ->. Qed.

Lemma mono_0 x : slot_ x (mono q n 0) ≡[q] 1.
Proof using HR. rewrite slot_mono, Zmod_0_l. done. Qed.

(** A monomial turns the coefficients. *)
Lemma inf_mono (b : Z) e a : wf a -> 0 <= b -> inf_le q n b a -> inf_le q n b (rmul q n (mono q n e) a).
Proof using HR.
  intros Ha Hb H. rewrite <- (Z.mul_1_l b). apply inf_rmul; [done| |done]. apply l1_mono. apply pow2_pos_nat.
Qed.

(** The constant [m]. *)
Definition rconst (m : Z) : list Z := rterm q n m 0.

Lemma rconst_wf m : wf (rconst m).
Proof using HR. apply rterm_wf. Qed.
Lemma slot_rconst x m : slot_ x (rconst m) ≡[q] m.
Proof using HR. unfold rconst. rewrite slot_rterm by apply pow2_pos_nat. apply eqm_refl. rewrite Z.pow_0_r. ring. Qed.
Lemma rmul_rconst m w : wf w -> rmul q n (rconst m) w = rscale q m w.
Proof using HR.
  intros Hw. apply slot_ext; [apply rmul_wf|by apply rscale_wf|]. intros x Hx.
  rewrite slot_rmul, slot_rconst, slot_rscale by (done || apply rconst_wf). apply eqm_refl. ring.
Qed.

Lemma l1_rconst m : l1_le q n (Z.abs m) (rconst m).
Proof using Type. apply l1_rterm. apply pow2_pos_nat. Qed.

(** [x^T v] up to a noise of size [b]. *)
Definition rotated (v : list Z) (T bd : Z) (ph : list Z) : Prop :=
  exists noise, wf noise /\ inf_le q n bd noise /\ ph = radd q (rmul q n (mono q n T) v) noise.

Lemma rotated_wf v T (b : Z) ph : rotated v T b ph -> wf ph.
Proof using HR. intros (e & He & _ & ->). apply radd_wf; [apply rmul_wf|done]. Qed.

Lemma rotated_mono v T (b b' : Z) ph : b <= b' -> rotated v T b ph -> rotated v T b' ph.
Proof using Type. intros Hb (e & He & Be & E). exists e. split; [done|]. split; [by apply (inf_le_mono _ _ b)|done]. Qed.

Lemma rotated_periodic v T T' (b : Z) ph : T mod (2 * Z.of_nat n) = T' mod (2 * Z.of_nat n) -> rotated v T b ph -> rotated v T' b ph.
Proof using Type. intros E (e & He & Be & ->). exists e. by rewrite (mono_periodic T T' E). Qed.

Lemma rotated_start v : wf v -> rotated v 0 0 v.
Proof using HR.
  intros Hv. exists (rzero n). split; [apply rzero_wf|]. split; [apply inf_rzero|].
  apply (slot_ext (HR := HR)); [done|apply radd_wf; [apply rmul_wf|apply rzero_wf]|]. intros x Hx.
  rewrite (slot_radd (HR := HR)), (slot_rmul (HR := HR)), (slot_rzero (HR := HR)), mono_0 by (done || apply rmul_wf || apply rzero_wf || apply mono_wf).
  apply eqm_refl. ring.
Qed.

Lemma rotated_compose v T (b : Z) t N ph ph' : wf v -> 0 <= b -> rotated v T b ph -> rotated ph t N ph' -> rotated v (T + t) (b + N) ph'.
Proof using HR.
  intros Hv Hb (noise & Hn & Bn & ->) (noise' & Hn' & Bn' & ->).
  exists (radd q (rmul q n (mono q n t) noise) noise'). pose proof (mono_wf t) as Ht. pose proof (mono_wf T) as HT.
  assert (wf (rmul q n (mono q n t) noise)) as Hw by apply rmul_wf. split; [by apply radd_wf|]. split.
  - apply inf_radd; [apply Hw|apply Hn'| |done]. by apply inf_mono.
  - pose proof (rmul_wf k (mono q n T) v) as Hw2. pose proof (radd_wf k _ _ Hw2 Hn) as Hw3.
    pose proof (rmul_wf k (mono q n t) (radd q (rmul q n (mono q n T) v) noise)) as Hw4.
    pose proof (rmul_wf k (mono q n (T + t)) v) as Hw5. pose proof (radd_wf k _ _ Hw Hn') as Hw6. pose proof (mono_wf (T + t)) as Hw7.
    apply (slot_ext (HR := HR)); [by apply radd_wf|by apply radd_wf|]. intros x Hx.
    rewrite !(slot_radd (HR := HR)), !(slot_rmul (HR := HR)), (slot_radd (HR := HR)), (slot_rmul (HR := HR)) by done.
    rewrite <- mono_add, (slot_rmul (HR := HR)) by done. apply eqm_refl. ring.
Qed.
End AtRoots.
