(* ===== verification/RingCoefficients.v ===== *)
(** * Coefficients of products

    Coefficient by coefficient: the product of a ring element with a monomial,
    the transposed element, and the inner product with it, which is the
    constant coefficient of a product. *)

From Stdlib Require Import ZArith Lia String.
From stdpp Require Import base tactics numbers list strings.
From S2P Require Import Prelude Double NativeInt NativeIntFacts ModArith NativeVec SchemeCore Negacyclic BitReverse Ntt NttFacts NttSpec NttRing Poly PolyFacts Automorphism Gadget RingNoise.

(** ** Monomials and coefficients *)
Section Coefficients.
Context {st : FTT} {q psi : Z} {k : nat} {HR : RingTransform st q psi k}.
Abbreviation n := (2 ^ k)%nat.
Abbreviation wf := (wf_data (q := q) k).

#[local] Instance coefficients_modulus : NativeModulus W q.
Proof using HR. exact rt_modulus. Qed.

(** Coefficient [i] of [c x^r a]. *)
Lemma rmul_rterm c r a i : (r < n)%nat -> (i < n)%nat ->
  rmul q n (rterm q n c r) a !!! i ≡[q] c * (if (i <? r)%nat then - a !!! (n - r + i)%nat else a !!! (i - r)%nat).
Proof using Type.
  intros Hr Hi. unfold rmul. rewrite lookup_total_tab by done. unfold negacyclic. rewrite eqm_mod.
  rewrite (sumZ_eqm q _ _ (fun j => if decide (j = r) then c * (if (i <? j)%nat then - a !!! (n - j + i)%nat else a !!! (i - j)%nat) else 0)).
  - by rewrite (sumZ_delta n r (fun j => c * (if (i <? j)%nat then - a !!! (n - j + i)%nat else a !!! (i - j)%nat))).
  - intros j Hj. rewrite rterm_lookup by done. destruct (decide (j = r)); [|apply eqm_refl; ring].
    rewrite eqm_mod. destruct (i <? j)%nat; [by rewrite eqm_mod|done].
Qed.

(** Coefficient [i] of [x^b a]. *)
Lemma rmul_mono b a i : 0 <= b < 2 * Z.of_nat n -> (i < n)%nat ->
  let r := (Z.to_nat b mod n)%nat in
  let j := if (i <? r)%nat then (n - r + i)%nat else (i - r)%nat in
  rmul q n (mono q n b) a !!! i ≡[q] (if (Z.of_nat n <=? b + Z.of_nat j) && (b + Z.of_nat j <? 2 * Z.of_nat n) then - a !!! j else a !!! j).
Proof using Type.
  intros Hb Hi r j. unfold mono. rewrite Z.mod_small by done.
  destruct (Nat.ltb_spec (Z.to_nat b) n) as [Hlt|Hge].
  - assert (r = Z.to_nat b) as Er by (by apply Nat.mod_small). rewrite rmul_rterm, <- Er by lia. unfold j. destruct (Nat.ltb_spec i r).
    + rewrite (proj2 (Z.leb_le _ _)), (proj2 (Z.ltb_lt _ _)) by lia. apply eqm_refl. cbn [andb]. ring.
    + rewrite (proj2 (Z.leb_gt _ _)) by lia. apply eqm_refl. cbn [andb]. ring.
  - assert (r = (Z.to_nat b - n)%nat) as Er.
    { unfold r. symmetry. apply (Nat.mod_unique _ _ 1); lia. }
    rewrite rmul_rterm, <- Er by lia. unfold j. destruct (Nat.ltb_spec i r).
    + rewrite (proj2 (Z.ltb_ge _ _)), andb_false_r by lia. apply eqm_refl. ring.
    + rewrite (proj2 (Z.leb_le _ _)), (proj2 (Z.ltb_lt _ _)) by lia. apply eqm_refl. cbn [andb]. ring.
Qed.

(** The transposed element, coefficient by coefficient. *)
Lemma raut_transpose a i : wf a -> (i < n)%nat ->
  raut q n (2 * Z.of_nat n - 1) a !!! i ≡[q] (if (0 <? i)%nat then - a !!! (n - i)%nat else a !!! 0%nat).
Proof using HR.
  intros Ha Hi. set (K := 2 * Z.of_nat n - 1). assert (Z.odd K = true) as HK by (unfold K; rewrite Z.odd_sub, Z.odd_mul; done).
  destruct (raut_partial k K HK (fun x => (- x) mod q) a n (Nat.le_refl n)) as (_ & _ & He & _).
  change (foldl _ (repeat 0 n) (seq 0 n)) with (raut q n K a) in He.
  destruct (Nat.ltb_spec 0 i) as [H|H].
  - specialize (He (n - i)%nat ltac:(lia)).
    assert (raut_pos n K (n - i) = i) as Ep.
    { unfold raut_pos. replace (K * Z.of_nat (n - i)) with (Z.of_nat i + (2 * Z.of_nat n - 2 * Z.of_nat i - 1) * Z.of_nat n) by (unfold K; lia).
      rewrite Z.mod_add, Z.mod_small by lia. lia. }
    assert (raut_flips n K (n - i) = true) as Ef.
    { unfold raut_flips. replace (K * Z.of_nat (n - i)) with (Z.of_nat i + (2 * Z.of_nat n - 2 * Z.of_nat i - 1) * Z.of_nat n) by (unfold K; lia).
      rewrite Z.div_add, Z.div_small by lia. replace (0 + (2 * Z.of_nat n - 2 * Z.of_nat i - 1)) with (2 * (Z.of_nat n - Z.of_nat i - 1) + 1) by lia.
      rewrite Z.odd_add, Z.odd_mul. done. }
    rewrite Ep, Ef in He. rewrite He. apply eqm_mod.
  - assert (i = 0%nat) as -> by lia. specialize (He 0%nat ltac:(lia)).
    unfold raut_pos, raut_flips in He. rewrite Z.mul_0_r, Zmod_0_l, Zdiv_0_l in He. change (Z.to_nat 0) with 0%nat in He. cbn [Z.odd] in He. by rewrite He.
Qed.

(** The inner product with the transposed coefficients is the constant
    coefficient of the product. *)
Lemma transpose_dot f a : wf f -> wf a ->
  sumZ n (fun i => raut q n (2 * Z.of_nat n - 1) a !!! i * f !!! i) ≡[q] rmul q n f a !!! 0%nat.
Proof using HR.
  intros Hf Ha. pose proof (pow2_pos_nat k) as Hn. unfold rmul. rewrite lookup_total_tab by done. unfold negacyclic. rewrite eqm_mod.
  apply sumZ_eqm. intros i Hi. rewrite raut_transpose by done. destruct (Nat.ltb_spec 0 i).
  - rewrite Nat.add_0_r, eqm_mod. apply eqm_refl. ring.
  - assert (i = 0%nat) as -> by lia. apply eqm_refl. cbn [Nat.sub]. ring.
Qed.

End Coefficients.
