(* ===== verification/AccCore.v ===== *)
(** * What the accumulators share

    The definitions that the accumulators of the single-key and of the
    multi-key schemes repeat: the methods, the gates, the tables of gadget powers, of gate
    constants and of monomials, sampled ring elements, the decomposition of a
    ring element and the inner product of vectors of elements.  The lines of
    the multi-key sources ([mk-acc-xzw.cpp], [mk-cryptoparameters.cpp]) stand
    for their copies. *)

From Stdlib Require Import ZArith Lia String.
From stdpp Require Import base tactics numbers list strings gmap.
From S2P Require Import Prelude Double NativeInt NativeIntFacts ModArith NativeVec SchemeCore Negacyclic BitReverse Ntt Poly Gadget.

Inductive BINFHE_METHOD := INVALID_METHOD | AP | GINX | LMKCDEY | MKNTRU | MKNTRU_B | MKNTRU_LWE.
#[export] Instance BINFHE_METHOD_eq_dec : EqDecision BINFHE_METHOD.
Proof. solve_decision. Defined.

Inductive BINGATE := OR | AND | NOR | NAND | XOR_FAST | XNOR_FAST | MAJORITY | AND3 | OR3 | AND4 | OR4 | CMUX | XOR | XNOR.
#[export] Instance BINGATE_eq_dec : EqDecision BINGATE.
Proof. solve_decision. Defined.

(** [Q / (2 p) + 1]. *)
Definition Q2p (Q p : Z) : res Z := d ← Mul W 2 p; t ← DividedBy Q d; Add W t 1.

(** A loop that fills a vector and passes a state along. *)
Definition tabulateS {S A} (n : nat) (f : nat -> S -> res (S * A)) (s : S) : res (S * list A) :=
  for_ n (fun i (sl : S * list A) => r ← f i sl.1; Ok (r.1, sl.2 ++ [r.2])) (s, []).

(** ** Tables of evaluation keys

    The key at [u], [s], [i]; a key that was never made is a null pointer. *)
Definition ACCKey (K : Type) : Type := list (list (list (option K))).
Definition get_key {K} (ek : ACCKey K) (u s i : nat) : res K :=
  x ← vget ek u; x ← vget x s; x ← vget x i;
  match x with Some key => Ok key | None => Throw undefined_behaviour end.
Definition set_key {K} (ek : ACCKey K) (u s i : nat) (key : K) : res (ACCKey K) :=
  x ← vget ek u; y ← vget x s; y ← vset y i (Some key); x ← vset x s y; vset ek u x.
Definition new_key {K} (dim1 dim2 dim3 : nat) : ACCKey K := replicate dim1 (replicate dim2 (replicate dim3 None)).

Section Shared.
Context (arb : FTT -> NativePoly -> res (FTT * NativePoly)).

(** [vTemp = vTemp * baseG mod Q], [digitsG] times. *)
Definition gadget_powers (digitsG : nat) (baseG Q : Z) : res (list Z) :=
  r ← for_ digitsG (fun _ (st : list Z * Z) => v ← ModMulFast_ W st.2 baseG Q; Ok (st.1 ++ [st.2], v)) ([], 1);
  Ok r.1.

Definition gate_constants (q : Z) : res (list Z) :=
  q12 ← DividedBy q 12;
  mapM (fun c => Mul W c.1 c.2)
    [(5, Z.shiftr q 3); (7, Z.shiftr q 3); (1, Z.shiftr q 3); (3, Z.shiftr q 3); (5, Z.shiftr q 3); (1, Z.shiftr q 3);
     (7, Z.shiftr q 3); (11, q12); (7, q12); (15, Z.shiftr q 4); (9, Z.shiftr q 4)].

(** [X^i - 1] for [negative = false], [-X^i - 1] otherwise. *)
Definition monomial_poly (pp : ILParams) (Q : Z) (negative : bool) (i : nat) (st : FTT) : res (FTT * NativePoly) :=
  let p := new_poly pp COEFFICIENT true in
  x ← p_get p 0;
  p ← p_set p 0 (ModSubFastEq W x 1 Q);
  x ← p_get p i;
  p ← p_set p i (if negative then ModSubFastEq W x 1 Q else ModAddFastEq W x 1 Q);
  SetFormat arb st p EVALUATION.

(** The [2 N] entries of the table. *)
Definition monomial_table (pp : ILParams) (Q : Z) (N : nat) (st : FTT) : res (FTT * list NativePoly) :=
  a ← tabulateS N (monomial_poly pp Q false) st;
  b ← tabulateS N (monomial_poly pp Q true) a.1;
  Ok (b.1, a.2 ++ b.2).

(** A drawn vector as a ring element in the evaluation format. *)
Definition sampled (pp : ILParams) (st : FTT) (v : NativeVector) : res (FTT * NativePoly) :=
  SetFormat arb st (MkPoly COEFFICIENT pp (Some v)) EVALUATION.

(** The digits of a ring element, in the evaluation format. *)
Definition decompose (pp : ILParams) (Q baseG : Z) (digitsG N : nat) (st : FTT) (c : NativePoly) : res (FTT * list NativePoly) :=
  let digitsG' := (digitsG - 1)%nat in
  dct ← SignedDigitDecompose Q baseG digitsG N c (replicate digitsG' (new_poly pp COEFFICIENT true));
  tabulateS digitsG' (fun i st => p ← vget dct i; SetFormat arb st p EVALUATION) st.

(** [sum = x[0] * y[0]; sum += x[i] * y[i]]. *)
Definition dot_polys (n : nat) (x y : list NativePoly) : res NativePoly :=
  x0 ← vget x 0; y0 ← vget y 0;
  s ← Times x0 y0;
  for_ (n - 1) (fun i s => xi ← vget x (S i); yi ← vget y (S i); t ← Times xi yi; PlusEq s t) s.

(** The positions of [X^c - 1] and [X^-c - 1] in the table. *)
Definition monomial_index (N : nat) (c : Z) : Z :=
  let MInt := (2 * Z.of_nat N) mod 2 ^ 32 in
  let indexPos := ConvertToInt 32 c in if indexPos =? MInt then 0 else indexPos.
Definition monomial_neg_index (N : nat) (c : Z) : Z :=
  let MInt := (2 * Z.of_nat N) mod 2 ^ 32 in
  let indexNeg := ConvertToInt 32 (ModSubFast W 0 c MInt) in if indexNeg =? MInt then 0 else indexNeg.
End Shared.
