(* ===== verification/AccCoreFacts.v ===== *)
(** * The shared pieces on ring elements

    What the definitions of [AccCore] compute when their arguments hold ring
    elements: the decomposition with what it drops, the inner products, the
    tables of powers and of monomials. *)

From Stdlib Require Import ZArith Lia String.
From stdpp Require Import base tactics numbers list strings gmap.
From S2P Require Import Prelude Double NativeInt NativeIntFacts ModArith NativeVec SchemeCore Negacyclic BitReverse Ntt NttFacts NttSpec NttRing Poly PolyFacts Automorphism Gadget RingNoise AccCore.

Lemma tabulateS_ok {S A} n (f : nat -> S -> res (S * A)) (g : nat -> A) s :
  (forall i, (i < n)%nat -> f i s = Ok (s, g i)) -> tabulateS n f s = Ok (s, map g (seq 0 n)).
Proof.
  intros H. unfold tabulateS. apply (for_states _ n (fun i => (s, map g (seq 0 i)))). intros i Hi. cbn [fst snd].
  rewrite H, bind_ok by done. cbn [fst snd]. by rewrite seq_S, map_app.
Qed.

Lemma p_get_at f pp m l i : (i < length l)%nat -> p_get (MkPoly f pp (Some (NVec m l))) i = Ok (l !!! i).
Proof. intros Hi. unfold p_get, values. cbn [p_values]. rewrite bind_ok. cbn [data]. by apply vget_total. Qed.

Lemma p_set_at f pp m l i x : (i < length l)%nat -> p_set (MkPoly f pp (Some (NVec m l))) i x = Ok (MkPoly f pp (Some (NVec m (<[i := x]> l)))).
Proof. intros Hi. unfold p_set, values. cbn [p_values]. rewrite bind_ok. cbn [data]. by rewrite vset_lt. Qed.

(** ** Tables of keys *)
Definition shape {K} (U D L : nat) (ek : list (list (list (option K)))) : Prop :=
  length ek = U /\ forall u x, ek !! u = Some x -> length x = D /\ forall s y, x !! s = Some y -> length y = L.

Lemma shape_new {K} U D L : shape U D L (new_key (K := K) U D L).
Proof.
  split; [apply length_replicate|]. intros u x [-> _]%lookup_replicate. split; [apply length_replicate|]. intros s y [-> _]%lookup_replicate. apply length_replicate.
Qed.

Lemma set_key_spec {K} U D L (ek : list (list (list (option K)))) u s i key : shape U D L ek -> (u < U)%nat -> (s < D)%nat -> (i < L)%nat ->
  exists ek' : list (list (list (option K))), set_key ek u s i key = Ok ek' /\ shape U D L ek' /\ get_key ek' u s i = Ok key /\
    forall u' s' i' key', (u', s', i') <> (u, s, i) -> get_key ek u' s' i' = Ok key' -> get_key ek' u' s' i' = Ok key'.
Proof.
  intros [L0 H0] Hu Hs Hi. destruct (lookup_lt_is_Some_2 ek u ltac:(lia)) as [x Ex]. destruct (H0 u x Ex) as [L1 H1].
  destruct (lookup_lt_is_Some_2 x s ltac:(lia)) as [y Ey]. pose proof (H1 s y Ey) as L2.
  exists (<[u := <[s := <[i := Some key]> y]> x]> ek). unfold set_key.
  rewrite (vget_lookup _ _ _ Ex), bind_ok, (vget_lookup _ _ _ Ey), bind_ok, vset_lt, bind_ok, vset_lt, bind_ok, vset_lt by lia.
  split; [done|]. split.
  - split; [by rewrite length_insert|]. intros u' x' E'. destruct (decide (u' = u)) as [->|Hne].
    + rewrite list_lookup_insert_eq in E' by lia. injection E' as <-. split; [by rewrite length_insert|]. intros s' y' E''.
      destruct (decide (s' = s)) as [->|Hne'].
      * rewrite list_lookup_insert_eq in E'' by lia. injection E'' as <-. by rewrite length_insert.
      * rewrite list_lookup_insert_ne in E'' by done. by apply (H1 s').
    + rewrite list_lookup_insert_ne in E' by done. by apply (H0 u').
  - unfold get_key, vget. split.
    + rewrite list_lookup_insert_eq, bind_ok by lia. rewrite list_lookup_insert_eq, bind_ok by lia. by rewrite list_lookup_insert_eq, bind_ok by lia.
    + intros u' s' i' key' Hne E. destruct (decide (u' = u)) as [->|Hu']; [|by rewrite list_lookup_insert_ne].
      rewrite list_lookup_insert_eq, bind_ok by lia. rewrite Ex, bind_ok in E.
      destruct (decide (s' = s)) as [->|Hs']; [|by rewrite list_lookup_insert_ne].
      rewrite list_lookup_insert_eq, bind_ok by lia. rewrite Ey, bind_ok in E. rewrite list_lookup_insert_ne by congruence. done.
Qed.

(** Two positions of the table are distinct. *)
Ltac distinct := let E := fresh in intros E; simplify_eq; lia.

(** A key that is generated and stored; the other keys stay. *)
Lemma store_key {K} {st : FTT} U D L (Q : K -> Prop) (gen : FTT -> res (FTT * K)) (x : FTT * ACCKey K) u s i :
  (u < U)%nat -> (s < D)%nat -> (i < L)%nat -> x.1 = st -> shape U D L x.2 -> returns (gen st) (fun r => r.1 = st /\ Q r.2) ->
  returns (r ← gen x.1; ek ← set_key x.2 u s i r.2; Ok (r.1, ek)) (fun y => y.1 = st /\ shape U D L y.2 /\
    (exists key, get_key y.2 u s i = Ok key /\ Q key) /\
    forall u' s' i' key', (u', s', i') <> (u, s, i) -> get_key x.2 u' s' i' = Ok key' -> get_key y.2 u' s' i' = Ok key').
Proof.
  intros Hu Hs Hi -> Hx Hgen. eapply returns_bind; [exact Hgen|]. intros [st' key] [E HQ]. cbn [fst snd] in *. subst st'.
  destruct (set_key_spec U D L x.2 u s i key Hx Hu Hs Hi) as (ek' & -> & Hsh & Hget & Hoth). apply returns_ok. cbn [fst snd].
  split; [done|]. split; [done|]. split; [by exists key|]. exact Hoth.
Qed.

(** Two nested loops. *)
Lemma returns_for2 {S : Type} (P : nat -> nat -> S -> Prop) U nn (F : nat -> nat -> S -> res S) s :
  P O O s ->
  (forall u i s, (u < U)%nat -> (i < nn)%nat -> P u i s -> returns (F u i s) (P u (Datatypes.S i))) ->
  (forall u s, (u < U)%nat -> P u nn s -> P (Datatypes.S u) O s) ->
  returns (for_ U (fun u s => for_ nn (fun i s => F u i s) s) s) (P U O).
Proof.
  intros H0 Hstep Hnext. apply (returns_for (fun u => P u O)); [done|]. intros u s' Hu Hs'.
  eapply returns_mono; [apply (returns_for (fun i => P u i)); [exact Hs'|]|].
  - intros i s'' Hi. by apply Hstep.
  - intros s''. by apply Hnext.
Qed.

(** ** Ternary secrets *)
Definition pos_bit (t : Z) : Z := if t =? 1 then 1 else 0.
Definition neg_bit (t : Z) : Z := if t =? -1 then 1 else 0.

Lemma ternary_bits z : -1 <= z <= 1 -> 0 <= pos_bit z /\ 0 <= neg_bit z /\ pos_bit z + neg_bit z <= 1 /\ pos_bit z - neg_bit z = z.
Proof. intros Hz. unfold pos_bit, neg_bit. destruct (Z.eqb_spec z 1), (Z.eqb_spec z (-1)); lia. Qed.

Lemma bit_cases z : pos_bit z = 0 \/ pos_bit z = 1.
Proof. unfold pos_bit. destruct (_ =? _); auto. Qed.
Lemma neg_bit_cases z : neg_bit z = 0 \/ neg_bit z = 1.
Proof. unfold neg_bit. destruct (_ =? _); auto. Qed.

(** The tests of the key generators on a residue. *)
Lemma secret_bits m z : 3 <= m < 2 ^ 64 -> -1 <= z <= 1 -> (if z mod m =? 1 then 1 else 0) = pos_bit z /\ (if z mod m =? wrap W (m - 1) then 1 else 0) = neg_bit z.
Proof.
  intros Hm Hz. rewrite (wrap_small W) by (change (2 ^ W) with (2 ^ 64); lia). unfold pos_bit, neg_bit.
  assert (z mod m = if z =? -1 then m - 1 else z) as ->.
  { destruct (Z.eqb_spec z (-1)) as [->|]; [|apply Z.mod_small; lia]. symmetry. apply (Z.mod_unique_pos (-1) m (-1)); lia. }
  destruct (Z.eqb_spec z (-1)) as [->|].
  - rewrite (proj2 (Z.eqb_neq (m - 1) 1)) by lia. by rewrite Z.eqb_refl.
  - split; [done|]. by rewrite (proj2 (Z.eqb_neq _ _)) by lia.
Qed.

(** ** The gadget as a ring identity *)
Section GadgetRing.
Context {st : FTT} {q psi : Z} {k : nat} {HR : RingTransform st q psi k}.
Context (g : Z) (Hg : 1 <= g <= 31) (HgQ : 2 ^ g <= q) (G : nat) (HGq : q <= (2 ^ g) ^ Z.of_nat (S G)).
Abbreviation B := (2 ^ g).
Abbreviation n := (2 ^ k)%nat.
Abbreviation wf := (wf_data (q := q) k).
Abbreviation slot_ := (slot q psi k).

#[local] Instance gadget_ring_modulus : NativeModulus W q.
Proof using HR. exact rt_modulus. Qed.

(** What the decomposition loses. *)
Definition dropped (c : list Z) : list Z :=
  map (fun j => (sd_low B (lift q (c !!! j)) + B ^ Z.of_nat (S G) * sd_rest B (S G) (lift q (c !!! j))) mod q) (seq 0 n).

(** The largest digit, and a carry unless the gadget covers the modulus. *)
Definition drop_bound : Z :=
  B / 2 + (if (B - 1) * q <=? (B - 2) * B ^ Z.of_nat (S G) + B then 0 else B ^ Z.of_nat (S G) - q).

Lemma dropped_wf c : wf (dropped c).
Proof using HR. apply wf_tab. Qed.

Lemma drop_bound_nonneg : 0 <= drop_bound.
Proof using Hg HGq.
  destruct (base_pos g ltac:(lia)) as (HB & Heven & _). pose proof (half_B B HB Heven). unfold drop_bound. destruct (_ <=? _); lia.
Qed.

Lemma lift_eqm t : lift q t ≡[q] t.
Proof using Type. clear. unfold lift. destruct (_ <? _); [done|]. apply eqm_iff. exists (-1). ring. Qed.

Lemma lift_range t : reduced q t -> - q - 1 <= 2 * lift q t < q /\ - B ^ Z.of_nat (S G) <= 2 * lift q t <= B ^ Z.of_nat (S G).
Proof using HR Hg HGq.
  intros Ht. unfold reduced in Ht. destruct (base_pos g ltac:(lia)) as (HB & Heven & _).
  pose proof (nm_bounds (w := W) (m := q)). pose proof (Z.div_mod q 2 ltac:(lia)). pose proof (Z.mod_pos_bound q 2 ltac:(lia)).
  assert (exists e, B ^ Z.of_nat (S G) = 2 * e) as [e Ee].
  { exists (B / 2 * B ^ Z.of_nat G). rewrite Nat2Z.inj_succ, Z.pow_succ_r by lia. rewrite <- (half_B B HB Heven) at 1. ring. }
  unfold lift. destruct (Z.ltb_spec t (q / 2)); lia.
Qed.

Lemma dropped_inf c : wf c -> inf_le q n drop_bound (dropped c).
Proof using HR Hg HGq.
  intros Hc j Hj. unfold dropped. rewrite lookup_total_tab by done. set (t := lift q (c !!! j)).
  destruct (base_pos g ltac:(lia)) as (HB & Heven & _). pose proof (half_B B HB Heven). pose proof (sd_low_range B HB Heven t).
  pose proof (lift_range _ (entry_reduced k c j Hc)) as [Ht HtP]. fold t in Ht, HtP.
  rewrite (sd_rest_carry B HB Heven (S G) t) by lia. set (P := B ^ Z.of_nat (S G)) in *. unfold drop_bound. fold P.
  destruct (Z.ltb_spec (2 * (B - 1) * t) ((B - 2) * P + B)) as [Hlt|Hge].
  - exists (sd_low B t). split; [rewrite eqm_mod; apply eqm_refl; ring|]. destruct (_ <=? _); lia.
  - exists (sd_low B t + (P - q)). split; [rewrite eqm_mod; apply eqm_iff; exists 1; ring|].
    rewrite (proj2 (Z.leb_gt _ _)) by (assert ((B - 1) * (2 * t) < (B - 1) * q) by (apply Z.mul_lt_mono_pos_l; lia); lia). lia.
Qed.

Lemma gadget_digit_inf i c : inf_le q n (B / 2) (gadget_digit q B k i c).
Proof using Hg.
  clear HGq HgQ HR. intros j Hj. destruct (base_pos g ltac:(lia)) as (HB & Heven & _). pose proof (half_B B HB Heven).
  exists (sd_digit B (S i) (lift q (c !!! j))). unfold gadget_digit. rewrite lookup_total_tab by done. split; [apply eqm_mod|].
  unfold sd_digit. pose proof (sd_low_range B HB Heven (sd_rest B (S i) (lift q (c !!! j)))). lia.
Qed.

Lemma rsum_lookup m (f : nat -> list Z) j : (j < n)%nat -> (forall i, (i < m)%nat -> length (f i) = n) ->
  length (rsum q n m f) = n /\ rsum q n m f !!! j ≡[q] sumZ m (fun i => f i !!! j).
Proof using Type.
  clear. intros Hj. induction m as [|m IH]; intros H; cbn [rsum sumZ].
  - split; [apply length_zeros|]. unfold rzero. by rewrite zeros_lookup.
  - destruct (IH ltac:(intros; apply H; lia)) as [L E]. specialize (H m ltac:(lia)).
    split; [unfold radd; rewrite length_zip_with; lia|]. unfold radd. rewrite vec_op_lookup by lia. by rewrite eqm_mod, E.
Qed.

(** The digits recompose the element up to what is lost. *)
Lemma gadget_recompose c : wf c ->
  c = radd q (dropped c) (rsum q n G (fun i => rscale q (B ^ (Z.of_nat i + 1)) (gadget_digit q B k i c))).
Proof using HR Hg.
  clear HGq HgQ. intros Hc. pose proof (dropped_wf c) as Hd. destruct (base_pos g ltac:(lia)) as (HB & Heven & _).
  assert (forall i, (i < G)%nat -> wf (rscale q (B ^ (Z.of_nat i + 1)) (gadget_digit q B k i c))) as Hf by (intros; apply rscale_wf, gadget_digit_wf).
  apply (values_eq (q := q) k); [done|apply radd_wf; [done|by apply (rsum_wf (HR := HR))]|]. intros j Hj.
  destruct (rsum_lookup G (fun i => rscale q (B ^ (Z.of_nat i + 1)) (gadget_digit q B k i c)) j Hj ltac:(intros i Hi; apply (Hf i Hi))) as [L E].
  unfold radd. rewrite vec_op_lookup by (destruct Hd; lia). rewrite eqm_mod, E. unfold dropped. rewrite lookup_total_tab, eqm_mod by done.
  rewrite <- (lift_eqm (c !!! j)) at 1. set (t := lift q (c !!! j)).
  rewrite (sd_recompose B HB (S G) t) at 1. rewrite (sumZ_split 1 G). cbn [sumZ]. rewrite Z.add_0_l. change (sd_digit B 0 t) with (sd_low B t).
  rewrite (sumZ_eqm q G (fun i => rscale q _ _ !!! j) (fun i => B ^ Z.of_nat (1 + i) * sd_digit B (1 + i) t)); [apply eqm_refl; change (Z.of_nat 0) with 0; rewrite Z.pow_0_r; ring|].
  intros i Hi. unfold rscale. rewrite lookup_total_map, eqm_mod by (unfold gadget_digit; by rewrite length_tab). unfold gadget_digit.
  rewrite lookup_total_tab, eqm_mod by done. fold t. apply eqm_refl. replace (Z.of_nat (1 + i)) with (Z.of_nat i + 1) by lia. apply Z.mul_comm.
Qed.

Lemma slot_gadget x c : (x < n)%nat -> wf c ->
  sumZ G (fun i => B ^ (Z.of_nat i + 1) * slot_ x (gadget_digit q B k i c)) ≡[q] slot_ x c - slot_ x (dropped c).
Proof using HR Hg.
  clear HGq HgQ. intros Hx Hc. pose proof (f_equal (slot_ x) (gadget_recompose c Hc)) as E. rewrite E. clear E.
  assert (forall i, (i < G)%nat -> wf (rscale q (B ^ (Z.of_nat i + 1)) (gadget_digit q B k i c))) as Hf by (intros; apply rscale_wf, gadget_digit_wf).
  rewrite (slot_radd (HR := HR)), (slot_rsum (HR := HR)) by (done || apply dropped_wf || by apply (rsum_wf (HR := HR))).
  rewrite Z.add_simpl_l. apply sumZ_eqm. intros i Hi. rewrite (slot_rscale (HR := HR)) by (done || apply gadget_digit_wf). apply eqm_refl. ring.
Qed.
End GadgetRing.

(** ** Vectors of elements *)
Section Elements.
Context {st : FTT} {q psi : Z} {k : nat} {HR : RingTransform st q psi k}.
Abbreviation n := (2 ^ k)%nat.
Abbreviation wf := (wf_data (q := q) k).
Abbreviation slot_ := (slot q psi k).
Abbreviation of_ := (poly_of q psi k).
Abbreviation mono_ := (mono q n).

#[local] Instance elements_modulus : NativeModulus W q.
Proof using HR. exact rt_modulus. Qed.

(** The elements [h 0], ..., [h (m - 1)] in the evaluation format. *)
Definition polys (m : nat) (h : nat -> list Z) : list NativePoly := map (fun i => of_ EVALUATION (h i)) (seq 0 m).

Lemma polys_get m h i : (i < m)%nat -> vget (polys m h) i = Ok (of_ EVALUATION (h i)).
Proof using Type. intros Hi. exact (vget_lookup _ _ _ (lookup_tab m (fun i => of_ EVALUATION (h i)) i Hi)). Qed.

Lemma polys_set m h i a : (i < m)%nat -> vset (polys m h) i (of_ EVALUATION a) = Ok (polys m (fun j => if decide (j = i) then a else h j)).
Proof using Type.
  intros Hi. rewrite vset_lt by (unfold polys; by rewrite length_tab). unfold polys. rewrite insert_tab. f_equal.
  apply map_ext. intros j. by destruct (decide (j = i)).
Qed.

Lemma polys_ext m h h' : (forall i, (i < m)%nat -> h i = h' i) -> polys m h = polys m h'.
Proof using Type. intros H. apply map_ext_in. intros i Hi%in_seq. by rewrite H by lia. Qed.

(** A loop that rewrites the entries of a vector of elements one by one. *)
Lemma polys_loop m (h h' : nat -> list Z) (f : nat -> list NativePoly -> res (list NativePoly)) :
  (forall i, (i < m)%nat -> f i (polys m (fun j => if (j <? i)%nat then h' j else h j)) =
    vset (polys m (fun j => if (j <? i)%nat then h' j else h j)) i (of_ EVALUATION (h' i))) ->
  for_ m f (polys m h) = Ok (polys m h').
Proof using Type.
  intros H. rewrite (polys_ext m h' (fun j => if (j <? m)%nat then h' j else h j)) by (intros i Hi; by rewrite (proj2 (Nat.ltb_lt _ _))).
  apply (for_states f m (fun i => polys m (fun j => if (j <? i)%nat then h' j else h j))). intros i Hi. rewrite H, polys_set by done.
  f_equal. apply polys_ext. intros j Hj. destruct (decide (j = i)) as [->|].
  - by rewrite (proj2 (Nat.ltb_lt i (S i))) by lia.
  - destruct (Nat.ltb_spec j i), (Nat.ltb_spec j (S i)); done || lia.
Qed.

(** A list of pairs of elements. *)
Definition rows (m : nat) (d f : nat -> list Z) : list (NativePoly * NativePoly) := map (fun i => (of_ EVALUATION (d i), of_ EVALUATION (f i))) (seq 0 m).

Lemma rows_get m d f i : (i < m)%nat -> vget (rows m d f) i = Ok (of_ EVALUATION (d i), of_ EVALUATION (f i)).
Proof using Type. intros Hi. exact (vget_lookup _ _ _ (lookup_tab m (fun i => (of_ EVALUATION (d i), of_ EVALUATION (f i))) i Hi)). Qed.

Lemma rows_columns m d f : (rows m d f).*1 = polys m d /\ (rows m d f).*2 = polys m f.
Proof using Type. unfold rows, polys. split; generalize (seq 0 m); intros l; induction l as [|i l IH]; cbn; congruence. Qed.

Lemma dot_polys_spec m a b : (0 < m)%nat -> (forall i, (i < m)%nat -> wf (a i)) -> (forall i, (i < m)%nat -> wf (b i)) ->
  dot_polys m (polys m a) (polys m b) = Ok (of_ EVALUATION (rsum q n m (fun i => rmul q n (a i) (b i)))).
Proof using HR.
  intros Hm Ha Hb. unfold dot_polys. rewrite !polys_get, !bind_ok by done. rewrite (Times_of (HR := HR)), bind_ok by auto.
  set (F := fun i => rmul q n (a i) (b i)). assert (rsum q n m F = rsum q n (S (m - 1)) F) as -> by (replace (S (m - 1)) with m by lia; done).
  change (rmul q n (a 0%nat) (b 0%nat)) with (F 0%nat).
  rewrite <- (radd_0_l (HR := HR) (F 0%nat)) by apply rmul_wf.
  apply (for_states _ (m - 1) (fun i => of_ EVALUATION (rsum q n (S i) F))). intros i Hi.
  rewrite !polys_get, !bind_ok by lia. rewrite (Times_of (HR := HR)), bind_ok by (try apply Ha; try apply Hb; lia).
  by rewrite (PlusEq_of (HR := HR)); [|apply (rsum_wf (HR := HR)); intros; apply rmul_wf|apply rmul_wf].
Qed.

(** The sum of the products of two families, in a slot. *)
Lemma slot_dot x m a b : (x < n)%nat -> (forall i, (i < m)%nat -> wf (a i)) -> (forall i, (i < m)%nat -> wf (b i)) ->
  slot_ x (rsum q n m (fun i => rmul q n (a i) (b i))) ≡[q] sumZ m (fun i => slot_ x (a i) * slot_ x (b i)).
Proof using HR.
  intros Hx Ha Hb. rewrite (slot_rsum (HR := HR)) by (done || intros; apply rmul_wf).
  apply sumZ_eqm. intros i Hi. by rewrite (slot_rmul (HR := HR)) by auto.
Qed.

Lemma slot_dot2 x U m (a b : nat -> nat -> list Z) : (x < n)%nat ->
  (forall u i, (u < U)%nat -> (i < m)%nat -> wf (a u i)) -> (forall u i, (u < U)%nat -> (i < m)%nat -> wf (b u i)) ->
  slot_ x (rsum q n U (fun u => rsum q n m (fun i => rmul q n (a u i) (b u i)))) ≡[q] sumZ U (fun u => sumZ m (fun i => slot_ x (a u i) * slot_ x (b u i))).
Proof using HR.
  intros Hx Ha Hb. rewrite (slot_rsum (HR := HR)) by (done || intros; apply (rsum_wf (HR := HR)); intros; apply rmul_wf).
  apply sumZ_eqm. intros i Hi. by rewrite slot_dot by auto.
Qed.

(** ** Monomials *)
Definition mdiff (e : Z) : list Z := rsub q (mono_ e) (mono_ 0).

Lemma mdiff_wf e : wf (mdiff e).
Proof using HR. apply rsub_wf; apply (mono_wf (HR := HR)). Qed.

Lemma slot_mdiff x e : (x < n)%nat -> slot_ x (mdiff e) ≡[q] slot_ x (mono_ e) - 1.
Proof using HR.
  intros Hx. unfold mdiff. rewrite (slot_rsub (HR := HR)), (mono_0 (HR := HR)); [done|done|apply (mono_wf (HR := HR))..].
Qed.

Lemma l1_mdiff e : l1_le q n 2 (mdiff e).
Proof using HR.
  pose proof (pow2_pos_nat k). apply (l1_rsub q n 1 1); [apply (mono_wf (HR := HR))..|by apply l1_mono|by apply l1_mono].
Qed.

Lemma slot_mono_neg x e : (x < n)%nat -> slot_ x (mono_ e) * slot_ x (mono_ (- e)) ≡[q] 1.
Proof using HR.
  intros Hx. rewrite <- (slot_rmul (HR := HR)); [|done|apply (mono_wf (HR := HR))..].
  rewrite (mono_add (HR := HR)), Z.add_opp_diag_r. apply (mono_0 (HR := HR)).
Qed.

Lemma dim_bound : 0 < Z.of_nat n <= 2 ^ 24.
Proof using HR.
  pose proof (rt_dim (RingTransform := HR)). rewrite Nat2Z.inj_pow. change (Z.of_nat 2) with 2. split; [apply Z.pow_pos_nonneg; lia|apply Z.pow_le_mono_r; lia].
Qed.

Lemma mdiff_periodic e e' : e mod (2 * Z.of_nat n) = e' mod (2 * Z.of_nat n) -> mdiff e = mdiff e'.
Proof using Type. intros E. unfold mdiff. by rewrite (mono_periodic e e' E). Qed.

End Elements.

(** ** Operations *)
Section Operations.
Context {st : FTT} {q psi : Z} {k : nat} {HR : RingTransform st q psi k} (arb : FTT -> NativePoly -> res (FTT * NativePoly)).
Abbreviation n := (2 ^ k)%nat.
Abbreviation wf := (wf_data (q := q) k).
Abbreviation of_ := (poly_of q psi k).
Abbreviation mono_ := (mono q n).
Abbreviation polys_ := (polys (q := q) (psi := psi) (k := k)).

#[local] Instance operations_modulus : NativeModulus W q.
Proof using HR. exact rt_modulus. Qed.

Lemma sampled_spec v : wf v -> sampled arb (ring_par q psi k) st (NVec q v) = Ok (st, of_ EVALUATION v).
Proof using HR.
  intros Hv. unfold sampled.
  change (MkPoly COEFFICIENT (ring_par q psi k) (Some (NVec q v))) with (of_ COEFFICIENT v). by rewrite (SetFormat_of (HR := HR)).
Qed.

Lemma decompose_spec g G c : 1 <= g <= 31 -> 2 ^ g <= q -> wf c ->
  decompose arb (ring_par q psi k) q (2 ^ g) (S G) n st (of_ COEFFICIENT c) = Ok (st, polys_ G (fun i => gadget_digit q (2 ^ g) k i c)).
Proof using HR.
  intros Hg HgQ Hc. unfold decompose.
  rewrite (SignedDigitDecompose_of (HR := HR) g ltac:(lia) HgQ) by done. rewrite bind_ok, Nat.sub_succ, Nat.sub_0_r.
  apply (tabulateS_ok G _ (fun i => of_ EVALUATION (gadget_digit q (2 ^ g) k i c))). intros i Hi. rewrite (vget_lookup _ _ _ (lookup_tab _ _ _ Hi)), bind_ok.
  by rewrite (SetFormat_of (HR := HR)) by apply gadget_digit_wf.
Qed.

Lemma gadget_powers_spec g G : 1 <= g <= 31 -> 2 ^ g < q ->
  gadget_powers (S G) (2 ^ g) q = Ok (map (fun i => ((2 ^ g) ^ Z.of_nat i) mod q) (seq 0 (S G))).
Proof using HR.
  intros Hg HgQ. pose proof (nm_bounds (w := W) (m := q)) as Hq. assert (0 < (2 ^ g)) as HB by (apply Z.pow_pos_nonneg; lia). unfold gadget_powers.
  set (F := fun i => (map (fun i => ((2 ^ g) ^ Z.of_nat i) mod q) (seq 0 i), ((2 ^ g) ^ Z.of_nat i) mod q)).
  assert ((@nil Z, 1) = F 0%nat) as -> by (unfold F; cbn [seq map Z.of_nat]; rewrite Z.pow_0_r, Z.mod_small by lia; done).
  rewrite (for_states _ (S G) F); [done|].
  intros i Hi. unfold F. cbn [fst snd]. rewrite (nm_mul_fast (w := W)), bind_ok; [|apply (nm_mod (w := W))|split; lia].
  rewrite seq_S, map_app. cbn [map]. do 2 f_equal. rewrite Z.mul_mod_idemp_l by lia. f_equal. rewrite Nat2Z.inj_succ, Z.pow_succ_r by lia. ring.
Qed.

Lemma gate_constants_ok c : exists gc, gate_constants c = Ok gc.
Proof using Type. unfold gate_constants, DividedBy, Mul. cbn. by eexists. Qed.

(** [X^i - 1] and [-X^i - 1]. *)
Lemma monomial_poly_spec neg i : (i < n)%nat ->
  monomial_poly arb (ring_par q psi k) q neg i st = Ok (st, of_ EVALUATION (rsub q (mono_ (Z.of_nat (if (neg : bool) then n + i else i))) (mono_ 0))).
Proof using HR.
  intros Hi. pose proof (nm_bounds (w := W) (m := q)) as Hq. pose proof (pow2_pos_nat k) as Hn.
  unfold monomial_poly.
  set (x0 := (0 - 1) mod q). set (a := <[0%nat := x0]> (repeat 0 n)).
  set (y := if neg then (a !!! i - 1) mod q else (a !!! i + 1) mod q).
  assert (reduced q x0) as Hx0 by apply (nm_mod (w := W)). assert (reduced q 0 /\ reduced q 1) as [R0 R1] by (split; split; lia).
  assert (wf a) as Ha. { split; [unfold a; by rewrite length_insert, length_zeros|]. apply Forall_insert; [apply (rzero_wf (q := q) k)|done]. }
  pose proof (entry_reduced k a i Ha) as Ri.
  assert (wf (<[i := y]> a)) as Hw. { split; [rewrite length_insert; apply Ha|]. apply Forall_insert; [apply Ha|]. unfold y. destruct neg; apply (nm_mod (w := W)). }
  unfold new_poly, zero_vec. cbn [ringDimension ciphertextModulus ring_par].
  rewrite p_get_at, bind_ok, zeros_lookup, p_set_at, bind_ok by (rewrite ?length_zeros; lia).
  change (ModSubFastEq W 0 1 q) with (ModSubFast W 0 1 q). rewrite (nm_sub (w := W)) by done. fold x0 a.
  rewrite p_get_at, bind_ok by (rewrite (proj1 Ha); done).
  assert ((if neg then ModSubFastEq W (a !!! i) 1 q else ModAddFastEq W (a !!! i) 1 q) = y) as ->.
  { unfold y. destruct neg; [by apply (nm_sub (w := W))|by apply (nm_add (w := W))]. }
  rewrite p_set_at, bind_ok by (rewrite (proj1 Ha); done).
  change (MkPoly COEFFICIENT (ring_par q psi k) (Some (NVec q (<[i := y]> a)))) with (of_ COEFFICIENT (<[i := y]> a)).
  rewrite (SetFormat_of (HR := HR)) by done. do 3 f_equal.
  apply (values_eq (q := q) k); [done|apply rsub_wf; apply (mono_wf (HR := HR))|]. intros j Hj.
  unfold rsub. rewrite vec_op_lookup, eqm_mod by (rewrite !(proj1 (mono_wf (HR := HR) _)); lia).
  assert (mono_ 0 !!! j = if decide (j = 0%nat) then 1 mod q else 0) as ->.
  { unfold mono. rewrite Zmod_0_l. change (Z.to_nat 0) with 0%nat. rewrite (proj2 (Nat.ltb_lt 0 n)) by lia. by apply rterm_lookup. }
  assert (mono_ (Z.of_nat (if neg then n + i else i)) !!! j = if decide (j = i) then (if neg then -1 else 1) mod q else 0) as ->.
  { unfold mono. rewrite Z.mod_small, Nat2Z.id by (destruct neg; lia). destruct neg.
    - rewrite (proj2 (Nat.ltb_ge _ _)) by lia. replace (n + i - n)%nat with i by lia. by apply rterm_lookup.
    - rewrite (proj2 (Nat.ltb_lt _ _)) by lia. by apply rterm_lookup. }
  assert (a !!! i = if decide (i = 0%nat) then x0 else 0) as Eai.
  { unfold a. destruct (decide (i = 0%nat)) as [->|]; [by rewrite list_lookup_total_insert_eq by (rewrite length_zeros; lia)|].
    rewrite list_lookup_total_insert_ne by done. by rewrite zeros_lookup. }
  assert (x0 ≡[q] -1) as Ex0 by (unfold x0; apply eqm_mod).
  destruct (decide (j = i)) as [->|Hne].
  - rewrite list_lookup_total_insert_eq by (rewrite (proj1 Ha); done). unfold y. rewrite Eai.
    destruct neg; rewrite !eqm_mod; destruct (decide (i = 0%nat)); rewrite ?eqm_mod, ?Ex0; apply eqm_refl; ring.
  - rewrite list_lookup_total_insert_ne by done. unfold a. destruct (decide (j = 0%nat)) as [->|].
    + rewrite list_lookup_total_insert_eq by (rewrite length_zeros; lia). rewrite Ex0, eqm_mod. done.
    + rewrite list_lookup_total_insert_ne, zeros_lookup by done. done.
Qed.

(** The whole table, and what the indices read from it. *)
Definition monomial_elems : list NativePoly := map (fun i => of_ EVALUATION (mdiff (q := q) (k := k) (Z.of_nat i))) (seq 0 (2 * n)).

Lemma monomial_table_spec : monomial_table arb (ring_par q psi k) q n st = Ok (st, monomial_elems).
Proof using HR.
  unfold monomial_table.
  rewrite (tabulateS_ok n _ (fun i => of_ EVALUATION (mdiff (q := q) (k := k) (Z.of_nat i)))) by (intros i Hi; exact (monomial_poly_spec false i Hi)).
  rewrite bind_ok. cbn [fst snd].
  rewrite (tabulateS_ok n _ (fun i => of_ EVALUATION (mdiff (q := q) (k := k) (Z.of_nat (n + i))))) by (intros i Hi; exact (monomial_poly_spec true i Hi)).
  rewrite !bind_ok. cbn [fst snd]. unfold monomial_elems.
  replace (2 * n)%nat with (n + n)%nat by lia. rewrite seq_app, map_app. do 3 f_equal. cbn [Nat.add].
  assert (seq n n = map (Nat.add n) (seq 0 n)) as ->.
  { change (map (Nat.add n) (seq 0 n)) with (Nat.add n <$> seq 0 n). rewrite fmap_add_seq. by rewrite Nat.add_0_r. }
  by rewrite map_map.
Qed.

Lemma monomial_at i : 0 <= i < 2 * Z.of_nat n -> vget monomial_elems (Z.to_nat i) = Ok (of_ EVALUATION (mdiff (q := q) (k := k) i)).
Proof using Type.
  intros Hi. rewrite <- (Z2Nat.id i) at 2 by lia.
  exact (vget_lookup _ _ _ (lookup_tab (2 * n) (fun i => of_ EVALUATION (mdiff (q := q) (k := k) (Z.of_nat i))) (Z.to_nat i) ltac:(lia))).
Qed.

Lemma monomial_index_at c : 0 <= c < 2 * Z.of_nat n -> vget monomial_elems (Z.to_nat (monomial_index n c)) = Ok (of_ EVALUATION (mdiff (q := q) (k := k) c)).
Proof using HR.
  intros Hc. pose proof (dim_bound (HR := HR)) as Hn. unfold monomial_index, ConvertToInt. rewrite !Z.mod_small by lia.
  rewrite (proj2 (Z.eqb_neq _ _)) by lia. by apply monomial_at.
Qed.

Lemma monomial_neg_at c : 0 <= c < 2 * Z.of_nat n -> vget monomial_elems (Z.to_nat (monomial_neg_index n c)) = Ok (of_ EVALUATION (mdiff (q := q) (k := k) (- c))).
Proof using HR.
  intros Hc. pose proof (dim_bound (HR := HR)) as Hn. unfold monomial_neg_index. rewrite (Z.mod_small (2 * _)) by lia.
  assert (ModSubFast W 0 c (2 * Z.of_nat n) = (- c) mod (2 * Z.of_nat n)) as ->.
  { unfold ModSubFast. destruct (Z.ltb_spec 0 c).
    - rewrite (wrap_small W (0 + _)), wrap_small by (change (2 ^ W) with (2 ^ 64); lia).
      rewrite <- (Z.mod_add (- c) 1), Z.mod_small by lia. lia.
    - assert (c = 0) as -> by lia. rewrite Z.sub_diag. done. }
  pose proof (Z.mod_pos_bound (- c) (2 * Z.of_nat n) ltac:(lia)). unfold ConvertToInt. rewrite (Z.mod_small (_ mod _)) by lia.
  rewrite (proj2 (Z.eqb_neq _ _)) by lia. rewrite monomial_at by lia. do 2 f_equal. apply mdiff_periodic. by rewrite Z.mod_mod by lia.
Qed.
End Operations.
