(* ===== verification/MkAcc.v ===== *)
(** * The multi-key accumulator: [UniEncAccumulatorXZW]

    Models [src/binfhe/lib/mk-acc-xzw.cpp] (ternary keys) and
    [mk-acc-xzw_B.cpp] (binary keys), with the tables that
    [UniEncCryptoParams::PreCompute] of [mk-cryptoparameters.cpp] prepares.
    An accumulator has one ring element per user; a row of an evaluation key
    is the pair [(d_i, f_i)]; an evaluation key that was not generated is the
    null pointer, [None].  Drawn values are arguments, and so is the transform
    for orders that are not powers of two.  The cache of the transform is
    passed along. *)

From Stdlib Require Import ZArith Lia String.
From stdpp Require Import base tactics numbers list strings gmap.
From S2P Require Import Prelude Double NativeInt NativeIntFacts ModArith NativeVec SchemeCore Negacyclic BitReverse Ntt Poly Gadget AccCore.

(** ** Parameters *)
Record UniEncCryptoParams := UniEncParams {
  u_k : nat; u_N : nat; u_Q : Z; u_q : Z; u_baseG : Z; u_digitsG : nat;
  u_method : BINFHE_METHOD;
  u_polyParams : ILParams;
  u_Gpower : list Z;
  u_gateConst : list Z;
  u_monomials : list NativePoly
}.

Section Accumulator.
Context (arb : FTT -> NativePoly -> res (FTT * NativePoly)).

Definition uses_monomials (m : BINFHE_METHOD) : bool :=
  bool_decide (m = GINX) || bool_decide (m = MKNTRU) || bool_decide (m = MKNTRU_B) || bool_decide (m = MKNTRU_LWE).

(** [PreCompute(false)], for the methods other than [LMKCDEY]. *)
Definition PreCompute (ps : UniEncCryptoParams) (st : FTT) : res (FTT * UniEncCryptoParams) :=
  gp ← gadget_powers (u_digitsG ps) (u_baseG ps) (u_Q ps);
  gc ← gate_constants (u_q ps);
  r ← (if uses_monomials (u_method ps)
       then t ← monomial_table arb (u_polyParams ps) (u_Q ps) (u_N ps) st; Ok (t.1, u_monomials ps ++ t.2)
       else Ok (st, u_monomials ps));
  Ok (r.1, UniEncParams (u_k ps) (u_N ps) (u_Q ps) (u_q ps) (u_baseG ps) (u_digitsG ps) (u_method ps) (u_polyParams ps) (u_Gpower ps ++ gp) gc r.2).

Definition GetMonomial (ps : UniEncCryptoParams) (i : Z) : res NativePoly := vget (u_monomials ps) (Z.to_nat i).

(** ** Evaluation keys *)
Definition UniEncEvalKey : Type := list (NativePoly * NativePoly).

(** What one key draws: the ephemeral [r], and the two errors of each row. *)
Record KeySample := KSample { smp_r : NativeVector; smp_e : nat -> NativeVector * NativeVector }.

(** [gd]: the constant [baseG^(i+1)] as a ring element. *)
Definition gadget_poly (ps : UniEncCryptoParams) (i : nat) (st : FTT) : res (FTT * NativePoly) :=
  g ← vget (u_Gpower ps) (i + 1);
  gd_vec ← vset (repeat 0 (u_N ps)) 0 g;
  gd ← SetValues (new_poly (u_polyParams ps) EVALUATION false) (NVec (u_Q ps) gd_vec) COEFFICIENT;
  SetFormat arb st gd EVALUATION.

(** A row, the message being added by [addmsg gd]. *)
Definition key_row (ps : UniEncCryptoParams) (invskNTT : NativePoly) (CRS : list NativePoly) (skrPoly : NativePoly)
    (addmsg : NativePoly -> NativePoly -> res NativePoly) (e : NativeVector * NativeVector) (i : nat) (st : FTT) :
    res (FTT * (NativePoly * NativePoly)) :=
  a ← sampled arb (u_polyParams ps) st e.2;
  b ← sampled arb (u_polyParams ps) a.1 e.1;
  let r1 := a.2 in
  let r0 := b.2 in
  g ← gadget_poly ps i b.1;
  let gd := g.2 in
  t ← Times gd skrPoly;
  r1 ← Plus r1 t;
  r1 ← Times r1 invskNTT;
  r0 ← addmsg r0 gd;
  c ← p_get skrPoly i;
  crs ← vget CRS i;
  t ← TimesInt crs c;
  r0 ← Plus r0 t;
  Ok (g.1, (r0, r1)).

Definition key_rows (ps : UniEncCryptoParams) (invskNTT : NativePoly) (CRS : list NativePoly)
    (addmsg : NativePoly -> NativePoly -> res NativePoly) (smp : KeySample) (st : FTT) : res (FTT * UniEncEvalKey) :=
  s ← sampled arb (u_polyParams ps) st (smp_r smp);
  tabulateS (u_digitsG ps - 1) (fun i st => key_row ps invskNTT CRS s.2 addmsg (smp_e smp i) i st) s.1.

Definition KeyGenXZW (ps : UniEncCryptoParams) (invskNTT : NativePoly) (CRS : list NativePoly) (m : Z) (smp : KeySample) (st : FTT) :
    res (FTT * UniEncEvalKey) :=
  key_rows ps invskNTT CRS (fun r0 gd => if m =? 1 then Plus r0 gd else Ok r0) smp st.

Definition KDMKeyGenXZW (ps : UniEncCryptoParams) (invskNTT : NativePoly) (CRS : list NativePoly) (m : Z) (smp : KeySample) (st : FTT) :
    res (FTT * UniEncEvalKey) :=
  key_rows ps invskNTT CRS (fun r0 gd => if m =? 0 then Ok r0 else t ← Times gd invskNTT; Plus r0 t) smp st.

(** ** The hybrid product *)
Definition decompose_ (ps : UniEncCryptoParams) : FTT -> NativePoly -> res (FTT * list NativePoly) :=
  decompose arb (u_polyParams ps) (u_Q ps) (u_baseG ps) (u_digitsG ps) (u_N ps).

Definition HbProd (ps : UniEncCryptoParams) (st : FTT) (d f : list NativePoly) (index : nat) (Pkey : list (list NativePoly)) (acc : list NativePoly) :
    res (FTT * list NativePoly) :=
  let k := u_k ps in
  let digitsG := (u_digitsG ps - 1)%nat in
  ct ← tabulateS k (fun u st => c ← vget acc u; SetFormat arb st c COEFFICIENT) st;
  r ← for_ k (fun u (x : FTT * NativePoly * list NativePoly) =>
        let '(st, sumV, acc) := x in
        c ← vget ct.2 u;
        dct ← decompose_ ps st c;
        pk ← vget Pkey u;
        uj ← dot_polys digitsG dct.2 d;
        v ← dot_polys digitsG dct.2 pk;
        sumV ← PlusEq sumV v;
        acc ← vset acc u uj;
        Ok (dct.1, sumV, acc)) (ct.1, new_poly (u_polyParams ps) EVALUATION false, acc);
  let '(st, sumV, acc) := r in
  s ← SetFormat arb st sumV COEFFICIENT;
  dct ← decompose_ ps s.1 s.2;
  acc ← for_ k (fun u acc =>
          if (index =? u)%nat
          then w ← dot_polys digitsG dct.2 f; a ← vget acc index; a ← PlusEq a w; vset acc index a
          else Ok acc) acc;
  Ok (dct.1, acc).

(** [acc = acc + HbProd((X^c - 1) * acc)]. *)
Definition add_product (ps : UniEncCryptoParams) (st : FTT) (d f : list NativePoly) (index : nat) (Pkey : list (list NativePoly))
    (monomial : NativePoly) (acc : list NativePoly) : res (FTT * list NativePoly) :=
  acctemp ← for_ (u_k ps) (fun u t => c ← vget t u; c ← Times c monomial; vset t u c) acc;
  r ← HbProd ps st d f index Pkey acctemp;
  acc ← for_ (u_k ps) (fun u acc => a ← vget acc u; t ← vget r.2 u; a ← Plus a t; vset acc u a) acc;
  Ok (r.1, acc).

(** ** Ternary keys *)

(** The two components of row [i], combined by [op]. *)
Definition combine2 (digitsG : nat) (op : NativePoly -> NativePoly -> res NativePoly) (ev1 ev2 : UniEncEvalKey) :
    res (list NativePoly * list NativePoly) :=
  rows ← tabulateM digitsG (fun i =>
    e1 ← vget ev1 i; e2 ← vget ev2 i;
    d ← op e1.1 e2.1; f ← op e1.2 e2.2; Ok (d, f));
  Ok (rows.*1, rows.*2).
Definition combine3 (digitsG : nat) (op : NativePoly -> NativePoly -> NativePoly -> res NativePoly) (evs ev1 ev2 : UniEncEvalKey) :
    res (list NativePoly * list NativePoly) :=
  rows ← tabulateM digitsG (fun i =>
    es ← vget evs i; e1 ← vget ev1 i; e2 ← vget ev2 i;
    d ← op es.1 e1.1 e2.1; f ← op es.2 e1.2 e2.2; Ok (d, f));
  Ok (rows.*1, rows.*2).

Definition AddToAccXZW (ps : UniEncCryptoParams) (st : FTT) (ek1 ek2 : UniEncEvalKey) (c : Z) (Pkey : list (list NativePoly)) (index : nat)
    (acc : list NativePoly) : res (FTT * list NativePoly) :=
  monomial ← GetMonomial ps (monomial_index (u_N ps) c);
  monomialNeg ← GetMonomial ps (monomial_neg_index (u_N ps) c);
  df ← combine2 (u_digitsG ps - 1) (fun e1 e2 => t ← Times e2 monomialNeg; x ← Minus e1 t; Minus x e2) ek1 ek2;
  add_product ps st df.1 df.2 index Pkey monomial acc.

Definition AddToAccXZW0 (ps : UniEncCryptoParams) (st : FTT) (ekstar ek1 ek2 : UniEncEvalKey) (c : Z) (Pkey : list (list NativePoly)) (index : nat)
    (acc : list NativePoly) : res (FTT * list NativePoly) :=
  monomial ← GetMonomial ps (monomial_index (u_N ps) c);
  monomialNeg ← GetMonomial ps (monomial_neg_index (u_N ps) c);
  df ← combine3 (u_digitsG ps - 1) (fun es e1 e2 =>
         t1 ← Times e1 monomial; x ← Plus es t1; t2 ← Times e2 monomialNeg; Plus x t2) ekstar ek1 ek2;
  HbProd ps st df.1 df.2 index Pkey acc.

Definition UniEncACCKey : Type := ACCKey UniEncEvalKey.

(** [sample u s i] is what the key at [[u][s][i]] draws. *)
Definition KeyGenAcc (ps : UniEncCryptoParams) (invskNTT : list NativePoly) (sv : list NativeVector) (CRS : list NativePoly)
    (sample : nat -> nat -> nat -> KeySample) (st : FTT) : res (FTT * UniEncACCKey) :=
  s0 ← vget sv 0;
  let n := length (data s0) in
  let k := length sv in
  let neg := wrap W (modulus s0 - 1) in
  for_ k (fun u x =>
    for_ n (fun i (x : FTT * UniEncACCKey) =>
      let '(st, ek) := x in
      su ← vget sv u; s ← vget (data su) i;
      inv ← vget invskNTT u;
      let gen := fun kdm s' i' m (x : FTT * UniEncACCKey) =>
        r ← (if (kdm : bool) then KDMKeyGenXZW else KeyGenXZW) ps inv CRS m (sample u s' i') x.1;
        ek ← set_key x.2 u s' i' r.2; Ok (r.1, ek) in
      if (u =? 0)%nat && (i =? 0)%nat
      then x ← gen true 0%nat i (if s =? 1 then 1 else 0) (st, ek);
           x ← gen true 1%nat i (if s =? neg then 1 else 0) x;
           gen true 0%nat n 1 x
      else x ← gen false 0%nat i (if s =? 1 then 1 else 0) (st, ek);
           gen false 1%nat i (if s =? neg then 1 else 0) x) x) (st, new_key k 2 (n + 1)).

(** [ct[u][i] * 2 * N / mod]. *)
Definition scale_exponent (x : Z) (N : nat) (mod_ : Z) : res Z := t ← Mul W x 2; t ← Mul W t (Z.of_nat N); DividedBy t mod_.

Definition EvalAcc (ps : UniEncCryptoParams) (st : FTT) (ek : UniEncACCKey) (Pkey : list (list NativePoly)) (acc : list NativePoly)
    (ct : list NativeVector) : res (FTT * list NativePoly) :=
  c0 ← vget ct 0;
  let k := length ct in
  let n := length (data c0) in
  let mod_ := modulus c0 in
  for_ k (fun u x =>
    for_ n (fun i (x : FTT * list NativePoly) =>
      let '(st, acc) := x in
      cu ← vget ct u; c ← vget (data cu) i; e ← scale_exponent c (u_N ps) mod_;
      if (u =? 0)%nat && (i =? 0)%nat
      then ks ← get_key ek u 0 n; k1 ← get_key ek u 0 i; k2 ← get_key ek u 1 i;
           AddToAccXZW0 ps st ks k1 k2 e Pkey u acc
      else k1 ← get_key ek u 0 i; k2 ← get_key ek u 1 i;
           AddToAccXZW ps st k1 k2 e Pkey u acc) x) (st, acc).

(** ** Binary keys: [UniEncAccumulatorXZW_B] *)
Definition AddToAccXZW_B (ps : UniEncCryptoParams) (st : FTT) (ek1 : UniEncEvalKey) (c : Z) (Pkey : list (list NativePoly)) (index : nat)
    (acc : list NativePoly) : res (FTT * list NativePoly) :=
  monomial ← GetMonomial ps (monomial_index (u_N ps) c);
  df ← combine2 (u_digitsG ps - 1) (fun e1 _ => Ok e1) ek1 ek1;
  add_product ps st df.1 df.2 index Pkey monomial acc.

Definition AddToAccXZW0_B (ps : UniEncCryptoParams) (st : FTT) (ekstar ek1 : UniEncEvalKey) (c : Z) (Pkey : list (list NativePoly)) (index : nat)
    (acc : list NativePoly) : res (FTT * list NativePoly) :=
  monomial ← GetMonomial ps (monomial_index (u_N ps) c);
  df ← combine2 (u_digitsG ps - 1) (fun es e1 => t1 ← Times e1 monomial; Plus es t1) ekstar ek1;
  HbProd ps st df.1 df.2 index Pkey acc.

(** For a matrix-NTRU key ([sv] is its first column) and for a multi-key LWE
    key ([sv] is the key) the code is the same. *)
Definition KeyGenAcc_B (ps : UniEncCryptoParams) (invskNTT : list NativePoly) (sv : list NativeVector) (CRS : list NativePoly)
    (sample : nat -> nat -> nat -> KeySample) (st : FTT) : res (FTT * UniEncACCKey) :=
  s0 ← vget sv 0;
  let n := length (data s0) in
  let k := length sv in
  for_ k (fun u x =>
    for_ n (fun i (x : FTT * UniEncACCKey) =>
      let '(st, ek) := x in
      su ← vget sv u; s ← vget (data su) i;
      inv ← vget invskNTT u;
      let gen := fun kdm i' m (x : FTT * UniEncACCKey) =>
        r ← (if (kdm : bool) then KDMKeyGenXZW else KeyGenXZW) ps inv CRS m (sample u 0%nat i') x.1;
        ek ← set_key x.2 u 0 i' r.2; Ok (r.1, ek) in
      if (u =? 0)%nat && (i =? 0)%nat
      then x ← gen true i (if s =? 1 then 1 else 0) (st, ek);
           gen true n 1 x
      else gen false i (if s =? 1 then 1 else 0) (st, ek)) x) (st, new_key k 1 (n + 1)).

Definition EvalAcc_B (ps : UniEncCryptoParams) (st : FTT) (ek : UniEncACCKey) (Pkey : list (list NativePoly)) (acc : list NativePoly)
    (ct : list NativeVector) : res (FTT * list NativePoly) :=
  c0 ← vget ct 0;
  let k := length ct in
  let n := length (data c0) in
  for_ k (fun u x =>
    for_ n (fun i (x : FTT * list NativePoly) =>
      let '(st, acc) := x in
      cu ← vget ct u; c ← vget (data cu) i;
      if (u =? 0)%nat && (i =? 0)%nat
      then ks ← get_key ek u 0 n; k1 ← get_key ek u 0 i;
           AddToAccXZW0_B ps st ks k1 c Pkey u acc
      else k1 ← get_key ek u 0 i;
           AddToAccXZW_B ps st k1 c Pkey u acc) x) (st, acc).
End Accumulator.
