(* ===== verification/MkAccFacts.v ===== *)
(** * The accumulator on ring elements

    What the operations of [MkAcc] compute when their arguments hold ring
    elements: the tables of [PreCompute], the rows of the evaluation keys, the
    decomposition, the hybrid product and its phase, with the noise written
    out and bounded. *)

From Stdlib Require Import ZArith Lia String.
From stdpp Require Import base tactics numbers list strings gmap.
From S2P Require Import Prelude Double NativeInt NativeIntFacts ModArith NativeVec SchemeCore Negacyclic BitReverse Ntt NttFacts NttSpec NttRing Poly PolyFacts Automorphism Gadget RingNoise AccCore AccCoreFacts MkAcc.

(** ** The identity behind the hybrid product

    In every slot: the digits [D u i] of [c u] and [DV i] of [V] meet rows with
    message [mu] and ephemeral [r]. *)
Lemma hybrid_identity q (U G : nat) (pw : nat -> Z) (D P e : nat -> nat -> Z) (DV c dr s d f e0 e1 a : nat -> Z) (si V drV r mu : Z) :
  (forall i, (i < G)%nat -> d i ≡[q] mu * pw i + e0 i + r * a i) ->
  (forall i, (i < G)%nat -> si * f i ≡[q] e1 i + r * pw i) ->
  (forall u i, (u < U)%nat -> (i < G)%nat -> P u i ≡[q] e u i - a i * s u) ->
  (forall u, (u < U)%nat -> sumZ G (fun i => pw i * D u i) ≡[q] c u - dr u) ->
  sumZ G (fun i => pw i * DV i) ≡[q] V - drV ->
  V ≡[q] sumZ U (fun u => sumZ G (fun i => D u i * P u i)) ->
  sumZ U (fun u => s u * sumZ G (fun i => D u i * d i)) + si * sumZ G (fun i => DV i * f i) ≡[q]
  mu * sumZ U (fun u => s u * c u) +
  (sumZ U (fun u => sumZ G (fun i => D u i * e0 i * s u)) + r * sumZ U (fun u => sumZ G (fun i => D u i * e u i)) +
   sumZ G (fun i => DV i * e1 i) - r * drV - mu * sumZ U (fun u => s u * dr u)).
Proof.
  intros Hd Hf HP Hc HV EV.
  assert (si * sumZ G (fun i => DV i * f i) ≡[q] sumZ G (fun i => DV i * e1 i) + r * (V - drV)) as E1.
  { rewrite <- HV, <- !sumZ_scale, <- sumZ_add. apply sumZ_eqm. intros i Hi.
    transitivity (DV i * (si * f i)); [apply eqm_refl; ring|]. rewrite Hf by done. apply eqm_refl. ring. }
  assert (forall u, (u < U)%nat -> s u * sumZ G (fun i => D u i * d i) ≡[q]
    mu * (s u * c u) - mu * (s u * dr u) + sumZ G (fun i => D u i * e0 i * s u) + r * sumZ G (fun i => D u i * e u i) - r * sumZ G (fun i => D u i * P u i)) as E2.
  { intros u Hu. transitivity (mu * s u * sumZ G (fun i => pw i * D u i) + sumZ G (fun i => D u i * e0 i * s u) + r * (sumZ G (fun i => D u i * e u i) - sumZ G (fun i => D u i * P u i))).
    - rewrite <- sumZ_sub, <- !sumZ_scale, <- !sumZ_add. apply sumZ_eqm. intros i Hi. rewrite Hd, HP by done. apply eqm_refl. ring.
    - rewrite Hc by done. apply eqm_refl. ring. }
  rewrite E1, EV. rewrite (sumZ_eqm q U _ _ E2). rewrite !sumZ_sub, !sumZ_add, !sumZ_sub, !sumZ_scale. apply eqm_refl. ring.
Qed.

(** ** Operations *)

(** The parameters after [PreCompute], for the ring of [q], [psi], [k], the
    base [2^g] and [G + 1] digits. *)
Record acc_params (ps : UniEncCryptoParams) (q psi : Z) (k : nat) (g : Z) (G : nat) : Prop := {
  ap_N : u_N ps = (2 ^ k)%nat;
  ap_Q : u_Q ps = q;
  ap_baseG : u_baseG ps = 2 ^ g;
  ap_digitsG : u_digitsG ps = S G;
  ap_polyParams : u_polyParams ps = ring_par q psi k;
  ap_Gpower : u_Gpower ps = map (fun i => ((2 ^ g) ^ Z.of_nat i) mod q) (seq 0 (S G));
  ap_monomials : u_monomials ps = monomial_elems (q := q) (psi := psi) (k := k)
}.

Section Operations.
Context {st : FTT} {q psi : Z} {k : nat} {HR : RingTransform st q psi k} (arb : FTT -> NativePoly -> res (FTT * NativePoly)).
Context (g : Z) (Hg : 1 <= g <= 31) (HgQ : 2 ^ g <= q) (G : nat) (HG : (0 < G)%nat).
Context (ps : UniEncCryptoParams) (Hps : acc_params ps q psi k g G).
Abbreviation B := (2 ^ g).
Abbreviation n := (2 ^ k)%nat.
Abbreviation wf := (wf_data (q := q) k).
Abbreviation of_ := (poly_of q psi k).
Abbreviation polys_ := (polys (q := q) (psi := psi) (k := k)).
Abbreviation digit := (gadget_digit q B k).

#[local] Instance operations_modulus : NativeModulus W q.
Proof using HR. exact rt_modulus. Qed.

Lemma decompose_ps c : wf c -> decompose_ arb ps st (of_ COEFFICIENT c) = Ok (st, polys_ G (fun i => digit i c)).
Proof using HR Hg HgQ Hps.
  intros Hc. unfold decompose_. rewrite (ap_digitsG _ _ _ _ _ _ Hps), (ap_Q _ _ _ _ _ _ Hps), (ap_baseG _ _ _ _ _ _ Hps), (ap_N _ _ _ _ _ _ Hps), (ap_polyParams _ _ _ _ _ _ Hps).
  by apply (decompose_spec (HR := HR)).
Qed.

(** The sum of the products with the public keys, and the new elements. *)
Definition hb_v (U : nat) (P : nat -> nat -> list Z) (c : nat -> list Z) : list Z :=
  rsum q n U (fun u => rsum q n G (fun i => rmul q n (digit i (c u)) (P u i))).
Definition hb (U index : nat) (P : nat -> nat -> list Z) (d f c : nat -> list Z) (u : nat) : list Z :=
  let uj := rsum q n G (fun i => rmul q n (digit i (c u)) (d i)) in
  if decide (u = index) then radd q uj (rsum q n G (fun i => rmul q n (digit i (hb_v U P c)) (f i))) else uj.

Lemma hb_v_wf U P c : wf (hb_v U P c).
Proof using HR. clear Hps HgQ Hg HG. apply (rsum_wf (HR := HR)). intros. apply (rsum_wf (HR := HR)). intros. apply rmul_wf. Qed.

Lemma hb_wf U index P d f c u : wf (hb U index P d f c u).
Proof using HR.
  clear Hps HgQ Hg HG. unfold hb. assert (forall h, wf (rsum q n G (fun i => rmul q n (h i) (d i)))) as H by (intros; apply (rsum_wf (HR := HR)); intros; apply rmul_wf).
  destruct (decide _); [|apply H]. apply radd_wf; [apply H|]. apply (rsum_wf (HR := HR)). intros. apply rmul_wf.
Qed.

Lemma HbProd_spec U index P d f c Pkey :
  u_k ps = U -> (0 < U)%nat -> (index < U)%nat ->
  (forall u, (u < U)%nat -> Pkey !! u = Some (polys_ G (P u)) /\ forall i, (i < G)%nat -> wf (P u i)) ->
  (forall i, (i < G)%nat -> wf (d i) /\ wf (f i)) -> (forall u, (u < U)%nat -> wf (c u)) ->
  HbProd arb ps st (polys_ G d) (polys_ G f) index Pkey (polys_ U c) = Ok (st, polys_ U (hb U index P d f c)).
Proof using All.
  intros HU HU0 Hidx HP Hdf Hc. unfold HbProd. rewrite HU, (ap_digitsG _ _ _ _ _ _ Hps), (ap_polyParams _ _ _ _ _ _ Hps), Nat.sub_succ, Nat.sub_0_r.
  rewrite (tabulateS_ok U _ (fun u => of_ COEFFICIENT (c u))).
  2: { intros u Hu. rewrite polys_get, bind_ok by done. by rewrite (SetFormat_of (HR := HR)) by auto. }
  rewrite bind_ok. cbn [fst snd].
  set (uj := fun u => rsum q n G (fun i => rmul q n (digit i (c u)) (d i))).
  set (vj := fun u => rsum q n G (fun i => rmul q n (digit i (c u)) (P u i))).
  assert (forall u, wf (vj u)) as Hvj by (intros u; apply (rsum_wf (HR := HR)); intros; apply rmul_wf).
  set (sums := fun u => match u with O => new_poly (ring_par q psi k) EVALUATION false | S _ => of_ EVALUATION (rsum q n u vj) end).
  rewrite (for_states _ U (fun u => (st, sums u, polys_ U (fun u' => if (u' <? u)%nat then uj u' else c u')))).
  2: { intros u Hu. rewrite (vget_lookup _ _ _ (lookup_tab _ _ _ Hu)), bind_ok, decompose_ps, bind_ok by auto. cbn [fst snd].
    destruct (HP u Hu) as [HPu HPw]. rewrite (vget_lookup _ _ _ HPu), bind_ok.
    rewrite !(dot_polys_spec (HR := HR)), !bind_ok by (done || intros; apply gadget_digit_wf || by apply Hdf || by apply HPw). fold (uj u) (vj u).
    assert (PlusEq (sums u) (of_ EVALUATION (vj u)) = Ok (sums (S u))) as ->.
    { unfold sums. destruct u as [|u].
      - rewrite (PlusEq_empty (HR := HR)) by done. cbn [rsum]. by rewrite (radd_0_l (HR := HR)).
      - rewrite (PlusEq_of (HR := HR)); [done|by apply (rsum_wf (HR := HR))|done]. }
    rewrite bind_ok, polys_set, bind_ok by done. do 2 f_equal. apply polys_ext. intros j Hj. destruct (decide (j = u)) as [->|].
    - by rewrite (proj2 (Nat.ltb_lt u (S u))) by lia.
    - destruct (Nat.ltb_spec j u), (Nat.ltb_spec j (S u)); done || lia. }
  rewrite bind_ok. assert (sums U = of_ EVALUATION (hb_v U P c)) as ->. { unfold sums. destruct U; [lia|done]. }
  rewrite (SetFormat_of (HR := HR)), bind_ok by apply hb_v_wf. cbn [fst snd]. rewrite decompose_ps, bind_ok by apply hb_v_wf. cbn [fst snd].
  rewrite (polys_ext U _ uj) by (intros i Hi; by rewrite (proj2 (Nat.ltb_lt _ _))).
  rewrite (for_states _ U (fun u => polys_ U (fun u' => if (u' <? u)%nat then hb U index P d f c u' else uj u'))).
  - rewrite bind_ok. do 2 f_equal. apply polys_ext. intros i Hi. by rewrite (proj2 (Nat.ltb_lt _ _)).
  - intros u Hu. destruct (Nat.eqb_spec index u) as [<-|Hne].
    + rewrite (dot_polys_spec (HR := HR)), bind_ok by (done || intros; apply gadget_digit_wf || by apply Hdf). rewrite polys_get, bind_ok, Nat.ltb_irrefl by done.
      rewrite (PlusEq_of (HR := HR)), bind_ok by (apply (rsum_wf (HR := HR)); intros; apply rmul_wf). rewrite polys_set by done.
      f_equal. apply polys_ext. intros j Hj. destruct (decide (j = index)) as [->|].
      * rewrite (proj2 (Nat.ltb_lt index (S index))) by lia. unfold hb. by rewrite decide_True.
      * destruct (Nat.ltb_spec j index), (Nat.ltb_spec j (S index)); done || lia.
    + f_equal. apply polys_ext. intros j Hj. destruct (Nat.ltb_spec j u), (Nat.ltb_spec j (S u)); try (done || lia).
      assert (j = u) as -> by lia. unfold hb. by rewrite decide_False.
Qed.
End Operations.

(** ** The phase of the hybrid product *)
Section Phase.
Context {st : FTT} {q psi : Z} {k : nat} {HR : RingTransform st q psi k}.
Context (g : Z) (Hg : 1 <= g <= 31) (G : nat) (HGq : q <= (2 ^ g) ^ Z.of_nat (S G)).
Abbreviation B := (2 ^ g).
Abbreviation n := (2 ^ k)%nat.
Abbreviation wf := (wf_data (q := q) k).
Abbreviation slot_ := (slot q psi k).
Abbreviation digit := (gadget_digit q B k).
Abbreviation drop := (dropped (q := q) (k := k) g G).

#[local] Instance phase_modulus : NativeModulus W q.
Proof using HR. exact rt_modulus. Qed.

(** A row of an evaluation key for the secret [s] is
    [d_i = mu B^(i+1) + e0_i + r a_i] and [s f_i = e1_i + r B^(i+1)]. *)
Definition key_rel (s : list Z) (a : nat -> list Z) (mu r : list Z) (e0 e1 d f : nat -> list Z) : Prop :=
  forall i x, (i < G)%nat -> (x < n)%nat ->
    slot_ x (d i) ≡[q] slot_ x mu * B ^ (Z.of_nat i + 1) + slot_ x (e0 i) + slot_ x r * slot_ x (a i) /\
    slot_ x s * slot_ x (f i) ≡[q] slot_ x (e1 i) + slot_ x r * B ^ (Z.of_nat i + 1).

(** The public keys are [e_(u,i) - a_i s_u]. *)
Definition pub_rel (U : nat) (s a : nat -> list Z) (e P : nat -> nat -> list Z) : Prop :=
  forall u i x, (u < U)%nat -> (i < G)%nat -> (x < n)%nat -> slot_ x (P u i) ≡[q] slot_ x (e u i) - slot_ x (a i) * slot_ x (s u).

(** The phase of an accumulator, and the noise that a product adds to it. *)
Definition acc_phase (U : nat) (s c : nat -> list Z) : list Z := rsum q n U (fun u => rmul q n (s u) (c u)).
Definition hb_noise (U : nat) (s : nat -> list Z) (mu r : list Z) (e0 e1 : nat -> list Z) (e P : nat -> nat -> list Z) (c : nat -> list Z) : list Z :=
  let V := hb_v (q := q) (k := k) g G U P c in
  let n1 := rsum q n U (fun u => rsum q n G (fun i => rmul q n (s u) (rmul q n (e0 i) (digit i (c u))))) in
  let n2 := rsum q n U (fun u => rsum q n G (fun i => rmul q n (e u i) (digit i (c u)))) in
  let n3 := rsum q n G (fun i => rmul q n (e1 i) (digit i V)) in
  rsub q (rsub q (radd q (radd q n1 (rmul q n r n2)) n3) (rmul q n r (drop V)))
    (rmul q n mu (rsum q n U (fun u => rmul q n (s u) (drop (c u))))).

Lemma acc_phase_wf U s c : wf (acc_phase U s c).
Proof using HR. clear Hg HGq. apply (rsum_wf (HR := HR)). intros. apply rmul_wf. Qed.

Lemma slot_acc_phase x U s c : (x < n)%nat -> (forall u, (u < U)%nat -> wf (s u)) -> (forall u, (u < U)%nat -> wf (c u)) ->
  slot_ x (acc_phase U s c) ≡[q] sumZ U (fun u => slot_ x (s u) * slot_ x (c u)).
Proof using HR.
  clear Hg HGq. intros Hx Hs Hc. by apply slot_dot.
Qed.

Lemma hb_noise_wf U s mu r e0 e1 e P c : wf (hb_noise U s mu r e0 e1 e P c).
Proof using HR.
  clear Hg HGq. unfold hb_noise. repeat first [apply rsub_wf | apply radd_wf | apply rmul_wf | apply (rsum_wf (HR := HR)); intros].
Qed.

Section OneProduct.
Context (U index : nat) (Hidx : (index < U)%nat) (s a : nat -> list Z) (mu r : list Z) (e0 e1 d f : nat -> list Z) (e P : nat -> nat -> list Z) (c : nat -> list Z).
Context (Hs : forall u, (u < U)%nat -> wf (s u)) (Hc : forall u, (u < U)%nat -> wf (c u)) (Hmu : wf mu) (Hr : wf r).
Context (He : forall i, (i < G)%nat -> wf (e0 i) /\ wf (e1 i) /\ wf (d i) /\ wf (f i)).
Context (HeP : forall u i, (u < U)%nat -> (i < G)%nat -> wf (e u i) /\ wf (P u i)).

Lemma slot_hb x : (x < n)%nat ->
  sumZ U (fun u => slot_ x (s u) * slot_ x (hb (q := q) (k := k) g G U index P d f c u)) ≡[q]
  sumZ U (fun u => slot_ x (s u) * sumZ G (fun i => slot_ x (digit i (c u)) * slot_ x (d i))) +
  slot_ x (s index) * sumZ G (fun i => slot_ x (digit i (hb_v (q := q) (k := k) g G U P c)) * slot_ x (f i)).
Proof using HR Hidx He.
  clear Hg HGq. intros Hx. rewrite <- (sumZ_delta U index (fun u => slot_ x (s u) * sumZ G (fun i => slot_ x (digit i (hb_v (q := q) (k := k) g G U P c)) * slot_ x (f i)))) by done.
  rewrite <- sumZ_add. apply sumZ_eqm. intros u Hu. unfold hb.
  assert (slot_ x (rsum q n G (fun i => rmul q n (digit i (c u)) (d i))) ≡[q] sumZ G (fun i => slot_ x (digit i (c u)) * slot_ x (d i))) as E1.
  { apply slot_dot; [done|intros; apply gadget_digit_wf|intros; by apply He]. }
  destruct (decide (u = index)) as [->|]; [|rewrite E1; apply eqm_refl; ring].
  rewrite (slot_radd (HR := HR)), E1, slot_dot by (done || (intros; apply gadget_digit_wf) || (intros; by apply He) || (apply (rsum_wf (HR := HR)); intros; apply rmul_wf)).
  apply eqm_refl. ring.
Qed.

(** The product multiplies the phase by the message, up to the noise. *)
Lemma hb_phase : key_rel (s index) a mu r e0 e1 d f -> pub_rel U s a e P ->
  acc_phase U s (hb (q := q) (k := k) g G U index P d f c) = radd q (rmul q n mu (acc_phase U s c)) (hb_noise U s mu r e0 e1 e P c).
Proof using HR Hg Hidx Hs Hc Hmu Hr He HeP.
  clear HGq. intros Hkey Hpub.
  apply (slot_ext (HR := HR)); [apply acc_phase_wf|apply radd_wf; [apply rmul_wf|apply hb_noise_wf]|]. intros x Hx.
  rewrite slot_acc_phase, slot_hb; [|done|done|done|intros; apply (hb_wf (HR := HR))].
  rewrite (slot_radd (HR := HR)) by (done || apply rmul_wf || apply hb_noise_wf).
  rewrite (slot_rmul (HR := HR)), slot_acc_phase; [|done..|apply acc_phase_wf].
  set (V := hb_v (q := q) (k := k) g G U P c) in *. assert (wf V) as HV by apply (hb_v_wf (HR := HR)).
  rewrite (hybrid_identity q U G (fun i => B ^ (Z.of_nat i + 1)) (fun u i => slot_ x (digit i (c u))) (fun u i => slot_ x (P u i)) (fun u i => slot_ x (e u i))
    (fun i => slot_ x (digit i V)) (fun u => slot_ x (c u)) (fun u => slot_ x (drop (c u))) (fun u => slot_ x (s u)) _ _
    (fun i => slot_ x (e0 i)) (fun i => slot_ x (e1 i)) (fun i => slot_ x (a i)) _ (slot_ x V) (slot_ x (drop V)) (slot_ x r) (slot_ x mu)).
  - apply eqm_add; [done|]. unfold hb_noise. fold V.
    repeat first [rewrite (slot_rsub (HR := HR)) | rewrite (slot_radd (HR := HR)) | rewrite (slot_rmul (HR := HR))];
      try (repeat first [done | apply rsub_wf | apply radd_wf | apply rmul_wf | apply dropped_wf | apply (rsum_wf (HR := HR)); intros]).
    rewrite (slot_dot2 x U G (fun u i => s u) (fun u i => rmul q n (e0 i) (digit i (c u)))) by (first [done | intros; by apply Hs | intros; apply rmul_wf]).
    rewrite (slot_dot2 x U G e (fun u i => digit i (c u))), (slot_dot x G e1), (slot_dot x U s)
      by (first [done | intros; apply gadget_digit_wf | intros; apply dropped_wf | intros; by apply He | intros; by apply HeP | intros; by apply Hs]).
    assert (forall u, (u < U)%nat -> sumZ G (fun i => slot_ x (digit i (c u)) * slot_ x (e0 i) * slot_ x (s u)) ≡[q]
      sumZ G (fun i => slot_ x (s u) * slot_ x (rmul q n (e0 i) (digit i (c u))))) as E1.
    { intros u Hu. apply sumZ_eqm. intros i Hi. rewrite (slot_rmul (HR := HR)) by (done || apply gadget_digit_wf || by apply He). apply eqm_refl. ring. }
    rewrite (sumZ_eqm q U _ _ E1). apply eqm_refl. f_equal. f_equal. f_equal; [f_equal; f_equal|]; repeat (apply sumZ_ext; intros); ring.
  - intros i Hi. apply (Hkey i x Hi Hx).
  - intros i Hi. apply (Hkey i x Hi Hx).
  - intros u i Hu Hi. by apply Hpub.
  - intros u Hu. apply (slot_gadget (HR := HR) g Hg G x (c u) Hx). auto.
  - by apply (slot_gadget (HR := HR) g Hg G x V Hx).
  - unfold V, hb_v. apply (slot_dot2 x U G (fun u i => digit i (c u)) P Hx); [intros; apply gadget_digit_wf|intros; by apply HeP].
Qed.

(** The bound, from the sums of the absolute values of the secrets [sg], of
    the errors [ep] and of the ephemeral [rh], and from the size [tau] of what
    the message makes of the dropped parts. *)
Definition product_bound (U : nat) (sg ep rh tau : Z) : Z :=
  Z.of_nat U * (Z.of_nat G * (sg * (ep * (B / 2)))) + rh * (Z.of_nat U * (Z.of_nat G * (ep * (B / 2)))) + Z.of_nat G * (ep * (B / 2)) +
  rh * drop_bound (q := q) g G + tau.

Lemma hb_noise_bound sg ep rh tau :
  0 <= sg -> 0 <= ep -> 0 <= rh ->
  (forall u, (u < U)%nat -> l1_le q n sg (s u)) -> (forall i, (i < G)%nat -> l1_le q n ep (e0 i) /\ l1_le q n ep (e1 i)) ->
  (forall u i, (u < U)%nat -> (i < G)%nat -> l1_le q n ep (e u i)) -> l1_le q n rh r ->
  inf_le q n tau (rmul q n mu (rsum q n U (fun u => rmul q n (s u) (drop (c u))))) ->
  inf_le q n (product_bound U sg ep rh tau) (hb_noise U s mu r e0 e1 e P c).
Proof using HR Hg HGq.
  clear Hidx. intros Hsg Hep Hrh Bs Be Bp Br Bt. unfold hb_noise, product_bound.
  assert (0 <= B / 2) as HB2 by (apply Z.div_pos; [apply Z.pow_nonneg|]; lia).
  pose proof (drop_bound_nonneg (q := q) g Hg G HGq) as Hd.
  assert (forall m f, wf (rsum q n m (fun i => rmul q n (f i).1 (f i).2))) as Hw by (intros; apply (rsum_wf (HR := HR)); intros; apply rmul_wf).
  assert (forall l h, 0 <= l -> l1_le q n l h -> forall i c', inf_le q n (l * (B / 2)) (rmul q n h (digit i c'))) as Hdig.
  { intros l h Hl Bh i c'. apply inf_rmul; [done|done|]. by apply gadget_digit_inf. }
  set (V := hb_v (q := q) (k := k) g G U P c).
  apply inf_rsub; [apply rsub_wf; repeat first [apply radd_wf | apply rmul_wf | apply (rsum_wf (HR := HR)); intros]|apply rmul_wf| |exact Bt].
  apply inf_rsub; [repeat first [apply radd_wf | apply rmul_wf | apply (rsum_wf (HR := HR)); intros]|apply rmul_wf| |].
  - apply inf_radd; [repeat first [apply radd_wf | apply rmul_wf | apply (rsum_wf (HR := HR)); intros]..| |].
    + apply inf_radd; [repeat first [apply radd_wf | apply rmul_wf | apply (rsum_wf (HR := HR)); intros]..| |].
      * apply (inf_rsum (HR := HR)); [intros; repeat first [apply rmul_wf | apply (rsum_wf (HR := HR)); intros]|]. intros u Hu.
        apply (inf_rsum (HR := HR)); [intros; apply rmul_wf|]. intros i Hi. apply inf_rmul; [nia|by apply Bs|]. apply Hdig; [done|]. by apply Be.
      * apply inf_rmul; [nia|done|]. apply (inf_rsum (HR := HR)); [intros; repeat first [apply rmul_wf | apply (rsum_wf (HR := HR)); intros]|]. intros u Hu.
        apply (inf_rsum (HR := HR)); [intros; apply rmul_wf|]. intros i Hi. apply Hdig; [done|]. by apply Bp.
    + apply (inf_rsum (HR := HR)); [intros; apply rmul_wf|]. intros i Hi. apply Hdig; [done|]. by apply Be.
  - apply inf_rmul; [done|done|]. apply (dropped_inf (HR := HR)); [done|done|]. apply (hb_v_wf (HR := HR)).
Qed.
End OneProduct.

(** What first components that are [d'] larger add to the phase. *)
Definition surplus (U : nat) (s c d' : nat -> list Z) : list Z := rsum q n U (fun u => rmul q n (s u) (rsum q n G (fun i => rmul q n (digit i (c u)) (d' i)))).

Lemma hb_surplus U index s d d' f P c : (index < U)%nat -> (forall u, (u < U)%nat -> wf (s u)) -> (forall i, (i < G)%nat -> wf (d i) /\ wf (d' i) /\ wf (f i)) ->
  acc_phase U s (hb (q := q) (k := k) g G U index P (fun i => radd q (d i) (d' i)) f c) =
  radd q (acc_phase U s (hb (q := q) (k := k) g G U index P d f c)) (surplus U s c d').
Proof using HR.
  clear Hg HGq. intros Hidx Hs Hd.
  assert (forall h, (forall i, (i < G)%nat -> wf (h i)) -> forall i, (i < G)%nat -> wf (h i) /\ wf (h i) /\ wf (h i) /\ wf (f i)) as Hw.
  { intros h Hh i Hi. split; [by apply Hh|]. split; [by apply Hh|]. split; [by apply Hh|by apply Hd]. }
  assert (forall h u, wf (rsum q n G (fun i => rmul q n (digit i (c u)) (h i)))) as Hr by (intros; apply (rsum_wf (HR := HR)); intros; apply rmul_wf).
  apply (slot_ext (HR := HR)); [apply acc_phase_wf|apply radd_wf; [apply acc_phase_wf|apply (rsum_wf (HR := HR)); intros; apply rmul_wf]|]. intros x Hx.
  rewrite (slot_radd (HR := HR)) by (done || apply acc_phase_wf || (apply (rsum_wf (HR := HR)); intros; apply rmul_wf)).
  rewrite !slot_acc_phase by (done || (intros; apply (hb_wf (HR := HR)))).
  rewrite (slot_hb U index Hidx s d d d f P c) by (done || (apply Hw; intros; by apply Hd)).
  rewrite (slot_hb U index Hidx s _ _ (fun i => radd q (d i) (d' i)) f P c) by (done || (apply Hw; intros i Hi; apply radd_wf; by apply Hd)).
  unfold surplus. rewrite (slot_dot x U s) by done.
  assert (sumZ U (fun u => slot_ x (s u) * sumZ G (fun i => slot_ x (digit i (c u)) * slot_ x (radd q (d i) (d' i)))) ≡[q]
    sumZ U (fun u => slot_ x (s u) * sumZ G (fun i => slot_ x (digit i (c u)) * slot_ x (d i))) +
    sumZ U (fun u => slot_ x (s u) * slot_ x (rsum q n G (fun i => rmul q n (digit i (c u)) (d' i))))) as ->; [|apply eqm_refl; ring].
  rewrite <- sumZ_add. apply sumZ_eqm. intros u Hu.
  rewrite (slot_dot x G (fun i => digit i (c u))) by (first [done | intros; apply gadget_digit_wf | intros; by apply Hd]).
  rewrite <- Z.mul_add_distr_l, <- sumZ_add. apply eqm_mul; [done|]. apply sumZ_eqm. intros i Hi.
  rewrite (slot_radd (HR := HR)) by (done || by apply Hd). apply eqm_refl. ring.
Qed.

Lemma surplus_zero U s c d' : (forall u, (u < U)%nat -> wf (s u)) -> (forall i, (i < G)%nat -> d' i = rzero n) -> surplus U s c d' = rzero n.
Proof using HR.
  clear Hg HGq. intros Hs Hd. apply (slot_ext (HR := HR)); [apply (rsum_wf (HR := HR)); intros; apply rmul_wf|apply rzero_wf|]. intros x Hx.
  unfold surplus. rewrite (slot_dot x U s) by (done || (intros; apply (rsum_wf (HR := HR)); intros; apply rmul_wf)).
  rewrite (slot_rzero (HR := HR)), <- (sumZ_zero U) by done. apply sumZ_eqm. intros u Hu.
  rewrite (slot_dot x G (fun i => digit i (c u))) by (first [done | intros; apply gadget_digit_wf | intros i Hi; rewrite Hd by done; apply rzero_wf]).
  rewrite <- (Z.mul_0_r (slot_ x (s u))), <- (sumZ_zero G). apply eqm_mul; [done|]. apply sumZ_eqm. intros i Hi.
  rewrite Hd, (slot_rzero (HR := HR)) by done. apply eqm_refl. ring.
Qed.
End Phase.
