(* ===== verification/MkAccSteps.v ===== *)
(** * Blind rotation

    Families of rows that encrypt a message, closed under the operations with
    which the accumulator combines evaluation keys; one step of the
    accumulator multiplies the phase by a power of [x]; and the loop of
    [EvalAcc] by the power of the whole inner product, for ternary and for
    binary keys, with an explicit bound of the noise. *)

From Stdlib Require Import ZArith Lia String.
From stdpp Require Import base tactics numbers list strings gmap.
From S2P Require Import Prelude Double NativeInt NativeIntFacts ModArith NativeVec SchemeCore Negacyclic BitReverse Ntt NttFacts NttSpec NttRing Poly PolyFacts Automorphism Gadget RingNoise AccCore AccCoreFacts MkAcc MkAccFacts.

Section Steps.
Context {st : FTT} {q psi : Z} {k : nat} {HR : RingTransform st q psi k} (arb : FTT -> NativePoly -> res (FTT * NativePoly)).
Context (g : Z) (Hg : 1 <= g <= 31) (HgQ : 2 ^ g <= q) (G : nat) (HG : (0 < G)%nat) (HGq : q <= (2 ^ g) ^ Z.of_nat (S G)).
Abbreviation B := (2 ^ g).
Abbreviation n := (2 ^ k)%nat.
Abbreviation wf := (wf_data (q := q) k).
Abbreviation slot_ := (slot q psi k).
Abbreviation of_ := (poly_of q psi k).
Abbreviation polys_ := (polys (q := q) (psi := psi) (k := k)).
Abbreviation drop := (dropped (q := q) (k := k) g G).
Abbreviation phase := (acc_phase (q := q) (k := k)).
Abbreviation hb_ := (hb (q := q) (k := k) g G).
Abbreviation mono_ := (mono q n).

#[local] Instance steps_modulus : NativeModulus W q.
Proof using HR. exact rt_modulus. Qed.

(** ** Families of rows *)

(** Rows that encrypt [mu] under [s], with errors of sum at most [ep] and an
    ephemeral of sum at most [rh]. *)
Definition family (s : list Z) (a : nat -> list Z) (mu : list Z) (ep rh : Z) (d f : nat -> list Z) : Prop :=
  exists r e0 e1, wf r /\ l1_le q n rh r /\
    (forall i, (i < G)%nat -> wf (e0 i) /\ wf (e1 i) /\ wf (d i) /\ wf (f i) /\ l1_le q n ep (e0 i) /\ l1_le q n ep (e1 i)) /\
    key_rel (q := q) (psi := psi) (k := k) g G s a mu r e0 e1 d f.

Lemma family_mu s a mu mu' ep rh d f : (forall x, (x < n)%nat -> slot_ x mu ≡[q] slot_ x mu') -> family s a mu ep rh d f -> family s a mu' ep rh d f.
Proof using Type.
  clear. intros E (r & e0 & e1 & Hr & Br & He & Hk). exists r, e0, e1. split; [done|]. split; [done|]. split; [done|].
  intros i x Hi Hx. destruct (Hk i x Hi Hx) as [E1 E2]. by rewrite <- E.
Qed.

Lemma family_ext s a mu ep rh d f d' f' : (forall i, (i < G)%nat -> d i = d' i /\ f i = f' i) -> family s a mu ep rh d f -> family s a mu ep rh d' f'.
Proof using Type.
  clear. intros E (r & e0 & e1 & Hr & Br & He & Hk). exists r, e0, e1. split; [done|]. split; [done|]. split.
  - intros i Hi. destruct (E i Hi) as [<- <-]. by apply He.
  - intros i x Hi Hx. destruct (E i Hi) as [<- <-]. by apply Hk.
Qed.

Lemma family_radd s a mu1 mu2 ep1 ep2 rh1 rh2 d1 d2 f1 f2 : wf s -> wf mu1 -> wf mu2 ->
  family s a mu1 ep1 rh1 d1 f1 -> family s a mu2 ep2 rh2 d2 f2 ->
  family s a (radd q mu1 mu2) (ep1 + ep2) (rh1 + rh2) (fun i => radd q (d1 i) (d2 i)) (fun i => radd q (f1 i) (f2 i)).
Proof using HR.
  clear Hg HgQ HG HGq. intros Hs H1 H2 (r & e0 & e1 & Hr & Br & He & Hk) (r' & e0' & e1' & Hr' & Br' & He' & Hk').
  exists (radd q r r'), (fun i => radd q (e0 i) (e0' i)), (fun i => radd q (e1 i) (e1' i)).
  split; [by apply radd_wf|]. split; [apply l1_radd; [apply Hr|apply Hr'|done|done]|]. split.
  - intros i Hi. destruct (He i Hi) as (A1 & A2 & A3 & A4 & A5 & A6), (He' i Hi) as (B1 & B2 & B3 & B4 & B5 & B6).
    do 4 (split; [by apply radd_wf|]). split; apply l1_radd; first [done | by apply A1 | by apply A2 | by apply B1 | by apply B2].
  - intros i x Hi Hx. destruct (He i Hi) as (A1 & A2 & A3 & A4 & _), (He' i Hi) as (B1 & B2 & B3 & B4 & _).
    destruct (Hk i x Hi Hx) as [E1 E2], (Hk' i x Hi Hx) as [E1' E2'].
    rewrite !(slot_radd (HR := HR)) by done. rewrite Z.mul_add_distr_l, E1, E1', E2, E2'. split; apply eqm_refl; ring.
Qed.

Lemma family_rsub s a mu1 mu2 ep1 ep2 rh1 rh2 d1 d2 f1 f2 : wf s -> wf mu1 -> wf mu2 ->
  family s a mu1 ep1 rh1 d1 f1 -> family s a mu2 ep2 rh2 d2 f2 ->
  family s a (rsub q mu1 mu2) (ep1 + ep2) (rh1 + rh2) (fun i => rsub q (d1 i) (d2 i)) (fun i => rsub q (f1 i) (f2 i)).
Proof using HR.
  clear Hg HgQ HG HGq. intros Hs H1 H2 (r & e0 & e1 & Hr & Br & He & Hk) (r' & e0' & e1' & Hr' & Br' & He' & Hk').
  exists (rsub q r r'), (fun i => rsub q (e0 i) (e0' i)), (fun i => rsub q (e1 i) (e1' i)).
  split; [by apply rsub_wf|]. split; [apply l1_rsub; [apply Hr|apply Hr'|done|done]|]. split.
  - intros i Hi. destruct (He i Hi) as (A1 & A2 & A3 & A4 & A5 & A6), (He' i Hi) as (B1 & B2 & B3 & B4 & B5 & B6).
    do 4 (split; [by apply rsub_wf|]). split; apply l1_rsub; first [done | by apply A1 | by apply A2 | by apply B1 | by apply B2].
  - intros i x Hi Hx. destruct (He i Hi) as (A1 & A2 & A3 & A4 & _), (He' i Hi) as (B1 & B2 & B3 & B4 & _).
    destruct (Hk i x Hi Hx) as [E1 E2], (Hk' i x Hi Hx) as [E1' E2'].
    rewrite !(slot_rsub (HR := HR)) by done. rewrite Z.mul_sub_distr_l, E1, E1', E2, E2'. split; apply eqm_refl; ring.
Qed.

(** Multiplication by an element of sum at most [l]. *)
Lemma family_rmul s a mu ep rh d f m l : wf s -> wf mu -> wf m -> 0 <= l -> l1_le q n l m ->
  family s a mu ep rh d f -> family s a (rmul q n mu m) (ep * l) (rh * l) (fun i => rmul q n (d i) m) (fun i => rmul q n (f i) m).
Proof using HR.
  clear Hg HgQ HG HGq. intros Hs Hmu Hm Hl Bm (r & e0 & e1 & Hr & Br & He & Hk).
  exists (rmul q n r m), (fun i => rmul q n (e0 i) m), (fun i => rmul q n (e1 i) m).
  split; [apply rmul_wf|]. split; [by apply l1_rmul|]. split.
  - intros i Hi. destruct (He i Hi) as (A1 & A2 & A3 & A4 & A5 & A6). do 4 (split; [apply rmul_wf|]). split; by apply l1_rmul.
  - intros i x Hi Hx. destruct (He i Hi) as (A1 & A2 & A3 & A4 & _). destruct (Hk i x Hi Hx) as [E1 E2].
    rewrite !(slot_rmul (HR := HR)) by done. split; [rewrite E1; apply eqm_refl; ring|].
    transitivity (slot_ x s * slot_ x (f i) * slot_ x m); [apply eqm_refl; ring|]. rewrite E2. apply eqm_refl. ring.
Qed.

(** ** One product *)
Section OneStep.
Context (U : nat) (s a : nat -> list Z) (e P : nat -> nat -> list Z) (sg ep0 : Z).
Context (Hsg : 0 <= sg) (Hep0 : 0 <= ep0).
Context (Hs : forall u, (u < U)%nat -> wf (s u) /\ l1_le q n sg (s u)).
Context (HP : forall u i, (u < U)%nat -> (i < G)%nat -> wf (e u i) /\ wf (P u i) /\ l1_le q n ep0 (e u i)).
Context (Hpub : pub_rel (q := q) (psi := psi) (k := k) G U s a e P).

Lemma product_step index mu ep rh tau d f c :
  (index < U)%nat -> wf mu -> ep0 <= ep -> 0 <= rh -> (forall u, (u < U)%nat -> wf (c u)) ->
  family (s index) a mu ep rh d f ->
  inf_le q n tau (rmul q n mu (rsum q n U (fun u => rmul q n (s u) (drop (c u))))) ->
  exists noise, wf noise /\ inf_le q n (product_bound (q := q) g G U sg ep rh tau) noise /\
    phase U s (hb_ U index P d f c) = radd q (rmul q n mu (phase U s c)) noise.
Proof using HR Hg HGq Hsg Hep0 Hs HP Hpub.
  clear HgQ HG. intros Hidx Hmu Hep Hrh Hc (r & e0 & e1 & Hr & Br & He & Hk) Bt.
  exists (hb_noise (q := q) (k := k) g G U s mu r e0 e1 e P c). split; [apply (hb_noise_wf (HR := HR))|]. split.
  - apply (hb_noise_bound (HR := HR) g Hg G HGq U s mu r e0 e1 e P c sg ep rh tau); try done; try lia.
    + intros u Hu. by apply Hs.
    + intros i Hi. destruct (He i Hi) as (_ & _ & _ & _ & A & A'). done.
    + intros u i Hu Hi. apply (l1_le_mono _ _ ep0); [done|]. by apply HP.
  - apply (hb_phase (HR := HR) g Hg G U index Hidx s a); try done.
    + intros u Hu. by apply Hs.
    + intros i Hi. destruct (He i Hi) as (A1 & A2 & A3 & A4 & _). done.
    + intros u i Hu Hi. destruct (HP u i Hu Hi) as (A1 & A2 & _). done.
Qed.

(** [acc + HbProd(m acc)]: the phase is multiplied by [1 + mu m]. *)
Lemma add_product_step index mu m t ep rh tau d f c :
  (index < U)%nat -> wf mu -> wf m -> ep0 <= ep -> 0 <= rh -> (forall u, (u < U)%nat -> wf (c u)) ->
  family (s index) a mu ep rh d f ->
  (forall c', (forall u, (u < U)%nat -> wf (c' u)) -> inf_le q n tau (rmul q n mu (rsum q n U (fun u => rmul q n (s u) (drop (c' u)))))) ->
  (forall x, (x < n)%nat -> 1 + slot_ x mu * slot_ x m ≡[q] slot_ x t) -> wf t ->
  let c' := fun u => radd q (c u) (hb_ U index P d f (fun u => rmul q n (c u) m) u) in
  exists noise, wf noise /\ inf_le q n (product_bound (q := q) g G U sg ep rh tau) noise /\
    phase U s c' = radd q (rmul q n t (phase U s c)) noise.
Proof using HR Hg HGq Hsg Hep0 Hs HP Hpub.
  intros Hidx Hmu Hm Hep Hrh Hc Hfam Bt Ht Hwt c'.
  assert (forall u, (u < U)%nat -> wf (rmul q n (c u) m)) as Hcm by (intros; apply rmul_wf).
  destruct (product_step index mu ep rh tau d f (fun u => rmul q n (c u) m) Hidx Hmu Hep Hrh Hcm Hfam (Bt _ Hcm)) as (noise & Hn & Bn & E).
  exists noise. split; [done|]. split; [done|].
  assert (forall u, wf (hb_ U index P d f (fun u => rmul q n (c u) m) u)) as Hh by (intros; apply (hb_wf (HR := HR))).
  apply (slot_ext (HR := HR)); [apply (acc_phase_wf (HR := HR))|apply radd_wf; [apply rmul_wf|done]|]. intros x Hx.
  assert (forall u, (u < U)%nat -> wf (s u)) as Hs' by (intros; by apply Hs).
  rewrite (slot_acc_phase (HR := HR)); [|done|done|intros u Hu; apply radd_wf; auto].
  rewrite (slot_radd (HR := HR)), (slot_rmul (HR := HR)), (slot_acc_phase (HR := HR)); [|done|done|done|done|done|apply (acc_phase_wf (HR := HR))|done|apply rmul_wf|done].
  pose proof (f_equal (slot_ x) E) as Ex.
  assert (sumZ U (fun u => slot_ x (s u) * slot_ x (hb_ U index P d f (fun u => rmul q n (c u) m) u)) ≡[q]
    slot_ x mu * slot_ x m * sumZ U (fun u => slot_ x (s u) * slot_ x (c u)) + slot_ x noise) as E'.
  { rewrite <- (slot_acc_phase (HR := HR)); [|done|done|intros; apply Hh]. rewrite Ex.
    rewrite (slot_radd (HR := HR)), (slot_rmul (HR := HR)), (slot_acc_phase (HR := HR)); [|done|done|intros; apply rmul_wf|done|done|apply (acc_phase_wf (HR := HR))|done|apply rmul_wf|done].
    apply eqm_add; [|done]. rewrite <- Z.mul_assoc. apply eqm_mul; [done|]. rewrite <- sumZ_scale. apply sumZ_eqm. intros u Hu.
    rewrite (slot_rmul (HR := HR)) by auto. apply eqm_refl. ring. }
  transitivity (sumZ U (fun u => slot_ x (s u) * slot_ x (c u)) + sumZ U (fun u => slot_ x (s u) * slot_ x (hb_ U index P d f (fun u => rmul q n (c u) m) u))).
  - rewrite <- sumZ_add. apply sumZ_eqm. intros u Hu. unfold c'. rewrite (slot_radd (HR := HR)) by auto. apply eqm_refl. ring.
  - rewrite E', <- Ht by done. apply eqm_refl. ring.
Qed.
End OneStep.

(** ** The operations on evaluation keys *)
Context (ps : UniEncCryptoParams) (Hps : acc_params ps q psi k g G).

Abbreviation mdiff := (mdiff (q := q) (k := k)).
Abbreviation rows := (rows (q := q) (psi := psi) (k := k) G).
Lemma monomial_pos c : 0 <= c < 2 * Z.of_nat n -> GetMonomial ps (monomial_index (u_N ps) c) = Ok (of_ EVALUATION (mdiff c)).
Proof using HR Hps. intros Hc. unfold GetMonomial. rewrite (ap_monomials _ _ _ _ _ _ Hps), (ap_N _ _ _ _ _ _ Hps). by apply (monomial_index_at (HR := HR)). Qed.

Lemma monomial_neg c : 0 <= c < 2 * Z.of_nat n -> GetMonomial ps (monomial_neg_index (u_N ps) c) = Ok (of_ EVALUATION (mdiff (- c))).
Proof using HR Hps. intros Hc. unfold GetMonomial. rewrite (ap_monomials _ _ _ _ _ _ Hps), (ap_N _ _ _ _ _ _ Hps). by apply (monomial_neg_at (HR := HR)). Qed.

Lemma rows_split (h : nat -> list Z * list Z) :
  (map (fun i => (of_ EVALUATION (h i).1, of_ EVALUATION (h i).2)) (seq 0 G)).*1 = polys_ G (fun i => (h i).1) /\
  (map (fun i => (of_ EVALUATION (h i).1, of_ EVALUATION (h i).2)) (seq 0 G)).*2 = polys_ G (fun i => (h i).2).
Proof using Type. clear. unfold polys. split; generalize (seq 0 G); intros l; induction l as [|i l IH]; cbn; congruence. Qed.

Lemma combine2_spec op h d1 f1 d2 f2 :
  (forall i, (i < G)%nat -> op (of_ EVALUATION (d1 i)) (of_ EVALUATION (d2 i)) = Ok (of_ EVALUATION (h (d1 i) (d2 i)))) ->
  (forall i, (i < G)%nat -> op (of_ EVALUATION (f1 i)) (of_ EVALUATION (f2 i)) = Ok (of_ EVALUATION (h (f1 i) (f2 i)))) ->
  combine2 G op (rows d1 f1) (rows d2 f2) = Ok (polys_ G (fun i => h (d1 i) (d2 i)), polys_ G (fun i => h (f1 i) (f2 i))).
Proof using Type.
  clear. intros Hd Hf. unfold combine2.
  rewrite (tabulateM_ok G _ (fun i => (of_ EVALUATION (h (d1 i) (d2 i)), of_ EVALUATION (h (f1 i) (f2 i))))).
  - rewrite bind_ok. destruct (rows_split (fun i => (h (d1 i) (d2 i), h (f1 i) (f2 i)))) as [E1 E2]. cbn [fst snd] in E1, E2. by rewrite E1, E2.
  - intros i Hi. rewrite !rows_get, !bind_ok by done. cbn [fst snd]. rewrite Hd, bind_ok, Hf, bind_ok by done. done.
Qed.

Lemma combine3_spec op h ds fs d1 f1 d2 f2 :
  (forall i, (i < G)%nat -> op (of_ EVALUATION (ds i)) (of_ EVALUATION (d1 i)) (of_ EVALUATION (d2 i)) = Ok (of_ EVALUATION (h (ds i) (d1 i) (d2 i)))) ->
  (forall i, (i < G)%nat -> op (of_ EVALUATION (fs i)) (of_ EVALUATION (f1 i)) (of_ EVALUATION (f2 i)) = Ok (of_ EVALUATION (h (fs i) (f1 i) (f2 i)))) ->
  combine3 G op (rows ds fs) (rows d1 f1) (rows d2 f2) = Ok (polys_ G (fun i => h (ds i) (d1 i) (d2 i)), polys_ G (fun i => h (fs i) (f1 i) (f2 i))).
Proof using Type.
  clear. intros Hd Hf. unfold combine3.
  rewrite (tabulateM_ok G _ (fun i => (of_ EVALUATION (h (ds i) (d1 i) (d2 i)), of_ EVALUATION (h (fs i) (f1 i) (f2 i))))).
  - rewrite bind_ok. destruct (rows_split (fun i => (h (ds i) (d1 i) (d2 i), h (fs i) (f1 i) (f2 i)))) as [E1 E2]. cbn [fst snd] in E1, E2. by rewrite E1, E2.
  - intros i Hi. rewrite !rows_get, !bind_ok by done. cbn [fst snd]. rewrite Hd, bind_ok, Hf, bind_ok by done. done.
Qed.

(** ** The state of the accumulator *)
Section Rotation.
Context (U : nat) (s a : nat -> list Z) (e P : nat -> nat -> list Z) (sg ep0 rh0 : Z).
Context (HU : u_k ps = U) (HU0 : (0 < U)%nat) (Hsg : 0 <= sg) (Hep0 : 0 <= ep0) (Hrh0 : 0 <= rh0).
Context (Hs : forall u, (u < U)%nat -> wf (s u) /\ l1_le q n sg (s u)).
Context (HP : forall u i, (u < U)%nat -> (i < G)%nat -> wf (e u i) /\ wf (P u i) /\ l1_le q n ep0 (e u i)).
Context (Hpub : pub_rel (q := q) (psi := psi) (k := k) G U s a e P).
Context (Pkey : list (list NativePoly)) (HPkey : forall u, (u < U)%nat -> Pkey !! u = Some (polys_ G (P u))).

(** The accumulator holds [x^T v] up to a noise of size [b]. *)
Definition acc_state (v : list Z) (T b : Z) (acc : list NativePoly) : Prop :=
  exists c noise, acc = polys_ U c /\ (forall u, (u < U)%nat -> wf (c u)) /\ wf noise /\ inf_le q n b noise /\
    phase U s c = radd q (rmul q n (mono_ T) v) noise.

(** An evaluation key of user [index] for the message [mu]. *)
Definition is_evk (index : nat) (mu : list Z) (key : UniEncEvalKey) : Prop :=
  exists d f, key = rows d f /\ family (s index) a mu ep0 rh0 d f.

Abbreviation rconst := (rconst (q := q) (k := k)).

Definition step_bound : Z := product_bound (q := q) g G U sg (2 * ep0) (2 * rh0) (Z.of_nat U * (sg * drop_bound (q := q) g G)).
Definition first_bound : Z := product_bound (q := q) g G U sg (5 * ep0) (5 * rh0) (drop_bound (q := q) g G).

Lemma state_compose v T b t N c noise c' noise' :
  wf v -> 0 <= b -> (forall u, (u < U)%nat -> wf (c' u)) ->
  wf noise -> inf_le q n b noise -> wf noise' -> inf_le q n N noise' ->
  phase U s c = radd q (rmul q n (mono_ T) v) noise ->
  phase U s c' = radd q (rmul q n (mono_ t) (phase U s c)) noise' -> acc_state v (T + t) (b + N) (polys_ U c').
Proof using HR.
  clear Hg HgQ HG HGq Hps Hs HP Hpub HPkey. intros Hv Hb Hc' Hn Bn Hn' Bn' Ep Ephase.
  destruct (rotated_compose (HR := HR) v T b t N (phase U s c) (phase U s c') Hv Hb) as (e' & H1 & H2 & H3); [by exists noise|by exists noise'|].
  by exists c', e'.
Qed.

(** What a message of sum at most 1 makes of the dropped parts. *)
Lemma tau_bound mu : wf mu -> l1_le q n 1 mu -> forall c', (forall u, (u < U)%nat -> wf (c' u)) ->
  inf_le q n (Z.of_nat U * (sg * drop_bound (q := q) g G)) (rmul q n mu (rsum q n U (fun u => rmul q n (s u) (drop (c' u))))).
Proof using HR Hg HGq Hsg Hs.
  clear HgQ HG Hps HP Hpub HPkey HU HU0. intros Hmu Bmu c' Hc'. pose proof (drop_bound_nonneg (q := q) g Hg G HGq) as Hd.
  rewrite <- (Z.mul_1_l (_ * (sg * _))). apply inf_rmul; [nia|done|]. apply (inf_rsum (HR := HR)); [intros; apply rmul_wf|]. intros u Hu.
  apply inf_rmul; [done|by apply Hs|]. apply (dropped_inf (HR := HR)); [done|done|]. auto.
Qed.

(** [acc + HbProd((X^c - 1) acc)] on polynomials. *)
Lemma add_product_spec index d f m c : (index < U)%nat -> wf m -> (forall i, (i < G)%nat -> wf (d i) /\ wf (f i)) -> (forall u, (u < U)%nat -> wf (c u)) ->
  add_product arb ps st (polys_ G d) (polys_ G f) index Pkey (of_ EVALUATION m) (polys_ U c) =
  Ok (st, polys_ U (fun u => radd q (c u) (hb_ U index P d f (fun u => rmul q n (c u) m) u))).
Proof using All.
  intros Hidx Hm Hdf Hc. unfold add_product. rewrite HU.
  rewrite (polys_loop U c (fun u => rmul q n (c u) m)).
  2: { intros u Hu. rewrite polys_get, bind_ok, Nat.ltb_irrefl by done. by rewrite (Times_of (HR := HR)), bind_ok by auto. }
  rewrite bind_ok. rewrite (HbProd_spec (HR := HR) arb g Hg HgQ G HG ps Hps U index P d f); [|done|done|done| |done|intros; apply rmul_wf].
  2: { intros u Hu. split; [by apply HPkey|]. intros i Hi. by apply HP. }
  rewrite bind_ok. cbn [fst snd].
  rewrite (polys_loop U c (fun u => radd q (c u) (hb_ U index P d f (fun u => rmul q n (c u) m) u))); [done|].
  intros u Hu. rewrite !polys_get, !bind_ok, Nat.ltb_irrefl by done. rewrite (Plus_of (HR := HR)), bind_ok; [done|auto|apply (hb_wf (HR := HR))].
Qed.

(** One step of the rotation: a family for [mu] with [1 + mu (X^c - 1) = X^t]. *)
Lemma rotate_step index d f mu ep rh c t v T b acc :
  (index < U)%nat -> wf mu -> l1_le q n 1 mu -> ep0 <= ep -> 0 <= rh -> wf v -> 0 <= b ->
  family (s index) a mu ep rh d f ->
  (forall x, (x < n)%nat -> 1 + slot_ x mu * slot_ x (mdiff c) ≡[q] slot_ x (mono_ t)) ->
  acc_state v T b acc ->
  returns (add_product arb ps st (polys_ G d) (polys_ G f) index Pkey (of_ EVALUATION (mdiff c)) acc) (fun r => r.1 = st /\
    acc_state v (T + t) (b + product_bound (q := q) g G U sg ep rh (Z.of_nat U * (sg * drop_bound (q := q) g G))) r.2).
Proof using All.
  intros Hidx Hmu Bmu Hep Hrh Hv Hb Hfam Ht (c0 & noise & -> & Hc0 & Hn & Bn & Ep). pose proof (mdiff_wf c) as Hm.
  destruct (add_product_step U s a e P sg ep0 Hsg Hep0 Hs HP Hpub index mu (mdiff c) (mono_ t) ep rh _ d f c0
    Hidx Hmu Hm Hep Hrh Hc0 Hfam (tau_bound mu Hmu Bmu) Ht (mono_wf (HR := HR) t)) as (noise' & Hn' & Bn' & E).
  destruct Hfam as (r & e0 & e1 & Hr & Br & He & Hk).
  rewrite add_product_spec; [|done|done| |done].
  2: { intros i Hi. destruct (He i Hi) as (A1 & A2 & A3 & A4 & _). done. }
  apply returns_ok. cbn [fst snd]. split; [done|].
  apply (state_compose v T b t _ c0 noise _ noise'); try done.
  intros u Hu. apply radd_wf; [auto|apply (hb_wf (HR := HR))].
Qed.

Lemma family_rows index mu ep rh d f : family (s index) a mu ep rh d f -> forall i, (i < G)%nat -> wf (d i) /\ wf (f i).
Proof using Type. clear. intros (r & e0 & e1 & Hr & Br & He & Hk) i Hi. by destruct (He i Hi) as (A1 & A2 & A3 & A4 & _). Qed.

(** The operation on the polynomials of two rows, [e1 - e2 (X^-c - 1) - e2]. *)
Lemma step_row c a1 a2 : wf a1 -> wf a2 -> 
  (t ← Times (of_ EVALUATION a2) (of_ EVALUATION (mdiff (- c))); x ← Minus (of_ EVALUATION a1) t; Minus x (of_ EVALUATION a2)) =
  Ok (of_ EVALUATION (rsub q a1 (rmul q n a2 (mono_ (- c))))).
Proof using HR.
  clear Hg HgQ HG HGq Hps Hs HP Hpub HPkey. intros H1 H2. pose proof (mdiff_wf (- c)) as Hm. pose proof (rmul_wf k a2 (mdiff (- c))) as Hw.
  pose proof (rsub_wf k _ _ H1 Hw) as Hw2. pose proof (mono_wf (HR := HR) (- c)) as Hm2. pose proof (rmul_wf k a2 (mono_ (- c))) as Hw3.
  rewrite (Times_of (HR := HR)), bind_ok, (Minus_of (HR := HR)), bind_ok, (Minus_of (HR := HR)) by done. do 2 f_equal.
  apply (slot_ext (HR := HR)); [by apply rsub_wf|by apply rsub_wf|]. intros x Hx.
  rewrite !(slot_rsub (HR := HR)), !(slot_rmul (HR := HR)), slot_mdiff by done. apply eqm_refl. ring.
Qed.

Lemma AddToAccXZW_step index c m1 m2 k1 k2 v T b acc :
  (index < U)%nat -> 0 <= c < 2 * Z.of_nat n -> 0 <= m1 -> 0 <= m2 -> m1 + m2 <= 1 ->
  is_evk index (rconst m1) k1 -> is_evk index (rconst m2) k2 -> wf v -> 0 <= b -> acc_state v T b acc ->
  returns (AddToAccXZW arb ps st k1 k2 c Pkey index acc) (fun r => r.1 = st /\ acc_state v (T + c * (m1 - m2)) (b + step_bound) r.2).
Proof using All.
  intros Hidx Hc H1 H2 H12 (d1 & f1 & -> & Hf1) (d2 & f2 & -> & Hf2) Hv Hb Hacc.
  pose proof (mono_wf (HR := HR) (- c)) as Hm. pose proof (rconst_wf m1) as Hw1. pose proof (rconst_wf m2) as Hw2.
  destruct (Hs index Hidx) as [Hsw Hsl]. pose proof (l1_mono q n (- c) (pow2_pos_nat k)) as Bm.
  set (dd := fun i => rsub q (d1 i) (rmul q n (d2 i) (mono_ (- c)))). set (ff := fun i => rsub q (f1 i) (rmul q n (f2 i) (mono_ (- c)))).
  set (mu := rsub q (rconst m1) (rmul q n (rconst m2) (mono_ (- c)))).
  assert (family (s index) a mu (2 * ep0) (2 * rh0) dd ff) as Hfam.
  { replace (2 * ep0) with (ep0 + ep0 * 1) by lia. replace (2 * rh0) with (rh0 + rh0 * 1) by lia.
    apply family_rsub; [done|done|apply rmul_wf|done|]. by apply family_rmul. }
  pose proof (family_rows index _ _ _ _ _ Hf1) as R1. pose proof (family_rows index _ _ _ _ _ Hf2) as R2.
  unfold AddToAccXZW. rewrite monomial_pos, monomial_neg, !bind_ok, (ap_digitsG _ _ _ _ _ _ Hps), Nat.sub_succ, Nat.sub_0_r by done.
  rewrite (combine2_spec _ (fun a1 a2 => rsub q a1 (rmul q n a2 (mono_ (- c))))), bind_ok.
  2,3: intros i Hi; apply step_row; (by apply R1) || by apply R2.
  cbn [fst snd]. unfold step_bound.
  apply (rotate_step index dd ff mu (2 * ep0) (2 * rh0) c (c * (m1 - m2)) v T b acc); try done; try lia.
  - apply rsub_wf; [done|apply rmul_wf].
  - apply (l1_le_mono _ _ (Z.abs m1 + Z.abs m2 * 1)); [lia|]. apply l1_rsub; [apply Hw1|apply (rmul_wf k)|apply l1_rconst|].
    apply l1_rmul; [apply l1_rconst|done|lia].
  - intros x Hx. unfold mu. rewrite (slot_rsub (HR := HR)), (slot_rmul (HR := HR)), !slot_rconst, slot_mdiff by (done || apply rmul_wf).
    pose proof (slot_mono_neg x c Hx) as Einv. set (y := slot_ x (mono_ c)) in *. set (y' := slot_ x (mono_ (- c))) in *.
    transitivity (1 + m1 * (y - 1) - m2 * (y * y') + m2 * y'); [apply eqm_refl; ring|]. rewrite Einv.
    assert ((m1 = 0 /\ m2 = 0) \/ (m1 = 1 /\ m2 = 0) \/ (m1 = 0 /\ m2 = 1)) as [[-> ->]|[[-> ->]|[-> ->]]] by lia.
    + replace (c * (0 - 0)) with 0 by lia. rewrite (mono_0 (HR := HR)). apply eqm_refl. ring.
    + replace (c * (1 - 0)) with c by lia. fold y. apply eqm_refl. ring.
    + replace (c * (0 - 1)) with (- c) by lia. fold y'. apply eqm_refl. ring.
Qed.

(** Binary keys. *)
Lemma AddToAccXZW_B_step index c m k1 v T b acc :
  (index < U)%nat -> 0 <= c < 2 * Z.of_nat n -> 0 <= m <= 1 ->
  is_evk index (rconst m) k1 -> wf v -> 0 <= b -> acc_state v T b acc ->
  returns (AddToAccXZW_B arb ps st k1 c Pkey index acc) (fun r => r.1 = st /\
    acc_state v (T + c * m) (b + product_bound (q := q) g G U sg ep0 rh0 (Z.of_nat U * (sg * drop_bound (q := q) g G))) r.2).
Proof using All.
  intros Hidx Hc H1 (d1 & f1 & -> & Hf1) Hv Hb Hacc. pose proof (rconst_wf m) as Hw1.
  unfold AddToAccXZW_B. rewrite monomial_pos, bind_ok, (ap_digitsG _ _ _ _ _ _ Hps), Nat.sub_succ, Nat.sub_0_r by done.
  rewrite (combine2_spec _ (fun a1 _ => a1)), bind_ok by done. cbn [fst snd].
  apply (rotate_step index d1 f1 (rconst m) ep0 rh0 c (c * m) v T b acc); try done; try lia.
  - apply (l1_le_mono _ _ (Z.abs m)); [lia|apply l1_rconst].
  - intros x Hx. rewrite slot_rconst, slot_mdiff by done. assert (m = 0 \/ m = 1) as [-> | ->] by lia.
    + rewrite Z.mul_0_r, (mono_0 (HR := HR)). apply eqm_refl. ring.
    + rewrite Z.mul_1_r. apply eqm_refl. ring.
Qed.

(** ** The first step

    The accumulator starts as [(v, 0, ..., 0)], and the first product removes
    the secret of the first user. *)
Definition start (v : list Z) (u : nat) : list Z := if decide (u = 0)%nat then v else rzero n.

Lemma start_wf v u : wf v -> wf (start v u).
Proof using HR. clear Hg HgQ HG HGq Hps. intros Hv. unfold start. destruct (decide _); [done|apply rzero_wf]. Qed.

Lemma dropped_zero : drop (rzero n) = rzero n.
Proof using HR Hg.
  clear HgQ HG HGq Hps HU HU0. destruct (base_pos g ltac:(lia)) as (HB & Heven & _). pose proof (half_B B HB Heven). pose proof (nm_bounds (w := W) (m := q)).
  apply list_total_ext; [unfold dropped; by rewrite length_tab, length_zeros|]. intros j Hj. unfold dropped in *. rewrite length_tab in Hj.
  rewrite lookup_total_tab by done. unfold rzero. rewrite !zeros_lookup by done.
  assert (lift q 0 = 0) as ->. { unfold lift. by rewrite (proj2 (Z.ltb_lt 0 (q / 2))) by (apply Z.div_str_pos; lia). }
  assert (forall m, sd_rest B m 0 = 0) as Hr.
  { induction m as [|m IH]; [done|]. cbn [sd_rest]. unfold sd_next. rewrite Z.add_0_l, (Z.div_small (B / 2)) by lia. done. }
  rewrite Hr. unfold sd_low. rewrite Z.add_0_l, (Z.mod_small (B / 2)) by lia. by rewrite Z.sub_diag, Z.mul_0_r.
Qed.

Lemma start_sum (h : list Z -> list Z) v x : (x < n)%nat -> wf v -> (forall a, wf a -> wf (h a)) -> h (rzero n) = rzero n ->
  slot_ x (rsum q n U (fun u => rmul q n (s u) (h (start v u)))) ≡[q] slot_ x (s 0%nat) * slot_ x (h v).
Proof using HR HU0 Hs.
  clear Hg HgQ HG HGq Hps HU HP Hpub HPkey. intros Hx Hv Hh H0.
  rewrite (slot_dot (HR := HR)); [|done|intros; by apply Hs|intros; by apply Hh, start_wf].
  rewrite (sumZ_eqm q U _ (fun u => if decide (u = 0%nat) then slot_ x (s 0%nat) * slot_ x (h v) else 0)).
  - by rewrite (sumZ_delta U 0 (fun _ => slot_ x (s 0%nat) * slot_ x (h v))).
  - intros u Hu. unfold start. destruct (decide (u = 0%nat)) as [->|]; [done|]. rewrite H0, (slot_rzero (HR := HR)) by done. apply eqm_refl. ring.
Qed.

Lemma first_step d f mu ep rh t v :
  wf mu -> ep0 <= ep -> 0 <= rh -> wf v -> family (s 0%nat) a mu ep rh d f ->
  (forall x, (x < n)%nat -> slot_ x mu * slot_ x (s 0%nat) ≡[q] slot_ x (mono_ t)) ->
  returns (HbProd arb ps st (polys_ G d) (polys_ G f) 0 Pkey (polys_ U (start v))) (fun r => r.1 = st /\
    acc_state v t (product_bound (q := q) g G U sg ep rh (drop_bound (q := q) g G)) r.2).
Proof using All.
  intros Hmu Hep Hrh Hv Hfam Ht. pose proof (drop_bound_nonneg (q := q) g Hg G HGq) as Hd.
  assert (forall u, (u < U)%nat -> wf (start v u)) as Hst by (intros; by apply start_wf).
  destruct (product_step U s a e P sg ep0 Hsg Hep0 Hs HP Hpub 0%nat mu ep rh (drop_bound (q := q) g G) d f (start v)) as (noise & Hn & Bn & E); try done.
  { assert (rmul q n mu (rsum q n U (fun u => rmul q n (s u) (drop (start v u)))) = rmul q n (mono_ t) (drop v)) as ->.
    - apply (slot_ext (HR := HR)); [apply rmul_wf..|]. intros x Hx.
      assert (wf (rsum q n U (fun u => rmul q n (s u) (drop (start v u))))) as Hw by (apply (rsum_wf (HR := HR)); intros; apply rmul_wf).
      pose proof (dropped_wf (HR := HR) g G v) as Hw2. pose proof (mono_wf (HR := HR) t) as Hw3.
      rewrite !(slot_rmul (HR := HR)), (start_sum drop v x), <- Ht by (done || intros; apply (dropped_wf (HR := HR)) || apply dropped_zero). apply eqm_refl. ring.
    - apply (inf_mono (HR := HR)); [apply (dropped_wf (HR := HR))|done|]. by apply (dropped_inf (HR := HR)). }
  pose proof (family_rows 0%nat _ _ _ _ _ Hfam) as R.
  rewrite (HbProd_spec (HR := HR) arb g Hg HgQ G HG ps Hps U 0 P d f); [|done|done|done| |done|done].
  2: { intros u Hu. split; [by apply HPkey|]. intros i Hi. by apply HP. }
  apply returns_ok. cbn [fst snd]. split; [done|]. exists (hb_ U 0 P d f (start v)), noise. split; [done|].
  split; [intros; apply (hb_wf (HR := HR))|]. split; [done|]. split; [done|]. rewrite E. f_equal.
  apply (slot_ext (HR := HR)); [apply rmul_wf..|]. intros x Hx. pose proof (acc_phase_wf (HR := HR) U s (start v)) as Hw. pose proof (mono_wf (HR := HR) t) as Hw3.
  rewrite !(slot_rmul (HR := HR)), <- Ht by done. unfold acc_phase. rewrite (start_sum (fun a => a) v x) by done. apply eqm_refl. ring.
Qed.

(** The operation on the polynomials of three rows. *)
Lemma first_row c a0 a1 a2 : wf a0 -> wf a1 -> wf a2 ->
  (t1 ← Times (of_ EVALUATION a1) (of_ EVALUATION (mdiff c)); x ← Plus (of_ EVALUATION a0) t1;
   t2 ← Times (of_ EVALUATION a2) (of_ EVALUATION (mdiff (- c))); Plus x t2) =
  Ok (of_ EVALUATION (radd q (radd q a0 (rmul q n a1 (mdiff c))) (rmul q n a2 (mdiff (- c))))).
Proof using HR.
  clear Hg HgQ HG HGq Hps Hs HP Hpub HPkey. intros H0 H1 H2. pose proof (mdiff_wf (- c)) as Hm. pose proof (mdiff_wf c) as Hm'.
  pose proof (rmul_wf k a1 (mdiff c)) as Hw. pose proof (rmul_wf k a2 (mdiff (- c))) as Hw'. pose proof (radd_wf k _ _ H0 Hw) as Hw2.
  rewrite !(Times_of (HR := HR)), bind_ok, (Plus_of (HR := HR)), !bind_ok, (Plus_of (HR := HR)) by done. done.
Qed.

(** A key for the message times the inverse of the secret. *)
Definition is_kdm (inv : list Z) (m : Z) (key : UniEncEvalKey) : Prop := is_evk 0 (rmul q n inv (rconst m)) key.

Lemma AddToAccXZW0_step inv c m1 m2 ks k1 k2 v :
  wf inv -> (forall x, (x < n)%nat -> slot_ x inv * slot_ x (s 0%nat) ≡[q] 1) ->
  0 <= c < 2 * Z.of_nat n -> 0 <= m1 -> 0 <= m2 -> m1 + m2 <= 1 ->
  is_kdm inv 1 ks -> is_kdm inv m1 k1 -> is_kdm inv m2 k2 -> wf v ->
  returns (AddToAccXZW0 arb ps st ks k1 k2 c Pkey 0 (polys_ U (start v))) (fun r => r.1 = st /\ acc_state v (c * (m1 - m2)) first_bound r.2).
Proof using All.
  intros Hi Hinv Hc H1 H2 H12 (d0 & f0 & -> & Hf0) (d1 & f1 & -> & Hf1) (d2 & f2 & -> & Hf2) Hv.
  pose proof (mdiff_wf c) as Hm. pose proof (mdiff_wf (- c)) as Hm'. destruct (Hs 0%nat HU0) as [Hsw Hsl].
  assert (forall m, wf (rmul q n inv (rconst m))) as Hw by (intros; apply rmul_wf). assert (forall m, wf (rconst m)) as Hc' by apply rconst_wf.
  set (dd := fun i => radd q (radd q (d0 i) (rmul q n (d1 i) (mdiff c))) (rmul q n (d2 i) (mdiff (- c)))).
  set (ff := fun i => radd q (radd q (f0 i) (rmul q n (f1 i) (mdiff c))) (rmul q n (f2 i) (mdiff (- c)))).
  set (mu1 := rmul q n (rmul q n inv (rconst m1)) (mdiff c)). set (mu2 := rmul q n (rmul q n inv (rconst m2)) (mdiff (- c))).
  assert (wf mu1) as Hw1 by apply rmul_wf. assert (wf mu2) as Hw2 by apply rmul_wf. pose proof (radd_wf k _ _ (Hw 1) Hw1) as Hw3.
  assert (family (s 0%nat) a (radd q (radd q (rmul q n inv (rconst 1)) mu1) mu2) (5 * ep0) (5 * rh0) dd ff) as Hfam.
  { replace (5 * ep0) with (ep0 + ep0 * 2 + ep0 * 2) by lia. replace (5 * rh0) with (rh0 + rh0 * 2 + rh0 * 2) by lia.
    apply family_radd; [done|done|done| |].
    - apply family_radd; [done|done|done|done|]. apply family_rmul; [done|done|done|done|apply l1_mdiff|done].
    - apply family_rmul; [done|done|done|done|apply l1_mdiff|done]. }
  pose proof (family_rows 0%nat _ _ _ _ _ Hf0) as R0. pose proof (family_rows 0%nat _ _ _ _ _ Hf1) as R1. pose proof (family_rows 0%nat _ _ _ _ _ Hf2) as R2.
  unfold AddToAccXZW0. rewrite monomial_pos, monomial_neg, !bind_ok, (ap_digitsG _ _ _ _ _ _ Hps), Nat.sub_succ, Nat.sub_0_r by done.
  rewrite (combine3_spec _ (fun a0 a1 a2 => radd q (radd q a0 (rmul q n a1 (mdiff c))) (rmul q n a2 (mdiff (- c))))), bind_ok.
  2,3: intros i Hi'; apply first_row; (by apply R0) || (by apply R1) || by apply R2.
  cbn [fst snd]. unfold first_bound. apply (first_step dd ff _ (5 * ep0) (5 * rh0) (c * (m1 - m2)) v) with (5 := Hfam); try done; try lia.
  - by apply radd_wf.
  - intros x Hx. unfold mu1, mu2. rewrite !(slot_radd (HR := HR)), !(slot_rmul (HR := HR)), !slot_rconst, !slot_mdiff by done.
    specialize (Hinv x Hx). set (y := slot_ x (mono_ c)) in *. set (y' := slot_ x (mono_ (- c))) in *. set (si := slot_ x (s 0%nat)) in *. set (iv := slot_ x inv) in *.
    transitivity (iv * si * (1 + m1 * (y - 1) + m2 * (y' - 1))); [apply eqm_refl; ring|]. rewrite Hinv.
    assert ((m1 = 0 /\ m2 = 0) \/ (m1 = 1 /\ m2 = 0) \/ (m1 = 0 /\ m2 = 1)) as [[-> ->]|[[-> ->]|[-> ->]]] by lia.
    + replace (c * (0 - 0)) with 0 by lia. rewrite (mono_0 (HR := HR)). apply eqm_refl. ring.
    + replace (c * (1 - 0)) with c by lia. fold y. apply eqm_refl. ring.
    + replace (c * (0 - 1)) with (- c) by lia. fold y'. apply eqm_refl. ring.
Qed.

(** ** The loop *)
Definition exponent (t : nat -> nat -> Z) (nn u i : nat) : Z := sumZ u (fun u' => sumZ nn (t u')) + sumZ i (t u).
Definition started (v : list Z) (t : nat -> nat -> Z) (b0 b1 : Z) (nn u i : nat) (x : FTT * list NativePoly) : Prop :=
  if decide (u * nn + i = 0)%nat then x = (st, polys_ U (start v))
  else x.1 = st /\ acc_state v (exponent t nn u i) (b0 + (Z.of_nat (u * nn + i) - 1) * b1) x.2.

Lemma rotation_loop (F : nat -> nat -> FTT * list NativePoly -> res (FTT * list NativePoly)) nn t v b0 b1 :
  (0 < nn)%nat -> 0 <= b0 -> 0 <= b1 ->
  returns (F 0%nat 0%nat (st, polys_ U (start v))) (fun r => r.1 = st /\ acc_state v (t 0%nat 0%nat) b0 r.2) ->
  (forall u i T b acc, (u < U)%nat -> (i < nn)%nat -> (u * nn + i <> 0)%nat -> 0 <= b -> acc_state v T b acc ->
    returns (F u i (st, acc)) (fun r => r.1 = st /\ acc_state v (T + t u i) (b + b1) r.2)) ->
  returns (for_ U (fun u x => for_ nn (fun i x => F u i x) x) (st, polys_ U (start v)))
    (fun r => r.1 = st /\ acc_state v (exponent t nn U 0) (b0 + (Z.of_nat (U * nn) - 1) * b1) r.2).
Proof using HU0.
  clear Hg HgQ HG HGq Hps Hs HP Hpub HPkey HU. intros Hnn Hb0 Hb1 Hfirst Hstep. eapply returns_mono.
  - apply (returns_for (fun u => started v t b0 b1 nn u 0)).
    + unfold started. by rewrite decide_True by lia.
    + intros u x Hu Hx. eapply returns_mono; [apply (returns_for (fun i => started v t b0 b1 nn u i)); [exact Hx|]|].
      * clear x Hx. intros i x Hi Hx. unfold started in Hx.
        destruct (decide (u * nn + i = 0)%nat) as [E|Hne].
        -- subst x. assert (u = 0%nat) as -> by nia. assert (i = 0%nat) as -> by lia.
           eapply returns_mono; [exact Hfirst|]. intros r [E1 E2]. unfold started. rewrite decide_False by lia. split; [done|]. unfold exponent. cbn [sumZ Nat.mul Nat.add].
           replace (b0 + (Z.of_nat 1 - 1) * b1) with b0 by lia. by rewrite Z.add_0_l.
        -- destruct x as [st' acc]. cbn [fst snd] in Hx. destruct Hx as [-> Hx].
           eapply returns_mono; [apply (Hstep u i (exponent t nn u i) (b0 + (Z.of_nat (u * nn + i) - 1) * b1) acc Hu Hi Hne); [nia|exact Hx]|]. intros r [E1 E2]. unfold started. rewrite decide_False by lia. split; [done|].
           replace (b0 + (Z.of_nat (u * nn + S i) - 1) * b1) with (b0 + (Z.of_nat (u * nn + i) - 1) * b1 + b1) by lia.
           unfold exponent in *. cbn [sumZ]. by rewrite Z.add_assoc.
      * intros x' Hx'. unfold started in *. replace (S u * nn + 0)%nat with (u * nn + nn)%nat by lia.
        rewrite decide_False in * by lia. unfold exponent in *. cbn [sumZ]. by rewrite Z.add_0_r.
  - intros r Hr. unfold started in Hr. rewrite decide_False in Hr by nia. by rewrite Nat.add_0_r in Hr.
Qed.

(** ** [EvalAcc] *)
(** The evaluation keys of the signed secrets [t u i] of the users. *)
Definition ternary_keys (inv : list Z) (t : nat -> nat -> Z) (nn : nat) (ek : UniEncACCKey) : Prop :=
  (exists ks, get_key ek 0 0 nn = Ok ks /\ is_kdm inv 1 ks) /\
  forall u i, (u < U)%nat -> (i < nn)%nat -> exists k1 k2, get_key ek u 0 i = Ok k1 /\ get_key ek u 1 i = Ok k2 /\
    if decide (u * nn + i = 0)%nat then is_kdm inv (pos_bit (t u i)) k1 /\ is_kdm inv (neg_bit (t u i)) k2
    else is_evk u (rconst (pos_bit (t u i))) k1 /\ is_evk u (rconst (neg_bit (t u i))) k2.
Definition binary_keys (inv : list Z) (t : nat -> nat -> Z) (nn : nat) (ek : UniEncACCKey) : Prop :=
  (exists ks, get_key ek 0 0 nn = Ok ks /\ is_kdm inv 1 ks) /\
  forall u i, (u < U)%nat -> (i < nn)%nat -> exists k1, get_key ek u 0 i = Ok k1 /\
    if decide (u * nn + i = 0)%nat then is_kdm inv (t u i) k1 else is_evk u (rconst (t u i)) k1.

Definition masks (mod_ : Z) (nn : nat) (x : nat -> nat -> Z) : list NativeVector := map (fun u => NVec mod_ (map (x u) (seq 0 nn))) (seq 0 U).

Lemma masks_get mod_ nn x u : (u < U)%nat -> vget (masks mod_ nn x) u = Ok (NVec mod_ (map (x u) (seq 0 nn))).
Proof using Type. clear. intros Hu. exact (vget_lookup _ _ _ (lookup_tab U (fun u => NVec mod_ (map (x u) (seq 0 nn))) u Hu)). Qed.
Lemma masks_length mod_ nn x : length (masks mod_ nn x) = U.
Proof using Type. clear. apply length_tab. Qed.

Lemma scale_exponent_ok mod_ x : 0 <= x < mod_ -> mod_ * (2 * Z.of_nat n) < 2 ^ 64 ->
  scale_exponent x n mod_ = Ok (x * (2 * Z.of_nat n) / mod_) /\ 0 <= x * (2 * Z.of_nat n) / mod_ < 2 * Z.of_nat n.
Proof using HR.
  clear Hg HgQ HG HGq Hps Hs HP Hpub HPkey HU HU0. intros Hx Hm. pose proof dim_bound as Hn.
  assert (x * (2 * Z.of_nat n) < mod_ * (2 * Z.of_nat n)) by nia. split.
  - unfold scale_exponent, Mul, MulFast. cbn [NATIVEINT_DO_CHECKS]. rewrite !bind_ok.
    rewrite (wrap_small W (2 * x)) by (change (2 ^ W) with (2 ^ 64); nia). rewrite wrap_small by (change (2 ^ W) with (2 ^ 64); nia).
    unfold DividedBy. rewrite (proj2 (Z.eqb_neq mod_ 0)) by lia. do 2 f_equal. ring.
  - split; [apply Z.div_pos; nia|]. apply Z.div_lt_upper_bound; nia.
Qed.

Lemma EvalAcc_spec inv (t x : nat -> nat -> Z) nn mod_ ek v :
  wf inv -> (forall y, (y < n)%nat -> slot_ y inv * slot_ y (s 0%nat) ≡[q] 1) -> (0 < nn)%nat ->
  (forall u i, (u < U)%nat -> (i < nn)%nat -> -1 <= t u i <= 1 /\ 0 <= x u i < mod_) -> mod_ * (2 * Z.of_nat n) < 2 ^ 64 ->
  ternary_keys inv t nn ek -> wf v ->
  returns (EvalAcc arb ps st ek Pkey (polys_ U (start v)) (masks mod_ nn x)) (fun r => r.1 = st /\
    acc_state v (exponent (fun u i => x u i * (2 * Z.of_nat n) / mod_ * t u i) nn U 0) (first_bound + (Z.of_nat (U * nn) - 1) * step_bound) r.2).
Proof using All.
  intros Hi Hinv Hnn Htx Hmod [(ks & Eks & Hks) Hkeys] Hv. unfold EvalAcc.
  rewrite masks_get, bind_ok, masks_length by done. cbn [data modulus]. rewrite length_tab.
  pose proof (drop_bound_nonneg (q := q) g Hg G HGq) as Hd. assert (0 <= B / 2) as HB2 by (apply Z.div_pos; [apply Z.pow_nonneg|]; lia).
  assert (0 <= first_bound /\ 0 <= step_bound) as [Hb0 Hb1] by (unfold first_bound, step_bound, product_bound; split; nia).
  assert (forall u i, (u < U)%nat -> (i < nn)%nat -> forall A (f : Z -> res A), (cu ← vget (masks mod_ nn x) u; c ← vget (data cu) i; y ← scale_exponent c (u_N ps) mod_; f y) = f (x u i * (2 * Z.of_nat n) / mod_)) as Hread.
  { intros u i Hu Hi' A f. rewrite masks_get, bind_ok by done. cbn [data]. rewrite (vget_lookup _ _ _ (lookup_tab _ _ _ Hi')), bind_ok.
    rewrite (ap_N _ _ _ _ _ _ Hps), (proj1 (scale_exponent_ok mod_ (x u i) ltac:(by apply Htx) Hmod)). done. }
  apply rotation_loop; [done|done|done| |].
  - rewrite (Hread 0%nat 0%nat HU0 Hnn). cbn [Nat.eqb andb]. rewrite Eks, bind_ok.
    destruct (Hkeys 0%nat 0%nat HU0 Hnn) as (k1 & k2 & -> & -> & Hk). rewrite !bind_ok. rewrite decide_True in Hk by lia.
    destruct (Htx 0%nat 0%nat HU0 Hnn) as [Ht Hx]. destruct (ternary_bits _ Ht) as (B1 & B2 & B3 & B4). rewrite <- B4.
    apply (AddToAccXZW0_step inv); try done; try apply Hk. by apply scale_exponent_ok.
  - intros u i T b acc Hu Hi' Hne Hb Hacc. rewrite (Hread u i Hu Hi').
    assert ((u =? 0)%nat && (i =? 0)%nat = false) as ->. { destruct (Nat.eqb_spec u 0), (Nat.eqb_spec i 0); subst; done. }
    destruct (Hkeys u i Hu Hi') as (k1 & k2 & -> & -> & Hk). rewrite !bind_ok. rewrite decide_False in Hk by done.
    destruct (Htx u i Hu Hi') as [Ht Hx]. destruct (ternary_bits _ Ht) as (B1 & B2 & B3 & B4). rewrite <- B4.
    apply AddToAccXZW_step; try done; try apply Hk. by apply scale_exponent_ok.
Qed.

(** ** Binary keys *)
Definition first_bound_B : Z := product_bound (q := q) g G U sg (3 * ep0) (3 * rh0) (drop_bound (q := q) g G).
Definition step_bound_B : Z := product_bound (q := q) g G U sg ep0 rh0 (Z.of_nat U * (sg * drop_bound (q := q) g G)).

Lemma first_row_B c a0 a1 : wf a0 -> wf a1 ->
  (t1 ← Times (of_ EVALUATION a1) (of_ EVALUATION (mdiff c)); Plus (of_ EVALUATION a0) t1) =
  Ok (of_ EVALUATION (radd q a0 (rmul q n a1 (mdiff c)))).
Proof using HR.
  clear Hg HgQ HG HGq Hps Hs HP Hpub HPkey. intros H0 H1. pose proof (mdiff_wf c) as Hm'. pose proof (rmul_wf k a1 (mdiff c)) as Hw.
  rewrite (Times_of (HR := HR)), bind_ok, (Plus_of (HR := HR)) by done. done.
Qed.

Lemma AddToAccXZW0_B_step inv c m ks k1 v :
  wf inv -> (forall x, (x < n)%nat -> slot_ x inv * slot_ x (s 0%nat) ≡[q] 1) ->
  0 <= c < 2 * Z.of_nat n -> 0 <= m <= 1 -> is_kdm inv 1 ks -> is_kdm inv m k1 -> wf v ->
  returns (AddToAccXZW0_B arb ps st ks k1 c Pkey 0 (polys_ U (start v))) (fun r => r.1 = st /\ acc_state v (c * m) first_bound_B r.2).
Proof using All.
  intros Hi Hinv Hc H1 (d0 & f0 & -> & Hf0) (d1 & f1 & -> & Hf1) Hv.
  pose proof (mdiff_wf c) as Hm. destruct (Hs 0%nat HU0) as [Hsw Hsl].
  assert (forall m, wf (rmul q n inv (rconst m))) as Hw by (intros; apply rmul_wf). assert (forall m, wf (rconst m)) as Hc' by apply rconst_wf.
  set (dd := fun i => radd q (d0 i) (rmul q n (d1 i) (mdiff c))). set (ff := fun i => radd q (f0 i) (rmul q n (f1 i) (mdiff c))).
  set (mu1 := rmul q n (rmul q n inv (rconst m)) (mdiff c)). assert (wf mu1) as Hw1 by apply rmul_wf.
  assert (family (s 0%nat) a (radd q (rmul q n inv (rconst 1)) mu1) (3 * ep0) (3 * rh0) dd ff) as Hfam.
  { replace (3 * ep0) with (ep0 + ep0 * 2) by lia. replace (3 * rh0) with (rh0 + rh0 * 2) by lia.
    apply family_radd; [done|done|done|done|]. apply family_rmul; [done|done|done|done|apply l1_mdiff|done]. }
  pose proof (family_rows 0%nat _ _ _ _ _ Hf0) as R0. pose proof (family_rows 0%nat _ _ _ _ _ Hf1) as R1.
  unfold AddToAccXZW0_B. rewrite monomial_pos, bind_ok, (ap_digitsG _ _ _ _ _ _ Hps), Nat.sub_succ, Nat.sub_0_r by done.
  rewrite (combine2_spec _ (fun a0 a1 => radd q a0 (rmul q n a1 (mdiff c)))), bind_ok.
  2,3: intros i Hi'; apply first_row_B; (by apply R0) || by apply R1.
  cbn [fst snd]. unfold first_bound_B. apply (first_step dd ff _ (3 * ep0) (3 * rh0) (c * m) v) with (5 := Hfam); try done; try lia.
  - by apply radd_wf.
  - intros x Hx. unfold mu1. rewrite !(slot_radd (HR := HR)), !(slot_rmul (HR := HR)), !slot_rconst, !slot_mdiff by done.
    specialize (Hinv x Hx). set (y := slot_ x (mono_ c)) in *. set (si := slot_ x (s 0%nat)) in *. set (iv := slot_ x inv) in *.
    transitivity (iv * si * (1 + m * (y - 1))); [apply eqm_refl; ring|]. rewrite Hinv. assert (m = 0 \/ m = 1) as [-> | ->] by lia.
    + rewrite Z.mul_0_r, (mono_0 (HR := HR)). apply eqm_refl. ring.
    + rewrite Z.mul_1_r. fold y. apply eqm_refl. ring.
Qed.

Lemma EvalAcc_B_spec inv (t x : nat -> nat -> Z) nn mod_ ek v :
  wf inv -> (forall y, (y < n)%nat -> slot_ y inv * slot_ y (s 0%nat) ≡[q] 1) -> (0 < nn)%nat ->
  (forall u i, (u < U)%nat -> (i < nn)%nat -> 0 <= t u i <= 1 /\ 0 <= x u i < 2 * Z.of_nat n) ->
  binary_keys inv t nn ek -> wf v ->
  returns (EvalAcc_B arb ps st ek Pkey (polys_ U (start v)) (masks mod_ nn x)) (fun r => r.1 = st /\
    acc_state v (exponent (fun u i => x u i * t u i) nn U 0) (first_bound_B + (Z.of_nat (U * nn) - 1) * step_bound_B) r.2).
Proof using All.
  intros Hi Hinv Hnn Htx [(ks & Eks & Hks) Hkeys] Hv. unfold EvalAcc_B.
  rewrite masks_get, bind_ok, masks_length by done. cbn [data modulus]. rewrite length_tab.
  pose proof (drop_bound_nonneg (q := q) g Hg G HGq) as Hd. assert (0 <= B / 2) as HB2 by (apply Z.div_pos; [apply Z.pow_nonneg|]; lia).
  assert (0 <= first_bound_B /\ 0 <= step_bound_B) as [Hb0 Hb1] by (unfold first_bound_B, step_bound_B, product_bound; split; nia).
  assert (forall u i, (u < U)%nat -> (i < nn)%nat -> forall A (f : Z -> res A), (cu ← vget (masks mod_ nn x) u; c ← vget (data cu) i; f c) = f (x u i)) as Hread.
  { intros u i Hu Hi' A f. rewrite masks_get, bind_ok by done. cbn [data]. by rewrite (vget_lookup _ _ _ (lookup_tab _ _ _ Hi')), bind_ok. }
  apply rotation_loop; [done|done|done| |].
  - rewrite (Hread 0%nat 0%nat HU0 Hnn). cbn [Nat.eqb andb]. rewrite Eks, bind_ok.
    destruct (Hkeys 0%nat 0%nat HU0 Hnn) as (k1 & -> & Hk). rewrite !bind_ok. rewrite decide_True in Hk by lia.
    destruct (Htx 0%nat 0%nat HU0 Hnn) as [Ht Hx]. by apply (AddToAccXZW0_B_step inv).
  - intros u i T b acc Hu Hi' Hne Hb Hacc. rewrite (Hread u i Hu Hi').
    assert ((u =? 0)%nat && (i =? 0)%nat = false) as ->. { destruct (Nat.eqb_spec u 0), (Nat.eqb_spec i 0); subst; done. }
    destruct (Hkeys u i Hu Hi') as (k1 & -> & Hk). rewrite !bind_ok. rewrite decide_False in Hk by done.
    destruct (Htx u i Hu Hi') as [Ht Hx]. by apply AddToAccXZW_B_step.
Qed.
End Rotation.
End Steps.
