(* ===== verification/MkAccKeys.v ===== *)
(** * Keys of the accumulator

    The tables of [PreCompute], the rows that [KeyGenXZW] and [KDMKeyGenXZW]
    make for any ephemeral [r], and the keys of [KeyGenAcc] for ternary and for
    binary secrets.

    The code adds [skrPoly[i] * CRS[i]], the public value times entry [i] of
    the transform of [r], where the relation of the rows asks for the product
    by [r] itself: the rows are those of the relation plus a defect, which is
    zero when [r] is a constant polynomial.  The keys that the blind rotation
    uses are for ephemerals of this kind: the condition is a hypothesis of its
    own, [constant_ephemerals]. *)

From Stdlib Require Import ZArith Lia String.
From stdpp Require Import base tactics numbers list strings gmap.
From S2P Require Import Prelude Double NativeInt NativeIntFacts ModArith NativeVec SchemeCore Negacyclic BitReverse Ntt NttFacts NttSpec NttRing Poly PolyFacts Automorphism Gadget RingNoise AccCore AccCoreFacts MkAcc MkAccFacts MkAccSteps.

Section Keys.
Context {st : FTT} {q psi : Z} {k : nat} {HR : RingTransform st q psi k} (arb : FTT -> NativePoly -> res (FTT * NativePoly)).
Context (g : Z) (Hg : 1 <= g <= 31) (HgQ : 2 ^ g < q) (G : nat).
Abbreviation B := (2 ^ g).
Abbreviation n := (2 ^ k)%nat.
Abbreviation wf := (wf_data (q := q) k).
Abbreviation slot_ := (slot q psi k).
Abbreviation of_ := (poly_of q psi k).
Abbreviation mono_ := (mono q n).

#[local] Instance keys_modulus : NativeModulus W q.
Proof using HR. exact rt_modulus. Qed.

(** ** [PreCompute] *)
Record base_params (ps : UniEncCryptoParams) : Prop := {
  bp_N : u_N ps = n;
  bp_Q : u_Q ps = q;
  bp_baseG : u_baseG ps = B;
  bp_digitsG : u_digitsG ps = S G;
  bp_polyParams : u_polyParams ps = ring_par q psi k;
  bp_method : uses_monomials (u_method ps) = true;
  bp_tables : u_Gpower ps = [] /\ u_monomials ps = []
}.

Lemma PreCompute_tables_spec ps : base_params ps -> exists ps', PreCompute arb ps st = Ok (st, ps') /\ acc_params ps' q psi k g G /\ u_k ps' = u_k ps /\ u_method ps' = u_method ps.
Proof using HR Hg HgQ.
  intros Hps. destruct (bp_tables _ Hps) as [T1 T2]. unfold PreCompute.
  rewrite (bp_digitsG _ Hps), (bp_baseG _ Hps), (bp_Q _ Hps), (gadget_powers_spec (HR := HR)), bind_ok, (bp_method _ Hps), (bp_N _ Hps), (bp_polyParams _ Hps), T1, T2 by done.
  destruct (gate_constants_ok (u_q ps)) as [gc ->]. rewrite bind_ok, (monomial_table_spec (HR := HR)), !bind_ok. cbn [fst snd].
  eexists. split; [reflexivity|]. split; [|done]. split; try done; cbn; apply Hps.
Qed.

(** ** Rows *)
Section Rows.
Context (ps : UniEncCryptoParams) (Hps : acc_params ps q psi k g G).
Context (HG : (0 < G)%nat) (HGn : (G <= n)%nat).
Context (a : nat -> list Z) (Ha : forall i, (i < G)%nat -> wf (a i)) (CRS : list NativePoly) (HCRS : forall i, (i < G)%nat -> CRS !! i = Some (of_ EVALUATION (a i))).

Definition gadget_elem (i : nat) : list Z := rterm q n (B ^ (Z.of_nat i + 1)) 0.

Lemma gadget_poly_spec i : (i < G)%nat -> gadget_poly arb ps i st = Ok (st, of_ EVALUATION (gadget_elem i)).
Proof using HR Hps.
  clear HgQ Hg HG HGn HCRS Ha. intros Hi. unfold gadget_poly. rewrite (ap_Gpower _ _ _ _ _ _ Hps), (ap_N _ _ _ _ _ _ Hps), (ap_Q _ _ _ _ _ _ Hps), (ap_polyParams _ _ _ _ _ _ Hps).
  rewrite (vget_lookup _ _ _ (lookup_tab (S G) (fun i => (B ^ Z.of_nat i) mod q) (i + 1) ltac:(lia))), bind_ok.
  rewrite vset_lt, bind_ok by (rewrite length_zeros; apply pow2_pos_nat).
  assert (<[0%nat := (B ^ Z.of_nat (i + 1)) mod q]> (repeat 0 n) = gadget_elem i) as ->.
  { unfold gadget_elem, rterm. by replace (Z.of_nat (i + 1)) with (Z.of_nat i + 1) by lia. }
  pose proof (rterm_wf (HR := HR) (B ^ (Z.of_nat i + 1)) 0) as Hw. fold (gadget_elem i) in Hw.
  rewrite (proj2 (SetValues_of (HR := HR) (new_poly (ring_par q psi k) EVALUATION false) COEFFICIENT _ COEFFICIENT eq_refl Hw) eq_refl), bind_ok. by rewrite (SetFormat_of (HR := HR)).
Qed.

Lemma sampled_ps v : wf v -> sampled arb (u_polyParams ps) st (NVec q v) = Ok (st, of_ EVALUATION v).
Proof using HR Hps. intros Hv. rewrite (ap_polyParams _ _ _ _ _ _ Hps). by apply (sampled_spec (HR := HR)). Qed.

(** The two components of a row with [msg] added to the first. *)
Definition row_d (r : list Z) (msg : nat -> list Z) (e0 : nat -> list Z) (i : nat) : list Z := radd q (radd q (e0 i) (msg i)) (rscale q (ntt q psi k r !!! i) (a i)).
Definition row_f (inv r : list Z) (e1 : nat -> list Z) (i : nat) : list Z := rmul q n (radd q (e1 i) (rmul q n (gadget_elem i) r)) inv.

(** A sample of the generators: a ring element, and two for each row. *)
Definition is_sample (smp : KeySample) (r : list Z) (e0 e1 : nat -> list Z) : Prop :=
  smp_r smp = NVec q r /\ wf r /\ forall i, (i < G)%nat -> smp_e smp i = (NVec q (e0 i), NVec q (e1 i)) /\ wf (e0 i) /\ wf (e1 i).

Lemma key_rows_spec inv addmsg msg smp r e0 e1 : wf inv -> is_sample smp r e0 e1 ->
  (forall i, (i < G)%nat -> wf (msg i) /\ forall b, wf b -> addmsg (of_ EVALUATION b) (of_ EVALUATION (gadget_elem i)) = Ok (of_ EVALUATION (radd q b (msg i)))) ->
  key_rows arb ps (of_ EVALUATION inv) CRS addmsg smp st = Ok (st, rows (q := q) (psi := psi) (k := k) G (row_d r msg e0) (row_f inv r e1)).
Proof using HR Hps HGn Ha HCRS.
  clear HgQ Hg HG. intros Hinv (Hr & Hrw & Hs) Hmsg. unfold key_rows. rewrite Hr, sampled_ps, bind_ok by done. cbn [fst snd].
  rewrite (ap_digitsG _ _ _ _ _ _ Hps), Nat.sub_succ, Nat.sub_0_r.
  apply (tabulateS_ok G _ (fun i => (of_ EVALUATION (row_d r msg e0 i), of_ EVALUATION (row_f inv r e1 i)))). intros i Hi.
  destruct (Hs i Hi) as (-> & W0 & W1). destruct (Hmsg i Hi) as [Wm Em]. unfold key_row. cbn [fst snd].
  rewrite sampled_ps, bind_ok by done. cbn [fst snd]. rewrite sampled_ps, bind_ok by done. cbn [fst snd]. rewrite gadget_poly_spec, bind_ok by done. cbn [fst snd].
  pose proof (rterm_wf (HR := HR) (B ^ (Z.of_nat i + 1)) 0) as Wg. fold (gadget_elem i) in Wg. pose proof (rmul_wf k (gadget_elem i) r) as Wgr.
  pose proof (radd_wf k _ _ W1 Wgr) as W1'. pose proof (radd_wf k _ _ W0 Wm) as W0'.
  rewrite (Times_of (HR := HR)), bind_ok, (Plus_of (HR := HR)), bind_ok, (Times_of (HR := HR)), bind_ok, Em, bind_ok by done.
  assert (p_get (of_ EVALUATION r) i = Ok (ntt q psi k r !!! i)) as ->.
  { unfold poly_of. apply p_get_at. rewrite length_ntt. lia. }
  rewrite bind_ok, (vget_lookup _ _ _ (HCRS i Hi)), bind_ok.
  pose proof (entry_reduced k (ntt q psi k r) i (ntt_wf psi k r)) as Hred. pose proof (Ha i Hi) as Wa. pose proof (rscale_wf k (ntt q psi k r !!! i) (a i) Wa) as Ws.
  rewrite (TimesInt_of (HR := HR)), bind_ok, (Plus_of (HR := HR)), bind_ok by (done || apply Hred). done.
Qed.

Lemma slot_gadget_elem x i : slot_ x (gadget_elem i) ≡[q] B ^ (Z.of_nat i + 1).
Proof using HR. clear HgQ Hg HG HGn HCRS Ha Hps. unfold gadget_elem. rewrite (slot_rterm (HR := HR)) by apply pow2_pos_nat. rewrite Z.pow_0_r, Z.mul_1_r. done. Qed.

(** The first components that the relation asks for, and what the code's are
    more than them: [(r_hat_i - r) a_i]. *)
Definition ideal_d (r : list Z) (msg : nat -> list Z) (e0 : nat -> list Z) (i : nat) : list Z := radd q (radd q (e0 i) (msg i)) (rmul q n r (a i)).
Definition defect (r : list Z) (i : nat) : list Z := rsub q (rscale q (ntt q psi k r !!! i) (a i)) (rmul q n r (a i)).

(** The ideal rows are a family for the message. *)
Lemma ideal_family s inv msg mu r e0 e1 ep rh :
  wf s -> wf inv -> (forall x, (x < n)%nat -> slot_ x inv * slot_ x s ≡[q] 1) -> wf r -> l1_le q n rh r ->
  (forall i, (i < G)%nat -> wf (e0 i) /\ wf (e1 i) /\ l1_le q n ep (e0 i) /\ l1_le q n ep (e1 i)) ->
  (forall i x, (i < G)%nat -> (x < n)%nat -> wf (msg i) /\ slot_ x (msg i) ≡[q] slot_ x mu * B ^ (Z.of_nat i + 1)) ->
  family (q := q) (psi := psi) (k := k) g G s a mu ep rh (ideal_d r msg e0) (row_f inv r e1).
Proof using HR Ha.
  clear HgQ Hg HG Hps HCRS HGn. intros Hs Hinv Hunit Wr Br He Hmsg. pose proof (pow2_pos_nat k) as Hn. exists r, e0, e1. split; [done|]. split; [done|]. split.
  - intros i Hi. destruct (He i Hi) as (W0 & W1 & B0 & B1). destruct (Hmsg i 0%nat Hi Hn) as [Wm _].
    split; [done|]. split; [done|]. split; [|split; [apply rmul_wf|done]]. apply radd_wf; [by apply radd_wf|apply rmul_wf].
  - intros i x Hi Hx. destruct (He i Hi) as (W0 & W1 & _). destruct (Hmsg i x Hi Hx) as [Wm Em]. pose proof (Ha i Hi) as Wa.
    pose proof (rterm_wf (HR := HR) (B ^ (Z.of_nat i + 1)) 0) as Wg. fold (gadget_elem i) in Wg. pose proof (rmul_wf k (gadget_elem i) r) as Wgr.
    pose proof (rmul_wf k r (a i)) as Wra. pose proof (radd_wf k _ _ W0 Wm) as W0'. pose proof (radd_wf k _ _ W1 Wgr) as W1'.
    unfold ideal_d, row_f. split.
    + rewrite !(slot_radd (HR := HR)), (slot_rmul (HR := HR)), Em by done. apply eqm_refl. ring.
    + rewrite (slot_rmul (HR := HR)), (slot_radd (HR := HR)), (slot_rmul (HR := HR)), slot_gadget_elem by done.
      set (f := slot_ x (e1 i) + B ^ (Z.of_nat i + 1) * slot_ x r). transitivity (f * (slot_ x inv * slot_ x s)); [apply eqm_refl; ring|].
      rewrite Hunit by done. apply eqm_refl. unfold f. ring.
Qed.

Lemma defect_wf r i : (i < G)%nat -> wf (defect r i).
Proof using HR Ha. clear HgQ Hg HG Hps HCRS HGn. intros Hi. apply rsub_wf; [by apply rscale_wf, Ha|apply rmul_wf]. Qed.

Lemma slot_defect x r i : (i < G)%nat -> (x < n)%nat -> wf r -> slot_ x (defect r i) ≡[q] (ntt q psi k r !!! i - slot_ x r) * slot_ x (a i).
Proof using HR Ha.
  clear HgQ Hg HG Hps HCRS HGn. intros Hi Hx Wr. pose proof (Ha i Hi) as Wa. unfold defect.
  rewrite (slot_rsub (HR := HR)), (slot_rscale (HR := HR)), (slot_rmul (HR := HR)) by (done || apply rmul_wf || by apply rscale_wf). apply eqm_refl. ring.
Qed.

(** The rows of the code are the ideal ones and the defect. *)
Lemma row_split r msg e0 i : (i < G)%nat -> wf r -> wf (e0 i) -> wf (msg i) -> row_d r msg e0 i = radd q (ideal_d r msg e0 i) (defect r i).
Proof using HR Ha.
  clear HgQ Hg HG Hps HCRS HGn. intros Hi Wr W0 Wm. pose proof (Ha i Hi) as Wa. pose proof (radd_wf k _ _ W0 Wm) as W0'. pose proof (rmul_wf k r (a i)) as Wra.
  pose proof (rscale_wf k (ntt q psi k r !!! i) (a i) Wa) as Ws. pose proof (defect_wf r i Hi) as Wd.
  apply (slot_ext (HR := HR)); [by apply radd_wf|apply radd_wf; [by apply radd_wf|done]|]. intros x Hx. unfold row_d, ideal_d.
  rewrite (slot_radd (HR := HR)), (slot_rscale (HR := HR)) by done. rewrite (slot_radd (HR := HR) x (radd q (radd q (e0 i) (msg i)) (rmul q n r (a i)))) by (done || by apply radd_wf).
  rewrite slot_defect, (slot_radd (HR := HR) x (radd q (e0 i) (msg i))), (slot_rmul (HR := HR)) by done. apply eqm_refl. ring.
Qed.

(** A constant polynomial takes its value in every slot: no defect. *)
Lemma defect_constant c i : (i < G)%nat -> defect (rterm q n c 0) i = rzero n.
Proof using HR HGn Ha.
  clear HgQ Hg HG Hps HCRS. intros Hi. pose proof (rterm_wf (HR := HR) c 0) as Wr. pose proof (pow2_pos_nat k) as Hn.
  assert (forall y, (y < n)%nat -> slot_ y (rterm q n c 0) ≡[q] c) as Ec.
  { intros y Hy. rewrite (slot_rterm (HR := HR)) by done. rewrite Z.pow_0_r, Z.mul_1_r. done. }
  apply (slot_ext (HR := HR)); [by apply defect_wf|apply rzero_wf|]. intros x Hx. rewrite slot_defect, (slot_rzero (HR := HR)) by done.
  rewrite ntt_lookup by lia. change (peval n (fun j => rterm q n c 0 !!! j) (point psi k i)) with (slot_ i (rterm q n c 0)). rewrite !Ec by lia. apply eqm_refl. ring.
Qed.

(** Bounded samples, and those whose ephemeral is a constant polynomial. *)
Definition good_sample (ep rh : Z) (smp : KeySample) : Prop :=
  exists r e0 e1, is_sample smp r e0 e1 /\ l1_le q n rh r /\ forall i, (i < G)%nat -> l1_le q n ep (e0 i) /\ l1_le q n ep (e1 i).
Definition constant_ephemeral (smp : KeySample) : Prop := exists c, smp_r smp = NVec q (rterm q n c 0).

Section Users.
Context (U : nat) (s inv : nat -> list Z) (ep rh : Z).
Context (Hs : forall u, (u < U)%nat -> wf (s u) /\ wf (inv u) /\ forall x, (x < n)%nat -> slot_ x (inv u) * slot_ x (s u) ≡[q] 1).
Abbreviation is_evk_ := (is_evk (q := q) (psi := psi) (k := k) g G s a ep rh).
Abbreviation rconst_ := (rconst (q := q) (k := k)).

(** What the generators of keys return: rows which are ideal up to the defect. *)
Lemma keygen_rows u addmsg msg mu smp : (u < U)%nat -> good_sample ep rh smp ->
  (forall i, (i < G)%nat -> wf (msg i) /\ (forall b, wf b -> addmsg (of_ EVALUATION b) (of_ EVALUATION (gadget_elem i)) = Ok (of_ EVALUATION (radd q b (msg i)))) /\
     forall x, (x < n)%nat -> slot_ x (msg i) ≡[q] slot_ x mu * B ^ (Z.of_nat i + 1)) ->
  returns (key_rows arb ps (of_ EVALUATION (inv u)) CRS addmsg smp st) (fun y => y.1 = st /\ exists r d f, smp_r smp = NVec q r /\ wf r /\
    y.2 = rows (q := q) (psi := psi) (k := k) G (fun i => radd q (d i) (defect r i)) f /\ family (q := q) (psi := psi) (k := k) g G (s u) a mu ep rh d f).
Proof using HR Hps HGn Ha HCRS Hs.
  clear HgQ Hg HG. intros Hu (r & e0 & e1 & Hsmp & Br & Hb) Hmsg. destruct (Hs u Hu) as (Ws & Wi & Hunit).
  rewrite (key_rows_spec (inv u) addmsg msg smp _ e0 e1 Wi Hsmp) by (intros i Hi; split; by apply Hmsg).
  apply returns_ok. cbn [fst snd]. split; [done|]. destruct Hsmp as (Er & Wr & He). exists r, (ideal_d r msg e0), (row_f (inv u) r e1). split; [done|]. split; [done|]. split.
  - unfold rows. apply map_ext_in. intros i Hi%in_seq. f_equal. f_equal. destruct (He i ltac:(lia)) as (_ & W0 & _). apply row_split; try done; [lia|]. apply Hmsg. lia.
  - apply (ideal_family (s u) (inv u) msg mu r e0 e1 ep rh); try done.
    + intros i Hi. destruct (He i Hi) as (_ & W0 & W1), (Hb i Hi) as [B0 B1]. done.
    + intros i x Hi Hx. destruct (Hmsg i Hi) as (W & _ & E). split; [done|]. by apply E.
Qed.

Lemma keygen_family u addmsg msg mu smp : (u < U)%nat -> good_sample ep rh smp -> constant_ephemeral smp ->
  (forall i, (i < G)%nat -> wf (msg i) /\ (forall b, wf b -> addmsg (of_ EVALUATION b) (of_ EVALUATION (gadget_elem i)) = Ok (of_ EVALUATION (radd q b (msg i)))) /\
     forall x, (x < n)%nat -> slot_ x (msg i) ≡[q] slot_ x mu * B ^ (Z.of_nat i + 1)) ->
  returns (key_rows arb ps (of_ EVALUATION (inv u)) CRS addmsg smp st) (fun r => r.1 = st /\ is_evk_ u mu r.2).
Proof using HR Hps HGn Ha HCRS Hs.
  clear HgQ Hg HG. intros Hu Hsmp [c Ec] Hmsg. eapply returns_mono; [by apply (keygen_rows u addmsg msg mu smp)|].
  intros y (E1 & r & d & f & Er & Wr & E2 & Hfam). split; [done|]. exists d, f. split; [|done]. rewrite E2. unfold rows. apply map_ext_in. intros i Hi%in_seq.
  rewrite Ec in Er. injection Er as <-. rewrite defect_constant, (radd_0_r (HR := HR)) by (lia || apply (family_rows g G (fun _ => s u) a 0 _ _ _ _ _ Hfam); lia). done.
Qed.

(** The message of [KeyGenXZW]. *)
Lemma message_XZW m i : m = 0 \/ m = 1 -> (i < G)%nat -> let msg := fun i => if m =? 1 then gadget_elem i else rzero n in
  wf (msg i) /\ (forall b, wf b -> (if m =? 1 then Plus (of_ EVALUATION b) (of_ EVALUATION (gadget_elem i)) else Ok (of_ EVALUATION b)) = Ok (of_ EVALUATION (radd q b (msg i)))) /\
  forall x, (x < n)%nat -> slot_ x (msg i) ≡[q] slot_ x (rconst_ m) * B ^ (Z.of_nat i + 1).
Proof using HR.
  clear HgQ Hg HG Hps HCRS Ha HGn Hs. intros Hm Hi msg. unfold msg.
  assert (wf (gadget_elem i)) as Wg by apply (rterm_wf (HR := HR)). destruct Hm as [-> | ->]; cbn [Z.eqb Pos.eqb].
  - split; [apply rzero_wf|]. split; [intros b Hb; by rewrite (radd_0_r (HR := HR))|]. intros x Hx. rewrite (slot_rzero (HR := HR)), (slot_rconst (HR := HR)) by done. done.
  - split; [done|]. split; [intros b Hb; by rewrite (Plus_of (HR := HR))|]. intros x Hx. rewrite slot_gadget_elem, (slot_rconst (HR := HR)). apply eqm_refl. ring.
Qed.

(** The rows of [KeyGenXZW], for any ephemeral. *)
Lemma KeyGenXZW_rows u m smp : (u < U)%nat -> m = 0 \/ m = 1 -> good_sample ep rh smp ->
  returns (KeyGenXZW arb ps (of_ EVALUATION (inv u)) CRS m smp st) (fun y => y.1 = st /\ exists r d f, smp_r smp = NVec q r /\ wf r /\
    y.2 = rows (q := q) (psi := psi) (k := k) G (fun i => radd q (d i) (defect r i)) f /\ family (q := q) (psi := psi) (k := k) g G (s u) a (rconst_ m) ep rh d f).
Proof using HR Hps HGn Ha HCRS Hs.
  clear HgQ Hg HG. intros Hu Hm Hsmp. unfold KeyGenXZW. apply (keygen_rows u _ (fun i => if m =? 1 then gadget_elem i else rzero n)); [done|done|].
  intros i Hi. by apply message_XZW.
Qed.

Lemma KeyGenXZW_spec u m smp : (u < U)%nat -> m = 0 \/ m = 1 -> good_sample ep rh smp -> constant_ephemeral smp ->
  returns (KeyGenXZW arb ps (of_ EVALUATION (inv u)) CRS m smp st) (fun r => r.1 = st /\ is_evk_ u (rconst_ m) r.2).
Proof using HR Hps HGn Ha HCRS Hs.
  clear HgQ Hg HG. intros Hu Hm Hsmp Hcst. unfold KeyGenXZW.
  apply (keygen_family u _ (fun i => if m =? 1 then gadget_elem i else rzero n)); [done|done|done|]. intros i Hi. by apply message_XZW.
Qed.

Lemma KDMKeyGenXZW_spec u m smp : (u < U)%nat -> m = 0 \/ m = 1 -> good_sample ep rh smp -> constant_ephemeral smp ->
  returns (KDMKeyGenXZW arb ps (of_ EVALUATION (inv u)) CRS m smp st) (fun r => r.1 = st /\ is_evk_ u (rmul q n (inv u) (rconst_ m)) r.2).
Proof using HR Hps HGn Ha HCRS Hs.
  clear HgQ Hg HG. intros Hu Hm Hsmp Hcst. unfold KDMKeyGenXZW. destruct (Hs u Hu) as (Ws & Wi & _).
  apply (keygen_family u _ (fun i => if m =? 0 then rzero n else rmul q n (gadget_elem i) (inv u))); [done|done|done|]. intros i Hi.
  assert (wf (gadget_elem i)) as Wg by apply (rterm_wf (HR := HR)). assert (forall m, wf (rconst_ m)) as Wc by apply (rconst_wf (HR := HR)).
  destruct Hm as [-> | ->]; cbn [Z.eqb Pos.eqb].
  - split; [apply rzero_wf|]. split; [intros b Hb; by rewrite (radd_0_r (HR := HR))|]. intros x Hx.
    rewrite (slot_rzero (HR := HR)), (slot_rmul (HR := HR)), (slot_rconst (HR := HR)) by done. apply eqm_refl. ring.
  - split; [apply rmul_wf|]. split.
    + intros b Hb. rewrite (Times_of (HR := HR)), bind_ok, (Plus_of (HR := HR)) by (done || apply rmul_wf). done.
    + intros x Hx. rewrite !(slot_rmul (HR := HR)), slot_gadget_elem, (slot_rconst (HR := HR)) by done. apply eqm_refl. ring.
Qed.
End Users.
End Rows.
End Keys.

(** Every key of the accumulator is made with a constant ephemeral. *)
Definition constant_ephemerals {q : Z} {k : nat} (U nn : nat) (sample : nat -> nat -> nat -> KeySample) : Prop :=
  forall u s i, (u < U)%nat -> (i <= nn)%nat -> constant_ephemeral (q := q) (k := k) (sample u s i).

Section AllKeys.
Context {st : FTT} {q psi : Z} {k : nat} {HR : RingTransform st q psi k} (arb : FTT -> NativePoly -> res (FTT * NativePoly)).
Context (g : Z) (G : nat) (ps : UniEncCryptoParams) (Hps : acc_params ps q psi k g G) (HGn : (G <= 2 ^ k)%nat).
Abbreviation n := (2 ^ k)%nat.
Abbreviation wf := (wf_data (q := q) k).
Abbreviation of_ := (poly_of q psi k).
Context (a : nat -> list Z) (Ha : forall i, (i < G)%nat -> wf (a i)) (CRS : list NativePoly) (HCRS : forall i, (i < G)%nat -> CRS !! i = Some (of_ EVALUATION (a i))).
Context (U : nat) (s inv : nat -> list Z) (ep rh : Z) (HU : (0 < U)%nat).
Context (Hs : forall u, (u < U)%nat -> wf (s u) /\ wf (inv u) /\ forall x, (x < n)%nat -> slot q psi k x (inv u) * slot q psi k x (s u) ≡[q] 1).
Context (t : nat -> nat -> Z) (nn : nat) (Hnn : (0 < nn)%nat) (m_ : Z) (Hm : 3 <= m_ < 2 ^ 64).
Context (sample : nat -> nat -> nat -> KeySample) (Hsample : forall u s i, (u < U)%nat -> (i <= nn)%nat -> good_sample (q := q) (k := k) G ep rh (sample u s i)).
Context (Hconst : constant_ephemerals (q := q) (k := k) U nn sample).
Abbreviation is_evk_ := (is_evk (q := q) (psi := psi) (k := k) g G s a ep rh).
Abbreviation is_kdm_ := (is_kdm (q := q) (psi := psi) (k := k) g G s a ep rh).
Abbreviation rconst_ := (rconst (q := q) (k := k)).
Abbreviation secret := (masks U m_ nn (fun u i => t u i mod m_)).

Lemma read_secret u i {A} (f : Z -> NativePoly -> res A) : (u < U)%nat -> (i < nn)%nat ->
  (su ← vget secret u; s ← vget (data su) i; inv ← vget (polys (q := q) (psi := psi) (k := k) U inv) u; f s inv) = f (t u i mod m_) (of_ EVALUATION (inv u)).
Proof using Type.
  clear. intros Hu Hi. rewrite masks_get, bind_ok by done. cbn [data]. rewrite (vget_lookup _ _ _ (lookup_tab _ _ _ Hi)), bind_ok.
  by rewrite polys_get, bind_ok.
Qed.

(** The keys before position [(u, i)]. *)
Definition keys_before (u i : nat) (x : FTT * UniEncACCKey) : Prop :=
  x.1 = st /\ shape U 2 (nn + 1) x.2 /\
  ((0 < u * nn + i)%nat -> exists ks, get_key x.2 0 0 nn = Ok ks /\ is_kdm_ (inv 0%nat) 1 ks) /\
  forall u' i', (u' < U)%nat -> (i' < nn)%nat -> (u' * nn + i' < u * nn + i)%nat -> exists k1 k2, get_key x.2 u' 0 i' = Ok k1 /\ get_key x.2 u' 1 i' = Ok k2 /\
    if decide (u' * nn + i' = 0)%nat then is_kdm_ (inv 0%nat) (pos_bit (t u' i')) k1 /\ is_kdm_ (inv 0%nat) (neg_bit (t u' i')) k2
    else is_evk_ u' (rconst_ (pos_bit (t u' i'))) k1 /\ is_evk_ u' (rconst_ (neg_bit (t u' i'))) k2.

Lemma position u i u' i' : (i < nn)%nat -> (i' < nn)%nat -> (u' * nn + i' < u * nn + S i)%nat -> (u' * nn + i' < u * nn + i)%nat \/ (u' = u /\ i' = i).
Proof using Type. clear. intros Hi Hi' H. destruct (decide (u' * nn + i' < u * nn + i)%nat); [by left|]. right. assert (u' = u) by nia. nia. Qed.

Lemma KeyGenAcc_spec : (forall u i, (u < U)%nat -> (i < nn)%nat -> -1 <= t u i <= 1) ->
  returns (KeyGenAcc arb ps (polys (q := q) (psi := psi) (k := k) U inv) secret CRS sample st)
    (fun r => r.1 = st /\ ternary_keys (q := q) (psi := psi) (k := k) g G U s a ep rh (inv 0%nat) t nn r.2).
Proof using All.
  intros Ht. unfold KeyGenAcc. rewrite masks_get, bind_ok, masks_length by done. cbn [data modulus]. rewrite length_tab.
  eapply returns_mono; [apply (returns_for2 keys_before)|].
  - split; [done|]. split; [apply shape_new|]. split; lia.
  - intros u i [st' ek] Hu Hi (E & Hsh & Hks & Hall). cbn [fst snd] in E, Hsh, Hks, Hall. subst st'. rewrite read_secret by done.
    destruct (secret_bits m_ (t u i) Hm (Ht u i Hu Hi)) as [-> ->].
    destruct ((u =? 0)%nat && (i =? 0)%nat) eqn:E0.
    + apply andb_true_iff in E0 as [->%Nat.eqb_eq ->%Nat.eqb_eq].
      eapply returns_bind; [apply (store_key (st := st) U 2 (nn + 1) (is_kdm_ (inv 0%nat) (pos_bit (t 0%nat 0%nat)))); [lia..|done|done|]|].
      { apply (KDMKeyGenXZW_spec (HR := HR) arb g G ps Hps HGn a Ha CRS HCRS U s inv ep rh Hs); [lia|apply bit_cases|apply Hsample; lia|apply Hconst; lia]. }
      intros x1 (E1 & Sh1 & (k1 & G1 & Q1) & O1).
      eapply returns_bind; [apply (store_key (st := st) U 2 (nn + 1) (is_kdm_ (inv 0%nat) (neg_bit (t 0%nat 0%nat)))); [lia..|done|done|]|].
      { apply (KDMKeyGenXZW_spec (HR := HR) arb g G ps Hps HGn a Ha CRS HCRS U s inv ep rh Hs); [lia|apply neg_bit_cases|apply Hsample; lia|apply Hconst; lia]. }
      intros x2 (E2 & Sh2 & (k2 & G2 & Q2) & O2).
      eapply returns_mono; [apply (store_key (st := st) U 2 (nn + 1) (is_kdm_ (inv 0%nat) 1)); [lia..|done|done|]|].
      { apply (KDMKeyGenXZW_spec (HR := HR) arb g G ps Hps HGn a Ha CRS HCRS U s inv ep rh Hs); [lia|by right|apply Hsample; lia|apply Hconst; lia]. }
      intros x3 (E3 & Sh3 & (k3 & G3 & Q3) & O3). split; [done|]. split; [done|]. split; [intros _; by exists k3|].
      intros u' i' Hu' Hi' Hlt. assert (u' = 0%nat /\ i' = 0%nat) as [-> ->] by nia. exists k1, k2.
      split; [apply O3; [distinct|]; apply O2; [distinct|done]|]. split; [apply O3; [distinct|done]|]. by rewrite decide_True by lia.
    + assert (u * nn + i <> 0)%nat as Hne. { intros E. assert (u = 0%nat) as -> by nia. assert (i = 0%nat) as -> by lia. done. }
      eapply returns_bind; [apply (store_key (st := st) U 2 (nn + 1) (is_evk_ u (rconst_ (pos_bit (t u i))))); [lia..|done|done|]|].
      { apply (KeyGenXZW_spec (HR := HR) arb g G ps Hps HGn a Ha CRS HCRS U s inv ep rh Hs); [lia|apply bit_cases|apply Hsample; lia|apply Hconst; lia]. }
      intros x1 (E1 & Sh1 & (k1 & G1 & Q1) & O1).
      eapply returns_mono; [apply (store_key (st := st) U 2 (nn + 1) (is_evk_ u (rconst_ (neg_bit (t u i))))); [lia..|done|done|]|].
      { apply (KeyGenXZW_spec (HR := HR) arb g G ps Hps HGn a Ha CRS HCRS U s inv ep rh Hs); [lia|apply neg_bit_cases|apply Hsample; lia|apply Hconst; lia]. }
      intros x2 (E2 & Sh2 & (k2 & G2 & Q2) & O2). split; [done|]. split; [done|]. split.
      { intros _. destruct (Hks ltac:(lia)) as (ks & Gs & Qs). exists ks. split; [|done].
        apply O2; [distinct|]. apply O1; [distinct|]. done. }
      intros u' i' Hu' Hi' Hlt. destruct (position u i u' i' Hi Hi' Hlt) as [Hb|[-> ->]].
      * destruct (Hall u' i' Hu' Hi' Hb) as (k1' & k2' & G1' & G2' & Q'). exists k1', k2'.
        assert (forall s' : nat, (u', s', i') <> (u, s', i)) as Hd by (intros s' E; simplify_eq; lia).
        split; [apply O2; [distinct|]; apply O1; [apply Hd|done]|]. split; [apply O2; [apply Hd|]; apply O1; [distinct|done]|done].
      * exists k1, k2. split; [apply O2; [distinct|done]|]. split; [done|]. by rewrite decide_False.
  - intros u x Hu (E & Hsh & Hks & Hall). split; [done|]. split; [done|]. replace (S u * nn + 0)%nat with (u * nn + nn)%nat by lia. by split.
  - intros r (E & Hsh & Hks & Hall). split; [done|]. split; [apply Hks; nia|]. intros u i Hu Hi. apply Hall; [done|done|nia].
Qed.

Lemma secret_bit z : 0 <= z <= 1 -> (if z mod m_ =? 1 then 1 else 0) = z.
Proof using Hm. clear - Hm. intros Hz. rewrite Z.mod_small by lia. destruct (Z.eqb_spec z 1); lia. Qed.

Definition keys_before_B (u i : nat) (x : FTT * UniEncACCKey) : Prop :=
  x.1 = st /\ shape U 1 (nn + 1) x.2 /\
  ((0 < u * nn + i)%nat -> exists ks, get_key x.2 0 0 nn = Ok ks /\ is_kdm_ (inv 0%nat) 1 ks) /\
  forall u' i', (u' < U)%nat -> (i' < nn)%nat -> (u' * nn + i' < u * nn + i)%nat -> exists k1, get_key x.2 u' 0 i' = Ok k1 /\
    if decide (u' * nn + i' = 0)%nat then is_kdm_ (inv 0%nat) (t u' i') k1 else is_evk_ u' (rconst_ (t u' i')) k1.

Lemma KeyGenAcc_B_spec : (forall u i, (u < U)%nat -> (i < nn)%nat -> 0 <= t u i <= 1) ->
  returns (KeyGenAcc_B arb ps (polys (q := q) (psi := psi) (k := k) U inv) secret CRS sample st)
    (fun r => r.1 = st /\ binary_keys (q := q) (psi := psi) (k := k) g G U s a ep rh (inv 0%nat) t nn r.2).
Proof using All.
  intros Ht. unfold KeyGenAcc_B. rewrite masks_get, bind_ok, masks_length by done. cbn [data modulus]. rewrite length_tab.
  assert (forall u i, (u < U)%nat -> (i < nn)%nat -> t u i = 0 \/ t u i = 1) as Hbits by (intros u i Hu Hi; specialize (Ht u i Hu Hi); lia).
  eapply returns_mono; [apply (returns_for2 keys_before_B)|].
  - split; [done|]. split; [apply shape_new|]. split; lia.
  - intros u i [st' ek] Hu Hi (E & Hsh & Hks & Hall). cbn [fst snd] in E, Hsh, Hks, Hall. subst st'. rewrite read_secret, secret_bit by auto.
    destruct ((u =? 0)%nat && (i =? 0)%nat) eqn:E0.
    + apply andb_true_iff in E0 as [->%Nat.eqb_eq ->%Nat.eqb_eq].
      eapply returns_bind; [apply (store_key (st := st) U 1 (nn + 1) (is_kdm_ (inv 0%nat) (t 0%nat 0%nat))); [lia..|done|done|]|].
      { apply (KDMKeyGenXZW_spec (HR := HR) arb g G ps Hps HGn a Ha CRS HCRS U s inv ep rh Hs); [lia|auto|apply Hsample; lia|apply Hconst; lia]. }
      intros x1 (E1 & Sh1 & (k1 & G1 & Q1) & O1).
      eapply returns_mono; [apply (store_key (st := st) U 1 (nn + 1) (is_kdm_ (inv 0%nat) 1)); [lia..|done|done|]|].
      { apply (KDMKeyGenXZW_spec (HR := HR) arb g G ps Hps HGn a Ha CRS HCRS U s inv ep rh Hs); [lia|by right|apply Hsample; lia|apply Hconst; lia]. }
      intros x3 (E3 & Sh3 & (k3 & G3 & Q3) & O3). split; [done|]. split; [done|]. split; [intros _; by exists k3|].
      intros u' i' Hu' Hi' Hlt. assert (u' = 0%nat /\ i' = 0%nat) as [-> ->] by nia. exists k1.
      split; [apply O3; [distinct|done]|]. by rewrite decide_True by lia.
    + assert (u * nn + i <> 0)%nat as Hne. { intros E. assert (u = 0%nat) as -> by nia. assert (i = 0%nat) as -> by lia. done. }
      eapply returns_mono; [apply (store_key (st := st) U 1 (nn + 1) (is_evk_ u (rconst_ (t u i)))); [lia..|done|done|]|].
      { apply (KeyGenXZW_spec (HR := HR) arb g G ps Hps HGn a Ha CRS HCRS U s inv ep rh Hs); [lia|auto|apply Hsample; lia|apply Hconst; lia]. }
      intros x1 (E1 & Sh1 & (k1 & G1 & Q1) & O1). split; [done|]. split; [done|]. split.
      { intros _. destruct (Hks ltac:(lia)) as (ks & Gs & Qs). exists ks. split; [|done]. apply O1; [distinct|]. done. }
      intros u' i' Hu' Hi' Hlt. destruct (position u i u' i' Hi Hi' Hlt) as [Hb|[-> ->]].
      * destruct (Hall u' i' Hu' Hi' Hb) as (k1' & G1' & Q'). exists k1'. split; [|done]. apply O1; [distinct|done].
      * exists k1. split; [done|]. by rewrite decide_False.
  - intros u x Hu (E & Hsh & Hks & Hall). split; [done|]. split; [done|]. replace (S u * nn + 0)%nat with (u * nn + nn)%nat by lia. by split.
  - intros r (E & Hsh & Hks & Hall). split; [done|]. split; [apply Hks; nia|]. intros u i Hu Hi. apply Hall; [done|done|nia].
Qed.
End AllKeys.
