(* ===== verification/RgswAcc.v ===== *)
(** * The single-key RGSW accumulators

    Models [src/binfhe/lib/rgsw-cryptoparameters.cpp] and the accumulators of
    the three bootstrapping methods: [rgsw-acc-cggi.cpp] (GINX),
    [rgsw-acc-dm.cpp] (AP) and [rgsw-acc-lmkcdey.cpp] (LMKCDEY).  A ciphertext
    [RLWECiphertext] is the pair of its elements; an evaluation key is the list
    of its rows.  The vectors that the generators draw are arguments.  All the
    rows of an RGSW encryption share one uniform element, because the code
    fills [tempA] with copies of one sample. *)

From Stdlib Require Import ZArith Lia String.
From stdpp Require Import base tactics numbers list strings gmap.
From S2P Require Import Prelude Double NativeInt NativeIntFacts ModArith NativeVec SchemeCore Negacyclic BitReverse Ntt Poly Gadget AccCore.

(** ** Parameters *)
Record RingGSWCryptoParams := RGSWParams {
  r_Q : Z; r_q : Z; r_N : nat; r_baseG : Z; r_baseR : Z; r_digitsG : nat;
  r_digitsR : list Z;
  r_Gpower : list Z;
  r_logGen : list Z;
  r_Gpower_map : gmap Z (list Z);
  r_polyParams : ILParams;
  r_gateConst : list Z;
  r_monomials : list NativePoly;
  r_method : BINFHE_METHOD;
  r_numAutoKeys : nat
}.

(** The powers of [baseR], as 64-bit words. *)
Definition refresh_digits (q baseR : Z) : list Z := powers_loop baseR (digit_count baseR q) 1.

(** [m_logGen[5^i] = i], [m_logGen[-5^i] = -i] and [m_logGen[-1] = 2 N]. *)
Definition log_table (N : nat) : res (list Z) :=
  let M := (2 * Z.of_nat N) mod 2 ^ 32 in
  t ← vset (repeat 0 (Z.to_nat M)) (Z.to_nat (M - 1)) M;
  r ← for_ (N / 2 - 1) (fun i (st : list Z * Z) =>
        gPow ← umod ((st.2 * 5) mod 2 ^ 32) M;
        t ← vset st.1 (Z.to_nat gPow) (Z.of_nat (S i));
        t ← vset t (Z.to_nat (M - gPow)) (- Z.of_nat (S i));
        Ok (t, gPow)) (t, 1);
  Ok r.1.

(** The bases of the sign evaluation.  The number of digits of the tables is the
    logarithm of [Q] divided by [noexcept(log(base))], where [noexcept] is the
    operator: the C library declares [log] not to throw, so it is [true], that
    is 1.0, for every base. *)
Definition baseGlist : list Z := [2 ^ 14; 2 ^ 18; 2 ^ 27].
Definition noexcept_log : bool := true.
(** [ceil(log(x))], with 40 digits of [e]. *)
Fixpoint ceil_log_loop (fuel : nat) (x num den : Z) (d : nat) : nat :=
  match fuel with
  | O => d
  | S fuel' => if x * den <=? num then d else ceil_log_loop fuel' x (num * 2718281828459045235360287471352662497757) (den * 10 ^ 39) (S d)
  end.
Definition ceil_log (x : Z) : nat := ceil_log_loop 64 x 1 1 0.
Definition sign_digits (Q : Z) : res nat := if noexcept_log then Ok (ceil_log Q) else Throw undefined_behaviour.
Definition sign_tables (Q baseG : Z) (Gpower : list Z) (Gpower_map : gmap Z (list Z)) : res (list Z * gmap Z (list Z)) :=
  for_ (length baseGlist) (fun j (st : list Z * gmap Z (list Z)) =>
    b ← vget baseGlist j;
    tempdigits ← sign_digits Q;
    tempvec ← gadget_powers tempdigits b Q;
    Ok (if baseG =? b then tempvec else st.1, <[b := tempvec]> st.2)) (Gpower, Gpower_map).

Section Accumulators.
Context (arb : FTT -> NativePoly -> res (FTT * NativePoly)).

Definition PreCompute (ps : RingGSWCryptoParams) (signEval : bool) (st : FTT) : res (FTT * RingGSWCryptoParams) :=
  let digitsR := if bool_decide (r_method ps = AP) then refresh_digits (r_q ps) (r_baseR ps) else r_digitsR ps in
  g ← (if signEval then sign_tables (r_Q ps) (r_baseG ps) (r_Gpower ps) (r_Gpower_map ps)
       else gp ← gadget_powers (r_digitsG ps) (r_baseG ps) (r_Q ps); Ok (r_Gpower ps ++ gp, r_Gpower_map ps));
  gc ← gate_constants (r_q ps);
  m ← (if bool_decide (r_method ps = GINX)
       then t ← monomial_table arb (r_polyParams ps) (r_Q ps) (r_N ps) st; Ok (t.1, r_monomials ps ++ t.2)
       else Ok (st, r_monomials ps));
  logGen ← (if bool_decide (r_method ps = LMKCDEY) then log_table (r_N ps) else Ok (r_logGen ps));
  Ok (m.1, RGSWParams (r_Q ps) (r_q ps) (r_N ps) (r_baseG ps) (r_baseR ps) (r_digitsG ps) digitsR g.1 logGen g.2 (r_polyParams ps) gc m.2
             (r_method ps) (r_numAutoKeys ps)).

(** The constructor.  The polynomial parameters, whose root of unity is found
    by [RootOfUnity], are an argument. *)
Definition IsPowerOfTwo (n : Z) : bool := negb (n =? 0) && (Z.land n (n - 1) =? 0).
Definition new_RingGSWCryptoParams (N : nat) (Q q baseG baseR : Z) (method : BINFHE_METHOD) (signEval : bool) (numAutoKeys : nat)
    (polyParams : ILParams) (st : FTT) : res (FTT * RingGSWCryptoParams) :=
  if negb (IsPowerOfTwo baseG) then Throw (config_error "Gadget base should be a power of two.") else
  if bool_decide (method = LMKCDEY) && (numAutoKeys =? 0)%nat then Throw (config_error "numAutoKeys should be greater than 0.") else
  PreCompute (RGSWParams Q q N baseG baseR (digit_count baseG Q) [] [] [] ∅ polyParams [] [] method numAutoKeys) signEval st.

(** The table of the new base is looked up with [operator[]], which adds an empty
    one when there is none. *)
Definition Change_BaseG (ps : RingGSWCryptoParams) (BaseG : Z) : RingGSWCryptoParams :=
  if r_baseG ps =? BaseG then ps
  else let gp := default [] (r_Gpower_map ps !! BaseG) in
       RGSWParams (r_Q ps) (r_q ps) (r_N ps) BaseG (r_baseR ps) (digit_count BaseG (r_Q ps)) (r_digitsR ps) gp
         (r_logGen ps) (<[BaseG := gp]> (r_Gpower_map ps)) (r_polyParams ps) (r_gateConst ps) (r_monomials ps) (r_method ps) (r_numAutoKeys ps).

(** ** RGSW encryptions *)
Definition RLWECiphertext : Type := NativePoly * NativePoly.
Definition RingGSWEvalKey : Type := list (NativePoly * NativePoly).

(** What one encryption draws: the uniform element of [tempA], and the error of
    each row. *)
Record RgswSample := RSample { rs_a : NativeVector; rs_e : nat -> NativeVector }.

(** [p[pos] += Gpow[(i >> 1) + 1]], or [-=]. *)
Definition add_power (ps : RingGSWCryptoParams) (negative : bool) (pos : nat) (i : nat) (p : NativePoly) : res NativePoly :=
  g ← vget (r_Gpower ps) (i / 2 + 1);
  x ← p_get p pos;
  p_set p pos (if negative then ModSubFastEq W x g (r_Q ps) else ModAddFastEq W x g (r_Q ps)).

(** Row [i]: [(a, e + a s)], the message being added by [addmsg] to the first
    component of an even row and to the second one of an odd row. *)
Definition rgsw_row (ps : RingGSWCryptoParams) (skNTT : NativePoly) (addmsg : nat -> NativePoly -> res NativePoly) (smp : RgswSample)
    (i : nat) (st : FTT) : res (FTT * (NativePoly * NativePoly)) :=
  let r0 := MkPoly COEFFICIENT (r_polyParams ps) (Some (rs_a smp)) in
  tempA ← SetFormat arb st r0 EVALUATION;
  let r1 := MkPoly COEFFICIENT (r_polyParams ps) (Some (rs_e smp i)) in
  r ← (if Nat.even i then r0 ← addmsg i r0; Ok (r0, r1) else r1 ← addmsg i r1; Ok (r0, r1));
  r0 ← SetFormat arb tempA.1 r.1 EVALUATION;
  r1 ← SetFormat arb r0.1 r.2 EVALUATION;
  t ← TimesEq tempA.2 skNTT;
  r1' ← PlusEq r1.2 t;
  Ok (r1.1, (r0.2, r1')).

Definition rgsw_rows (ps : RingGSWCryptoParams) (skNTT : NativePoly) (addmsg : nat -> NativePoly -> res NativePoly) (smp : RgswSample) (st : FTT) :
    res (FTT * RingGSWEvalKey) :=
  tabulateS (2 * (r_digitsG ps - 1)) (rgsw_row ps skNTT addmsg smp) st.

Definition KeyGenCGGI (ps : RingGSWCryptoParams) (skNTT : NativePoly) (m : Z) (smp : RgswSample) (st : FTT) : res (FTT * RingGSWEvalKey) :=
  rgsw_rows ps skNTT (fun i p => if m =? 0 then Ok p else add_power ps false 0 i p) smp st.

(** [if (mm >= N) { mm -= N; isReducedMM = true; }]. *)
Definition reduced_exponent (ps : RingGSWCryptoParams) (mm : Z) : bool * nat :=
  if Z.of_nat (r_N ps) <=? mm then (true, Z.to_nat (mm - Z.of_nat (r_N ps))) else (false, Z.to_nat mm).

(** The AP method reduces [m] modulo [q] on [uint64_t], LMKCDEY on [int64_t]. *)
Definition KeyGenDM (ps : RingGSWCryptoParams) (skNTT : NativePoly) (m : Z) (smp : RgswSample) (st : FTT) : res (FTT * RingGSWEvalKey) :=
  m1 ← umod (wrap W m) (r_q ps);
  mq ← umod (wrap W (m1 + r_q ps)) (r_q ps);
  f ← udiv ((2 * Z.of_nat (r_N ps)) mod 2 ^ 32) (r_q ps);
  let mm := reduced_exponent ps (to_signed W (wrap W (mq * f))) in
  rgsw_rows ps skNTT (add_power ps mm.1 mm.2) smp st.

Definition KeyGenLMKCDEY (ps : RingGSWCryptoParams) (skNTT : NativePoly) (m : Z) (smp : RgswSample) (st : FTT) : res (FTT * RingGSWEvalKey) :=
  if r_q ps =? 0 then Throw undefined_behaviour else
  t ← sck W (Z.rem m (r_q ps) + r_q ps);
  x ← sck W (Z.rem t (r_q ps) * Z.quot (2 * Z.of_nat (r_N ps)) (r_q ps));
  let mm := reduced_exponent ps x in
  rgsw_rows ps skNTT (add_power ps mm.1 mm.2) smp st.

(** The key of the automorphism [x -> x^k]; the rows draw their own elements. *)
Definition KeyGenAuto (ps : RingGSWCryptoParams) (skNTT : NativePoly) (k : Z) (smp : nat -> NativeVector * NativeVector) (st : FTT) :
    res (FTT * RingGSWEvalKey) :=
  skAuto ← AutomorphismTransform skNTT (k mod 2 ^ 32);
  tabulateS (r_digitsG ps - 1) (fun i st =>
    r0 ← sampled arb (r_polyParams ps) st (smp i).1;
    e ← sampled arb (r_polyParams ps) r0.1 (smp i).2;
    g ← vget (r_Gpower ps) (i + 1);
    t ← TimesInt skAuto g;
    r1 ← Minus e.2 t;
    t ← Times r0.2 skNTT;
    r1 ← PlusEq r1 t;
    Ok (e.1, (r0.2, r1))) st.
(** ** External products *)

(** The digits of the two elements of a ciphertext, interleaved, in the
    evaluation format; the ciphertext itself is copied. *)
Definition decompose2 (ps : RingGSWCryptoParams) (st : FTT) (acc : RLWECiphertext) : res (FTT * list NativePoly) :=
  let digitsG2 := (2 * (r_digitsG ps - 1))%nat in
  c0 ← SetFormat arb st acc.1 COEFFICIENT;
  c1 ← SetFormat arb c0.1 acc.2 COEFFICIENT;
  dct ← SignedDigitDecompose2 (r_Q ps) (r_baseG ps) (r_digitsG ps) (r_N ps) c0.2 c1.2
          (replicate digitsG2 (new_poly (r_polyParams ps) COEFFICIENT true));
  tabulateS digitsG2 (fun i st => p ← vget dct i; SetFormat arb st p EVALUATION) c1.1.

(** An inner product whose first term and other terms are taken by [times0]
    and [times]. *)
Definition dot_with (times0 times : NativePoly -> NativePoly -> res NativePoly) (n : nat) (x y : list NativePoly) : res NativePoly :=
  x0 ← vget x 0; y0 ← vget y 0;
  s ← times0 x0 y0;
  for_ (n - 1) (fun i s => xi ← vget x (S i); yi ← vget y (S i); t ← times xi yi; PlusEq s t) s.

(** [acc = dct * ek]; [AddToAccLMKCDEY] has the same body. *)
Definition AddToAccDM (ps : RingGSWCryptoParams) (ek : RingGSWEvalKey) (acc : RLWECiphertext) (st : FTT) : res (FTT * RLWECiphertext) :=
  let digitsG2 := (2 * (r_digitsG ps - 1))%nat in
  dct ← decompose2 ps st acc;
  a0 ← dot_with Times Times digitsG2 dct.2 ek.*1;
  a1 ← dot_with TimesEq TimesEq digitsG2 dct.2 ek.*2;
  Ok (dct.1, (a0, a1)).
Definition AddToAccLMKCDEY := AddToAccDM.

Definition GetMonomial (ps : RingGSWCryptoParams) (i : Z) : res NativePoly := vget (r_monomials ps) (Z.to_nat i).

Definition AddToAccCGGI (ps : RingGSWCryptoParams) (ek1 ek2 : RingGSWEvalKey) (a : Z) (acc : RLWECiphertext) (st : FTT) :
    res (FTT * RLWECiphertext) :=
  let digitsG2 := (2 * (r_digitsG ps - 1))%nat in
  dct ← decompose2 ps st acc;
  monomial ← GetMonomial ps (monomial_index (r_N ps) a);
  monomialNeg ← GetMonomial ps (monomial_neg_index (r_N ps) a);
  tmp ← dot_with Times Times digitsG2 dct.2 ek1.*1; t ← TimesEq tmp monomial; a0 ← PlusEq acc.1 t;
  tmp ← dot_with Times Times digitsG2 dct.2 ek1.*2; t ← TimesEq tmp monomial; a1 ← PlusEq acc.2 t;
  tmp ← dot_with Times Times digitsG2 dct.2 ek2.*1; t ← TimesEq tmp monomialNeg; a0 ← PlusEq a0 t;
  tmp ← dot_with Times TimesEq digitsG2 dct.2 ek2.*2; t ← TimesEq tmp monomialNeg; a1 ← PlusEq a1 t;
  Ok (dct.1, (a0, a1)).

(** ** The permutation of an automorphism *)

(** [round(log2(m))]. *)
Definition round_log2 (m : Z) : Z := Z.log2 (2 * m * m) / 2.
Definition PrecomputeAutoMap (n : nat) (k : Z) (precomp : list nat) : res (list nat) :=
  let logm := round_log2 (2 * Z.of_nat n) in
  let logn := round_log2 (Z.of_nat n) in
  for_ n (fun j precomp =>
    let jTmp := 2 * Z.of_nat j + 1 in
    let t := (jTmp * k) mod 2 ^ 32 in
    let idx := Z.shiftr (t - Z.shiftl (Z.shiftr t logm) logm) 1 in
    vset precomp (Z.to_nat (ReverseBits (Z.of_nat j) logn)) (Z.to_nat (ReverseBits idx logn))) precomp.

Definition Automorphism (ps : RingGSWCryptoParams) (a : Z) (ak : RingGSWEvalKey) (acc : RLWECiphertext) (st : FTT) : res (FTT * RLWECiphertext) :=
  let N := r_N ps in
  let digitsG := (r_digitsG ps - 1)%nat in
  vec ← PrecomputeAutoMap N (ConvertToInt 32 a) (repeat 0%nat N);
  acc1 ← AutomorphismTransform_precomp acc.2 (ConvertToInt 32 a) vec;
  cta ← AutomorphismTransform_precomp acc.1 (ConvertToInt 32 a) vec;
  cta ← SetFormat arb st cta COEFFICIENT;
  dcta ← decompose arb (r_polyParams ps) (r_Q ps) (r_baseG ps) (r_digitsG ps) N cta.1 cta.2;
  acc0 ← for_ digitsG (fun d s => x ← vget dcta.2 d; y ← vget ak d; t ← Times x y.1; PlusEq s t) (SetValuesToZero acc.1);
  acc1 ← for_ digitsG (fun d s => x ← vget dcta.2 d; y ← vget ak d; t ← TimesEq x y.2; PlusEq s t) acc1;
  Ok (dcta.1, (acc0, acc1)).

(** ** Bootstrapping keys and blind rotation

    [sample u s i] is what the key at [[u][s][i]] draws. *)
Definition RingGSWACCKey : Type := ACCKey RingGSWEvalKey.
Definition store (key : res (FTT * RingGSWEvalKey)) (u s i : nat) (ek : RingGSWACCKey) : res (FTT * RingGSWACCKey) :=
  r ← key; ek ← set_key ek u s i r.2; Ok (r.1, ek).

(** *** GINX: [RingGSWAccumulatorCGGI] *)
Definition KeyGenAcc_CGGI (ps : RingGSWCryptoParams) (skNTT : NativePoly) (sv : NativeVector) (sample : nat -> nat -> nat -> RgswSample) (st : FTT) :
    res (FTT * RingGSWACCKey) :=
  let n := length (data sv) in
  let neg := wrap W (modulus sv - 1) in
  for_ n (fun i (x : FTT * RingGSWACCKey) =>
    s ← vget (data sv) i;
    x ← store (KeyGenCGGI ps skNTT (if s =? 1 then 1 else 0) (sample 0%nat 0%nat i) x.1) 0 0 i x.2;
    store (KeyGenCGGI ps skNTT (if s =? neg then 1 else 0) (sample 0%nat 1%nat i) x.1) 0 1 i x.2) (st, new_key 1 2 n).

Definition EvalAcc_CGGI (ps : RingGSWCryptoParams) (ek : RingGSWACCKey) (acc : RLWECiphertext) (a : NativeVector) (st : FTT) :
    res (FTT * RLWECiphertext) :=
  let mod_ := modulus a in
  MbyMod ← DividedBy ((2 * Z.of_nat (r_N ps)) mod 2 ^ 32) mod_;
  for_ (length (data a)) (fun i (x : FTT * RLWECiphertext) =>
    k1 ← get_key ek 0 0 i; k2 ← get_key ek 0 1 i;
    ai ← vget (data a) i;
    e ← Mul W (ModSubFast W 0 ai mod_) MbyMod;
    AddToAccCGGI ps k1 k2 e x.2 x.1) (st, acc).

(** *** AP: [RingGSWAccumulatorDM] *)

(** [ConvertToInt<int32_t>()], and the signed value of an entry of the key. *)
Definition to_int32 (x : Z) : Z := to_signed 32 (wrap 32 x).
Definition signed_secret (mod_ s : Z) : res Z := let s := to_int32 s in if Z.shiftr mod_ 1 <? s then sck 32 (s - mod_) else Ok s.

Definition KeyGenAcc_DM (ps : RingGSWCryptoParams) (skNTT : NativePoly) (sv : NativeVector) (sample : nat -> nat -> nat -> RgswSample) (st : FTT) :
    res (FTT * RingGSWACCKey) :=
  let n := length (data sv) in
  let mod_ := to_int32 (modulus sv) in
  let baseR := Z.to_nat (to_int32 (r_baseR ps)) in
  let digits := length (r_digitsR ps) in
  for_ n (fun i =>
    for_ (baseR - 1) (fun j' =>
      let j := S j' in
      for_ digits (fun k (x : FTT * RingGSWACCKey) =>
        sv_i ← vget (data sv) i;
        s ← signed_secret mod_ sv_i;
        dk ← vget (r_digitsR ps) k;
        t ← sck 32 (s * Z.of_nat j);
        m ← sck 32 (t * to_int32 dk);
        store (KeyGenDM ps skNTT m (sample i j k) x.1) i j k x.2))) (st, new_key n baseR digits).

Definition EvalAcc_DM (ps : RingGSWCryptoParams) (ek : RingGSWACCKey) (acc : RLWECiphertext) (a : NativeVector) (st : FTT) :
    res (FTT * RLWECiphertext) :=
  r ← for_ (length (data a)) (fun i (x : FTT * RLWECiphertext) =>
    ai ← vget (data a) i;
    let aI := ModSubFast W 0 ai (r_q ps) in
    y ← for_ (length (r_digitsR ps)) (fun k (y : Z * (FTT * RLWECiphertext)) =>
          a0 ← NativeInt.Mod y.1 (r_baseR ps);
          let a0 := ConvertToInt 32 a0 in
          acc ← (if a0 =? 0 then Ok y.2 else key ← get_key ek i (Z.to_nat a0) k; AddToAccDM ps key y.2.2 y.2.1);
          aI ← DividedBy y.1 (r_baseR ps);
          Ok (aI, acc)) (aI, x);
    Ok y.2) (st, acc);
  Ok r.

(** *** LMKCDEY: [RingGSWAccumulatorLMKCDEY] *)
Definition gen : Z := 5.

Definition KeyGenAcc_LMKCDEY (ps : RingGSWCryptoParams) (skNTT : NativePoly) (sv : NativeVector) (sample : nat -> nat -> nat -> RgswSample)
    (autoSample : nat -> nat -> NativeVector * NativeVector) (st : FTT) : res (FTT * RingGSWACCKey) :=
  let n := length (data sv) in
  let mod_ := to_int32 (modulus sv) in
  let M := (2 * Z.of_nat (r_N ps)) mod 2 ^ 32 in
  x ← for_ n (fun i (x : FTT * RingGSWACCKey) =>
        sv_i ← vget (data sv) i;
        s ← signed_secret mod_ sv_i;
        store (KeyGenLMKCDEY ps skNTT s (sample 0%nat 0%nat i) x.1) 0 0 i x.2) (st, new_key 1 2 n);
  x ← store (KeyGenAuto ps skNTT (wrap W (M - gen)) (autoSample 0%nat) x.1) 0 1 0 x.2;
  for_ (r_numAutoKeys ps) (fun i' (x : FTT * RingGSWACCKey) =>
    let i := S i' in
    e ← ModExp_ W gen (Z.of_nat i) M;
    store (KeyGenAuto ps skNTT e (autoSample i) x.1) 0 1 i x.2) x.

(** The indices of the mask by the logarithm of the entry made odd. *)
Definition permute_map (ps : RingGSWCryptoParams) (M : Z) (a : list Z) : res (gmap Z (list nat)) :=
  for_ (length a) (fun i (m : gmap Z (list nat)) =>
    ai ← vget a i;
    let aIOdd := Z.lor (ConvertToInt 32 (ModSubFast W 0 ai M)) 1 in
    index ← vget (r_logGen ps) (Z.to_nat aIOdd);
    Ok (<[index := default [] (m !! index) ++ [i]]> m)) ∅.

(** The keys of one bucket, then the others. *)
Definition add_bucket (ps : RingGSWCryptoParams) (ek : RingGSWACCKey) (indexVec : list nat) (x : FTT * RLWECiphertext) : res (FTT * RLWECiphertext) :=
  for_ (length indexVec) (fun j (x : FTT * RLWECiphertext) =>
    i ← vget indexVec j; key ← get_key ek 0 0 i; AddToAccLMKCDEY ps key x.2 x.1) x.

(** The rotation by [5^nSkips]. *)
Definition rotate_skips (ps : RingGSWCryptoParams) (M : Z) (ek : RingGSWACCKey) (nSkips : nat) (x : FTT * RLWECiphertext) : res (FTT * RLWECiphertext) :=
  e ← ModExp_ W gen (Z.of_nat nSkips) M;
  key ← get_key ek 0 1 nSkips;
  Automorphism ps e key x.2 x.1.

(** One of the two loops over the logarithms [Nh - 1], ..., 1, whose buckets are
    those of [sign * i]. *)
Definition bucket_loop (ps : RingGSWCryptoParams) (M : Z) (ek : RingGSWACCKey) (permuteMap : gmap Z (list nat)) (sign : Z) (Nh : nat)
    (x : nat * (FTT * RLWECiphertext)) : res (nat * (FTT * RLWECiphertext)) :=
  for_ (Nh - 1) (fun t (x : nat * (FTT * RLWECiphertext)) =>
    let i := (Nh - 1 - t)%nat in
    x ← (match permuteMap !! (sign * Z.of_nat i) with
         | None => Ok x
         | Some indexVec =>
           x ← (if (x.1 =? 0)%nat then Ok x else y ← rotate_skips ps M ek x.1 x.2; Ok (0%nat, y));
           y ← add_bucket ps ek indexVec x.2;
           Ok (x.1, y)
         end);
    let nSkips := S x.1 in
    if (nSkips =? r_numAutoKeys ps)%nat || (i =? 1)%nat
    then y ← rotate_skips ps M ek nSkips x.2; Ok (0%nat, y)
    else Ok (nSkips, x.2)) x.

Definition EvalAcc_LMKCDEY (ps : RingGSWCryptoParams) (ek : RingGSWACCKey) (acc : RLWECiphertext) (a : NativeVector) (st : FTT) :
    res (FTT * RLWECiphertext) :=
  let Nh := (r_N ps / 2)%nat in
  let M := (2 * Z.of_nat (r_N ps)) mod 2 ^ 32 in
  permuteMap ← permute_map ps M (data a);
  acc1 ← AutomorphismTransform acc.2 ((M - gen) mod 2 ^ 32);
  x ← bucket_loop ps M ek permuteMap (-1) Nh (0%nat, (st, (acc.1, acc1)));
  y ← add_bucket ps ek (default [] (permuteMap !! M)) x.2;
  key ← get_key ek 0 1 0;
  y ← Automorphism ps ((M - gen) mod 2 ^ 32) key y.2 y.1;
  x ← bucket_loop ps M ek permuteMap 1 Nh (x.1, y);
  add_bucket ps ek (default [] (permuteMap !! 0)) x.2.

(** The accumulator that the constructor of [BinFHEScheme] chooses. *)
Definition acc_Eval (method : BINFHE_METHOD) : res (RingGSWCryptoParams -> RingGSWACCKey -> RLWECiphertext -> NativeVector -> FTT -> res (FTT * RLWECiphertext)) :=
  match method with
  | AP => Ok EvalAcc_DM
  | GINX => Ok EvalAcc_CGGI
  | LMKCDEY => Ok EvalAcc_LMKCDEY
  | INVALID_METHOD => Throw (config_error "method is invalid")
  | MKNTRU | MKNTRU_B | MKNTRU_LWE => Throw undefined_behaviour
  end.
Definition acc_KeyGen (method : BINFHE_METHOD) (autoSample : nat -> nat -> NativeVector * NativeVector) :
    res (RingGSWCryptoParams -> NativePoly -> NativeVector -> (nat -> nat -> nat -> RgswSample) -> FTT -> res (FTT * RingGSWACCKey)) :=
  match method with
  | AP => Ok KeyGenAcc_DM
  | GINX => Ok KeyGenAcc_CGGI
  | LMKCDEY => Ok (fun ps skNTT sv sample => KeyGenAcc_LMKCDEY ps skNTT sv sample autoSample)
  | INVALID_METHOD => Throw (config_error "method is invalid")
  | MKNTRU | MKNTRU_B | MKNTRU_LWE => Throw undefined_behaviour
  end.
End Accumulators.
