(* ===== verification/LogTable.v ===== *)
(** * The table of the logarithms

    [log_table] of [RgswAcc] gives every odd residue modulo [2 N] its logarithm
    to the base 5 and a sign: the powers of 5 are the residues that are 1 modulo
    4.  Then sums over the entries of a mask, taken logarithm by logarithm in
    the order of the loops of [RingGSWAccumulatorLMKCDEY]. *)

From Stdlib Require Import ZArith Lia String.
From stdpp Require Import base tactics numbers list strings gmap.
From S2P Require Import Prelude Double NativeInt NativeIntFacts ModArith NativeVec SchemeCore BitReverse Ntt Poly Gadget AccCore RgswAcc.

(** ** The powers of 5 modulo a power of two *)
Lemma five_power i : 0 <= i -> exists c, 5 ^ (2 ^ i) = 1 + 4 * 2 ^ i * (2 * c + 1).
Proof.
  revert i. apply natlike_ind; [by exists 0|]. intros i Hi [c Hc]. rewrite !Z.pow_succ_r by lia.
  exists (c + 2 ^ i * (2 * c + 1) * (2 * c + 1)). rewrite Z.mul_comm, Z.pow_mul_r, Hc by (try apply Z.pow_nonneg; lia). ring.
Qed.

Lemma five_odd e : 0 <= e -> Z.odd (5 ^ e) = true.
Proof. revert e. apply natlike_ind; [done|]. intros e He IH. rewrite Z.pow_succ_r, Z.odd_mul, IH by done. done. Qed.

(** Every number that is 1 modulo 4 is a power. *)
Lemma five_generates i x : 0 <= i -> x ≡[4] 1 -> exists e, 0 <= e < 2 ^ i /\ 5 ^ e ≡[4 * 2 ^ i] x.
Proof.
  intros Hi Hx. revert i Hi. apply natlike_ind; [by exists 0|]. intros i Hi (e & He & [c Hc]%eqm_iff).
  rewrite Z.pow_succ_r by done. destruct (five_power i Hi) as [o Ho]. destruct (Z.Even_or_Odd c) as [[h ->]|[h ->]].
  - exists e. split; [lia|]. apply eqm_iff. exists h. lia.
  - exists (e + 2 ^ i). split; [lia|]. apply eqm_iff. assert (Z.odd (5 ^ e * (2 * o + 1)) = true) as Hodd.
    { rewrite Z.odd_mul, five_odd, Z.odd_add, Z.odd_mul by lia. done. }
    apply Z.odd_spec in Hodd as [f Hf]. exists (h + f + 1). rewrite Z.pow_add_r, Ho by lia.
    transitivity (5 ^ e + 4 * 2 ^ i * (5 ^ e * (2 * o + 1))); [ring|]. rewrite Hf, Hc. ring.
Qed.

(** ** The table of the logarithms *)
Section LogTable.
Context (k : nat) (Hk : (2 <= k <= 24)%nat).
Abbreviation n := (2 ^ k)%nat.
Abbreviation Nh := (2 ^ k / 2)%nat.
Abbreviation M := (2 * Z.of_nat n).

Lemma half_dim : Z.of_nat Nh = 2 ^ (Z.of_nat k - 1) /\ M = 4 * 2 ^ (Z.of_nat k - 1) /\ (2 <= Nh)%nat /\ 8 <= M <= 2 ^ 25.
Proof using Hk.
  assert (Z.of_nat n = 2 ^ Z.of_nat k) as En by (by rewrite Nat2Z.inj_pow).
  assert (2 ^ Z.of_nat k = 2 * 2 ^ (Z.of_nat k - 1)) as E2 by (rewrite <- (Z.pow_succ_r 2) by lia; f_equal; lia).
  assert (2 ^ 1 <= 2 ^ (Z.of_nat k - 1) <= 2 ^ 23) as Hb by (split; apply Z.pow_le_mono_r; lia).
  assert (Z.of_nat Nh = 2 ^ (Z.of_nat k - 1)) as EN. { rewrite Nat2Z.inj_div, En, E2, Z.mul_comm. by apply Z.div_mul. }
  change (2 ^ 1) with 2 in Hb. change (2 ^ 25) with (4 * 2 ^ 23). lia.
Qed.

Lemma five_cycle : 5 ^ Z.of_nat Nh ≡[M] 1.
Proof using Hk.
  destruct half_dim as (-> & -> & _ & _). destruct (five_power (Z.of_nat k - 1) ltac:(lia)) as [c ->]. apply eqm_iff. exists (2 * c + 1). ring.
Qed.

(** The exponent that an index of the table stands for. *)
Definition log_exponent (index : Z) : Z := if index =? M then -1 else if index <? 0 then - 5 ^ (- index) else 5 ^ index.
Definition valid_log (index : Z) : Prop := index = M \/ - Z.of_nat Nh < index < Z.of_nat Nh.

(** The entries that are not 0 are right, and those of [cov] are not 0. *)
Definition log_entries (cov : Z -> Prop) (t : list Z) : Prop :=
  length t = Z.to_nat M /\
  (forall x, 0 <= x < M -> t !!! Z.to_nat x <> 0 -> valid_log (t !!! Z.to_nat x) /\ log_exponent (t !!! Z.to_nat x) ≡[M] x) /\
  (forall x, 0 <= x < M -> cov x -> t !!! Z.to_nat x <> 0).

Lemma log_write cov t y v : log_entries cov t -> 0 <= y < M -> v <> 0 -> valid_log v -> log_exponent v ≡[M] y ->
  returns (vset t (Z.to_nat y) v) (log_entries (fun x => cov x \/ x ≡[M] y)).
Proof using Hk.
  intros (L & Hv & Hc) Hy Hv0 Hvv Hve. rewrite vset_lt by lia. apply returns_ok. split; [by rewrite length_insert|].
  assert (forall x, 0 <= x < M -> <[Z.to_nat y := v]> t !!! Z.to_nat x = if decide (x = y) then v else t !!! Z.to_nat x) as El.
  { intros x Hx. destruct (decide (x = y)) as [->|Hne]; [by rewrite list_lookup_total_insert_eq by lia|].
    by rewrite list_lookup_total_insert_ne by lia. }
  split; intros x Hx; rewrite El by done; destruct (decide (x = y)) as [->|Hne]; try done.
  - by apply Hv.
  - intros [H|H]; [by apply Hc|]. exfalso. apply Hne. by apply (eqm_small M).
Qed.

(** The residues that the loop has written after [i] steps. *)
Definition log_covered (i : nat) (x : Z) : Prop :=
  x ≡[M] -1 \/ exists j, (1 <= j <= i)%nat /\ (x ≡[M] 5 ^ Z.of_nat j \/ x ≡[M] - 5 ^ Z.of_nat j).

Lemma log_exponent_small i : (0 < i < Nh)%nat ->
  log_exponent (Z.of_nat i) = 5 ^ Z.of_nat i /\ log_exponent (- Z.of_nat i) = - 5 ^ Z.of_nat i /\ valid_log (Z.of_nat i) /\ valid_log (- Z.of_nat i).
Proof using Hk.
  destruct half_dim as (EN & EM & HNh & HM). intros Hi. unfold log_exponent. rewrite !(proj2 (Z.eqb_neq _ _)) by lia.
  rewrite (proj2 (Z.ltb_ge _ _)), (proj2 (Z.ltb_lt _ _)), Z.opp_involutive by lia. split; [done|]. split; [done|]. split; right; lia.
Qed.

Lemma log_step i t p : (S i < Nh)%nat -> p = 5 ^ Z.of_nat i mod M -> log_entries (log_covered i) t ->
  returns (gPow ← umod ((p * 5) mod 2 ^ 32) M; t ← vset t (Z.to_nat gPow) (Z.of_nat (S i)); t ← vset t (Z.to_nat (M - gPow)) (- Z.of_nat (S i)); Ok (t, gPow))
    (fun s => s.2 = 5 ^ Z.of_nat (S i) mod M /\ log_entries (log_covered (S i)) s.1).
Proof using Hk.
  destruct half_dim as (EN & EM & HNh & HM). intros Hi -> Ht. pose proof (Z.mod_pos_bound (5 ^ Z.of_nat i) M ltac:(lia)) as Hp.
  unfold umod. rewrite (proj2 (Z.eqb_neq M 0)), bind_ok, (Z.mod_small (_ * 5)) by lia.
  assert ((5 ^ Z.of_nat i mod M * 5) mod M = 5 ^ Z.of_nat (S i) mod M) as ->.
  { rewrite Z.mul_mod_idemp_l by lia. f_equal. rewrite Nat2Z.inj_succ, Z.pow_succ_r by lia. ring. }
  set (y := 5 ^ Z.of_nat (S i) mod M). assert (0 <= y < M) as Hy by (apply Z.mod_pos_bound; lia). assert (y ≡[M] 5 ^ Z.of_nat (S i)) as Ey by apply eqm_mod.
  assert (y <> 0) as Hy0.
  { intros E. rewrite E in Ey. apply (eqm_divisor M 2) in Ey; [|exists (Z.of_nat n); ring]. unfold eqm in Ey. rewrite !Zmod_odd, five_odd in Ey by lia. done. }
  destruct (log_exponent_small (S i) ltac:(lia)) as (EL1 & EL2 & V1 & V2). assert (M - y ≡[M] - 5 ^ Z.of_nat (S i)) as Ey'.
  { rewrite Ey. apply eqm_iff. exists 1. ring. }
  eapply returns_bind; [apply (log_write _ _ y (Z.of_nat (S i)) Ht); [done|lia|done|by rewrite EL1, Ey]|]. intros t1 H1.
  eapply returns_bind; [apply (log_write _ _ (M - y) (- Z.of_nat (S i)) H1); [lia|lia|done|by rewrite EL2, Ey']|].
  intros t2 (L2 & Hv2 & Hc2). apply returns_ok. split; [done|]. split; [done|]. split; [done|].
  intros x Hx H. apply Hc2; [done|]. destruct H as [H|(j & Hj & H)]; [left; left; by left|]. destruct (decide (j = S i)) as [->|Hne].
  - destruct H as [H|H]; [left; right; by rewrite H, Ey|right; by rewrite H, Ey'].
  - left. left. right. exists j. split; [lia|done].
Qed.

(** Every odd residue is written, but for 1, whose entry 0 is right. *)
Lemma odd_covered x : Z.odd x = true -> x ≡[M] 1 \/ log_covered (Nh - 1) x.
Proof using Hk.
  destruct half_dim as (EN & EM & HNh & HM). intros Hodd.
  assert (x ≡[4] 1 \/ - x ≡[4] 1) as [H4|H4].
  { apply Z.odd_spec in Hodd as [h ->]. destruct (Z.Even_or_Odd h) as [[h' ->]|[h' ->]]; [left|right]; apply eqm_iff; [exists h'|exists (- h' - 1)]; ring. }
  - destruct (five_generates (Z.of_nat k - 1) x ltac:(lia) H4) as (e & He & Hxe). rewrite <- EN in He. rewrite <- EM in Hxe.
    destruct (decide (e = 0)) as [->|He0]; [by left|]. right. right. exists (Z.to_nat e). split; [lia|]. left. by rewrite Z2Nat.id by lia.
  - destruct (five_generates (Z.of_nat k - 1) (- x) ltac:(lia) H4) as (e & He & Hxe). rewrite <- EN in He. rewrite <- EM in Hxe.
    assert (x ≡[M] - 5 ^ e) as Hx'. { rewrite Hxe. apply eqm_refl. ring. }
    destruct (decide (e = 0)) as [->|He0]; [by right; left|]. right. right. exists (Z.to_nat e). split; [lia|]. right. by rewrite Z2Nat.id by lia.
Qed.

Definition log_right (t : list Z) : Prop :=
  length t = Z.to_nat M /\ forall x, 0 <= x < M -> Z.odd x = true -> valid_log (t !!! Z.to_nat x) /\ log_exponent (t !!! Z.to_nat x) ≡[M] x.

Lemma log_table_spec : returns (log_table n) log_right.
Proof using Hk.
  destruct half_dim as (EN & EM & HNh & HM). unfold log_table. rewrite (Z.mod_small (2 * _)) by lia.
  assert (M - 1 ≡[M] -1) as E1 by (apply eqm_iff; exists 1; lia).
  assert (log_exponent M = -1) as EM1 by (unfold log_exponent; by rewrite Z.eqb_refl).
  assert (log_entries (fun _ => False) (repeat 0 (Z.to_nat M))) as H0.
  { split; [apply length_zeros|]. split; [|done]. intros x Hx Hne. exfalso. apply Hne. apply zeros_lookup. lia. }
  eapply returns_bind; [apply (log_write _ _ (M - 1) M H0); [lia|lia|by left|by rewrite EM1, E1]|]. intros t Ht.
  eapply returns_bind; [apply (returns_for (fun i (s : list Z * Z) => s.2 = 5 ^ Z.of_nat i mod M /\ log_entries (log_covered i) s.1))|].
  - cbn [fst snd]. split; [rewrite Z.mod_small; lia|]. destruct Ht as (L & Hv & Hc). split; [done|]. split; [done|].
    intros x Hx [H|(j & Hj & _)]; [|lia]. apply Hc; [done|]. right. by rewrite H, E1.
  - intros i [t' p] Hi [Ep Ht']. cbn [fst snd] in *. apply log_step; (done || lia).
  - intros [t' p] (_ & L & Hv & Hc). apply returns_ok. cbn [fst] in *. split; [done|]. intros x Hx Hodd.
    destruct (decide (t' !!! Z.to_nat x = 0)) as [E0|Hne]; [|by apply Hv]. rewrite E0.
    assert (log_exponent 0 = 1) as -> by (unfold log_exponent; rewrite (proj2 (Z.eqb_neq 0 M)) by lia; done).
    destruct (odd_covered x Hodd) as [->|Hcov]; [split; [right; lia|done]|by apply Hc in Hcov].
Qed.

(** ** The logarithms in the order of the loops *)
Definition over_logs (F : Z -> Z) : Z :=
  sumZ (Nh - 1) (fun t => F (- Z.of_nat (Nh - 1 - t))) + F M + sumZ (Nh - 1) (fun t => F (Z.of_nat (Nh - 1 - t))) + F 0.

Lemma over_logs_add F F' : over_logs (fun x => F x + F' x) = over_logs F + over_logs F'.
Proof using Type. clear. unfold over_logs. rewrite !sumZ_add. ring. Qed.
Lemma over_logs_ext F F' : (forall x, F x = F' x) -> over_logs F = over_logs F'.
Proof using Type. clear. intros H. unfold over_logs. rewrite !H. do 2 f_equal; [f_equal|]; apply sumZ_ext; intros; apply H. Qed.

Lemma over_logs_delta index (h : Z -> Z) : valid_log index -> over_logs (fun x => if decide (x = index) then h x else 0) = h index.
Proof using Hk.
  destruct half_dim as (EN & EM & HNh & HM). intros Hv. unfold over_logs.
  assert (forall sg : Z, sg = 1 \/ sg = -1 -> sumZ (Nh - 1) (fun t => if decide (sg * Z.of_nat (Nh - 1 - t) = index) then h (sg * Z.of_nat (Nh - 1 - t)) else 0) =
    if decide (0 < sg * index < Z.of_nat Nh) then h index else 0) as Hloop.
  { intros sg Hsg. destruct (decide (0 < sg * index < Z.of_nat Nh)) as [Hin|Hout].
    - rewrite (sumZ_ext _ _ (fun t => if decide (t = (Nh - 1 - Z.to_nat (sg * index))%nat) then h index else 0)).
      + apply (sumZ_delta (Nh - 1) (Nh - 1 - Z.to_nat (sg * index)) (fun _ => h index)). lia.
      + intros t Ht. destruct (decide (sg * Z.of_nat (Nh - 1 - t) = index)) as [E|E], (decide (t = (Nh - 1 - Z.to_nat (sg * index))%nat)) as [E'|E']; try done; [by rewrite E|exfalso; lia..].
    - rewrite (sumZ_ext _ _ (fun _ => 0)); [by rewrite sumZ_zero|]. intros t Ht. rewrite decide_False; [done|]. lia. }
  pose proof (Hloop 1 ltac:(by left)) as H1. pose proof (Hloop (-1) ltac:(by right)) as H2.
  rewrite (sumZ_ext _ _ (fun t => if decide (-1 * Z.of_nat (Nh - 1 - t) = index) then h (-1 * Z.of_nat (Nh - 1 - t)) else 0)).
  2: { intros t _. by replace (-1 * Z.of_nat (Nh - 1 - t)) with (- Z.of_nat (Nh - 1 - t)) by ring. }
  rewrite H2. rewrite (sumZ_ext _ (fun t => if decide (Z.of_nat (Nh - 1 - t) = index) then _ else 0) (fun t => if decide (1 * Z.of_nat (Nh - 1 - t) = index) then h (1 * Z.of_nat (Nh - 1 - t)) else 0)).
  2: { intros t _. by rewrite Z.mul_1_l. }
  rewrite H1. clear H1 H2 Hloop. destruct Hv as [->|Hv].
  - rewrite decide_False, (decide_True (P := M = M)), decide_False, (decide_False (P := 0 = M)) by lia. ring.
  - rewrite (decide_False (P := M = index)) by lia.
    destruct (decide (0 < -1 * index < Z.of_nat Nh)), (decide (0 < 1 * index < Z.of_nat Nh)), (decide (0 = index)) as [<-|]; lia.
Qed.

(** A sum over the entries is the sum over their logarithms. *)
Lemma over_logs_swap nn (idx : nat -> Z) (f : nat -> Z) (h : Z -> Z) : (forall i, (i < nn)%nat -> valid_log (idx i)) ->
  over_logs (fun x => h x * sumZ nn (fun i => if decide (idx i = x) then f i else 0)) = sumZ nn (fun i => h (idx i) * f i).
Proof using Hk.
  induction nn as [|nn IH]; intros Hv; cbn [sumZ].
  - unfold over_logs. rewrite (sumZ_ext _ _ (fun _ => 0)), (sumZ_ext _ (fun t => h (Z.of_nat _) * 0) (fun _ => 0)), !sumZ_zero by (intros; ring). ring.
  - rewrite <- IH by (intros; apply Hv; lia). rewrite <- (over_logs_delta (idx nn) (fun x => h x * f nn)) by (apply Hv; lia).
    rewrite <- over_logs_add. apply over_logs_ext. intros x. destruct (decide (idx nn = x)), (decide (x = idx nn)); try congruence; ring.
Qed.
End LogTable.
