(* ===== verification/RgswFacts.v ===== *)
(** * External products

    What the operations of [RgswAcc] compute on ring elements.  An RGSW
    encryption of [mu] is a list of rows whose phases are the multiples of
    [mu] by the powers of the gadget base, up to errors; multiplying the digits
    of a ciphertext with it multiplies the phase by [mu], up to an explicit
    noise.  From this follow the steps of the accumulators. *)

From Stdlib Require Import ZArith Lia String.
From stdpp Require Import base tactics numbers list strings gmap.
From S2P Require Import Prelude Double NativeInt NativeIntFacts ModArith NativeVec SchemeCore Negacyclic BitReverse Ntt NttFacts NttSpec NttRing Poly PolyFacts Automorphism Gadget RingNoise AccCore AccCoreFacts RgswAcc.

(** The parameters after [PreCompute]. *)
Record rgsw_params (ps : RingGSWCryptoParams) (q psi : Z) (k : nat) (g : Z) (G : nat) : Prop := {
  rp_N : r_N ps = (2 ^ k)%nat;
  rp_Q : r_Q ps = q;
  rp_baseG : r_baseG ps = 2 ^ g;
  rp_digitsG : r_digitsG ps = S G;
  rp_polyParams : r_polyParams ps = ring_par q psi k;
  rp_Gpower i : (i < S G)%nat -> r_Gpower ps !! i = Some (((2 ^ g) ^ Z.of_nat i) mod q);
  rp_monomials : r_method ps = GINX -> r_monomials ps = monomial_elems (q := q) (psi := psi) (k := k);
  rp_digitsR : r_method ps = AP -> r_digitsR ps = refresh_digits (r_q ps) (r_baseR ps);
  rp_logGen : r_method ps = LMKCDEY -> (2 <= k)%nat /\ log_table (2 ^ k) = Ok (r_logGen ps);
  rp_gateConst : gate_constants (r_q ps) = Ok (r_gateConst ps)
}.
Arguments rp_N {ps q psi k g G}.
Arguments rp_Q {ps q psi k g G}.
Arguments rp_baseG {ps q psi k g G}.
Arguments rp_digitsG {ps q psi k g G}.
Arguments rp_polyParams {ps q psi k g G}.
Arguments rp_Gpower {ps q psi k g G}.
Arguments rp_monomials {ps q psi k g G}.
Arguments rp_digitsR {ps q psi k g G}.
Arguments rp_logGen {ps q psi k g G}.
Arguments rp_gateConst {ps q psi k g G}.

Lemma sumZ_pairs G f : sumZ (2 * G) f = sumZ G (fun j => f (2 * j)%nat + f (2 * j + 1)%nat).
Proof.
  induction G as [|G IH]; [done|]. replace (2 * S G)%nat with (S (S (2 * G))) by lia. cbn [sumZ]. rewrite IH.
  replace (2 * G + 1)%nat with (S (2 * G)) by lia. lia.
Qed.

Section Products.
Context {st : FTT} {q psi : Z} {k : nat} {HR : RingTransform st q psi k} (arb : FTT -> NativePoly -> res (FTT * NativePoly)).
Context (g : Z) (Hg : 1 <= g <= 31) (HgQ : 2 ^ g <= q) (G : nat) (HG : (0 < G)%nat) (HGq : q <= (2 ^ g) ^ Z.of_nat (S G)).
Abbreviation B := (2 ^ g).
Abbreviation n := (2 ^ k)%nat.
Abbreviation wf := (wf_data (q := q) k).
Abbreviation slot_ := (slot q psi k).
Abbreviation of_ := (poly_of q psi k).
Abbreviation polys_ := (polys (q := q) (psi := psi) (k := k)).
Abbreviation rows_ := (rows (q := q) (psi := psi) (k := k)).
Abbreviation drop := (dropped (q := q) (k := k) g G).
Abbreviation drop_bound_ := (drop_bound (q := q) g G).
Abbreviation mono_ := (mono q n).
Abbreviation mdiff_ := (mdiff (q := q) (k := k)).
Abbreviation rotated_ := (rotated (q := q) (k := k)).

#[local] Instance products_modulus : NativeModulus W q.
Proof using HR. exact rt_modulus. Qed.

(** Digit [i] of the pair: those of the first element at the even places. *)
Definition digit2 (c0 c1 : list Z) (i : nat) : list Z := gadget_digit q B k (i / 2) (if Nat.even i then c0 else c1).

Lemma digit2_wf c0 c1 i : wf (digit2 c0 c1 i).
Proof using HR. clear Hg HgQ HGq. apply gadget_digit_wf. Qed.

Lemma digit2_inf c0 c1 i : inf_le q n (B / 2) (digit2 c0 c1 i).
Proof using Hg. by apply gadget_digit_inf. Qed.

Lemma even_double j : Nat.even (2 * j) = true /\ Nat.even (2 * j + 1) = false /\ (2 * j / 2 = j)%nat /\ ((2 * j + 1) / 2 = j)%nat.
Proof using Type.
  clear. split; [|split; [|split]].
  - by rewrite Nat.even_mul.
  - rewrite Nat.even_add, Nat.even_mul. done.
  - rewrite Nat.mul_comm. by apply Nat.div_mul.
  - symmetry. apply (Nat.div_unique _ _ _ 1); lia.
Qed.

(** ** The computations *)
Context (ps : RingGSWCryptoParams) (Hps : rgsw_params ps q psi k g G).

Lemma decompose2_spec c0 c1 : wf c0 -> wf c1 ->
  decompose2 arb ps st (of_ EVALUATION c0, of_ EVALUATION c1) = Ok (st, polys_ (2 * G) (digit2 c0 c1)).
Proof using HR Hg HgQ Hps.
  clear HG HGq. intros H0 H1. unfold decompose2. cbn [fst snd].
  rewrite (rp_digitsG Hps), (rp_Q Hps), (rp_baseG Hps), (rp_N Hps), (rp_polyParams Hps).
  rewrite (SetFormat_of (HR := HR)), bind_ok by done. cbn [fst snd]. rewrite (SetFormat_of (HR := HR)), bind_ok by done. cbn [fst snd].
  rewrite (SignedDigitDecompose2_of (HR := HR) g ltac:(lia) HgQ), bind_ok by done. rewrite Nat.sub_succ, Nat.sub_0_r.
  apply (tabulateS_ok (2 * G) _ (fun i => of_ EVALUATION (digit2 c0 c1 i))). intros i Hi. rewrite (vget_lookup _ _ _ (lookup_tab _ _ _ Hi)), bind_ok.
  by rewrite (SetFormat_of (HR := HR)) by apply gadget_digit_wf.
Qed.

Definition is_times (times : NativePoly -> NativePoly -> res NativePoly) : Prop :=
  forall a b, wf a -> wf b -> times (of_ EVALUATION a) (of_ EVALUATION b) = Ok (of_ EVALUATION (rmul q n a b)).

Lemma Times_is_times : is_times Times.
Proof using HR. intros a b Ha Hb. by apply (Times_of (HR := HR)). Qed.
Lemma TimesEq_is_times : is_times TimesEq.
Proof using HR. intros a b Ha Hb. exact (Times_of (HR := HR) a b Ha Hb). Qed.

Lemma dot_with_spec times0 times m a b : is_times times0 -> is_times times -> (0 < m)%nat ->
  (forall i, (i < m)%nat -> wf (a i)) -> (forall i, (i < m)%nat -> wf (b i)) ->
  dot_with times0 times m (polys_ m a) (polys_ m b) = Ok (of_ EVALUATION (rsum q n m (fun i => rmul q n (a i) (b i)))).
Proof using HR.
  clear Hg HgQ HG HGq Hps. intros T0 T1 Hm Ha Hb. unfold dot_with. rewrite !polys_get, !bind_ok by done. rewrite T0, bind_ok by auto.
  set (F := fun i => rmul q n (a i) (b i)). assert (rsum q n m F = rsum q n (S (m - 1)) F) as -> by (replace (S (m - 1)) with m by lia; done).
  change (rmul q n (a 0%nat) (b 0%nat)) with (F 0%nat).
  rewrite <- (radd_0_l (HR := HR) (F 0%nat)) by apply rmul_wf.
  apply (for_states _ (m - 1) (fun i => of_ EVALUATION (rsum q n (S i) F))). intros i Hi.
  rewrite !polys_get, !bind_ok by lia. rewrite T1, bind_ok by (try apply Ha; try apply Hb; lia).
  by rewrite (PlusEq_of (HR := HR)); [|apply (rsum_wf (HR := HR)); intros; apply rmul_wf|apply rmul_wf].
Qed.

(** ** RGSW encryptions and their product *)
Context (s : list Z) (sg : Z) (Hs : wf s) (Hsg : 0 <= sg) (Hsl : l1_le q n sg s).

Definition rlwe_phase (c0 c1 : list Z) : list Z := rsub q c1 (rmul q n s c0).

Lemma rlwe_phase_wf c0 c1 : wf c1 -> wf (rlwe_phase c0 c1).
Proof using HR. clear Hg HgQ HGq. intros. apply rsub_wf; [done|apply rmul_wf]. Qed.

(** Row [i] has the phase [mu B^(i/2+1)], times [-s] when [i] is even. *)
Definition rgsw_rel (mu : list Z) (e A C : nat -> list Z) : Prop :=
  forall i x, (i < 2 * G)%nat -> (x < n)%nat ->
    slot_ x (C i) - slot_ x s * slot_ x (A i) ≡[q]
      slot_ x (e i) + slot_ x mu * B ^ (Z.of_nat (i / 2) + 1) * (if Nat.even i then - slot_ x s else 1).
Definition rgsw (mu : list Z) (ep : Z) (ek : RingGSWEvalKey) : Prop :=
  exists e A C, ek = rows_ (2 * G) A C /\ rgsw_rel mu e A C /\
    forall i, (i < 2 * G)%nat -> wf (e i) /\ wf (A i) /\ wf (C i) /\ l1_le q n ep (e i).

Definition product (h : nat -> list Z) (c0 c1 : list Z) : list Z := rsum q n (2 * G) (fun i => rmul q n (digit2 c0 c1 i) (h i)).
Definition ext_noise (mu : list Z) (e : nat -> list Z) (c0 c1 : list Z) : list Z :=
  rsub q (product e c0 c1) (rmul q n mu (rsub q (drop c1) (rmul q n s (drop c0)))).
Definition ext_bound (ep l : Z) : Z := Z.of_nat (2 * G) * (B / 2 * ep) + l * (drop_bound_ + sg * drop_bound_).

Lemma product_wf h c0 c1 : wf (product h c0 c1).
Proof using HR. clear Hg HgQ HGq. apply (rsum_wf (HR := HR)). intros. apply rmul_wf. Qed.

Lemma slot_product x h c0 c1 : (x < n)%nat -> (forall i, (i < 2 * G)%nat -> wf (h i)) ->
  slot_ x (product h c0 c1) ≡[q] sumZ (2 * G) (fun i => slot_ x (digit2 c0 c1 i) * slot_ x (h i)).
Proof using HR. clear Hg HgQ HGq. intros Hx Hh. apply (slot_dot (HR := HR)); [done|intros; apply digit2_wf|done]. Qed.

Lemma ext_phase mu e A C c0 c1 : wf mu -> wf c0 -> wf c1 -> rgsw_rel mu e A C ->
  (forall i, (i < 2 * G)%nat -> wf (e i) /\ wf (A i) /\ wf (C i)) ->
  rlwe_phase (product A c0 c1) (product C c0 c1) = radd q (rmul q n mu (rlwe_phase c0 c1)) (ext_noise mu e c0 c1).
Proof using HR Hg Hs.
  clear HgQ HG HGq Hps Hsl. intros Hmu H0 H1 Hrel Hw.
  pose proof (dropped_wf (HR := HR) g G c0) as D0. pose proof (dropped_wf (HR := HR) g G c1) as D1.
  pose proof (rmul_wf k s (drop c0)) as W1. pose proof (rsub_wf k _ _ D1 W1) as W2. pose proof (rmul_wf k mu (rsub q (drop c1) (rmul q n s (drop c0)))) as W3.
  pose proof (product_wf e c0 c1) as W4. pose proof (product_wf A c0 c1) as W5. pose proof (product_wf C c0 c1) as W6.
  pose proof (rmul_wf k s (product A c0 c1)) as W7. pose proof (rmul_wf k s c0) as W8. pose proof (rlwe_phase_wf c0 c1 H1) as W9.
  pose proof (rmul_wf k mu (rlwe_phase c0 c1)) as W10. pose proof (rsub_wf k _ _ W4 W3) as W11.
  unfold ext_noise. apply (slot_ext (HR := HR)); [by apply rlwe_phase_wf|by apply radd_wf|]. intros x Hx. unfold rlwe_phase in *.
  repeat first [rewrite (slot_rsub (HR := HR)) by done | rewrite (slot_radd (HR := HR)) by done | rewrite (slot_rmul (HR := HR)) by done].
  rewrite !slot_product by (done || (intros; by apply Hw)).
  rewrite <- sumZ_scale, <- sumZ_sub.
  rewrite (sumZ_eqm q (2 * G) _ (fun i => slot_ x (digit2 c0 c1 i) * slot_ x (e i) +
    slot_ x mu * (B ^ (Z.of_nat (i / 2) + 1) * slot_ x (digit2 c0 c1 i) * (if Nat.even i then - slot_ x s else 1)))).
  2: { intros i Hi. transitivity (slot_ x (digit2 c0 c1 i) * (slot_ x (C i) - slot_ x s * slot_ x (A i))); [apply eqm_refl; ring|].
       rewrite (Hrel i x Hi Hx). apply eqm_refl. ring. }
  rewrite sumZ_add, sumZ_scale, (sumZ_pairs G (fun i => B ^ _ * _ * _)).
  rewrite (sumZ_ext G _ (fun j => B ^ (Z.of_nat j + 1) * slot_ x (gadget_digit q B k j c1) - slot_ x s * (B ^ (Z.of_nat j + 1) * slot_ x (gadget_digit q B k j c0)))).
  2: { intros j Hj. destruct (even_double j) as (E1 & E2 & E3 & E4). unfold digit2. rewrite E1, E2, E3, E4. ring. }
  rewrite sumZ_sub, sumZ_scale, !(slot_gadget (HR := HR) g Hg G) by done. apply eqm_refl. ring.
Qed.

Lemma ext_noise_bound mu e c0 c1 ep l : wf mu -> 0 <= ep -> 0 <= l -> l1_le q n l mu ->
  (forall i, (i < 2 * G)%nat -> wf (e i) /\ l1_le q n ep (e i)) -> wf c0 -> wf c1 ->
  wf (ext_noise mu e c0 c1) /\ inf_le q n (ext_bound ep l) (ext_noise mu e c0 c1).
Proof using HR Hg HGq Hsg Hsl.
  clear HgQ HG Hps. intros Hmu Hep Hl Bmu He H0 H1. pose proof (drop_bound_nonneg (q := q) g Hg G HGq) as Hd.
  assert (0 <= B / 2) as HB2 by (apply Z.div_pos; [apply Z.pow_nonneg|]; lia).
  pose proof (dropped_wf (HR := HR) g G c0) as D0. pose proof (dropped_wf (HR := HR) g G c1) as D1.
  pose proof (rmul_wf k s (drop c0)) as W1. pose proof (rsub_wf k _ _ D1 W1) as W2. pose proof (rmul_wf k mu (rsub q (drop c1) (rmul q n s (drop c0)))) as W3.
  pose proof (product_wf e c0 c1) as W4. split; [by apply rsub_wf|]. unfold ext_bound.
  apply inf_rsub; [apply W4|apply W3| |].
  - apply (inf_rsum (HR := HR)); [intros; apply rmul_wf|]. intros i Hi. destruct (He i Hi) as [We Be].
    apply (inf_rmul_r (HR := HR)); [apply digit2_wf|done|done|apply digit2_inf|done].
  - apply inf_rmul; [nia|done|]. apply inf_rsub; [apply D1|apply W1|by apply (dropped_inf (HR := HR))|].
    apply inf_rmul; [done|done|]. by apply (dropped_inf (HR := HR)).
Qed.

(** ** One step of an accumulator *)
Definition rlwe_state (v : list Z) (T b : Z) (acc : RLWECiphertext) : Prop :=
  exists c0 c1, acc = (of_ EVALUATION c0, of_ EVALUATION c1) /\ wf c0 /\ wf c1 /\ rotated_ v T b (rlwe_phase c0 c1).

Lemma state_step v T b t N acc c0 c1 acc' c0' c1' : wf v -> 0 <= b -> acc = (of_ EVALUATION c0, of_ EVALUATION c1) ->
  acc' = (of_ EVALUATION c0', of_ EVALUATION c1') -> wf c0' -> wf c1' -> rotated_ v T b (rlwe_phase c0 c1) ->
  rotated_ (rlwe_phase c0 c1) t N (rlwe_phase c0' c1') -> rlwe_state v (T + t) (b + N) acc'.
Proof using HR.
  clear Hg HgQ HG HGq Hps Hs Hsg Hsl. intros Hv Hb -> -> H0 H1 Hr Hr'. exists c0', c1'. split; [done|]. split; [done|]. split; [done|].
  by apply (rotated_compose (HR := HR) v T b t N _ _ Hv Hb Hr).
Qed.

Lemma product_spec times0 times h c0 c1 : is_times times0 -> is_times times -> (forall i, (i < 2 * G)%nat -> wf (h i)) ->
  dot_with times0 times (2 * (r_digitsG ps - 1)) (polys_ (2 * G) (digit2 c0 c1)) (polys_ (2 * G) h) = Ok (of_ EVALUATION (product h c0 c1)).
Proof using HR HG Hps.
  clear Hg HgQ HGq Hs Hsg Hsl. intros T0 T1 Hh. rewrite (rp_digitsG Hps), Nat.sub_succ, Nat.sub_0_r.
  apply dot_with_spec; [done|done|lia|intros; apply digit2_wf|done].
Qed.

(** An encryption of [X^t] rotates by [t]. *)
Lemma AddToAccDM_step ek ep t v T b acc : 0 <= ep -> wf v -> 0 <= b -> rgsw (mono_ t) ep ek -> rlwe_state v T b acc ->
  returns (AddToAccDM arb ps ek acc st) (fun r => r.1 = st /\ rlwe_state v (T + t) (b + ext_bound ep 1) r.2).
Proof using All.
  intros Hep Hv Hb (e & A & C & -> & Hrel & Hw) (c0 & c1 & -> & H0 & H1 & Hr). pose proof (mono_wf (HR := HR) t) as Ht.
  unfold AddToAccDM. destruct (rows_columns (q := q) (psi := psi) (k := k) (2 * G) A C) as [-> ->]. rewrite decompose2_spec, bind_ok by done. cbn [fst snd].
  rewrite !product_spec, !bind_ok by (apply Times_is_times || apply TimesEq_is_times || (intros; by apply Hw)).
  apply returns_ok. cbn [fst snd]. split; [done|].
  apply (state_step v T b t _ _ c0 c1 _ _ _ Hv Hb eq_refl eq_refl); [apply product_wf|apply product_wf|done|].
  exists (ext_noise (mono_ t) e c0 c1). destruct (ext_noise_bound (mono_ t) e c0 c1 ep 1) as [N1 N2]; try done; try lia.
  { apply l1_mono, pow2_pos_nat. } { intros i Hi. by destruct (Hw i Hi) as (W1 & _ & _ & W2). }
  split; [done|]. split; [done|]. apply ext_phase; try done. intros i Hi. destruct (Hw i Hi) as (W1 & W2 & W3 & _). done.
Qed.

(** The ternary step: [acc + (X^c - 1) acc.RGSW(m1) + (X^-c - 1) acc.RGSW(m2)]. *)
Definition cggi_bound (ep : Z) : Z := 2 * (2 * (Z.of_nat (2 * G) * (B / 2 * ep)) + (drop_bound_ + sg * drop_bound_)).

Lemma rmul_mdiff_bound (b : Z) c a : wf a -> 0 <= b -> inf_le q n b a -> inf_le q n (2 * b) (rmul q n (mdiff_ c) a).
Proof using HR. clear Hg HgQ HG HGq Hps Hs Hsg Hsl. intros Ha Hb H. apply inf_rmul; [done|apply (l1_mdiff (HR := HR))|done]. Qed.

Lemma AddToAccCGGI_step ek1 ek2 ep c m1 m2 v T b acc : 0 <= ep -> wf v -> 0 <= b -> 0 <= c < 2 * Z.of_nat n ->
  0 <= m1 -> 0 <= m2 -> m1 + m2 <= 1 -> r_method ps = GINX ->
  rgsw (rconst (q := q) (k := k) m1) ep ek1 -> rgsw (rconst (q := q) (k := k) m2) ep ek2 -> rlwe_state v T b acc ->
  returns (AddToAccCGGI arb ps ek1 ek2 c acc st) (fun r => r.1 = st /\ rlwe_state v (T + c * (m1 - m2)) (b + cggi_bound ep) r.2).
Proof using All.
  intros Hep Hv Hb Hc Hm1 Hm2 Hm Hmeth (e1 & A1 & C1 & -> & Hrel1 & Hw1) (e2 & A2 & C2 & -> & Hrel2 & Hw2) (c0 & c1 & -> & H0 & H1 & Hr).
  pose proof (mdiff_wf (HR := HR) c) as D1. pose proof (mdiff_wf (HR := HR) (- c)) as D2.
  assert (forall a b, wf a -> wf b -> wf (radd q a b)) as Hadd by (intros; by apply radd_wf).
  assert (forall h c', wf (mdiff_ c') -> wf (rmul q n (product h c0 c1) (mdiff_ c'))) as Hpw by (intros; apply rmul_wf).
  unfold AddToAccCGGI. destruct (rows_columns (q := q) (psi := psi) (k := k) (2 * G) A1 C1) as [-> ->].
  destruct (rows_columns (q := q) (psi := psi) (k := k) (2 * G) A2 C2) as [-> ->]. rewrite decompose2_spec, bind_ok by done. cbn [fst snd].
  unfold GetMonomial. rewrite (rp_monomials Hps Hmeth), (rp_N Hps), (monomial_index_at (HR := HR)), bind_ok, (monomial_neg_at (HR := HR)), bind_ok by done.
  assert (forall h, wf (product h c0 c1)) as Hp by (intros; apply product_wf).
  rewrite (product_spec _ _ A1), bind_ok by (apply Times_is_times || apply TimesEq_is_times || (intros; by apply Hw1)).
  rewrite TimesEq_is_times, bind_ok by auto. rewrite (PlusEq_of (HR := HR)), bind_ok by auto.
  rewrite (product_spec _ _ C1), bind_ok by (apply Times_is_times || apply TimesEq_is_times || (intros; by apply Hw1)).
  rewrite TimesEq_is_times, bind_ok by auto. rewrite (PlusEq_of (HR := HR)), bind_ok by auto.
  rewrite (product_spec _ _ A2), bind_ok by (apply Times_is_times || apply TimesEq_is_times || (intros; by apply Hw2)).
  rewrite TimesEq_is_times, bind_ok by auto. rewrite (PlusEq_of (HR := HR)), bind_ok by auto.
  rewrite (product_spec _ _ C2), bind_ok by (apply Times_is_times || apply TimesEq_is_times || (intros; by apply Hw2)).
  rewrite TimesEq_is_times, bind_ok by auto. rewrite (PlusEq_of (HR := HR)), bind_ok by auto.
  apply returns_ok. cbn [fst snd]. split; [done|].
  apply (state_step v T b _ _ _ c0 c1 _ _ _ Hv Hb eq_refl eq_refl); [auto|auto|done|].
  set (mu1 := rconst (q := q) (k := k) m1) in *. set (mu2 := rconst (q := q) (k := k) m2) in *.
  pose proof (rconst_wf (HR := HR) m1) as M1. pose proof (rconst_wf (HR := HR) m2) as M2. fold mu1 in M1. fold mu2 in M2.
  set (n1 := ext_noise mu1 e1 c0 c1). set (n2 := ext_noise mu2 e2 c0 c1).
  assert (l1_le q n m1 mu1 /\ l1_le q n m2 mu2) as [L1 L2].
  { rewrite <- (Z.abs_eq m1), <- (Z.abs_eq m2) at 1 by lia. split; apply (l1_rconst (q := q) (k := k)). }
  destruct (ext_noise_bound mu1 e1 c0 c1 ep m1) as [N1 B1]; try done. { intros i Hi. by destruct (Hw1 i Hi) as (W1 & _ & _ & W2). }
  destruct (ext_noise_bound mu2 e2 c0 c1 ep m2) as [N2 B2]; try done. { intros i Hi. by destruct (Hw2 i Hi) as (W1 & _ & _ & W2). }
  fold n1 in N1, B1. fold n2 in N2, B2.
  pose proof (rmul_wf k (mdiff_ c) n1) as R1. pose proof (rmul_wf k (mdiff_ (- c)) n2) as R2.
  exists (radd q (rmul q n (mdiff_ c) n1) (rmul q n (mdiff_ (- c)) n2)). split; [by apply radd_wf|]. split.
  - pose proof (drop_bound_nonneg (q := q) g Hg G HGq) as Hd. assert (0 <= B / 2) as HB2 by (apply Z.div_pos; [apply Z.pow_nonneg|]; lia).
    assert (0 <= drop_bound_ + sg * drop_bound_) as HD by nia. unfold cggi_bound. set (D := drop_bound_ + sg * drop_bound_) in *. set (E := Z.of_nat (2 * G) * (B / 2 * ep)).
    assert (0 <= E) as HE by (unfold E; nia).
    apply (inf_le_mono _ _ (2 * ext_bound ep m1 + 2 * ext_bound ep m2)).
    { unfold ext_bound. fold E D. assert (m1 * D + m2 * D <= D) by nia. lia. }
    apply inf_radd; [apply R1|apply R2| |]; (apply rmul_mdiff_bound; [done| |done]); unfold ext_bound; fold E D; nia.
  - assert (forall i, (i < 2 * G)%nat -> wf (e1 i) /\ wf (A1 i) /\ wf (C1 i)) as W1 by (intros i Hi; destruct (Hw1 i Hi) as (? & ? & ? & _); done).
    assert (forall i, (i < 2 * G)%nat -> wf (e2 i) /\ wf (A2 i) /\ wf (C2 i)) as W2 by (intros i Hi; destruct (Hw2 i Hi) as (? & ? & ? & _); done).
    pose proof (ext_phase mu1 e1 A1 C1 c0 c1 M1 H0 H1 Hrel1 W1) as P1. pose proof (ext_phase mu2 e2 A2 C2 c0 c1 M2 H0 H1 Hrel2 W2) as P2. fold n1 in P1. fold n2 in P2.
    set (t := c * (m1 - m2)). pose proof (mono_wf (HR := HR) t) as Mt. pose proof (rlwe_phase_wf c0 c1 H1) as Wp.
    set (ph := rlwe_phase c0 c1) in *.
    pose proof (Hpw A1 c D1) as A1w. pose proof (Hpw C1 c D1) as C1w. pose proof (Hpw A2 _ D2) as A2w. pose proof (Hpw C2 _ D2) as C2w.
    apply (slot_ext (HR := HR)); [apply rlwe_phase_wf; auto|apply radd_wf; [apply rmul_wf|by apply radd_wf]|]. intros x Hx.
    pose proof (f_equal (slot_ x) P1) as E1. pose proof (f_equal (slot_ x) P2) as E2.
    assert (slot_ x ph ≡[q] slot_ x c1 - slot_ x s * slot_ x c0) as Eph.
    { unfold ph, rlwe_phase. by rewrite (slot_rsub (HR := HR)), (slot_rmul (HR := HR)) by (done || apply rmul_wf). }
    assert (forall mu N A C, wf mu -> wf N -> slot_ x (rlwe_phase (product A c0 c1) (product C c0 c1)) = slot_ x (radd q (rmul q n mu ph) N) ->
      slot_ x (product C c0 c1) - slot_ x s * slot_ x (product A c0 c1) ≡[q] slot_ x mu * slot_ x ph + slot_ x N) as Hex.
    { intros mu N A C Wm WN E. unfold rlwe_phase in E. rewrite <- (slot_rmul (HR := HR)), <- (slot_rsub (HR := HR)) by (done || apply rmul_wf). rewrite E.
      by rewrite (slot_radd (HR := HR)), (slot_rmul (HR := HR)) by (done || apply rmul_wf). }
    apply (Hex mu1 n1 A1 C1 M1 N1) in E1. apply (Hex mu2 n2 A2 C2 M2 N2) in E2. unfold rlwe_phase.
    rewrite (slot_rsub (HR := HR)), (slot_rmul (HR := HR)) by (done || apply rmul_wf || auto).
    rewrite !(slot_radd (HR := HR)) by (done || apply rmul_wf || auto). rewrite !(slot_rmul (HR := HR)) by (done || auto).
    rewrite !(slot_mdiff (HR := HR)) by done. set (y := slot_ x (mono_ c)) in *. set (y' := slot_ x (mono_ (- c))) in *.
    transitivity (slot_ x c1 - slot_ x s * slot_ x c0 + (y - 1) * (slot_ x (product C1 c0 c1) - slot_ x s * slot_ x (product A1 c0 c1)) +
      (y' - 1) * (slot_ x (product C2 c0 c1) - slot_ x s * slot_ x (product A2 c0 c1))); [apply eqm_refl; ring|].
    rewrite E1, E2, <- Eph. unfold mu1, mu2. rewrite !(slot_rconst (HR := HR)). unfold t.
    assert ((m1 = 0 /\ m2 = 0) \/ (m1 = 1 /\ m2 = 0) \/ (m1 = 0 /\ m2 = 1)) as [[-> ->]|[[-> ->]|[-> ->]]] by lia.
    + replace (c * (0 - 0)) with 0 by lia. rewrite (mono_0 (HR := HR)). apply eqm_refl. ring.
    + replace (c * (1 - 0)) with c by lia. fold y. apply eqm_refl. ring.
    + replace (c * (0 - 1)) with (- c) by lia. fold y'. apply eqm_refl. ring.
Qed.
End Products.
