(* ===== verification/RgswRotation.v ===== *)
(** * Blind rotations

    The loops of [RingGSWAccumulatorCGGI] and [RingGSWAccumulatorDM] multiply
    the phase of an accumulator by a monomial whose exponent is the inner
    product of the negated mask with the secret; [BlindRotation] is what a
    bootstrapping needs of them. *)

From Stdlib Require Import ZArith Lia String.
From stdpp Require Import base tactics numbers list strings gmap.
From S2P Require Import Prelude Double NativeInt NativeIntFacts ModArith NativeVec SchemeCore Negacyclic BitReverse Ntt NttFacts NttSpec NttRing Poly PolyFacts Automorphism Gadget RingNoise AccCore AccCoreFacts RgswAcc RgswFacts.

(** ** The interface

    [eval] on the accumulator [(0, v)] and the mask [a] modulo [mod_] rotates
    [v] by [- (2 N / mod_) (<a, t> + d)], for an error [d] of at most
    [slack]. *)
Class BlindRotation {st : FTT} {q psi : Z} {k : nat} {HR : RingTransform st q psi k} (s : list Z)
    (eval : RLWECiphertext -> NativeVector -> FTT -> res (FTT * RLWECiphertext)) (mod_ : Z) (nn : nat) (t : nat -> Z) (slack bound : Z) : Prop := {
  br_bound : 0 <= slack /\ 0 <= bound;
  br_rotates v a : wf_data (q := q) k v -> (forall i, (i < nn)%nat -> reduced mod_ (a i)) ->
    returns (eval (poly_of q psi k EVALUATION (rzero (2 ^ k)), poly_of q psi k EVALUATION v) (NVec mod_ (map a (seq 0 nn))) st)
      (fun r => r.1 = st /\ exists d, Z.abs d <= slack /\
         rlwe_state (q := q) (psi := psi) (k := k) s v (- (2 * 2 ^ Z.of_nat k / mod_) * (sumZ nn (fun i => a i * t i) + d)) bound r.2)
}.

Section Rotation.
Context {st : FTT} {q psi : Z} {k : nat} {HR : RingTransform st q psi k} (arb : FTT -> NativePoly -> res (FTT * NativePoly)).
Context (g : Z) (Hg : 1 <= g <= 31) (HgQ : 2 ^ g <= q) (G : nat) (HG : (0 < G)%nat) (HGq : q <= (2 ^ g) ^ Z.of_nat (S G)).
Context (ps : RingGSWCryptoParams) (Hps : rgsw_params ps q psi k g G).
Context (s : list Z) (sg : Z) (Hs : wf_data (q := q) k s) (Hsg : 0 <= sg) (Hsl : l1_le q (2 ^ k) sg s).
Context (ep : Z) (Hep : 0 <= ep).
Abbreviation B := (2 ^ g).
Abbreviation n := (2 ^ k)%nat.
Abbreviation wf := (wf_data (q := q) k).
Abbreviation of_ := (poly_of q psi k).
Abbreviation mono_ := (mono q n).
Abbreviation rgsw_ := (rgsw (q := q) (psi := psi) (k := k) g G s).
Abbreviation state_ := (rlwe_state (q := q) (psi := psi) (k := k) s).

#[local] Instance rotation_modulus : NativeModulus W q.
Proof using HR. exact rt_modulus. Qed.

Lemma state_start v : wf v -> state_ v 0 0 (of_ EVALUATION (rzero n), of_ EVALUATION v).
Proof using HR Hs.
  intros Hv. pose proof (rzero_wf (q := q) k) as Wz. pose proof (rmul_wf k s (rzero n)) as Wm. exists (rzero n), v. split; [done|]. split; [done|]. split; [done|].
  assert (rlwe_phase (q := q) (k := k) s (rzero n) v = v) as ->; [|by apply (rotated_start (HR := HR))].
  unfold rlwe_phase. apply (slot_ext (HR := HR)); [by apply rsub_wf|done|]. intros x Hx.
  rewrite (slot_rsub (HR := HR)), (slot_rmul (HR := HR)), (slot_rzero (HR := HR)) by done. apply eqm_refl. ring.
Qed.

Lemma state_periodic v T T' b acc : T ≡[2 * Z.of_nat n] T' -> state_ v T b acc -> state_ v T' b acc.
Proof using Type. clear. intros HT (c0 & c1 & E & H0 & H1 & H). exists c0, c1. split; [done|]. split; [done|]. split; [done|]. by apply (rotated_periodic v T). Qed.

Lemma state_mono v T b b' acc : b <= b' -> state_ v T b acc -> state_ v T b' acc.
Proof using Type. clear. intros HT (c0 & c1 & E & H0 & H1 & H). exists c0, c1. split; [done|]. split; [done|]. split; [done|]. by apply (rotated_mono v T b). Qed.

(** A loop of rotations. *)
Lemma state_loop v m (t : nat -> Z) (b b1 : Z) T0 (F : nat -> FTT * RLWECiphertext -> res (FTT * RLWECiphertext)) acc :
  0 <= b -> 0 <= b1 -> state_ v T0 b acc ->
  (forall i T b' acc, (i < m)%nat -> 0 <= b' -> state_ v T b' acc -> returns (F i (st, acc)) (fun r => r.1 = st /\ state_ v (T + t i) (b' + b1) r.2)) ->
  returns (for_ m F (st, acc)) (fun r => r.1 = st /\ state_ v (T0 + sumZ m t) (b + Z.of_nat m * b1) r.2).
Proof using Type.
  clear. intros Hb Hb1 H0 Hstep. apply (returns_for (fun i (x : FTT * RLWECiphertext) => x.1 = st /\ state_ v (T0 + sumZ i t) (b + Z.of_nat i * b1) x.2)).
  - split; [done|]. cbn [sumZ snd]. by rewrite Z.add_0_r, Z.mul_0_l, Z.add_0_r.
  - intros i [st' acc'] Hi [E Hx]. cbn [fst snd] in *. subst st'. eapply returns_mono; [apply (Hstep i (T0 + sumZ i t) (b + Z.of_nat i * b1) _ Hi); [nia|exact Hx]|].
    intros r [E1 E2]. split; [done|]. cbn [sumZ]. rewrite Z.add_assoc.
    by replace (b + Z.of_nat (S i) * b1) with (b + Z.of_nat i * b1 + b1) by lia.
Qed.

(** ** GINX *)
Definition cggi_keys (t : nat -> Z) (nn : nat) (ek : RingGSWACCKey) : Prop :=
  forall i, (i < nn)%nat -> exists k1 k2, get_key ek 0 0 i = Ok k1 /\ get_key ek 0 1 i = Ok k2 /\
    rgsw_ (rconst (q := q) (k := k) (pos_bit (t i))) ep k1 /\ rgsw_ (rconst (q := q) (k := k) (neg_bit (t i))) ep k2.

(** The exponent of entry [x]: its negation times [2 N / mod_]. *)
Lemma exponent_ok mod_ x : NativeModulus W mod_ -> reduced mod_ x ->
  Mul W (ModSubFast W 0 x mod_) (2 * Z.of_nat n / mod_) = Ok ((- x) mod mod_ * (2 * Z.of_nat n / mod_)) /\
  0 <= (- x) mod mod_ * (2 * Z.of_nat n / mod_) < 2 * Z.of_nat n.
Proof using HR.
  clear - HR. intros Hm Hx. pose proof (nm_bounds (w := W) (m := mod_)) as Hb. pose proof (dim_bound (HR := HR)) as Hn. unfold reduced in Hx.
  rewrite (nm_sub (w := W)) by (unfold reduced; lia). change (0 - x) with (- x). set (y := (- x) mod mod_).
  assert (0 <= y < mod_) as Hy by (apply Z.mod_pos_bound; lia). set (F := 2 * Z.of_nat n / mod_).
  assert (0 <= F) as HF by (apply Z.div_pos; lia). assert (mod_ * F <= 2 * Z.of_nat n) as HmF by (apply Z.mul_div_le; lia).
  assert (0 <= y * F < 2 * Z.of_nat n) as Hr by nia. split; [|done].
  unfold Mul, MulFast. cbn [NATIVEINT_DO_CHECKS]. rewrite wrap_small by (change (2 ^ W) with (2 ^ 64); lia). f_equal. ring.
Qed.

Lemma drop_nonneg : 0 <= drop_bound (q := q) g G + sg * drop_bound (q := q) g G /\ 0 <= B / 2.
Proof using Hg HG HGq Hsg.
  pose proof (drop_bound_nonneg (q := q) g Hg G HGq) as Hd. split; [nia|]. apply Z.div_pos; [by apply Z.pow_nonneg|lia].
Qed.

Lemma EvalAcc_CGGI_spec ek (t a : nat -> Z) nn mod_ v T b acc :
  r_method ps = GINX -> NativeModulus W mod_ -> (forall i, (i < nn)%nat -> -1 <= t i <= 1) -> (forall i, (i < nn)%nat -> reduced mod_ (a i)) ->
  cggi_keys t nn ek -> wf v -> 0 <= b -> state_ v T b acc ->
  returns (EvalAcc_CGGI arb ps ek acc (NVec mod_ (map a (seq 0 nn))) st) (fun r => r.1 = st /\
    state_ v (T + sumZ nn (fun i => (- a i) mod mod_ * (2 * Z.of_nat n / mod_) * t i)) (b + Z.of_nat nn * cggi_bound (q := q) g G sg ep) r.2).
Proof using All.
  intros Hmeth Hm Ht Ha Hek Hv Hb Hacc. pose proof (nm_bounds (w := W) (m := mod_)) as Hmb. pose proof (dim_bound (HR := HR)) as Hn. destruct drop_nonneg as [HD HB].
  unfold EvalAcc_CGGI. cbn [modulus data]. rewrite (rp_N Hps), Z.mod_small by lia. unfold DividedBy. rewrite (proj2 (Z.eqb_neq mod_ 0)), bind_ok, length_tab by lia.
  apply state_loop; [done|unfold cggi_bound; nia|done|]. intros i T' b' acc' Hi Hb' Hacc'. cbn [fst snd].
  destruct (Hek i Hi) as (k1 & k2 & -> & -> & R1 & R2). rewrite !bind_ok, (vget_lookup _ _ _ (lookup_tab _ _ _ Hi)), bind_ok.
  destruct (exponent_ok mod_ (a i) Hm (Ha i Hi)) as [-> He]. rewrite bind_ok. destruct (ternary_bits _ (Ht i Hi)) as (B1 & B2 & B3 & B4).
  rewrite <- B4. by apply (AddToAccCGGI_step (HR := HR) arb g Hg HgQ G HG HGq ps Hps s sg Hs Hsg Hsl).
Qed.
(** ** AP *)
Definition dm_keys (t : nat -> Z) (nn : nat) (mod_ R : Z) (ek : RingGSWACCKey) : Prop :=
  forall i j l, (i < nn)%nat -> (0 < j < Z.to_nat R)%nat -> (l < digit_count R mod_)%nat ->
    exists key, get_key ek i j l = Ok key /\ rgsw_ (mono_ (t i * Z.of_nat j * R ^ Z.of_nat l * (2 * Z.of_nat n / mod_))) ep key.

(** The digits of one entry [v] of the negated mask. *)
Lemma dm_digits ek (t : nat -> Z) nn mod_ R i x v T b acc : 2 <= R < 2 ^ 32 -> 0 < mod_ < 2 ^ 64 -> (i < nn)%nat -> 0 <= x < mod_ ->
  dm_keys t nn mod_ R ek -> wf v -> 0 <= b -> state_ v T b acc ->
  returns (y ← for_ (digit_count R mod_) (fun l (y : Z * (FTT * RLWECiphertext)) =>
          a0 ← NativeInt.Mod y.1 R;
          let a0 := ConvertToInt 32 a0 in
          acc ← (if a0 =? 0 then Ok y.2 else key ← get_key ek i (Z.to_nat a0) l; AddToAccDM arb ps key y.2.2 y.2.1);
          aI ← DividedBy y.1 R;
          Ok (aI, acc)) (x, (st, acc)); Ok y.2)
    (fun r => r.1 = st /\ state_ v (T + x * (2 * Z.of_nat n / mod_) * t i) (b + Z.of_nat (digit_count R mod_) * ext_bound (q := q) g G sg ep 1) r.2).
Proof using All.
  intros HR2 Hm Hi Hx Hek Hv Hb Hacc. destruct drop_nonneg as [HD HB]. set (F := 2 * Z.of_nat n / mod_). set (E := ext_bound (q := q) g G sg ep 1).
  assert (0 <= E) as HE by (unfold E, ext_bound; nia). set (d := digit_count R mod_).
  assert (x < R ^ Z.of_nat d) as Hxd by (pose proof (digit_count_enough R mod_ ltac:(lia) Hm); unfold d; lia).
  eapply returns_bind; [apply (returns_for (fun l (y : Z * (FTT * RLWECiphertext)) => y.1 = x / R ^ Z.of_nat l /\ y.2.1 = st /\
    state_ v (T + sumZ l (fun j => digit R x j * R ^ Z.of_nat j) * F * t i) (b + Z.of_nat l * E) y.2.2))|].
  - cbn [fst snd sumZ]. rewrite Z.pow_0_r, Z.div_1_r. split; [done|]. split; [done|]. by replace (T + 0 * F * t i) with T by ring; replace (b + Z.of_nat 0 * E) with b by ring.
  - intros l [aI [st' acc']] Hl (E1 & E2 & Hy). cbn [fst snd] in *. subst aI st'.
    pose proof (digit_range R x l ltac:(lia)) as Hd. fold (digit R x l). unfold NativeInt.Mod, umod. rewrite (proj2 (Z.eqb_neq R 0)), bind_ok by lia.
    fold (digit R x l). unfold ConvertToInt. rewrite Z.mod_small by lia.
    assert (returns (if digit R x l =? 0 then Ok (st, acc') else key ← get_key ek i (Z.to_nat (digit R x l)) l; AddToAccDM arb ps key acc' st)
      (fun r => r.1 = st /\ state_ v (T + sumZ (S l) (fun j => digit R x j * R ^ Z.of_nat j) * F * t i) (b + Z.of_nat (S l) * E) r.2)) as Hstep.
    { cbn [sumZ]. destruct (Z.eqb_spec (digit R x l) 0) as [E0|Hne].
      - apply returns_ok. split; [done|]. cbn [snd]. rewrite E0, Z.mul_0_l, Z.add_0_r. apply (state_mono v _ (b + Z.of_nat l * E)); [nia|done].
      - destruct (Hek i (Z.to_nat (digit R x l)) l Hi ltac:(lia) Hl) as (key & -> & Hkey). rewrite bind_ok.
        eapply returns_mono; [apply (AddToAccDM_step (HR := HR) arb g Hg HgQ G HG HGq ps Hps s sg Hs Hsg Hsl key ep _ v _ (b + Z.of_nat l * E) _ Hep Hv ltac:(nia) Hkey Hy)|].
        intros r [E1 E2]. split; [done|]. rewrite Z2Nat.id in E2 by lia. fold F E in E2.
        replace (b + Z.of_nat (S l) * E) with (b + Z.of_nat l * E + E) by lia. eapply state_periodic; [|exact E2]. apply eqm_refl. ring. }
    eapply returns_bind; [exact Hstep|]. intros [st' acc''] [E1 E2]. unfold DividedBy. rewrite (proj2 (Z.eqb_neq R 0)), bind_ok by lia.
    apply returns_ok. cbn [fst snd] in *. split; [|done]. apply digit_step. lia.
  - intros [aI [st' acc']] (_ & E2 & Hy). apply returns_ok. cbn [fst snd] in *. split; [done|]. by rewrite digits_sum in Hy by lia.
Qed.

Lemma EvalAcc_DM_spec ek (t a : nat -> Z) nn mod_ m_ v T b acc :
  r_method ps = AP -> r_q ps = mod_ -> 2 <= r_baseR ps < 2 ^ 32 -> NativeModulus W mod_ -> (forall i, (i < nn)%nat -> reduced mod_ (a i)) ->
  dm_keys t nn mod_ (r_baseR ps) ek -> wf v -> 0 <= b -> state_ v T b acc ->
  returns (EvalAcc_DM arb ps ek acc (NVec m_ (map a (seq 0 nn))) st) (fun r => r.1 = st /\
    state_ v (T + sumZ nn (fun i => (- a i) mod mod_ * (2 * Z.of_nat n / mod_) * t i))
      (b + Z.of_nat nn * (Z.of_nat (digit_count (r_baseR ps) mod_) * ext_bound (q := q) g G sg ep 1)) r.2).
Proof using All.
  intros Hmeth Eq HR2 Hm Ha Hek Hv Hb Hacc. pose proof (nm_bounds (w := W) (m := mod_)) as Hmb. pose proof (nm_double (w := W) (m := mod_)) as Hm2. destruct drop_nonneg as [HD HB].
  assert (0 <= ext_bound (q := q) g G sg ep 1) as HE by (unfold ext_bound; nia).
  unfold EvalAcc_DM. cbn [data]. rewrite length_tab, Eq, (rp_digitsR Hps Hmeth), Eq; unfold refresh_digits; rewrite length_powers_loop. eapply returns_bind; [|intros r Hr; apply returns_ok; exact Hr].
  apply state_loop; [done|nia|done|]. intros i T' b' acc' Hi Hb' Hacc'. rewrite (vget_lookup _ _ _ (lookup_tab _ _ _ Hi)), bind_ok.
  pose proof (Ha i Hi) as Hai. unfold reduced in Hai. rewrite (nm_sub (w := W)) by (unfold reduced; lia). change (0 - a i) with (- a i).
  change (2 ^ W) with (2 ^ 64) in Hm2. apply (dm_digits ek t nn); try done; [lia|]. apply Z.mod_pos_bound. lia.
Qed.

(** ** The two loops as blind rotations *)
Lemma negated_exponent mod_ (t a : nat -> Z) nn : 0 < mod_ -> (mod_ | 2 * Z.of_nat n) ->
  0 + sumZ nn (fun i => (- a i) mod mod_ * (2 * Z.of_nat n / mod_) * t i) ≡[2 * Z.of_nat n] - (2 * 2 ^ Z.of_nat k / mod_) * (sumZ nn (fun i => a i * t i) + 0).
Proof using Type.
  clear. intros Hm [c Hc]. replace (2 * 2 ^ Z.of_nat k) with (2 * Z.of_nat n) by (by rewrite Nat2Z.inj_pow). rewrite Hc, Z.div_mul, Z.add_0_l, Z.add_0_r by lia.
  rewrite <- sumZ_scale. apply sumZ_eqm. intros i Hi. apply eqm_iff. exists (- ((- a i) / mod_) * t i).
  pose proof (Z.div_mod (- a i) mod_ ltac:(lia)) as E. replace (- c * (a i * t i)) with ((- a i) * c * t i) by ring. rewrite E at 2. ring.
Qed.

#[export] Instance cggi_rotation ek (t : nat -> Z) nn mod_ :
  r_method ps = GINX -> NativeModulus W mod_ -> (mod_ | 2 * Z.of_nat n) -> (forall i, (i < nn)%nat -> -1 <= t i <= 1) -> cggi_keys t nn ek ->
  BlindRotation (HR := HR) s (EvalAcc_CGGI arb ps ek) mod_ nn t 0 (Z.of_nat nn * cggi_bound (q := q) g G sg ep).
Proof using All.
  intros Hmeth Hm Hdiv Ht Hek. pose proof (nm_bounds (w := W) (m := mod_)) as Hmb. destruct drop_nonneg as [HD HB]. split; [unfold cggi_bound; nia|].
  intros v a Hv Ha. eapply returns_mono; [apply (EvalAcc_CGGI_spec ek t a nn mod_ v 0 0); try done; by apply state_start|].
  intros r [E1 E2]. split; [done|]. exists 0. split; [done|]. eapply state_periodic; [|exact E2]. apply negated_exponent; [lia|done].
Qed.

#[export] Instance dm_rotation ek (t : nat -> Z) nn mod_ :
  r_method ps = AP -> r_q ps = mod_ -> 2 <= r_baseR ps < 2 ^ 32 -> NativeModulus W mod_ -> (mod_ | 2 * Z.of_nat n) -> dm_keys t nn mod_ (r_baseR ps) ek ->
  BlindRotation (HR := HR) s (EvalAcc_DM arb ps ek) mod_ nn t 0 (Z.of_nat nn * (Z.of_nat (digit_count (r_baseR ps) mod_) * ext_bound (q := q) g G sg ep 1)).
Proof using All.
  intros Hmeth Eq HR2 Hm Hdiv Hek. pose proof (nm_bounds (w := W) (m := mod_)) as Hmb. destruct drop_nonneg as [HD HB].
  split; [split; [done|]; assert (0 <= ext_bound (q := q) g G sg ep 1) by (unfold ext_bound; nia); apply Z.mul_nonneg_nonneg; lia|].
  intros v a Hv Ha. eapply returns_mono; [apply (EvalAcc_DM_spec ek t a nn mod_ mod_ v 0 0); try done; by apply state_start|].
  intros r [E1 E2]. split; [done|]. exists 0. split; [done|]. eapply state_periodic; [|exact E2]. apply negated_exponent; [lia|done].
Qed.
End Rotation.
