(* ===== verification/RgswKeys.v ===== *)
(** * Keys of the RGSW accumulators

    The tables of [PreCompute], and the rows that the generators of [RgswAcc]
    make: RGSW encryptions, in the sense of [RgswFacts], of the bits of a
    ternary secret ([KeyGenCGGI]) or of a power of [X] ([KeyGenDM],
    [KeyGenLMKCDEY]); then the keys of [KeyGenAcc]. *)

From Stdlib Require Import ZArith Lia String.
From stdpp Require Import base tactics numbers list strings gmap.
From S2P Require Import Prelude Double NativeInt NativeIntFacts ModArith NativeVec SchemeCore Negacyclic BitReverse Ntt NttFacts NttSpec NttRing Poly PolyFacts Automorphism Gadget RingNoise AccCore AccCoreFacts RgswAcc LogTable RgswFacts RgswRotation.

Section Keys.
Context {st : FTT} {q psi : Z} {k : nat} {HR : RingTransform st q psi k} (arb : FTT -> NativePoly -> res (FTT * NativePoly)).
Context (g : Z) (G : nat) (ps : RingGSWCryptoParams) (Hps : rgsw_params ps q psi k g G) (HB : 0 <= 2 ^ g).
Context (s : list Z) (Hs : wf_data (q := q) k s) (ep : Z).
Abbreviation B := (2 ^ g).
Abbreviation n := (2 ^ k)%nat.
Abbreviation wf := (wf_data (q := q) k).
Abbreviation slot_ := (slot q psi k).
Abbreviation of_ := (poly_of q psi k).
Abbreviation mono_ := (mono q n).
Abbreviation rgsw_ := (rgsw (q := q) (psi := psi) (k := k) g G s).

#[local] Instance rgsw_keys_modulus : NativeModulus W q.
Proof using HR. exact rt_modulus. Qed.

(** The power of the base that is added to row [i]. *)
Definition row_power (i : nat) : Z := B ^ (Z.of_nat (i / 2) + 1).

Lemma add_power_spec neg pos i a : wf a -> (pos < n)%nat -> (i < 2 * G)%nat ->
  add_power ps neg pos i (of_ COEFFICIENT a) = Ok (of_ COEFFICIENT (radd q a (rterm q n (if (neg : bool) then - row_power i else row_power i) pos))).
Proof using HR Hps.
  clear Hs HB. intros Ha Hpos Hi. pose proof (nm_bounds (w := W) (m := q)) as Hq.
  assert (i / 2 < G)%nat as Hi2 by (apply Nat.Div0.div_lt_upper_bound; lia).
  assert (vget (r_Gpower ps) (i / 2 + 1) = Ok (row_power i mod q)) as E.
  { rewrite (vget_lookup _ _ _ (rp_Gpower Hps (i / 2 + 1) ltac:(lia))).
    unfold row_power. by replace (Z.of_nat (i / 2 + 1)) with (Z.of_nat (i / 2) + 1) by lia. }
  unfold add_power. rewrite E, bind_ok, (rp_Q Hps). unfold poly_of. destruct Ha as [La Fa]. rewrite p_get_at, bind_ok by lia.
  assert (reduced q (row_power i mod q)) as Rg by apply (nm_mod (w := W)). assert (reduced q (a !!! pos)) as Rp by (apply (entry_reduced k); by split).
  set (y := if neg then (a !!! pos - row_power i mod q) mod q else (a !!! pos + row_power i mod q) mod q).
  assert ((if neg then ModSubFastEq W (a !!! pos) (row_power i mod q) q else ModAddFastEq W (a !!! pos) (row_power i mod q) q) = y) as ->.
  { unfold y. destruct neg; [by apply (nm_sub (w := W))|by apply (nm_add (w := W))]. }
  rewrite p_set_at by lia. do 4 f_equal. assert (wf a) as Ha by done. pose proof (rterm_wf (HR := HR) (if neg then - row_power i else row_power i) pos) as Wt.
  apply (values_eq (q := q) k); [|by apply radd_wf|].
  { split; [by rewrite length_insert|]. apply Forall_insert; [done|]. unfold y. destruct neg; apply (nm_mod (w := W)). }
  intros j Hj. unfold radd. rewrite vec_op_lookup, eqm_mod, rterm_lookup by (done || rewrite ?(proj1 Wt); lia).
  destruct (decide (j = pos)) as [->|Hne].
  - rewrite list_lookup_total_insert_eq by lia. unfold y. destruct neg; rewrite !eqm_mod; apply eqm_refl; ring.
  - rewrite list_lookup_total_insert_ne by done. apply eqm_refl. ring.
Qed.

(** ** RGSW encryptions *)
Definition is_rgsw_sample (smp : RgswSample) (a : list Z) (e : nat -> list Z) : Prop :=
  rs_a smp = NVec q a /\ wf a /\ forall i, (i < 2 * G)%nat -> rs_e smp i = NVec q (e i) /\ wf (e i).
Definition good_rgsw_sample (smp : RgswSample) : Prop :=
  exists a e, is_rgsw_sample smp a e /\ forall i, (i < 2 * G)%nat -> l1_le q n ep (e i).

(** The two components of row [i] with the message [msg i]. *)
Definition row_A (a : list Z) (msg : nat -> list Z) (i : nat) : list Z := if Nat.even i then radd q a (msg i) else a.
Definition row_C (a : list Z) (msg e : nat -> list Z) (i : nat) : list Z := radd q (if Nat.even i then e i else radd q (e i) (msg i)) (rmul q n a s).

Lemma rgsw_rows_spec addmsg msg smp a e : is_rgsw_sample smp a e ->
  (forall i p, (i < 2 * G)%nat -> wf p -> wf (msg i) /\ addmsg i (of_ COEFFICIENT p) = Ok (of_ COEFFICIENT (radd q p (msg i)))) ->
  rgsw_rows arb ps (of_ EVALUATION s) addmsg smp st = Ok (st, rows (q := q) (psi := psi) (k := k) (2 * G) (row_A a msg) (row_C a msg e)).
Proof using HR Hps Hs.
  clear HB. intros (Ea & Wa & He) Hmsg. unfold rgsw_rows. rewrite (rp_digitsG Hps), Nat.sub_succ, Nat.sub_0_r.
  apply (tabulateS_ok (2 * G) _ (fun i => (of_ EVALUATION (row_A a msg i), of_ EVALUATION (row_C a msg e i)))). intros i Hi.
  destruct (He i Hi) as [Ee We]. destruct (Hmsg i a Hi Wa) as [Wm Em]. destruct (Hmsg i (e i) Hi We) as [_ Em'].
  pose proof (rmul_wf k a s) as Was. pose proof (radd_wf k _ _ Wa Wm) as Wam. pose proof (radd_wf k _ _ We Wm) as Wem.
  unfold rgsw_row. rewrite Ea, Ee, (rp_polyParams Hps).
  change (MkPoly COEFFICIENT (ring_par q psi k) (Some (NVec q a))) with (of_ COEFFICIENT a).
  change (MkPoly COEFFICIENT (ring_par q psi k) (Some (NVec q (e i)))) with (of_ COEFFICIENT (e i)).
  rewrite (SetFormat_of (HR := HR)), bind_ok by done. cbn [fst snd]. unfold row_A, row_C.
  destruct (Nat.even i); rewrite ?Em, ?Em', !bind_ok; cbn [fst snd];
    (rewrite (SetFormat_of (HR := HR)), bind_ok by done; cbn [fst snd]; rewrite (SetFormat_of (HR := HR)), bind_ok by done; cbn [fst snd];
     rewrite TimesEq_is_times, bind_ok, (PlusEq_of (HR := HR)), bind_ok by done; done).
Qed.

(** The rows encrypt [mu] when every message is [mu] times the power. *)
Lemma rgsw_made addmsg msg mu smp : good_rgsw_sample smp -> wf mu ->
  (forall i p, (i < 2 * G)%nat -> wf p -> wf (msg i) /\ addmsg i (of_ COEFFICIENT p) = Ok (of_ COEFFICIENT (radd q p (msg i)))) ->
  (forall i x, (i < 2 * G)%nat -> (x < n)%nat -> slot_ x (msg i) ≡[q] slot_ x mu * row_power i) ->
  returns (rgsw_rows arb ps (of_ EVALUATION s) addmsg smp st) (fun r => r.1 = st /\ rgsw_ mu ep r.2).
Proof using HR Hps Hs.
  clear HB. intros (a & e & Hsmp & Hb) Wmu Hmsg Hmu. rewrite (rgsw_rows_spec addmsg msg smp a e Hsmp Hmsg). destruct Hsmp as (_ & Wa & He).
  apply returns_ok. cbn [fst snd]. split; [done|]. exists e, (row_A a msg), (row_C a msg e). split; [done|].
  pose proof (rmul_wf k a s) as Was.
  assert (forall i, (i < 2 * G)%nat -> wf (e i) /\ wf (row_A a msg i) /\ wf (row_C a msg e i)) as Hw.
  { intros i Hi. destruct (He i Hi) as [_ We]. destruct (Hmsg i a Hi Wa) as [Wm _]. split; [done|]. unfold row_A, row_C.
    destruct (Nat.even i); (split; [first [done|by apply radd_wf]|apply radd_wf; first [done|by apply radd_wf]]). }
  split.
  - intros i x Hi Hx. destruct (He i Hi) as [_ We]. destruct (Hmsg i a Hi Wa) as [Wm _]. specialize (Hmu i x Hi Hx). fold (row_power i).
    pose proof (radd_wf k _ _ Wa Wm) as Wam. pose proof (radd_wf k _ _ We Wm) as Wem. unfold row_A, row_C. destruct (Nat.even i).
    + rewrite !(slot_radd (HR := HR)), (slot_rmul (HR := HR)), Hmu by done. apply eqm_refl. ring.
    + rewrite !(slot_radd (HR := HR)), (slot_rmul (HR := HR)), Hmu by done. apply eqm_refl. ring.
  - intros i Hi. destruct (Hw i Hi) as (W1 & W2 & W3). split; [done|]. split; [done|]. split; [done|]. by apply Hb.
Qed.

Lemma KeyGenCGGI_spec m smp : m = 0 \/ m = 1 -> good_rgsw_sample smp ->
  returns (KeyGenCGGI arb ps (of_ EVALUATION s) m smp st) (fun r => r.1 = st /\ rgsw_ (rconst (q := q) (k := k) m) ep r.2).
Proof using HR Hps Hs.
  clear HB. intros Hm Hsmp. unfold KeyGenCGGI. pose proof (pow2_pos_nat k) as Hn.
  apply (rgsw_made _ (fun i => if m =? 0 then rzero n else rterm q n (row_power i) 0)); [done|apply (rconst_wf (HR := HR))| |].
  - intros i p Hi Hp. destruct Hm as [-> | ->]; cbn [Z.eqb Pos.eqb].
    + split; [apply rzero_wf|]. by rewrite (radd_0_r (HR := HR)).
    + split; [apply (rterm_wf (HR := HR))|]. by apply (add_power_spec false).
  - intros i x Hi Hx. rewrite (slot_rconst (HR := HR)). destruct Hm as [-> | ->]; cbn [Z.eqb Pos.eqb].
    + rewrite (slot_rzero (HR := HR)) by done. apply eqm_refl. ring.
    + rewrite (slot_rterm (HR := HR)), Z.pow_0_r by done. apply eqm_refl. ring.
Qed.

(** All the rows share one uniform element: the first components of the rows 0
    and 1 differ by the message times the base, in the clear. *)
Definition key_message (key : RingGSWEvalKey) : res Z :=
  r0 ← vget key 0; r1 ← vget key 1;
  d ← Minus r0.1 r1.1;
  c ← SetFormat arb st d COEFFICIENT;
  x ← p_get c.2 0;
  Ok (if x =? 0 then 0 else 1).

Lemma KeyGenCGGI_reveals m smp : (0 < G)%nat -> 0 < 2 ^ g < q -> m = 0 \/ m = 1 -> good_rgsw_sample smp ->
  returns (KeyGenCGGI arb ps (of_ EVALUATION s) m smp st) (fun r => r.1 = st /\ key_message r.2 = Ok m).
Proof using HR Hps Hs.
  clear HB. intros HG Hg Hm (a & e & Hsmp & _). unfold KeyGenCGGI. pose proof (pow2_pos_nat k) as Hn.
  set (msg := fun i => if m =? 0 then rzero n else rterm q n (row_power i) 0).
  assert (forall i, wf (msg i)) as Wm by (intros i; unfold msg; destruct (_ =? _); [apply rzero_wf|apply (rterm_wf (HR := HR))]).
  pose proof Hsmp as (_ & Wa & _). rewrite (rgsw_rows_spec _ msg smp a e Hsmp).
  - apply returns_ok. split; [done|]. cbn [snd]. unfold key_message. rewrite !rows_get, !bind_ok by lia. cbn [fst]. unfold row_A. cbn [Nat.even].
    pose proof (radd_wf k _ _ Wa (Wm 0%nat)) as Wam. rewrite (Minus_of (HR := HR)), bind_ok by done.
    pose proof (rsub_wf k _ _ Wam Wa) as Wd. rewrite (SetFormat_of (HR := HR)), bind_ok by done. cbn [snd].
    assert (rsub q (radd q a (msg 0%nat)) a = msg 0%nat) as ->.
    { apply (slot_ext (HR := HR)); [done|apply Wm|]. intros x Hx. rewrite (slot_rsub (HR := HR)), (slot_radd (HR := HR)) by done. apply eqm_refl. ring. }
    assert (p_get (of_ COEFFICIENT (msg 0%nat)) 0 = Ok (msg 0%nat !!! 0%nat)) as -> by (apply p_get_at; destruct (Wm 0%nat); lia). rewrite bind_ok. f_equal.
    unfold msg. destruct Hm as [-> | ->]; cbn [Z.eqb Pos.eqb].
    + unfold rzero. by rewrite zeros_lookup.
    + rewrite rterm_lookup, decide_True by done. unfold row_power. change (Z.of_nat (0 / 2) + 1) with 1. rewrite Z.pow_1_r, Z.mod_small, (proj2 (Z.eqb_neq _ _)) by lia. done.
  - intros i p Hi Hp. split; [apply Wm|]. unfold msg. destruct Hm as [-> | ->]; cbn [Z.eqb Pos.eqb].
    + by rewrite (radd_0_r (HR := HR)).
    + by apply (add_power_spec false).
Qed.

(** The exponent [t] in [0, 2 N), as a position and a sign. *)
Lemma rgsw_power t smp : 0 <= t < 2 * Z.of_nat n -> good_rgsw_sample smp ->
  returns (rgsw_rows arb ps (of_ EVALUATION s) (add_power ps (reduced_exponent ps t).1 (reduced_exponent ps t).2) smp st) (fun r => r.1 = st /\ rgsw_ (mono_ t) ep r.2).
Proof using HR Hps Hs.
  clear HB. intros Ht Hsmp. unfold reduced_exponent. rewrite (rp_N Hps).
  set (neg := Z.of_nat n <=? t). set (pos := if neg then Z.to_nat (t - Z.of_nat n) else Z.to_nat t).
  assert ((if neg then (true, Z.to_nat (t - Z.of_nat n)) else (false, Z.to_nat t)) = (neg, pos)) as -> by (unfold pos; by destruct neg).
  assert (pos < n)%nat as Hpos by (unfold pos, neg; destruct (Z.leb_spec (Z.of_nat n) t); lia). cbn [fst snd].
  apply (rgsw_made _ (fun i => rterm q n (if neg then - row_power i else row_power i) pos)); [done|apply (mono_wf (HR := HR))| |].
  - intros i p Hi Hp. split; [apply (rterm_wf (HR := HR))|]. by apply add_power_spec.
  - intros i x Hi Hx. rewrite (slot_rterm (HR := HR)), (slot_mono (HR := HR)), Z.mod_small by done. unfold pos, neg. destruct (Z.leb_spec (Z.of_nat n) t).
    + rewrite Z2Nat.id by lia. replace t with (Z.of_nat n + (t - Z.of_nat n)) at 2 by lia. rewrite Z.pow_add_r by lia.
      rewrite (point_root q psi k rt_root x). apply eqm_refl. ring.
    + rewrite Z2Nat.id by lia. apply eqm_refl. ring.
Qed.

(** The modulus of the exponents divides [2 N]. *)
Context (mod_ : Z) (Hq : r_q ps = mod_) (Hmod : 0 < mod_) (Hdiv : (mod_ | 2 * Z.of_nat n)).
Abbreviation factor := (2 * Z.of_nat n / mod_).

Lemma factor_spec : mod_ * factor = 2 * Z.of_nat n /\ 0 < factor /\ (mod_ | 2 ^ 64) /\ mod_ <= 2 ^ 25.
Proof using HR Hmod Hdiv.
  clear Hq Hs HB Hps. pose proof (dim_bound (HR := HR)) as Hn. pose proof (rt_dim (RingTransform := HR)) as Hk. destruct Hdiv as [c Hc]. rewrite Hc, Z.div_mul by lia.
  assert (0 < c) as Hc0 by (apply (Z.mul_pos_cancel_r c mod_); lia). split; [lia|]. split; [done|]. split; [|change (2 ^ 25) with (2 * 2 ^ 24); nia].
  apply (Z.divide_trans _ (2 * Z.of_nat n)); [by exists c|]. exists (2 ^ (63 - Z.of_nat k)).
  assert (Z.of_nat k <= 63) as Hk63.
  { destruct (Z.le_gt_cases (Z.of_nat k) 63) as [|Hgt]; [done|]. exfalso. rewrite Nat2Z.inj_pow in Hn. pose proof (Z.pow_lt_mono_r 2 24 (Z.of_nat k)). lia. }
  rewrite Nat2Z.inj_pow. change (Z.of_nat 2) with 2. change (2 ^ 64) with (2 ^ (63 + 1)).
  replace 2 with (2 ^ 1) at 3 by done. rewrite <- !Z.pow_add_r by lia. f_equal. lia.
Qed.

Lemma exponent_periodic m : (m mod mod_) * factor ≡[2 * Z.of_nat n] m * factor.
Proof using HR Hmod Hdiv.
  clear HB Hps Hs Hq. destruct factor_spec as (E & _). apply eqm_iff. exists (- (m / mod_)). set (F := factor) in *. rewrite <- E.
  rewrite (Z.div_mod m mod_) at 2 by lia. ring.
Qed.

Lemma rgsw_same t t' key : t ≡[2 * Z.of_nat n] t' -> rgsw_ (mono_ t) ep key -> rgsw_ (mono_ t') ep key.
Proof using Type. clear. intros Ht. by rewrite (mono_periodic t t'). Qed.

Lemma KeyGenDM_spec m smp : good_rgsw_sample smp ->
  returns (KeyGenDM arb ps (of_ EVALUATION s) m smp st) (fun r => r.1 = st /\ rgsw_ (mono_ (m * factor)) ep r.2).
Proof using HR Hps Hs Hq Hmod Hdiv.
  clear HB. intros Hsmp. destruct factor_spec as (EF & HF & [c Hc] & Hm64). pose proof (dim_bound (HR := HR)) as Hn.
  pose proof (Z.mod_pos_bound m mod_ Hmod) as Hb. assert (mod_ * factor <= 2 ^ 25) as HmF by lia. set (F := factor) in *.
  unfold KeyGenDM, umod, udiv. rewrite Hq, (rp_N Hps), (proj2 (Z.eqb_neq mod_ 0)), !bind_ok by lia.
  rewrite (Z.mod_small (2 * _)) by lia. fold F.
  assert (wrap W m mod mod_ = m mod mod_) as ->.
  { unfold wrap. change (2 ^ W) with (2 ^ 64). rewrite Hc. pose proof (Z.div_mod m (c * mod_) ltac:(lia)) as E. rewrite E at 2.
    rewrite Z.add_comm. replace (c * mod_ * (m / (c * mod_))) with (c * (m / (c * mod_)) * mod_) by ring. by rewrite Z.mod_add by lia. }
  rewrite (wrap_small W (_ + _)) by (change (2 ^ W) with (2 ^ 64); lia).
  replace (m mod mod_ + mod_) with (m mod mod_ + 1 * mod_) by ring. rewrite Z.mod_add, Z.mod_mod by lia.
  assert (0 <= m mod mod_ * F < mod_ * F) as Hr by nia.
  rewrite wrap_small by (change (2 ^ W) with (2 ^ 64); lia).
  assert (to_signed W (m mod mod_ * F) = m mod mod_ * F) as ->. { unfold to_signed. change (2 ^ (W - 1)) with (2 ^ 63). rewrite (proj2 (Z.ltb_lt _ _)) by lia. done. }
  eapply returns_mono; [apply (rgsw_power (m mod mod_ * F)); [lia|done]|]. intros r [E1 E2]. split; [done|].
  eapply rgsw_same; [|exact E2]. apply exponent_periodic.
Qed.

Lemma KeyGenLMKCDEY_spec m smp : - 2 ^ 62 <= m < 2 ^ 62 -> good_rgsw_sample smp ->
  returns (KeyGenLMKCDEY arb ps (of_ EVALUATION s) m smp st) (fun r => r.1 = st /\ rgsw_ (mono_ (m * factor)) ep r.2).
Proof using HR Hps Hs Hq Hmod Hdiv.
  clear HB. intros Hm Hsmp. destruct factor_spec as (EF & HF & _ & Hm64). pose proof (dim_bound (HR := HR)) as Hn.
  unfold KeyGenLMKCDEY. rewrite Hq, (rp_N Hps), (proj2 (Z.eqb_neq mod_ 0)) by lia.
  assert (0 <= Z.rem m mod_ + mod_ < 2 * mod_) as Hr. { pose proof (Z.rem_bound_abs m mod_ ltac:(lia)). lia. }
  rewrite sck_spec, bind_ok by (change (2 ^ (W - 1)) with (2 ^ 63); lia).
  assert (Z.rem (Z.rem m mod_ + mod_) mod_ = m mod mod_) as ->.
  { rewrite Z.rem_mod_nonneg by lia. replace (Z.rem m mod_ + mod_) with (m + (1 - Z.quot m mod_) * mod_) by (pose proof (Z.quot_rem' m mod_); lia).
    by rewrite Z.mod_add by lia. }
  rewrite Z.quot_div_nonneg by lia. pose proof (Z.mod_pos_bound m mod_ Hmod) as Hb. set (F := factor) in *.
  assert (0 <= m mod mod_ * F < mod_ * F) as Hr' by nia. rewrite sck_spec, bind_ok by (change (2 ^ (W - 1)) with (2 ^ 63); lia).
  eapply returns_mono; [apply (rgsw_power (m mod mod_ * F)); [lia|done]|]. intros r [E1 E2]. split; [done|].
  eapply rgsw_same; [|exact E2]. apply exponent_periodic.
Qed.
End Keys.

(** ** [KeyGenAcc] *)
Section AllKeys.
Context {st : FTT} {q psi : Z} {k : nat} {HR : RingTransform st q psi k} (arb : FTT -> NativePoly -> res (FTT * NativePoly)).
Context (g : Z) (G : nat) (ps : RingGSWCryptoParams) (Hps : rgsw_params ps q psi k g G).
Context (s : list Z) (Hs : wf_data (q := q) k s) (ep : Z).
Context (t : nat -> Z) (nn : nat) (Ht : forall i, (i < nn)%nat -> -1 <= t i <= 1) (m_ : Z) (Hm : 3 <= m_ < 2 ^ 31).
Context (sample : nat -> nat -> nat -> RgswSample) (Hsample : forall u v i, good_rgsw_sample (q := q) (k := k) G ep (sample u v i)).
Abbreviation n := (2 ^ k)%nat.
Abbreviation of_ := (poly_of q psi k).
Abbreviation rgsw_ := (rgsw (q := q) (psi := psi) (k := k) g G s).
Abbreviation secret := (NVec m_ (map (fun i => t i mod m_) (seq 0 nn))).

Lemma secret_get i : (i < nn)%nat -> vget (map (fun i => t i mod m_) (seq 0 nn)) i = Ok (t i mod m_).
Proof using Type. clear. intros Hi. exact (vget_lookup _ _ _ (lookup_tab nn (fun i => t i mod m_) i Hi)). Qed.

(** The keys before position [i], when every key has the property [P]. *)
Definition cggi_before (P : Z -> RingGSWEvalKey -> Prop) (i : nat) (x : FTT * RingGSWACCKey) : Prop :=
  x.1 = st /\ shape 1 2 nn x.2 /\
  forall j, (j < i)%nat -> exists k1 k2, get_key x.2 0 0 j = Ok k1 /\ get_key x.2 0 1 j = Ok k2 /\ P (pos_bit (t j)) k1 /\ P (neg_bit (t j)) k2.

Lemma KeyGenAcc_CGGI_all (P : Z -> RingGSWEvalKey -> Prop) :
  (forall m v i, m = 0 \/ m = 1 -> returns (KeyGenCGGI arb ps (of_ EVALUATION s) m (sample 0%nat v i) st) (fun r => r.1 = st /\ P m r.2)) ->
  returns (KeyGenAcc_CGGI arb ps (of_ EVALUATION s) secret sample st) (fun r => cggi_before P nn r).
Proof using HR Hm Ht.
  intros HP. unfold KeyGenAcc_CGGI. cbn [data modulus]. rewrite length_tab. apply (returns_for (cggi_before P)).
  - split; [done|]. split; [apply shape_new|]. intros i Hi. lia.
  - intros i x Hi (E & Hsh & Hall). rewrite (secret_get i Hi), bind_ok.
    destruct (secret_bits m_ (t i) ltac:(lia) (Ht i Hi)) as [-> ->]. unfold store.
    eapply returns_bind; [apply (store_key (st := st) 1 2 nn (P (pos_bit (t i))) (KeyGenCGGI arb ps (of_ EVALUATION s) (pos_bit (t i)) (sample 0%nat 0%nat i))); [lia..|done|done|]|].
    { by apply HP, bit_cases. }
    intros x1 (E1 & Sh1 & (k1 & G1 & Q1) & O1).
    eapply returns_mono; [apply (store_key (st := st) 1 2 nn (P (neg_bit (t i))) (KeyGenCGGI arb ps (of_ EVALUATION s) (neg_bit (t i)) (sample 0%nat 1%nat i))); [lia..|done|done|]|].
    { by apply HP, neg_bit_cases. }
    intros x2 (E2 & Sh2 & (k2 & G2 & Q2) & O2). split; [done|]. split; [done|]. intros j Hj. destruct (decide (j = i)) as [->|Hne].
    + exists k1, k2. split; [apply O2; [distinct|done]|]. done.
    + destruct (Hall j ltac:(lia)) as (k1' & k2' & A1 & A2 & A3). exists k1', k2'.
      split; [apply O2; [distinct|]; apply O1; [distinct|done]|]. split; [apply O2; [distinct|]; apply O1; [distinct|done]|done].
Qed.

Lemma KeyGenAcc_CGGI_spec : returns (KeyGenAcc_CGGI arb ps (of_ EVALUATION s) secret sample st)
  (fun r => r.1 = st /\ cggi_keys (q := q) (psi := psi) (k := k) g G s ep t nn r.2).
Proof using All.
  eapply returns_mono; [apply (KeyGenAcc_CGGI_all (fun m => rgsw_ (rconst (q := q) (k := k) m) ep))|intros r (E & _ & H); done].
  intros m v i Hm'. by apply (KeyGenCGGI_spec (HR := HR) arb g G ps Hps s Hs ep).
Qed.

(** What anyone reads in the keys. *)
Definition revealed (ek : RingGSWACCKey) (i : nat) : res Z :=
  k1 ← get_key ek 0 0 i; k2 ← get_key ek 0 1 i;
  b1 ← key_message (st := st) arb k1; b2 ← key_message (st := st) arb k2; Ok (b1 - b2).

Lemma KeyGenAcc_CGGI_reveals : (0 < G)%nat -> 0 < 2 ^ g < q ->
  returns (ek ← KeyGenAcc_CGGI arb ps (of_ EVALUATION s) secret sample st; tabulateM nn (revealed ek.2)) (fun l => l = map t (seq 0 nn)).
Proof using All.
  intros HG Hg. eapply returns_bind; [apply (KeyGenAcc_CGGI_all (fun m key => key_message (st := st) arb key = Ok m))|].
  - intros m v i Hm'. by apply (KeyGenCGGI_reveals (HR := HR) arb g G ps Hps s Hs ep).
  - intros ek (_ & _ & H). apply returns_eq, tabulateM_ok. intros i Hi. destruct (H i Hi) as (k1 & k2 & E1 & E2 & M1 & M2).
    unfold revealed. rewrite E1, bind_ok, E2, bind_ok, M1, bind_ok, M2, bind_ok. f_equal. by destruct (ternary_bits (t i) (Ht i Hi)) as (_ & _ & _ & ->).
Qed.

(** The signed value of an entry of the key. *)
Lemma signed_secret_spec i : (i < nn)%nat -> signed_secret (to_int32 m_) (t i mod m_) = Ok (t i).
Proof using Ht Hm.
  intros Hi. specialize (Ht i Hi). pose proof (Z.mod_pos_bound (t i) m_ ltac:(lia)) as Hb.
  assert (forall x, 0 <= x < 2 ^ 31 -> to_int32 x = x) as E32.
  { intros x Hx. unfold to_int32, to_signed. rewrite (wrap_small 32) by lia. change (32 - 1) with 31. by rewrite (proj2 (Z.ltb_lt _ _)) by lia. }
  unfold signed_secret. rewrite !E32 by lia. rewrite Z.shiftr_div_pow2 by lia. change (2 ^ 1) with 2.
  pose proof (Z.div_mod m_ 2 ltac:(lia)). pose proof (Z.mod_pos_bound m_ 2 ltac:(lia)).
  assert (t i mod m_ = if t i =? -1 then m_ - 1 else t i) as ->.
  { destruct (Z.eqb_spec (t i) (-1)) as [->|]; [|apply Z.mod_small; lia]. symmetry. apply (Z.mod_unique_pos (-1) m_ (-1)); lia. }
  destruct (Z.eqb_spec (t i) (-1)) as [->|].
  - rewrite (proj2 (Z.ltb_lt _ _)) by lia. rewrite sck_spec by (change (2 ^ (32 - 1)) with (2 ^ 31); lia). f_equal. lia.
  - by rewrite (proj2 (Z.ltb_ge _ _)) by lia.
Qed.

Context (mod_ R : Z) (Hmeth : r_method ps = AP) (Hq : r_q ps = mod_) (HRR : r_baseR ps = R) (HR2 : 2 <= R) (Hmod : 1 < mod_)
  (Hdiv : (mod_ | 2 * Z.of_nat n)) (Hfit : R * mod_ < 2 ^ 31).
Abbreviation d := (digit_count R mod_).
Abbreviation factor := (2 * Z.of_nat n / mod_).

(** Position [(i, j, l)] is before [(i0, j0, l0)]. *)
Definition before3 (i0 j0 l0 i j l : nat) : Prop := (i < i0 \/ i = i0 /\ (j < j0 \/ j = j0 /\ l < l0))%nat.
Definition dm_before (i0 j0 l0 : nat) (x : FTT * RingGSWACCKey) : Prop :=
  x.1 = st /\ shape nn (Z.to_nat R) d x.2 /\
  forall i j l, (i < nn)%nat -> (0 < j < Z.to_nat R)%nat -> (l < d)%nat -> before3 i0 (S j0) l0 i j l ->
    exists key, get_key x.2 i j l = Ok key /\ rgsw_ (mono q n (t i * Z.of_nat j * R ^ Z.of_nat l * factor)) ep key.

Lemma dm_key_step i j l x : (i < nn)%nat -> (S j < Z.to_nat R)%nat -> (l < d)%nat -> dm_before i j l x ->
  returns (sv_i ← vget (map (fun i => t i mod m_) (seq 0 nn)) i; s0 ← signed_secret (to_int32 m_) sv_i; dk ← vget (r_digitsR ps) l;
    t0 ← sck 32 (s0 * Z.of_nat (S j)); m ← sck 32 (t0 * to_int32 dk);
    store (KeyGenDM arb ps (of_ EVALUATION s) m (sample i (S j) l) x.1) i (S j) l x.2) (dm_before i j (S l)).
Proof using All.
  intros Hi Hj Hl (E & Hsh & Hall). rewrite (secret_get i Hi), bind_ok, signed_secret_spec, bind_ok by done.
  rewrite (rp_digitsR Hps Hmeth), Hq, HRR. unfold refresh_digits.
  assert (R ^ Z.of_nat l < mod_) as Hpow by (apply digit_count_minimal; [lia|lia|done]).
  assert (0 < R ^ Z.of_nat l) as Hp0 by (apply Z.pow_pos_nonneg; lia). specialize (Ht i Hi).
  rewrite (vget_total (powers_loop R d 1)), bind_ok by (by rewrite length_powers_loop).
  assert (powers_loop R d 1 !!! l = R ^ Z.of_nat l) as ->.
  { rewrite powers_loop_spec; [lia|lia|lia| |done]. pose proof (digit_count_minimal R mod_ (pred d) ltac:(lia) ltac:(lia) ltac:(lia)). nia. }
  assert (to_int32 (R ^ Z.of_nat l) = R ^ Z.of_nat l) as ->.
  { unfold to_int32, to_signed. rewrite (wrap_small 32) by nia. change (32 - 1) with 31. by rewrite (proj2 (Z.ltb_lt _ _)) by nia. }
  assert (Z.of_nat (S j) < R) as HjR by lia.
  rewrite sck_spec, bind_ok by (change (2 ^ (32 - 1)) with (2 ^ 31); nia).
  assert (Z.abs (t i * Z.of_nat (S j) * R ^ Z.of_nat l) <= R * mod_) as Hab.
  { rewrite !Z.abs_mul, (Z.abs_eq (Z.of_nat (S j))), (Z.abs_eq (R ^ _)) by lia.
    assert (Z.abs (t i) * Z.of_nat (S j) <= R) by nia. apply Z.mul_le_mono_nonneg; lia. }
  rewrite sck_spec, bind_ok by (change (2 ^ (32 - 1)) with (2 ^ 31); lia). unfold store.
  eapply returns_mono; [apply (store_key (st := st) nn (Z.to_nat R) d (rgsw_ (mono q n (t i * Z.of_nat (S j) * R ^ Z.of_nat l * factor)) ep)
    (KeyGenDM arb ps (of_ EVALUATION s) (t i * Z.of_nat (S j) * R ^ Z.of_nat l) (sample i (S j) l))); [lia..|done|done|]|].
  { apply (KeyGenDM_spec (HR := HR) arb g G ps Hps s Hs ep mod_ Hq ltac:(lia) Hdiv). done. }
  intros x1 (E1 & Sh1 & (k1 & G1 & Q1) & O1). split; [done|]. split; [done|]. intros i' j' l' Hi' Hj' Hl' Hb.
  destruct (decide (i' = i /\ j' = S j /\ l' = l)) as [(-> & -> & ->)|Hne]; [by exists k1|].
  destruct (Hall i' j' l' Hi' Hj' Hl') as (key & K1 & K2); [unfold before3 in *; lia|].
  exists key. split; [|done]. apply O1; [intros [= -> -> ->]; by apply Hne|done].
Qed.

Lemma KeyGenAcc_DM_spec : returns (KeyGenAcc_DM arb ps (of_ EVALUATION s) secret sample st)
  (fun r => r.1 = st /\ dm_keys (q := q) (psi := psi) (k := k) g G s ep t nn mod_ R r.2).
Proof using All.
  unfold KeyGenAcc_DM. cbn [data modulus]. rewrite length_tab. rewrite HRR.
  assert (to_int32 R = R) as ->. { unfold to_int32, to_signed. rewrite (wrap_small 32) by nia. change (32 - 1) with 31. by rewrite (proj2 (Z.ltb_lt _ _)) by nia. }
  assert (length (r_digitsR ps) = d) as -> by (rewrite (rp_digitsR Hps Hmeth), Hq, HRR; apply length_powers_loop).
  eapply returns_mono; [apply (returns_for (fun i => dm_before i 0 0))|].
  - split; [done|]. split; [apply shape_new|]. intros i j l Hi Hj Hl Hb. unfold before3 in Hb. lia.
  - intros i x Hi Hx. eapply returns_mono; [apply (returns_for (fun j => dm_before i j 0)); [exact Hx|]|].
    + intros j x' Hj Hx'. eapply returns_mono; [apply (returns_for (fun l => dm_before i j l)); [exact Hx'|]|].
      * intros l x'' Hl Hx''. apply dm_key_step; (done || lia).
      * intros x'' (E & Hsh & Hall). split; [done|]. split; [done|]. intros i' j' l' Hi' Hj' Hl' Hb. apply Hall; try done. unfold before3 in *. lia.
    + intros x' (E & Hsh & Hall). split; [done|]. split; [done|]. intros i' j' l' Hi' Hj' Hl' Hb. apply Hall; try done. unfold before3 in *. lia.
  - intros r (E & _ & Hall). split; [done|]. intros i j l Hi Hj Hl. apply Hall; try done. unfold before3. lia.
Qed.
End AllKeys.

(** ** [PreCompute] *)
Section Tables.
Context {st : FTT} {Q psi : Z} {k : nat} {HR : RingTransform st Q psi k} (arb : FTT -> NativePoly -> res (FTT * NativePoly)).
Context (g : Z) (G : nat).
Abbreviation n := (2 ^ k)%nat.

#[local] Instance tables_modulus : NativeModulus W Q.
Proof using HR. exact rt_modulus. Qed.

(** What the constructor puts into the parameters, before the tables. *)
Record base_rgsw (ps : RingGSWCryptoParams) : Prop := {
  bg_N : r_N ps = n;
  bg_Q : r_Q ps = Q;
  bg_base : r_baseG ps = 2 ^ g /\ r_digitsG ps = S G;
  bg_polyParams : r_polyParams ps = ring_par Q psi k;
  bg_tables : r_Gpower ps = [] /\ r_monomials ps = [];
  bg_method : r_method ps = GINX \/ r_method ps = AP \/ r_method ps = LMKCDEY /\ (2 <= k)%nat
}.

Definition same_choice (ps ps' : RingGSWCryptoParams) : Prop := r_method ps' = r_method ps /\ r_q ps' = r_q ps /\ r_baseR ps' = r_baseR ps /\ r_N ps' = r_N ps /\ r_numAutoKeys ps' = r_numAutoKeys ps.

Lemma PreCompute_rgsw ps : 1 <= g <= 31 -> 2 ^ g < Q -> base_rgsw ps ->
  exists ps', RgswAcc.PreCompute arb ps false st = Ok (st, ps') /\ rgsw_params ps' Q psi k g G /\ same_choice ps ps'.
Proof using HR.
  intros Hg HgQ Hps. destruct (bg_tables _ Hps) as [T1 T2]. destruct (bg_base _ Hps) as [B1 B2]. unfold RgswAcc.PreCompute.
  rewrite B1, B2, (bg_Q _ Hps), (bg_N _ Hps), (bg_polyParams _ Hps), T1, T2, (gadget_powers_spec (HR := HR)), !bind_ok by done.
  destruct (gate_constants_ok (r_q ps)) as [gc Egc]. rewrite Egc, bind_ok, (monomial_table_spec (HR := HR)).
  assert (forall i, (i < S G)%nat -> map (fun i => (2 ^ g) ^ Z.of_nat i mod Q) (seq 0 (S G)) !! i = Some ((2 ^ g) ^ Z.of_nat i mod Q)) as Hpow.
  { intros i Hi. by apply (lookup_tab (S G) (fun i => (2 ^ g) ^ Z.of_nat i mod Q)). }
  destruct (bg_method _ Hps) as [E | [E | [E Hk]]]; rewrite E.
  - rewrite (bool_decide_eq_true_2 (GINX = GINX)), (bool_decide_eq_false_2 (GINX = LMKCDEY)), !bind_ok by done. cbn [fst snd app].
    eexists. split; [reflexivity|]. split; [by split|]. repeat split; [by symmetry|]. symmetry. apply (bg_N _ Hps).
  - rewrite (bool_decide_eq_false_2 (AP = GINX)), (bool_decide_eq_false_2 (AP = LMKCDEY)), !bind_ok by done. cbn [fst snd app].
    eexists. split; [reflexivity|]. split; [by split|]. repeat split; [by symmetry|]. symmetry. apply (bg_N _ Hps).
  - pose proof (rt_dim (RingTransform := HR)) as Hd. destruct (log_table_spec k ltac:(lia)) as (l & El & _).
    rewrite (bool_decide_eq_false_2 (LMKCDEY = GINX)), (bool_decide_eq_true_2 (LMKCDEY = LMKCDEY)), El, !bind_ok by done. cbn [fst snd app].
    eexists. split; [reflexivity|]. split; [by split|]. repeat split; [by symmetry|]. symmetry. apply (bg_N _ Hps).
Qed.

(** ** The tables of the sign evaluation

    With [signEval] there is a table of powers for every base of [baseGlist];
    [Change_BaseG] chooses one. *)
Definition with_base (ps : RingGSWCryptoParams) (b : Z) : RingGSWCryptoParams :=
  RGSWParams (r_Q ps) (r_q ps) (r_N ps) b (r_baseR ps) (digit_count b (r_Q ps)) (r_digitsR ps) (default [] (r_Gpower_map ps !! b))
    (r_logGen ps) (r_Gpower_map ps) (r_polyParams ps) (r_gateConst ps) (r_monomials ps) (r_method ps) (r_numAutoKeys ps).

Definition powers_of (b : Z) (d : nat) : list Z := map (fun i => b ^ Z.of_nat i mod Q) (seq 0 d).
Definition sign_powers : gmap Z (list Z) :=
  let d := ceil_log Q in <[2 ^ 27 := powers_of (2 ^ 27) d]> (<[2 ^ 18 := powers_of (2 ^ 18) d]> (<[2 ^ 14 := powers_of (2 ^ 14) d]> ∅)).

Lemma sign_powers_lookup b : b ∈ baseGlist -> sign_powers !! b = Some (powers_of b (ceil_log Q)).
Proof using Type.
  intros Hb%list_elem_of_In. unfold sign_powers. destruct Hb as [<- | [<- | [<- | []]]];
    repeat first [apply lookup_insert_eq|rewrite lookup_insert_ne by done].
Qed.

Lemma Change_BaseG_with ps b b' : r_Gpower_map ps = sign_powers -> b' ∈ baseGlist -> Change_BaseG (with_base ps b) b' = with_base ps b'.
Proof using Type.
  intros Em Hb. unfold Change_BaseG. cbn [with_base r_baseG r_Gpower_map]. destruct (Z.eqb_spec b b') as [->|_]; [done|].
  unfold with_base. cbn [r_Q r_q r_N r_baseR r_digitsR r_Gpower_map r_logGen r_polyParams r_gateConst r_monomials r_method r_numAutoKeys]. f_equal.
  apply insert_id. rewrite Em, (sign_powers_lookup b' Hb). done.
Qed.

Record sign_rgsw (ps : RingGSWCryptoParams) : Prop := {
  sg_N : r_N ps = n;
  sg_Q : r_Q ps = Q;
  sg_base : r_baseG ps ∈ baseGlist /\ r_digitsG ps = digit_count (r_baseG ps) Q;
  sg_polyParams : r_polyParams ps = ring_par Q psi k;
  sg_tables : r_Gpower_map ps = ∅ /\ r_monomials ps = [];
  sg_method : r_method ps = GINX
}.

Lemma ceil_log_loop_ge fuel : forall x num den d, (d <= ceil_log_loop fuel x num den d)%nat.
Proof using Type. clear. induction fuel as [|fuel IH]; intros x num den d; cbn [ceil_log_loop]; [done|]. destruct (_ <=? _); [done|]. etransitivity; [|apply IH]. lia. Qed.

Lemma sign_tables_spec b gp : 2 ^ 27 < Q -> b ∈ baseGlist -> sign_tables Q b gp ∅ = Ok (powers_of b (ceil_log Q), sign_powers).
Proof using HR.
  intros HQ Hb. unfold sign_tables. change (length baseGlist) with 3%nat. cbn [for_]. change (sign_digits Q) with (Ok (ceil_log Q)).
  change (vget baseGlist 0) with (Ok (2 ^ 14)). change (vget baseGlist 1) with (Ok (2 ^ 18)). change (vget baseGlist 2) with (Ok (2 ^ 27)).
  assert (0 < ceil_log Q)%nat as HL.
  { unfold ceil_log. change (ceil_log_loop 64 Q 1 1 0) with (if Q * 1 <=? 1 then 0%nat else ceil_log_loop 63 Q (1 * 2718281828459045235360287471352662497757) (1 * 10 ^ 39) 1).
    rewrite (proj2 (Z.leb_gt _ _)) by lia. apply ceil_log_loop_ge. }
  destruct (ceil_log Q) as [|L] eqn:EL; [lia|]. unfold sign_powers. rewrite EL. rewrite !bind_ok.
  rewrite (gadget_powers_spec (HR := HR) 14 L), !bind_ok by lia. rewrite (gadget_powers_spec (HR := HR) 18 L), !bind_ok by lia. rewrite (gadget_powers_spec (HR := HR) 27 L), !bind_ok by lia. cbn [fst snd].
  apply list_elem_of_In in Hb. destruct Hb as [<- | [<- | [<- | []]]]; done.
Qed.

Lemma PreCompute_sign ps : 2 ^ 27 < Q -> sign_rgsw ps ->
  exists ps', RgswAcc.PreCompute arb ps true st = Ok (st, ps') /\ with_base ps' (r_baseG ps) = ps' /\ r_Gpower_map ps' = sign_powers /\ same_choice ps ps' /\
    (forall g' G', 2 ^ g' ∈ baseGlist -> digit_count (2 ^ g') Q = S G' -> (S G' <= ceil_log Q)%nat -> rgsw_params (with_base ps' (2 ^ g')) Q psi k g' G').
Proof using HR.
  intros HQ Hps. destruct (sg_tables _ Hps) as [T1 T2]. destruct (sg_base _ Hps) as [B1 B2]. unfold RgswAcc.PreCompute.
  rewrite T1, T2, (sg_Q _ Hps), (sg_N _ Hps), (sg_polyParams _ Hps), (sign_tables_spec _ _ HQ B1), !bind_ok, (sg_method _ Hps).
  destruct (gate_constants_ok (r_q ps)) as [gc Egc]. rewrite Egc, bind_ok, (monomial_table_spec (HR := HR)).
  rewrite (bool_decide_eq_true_2 (GINX = GINX)), (bool_decide_eq_false_2 (GINX = LMKCDEY)), (bool_decide_eq_false_2 (GINX = AP)), !bind_ok by done. cbn [fst snd app].
  eexists. split; [reflexivity|]. split; [|split; [done|split; [by (split; [cbn; rewrite (sg_method _ Hps)|repeat split; cbn; rewrite ?(sg_N _ Hps)])|]]].
  - unfold with_base. cbn. by rewrite (sign_powers_lookup _ B1), B2.
  - intros g' G' Hg' Ed HL. split; cbn; try done.
    rewrite (sign_powers_lookup _ Hg'). cbn. intros i Hi. apply (lookup_tab (ceil_log Q) (fun i => (2 ^ g') ^ Z.of_nat i mod Q)). lia.
Qed.
End Tables.
