(* ===== verification/AutoKeys.v ===== *)
(** * Automorphisms of a noisy ciphertext

    How the substitution [x -> x^K] acts on monomials, on sizes and on the
    states of a blind rotation, and the two operations of
    [RingGSWAccumulatorLMKCDEY] that apply it to an encryption: [KeyGenAuto],
    whose rows encrypt the multiples of the transformed key, and [Automorphism],
    which transforms an accumulator and switches it back to the key. *)

From Stdlib Require Import ZArith Lia String.
From stdpp Require Import base tactics numbers list strings gmap.
From S2P Require Import Prelude Double NativeInt NativeIntFacts ModArith NativeVec SchemeCore Negacyclic BitReverse Ntt NttFacts NttSpec NttRing Poly PolyFacts Automorphism Gadget RingNoise AccCore AccCoreFacts RgswAcc RgswFacts RgswRotation RgswKeys.

(** ** Substitutions *)
Section Substitutions.
Context {st : FTT} {q psi : Z} {k : nat} {HR : RingTransform st q psi k}.
Abbreviation n := (2 ^ k)%nat.
Abbreviation wf := (wf_data (q := q) k).
Abbreviation slot_ := (slot q psi k).
Abbreviation mono_ := (mono q n).

#[local] Instance substitution_modulus : NativeModulus W q.
Proof using HR. exact rt_modulus. Qed.

(** Exponents that are odd and positive. *)
Definition odd_pos (K : Z) : Prop := Z.odd K = true /\ 0 < K.

Lemma odd_pos_mul K K' : odd_pos K -> odd_pos K' -> odd_pos (K * K').
Proof using Type. clear. intros [H1 H2] [H3 H4]. split; [by rewrite Z.odd_mul, H1, H3|lia]. Qed.

Lemma raut_at K x a : odd_pos K -> slot_ x (raut q n K a) ≡[q] peval n (fun j => a !!! j) (point psi k x ^ K).
Proof using HR. intros [H1 H2]. by apply (slot_raut (HR := HR)). Qed.

Lemma raut_raut K K' a : odd_pos K -> odd_pos K' -> wf a -> raut q n K (raut q n K' a) = raut q n (K * K') a.
Proof using HR.
  intros HK HK' Ha. pose proof (odd_pos_mul K K' HK HK') as HKK. destruct HK as [H1 H2], HK' as [H1' H2'].
  apply (slot_ext (HR := HR)); [by do 2 apply raut_wf|by apply raut_wf|]. intros x Hx.
  rewrite (raut_at K), (raut_at (K * K')), Z.pow_mul_r by (done || lia). apply raut_eval; [done|done|]. by apply (power_root (HR := HR)).
Qed.

Lemma raut_periodic K K' a : odd_pos K -> odd_pos K' -> K ≡[2 * Z.of_nat n] K' -> wf a -> raut q n K a = raut q n K' a.
Proof using HR.
  intros HK HK' E Ha. apply (slot_ext (HR := HR)); [by apply raut_wf|by apply raut_wf|]. intros x Hx.
  rewrite !raut_at by done. destruct HK as [_ H2], HK' as [_ H2'].
  assert (point psi k x ^ K ≡[q] point psi k x ^ K') as Hp. { rewrite (point_period (HR := HR)), (point_period (HR := HR) x K') by lia. by rewrite E. }
  unfold peval. apply sumZ_eqm. intros j Hj. by rewrite Hp.
Qed.

Lemma raut_one a : wf a -> raut q n 1 a = a.
Proof using HR.
  intros Ha. apply (slot_ext (HR := HR)); [by apply raut_wf|done|]. intros x Hx. rewrite raut_at by (split; [done|lia]). by rewrite Z.pow_1_r.
Qed.

Lemma raut_rsub K a b : odd_pos K -> wf a -> wf b -> raut q n K (rsub q a b) = rsub q (raut q n K a) (raut q n K b).
Proof using HR.
  intros HK Ha Hb. pose proof (raut_wf k K a Ha) as Wa. pose proof (raut_wf k K b Hb) as Wb. pose proof (rsub_wf k a b Ha Hb) as Wab.
  apply (slot_ext (HR := HR)); [by apply raut_wf|by apply rsub_wf|]. intros x Hx. rewrite (slot_rsub (HR := HR)), !raut_at by done.
  unfold peval. rewrite <- sumZ_sub. apply sumZ_eqm. intros j Hj. unfold rsub. rewrite vec_op_lookup by (destruct Ha, Hb; lia).
  rewrite eqm_mod. apply eqm_refl. ring.
Qed.

(** A monomial goes to the monomial of the multiplied exponent. *)
Lemma peval_rterm c j y : (j < n)%nat -> peval n (fun i => rterm q n c j !!! i) y ≡[q] c * y ^ Z.of_nat j.
Proof using Type.
  clear. intros Hj. unfold peval. rewrite (sumZ_eqm q _ _ (fun i => if decide (i = j) then c * y ^ Z.of_nat i else 0)).
  - by rewrite (sumZ_delta _ j (fun i => c * y ^ Z.of_nat i)).
  - intros i Hi. rewrite rterm_lookup by done. destruct (decide (i = j)); [by rewrite eqm_mod|]. apply eqm_refl. ring.
Qed.

Lemma raut_mono K e : odd_pos K -> raut q n K (mono_ e) = mono_ (K * e).
Proof using HR.
  intros HK. pose proof (mono_wf (HR := HR) e) as We. pose proof (pow2_pos_nat k) as Hn.
  apply (slot_ext (HR := HR)); [by apply raut_wf|apply (mono_wf (HR := HR))|]. intros x Hx. rewrite raut_at by done. rewrite (slot_mono (HR := HR)).
  destruct HK as [HK HK0]. pose proof (power_root (HR := HR) K HK HK0 x) as Hroot. set (y := point psi k x ^ K) in *.
  assert (peval n (fun i => mono_ e !!! i) y ≡[q] y ^ (e mod (2 * Z.of_nat n))) as ->.
  { unfold mono. pose proof (Z.mod_pos_bound e (2 * Z.of_nat n) ltac:(lia)). destruct (Nat.ltb_spec (Z.to_nat (e mod (2 * Z.of_nat n))) n).
    - rewrite peval_rterm, Z2Nat.id by lia. apply eqm_refl. ring.
    - rewrite peval_rterm, <- Hroot, <- Z.pow_add_r by lia. apply eqm_refl. f_equal. lia. }
  unfold y. pose proof (Z.mod_pos_bound e (2 * Z.of_nat n) ltac:(lia)). rewrite <- Z.pow_mul_r by lia. rewrite (point_period (HR := HR)) by nia.
  by rewrite Z.mul_mod_idemp_r by lia.
Qed.

(** ** Sizes *)
Lemma raut_entry K a : odd_pos K -> wf a ->
  (forall j, (j < n)%nat -> raut q n K a !!! raut_pos n K j = if raut_flips n K j then (- a !!! j) mod q else a !!! j) /\
  (forall t, (t < n)%nat -> (forall j, (j < n)%nat -> raut_pos n K j <> t) -> raut q n K a !!! t = 0).
Proof using Type. intros [HK HK0] Ha. destruct (raut_partial k K HK (fun x => (- x) mod q) a n ltac:(lia)) as (_ & H0 & H1 & _). by split. Qed.

Lemma l1_raut K (l : Z) a : odd_pos K -> wf a -> l1_le q n l a -> l1_le q n l (raut q n K a).
Proof using Type.
  intros HK Ha (w & Ew & Hw). destruct (raut_entry K a HK Ha) as [H1 H0]. destruct HK as [HK HK0].
  set (sw := fun j => if raut_flips n K j then - w j else w j).
  exists (fun t => sumZ n (fun j => if decide (raut_pos n K j = t) then sw j else 0)). split.
  - intros t Ht. destruct (decide (Exists (fun j => raut_pos n K j = t) (seq 0 n))) as [(j & Hj%elem_of_seq & <-)%Exists_exists|Hno].
    + rewrite (sumZ_ext n _ (fun i => if decide (i = j) then sw i else 0)).
      * rewrite (sumZ_delta n j sw), H1 by lia. unfold sw. destruct (raut_flips n K j); rewrite ?eqm_mod, Ew by lia; done.
      * intros i Hi. destruct (decide (i = j)) as [->|Hne]; [by rewrite decide_True|]. rewrite decide_False; [done|].
        intros E. apply Hne. by apply (raut_pos_inj k K HK); [|lia|].
    + assert (forall j, (j < n)%nat -> raut_pos n K j <> t) as Hne by (intros j Hj E; apply Hno, Exists_exists; exists j; split; [apply elem_of_seq; lia|done]).
      rewrite H0 by done. rewrite (sumZ_ext n _ (fun _ => 0)); [by rewrite sumZ_zero|]. intros j Hj. by rewrite decide_False by auto.
  - etransitivity; [|exact Hw]. etransitivity; [apply (sumZ_le n _ (fun t => sumZ n (fun j => if decide (t = raut_pos n K j) then Z.abs (w j) else 0)))|].
    + intros t Ht. etransitivity; [apply sumZ_abs|]. apply sumZ_le. intros j Hj. unfold sw.
      destruct (decide (raut_pos n K j = t)) as [E1|E1], (decide (t = raut_pos n K j)) as [E2|E2]; try congruence; destruct (raut_flips n K j); lia.
    + rewrite sumZ_swap. apply sumZ_le. intros j Hj. rewrite (sumZ_delta n (raut_pos n K j) (fun _ => Z.abs (w j))) by apply raut_pos_lt. done.
Qed.

Lemma inf_raut K (b : Z) a : odd_pos K -> wf a -> 0 <= b -> inf_le q n b a -> inf_le q n b (raut q n K a).
Proof using Type.
  intros HK Ha Hb H t Ht. destruct (raut_entry K a HK Ha) as [H1 H0].
  destruct (decide (Exists (fun j => raut_pos n K j = t) (seq 0 n))) as [(j & Hj%elem_of_seq & <-)%Exists_exists|Hno].
  - destruct (H j ltac:(lia)) as (e & Ee & He). rewrite H1 by lia. destruct (raut_flips n K j); [|by exists e].
    exists (- e). split; [by rewrite eqm_mod, Ee|lia].
  - exists 0. rewrite H0; [done|done|]. intros j Hj E. apply Hno, Exists_exists. exists j. split; [apply elem_of_seq; lia|done].
Qed.

(** ** Rotated elements *)
Lemma rotated_raut K v T (b : Z) ph : odd_pos K -> wf v -> 0 <= b -> rotated (q := q) (k := k) v T b ph ->
  rotated (q := q) (k := k) (raut q n K v) (K * T) b (raut q n K ph).
Proof using HR.
  intros HK Hv Hb (e & We & Be & ->). pose proof (mono_wf (HR := HR) T) as WT. pose proof (rmul_wf k (mono_ T) v) as Wm. pose proof HK as [HK1 HK0].
  exists (raut q n K e). split; [by apply raut_wf|]. split; [by apply inf_raut|].
  rewrite (raut_radd (HR := HR)), (raut_rmul (HR := HR)), raut_mono by done. done.
Qed.

Lemma rotated_add v T (b b' : Z) ph e : wf e -> inf_le q n b' e -> rotated (q := q) (k := k) v T b ph -> rotated (q := q) (k := k) v T (b + b') (radd q ph e).
Proof using HR.
  intros We Be (e0 & We0 & Be0 & ->). exists (radd q e0 e). split; [by apply radd_wf|]. split; [apply inf_radd; [apply We0|apply We|done|done]|].
  pose proof (rmul_wf k (mono_ T) v) as Wm. pose proof (radd_wf k _ _ Wm We0) as W1. pose proof (radd_wf k _ _ We0 We) as W2.
  apply (slot_ext (HR := HR)); [by apply radd_wf|by apply radd_wf|]. intros x Hx. rewrite !(slot_radd (HR := HR)) by done. apply eqm_refl. ring.
Qed.
End Substitutions.

(** ** The permutation that [Automorphism] computes *)
Section AutoSteps.
Context {st : FTT} {q psi : Z} {k : nat} {HR : RingTransform st q psi k} (arb : FTT -> NativePoly -> res (FTT * NativePoly)).
Context (g : Z) (Hg : 1 <= g <= 31) (HgQ : 2 ^ g <= q) (G : nat) (HGq : q <= (2 ^ g) ^ Z.of_nat (S G)).
Context (ps : RingGSWCryptoParams) (Hps : rgsw_params ps q psi k g G).
Context (s : list Z) (sg : Z) (Hs : wf_data (q := q) k s) (Hsg : 0 <= sg) (Hsl : l1_le q (2 ^ k) sg s).
Context (ep : Z) (Hep : 0 <= ep).
Abbreviation B := (2 ^ g).
Abbreviation n := (2 ^ k)%nat.
Abbreviation wf := (wf_data (q := q) k).
Abbreviation slot_ := (slot q psi k).
Abbreviation of_ := (poly_of q psi k).
Abbreviation polys_ := (polys (q := q) (psi := psi) (k := k)).
Abbreviation rows_ := (rows (q := q) (psi := psi) (k := k)).
Abbreviation drop := (dropped (q := q) (k := k) g G).
Abbreviation drop_bound_ := (drop_bound (q := q) g G).
Abbreviation state_ := (rlwe_state (q := q) (psi := psi) (k := k) s).

#[local] Instance auto_steps_modulus : NativeModulus W q.
Proof using HR. exact rt_modulus. Qed.

Definition auto_exponent (K : Z) : Prop := odd_pos K /\ K < 2 ^ 32.

Lemma round_log2_pow e : 0 <= e -> round_log2 (2 ^ e) = e.
Proof using Type.
  clear. intros He. unfold round_log2. assert (2 * 2 ^ e * 2 ^ e = 2 ^ (1 + e + e)) as -> by (rewrite !Z.pow_add_r by lia; ring).
  rewrite Z.log2_pow2 by lia. replace (1 + e + e) with (1 + e * 2) by lia. by rewrite Z.div_add by lia.
Qed.

Lemma PrecomputeAutoMap_spec K : auto_exponent K ->
  returns (PrecomputeAutoMap n K (repeat 0%nat n)) (fun vec => length vec = n /\
    forall j, (j < n)%nat -> vec !!! Z.to_nat (rev k j) = Z.to_nat (rev k (Z.to_nat (raut_index (k := k) K j)))).
Proof using HR.
  clear Hg HgQ HGq Hps Hs Hsg Hsl Hep. intros [[HK HK0] HK32]. pose proof (rt_dim (RingTransform := HR)) as Hk. pose proof (dim_pow (k := k)) as En.
  unfold PrecomputeAutoMap. rewrite En. replace (2 * 2 ^ Z.of_nat k) with (2 ^ (1 + Z.of_nat k)) by (rewrite Z.pow_add_r by lia; ring).
  rewrite !round_log2_pow by lia.
  apply (returns_for (fun i (vec : list nat) => length vec = n /\
    forall j, (j < i)%nat -> vec !!! Z.to_nat (rev k j) = Z.to_nat (rev k (Z.to_nat (raut_index (k := k) K j))))).
  - split; [apply repeat_length|lia].
  - intros i vec Hi [Lv Hv]. pose proof (raut_index_bound (k := k) K i) as Hidx. set (t := (2 * Z.of_nat i + 1) * K).
    assert (Z.shiftr (t mod 2 ^ 32 - Z.shiftl (Z.shiftr (t mod 2 ^ 32) (1 + Z.of_nat k)) (1 + Z.of_nat k)) 1 = raut_index (k := k) K i) as ->.
    { rewrite Z.shiftr_div_pow2, Z.shiftl_mul_pow2, Z.shiftr_div_pow2 by lia. change (2 ^ 1) with 2.
      set (m := 2 ^ (1 + Z.of_nat k)). assert (m = 2 * 2 ^ Z.of_nat k) as Em by (unfold m; rewrite Z.pow_add_r by lia; ring).
      pose proof (n_pos k) as Hp. replace (t mod 2 ^ 32 - t mod 2 ^ 32 / m * m) with ((t mod 2 ^ 32) mod m) by (rewrite Z.mod_eq by lia; ring).
      rewrite Z.mod_mod_divide; [|].
      - unfold raut_index. rewrite En. replace (K * (2 * Z.of_nat i + 1)) with t by (unfold t; ring). rewrite Em.
        rewrite (Z.rem_mul_r t 2 (2 ^ Z.of_nat k)) by lia. rewrite (Z.mul_comm 2 ((t / 2) mod 2 ^ Z.of_nat k)), Z.div_add by lia.
        rewrite Z.div_small by (apply Z.mod_pos_bound; lia). lia.
      - exists (2 ^ (31 - Z.of_nat k)). unfold m. rewrite <- Z.pow_add_r by lia. f_equal. lia. }
    rewrite !ReverseBits_spec, !Nat2Z.id by lia. change (bitrev k (Z.of_nat i)) with (rev k i).
    assert (bitrev k (raut_index (k := k) K i) = rev k (Z.to_nat (raut_index (k := k) K i))) as -> by (unfold rev; by rewrite Z2Nat.id by lia).
    pose proof (rev_index k i Hi) as [Hri _]. rewrite vset_lt by (rewrite Lv; exact Hri). apply returns_ok. split; [by rewrite length_insert|].
    intros j Hj. exact (insert_reversed (k := k) vec i _ (fun j => Z.to_nat (rev k (Z.to_nat (raut_index (k := k) K j)))) Lv Hi eq_refl Hv j Hj).
Qed.

Lemma AutomorphismTransform_precomp_of K vec a : auto_exponent K -> wf a -> length vec = n ->
  (forall j, (j < n)%nat -> vec !!! Z.to_nat (rev k j) = Z.to_nat (rev k (Z.to_nat (raut_index (k := k) K j)))) ->
  AutomorphismTransform_precomp (of_ EVALUATION a) K vec = Ok (of_ EVALUATION (raut q n K a)).
Proof using HR.
  clear Hg HgQ HGq Hps Hs Hsg Hsl Hep. intros [[HK HK0] HK32] Ha Lv Hv. unfold AutomorphismTransform_precomp.
  cbn [poly_of p_params p_format ring_par ringDimension cyclotomicOrder ciphertextModulus]. rewrite bool_decide_eq_true_2, (dimension_of (k := k)) by done. cbn [negb orb].
  assert ((K mod 2 =? 0) = false) as -> by (rewrite Zmod_odd, HK; done). unfold values. cbn [poly_of p_values data]. rewrite bind_ok. cbn [data].
  rewrite (tabulateM_ok n _ (fun j => ntt q psi k a !!! (vec !!! j))).
  - rewrite bind_ok. unfold with_values, poly_of. do 4 f_equal. apply (values_of_raut (HR := HR) K HK ltac:(lia)); [done|apply length_tab|].
    intros j Hj. pose proof (rev_index k j Hj) as [Hrj _]. rewrite lookup_total_tab by done. by rewrite Hv.
  - intros j Hj. rewrite vget_total, bind_ok by lia. apply vget_total. rewrite length_ntt.
    pose proof (rev_index k j Hj) as [Hrj Ej]. specialize (Hv (Z.to_nat (rev k j)) Hrj). rewrite Ej, Nat2Z.id in Hv. rewrite Hv.
    pose proof (raut_index_bound (k := k) K (Z.to_nat (rev k j))) as Hidx. pose proof (dim_pow (k := k)). apply (rev_index k). unfold n in *. lia.
Qed.

(** ** Keys of an automorphism *)
Definition auto_rel (K : Z) (e A C : nat -> list Z) : Prop :=
  forall i x, (i < G)%nat -> (x < n)%nat ->
    slot_ x (C i) - slot_ x s * slot_ x (A i) ≡[q] slot_ x (e i) - slot_ x (raut q n K s) * B ^ (Z.of_nat i + 1).
Definition auto_key (K : Z) (key : RingGSWEvalKey) : Prop :=
  exists e A C, key = rows_ G A C /\ auto_rel K e A C /\ forall i, (i < G)%nat -> wf (e i) /\ wf (A i) /\ wf (C i) /\ l1_le q n ep (e i).

Definition good_auto_sample (smp : nat -> NativeVector * NativeVector) : Prop :=
  exists a e, forall i, (i < G)%nat -> smp i = (NVec q (a i), NVec q (e i)) /\ wf (a i) /\ wf (e i) /\ l1_le q n ep (e i).

Lemma KeyGenAuto_spec K smp : auto_exponent K -> good_auto_sample smp ->
  returns (KeyGenAuto arb ps (of_ EVALUATION s) K smp st) (fun r => r.1 = st /\ auto_key K r.2).
Proof using HR Hps Hs Hg.
  clear HgQ HGq Hsg Hsl Hep. intros [[HK HK0] HK32] (a & e & Hsmp). pose proof (nm_bounds (w := W) (m := q)) as Hq.
  pose proof (raut_wf k K s Hs) as Wr. unfold KeyGenAuto. rewrite Z.mod_small, (Automorphism_evaluation (HR := HR)), bind_ok by (done || lia).
  rewrite (rp_digitsG Hps), Nat.sub_succ, Nat.sub_0_r, (rp_polyParams Hps).
  set (C := fun i => radd q (rsub q (e i) (rscale q ((B ^ (Z.of_nat i + 1)) mod q) (raut q n K s))) (rmul q n (a i) s)).
  rewrite (tabulateS_ok G _ (fun i => (of_ EVALUATION (a i), of_ EVALUATION (C i)))).
  - apply returns_ok. split; [done|]. exists e, a, C. split; [done|]. split.
    + intros i x Hi Hx. destruct (Hsmp i Hi) as (_ & Wa & We & _). unfold C.
      pose proof (rmul_wf k (a i) s) as W1. pose proof (rscale_wf k ((B ^ (Z.of_nat i + 1)) mod q) _ Wr) as W2. pose proof (rsub_wf k _ _ We W2) as W3.
      rewrite (slot_radd (HR := HR)), (slot_rsub (HR := HR)), (slot_rscale (HR := HR)), (slot_rmul (HR := HR)), eqm_mod by done. apply eqm_refl. ring.
    + intros i Hi. destruct (Hsmp i Hi) as (_ & Wa & We & Be). split; [done|]. split; [done|]. split; [|done]. unfold C.
      apply radd_wf; [apply rsub_wf; [done|by apply rscale_wf]|apply rmul_wf].
  - intros i Hi. destruct (Hsmp i Hi) as (-> & Wa & We & _). cbn [fst snd]. pose proof (rmul_wf k (a i) s) as W1.
    pose proof (rscale_wf k ((B ^ (Z.of_nat i + 1)) mod q) _ Wr) as W2. pose proof (rsub_wf k _ _ We W2) as W3.
    rewrite (sampled_spec (HR := HR)), bind_ok by done. cbn [fst snd]. rewrite (sampled_spec (HR := HR)), bind_ok by done. cbn [fst snd].
    rewrite (vget_lookup _ _ _ (rp_Gpower Hps (i + 1) ltac:(lia))), bind_ok. replace (Z.of_nat (i + 1)) with (Z.of_nat i + 1) by lia.
    rewrite (TimesInt_of (HR := HR)), bind_ok by (done || apply Z.mod_pos_bound; lia).
    rewrite (Minus_of (HR := HR)), bind_ok, (Times_of (HR := HR)), bind_ok, (PlusEq_of (HR := HR)), bind_ok by done. done.
Qed.

(** ** The switch back to the key *)
Definition auto_product (K : Z) (h : nat -> list Z) (c : list Z) : list Z := rsum q n G (fun i => rmul q n (gadget_digit q B k i (raut q n K c)) (h i)).
Definition auto_noise (K : Z) (e : nat -> list Z) (c0 : list Z) : list Z := radd q (auto_product K e c0) (rmul q n (raut q n K s) (drop (raut q n K c0))).
Definition auto_bound : Z := Z.of_nat G * (B / 2 * ep) + sg * drop_bound_.

Lemma auto_product_wf K h c : wf (auto_product K h c).
Proof using HR. clear Hg HgQ HGq. apply (rsum_wf (HR := HR)). intros. apply rmul_wf. Qed.

Lemma slot_auto_product x K h c : (x < n)%nat -> (forall i, (i < G)%nat -> wf (h i)) ->
  slot_ x (auto_product K h c) ≡[q] sumZ G (fun i => slot_ x (gadget_digit q B k i (raut q n K c)) * slot_ x (h i)).
Proof using HR. clear Hg HgQ HGq. intros Hx Hh. apply (slot_dot (HR := HR)); [done|intros; apply gadget_digit_wf|done]. Qed.

Lemma auto_noise_bound K e c0 : odd_pos K -> wf c0 -> (forall i, (i < G)%nat -> wf (e i) /\ l1_le q n ep (e i)) ->
  wf (auto_noise K e c0) /\ inf_le q n auto_bound (auto_noise K e c0).
Proof using HR Hg HGq Hs Hsl Hep.
  clear HgQ Hps Hsg. intros HK H0 He. pose proof (drop_bound_nonneg (q := q) g Hg G HGq) as Hd. pose proof (raut_wf k K _ H0) as W0.
  assert (0 <= B / 2) as HB2 by (apply Z.div_pos; [apply Z.pow_nonneg|]; lia). pose proof (auto_product_wf K e c0) as W1.
  pose proof (rmul_wf k (raut q n K s) (drop (raut q n K c0))) as W2. split; [by apply radd_wf|].
  apply inf_radd; [apply W1|apply W2| |].
  - apply (inf_rsum (HR := HR)); [intros; apply rmul_wf|]. intros i Hi. destruct (He i Hi) as [We Be].
    apply (inf_rmul_r (HR := HR)); [apply gadget_digit_wf|done|done|by apply gadget_digit_inf|done].
  - apply inf_rmul; [done|by apply l1_raut|]. by apply (dropped_inf (HR := HR)).
Qed.

Lemma auto_phase K e A C c0 c1 : odd_pos K -> wf c0 -> wf c1 -> auto_rel K e A C ->
  (forall i, (i < G)%nat -> wf (e i) /\ wf (A i) /\ wf (C i)) ->
  rlwe_phase (q := q) (k := k) s (auto_product K A c0) (radd q (raut q n K c1) (auto_product K C c0)) =
    radd q (raut q n K (rlwe_phase (q := q) (k := k) s c0 c1)) (auto_noise K e c0).
Proof using HR Hg Hs.
  clear HgQ HGq Hps Hsg Hsl Hep. intros HK H0 H1 Hrel Hw. pose proof HK as [HK1 HK0].
  pose proof (raut_wf k K _ H0) as R0. pose proof (raut_wf k K _ H1) as R1. pose proof (raut_wf k K _ Hs) as Rs. pose proof (rmul_wf k s c0) as W0.
  pose proof (auto_product_wf K e c0) as W1. pose proof (auto_product_wf K A c0) as W2. pose proof (auto_product_wf K C c0) as W3.
  pose proof (dropped_wf (HR := HR) g G (raut q n K c0)) as W4. pose proof (rmul_wf k (raut q n K s) (drop (raut q n K c0))) as W5.
  pose proof (radd_wf k _ _ R1 W3) as W6. pose proof (rmul_wf k s (auto_product K A c0)) as W7. pose proof (rmul_wf k (raut q n K s) (raut q n K c0)) as W8.
  pose proof (rsub_wf k _ _ R1 W8) as W9. pose proof (radd_wf k _ _ W1 W5) as W10. unfold auto_noise, rlwe_phase.
  rewrite (raut_rsub (HR := HR)), (raut_rmul (HR := HR)) by done. apply (slot_ext (HR := HR)); [by apply rsub_wf|by apply radd_wf|]. intros x Hx.
  repeat first [rewrite (slot_rsub (HR := HR)) by done | rewrite (slot_radd (HR := HR)) by done | rewrite (slot_rmul (HR := HR)) by done].
  rewrite !slot_auto_product by (done || (intros; by apply Hw)).
  assert (slot_ x (drop (raut q n K c0)) ≡[q] slot_ x (raut q n K c0) - sumZ G (fun i => B ^ (Z.of_nat i + 1) * slot_ x (gadget_digit q B k i (raut q n K c0)))) as ->.
  { rewrite (slot_gadget (HR := HR) g Hg G x (raut q n K c0) Hx R0). apply eqm_refl. ring. }
  set (D := fun i => slot_ x (gadget_digit q B k i (raut q n K c0))).
  transitivity (slot_ x (raut q n K c1) + sumZ G (fun i => D i * (slot_ x (C i) - slot_ x s * slot_ x (A i)))).
  { rewrite <- sumZ_scale. rewrite <- Z.add_sub_assoc, <- sumZ_sub. apply eqm_refl. f_equal. apply sumZ_ext. intros i Hi. unfold D. ring. }
  rewrite (sumZ_eqm q G _ (fun i => D i * slot_ x (e i) - slot_ x (raut q n K s) * (B ^ (Z.of_nat i + 1) * D i))).
  2: { intros i Hi. rewrite (Hrel i x Hi Hx). apply eqm_refl. ring. }
  rewrite sumZ_sub, sumZ_scale. apply eqm_refl. unfold D. ring.
Qed.

(** The loops that add a product to an element. *)
Lemma add_products_spec times (sel : NativePoly * NativePoly -> NativePoly) z d A C h : is_times (q := q) (psi := psi) (k := k) times -> wf z ->
  (forall i, (i < G)%nat -> wf (d i) /\ wf (h i) /\ sel (of_ EVALUATION (A i), of_ EVALUATION (C i)) = of_ EVALUATION (h i)) ->
  for_ G (fun i s => x ← vget (polys_ G d) i; y ← vget (rows_ G A C) i; t ← times x (sel y); PlusEq s t) (of_ EVALUATION z) =
    Ok (of_ EVALUATION (radd q z (rsum q n G (fun i => rmul q n (d i) (h i))))).
Proof using HR.
  clear Hg HgQ HGq Hps Hs Hsg Hsl Hep. intros HT Hz H. set (F := fun i => rmul q n (d i) (h i)). rewrite <- (radd_0_r (HR := HR) z Hz) at 1.
  assert (forall i, wf (F i)) as WF by (intros; apply rmul_wf).
  assert (forall i, wf (rsum q n i F)) as WS by (intros; by apply (rsum_wf (HR := HR))).
  apply (for_states _ G (fun i => of_ EVALUATION (radd q z (rsum q n i F)))). intros i Hi. destruct (H i Hi) as (Wd & Wh & Es).
  rewrite polys_get, bind_ok, rows_get, bind_ok, Es, HT, bind_ok by done. fold (F i). pose proof (radd_wf k _ _ Hz (WS i)) as W1.
  rewrite (PlusEq_of (HR := HR)) by done. do 2 f_equal. cbn [rsum]. pose proof (radd_wf k _ _ (WS i) (WF i)) as W2.
  apply (slot_ext (HR := HR)); [by apply radd_wf|by apply radd_wf|]. intros x Hx. rewrite !(slot_radd (HR := HR)) by done. apply eqm_refl. ring.
Qed.

(** The accumulator of [v] becomes an accumulator of the transformed [v]. *)
Lemma Automorphism_step K ak v T b acc : auto_exponent K -> auto_key K ak -> wf v -> 0 <= b -> state_ v T b acc ->
  returns (RgswAcc.Automorphism arb ps K ak acc st) (fun r => r.1 = st /\ state_ (raut q n K v) (K * T) (b + auto_bound) r.2).
Proof using All.
  intros HK (e & A & C & -> & Hrel & Hw) Hv Hb (c0 & c1 & -> & H0 & H1 & Hr). pose proof HK as [HKo HK32]. pose proof HKo as [HK1 HK0].
  unfold RgswAcc.Automorphism, ConvertToInt. rewrite (rp_digitsG Hps), (rp_N Hps), (rp_polyParams Hps), (rp_Q Hps), (rp_baseG Hps), Nat.sub_succ, Nat.sub_0_r, Z.mod_small by lia.
  eapply returns_bind; [by apply PrecomputeAutoMap_spec|]. intros vec [Lv Ev]. cbn [fst snd].
  rewrite !AutomorphismTransform_precomp_of, !bind_ok by done. pose proof (raut_wf k K _ H0) as R0. pose proof (raut_wf k K _ H1) as R1.
  rewrite (SetFormat_of (HR := HR)), bind_ok by done. cbn [fst snd]. rewrite (decompose_spec (HR := HR) arb g G _ Hg HgQ R0), bind_ok. cbn [fst snd].
  set (d := fun i => gadget_digit q B k i (raut q n K c0)).
  assert (SetValuesToZero (of_ EVALUATION c0) = of_ EVALUATION (rzero n)) as -> by exact (zero_of (HR := HR) EVALUATION).
  rewrite (add_products_spec Times fst (rzero n) d A C A), bind_ok; [|by apply Times_is_times|apply rzero_wf|].
  2: { intros i Hi. split; [apply gadget_digit_wf|]. split; [by apply Hw|done]. }
  rewrite (add_products_spec TimesEq snd (raut q n K c1) d A C C), bind_ok; [|by apply TimesEq_is_times|done|].
  2: { intros i Hi. split; [apply gadget_digit_wf|]. split; [by apply Hw|done]. }
  apply returns_ok. split; [done|]. cbn [snd]. pose proof (auto_product_wf K A c0) as WA. pose proof (auto_product_wf K C c0) as WC.
  rewrite (radd_0_l (HR := HR)) by exact WA. exists (auto_product K A c0), (radd q (raut q n K c1) (auto_product K C c0)).
  split; [done|]. split; [done|]. split; [by apply radd_wf|].
  rewrite (auto_phase K e A C c0 c1 HKo H0 H1 Hrel) by (intros i Hi; split; [|split]; by apply Hw).
  destruct (auto_noise_bound K e c0 HKo H0) as [N1 N2]; [intros i Hi; split; by apply Hw|].
  pose proof (rlwe_phase_wf (HR := HR) s c0 c1 H1) as Wp.
  apply (rotated_add (HR := HR)); [done|done|]. by apply (rotated_raut (HR := HR)).
Qed.
End AutoSteps.
