(* ===== verification/LmkRotation.v ===== *)
(** * The blind rotation of LMKCDEY

    [RingGSWAccumulatorLMKCDEY] sorts the entries of the mask, made odd, by
    their logarithms to the base 5 and a sign, and rotates with one external
    product per entry: between two logarithms it applies the automorphism
    [x -> x^5], several steps at once.  Here: the buckets of [LogTable]'s
    logarithms, the loop over them, the whole rotation, as an instance of
    [BlindRotation] whose error comes from making the entries odd, and its keys. *)

From Stdlib Require Import ZArith Lia String.
From stdpp Require Import base tactics numbers list strings gmap.
From S2P Require Import Prelude Double NativeInt NativeIntFacts ModArith NativeVec SchemeCore Negacyclic BitReverse Ntt NttFacts NttSpec NttRing Poly PolyFacts Automorphism Gadget RingNoise AccCore AccCoreFacts RgswAcc LogTable RgswFacts RgswRotation RgswKeys AutoKeys.

(** ** The buckets *)
Section Buckets.
Context {st : FTT} {q psi : Z} {k : nat} {HR : RingTransform st q psi k} (arb : FTT -> NativePoly -> res (FTT * NativePoly)).
Context (g : Z) (Hg : 1 <= g <= 31) (HgQ : 2 ^ g <= q) (G : nat) (HG : (0 < G)%nat) (HGq : q <= (2 ^ g) ^ Z.of_nat (S G)).
Context (ps : RingGSWCryptoParams) (Hps : rgsw_params ps q psi k g G) (Hmeth : r_method ps = LMKCDEY) (Hk : (2 <= k)%nat).
Context (s : list Z) (sg : Z) (Hs : wf_data (q := q) k s) (Hsg : 0 <= sg) (Hsl : l1_le q (2 ^ k) sg s).
Context (ep : Z) (Hep : 0 <= ep).
Context (t a : nat -> Z) (nn : nat) (mod_ : Z) (Hmod : 0 < mod_) (Hdiv : (mod_ | 2 * Z.of_nat (2 ^ k))) (Ha : forall i, (i < nn)%nat -> reduced mod_ (a i)).
Context (Hnum : (1 <= r_numAutoKeys ps)%nat /\ Z.of_nat (r_numAutoKeys ps) < 2 ^ 32) (ek : RingGSWACCKey).
Abbreviation n := (2 ^ k)%nat.
Abbreviation Nh := (2 ^ k / 2)%nat.
Abbreviation M := (2 * Z.of_nat n).
Abbreviation wf := (wf_data (q := q) k).
Abbreviation of_ := (poly_of q psi k).
Abbreviation rgsw_ := (rgsw (q := q) (psi := psi) (k := k) g G s).
Abbreviation state_ := (rlwe_state (q := q) (psi := psi) (k := k) s).
Abbreviation auto_key_ := (auto_key (q := q) (psi := psi) (k := k) g G s ep).
Abbreviation E := (ext_bound (q := q) g G sg ep 1).
Abbreviation A := (auto_bound (q := q) g G sg ep).
Abbreviation factor := (2 * Z.of_nat n / mod_).

#[local] Instance buckets_modulus : NativeModulus W q.
Proof using HR. exact rt_modulus. Qed.

(** What [KeyGenAcc] makes for the secret [t]. *)
Definition lmk_keys : Prop :=
  (forall i, (i < nn)%nat -> exists key, get_key ek 0 0 i = Ok key /\ rgsw_ (mono q n (t i * factor)) ep key) /\
  (exists key, get_key ek 0 1 0 = Ok key /\ auto_key_ (M - 5) key) /\
  (forall i, (1 <= i <= r_numAutoKeys ps)%nat -> exists key, get_key ek 0 1 i = Ok key /\ auto_key_ (5 ^ Z.of_nat i mod M) key).
Context (Hek : lmk_keys).

Lemma dim_half : Z.of_nat Nh = 2 ^ (Z.of_nat k - 1) /\ M = 4 * 2 ^ (Z.of_nat k - 1) /\ (2 <= Nh)%nat /\ 8 <= M <= 2 ^ 25.
Proof using HR Hk. clear - HR Hk. apply half_dim. pose proof (rt_dim (RingTransform := HR)). lia. Qed.

Lemma logs_right : log_right k (r_logGen ps).
Proof using HR Hk Hps Hmeth.
  clear - HR Hk Hps Hmeth. pose proof (rt_dim (RingTransform := HR)). destruct (log_table_spec k ltac:(lia)) as (l & El & Hl).
  rewrite (proj2 (rp_logGen Hps Hmeth)) in El. by injection El as <-.
Qed.

(** The negated entry, made odd; and its logarithm. *)
Definition odd_entry (i : nat) : Z := Z.lor ((- a i) mod M) 1.
Definition log_of (i : nat) : Z := r_logGen ps !!! Z.to_nat (odd_entry i).

Definition odd_error (i : nat) : Z := if Z.odd ((- a i) mod M) then 0 else 1.

Lemma odd_entry_spec i : 0 <= odd_entry i < M /\ Z.odd (odd_entry i) = true /\ odd_entry i ≡[M] - a i + odd_error i.
Proof using HR Hk.
  clear - HR Hk. destruct dim_half as (EN & EM & HNh & HM). unfold odd_entry, odd_error. set (y := (- a i) mod M).
  assert (0 <= y < M) as Hy by (apply Z.mod_pos_bound; lia). assert (y ≡[M] - a i) as Ey by apply eqm_mod.
  assert (Z.lor y 1 = if Z.odd y then y else y + 1) as ->.
  { destruct (Z.odd y) eqn:Eo.
    - apply Z.bits_inj'. intros b Hb. rewrite Z.lor_spec. destruct (Z.eq_dec b 0) as [->|Hne]; [by rewrite Z.bit0_odd, Eo|].
      rewrite (Z.bits_above_log2 1 b) by (cbn; lia). by rewrite orb_false_r.
    - assert (Z.land y 1 = 0) as El by (by rewrite land_1_mod, Zmod_odd, Eo). pose proof (Z.add_nocarry_lxor y 1 El) as Hx. rewrite Hx. symmetry. apply Z.lxor_lor, El. }
  destruct (Z.odd y) eqn:Eo.
  - split; [done|]. split; [done|]. rewrite Ey. apply eqm_refl. ring.
  - assert (y <> M - 1) as Hne. { intros E. rewrite E, EM, Z.odd_sub, Z.odd_mul in Eo. done. }
    split; [lia|]. split; [by rewrite Z.odd_add, Eo|]. by rewrite Ey.
Qed.

Lemma log_of_spec i : valid_log k (log_of i) /\ log_exponent k (log_of i) ≡[M] odd_entry i.
Proof using HR Hk Hps Hmeth. clear - HR Hk Hps Hmeth. destruct (odd_entry_spec i) as (H1 & H2 & _). by apply logs_right. Qed.

Lemma permute_map_spec : returns (permute_map ps M (map a (seq 0 nn))) (fun m => forall x, default [] (m !! x) = filter (fun i => log_of i = x) (seq 0 nn)).
Proof using HR Hk Hps Hmeth Hmod Hdiv Ha.
  clear - HR Hk Hps Hmeth Hmod Hdiv Ha. destruct dim_half as (EN & EM & HNh & HM). destruct logs_right as [Ll Hl]. unfold permute_map. rewrite length_tab.
  apply (returns_for (fun j (m : gmap Z (list nat)) => forall x, default [] (m !! x) = filter (fun i => log_of i = x) (seq 0 j))).
  - intros x. by rewrite lookup_empty.
  - intros j m Hj Hm. rewrite (vget_lookup _ _ _ (lookup_tab _ _ _ Hj)), bind_ok. specialize (Ha j Hj). unfold reduced in Ha.
    assert (mod_ <= M) as Hle by (apply Z.divide_pos_le; [lia|done]).
    assert (NativeModulus W M) as HMm by (apply native_modulus_bits; unfold W; lia).
    rewrite (nm_sub (w := W)) by (unfold reduced; lia). change (0 - a j) with (- a j). unfold ConvertToInt.
    destruct (odd_entry_spec j) as (Ho & _ & _). pose proof (Z.mod_pos_bound (- a j) M ltac:(lia)) as Hy. rewrite Z.mod_small by lia. fold (odd_entry j).
    rewrite vget_total, bind_ok by lia. fold (log_of j). apply returns_ok. intros x. rewrite seq_S, filter_app, Nat.add_0_l. cbn [filter list_filter].
    destruct (decide (log_of j = x)) as [<-|Hne].
    + by rewrite lookup_insert_eq, (Hm (log_of j)).
    + by rewrite lookup_insert_ne, (Hm x), app_nil_r.
Qed.

(** The sum of [f] over the entries of one logarithm. *)
Definition log_sum (f : nat -> Z) (x : Z) : Z := sumZ nn (fun i => if decide (log_of i = x) then f i else 0).

Lemma sum_filter (P : nat -> Prop) `{!forall i, Decision (P i)} (f : nat -> Z) m :
  sumZ (length (filter P (seq 0 m))) (fun j => f (filter P (seq 0 m) !!! j)) = sumZ m (fun i => if decide (P i) then f i else 0).
Proof using Type.
  clear. induction m as [|m IH]; [done|]. rewrite seq_S, filter_app, Nat.add_0_l. cbn [filter list_filter sumZ]. destruct (decide (P m)) as [Hp|Hp].
  - rewrite length_app, <- IH. cbn [length]. rewrite Nat.add_1_r. cbn [sumZ]. f_equal.
    + apply sumZ_ext. intros j Hj. by rewrite lookup_total_app_l by done.
    + f_equal. rewrite lookup_total_app_r, Nat.sub_diag by lia. done.
  - by rewrite app_nil_r, IH, Z.add_0_r.
Qed.

Lemma ext_nonneg : 0 <= E /\ 0 <= A.
Proof using Hg HG HGq Hsg Hep.
  clear - Hg HG HGq Hsg Hep. destruct (drop_nonneg (q := q) g Hg G HG HGq sg Hsg) as [HD HB]. pose proof (drop_bound_nonneg (q := q) g Hg G HGq) as Hd.
  unfold ext_bound, auto_bound. split; nia.
Qed.

Lemma add_bucket_spec x v T b acc : wf v -> 0 <= b -> state_ v T b acc ->
  returns (add_bucket arb ps ek (filter (fun i => log_of i = x) (seq 0 nn)) (st, acc))
    (fun r => r.1 = st /\ state_ v (T + log_sum (fun i => t i * factor) x) (b + log_sum (fun _ => 1) x * E) r.2).
Proof using All.
  clear Hmeth Hk. intros Hv Hb Hacc. destruct ext_nonneg as [HE _]. set (l := filter (fun i => log_of i = x) (seq 0 nn)). destruct Hek as (Hkeys & _ & _).
  assert (log_sum (fun _ => 1) x = Z.of_nat (length l)) as ->.
  { unfold log_sum. rewrite <- (sum_filter (fun i => log_of i = x) (fun _ => 1)). fold l. induction (length l) as [|m IH]; cbn [sumZ]; lia. }
  unfold log_sum. rewrite <- (sum_filter (fun i => log_of i = x) (fun i => t i * factor)). fold l.
  apply state_loop; [done|done|done|]. intros j T' b' acc' Hj Hb' Hacc'. rewrite vget_total, bind_ok by done.
  assert (l !!! j < nn)%nat as Hin.
  { assert (l !!! j ∈ l) as Hl by (by apply list_elem_of_lookup_total_2). apply list_elem_of_filter in Hl as [_ Hl%elem_of_seq]. lia. }
  destruct (Hkeys _ Hin) as (key & -> & Hkey). rewrite bind_ok. cbn [fst snd].
  by apply (AddToAccDM_step (HR := HR) arb g Hg HgQ G HG HGq ps Hps s sg Hs Hsg Hsl key ep).
Qed.

(** ** The loop over the logarithms *)
Lemma five_exponent j : auto_exponent (5 ^ Z.of_nat j mod M) /\ odd_pos (5 ^ Z.of_nat j).
Proof using HR Hk.
  clear - HR Hk. destruct dim_half as (EN & EM & HNh & HM). pose proof (Z.mod_pos_bound (5 ^ Z.of_nat j) M ltac:(lia)) as Hb.
  assert (Z.odd (5 ^ Z.of_nat j) = true) as Ho by (apply five_odd; lia).
  assert (Z.odd (5 ^ Z.of_nat j mod M) = true) as Ho'.
  { rewrite Z.mod_eq, Z.odd_sub, Ho, <- Z.mul_assoc, Z.odd_mul by lia. done. }
  split; [|split; [done|by apply Z.pow_pos_nonneg; lia]]. split; [|lia]. split; [done|].
  destruct (decide (5 ^ Z.of_nat j mod M = 0)) as [E0|]; [by rewrite E0 in Ho'|lia].
Qed.

Lemma rotate_skips_spec ns w T b acc : (1 <= ns <= r_numAutoKeys ps)%nat -> wf w -> 0 <= b -> state_ w T b acc ->
  returns (rotate_skips arb ps M ek ns (st, acc)) (fun r => r.1 = st /\ state_ (raut q n (5 ^ Z.of_nat ns) w) (5 ^ Z.of_nat ns * T) (b + A) r.2).
Proof using All.
  intros Hns Hw Hb Hacc. destruct dim_half as (EN & EM & HNh & HM). destruct Hek as (_ & _ & Hkeys). destruct (Hkeys ns Hns) as (key & Eg & Hkey).
  assert (NativeModulus W M) as HMm by (apply native_modulus_bits; unfold W; lia).
  unfold rotate_skips, gen. rewrite (nm_exp (w := W)) by (unfold W; lia). rewrite bind_ok, Eg, bind_ok. cbn [fst snd].
  destruct (five_exponent ns) as [HK HO]. assert (5 ^ Z.of_nat ns mod M ≡[M] 5 ^ Z.of_nat ns) as Em by apply eqm_mod.
  eapply returns_mono; [apply (Automorphism_step (HR := HR) arb g Hg HgQ G HGq ps Hps s sg Hs Hsg Hsl ep Hep _ key w T b acc HK Hkey Hw Hb Hacc)|].
  intros r [E1 E2]. split; [done|]. rewrite <- (raut_periodic (HR := HR) _ _ w (proj1 HK) HO Em Hw).
  eapply state_periodic; [|exact E2]. by rewrite Em.
Qed.

(** The exponent and the number of products after [j] turns of the loop of
    [sign], which starts from the exponent [T]. *)
Definition turn_exponent (sign T : Z) (j : nat) : Z :=
  5 ^ Z.of_nat j * T + sumZ j (fun i => 5 ^ Z.of_nat (j - i) * log_sum (fun i => t i * factor) (sign * Z.of_nat (Nh - 1 - i))).
Definition turn_products (sign : Z) (j : nat) : Z := sumZ j (fun i => log_sum (fun _ => 1) (sign * Z.of_nat (Nh - 1 - i))).

Lemma turn_exponent_S sign T j :
  turn_exponent sign T (S j) = 5 * (turn_exponent sign T j + log_sum (fun i => t i * factor) (sign * Z.of_nat (Nh - 1 - j))).
Proof using Type.
  clear. unfold turn_exponent. cbn [sumZ]. rewrite Nat2Z.inj_succ, Z.pow_succ_r, Nat.sub_succ_l, Nat.sub_diag by lia.
  rewrite (sumZ_ext j _ (fun i => 5 * (5 ^ Z.of_nat (j - i) * log_sum (fun i => t i * factor) (sign * Z.of_nat (Nh - 1 - i))))).
  - rewrite sumZ_scale. change (Z.of_nat 1) with 1. rewrite Z.pow_1_r. ring.
  - intros i Hi. rewrite Nat.sub_succ_l, Nat2Z.inj_succ, Z.pow_succ_r by lia. ring.
Qed.

Lemma log_sum_nonneg x : 0 <= log_sum (fun _ => 1) x.
Proof using Type. clear. unfold log_sum. induction nn as [|m IH]; cbn [sumZ]; [done|]. destruct (decide _); lia. Qed.

Lemma turn_products_nonneg sign j : 0 <= turn_products sign j.
Proof using Type.
  clear. unfold turn_products. induction j as [|j IH]; cbn [sumZ]; [done|]. pose proof (log_sum_nonneg (sign * Z.of_nat (Nh - 1 - j))). lia.
Qed.

(** With [ns] rotations by 5 that are not yet applied: the accumulator is that
    of [5^(j-ns) u], and its exponent will be [T] once they are. *)
Definition pending (v : list Z) (u b T cnt : Z) (j ns : nat) (x : FTT * RLWECiphertext) : Prop :=
  x.1 = st /\ (ns <= j)%nat /\ exists T', 5 ^ Z.of_nat ns * T' ≡[M] T /\
    state_ (raut q n (5 ^ Z.of_nat (j - ns) * u) v) T' (b + cnt * E + Z.of_nat (j - ns) * A) x.2.

Lemma pending_flush v u b T cnt j ns x : wf v -> odd_pos u -> 0 <= b -> 0 <= cnt -> (ns <= r_numAutoKeys ps)%nat -> pending v u b T cnt j ns x ->
  returns (if (ns =? 0)%nat then Ok x else rotate_skips arb ps M ek ns x) (pending v u b T cnt j 0).
Proof using All.
  intros Hv Hu Hb Hcnt Hns (Ex & Hj & T' & HT & Hx). destruct x as [st' acc]. cbn [fst snd] in *. subst st'. destruct ext_nonneg as [HE HA].
  destruct (Nat.eqb_spec ns 0) as [->|Hne].
  - apply returns_ok. split; [done|]. split; [lia|]. by exists T'.
  - assert (forall i, odd_pos (5 ^ Z.of_nat i)) as H5 by (intros i; by apply five_exponent).
    pose proof (odd_pos_mul (5 ^ Z.of_nat (j - ns)) u (H5 (j - ns)%nat) Hu) as Hu'. pose proof Hu' as [Hu1 Hu2].
    eapply returns_mono; [apply (rotate_skips_spec ns (raut q n (5 ^ Z.of_nat (j - ns) * u) v) T' (b + cnt * E + Z.of_nat (j - ns) * A) acc); [lia|by apply raut_wf| |exact Hx]; nia|].
    intros r [E1 E2]. split; [done|]. split; [lia|]. exists (5 ^ Z.of_nat ns * T'). split; [by rewrite Z.mul_1_l|].
    rewrite (raut_raut (HR := HR)) in E2 by done. rewrite Nat.sub_0_r.
    replace (5 ^ Z.of_nat j * u) with (5 ^ Z.of_nat ns * (5 ^ Z.of_nat (j - ns) * u)).
    + eapply state_mono; [|exact E2]. nia.
    + rewrite Z.mul_assoc, <- Z.pow_add_r by lia. do 2 f_equal. lia.
Qed.

Definition bucket_map (m : gmap Z (list nat)) : Prop := forall x, default [] (m !! x) = filter (fun i => log_of i = x) (seq 0 nn).

Lemma log_sum_empty f x : filter (fun i => log_of i = x) (seq 0 nn) = [] -> log_sum f x = 0.
Proof using Type. clear. intros E0. unfold log_sum. by rewrite <- (sum_filter (fun i => log_of i = x) f), E0. Qed.

(** The first half of a turn: the bucket, after the rotations that wait. *)
Lemma bucket_turn m sign v u b T cnt j ns x : bucket_map m -> wf v -> odd_pos u -> 0 <= b -> 0 <= cnt -> (ns < r_numAutoKeys ps)%nat ->
  pending v u b T cnt j ns x -> let i := sign * Z.of_nat (Nh - 1 - j) in
  returns (match m !! i with
           | None => Ok (ns, x)
           | Some l => x ← (if (ns =? 0)%nat then Ok (ns, x) else y ← rotate_skips arb ps M ek ns x; Ok (0%nat, y));
                       y ← add_bucket arb ps ek l x.2; Ok (x.1, y)
           end)
    (fun r => (r.1 < r_numAutoKeys ps)%nat /\ pending v u b (T + log_sum (fun i => t i * factor) i) (cnt + log_sum (fun _ => 1) i) j r.1 r.2).
Proof using All.
  intros Hm Hv Hu Hb Hcnt Hns Hx i. pose proof (log_sum_nonneg i) as Hpos. specialize (Hm i). destruct ext_nonneg as [HE HA]. destruct (m !! i) as [l|]; cbn in Hm.
  - pose proof (pending_flush v u b T cnt j ns x Hv Hu Hb Hcnt ltac:(lia) Hx) as Hfl.
    eapply (returns_bind _ _ (fun r => r.1 = 0%nat /\ pending v u b T cnt j 0 r.2)).
    + revert Hfl. destruct (Nat.eqb_spec ns 0) as [->|Hne]; intros Hfl; [by apply returns_ok|].
      eapply returns_bind; [exact Hfl|]. intros y Hy. by apply returns_ok.
    + intros [ns' [st' acc]] [-> (E1 & _ & T' & HT & Hacc)]. cbn [fst snd] in *. subst st'. rewrite Hm.
      destruct Hu as [Hu1 Hu2]. assert (0 <= b + cnt * E + Z.of_nat (j - 0) * A) as Hb' by nia.
      eapply returns_bind; [apply (add_bucket_spec i (raut q n (5 ^ Z.of_nat (j - 0) * u) v) T' (b + cnt * E + Z.of_nat (j - 0) * A) acc); [apply raut_wf, Hv|exact Hb'|exact Hacc]|].
      intros y [E2 Hy]. apply returns_ok. cbn [fst snd]. split; [lia|]. split; [done|]. split; [lia|]. eexists. split; [|eapply state_mono; [|exact Hy]; lia].
      rewrite Nat2Z.inj_0, Z.pow_0_r, Z.mul_1_l in HT |- *. by rewrite HT.
  - apply returns_ok. split; [done|]. cbn [fst snd]. by rewrite !(log_sum_empty _ i), !Z.add_0_r.
Qed.

Lemma bucket_loop_spec m sign v u b T acc : bucket_map m -> wf v -> odd_pos u -> 0 <= b -> state_ (raut q n u v) T b acc ->
  returns (bucket_loop arb ps M ek m sign Nh (0%nat, (st, acc)))
    (fun r => r.1 = 0%nat /\ r.2.1 = st /\ state_ (raut q n (5 ^ Z.of_nat (Nh - 1) * u) v) (turn_exponent sign T (Nh - 1))
       (b + turn_products sign (Nh - 1) * E + Z.of_nat (Nh - 1) * A) r.2.2).
Proof using All.
  intros Hm Hv Hu Hb Hacc. destruct dim_half as (EN & EM & HNh & HM). unfold bucket_loop.
  eapply returns_mono; [apply (returns_for (fun j (x : nat * (FTT * RLWECiphertext)) => (x.1 < r_numAutoKeys ps)%nat /\ (j = (Nh - 1)%nat -> x.1 = 0%nat) /\
    pending v u b (turn_exponent sign T j) (turn_products sign j) j x.1 x.2))|..].
  - split; [cbn; lia|]. split; [done|]. split; [done|]. split; [done|]. exists T. split.
    + unfold turn_exponent. cbn [fst sumZ]. apply eqm_refl. ring.
    + cbn [fst snd Nat.sub]. change (Z.of_nat 0) with 0. rewrite Z.pow_0_r, Z.mul_1_l. unfold turn_products. cbn [sumZ]. by rewrite !Z.mul_0_l, !Z.add_0_r.
  - intros j [ns x] Hj (Hns & _ & Hx). cbn [fst snd] in *. pose proof (turn_products_nonneg sign j) as Hcnt. pose proof (turn_products_nonneg sign (S j)) as Hcnt'.
    eapply returns_bind; [exact (bucket_turn m sign v u b _ _ j ns x Hm Hv Hu Hb Hcnt Hns Hx)|]. intros [ns' x'] [Hns' Hx']. cbn [fst snd] in *.
    assert (pending v u b (turn_exponent sign T (S j)) (turn_products sign (S j)) (S j) (S ns') x') as Hnext.
    { destruct Hx' as (E1 & Hle & T' & HT & Hacc'). split; [done|]. split; [lia|]. exists T'. split; [|exact Hacc'].
      rewrite turn_exponent_S, Nat2Z.inj_succ, Z.pow_succ_r, <- Z.mul_assoc, HT by lia. done. }
    destruct (Nat.eqb_spec (S ns') (r_numAutoKeys ps)) as [Efull|Hfull]; [|destruct (Nat.eqb_spec (Nh - 1 - j) 1) as [Elast|Hlast]]; cbn [orb].
    3: { apply returns_ok. cbn [fst snd]. split; [lia|]. split; [lia|done]. }
    all: eapply returns_bind; [exact (pending_flush v u b _ _ (S j) (S ns') x' Hv Hu Hb Hcnt' ltac:(lia) Hnext)|];
      intros y Hy; apply returns_ok; cbn [fst snd]; split; [lia|]; by split.
  - intros [ns [st' acc']] (_ & E0 & Ex & _ & T' & HT & Hacc'). cbn [fst snd] in *. rewrite (E0 eq_refl) in *. split; [done|]. split; [done|].
    rewrite Nat.sub_0_r in Hacc'. eapply state_periodic; [|exact Hacc']. change (5 ^ Z.of_nat 0) with 1 in HT. by rewrite Z.mul_1_l in HT.
Qed.

(** ** The whole rotation *)
Abbreviation turns := (Nh - 1)%nat.

Lemma products_total : turn_products (-1) turns + log_sum (fun _ => 1) M + turn_products 1 turns + log_sum (fun _ => 1) 0 = Z.of_nat nn.
Proof using HR Hk Hps Hmeth.
  clear - HR Hk Hps Hmeth. pose proof (rt_dim (RingTransform := HR)) as Hd.
  transitivity (over_logs k (fun x => 1 * log_sum (fun _ => 1) x)).
  - unfold over_logs, turn_products. rewrite !Z.mul_1_l. do 2 f_equal; [f_equal|]; apply sumZ_ext; intros i Hi; rewrite Z.mul_1_l; f_equal; lia.
  - unfold log_sum. rewrite (over_logs_swap k ltac:(lia) nn log_of (fun _ => 1) (fun _ => 1)) by (intros i _; apply log_of_spec).
    induction nn as [|m IH]; cbn [sumZ]; [done|]. rewrite IH. lia.
Qed.

Lemma exponent_total :
  turn_exponent 1 ((M - 5) * (turn_exponent (-1) 0 turns + log_sum (fun i => t i * factor) M)) turns + log_sum (fun i => t i * factor) 0
    ≡[M] sumZ nn (fun i => odd_entry i * (t i * factor)).
Proof using HR Hk Hps Hmeth.
  clear - HR Hk Hps Hmeth. pose proof (rt_dim (RingTransform := HR)) as Hd. destruct dim_half as (EN & EM & HNh & HM). set (f := fun i => t i * factor).
  rewrite (sumZ_eqm M nn _ (fun i => log_exponent k (log_of i) * f i)).
  2: { intros i Hi. destruct (log_of_spec i) as [_ <-]. unfold f. done. }
  rewrite <- (over_logs_swap k ltac:(lia) nn log_of f (log_exponent k)) by (intros i _; apply log_of_spec).
  unfold over_logs, turn_exponent. fold f. rewrite Z.mul_0_r, Z.add_0_l.
  assert (log_exponent k M = -1) as -> by (unfold log_exponent; by rewrite Z.eqb_refl).
  assert (log_exponent k 0 = 1) as -> by (unfold log_exponent; rewrite (proj2 (Z.eqb_neq 0 M)) by lia; done).
  change (fun x => sumZ nn (fun i => if decide (log_of i = x) then f i else 0)) with (log_sum f). cbv beta.
  rewrite (sumZ_ext turns (fun i => log_exponent k (- Z.of_nat (Nh - 1 - i)) * _) (fun i => (-1) * (5 ^ Z.of_nat (Nh - 1 - i) * log_sum f (-1 * Z.of_nat (Nh - 1 - i))))).
  2: { intros i Hi. destruct (log_exponent_small k ltac:(lia) (Nh - 1 - i) ltac:(lia)) as (_ & -> & _).
       replace (-1 * Z.of_nat (Nh - 1 - i)) with (- Z.of_nat (Nh - 1 - i)) by ring. fold (log_sum f (- Z.of_nat (Nh - 1 - i))). lia. }
  rewrite (sumZ_ext turns (fun i => log_exponent k (Z.of_nat (Nh - 1 - i)) * _) (fun i => 5 ^ Z.of_nat (Nh - 1 - i) * log_sum f (1 * Z.of_nat (Nh - 1 - i)))).
  2: { intros i Hi. destruct (log_exponent_small k ltac:(lia) (Nh - 1 - i) ltac:(lia)) as (-> & _). by rewrite Z.mul_1_l. }
  rewrite sumZ_scale. set (S1 := sumZ turns (fun i => _ * log_sum f (-1 * _))). set (S2 := sumZ turns (fun i => _ * log_sum f (1 * _))).
  fold (log_sum f M) (log_sum f 0). pose proof (five_cycle k ltac:(lia)) as Hcyc.
  replace (Z.of_nat Nh) with (Z.succ (Z.of_nat turns)) in Hcyc by lia. rewrite Z.pow_succ_r in Hcyc by lia.
  transitivity (M * (5 ^ Z.of_nat turns * (S1 + log_sum f M)) - 5 * 5 ^ Z.of_nat turns * (S1 + log_sum f M) + S2 + log_sum f 0); [apply eqm_refl; ring|].
  rewrite Hcyc. apply eqm_iff. exists (5 ^ Z.of_nat turns * (S1 + log_sum f M)). ring.
Qed.

Definition lmk_bound : Z := Z.of_nat nn * E + (Z.of_nat n - 1) * A.

Lemma skew_exponent : auto_exponent (M - 5) /\ (M - 5) mod 2 ^ 32 = M - 5.
Proof using HR Hk.
  clear - HR Hk. destruct dim_half as (EN & EM & HNh & HM). split; [|rewrite Z.mod_small; lia]. split; [|lia]. split; [|lia].
  rewrite EM, Z.odd_sub, Z.odd_mul. done.
Qed.

(** The substitutions of the whole loop cancel. *)
Lemma exponents_cancel v : wf v -> raut q n (5 ^ Z.of_nat turns * ((M - 5) * (5 ^ Z.of_nat turns * (M - 5)))) v = v.
Proof using HR Hk.
  clear - HR Hk. pose proof (rt_dim (RingTransform := HR)) as Hd. destruct dim_half as (EN & EM & HNh & HM). intros Hv. destruct skew_exponent as [[HS _] _].
  assert (odd_pos (5 ^ Z.of_nat turns)) as H5 by apply (five_exponent turns).
  assert (odd_pos (5 ^ Z.of_nat turns * ((M - 5) * (5 ^ Z.of_nat turns * (M - 5))))) as HO by (do 3 (apply odd_pos_mul; [done|]); done).
  rewrite (raut_periodic (HR := HR) _ 1 v HO); [by apply (raut_one (HR := HR))|by split| |done].
  pose proof (five_cycle k ltac:(lia)) as Hcyc. replace (Z.of_nat Nh) with (Z.succ (Z.of_nat turns)) in Hcyc by lia. rewrite Z.pow_succ_r in Hcyc by lia.
  set (p := 5 ^ Z.of_nat turns) in *. transitivity ((5 * p) * (5 * p) + p * p * (M - 10) * M); [apply eqm_refl; ring|].
  rewrite Hcyc, eqm_multiple. done.
Qed.

Lemma EvalAcc_LMKCDEY_spec v : wf v ->
  returns (EvalAcc_LMKCDEY arb ps ek (of_ EVALUATION (rzero n), of_ EVALUATION v) (NVec mod_ (map a (seq 0 nn))) st)
    (fun r => r.1 = st /\ state_ v (sumZ nn (fun i => odd_entry i * (t i * factor))) lmk_bound r.2).
Proof using All.
  intros Hv. pose proof (rt_dim (RingTransform := HR)) as Hd. destruct dim_half as (EN & EM & HNh & HM). destruct skew_exponent as [[HS HS32] ES]. destruct HS as [HS1 HS2].
  destruct ext_nonneg as [HE HA]. unfold EvalAcc_LMKCDEY, gen. cbn [data fst snd]. rewrite (rp_N Hps), (Z.mod_small (2 * _)), ES by lia.
  eapply returns_bind; [exact permute_map_spec|]. intros m Hm.
  rewrite (Automorphism_evaluation (HR := HR)), bind_ok by (done || lia). pose proof (raut_wf k (M - 5) v Hv) as W0.
  assert (odd_pos (5 ^ Z.of_nat turns)) as H5 by apply (five_exponent turns). assert (odd_pos (M - 5)) as HO by done.
  pose proof (log_sum_nonneg M) as HcM. pose proof (turn_products_nonneg (-1) turns) as Hc1. pose proof (turn_products_nonneg 1 turns) as Hc2.
  eapply returns_bind; [apply (bucket_loop_spec m (-1) v (M - 5) 0 0); [done|done|done|done|]|].
  { by apply (state_start (HR := HR) s Hs). }
  intros [ns1 [st1 acc1]] (E1 & E2 & H1). cbn [fst snd] in *. subst ns1 st1. rewrite (Hm M).
  set (b1 := 0 + turn_products (-1) turns * E + Z.of_nat turns * A) in *. assert (0 <= b1) as Hb1 by (unfold b1; nia).
  assert (odd_pos (5 ^ Z.of_nat turns * (M - 5))) as HO1 by (by apply odd_pos_mul).
  assert (wf (raut q n (5 ^ Z.of_nat turns * (M - 5)) v)) as W1 by (by apply raut_wf).
  eapply returns_bind; [exact (add_bucket_spec M _ _ b1 acc1 W1 Hb1 H1)|]. intros [st2 acc2] [E3 H2]. cbn [fst snd] in *. subst st2.
  set (b2 := b1 + log_sum (fun _ => 1) M * E) in *. assert (0 <= b2) as Hb2 by (unfold b2; nia).
  destruct Hek as (_ & (key & Eg & Hkey) & _). rewrite Eg, bind_ok.
  eapply returns_bind; [apply (Automorphism_step (HR := HR) arb g Hg HgQ G HGq ps Hps s sg Hs Hsg Hsl ep Hep (M - 5) key _ _ b2 acc2 ltac:(by split) Hkey W1 Hb2 H2)|].
  intros [st3 acc3] [E4 H3]. cbn [fst snd] in *. subst st3. rewrite (raut_raut (HR := HR)) in H3 by done.
  set (u := (M - 5) * (5 ^ Z.of_nat turns * (M - 5))) in *. assert (odd_pos u) as HO2 by (by apply odd_pos_mul).
  eapply returns_bind; [exact (bucket_loop_spec m 1 v u (b2 + A) _ acc3 Hm Hv HO2 ltac:(lia) H3)|].
  intros [ns4 [st4 acc4]] (E5 & E6 & H4). cbn [fst snd] in *. subst ns4 st4. rewrite (Hm 0). unfold u in H4. rewrite exponents_cancel in H4 by done.
  assert (0 <= b2 + A + turn_products 1 turns * E + Z.of_nat turns * A) as Hb4 by nia.
  eapply returns_mono; [exact (add_bucket_spec 0 v _ _ acc4 Hv Hb4 H4)|]. intros r [E7 H5']. split; [done|].
  eapply state_periodic; [exact exponent_total|]. eapply state_mono; [|exact H5']. unfold b2, b1, lmk_bound. rewrite <- products_total.
  replace (Z.of_nat n) with (2 * Z.of_nat turns + 2) by lia. lia.
Qed.

End Buckets.

(** ** The rotation and its keys *)
Section Rotation.
Context {st : FTT} {q psi : Z} {k : nat} {HR : RingTransform st q psi k} (arb : FTT -> NativePoly -> res (FTT * NativePoly)).
Context (g : Z) (Hg : 1 <= g <= 31) (HgQ : 2 ^ g <= q) (G : nat) (HG : (0 < G)%nat) (HGq : q <= (2 ^ g) ^ Z.of_nat (S G)).
Context (ps : RingGSWCryptoParams) (Hps : rgsw_params ps q psi k g G) (Hmeth : r_method ps = LMKCDEY) (Hk : (2 <= k)%nat).
Context (s : list Z) (sg : Z) (Hs : wf_data (q := q) k s) (Hsg : 0 <= sg) (Hsl : l1_le q (2 ^ k) sg s).
Context (ep : Z) (Hep : 0 <= ep) (t : nat -> Z) (nn : nat).
Context (mod_ : Z) (Hmod : 0 < mod_) (Hdiv : (mod_ | 2 * Z.of_nat (2 ^ k))).
Context (Hnum : (1 <= r_numAutoKeys ps)%nat /\ Z.of_nat (r_numAutoKeys ps) < 2 ^ 32).
Abbreviation n := (2 ^ k)%nat.
Abbreviation M := (2 * Z.of_nat n).
Abbreviation of_ := (poly_of q psi k).
Abbreviation lmk_keys_ := (lmk_keys (q := q) (psi := psi) (k := k) g G ps s ep t nn mod_).

(** The sum of the errors of the entries. *)
Lemma odd_entries_total (a : nat -> Z) :
  sumZ nn (fun i => odd_entry (k := k) a i * (t i * (M / mod_))) ≡[M] - (2 * 2 ^ Z.of_nat k / mod_) * (sumZ nn (fun i => a i * t i) + - sumZ nn (fun i => odd_error (k := k) a i * t i)).
Proof using HR Hk.
  clear - HR Hk. replace (2 * 2 ^ Z.of_nat k) with M by (by rewrite Nat2Z.inj_pow). set (F := M / mod_).
  rewrite (sumZ_eqm M nn _ (fun i => - F * (a i * t i) + F * (odd_error (k := k) a i * t i))).
  - rewrite sumZ_add, !sumZ_scale. apply eqm_refl. ring.
  - intros i Hi. destruct (odd_entry_spec (HR := HR) Hk a i) as (_ & _ & ->). apply eqm_refl. ring.
Qed.

Lemma odd_errors_bound (a : nat -> Z) : Z.abs (- sumZ nn (fun i => odd_error (k := k) a i * t i)) <= sumZ nn (fun i => Z.abs (t i)).
Proof using Type.
  clear. rewrite Z.abs_opp. etransitivity; [apply sumZ_abs|]. apply sumZ_le. intros i _. unfold odd_error. destruct (Z.odd _); lia.
Qed.

#[export] Instance lmkcdey_rotation ek : lmk_keys_ ek ->
  BlindRotation (HR := HR) s (EvalAcc_LMKCDEY arb ps ek) mod_ nn t (sumZ nn (fun i => Z.abs (t i))) (lmk_bound (q := q) (k := k) g G sg ep nn).
Proof using All.
  intros Hek. destruct (ext_nonneg (q := q) g Hg G HG HGq sg Hsg ep Hep) as [HE HA]. pose proof (pow2_pos_nat k) as Hn. split.
  - split; [|unfold lmk_bound; nia]. clear. induction nn as [|m IH]; cbn [sumZ]; lia.
  - intros v a Hv Ha.
    eapply returns_mono; [exact (EvalAcc_LMKCDEY_spec (HR := HR) arb g Hg HgQ G HG HGq ps Hps Hmeth Hk s sg Hs Hsg Hsl ep Hep t a nn mod_ Hmod Hdiv Ha Hnum ek Hek v Hv)|].
    intros r [E1 E2]. split; [done|]. exists (- sumZ nn (fun i => odd_error (k := k) a i * t i)). split; [apply odd_errors_bound|].
    eapply state_periodic; [|exact E2]. apply odd_entries_total.
Qed.

(** ** [KeyGenAcc] *)
Context (Hq : r_q ps = mod_) (Ht : forall i, (i < nn)%nat -> -1 <= t i <= 1) (m_ : Z) (Hm : 3 <= m_ < 2 ^ 31).
Context (sample : nat -> nat -> nat -> RgswSample) (Hsample : forall u v i, good_rgsw_sample (q := q) (k := k) G ep (sample u v i)).
Context (autoSample : nat -> nat -> NativeVector * NativeVector) (Hauto : forall i, good_auto_sample (q := q) (k := k) G ep (autoSample i)).
Context (Hfit : (r_numAutoKeys ps < nn)%nat).
Abbreviation rgsw_ := (rgsw (q := q) (psi := psi) (k := k) g G s).
Abbreviation auto_key_ := (auto_key (q := q) (psi := psi) (k := k) g G s ep).

(** The first [i] keys of the secret and the first [j] of the automorphisms. *)
Definition lmk_before (i j : nat) (x : FTT * RingGSWACCKey) : Prop :=
  x.1 = st /\ shape 1 2 nn x.2 /\
  (forall i', (i' < i)%nat -> exists key, get_key x.2 0 0 i' = Ok key /\ rgsw_ (mono q n (t i' * (M / mod_))) ep key) /\
  (forall j', (j' < j)%nat -> exists key, get_key x.2 0 1 j' = Ok key /\ auto_key_ (if (j' =? 0)%nat then M - 5 else 5 ^ Z.of_nat j' mod M) key).

Lemma auto_key_step i j K x : (j < nn)%nat -> auto_exponent K -> K = (if (j =? 0)%nat then M - 5 else 5 ^ Z.of_nat j mod M) -> lmk_before i j x ->
  returns (store (KeyGenAuto arb ps (of_ EVALUATION s) K (autoSample j) x.1) 0 1 j x.2) (lmk_before i (S j)).
Proof using HR Hps Hs Hauto Hg.
  clear - HR Hps Hs Hauto Hg. intros Hj HK EK (E0 & Hsh & H0 & H1). unfold store.
  eapply returns_mono; [apply (store_key (st := st) 1 2 nn (auto_key_ K) (KeyGenAuto arb ps (of_ EVALUATION s) K (autoSample j))); [lia..|done|done|]|].
  { by apply (KeyGenAuto_spec (HR := HR) arb g Hg G ps Hps s Hs ep). }
  intros x1 (E1 & Sh1 & (k1 & G1 & Q1) & O1). split; [done|]. split; [done|]. split.
  - intros i' Hi'. destruct (H0 i' Hi') as (key & K1 & K2). exists key. split; [|done]. apply O1; [distinct|done].
  - intros j' Hj'. destruct (decide (j' = j)) as [->|Hne]; [exists k1; by rewrite <- EK|].
    destruct (H1 j' ltac:(lia)) as (key & K1 & K2). exists key. split; [|done]. apply O1; [distinct|done].
Qed.

Lemma KeyGenAcc_LMKCDEY_spec :
  returns (KeyGenAcc_LMKCDEY arb ps (of_ EVALUATION s) (NVec m_ (map (fun i => t i mod m_) (seq 0 nn))) sample autoSample st) (fun r => r.1 = st /\ lmk_keys_ r.2).
Proof using All.
  pose proof (dim_half (HR := HR) Hk) as (EN & EM & HNh & HM). unfold KeyGenAcc_LMKCDEY, gen. cbn [data modulus]. rewrite length_tab, (rp_N Hps), (Z.mod_small (2 * _)) by lia.
  eapply returns_bind; [apply (returns_for (fun i => lmk_before i 0))|].
  - split; [done|]. split; [apply shape_new|]. split; intros i Hi; lia.
  - intros i x Hi (E0 & Hsh & H0 & H1). rewrite (secret_get t nn m_ i Hi), bind_ok, (signed_secret_spec t nn Ht m_ Hm i Hi), bind_ok. unfold store.
    eapply returns_mono; [apply (store_key (st := st) 1 2 nn (rgsw_ (mono q n (t i * (M / mod_))) ep) (KeyGenLMKCDEY arb ps (of_ EVALUATION s) (t i) (sample 0%nat 0%nat i))); [lia..|done|done|]|].
    { apply (KeyGenLMKCDEY_spec (HR := HR) arb g G ps Hps s Hs ep mod_ Hq Hmod Hdiv); [|done]. specialize (Ht i Hi). lia. }
    intros x1 (E1 & Sh1 & (k1 & G1 & Q1) & O1). split; [done|]. split; [done|]. split; [|intros j Hj; lia].
    intros i' Hi'. destruct (decide (i' = i)) as [->|Hne]; [by exists k1|]. destruct (H0 i' ltac:(lia)) as (key & K1 & K2). exists key. split; [|done]. apply O1; [distinct|done].
  - intros x Hx. destruct (skew_exponent (HR := HR) Hk) as [HS _].
    assert (wrap W (M - 5) = M - 5) as -> by (apply wrap_small; change (2 ^ W) with (2 ^ 64); lia).
    eapply returns_bind; [by apply (auto_key_step nn 0 (M - 5) x ltac:(lia) HS)|]. intros x1 Hx1.
    eapply returns_mono; [apply (returns_for (fun i => lmk_before nn (S i))); [exact Hx1|]|].
    + intros i y Hi Hy. assert (NativeModulus W M) as HMm by (apply native_modulus_bits; unfold W; lia).
      rewrite (nm_exp (w := W)) by (unfold W; lia). rewrite bind_ok. apply (auto_key_step nn (S i)); [lia|by apply (five_exponent (HR := HR) Hk)|done|done].
    + intros r (E0 & _ & H0 & H1). split; [done|]. split; [exact H0|]. split; [exact (H1 0%nat ltac:(lia))|].
      intros i Hi. destruct (H1 i ltac:(lia)) as (key & K1 & K2). exists key. split; [done|]. by rewrite (proj2 (Nat.eqb_neq i 0)) in K2 by lia.
Qed.
End Rotation.
