(* ===== verification/AccSpec.v ===== *)
(** * The accumulators behind one interface

    Whichever of the three methods the parameters choose, the keys of the
    accumulator that [acc_KeyGen] selects make the rotation that [acc_Eval]
    selects a [BlindRotation]: with the noise [acc_noise], and with the error
    [acc_slack] in the exponent, which only LMKCDEY makes. *)

From Stdlib Require Import ZArith Lia String.
From stdpp Require Import base tactics numbers list strings gmap.
From S2P Require Import Prelude Double NativeInt NativeIntFacts ModArith NativeVec SchemeCore Negacyclic BitReverse Ntt NttFacts NttSpec NttRing Poly PolyFacts Automorphism Gadget RingNoise AccCore AccCoreFacts RgswAcc LogTable RgswFacts RgswRotation RgswKeys AutoKeys LmkRotation.

(** What a method asks for, with exponents modulo [q] and [nn] entries. *)
Definition method_ok (ps : RingGSWCryptoParams) (q : Z) (nn : nat) : Prop :=
  r_method ps = GINX \/
  r_method ps = AP /\ 2 <= r_baseR ps /\ r_baseR ps * q < 2 ^ 31 \/
  r_method ps = LMKCDEY /\ (1 <= r_numAutoKeys ps < nn)%nat /\ Z.of_nat (r_numAutoKeys ps) < 2 ^ 32.

Definition acc_slack (ps : RingGSWCryptoParams) (t : nat -> Z) (nn : nat) : Z :=
  if decide (r_method ps = LMKCDEY) then sumZ nn (fun i => Z.abs (t i)) else 0.

Definition acc_noise (Q g : Z) (G : nat) (ps : RingGSWCryptoParams) (q : Z) (nn : nat) (sg ep : Z) : Z :=
  if decide (r_method ps = GINX) then Z.of_nat nn * cggi_bound (q := Q) g G sg ep
  else if decide (r_method ps = LMKCDEY)
  then Z.of_nat nn * ext_bound (q := Q) g G sg ep 1 + (Z.of_nat (r_N ps) - 1) * auto_bound (q := Q) g G sg ep
  else Z.of_nat nn * (Z.of_nat (digit_count (r_baseR ps) q) * ext_bound (q := Q) g G sg ep 1).

(** They depend on the choice of the method only. *)
Lemma acc_same_choice Q g G ps ps' q t nn sg ep : same_choice ps ps' ->
  (method_ok ps q nn -> method_ok ps' q nn) /\ acc_slack ps' t nn = acc_slack ps t nn /\ acc_noise Q g G ps' q nn sg ep = acc_noise Q g G ps q nn sg ep.
Proof.
  intros (E1 & _ & E3 & E4 & E5). unfold method_ok, acc_slack, acc_noise. by rewrite E1, E3, E4, E5.
Qed.

Section Accumulator.
Context {st : FTT} {Q psi : Z} {k : nat} {HR : RingTransform st Q psi k} (arb : FTT -> NativePoly -> res (FTT * NativePoly)).
Context (g : Z) (Hg : 1 <= g <= 31) (HgQ : 2 ^ g <= Q) (G : nat) (HG : (0 < G)%nat) (HGq : Q <= (2 ^ g) ^ Z.of_nat (S G)).
Context (ps : RingGSWCryptoParams) (Hps : rgsw_params ps Q psi k g G).
Context (s : list Z) (sg : Z) (Hs : wf_data (q := Q) k s) (Hsg : 0 <= sg) (Hsl : l1_le Q (2 ^ k) sg s) (ep : Z) (Hep : 0 <= ep).
Context (t : nat -> Z) (nn : nat) (q : Z) (Hq : NativeModulus W q) (Hrq : r_q ps = q) (Hdiv : (q | 2 * Z.of_nat (2 ^ k))) (Hok : method_ok ps q nn).
Abbreviation n := (2 ^ k)%nat.
Abbreviation of_ := (poly_of Q psi k).

Lemma acc_bounds : 0 <= acc_noise Q g G ps q nn sg ep /\ 0 <= acc_slack ps t nn.
Proof using Hg HG HGq Hsg Hep Hps.
  destruct (drop_nonneg (q := Q) g Hg G HG HGq sg Hsg) as [HD HB]. destruct (ext_nonneg (q := Q) g Hg G HG HGq sg Hsg ep Hep) as [HE HA].
  pose proof (rp_N Hps) as EN. pose proof (pow2_pos_nat k) as Hn. unfold acc_noise, acc_slack. split.
  - destruct (decide (r_method ps = GINX)); [unfold cggi_bound; nia|]. destruct (decide (r_method ps = LMKCDEY)); nia.
  - destruct (decide _); [|done]. clear. induction nn as [|m IH]; cbn [sumZ]; lia.
Qed.

(** A key of the accumulator for the exponents modulo [mu]. *)
Definition acc_key (mu : Z) (ek : RingGSWACCKey) : Prop :=
  exists eval, RgswAcc.acc_Eval arb (r_method ps) = Ok eval /\
    BlindRotation (HR := HR) s (eval ps ek) mu nn t (acc_slack ps t nn) (acc_noise Q g G ps q nn sg ep).

(** The keys of GINX serve every modulus of the exponents. *)
Lemma acc_KeyGen_spec m_ sample autoSample : 3 <= m_ < 2 ^ 31 -> (forall i, (i < nn)%nat -> -1 <= t i <= 1) ->
  (forall u v i, good_rgsw_sample (q := Q) (k := k) G ep (sample u v i)) ->
  (r_method ps = LMKCDEY -> forall i, good_auto_sample (q := Q) (k := k) G ep (autoSample i)) ->
  returns (keygen ← RgswAcc.acc_KeyGen arb (r_method ps) autoSample; keygen ps (of_ EVALUATION s) (NVec m_ (map (fun i => t i mod m_) (seq 0 nn))) sample st)
    (fun r => r.1 = st /\ forall mu, NativeModulus W mu -> (mu | 2 * Z.of_nat n) -> (r_method ps <> GINX -> mu = q) -> acc_key mu r.2).
Proof using All.
  intros Hm Ht Hsamp Hauto. pose proof (nm_bounds (w := W) (m := q)) as Hqb. unfold acc_key, acc_slack, acc_noise.
  destruct Hok as [E | [(E & HR2 & HRq) | (E & Hnum & Hnum32)]]; rewrite E in *; cbn [RgswAcc.acc_KeyGen RgswAcc.acc_Eval]; rewrite bind_ok.
  - rewrite (decide_True (P := GINX = GINX)), (decide_False (P := GINX = LMKCDEY)) by done.
    eapply returns_mono; [by apply (KeyGenAcc_CGGI_spec (HR := HR) arb g G ps Hps s Hs ep t nn Ht m_ Hm sample Hsamp)|].
    intros r [Er Hek]. split; [done|]. intros mu Hmu Hmud _. exists (EvalAcc_CGGI arb). split; [done|].
    by apply (cggi_rotation (HR := HR) arb g Hg HgQ G HG HGq ps Hps s sg Hs Hsg Hsl ep Hep r.2).
  - rewrite (decide_False (P := AP = GINX)), !(decide_False (P := AP = LMKCDEY)) by done.
    eapply returns_mono; [apply (KeyGenAcc_DM_spec (HR := HR) arb g G ps Hps s Hs ep t nn Ht m_ Hm sample Hsamp q (r_baseR ps) E Hrq eq_refl HR2); (done || lia)|].
    intros r [Er Hek]. split; [done|]. intros mu Hmu Hmud Emu. rewrite (Emu ltac:(done)). exists (EvalAcc_DM arb). split; [done|].
    apply (dm_rotation (HR := HR) arb g Hg HgQ G HG HGq ps Hps s sg Hs Hsg Hsl ep Hep r.2); try done. split; [done|]. nia.
  - rewrite (decide_False (P := LMKCDEY = GINX)), !(decide_True (P := LMKCDEY = LMKCDEY)) by done. destruct (rp_logGen Hps E) as [Hk _]. specialize (Hauto eq_refl).
    assert ((1 <= r_numAutoKeys ps)%nat /\ Z.of_nat (r_numAutoKeys ps) < 2 ^ 32) as Hna by lia.
    eapply returns_mono; [apply (KeyGenAcc_LMKCDEY_spec (HR := HR) arb g Hg HgQ G HG HGq ps Hps E Hk s sg Hs Hsg Hsl ep Hep t nn q ltac:(lia) Hdiv Hna Hrq Ht m_ Hm sample Hsamp autoSample Hauto); lia|].
    intros r [Er Hek]. split; [done|]. intros mu Hmu Hmud Emu. rewrite (Emu ltac:(done)). exists (EvalAcc_LMKCDEY arb). split; [done|]. rewrite (rp_N Hps).
    apply (lmkcdey_rotation (HR := HR) arb g Hg HgQ G HG HGq ps Hps E Hk s sg Hs Hsg Hsl ep Hep t nn q ltac:(lia) Hdiv Hna r.2 Hek).
Qed.
End Accumulator.
