(* ===== verification/RgswProps.v ===== *)
(** * Properties of the RGSW accumulators *)

From Stdlib Require Import ZArith Lia String.
From stdpp Require Import base tactics numbers list strings gmap.
From S2P Require Import Prelude Double NativeInt NativeIntFacts ModArith NativeVec SchemeCore Negacyclic BitReverse Ntt NttFacts NttSpec NttRing Poly PolyFacts Automorphism Gadget RingNoise AccCore AccCoreFacts RgswAcc LogTable RgswFacts RgswRotation RgswKeys AutoKeys LmkRotation AccSpec.

(** A small setting: one key bit, dimension 64, and the ring modulus
    1073741441, of which 293845527 is a primitive 128-th root. *)
Lemma ring1073741441 : exists st, RingTransform st 1073741441 293845527 6.
Proof.
  by apply ring_transform_check.
Qed.

Definition demo_ps : RingGSWCryptoParams := RGSWParams 1073741441 128 64 32768 32 2 [] [] [] ∅ (ring_par 1073741441 293845527 6) [] [] GINX 10.
Definition demo_one : list Z := rterm 1073741441 64 1 0.
Definition demo_sample (u v i : nat) : RgswSample := RSample (NVec 1073741441 demo_one) (fun _ => NVec 1073741441 demo_one).

Lemma demo_one_wf : wf_data (q := 1073741441) 6 demo_one /\ l1_le 1073741441 64 1 demo_one.
Proof.
  split; [split; [done|by apply (wf_vec_check W 1073741441 demo_one)]|apply (l1_rterm 1073741441 64 1 0); lia].
Qed.


Lemma demo_sample_good u v i : good_rgsw_sample (q := 1073741441) (k := 6) 1 1 (demo_sample u v i).
Proof. destruct demo_one_wf as [H1 H2]. exists demo_one, (fun _ => demo_one). split; [|by intros]. by split. Qed.

Lemma demo_base : base_rgsw (Q := 1073741441) (psi := 293845527) (k := 6) 15 1 demo_ps.
Proof. split; try done. by left. Qed.

(** C10: blind rotation.  With the tables of [PreCompute] and the keys of
    [KeyGenAcc], for each of the three methods and a ternary secret [t],
    [EvalAcc] on the accumulator [(0, v)] and a mask modulo a divisor of [2 N]
    returns an accumulator whose phase under the ring key is [v] times [X] to
    the negated inner product of the scaled mask and the secret, up to an
    explicit noise and, for LMKCDEY alone, an error of at most the norm of the
    secret in the inner product; and the cache of the transform is unchanged. *)
Theorem RGSW_EvalAcc_correct (st : FTT) (q psi : Z) (k : nat) (arb : FTT -> NativePoly -> res (FTT * NativePoly)) (g : Z) (G : nat) (ps0 : RingGSWCryptoParams)
    (s : list Z) (sg ep : Z) (t a : nat -> Z) (nn : nat) (m_ mod_ : Z) (sample : nat -> nat -> nat -> RgswSample)
    (autoSample : nat -> nat -> NativeVector * NativeVector) (v : list Z) :
  RingTransform st q psi k -> base_rgsw (Q := q) (psi := psi) (k := k) g G ps0 ->
  1 <= g <= 31 -> 2 ^ g < q -> (0 < G)%nat -> q <= (2 ^ g) ^ Z.of_nat (S G) -> wf_data (q := q) k s -> 0 <= sg -> l1_le q (2 ^ k) sg s -> 0 <= ep ->
  (forall u v i, good_rgsw_sample (q := q) (k := k) G ep (sample u v i)) ->
  (r_method ps0 = LMKCDEY -> forall i, good_auto_sample (q := q) (k := k) G ep (autoSample i)) ->
  3 <= m_ < 2 ^ 31 -> (forall i, (i < nn)%nat -> -1 <= t i <= 1 /\ reduced mod_ (a i)) ->
  NativeModulus W mod_ -> r_q ps0 = mod_ -> (mod_ | 2 * Z.of_nat (2 ^ k)) -> method_ok ps0 mod_ nn ->
  wf_data (q := q) k v ->
  let P := poly_of q psi k EVALUATION in
  returns (ps ← RgswAcc.PreCompute arb ps0 false st;
           keygen ← RgswAcc.acc_KeyGen arb (r_method ps0) autoSample;
           ek ← keygen ps.2 (P s) (NVec m_ (map (fun i => t i mod m_) (seq 0 nn))) sample ps.1;
           eval ← RgswAcc.acc_Eval arb (r_method ps0);
           eval ps.2 ek.2 (P (rzero (2 ^ k)), P v) (NVec mod_ (map a (seq 0 nn))) ek.1)
    (fun r => r.1 = st /\ exists d, Z.abs d <= acc_slack ps0 t nn /\
       rlwe_state (q := q) (psi := psi) (k := k) s v (- (2 * 2 ^ Z.of_nat k / mod_) * (sumZ nn (fun i => a i * t i) + d)) (acc_noise q g G ps0 mod_ nn sg ep) r.2).
Proof.
  intros HR Hbase Hg HgQ HG HGq Hs Hsg Hsl Hep Hsample Hauto Hm Hta Hmod Eq Hdiv Hok0 Hv P; subst P.
  destruct (PreCompute_rgsw (HR := HR) arb g G ps0 Hg HgQ Hbase) as (ps & -> & Hps & Hsame). rewrite bind_ok. cbn [fst snd].
  destruct (acc_same_choice q g G ps0 ps mod_ t nn sg ep Hsame) as (Hok & <- & <-). specialize (Hok Hok0). destruct Hsame as (E1 & E2 & _). rewrite <- E1 in *.
  pose proof (acc_KeyGen_spec (HR := HR) arb g Hg ltac:(lia) G HG HGq ps Hps s sg Hs Hsg Hsl ep Hep t nn mod_ Hmod ltac:(congruence) Hdiv Hok m_ sample autoSample Hm
    (fun i Hi => proj1 (Hta i Hi)) Hsample Hauto) as Hkeys. revert Hkeys. destruct (acc_KeyGen arb (r_method ps) autoSample) as [keygen|]; [|by intros (? & ? & _)].
  rewrite !bind_ok. intros Hkeys. eapply returns_bind; [exact Hkeys|]. intros [st' ek] [Est Hek]. cbn [fst snd] in *. subst st'.
  destruct (Hek mod_ Hmod Hdiv ltac:(done)) as (eval & -> & Hbr). rewrite bind_ok. apply (br_rotates (BlindRotation := Hbr)); [done|]. intros i Hi. by apply Hta.
Qed.

Definition demo_lmk : RingGSWCryptoParams := RGSWParams 1073741441 128 64 32768 32 2 [] [] [] ∅ (ring_par 1073741441 293845527 6) [] [] LMKCDEY 1.
Lemma demo_auto_good (i : nat) : good_auto_sample (q := 1073741441) (k := 6) 1 1 (fun _ => (NVec 1073741441 demo_one, NVec 1073741441 demo_one)).
Proof. destruct demo_one_wf as [H1 H2]. exists (fun _ => demo_one), (fun _ => demo_one). by intros. Qed.

Lemma RGSW_EvalAcc_correct_witness : exists st, RingTransform st 1073741441 293845527 6 /\
  returns (ps ← RgswAcc.PreCompute (fun s p => Ok (s, p)) demo_lmk false st;
           keygen ← RgswAcc.acc_KeyGen (fun s p => Ok (s, p)) LMKCDEY (fun _ _ => (NVec 1073741441 demo_one, NVec 1073741441 demo_one));
           ek ← keygen ps.2 (poly_of 1073741441 293845527 6 EVALUATION demo_one) (NVec 512 (map (fun i => -1 mod 512) (seq 0 2))) demo_sample ps.1;
           eval ← RgswAcc.acc_Eval (fun s p => Ok (s, p)) LMKCDEY;
           eval ps.2 ek.2 (poly_of 1073741441 293845527 6 EVALUATION (rzero 64), poly_of 1073741441 293845527 6 EVALUATION demo_one) (NVec 128 (map (fun _ => 5) (seq 0 2))) ek.1)
    (fun r => r.1 = st /\ exists d, Z.abs d <= 2 /\ rlwe_state (q := 1073741441) (psi := 293845527) (k := 6) demo_one demo_one (- (128 / 128) * (-10 + d)) (acc_noise 1073741441 15 1 demo_lmk 128 2 1 1) r.2).
Proof.
  destruct ring1073741441 as [st HR]. exists st. split; [exact HR|]. destruct demo_one_wf as [H1 H2].
  refine (RGSW_EvalAcc_correct st 1073741441 293845527 6 (fun s p => Ok (s, p)) 15 1 demo_lmk demo_one 1 1 (fun _ => -1) (fun _ => 5) 2 512 128 demo_sample
    (fun _ _ => (NVec 1073741441 demo_one, NVec 1073741441 demo_one)) demo_one HR _ _ _ _ _ H1 _ H2 _ demo_sample_good (fun _ => demo_auto_good) _ _ _ _ _ _ H1); try done; try lia.
  - split; try done. right. right. split; [done|lia].
  - right. right. split; [done|cbn; lia].
Defined.

(** C12: the keys of the method GINX reveal the secret.  [KeyGenCGGI] fills its
    uniform elements with copies of one sample, so that the first components of
    the rows 0 and 1 of a key differ by its message times the gadget base: from
    the keys of [KeyGenAcc] alone, whatever was drawn, subtracting two elements
    per key and looking at one coefficient gives back every entry of the
    ternary secret. *)
Theorem GINX_keys_reveal_secret (st : FTT) (q psi : Z) (k : nat) (arb : FTT -> NativePoly -> res (FTT * NativePoly)) (g : Z) (G : nat) (ps0 : RingGSWCryptoParams)
    (s : list Z) (ep : Z) (t : nat -> Z) (nn : nat) (m_ : Z) (sample : nat -> nat -> nat -> RgswSample) :
  RingTransform st q psi k -> base_rgsw (Q := q) (psi := psi) (k := k) g G ps0 ->
  1 <= g <= 31 -> 2 ^ g < q -> (0 < G)%nat -> wf_data (q := q) k s -> (forall u v i, good_rgsw_sample (q := q) (k := k) G ep (sample u v i)) ->
  3 <= m_ < 2 ^ 31 -> (forall i, (i < nn)%nat -> -1 <= t i <= 1) ->
  (ps ← RgswAcc.PreCompute arb ps0 false st;
   ek ← KeyGenAcc_CGGI arb ps.2 (poly_of q psi k EVALUATION s) (NVec m_ (map (fun i => t i mod m_) (seq 0 nn))) sample ps.1;
   tabulateM nn (revealed (st := st) arb ek.2)) = Ok (map t (seq 0 nn)).
Proof.
  intros HR Hbase Hg HgQ HG Hs Hsample Hm Ht.
  destruct (PreCompute_rgsw (HR := HR) arb g G ps0 Hg HgQ Hbase) as (ps & -> & Hps & _). rewrite bind_ok. cbn [fst snd].
  apply returns_eq, (KeyGenAcc_CGGI_reveals (HR := HR) arb g G ps Hps s Hs ep t nn Ht m_ Hm sample Hsample HG). split; [apply Z.pow_pos_nonneg; lia|done].
Qed.

Lemma GINX_keys_reveal_secret_witness : exists st, RingTransform st 1073741441 293845527 6 /\
  (ps ← RgswAcc.PreCompute (fun s p => Ok (s, p)) demo_ps false st;
   ek ← KeyGenAcc_CGGI (fun s p => Ok (s, p)) ps.2 (poly_of 1073741441 293845527 6 EVALUATION demo_one) (NVec 512 [511; 0; 1]) demo_sample ps.1;
   tabulateM 3 (revealed (st := st) (fun s p => Ok (s, p)) ek.2)) = Ok [-1; 0; 1].
Proof.
  destruct ring1073741441 as [st HR]. exists st. split; [exact HR|]. destruct demo_one_wf as [H1 H2].
  refine (GINX_keys_reveal_secret st 1073741441 293845527 6 (fun s p => Ok (s, p)) 15 1 demo_ps demo_one 1 (fun i => Z.of_nat i - 1) 3 512 demo_sample
    HR demo_base _ _ _ H1 demo_sample_good _ _); try done; try lia.
Defined.
