(* ===== verification/VntruAcc.v ===== *)
(** * The vector NTRU accumulator

    Models [src/binfhe/lib/vntru-acc-xzddf.cpp], the parameters
    [vntru-cryptoparameters.cpp], the decomposition of [vntru-acc.cpp] and the
    inverse [ModInverse(usint, usint)] of [src/core/lib/math/nbtheory2.cpp].  A ciphertext
    [NTRUCiphertext] is one ring element, an evaluation key the list of its
    elements.  The parameters have the members, the constructor and the tables
    of the RGSW parameters, line by line, and share their record.  The vectors
    that the Gaussian generator draws are arguments; the uniform elements that
    the key generators also draw are not used. *)

From Stdlib Require Import ZArith Lia String.
From stdpp Require Import base tactics numbers list strings gmap.
From S2P Require Import Prelude Double NativeInt NativeIntFacts ModArith NativeVec SchemeCore Negacyclic BitReverse Ntt Poly Gadget AccCore RgswAcc.

(** ** [ModInverse_usint]

    Euclid's algorithm on [usint]; a division by zero is undefined.  Every second step halves
    the remainder: 66 steps are enough for words of 32 bits. *)
Fixpoint inverse_loop (fuel : nat) (a b x0 x1 : Z) : res Z :=
  if 1 <? a then
    match fuel with
    | O => Throw out_of_fuel
    | S fuel' => q ← udiv a b; r ← umod a b; inverse_loop fuel' b r ((x1 - q * x0) mod 2 ^ 32) x0
    end
  else Ok x1.
Definition ModInverse_usint (a b : Z) : res Z := if b =? 1 then Ok 1 else inverse_loop 66 a b 0 1.

(** ** Parameters *)
Definition VectorNTRUCryptoParams : Type := RingGSWCryptoParams.
Definition VNTRU_PreCompute := RgswAcc.PreCompute.
Definition new_VectorNTRUCryptoParams := new_RingGSWCryptoParams.
Definition VNTRU_Change_BaseG := RgswAcc.Change_BaseG.

Definition NTRUCiphertext : Type := NativePoly.
Definition VectorNTRUEvalKey : Type := list NativePoly.
Definition VectorNTRUACCKey : Type := ACCKey VectorNTRUEvalKey.

Section Accumulator.
Context (arb : FTT -> NativePoly -> res (FTT * NativePoly)).

(** ** Evaluation keys *)

(** [mm = ((m % N) + N) % N]; a negative exponent changes the sign. *)
Definition signed_position (N : nat) (m : Z) : res (bool * nat) :=
  if (N =? 0)%nat then Throw undefined_behaviour
  else Ok (m <? 0, Z.to_nat (Z.rem (Z.rem m (Z.of_nat N) + Z.of_nat N) (Z.of_nat N))).

(** [p[mm] += Gpow[i + 1]], or [-=]. *)
Definition add_gadget (ps : VectorNTRUCryptoParams) (mm : bool * nat) (i : nat) (p : NativePoly) : res NativePoly :=
  g ← vget (r_Gpower ps) (i + 1);
  x ← p_get p mm.2;
  p_set p mm.2 (if mm.1 then ModSubFastEq W x g (r_Q ps) else ModAddFastEq W x g (r_Q ps)).

(** [(g + X^m G) / f]. *)
Definition KDMKeyGenXZDDF (ps : VectorNTRUCryptoParams) (invskNTT : NativePoly) (m : Z) (err : nat -> NativeVector) (st : FTT) :
    res (FTT * VectorNTRUEvalKey) :=
  mm ← signed_position (r_N ps) m;
  tabulateS (r_digitsG ps - 1) (fun i st =>
    r ← add_gadget ps mm i (MkPoly COEFFICIENT (r_polyParams ps) (Some (err i)));
    r ← SetFormat arb st r EVALUATION;
    t ← Times r.2 invskNTT;
    Ok (r.1, t)) st.

(** [g / f + X^m G]. *)
Definition KeyGenXZDDF (ps : VectorNTRUCryptoParams) (invskNTT : NativePoly) (m : Z) (err : nat -> NativeVector) (st : FTT) :
    res (FTT * VectorNTRUEvalKey) :=
  mm ← signed_position (r_N ps) m;
  tabulateS (r_digitsG ps - 1) (fun i st =>
    r ← sampled arb (r_polyParams ps) st (err i);
    t ← Times r.2 invskNTT;
    a ← add_gadget ps mm i (SetValuesToZero (new_poly (r_polyParams ps) COEFFICIENT false));
    a ← SetFormat arb r.1 a EVALUATION;
    t ← Plus t a.2;
    Ok (a.1, t)) st.

(** [(g + f(x^k) G) / f]. *)
Definition VNTRU_KeyGenAuto (ps : VectorNTRUCryptoParams) (skNTT invskNTT : NativePoly) (k : Z) (err : nat -> NativeVector) (st : FTT) :
    res (FTT * VectorNTRUEvalKey) :=
  skAuto ← AutomorphismTransform skNTT (k mod 2 ^ 32);
  tabulateS (r_digitsG ps - 1) (fun i st =>
    e ← sampled arb (r_polyParams ps) st (err i);
    g ← vget (r_Gpower ps) (i + 1);
    t ← TimesInt skAuto g;
    t ← Plus e.2 t;
    t ← Times t invskNTT;
    Ok (e.1, t)) st.

(** ** Products with a key *)

(** [sum += dct[d] * key[d]] from zero. *)
Definition sum_products (ps : VectorNTRUCryptoParams) (times : NativePoly -> NativePoly -> res NativePoly) (dct key : list NativePoly) : res NativePoly :=
  for_ (r_digitsG ps - 1) (fun d s => x ← vget dct d; y ← vget key d; t ← times x y; PlusEq s t) (new_poly (r_polyParams ps) EVALUATION true).

Definition VNTRU_decompose (ps : VectorNTRUCryptoParams) (st : FTT) (c : NativePoly) : res (FTT * list NativePoly) :=
  decompose arb (r_polyParams ps) (r_Q ps) (r_baseG ps) (r_digitsG ps) (r_N ps) st c.

Definition AddToAccXZDDF (ps : VectorNTRUCryptoParams) (ek : VectorNTRUEvalKey) (acc : NTRUCiphertext) (st : FTT) : res (FTT * NTRUCiphertext) :=
  ct ← SetFormat arb st acc COEFFICIENT;
  dct ← VNTRU_decompose ps ct.1 ct.2;
  sum ← sum_products ps TimesEq dct.2 ek;
  Ok (dct.1, sum).

Definition VNTRU_Automorphism (ps : VectorNTRUCryptoParams) (a : Z) (ak : VectorNTRUEvalKey) (acc : NTRUCiphertext) (st : FTT) : res (FTT * NTRUCiphertext) :=
  vec ← PrecomputeAutoMap (r_N ps) (ConvertToInt 32 a) (repeat 0%nat (r_N ps));
  ct ← AutomorphismTransform_precomp acc (ConvertToInt 32 a) vec;
  ct ← SetFormat arb st ct COEFFICIENT;
  dct ← VNTRU_decompose ps ct.1 ct.2;
  sum ← sum_products ps Times dct.2 ak;
  Ok (dct.1, sum).

(** ** The keys of a rotation *)

(** [s > modHalf ? mod - s : -s]. *)
Definition negated_secret (mod_ s : Z) : res Z := let s := to_int32 s in if Z.shiftr mod_ 1 <? s then sck 32 (mod_ - s) else sck 32 (- s).

(** The sum of the entries, centred. *)
Definition secret_sum (mod_ : Z) (l : list Z) : res Z :=
  sums ← for_ (length l) (fun i acc => s ← vget l i; sck 32 (acc + to_int32 s)) 0;
  if mod_ =? 0 then Throw undefined_behaviour else
  let sums := Z.rem sums mod_ in
  if Z.shiftr mod_ 1 <? sums then sck 32 (sums - mod_) else Ok sums.

(** The exponent of the automorphism whose key is at [i]. *)
Definition auto_key_exponent (N : nat) (q : Z) (i : nat) : Z := Z.quot (2 * Z.of_nat N) q * (Z.of_nat i + 1) + 1.

(** A key that is made and stored. *)
Definition put_key (make : FTT -> res (FTT * VectorNTRUEvalKey)) (v i : nat) (x : FTT * VectorNTRUACCKey) : res (FTT * VectorNTRUACCKey) :=
  k ← make x.1; ek ← set_key x.2 0 v i k.2; Ok (k.1, ek).

Definition KeyGenAcc_XZDDF (ps : VectorNTRUCryptoParams) (skNTT invskNTT : NativePoly) (sv : NativeVector) (err : nat -> nat -> nat -> NativeVector) (st : FTT) :
    res (FTT * VectorNTRUACCKey) :=
  let mod_ := to_int32 (modulus sv) in
  let n := length (data sv) in
  let q1 := wrap W (r_q ps - 1) in
  let dim := if Z.of_nat n + 1 <? q1 then Z.to_nat q1 else (n + 1)%nat in
  s ← vget (data sv) 0;
  m ← negated_secret mod_ s;
  x ← put_key (KDMKeyGenXZDDF ps invskNTT m (err 0%nat 0%nat)) 0 0 (st, new_key 1 2 dim);
  x ← for_ (n - 1) (fun i' x =>
        let i := S i' in
        s ← vget (data sv) i;
        m ← negated_secret mod_ s;
        put_key (KeyGenXZDDF ps invskNTT m (err 0%nat i)) 0 i x) x;
  sums ← secret_sum mod_ (data sv);
  x ← put_key (KeyGenXZDDF ps invskNTT sums (err 0%nat n)) 0 n x;
  for_ (Z.to_nat (to_signed W (r_q ps) - 1)) (fun i x =>
    put_key (VNTRU_KeyGenAuto ps skNTT invskNTT (auto_key_exponent (r_N ps) (to_signed W (r_q ps)) i) (err 1%nat i)) 1 i x) x.

(** ** Blind rotation *)

(** [w = (2 N / q) a + 1] and its inverse modulo [2 N]. *)
Definition mask_exponent (N : nat) (q a : Z) : res Z :=
  f ← udiv ((2 * Z.of_nat N) mod 2 ^ 32) (to_int32 q mod 2 ^ 32); Ok ((f * (a mod 2 ^ 32) + 1) mod 2 ^ 32).
Definition mask_inverse (N : nat) (w : Z) : res Z :=
  let M := (2 * Z.of_nat N) mod 2 ^ 32 in x ← ModInverse_usint w M; umod x M.

(** The position at which the key of an automorphism is looked up. *)
Definition auto_key_index (e : Z) : Z := Z.quot (to_int32 e - 3) 2 mod 2 ^ 32.

(** The turn of [i]: the key of the secret, then the automorphism unless it is
    the identity. *)
Definition mask_turn (ps : VectorNTRUCryptoParams) (ek : VectorNTRUACCKey) (w invw : list Z) (i : nat) (x : FTT * NTRUCiphertext) : res (FTT * NTRUCiphertext) :=
  wi ← vget w i; inv ← vget invw (S i);
  e ← umod ((wi * inv) mod 2 ^ 32) ((2 * Z.of_nat (r_N ps)) mod 2 ^ 32);
  key ← get_key ek 0 0 i;
  y ← AddToAccXZDDF ps key x.2 x.1;
  if to_int32 e =? 1 then Ok y else key ← get_key ek 0 1 (Z.to_nat (auto_key_index e)); VNTRU_Automorphism ps e key y.2 y.1.

Definition EvalAcc_XZDDF (ps : VectorNTRUCryptoParams) (ek : VectorNTRUACCKey) (acc : NTRUCiphertext) (a : NativeVector) (st : FTT) : res (FTT * NTRUCiphertext) :=
  let n := length (data a) in
  w ← mapM (mask_exponent (r_N ps) (r_q ps)) (data a);
  invw ← mapM (mask_inverse (r_N ps)) w;
  let invw := invw ++ [1] in
  x ← for_ n (mask_turn ps ek w invw) (st, acc);
  key ← get_key ek 0 0 n;
  AddToAccXZDDF ps key x.2 x.1.
End Accumulator.

(** ** The accumulator scheme

    The virtual functions of [VectorNTRUAccumulator]; those of the base class
    are not supported. *)
Record VectorNTRUAccumulator := VNTRUAcc {
  v_KeyGenAcc : VectorNTRUCryptoParams -> NativePoly -> NativePoly -> NativeVector -> (nat -> nat -> nat -> NativeVector) -> FTT -> res (FTT * VectorNTRUACCKey);
  v_EvalAcc : VectorNTRUCryptoParams -> VectorNTRUACCKey -> NTRUCiphertext -> NativeVector -> FTT -> res (FTT * NTRUCiphertext)
}.
Definition base_accumulator : VectorNTRUAccumulator :=
  VNTRUAcc (fun _ _ _ _ _ _ => Throw (not_implemented_error "KeyGenACC operation not supported")) (fun _ _ _ _ _ => Throw (not_implemented_error "ACC operation not supported")).
Definition VectorNTRUAccumulatorXZDDF (arb : FTT -> NativePoly -> res (FTT * NativePoly)) : VectorNTRUAccumulator :=
  VNTRUAcc (KeyGenAcc_XZDDF arb) (EvalAcc_XZDDF arb).
