(* ===== verification/VntruFacts.v ===== *)
(** * The vector NTRU accumulator on ring elements

    The inverse modulo a power of two; the evaluation keys as encryptions
    [w / f] under the secret [f], of [X^m], of [f X^m] and of [f(x^K)]; the
    product with such a key, which turns the phase [f c] of an accumulator
    into [w c] up to a noise; and the two steps of the rotation that use it. *)

From Stdlib Require Import ZArith Lia String.
From stdpp Require Import base tactics numbers list strings gmap.
From S2P Require Import Prelude Double NativeInt NativeIntFacts ModArith NativeVec SchemeCore Negacyclic BitReverse Ntt NttFacts NttSpec NttRing Poly PolyFacts Automorphism Gadget RingNoise AccCore AccCoreFacts RgswAcc RgswFacts RgswRotation RgswKeys AutoKeys VntruAcc.

(** ** [ModInverse_usint]

    The coefficients are signed integers, of which the code keeps the
    residues modulo [2^32]. *)
Section Inverse.
Context (A B : Z) (HA : 0 <= A) (HB : 1 < B).

Definition bezout (a b x0 x1 : Z) : Prop :=
  exists y0 y1, x0 = y0 mod 2 ^ 32 /\ x1 = y1 mod 2 ^ 32 /\ A * y0 ≡[B] b /\ A * y1 ≡[B] a.

Lemma bezout_step a b x0 x1 : 0 < b -> bezout a b x0 x1 -> bezout b (a mod b) ((x1 - a / b * x0) mod 2 ^ 32) x0.
Proof using Type.
  intros Hb (y0 & y1 & -> & -> & E0 & E1). exists (y1 - a / b * y0), y0. split; [|split; [done|split; [|done]]].
  - rewrite Zminus_mod, Z.mul_mod_idemp_r, <- Zminus_mod by lia. by rewrite Zminus_mod_idemp_l.
  - replace (A * (y1 - a / b * y0)) with (A * y1 - a / b * (A * y0)) by ring. rewrite E0, E1, Z.mod_eq by lia. apply eqm_refl. ring.
Qed.

(** Two steps halve [b]. *)
Lemma inverse_loop_spec j : forall fuel a b x0 x1, 0 < a -> 0 <= b < 2 ^ Z.of_nat j -> (2 * j + 1 <= fuel)%nat -> Z.gcd a b = 1 -> bezout a b x0 x1 ->
  returns (inverse_loop fuel a b x0 x1) (fun x => exists y, x = y mod 2 ^ 32 /\ A * y ≡[B] 1).
Proof using Type.
  assert (forall fuel a b x0 x1, ~ 1 < a -> 0 < a -> bezout a b x0 x1 -> returns (inverse_loop fuel a b x0 x1) (fun x => exists y, x = y mod 2 ^ 32 /\ A * y ≡[B] 1)) as Hend.
  { intros fuel a b x0 x1 Ha Ha0 (y0 & y1 & _ & E1 & _ & E). assert (a = 1) as -> by lia. destruct fuel; cbn [inverse_loop Z.ltb Z.compare Pos.compare Pos.compare_cont]; apply returns_ok; by exists y1. }
  induction j as [|j IH]; intros fuel a b x0 x1 Ha Hb Hf Hg Hbz; (destruct (Z.lt_ge_cases 1 a) as [H1|H1]; [|apply Hend; [lia|done|done]]).
  - change (2 ^ Z.of_nat 0) with 1 in Hb. assert (b = 0) as -> by lia. rewrite Z.gcd_0_r_nonneg in Hg; lia.
  - destruct fuel as [|[|fuel]]; [lia|lia|]. assert (b <> 0) as Hb0 by (intros ->; rewrite Z.gcd_0_r_nonneg in Hg; lia).
    cbn [inverse_loop]. rewrite (proj2 (Z.ltb_lt 1 a)) by lia. unfold udiv, umod. rewrite (proj2 (Z.eqb_neq b 0)), !bind_ok by lia.
    pose proof (bezout_step a b x0 x1 ltac:(lia) Hbz) as Hbz1. pose proof (Z.mod_pos_bound a b ltac:(lia)) as Hr. set (r := a mod b) in *.
    assert (Z.gcd b r = 1) as Hg1. { unfold r. rewrite (Z.gcd_comm b), Z.gcd_mod, (Z.gcd_comm b) by lia. done. }
    destruct (Z.ltb_spec 1 b) as [Hb1|Hb1].
    + assert (r <> 0) as Hr0 by (intros E; rewrite E, Z.gcd_0_r_nonneg in Hg1; lia). rewrite (proj2 (Z.eqb_neq r 0)), !bind_ok by lia.
      pose proof (Z.mod_pos_bound b r ltac:(lia)) as Hr'. apply IH; [lia| |lia| |by apply bezout_step; [lia|]].
      * rewrite Nat2Z.inj_succ, Z.pow_succ_r in Hb by lia. pose proof (Z.div_mod b r ltac:(lia)). assert (1 <= b / r) by (apply Z.div_le_lower_bound; lia). nia.
      * rewrite (Z.gcd_comm r), Z.gcd_mod, (Z.gcd_comm r) by lia. done.
    + destruct Hbz1 as (y0 & y1 & _ & E1 & _ & E). assert (b = 1) as Eb by lia. rewrite Eb in E. apply returns_ok. by exists y1.
Qed.
End Inverse.

(** The result is the inverse when the modulus divides [2^32]. *)
Lemma ModInverse_usint_spec a b : 0 <= a -> 1 < b < 2 ^ 32 -> Z.gcd a b = 1 ->
  returns (ModInverse_usint a b) (fun x => exists y, x = y mod 2 ^ 32 /\ a * y ≡[b] 1).
Proof.
  intros Ha Hb Hg. assert (0 < a). { destruct (Z.eq_dec a 0) as [->|]; [|lia]. rewrite Z.gcd_0_l_nonneg in Hg; lia. }
  unfold ModInverse_usint. rewrite (proj2 (Z.eqb_neq b 1)) by lia. apply (inverse_loop_spec a b 32); [done|lia|lia|done|].
  exists 0, 1. split; [done|]. split; [done|]. split; [|apply eqm_refl; ring]. rewrite Z.mul_0_r. apply eqm_iff. exists (-1). ring.
Qed.

Lemma mask_inverse_spec N w : (0 < N)%nat -> (exists j, 2 * Z.of_nat N = 2 ^ Z.of_nat j /\ (j < 32)%nat) -> 0 <= w -> Z.odd w = true ->
  returns (mask_inverse N w) (fun x => 0 <= x < 2 * Z.of_nat N /\ w * x ≡[2 * Z.of_nat N] 1).
Proof.
  intros HN (j & Ej & Hj) Hw Ho. assert (2 * Z.of_nat N < 2 ^ 32) as HM by (rewrite Ej; apply Z.pow_lt_mono_r; lia).
  assert (2 <= 2 * Z.of_nat N) by lia. unfold mask_inverse. rewrite (Z.mod_small (2 * _)) by lia.
  eapply returns_bind; [apply ModInverse_usint_spec; [done|lia|]|].
  - rewrite Ej. apply Z.coprime_pow_r; [lia|]. unfold Z.coprime. rewrite Z.gcd_comm, <- Z.gcd_mod, Zmod_odd, Ho by lia. done.
  - intros x (y & -> & Ey). unfold umod. rewrite (proj2 (Z.eqb_neq _ _)) by lia. apply returns_ok. split; [apply Z.mod_pos_bound; lia|].
    rewrite eqm_mod. rewrite (eqm_divisor (2 ^ 32) (2 * Z.of_nat N) (y mod 2 ^ 32) y); [done| |apply eqm_mod].
    exists (2 ^ (32 - Z.of_nat j)). rewrite Ej, <- Z.pow_add_r by lia. f_equal. lia.
Qed.

(** An inverse is odd. *)
Lemma odd_inverse a u n : 0 <= u -> (2 * a + 1) * u ≡[2 * n] 1 -> Z.odd u = true /\ 0 < u.
Proof.
  intros Hu [c Ec]%eqm_iff. pose proof (f_equal Z.odd Ec) as Eo. replace (1 + c * (2 * n)) with (1 + 2 * (c * n)) in Eo by ring.
  rewrite Z.odd_add_mul_2, Z.odd_mul in Eo. assert (Z.odd u = true) as Ho by (by destruct (Z.odd u), (Z.odd (2 * a + 1))).
  split; [done|]. destruct (Z.eq_dec u 0) as [->|]; [done|lia].
Qed.

(** ** Encryptions *)
Section Keys.
Context {st : FTT} {q psi : Z} {k : nat} {HR : RingTransform st q psi k} (arb : FTT -> NativePoly -> res (FTT * NativePoly)).
Context (g : Z) (Hg : 1 <= g <= 31) (HgQ : 2 ^ g <= q) (G : nat) (HGq : q <= (2 ^ g) ^ Z.of_nat (S G)).
Context (ps : VectorNTRUCryptoParams) (Hps : rgsw_params ps q psi k g G).
Context (f : list Z) (sg : Z) (Hf : wf_data (q := q) k f) (Hsg : 0 <= sg) (Hfl : l1_le q (2 ^ k) sg f).
Context (ep : Z) (Hep : 0 <= ep).
Abbreviation B := (2 ^ g).
Abbreviation n := (2 ^ k)%nat.
Abbreviation wf := (wf_data (q := q) k).
Abbreviation slot_ := (slot q psi k).
Abbreviation of_ := (poly_of q psi k).
Abbreviation mono_ := (mono q n).
Abbreviation polys_ := (polys (q := q) (psi := psi) (k := k)).
Abbreviation drop := (dropped (q := q) (k := k) g G).
Abbreviation drop_bound_ := (drop_bound (q := q) g G).
Abbreviation rotated_ := (rotated (q := q) (k := k)).

#[local] Instance vntru_keys_modulus : NativeModulus W q.
Proof using HR. exact rt_modulus. Qed.

(** [h i] is [(e i + B^(i+1) w) / f]. *)
Definition ntru_rel (w : list Z) (e h : nat -> list Z) : Prop :=
  forall i x, (i < G)%nat -> (x < n)%nat -> slot_ x f * slot_ x (h i) ≡[q] slot_ x (e i) + B ^ (Z.of_nat i + 1) * slot_ x w.
Definition ntru_key (w : list Z) (key : VectorNTRUEvalKey) : Prop :=
  exists e h, key = polys_ G h /\ ntru_rel w e h /\ forall i, (i < G)%nat -> wf (e i) /\ wf (h i) /\ l1_le q n ep (e i).

(** ** The product with a key *)
Definition key_product (h : nat -> list Z) (c : list Z) : list Z := rsum q n G (fun i => rmul q n (gadget_digit q B k i c) (h i)).
Definition product_noise (w : list Z) (e : nat -> list Z) (c : list Z) : list Z := rsub q (key_product e c) (rmul q n w (drop c)).
Definition key_bound (l : Z) : Z := Z.of_nat G * (B / 2 * ep) + l * drop_bound_.

Lemma key_product_wf h c : wf (key_product h c).
Proof using HR. clear - HR. apply (rsum_wf (HR := HR)). intros. apply rmul_wf. Qed.

Lemma slot_key_product x h c : (x < n)%nat -> (forall i, (i < G)%nat -> wf (h i)) ->
  slot_ x (key_product h c) ≡[q] sumZ G (fun i => slot_ x (gadget_digit q B k i c) * slot_ x (h i)).
Proof using HR. clear - HR. intros Hx Hh. apply (slot_dot (HR := HR)); [done|intros; apply gadget_digit_wf|done]. Qed.

(** The phase of the product is [w c] up to the noise. *)
Lemma product_phase w e h c : wf w -> wf c -> ntru_rel w e h -> (forall i, (i < G)%nat -> wf (e i) /\ wf (h i)) ->
  rmul q n f (key_product h c) = radd q (rmul q n w c) (product_noise w e c).
Proof using HR Hg Hf.
  clear - HR Hg Hf. intros Ww Wc Hrel Hw. pose proof (key_product_wf h c) as W1. pose proof (key_product_wf e c) as W2. pose proof (dropped_wf (HR := HR) g G c) as W3.
  pose proof (rmul_wf k w (drop c)) as W4. pose proof (rmul_wf k w c) as W5. pose proof (rsub_wf k _ _ W2 W4) as W6. unfold product_noise.
  apply (slot_ext (HR := HR)); [apply rmul_wf|by apply radd_wf|]. intros x Hx.
  rewrite (slot_radd (HR := HR)), (slot_rsub (HR := HR)), !(slot_rmul (HR := HR)), !slot_key_product by (done || (intros; by apply Hw)).
  assert (slot_ x (drop c) ≡[q] slot_ x c - sumZ G (fun i => B ^ (Z.of_nat i + 1) * slot_ x (gadget_digit q B k i c))) as ->.
  { rewrite (slot_gadget (HR := HR) g Hg G x c Hx Wc). apply eqm_refl. ring. }
  set (D := fun i => slot_ x (gadget_digit q B k i c)). rewrite <- sumZ_scale.
  rewrite (sumZ_eqm q G _ (fun i => D i * slot_ x (e i) + slot_ x w * (B ^ (Z.of_nat i + 1) * D i))).
  - rewrite sumZ_add, sumZ_scale. apply eqm_refl. unfold D. ring.
  - intros i Hi. transitivity (D i * (slot_ x f * slot_ x (h i))); [apply eqm_refl; unfold D; ring|]. rewrite (Hrel i x Hi Hx). apply eqm_refl. ring.
Qed.

Lemma product_noise_bound w e c (l : Z) : wf w -> wf c -> 0 <= l -> l1_le q n l w -> (forall i, (i < G)%nat -> wf (e i) /\ l1_le q n ep (e i)) ->
  wf (product_noise w e c) /\ inf_le q n (key_bound l) (product_noise w e c).
Proof using HR Hg HGq Hep.
  clear - HR Hg HGq Hep. intros Ww Wc Hl Hlw He. pose proof (drop_bound_nonneg (q := q) g Hg G HGq) as Hd. assert (0 <= B / 2) as HB2 by (apply Z.div_pos; [apply Z.pow_nonneg|]; lia).
  pose proof (key_product_wf e c) as W1. pose proof (rmul_wf k w (drop c)) as W2. split; [by apply rsub_wf|].
  apply inf_rsub; [apply W1|apply W2| |].
  - apply (inf_rsum (HR := HR)); [intros; apply rmul_wf|]. intros i Hi. destruct (He i Hi) as [We Be].
    apply (inf_rmul_r (HR := HR)); [apply gadget_digit_wf|done|done|by apply gadget_digit_inf|done].
  - apply inf_rmul; [done|done|]. by apply (dropped_inf (HR := HR)).
Qed.

Lemma sum_products_spec times c h : is_times (q := q) (psi := psi) (k := k) times -> (forall i, (i < G)%nat -> wf (h i)) ->
  sum_products ps times (polys_ G (fun i => gadget_digit q B k i c)) (polys_ G h) = Ok (of_ EVALUATION (key_product h c)).
Proof using HR Hps.
  clear - HR Hps. intros HT Hh. unfold sum_products. rewrite (rp_digitsG Hps), Nat.sub_succ, Nat.sub_0_r, (rp_polyParams Hps), (zero_of (HR := HR)).
  set (F := fun i => rmul q n (gadget_digit q B k i c) (h i)).
  apply (for_states _ G (fun i => of_ EVALUATION (rsum q n i F))). intros i Hi. specialize (Hh i Hi).
  rewrite !polys_get, !bind_ok, HT, bind_ok by (done || apply gadget_digit_wf). apply (PlusEq_of (HR := HR)); [apply (rsum_wf (HR := HR)); intros|]; apply rmul_wf.
Qed.

Lemma VNTRU_decompose_spec c : wf c -> VNTRU_decompose arb ps st (of_ COEFFICIENT c) = Ok (st, polys_ G (fun i => gadget_digit q B k i c)).
Proof using HR Hps Hg HgQ.
  intros Hc. unfold VNTRU_decompose. rewrite (rp_polyParams Hps), (rp_Q Hps), (rp_baseG Hps), (rp_digitsG Hps), (rp_N Hps). by apply (decompose_spec (HR := HR)).
Qed.

(** ** The steps of an accumulator

    The phase [f c] of an accumulator [c] is a rotation of [v]. *)
Definition ntru_state (v : list Z) (T b : Z) (acc : NTRUCiphertext) : Prop :=
  exists c, acc = of_ EVALUATION c /\ wf c /\ rotated_ v T b (rmul q n f c).

Lemma AddToAcc_product w key c (l : Z) : ntru_key w key -> wf w -> 0 <= l -> l1_le q n l w -> wf c ->
  returns (AddToAccXZDDF arb ps key (of_ EVALUATION c) st) (fun r => r.1 = st /\ exists c' N, r.2 = of_ EVALUATION c' /\ wf c' /\
    wf N /\ inf_le q n (key_bound l) N /\ rmul q n f c' = radd q (rmul q n w c) N).
Proof using HR Hg HgQ HGq Hps Hf Hep.
  intros (e & h & -> & Hrel & Hw) Ww Hl Hlw Wc. unfold AddToAccXZDDF. rewrite (SetFormat_of (HR := HR)), bind_ok by done. cbn [fst snd].
  rewrite VNTRU_decompose_spec, bind_ok by done. cbn [fst snd]. rewrite sum_products_spec, bind_ok by (first [apply TimesEq_is_times|intros; by apply Hw]).
  apply returns_ok. split; [done|]. cbn [snd]. exists (key_product h c), (product_noise w e c).
  destruct (product_noise_bound w e c l Ww Wc Hl Hlw) as [N1 N2]; [intros i Hi; split; by apply Hw|].
  split; [done|]. split; [apply key_product_wf|]. split; [done|]. split; [done|]. apply product_phase; try done. intros i Hi; split; by apply Hw.
Qed.

(** The first key turns an element into an accumulator of it. *)
Lemma vntru_first_step key t v : ntru_key (mono_ t) key -> wf v ->
  returns (AddToAccXZDDF arb ps key (of_ EVALUATION v) st) (fun r => r.1 = st /\ ntru_state v t (key_bound 1) r.2).
Proof using All.
  intros Hkey Hv. eapply returns_mono; [apply (AddToAcc_product (mono_ t) key v 1 Hkey (mono_wf (HR := HR) t)); [lia|apply l1_mono, pow2_pos_nat|done]|].
  intros r (E1 & c' & N & E2 & Wc' & WN & BN & Eph). split; [done|]. exists c'. split; [done|]. split; [done|]. by exists N.
Qed.

(** An encryption of [f X^t] rotates by [t]. *)
Lemma AddToAcc_step key t v T b acc : ntru_key (rmul q n f (mono_ t)) key -> wf v -> 0 <= b -> ntru_state v T b acc ->
  returns (AddToAccXZDDF arb ps key acc st) (fun r => r.1 = st /\ ntru_state v (T + t) (b + key_bound sg) r.2).
Proof using All.
  intros Hkey Hv Hb (c & -> & Wc & Hr). pose proof (mono_wf (HR := HR) t) as Wt. pose proof (rmul_wf k f (mono_ t)) as Ww.
  assert (l1_le q n sg (rmul q n f (mono_ t))) as Hl by (rewrite <- (Z.mul_1_r sg); apply l1_rmul; [done|apply l1_mono, pow2_pos_nat|lia]).
  eapply returns_mono; [by apply (AddToAcc_product (rmul q n f (mono_ t)) key c sg)|]. intros r (E1 & c' & N & E2 & Wc' & WN & BN & Eph).
  split; [done|]. exists c'. split; [done|]. split; [done|]. eapply (rotated_compose (HR := HR)); [done|done|exact Hr|]. exists N. split; [done|]. split; [done|].
  rewrite Eph. pose proof (rmul_wf k (rmul q n f (mono_ t)) c) as W1. pose proof (rmul_wf k f c) as W2. pose proof (rmul_wf k (mono_ t) (rmul q n f c)) as W3.
  apply (slot_ext (HR := HR)); [by apply radd_wf|by apply radd_wf|]. intros x Hx. rewrite !(slot_radd (HR := HR)), !(slot_rmul (HR := HR)) by done. apply eqm_refl. ring.
Qed.

(** An encryption of [f(x^K)] brings the transformed accumulator back to [f]. *)
Lemma VNTRU_Automorphism_step K key v T b acc : auto_exponent K -> ntru_key (raut q n K f) key -> wf v -> 0 <= b -> ntru_state v T b acc ->
  returns (VNTRU_Automorphism arb ps K key acc st) (fun r => r.1 = st /\ ntru_state (raut q n K v) (K * T) (b + key_bound sg) r.2).
Proof using All.
  intros HK (e & h & -> & Hrel & Hw) Hv Hb (c & -> & Wc & Hr). pose proof HK as [HKo HK32]. pose proof HKo as [HK1 HK0].
  pose proof (raut_wf k K _ Wc) as Rc. pose proof (raut_wf k K _ Hf) as Rf. pose proof (rmul_wf k f c) as Wfc.
  unfold VNTRU_Automorphism, ConvertToInt. rewrite (rp_N Hps), Z.mod_small by lia.
  eapply returns_bind; [by apply (PrecomputeAutoMap_spec (HR := HR))|]. intros vec [Lv Ev].
  rewrite (AutomorphismTransform_precomp_of (HR := HR)), bind_ok by done. rewrite (SetFormat_of (HR := HR)), bind_ok by done. cbn [fst snd].
  rewrite VNTRU_decompose_spec, bind_ok by done. cbn [fst snd]. rewrite sum_products_spec, bind_ok by (first [by apply Times_is_times|intros; by apply Hw]).
  apply returns_ok. split; [done|]. cbn [snd]. exists (key_product h (raut q n K c)). split; [done|]. split; [apply key_product_wf|].
  rewrite (product_phase (raut q n K f) e) by (done || (intros i Hi; split; by apply Hw)). rewrite <- (raut_rmul (HR := HR)) by done.
  destruct (product_noise_bound (raut q n K f) e (raut q n K c) sg Rf Rc Hsg) as [N1 N2]; [by apply l1_raut|intros i Hi; split; by apply Hw|].
  apply (rotated_add (HR := HR)); [done|done|]. by apply (rotated_raut (HR := HR)).
Qed.

Lemma ntru_state_mono v T b b' acc : b <= b' -> ntru_state v T b acc -> ntru_state v T b' acc.
Proof using Type. intros Hb (c & E & Wc & Hr). exists c. split; [done|]. split; [done|]. by apply (rotated_mono v T b). Qed.

Lemma ntru_state_periodic v T T' b acc : T ≡[2 * Z.of_nat n] T' -> ntru_state v T b acc -> ntru_state v T' b acc.
Proof using Type. intros E (c & E' & Wc & Hr). exists c. split; [done|]. split; [done|]. by apply (rotated_periodic v T T' b). Qed.

(** ** The generators of the keys *)
Context (finv : list Z) (Hfi : wf finv) (Hinv : forall x, (x < n)%nat -> slot_ x f * slot_ x finv ≡[q] 1).

Definition good_errors (err : nat -> NativeVector) : Prop := exists e, forall i, (i < G)%nat -> err i = NVec q (e i) /\ wf (e i) /\ l1_le q n ep (e i).

Lemma signed_position_spec m : - Z.of_nat n <= m < Z.of_nat n -> exists pos, signed_position n m = Ok (m <? 0, pos) /\ (pos < n)%nat /\
  forall x P, slot_ x (rterm q n (if m <? 0 then - P else P) pos) ≡[q] P * slot_ x (mono_ m).
Proof using HR.
  clear - HR. intros Hm. pose proof (pow2_pos_nat k) as Hn. exists (Z.to_nat (if m <? 0 then m + Z.of_nat n else m)). unfold signed_position.
  rewrite (proj2 (Nat.eqb_neq n 0)) by lia. assert (Z.rem (Z.rem m (Z.of_nat n) + Z.of_nat n) (Z.of_nat n) = if m <? 0 then m + Z.of_nat n else m) as ->.
  { destruct (Z.ltb_spec m 0).
    - destruct (Z.eq_dec m (- Z.of_nat n)) as [->|Hne]; [rewrite Z.rem_opp_l, Z.rem_same, Z.rem_same by lia; lia|].
      assert (Z.rem m (Z.of_nat n) = m) as ->. { rewrite <- (Z.opp_involutive m), Z.rem_opp_l, Z.rem_small by lia. done. } apply Z.rem_small. lia.
    - rewrite (Z.rem_small m), Z.rem_mod_nonneg by lia. symmetry. apply (Z.mod_unique_pos _ _ 1); lia. }
  split; [done|]. assert (Z.to_nat (if (m <? 0)%Z then (m + Z.of_nat n)%Z else m) < n)%nat as Hpos by (destruct (Z.ltb_spec m 0); lia). split; [done|]. intros x P.
  rewrite (slot_rterm (HR := HR)) by done. unfold mono. destruct (Z.ltb_spec m 0).
  - assert (m mod (2 * Z.of_nat n) = m + 2 * Z.of_nat n) as -> by (symmetry; apply (Z.mod_unique_pos _ _ (-1)); lia).
    rewrite (proj2 (Nat.ltb_ge _ _)) by lia. rewrite (slot_rterm (HR := HR)) by lia. apply eqm_refl. replace (Z.to_nat (m + 2 * Z.of_nat n) - n)%nat with (Z.to_nat (m + Z.of_nat n)) by lia. ring.
  - rewrite Z.mod_small, (proj2 (Nat.ltb_lt _ _)), (slot_rterm (HR := HR)) by lia. apply eqm_refl. ring.
Qed.

Lemma add_gadget_spec neg pos i a : wf a -> (pos < n)%nat -> (i < G)%nat ->
  add_gadget ps (neg, pos) i (of_ COEFFICIENT a) = Ok (of_ COEFFICIENT (radd q a (rterm q n (if neg then - B ^ (Z.of_nat i + 1) else B ^ (Z.of_nat i + 1)) pos))).
Proof using HR Hps.
  clear - HR Hps. intros Ha Hpos Hi. pose proof (add_power_spec (HR := HR) g G ps Hps neg pos (2 * i) a Ha Hpos ltac:(lia)) as E.
  unfold add_power, row_power in E. rewrite (Nat.mul_comm 2 i), Nat.div_mul in E by lia. exact E.
Qed.

Lemma KDMKeyGen_spec m err : - Z.of_nat n <= m < Z.of_nat n -> good_errors err ->
  returns (KDMKeyGenXZDDF arb ps (of_ EVALUATION finv) m err st) (fun r => r.1 = st /\ ntru_key (mono_ m) r.2).
Proof using HR Hps Hfi Hinv.
  clear Hg HgQ HGq Hf Hsg Hfl Hep. intros Hm (e & He). destruct (signed_position_spec m Hm) as (pos & Epos & Hpos & Hslot). unfold KDMKeyGenXZDDF. rewrite (rp_N Hps), Epos, bind_ok.
  rewrite (rp_digitsG Hps), Nat.sub_succ, Nat.sub_0_r, (rp_polyParams Hps).
  set (term := fun i => rterm q n (if m <? 0 then - B ^ (Z.of_nat i + 1) else B ^ (Z.of_nat i + 1)) pos). assert (forall i, wf (term i)) as Wt by (intros i; apply (rterm_wf (HR := HR))).
  set (h := fun i => rmul q n (radd q (e i) (term i)) finv).
  rewrite (tabulateS_ok G _ (fun i => of_ EVALUATION (h i))).
  - apply returns_ok. split; [done|]. exists e, h. split; [done|]. split.
    + intros i x Hi Hx. destruct (He i Hi) as (_ & We & _). pose proof (radd_wf k _ _ We (Wt i)) as W1. unfold h. rewrite (slot_rmul (HR := HR)), (slot_radd (HR := HR)) by done.
      unfold term at 1. rewrite Hslot. transitivity (slot_ x f * slot_ x finv * (slot_ x (e i) + B ^ (Z.of_nat i + 1) * slot_ x (mono_ m))); [apply eqm_refl; ring|].
      rewrite (Hinv x Hx). apply eqm_refl. ring.
    + intros i Hi. destruct (He i Hi) as (_ & We & Be). split; [done|]. split; [apply rmul_wf|done].
  - intros i Hi. destruct (He i Hi) as (-> & We & _). change (MkPoly COEFFICIENT (ring_par q psi k) (Some (NVec q (e i)))) with (of_ COEFFICIENT (e i)).
    pose proof (radd_wf k _ _ We (Wt i)) as W1. rewrite add_gadget_spec, bind_ok by done. fold (term i). rewrite (SetFormat_of (HR := HR)), bind_ok by done. cbn [fst snd].
    rewrite (Times_of (HR := HR)), bind_ok by done. done.
Qed.

Lemma KeyGenXZDDF_spec m err : - Z.of_nat n <= m < Z.of_nat n -> good_errors err ->
  returns (KeyGenXZDDF arb ps (of_ EVALUATION finv) m err st) (fun r => r.1 = st /\ ntru_key (rmul q n f (mono_ m)) r.2).
Proof using HR Hps Hf Hfi Hinv.
  clear Hg HgQ HGq Hsg Hfl Hep. intros Hm (e & He). destruct (signed_position_spec m Hm) as (pos & Epos & Hpos & Hslot). unfold KeyGenXZDDF. rewrite (rp_N Hps), Epos, bind_ok.
  rewrite (rp_digitsG Hps), Nat.sub_succ, Nat.sub_0_r, (rp_polyParams Hps).
  set (term := fun i => rterm q n (if m <? 0 then - B ^ (Z.of_nat i + 1) else B ^ (Z.of_nat i + 1)) pos). assert (forall i, wf (term i)) as Wt by (intros i; apply (rterm_wf (HR := HR))).
  set (h := fun i => radd q (rmul q n (e i) finv) (term i)). pose proof (mono_wf (HR := HR) m) as Wm.
  rewrite (tabulateS_ok G _ (fun i => of_ EVALUATION (h i))).
  - apply returns_ok. split; [done|]. exists e, h. split; [done|]. split.
    + intros i x Hi Hx. destruct (He i Hi) as (_ & We & _). pose proof (rmul_wf k (e i) finv) as W1. unfold h. rewrite (slot_radd (HR := HR)), !(slot_rmul (HR := HR)) by done.
      unfold term at 1. rewrite Hslot. transitivity (slot_ x f * slot_ x finv * slot_ x (e i) + slot_ x f * (B ^ (Z.of_nat i + 1) * slot_ x (mono_ m))); [apply eqm_refl; ring|].
      rewrite (Hinv x Hx). apply eqm_refl. ring.
    + intros i Hi. destruct (He i Hi) as (_ & We & Be). split; [done|]. split; [apply radd_wf; [apply rmul_wf|done]|done].
  - intros i Hi. destruct (He i Hi) as (-> & We & _). pose proof (rmul_wf k (e i) finv) as W1. rewrite (sampled_spec (HR := HR)), bind_ok by done. cbn [fst snd].
    rewrite (Times_of (HR := HR)), bind_ok by done. change (SetValuesToZero (new_poly (ring_par q psi k) COEFFICIENT false)) with (of_ COEFFICIENT (rzero n)).
    pose proof (rzero_wf (q := q) k) as Wz. rewrite add_gadget_spec, bind_ok by done. fold (term i). rewrite (radd_0_l (HR := HR)) by done.
    rewrite (SetFormat_of (HR := HR)), bind_ok by done. cbn [fst snd]. rewrite (Plus_of (HR := HR)), bind_ok by done. done.
Qed.

Lemma VNTRU_KeyGenAuto_spec K err : auto_exponent K -> good_errors err ->
  returns (VNTRU_KeyGenAuto arb ps (of_ EVALUATION f) (of_ EVALUATION finv) K err st) (fun r => r.1 = st /\ ntru_key (raut q n K f) r.2).
Proof using HR Hps Hf Hfi Hinv.
  clear Hg HgQ HGq Hsg Hfl Hep. intros [[HK HK0] HK32] (e & He). pose proof (nm_bounds (w := W) (m := q)) as Hq. pose proof (raut_wf k K f Hf) as Wr.
  unfold VNTRU_KeyGenAuto. rewrite Z.mod_small, (Automorphism_evaluation (HR := HR)), bind_ok by (done || lia). rewrite (rp_digitsG Hps), Nat.sub_succ, Nat.sub_0_r, (rp_polyParams Hps).
  set (P := fun i => (B ^ (Z.of_nat i + 1)) mod q). set (h := fun i => rmul q n (radd q (e i) (rscale q (P i) (raut q n K f))) finv).
  rewrite (tabulateS_ok G _ (fun i => of_ EVALUATION (h i))).
  - apply returns_ok. split; [done|]. exists e, h. split; [done|]. split.
    + intros i x Hi Hx. destruct (He i Hi) as (_ & We & _). pose proof (rscale_wf k (P i) _ Wr) as W1. pose proof (radd_wf k _ _ We W1) as W2. unfold h.
      rewrite (slot_rmul (HR := HR)), (slot_radd (HR := HR)), (slot_rscale (HR := HR)) by done.
      transitivity (slot_ x f * slot_ x finv * (slot_ x (e i) + slot_ x (raut q n K f) * P i)); [apply eqm_refl; ring|]. rewrite (Hinv x Hx). unfold P. rewrite eqm_mod. apply eqm_refl. ring.
    + intros i Hi. destruct (He i Hi) as (_ & We & Be). split; [done|]. split; [apply rmul_wf|done].
  - intros i Hi. destruct (He i Hi) as (-> & We & _). pose proof (rscale_wf k (P i) _ Wr) as W1. pose proof (radd_wf k _ _ We W1) as W2.
    rewrite (sampled_spec (HR := HR)), bind_ok by done. cbn [fst snd]. rewrite (vget_lookup _ _ _ (rp_Gpower Hps (i + 1) ltac:(lia))), bind_ok.
    replace (Z.of_nat (i + 1)) with (Z.of_nat i + 1) by lia. fold (P i). rewrite (TimesInt_of (HR := HR)), bind_ok by (done || apply Z.mod_pos_bound; lia).
    rewrite (Plus_of (HR := HR)), bind_ok, (Times_of (HR := HR)), bind_ok by done. done.
Qed.
End Keys.
