(* ===== verification/VntruRotation.v ===== *)
(** * The blind rotation of the vector NTRU accumulator

    [EvalAcc] transforms the accumulator so that its exponent is multiplied by
    [w_i / w_(i+1)] between two keys, with [w_i = (2 N / q) a_i + 1]: the sum of the
    exponents telescopes to [- sum_i w_i t_i], and a last key adds [sum_i t_i].
    The keys of the automorphisms are found when the modulus of the mask is the
    dimension of the ring.  Here: the rotation with the keys that it needs, an interface
    [NtruRotation] for it, and [KeyGenAcc], which makes those keys. *)

From Stdlib Require Import ZArith Lia String.
From stdpp Require Import base tactics numbers list strings gmap.
From S2P Require Import Prelude Double NativeInt NativeIntFacts ModArith NativeVec SchemeCore Negacyclic BitReverse Ntt NttFacts NttSpec NttRing Poly PolyFacts Automorphism Gadget RingNoise AccCore AccCoreFacts RgswAcc RgswFacts RgswRotation RgswKeys AutoKeys VntruAcc VntruFacts.

(** What a rotation by the key [t] does: it turns an accumulator that starts from the
    test element [v], transformed by the inverse of the first exponent of the
    mask, into one of [v] rotated by [- 2 sum_i a_i t_i]. *)
Class NtruRotation {st : FTT} {q psi : Z} {k : nat} {HR : RingTransform st q psi k} (f : list Z)
    (eval : NTRUCiphertext -> NativeVector -> FTT -> res (FTT * NTRUCiphertext)) (nn : nat) (t : nat -> Z) (bound : Z) : Prop := {
  nr_bound : 0 <= bound;
  nr_rotates v a u : wf_data (q := q) k v -> (forall i, (i < nn)%nat -> reduced (Z.of_nat (2 ^ k)) (a i)) ->
    0 <= u < 2 * Z.of_nat (2 ^ k) -> (2 * a 0%nat + 1) * u ≡[2 * Z.of_nat (2 ^ k)] 1 ->
    returns (eval (poly_of q psi k EVALUATION (raut q (2 ^ k) u v)) (NVec (Z.of_nat (2 ^ k)) (map a (seq 0 nn))) st)
      (fun r => r.1 = st /\ ntru_state (q := q) (psi := psi) (k := k) f v (- (2 * sumZ nn (fun i => a i * t i))) bound r.2)
}.

Section Rotation.
Context {st : FTT} {q psi : Z} {k : nat} {HR : RingTransform st q psi k} (arb : FTT -> NativePoly -> res (FTT * NativePoly)).
Context (g : Z) (Hg : 1 <= g <= 31) (HgQ : 2 ^ g <= q) (G : nat) (HGq : q <= (2 ^ g) ^ Z.of_nat (S G)).
Context (ps : VectorNTRUCryptoParams) (Hps : rgsw_params ps q psi k g G) (Hq : r_q ps = Z.of_nat (2 ^ k)).
Context (f : list Z) (sg : Z) (Hf : wf_data (q := q) k f) (Hsg : 0 <= sg) (Hfl : l1_le q (2 ^ k) sg f).
Context (ep : Z) (Hep : 0 <= ep) (t : nat -> Z) (nn : nat) (Hnn : (0 < nn)%nat).
Abbreviation n := (2 ^ k)%nat.
Abbreviation M := (2 * Z.of_nat n).
Abbreviation wf := (wf_data (q := q) k).
Abbreviation of_ := (poly_of q psi k).
Abbreviation key_ := (ntru_key (q := q) (psi := psi) (k := k) g G f ep).
Abbreviation state_ := (ntru_state (q := q) (psi := psi) (k := k) f).
Abbreviation bound_ := (key_bound (q := q) g G ep).

#[local] Instance vntru_rotation_modulus : NativeModulus W q.
Proof using HR. exact rt_modulus. Qed.

(** The keys of the secret, that of the sum and those of the automorphisms. *)
Definition secret_key_of (i : nat) : list Z := if (i =? 0)%nat then mono q n (- t 0%nat) else rmul q n f (mono q n (if (i <? nn)%nat then - t i else sumZ nn t)).
Definition vntru_keys (ek : VectorNTRUACCKey) : Prop :=
  (forall i, (i < S nn)%nat -> exists key, get_key ek 0 0 i = Ok key /\ key_ (secret_key_of i) key) /\
  (forall j, (j < n - 1)%nat -> exists key, get_key ek 0 1 j = Ok key /\ key_ (raut q n (2 * (Z.of_nat j + 1) + 1) f) key).

Definition vntru_bound : Z := bound_ 1 + Z.of_nat (2 * nn) * bound_ sg.

Lemma key_bounds : 0 <= bound_ 1 /\ 0 <= bound_ sg.
Proof using Hg HGq Hsg Hep.
  clear - Hg HGq Hsg Hep. pose proof (drop_bound_nonneg (q := q) g Hg G HGq) as Hd. assert (0 <= 2 ^ g / 2) by (apply Z.div_pos; [apply Z.pow_nonneg|]; lia).
  unfold key_bound. split; nia.
Qed.

Lemma order_word : exists j, M = 2 ^ Z.of_nat j /\ (j < 32)%nat /\ (0 < n)%nat /\ M <= 2 ^ 25.
Proof using HR.
  clear - HR. pose proof (rt_dim (RingTransform := HR)). exists (S k). pose proof (dim_bound (HR := HR)). split; [|lia]. rewrite Nat2Z.inj_succ, Z.pow_succ_r, Nat2Z.inj_pow by lia. done.
Qed.

(** ** The mask *)
Context (a : nat -> Z) (Ha : forall i, (i < nn)%nat -> reduced (Z.of_nat n) (a i)).
Definition w_ (i : nat) : Z := 2 * a i + 1.

Lemma mask_exponent_spec i : (i < nn)%nat -> mask_exponent n (r_q ps) (a i) = Ok (w_ i).
Proof using HR Hq Ha.
  clear - HR Hq Ha. intros Hi. specialize (Ha i Hi). unfold reduced in Ha. pose proof (dim_bound (HR := HR)) as Hn. unfold mask_exponent, to_int32, to_signed, udiv. rewrite Hq.
  rewrite (wrap_small 32 (Z.of_nat n)), (proj2 (Z.ltb_lt (Z.of_nat n) _)) by (change (2 ^ (32 - 1)) with (2 ^ 31); lia). rewrite !(Z.mod_small _ (2 ^ 32)), (proj2 (Z.eqb_neq _ 0)), bind_ok by lia.
  rewrite Z.div_mul, Z.mod_small by lia. done.
Qed.

(** The inverses of the exponents, with 1 at the end. *)
Definition inverses (l : list Z) : Prop := length l = nn /\ forall i, (i < nn)%nat -> 0 <= l !!! i < M /\ w_ i * l !!! i ≡[M] 1.

Lemma mask_inverses : returns (mapM (mask_inverse n) (map w_ (seq 0 nn))) inverses.
Proof using HR Ha.
  clear - HR Ha. destruct order_word as (j & Ej & Hj & Hn & HM).
  destruct (tabulateM_returns nn (fun i => mask_inverse n (w_ i)) (fun i x => 0 <= x < M /\ w_ i * x ≡[M] 1)) as (l & E & Ll & Hl).
  - intros i Hi. specialize (Ha i Hi). unfold reduced in Ha. apply mask_inverse_spec; [done|by exists j|unfold w_; lia|]. unfold w_. by rewrite Z.add_comm, Z.odd_add_mul_2.
  - exists l. split; [|by split]. rewrite <- E. unfold tabulateM. generalize (seq 0 nn). intros s. induction s as [|i s IH]; [done|]. cbn [map mapM]. by rewrite IH.
Qed.

Context (inv : list Z) (Hinv : inverses inv).
Definition inv_at (i : nat) : Z := (inv ++ [1]) !!! i.

Lemma inv_at_spec i : (i <= nn)%nat -> 0 <= inv_at i < M /\ ((i < nn)%nat -> w_ i * inv_at i ≡[M] 1) /\ odd_pos (inv_at i).
Proof using HR Hinv.
  clear - HR Hinv. intros Hi. destruct order_word as (j & Ej & Hj & Hn & HM). destruct Hinv as [Ll Hl]. unfold inv_at. destruct (decide (i < nn)%nat) as [Hlt|Hge].
  - rewrite lookup_total_app_l by lia. destruct (Hl i Hlt) as [Hb E]. split; [done|]. split; [done|].
    assert (Z.odd (inv !!! i) = true) as Ho. { apply eqm_iff in E as [c Ec]. pose proof (f_equal Z.odd Ec) as Eo. rewrite Z.odd_mul, Z.odd_add, Z.mul_comm, <- Z.mul_assoc, Z.odd_mul in Eo. by destruct (Z.odd (w_ i)), (Z.odd (inv !!! i)). }
    split; [done|]. destruct (Z.eq_dec (inv !!! i) 0) as [E0|]; [by rewrite E0 in Ho|lia].
  - assert (i = nn) as -> by lia. rewrite lookup_total_app_r by lia. rewrite Ll, Nat.sub_diag. cbn. split; [lia|]. split; [lia|]. by split.
Qed.

(** The sum of the exponents of the first [i] keys, before the inverse. *)
Definition partial (i : nat) : Z := sumZ i (fun j => w_ j * t j).
Definition turn_exponent_of (i : nat) : Z := (w_ i * inv_at (S i)) mod M.

Lemma turn_exponent_spec i : (i < nn)%nat -> let e := turn_exponent_of i in odd_pos e /\ e < M /\ e * inv_at i ≡[M] inv_at (S i).
Proof using HR Ha Hinv.
  clear - HR Ha Hinv. intros Hi e. destruct order_word as (j & Ej & Hj & Hn & HM). destruct (inv_at_spec i ltac:(lia)) as (I1 & I2 & _). destruct (inv_at_spec (S i) ltac:(lia)) as (_ & _ & [Ho Hp]).
  specialize (I2 Hi). specialize (Ha i Hi). unfold reduced in Ha. assert (0 <= e < M) as Hb by (apply Z.mod_pos_bound; lia).
  assert (Z.odd e = true) as Hodd. { unfold e, turn_exponent_of. rewrite Z.mod_eq, Z.odd_sub, <- Z.mul_assoc, !Z.odd_mul, Ho by lia. unfold w_. by rewrite (Z.add_comm (2 * a i)), Z.odd_add_mul_2. }
  split; [split; [done|destruct (Z.eq_dec e 0) as [E0|]; [by rewrite E0 in Hodd|lia]]|]. split; [lia|].
  assert (e ≡[M] w_ i * inv_at (S i)) as -> by apply eqm_mod. transitivity (w_ i * inv_at i * inv_at (S i)); [apply eqm_refl; ring|]. rewrite I2. apply eqm_refl. ring.
Qed.

(** The automorphism of a turn. *)
Lemma turn_automorphism ek i v b acc : vntru_keys ek -> (i < nn)%nat -> wf v -> 0 <= b ->
  state_ (raut q n (inv_at i) v) (- inv_at i * partial i - t i) b acc ->
  returns (if to_int32 (turn_exponent_of i) =? 1 then Ok (st, acc)
           else key ← get_key ek 0 1 (Z.to_nat (auto_key_index (turn_exponent_of i))); VNTRU_Automorphism arb ps (turn_exponent_of i) key acc st)
    (fun r => r.1 = st /\ state_ (raut q n (inv_at (S i)) v) (- inv_at (S i) * partial (S i)) (b + bound_ sg) r.2).
Proof using All.
  intros [_ Hauto] Hi Hv Hb Hst. destruct order_word as (j & Ej & Hj & Hn & HM). destruct key_bounds as [_ Hbd]. destruct (turn_exponent_spec i Hi) as (Ho & He & Ee).
  destruct (inv_at_spec i ltac:(lia)) as (I1 & I2 & Io). destruct (inv_at_spec (S i) ltac:(lia)) as (J1 & _ & Jo). specialize (I2 Hi). set (e := turn_exponent_of i) in *.
  assert (to_int32 e = e) as E32. { destruct Ho. unfold to_int32, to_signed. rewrite (wrap_small 32) by lia. by rewrite (proj2 (Z.ltb_lt _ _)) by (change (2 ^ (32 - 1)) with (2 ^ 31); lia). }
  assert (raut q n (e * inv_at i) v = raut q n (inv_at (S i)) v) as Er by (apply (raut_periodic (HR := HR)); [by apply odd_pos_mul|done|done|done]).
  assert (e * (- inv_at i * partial i - t i) ≡[M] - inv_at (S i) * partial (S i)) as ET.
  { assert (e * t i ≡[M] inv_at (S i) * (w_ i * t i)) as Et. { assert (e ≡[M] w_ i * inv_at (S i)) as -> by apply eqm_mod. apply eqm_refl. ring. }
    replace (e * (- inv_at i * partial i - t i)) with (- (e * inv_at i) * partial i - e * t i) by ring. rewrite Ee, Et. unfold partial. cbn [sumZ]. apply eqm_refl. ring. }
  rewrite E32. destruct (Z.eqb_spec e 1) as [E1|Hne].
  - apply returns_ok. split; [done|]. cbn [snd]. rewrite E1, Z.mul_1_l in Er, ET. rewrite <- Er. eapply ntru_state_periodic; [exact ET|]. eapply ntru_state_mono; [|exact Hst]. lia.
  - destruct Ho as [Ho Hp]. assert (exists j, e = 2 * (Z.of_nat j + 1) + 1 /\ (j < n - 1)%nat) as (l & El & Hl).
    { apply Z.odd_spec in Ho as [c Ec]. exists (Z.to_nat (c - 1)). split; lia. }
    assert (Z.to_nat (auto_key_index e) = l) as ->. { unfold auto_key_index. rewrite E32, El. replace (2 * (Z.of_nat l + 1) + 1 - 3) with (Z.of_nat l * 2) by ring. rewrite Z.quot_mul, Z.mod_small by lia. lia. }
    destruct (Hauto l Hl) as (key & -> & Hkey). rewrite bind_ok. rewrite <- El in Hkey.
    eapply returns_mono; [apply (VNTRU_Automorphism_step (HR := HR) arb g Hg HgQ G HGq ps Hps f sg Hf Hsg Hfl ep Hep e key (raut q n (inv_at i) v) (- inv_at i * partial i - t i) b acc); [split; [done|lia]|done|by destruct Io; apply raut_wf|done|exact Hst]|].
    intros r [E1 E2]. split; [done|]. rewrite (raut_raut (HR := HR)), Er in E2 by done. eapply ntru_state_periodic; [exact ET|exact E2].
Qed.

(** The accumulator before turn [i]. *)
Definition before_turn (v : list Z) (i : nat) (x : FTT * NTRUCiphertext) : Prop :=
  x.1 = st /\ if (i =? 0)%nat then x.2 = of_ EVALUATION (raut q n (inv_at 0) v)
              else state_ (raut q n (inv_at i) v) (- inv_at i * partial i) (bound_ 1 + (2 * Z.of_nat i - 1) * bound_ sg) x.2.

Lemma mask_turn_spec ek v i x : vntru_keys ek -> (i < nn)%nat -> wf v -> before_turn v i x ->
  returns (mask_turn arb ps ek (map w_ (seq 0 nn)) (inv ++ [1]) i x) (before_turn v (S i)).
Proof using All.
  intros Hek Hi Hv [Ex Hx]. destruct order_word as (j & Ej & Hj & Hn & HM). destruct key_bounds as [Hb1 Hbd]. destruct (inv_at_spec i ltac:(lia)) as (_ & _ & [Io Ip]). destruct Hinv as [Ll _].
  unfold mask_turn. rewrite (vget_lookup _ _ _ (lookup_tab nn w_ i Hi)), bind_ok. rewrite vget_total, bind_ok by (rewrite length_app; cbn [length]; lia). fold (inv_at (S i)).
  rewrite (rp_N Hps), (Z.mod_small M) by lia. unfold umod. rewrite (proj2 (Z.eqb_neq M 0)), bind_ok by lia.
  assert (((w_ i * inv_at (S i)) mod 2 ^ 32) mod M = turn_exponent_of i) as ->.
  { rewrite Z.mod_mod_divide; [done|]. exists (2 ^ (32 - Z.of_nat j)). rewrite Ej, <- Z.pow_add_r by lia. f_equal. lia. }
  destruct (proj1 Hek i ltac:(lia)) as (key & -> & Hkey). rewrite bind_ok. destruct x as [st' acc]. cbn [fst snd] in *. subst st'.
  eapply (returns_bind _ _ (fun y => y.1 = st /\ state_ (raut q n (inv_at i) v) (- inv_at i * partial i - t i) (bound_ 1 + 2 * Z.of_nat i * bound_ sg) y.2)).
  - unfold secret_key_of in Hkey. destruct (Nat.eqb_spec i 0) as [->|Hi0].
    + rewrite Hx. eapply returns_mono; [apply (vntru_first_step (HR := HR) arb g Hg HgQ G HGq ps Hps f sg Hf Hsg Hfl ep Hep key (- t 0%nat) (raut q n (inv_at 0) v) Hkey); by apply raut_wf|].
      intros r [E1 E2]. split; [done|]. eapply ntru_state_periodic; [|eapply ntru_state_mono; [|exact E2]]; [apply eqm_refl; unfold partial; cbn [sumZ]; ring|lia].
    + rewrite (proj2 (Nat.ltb_lt i nn)) in Hkey by done.
      eapply returns_mono; [apply (AddToAcc_step (HR := HR) arb g Hg HgQ G HGq ps Hps f sg Hf Hsg Hfl ep Hep key (- t i) (raut q n (inv_at i) v) (- inv_at i * partial i) (bound_ 1 + (2 * Z.of_nat i - 1) * bound_ sg) acc Hkey); [by apply raut_wf| |exact Hx]; nia|].
      intros r [E1 E2]. split; [done|]. eapply ntru_state_mono; [|exact E2]. nia.
  - intros [st' acc'] [E1 E2]. cbn [fst snd] in *. subst st'.
    eapply returns_mono; [apply (turn_automorphism ek i v (bound_ 1 + 2 * Z.of_nat i * bound_ sg) acc' Hek Hi Hv); [nia|exact E2]|].
    intros r [E3 E4]. split; [done|]. cbn [Nat.eqb]. eapply ntru_state_mono; [|exact E4]. lia.
Qed.
End Rotation.

Section Accumulator.
Context {st : FTT} {q psi : Z} {k : nat} {HR : RingTransform st q psi k} (arb : FTT -> NativePoly -> res (FTT * NativePoly)).
Context (g : Z) (Hg : 1 <= g <= 31) (HgQ : 2 ^ g <= q) (G : nat) (HGq : q <= (2 ^ g) ^ Z.of_nat (S G)).
Context (ps : VectorNTRUCryptoParams) (Hps : rgsw_params ps q psi k g G) (Hq : r_q ps = Z.of_nat (2 ^ k)).
Context (f : list Z) (sg : Z) (Hf : wf_data (q := q) k f) (Hsg : 0 <= sg) (Hfl : l1_le q (2 ^ k) sg f).
Context (ep : Z) (Hep : 0 <= ep) (t : nat -> Z) (nn : nat) (Hnn : (0 < nn)%nat).
Abbreviation n := (2 ^ k)%nat.
Abbreviation M := (2 * Z.of_nat n).
Abbreviation wf := (wf_data (q := q) k).
Abbreviation of_ := (poly_of q psi k).
Abbreviation key_ := (ntru_key (q := q) (psi := psi) (k := k) g G f ep).
Abbreviation state_ := (ntru_state (q := q) (psi := psi) (k := k) f).
Abbreviation keys_ := (vntru_keys (q := q) (psi := psi) (k := k) g G f ep t nn).

#[local] Instance vntru_accumulator_modulus : NativeModulus W q.
Proof using HR. exact rt_modulus. Qed.

(** ** [EvalAcc] *)
Lemma EvalAcc_XZDDF_spec ek a v u : keys_ ek -> (forall i, (i < nn)%nat -> reduced (Z.of_nat n) (a i)) -> wf v ->
  0 <= u < M -> (2 * a 0%nat + 1) * u ≡[M] 1 ->
  returns (EvalAcc_XZDDF arb ps ek (of_ EVALUATION (raut q n u v)) (NVec (Z.of_nat n) (map a (seq 0 nn))) st)
    (fun r => r.1 = st /\ state_ v (- (2 * sumZ nn (fun i => a i * t i))) (vntru_bound (q := q) g G sg ep nn) r.2).
Proof using All.
  intros Hek Ha Hv Hu Eu. destruct (order_word (HR := HR)) as (j & Ej & Hj & Hn & HM). destruct (key_bounds (q := q) g Hg G HGq sg Hsg ep Hep) as [Hb1 Hbd].
  unfold EvalAcc_XZDDF. cbn [data]. rewrite length_tab, (rp_N Hps), (mapM_ok (fun x => reduced (Z.of_nat n) x) _ (fun x => 2 * x + 1)), bind_ok.
  2: { intros x Hx. exact (mask_exponent_spec (HR := HR) ps Hq 1 (fun _ => x) ltac:(intros; exact Hx) 0 ltac:(lia)). }
  2: { by apply Forall_tab. }
  rewrite map_map. change (fun x => 2 * a x + 1) with (w_ a). eapply returns_bind; [by apply (mask_inverses (HR := HR) nn a)|]. intros inv Hinv.
  destruct (inv_at_spec (HR := HR) nn a inv Hinv 0 ltac:(lia)) as (I1 & I2 & Io).
  assert (u = inv_at inv 0) as ->.
  { apply eqm_small with (m := M); [done|done|]. specialize (I2 Hnn). transitivity (w_ a 0 * inv_at inv 0 * u); [rewrite I2; apply eqm_refl; ring|].
    transitivity ((2 * a 0%nat + 1) * u * inv_at inv 0); [apply eqm_refl; unfold w_; ring|]. rewrite Eu. apply eqm_refl. ring. }
  eapply returns_bind; [apply (returns_for (before_turn (st := st) (q := q) (psi := psi) (k := k) g G f sg ep t a inv v))|].
  - split; [done|]. done.
  - intros i x Hi Hx. by apply (mask_turn_spec (HR := HR) arb g Hg HgQ G HGq ps Hps Hq f sg Hf Hsg Hfl ep Hep t nn Hnn a Ha inv Hinv ek v i x).
  - intros [st' acc] [E0 Hx]. cbn [fst snd] in *. subst st'. rewrite (proj2 (Nat.eqb_neq nn 0)) in Hx by lia.
    assert (inv_at inv nn = 1) as E1. { destruct Hinv as [Ll _]. unfold inv_at. rewrite lookup_total_app_r, Ll, Nat.sub_diag by lia. done. }
    rewrite E1, (raut_one (HR := HR)) in Hx by done. destruct (proj1 Hek nn ltac:(lia)) as (key & -> & Hkey). rewrite bind_ok.
    unfold secret_key_of in Hkey. rewrite (proj2 (Nat.eqb_neq nn 0)), Nat.ltb_irrefl in Hkey by lia.
    eapply returns_mono; [apply (AddToAcc_step (HR := HR) arb g Hg HgQ G HGq ps Hps f sg Hf Hsg Hfl ep Hep key (sumZ nn t) v (- (1) * partial t a nn) (key_bound (q := q) g G ep 1 + (2 * Z.of_nat nn - 1) * key_bound (q := q) g G ep sg) acc Hkey Hv); [nia|exact Hx]|].
    intros r [E2 E3]. split; [done|]. eapply ntru_state_periodic; [|eapply ntru_state_mono; [|exact E3]].
    + unfold partial. rewrite (sumZ_ext nn _ (fun i => 2 * (a i * t i) + t i)) by (intros; unfold w_; ring). rewrite sumZ_add, sumZ_scale. apply eqm_refl. ring.
    + unfold vntru_bound. lia.
Qed.

#[export] Instance xzddf_rotation ek : keys_ ek -> NtruRotation (HR := HR) f (EvalAcc_XZDDF arb ps ek) nn t (vntru_bound (q := q) g G sg ep nn).
Proof using All.
  intros Hek. destruct (key_bounds (q := q) g Hg G HGq sg Hsg ep Hep) as [Hb1 Hbd]. split; [unfold vntru_bound; nia|]. intros v a u Hv Ha Hu Eu. by apply EvalAcc_XZDDF_spec.
Qed.

(** ** [KeyGenAcc] *)
Context (finv : list Z) (Hfi : wf finv) (Hinv : forall x, (x < n)%nat -> slot q psi k x f * slot q psi k x finv ≡[q] 1).
Context (err : nat -> nat -> nat -> NativeVector) (Herr : forall v i, good_errors (q := q) (k := k) G ep (err v i)).
Context (m_ : Z) (Hm : 3 <= m_) (Hfit : Z.of_nat nn * m_ < 2 ^ 31) (Hsum : 2 * Z.of_nat nn < m_) (Hnn2 : (nn < n)%nat) (Ht : forall i, (i < nn)%nat -> -1 <= t i <= 1).
Abbreviation secret := (NVec m_ (map (fun i => t i mod m_) (seq 0 nn))).

Lemma to_int32_small x : 0 <= x < 2 ^ 31 -> to_int32 x = x.
Proof using Type. clear. intros Hx. unfold to_int32, to_signed. rewrite (wrap_small 32) by lia. change (32 - 1) with 31. by rewrite (proj2 (Z.ltb_lt _ _)) by lia. Qed.

Lemma negated_secret_spec i : (i < nn)%nat -> negated_secret m_ (t i mod m_) = Ok (- t i).
Proof using Hm Hfit Ht.
  clear - Hm Hfit Ht. intros Hi. specialize (Ht i Hi). pose proof (Z.mod_pos_bound (t i) m_ ltac:(lia)) as Hb. assert (m_ < 2 ^ 31) as Hm31 by nia.
  unfold negated_secret. rewrite to_int32_small, Z.shiftr_div_pow2 by lia. change (2 ^ 1) with 2. pose proof (Z.div_mod m_ 2 ltac:(lia)). pose proof (Z.mod_pos_bound m_ 2 ltac:(lia)).
  destruct (Z.eq_dec (t i) (-1)) as [E|Hne].
  - assert (t i mod m_ = m_ - 1) as -> by (rewrite E; symmetry; apply (Z.mod_unique_pos _ _ (-1)); lia). rewrite (proj2 (Z.ltb_lt _ _)), sck_spec by (change (2 ^ (32 - 1)) with (2 ^ 31); lia). f_equal. lia.
  - rewrite Z.mod_small, (proj2 (Z.ltb_ge _ _)), sck_spec by (change (2 ^ (32 - 1)) with (2 ^ 31); lia). done.
Qed.

Lemma secret_sum_bound : Z.abs (sumZ nn t) <= Z.of_nat nn.
Proof using Ht. clear - Ht. rewrite <- (Z.mul_1_r (Z.of_nat nn)). apply sumZ_bound. intros i Hi. specialize (Ht i Hi). lia. Qed.

Lemma secret_sum_spec : secret_sum m_ (map (fun i => t i mod m_) (seq 0 nn)) = Ok (sumZ nn t).
Proof using Hm Hfit Hsum Ht.
  clear - Hm Hfit Hsum Ht. pose proof secret_sum_bound as Hs. unfold secret_sum. rewrite length_tab. set (F := fun i => sumZ i (fun j => t j mod m_)).
  assert (forall i, 0 <= F i <= Z.of_nat i * (m_ - 1)) as HF.
  { intros i. unfold F. induction i as [|i IH]; cbn [sumZ]; [lia|]. pose proof (Z.mod_pos_bound (t i) m_ ltac:(lia)). lia. }
  match goal with |- context [for_ nn ?h 0] => change (for_ nn h 0) with (for_ nn h (F 0%nat)) end. rewrite (for_states _ nn F), bind_ok.
  2: { intros i Hi. rewrite (vget_lookup _ _ _ (lookup_tab nn (fun i => t i mod m_) i Hi)), bind_ok. pose proof (Z.mod_pos_bound (t i) m_ ltac:(lia)). specialize (HF (S i)).
       assert (m_ <= Z.of_nat nn * m_) by nia. assert (Z.of_nat (S i) * (m_ - 1) <= Z.of_nat nn * m_) by nia.
       rewrite to_int32_small by lia. change (F i + t i mod m_) with (F (S i)). apply sck_spec. change (2 ^ (32 - 1)) with (2 ^ 31). lia. }
  rewrite (proj2 (Z.eqb_neq m_ 0)), Z.rem_mod_nonneg by (specialize (HF nn); lia).
  assert (F nn ≡[m_] sumZ nn t) as EF by (apply sumZ_eqm; intros; apply eqm_mod). unfold eqm in EF. rewrite EF.
  rewrite Z.shiftr_div_pow2 by lia. change (2 ^ 1) with 2. pose proof (Z.div_mod m_ 2 ltac:(lia)). pose proof (Z.mod_pos_bound m_ 2 ltac:(lia)).
  destruct (Z.lt_ge_cases (sumZ nn t) 0).
  - assert (sumZ nn t mod m_ = sumZ nn t + m_) as -> by (symmetry; apply (Z.mod_unique_pos _ _ (-1)); lia). rewrite (proj2 (Z.ltb_lt _ _)), sck_spec by (change (2 ^ (32 - 1)) with (2 ^ 31); nia). f_equal. lia.
  - rewrite Z.mod_small, (proj2 (Z.ltb_ge _ _)) by lia. done.
Qed.

(** The keys of the first [i] entries and of the first [j] automorphisms. *)
Definition vntru_before (dim i j : nat) (x : FTT * VectorNTRUACCKey) : Prop :=
  x.1 = st /\ shape 1 2 dim x.2 /\
  (forall i', (i' < i)%nat -> exists key, get_key x.2 0 0 i' = Ok key /\ key_ (secret_key_of (q := q) (k := k) f t nn i') key) /\
  (forall j', (j' < j)%nat -> exists key, get_key x.2 0 1 j' = Ok key /\ key_ (raut q n (2 * (Z.of_nat j' + 1) + 1) f) key).

Lemma put_secret make dim i x : (i < dim)%nat -> returns (make st) (fun r => r.1 = st /\ key_ (secret_key_of (q := q) (k := k) f t nn i) r.2) -> vntru_before dim i 0 x ->
  returns (put_key make 0 i x) (vntru_before dim (S i) 0).
Proof using Type.
  clear. intros Hi Hmake (E0 & Hsh & H0 & _). unfold put_key. eapply returns_mono; [apply (store_key (st := st) 1 2 dim (key_ (secret_key_of (q := q) (k := k) f t nn i))); [lia|lia|done|done|done|exact Hmake]|].
  intros y (E1 & Sh & (key & K1 & K2) & Ho). split; [done|]. split; [done|]. split; [|lia]. intros i' Hi'. destruct (decide (i' = i)) as [->|Hne]; [by exists key|].
  destruct (H0 i' ltac:(lia)) as (key' & K3 & K4). exists key'. split; [apply Ho; [distinct|done]|done].
Qed.

Lemma put_auto make dim i j x : (j < dim)%nat -> returns (make st) (fun r => r.1 = st /\ key_ (raut q n (2 * (Z.of_nat j + 1) + 1) f) r.2) -> vntru_before dim i j x ->
  returns (put_key make 1 j x) (vntru_before dim i (S j)).
Proof using Type.
  clear. intros Hj Hmake (E0 & Hsh & H0 & H1). unfold put_key. eapply returns_mono; [apply (store_key (st := st) 1 2 dim (key_ (raut q n (2 * (Z.of_nat j + 1) + 1) f))); [lia|lia|done|done|done|exact Hmake]|].
  intros y (E1 & Sh & (key & K1 & K2) & Ho). split; [done|]. split; [done|]. split.
  - intros i' Hi'. destruct (H0 i' Hi') as (key' & K3 & K4). exists key'. split; [apply Ho; [distinct|done]|done].
  - intros j' Hj'. destruct (decide (j' = j)) as [->|Hne]; [by exists key|]. destruct (H1 j' ltac:(lia)) as (key' & K3 & K4). exists key'. split; [apply Ho; [distinct|done]|done].
Qed.

Lemma KeyGenAcc_XZDDF_spec :
  returns (KeyGenAcc_XZDDF arb ps (of_ EVALUATION f) (of_ EVALUATION finv) secret err st) (fun r => r.1 = st /\ keys_ r.2).
Proof using All.
  destruct (order_word (HR := HR)) as (jj & Ej & Hj & Hn & HM). assert (m_ < 2 ^ 31) as Hm31 by nia. pose proof secret_sum_bound as Hsb.
  unfold KeyGenAcc_XZDDF. cbn [modulus data]. rewrite length_tab, to_int32_small, Hq by lia. rewrite (wrap_small W) by (change (2 ^ W) with (2 ^ 64); lia).
  set (dim := if Z.of_nat nn + 1 <? Z.of_nat n - 1 then Z.to_nat (Z.of_nat n - 1) else (nn + 1)%nat).
  assert (nn < dim /\ n - 1 <= dim)%nat as [Hd1 Hd2] by (unfold dim; destruct (Z.ltb_spec (Z.of_nat nn + 1) (Z.of_nat n - 1)); lia).
  assert (forall i, (i < nn)%nat -> - Z.of_nat n <= - t i < Z.of_nat n) as Htn by (intros i Hi; specialize (Ht i Hi); lia).
  rewrite (secret_get t nn m_ 0 Hnn), bind_ok, negated_secret_spec, bind_ok by done.
  eapply returns_bind.
  { apply (put_secret _ dim 0); [lia|by apply (KDMKeyGen_spec (HR := HR) arb g G ps Hps f ep finv Hfi Hinv); [apply Htn|]|].
    split; [done|]. split; [apply shape_new|]. split; intros; lia. }
  intros x1 Hx1. eapply returns_bind.
  { apply (returns_for (fun i => vntru_before dim (S i) 0)); [exact Hx1|]. intros i x Hi Hx. rewrite (secret_get t nn m_ (S i) ltac:(lia)), bind_ok, negated_secret_spec, bind_ok by lia.
    apply put_secret; [lia| |done]. unfold secret_key_of. cbn [Nat.eqb]. rewrite (proj2 (Nat.ltb_lt (S i) nn)) by lia.
    apply (KeyGenXZDDF_spec (HR := HR) arb g G ps Hps f Hf ep finv Hfi Hinv); [apply Htn; lia|done]. }
  intros x2 Hx2. rewrite Nat.sub_1_r, Nat.succ_pred in Hx2 by lia. rewrite secret_sum_spec, bind_ok.
  eapply returns_bind.
  { apply (put_secret _ dim nn); [done| |exact Hx2]. unfold secret_key_of. rewrite (proj2 (Nat.eqb_neq nn 0)), Nat.ltb_irrefl by lia.
    apply (KeyGenXZDDF_spec (HR := HR) arb g G ps Hps f Hf ep finv Hfi Hinv); [lia|done]. }
  intros x3 Hx3. assert (to_signed W (Z.of_nat n) = Z.of_nat n) as ->. { unfold to_signed. by rewrite (proj2 (Z.ltb_lt _ _)) by (change (2 ^ (W - 1)) with (2 ^ 63); lia). }
  eapply returns_mono; [apply (returns_for (fun j => vntru_before dim (S nn) j)); [exact Hx3|]|].
  - intros j x Hj' Hx. apply put_auto; [lia| |done]. unfold auto_key_exponent. rewrite (rp_N Hps), Z.quot_mul by lia.
    apply (VNTRU_KeyGenAuto_spec (HR := HR) arb g G ps Hps f Hf ep finv Hfi Hinv); [|done]. split; [|lia]. split; [|lia]. by rewrite Z.add_comm, Z.odd_add_mul_2.
  - intros r (E & _ & H0 & H1). split; [done|]. split; [exact H0|]. intros j Hj'. apply H1. lia.
Qed.
End Accumulator.
