(* ===== verification/Gates.v ===== *)
(** * Single-key gates and function evaluation

    Models the single-key part of [src/binfhe/lib/binfhe-base-scheme.cpp]: the
    bootstrapping keys ([KeyGen]), the blind rotation of a gate and of a
    function ([BootstrapGateCore], [BootstrapFuncCore], [BootstrapFunc]), the
    gates on two and on more ciphertexts ([EvalBinGate], [EvalNOT],
    [Bootstrap]) and the functions built on them ([EvalFunc], [EvalFloor],
    [EvalSign], [EvalDecomp]).  What the generators draw is an argument.  The
    base of the gadget changes during a sign evaluation: the parameters are
    passed along. *)

From Stdlib Require Import ZArith Lia String.
From stdpp Require Import base tactics numbers list strings gmap pretty.
From S2P Require Import Prelude Double NativeInt NativeIntFacts ModArith NativeVec SchemeCore Negacyclic BitReverse Ntt Poly Gadget AccCore RgswAcc Lwe.

Record RingGSWBTKey := GSWBTKey {
  g_BSkey : option RingGSWACCKey;
  g_KSkey : option LWESwitchingKey;
  g_Pkey : option LWEPublicKey
}.

Inductive KEYGEN_MODE := SYM_ENCRYPT | PUB_ENCRYPT.

Section Gates.
Context (arb : FTT -> NativePoly -> res (FTT * NativePoly)).

(** ** Keys

    [skN] is the key that the LWE scheme draws; with [PUB_ENCRYPT] the public
    key of [pkA] and [pke] goes with it. *)
Definition KeyGen (lwe : LWECryptoParams) (ps : RingGSWCryptoParams) (LWEsk : NativeVector) (keygenMode : KEYGEN_MODE) (skN : NativeVector)
    (pkA : list NativeVector) (pke : NativeVector) (gaussA : nat -> nat -> nat -> NativeVector) (err : nat -> nat -> nat -> Z)
    (sample : nat -> nat -> nat -> RgswSample) (autoSample : nat -> nat -> NativeVector * NativeVector) (st : FTT) : res (FTT * RingGSWBTKey) :=
  pk ← (match keygenMode with
        | SYM_ENCRYPT => Ok None
        | PUB_ENCRYPT => pk ← PubKeyGen lwe skN pkA pke; Ok (Some pk)
        end);
  ks ← KeySwitchGen lwe LWEsk skN gaussA err;
  skNPoly ← SetValues (new_poly (r_polyParams ps) EVALUATION false) skN COEFFICIENT;
  skNPoly ← SetFormat arb st skNPoly EVALUATION;
  keygen ← RgswAcc.acc_KeyGen arb (r_method ps) autoSample;
  bk ← keygen ps skNPoly.2 LWEsk sample skNPoly.1;
  Ok (bk.1, GSWBTKey (Some bk.2) (Some ks) pk).

(** ** The test vector

    [m[j * factor] = f(b - j)] for [j < half]; the other entries are zero. *)
Definition test_vector (N half factor : nat) (b q : Z) (f : Z -> res Z) : res (list Z) :=
  for_ half (fun j m => temp ← NativeInt.ModSub W b (Z.of_nat j) q; y ← f temp; vset m (j * factor) y) (repeat 0 N).

(** [(0, m)], then the rotation. *)
Definition rotate_vector (ps : RingGSWCryptoParams) (ek : RingGSWACCKey) (m : NativeVector) (a : NativeVector) (st : FTT) : res (FTT * RLWECiphertext) :=
  let pp := r_polyParams ps in
  p ← SetValues (new_poly pp COEFFICIENT false) m COEFFICIENT;
  r ← SetFormat arb st p EVALUATION;
  eval ← RgswAcc.acc_Eval arb (r_method ps);
  eval ps ek (new_poly pp EVALUATION true, r.2) a r.1.

Definition no_BTKeys {A} : res A :=
  Throw (config_error "Bootstrapping keys have not been generated. Please call BTKeyGen before calling bootstrapping.").

Definition gate_index (gate : BINGATE) : nat :=
  match gate with
  | OR => 0 | AND => 1 | NOR => 2 | NAND => 3 | XOR_FAST => 4 | XNOR_FAST => 5 | MAJORITY => 6 | AND3 => 7 | OR3 => 8 | AND4 => 9 | OR4 => 10
  | CMUX => 11 | XOR => 12 | XNOR => 13
  end%nat.

(** The value of the test vector: in or out of [q1, q2). *)
Definition gate_value (q1 q2 x yin yout : Z) : Z :=
  if q1 <? q2 then (if (q1 <=? x) && (x <? q2) then yin else yout)
  else (if (q2 <=? x) && (x <? q1) then yout else yin).

Definition BootstrapGateCore (lwe : LWECryptoParams) (ps : RingGSWCryptoParams) (gate : BINGATE) (ek : option RingGSWACCKey) (ct : LWECiphertext)
    (st : FTT) : res (FTT * RLWECiphertext) :=
  match ek with
  | None => no_BTKeys
  | Some ek =>
    let q := GetModulus ct in
    let qHalf := ConvertToInt 32 (Z.shiftr q 1) in
    q1 ← vget (r_gateConst ps) (gate_index gate);
    let q2 := ModAddFast W q1 qHalf q in
    let Q := m_Q lwe in
    q2p ← Q2p Q (ct_p ct);
    let Q2pNeg := Sub W Q q2p in
    let N := m_N lwe in
    factor ← udiv ((2 * Z.of_nat N) mod 2 ^ 32) q;
    m ← test_vector N (Z.to_nat qHalf) (Z.to_nat factor) (ct_b ct) q (fun temp => Ok (gate_value q1 q2 temp Q2pNeg q2p));
    rotate_vector ps ek (NVec Q m) (ct_a ct) st
  end.

(** ** Extraction

    The mask is the transposed first element, the body the constant term of the
    second one plus [b0]. *)
Definition extract_acc (Q b0 : Z) (acc : RLWECiphertext) (st : FTT) : res (FTT * LWECiphertext) :=
  a ← Transpose acc.1;
  a ← SetFormat arb st a COEFFICIENT;
  c ← SetFormat arb a.1 acc.2 COEFFICIENT;
  x ← p_get c.2 0;
  v ← GetValues a.2;
  Ok (c.1, new_LWECiphertext v (ModAddFastEq W b0 x Q)).

(** Modulus switch, key switch, modulus switch. *)
Definition switch_back (lwe : LWECryptoParams) (EK : RingGSWBTKey) (fmod : Z) (ctExt : LWECiphertext) : res LWECiphertext :=
  ctMS ← ModSwitch (m_qKS lwe) ctExt;
  match g_KSkey EK with
  | None => Throw undefined_behaviour
  | Some K => ctKS ← KeySwitch lwe K ctMS; ModSwitch fmod ctKS
  end.

(** A gate on the prepared ciphertext, whose result is moved up by [b0]. *)
Definition gate_bootstrap (lwe : LWECryptoParams) (ps : RingGSWCryptoParams) (gate : BINGATE) (EK : RingGSWBTKey) (ctprep : LWECiphertext)
    (b0 : res Z) (fmod : Z) (st : FTT) : res (FTT * LWECiphertext) :=
  acc ← BootstrapGateCore lwe ps gate (g_BSkey EK) ctprep st;
  b ← b0;
  ext ← extract_acc (m_Q lwe) b acc.2 acc.1;
  ct ← switch_back lwe EK fmod ext.2;
  Ok (ext.1, ct).

(** ** Gates *)
Definition EvalNOT (ct : LWECiphertext) : LWECiphertext :=
  let q := GetModulus ct in
  let a := map (fun x => if x =? 0 then 0 else Sub W q x) (data (ct_a ct)) in
  new_LWECiphertext (NVec q a) (ModSubFast W (Z.shiftr q 2) (ct_b ct) q).

(** The gates that take one bootstrapping. *)
Definition simple_gate (lwe : LWECryptoParams) (ps : RingGSWCryptoParams) (gate : BINGATE) (EK : RingGSWBTKey) (ct1 ct2 : LWECiphertext) (st : FTT) :
    res (FTT * LWECiphertext) :=
  let ctprep := copy_LWECiphertext ct1 in
  ctprep ← (if bool_decide (gate = XOR_FAST) || bool_decide (gate = XNOR_FAST)
            then ctprep ← EvalSubEq ctprep ct2; EvalAddEq ctprep ctprep
            else EvalAddEq ctprep ct2);
  gate_bootstrap lwe ps gate EK ctprep (Add W (Z.shiftr (m_Q lwe) 3) 1) (GetModulus ct1) st.

(** [same]: the two arguments are one object.  The ciphertexts that the branch
    for [XOR] and [XNOR] combines are new objects. *)
Definition EvalBinGate (lwe : LWECryptoParams) (ps : RingGSWCryptoParams) (gate : BINGATE) (EK : RingGSWBTKey) (same : bool) (ct1 ct2 : LWECiphertext)
    (st : FTT) : res (FTT * LWECiphertext) :=
  if same then Throw (config_error "Input ciphertexts should be independant") else
  if bool_decide (gate = XOR) || bool_decide (gate = XNOR) then
    ctAND1 ← simple_gate lwe ps AND EK ct1 (EvalNOT ct2) st;
    ctAND2 ← simple_gate lwe ps AND EK (EvalNOT ct1) ct2 ctAND1.1;
    ctOR ← simple_gate lwe ps OR EK ctAND1.2 ctAND2.2 ctAND2.1;
    Ok (ctOR.1, if bool_decide (gate = XOR) then ctOR.2 else EvalNOT ctOR.2)
  else simple_gate lwe ps gate EK ct1 ct2 st.

(** [same]: two of the arguments are one object. *)
Definition EvalBinGate_vector (lwe : LWECryptoParams) (ps : RingGSWCryptoParams) (gate : BINGATE) (EK : RingGSWBTKey) (same : bool)
    (ctvector : list LWECiphertext) (st : FTT) : res (FTT * LWECiphertext) :=
  if same then Throw (config_error "Input ciphertexts should be independent") else
  ct0 ← vget ctvector 0;
  let p := ct_p ct0 in
  if bool_decide (gate ∈ [MAJORITY; AND3; OR3; AND4; OR4]) then
    ctprep ← for_ (length ctvector - 1) (fun i ctprep => ct ← vget ctvector (S i); EvalAddEq ctprep ct) (SetptModulus (copy_LWECiphertext ct0) p);
    gate_bootstrap lwe ps gate EK ctprep (Q2p (m_Q lwe) p) (GetModulus ct0) st
  else if bool_decide (gate = CMUX) then
    if negb (length ctvector =? 3)%nat then Throw (not_implemented_error "CMUX gate implemented for ciphertext vectors of size 3") else
    ct1 ← vget ctvector 1; ct2 ← vget ctvector 2;
    let ccNOT := EvalNOT ct2 in
    ctNAND1 ← simple_gate lwe ps NAND EK ct0 ccNOT st;
    ctNAND2 ← simple_gate lwe ps NAND EK ct1 ct2 ctNAND1.1;
    simple_gate lwe ps NAND EK ctNAND1.2 ctNAND2.2 ctNAND2.1
  else Throw (not_implemented_error "This gate is not implemented for vector of ciphertexts at this time").

Definition Bootstrap (lwe : LWECryptoParams) (ps : RingGSWCryptoParams) (EK : RingGSWBTKey) (ct : LWECiphertext) (st : FTT) : res (FTT * LWECiphertext) :=
  let ctprep := EvalAddConstEq (copy_LWECiphertext ct) (Z.shiftr (GetModulus ct) 2) in
  gate_bootstrap lwe ps AND EK ctprep (Q2p (m_Q lwe) (ct_p ct)) (GetModulus ct) st.

(** ** Functions

    The lambdas take the value, the modulus of the ciphertext and that of the
    result. *)
Definition lut_function : Type := Z -> Z -> Z -> res Z.

Definition BootstrapFuncCore (lwe : LWECryptoParams) (ps : RingGSWCryptoParams) (ek : option RingGSWACCKey) (ct : LWECiphertext) (f : lut_function)
    (fmod : Z) (st : FTT) : res (FTT * RLWECiphertext) :=
  match ek with
  | None => no_BTKeys
  | Some ek =>
    let Q := m_Q lwe in
    let N := m_N lwe in
    let ctMod := GetModulus ct in
    factor ← udiv ((2 * Z.of_nat N) mod 2 ^ 32) ctMod;
    m ← test_vector N (Z.to_nat (Z.shiftr ctMod 1)) (Z.to_nat factor) (ct_b ct) ctMod
          (fun temp => t ← udiv Q fmod; y ← f temp ctMod fmod; Mul W t y);
    rotate_vector ps ek (NVec Q m) (ct_a ct) st
  end.

Definition BootstrapFunc (lwe : LWECryptoParams) (ps : RingGSWCryptoParams) (EK : RingGSWBTKey) (ct : LWECiphertext) (f : lut_function) (fmod : Z)
    (st : FTT) : res (FTT * LWECiphertext) :=
  acc ← BootstrapFuncCore lwe ps (g_BSkey EK) ct f fmod st;
  a ← Transpose acc.2.1;
  a ← SetFormat arb acc.1 a COEFFICIENT;
  c ← SetFormat arb a.1 acc.2.2 COEFFICIENT;
  v ← GetValues a.2;
  x ← p_get c.2 0;
  ct' ← switch_back lwe EK fmod (new_LWECiphertext v x);
  Ok (c.1, ct').

(** 0: negacyclic, 1: periodic, 2: arbitrary. *)
Definition halves_agree (op : Z -> Z) (lut : list Z) (mid : nat) : res bool :=
  for_ (mid - 1) (fun i ok => x ← vget lut (S i); y ← vget lut (mid + S i); Ok (ok && (x =? op y))) true.
Definition checkInputFunction (lut : list Z) (mod_ : Z) : res nat :=
  let mid := (length lut / 2)%nat in
  x ← vget lut 0; y ← vget lut mid;
  if x =? Sub W mod_ y then ok ← halves_agree (Sub W mod_) lut mid; Ok (if (ok : bool) then 0%nat else 2%nat)
  else if x =? y then ok ← halves_agree id lut mid; Ok (if (ok : bool) then 1%nat else 2%nat)
  else Ok 2%nat.

(** [-q/4] on the lower half of the modulus and [q/4] on the upper one; the
    table, and the table on the lower half with its opposite on the upper
    one. *)
Definition f_half : lut_function := fun x q Q => Ok (if x <? Z.shiftr q 1 then Sub W Q (Z.shiftr q 2) else Z.shiftr q 2).
Definition f_lut (lut : list Z) : lut_function := fun x q Q => vget lut (Z.to_nat x).
Definition f_lut_half (lut : list Z) : lut_function := fun x q Q =>
  if x <? Z.shiftr q 1 then vget lut (Z.to_nat x) else y ← vget lut (Z.to_nat (wrap W (x - q / 2))); Ok (Sub W Q y).

Definition EvalFunc (lwe : LWECryptoParams) (ps : RingGSWCryptoParams) (EK : RingGSWBTKey) (ct : LWECiphertext) (LUT : list Z) (beta : Z) (st : FTT) :
    res (FTT * LWECiphertext) :=
  let ct1 := copy_LWECiphertext ct in
  let q := GetModulus ct in
  functionProperty ← checkInputFunction LUT q;
  if (functionProperty =? 0)%nat then BootstrapFunc lwe ps EK (EvalAddConstEq ct1 beta) (f_lut LUT) q st else
  if (functionProperty =? 2)%nat then
    if Z.of_nat (m_N lwe) <? q
    then Throw (not_implemented_error "ERROR: ciphertext modulus q needs to be <= ring dimension for arbitrary function evaluation") else
    let LUT2 := LUT ++ LUT in
    dq ← LShift W q 1;
    a ← NativeVec.SetModulus W (ct_a ct1) dq;
    let ct1 := LWECt a (ct_b ct1) (ct_p ct1) in
    let ct2 := EvalAddConstEq (copy_LWECiphertext ct1) beta in
    ct3 ← BootstrapFunc lwe ps EK ct2 f_half dq st;
    ct3' ← EvalSubEq2 ct1 ct3.2;
    let ct3' := EvalSubConstEq (EvalAddConstEq ct3' beta) (Z.shiftr q 1) in
    ct4 ← BootstrapFunc lwe ps EK ct3' (f_lut_half LUT2) dq ct3.1;
    ct4' ← Lwe.SetModulus ct4.2 q;
    Ok (ct4.1, ct4')
  else
    let ct1 := EvalAddConstEq ct1 beta in
    ct2 ← BootstrapFunc lwe ps EK ct1 f_half q st;
    ct2' ← EvalSubEq2 ct ct2.2;
    let ct2' := EvalSubConstEq (EvalAddConstEq ct2' beta) (Z.shiftr q 2) in
    BootstrapFunc lwe ps EK ct2' (f_lut_half LUT) q ct2.1.

(** Centred on the middle half of the modulus. *)
Definition f_centre : lut_function := fun x q Q =>
  t ← Mul W 3 (Z.shiftr q 2);
  if x <? Z.shiftr q 2 then Ok (Sub W (Sub W Q (Z.shiftr q 1)) x)
  else if (Z.shiftr q 2 <=? x) && (x <? t) then Ok x
  else y ← Add W Q (Z.shiftr q 1); Ok (Sub W y x).

Definition EvalFloor (lwe : LWECryptoParams) (ps : RingGSWCryptoParams) (EK : RingGSWBTKey) (ct : LWECiphertext) (beta : Z) (roundbits : Z) (st : FTT) :
    res (FTT * LWECiphertext) :=
  q ← (if roundbits =? 0 then Ok (m_q lwe) else if roundbits <? 30 then Mul W beta (2 ^ (roundbits + 1)) else Throw undefined_behaviour);
  let mod_ := GetModulus ct in
  let ct1 := EvalAddConstEq (copy_LWECiphertext ct) beta in
  ct1Modq ← Lwe.SetModulus (copy_LWECiphertext ct1) q;
  ct2 ← BootstrapFunc lwe ps EK ct1Modq f_half mod_ st;
  ct1 ← EvalSubEq ct1 ct2.2;
  ct2Modq ← Lwe.SetModulus (copy_LWECiphertext ct1) q;
  ct3 ← BootstrapFunc lwe ps EK ct2Modq f_centre mod_ ct2.1;
  ct1 ← EvalSubEq ct1 ct3.2;
  Ok (ct3.1, ct1).

(** ** Large precision

    The keys are indexed by the base of the gadget, which [dynamic_base]
    changes when there are three of them. *)
Definition no_key (base : Z) : exn := openfhe_error ("ERROR: No key [" +:+ pretty base +:+ "] found in the map").

Definition dynamic_base (ps : RingGSWCryptoParams) (EKs : gmap Z RingGSWBTKey) (curBase : Z) (binLog : Z) (curEK : RingGSWBTKey) :
    res (RingGSWCryptoParams * RingGSWBTKey) :=
  if negb (size EKs =? 3)%nat then Ok (ps, curEK) else
  let base := if binLog <=? 17 then 2 ^ 27 else if binLog <=? 26 then 2 ^ 18 else 0 in
  if base =? 0 then Ok (ps, curEK) else
  match EKs !! base with
  | None => Throw (no_key curBase)
  | Some EK => Ok (Change_BaseG ps base, EK)
  end.

(** One round of the loop of [EvalSign]: floor, then the next modulus. *)
Definition sign_step (lwe : LWECryptoParams) (EKs : gmap Z RingGSWBTKey) (curBase beta : Z)
    (x : FTT * (RingGSWCryptoParams * RingGSWBTKey) * (LWECiphertext * Z)) : res (FTT * (RingGSWCryptoParams * RingGSWBTKey) * (LWECiphertext * Z)) :=
  let q := m_q lwe in
  cttmp ← EvalFloor lwe x.1.2.1 x.1.2.2 x.2.1 beta 0 x.1.1;
  m ← LShift W x.2.2 1; m ← Mul W m beta; mod_ ← DividedBy m q;
  ct ← ModSwitch mod_ cttmp.2;
  d ← dynamic_base x.1.2.1 EKs curBase (ConvertToInt 32 (GetMSB W mod_ - 1)) x.1.2.2;
  Ok (cttmp.1, d, (ct, mod_)).

Definition sign_loop (fuel : nat) (lwe : LWECryptoParams) (EKs : gmap Z RingGSWBTKey) (curBase beta : Z) :
    FTT * (RingGSWCryptoParams * RingGSWBTKey) * (LWECiphertext * Z) -> res (FTT * (RingGSWCryptoParams * RingGSWBTKey) * (LWECiphertext * Z)) :=
  while_ fuel (fun x => m_q lwe <? x.2.2) (sign_step lwe EKs curBase beta).

Definition f_sign (schemeSwitch : bool) : lut_function := fun x q Q =>
  Ok (if x <? q / 2 then (if schemeSwitch then Sub W Q (Q / 4) else Q / 4) else (if schemeSwitch then Q / 4 else Sub W Q (Q / 4))).

Definition EvalSign (fuel : nat) (lwe : LWECryptoParams) (ps : RingGSWCryptoParams) (EKs : gmap Z RingGSWBTKey) (ct : LWECiphertext) (beta : Z)
    (schemeSwitch : bool) (st : FTT) : res (FTT * RingGSWCryptoParams * LWECiphertext) :=
  let mod_ := GetModulus ct in
  let q := m_q lwe in
  if mod_ <=? q
  then Throw (not_implemented_error "ERROR: EvalSign is only for large precision. For small precision, please use bootstrapping directly") else
  let curBase := r_baseG ps in
  match EKs !! curBase with
  | None => Throw (no_key curBase)
  | Some curEK =>
    x ← sign_loop fuel lwe EKs curBase beta (st, (ps, curEK), (copy_LWECiphertext ct, mod_));
    let cttmp := EvalAddConstEq x.2.1 beta in
    r ← BootstrapFunc lwe x.1.2.1 x.1.2.2 cttmp (f_sign schemeSwitch) q x.1.1;
    let ct' := if schemeSwitch then r.2 else EvalSubConstEq r.2 (Z.shiftr q 2) in
    Ok (r.1, Change_BaseG x.1.2.1 curBase, ct')
  end.

(** The digits that [EvalDecomp] returns, the least significant one first; the
    logarithm of zero has no conversion to an integer. *)
Definition decomp_step (lwe : LWECryptoParams) (EKs : gmap Z RingGSWBTKey) (curBase beta : Z)
    (x : FTT * (RingGSWCryptoParams * RingGSWBTKey) * (LWECiphertext * Z * list LWECiphertext)) :
    res (FTT * (RingGSWCryptoParams * RingGSWBTKey) * (LWECiphertext * Z * list LWECiphertext)) :=
  let q := m_q lwe in
  ctq ← Lwe.SetModulus (copy_LWECiphertext x.2.1.1) q;
  cttmp ← EvalFloor lwe x.1.2.1 x.1.2.2 x.2.1.1 beta 0 x.1.1;
  m ← DividedBy x.2.1.2 q; m ← Mul W m 2; mod_ ← Mul W m beta;
  ct ← ModSwitch mod_ cttmp.2;
  d ← (if (mod_ =? 0) && (size EKs =? 3)%nat then Throw undefined_behaviour else dynamic_base x.1.2.1 EKs curBase (Z.log2_up mod_) x.1.2.2);
  Ok (cttmp.1, d, (ct, mod_, x.2.2 ++ [ctq])).

Definition decomp_loop (fuel : nat) (lwe : LWECryptoParams) (EKs : gmap Z RingGSWBTKey) (curBase beta : Z) :
    FTT * (RingGSWCryptoParams * RingGSWBTKey) * (LWECiphertext * Z * list LWECiphertext) ->
    res (FTT * (RingGSWCryptoParams * RingGSWBTKey) * (LWECiphertext * Z * list LWECiphertext)) :=
  while_ fuel (fun x => m_q lwe <? x.2.1.2) (decomp_step lwe EKs curBase beta).

Definition EvalDecomp (fuel : nat) (lwe : LWECryptoParams) (ps : RingGSWCryptoParams) (EKs : gmap Z RingGSWBTKey) (ct : LWECiphertext) (beta : Z)
    (st : FTT) : res (FTT * RingGSWCryptoParams * list LWECiphertext) :=
  let mod_ := GetModulus ct in
  let q := m_q lwe in
  if mod_ <=? q
  then Throw (not_implemented_error "ERROR: EvalDecomp is only for large precision. For small precision, please use bootstrapping directly") else
  let curBase := r_baseG ps in
  match EKs !! curBase with
  | None => Throw (no_key curBase)
  | Some curEK =>
    x ← decomp_loop fuel lwe EKs curBase beta (st, (ps, curEK), (copy_LWECiphertext ct, mod_, []));
    Ok (x.1.1, Change_BaseG x.1.2.1 curBase, x.2.2 ++ [x.2.1.1])
  end.
End Gates.
