(* ===== verification/GatesFacts.v ===== *)
(** * The single-key gate on ring elements

    What the operations of [Gates] compute: the test vector, the constant
    coefficient of its rotation, the extraction of an LWE ciphertext and the
    way back to its modulus. *)

From Stdlib Require Import ZArith Lia String.
From stdpp Require Import base tactics numbers list strings gmap.
From S2P Require Import Prelude Double NativeInt NativeIntFacts ModArith NativeVec SchemeCore Negacyclic BitReverse Ntt NttFacts NttSpec NttRing Poly PolyFacts Automorphism Gadget RingNoise RingCoefficients AccCore AccCoreFacts RgswAcc RgswFacts RgswRotation Lwe Gates.

(** ** Values of the test vector *)

(** The value depends on the half turn, from [q1], in which [x] lies. *)
Lemma gate_value_spec q half q1 x yin yout : q = 2 * half -> 0 <= q1 < q -> 0 <= x < q ->
  gate_value q1 ((q1 + half) mod q) x yin yout = if (x - q1) mod q <? half then yin else yout.
Proof.
  intros -> H1 Hx. unfold gate_value. destruct (Z.lt_ge_cases q1 half) as [Hlt|Hge].
  - rewrite (Z.mod_small (q1 + half)) by lia. rewrite (proj2 (Z.ltb_lt q1 _)) by lia.
    destruct (Z.le_gt_cases q1 x).
    + rewrite (Z.mod_small (x - q1)), (proj2 (Z.leb_le _ _)) by lia. destruct (Z.ltb_spec x (q1 + half)), (Z.ltb_spec (x - q1) half); done || lia.
    + rewrite <- (Z.mod_add _ 1), (Z.mod_small (x - q1 + _)), (proj2 (Z.leb_gt _ _)) by lia. cbn [andb]. by rewrite (proj2 (Z.ltb_ge _ _)) by lia.
  - assert ((q1 + half) mod (2 * half) = q1 - half) as ->. { symmetry. apply (Z.mod_unique_pos _ _ 1); lia. }
    rewrite (proj2 (Z.ltb_ge q1 _)) by lia. destruct (Z.le_gt_cases q1 x).
    + rewrite (Z.mod_small (x - q1)), (proj2 (Z.ltb_ge x q1)), andb_false_r by lia. by rewrite (proj2 (Z.ltb_lt _ _)) by lia.
    + rewrite <- (Z.mod_add _ 1), (Z.mod_small (x - q1 + _)), (proj2 (Z.ltb_lt x q1)), andb_true_r by lia.
      destruct (Z.leb_spec (q1 - half) x), (Z.ltb_spec (x - q1 + 1 * (2 * half)) half); done || lia.
Qed.

(** A function on the residues modulo [q] that changes sign after a half
    turn. *)
Definition half_turns (Q q half : Z) (h : Z -> Z) : Prop := forall x, h ((x + half) mod q) ≡[Q] - h (x mod q).

Lemma gate_half_turns Q q half q1 y : 0 < half -> q = 2 * half -> half_turns Q q half (fun x => if (x - q1) mod q <? half then Q - y else y).
Proof.
  intros Hh -> x. cbn beta. rewrite !Zminus_mod_idemp_l. replace (x + half - q1) with (x - q1 + half) by ring.
  pose proof (Z.mod_pos_bound (x - q1) (2 * half) ltac:(lia)) as Hb. rewrite <- Zplus_mod_idemp_l. set (y' := (x - q1) mod (2 * half)) in *.
  destruct (Z.ltb_spec y' half).
  - rewrite Z.mod_small by lia. rewrite (proj2 (Z.ltb_ge _ _)) by lia. apply eqm_iff. exists 1. ring.
  - rewrite <- (Z.mod_add _ (-1)), Z.mod_small, (proj2 (Z.ltb_lt _ _)) by lia. apply eqm_iff. exists 1. ring.
Qed.

(** The entry [i] of the vector for [h]. *)
Definition spread (factor : nat) (q b : Z) (h : Z -> Z) (i : nat) : Z := if (i mod factor =? 0)%nat then h ((b - Z.of_nat (i / factor)) mod q) else 0.

Lemma test_vector_spec N half factor b q {Hq : NativeModulus W q} f h : (0 < factor)%nat -> (half * factor = N)%nat -> 0 <= b ->
  (forall j, (j < half)%nat -> f ((b - Z.of_nat j) mod q) = Ok (h ((b - Z.of_nat j) mod q))) ->
  test_vector N half factor b q f = Ok (map (spread factor q b h) (seq 0 N)).
Proof.
  intros HF HN Hb Hf. pose proof (nm_bounds (w := W) (m := q)) as Hqb.
  set (S := fun j => map (fun i => if (i / factor <? j)%nat then spread factor q b h i else 0) (seq 0 N)).
  assert (repeat 0 N = S 0%nat) as E0.
  { unfold S. transitivity (map (fun _ : nat => 0) (seq 0 N)); [by rewrite map_const, length_seq|]. by apply map_ext. }
  assert (map (spread factor q b h) (seq 0 N) = S half) as ->.
  { unfold S. apply map_ext_in. intros i Hi%in_seq. by rewrite (proj2 (Nat.ltb_lt _ _)) by (apply Nat.Div0.div_lt_upper_bound; lia). }
  unfold test_vector. rewrite E0. apply (for_states _ half S). intros j Hj.
  rewrite (nm_sub_any (w := W)), bind_ok by lia. rewrite Hf, bind_ok by done.
  rewrite vset_lt by (unfold S; rewrite length_tab; nia). f_equal. unfold S. rewrite insert_tab. apply map_ext. intros i. unfold spread.
  destruct (decide (i = (j * factor)%nat)) as [->|Hne].
  - rewrite Nat.Div0.mod_mul, Nat.div_mul by lia. cbn [Nat.eqb]. by rewrite (proj2 (Nat.ltb_lt _ _)) by lia.
  - destruct (Nat.ltb_spec (i / factor) j), (Nat.ltb_spec (i / factor) (Datatypes.S j)); try done; try lia.
    destruct (Nat.eqb_spec (i mod factor) 0) as [E|]; [|done]. exfalso. apply Hne. pose proof (Nat.div_mod_eq i factor). assert (i / factor = j)%nat by lia. nia.
Qed.

(** ** Rotations of the test vector *)
Section Rotated.
Context {st : FTT} {Q psi : Z} {k : nat} {HR : RingTransform st Q psi k}.
Abbreviation n := (2 ^ k)%nat.
Abbreviation wf := (wf_data (q := Q) k).

#[local] Instance rotated_modulus : NativeModulus W Q.
Proof using HR. exact rt_modulus. Qed.

Context (q : Z) (half factor : nat) (Hq : q = 2 * Z.of_nat half) (Hhalf : (0 < half)%nat) (HF : (0 < factor)%nat) (HN : (half * factor = n)%nat).
Context (b : Z) (h : Z -> Z) (Hh : half_turns Q q (Z.of_nat half) h).

(** The constant coefficient of the rotation by [- factor c] is the value at
    [b - c]. *)
Lemma rotated_constant c : rmul Q n (mono Q n (- Z.of_nat factor * c)) (map (spread factor q b h) (seq 0 n)) !!! 0%nat ≡[Q] h ((b - c) mod q).
Proof using HR Hq Hhalf HF HN Hh.
  assert (0 < n)%nat as Hn by apply pow2_pos_nat. set (m := map _ _). set (F := Z.of_nat factor). set (H := Z.of_nat half) in *.
  assert (Z.of_nat n = H * F) as EN by (unfold H, F; lia). assert (0 < F /\ 0 < H) as [HF0 HH0] by (unfold F, H; lia).
  pose proof (Z.mod_pos_bound c q ltac:(lia)) as Hw. set (w := c mod q) in *.
  assert ((b - c) mod q = (b - w) mod q) as -> by (unfold w; by rewrite Zminus_mod_idemp_r).
  assert (forall j, (j < half)%nat -> m !!! (j * factor)%nat = h ((b - Z.of_nat j) mod q)) as Em.
  { intros j Hj. unfold m. rewrite lookup_total_tab by nia. unfold spread. rewrite Nat.Div0.mod_mul, Nat.div_mul by lia. done. }
  assert (forall e, 0 <= e < 2 * Z.of_nat n -> - F * c ≡[2 * Z.of_nat n] e -> rmul Q n (mono Q n (- F * c)) m = rmul Q n (mono Q n e) m) as Ee.
  { intros e He E. by rewrite (mono_periodic (q := Q) (k := k) _ e E). }
  assert (forall e, e ≡[q] - w -> - F * c ≡[2 * Z.of_nat n] F * e) as Ew.
  { intros e [z Ez]%eqm_iff. apply eqm_iff. exists (- (c / q) - z). rewrite Ez. pose proof (Z.div_mod c q ltac:(lia)) as Ec. fold w in Ec. set (d := c / q) in *. rewrite EN. transitivity (- F * (q * d + w)); [by rewrite Ec|]. replace (2 * (H * F)) with (q * F) by lia. ring. }
  destruct (Z.eq_dec w 0) as [E0|Hw0]; [|destruct (Z.lt_ge_cases w H) as [Hlt|Hge]].
  - rewrite (Ee 0) by (first [lia | rewrite (Ew 0) by (rewrite E0; done); by rewrite Z.mul_0_r]).
    rewrite rmul_mono by lia. change (Z.to_nat 0) with 0%nat. rewrite Nat.Div0.mod_0_l. cbn [Nat.ltb Nat.leb Nat.sub]. rewrite (proj2 (Z.leb_gt _ _)) by lia. cbn [andb].
    rewrite <- (Nat.mul_0_l factor), Em by done. by rewrite E0.
  - rewrite (Ee (F * (q - w))) by (first [nia | apply Ew; apply eqm_iff; exists 1; ring]).
    rewrite rmul_mono by nia. assert (Z.to_nat (F * (q - w)) mod n = n - Z.to_nat w * factor)%nat as ->.
    { symmetry. apply (Nat.mod_unique _ _ 1); [nia|]. unfold F, H in *. nia. }
    rewrite (proj2 (Nat.ltb_lt 0 _)) by nia. replace (n - (n - Z.to_nat w * factor) + 0)%nat with (Z.to_nat w * factor)%nat by nia.
    rewrite Em by lia. rewrite Z2Nat.id by lia. rewrite Nat2Z.inj_mul, Z2Nat.id by lia. fold F.
    rewrite (proj2 (Z.ltb_ge _ (2 * _))), andb_false_r by nia. done.
  - assert (h ((b - w) mod q) ≡[Q] - h ((b - (w - H)) mod q)) as ->.
    { replace (b - (w - H)) with (b - w + H) by ring. rewrite (Hh (b - w)). apply eqm_refl. ring. }
    set (w' := w - H). assert (0 <= w' < H) as Hw' by (unfold w'; lia).
    rewrite (Ee (F * (q - w))) by (first [nia | apply Ew; apply eqm_iff; exists 1; ring]).
    rewrite rmul_mono by nia. set (e := F * (q - w)). assert (e = F * (H - w')) as Ee' by (unfold e, w'; lia).
    destruct (Z.eq_dec w' 0) as [E0|Hne].
    + assert (Z.to_nat e mod n = 0)%nat as ->. { symmetry. apply (Nat.mod_unique _ _ 1); [lia|]. unfold F, H in *. nia. }
      cbn [Nat.ltb Nat.leb Nat.sub]. rewrite (proj2 (Z.leb_le _ _)), (proj2 (Z.ltb_lt _ _)) by nia. cbn [andb].
      rewrite <- (Nat.mul_0_l factor) at 1. rewrite Em by done. by rewrite E0.
    + assert (Z.to_nat e mod n = Z.to_nat e)%nat as -> by (apply Nat.mod_small; nia).
      rewrite (proj2 (Nat.ltb_lt 0 _)) by nia. assert (n - Z.to_nat e + 0 = Z.to_nat w' * factor)%nat as -> by (unfold F, H in *; nia).
      rewrite Em by lia. rewrite Nat2Z.inj_mul, !Z2Nat.id by lia. fold F. rewrite (proj2 (Z.leb_le _ _)), (proj2 (Z.ltb_lt _ _)) by nia. done.
Qed.
End Rotated.

(** ** One bootstrapping *)
Section Bootstrapping.
Context {st : FTT} {Q psi : Z} {k : nat} {HR : RingTransform st Q psi k} (arb : FTT -> NativePoly -> res (FTT * NativePoly)).
Context (ps : RingGSWCryptoParams) (g : Z) (G : nat) (Hps : rgsw_params ps Q psi k g G).
Context (s : list Z) (Hs : wf_data (q := Q) k s).
Context (q : Z) (t : list Z) (slack bound : Z).
Abbreviation n := (2 ^ k)%nat.
Abbreviation nn := (length t).
Abbreviation wf := (wf_data (q := Q) k).
Abbreviation of_ := (poly_of Q psi k).
Abbreviation state_ := (rlwe_state (q := Q) (psi := psi) (k := k) s).
Abbreviation rphase := (rlwe_phase (q := Q) (k := k) s).

#[local] Instance boot_modulus : NativeModulus W Q.
Proof using HR. exact rt_modulus. Qed.

(** What a key for the rotation is: the accumulator of the method turns. *)
Definition rotation_key (ek : RingGSWACCKey) : Prop :=
  exists eval, RgswAcc.acc_Eval arb (r_method ps) = Ok eval /\ BlindRotation (HR := HR) s (eval ps ek) q nn (fun i => t !!! i) slack bound.

Lemma rotate_vector_spec ek v a : rotation_key ek -> wf v -> wf_mask q nn a ->
  returns (rotate_vector arb ps ek (NVec Q v) a st) (fun r => r.1 = st /\ exists d, Z.abs d <= slack /\
    state_ v (- (2 * 2 ^ Z.of_nat k / q) * (sumZ nn (fun i => a.[i] * t !!! i) + d)) bound r.2).
Proof using HR Hps.
  intros (eval & Ev & Hbr) Hv (Em & La & Fa). unfold rotate_vector. rewrite (rp_polyParams Hps).
  rewrite (proj2 (SetValues_of (HR := HR) (new_poly (ring_par Q psi k) COEFFICIENT false) COEFFICIENT v COEFFICIENT eq_refl Hv) eq_refl), bind_ok.
  rewrite (SetFormat_of (HR := HR)), bind_ok by done. cbn [fst snd]. rewrite Ev, bind_ok.
  assert (new_poly (ring_par Q psi k) EVALUATION true = of_ EVALUATION (rzero n)) as -> by (apply (zero_of (HR := HR))).
  assert (a = NVec q (map (fun i => a.[i]) (seq 0 nn))) as Ea.
  { destruct a as [m l]. cbn [modulus data] in *. subst m. f_equal. apply list_total_ext; [by rewrite length_tab|]. intros i Hi. rewrite lookup_total_tab by lia. done. }
  rewrite Ea at 1. apply br_rotates; [done|]. intros i Hi. apply (reduced_at q); [done|lia].
Qed.
(** The constant coefficient of a state. *)
Lemma state_constant v T acc : wf v -> state_ v T bound acc -> exists c0 c1 z, acc = (of_ EVALUATION c0, of_ EVALUATION c1) /\ wf c0 /\ wf c1 /\ Z.abs z <= bound /\
  rphase c0 c1 !!! 0%nat ≡[Q] rmul Q n (mono Q n T) v !!! 0%nat + z.
Proof using HR Hs.
  clear Hps. intros Hv (c0 & c1 & -> & H0 & H1 & noise & Wn & Bn & Eph). assert (0 < n)%nat as Hn by apply pow2_pos_nat.
  destruct (Bn 0%nat Hn) as (z & Ez & Hz). exists c0, c1, z. split; [done|]. split; [done|]. split; [done|]. split; [done|].
  rewrite Eph. pose proof (rmul_wf k (mono Q n T) v) as Wm. unfold radd. rewrite vec_op_lookup by (destruct Wm, Wn; lia). by rewrite eqm_mod, Ez.
Qed.

Context (half : nat) (Hq : NativeModulus W q) (Hhalf : q = 2 * Z.of_nat half) (Hdiv : (q | 2 * Z.of_nat n)).

Lemma factor_nat : exists factor, (0 < factor)%nat /\ (0 < half)%nat /\ (half * factor = n)%nat /\ 2 * Z.of_nat n / q = Z.of_nat factor /\ 2 * 2 ^ Z.of_nat k / q = Z.of_nat factor.
Proof using Hhalf Hdiv Hq.
  clear Hps Hs HR. pose proof (nm_bounds (w := W) (m := q)) as Hqb. destruct Hdiv as [c Hc]. assert (0 < n)%nat as Hn by apply pow2_pos_nat.
  assert (0 < c) as Hc0 by (apply (Z.mul_pos_cancel_r c q); lia). exists (Z.to_nat c). split; [lia|]. split; [lia|]. split; [nia|].
  replace (2 * 2 ^ Z.of_nat k) with (2 * Z.of_nat n) by (by rewrite Nat2Z.inj_pow). rewrite Hc, Z.div_mul by lia. lia.
Qed.

(** The test vector of [h], rotated by the key, holds the value of [h] at the
    phase of the ciphertext. *)
Lemma rotation_value ek ct f h : rotation_key ek -> wf_ct q nn ct -> half_turns Q q (Z.of_nat half) h ->
  (forall j, (j < half)%nat -> let x := (ct_b ct - Z.of_nat j) mod q in f x = Ok (h x) /\ reduced Q (h x)) ->
  returns (factor ← udiv ((2 * Z.of_nat n) mod 2 ^ 32) q; m ← test_vector n half (Z.to_nat factor) (ct_b ct) q f; rotate_vector arb ps ek (NVec Q m) (ct_a ct) st)
    (fun r => r.1 = st /\ exists d c0 c1 z, Z.abs d <= slack /\ Z.abs z <= bound /\ r.2 = (of_ EVALUATION c0, of_ EVALUATION c1) /\ wf c0 /\ wf c1 /\
       rphase c0 c1 !!! 0%nat ≡[Q] h ((phase t ct - d) mod q) + z).
Proof using All.
  intros Hek [Ha Hb] Hh Hf. destruct factor_nat as (factor & HF & Hh0 & HN & EF & EF'). pose proof (dim_bound (HR := HR)) as Hn. pose proof (nm_bounds (w := W) (m := q)) as Hqb.
  unfold udiv. rewrite Z.mod_small, (proj2 (Z.eqb_neq q 0)), bind_ok, EF, Nat2Z.id by lia. unfold reduced in Hb.
  rewrite (test_vector_spec n half factor (ct_b ct) q f h HF HN) by (lia || (intros j Hj; by apply Hf)). rewrite bind_ok.
  set (v := map (spread factor q (ct_b ct) h) (seq 0 n)).
  assert (wf v) as Hv.
  { split; [apply length_tab|]. apply Forall_tab. intros i Hi. unfold spread. pose proof (nm_bounds (w := W) (m := Q)).
    destruct (_ =? _)%nat; [apply Hf, Nat.Div0.div_lt_upper_bound; lia|]. split; lia. }
  eapply returns_mono; [by apply (rotate_vector_spec ek v (ct_a ct) Hek Hv)|]. intros r (Er & d & Hd & Hst). split; [done|].
  destruct (state_constant v _ _ Hv Hst) as (c0 & c1 & z & E & W0 & W1 & Hz & Ec). exists d, c0, c1, z. do 5 (split; [done|]).
  rewrite Ec, EF'. unfold v. rewrite (rotated_constant (HR := HR) q half factor Hhalf Hh0 HF HN (ct_b ct) h Hh). apply eqm_refl. do 3 f_equal. unfold phase. ring.
Qed.

(** ** Extraction *)
Lemma extract_sample_spec b0 c0 c1 : reduced Q b0 -> wf c0 -> wf c1 ->
  returns (extract_acc arb Q b0 (of_ EVALUATION c0, of_ EVALUATION c1) st) (fun r => r.1 = st /\ wf_ct Q n r.2 /\ ct_p r.2 = 4 /\
    phase (map (centred Q) s) r.2 ≡[Q] b0 + rphase c0 c1 !!! 0%nat).
Proof using HR Hs.
  clear Hps Hq Hhalf Hdiv. intros Hb H0 H1. assert (0 < n)%nat as Hn by apply pow2_pos_nat. unfold extract_acc. cbn [fst snd].
  rewrite (Transpose_of (HR := HR)), bind_ok by done. pose proof (raut_wf (q := Q) k (2 * Z.of_nat n - 1) c0 H0) as Wt.
  rewrite (SetFormat_of (HR := HR)), bind_ok by done. cbn [fst snd]. rewrite (SetFormat_of (HR := HR)), bind_ok by done. cbn [fst snd].
  assert (p_get (of_ COEFFICIENT c1) 0 = Ok (c1 !!! 0%nat)) as -> by (apply p_get_at; destruct H1; lia). rewrite bind_ok. cbn [GetValues poly_of p_values]. rewrite bind_ok. apply returns_ok. cbn [fst snd].
  split; [done|]. pose proof (entry_reduced k c1 0 H1) as R1.
  assert (ModAddFastEq W b0 (c1 !!! 0%nat) Q = (b0 + c1 !!! 0%nat) mod Q) as -> by (by apply (nm_add (w := W))).
  split; [split; [split; [done|exact Wt]|apply (nm_mod (w := W))]|]. split; [done|]. unfold phase. cbn [new_LWECiphertext ct_a ct_b data].
  destruct Hs as [Ls Fs]. rewrite length_map, Ls.
  assert (sumZ n (fun i => raut Q n (2 * Z.of_nat n - 1) c0 !!! i * map (centred Q) s !!! i) ≡[Q] rmul Q n s c0 !!! 0%nat) as ->.
  { rewrite <- (transpose_dot (HR := HR)) by done. apply sumZ_eqm. intros i Hi. rewrite lookup_total_map by lia. by rewrite centred_eqm. }
  pose proof (rmul_wf k s c0) as Wm. unfold rlwe_phase, rsub. rewrite vec_op_lookup by (destruct Wm, H1; lia). rewrite !eqm_mod. apply eqm_refl. ring.
Qed.
End Bootstrapping.
