(* ===== verification/GatesSpec.v ===== *)
(** * The single-key gates, from phases to phases

    One bootstrapping with good keys maps a ciphertext whose phase encodes a
    sum of bits to one whose phase encodes the bit of the gate, with a noise
    that does not depend on the input.  The gates on two and on more
    ciphertexts follow. *)

From Stdlib Require Import ZArith Lia String.
From stdpp Require Import base tactics numbers list strings gmap.
From S2P Require Import Prelude Double NativeInt NativeIntFacts ModArith NativeVec SchemeCore Negacyclic BitReverse Ntt NttFacts NttSpec NttRing Poly PolyFacts Automorphism Gadget RingNoise RingCoefficients AccCore AccCoreFacts RgswAcc RgswFacts RgswRotation Lwe Gates GatesFacts.

(** ** The constants of the gates

    The window of a gate starts at [gate_num / (2 gate_p)] of the modulus. *)
Definition gate_num (gate : BINGATE) : Z :=
  match gate with
  | OR => 5 | AND => 7 | NOR => 1 | NAND => 3 | XOR_FAST => 5 | XNOR_FAST => 1 | MAJORITY => 7 | AND3 => 11 | OR3 => 7 | AND4 => 15 | OR4 => 9
  | CMUX | XOR | XNOR => 0
  end.
Definition gate_p (gate : BINGATE) : Z := match gate with AND3 | OR3 => 6 | AND4 | OR4 => 8 | _ => 4 end.
Definition bootstrapped (gate : BINGATE) : bool := match gate with CMUX | XOR | XNOR => false | _ => true end.

Lemma gate_const_at q gc gate : 0 <= q < 2 ^ 59 -> gate_constants q = Ok gc -> bootstrapped gate = true ->
  vget gc (gate_index gate) = Ok (gate_num gate * (q / (2 * gate_p gate))).
Proof.
  intros Hq E Hg. pose proof (Z.div_mod q 8 ltac:(lia)). pose proof (Z.mod_pos_bound q 8 ltac:(lia)). pose proof (Z.div_mod q 12 ltac:(lia)). pose proof (Z.mod_pos_bound q 12 ltac:(lia)).
  pose proof (Z.div_mod q 16 ltac:(lia)). pose proof (Z.mod_pos_bound q 16 ltac:(lia)).
  assert (forall c x, 0 <= c <= 15 -> 0 <= x <= q -> Mul W c x = Ok (c * x)) as HM.
  { intros c x Hc Hx. unfold Mul, MulFast. cbn [NATIVEINT_DO_CHECKS]. rewrite wrap_small by (change (2 ^ W) with (2 ^ 64); nia). f_equal. ring. }
  unfold gate_constants, DividedBy in E. cbn [Z.eqb] in E. rewrite bind_ok, !Z.shiftr_div_pow2 in E by lia. change (2 ^ 3) with 8 in E. change (2 ^ 4) with 16 in E.
  cbn [mapM fst snd] in E. rewrite !HM in E by lia. cbn [mbind res_bind mret res_ret] in E. injection E as <-.
  destruct gate; done.
Qed.

(** ** The decision

    In a half turn whose start is an odd multiple of [q / (2 p)], the phase
    [M (q / p)] lies on the side that [2 M - c] tells. *)
Lemma half_decision p c M q half e phi : 0 < p -> Z.even p = true -> Z.odd c = true -> q = 2 * half ->
  phi ≡[q] M * (q / p) + e -> 2 * p * Z.abs e + Z.abs (2 * M) * (q mod p) + Z.abs c * (q mod (2 * p)) < q ->
  ((phi - c * (q / (2 * p))) mod q <? half) = negb (p <? (2 * M - c) mod (2 * p)).
Proof.
  intros Hp Hev Hodd Hq [z Ez]%eqm_iff Hb. pose proof (Z.div_mod q p ltac:(lia)) as E1. pose proof (Z.div_mod q (2 * p) ltac:(lia)) as E2.
  pose proof (Z.mod_pos_bound q p ltac:(lia)) as B1. pose proof (Z.mod_pos_bound q (2 * p) ltac:(lia)) as B2.
  set (r1 := q mod p) in *. set (r2 := q mod (2 * p)) in *. set (a := q / p) in *. set (d := q / (2 * p)) in *.
  pose proof (Z.div_mod (2 * M - c) (2 * p) ltac:(lia)) as Er. pose proof (Z.mod_pos_bound (2 * M - c) (2 * p) ltac:(lia)) as Br.
  assert (Z.odd ((2 * M - c) mod (2 * p)) = true) as Ho.
  { rewrite Z.mod_eq by lia. rewrite !Z.odd_sub, !Z.odd_mul. cbn [Z.odd andb]. rewrite Hodd. done. }
  set (r := (2 * M - c) mod (2 * p)) in *. set (u := (2 * M - c) / (2 * p)) in *.
  set (err := c * r2 - 2 * M * r1 + 2 * p * e). assert (Z.abs err < q) as He.
  { assert (Z.abs (c * r2) = Z.abs c * r2) by (rewrite Z.abs_mul, (Z.abs_eq r2); lia). assert (Z.abs (2 * M * r1) = Z.abs (2 * M) * r1) by (rewrite Z.abs_mul, (Z.abs_eq r1); lia).
    assert (Z.abs (2 * p * e) = 2 * p * Z.abs e) by (rewrite Z.abs_mul, (Z.abs_eq (2 * p)); lia). unfold err. lia. }
  set (y := phi - c * d - q * (z + u)).
  assert (2 * p * y = r * q + err) as Ey.
  { unfold y, err. rewrite Ez. transitivity (2 * M * (p * a) - c * (2 * p * d) + 2 * p * e - 2 * p * q * u); [ring|].
    replace (p * a) with (q - r1) by lia. replace (2 * p * d) with (q - r2) by lia.
    transitivity ((2 * M - c - 2 * p * u) * q - 2 * M * r1 + c * r2 + 2 * p * e); [ring|]. replace (2 * M - c - 2 * p * u) with r by lia. ring. }
  assert (r <> 0 /\ r <> p) as [Hr0 Hrp].
  { split; intros E; [by rewrite E in Ho|]. rewrite E, <- Z.negb_even, Hev in Ho. done. }
  assert (0 < q) as Hq0 by lia. assert (1 <= r <= 2 * p - 1) as Hr by lia.
  assert (1 * q <= r * q <= (2 * p - 1) * q) as Hrq by (split; apply Z.mul_le_mono_nonneg_r; lia).
  assert (0 < 2 * p * y < 2 * p * q) as Hpy by lia.
  assert (0 <= y < q) as Hy by (split; [apply Z.lt_le_incl, (Z.mul_pos_cancel_l (2 * p)); lia|apply (Z.mul_lt_mono_pos_l (2 * p)); lia]).
  assert ((phi - c * d) mod q = y) as -> by (symmetry; apply (Z.mod_unique_pos _ _ (z + u)); [done|unfold y; ring]).
  destruct (Z.ltb_spec p r); cbn [negb]; [apply Z.ltb_ge|apply Z.ltb_lt].
  - assert ((p + 1) * q <= r * q) by (apply Z.mul_le_mono_nonneg_r; lia). assert (2 * p * half < 2 * p * y) by lia. apply Z.lt_le_incl, (Z.mul_lt_mono_pos_l (2 * p)); lia.
  - assert (r * q <= (p - 1) * q) by (apply Z.mul_le_mono_nonneg_r; lia). assert (2 * p * y < 2 * p * half) by lia. apply (Z.mul_lt_mono_pos_l (2 * p)); lia.
Qed.

(** ** The output

    The value [m] times [2 (Q / (2 p) + 1)], up to a noise, switched back to the
    modulus [q]. *)
Lemma output_value Q q qKS p m z ph phi c R Bd : 0 < Q -> 0 < q -> 0 < qKS -> 0 < p -> 0 <= m <= 1 -> Z.abs z <= Bd ->
  ph ≡[Q] m * (2 * (Q / (2 * p) + 1)) + z -> 2 * Z.abs (Q * qKS * (phi + c * q) - q * qKS * ph) <= R ->
  exists e, Z.abs e <= (2 * q * qKS * (2 + Bd) + 2 * Q * qKS + R) / (2 * Q * qKS) /\ phi ≡[q] m * (q / p) + e.
Proof.
  intros HQ Hq HK Hp Hm Hz [j Ej]%eqm_iff HR. pose proof (Z.div_mod Q (2 * p) ltac:(lia)) as E1. pose proof (Z.mod_pos_bound Q (2 * p) ltac:(lia)) as B1.
  pose proof (Z.div_mod q p ltac:(lia)) as E2. pose proof (Z.mod_pos_bound q p ltac:(lia)) as B2.
  set (r1 := Q mod (2 * p)) in *. set (A := Q / (2 * p)) in *. set (r2 := q mod p) in *. set (D := q / p) in *.
  exists (phi + (c - j) * q - m * D). split; [|apply eqm_iff; exists (j - c); ring].
  set (e := phi + (c - j) * q - m * D). set (delta := Q * qKS * (phi + c * q) - q * qKS * ph) in *.
  assert (p * (Q * qKS * e) = q * qKS * (m * (2 * p - r1)) + Q * qKS * (m * r2) + p * (q * qKS * z) + p * delta) as Ee.
  { unfold e, delta. rewrite Ej. replace (p * (Q * qKS * (phi + (c - j) * q - m * D))) with (p * (Q * qKS * (phi + (c - j) * q)) - Q * qKS * m * (p * D)) by ring.
    replace (p * D) with (q - r2) by lia.
    transitivity (q * qKS * (m * (2 * p * A + 2 * p - Q)) + Q * qKS * (m * r2) + p * (q * qKS * z) + p * (Q * qKS * (phi + c * q) - q * qKS * (m * (2 * (A + 1)) + z + j * Q))); [ring|].
    replace (2 * p * A + 2 * p - Q) with (2 * p - r1) by lia. ring. }
  apply Z.div_le_lower_bound; [nia|].
  assert (0 <= m * (2 * p - r1) <= 2 * p /\ 0 <= m * r2 <= p) as [H1 H2] by (assert (m = 0 \/ m = 1) as [-> | ->] by lia; lia).
  assert (0 < q * qKS /\ 0 < Q * qKS) as [HqK HQK] by nia.
  assert (0 <= q * qKS * (m * (2 * p - r1)) <= q * qKS * (2 * p)) as H3 by (split; [apply Z.mul_nonneg_nonneg|apply Z.mul_le_mono_nonneg_l]; lia).
  assert (0 <= Q * qKS * (m * r2) <= Q * qKS * p) as H4 by (split; [apply Z.mul_nonneg_nonneg|apply Z.mul_le_mono_nonneg_l]; lia).
  assert (Z.abs (q * qKS * z) <= q * qKS * Bd) as H5 by (rewrite Z.abs_mul, (Z.abs_eq (q * qKS)) by lia; apply Z.mul_le_mono_nonneg_l; lia).
  assert (p * (Q * qKS * Z.abs e) <= p * (q * qKS * (2 + Bd) + Q * qKS + Z.abs delta)) as H6.
  { assert (p * (Q * qKS * Z.abs e) = Z.abs (p * (Q * qKS * e))) as -> by (rewrite (Z.abs_mul p), (Z.abs_mul (Q * qKS)), (Z.abs_eq p), (Z.abs_eq (Q * qKS)); lia). rewrite Ee.
    assert (Z.abs (p * (q * qKS * z)) <= p * (q * qKS * Bd)) by (rewrite Z.abs_mul, (Z.abs_eq p) by lia; apply Z.mul_le_mono_nonneg_l; lia).
    assert (Z.abs (p * delta) = p * Z.abs delta) by (rewrite Z.abs_mul, (Z.abs_eq p); lia). lia. }
  apply Z.mul_le_mono_pos_l in H6; [|done]. lia.
Qed.

(** ** Parameters and keys *)
Record bt_setting (lwe : LWECryptoParams) (q Q qKS : Z) (k nn base : nat) : Prop := {
  bs_dims : m_n lwe = nn /\ m_N lwe = (2 ^ k)%nat;
  bs_moduli : m_Q lwe = Q /\ m_qKS lwe = qKS;
  bs_base : m_baseKS lwe = Z.of_nat base /\ (1 < base)%nat;
  bs_native : NativeModulus W q /\ NativeModulus W qKS /\ 16 < Q;
  bs_exponents : (q | 2 * Z.of_nat (2 ^ k)) /\ (2 | q);
  bs_fit : 6 * Q * qKS + 3 * Q + qKS < 2 ^ 53 /\ 6 * qKS * q + 3 * qKS + q < 2 ^ 53
}.
Arguments bs_dims {lwe q Q qKS k nn base}.
Arguments bs_moduli {lwe q Q qKS k nn base}.
Arguments bs_base {lwe q Q qKS k nn base}.
Arguments bs_native {lwe q Q qKS k nn base}.
Arguments bs_exponents {lwe q Q qKS k nn base}.
Arguments bs_fit {lwe q Q qKS k nn base}.

(** The key switching key of [EK]. *)
Definition good_ksk (qKS : Z) (base : nat) (t sN : list Z) (beta : Z) (EK : RingGSWBTKey) : Prop :=
  exists K e, g_KSkey EK = Some K /\ ksk_valid qKS base (digit_count (Z.of_nat base) qKS) t sN K e /\ forall i j l, Z.abs (e i j l) <= beta.

(** The rounding errors of the way back from [Q] to the modulus [fm]. *)
Definition back_noise (Q qKS fm : Z) (base : nat) (t sN : list Z) (beta : Z) : Z :=
  Q * qKS * (1 + norm1 t) + fm * Q * (1 + norm1 sN) + 2 * fm * Q * (Z.of_nat (length sN) * (Z.of_nat (digit_count (Z.of_nat base) qKS) * beta)).

Lemma switch_back_to lwe EK Q qKS base t sN beta fm ct : NativeModulus W qKS -> 0 < Q -> 0 < fm -> m_n lwe = length t -> m_N lwe = length sN -> m_qKS lwe = qKS ->
  m_baseKS lwe = Z.of_nat base -> (1 < base)%nat -> 6 * Q * qKS + 3 * Q + qKS < 2 ^ 53 -> 6 * qKS * fm + 3 * qKS + fm < 2 ^ 53 ->
  good_ksk qKS base t sN beta EK -> wf_ct Q (length sN) ct ->
  returns (switch_back lwe EK fm ct) (fun ct' => wf_ct fm (length t) ct' /\ ct_p ct' = 4 /\
    exists c, 2 * Z.abs (Q * qKS * (phase t ct' + c * fm) - fm * qKS * phase sN ct) <= back_noise Q qKS fm base t sN beta).
Proof.
  intros HqKS HQ Hfm En EN EqKS Eb Hb F1 F2 (K & e & EKs & HK & He) Hct.
  assert (returns (ctMS ← ModSwitch (m_qKS lwe) ct; ctKS ← KeySwitch lwe K ctMS; ModSwitch fm ctKS) (fun ct' => wf_ct fm (m_n lwe) ct' /\
    exists c, 2 * Z.abs (Q * m_qKS lwe * (phase t ct' + c * fm) - fm * m_qKS lwe * phase sN ct) <=
      Q * m_qKS lwe * (1 + norm1 t) + fm * Q * (1 + norm1 sN) + 2 * fm * Q * (Z.of_nat (m_N lwe) * (Z.of_nat (digit_count (Z.of_nat base) (m_qKS lwe)) * beta)))) as (ct' & E & Hct' & Hc).
  { apply (switch_chain_spec lwe base t sN K e beta fm Q ct); rewrite ?EqKS, ?EN; try done; lia. }
  rewrite EqKS, En, EN in *. unfold switch_back. rewrite EKs, EqKS. exists ct'. split; [exact E|]. split; [done|]. split; [|exact Hc].
  revert E. destruct (ModSwitch qKS ct) as [ms|]; [|done]. rewrite bind_ok. destruct (KeySwitch lwe K ms) as [ks|]; [|done]. rewrite bind_ok. unfold ModSwitch.
  destruct (tabulateM _ _) as [a|]; [|done]. rewrite bind_ok. destruct (RoundqQ _ _ _) as [b|]; [|done]. rewrite bind_ok. by intros [= <-].
Qed.

Section Gate.
Context {st : FTT} {Q psi : Z} {k : nat} {HR : RingTransform st Q psi k} (arb : FTT -> NativePoly -> res (FTT * NativePoly)).
Context (lwe : LWECryptoParams) (ps : RingGSWCryptoParams) (g : Z) (G : nat) (Hps : rgsw_params ps Q psi k g G).
Context (q qKS : Z) (base : nat) (t : list Z) (Hset : bt_setting lwe q Q qKS k (length t) base) (Hrq : r_q ps = q).
Context (s : list Z) (Hs : wf_data (q := Q) k s) (slack bound beta : Z).
Abbreviation n := (2 ^ k)%nat.
Abbreviation nn := (length t).
Abbreviation wf := (wf_data (q := Q) k).
Abbreviation sN := (map (centred Q) s).
Abbreviation rotation_key_ := (rotation_key (HR := HR) arb ps s q t slack bound).

#[local] Instance gate_modulus : NativeModulus W Q.
Proof using HR. exact rt_modulus. Qed.

(** The interface between the generation of the keys and the gates. *)
Definition good_bt (EK : RingGSWBTKey) : Prop := 0 <= slack /\ 0 <= bound /\
  (exists ek, g_BSkey EK = Some ek /\ rotation_key_ ek) /\ good_ksk qKS base t sN beta EK.

Definition boot_noise : Z := (2 * q * qKS * (2 + bound) + 2 * Q * qKS + back_noise Q qKS q base t sN beta) / (2 * Q * qKS).

Lemma half_exists : exists half, q = 2 * Z.of_nat half /\ 0 < q < 2 ^ 26.
Proof using HR Hset.
  clear Hps Hs Hrq. destruct (bs_native Hset) as (Hq & _). destruct (bs_exponents Hset) as [Hd [h Hh]]. pose proof (nm_bounds (w := W) (m := q)) as Hb. pose proof (dim_bound (HR := HR)) as Hn.
  exists (Z.to_nat h). split; [lia|]. pose proof (Z.divide_pos_le q (2 * Z.of_nat n) ltac:(lia) Hd). lia.
Qed.

Lemma Q2p_ok p : 4 <= p <= 8 -> Q2p Q p = Ok (Q / (2 * p) + 1) /\ 0 < Q / (2 * p) + 1 < Q /\ 2 * (Q / (2 * p) + 1) < Q.
Proof using HR Hset.
  clear Hps Hs Hrq. intros Hp. destruct (bs_native Hset) as (_ & _ & HQ). pose proof (nm_bounds (w := W) (m := Q)) as Hb. pose proof (nm_double (w := W) (m := Q)) as H2. change (2 ^ W) with (2 ^ 64) in H2.
  pose proof (Z.div_mod Q (2 * p) ltac:(lia)). pose proof (Z.mod_pos_bound Q (2 * p) ltac:(lia)). assert (0 <= Q / (2 * p)) by (apply Z.div_pos; lia).
  assert (8 * (Q / (2 * p)) <= 2 * p * (Q / (2 * p))) by (apply Z.mul_le_mono_nonneg_r; lia). split; [|lia].
  unfold Q2p, Mul, MulFast. cbn [NATIVEINT_DO_CHECKS]. rewrite bind_ok, wrap_small by (change (2 ^ W) with (2 ^ 64); lia).
  unfold DividedBy. rewrite (proj2 (Z.eqb_neq (p * 2) 0)), bind_ok by lia. rewrite (Z.mul_comm p 2).
  unfold Add, AddFast. cbn [NATIVEINT_DO_CHECKS]. rewrite (wrap_small W) by (change (2 ^ W) with (2 ^ 64); lia). f_equal. ring.
Qed.

Lemma gate_facts gate : bootstrapped gate = true -> 4 <= gate_p gate <= 8 /\ Z.even (gate_p gate) = true /\ Z.odd (gate_num gate) = true /\ 0 <= gate_num gate < 2 * gate_p gate.
Proof using Type. clear. intros H. destruct gate; cbn in *; try done; lia. Qed.

(** The rotation of a gate leaves the value of its window. *)
Lemma BootstrapGateCore_spec gate ek ct : bootstrapped gate = true -> rotation_key_ ek -> wf_ct q nn ct -> ct_p ct = gate_p gate ->
  let x := Q / (2 * gate_p gate) + 1 in let q1 := gate_num gate * (q / (2 * gate_p gate)) in
  returns (BootstrapGateCore arb lwe ps gate (Some ek) ct st) (fun r => r.1 = st /\ exists dd c0 c1 z, Z.abs dd <= slack /\ Z.abs z <= bound /\
    r.2 = (poly_of Q psi k EVALUATION c0, poly_of Q psi k EVALUATION c1) /\ wf c0 /\ wf c1 /\
    rlwe_phase (q := Q) (k := k) s c0 c1 !!! 0%nat ≡[Q] (if (phase t ct - dd - q1) mod q <? q / 2 then Q - x else x) + z).
Proof using All.
  intros Hg Hek Hct Hp x q1. destruct half_exists as (half & Hhalf & Hqb). destruct (bs_native Hset) as (Hq & HqKS & HQ16). destruct (bs_exponents Hset) as [Hdiv _].
  destruct (bs_dims Hset) as [_ EN]. destruct (bs_moduli Hset) as [EQ _]. destruct (gate_facts gate Hg) as (Hp4 & _ & _ & Hnum).
  destruct (Q2p_ok (gate_p gate) Hp4) as (E2p & Hx & _). fold x in E2p, Hx. pose proof (nm_bounds (w := W) (m := Q)) as HQb.
  pose proof (rp_gateConst Hps) as Egc. rewrite Hrq in Egc.
  assert (0 <= q1 < q) as Hq1.
  { unfold q1. pose proof (Z.mul_div_le q (2 * gate_p gate) ltac:(lia)). assert (0 <= q / (2 * gate_p gate)) by (apply Z.div_pos; lia). split; [apply Z.mul_nonneg_nonneg; lia|].
    destruct (Z.eq_dec (q / (2 * gate_p gate)) 0) as [->|]; [lia|]. nia. }
  assert (q / 2 = Z.of_nat half) as Eh by (rewrite Hhalf, Z.mul_comm, Z.div_mul; lia).
  assert (GetModulus ct = q) as Em by (by destruct Hct as [(? & _) _]).
  unfold BootstrapGateCore. rewrite Em, (gate_const_at q _ gate ltac:(lia) Egc Hg), bind_ok. fold q1. rewrite Z.shiftr_div_pow2 by lia.
  change (2 ^ 1) with 2. rewrite Eh. unfold ConvertToInt. rewrite Z.mod_small by lia. rewrite (nm_add (w := W) (m := q)) by (unfold reduced; lia). rewrite EQ, Hp, E2p, bind_ok, EN, Nat2Z.id.
  unfold Sub, SubFast. cbn [NATIVEINT_DO_CHECKS]. rewrite wrap_small by lia.
  eapply returns_mono; [apply (rotation_value (HR := HR) arb ps g G Hps s Hs q t slack bound half Hq Hhalf Hdiv ek ct _ (fun y => if (y - q1) mod q <? Z.of_nat half then Q - x else x)); try done|].
  - apply gate_half_turns; lia.
  - intros j Hj y. assert (0 <= y < q) as Hy by (apply Z.mod_pos_bound; lia). rewrite (gate_value_spec q (Z.of_nat half)) by done. split; [done|]. unfold reduced. destruct (_ <? _); lia.
  - intros r (Er & dd & c0 & c1 & z & Hd & Hz & E & W0 & W1 & Ez). split; [done|]. exists dd, c0, c1, z. do 5 (split; [done|]). rewrite Ez. by rewrite Zminus_mod_idemp_l.
Qed.

(** From the accumulator back to a ciphertext. *)
Lemma switch_back_spec EK ct : good_bt EK -> wf_ct Q n ct ->
  returns (switch_back lwe EK q ct) (fun ct' => wf_ct q nn ct' /\ ct_p ct' = 4 /\
    exists c, 2 * Z.abs (Q * qKS * (phase t ct' + c * q) - q * qKS * phase sN ct) <= back_noise Q qKS q base t sN beta).
Proof using HR Hset Hs.
  clear Hps Hrq. intros (_ & _ & _ & HK) Hct. destruct half_exists as (half & Hhalf & Hqb). destruct (bs_native Hset) as (Hq & HqKS & HQ16). pose proof (nm_bounds (w := W) (m := Q)) as HQb.
  destruct (bs_dims Hset) as [En EN]. destruct (bs_moduli Hset) as (EQ & EqKS). destruct (bs_base Hset) as [Eb Hb]. destruct (bs_fit Hset) as [F1 F2].
  assert (length sN = n) as LsN by (rewrite length_map; apply Hs). apply switch_back_to; rewrite ?LsN; (done || lia).
Qed.

Definition gate_bit (gate : BINGATE) (M : Z) : Z := if gate_p gate <? (2 * M - gate_num gate) mod (2 * gate_p gate) then 1 else 0.

Lemma gate_bit_range gate M : 0 <= gate_bit gate M <= 1.
Proof using Type. clear. unfold gate_bit. destruct (gate_p gate <? (2 * M - gate_num gate) mod (2 * gate_p gate)); lia. Qed.

(** The bootstrapping of a gate. *)
Lemma gate_bootstrap_spec gate EK ct b0 M e : bootstrapped gate = true -> good_bt EK -> wf_ct q nn ct -> ct_p ct = gate_p gate ->
  phase t ct ≡[q] M * (q / gate_p gate) + e -> b0 = Ok (Q / (2 * gate_p gate) + 1) ->
  2 * gate_p gate * (Z.abs e + slack) + Z.abs (2 * M) * (q mod gate_p gate) + gate_num gate * (q mod (2 * gate_p gate)) < q ->
  returns (gate_bootstrap arb lwe ps gate EK ct b0 q st) (fun r => r.1 = st /\ wf_ct q nn r.2 /\ ct_p r.2 = 4 /\
    exists e', Z.abs e' <= boot_noise /\ phase t r.2 ≡[q] gate_bit gate M * (q / gate_p gate) + e').
Proof using All.
  intros Hg Hbt Hct Hp Hph -> Hmargin. pose proof Hbt as (Hsl & Hbd & (ek & EB & Hek) & HK).
  destruct half_exists as (half & Hhalf & Hqb). destruct (bs_moduli Hset) as [EQ EqKS]. destruct (bs_native Hset) as (Hq & HqKS & HQ16).
  destruct (gate_facts gate Hg) as (Hp4 & Hev & Hodd & Hnum). destruct (Q2p_ok (gate_p gate) Hp4) as (E2p & Hx & Hx2). pose proof (nm_bounds (w := W) (m := qKS)) as HKb.
  unfold gate_bootstrap. rewrite EB, EQ. eapply returns_bind; [by apply BootstrapGateCore_spec|].
  intros [st' acc] (Est & dd & c0 & c1 & z & Hdd & Hz & Eacc & W0 & W1 & Ez). cbn [fst snd] in *. subst st' acc. rewrite bind_ok. set (x := Q / (2 * gate_p gate) + 1) in *.
  eapply returns_bind; [apply (extract_sample_spec (HR := HR) arb s Hs x c0 c1); [split; lia|done|done]|]. intros [st' ext] (Est & Hext & _ & Pext). cbn [fst snd] in *. subst st'.
  eapply returns_bind; [by apply switch_back_spec|]. intros ct' (Hct' & Hp' & c & Hc). apply returns_ok. cbn [fst snd]. split; [done|]. split; [done|]. split; [done|].
  set (m := gate_bit gate M). assert (0 <= m <= 1) as Hm by apply gate_bit_range.
  assert (phase sN ext ≡[Q] m * (2 * x) + z) as Pm.
  { rewrite Pext, Ez. replace (q / 2) with (Z.of_nat half) by (rewrite Hhalf, Z.mul_comm, Z.div_mul; lia).
    rewrite (half_decision (gate_p gate) (gate_num gate) M q (Z.of_nat half) (e - dd) (phase t ct - dd)); try done; try lia.
    - unfold m, gate_bit. destruct (gate_p gate <? (2 * M - gate_num gate) mod (2 * gate_p gate)); cbn [negb]; apply eqm_iff; [exists 0|exists 1]; ring.
    - rewrite Hph. apply eqm_refl. ring.
    - rewrite (Z.abs_eq (gate_num gate)) by lia. assert (Z.abs (e - dd) <= Z.abs e + slack) by lia. assert (2 * gate_p gate * Z.abs (e - dd) <= 2 * gate_p gate * (Z.abs e + slack)) by (apply Z.mul_le_mono_nonneg_l; lia). lia. }
  apply (output_value Q q qKS (gate_p gate) m z (phase sN ext) (phase t ct') c _ bound); try done; lia.
Qed.
End Gate.
