(* ===== verification/GatesEval.v ===== *)
(** * Boolean circuits over the single-key gates

    Every gate maps ciphertexts of bits to a ciphertext of the bit of the gate:
    [EvalNOT], the gates of [EvalBinGate] on two ciphertexts and on a vector of
    them, and [Bootstrap].  A straight-line program over the gates is run on
    ciphertexts and on bits; the first run refines the second one. *)

From Stdlib Require Import ZArith Znumtheory Zpow_facts Lia String.
From stdpp Require Import base tactics numbers list strings gmap.
From S2P Require Import Prelude Double NativeInt NativeIntFacts ModArith NativeVec SchemeCore Negacyclic BitReverse Ntt NttFacts NttSpec NttRing Poly PolyFacts Automorphism Gadget RingNoise RingCoefficients AccCore AccCoreFacts RgswAcc RgswFacts RgswRotation Lwe Gates GatesFacts GatesSpec.

#[export] Instance LWECiphertext_inhabited : Inhabited LWECiphertext := populate (LWECt (NVec 0 []) 0 0).

(** ** The functions of the gates *)
Definition fast_gate (gate : BINGATE) : bool := match gate with XOR_FAST | XNOR_FAST => true | _ => false end.
Definition binary_gate (gate : BINGATE) : bool := match gate with OR | AND | NOR | NAND | XOR_FAST | XNOR_FAST => true | _ => false end.
Definition vector_gate (gate : BINGATE) : bool := match gate with MAJORITY | AND3 | OR3 | AND4 | OR4 => true | _ => false end.
Definition composed_gate (gate : BINGATE) : bool := match gate with XOR | XNOR => true | _ => false end.

(** The bit of a gate on two bits. *)
Definition gate_fun (gate : BINGATE) (x y : Z) : Z :=
  match gate with
  | OR => x + y - x * y
  | AND => x * y
  | NOR => 1 - (x + y - x * y)
  | NAND => 1 - x * y
  | XOR | XOR_FAST => x + y - 2 * (x * y)
  | XNOR | XNOR_FAST => 1 - (x + y - 2 * (x * y))
  | _ => 0
  end.

Lemma vector_gate_list gate : bool_decide (gate ∈ [MAJORITY; AND3; OR3; AND4; OR4]) = vector_gate gate.
Proof. by destruct gate. Qed.

(** What the linear part of a gate makes of two values. *)
Definition linear_part (gate : BINGATE) (x y : Z) : Z := if fast_gate gate then 2 * (x - y) else x + y.

Definition is_bit (x : Z) : Prop := x = 0 \/ x = 1.

Lemma gate_bit_is_bit gate M : is_bit (gate_bit gate M).
Proof. unfold gate_bit, is_bit. destruct (_ <? _); auto. Qed.

Lemma gate_fun_bit gate x y : binary_gate gate || composed_gate gate = true -> is_bit x -> is_bit y -> is_bit (gate_fun gate x y).
Proof. unfold is_bit. intros Hg [-> | ->] [-> | ->]; destruct gate; try discriminate Hg; cbn; lia. Qed.

Lemma gate_fun_spec gate x y : binary_gate gate = true -> is_bit x -> is_bit y -> gate_bit gate (linear_part gate x y) = gate_fun gate x y.
Proof. intros Hg [-> | ->] [-> | ->]; destruct gate; try discriminate Hg; reflexivity. Qed.

(** The gates on vectors decide by the number of ones. *)
Definition threshold (gate : BINGATE) : Z := match gate with MAJORITY => 2 | AND3 => 3 | AND4 => 4 | _ => 1 end.
Definition arity (gate : BINGATE) : nat := match gate with AND4 | OR4 => 4 | _ => 3 end.

Lemma threshold_spec gate M : vector_gate gate = true -> 0 <= M <= Z.of_nat (arity gate) -> gate_bit gate M = if threshold gate <=? M then 1 else 0.
Proof.
  intros Hg HM. assert (M = 0 \/ M = 1 \/ M = 2 \/ M = 3 \/ M = 4) as Hc by (destruct gate; cbn in HM; lia).
  destruct Hc as [-> | [-> | [-> | [-> | ->]]]]; destruct gate; cbn in Hg, HM; first [discriminate Hg|lia|reflexivity].
Qed.

(** The plaintext modulus and the window of a gate fit a power of two. *)
Lemma power_two_mod q N j : (q | 2 * Z.of_nat (2 ^ N)) -> 0 < q -> 2 ^ Z.of_nat j <= q -> q mod 2 ^ Z.of_nat j = 0.
Proof.
  intros [c Hc] Hq Hj. assert (exists i, 0 <= i /\ q = 2 ^ i) as (i & Hi & ->).
  { destruct (Zdivide_power_2 q 2 (Z.of_nat (S N))) as [i Hi]; [lia|lia|apply prime_alt, Z.prime_2| |].
    - exists c. rewrite <- Hc, Nat2Z.inj_pow, Nat2Z.inj_succ, Z.pow_succ_r by lia. done.
    - exists i. split; [|done]. destruct (Z.le_gt_cases 0 i); [done|]. rewrite Z.pow_neg_r in Hi by lia. lia. }
  apply Z.pow_le_mono_r_iff in Hj; [|lia|lia]. apply Z.mod_divide; [lia|]. exists (2 ^ (i - Z.of_nat j)). rewrite <- Z.pow_add_r by lia. f_equal. lia.
Qed.

(** ** Straight-line programs

    An instruction reads wires by their positions and adds one wire.  Two wires
    are the same object when they are the same position. *)
Inductive instr := INot (i : nat) | IGate (gate : BINGATE) (i j : nat) | IMux (i j l : nat) | IRefresh (i : nat).

Definition instr_ok (n : nat) (c : instr) : Prop :=
  match c with
  | INot i | IRefresh i => (i < n)%nat
  | IGate gate i j => binary_gate gate || composed_gate gate = true /\ (i < n)%nat /\ (j < n)%nat /\ i <> j
  | IMux i j l => (i < n)%nat /\ (j < n)%nat /\ (l < n)%nat /\ i <> j /\ i <> l /\ j <> l
  end.
Fixpoint prog_ok (n : nat) (prog : list instr) : Prop :=
  match prog with [] => True | c :: prog' => instr_ok n c /\ prog_ok (S n) prog' end.

(** The meaning of an instruction on bits. *)
Definition instr_bit (c : instr) (m : list Z) : Z :=
  match c with
  | INot i => 1 - m !!! i
  | IGate gate i j => gate_fun gate (m !!! i) (m !!! j)
  | IMux i j l => if m !!! l =? 1 then m !!! j else m !!! i
  | IRefresh i => m !!! i
  end.
Definition run_bits (prog : list instr) (m : list Z) : list Z := fold_left (fun m c => m ++ [instr_bit c m]) prog m.

(** The instruction on ciphertexts, by the operations of [BinFHEScheme]. *)
Definition exec (arb : FTT -> NativePoly -> res (FTT * NativePoly)) (lwe : LWECryptoParams) (ps : RingGSWCryptoParams) (EK : RingGSWBTKey) (c : instr)
    (x : FTT * list LWECiphertext) : res (FTT * LWECiphertext) :=
  let w := x.2 in
  match c with
  | INot i => ct ← vget w i; Ok (x.1, EvalNOT ct)
  | IGate gate i j => ct1 ← vget w i; ct2 ← vget w j; EvalBinGate arb lwe ps gate EK (i =? j)%nat ct1 ct2 x.1
  | IMux i j l => ct0 ← vget w i; ct1 ← vget w j; ct2 ← vget w l;
      EvalBinGate_vector arb lwe ps CMUX EK ((i =? j) || (i =? l) || (j =? l))%nat [ct0; ct1; ct2] x.1
  | IRefresh i => ct ← vget w i; Bootstrap arb lwe ps EK ct x.1
  end.
Definition exec_step (arb : FTT -> NativePoly -> res (FTT * NativePoly)) (lwe : LWECryptoParams) (ps : RingGSWCryptoParams) (EK : RingGSWBTKey)
    (x : FTT * list LWECiphertext) (c : instr) : res (FTT * list LWECiphertext) :=
  r ← exec arb lwe ps EK c x; Ok (r.1, x.2 ++ [r.2]).
Fixpoint run (arb : FTT -> NativePoly -> res (FTT * NativePoly)) (lwe : LWECryptoParams) (ps : RingGSWCryptoParams) (EK : RingGSWBTKey) (prog : list instr)
    (x : FTT * list LWECiphertext) : res (FTT * list LWECiphertext) :=
  match prog with [] => Ok x | c :: prog' => y ← exec_step arb lwe ps EK x c; run arb lwe ps EK prog' y end.

Section Circuits.
Context {st : FTT} {Q psi : Z} {k : nat} {HR : RingTransform st Q psi k} (arb : FTT -> NativePoly -> res (FTT * NativePoly)).
Context (lwe : LWECryptoParams) (ps : RingGSWCryptoParams) (g : Z) (G : nat) (Hps : rgsw_params ps Q psi k g G).
Context (q qKS : Z) (base : nat) (t : list Z) (Hset : bt_setting lwe q Q qKS k (length t) base) (Hrq : r_q ps = q) (Hq8 : 8 <= q).
Context (s : list Z) (Hs : wf_data (q := Q) k s) (slack bound beta : Z).
Context (EK : RingGSWBTKey) (HEK : good_bt (HR := HR) arb ps q qKS base t s slack bound beta EK).
Abbreviation nn := (length t).
Abbreviation noise := (boot_noise (Q := Q) q qKS base t s bound beta).

(** A ciphertext of the value [m] over [q / p] with the noise [e]. *)
Definition ct_holds (p m e : Z) (ct : LWECiphertext) : Prop := wf_ct q nn ct /\ ct_p ct = p /\ phase t ct ≡[q] m * (q / p) + e.
Definition ct_bit (E m : Z) (ct : LWECiphertext) : Prop := exists e, Z.abs e <= E /\ ct_holds 4 m e ct.

#[local] Instance circuit_modulus : NativeModulus W q.
Proof using Hset. apply (bs_native Hset). Qed.

Lemma small_mods p : p = 4 \/ p = 8 /\ 16 <= q -> q mod p = 0 /\ q mod (2 * p) = 0.
Proof using Hset Hq8.
  clear HEK Hs Hps Hrq. intros Hp. destruct (bs_exponents Hset) as [Hd _].
  assert (forall j, 2 ^ Z.of_nat j <= q -> q mod 2 ^ Z.of_nat j = 0) as H by (intros j Hj; apply (power_two_mod q k j Hd); lia).
  destruct Hp as [-> | [-> Hq16]].
  - split; [apply (H 2%nat)|apply (H 3%nat)]; cbn; lia.
  - split; [apply (H 3%nat)|apply (H 4%nat)]; cbn; lia.
Qed.

(** ** NOT *)
Lemma EvalNOT_spec m e ct : wf_ct q nn ct -> phase t ct ≡[q] m * (q / 4) + e -> ct_holds 4 (1 - m) (- e) (EvalNOT ct).
Proof using Hset.
  clear HEK Hs Hps Hq8 Hrq. intros [(Em & La & Fa) Hb] Hph. pose proof (nm_bounds (w := W) (m := q)) as Hqb. unfold EvalNOT, GetModulus. rewrite Em.
  assert (map (fun x => if x =? 0 then 0 else Sub W q x) (data (ct_a ct)) = map (fun x => (- x) mod q) (data (ct_a ct))) as ->.
  { apply map_ext_in. intros x Hx. rewrite Forall_forall in Fa. apply list_elem_of_In in Hx. pose proof (Fa x Hx) as Rx. unfold reduced in Rx. destruct (Z.eqb_spec x 0) as [->|]; [by rewrite Z.mod_0_l by lia|].
    unfold Sub, SubFast. cbn [NATIVEINT_DO_CHECKS]. rewrite wrap_small by lia. apply (Z.mod_unique_pos _ _ (-1)); lia. }
  rewrite Z.shiftr_div_pow2 by lia. change (2 ^ 2) with 4. assert (reduced q (q / 4)) as Hq4. { split; [apply Z.div_pos; lia|apply Z.div_lt_upper_bound; lia]. }
  assert (ModSubFast W (q / 4) (ct_b ct) q = (q / 4 - ct_b ct) mod q) as -> by (by apply (nm_sub (w := W))).
  split; [|split; [done|]].
  - split; [split; [done|split]|apply (nm_mod (w := W))]; cbn [ct_a data new_LWECiphertext]; [by rewrite length_map|]. apply map_reduced. intros. apply (nm_mod (w := W)).
  - transitivity (q / 4 - phase t ct); [|rewrite Hph; apply eqm_refl; ring]. unfold phase. cbn [ct_a ct_b new_LWECiphertext data]. rewrite eqm_mod.
    transitivity (q / 4 - ct_b ct + sumZ nn (fun i => (ct_a ct).[i] * t !!! i)); [|apply eqm_refl; ring].
    assert (sumZ nn (fun i => (map (fun x => (- x) mod q) (data (ct_a ct))) !!! i * t !!! i) ≡[q] sumZ nn (fun i => (-1) * ((ct_a ct).[i] * t !!! i))) as ->; [|rewrite sumZ_scale; apply eqm_refl; ring].
    apply sumZ_eqm. intros i Hi. rewrite lookup_total_map by lia. rewrite eqm_mod. apply eqm_refl. ring.
Qed.

(** ** The gates that take one bootstrapping *)
Lemma add_step x y : wf_ct q nn x -> wf_ct q nn y -> returns (EvalAddEq x y) (fun ct => wf_ct q nn ct /\ ct_p ct = ct_p x /\ phase t ct ≡[q] phase t x + phase t y).
Proof using Hset.
  clear HEK Hs Hps Hq8 Hrq. intros Hx Hy. destruct (EvalAddEq_spec nn t x y eq_refl Hx Hy) as (ct & E & Hct & Hphase). exists ct. split; [done|]. split; [done|]. split; [|done].
  revert E. unfold EvalAddEq. destruct (ModAddEqV _ _ _); [|done]. rewrite bind_ok. by intros [= <-].
Qed.

Lemma sub_step x y : wf_ct q nn x -> wf_ct q nn y -> returns (EvalSubEq x y) (fun ct => wf_ct q nn ct /\ ct_p ct = ct_p x /\ phase t ct ≡[q] phase t x - phase t y).
Proof using Hset.
  clear HEK Hs Hps Hq8 Hrq. intros Hx Hy. destruct (proj1 (EvalSubEq_spec nn t x y eq_refl Hx Hy)) as (ct & E & Hct & Hphase). exists ct. split; [done|]. split; [done|]. split; [|done].
  revert E. unfold EvalSubEq. destruct (ModSubEqV _ _ _); [|done]. rewrite bind_ok. by intros [= <-].
Qed.

Lemma eighth_ok : Add W (Z.shiftr (m_Q lwe) 3) 1 = Ok (Q / (2 * 4) + 1).
Proof using HR Hset.
  clear HEK Hs Hps Hq8 Hrq. pose proof (rt_modulus (RingTransform := HR)) as HQ. destruct (bs_moduli Hset) as [EQ _]. rewrite EQ, Z.shiftr_div_pow2 by lia. change (2 ^ 3) with 8. change (2 * 4) with 8.
  pose proof (nm_bounds (w := W) (m := Q)). pose proof (nm_double (w := W) (m := Q)) as H2. change (2 ^ W) with (2 ^ 64) in H2.
  assert (0 <= Q / 8 <= Q) by (split; [apply Z.div_pos|apply Z.div_le_upper_bound]; lia).
  unfold Add, AddFast. cbn [NATIVEINT_DO_CHECKS]. rewrite wrap_small by (change (2 ^ W) with (2 ^ 64); lia). f_equal. ring.
Qed.

(** A gate on a prepared ciphertext, when the modulus is a power of two. *)
Lemma gate_run gate ct b0 M e : bootstrapped gate = true -> gate_p gate = 4 \/ gate_p gate = 8 /\ 16 <= q -> ct_holds (gate_p gate) M e ct ->
  b0 = Ok (Q / (2 * gate_p gate) + 1) -> 2 * gate_p gate * (Z.abs e + slack) < q ->
  returns (gate_bootstrap arb lwe ps gate EK ct b0 q st) (fun r => r.1 = st /\ exists e', Z.abs e' <= noise /\
    wf_ct q nn r.2 /\ ct_p r.2 = 4 /\ phase t r.2 ≡[q] gate_bit gate M * (q / gate_p gate) + e').
Proof using All.
  intros Hg Hp (Hct & Pct & Phct) Hb0 Hmar. destruct (small_mods _ Hp) as [M1 M2].
  eapply returns_mono; [apply (gate_bootstrap_spec (HR := HR) arb lwe ps g G Hps q qKS base t Hset Hrq s Hs slack bound beta gate EK ct b0 M e); try done; rewrite M1, M2; lia|].
  intros r (E & Hr & Pr & e' & He & Phr). split; [done|]. by exists e'.
Qed.

Lemma simple_gate_spec gate ct1 ct2 m1 m2 e1 e2 : binary_gate gate = true -> is_bit m1 -> is_bit m2 -> ct_holds 4 m1 e1 ct1 -> ct_holds 4 m2 e2 ct2 ->
  8 * (Z.abs (linear_part gate e1 e2) + slack) < q ->
  returns (simple_gate arb lwe ps gate EK ct1 ct2 st) (fun r => r.1 = st /\ ct_bit noise (gate_fun gate m1 m2) r.2).
Proof using All.
  intros Hg Hm1 Hm2 (W1 & P1 & Ph1) (W2 & P2 & Ph2) Hmar.
  assert (bootstrapped gate = true /\ gate_p gate = 4) as [Hb Hp] by (by destruct gate).
  unfold simple_gate. assert (GetModulus ct1 = q) as -> by (by destruct W1 as [(? & _) _]).
  cbv zeta. set (c1 := copy_LWECiphertext ct1). assert (wf_ct q nn c1 /\ ct_p c1 = 4) as [Wc1 Pc1] by done.
  assert (returns (if bool_decide (gate = XOR_FAST) || bool_decide (gate = XNOR_FAST) then ctprep ← EvalSubEq c1 ct2; EvalAddEq ctprep ctprep else EvalAddEq c1 ct2)
    (fun ct => wf_ct q nn ct /\ ct_p ct = 4 /\ phase t ct ≡[q] linear_part gate (phase t ct1) (phase t ct2))) as Hlin.
  { change (phase t ct1) with (phase t c1). assert (bool_decide (gate = XOR_FAST) || bool_decide (gate = XNOR_FAST) = fast_gate gate) as -> by (by destruct gate). unfold linear_part. destruct (fast_gate gate).
    - eapply returns_bind; [by apply sub_step|]. intros ct (Hct & Pct & Hphase).
      eapply returns_mono; [by apply add_step|]. intros r (Hr & Er & Pr). split; [done|]. split; [congruence|]. rewrite Pr, Hphase. apply eqm_refl. ring.
    - eapply returns_mono; [by apply add_step|]. intros r (Hr & Er & Pr). split; [done|]. split; [congruence|done]. }
  eapply returns_bind; [exact Hlin|]. intros ct (Hct & Pct & Phct). rewrite <- (gate_fun_spec gate m1 m2) by done.
  eapply returns_mono; [apply (gate_run gate ct _ (linear_part gate m1 m2) (linear_part gate e1 e2) Hb); rewrite ?Hp|].
  - by left.
  - split; [done|]. split; [done|]. rewrite Phct. transitivity (linear_part gate (m1 * (q / 4) + e1) (m2 * (q / 4) + e2)).
    + unfold linear_part. destruct (fast_gate gate); by rewrite Ph1, Ph2.
    + apply eqm_refl. unfold linear_part. destruct (fast_gate gate); ring.
  - apply eighth_ok.
  - lia.
  - intros r (E & e' & He & Hr & Pr & Phr). split; [done|]. exists e'. split; [done|]. split; [done|]. split; [done|]. by rewrite Hp in Phr.
Qed.

(** ** [EvalBinGate] *)

(** Every bit with a noise of at most [E] can enter any gate. *)
Definition gate_margin (E : Z) : Prop := 8 * (4 * E + slack) < q.

Lemma margin_ok gate E e1 e2 : Z.abs e1 <= E -> Z.abs e2 <= E -> gate_margin E -> 8 * (Z.abs (linear_part gate e1 e2) + slack) < q.
Proof using Type. clear. unfold gate_margin, linear_part. destruct (fast_gate gate); lia. Qed.

Lemma binary_spec gate ct1 ct2 m1 m2 E : gate_margin E -> binary_gate gate = true -> is_bit m1 -> is_bit m2 -> ct_bit E m1 ct1 -> ct_bit E m2 ct2 ->
  returns (simple_gate arb lwe ps gate EK ct1 ct2 st) (fun r => r.1 = st /\ ct_bit noise (gate_fun gate m1 m2) r.2).
Proof using All.
  intros HE Hg Hm1 Hm2 (e1 & He1 & H1) (e2 & He2 & H2). apply (simple_gate_spec gate ct1 ct2 m1 m2 e1 e2); try done. by apply (margin_ok gate E).
Qed.

Lemma NOT_bit E m ct : ct_bit E m ct -> ct_bit E (1 - m) (EvalNOT ct).
Proof using Hset. clear HEK Hs Hps Hq8 Hrq. intros (e & He & Hct & _ & Hph). exists (- e). split; [lia|]. by apply EvalNOT_spec. Qed.

Lemma bit_mono E E' m ct : E <= E' -> ct_bit E m ct -> ct_bit E' m ct.
Proof using Type. clear. intros HE (e & He & H). exists e. split; [lia|done]. Qed.

Lemma not_bit m : is_bit m -> is_bit (1 - m).
Proof using Type. clear. unfold is_bit. lia. Qed.

Lemma EvalBinGate_spec gate ct1 ct2 m1 m2 E : noise <= E -> gate_margin E -> binary_gate gate || composed_gate gate = true -> is_bit m1 -> is_bit m2 -> ct_bit E m1 ct1 -> ct_bit E m2 ct2 ->
  returns (EvalBinGate arb lwe ps gate EK false ct1 ct2 st) (fun r => r.1 = st /\ ct_bit noise (gate_fun gate m1 m2) r.2).
Proof using All.
  intros HE Hmar Hg Hm1 Hm2 H1 H2. unfold EvalBinGate. assert (bool_decide (gate = XOR) || bool_decide (gate = XNOR) = composed_gate gate) as -> by (by destruct gate).
  destruct (composed_gate gate) eqn:Hc; [|apply (binary_spec gate ct1 ct2 m1 m2 E); try done; by rewrite orb_false_r in Hg].
  eapply returns_bind; [apply (binary_spec AND ct1 (EvalNOT ct2) m1 (1 - m2) E); try done; [by apply not_bit|by apply NOT_bit]|]. intros [st1 c1] [E1 B1]. cbn [fst snd] in *. subst st1.
  eapply returns_bind; [apply (binary_spec AND (EvalNOT ct1) ct2 (1 - m1) m2 E); try done; [by apply not_bit|by apply NOT_bit]|]. intros [st1 c2] [E1 B2]. cbn [fst snd] in *. subst st1.
  eapply returns_bind; [apply (binary_spec OR c1 c2 (gate_fun AND m1 (1 - m2)) (gate_fun AND (1 - m1) m2) E Hmar eq_refl); [| |exact (bit_mono _ _ _ _ HE B1)|exact (bit_mono _ _ _ _ HE B2)]; apply (gate_fun_bit AND); try done; by apply not_bit|].
  intros [st1 c] [E1 B]. cbn [fst snd] in *. subst st1. apply returns_ok. cbn [fst snd]. split; [done|].
  destruct gate; try discriminate Hc; cbn [bool_decide].
  - rewrite bool_decide_true by done. cbn [gate_fun] in B |- *. replace (m1 + m2 - 2 * (m1 * m2)) with (m1 * (1 - m2) + (1 - m1) * m2 - m1 * (1 - m2) * ((1 - m1) * m2)); [done|]. destruct Hm1 as [-> | ->], Hm2 as [-> | ->]; done.
  - rewrite bool_decide_false by done. apply NOT_bit in B. cbn [gate_fun] in B |- *. replace (m1 + m2 - 2 * (m1 * m2)) with (m1 * (1 - m2) + (1 - m1) * m2 - m1 * (1 - m2) * ((1 - m1) * m2)); [done|]. destruct Hm1 as [-> | ->], Hm2 as [-> | ->]; done.
Qed.

(** ** [Bootstrap] *)
Lemma Bootstrap_spec ct m E : gate_margin E -> is_bit m -> ct_bit E m ct ->
  returns (Bootstrap arb lwe ps EK ct st) (fun r => r.1 = st /\ ct_bit noise m r.2).
Proof using All.
  intros Hmar Hm (e & He & Hct & Pct & Phct). pose proof (nm_bounds (w := W) (m := q)) as Hqb. unfold Bootstrap. cbv zeta. pose proof Hct as [(Em & La & Fa) Hb]. assert (GetModulus ct = q) as EG by exact Em. rewrite EG.
  assert (Z.shiftr q 2 = q / 4) as -> by (by rewrite Z.shiftr_div_pow2 by lia).
  assert (reduced q (q / 4)) as Hq4. { split; [apply Z.div_pos; lia|apply Z.div_lt_upper_bound; lia]. }
  destruct (EvalConst_spec t (copy_LWECiphertext ct) (q / 4) Hb Em Hq4) as [Hadd _]. destruct (bs_moduli Hset) as [EQ _].
  assert (is_bit m -> gate_bit AND (m + 1) = m) as Hbit by (by intros [-> | ->]).
  eapply returns_mono; [apply (gate_run AND (EvalAddConstEq (copy_LWECiphertext ct) (q / 4)) _ (m + 1) e eq_refl); cbn [gate_p]|].
  - by left.
  - split; [|split; [done|]].
    + split; [done|]. unfold EvalAddConstEq. cbn [ct_a ct_b copy_LWECiphertext new_LWECiphertext]. change (GetModulus (copy_LWECiphertext ct)) with (GetModulus ct). rewrite EG. assert (ModAddFastEq W (ct_b ct) (q / 4) q = (ct_b ct + q / 4) mod q) as -> by (by apply (nm_add (w := W))). apply (nm_mod (w := W)).
    + rewrite Hadd, Phct. apply eqm_refl. ring.
  - rewrite Pct, EQ. apply (Q2p_ok (HR := HR) lwe q qKS base t Hset). lia.
  - unfold gate_margin in Hmar. lia.
  - intros r (E1 & e' & He' & Hr & Pr & Phr). split; [done|]. exists e'. split; [done|]. split; [done|]. split; [done|]. cbn [gate_p] in Phr. by rewrite Hbit in Phr.
Qed.

(** ** [EvalBinGate] on vectors *)
Definition vector_margin (gate : BINGATE) (E : Z) : Prop :=
  let p := gate_p gate in let L := Z.of_nat (arity gate) in
  2 * p * (L * E + slack) + 2 * L * (q mod p) + gate_num gate * (q mod (2 * p)) < q.

(** The sum of the ciphertexts. *)
Lemma vector_sum cts m e p : (0 < length cts)%nat -> ct_p (cts !!! 0%nat) = p ->
  (forall i, (i < length cts)%nat -> wf_ct q nn (cts !!! i) /\ phase t (cts !!! i) ≡[q] m i * (q / p) + e i) ->
  returns (for_ (length cts - 1) (fun i ctprep => ct ← vget cts (S i); EvalAddEq ctprep ct) (SetptModulus (copy_LWECiphertext (cts !!! 0%nat)) p))
    (ct_holds p (sumZ (length cts) m) (sumZ (length cts) e)).
Proof using Hset.
  clear HEK Hs Hps Hq8 Hrq. intros Hl Hp H. destruct (length cts) as [|L] eqn:EL; [lia|]. replace (S L - 1)%nat with L by lia.
  apply (returns_for (fun i => ct_holds p (sumZ (S i) m) (sumZ (S i) e))).
  - destruct (H 0%nat ltac:(lia)) as [W0 P0]. split; [exact W0|]. split; [done|]. cbn [sumZ]. rewrite !Z.add_0_l. exact P0.
  - intros i ct Hi (Wc & Pc & Phc). destruct (H (S i) ltac:(lia)) as [Wi Pi]. rewrite vget_total, bind_ok by lia.
    eapply returns_mono; [by apply add_step|]. intros r (Hr & Er & Pr). split; [done|]. split; [congruence|]. rewrite Pr, Phc, Pi. cbn [sumZ]. apply eqm_refl. ring.
Qed.

Lemma EvalBinGate_vector_spec gate cts m E : vector_gate gate = true -> length cts = arity gate -> ct_p (cts !!! 0%nat) = gate_p gate -> vector_margin gate E ->
  (forall i, (i < arity gate)%nat -> is_bit (m i) /\ wf_ct q nn (cts !!! i) /\ exists e, Z.abs e <= E /\ phase t (cts !!! i) ≡[q] m i * (q / gate_p gate) + e) ->
  returns (EvalBinGate_vector arb lwe ps gate EK false cts st) (fun r => r.1 = st /\ wf_ct q nn r.2 /\ ct_p r.2 = 4 /\
    exists e', Z.abs e' <= noise /\ phase t r.2 ≡[q] (if threshold gate <=? sumZ (arity gate) m then 1 else 0) * (q / gate_p gate) + e').
Proof using All.
  intros Hg Hl Hp Hmar H. assert (3 <= arity gate <= 4)%nat as Har by (destruct gate; cbn; lia). destruct (bs_moduli Hset) as [EQ _].
  assert (bootstrapped gate = true) as Hb by (by destruct gate). destruct (gate_facts gate Hb) as (Hp4 & _ & _ & Hnum).
  destruct (choice_below (arity gate) (fun i e => Z.abs e <= E /\ phase t (cts !!! i) ≡[q] m i * (q / gate_p gate) + e)) as (e & He); [intros i Hi; by apply H|].
  unfold EvalBinGate_vector. rewrite (vget_total cts 0), bind_ok by lia.
  rewrite vector_gate_list, Hg.
  rewrite Hp. eapply returns_bind; [apply (vector_sum cts m e _ ltac:(lia) Hp); rewrite Hl; intros i Hi; split; [by apply H|by apply He]|]. rewrite Hl.
  intros ct (Wc & Pc & Phc). destruct (H 0%nat ltac:(lia)) as (_ & W0 & _). assert (GetModulus (cts !!! 0%nat) = q) as -> by (by destruct W0 as [(? & _) _]).
  assert (0 <= sumZ (arity gate) m <= Z.of_nat (arity gate)) as HM.
  { rewrite <- (Z.mul_1_r (Z.of_nat (arity gate))), <- (Z.mul_0_r (Z.of_nat (arity gate))) at 1. assert (forall L, (forall i, (i < L)%nat -> is_bit (m i)) -> Z.of_nat L * 0 <= sumZ L m <= Z.of_nat L * 1) as Hsum.
    { intros L. induction L as [|L IH]; intros HL; cbn [sumZ]; [lia|]. destruct (HL L ltac:(lia)); pose proof (IH ltac:(intros; apply HL; lia)); lia. }
    apply Hsum. intros i Hi. by apply H. }
  rewrite <- (threshold_spec gate _ Hg HM).
  assert (Z.abs (sumZ (arity gate) e) <= Z.of_nat (arity gate) * E) as HE by (apply sumZ_bound; intros; by apply He).
  eapply returns_mono; [apply (gate_bootstrap_spec (HR := HR) arb lwe ps g G Hps q qKS base t Hset Hrq s Hs slack bound beta gate EK ct _ _ _ Hb HEK Wc Pc Phc)|].
  - rewrite EQ. apply (Q2p_ok (HR := HR) lwe q qKS base t Hset). done.
  - unfold vector_margin in Hmar. pose proof (Z.mod_pos_bound q (gate_p gate) ltac:(lia)).
    assert (Z.abs (2 * sumZ (arity gate) m) * (q mod gate_p gate) <= 2 * Z.of_nat (arity gate) * (q mod gate_p gate)) by (apply Z.mul_le_mono_nonneg_r; lia).
    assert (2 * gate_p gate * (Z.abs (sumZ (arity gate) e) + slack) <= 2 * gate_p gate * (Z.of_nat (arity gate) * E + slack)) by (apply Z.mul_le_mono_nonneg_l; lia). lia.
  - done.
Qed.

Lemma CMUX_spec ct0 ct1 ct2 m0 m1 m2 E : noise <= E -> gate_margin E -> is_bit m0 -> is_bit m1 -> is_bit m2 -> ct_bit E m0 ct0 -> ct_bit E m1 ct1 -> ct_bit E m2 ct2 ->
  returns (EvalBinGate_vector arb lwe ps CMUX EK false [ct0; ct1; ct2] st) (fun r => r.1 = st /\ ct_bit noise (if m2 =? 1 then m1 else m0) r.2).
Proof using All.
  intros HE Hmar B0 B1 B2 H0 H1 H2. unfold EvalBinGate_vector. cbn [vget lookup list_lookup length Nat.eqb negb mbind res_bind].
  rewrite vector_gate_list. cbn [vector_gate]. rewrite bool_decide_true by done. unfold vget. cbn [lookup list_lookup mbind res_bind].
  eapply returns_bind; [apply (binary_spec NAND ct0 (EvalNOT ct2) m0 (1 - m2) E); try done; [by apply not_bit|by apply NOT_bit]|]. intros [st1 c1] [E1 N1]. cbn [fst snd] in *. subst st1.
  eapply returns_bind; [by apply (binary_spec NAND ct1 ct2 m1 m2 E)|]. intros [st1 c2] [E1 N2]. cbn [fst snd] in *. subst st1.
  eapply returns_mono; [apply (binary_spec NAND c1 c2 (gate_fun NAND m0 (1 - m2)) (gate_fun NAND m1 m2) E Hmar eq_refl); [| |exact (bit_mono _ _ _ _ HE N1)|exact (bit_mono _ _ _ _ HE N2)]; apply (gate_fun_bit NAND); try done; by apply not_bit|].
  intros r [Er Br]. split; [done|]. destruct B0 as [-> | ->], B1 as [-> | ->], B2 as [-> | ->]; exact Br.
Qed.

(** ** Programs *)
Context (E : Z) (HE : noise <= E) (Hmar : gate_margin E).

(** The ciphertexts hold the bits. *)
Definition wires_hold (m : list Z) (w : list LWECiphertext) : Prop :=
  length w = length m /\ forall i, (i < length m)%nat -> is_bit (m !!! i) /\ ct_bit E (m !!! i) (w !!! i).

Lemma exec_spec c m w : instr_ok (length m) c -> wires_hold m w ->
  returns (exec arb lwe ps EK c (st, w)) (fun r => r.1 = st /\ is_bit (instr_bit c m) /\ ct_bit E (instr_bit c m) r.2).
Proof using All.
  intros Hc [Hl Hw]. destruct c as [i|gate i j|i j l|i]; cbn [instr_ok] in Hc; cbn [exec fst snd instr_bit].
  - destruct (Hw i Hc) as [B1 H1]. rewrite vget_total, bind_ok by lia. apply returns_ok. split; [done|]. split; [by apply not_bit|by apply NOT_bit].
  - destruct Hc as (Hg & Hi & Hj & Hne). destruct (Hw i Hi) as [B1 H1], (Hw j Hj) as [B2 H2]. rewrite (vget_total w i), bind_ok, (vget_total w j), bind_ok by lia.
    rewrite (proj2 (Nat.eqb_neq i j)) by done. eapply returns_mono; [by apply (EvalBinGate_spec gate _ _ (m !!! i) (m !!! j) E)|].
    intros r [E1 Br]. split; [done|]. split; [by apply gate_fun_bit|]. by apply (bit_mono noise).
  - destruct Hc as (Hi & Hj & Hl' & N1 & N2 & N3). destruct (Hw i Hi) as [B0 H0], (Hw j Hj) as [B1 H1], (Hw l Hl') as [B2 H2].
    rewrite (vget_total w i), bind_ok, (vget_total w j), bind_ok, (vget_total w l), bind_ok by lia.
    rewrite !(proj2 (Nat.eqb_neq _ _)) by done. cbn [orb]. eapply returns_mono; [by apply (CMUX_spec _ _ _ (m !!! i) (m !!! j) (m !!! l) E)|].
    intros r [E1 Br]. split; [done|]. split; [by destruct (_ =? _)|]. by apply (bit_mono noise).
  - destruct (Hw i Hc) as [B1 H1]. rewrite vget_total, bind_ok by lia. eapply returns_mono; [by apply (Bootstrap_spec _ (m !!! i) E)|].
    intros r [E1 Br]. split; [done|]. split; [done|]. by apply (bit_mono noise).
Qed.

Lemma wires_app m w b ct : wires_hold m w -> is_bit b -> ct_bit E b ct -> wires_hold (m ++ [b]) (w ++ [ct]).
Proof using Type.
  clear. intros [Hl Hw] Hb Hct. split; [by rewrite !length_app, Hl|]. intros i Hi. rewrite length_app in Hi. cbn [length] in Hi. destruct (decide (i < length m)%nat).
  - rewrite !lookup_total_app_l by lia. by apply Hw.
  - assert (i = length m) as -> by lia. rewrite lookup_total_app_r by lia. rewrite <- Hl at 3. rewrite lookup_total_app_r by lia. by rewrite Hl, !Nat.sub_diag.
Qed.

(** One step of the run on ciphertexts simulates one step on bits. *)
Lemma run_spec prog : forall m w, prog_ok (length m) prog -> wires_hold m w ->
  returns (run arb lwe ps EK prog (st, w)) (fun r => r.1 = st /\ wires_hold (run_bits prog m) r.2).
Proof using All.
  induction prog as [|c prog IH]; intros m w Hp Hw; cbn [prog_ok] in Hp; [by apply returns_ok|]. destruct Hp as [Hc Hp]. cbn [run].
  eapply returns_bind; [eapply (returns_bind _ _ _ (fun y => y.1 = st /\ wires_hold (m ++ [instr_bit c m]) y.2)); [by apply exec_spec|]|].
  - intros [st' ct] (E1 & Hb & Hct). apply returns_ok. cbn [fst snd] in *. split; [done|]. by apply wires_app.
  - intros [st' w'] [E1 Hw']. cbn [fst snd] in *. subst st'. change (run_bits (c :: prog) m) with (run_bits prog (m ++ [instr_bit c m])). apply IH; [|done].
    rewrite length_app. cbn [length]. by rewrite Nat.add_1_r.
Qed.
End Circuits.
