(* ===== verification/GatesKeys.v ===== *)
(** * From the drawn values to the single-key gates

    [PreCompute] makes the tables of the parameters, [KeyGen] the bootstrapping
    keys of the three methods: with small draws they are good keys in the
    sense of [GatesSpec], so that every gate of [GatesEval] is correct with
    them. *)

From Stdlib Require Import ZArith Lia String.
From stdpp Require Import base tactics numbers list strings gmap.
From S2P Require Import Prelude Double NativeInt NativeIntFacts ModArith NativeVec SchemeCore Negacyclic BitReverse Ntt NttFacts NttSpec NttRing Poly PolyFacts Automorphism Gadget RingNoise RingCoefficients AccCore AccCoreFacts RgswAcc LogTable RgswFacts RgswRotation RgswKeys AutoKeys LmkRotation AccSpec Lwe Gates GatesFacts GatesSpec GatesEval.

(** A key that is valid for some errors is valid for equal ones. *)
Lemma ksk_valid_ext q base d s sN K e e' : (forall i j l, e i j l ≡[q] e' i j l) -> ksk_valid q base d s sN K e -> ksk_valid q base d s sN K e'.
Proof.
  intros He [H1 H2 H3 H4 H5]. split; try done. intros i j l Hi Hj Hl. destruct (H5 i j l Hi Hj Hl) as (E1 & E2 & E3).
  split; [done|]. split; [done|]. by rewrite E3, He.
Qed.

Section Keys.
Context {st : FTT} {Q psi : Z} {k : nat} {HR : RingTransform st Q psi k} (arb : FTT -> NativePoly -> res (FTT * NativePoly)).
Context (g : Z) (G : nat).
Abbreviation n := (2 ^ k)%nat.

#[local] Instance bt_keys_modulus : NativeModulus W Q.
Proof using HR. exact rt_modulus. Qed.

(** ** The keys *)
Context (lwe : LWECryptoParams) (ps : RingGSWCryptoParams) (Hps : rgsw_params ps Q psi k g G).
Context (q qKS : Z) (base : nat) (t : list Z) (Hset : bt_setting lwe q Q qKS k (length t) base) (Hrq : r_q ps = q).
Abbreviation nn := (length t).

(** What the methods ask for. *)
Record method_setting : Prop := {
  ms_gadget : 1 <= g <= 31 /\ 2 ^ g <= Q /\ (0 < G)%nat /\ Q <= (2 ^ g) ^ Z.of_nat (S G);
  ms_method : method_ok ps q nn;
  ms_fit : (Z.of_nat nn + 2) * qKS < 2 ^ 64 /\ Z.of_nat base * qKS <= 2 ^ 64
}.

(** What the generators draw. *)
Record bt_draws (m_ : Z) (s : list Z) (sg ep beta : Z) (mode : KEYGEN_MODE) (pkA : list NativeVector) (pke : NativeVector)
    (gaussA : nat -> nat -> nat -> NativeVector) (err : nat -> nat -> nat -> Z) (sample : nat -> nat -> nat -> RgswSample) : Prop := {
  bd_secret : 3 <= m_ < 2 ^ 31 /\ NativeModulus W m_ /\ forall i, (i < nn)%nat -> -1 <= t !!! i <= 1;
  bd_ring : wf_data (q := Q) k s /\ 0 <= sg /\ l1_le Q n sg s /\ 0 <= ep;
  bd_masks : forall i j l, wf_mask qKS nn (gaussA i j l);
  bd_errors : forall i j l, reduced qKS (err i j l) /\ Z.abs (centred qKS (err i j l)) <= beta;
  bd_samples : forall u v i, good_rgsw_sample (q := Q) (k := k) G ep (sample u v i);
  bd_public : mode = PUB_ENCRYPT -> length pkA = n /\ (forall j, (j < n)%nat -> wf_mask Q n (pkA !!! j)) /\ wf_mask Q n pke
}.

#[global] Arguments bd_secret {m_ s sg ep beta mode pkA pke gaussA err sample}.
#[global] Arguments bd_ring {m_ s sg ep beta mode pkA pke gaussA err sample}.
#[global] Arguments bd_masks {m_ s sg ep beta mode pkA pke gaussA err sample}.
#[global] Arguments bd_errors {m_ s sg ep beta mode pkA pke gaussA err sample}.
#[global] Arguments bd_samples {m_ s sg ep beta mode pkA pke gaussA err sample}.
#[global] Arguments bd_public {m_ s sg ep beta mode pkA pke gaussA err sample}.

(** The secret key with the modulus [m_]. *)
Definition secret_key (m_ : Z) : NativeVector := NVec m_ (map (fun i => t !!! i mod m_) (seq 0 nn)).

Lemma secret_key_ints m_ : 3 <= m_ -> (forall i, (i < nn)%nat -> -1 <= t !!! i <= 1) -> key_ints (secret_key m_) = t.
Proof using Type.
  intros Hm Ht. unfold key_ints, secret_key. cbn [modulus data]. rewrite map_map. apply list_total_ext; [by rewrite length_tab|].
  rewrite length_tab. intros i Hi. rewrite lookup_total_tab by done. specialize (Ht i Hi).
  apply centred_unique; [apply Z.mod_pos_bound; lia|symmetry; apply eqm_mod|lia].
Qed.

(** The noise and the error of the blind rotation. *)
Definition rotation_noise (sg ep : Z) : Z := acc_noise Q g G ps q nn sg ep.
Definition rotation_slack : Z := acc_slack ps (fun i => t !!! i) nn.

(** What the generator of the automorphism keys draws. *)
Definition auto_draws (ep : Z) (autoSample : nat -> nat -> NativeVector * NativeVector) : Prop :=
  r_method ps = LMKCDEY -> forall i, good_auto_sample (q := Q) (k := k) G ep (autoSample i).

(** The keys of GINX serve every modulus of the exponents. *)
Lemma KeyGen_spec m_ s sg ep beta mode pkA pke gaussA err sample autoSample : method_setting ->
  bt_draws m_ s sg ep beta mode pkA pke gaussA err sample -> auto_draws ep autoSample ->
  returns (Gates.KeyGen arb lwe ps (secret_key m_) mode (NVec Q s) pkA pke gaussA err sample autoSample st)
    (fun r => r.1 = st /\ forall mu, NativeModulus W mu -> (mu | 2 * Z.of_nat n) -> (r_method ps <> GINX -> mu = q) ->
       good_bt (HR := HR) arb ps mu qKS base t s rotation_slack (rotation_noise sg ep) beta r.2).
Proof using Hps Hset Hrq.
  intros Hmeth Hd Hauto. destruct (bd_secret Hd) as (Hm & Hm_ & Ht). destruct (bd_ring Hd) as (Hs & Hsg & Hsl & Hep).
  destruct (ms_gadget Hmeth) as (Hg & HgQ & HG & HGq). destruct (ms_fit Hmeth) as [F1 F2]. pose proof (bd_samples Hd) as Hsamp.
  destruct (bs_dims Hset) as [En EN]. destruct (bs_moduli Hset) as [EQ EK]. destruct (bs_base Hset) as [Eb Hb]. destruct (bs_native Hset) as (Hq & HqKS & _). destruct (bs_exponents Hset) as [Hdiv _].
  pose proof (nm_bounds (w := W) (m := q)) as Hqb. pose proof Hs as [Ls Fs].
  unfold Gates.KeyGen. assert (returns (match mode with SYM_ENCRYPT => Ok None | PUB_ENCRYPT => pk ← PubKeyGen lwe (NVec Q s) pkA pke; Ok (Some pk) end) (fun _ => True)) as (pk & -> & _).
  { destruct mode; [by eexists|]. destruct (bd_public Hd eq_refl) as (LA & HA & He).
    eapply returns_bind; [apply (PubKeyGen_spec (q := Q) lwe (NVec Q s) pkA pke); rewrite ?EN; done|]. intros p _. by apply returns_ok. }
  rewrite bind_ok. eapply returns_bind.
  { apply (KeySwitchGen_spec (q := qKS) lwe (secret_key m_) (NVec Q s) gaussA err base); rewrite ?EN, ?En; try done.
    - apply length_tab.
    - split; [done|]. unfold secret_key. cbn [modulus data]. apply Forall_tab. intros i Hi. apply Z.mod_pos_bound. lia.
    - split; [exact rt_modulus|done].
    - apply (bd_masks Hd).
    - intros i j l. apply (bd_errors Hd). }
  intros K HK. cbn beta in HK. rewrite (secret_key_ints m_) in HK by (done || lia).
  rewrite (rp_polyParams Hps). rewrite (proj2 (SetValues_of (HR := HR) (new_poly (ring_par Q psi k) EVALUATION false) COEFFICIENT s COEFFICIENT eq_refl Hs) eq_refl), bind_ok.
  rewrite (SetFormat_of (HR := HR)), bind_ok by done. cbn [fst snd].
  assert (forall bk, g_KSkey bk = Some K -> good_ksk qKS base t (map (centred Q) s) beta bk) as Herr.
  { intros bk Hbk. exists K, (fun i j l => centred qKS (err i j l)). split; [done|]. split; [|apply (bd_errors Hd)].
    apply (ksk_valid_ext _ _ _ _ _ _ err); [|done]. intros. symmetry. apply centred_eqm. }
  destruct (acc_bounds (Q := Q) g Hg G HG HGq ps Hps sg Hsg ep Hep (fun i => t !!! i) nn q) as [Hrn Hrs].
  pose proof (acc_KeyGen_spec (HR := HR) arb g Hg HgQ G HG HGq ps Hps s sg Hs Hsg Hsl ep Hep (fun i => t !!! i) nn q Hq Hrq Hdiv (ms_method Hmeth) m_ sample autoSample Hm Ht Hsamp Hauto) as Hkeys.
  revert Hkeys. destruct (acc_KeyGen arb (r_method ps) autoSample) as [keygen|]; [|by intros (? & ? & _)]. rewrite !bind_ok. intros Hkeys.
  eapply returns_bind; [exact Hkeys|]. intros [st' ek] [Est Hek]. cbn [fst snd] in *. subst st'. apply returns_ok. cbn [fst snd]. split; [done|].
  intros mu Hmu Hmud Hmuq. split; [done|]. split; [done|]. split; [|by apply Herr]. exists ek. split; [done|]. exact (Hek mu Hmu Hmud Hmuq).
Qed.
End Keys.
#[global] Arguments bd_secret {Q k G qKS t m_ s sg ep beta mode pkA pke gaussA err sample}.
#[global] Arguments bd_ring {Q k G qKS t m_ s sg ep beta mode pkA pke gaussA err sample}.
#[global] Arguments bd_masks {Q k G qKS t m_ s sg ep beta mode pkA pke gaussA err sample}.
#[global] Arguments bd_errors {Q k G qKS t m_ s sg ep beta mode pkA pke gaussA err sample}.
#[global] Arguments bd_samples {Q k G qKS t m_ s sg ep beta mode pkA pke gaussA err sample}.
#[global] Arguments bd_public {Q k G qKS t m_ s sg ep beta mode pkA pke gaussA err sample}.
#[global] Arguments ms_gadget {Q g G ps q qKS base t}.
#[global] Arguments ms_method {Q g G ps q qKS base t}.
#[global] Arguments ms_fit {Q g G ps q qKS base t}.

