(* ===== verification/GatesProps.v ===== *)
(** * Properties of the single-key gates *)

From Stdlib Require Import ZArith Lia String.
From stdpp Require Import base tactics numbers list strings gmap.
From S2P Require Import Prelude Double NativeInt NativeIntFacts ModArith NativeVec SchemeCore Negacyclic BitReverse Ntt NttFacts NttSpec NttRing Poly PolyFacts Automorphism Gadget RingNoise RingCoefficients AccCore AccCoreFacts RgswAcc LogTable RgswFacts RgswRotation RgswKeys AutoKeys LmkRotation AccSpec RgswProps Lwe LweProps Gates GatesFacts GatesSpec GatesEval GatesKeys.

(** The setting depends on the choice of the method only. *)
Lemma method_setting_same Q g G ps ps' q qKS base t : same_choice ps ps' -> method_setting (Q := Q) g G ps q qKS base t -> method_setting (Q := Q) g G ps' q qKS base t.
Proof. intros Hs [H1 H2 H3]. split; [done| |done]. by apply (acc_same_choice Q g G ps ps' q (fun i => t !!! i) (length t) 0 0 Hs). Qed.

Lemma mapM_pointwise `{Inhabited A, Inhabited B} (f : A -> res B) l l' : length l = length l' -> (forall i, (i < length l)%nat -> f (l !!! i) = Ok (l' !!! i)) -> mapM f l = Ok l'.
Proof.
  revert l'. induction l as [|x l IH]; intros [|y l'] HL Hf; try done. cbn [mapM]. pose proof (Hf 0%nat ltac:(cbn; lia)) as E0. cbn in E0. rewrite E0, bind_ok.
  rewrite (IH l'), bind_ok; [done|by injection HL|]. intros i Hi. apply (Hf (S i)). cbn. lia.
Qed.

(** The tables and the keys. *)
Lemma keys_made {st : FTT} {Q psi : Z} {k : nat} {HR : RingTransform st Q psi k} arb lwe ps0 g G q qKS base t m_ s sg ep beta mode pkA pke gaussA err sample autoSample :
  base_rgsw (Q := Q) (psi := psi) (k := k) g G ps0 -> bt_setting lwe q Q qKS k (length t) base -> r_q ps0 = q -> method_setting (Q := Q) g G ps0 q qKS base t -> 2 ^ g < Q ->
  bt_draws (Q := Q) (k := k) G qKS t m_ s sg ep beta mode pkA pke gaussA err sample -> auto_draws (Q := Q) (k := k) G ps0 ep autoSample ->
  exists ps EK, RgswAcc.PreCompute arb ps0 false st = Ok (st, ps) /\ rgsw_params ps Q psi k g G /\ r_q ps = q /\
    Gates.KeyGen arb lwe ps (secret_key t m_) mode (NVec Q s) pkA pke gaussA err sample autoSample st = Ok (st, EK) /\
    forall mu, NativeModulus W mu -> (mu | 2 * Z.of_nat (2 ^ k)) -> (r_method ps0 <> GINX -> mu = q) ->
      good_bt (HR := HR) arb ps mu qKS base t s (rotation_slack ps0 t) (rotation_noise (Q := Q) g G ps0 q t sg ep) beta EK.
Proof.
  intros Hbase Hset Hrq Hmeth0 HgQ Hd Hauto. destruct (ms_gadget Hmeth0) as (Hg & _).
  destruct (PreCompute_rgsw (HR := HR) arb g G ps0 Hg HgQ Hbase) as (ps & E & Hps & Hsame).
  pose proof (method_setting_same _ _ _ _ _ _ _ _ _ Hsame Hmeth0) as Hmeth. destruct (acc_same_choice Q g G ps0 ps q (fun i => t !!! i) (length t) sg ep Hsame) as (_ & Es & En). destruct Hsame as (E1 & E2 & _). assert (r_q ps = q) as Hrq' by congruence.
  destruct (KeyGen_spec (HR := HR) arb g G lwe ps Hps q qKS base t Hset Hrq' m_ s sg ep beta mode pkA pke gaussA err sample autoSample Hmeth Hd ltac:(unfold auto_draws; by rewrite E1)) as ([st' EK] & E' & Est & HEK).
  cbn [fst snd] in *. subst st'. exists ps, EK. split; [done|]. split; [done|]. split; [done|]. split; [done|].
  unfold rotation_noise, rotation_slack in *. by rewrite E1, Es, En in HEK.
Qed.

Section Secret.
Context {q : Z} {Hq : NativeModulus W q} (t : list Z) (m_ : Z) (Hm : 3 <= m_) (Hm_ : NativeModulus W m_) (Ht : forall i, (i < length t)%nat -> -1 <= t !!! i <= 1).

Lemma secret_key_wf : wf_vec W (secret_key t m_) /\ length (data (secret_key t m_)) = length t.
Proof using Hm Hm_.
  split; [|apply length_tab]. split; [done|]. unfold secret_key. cbn [modulus data]. apply Forall_tab. intros i Hi. apply Z.mod_pos_bound. lia.
Qed.

(** A fresh encryption of a bit, and the decryption of a bit. *)
Lemma fresh_bit m p e a : is_bit m -> 2 <= p <= q -> wf_mask q (length t) a -> reduced q e -> (Z.of_nat (length t) + 2) * q < 2 ^ 64 ->
  returns (Encrypt (secret_key t m_) m p q e a) (ct_holds q t p m (centred q e)).
Proof using All.
  intros Hb Hp Ha He Hfit. destruct secret_key_wf as [Wsk Lsk]. eapply returns_mono; [apply (Encrypt_spec (q := q)); rewrite ?Lsk; (done || lia)|].
  intros ct (Wct & _ & Pct & Phct). rewrite (secret_key_ints t m_) in Phct by done. rewrite Lsk in Wct. split; [done|]. split; [done|].
  rewrite Phct, centred_eqm. unfold plaintext. destruct Hb as [-> | ->]; [change (0 mod 2 ^ 64) with 0|change (1 mod 2 ^ 64) with 1]; by rewrite Z.mod_small by lia.
Qed.

Lemma decrypt_bit m p e ct : is_bit m -> 2 <= p -> wf_ct q (length t) ct -> phase t ct ≡[q] m * (q / p) + e -> 2 * p * (Z.abs e + p) < q ->
  Z.of_nat (length t) * q < 2 ^ 64 -> p * q <= 2 ^ 64 -> Decrypt (secret_key t m_) ct p = Ok m.
Proof using All.
  intros Hb Hp Hct Hph He Hfit Hpq. destruct secret_key_wf as [Wsk Lsk].
  rewrite (Decrypt_spec (q := q)), (secret_key_ints t m_) by (rewrite ?Lsk; (done || lia)). f_equal.
  apply round_phase_correct with (e := e); try done; destruct Hb; lia.
Qed.
End Secret.

(** C3: circuits on fresh ciphertexts.  With the tables of [PreCompute] and the
    keys of [KeyGen], for each of the three methods and for any ternary
    secret and small draws, encrypting bits, running any straight-line program over NOT,
    the two-input gates, CMUX and [Bootstrap], and decrypting every wire gives
    what the program computes on bits: no operation fails, and the noise does
    not accumulate. *)
Theorem circuits_correct (st : FTT) (Q psi : Z) (k : nat) (arb : FTT -> NativePoly -> res (FTT * NativePoly)) (lwe : LWECryptoParams) (ps0 : RingGSWCryptoParams)
    (g : Z) (G : nat) (q qKS : Z) (base : nat) (t : list Z) (m_ : Z) (s : list Z) (sg ep beta : Z) (mode : KEYGEN_MODE) (pkA : list NativeVector) (pke : NativeVector)
    (gaussA : nat -> nat -> nat -> NativeVector) (err : nat -> nat -> nat -> Z) (sample : nat -> nat -> nat -> RgswSample)
    (autoSample : nat -> nat -> NativeVector * NativeVector) (ms : list Z) (errs : nat -> Z) (masks : nat -> NativeVector) (prog : list instr) (E : Z) :
  RingTransform st Q psi k -> base_rgsw (Q := Q) (psi := psi) (k := k) g G ps0 -> bt_setting lwe q Q qKS k (length t) base -> r_q ps0 = q ->
  method_setting (Q := Q) g G ps0 q qKS base t -> 2 ^ g < Q ->
  bt_draws (Q := Q) (k := k) G qKS t m_ s sg ep beta mode pkA pke gaussA err sample -> auto_draws (Q := Q) (k := k) G ps0 ep autoSample ->
  (forall i, (i < length ms)%nat -> is_bit (ms !!! i) /\ wf_mask q (length t) (masks i) /\ reduced q (errs i) /\ Z.abs (centred q (errs i)) <= E) ->
  boot_noise (Q := Q) q qKS base t s (rotation_noise (Q := Q) g G ps0 q t sg ep) beta <= E -> 32 * E + 8 * rotation_slack ps0 t < q -> 64 <= q ->
  (Z.of_nat (length t) + 2) * q < 2 ^ 64 -> prog_ok (length ms) prog ->
  let sk := secret_key t m_ in
  (ps ← RgswAcc.PreCompute arb ps0 false st;
   bk ← Gates.KeyGen arb lwe ps.2 sk mode (NVec Q s) pkA pke gaussA err sample autoSample ps.1;
   cts ← tabulateM (length ms) (fun i => Encrypt sk (ms !!! i) 4 q (errs i) (masks i));
   r ← run arb lwe ps.2 bk.2 prog (bk.1, cts);
   mapM (fun ct => Decrypt sk ct 4) r.2) = Ok (run_bits prog ms).
Proof.
  intros HR Hbase Hset Hrq0 Hmeth0 HgQ Hd Hauto Hms HE HEq Hq64 Hfit Hprog sk. subst sk.
  destruct (keys_made arb lwe ps0 g G q qKS base t m_ s sg ep beta mode pkA pke gaussA err sample autoSample Hbase Hset Hrq0 Hmeth0 HgQ Hd Hauto) as (ps & EK & -> & Hps & Hrq & Ekg & HEK').
  rewrite bind_ok. cbn [fst snd]. rewrite Ekg, bind_ok. clear Ekg. cbn [fst snd].
  destruct (bd_secret Hd) as (Hm & Hm_ & Ht). destruct (bd_ring Hd) as (Hs & _). destruct (bs_native Hset) as (Hq & _). pose proof (HEK' q Hq (proj1 (bs_exponents Hset)) ltac:(done)) as HEK. destruct (half_exists (HR := HR) lwe q qKS base t Hset) as (_ & _ & Hq26).
  destruct (tabulateM_returns (length ms) (fun i => Encrypt (secret_key t m_) (ms !!! i) 4 q (errs i) (masks i)) (fun i => ct_bit q t E (ms !!! i))) as (cts & -> & Lcts & Hcts).
  { intros i Hi. destruct (Hms i Hi) as (Hb & Hmask & Herr & HeE). eapply returns_mono; [apply (fresh_bit (q := q)); (done || lia)|]. intros ct Hct. by exists (centred q (errs i)). }
  rewrite bind_ok. destruct (run_spec (HR := HR) arb lwe ps g G Hps q qKS base t Hset Hrq ltac:(lia) s Hs _ _ beta EK HEK E HE ltac:(unfold gate_margin; lia) prog ms cts Hprog) as ([st' w] & -> & _ & Lw & Hw).
  { split; [done|]. intros i Hi. split; [by apply Hms|by apply Hcts]. }
  rewrite bind_ok. cbn [snd] in *. apply mapM_pointwise; [done|]. intros i Hi. rewrite Lw in Hi. destruct (Hw i Hi) as (Hb & e & He & Wct & _ & Phct).
  destruct HEK as [Hsl _]. apply (decrypt_bit (q := q) t m_ ltac:(lia) Hm_ Ht _ 4 e); (done || lia).
Qed.

(** C13: the gates on vectors.  On fresh encryptions modulo [p] of three or four
    bits, with [p = 4] for MAJORITY, 6 for AND3 and OR3, 8 for AND4 and OR4,
    [EvalBinGate] returns a ciphertext that decrypts modulo [p] to the threshold
    of the number of ones; but its plaintext modulus is recorded as 4. *)
Theorem vector_gates_correct (st : FTT) (Q psi : Z) (k : nat) (arb : FTT -> NativePoly -> res (FTT * NativePoly)) (lwe : LWECryptoParams) (ps0 : RingGSWCryptoParams)
    (g : Z) (G : nat) (q qKS : Z) (base : nat) (t : list Z) (m_ : Z) (s : list Z) (sg ep beta : Z) (mode : KEYGEN_MODE) (pkA : list NativeVector) (pke : NativeVector)
    (gaussA : nat -> nat -> nat -> NativeVector) (err : nat -> nat -> nat -> Z) (sample : nat -> nat -> nat -> RgswSample)
    (autoSample : nat -> nat -> NativeVector * NativeVector) (gate : BINGATE) (ms : nat -> Z) (errs : nat -> Z) (masks : nat -> NativeVector) (E : Z) :
  RingTransform st Q psi k -> base_rgsw (Q := Q) (psi := psi) (k := k) g G ps0 -> bt_setting lwe q Q qKS k (length t) base -> r_q ps0 = q ->
  method_setting (Q := Q) g G ps0 q qKS base t -> 2 ^ g < Q ->
  bt_draws (Q := Q) (k := k) G qKS t m_ s sg ep beta mode pkA pke gaussA err sample -> auto_draws (Q := Q) (k := k) G ps0 ep autoSample ->
  vector_gate gate = true ->
  (forall i, (i < arity gate)%nat -> is_bit (ms i) /\ wf_mask q (length t) (masks i) /\ reduced q (errs i) /\ Z.abs (centred q (errs i)) <= E) ->
  let p := gate_p gate in let noise := boot_noise (Q := Q) q qKS base t s (rotation_noise (Q := Q) g G ps0 q t sg ep) beta in
  2 * p * (Z.of_nat (arity gate) * E + rotation_slack ps0 t) + 2 * Z.of_nat (arity gate) * (q mod p) + gate_num gate * (q mod (2 * p)) < q -> 2 * p * (noise + p) < q -> 8 <= q ->
  (Z.of_nat (length t) + 2) * q < 2 ^ 64 ->
  let sk := secret_key t m_ in
  (ps ← RgswAcc.PreCompute arb ps0 false st;
   bk ← Gates.KeyGen arb lwe ps.2 sk mode (NVec Q s) pkA pke gaussA err sample autoSample ps.1;
   cts ← tabulateM (arity gate) (fun i => Encrypt sk (ms i) p q (errs i) (masks i));
   r ← EvalBinGate_vector arb lwe ps.2 gate bk.2 false cts bk.1;
   m ← Decrypt sk r.2 p;
   Ok (m, ct_p r.2)) = Ok (if threshold gate <=? sumZ (arity gate) ms then 1 else 0, 4).
Proof.
  intros HR Hbase Hset Hrq0 Hmeth0 HgQ Hd Hauto Hg Hms p noise Hmar Hout Hq8 Hfit sk. subst sk.
  destruct (keys_made arb lwe ps0 g G q qKS base t m_ s sg ep beta mode pkA pke gaussA err sample autoSample Hbase Hset Hrq0 Hmeth0 HgQ Hd Hauto) as (ps & EK & -> & Hps & Hrq & Ekg & HEK').
  rewrite bind_ok. cbn [fst snd]. rewrite Ekg, bind_ok. clear Ekg. cbn [fst snd].
  destruct (bd_secret Hd) as (Hm & Hm_ & Ht). destruct (bd_ring Hd) as (Hs & _). destruct (bs_native Hset) as (Hq & _). pose proof (HEK' q Hq (proj1 (bs_exponents Hset)) ltac:(done)) as HEK. destruct (half_exists (HR := HR) lwe q qKS base t Hset) as (_ & _ & Hq26).
  assert (4 <= p <= 8 /\ (3 <= arity gate <= 4)%nat) as [Hp Har] by (unfold p; destruct gate; try discriminate Hg; cbn; lia).
  destruct (tabulateM_returns (arity gate) (fun i => Encrypt (secret_key t m_) (ms i) p q (errs i) (masks i)) (fun i => ct_holds q t p (ms i) (centred q (errs i)))) as (cts & -> & Lcts & Hcts).
  { intros i Hi. destruct (Hms i Hi) as (Hb & Hmask & Herr & HeE). apply (fresh_bit (q := q)); (done || lia). }
  rewrite bind_ok. destruct (EvalBinGate_vector_spec (HR := HR) arb lwe ps g G Hps q qKS base t Hset Hrq Hq8 s Hs _ _ beta EK HEK gate cts ms E Hg Lcts) as ([st' ct] & -> & _ & Wct & Pct & e & He & Phct).
  - by destruct (Hcts 0%nat ltac:(lia)) as (_ & Hp0 & _).
  - unfold vector_margin. fold p. lia.
  - intros i Hi. destruct (Hcts i Hi) as (Wi & _ & Phi). destruct (Hms i Hi) as (Hb & _ & _ & HeE). split; [done|]. split; [done|]. by exists (centred q (errs i)).
  - rewrite bind_ok. cbn [snd] in *. rewrite Pct. set (m := if threshold gate <=? sumZ (arity gate) ms then 1 else 0) in *.
    assert (Decrypt (secret_key t m_) ct p = Ok m) as ->; [|done].
    apply (decrypt_bit (q := q) t m_ ltac:(lia) Hm_ Ht m p e); [|lia|exact Wct|exact Phct| |lia|nia].
    + unfold m. destruct (_ <=? _); [by right|by left].
    + fold noise in He. assert (2 * p * (Z.abs e + p) <= 2 * p * (noise + p)) by (apply Z.mul_le_mono_nonneg_l; lia). lia.
Qed.

Definition demo_lwe : LWECryptoParams := LWEParams 1 64 128 1073741441 1048576 32.
Lemma demo_setting : bt_setting demo_lwe 128 1073741441 1048576 6 1 32.
Proof.
  assert (NativeModulus W 128) as H1 by (apply native_modulus_bits; unfold W; lia).
  assert (NativeModulus W 1048576) as H2 by (apply native_modulus_bits; unfold W; lia).
  split; repeat match goal with |- _ /\ _ => split end; first [done|cbn; lia|by exists 1|by exists 64|idtac].
Qed.

Lemma demo_method : method_setting (Q := 1073741441) 15 1 demo_ps 128 1048576 32 [1].
Proof. split; [|by left|]; cbn; lia. Qed.

Lemma demo_draws : bt_draws (Q := 1073741441) (k := 6) 1 1048576 [1] 512 demo_one 1 1 2 SYM_ENCRYPT [] (NVec 0 [])
  (fun _ _ _ => NVec 1048576 [5]) (fun _ _ _ => 2) demo_sample.
Proof.
  destruct demo_one_wf as [H1 H2]. split; try done.
  - split; [done|]. split; [apply native_modulus_bits; unfold W; lia|]. intros [|i] Hi; cbn in *; lia.
  - intros. by apply wf_mask_check.
  - intros u v i. exists demo_one, (fun _ => demo_one). split; [|by intros]. by split.
Qed.

Lemma circuits_correct_witness : exists st, RingTransform st 1073741441 293845527 6 /\
  (ps ← RgswAcc.PreCompute (fun s p => Ok (s, p)) demo_ps false st;
   bk ← Gates.KeyGen (fun s p => Ok (s, p)) demo_lwe ps.2 (secret_key [1] 512) SYM_ENCRYPT (NVec 1073741441 demo_one) [] (NVec 0 [])
          (fun _ _ _ => NVec 1048576 [5]) (fun _ _ _ => 2) demo_sample (fun _ _ => (NVec 0 [], NVec 0 [])) ps.1;
   cts ← tabulateM 2 (fun i => Encrypt (secret_key [1] 512) (([1; 1] : list Z) !!! i) 4 128 1 (NVec 128 [100]));
   r ← run (fun s p => Ok (s, p)) demo_lwe ps.2 bk.2 [IGate XOR 0 1; IGate AND 0 1; IMux 2 3 0; INot 4] (bk.1, cts);
   mapM (fun ct => Decrypt (secret_key [1] 512) ct 4) r.2) = Ok [1; 1; 0; 1; 1; 0].
Proof.
  destruct ring1073741441 as [st HR]. exists st. split; [exact HR|].
  refine (circuits_correct st 1073741441 293845527 6 (fun s p => Ok (s, p)) demo_lwe demo_ps 15 1 128 1048576 32 [1] 512 demo_one 1 1 2 SYM_ENCRYPT [] (NVec 0 [])
    (fun _ _ _ => NVec 1048576 [5]) (fun _ _ _ => 2) demo_sample (fun _ _ => (NVec 0 [], NVec 0 [])) [1; 1] (fun _ => 1) (fun _ => NVec 128 [100])
    [IGate XOR 0 1; IGate AND 0 1; IMux 2 3 0; INot 4] 3 HR demo_base demo_setting eq_refl demo_method _ demo_draws _ _ _ _ _ _ _).
  - done.
  - done.
  - intros i Hi. split; [destruct i as [|[|i]]; cbn in *; (by right) || lia|]. split; [by apply wf_mask_check|done].
  - vm_compute. discriminate.
  - done.
  - done.
  - done.
  - cbn. lia.
Defined.

(** The same for LMKCDEY, with two entries of the secret and one key for the
    powers of 5. *)
Definition demo_lwe2 : LWECryptoParams := LWEParams 2 64 128 1073741441 1048576 32.
Lemma demo_lmk_setting : bt_setting demo_lwe2 128 1073741441 1048576 6 2 32.
Proof. destruct demo_setting as [H1 H2 H3 H4 H5 H6]. by split. Qed.

Lemma demo_lmk_base : base_rgsw (Q := 1073741441) (psi := 293845527) (k := 6) 15 1 demo_lmk.
Proof. split; try done. right. right. split; [done|lia]. Qed.

Lemma demo_lmk_method : method_setting (Q := 1073741441) 15 1 demo_lmk 128 1048576 32 [1; 0].
Proof. split; [|right; right; split; [done|]|]; cbn; lia. Qed.

Lemma demo_lmk_draws : bt_draws (Q := 1073741441) (k := 6) 1 1048576 [1; 0] 512 demo_one 1 1 2 SYM_ENCRYPT [] (NVec 0 [])
  (fun _ _ _ => NVec 1048576 [5; 6]) (fun _ _ _ => 2) demo_sample.
Proof.
  destruct demo_draws as [(H1 & H2 & _) H3 _ H5 H6 _]. split; try done.
  - split; [done|]. split; [done|]. intros [|[|i]] Hi; cbn in *; lia.
  - intros. by apply wf_mask_check.
Qed.

Lemma vector_gates_correct_witness : exists st, RingTransform st 1073741441 293845527 6 /\
  (ps ← RgswAcc.PreCompute (fun s p => Ok (s, p)) demo_lmk false st;
   bk ← Gates.KeyGen (fun s p => Ok (s, p)) demo_lwe2 ps.2 (secret_key [1; 0] 512) SYM_ENCRYPT (NVec 1073741441 demo_one) [] (NVec 0 [])
          (fun _ _ _ => NVec 1048576 [5; 6]) (fun _ _ _ => 2) demo_sample (fun _ _ => (NVec 1073741441 demo_one, NVec 1073741441 demo_one)) ps.1;
   cts ← tabulateM 3 (fun i => Encrypt (secret_key [1; 0] 512) 1 6 128 0 (NVec 128 [100; 7]));
   r ← EvalBinGate_vector (fun s p => Ok (s, p)) demo_lwe2 ps.2 AND3 bk.2 false cts bk.1;
   m ← Decrypt (secret_key [1; 0] 512) r.2 6;
   Ok (m, ct_p r.2)) = Ok (1, 4).
Proof.
  destruct ring1073741441 as [st HR]. exists st. split; [exact HR|].
  refine (vector_gates_correct st 1073741441 293845527 6 (fun s p => Ok (s, p)) demo_lwe2 demo_lmk 15 1 128 1048576 32 [1; 0] 512 demo_one 1 1 2 SYM_ENCRYPT [] (NVec 0 [])
    (fun _ _ _ => NVec 1048576 [5; 6]) (fun _ _ _ => 2) demo_sample (fun _ _ => (NVec 1073741441 demo_one, NVec 1073741441 demo_one)) AND3 (fun _ => 1) (fun _ => 0)
    (fun _ => NVec 128 [100; 7]) 0 HR demo_lmk_base demo_lmk_setting eq_refl demo_lmk_method _ demo_lmk_draws (fun _ => demo_auto_good) _ _ _ _ _ _).
  - done.
  - done.
  - intros i Hi. split; [by right|]. split; [by apply wf_mask_check|done].
  - vm_compute. done.
  - vm_compute. done.
  - done.
  - done.
Defined.
