(* ===== verification/FuncSpec.v ===== *)
(** * Function evaluation with the single-key scheme

    [BootstrapFunc] maps a ciphertext whose phase is [y] to one whose phase is
    the value of the function at [y], under another modulus, when the function
    and its half turn add up to that modulus.  [EvalFunc] for the three kinds
    of tables and [EvalFloor] are compositions of it. *)

From Stdlib Require Import ZArith Znumtheory Lia String.
From stdpp Require Import base tactics numbers list strings gmap.
From S2P Require Import Prelude Double NativeInt NativeIntFacts ModArith NativeVec SchemeCore Negacyclic BitReverse Ntt NttFacts NttSpec NttRing Poly PolyFacts Automorphism Gadget RingNoise RingCoefficients AccCore AccCoreFacts RgswAcc RgswFacts RgswRotation Lwe Gates GatesFacts GatesSpec GatesEval.

(** ** Values

    The value [h] under the modulus [fm], scaled by [Q / fm] and back. *)
Lemma scaled_value Q qKS fm h z w ph phi c R Bd : 0 < fm < Q -> 0 < qKS -> 0 <= h <= fm -> Z.abs z <= Bd ->
  w = Q / fm * h \/ w = - (Q / fm * (fm - h)) -> ph ≡[Q] w + z -> 2 * Z.abs (Q * qKS * (phi + c * fm) - fm * qKS * ph) <= R ->
  exists e, Z.abs e <= (2 * fm * qKS * (Bd + 2 * fm) + R) / (2 * Q * qKS) /\ phi ≡[fm] h + e.
Proof.
  intros [Hfm HQ] HK Hh Hz Hw [j Ej]%eqm_iff HR. pose proof (Z.div_mod Q fm ltac:(lia)) as E1. pose proof (Z.mod_pos_bound Q fm Hfm) as B1.
  set (A := Q / fm) in *. set (r := Q mod fm) in *. set (delta := Q * qKS * (phi + c * fm) - fm * qKS * ph) in *.
  assert (exists u j', ph = A * h + u + j' * Q /\ Z.abs u <= Bd + fm) as (u & j' & Eph & Hu).
  { destruct Hw as [-> | ->]; [exists z, j|exists (z + r), (j - 1)]; (split; [|lia]); rewrite Ej; [ring|]. replace (- (A * (fm - h))) with (A * h - fm * A) by ring. lia. }
  exists (phi + (c - j') * fm - h). split; [|apply eqm_iff; exists (j' - c); ring]. set (e := phi + (c - j') * fm - h).
  assert (Q * qKS * e = delta + fm * qKS * u - qKS * (h * r)) as Ee.
  { unfold e, delta. rewrite Eph. transitivity (Q * qKS * (phi + c * fm) - j' * fm * Q * qKS - h * qKS * Q); [ring|].
    transitivity (Q * qKS * (phi + c * fm) - fm * qKS * (A * h + u + j' * Q) + fm * qKS * u - qKS * h * (Q - fm * A)); [ring|]. replace (Q - fm * A) with r by lia. ring. }
  assert (0 < Q * qKS /\ 0 < fm * qKS) as [P1 P2] by nia. apply Z.div_le_lower_bound; [lia|].
  assert (Z.abs (fm * qKS * u) <= fm * qKS * (Bd + fm)) as H1 by (rewrite Z.abs_mul, (Z.abs_eq (fm * qKS)) by lia; apply Z.mul_le_mono_nonneg_l; lia).
  assert (0 <= qKS * (h * r) <= qKS * (fm * fm)) as H2.
  { assert (0 <= h * r <= fm * fm) by (split; [apply Z.mul_nonneg_nonneg|apply Z.mul_le_mono_nonneg]; lia). split; [apply Z.mul_nonneg_nonneg|apply Z.mul_le_mono_nonneg_l]; lia. }
  assert (Q * qKS * Z.abs e = Z.abs (Q * qKS * e)) as E2 by (rewrite Z.abs_mul, (Z.abs_eq (Q * qKS)); lia). rewrite Ee in E2. lia.
Qed.

Section Functions.
Context {st : FTT} {Q psi : Z} {k : nat} {HR : RingTransform st Q psi k} (arb : FTT -> NativePoly -> res (FTT * NativePoly)).
Context (lwe : LWECryptoParams) (q qKS : Z) (base : nat) (t : list Z) (Hset : bt_setting lwe q Q qKS k (length t) base).
Context (hN slack bound beta : Z).
Abbreviation n := (2 ^ k)%nat.
Abbreviation nn := (length t).
Abbreviation wf := (wf_data (q := Q) k).

#[local] Instance func_ring_modulus : NativeModulus W Q.
Proof using HR. exact rt_modulus. Qed.

(** A modulus of the ciphertexts that the accumulator can turn, one of the
    results, and the keys for every one of them.  The secret of the ring is that
    of the keys; [hN] bounds its norm. *)
Record in_modulus (mu : Z) : Prop := { im_native : NativeModulus W mu; im_turns : (mu | 2 * Z.of_nat n); im_even : (2 | mu) }.
Record out_modulus (fm : Z) : Prop := { om_range : 0 < fm < Q; om_inexact : Q mod fm <> 0; om_fit : 6 * qKS * fm + 3 * qKS + fm < 2 ^ 53 }.
Definition good_keys (ps : RingGSWCryptoParams) (EK : RingGSWBTKey) : Prop :=
  (exists g G, rgsw_params ps Q psi k g G) /\ exists s, wf s /\ norm1 (map (centred Q) s) <= hN /\ forall mu, NativeModulus W mu -> (mu | 2 * Z.of_nat n) -> good_bt (HR := HR) arb ps mu qKS base t s slack bound beta EK.

Definition switch_noise (fm : Z) : Z :=
  Q * qKS * (1 + norm1 t) + fm * Q * (1 + hN) + 2 * fm * Q * (Z.of_nat n * (Z.of_nat (digit_count (Z.of_nat base) qKS) * beta)).
Definition func_noise (fm : Z) : Z := (2 * fm * qKS * (bound + 2 * fm) + switch_noise fm) / (2 * Q * qKS).

(** The functions that one bootstrapping evaluates. *)
Definition half_turn_sum (mu fm : Z) (f : lut_function) (h : Z -> Z) : Prop :=
  (forall x, 0 <= x < mu -> f x mu fm = Ok (h x) /\ 0 <= h x <= fm) /\ (forall x, 0 <= x < mu / 2 -> h x + h (x + mu / 2) = fm).

(** The value at the point [x] of the test vector that starts at [b]. *)
Definition test_value (mu fm b : Z) (h : Z -> Z) (x : Z) : Z :=
  if (b - x) mod mu <? mu / 2 then Q / fm * h x else - (Q / fm * h ((x + mu / 2) mod mu)).

Lemma test_value_turns mu fm b h : 0 < mu -> (2 | mu) -> half_turns Q mu (mu / 2) (fun x => test_value mu fm b h x).
Proof using Type.
  clear. intros Hmu [c Hc] x. rewrite Hc, Z.div_mul in * by lia. unfold test_value. rewrite !Z.div_mul by lia.
  assert ((b - (x + c) mod (c * 2)) mod (c * 2) = (b - x mod (c * 2) - c) mod (c * 2)) as ->.
  { change (b - (x + c) mod (c * 2) ≡[c * 2] b - x mod (c * 2) - c). rewrite !eqm_mod. apply eqm_refl. ring. }
  set (y := b - x mod (c * 2)). pose proof (Z.mod_pos_bound y (c * 2) ltac:(lia)) as By.
  assert (((x + c) mod (c * 2) + c) mod (c * 2) = x mod (c * 2)) as ->.
  { change ((x + c) mod (c * 2) + c ≡[c * 2] x). rewrite eqm_mod. apply eqm_iff. exists 1. ring. }
  assert ((x mod (c * 2) + c) mod (c * 2) = (x + c) mod (c * 2)) as ->.
  { change (x mod (c * 2) + c ≡[c * 2] x + c). by rewrite eqm_mod. }
  destruct (Z.ltb_spec (y mod (c * 2)) c) as [Hl|Hl].
  - assert ((y - c) mod (c * 2) = y mod (c * 2) + c) as ->; [|rewrite (proj2 (Z.ltb_ge _ _)) by lia; done].
    symmetry. apply (Z.mod_unique_pos _ _ (y / (c * 2) - 1)); [lia|]. pose proof (Z.div_mod y (c * 2) ltac:(lia)). lia.
  - assert ((y - c) mod (c * 2) = y mod (c * 2) - c) as ->; [|rewrite (proj2 (Z.ltb_lt _ _)) by lia; apply eqm_refl; ring].
    symmetry. apply (Z.mod_unique_pos _ _ (y / (c * 2))); [lia|]. pose proof (Z.div_mod y (c * 2) ltac:(lia)). lia.
Qed.

(** On the half that the test vector holds, and on the other one. *)
Lemma test_value_cases mu fm b f h x : 0 < mu -> (2 | mu) -> half_turn_sum mu fm f h -> 0 <= x < mu ->
  0 <= h x <= fm /\ (test_value mu fm b h x = Q / fm * h x \/ test_value mu fm b h x = - (Q / fm * (fm - h x))).
Proof using Type.
  clear. intros Hmu [c Hc] [Hf Hsum] Hx. rewrite Hc, Z.div_mul in * by lia. split; [by apply Hf|]. unfold test_value. rewrite !Z.div_mul by lia.
  destruct (_ <? c); [by left|]. right. do 2 f_equal. destruct (Z.lt_ge_cases x c).
  - rewrite Z.mod_small by lia. pose proof (Hsum x ltac:(lia)). lia.
  - assert ((x + c) mod (c * 2) = x - c) as -> by (symmetry; apply (Z.mod_unique_pos _ _ 1); lia). pose proof (Hsum (x - c) ltac:(lia)) as E. rewrite Z.sub_add in E. lia.
Qed.

(** The ciphertext in the accumulator: as [extract_acc] finds it, without a
    constant. *)
Lemma extract_plain s c0 c1 : wf s -> wf c0 -> wf c1 -> exists ext, wf_ct Q n ext /\ phase (map (centred Q) s) ext ≡[Q] rlwe_phase (q := Q) (k := k) s c0 c1 !!! 0%nat /\
  forall A (K : FTT -> LWECiphertext -> res A),
    (a ← Transpose (poly_of Q psi k EVALUATION c0); a ← SetFormat arb st a COEFFICIENT; c ← SetFormat arb a.1 (poly_of Q psi k EVALUATION c1) COEFFICIENT;
     v ← GetValues a.2; x ← p_get c.2 0; K c.1 (new_LWECiphertext v x)) = K st ext.
Proof using HR.
  clear Hset. intros Hs H0 H1. assert (0 < n)%nat as Hn by apply pow2_pos_nat. pose proof (nm_bounds (w := W) (m := Q)) as BQ. pose proof (entry_reduced k c1 0 H1) as R1.
  destruct (extract_sample_spec (HR := HR) arb s Hs 0 c0 c1 ltac:(split; lia) H0 H1) as ([st' ext] & E & Est & Hext & _ & Pext). cbn [fst snd] in *. subst st'.
  exists ext. split; [done|]. split; [done|]. intros A K. revert E. unfold extract_acc. cbn [fst snd].
  pose proof (raut_wf (q := Q) k (2 * Z.of_nat n - 1) c0 H0) as Wt.
  rewrite (Transpose_of (HR := HR)), !bind_ok by done. rewrite (SetFormat_of (HR := HR)), !bind_ok by done. cbn [fst snd]. rewrite (SetFormat_of (HR := HR)), !bind_ok by done. cbn [fst snd].
  assert (p_get (poly_of Q psi k COEFFICIENT c1) 0 = Ok (c1 !!! 0%nat)) as -> by (apply p_get_at; destruct H1; lia). cbn [GetValues poly_of p_values]. rewrite !bind_ok.
  assert (ModAddFastEq W 0 (c1 !!! 0%nat) Q = (0 + c1 !!! 0%nat) mod Q) as -> by (apply (nm_add (w := W)); (done || split; lia)).
  rewrite Z.add_0_l, (Z.mod_small (c1 !!! 0%nat)) by done. by intros [= <-].
Qed.

(** ** One bootstrapping with a function *)
Theorem BootstrapFunc_spec ps EK mu fm f h ct : good_keys ps EK -> in_modulus mu -> out_modulus fm -> half_turn_sum mu fm f h -> wf_ct mu nn ct ->
  returns (BootstrapFunc arb lwe ps EK ct f fm st) (fun r => r.1 = st /\ wf_ct fm nn r.2 /\ ct_p r.2 = 4 /\
    exists d e, Z.abs d <= slack /\ Z.abs e <= func_noise fm /\ phase t r.2 ≡[fm] h ((phase t ct - d) mod mu) + e).
Proof using Hset.
  intros [(g & G & Hps) (s & Hs & HhN & Hk)] [Hmu Hdiv Hev] [Hfm Hr Hfit] Hf Hct. destruct (Hk mu Hmu Hdiv) as (Hsl & Hbd & (ek & EB & Hek) & HK). pose proof Hev as [c Hc].
  pose proof (nm_bounds (w := W) (m := mu)) as Bmu. pose proof (nm_bounds (w := W) (m := Q)) as BQ. pose proof (nm_double (w := W) (m := Q)) as BQ2. change (2 ^ W) with (2 ^ 64) in BQ2.
  destruct (bs_dims Hset) as [En EN]. destruct (bs_moduli Hset) as [EQ EqKS]. destruct (bs_base Hset) as [Eb Hb]. destruct (bs_fit Hset) as [F1 _]. destruct (bs_native Hset) as (_ & HqKS & _).
  pose proof (nm_bounds (w := W) (m := qKS)) as HKb. assert (mu / 2 = Z.of_nat (Z.to_nat c)) as Ec by (rewrite Hc, Z.div_mul; lia).
  assert (GetModulus ct = mu) as Em by (by destruct Hct as [(? & _) _]). assert (0 <= ct_b ct < mu) as Bb by apply Hct.
  unfold BootstrapFunc, BootstrapFuncCore. rewrite EB, Em, EQ, EN. rewrite Z.shiftr_div_pow2 by lia. change (2 ^ 1) with 2. rewrite Ec, Nat2Z.id.
  eapply returns_bind.
  { apply (rotation_value (HR := HR) arb ps g G Hps s Hs mu t slack bound (Z.to_nat c) Hmu ltac:(lia) Hdiv ek ct _ (fun x => (test_value mu fm (ct_b ct) h x) mod Q) Hek Hct).
    - intros x. cbn beta. rewrite <- Ec. transitivity (test_value mu fm (ct_b ct) h ((x + mu / 2) mod mu)); [apply eqm_mod|].
      etransitivity; [exact (test_value_turns mu fm (ct_b ct) h ltac:(lia) Hev x)|]. f_equiv. symmetry. apply eqm_mod.
    - intros j Hj x. assert (0 <= x < mu) as Hx by (apply Z.mod_pos_bound; lia). destruct Hf as [Hf _]. destruct (Hf x Hx) as [-> Hhx].
      assert ((ct_b ct - x) mod mu = Z.of_nat j) as Ej by (unfold x; rewrite Zminus_mod_idemp_r, Z.mod_small; lia).
      unfold test_value. rewrite Ej, Ec, (proj2 (Z.ltb_lt _ _)) by lia. pose proof (Z.div_mod Q fm ltac:(lia)). pose proof (Z.mod_pos_bound Q fm (proj1 Hfm)).
      assert (0 <= Q / fm) by (apply Z.div_pos; lia). assert (0 <= Q / fm * h x <= Q / fm * fm) by (split; [apply Z.mul_nonneg_nonneg|apply Z.mul_le_mono_nonneg_l]; lia).
      unfold udiv. rewrite (proj2 (Z.eqb_neq fm 0)), !bind_ok by lia. unfold Mul, MulFast. cbn [NATIVEINT_DO_CHECKS]. rewrite wrap_small, (Z.mod_small _ Q) by (change (2 ^ W) with (2 ^ 64); lia).
      split; [by rewrite Z.mul_comm|]. split; lia. }
  intros [st' [a0 a1]] (Est & dd & c0 & c1 & z & Hdd & Hz & Eacc & W0 & W1 & Ez). cbn [fst snd] in *. subst st'. injection Eacc as -> ->.
  destruct (test_value_cases mu fm (ct_b ct) f h ((phase t ct - dd) mod mu) ltac:(lia) Hev Hf ltac:(apply Z.mod_pos_bound; lia)) as [Hhx Hcase].
  set (x := (phase t ct - dd) mod mu) in *. destruct (extract_plain s c0 c1 Hs W0 W1) as (ext & Hext & Pext & Hk0).
  rewrite (Hk0 _ (fun st' ext => ct' ← switch_back lwe EK fm ext; Ok (st', ct'))). set (sN := map (centred Q) s) in *. assert (length sN = n) as LsN by (unfold sN; rewrite length_map; apply Hs).
  eapply returns_bind; [apply (switch_back_to lwe EK Q qKS base t sN beta fm ext); rewrite ?LsN; (done || lia)|]. intros ct' (Hct' & Pct & c' & Hc').
  apply returns_ok. cbn [fst snd]. split; [done|]. split; [done|]. split; [done|]. exists dd.
  destruct (scaled_value Q qKS fm (h x) z (test_value mu fm (ct_b ct) h x) (phase sN ext) (phase t ct') c' (switch_noise fm) bound Hfm ltac:(lia) Hhx Hz Hcase) as (e & He & Phe); [| |by exists e].
  - rewrite Pext, Ez. by rewrite eqm_mod.
  - etransitivity; [exact Hc'|]. unfold back_noise, switch_noise. rewrite LsN. assert (fm * Q * (1 + norm1 sN) <= fm * Q * (1 + hN)) by (apply Z.mul_le_mono_nonneg_l; [apply Z.mul_nonneg_nonneg|]; lia). lia.
Qed.

(** ** The functions of the code *)
Definition quarter (mu : Z) : Prop := exists c, 0 < c /\ mu = 4 * c.

Lemma quarter_shifts mu : quarter mu -> Z.shiftr mu 1 = mu / 2 /\ Z.shiftr mu 2 = mu / 4 /\ exists c, 0 < c /\ mu = 4 * c /\ mu / 2 = 2 * c /\ mu / 4 = c.
Proof using Type.
  clear. intros (c & Hc & ->). rewrite !Z.shiftr_div_pow2 by lia. change (2 ^ 1) with 2. change (2 ^ 2) with 4.
  split; [done|]. split; [done|]. exists c. rewrite (Z.mul_comm 4 c). do 2 (split; [lia|]). split; [|apply Z.div_mul; lia].
  replace (c * 4) with (2 * c * 2) by ring. apply Z.div_mul. lia.
Qed.

(** [f_half]: the sign of the upper half, at the scale of a quarter. *)
Definition half_value (mu fm x : Z) : Z := if x <? mu / 2 then fm - mu / 4 else mu / 4.
Lemma f_half_spec mu fm : quarter mu -> mu <= 4 * fm -> fm < 2 ^ 64 -> half_turn_sum mu fm f_half (half_value mu fm).
Proof using Type.
  clear. intros Hmu Hfm H64. destruct (quarter_shifts mu Hmu) as (E1 & E2 & c & Hc & -> & E3 & E4). unfold half_turn_sum, f_half, half_value. rewrite E1, E2, E3, E4. split; intros x Hx.
  - destruct (x <? 2 * c); [|by split; [|lia]]. unfold Sub, SubFast. cbn [NATIVEINT_DO_CHECKS]. rewrite wrap_small by (change (2 ^ W) with (2 ^ 64); lia). split; [done|lia].
  - rewrite (proj2 (Z.ltb_lt _ _)), (proj2 (Z.ltb_ge _ _)) by lia. lia.
Qed.

(** [f_lut]: a table whose halves add up to the modulus. *)
Lemma f_lut_spec mu lut : Z.of_nat (length lut) = mu -> (2 | mu) -> (forall x, 0 <= x < mu -> reduced (mu + 1) (lut !!! Z.to_nat x)) ->
  (forall x, 0 <= x < mu / 2 -> lut !!! Z.to_nat x + lut !!! Z.to_nat (x + mu / 2) = mu) -> half_turn_sum mu mu (f_lut lut) (fun x => lut !!! Z.to_nat x).
Proof using Type. clear. intros L He Hr Hs. split; [|done]. intros x Hx. specialize (Hr x Hx). unfold reduced in Hr. unfold f_lut. rewrite vget_total by lia. split; [done|lia]. Qed.

(** [f_lut_half]: the lower half of a table, and its opposite. *)
Definition lut_half_value (lut : list Z) (mu x : Z) : Z := if x <? mu / 2 then lut !!! Z.to_nat x else mu - lut !!! Z.to_nat (x - mu / 2).
Lemma f_lut_half_spec mu lut : quarter mu -> mu < 2 ^ 64 -> mu / 2 <= Z.of_nat (length lut) -> (forall x, 0 <= x < mu / 2 -> reduced mu (lut !!! Z.to_nat x)) ->
  half_turn_sum mu mu (f_lut_half lut) (lut_half_value lut mu).
Proof using Type.
  clear. intros Hmu H64 L Hr. destruct (quarter_shifts mu Hmu) as (E1 & E2 & c & Hc & -> & E3 & E4). unfold half_turn_sum, f_lut_half, lut_half_value. rewrite E1, E3 in *. unfold reduced in Hr. split; intros x Hx.
  - destruct (Z.ltb_spec x (2 * c)) as [Hl|Hl].
    + specialize (Hr x ltac:(lia)). rewrite vget_total by lia. split; [done|lia].
    + specialize (Hr (x - 2 * c) ltac:(lia)). rewrite wrap_small by (change (2 ^ W) with (2 ^ 64); lia). rewrite vget_total, bind_ok by lia.
      unfold Sub, SubFast. cbn [NATIVEINT_DO_CHECKS]. rewrite wrap_small by (change (2 ^ W) with (2 ^ 64); lia). split; [done|lia].
  - rewrite (proj2 (Z.ltb_lt _ _)), (proj2 (Z.ltb_ge _ _)) by lia. replace (x + 2 * c - 2 * c) with x by ring. lia.
Qed.

(** [f_centre]: the identity on the middle half. *)
Definition centre_value (mu fm x : Z) : Z := if x <? mu / 4 then fm - mu / 2 - x else if x <? 3 * (mu / 4) then x else fm + mu / 2 - x.
Lemma f_centre_spec mu fm : quarter mu -> mu <= fm < 2 ^ 63 -> half_turn_sum mu fm f_centre (centre_value mu fm).
Proof using Type.
  clear. intros Hmu Hfm. destruct (quarter_shifts mu Hmu) as (E1 & E2 & c & Hc & -> & E3 & E4). unfold half_turn_sum, f_centre, centre_value. rewrite E1, E2, E3, E4. split; intros x Hx.
  - unfold Mul, MulFast, Sub, SubFast, Add, AddFast. cbn [NATIVEINT_DO_CHECKS]. rewrite (wrap_small W (c * 3)), !bind_ok, (Z.mul_comm c 3) by (change (2 ^ W) with (2 ^ 64); lia).
    destruct (Z.ltb_spec x c); [|destruct (Z.ltb_spec x (3 * c))].
    + rewrite (wrap_small W (fm - 2 * c)), wrap_small by (change (2 ^ W) with (2 ^ 64); lia). split; [done|lia].
    + rewrite (proj2 (Z.leb_le c x)) by lia. cbn [andb]. split; [done|lia].
    + rewrite andb_false_r. rewrite (Z.add_comm (2 * c) fm), (wrap_small W (fm + 2 * c)), wrap_small by (change (2 ^ W) with (2 ^ 64); lia). split; [done|lia].
  - destruct (Z.ltb_spec x c), (Z.ltb_spec x (3 * c)), (Z.ltb_spec (x + 2 * c) c), (Z.ltb_spec (x + 2 * c) (3 * c)); lia.
Qed.

(** [f_sign]. *)
Definition sign_value (schemeSwitch : bool) (mu fm x : Z) : Z := if eqb (x <? mu / 2) schemeSwitch then fm - fm / 4 else fm / 4.
Lemma f_sign_spec b mu fm : (2 | mu) -> 0 < fm < 2 ^ 64 -> half_turn_sum mu fm (f_sign b) (sign_value b mu fm).
Proof using Type.
  clear. intros [c ->] Hfm. unfold half_turn_sum, f_sign, sign_value. rewrite Z.div_mul by lia. pose proof (Z.div_mod fm 4 ltac:(lia)). pose proof (Z.mod_pos_bound fm 4 ltac:(lia)). split; intros x Hx.
  - unfold Sub, SubFast. cbn [NATIVEINT_DO_CHECKS]. rewrite wrap_small by (change (2 ^ W) with (2 ^ 64); lia). split; [by destruct (x <? c), b|]. destruct (eqb _ _); lia.
  - rewrite (proj2 (Z.ltb_lt _ _)), (proj2 (Z.ltb_ge _ _)) by lia. destruct b; cbn [eqb]; lia.
Qed.

(** ** Linear steps *)
Lemma add_const mu ct c : NativeModulus W mu -> wf_ct mu nn ct -> reduced mu c -> wf_ct mu nn (EvalAddConstEq ct c) /\ phase t (EvalAddConstEq ct c) ≡[mu] phase t ct + c.
Proof using Type.
  clear. intros Hmu [(E & L & F) B] Hc. split; [|by apply (EvalConst_spec (q := mu))].
  split; [done|]. unfold EvalAddConstEq, GetModulus. rewrite E. cbn [ct_b].
  assert (ModAddFastEq W (ct_b ct) c mu = (ct_b ct + c) mod mu) as -> by (by apply nm_add). apply (nm_mod (w := W)).
Qed.

Lemma sub_const mu ct c : NativeModulus W mu -> wf_ct mu nn ct -> reduced mu c -> wf_ct mu nn (EvalSubConstEq ct c) /\ phase t (EvalSubConstEq ct c) ≡[mu] phase t ct - c.
Proof using Type.
  clear. intros Hmu [(E & L & F) B] Hc. split; [|by apply (EvalConst_spec (q := mu))].
  split; [done|]. unfold EvalSubConstEq, GetModulus. rewrite E. cbn [ct_b].
  assert (ModSubFastEq W (ct_b ct) c mu = (ct_b ct - c) mod mu) as -> by (by apply nm_sub). apply (nm_mod (w := W)).
Qed.

(** To a divisor of the modulus, and to twice the modulus. *)
Lemma SetModulus_down mu q' ct : NativeModulus W mu -> NativeModulus W q' -> (q' | mu) -> GetMSB W q' <= 60 -> wf_ct mu nn ct ->
  returns (Lwe.SetModulus ct q') (fun ct' => wf_ct q' nn ct' /\ ct_p ct' = ct_p ct /\ phase t ct' ≡[q'] phase t ct).
Proof using Type.
  clear. intros Hmu Hq' [c Hc] Hbits [(E & L & F) B]. pose proof (nm_bounds (w := W) (m := mu)) as Bm. pose proof (nm_bounds (w := W) (m := q')) as Bq.
  assert (1 <= c) as Hc1 by nia. assert (q' <= mu) as Hle by nia.
  assert (mu mod q' = 0) as Em by (rewrite Hc; apply Z.mod_mul; lia). pose proof (nm_double (w := W) (m := mu)) as B2. change (2 ^ W) with (2 ^ 64) in B2.
  unfold Lwe.SetModulus. assert (NativeVec.ModEq W (ct_a ct) q' = Ok (NVec mu (map (fun v => v mod q') (data (ct_a ct))))) as ->.
  { unfold NativeVec.ModEq. rewrite (proj2 (Z.eqb_neq q' 2)), E, (proj2 (Z.ltb_ge mu q')) by lia. unfold umod. rewrite (proj2 (Z.eqb_neq q' 0)), bind_ok, Em, Z.sub_0_r by lia.
    unfold with_data. rewrite E. do 2 f_equal. apply map_ext_in. intros v Hv. apply list_elem_of_In in Hv. rewrite Forall_forall in F. pose proof (F v Hv) as Rv. unfold reduced in Rv.
    unfold switch_down. rewrite (wrap_small W q') by (change (2 ^ W) with (2 ^ 64); lia). destruct (_ <? v).
    - rewrite wrap_small by (change (2 ^ W) with (2 ^ 64); lia). rewrite (proj2 (Z.leb_le _ _)) by lia. rewrite <- (Z.mul_1_l q') at 1. apply Z.mod_add. lia.
    - destruct (Z.leb_spec q' v); [done|]. rewrite Z.mod_small; lia. }
  rewrite bind_ok. unfold NativeVec.SetModulus. change (MAX_MODULUS_SIZE W) with 60. rewrite (proj2 (Z.ltb_ge _ _)), bind_ok by lia.
  unfold NativeInt.ModEq, umod. rewrite (proj2 (Z.eqb_neq q' 0)), bind_ok by lia. apply returns_ok.
  split; [|split; [done|]].
  - split; [split; [done|split]|apply Z.mod_pos_bound; lia]; cbn [ct_a data]; [by rewrite length_map|]. apply map_reduced. intros. apply Z.mod_pos_bound. lia.
  - unfold phase. cbn [ct_a ct_b data]. apply eqm_sub; [apply eqm_mod|]. apply sumZ_eqm. intros i Hi. rewrite lookup_total_map by lia. by rewrite eqm_mod.
Qed.

Lemma SetModulus_up dq a : GetMSB W dq <= 60 -> NativeVec.SetModulus W a dq = Ok (NVec dq (data a)).
Proof using Type. clear. intros Hb. unfold NativeVec.SetModulus. change (MAX_MODULUS_SIZE W) with 60. by rewrite (proj2 (Z.ltb_ge _ _)) by lia. Qed.

(** A position in a window of the table. *)
Lemma window_mod w P M u : 0 < w -> 0 < P -> 0 <= u < w -> (M * w + u) mod (w * P) = (M mod P) * w + u /\ ((M mod P) * w + u) / w = M mod P.
Proof using Type.
  clear. intros Hw HP Hu. pose proof (Z.mod_pos_bound M P HP). pose proof (Z.div_mod M P ltac:(lia)). split.
  - symmetry. apply (Z.mod_unique_pos _ _ (M / P)); nia.
  - symmetry. apply (Z.div_unique_pos _ _ _ u); lia.
Qed.

Lemma half_of_windows M P : 0 < P -> exists a r, 0 <= r < P /\ M mod P = r /\ (M = 2 * P * a + r /\ M mod (2 * P) = r \/ M = 2 * P * a + P + r /\ M mod (2 * P) = P + r).
Proof using Type.
  clear. intros HP. pose proof (Z.div_mod M (2 * P) ltac:(lia)) as D. pose proof (Z.mod_pos_bound M (2 * P) ltac:(lia)) as B.
  destruct (Z.lt_ge_cases (M mod (2 * P)) P).
  - exists (M / (2 * P)), (M mod (2 * P)). split; [lia|]. split; [|left; split; [exact D|done]]. symmetry. apply (Z.mod_unique_pos _ _ (2 * (M / (2 * P)))); lia.
  - exists (M / (2 * P)), (M mod (2 * P) - P). split; [lia|]. split; [|right; lia]. symmetry. apply (Z.mod_unique_pos _ _ (2 * (M / (2 * P)) + 1)); lia.
Qed.

(** ** Tables in windows

    A table of the modulus [mu] is in windows when its values on every [2 off]
    positions are the same. *)
Definition in_windows (off : Z) (lut : list Z) (m : Z) (v : Z -> Z) : Prop := forall x, 0 <= x < m -> lut !!! Z.to_nat x = v (x / (2 * off)).

(** The two bootstrappings that evaluate a table on half a modulus: the first
    one moves the input to the lower half. *)
Definition two_step ps EK (off mu : Z) (lut : list Z) (ct : LWECiphertext) : res (FTT * LWECiphertext) :=
  ct2 ← BootstrapFunc arb lwe ps EK (EvalAddConstEq ct off) f_half mu st;
  ct2' ← EvalSubEq2 ct ct2.2;
  BootstrapFunc arb lwe ps EK (EvalSubConstEq (EvalAddConstEq ct2' off) (Z.shiftr mu 2)) (f_lut_half lut) mu ct2.1.

Lemma two_step_spec ps EK off mu P lut v ct M e : good_keys ps EK -> in_modulus mu -> out_modulus mu -> 0 < off -> 0 < P -> mu = 2 * (2 * off * P) ->
  wf_ct mu nn ct -> phase t ct ≡[mu] M * (2 * off) + e -> Z.abs e + func_noise mu + 2 * slack < off ->
  mu / 2 <= Z.of_nat (length lut) -> (forall x, 0 <= x < mu / 2 -> reduced mu (lut !!! Z.to_nat x)) -> in_windows off lut (mu / 2) v ->
  returns (two_step ps EK off mu lut ct) (fun r => r.1 = st /\ wf_ct mu nn r.2 /\ ct_p r.2 = 4 /\
    exists e', Z.abs e' <= func_noise mu /\ phase t r.2 ≡[mu] v (M mod P) + e').
Proof using Hset.
  intros HEK Him Hom Hoff HP Emu Hct Hph Hmar Llut Hred Hwin. pose proof (im_native _ Him) as Hmu. pose proof (nm_bounds (w := W) (m := mu)) as Bmu. pose proof (nm_double (w := W) (m := mu)) as B2. change (2 ^ W) with (2 ^ 64) in B2, Bmu.
  assert (quarter mu) as Hq4 by (exists (off * P); nia). destruct (quarter_shifts mu Hq4) as (_ & E2 & c & Hc & Ec & E3 & E4).
  assert (mu / 2 = 2 * off * P) as Ehalf by lia.
  destruct (add_const mu ct off Hmu Hct ltac:(unfold reduced; nia)) as [W1 P1].
  unfold two_step. eapply returns_bind; [apply (BootstrapFunc_spec ps EK mu mu f_half (half_value mu mu)); try done; apply f_half_spec; (done || lia)|].
  intros [st1 ct2] (-> & W2 & _ & d1 & e1 & Hd1 & He1 & P2). cbn [fst snd] in *.
  eapply returns_bind; [apply (EvalSubEq_spec (q := mu) nn t ct ct2 eq_refl Hct W2)|]. intros ct2' [W3 P3].
  destruct (add_const mu ct2' off Hmu W3 ltac:(unfold reduced; nia)) as [W4 P4].
  destruct (sub_const mu _ (Z.shiftr mu 2) Hmu W4 ltac:(rewrite E2; unfold reduced; lia)) as [W5 P5].
  eapply returns_mono; [apply (BootstrapFunc_spec ps EK mu mu (f_lut_half lut) (lut_half_value lut mu)); try done; apply f_lut_half_spec; (done || lia)|].
  intros r (Er & W6 & P6 & d2 & e2 & Hd2 & He2 & Ph6). split; [done|]. split; [done|]. split; [done|]. exists e2. split; [done|]. rewrite Ph6.
  assert ((phase t (EvalSubConstEq (EvalAddConstEq ct2' off) (Z.shiftr mu 2)) - d2) mod mu = (M mod P) * (2 * off) + (off + e - e1 - d2)) as ->; [|unfold lut_half_value].
  { symmetry. apply eqm_canon; [pose proof (Z.mod_pos_bound M P HP); nia|]. rewrite P5, P4, P3, P2, Hph.
    assert ((phase t (EvalAddConstEq ct off) - d1) mod mu = (M mod (2 * P)) * (2 * off) + (off + e - d1)) as ->.
    { symmetry. apply eqm_canon; [pose proof (Z.mod_pos_bound M (2 * P) ltac:(lia)); nia|]. rewrite P1, Hph. apply eqm_iff. exists (- (M / (2 * P))). pose proof (Z.div_mod M (2 * P) ltac:(lia)). nia. }
    unfold half_value. rewrite E2, Ehalf. destruct (half_of_windows M P HP) as (a & i & Hi & -> & [[-> ->] | [-> ->]]).
    - rewrite (proj2 (Z.ltb_lt _ _)) by nia. apply eqm_iff. exists (1 - a). lia.
    - rewrite (proj2 (Z.ltb_ge _ _)) by nia. apply eqm_iff. exists (- a). lia. }
  destruct (window_mod (2 * off) P M (off + e - e1 - d2)) as [_ Ew]; [lia|lia|lia|]. pose proof (Z.mod_pos_bound M P HP).
  assert (0 <= (M mod P) * (2 * off) <= (P - 1) * (2 * off)) by (split; [apply Z.mul_nonneg_nonneg|apply Z.mul_le_mono_nonneg_r]; lia).
  rewrite (proj2 (Z.ltb_lt _ _)), Hwin, Ew by lia. done.
Qed.

(** ** The kind of a table *)
Lemma halves_agree_spec op lut mid : (0 < mid)%nat -> length lut = (2 * mid)%nat ->
  returns (halves_agree op lut mid) (fun ok => ok = true -> forall i, (0 < i < mid)%nat -> lut !!! i = op (lut !!! (mid + i)%nat)).
Proof using Type.
  clear. intros Hmid L. unfold halves_agree.
  eapply returns_mono; [apply (returns_for (fun j ok => ok = true -> forall i, (0 < i < S j)%nat -> lut !!! i = op (lut !!! (mid + i)%nat)))|].
  - intros _ i Hi. lia.
  - intros j ok Hj Hok. rewrite !vget_total, !bind_ok by lia. apply returns_ok. intros [H1 H2]%andb_prop i Hi.
    destruct (decide (i = S j)) as [->|]; [by apply Z.eqb_eq|]. apply Hok; [done|lia].
  - intros ok Hok H i Hi. apply Hok; [done|lia].
Qed.

Lemma checkInputFunction_spec lut mu mid : (0 < mid)%nat -> length lut = (2 * mid)%nat -> mu < 2 ^ 64 -> (forall i, (i < 2 * mid)%nat -> reduced mu (lut !!! i)) ->
  returns (checkInputFunction lut mu) (fun kind => (kind = 0%nat /\ forall i, (i < mid)%nat -> lut !!! i + lut !!! (mid + i)%nat = mu) \/
    (kind = 1%nat /\ forall i, (i < mid)%nat -> lut !!! i = lut !!! (mid + i)%nat) \/ kind = 2%nat).
Proof using Type.
  clear. intros Hmid L Hmu Hr. assert (forall i, (i < 2 * mid)%nat -> Sub W mu (lut !!! i) = mu - lut !!! i) as Es.
  { intros i Hi. specialize (Hr i Hi). unfold reduced in Hr. unfold Sub, SubFast. cbn [NATIVEINT_DO_CHECKS]. by rewrite wrap_small by (change (2 ^ W) with (2 ^ 64); lia). }
  unfold checkInputFunction. assert (length lut / 2 = mid)%nat as -> by (rewrite L, Nat.mul_comm; by apply Nat.div_mul). rewrite !vget_total, !bind_ok by lia.
  destruct (Z.eqb_spec (lut !!! 0%nat) (Sub W mu (lut !!! mid))) as [E0|_]; [|destruct (Z.eqb_spec (lut !!! 0%nat) (lut !!! mid)) as [E1|_]].
  - eapply returns_bind; [by apply halves_agree_spec|]. intros [|] Hok; apply returns_ok; [left; split; [done|]|by do 2 right].
    intros i Hi. destruct (decide (i = 0%nat)) as [->|]; [rewrite Nat.add_0_r, E0, Es by lia; ring|]. rewrite (Hok eq_refl i), Es by lia. ring.
  - eapply returns_bind; [by apply halves_agree_spec|]. intros [|] Hok; apply returns_ok; [right; left; split; [done|]|by do 2 right].
    intros i Hi. destruct (decide (i = 0%nat)) as [->|]; [by rewrite Nat.add_0_r|]. apply (Hok eq_refl). lia.
  - apply returns_ok. by do 2 right.
Qed.

(** ** [EvalFunc] *)
Definition eval_noise (mu : Z) : Z := Z.max (func_noise mu) (func_noise (2 * mu)).

Lemma in_modulus_double mu : in_modulus mu -> mu <= Z.of_nat n -> in_modulus (2 * mu) /\ GetMSB W (2 * mu) <= 60 /\ 2 * mu <= 2 ^ 25.
Proof using HR.
  clear Hset. intros [Hmu Hd He] Hle. pose proof (nm_bounds (w := W) (m := mu)) as Bm. pose proof (dim_bound (HR := HR)) as Hn.
  assert (GetMSB W (2 * mu) <= 60) as Hb. { rewrite GetMSB_spec by (unfold W in *; lia). enough (Z.log2 (2 * mu) < 59) by lia. apply Z.log2_lt_pow2; lia. }
  split; [|split; [done|lia]]. split; [apply native_modulus_bits; unfold W; lia| |by exists mu; ring].
  destruct Hd as [c Hc]. assert (1 < c) by nia.
  assert (c mod 2 = 0) as E by (apply (power_two_mod c k 1); [exists mu; lia|lia|change (2 ^ Z.of_nat 1) with 2; lia]). apply Z.mod_divide in E as [d Hd]; [|lia].
  exists d. rewrite Hc, Hd. ring.
Qed.

Lemma periodic_window off P lut (v : Z -> Z) mu M : 0 < off -> 0 < P -> mu = 2 * (2 * off * P) -> in_windows off lut mu v ->
  (forall i, (i < Z.to_nat (2 * off * P))%nat -> lut !!! i = lut !!! (Z.to_nat (2 * off * P) + i)%nat) -> v (M mod P) = v (M mod (2 * P)).
Proof using Type.
  clear. intros Hoff HP -> Hwin Heq. destruct (half_of_windows M P HP) as (a & i & Hi & -> & [[_ ->] | [_ ->]]); [done|].
  assert (0 <= i * (2 * off) <= (P - 1) * (2 * off)) by (split; [apply Z.mul_nonneg_nonneg|apply Z.mul_le_mono_nonneg_r]; lia).
  assert (0 < 2 * off * P) by (repeat apply Z.mul_pos_pos; lia). specialize (Heq (Z.to_nat (i * (2 * off))) ltac:(lia)). rewrite <- Z2Nat.inj_add in Heq by lia. rewrite !Hwin in Heq by lia.
  rewrite Z.div_mul in Heq by lia. rewrite Heq. f_equal. replace (2 * off * P + i * (2 * off)) with ((P + i) * (2 * off)) by ring. apply Z.div_mul. lia.
Qed.

(** With the modulus of the ciphertext doubled, a table of any kind is
    periodic. *)
Definition doubled (ct : LWECiphertext) (mu : Z) : LWECiphertext := new_LWECiphertext (NVec (2 * mu) (data (ct_a ct))) (ct_b ct).

(** A bootstrapping does not use the plaintext modulus that a copy drops. *)
Lemma BootstrapFunc_copy ps EK ct c f fm : BootstrapFunc arb lwe ps EK (EvalAddConstEq (copy_LWECiphertext ct) c) f fm st = BootstrapFunc arb lwe ps EK (EvalAddConstEq ct c) f fm st.
Proof using Type. done. Qed.

Lemma EvalFunc_doubled ps EK off mu lut ct : GetModulus ct = mu -> 0 <= mu -> 2 * mu < 2 ^ 64 -> GetMSB W (2 * mu) <= 60 -> mu <= Z.of_nat (m_N lwe) -> checkInputFunction lut mu = Ok 2%nat ->
  EvalFunc arb lwe ps EK ct lut off st = (r ← two_step ps EK off (2 * mu) (lut ++ lut) (doubled ct mu); ct4' ← Lwe.SetModulus r.2 mu; Ok (r.1, ct4')).
Proof using Type.
  clear. intros Em H0 B2 Hbits Hle Hkind. unfold EvalFunc. rewrite Em, Hkind, bind_ok. cbn [Nat.eqb]. rewrite (proj2 (Z.ltb_ge _ _)) by lia.
  assert (LShift W mu 1 = Ok (2 * mu)) as ->.
  { unfold LShift, ushl. rewrite Z.shiftl_mul_pow2 by lia. change (2 ^ 1) with 2. rewrite (Z.mul_comm mu 2), Z.mod_small by (change (2 ^ W) with (2 ^ 64); lia). done. }
  rewrite bind_ok, SetModulus_up, bind_ok by done. cbv zeta. change (LWECt (NVec (2 * mu) (data (ct_a (copy_LWECiphertext ct)))) (ct_b (copy_LWECiphertext ct)) (ct_p (copy_LWECiphertext ct))) with (doubled ct mu).
  rewrite BootstrapFunc_copy. unfold two_step.
  assert (Z.shiftr (2 * mu) 2 = Z.shiftr mu 1) as ->.
  { rewrite !Z.shiftr_div_pow2 by lia. change (2 ^ 2) with (2 * 2). rewrite <- Z.div_div by lia. rewrite (Z.mul_comm 2 mu), Z.div_mul by lia. done. }
  destruct (BootstrapFunc arb lwe ps EK (EvalAddConstEq (doubled ct mu) off) f_half (2 * mu) st) as [[st1 ct3]|]; [|done]. rewrite !bind_ok. cbn [fst snd].
  destruct (EvalSubEq2 (doubled ct mu) ct3) as [ct3'|]; [|done]. by rewrite !bind_ok.
Qed.

Lemma EvalFunc_arbitrary ps EK off mu P lut v ct M e : good_keys ps EK -> in_modulus mu -> 0 < off -> 0 < P -> mu = 2 * (2 * off * P) ->
  wf_ct mu nn ct -> phase t ct ≡[mu] M * (2 * off) + e -> Z.abs e + func_noise (2 * mu) + 2 * slack < off ->
  Z.of_nat (length lut) = mu -> (forall x, 0 <= x < mu -> reduced mu (lut !!! Z.to_nat x)) -> in_windows off lut mu v ->
  checkInputFunction lut mu = Ok 2%nat -> mu <= Z.of_nat n -> out_modulus (2 * mu) ->
  returns (EvalFunc arb lwe ps EK ct lut off st) (fun r => r.1 = st /\ wf_ct mu nn r.2 /\ ct_p r.2 = 4 /\
    exists e', Z.abs e' <= func_noise (2 * mu) /\ phase t r.2 ≡[mu] v (M mod (2 * P)) + e').
Proof using Hset.
  intros HEK Him Hoff HP Emu Hct Hph Hmar Llut Hred Hwin Hkind Hle Hom2. pose proof (im_native _ Him) as Hmu. pose proof (nm_bounds (w := W) (m := mu)) as Bmu. pose proof (nm_double (w := W) (m := mu)) as B2. change (2 ^ W) with (2 ^ 64) in B2, Bmu.
  destruct (bs_dims Hset) as [_ EN]. destruct (in_modulus_double mu Him Hle) as (Him2 & Hbits & H25).
  rewrite (EvalFunc_doubled ps EK off mu) by (rewrite ?EN; first [done|lia|by destruct Hct as [(? & _) _]]).
  assert (wf_ct (2 * mu) nn (doubled ct mu)) as Hct1.
  { destruct Hct as [(E & L & F) B]. split; [split; [done|split; [done|]]|unfold reduced in *; cbn [doubled new_LWECiphertext ct_b]; lia]. cbn [doubled new_LWECiphertext ct_a data]. eapply Forall_impl; [exact F|]. intros x Hx. unfold reduced in *. lia. }
  apply eqm_iff in Hph as [j Hj]. assert (2 * mu / 2 = mu) as Eh by (rewrite Z.mul_comm; apply Z.div_mul; lia).
  assert (forall x, 0 <= x < mu -> (lut ++ lut) !!! Z.to_nat x = lut !!! Z.to_nat x) as Eapp by (intros x Hx; apply lookup_total_app_l; lia).
  eapply returns_bind; [apply (two_step_spec ps EK off (2 * mu) (2 * P) (lut ++ lut) v (doubled ct mu) (M + j * (2 * P)) e); try done; rewrite ?Eh; try lia|].
  - apply eqm_refl. transitivity (phase t ct); [done|]. rewrite Hj, Emu. ring.
  - rewrite length_app. lia.
  - intros x Hx. rewrite Eapp by done. specialize (Hred x Hx). unfold reduced in *. lia.
  - intros x Hx. rewrite Eapp by done. by apply Hwin.
  - intros [st1 ct4] (-> & W4 & P4 & e' & He' & Ph4). cbn [fst snd] in *.
    assert (GetMSB W mu <= 60) as Hb1. { rewrite GetMSB_spec by (change (2 ^ W) with (2 ^ 64); unfold W; lia). enough (Z.log2 mu < 59) by lia. apply Z.log2_lt_pow2; lia. }
    eapply returns_bind; [apply (SetModulus_down (2 * mu) mu ct4); try done; [apply (im_native _ Him2)|by exists 2]|]. intros ct5 (W5 & P5 & Ph5). apply returns_ok. cbn [fst snd].
    split; [done|]. split; [done|]. split; [congruence|]. exists e'. split; [done|]. rewrite Ph5. rewrite Z.mod_add in Ph4 by lia. apply (eqm_divisor (2 * mu)); [by exists 2|done].
Qed.

Theorem EvalFunc_spec ps EK off mu P lut v ct M e kind : good_keys ps EK -> in_modulus mu -> out_modulus mu -> 0 < off -> 0 < P -> mu = 2 * (2 * off * P) ->
  wf_ct mu nn ct -> phase t ct ≡[mu] M * (2 * off) + e -> Z.abs e + eval_noise mu + 2 * slack < off ->
  Z.of_nat (length lut) = mu -> (forall x, 0 <= x < mu -> reduced mu (lut !!! Z.to_nat x)) -> in_windows off lut mu v ->
  checkInputFunction lut mu = Ok kind -> (kind = 2%nat -> mu <= Z.of_nat n /\ out_modulus (2 * mu)) ->
  returns (EvalFunc arb lwe ps EK ct lut off st) (fun r => r.1 = st /\ wf_ct mu nn r.2 /\ ct_p r.2 = 4 /\
    exists e', Z.abs e' <= eval_noise mu /\ phase t r.2 ≡[mu] v (M mod (2 * P)) + e').
Proof using Hset.
  intros HEK Him Hom Hoff HP Emu Hct Hph Hmar Llut Hred Hwin Hkind Hbig. pose proof (im_native _ Him) as Hmu. pose proof (nm_bounds (w := W) (m := mu)) as Bmu. pose proof (nm_double (w := W) (m := mu)) as B2. change (2 ^ W) with (2 ^ 64) in B2, Bmu.
  assert (GetModulus ct = mu) as Em by (by destruct Hct as [(? & _) _]). unfold eval_noise in *. assert (mu / 2 = 2 * off * P) as Ehalf by (rewrite Emu, Z.mul_comm; apply Z.div_mul; lia).
  assert (4 * off <= mu) as Hoffmu by nia. assert (0 < 2 * off * P) as Hpos by lia.
  destruct (checkInputFunction_spec lut mu (Z.to_nat (2 * off * P))) as (kind' & Ek & Hcases); [lia|lia|lia| |].
  { intros i Hi. rewrite <- (Nat2Z.id i). apply Hred. lia. }
  rewrite Hkind in Ek. injection Ek as <-. unfold EvalFunc. rewrite Em, Hkind, bind_ok. cbv zeta. rewrite !BootstrapFunc_copy.
  destruct Hcases as [[-> Hsum] | [[-> Heq] | ->]]; cbn [Nat.eqb].
  - destruct (add_const mu ct off Hmu Hct ltac:(unfold reduced; lia)) as [W1 P1].
    eapply returns_mono; [apply (BootstrapFunc_spec ps EK mu mu (f_lut lut) (fun x => lut !!! Z.to_nat x)); try done; apply f_lut_spec; [done|apply im_even; done| |]|].
    + intros x Hx. specialize (Hred x Hx). unfold reduced in *. lia.
    + intros x Hx. replace (Z.to_nat (x + mu / 2)) with (Z.to_nat (2 * off * P) + Z.to_nat x)%nat by lia. apply Hsum. lia.
    + intros r (Er & W6 & P6 & d & e' & Hd & He' & Ph6). split; [done|]. split; [done|]. split; [done|]. exists e'. split; [lia|]. rewrite Ph6.
      destruct (window_mod (2 * off) (2 * P) M (off + e - d)) as [E1 E2]; [lia|lia|lia|].
      assert ((phase t (EvalAddConstEq ct off) - d) mod mu = (M mod (2 * P)) * (2 * off) + (off + e - d)) as ->.
      { rewrite <- E1. replace (2 * off * (2 * P)) with mu by lia. change (phase t (EvalAddConstEq ct off) - d ≡[mu] M * (2 * off) + (off + e - d)). rewrite P1, Hph. apply eqm_refl. ring. }
      rewrite Hwin, E2; [done|]. pose proof (Z.mod_pos_bound M (2 * P) ltac:(lia)). rewrite <- E1. replace (2 * off * (2 * P)) with mu by lia. apply Z.mod_pos_bound. lia.
  - eapply returns_mono; [apply (two_step_spec ps EK off mu P lut v ct M e); try done; try lia|].
    + intros x Hx. apply Hred. lia.
    + intros x Hx. apply Hwin. lia.
    + intros r (Er & W6 & P6 & e' & He' & Ph6). split; [done|]. split; [done|]. split; [done|]. exists e'. split; [lia|]. by rewrite Ph6, (periodic_window off P lut v mu M).
  - destruct (Hbig eq_refl) as [Hle Hom2]. assert (returns (EvalFunc arb lwe ps EK ct lut off st) (fun r => r.1 = st /\ wf_ct mu nn r.2 /\ ct_p r.2 = 4 /\
      exists e', Z.abs e' <= func_noise (2 * mu) /\ phase t r.2 ≡[mu] v (M mod (2 * P)) + e')) as H.
    { apply (EvalFunc_arbitrary ps EK off mu P lut v ct M e); (done || lia). }
    unfold EvalFunc in H. rewrite Em, Hkind, bind_ok in H. cbv zeta in H. rewrite !BootstrapFunc_copy in H. eapply returns_mono; [exact H|]. intros r (Er & W6 & P6 & e' & He' & Ph6). split; [done|]. split; [done|]. split; [done|]. exists e'. split; [lia|done].
Qed.

(** ** [EvalFloor]

    The lower half and the upper half of the modulus [qf] are moved to its
    middle, where [f_centre] is the identity; the difference is a multiple of
    [qf]. *)
Definition floor_modulus (off roundbits : Z) : res Z :=
  if roundbits =? 0 then Ok (m_q lwe) else if roundbits <? 30 then Mul W off (2 ^ (roundbits + 1)) else Throw undefined_behaviour.

Lemma half_split x c : 0 < c -> exists j, x = 4 * c * j + x mod (2 * c) /\ x / (4 * c) = j /\ x mod (4 * c) = x mod (2 * c) \/
  x = 4 * c * j + 2 * c + x mod (2 * c) /\ x / (4 * c) = j /\ x mod (4 * c) = 2 * c + x mod (2 * c).
Proof using Type.
  clear. intros Hc. pose proof (Z.div_mod x (4 * c) ltac:(lia)) as D. pose proof (Z.mod_pos_bound x (4 * c) ltac:(lia)) as B. exists (x / (4 * c)).
  destruct (Z.lt_ge_cases (x mod (4 * c)) (2 * c)).
  - left. assert (x mod (2 * c) = x mod (4 * c)) as -> by (symmetry; apply (Z.mod_unique_pos _ _ (2 * (x / (4 * c)))); lia). lia.
  - right. assert (x mod (2 * c) = x mod (4 * c) - 2 * c) as -> by (symmetry; apply (Z.mod_unique_pos _ _ (2 * (x / (4 * c)) + 1)); lia). lia.
Qed.

Theorem EvalFloor_spec ps EK off roundbits qf L ct x E : good_keys ps EK -> floor_modulus off roundbits = Ok qf -> in_modulus qf -> quarter qf ->
  NativeModulus W L -> out_modulus L -> (qf | L) -> reduced L off -> wf_ct L nn ct -> phase t ct + off ≡[L] x ->
  E = func_noise L + 2 * slack -> E <= x mod (qf / 2) < qf / 2 - E ->
  returns (EvalFloor arb lwe ps EK ct off roundbits st) (fun r => r.1 = st /\ wf_ct L nn r.2 /\
    exists e, Z.abs e <= func_noise L + slack /\ phase t r.2 ≡[L] qf * (x / qf) + e).
Proof using Hset.
  intros HEK Hqf Him Hq4 HL Hom Hdiv Hoff Hct Hx HE Hmar. pose proof (im_native _ Him) as Hnq. pose proof (nm_bounds (w := W) (m := qf)) as Bq. pose proof (nm_bounds (w := W) (m := L)) as BL.
  pose proof (nm_double (w := W) (m := L)) as B2. change (2 ^ W) with (2 ^ 64) in *. destruct (quarter_shifts qf Hq4) as (E1 & E2 & c & Hc & Ec & E3 & E4).
  assert (qf <= L) as Hle by (apply Z.divide_pos_le; [lia|done]). assert (GetMSB W qf <= 60) as Hbits.
  { pose proof (Z.divide_pos_le qf (2 * Z.of_nat n) ltac:(pose proof (dim_bound (HR := HR)); lia) (im_turns _ Him)). pose proof (dim_bound (HR := HR)).
    rewrite GetMSB_spec by (change (2 ^ W) with (2 ^ 64); unfold W; lia). enough (Z.log2 qf < 59) by lia. apply Z.log2_lt_pow2; lia. }
  assert (L < 2 ^ 53) as HL53. { destruct Hom as [R _ F]. destruct (bs_native Hset) as (_ & HqKS & _). pose proof (nm_bounds (w := W) (m := qKS)). assert (0 <= 6 * qKS * L) by (apply Z.mul_nonneg_nonneg; lia). lia. }
  unfold EvalFloor. fold (floor_modulus off roundbits). rewrite Hqf, bind_ok. assert (GetModulus ct = L) as Em by (by destruct Hct as [(? & _) _]). rewrite Em.
  destruct (add_const L (copy_LWECiphertext ct) off HL Hct Hoff) as [W1 P1]. change (phase t (copy_LWECiphertext ct)) with (phase t ct) in P1. rewrite Hx in P1.
  eapply returns_bind; [apply (SetModulus_down L qf (copy_LWECiphertext (EvalAddConstEq (copy_LWECiphertext ct) off))); (done || exact W1)|]. intros ct1q (W1q & _ & P1q).
  eapply returns_bind; [apply (BootstrapFunc_spec ps EK qf L f_half (half_value qf L)); try done; apply f_half_spec; (done || lia)|].
  intros [st1 ct2] (-> & W2 & _ & d1 & e1 & Hd1 & He1 & P2). cbn [fst snd] in *.
  eapply returns_bind; [apply (EvalSubEq_spec (q := L) nn t _ ct2 eq_refl W1 W2)|]. intros ct1' [W3 P3].
  eapply returns_bind; [apply (SetModulus_down L qf (copy_LWECiphertext ct1')); (done || exact W3)|]. intros ct2q (W4 & _ & P4).
  eapply returns_bind; [apply (BootstrapFunc_spec ps EK qf L f_centre (centre_value qf L)); try done; apply f_centre_spec; (done || lia)|].
  intros [st2 ct3] (-> & W5 & _ & d2 & e2 & Hd2 & He2 & P5). cbn [fst snd] in *.
  eapply returns_bind; [apply (EvalSubEq_spec (q := L) nn t _ ct3 eq_refl W3 W5)|]. intros r [W6 P6]. apply returns_ok. cbn [fst snd].
  split; [done|]. split; [done|]. exists (d2 - e2). split; [lia|]. rewrite P6, P5.
  destruct (half_split x c Hc) as (j & Hj). rewrite <- Ec in Hj. set (r0 := x mod (2 * c)) in *. assert (E <= r0 < 2 * c - E) as Hr by (unfold r0; rewrite <- E3; done).
  assert (phase t ct1' ≡[L] qf * j + c + r0 - e1) as P7.
  { rewrite P3, P1, P2. assert ((phase t ct1q - d1) mod qf = (x - d1) mod qf) as -> by (change (phase t ct1q - d1 ≡[qf] x - d1); rewrite P1q; apply eqm_sub; [by apply (eqm_divisor L)|done]).
    unfold half_value. rewrite E3, E4. destruct Hj as [(Ex & _ & _) | (Ex & _ & _)].
    - assert ((x - d1) mod qf = r0 - d1) as -> by (symmetry; apply (Z.mod_unique_pos _ _ j); lia). rewrite (proj2 (Z.ltb_lt _ _)) by lia. apply eqm_iff. exists (-1). lia.
    - assert ((x - d1) mod qf = 2 * c + r0 - d1) as -> by (symmetry; apply (Z.mod_unique_pos _ _ j); lia). rewrite (proj2 (Z.ltb_ge _ _)) by lia. apply eqm_refl. lia. }
  assert ((phase t ct2q - d2) mod qf = c + r0 - e1 - d2) as ->.
  { symmetry. apply eqm_canon; [lia|]. rewrite P4. rewrite (eqm_divisor L qf _ _ Hdiv P7). apply eqm_iff. exists (- j). ring. }
  unfold centre_value. rewrite E3, E4, (proj2 (Z.ltb_ge _ _)), (proj2 (Z.ltb_lt _ _)), P7 by lia.
  assert (x / qf = j) as -> by tauto. apply eqm_refl. ring.
Qed.

(** ** Smaller moduli *)
Lemma out_modulus_smaller fm L : Z.odd Q = true -> 0 < fm <= L -> (2 | fm) -> out_modulus L -> out_modulus fm.
Proof using Hset.
  intros Hodd Hfm [c Hc] [R _ F]. destruct (bs_native Hset) as (_ & HqKS & _). pose proof (nm_bounds (w := W) (m := qKS)).
  assert (qKS * fm <= qKS * L) by (apply Z.mul_le_mono_nonneg_l; lia). split; [lia| |lia].
  intros E. apply Z.mod_divide in E as [d Hd]; [|lia]. rewrite Hd, Hc, Z.mul_assoc, Z.odd_mul, andb_false_r in Hodd. done.
Qed.

Lemma norm1_nonneg (u : list Z) : 0 <= norm1 u.
Proof using Type. clear. unfold norm1. induction (length u) as [|m IH]; cbn [sumZ]; lia. Qed.

Lemma func_noise_nonneg fm : 0 <= hN -> 0 <= bound -> 0 <= beta -> 0 <= fm -> 0 <= func_noise fm.
Proof using HR Hset.
  intros HhN Hb Hbeta Hfm. destruct (bs_native Hset) as (_ & HqKS & _). pose proof (nm_bounds (w := W) (m := qKS)). pose proof (nm_bounds (w := W) (m := Q)).
  pose proof (norm1_nonneg t). unfold func_noise, switch_noise. apply Z.div_pos; [|apply Z.mul_pos_pos; lia].
  repeat first [apply Z.add_nonneg_nonneg|apply Z.mul_nonneg_nonneg]; lia.
Qed.

Lemma func_noise_mono fm L : 0 <= hN -> 0 <= bound -> 0 <= beta -> 0 < fm <= L -> func_noise fm <= func_noise L.
Proof using HR Hset.
  intros HhN Hb Hbeta Hfm. destruct (bs_native Hset) as (_ & HqKS & _). pose proof (nm_bounds (w := W) (m := qKS)). pose proof (nm_bounds (w := W) (m := Q)).
  unfold func_noise, switch_noise. set (X := Z.of_nat n * (Z.of_nat (digit_count (Z.of_nat base) qKS) * beta)).
  assert (0 <= X) by (unfold X; apply Z.mul_nonneg_nonneg; [lia|apply Z.mul_nonneg_nonneg; lia]). assert (0 < Q * qKS) by (apply Z.mul_pos_pos; lia).
  apply Z.div_le_mono; [lia|].
  assert (2 * fm * qKS * (bound + 2 * fm) <= 2 * L * qKS * (bound + 2 * L)) by (apply Z.mul_le_mono_nonneg; [apply Z.mul_nonneg_nonneg; lia|apply Z.mul_le_mono_nonneg_r; lia|lia|lia]).
  assert (fm * Q * (1 + hN) <= L * Q * (1 + hN)) by (apply Z.mul_le_mono_nonneg_r; [lia|apply Z.mul_le_mono_nonneg_r; lia]).
  assert (2 * fm * Q * X <= 2 * L * Q * X) by (apply Z.mul_le_mono_nonneg_r; [lia|apply Z.mul_le_mono_nonneg_r; lia]). lia.
Qed.
End Functions.
#[global] Arguments im_native {k mu}.
#[global] Arguments im_turns {k mu}.
#[global] Arguments im_even {k mu}.
#[global] Arguments om_range {Q qKS fm}.
#[global] Arguments om_inexact {Q qKS fm}.
#[global] Arguments om_fit {Q qKS fm}.
