(* ===== verification/SignSpec.v ===== *)
(** * Large precision with the single-key scheme

    A value of many digits is held under a modulus larger than that of the
    accumulator.  A round of [EvalSign] or of [EvalDecomp] clears the lowest
    digit with [EvalFloor] and divides the modulus; after the rounds one
    bootstrapping finds the sign, or the digits have all been collected. *)

From Stdlib Require Import ZArith Znumtheory Lia String.
From stdpp Require Import base tactics numbers list strings gmap.
From S2P Require Import Prelude Double NativeInt NativeIntFacts ModArith NativeVec SchemeCore Negacyclic BitReverse Ntt NttFacts NttSpec NttRing Poly PolyFacts Automorphism Gadget RingNoise RingCoefficients AccCore AccCoreFacts RgswAcc RgswFacts RgswRotation Lwe Gates GatesFacts GatesSpec GatesEval FuncSpec.

(** ** The loops over the modulus *)

(** A product of words is at most the product. *)
Lemma word_le x : 0 <= x -> 0 <= x mod 2 ^ 64 <= x.
Proof. intros Hx. split; [apply Z.mod_pos_bound; lia|apply Z.mod_le; lia]. Qed.

(** A round takes the modulus [m] to [m'], which is at most [2 beta m / q]. *)
Definition round_bound (q beta m m' : Z) : Prop := 0 <= m' /\ q * m' <= 2 * beta * m.

Section Rounds.
Context (arb : FTT -> NativePoly -> res (FTT * NativePoly)) (lwe : LWECryptoParams) (EKs : gmap Z RingGSWBTKey) (curBase beta : Z).
Context (Hq : 0 < m_q lwe) (Hbeta : 0 <= beta).
Abbreviation q := (m_q lwe).

Lemma sign_step_modulus x y : 0 <= x.2.2 -> sign_step arb lwe EKs curBase beta x = Ok y ->
  round_bound q beta x.2.2 y.2.2 /\ (2 * x.2.2 * beta < 2 ^ 64 -> y.2.2 = 2 * x.2.2 * beta / q).
Proof using Hq Hbeta.
  intros Hx. unfold sign_step. destruct (EvalFloor _ _ _ _ _ _ _ _) as [fl|]; [|done]. rewrite bind_ok.
  unfold LShift, ushl, Mul, MulFast, DividedBy. cbn [NATIVEINT_DO_CHECKS andb]. change (0 <=? 1) with true. change (1 <? W) with true. cbn [andb].
  rewrite !bind_ok, (proj2 (Z.eqb_neq q 0)), bind_ok, Z.shiftl_mul_pow2 by lia. change (2 ^ 1) with 2. unfold wrap. change (2 ^ W) with (2 ^ 64).
  destruct (ModSwitch _ _) as [ct|]; [|done]. rewrite bind_ok. destruct (dynamic_base _ _ _ _ _) as [d|]; [|done]. rewrite bind_ok. intros [= <-]. cbn [snd].
  set (m := x.2.2) in *. destruct (word_le (m * 2) ltac:(lia)) as [U1 U2]. set (u := (m * 2) mod 2 ^ 64) in *. destruct (word_le (beta * u) ltac:(nia)) as [V1 V2].
  split; [split; [apply Z.div_pos; lia|]|].
  - pose proof (Z.mul_div_le ((beta * u) mod 2 ^ 64) q Hq). assert (beta * u <= beta * (m * 2)) by (apply Z.mul_le_mono_nonneg_l; lia). lia.
  - intros Hfit. destruct (Z.eq_dec beta 0) as [E0|Hne]; [rewrite E0, !Z.mul_0_l, Z.mul_0_r; done|].
    assert (m * 2 < 2 ^ 64) by nia. unfold u. rewrite (Z.mod_small (m * 2)), Z.mod_small by nia. f_equal. ring.
Qed.

Lemma decomp_step_modulus x y : 0 <= x.2.1.2 -> decomp_step arb lwe EKs curBase beta x = Ok y -> round_bound q beta x.2.1.2 y.2.1.2.
Proof using Hq Hbeta.
  intros Hx. unfold decomp_step. destruct (Lwe.SetModulus _ _) as [cq|]; [|done]. rewrite bind_ok. destruct (EvalFloor _ _ _ _ _ _ _ _) as [fl|]; [|done]. rewrite bind_ok.
  unfold Mul, MulFast, DividedBy. cbn [NATIVEINT_DO_CHECKS]. rewrite (proj2 (Z.eqb_neq q 0)), !bind_ok by lia. unfold wrap. change (2 ^ W) with (2 ^ 64).
  destruct (ModSwitch _ _) as [ct|]; [|done]. rewrite bind_ok. match goal with |- (?t ≫= _) = _ -> _ => destruct t as [d|]; [|done] end. rewrite bind_ok. intros [= <-]. cbn [fst snd].
  set (m := x.2.1.2) in *. assert (0 <= m / q) as Hd by (apply Z.div_pos; lia). pose proof (Z.mul_div_le m q Hq) as Hmd.
  destruct (word_le (2 * (m / q)) ltac:(lia)) as [U1 U2]. set (u := (2 * (m / q)) mod 2 ^ 64) in *. destruct (word_le (beta * u) ltac:(nia)) as [V1 V2].
  split; [done|]. assert (beta * u <= beta * (2 * (m / q))) by (apply Z.mul_le_mono_nonneg_l; lia).
  assert (q * (beta * (2 * (m / q))) <= 2 * beta * m) by (replace (q * (beta * (2 * (m / q)))) with (2 * beta * (q * (m / q))) by ring; apply Z.mul_le_mono_nonneg_l; lia).
  assert (q * ((beta * u) mod 2 ^ 64) <= q * (beta * (2 * (m / q)))) by (apply Z.mul_le_mono_nonneg_l; lia). lia.
Qed.

(** The two measures: the modulus, and its logarithm when a round halves it. *)
Lemma round_decreases m m' : 2 * beta < q -> q < m -> round_bound q beta m m' -> (Z.to_nat m' < Z.to_nat m)%nat.
Proof using Hq Hbeta. intros Hb Hm [H1 H2]. assert (m' < m) by nia. lia. Qed.

Lemma round_halves m m' : 4 * beta <= q -> q < m -> round_bound q beta m m' -> (Z.to_nat (Z.log2 m') < Z.to_nat (Z.log2 m))%nat.
Proof using Hq Hbeta.
  intros Hb Hm [H1 H2]. assert (2 * m' <= m) as Hh by nia. assert (1 <= Z.log2 m) by (change 1 with (Z.log2 2); apply Z.log2_le_mono; lia).
  destruct (Z.eq_dec m' 0) as [->|Hne]; [cbn; lia|]. pose proof (Z.log2_double m' ltac:(lia)) as E. pose proof (Z.log2_le_mono _ _ Hh). lia.
Qed.

Section Ends.
Context (mu : Z -> nat) (Hmu : forall m m', q < m -> round_bound q beta m m' -> (mu m' < mu m)%nat).

Lemma sign_ends bound x : 0 <= x.2.2 -> (mu x.2.2 <= bound)%nat -> ends_within bound (fun x => q <? x.2.2) (sign_step arb lwe EKs curBase beta) x.
Proof using Hq Hbeta Hmu.
  intros Hx Hle. apply (while_ends (fun x => 0 <= x.2.2) (fun x => mu x.2.2)); [| |done|done].
  - intros z Hz Hgo. apply Z.ltb_lt in Hgo. pose proof (Hmu z.2.2 0 Hgo ltac:(split; [lia|nia])). lia.
  - intros z y Hz Hgo E. apply Z.ltb_lt in Hgo. destruct (sign_step_modulus z y Hz E) as [Hr _]. split; [apply Hr|by apply Hmu].
Qed.

Lemma decomp_ends bound x : 0 <= x.2.1.2 -> (mu x.2.1.2 <= bound)%nat -> ends_within bound (fun x => q <? x.2.1.2) (decomp_step arb lwe EKs curBase beta) x.
Proof using Hq Hbeta Hmu.
  intros Hx Hle. apply (while_ends (fun x => 0 <= x.2.1.2) (fun x => mu x.2.1.2)); [| |done|done].
  - intros z Hz Hgo. apply Z.ltb_lt in Hgo. pose proof (Hmu z.2.1.2 0 Hgo ltac:(split; [lia|nia])). lia.
  - intros z y Hz Hgo E. apply Z.ltb_lt in Hgo. pose proof (decomp_step_modulus z y Hz E) as Hr. split; [apply Hr|by apply Hmu].
Qed.
End Ends.

(** With [q = 2 beta] no round changes the modulus. *)
Lemma sign_exhausts x fuel : q = 2 * beta -> q < x.2.2 -> x.2.2 * q < 2 ^ 64 ->
  (forall y, for_ fuel (fun _ => sign_step arb lwe EKs curBase beta) x = Ok y -> y.2.2 = x.2.2 /\ sign_loop arb fuel lwe EKs curBase beta x = Throw out_of_fuel) /\
  forall r, sign_loop arb fuel lwe EKs curBase beta x <> Ok r.
Proof using Hq Hbeta.
  intros E Hlt Hfit. apply (while_exhausts (fun y => y.2.2 = x.2.2)); [| |done].
  - intros y Hy. cbn beta. rewrite Hy. by apply Z.ltb_lt.
  - intros z y Hz Es. destruct (sign_step_modulus z y ltac:(lia) Es) as [_ Hex]. rewrite Hz in Hex. rewrite Hex by nia.
    rewrite E. replace (2 * x.2.2 * beta) with (x.2.2 * (2 * beta)) by ring. apply Z.div_mul. lia.
Qed.
End Rounds.

(** ** What the loops compute *)
Section Large.
Context {st : FTT} {Q psi : Z} {k : nat} {HR : RingTransform st Q psi k} (arb : FTT -> NativePoly -> res (FTT * NativePoly)).
Context (lwe : LWECryptoParams) (q qKS : Z) (base : nat) (t : list Z) (Hset : bt_setting lwe q Q qKS k (length t) base) (Hmq : m_q lwe = q).
Context (hN slack bound beta : Z) (HhN : 0 <= hN) (Hslack : 0 <= slack) (Hbound : 0 <= bound) (Hbeta : 0 <= beta) (Hodd : Z.odd Q = true).

(** Digits of [rr] bits, a window of [2 off] for every value, and at most [top]
    bits. *)
Context (off : Z) (rr top : nat) (Hoff : 0 < off) (Hrr : (0 < rr)%nat) (Hq : q = 2 * off * 2 ^ Z.of_nat rr).
Abbreviation n := (2 ^ k)%nat.
Abbreviation nn := (length t).
Abbreviation level j := (2 * off * 2 ^ Z.of_nat j).
Context (Htop : out_modulus (Q := Q) qKS (level top)) (Hround : 6 * level top * level top + 3 * level top + level top < 2 ^ 53) (Hwide : 2 * off * level top < 2 ^ 63).

Abbreviation good_keys_ := (good_keys (HR := HR) arb qKS base t hN slack bound beta).
Definition floor_noise : Z := func_noise (Q := Q) (k := k) qKS base t hN bound beta (level top).
Context (E : Z) (HE : 2 ^ Z.of_nat rr * (1 + norm1 t) + 2 * (floor_noise + slack) <= 2 * 2 ^ Z.of_nat rr * E) (Hmargin : E + floor_noise + 2 * slack < off).

(** A ciphertext of the value [V] of [j] bits. *)
Definition holds (j : nat) (V : Z) (ct : LWECiphertext) : Prop :=
  wf_ct (level j) nn ct /\ 0 <= V < 2 ^ Z.of_nat j /\ exists e, Z.abs e <= E /\ phase t ct ≡[level j] V * (2 * off) + e.

Lemma level_pos j : 2 * off <= level j /\ (2 | level j).
Proof using Hoff. clear - Hoff. assert (0 < 2 ^ Z.of_nat j) by (apply Z.pow_pos_nonneg; lia). split; [nia|]. exists (off * 2 ^ Z.of_nat j). ring. Qed.

Lemma level_mono i j : (i <= j)%nat -> level i <= level j.
Proof using Hoff. clear - Hoff. intros H. apply Z.mul_le_mono_nonneg_l; [lia|]. apply Z.pow_le_mono_r; lia. Qed.

Lemma level_split i j : (i <= j)%nat -> level j = level i * 2 ^ Z.of_nat (j - i).
Proof using Type. clear. intros H. replace (2 ^ Z.of_nat j) with (2 ^ Z.of_nat i * 2 ^ Z.of_nat (j - i)) by (rewrite <- Z.pow_add_r by lia; f_equal; lia). ring. Qed.

Lemma level_native j : (0 < j <= top)%nat -> NativeModulus W (level j) /\ 4 <= level j < 2 ^ 53.
Proof using All.
  intros Hj. pose proof (level_mono j top ltac:(lia)). pose proof (level_mono 1 j ltac:(lia)) as H1. change (2 ^ Z.of_nat 1) with 2 in H1.
  assert (0 <= 6 * level top * level top) by (pose proof (level_pos top); apply Z.mul_nonneg_nonneg; lia). assert (4 <= level j < 2 ^ 53) by (pose proof (level_pos top); lia).
  split; [|done]. apply native_modulus_bits; unfold W; lia.
Qed.

Lemma level_out j : (0 < j <= top)%nat -> out_modulus (Q := Q) qKS (level j).
Proof using All.
  intros Hj. apply (out_modulus_smaller lwe q qKS base t Hset _ (level top) Hodd); [|apply level_pos|done].
  pose proof (level_mono j top ltac:(lia)). pose proof (level_pos j). lia.
Qed.

(** The levels up to [rr] are the moduli that the accumulator turns. *)
Lemma level_in j : (0 < j <= rr)%nat -> (j <= top)%nat -> in_modulus (k := k) (level j).
Proof using All.
  intros Hj Hjt. split; [apply level_native; lia| |apply level_pos].
  apply (Z.divide_trans _ q); [|apply (bs_exponents Hset)]. exists (2 ^ Z.of_nat (rr - j)). rewrite Hq, (level_split j rr) by lia. ring.
Qed.

Lemma quarter_q : quarter q.
Proof using Hoff Hrr Hq.
  clear - Hoff Hrr Hq. exists (off * 2 ^ Z.of_nat (rr - 1)). assert (0 < 2 ^ Z.of_nat (rr - 1)) by (apply Z.pow_pos_nonneg; lia). split; [apply Z.mul_pos_pos; lia|].
  assert (2 ^ Z.of_nat rr = 2 * 2 ^ Z.of_nat (rr - 1)) as E2 by (rewrite <- Z.pow_succ_r by lia; f_equal; lia). rewrite Hq, E2. ring.
Qed.

Lemma floor_noise_nonneg : 0 <= floor_noise.
Proof using All. apply (func_noise_nonneg (HR := HR) lwe q qKS base t Hset); [done|done|done|]. pose proof (level_pos top). lia. Qed.

(** The division by [2 ^ rr] of a cleared value. *)
Lemma switch_round j J e ct : (rr < j <= top)%nat -> wf_ct (level j) nn ct -> Z.abs e <= floor_noise + slack -> 0 <= J < 2 ^ Z.of_nat (j - rr) -> phase t ct ≡[level j] q * J + e ->
  returns (ModSwitch (level (j - rr)) ct) (holds (j - rr) J).
Proof using All.
  intros Hj Hct He HJ Hph. destruct (level_native j ltac:(lia)) as [HL BL]. destruct (level_native (j - rr) ltac:(lia)) as [HL' BL'].
  pose proof (level_mono (j - rr) top ltac:(lia)). pose proof (level_mono j top ltac:(lia)). pose proof (level_pos top) as [Ltop _].
  assert (6 * level j * level (j - rr) <= 6 * level top * level top) by (apply Z.mul_le_mono_nonneg; lia).
  eapply returns_mono; [apply (ModSwitch_spec (level (j - rr)) (level j) nn t ct); (done || lia)|].
  intros ct' (W' & c & Hc). split; [done|]. split; [done|]. apply eqm_iff in Hph as [z Hz]. set (R := 2 ^ Z.of_nat rr) in *. assert (0 < R) as HR0 by (apply Z.pow_pos_nonneg; lia).
  assert (level j = level (j - rr) * R) as EL by (rewrite (level_split (j - rr) j) by lia; unfold R; do 3 f_equal; lia).
  set (L' := level (j - rr)) in *. rewrite EL in *.
  exists (phase t ct' + (c - z) * L' - J * (2 * off)). split; [|apply eqm_iff; exists (z - c); ring].
  set (e' := phase t ct' + (c - z) * L' - J * (2 * off)).
  assert (L' * R * (phase t ct' + c * L') - L' * phase t ct = L' * (R * e' - e)) as Ed by (unfold e'; rewrite Hz, Hq; fold R; ring).
  rewrite Ed, Z.abs_mul, (Z.abs_eq L') in Hc by lia. assert (2 * Z.abs (R * e' - e) <= R * (1 + norm1 t)) as Hc' by (apply (Z.mul_le_mono_pos_l _ _ L'); lia).
  assert (R * Z.abs e' = Z.abs (R * e')) as Ea by (rewrite Z.abs_mul, (Z.abs_eq R); lia).
  apply (Z.mul_le_mono_pos_l _ _ (2 * R)); lia.
Qed.

(** ** One round *)
Lemma floor_round ps EK j V ct : good_keys_ ps EK -> (rr < j <= top)%nat -> holds j V ct ->
  returns (EvalFloor arb lwe ps EK ct off 0 st) (fun r => r.1 = st /\ wf_ct (level j) nn r.2 /\
    exists e, Z.abs e <= floor_noise + slack /\ phase t r.2 ≡[level j] q * (V / 2 ^ Z.of_nat rr) + e).
Proof using All.
  intros HEK Hj (Hct & HV & e & He & Hph). pose proof floor_noise_nonneg as HF0. destruct (level_native j ltac:(lia)) as [HL BL]. pose proof (level_pos j) as [Lp _].
  assert (0 < 2 ^ Z.of_nat rr /\ 0 < 2 ^ Z.of_nat (rr - 1)) as [HR0 HR1] by (split; apply Z.pow_pos_nonneg; lia).
  assert (2 ^ Z.of_nat rr = 2 * 2 ^ Z.of_nat (rr - 1)) as ER by (rewrite <- Z.pow_succ_r by lia; f_equal; lia).
  assert (level rr <= level j) as Hle by (apply level_mono; lia). set (P := 2 ^ Z.of_nat (rr - 1)) in *.
  assert (q / 2 = 2 * off * P) as Eh by (rewrite Hq, ER; replace (2 * off * (2 * P)) with (2 * off * P * 2) by ring; apply Z.div_mul; lia).
  pose proof (func_noise_mono (HR := HR) lwe q qKS base t Hset hN bound beta (level j) (level top) HhN Hbound Hbeta ltac:(split; [lia|apply level_mono; lia])) as HF. fold floor_noise in HF.
  destruct (window_mod (2 * off) P V (off + e)) as [Ew _]; [lia|lia|lia|]. pose proof (Z.mod_pos_bound V P HR1).
  assert (0 <= (V mod P) * (2 * off) <= (P - 1) * (2 * off)) by (split; [apply Z.mul_nonneg_nonneg|apply Z.mul_le_mono_nonneg_r]; lia).
  eapply returns_mono; [apply (EvalFloor_spec (HR := HR) arb lwe q qKS base t Hset hN slack bound beta ps EK off 0 q (level j) ct (V * (2 * off) + (off + e)) (func_noise (Q := Q) (k := k) qKS base t hN bound beta (level j) + 2 * slack) HEK); try done|].
  - unfold floor_modulus. by rewrite Hmq.
  - rewrite Hq. apply level_in; lia.
  - apply quarter_q.
  - apply level_out. lia.
  - rewrite Hq, (level_split rr j) by lia. exists (2 ^ Z.of_nat (j - rr)). ring.
  - unfold reduced. nia.
  - rewrite Hph. apply eqm_refl. ring.
  - rewrite Eh, Ew. lia.
  - intros r (Er & Wr & e' & He' & Pr). split; [done|]. split; [done|]. exists e'. split; [lia|]. rewrite Pr. apply eqm_refl. do 2 f_equal.
    rewrite Hq. rewrite <- Z.div_div by lia. f_equal. symmetry. apply (Z.div_unique_pos _ _ _ (off + e)); lia.
Qed.

(** ** The keys

    With three keys in the map the base of the gadget changes between rounds:
    the keys of the two larger bases are good for the parameters after any
    changes to these bases. *)
Context (ps0 : RingGSWCryptoParams) (EKs : gmap Z RingGSWBTKey).
Definition dynamic (b : Z) : Prop := b = 2 ^ 27 \/ b = 2 ^ 18.
Definition sign_keys : Prop :=
  (exists EK, EKs !! r_baseG ps0 = Some EK /\ good_keys_ ps0 EK) /\
  (size EKs = 3%nat -> forall bases b, Forall dynamic bases -> dynamic b -> exists EK, EKs !! b = Some EK /\ good_keys_ (fold_left Change_BaseG (bases ++ [b]) ps0) EK).
Definition current (x : RingGSWCryptoParams * RingGSWBTKey) : Prop := (exists bases, Forall dynamic bases /\ x.1 = fold_left Change_BaseG bases ps0) /\ good_keys_ x.1 x.2.

Lemma dynamic_base_spec x curBase binLog : sign_keys -> current x -> returns (dynamic_base x.1 EKs curBase binLog x.2) current.
Proof using Type.
  intros [_ H3] [(bases & Hbs & Hx) Hk]. unfold dynamic_base. destruct (Nat.eqb_spec (size EKs) 3) as [E3|]; cbn [negb]; [|apply returns_ok; split; [by exists bases|done]].
  assert (forall b, dynamic b -> returns (match EKs !! b with None => Throw (no_key curBase) | Some EK => Ok (Change_BaseG x.1 b, EK) end) current) as Hb.
  { intros b Hb. destruct (H3 E3 bases b Hbs Hb) as (EK & -> & HEK). apply returns_ok. assert (Change_BaseG x.1 b = fold_left Change_BaseG (bases ++ [b]) ps0) as Eb by (rewrite fold_left_app, <- Hx; reflexivity).
    split; cbn [fst snd]; rewrite Eb; [exists (bases ++ [b]); split; [apply Forall_app; split; [done|by constructor]|done]|done]. }
  destruct (binLog <=? 17); [apply Hb; by left|]. destruct (binLog <=? 26); [apply Hb; by right|]. apply returns_ok. split; [by exists bases|done].
Qed.

(** The next modulus, as the two loops compute it. *)
Lemma next_modulus j : (rr < j <= top)%nat ->
  (m ← LShift W (level j) 1; m ← Mul W m off; DividedBy m q) = Ok (level (j - rr)) /\
  (m ← DividedBy (level j) q; m ← Mul W m 2; Mul W m off) = Ok (level (j - rr)).
Proof using All.
  intros Hj. pose proof (level_mono j top ltac:(lia)) as Hm. pose proof (level_pos j) as [Lp _]. pose proof (level_pos (j - rr)) as [Lp' _]. set (R := 2 ^ Z.of_nat rr) in *. assert (0 < R) as HR0 by (apply Z.pow_pos_nonneg; lia).
  assert (level j = level (j - rr) * R) as EL by (rewrite (level_split (j - rr) j) by lia; unfold R; do 3 f_equal; lia).
  assert (2 * off * level j <= 2 * off * level top) as Hw by (apply Z.mul_le_mono_nonneg_l; lia). assert (1 * level j <= 2 * off * level j) by (apply Z.mul_le_mono_nonneg_r; lia).
  assert (0 < q) as Hq0 by (rewrite Hq; fold R; apply Z.mul_pos_pos; lia). assert (0 < 2 ^ Z.of_nat (j - rr)) as Hp by (apply Z.pow_pos_nonneg; lia).
  assert (q = 2 * off * R) as Eq by exact Hq. split.
  - unfold LShift, ushl. cbn [andb]. rewrite Z.shiftl_mul_pow2 by lia. change (2 ^ 1) with 2. rewrite Z.mod_small by (change (2 ^ W) with (2 ^ 64); lia). change (if (0 <=? 1) && (1 <? W) then ?x else ?y) with x.
    rewrite bind_ok. unfold Mul, MulFast. cbn [NATIVEINT_DO_CHECKS]. rewrite wrap_small, bind_ok by (change (2 ^ W) with (2 ^ 64); lia). unfold DividedBy. rewrite (proj2 (Z.eqb_neq _ 0)) by lia. f_equal.
    rewrite EL, Eq. replace (off * (level (j - rr) * R * 2)) with (level (j - rr) * (2 * off * R)) by ring. apply Z.div_mul. lia.
  - unfold DividedBy. rewrite (proj2 (Z.eqb_neq _ 0)), bind_ok by lia. assert (level j / q = 2 ^ Z.of_nat (j - rr)) as ->.
    { rewrite EL, Eq. replace (2 * off * 2 ^ Z.of_nat (j - rr) * R) with (2 ^ Z.of_nat (j - rr) * (2 * off * R)) by ring. apply Z.div_mul. lia. }
    assert (2 * 2 ^ Z.of_nat (j - rr) <= level (j - rr)) by nia. assert (level (j - rr) <= level j) by (apply level_mono; lia).
    unfold Mul, MulFast. cbn [NATIVEINT_DO_CHECKS]. rewrite wrap_small, bind_ok by (change (2 ^ W) with (2 ^ 64); lia). rewrite wrap_small by (change (2 ^ W) with (2 ^ 64); lia). f_equal. ring.
Qed.
(** ** The rounds *)
Definition sign_state (j : nat) (V : Z) (x : FTT * (RingGSWCryptoParams * RingGSWBTKey) * (LWECiphertext * Z)) : Prop :=
  x.1.1 = st /\ current x.1.2 /\ holds j V x.2.1 /\ x.2.2 = level j.

Lemma next_value j V : (rr < j)%nat -> 0 <= V < 2 ^ Z.of_nat j -> 0 <= V / 2 ^ Z.of_nat rr < 2 ^ Z.of_nat (j - rr).
Proof using Type.
  clear. intros Hj HV. assert (0 < 2 ^ Z.of_nat rr) by (apply Z.pow_pos_nonneg; lia). split; [apply Z.div_pos; lia|]. apply Z.div_lt_upper_bound; [done|].
  rewrite <- Z.pow_add_r by lia. replace (Z.of_nat rr + Z.of_nat (j - rr)) with (Z.of_nat j) by lia. lia.
Qed.

Lemma sign_step_spec curBase j V x : sign_keys -> (rr < j <= top)%nat -> sign_state j V x ->
  returns (sign_step arb lwe EKs curBase off x) (sign_state (j - rr) (V / 2 ^ Z.of_nat rr)).
Proof using All.
  intros HK Hj (Est & Hcur & Hct & Em). destruct x as [[st1 pe] [ct m]]. cbn [fst snd] in *. subst st1 m. unfold sign_step. cbn [fst snd].
  eapply returns_bind; [apply (floor_round pe.1 pe.2 j V); [apply Hcur|done|done]|]. intros [st1 c] (-> & Wc & e & He & Pc). cbn [fst snd] in *.
  rewrite Hmq. pose proof (proj1 (next_modulus j Hj)) as En. destruct (LShift W (level j) 1) as [m1|]; [|done]. rewrite bind_ok in En. rewrite bind_ok. destruct (Mul W m1 off) as [m2|]; [|done].
  rewrite bind_ok in En. rewrite bind_ok. rewrite En, bind_ok.
  eapply returns_bind; [apply (switch_round j (V / 2 ^ Z.of_nat rr) e c Hj Wc He); [apply next_value; [lia|apply Hct]|done]|]. intros ct' Hct'.
  eapply returns_bind; [by apply dynamic_base_spec|]. intros pe' Hpe'. by apply returns_ok.
Qed.

(** The highest bit does not change. *)
Definition sign_bit (j : nat) (V : Z) : Z := if 2 * V <? 2 ^ Z.of_nat j then 0 else 1.

Lemma sign_bit_next j V : (rr < j)%nat -> sign_bit (j - rr) (V / 2 ^ Z.of_nat rr) = sign_bit j V.
Proof using Type.
  clear. intros Hj. unfold sign_bit. set (R := 2 ^ Z.of_nat rr). assert (0 < R) as HR0 by (apply Z.pow_pos_nonneg; lia).
  set (h := 2 ^ Z.of_nat (j - rr - 1)). assert (2 ^ Z.of_nat (j - rr) = 2 * h) as -> by (unfold h; rewrite <- Z.pow_succ_r by lia; f_equal; lia).
  assert (2 ^ Z.of_nat j = 2 * (h * R)) as ->.
  { unfold h, R. rewrite <- Z.pow_add_r, <- Z.pow_succ_r by lia. f_equal. lia. }
  pose proof (Z.div_mod V R ltac:(lia)) as D. pose proof (Z.mod_pos_bound V R HR0).
  destruct (Z.ltb_spec (2 * (V / R)) (2 * h)) as [H1|H1], (Z.ltb_spec (2 * V) (2 * (h * R))) as [H2|H2]; [done| | |done].
  - assert (R * (V / R) <= R * (h - 1)) by (apply Z.mul_le_mono_nonneg_l; lia). lia.
  - assert (R * h <= R * (V / R)) by (apply Z.mul_le_mono_nonneg_l; lia). lia.
Qed.

Lemma level_lt i j : level i < level j <-> (i < j)%nat.
Proof using Hoff.
  clear - Hoff. split; intros H.
  - apply Nat.nle_gt. intros Hle. pose proof (level_mono j i Hle). lia.
  - assert (level i < level j); [|done]. apply Z.mul_lt_mono_pos_l; [lia|]. apply Z.pow_lt_mono_r; lia.
Qed.

Lemma sign_loop_spec curBase fuel : forall j V x, sign_keys -> (j <= fuel)%nat -> (0 < j <= top)%nat -> sign_state j V x ->
  returns (sign_loop arb fuel lwe EKs curBase off x) (fun y => exists j' V', (0 < j' <= rr)%nat /\ (j' <= top)%nat /\ sign_state j' V' y /\ sign_bit j' V' = sign_bit j V).
Proof using All.
  unfold sign_loop. induction fuel as [|fuel IH]; intros j V x HK Hf Hj Hx; [lia|]. cbn [while_]. assert (x.2.2 = level j) as Em by apply Hx.
  destruct (Z.ltb_spec (m_q lwe) x.2.2) as [Hlt|Hge].
  - rewrite Hmq, Hq, Em in Hlt. apply level_lt in Hlt. eapply returns_bind; [apply (sign_step_spec curBase j V); (done || lia)|]. intros y Hy.
    eapply returns_mono; [apply (IH (j - rr)%nat (V / 2 ^ Z.of_nat rr) y HK); (done || lia)|]. intros z (j' & V' & Hj' & Hjt & Hz & Hs'). exists j', V'. do 3 (split; [done|]). rewrite Hs'. by apply sign_bit_next.
  - rewrite Hmq, Hq, Em in Hge. apply returns_ok. exists j, V. assert (~ (rr < j)%nat) by (intros H; apply level_lt in H; lia). split; [lia|]. by split; [lia|].
Qed.

(** ** The sign *)
Lemma holds_position j V ct d : (0 < j <= top)%nat -> holds j V ct -> Z.abs d <= slack -> exists ct', EvalAddConstEq ct off = ct' /\ wf_ct (level j) nn ct' /\
  sign_bit j V = if (phase t ct' - d) mod level j <? level j / 2 then 0 else 1.
Proof using All.
  intros Hj (Hct & HV & e & He & Hph) Hd. destruct (level_native j Hj) as [HL BL]. pose proof (level_mono 1 j ltac:(lia)) as H1. change (2 ^ Z.of_nat 1) with 2 in H1. pose proof floor_noise_nonneg.
  destruct (add_const t (level j) ct off HL Hct ltac:(unfold reduced; lia)) as [W1 P1]. eexists. split; [done|]. split; [done|].
  assert (2 ^ Z.of_nat j = 2 * 2 ^ Z.of_nat (j - 1)) as EJ by (rewrite <- Z.pow_succ_r by lia; f_equal; lia). set (h := 2 ^ Z.of_nat (j - 1)) in *.
  assert ((phase t (EvalAddConstEq ct off) - d) mod level j = V * (2 * off) + (off + e - d)) as ->.
  { symmetry. apply eqm_canon; [|rewrite P1, Hph; apply eqm_refl; ring]. assert (0 <= V * (2 * off) <= (2 ^ Z.of_nat j - 1) * (2 * off)) by (split; [apply Z.mul_nonneg_nonneg|apply Z.mul_le_mono_nonneg_r]; lia). lia. }
  assert (level j / 2 = h * (2 * off)) as -> by (rewrite EJ; replace (2 * off * (2 * h)) with (h * (2 * off) * 2) by ring; apply Z.div_mul; lia). unfold sign_bit. rewrite EJ.
  destruct (Z.ltb_spec (2 * V) (2 * h)) as [Hl|Hl]; [rewrite (proj2 (Z.ltb_lt _ _))|rewrite (proj2 (Z.ltb_ge _ _))]; try done.
  - assert (V * (2 * off) <= (h - 1) * (2 * off)) by (apply Z.mul_le_mono_nonneg_r; lia). lia.
  - assert (h * (2 * off) <= V * (2 * off)) by (apply Z.mul_le_mono_nonneg_r; lia). lia.
Qed.

(** What [EvalSign] returns for the sign bit [b]: [b q / 2], or for the scheme
    switch [-q / 4] and [q / 4]. *)
Definition sign_target (schemeSwitch : bool) (b : Z) : Z := if schemeSwitch then (2 * b - 1) * (q / 4) else b * (q / 2).

Theorem EvalSign_spec fuel ct V schemeSwitch : sign_keys -> (rr < top <= fuel)%nat -> holds top V ct ->
  returns (EvalSign arb fuel lwe ps0 EKs ct off schemeSwitch st) (fun r => r.1.1 = st /\ wf_ct q nn r.2 /\
    exists e, Z.abs e <= floor_noise /\ phase t r.2 ≡[q] sign_target schemeSwitch (sign_bit top V) + e).
Proof using All.
  intros HK Ht Hct. assert (GetModulus ct = level top) as Em by (by destruct Hct as [[(? & _) _] _]). assert (q < level top) as Hlt by (rewrite Hq; apply level_lt; lia).
  destruct HK as [(EK & EEK & HEK) H3]. unfold EvalSign. rewrite Em, Hmq, (proj2 (Z.leb_gt _ _)), EEK by done.
  eapply returns_bind; [apply (sign_loop_spec (r_baseG ps0) fuel top V (st, (ps0, EK), (copy_LWECiphertext ct, level top))); [split; [by exists EK|done]|lia|lia|]|].
  { split; [done|]. split; [|done]. split; [by exists []; split; [constructor|]|done]. }
  intros [[st1 pe] [ct1 m]] (j & V' & Hj & Hjt & (Est & Hcur & Hct1 & _) & <-). cbn [fst snd] in *. subst st1.
  assert (out_modulus (Q := Q) qKS q) as Hom by (rewrite Hq; apply level_out; lia). pose proof (level_in j Hj Hjt) as Him.
  destruct (holds_position j V' ct1 0 ltac:(lia) Hct1 ltac:(lia)) as (ct2 & E2 & W2 & _). rewrite E2.
  destruct (quarter_shifts q quarter_q) as (_ & E4 & c & Hc & Ec & E5 & E6). assert (NativeModulus W q) as Hnq by (rewrite Hq; apply level_native; lia).
  assert (q < 2 ^ 53) as Hq53 by (rewrite Hq; apply level_native; lia).
  eapply returns_bind; [apply (BootstrapFunc_spec (HR := HR) arb lwe q qKS base t Hset hN slack bound beta pe.1 pe.2 (level j) q (f_sign schemeSwitch) (sign_value schemeSwitch (level j) q) ct2); try done; [apply Hcur|apply f_sign_spec; [apply level_pos|lia]]|].
  intros [st2 r] (-> & W3 & _ & d & e & Hd & He & P3). cbn [fst snd] in *. apply returns_ok. cbn [fst snd]. split; [done|].
  pose proof (func_noise_mono (HR := HR) lwe q qKS base t Hset hN bound beta q (level top) HhN Hbound Hbeta ltac:(lia)) as HF. fold floor_noise in HF.
  destruct (holds_position j V' ct1 d ltac:(lia) Hct1 Hd) as (ct2' & E2' & _ & Hb). rewrite E2 in E2'. subst ct2'. unfold sign_value in P3. unfold sign_target. rewrite Hb.
  destruct schemeSwitch.
  - split; [done|]. exists e. split; [lia|]. rewrite P3. destruct (_ <? _); cbn [eqb]; apply eqm_iff; [exists 1|exists 0]; lia.
  - destruct (sub_const t q r (Z.shiftr q 2) Hnq W3 ltac:(rewrite E4; unfold reduced; lia)) as [W4 P4]. split; [done|]. exists e. split; [lia|]. rewrite P4, P3, E4.
    destruct (_ <? _); cbn [eqb]; apply eqm_iff; exists 0; lia.
Qed.

(** ** The digits *)
Definition decomp_state (j : nat) (V : Z) (cts : list LWECiphertext) (x : FTT * (RingGSWCryptoParams * RingGSWBTKey) * (LWECiphertext * Z * list LWECiphertext)) : Prop :=
  x.1.1 = st /\ current x.1.2 /\ holds j V x.2.1.1 /\ x.2.1.2 = level j /\ x.2.2 = cts.

Lemma lowest_digit j V ct : (rr < j <= top)%nat -> holds j V ct -> returns (Lwe.SetModulus ct q) (holds rr (V mod 2 ^ Z.of_nat rr)).
Proof using All.
  intros Hj (Hct & HV & e & He & Hph). assert (0 < 2 ^ Z.of_nat rr) as HR0 by (apply Z.pow_pos_nonneg; lia). assert (NativeModulus W q /\ 4 <= q < 2 ^ 53) as [Hnq Bq] by (rewrite Hq; apply level_native; lia).
  assert (GetMSB W q <= 60) as Hb. { rewrite GetMSB_spec by (change (2 ^ W) with (2 ^ 64); unfold W; lia). enough (Z.log2 q < 59) by lia. apply Z.log2_lt_pow2; lia. }
  assert (q | level j) as Hdiv by (rewrite Hq, (level_split rr j) by lia; exists (2 ^ Z.of_nat (j - rr)); ring).
  eapply returns_mono; [apply (SetModulus_down t (level j) q ct); try done; apply level_native; lia|].
  intros ct' (W' & _ & P'). unfold holds. rewrite <- Hq. split; [done|]. split; [by apply Z.mod_pos_bound|]. exists e. split; [done|].
  rewrite P'. transitivity (V * (2 * off) + e); [by apply (eqm_divisor (level j))|]. apply eqm_iff. exists (V / 2 ^ Z.of_nat rr). pose proof (Z.div_mod V (2 ^ Z.of_nat rr) ltac:(lia)) as D. rewrite D at 1. rewrite Hq. ring.
Qed.

Lemma decomp_step_spec curBase j V cts x : sign_keys -> (rr < j <= top)%nat -> decomp_state j V cts x ->
  returns (decomp_step arb lwe EKs curBase off x) (fun y => exists ct, holds rr (V mod 2 ^ Z.of_nat rr) ct /\ decomp_state (j - rr) (V / 2 ^ Z.of_nat rr) (cts ++ [ct]) y).
Proof using All.
  intros HK Hj (Est & Hcur & Hct & Em & Ec). destruct x as [[st1 pe] [[ct m] l]]. cbn [fst snd] in *. subst st1 m l. unfold decomp_step. cbn [fst snd]. rewrite Hmq.
  eapply returns_bind; [by apply (lowest_digit j V (copy_LWECiphertext ct))|]. intros ctq Hctq.
  eapply returns_bind; [apply (floor_round pe.1 pe.2 j V); [apply Hcur|done|done]|]. intros [st1 c] (-> & Wc & e & He & Pc). cbn [fst snd] in *.
  pose proof (proj2 (next_modulus j Hj)) as En. destruct (DividedBy (level j) q) as [m1|]; [|done]. rewrite bind_ok in En. rewrite bind_ok. destruct (Mul W m1 2) as [m2|]; [|done].
  rewrite bind_ok in En. rewrite bind_ok, En, bind_ok.
  eapply returns_bind; [apply (switch_round j (V / 2 ^ Z.of_nat rr) e c Hj Wc He); [apply next_value; [lia|apply Hct]|done]|]. intros ct' Hct'.
  assert ((level (j - rr) =? 0) = false) as -> by (apply Z.eqb_neq; pose proof (level_pos (j - rr)); lia). cbn [andb].
  eapply returns_bind; [by apply dynamic_base_spec|]. intros pe' Hpe'. apply returns_ok. by exists ctq.
Qed.

Definition from_digits (ds : list Z) : Z := foldr (fun d acc => d + 2 ^ Z.of_nat rr * acc) 0 ds.

Lemma decomp_loop_spec curBase fuel : forall j V cts x, sign_keys -> (j <= fuel)%nat -> (0 < j <= top)%nat -> decomp_state j V cts x ->
  returns (decomp_loop arb fuel lwe EKs curBase off x) (fun y => exists j' V' ds cts', (0 < j' <= rr)%nat /\ (j' <= top)%nat /\ decomp_state j' V' (cts ++ cts') y /\
    Forall2 (holds rr) ds cts' /\ V = from_digits (ds ++ [V'])).
Proof using All.
  unfold decomp_loop. induction fuel as [|fuel IH]; intros j V cts x HK Hf Hj Hx; [lia|]. cbn [while_]. assert (x.2.1.2 = level j) as Em by apply Hx.
  destruct (Z.ltb_spec (m_q lwe) x.2.1.2) as [Hlt|Hge].
  - rewrite Hmq, Hq, Em in Hlt. apply level_lt in Hlt. eapply returns_bind; [apply (decomp_step_spec curBase j V cts); (done || lia)|]. intros y (ct & Hct & Hy).
    eapply returns_mono; [apply (IH (j - rr)%nat (V / 2 ^ Z.of_nat rr) (cts ++ [ct]) y HK); (done || lia)|]. intros z (j' & V' & ds & cts' & Hj' & Hjt & Hz & Hds & EV).
    exists j', V', (V mod 2 ^ Z.of_nat rr :: ds), (ct :: cts'). rewrite <- app_assoc in Hz. do 3 (split; [done|]). split; [by constructor|]. cbn [app from_digits foldr]. unfold from_digits in EV. rewrite <- EV.
    pose proof (Z.div_mod V (2 ^ Z.of_nat rr) ltac:(apply Z.pow_nonzero; lia)). lia.
  - rewrite Hmq, Hq, Em in Hge. apply returns_ok. exists j, V, [], []. assert (~ (rr < j)%nat) by (intros H; apply level_lt in H; lia). split; [lia|]. split; [lia|]. rewrite app_nil_r. split; [done|].
    split; [by constructor|]. cbn. ring.
Qed.

Theorem EvalDecomp_spec fuel ct V : sign_keys -> (rr < top <= fuel)%nat -> holds top V ct ->
  returns (EvalDecomp arb fuel lwe ps0 EKs ct off st) (fun r => r.1.1 = st /\ exists j V' ds cts ct', (0 < j <= rr)%nat /\ r.2 = cts ++ [ct'] /\
    Forall2 (holds rr) ds cts /\ holds j V' ct' /\ V = from_digits (ds ++ [V'])).
Proof using All.
  intros HK Ht Hct. assert (GetModulus ct = level top) as Em by (by destruct Hct as [[(? & _) _] _]). assert (q < level top) as Hlt by (rewrite Hq; apply level_lt; lia).
  destruct HK as [(EK & EEK & HEK) H3]. unfold EvalDecomp. rewrite Em, Hmq, (proj2 (Z.leb_gt _ _)), EEK by done.
  eapply returns_bind; [apply (decomp_loop_spec (r_baseG ps0) fuel top V [] (st, (ps0, EK), (copy_LWECiphertext ct, level top, []))); [split; [by exists EK|done]|lia|lia|]|].
  { split; [done|]. split; [|done]. split; [by exists []; split; [constructor|]|done]. }
  intros [[st1 pe] [[ct1 m] l]] (j & V' & ds & cts & Hj & Hjt & (Est & Hcur & Hct1 & _ & El) & Hds & EV). cbn [fst snd] in *. subst st1 l. apply returns_ok. cbn [fst snd].
  split; [done|]. exists j, V', ds, cts, ct1. by do 4 (split; [done|]).
Qed.
End Large.
