(* ===== verification/Context.v ===== *)
(** * The context of the library

    Models [src/binfhe/lib/binfhecontext.cpp] and the constants of
    [src/binfhe/include/binfhecontext.h]: the table of the parameter sets, the
    three [GenerateBinFHEContext], the bootstrapping keys that a context keeps
    ([BTKeyGen]) and the operations on ciphertexts with the keys of the context.
    The parameters of the polynomials and the dimension of the security tables
    are arguments, as is what the generators draw. *)

From Stdlib Require Import ZArith Lia String.
From stdpp Require Import base tactics numbers list strings gmap sorting.
From S2P Require Import NativeVec SchemeCore Prelude NativeInt NativeIntFacts ModArith Ntt Poly AccCore RgswAcc Lwe MkLwe MNtru MkAcc Gates NumberTheory.

(** ** Parameter sets *)
Inductive BINFHE_PARAMSET :=
  TOY | MEDIUM | STD128_LMKCDEY | STD128_AP | STD128 | STD192 | STD256 | STD128Q | STD128Q_LMKCDEY | STD192Q | STD256Q
| STD128_3 | STD128_3_LMKCDEY | STD128Q_3 | STD128Q_3_LMKCDEY | STD192Q_3 | STD256Q_3
| STD128_4 | STD128_4_LMKCDEY | STD128Q_4 | STD128Q_4_LMKCDEY | STD192Q_4 | STD256Q_4 | SIGNED_MOD_TEST
| P128T | P128G | P128T_2 | P128G_2 | STD128_LMKCDEY_New | P192T | P192G
| STD128_MKNTRU | STD128_MKNTRU_2 | STD128_MKNTRU_3 | STD128_MKNTRU_4
| STD128_MKNTRU_LWE | STD128_MKNTRU_LWE_2 | STD128_MKNTRU_LWE_3 | STD128_MKNTRU_LWE_4
| STD100_MKNTRU | STD100_MKNTRU_2 | STD100_MKNTRU_3 | STD100_MKNTRU_4
| STD100_MKNTRU_LWE | STD100_MKNTRU_LWE_2 | STD100_MKNTRU_LWE_3 | STD100_MKNTRU_LWE_4.
#[export] Instance BINFHE_PARAMSET_eq_dec : EqDecision BINFHE_PARAMSET.
Proof. solve_decision. Defined.

Inductive SecretKeyDist := GAUSSIAN | UNIFORM_TERNARY | SPARSE_TERNARY | BINARY.
#[export] Instance SecretKeyDist_eq_dec : EqDecision SecretKeyDist.
Proof. solve_decision. Defined.

(** The standard deviation is in hundredths. *)
Record BinFHEContextParams := CtxParams {
  numUser : nat; numberBits : Z; cyclOrder : Z; latticeParam : nat; mod_ : Z; modKS : Z; stdDev : Z; baseKS : Z; gadgetBase : Z; baseRK : Z;
  numAutoKeys : nat; keyDist : SecretKeyDist
}.

Definition PRIME : Z := 0.
Definition STD_DEV : Z := 190.
Definition STD_NTRU : Z := 50.
Definition STD_NTRU2 : Z := 75.

Definition paramsMap (set : BINFHE_PARAMSET) : option BinFHEContextParams :=
  match set with
  | TOY => Some (CtxParams 1 27 1024 64 512 PRIME STD_DEV 25 (2 ^ 9) 23 9 UNIFORM_TERNARY)
  | MEDIUM => Some (CtxParams 1 28 2048 422 1024 (2 ^ 14) STD_DEV (2 ^ 7) (2 ^ 10) 32 10 UNIFORM_TERNARY)
  | STD192 => Some (CtxParams 1 37 4096 805 1024 (2 ^ 15) STD_DEV 32 (2 ^ 13) 32 10 UNIFORM_TERNARY)
  | STD256 => Some (CtxParams 1 29 4096 990 2048 (2 ^ 14) STD_DEV (2 ^ 7) (2 ^ 8) 46 10 UNIFORM_TERNARY)
  | STD128Q => Some (CtxParams 1 25 2048 534 1024 (2 ^ 14) STD_DEV 32 (2 ^ 7) 32 10 UNIFORM_TERNARY)
  | STD128Q_LMKCDEY => Some (CtxParams 1 27 2048 448 1024 (2 ^ 13) STD_DEV 32 (2 ^ 9) 32 10 GAUSSIAN)
  | STD192Q => Some (CtxParams 1 35 4096 875 1024 (2 ^ 15) STD_DEV 32 (2 ^ 12) 32 10 UNIFORM_TERNARY)
  | STD256Q => Some (CtxParams 1 27 4096 1225 1024 (2 ^ 16) STD_DEV 16 (2 ^ 7) 32 10 UNIFORM_TERNARY)
  | STD128_3 => Some (CtxParams 1 27 2048 541 1024 (2 ^ 15) STD_DEV 32 (2 ^ 7) 32 10 UNIFORM_TERNARY)
  | STD128_3_LMKCDEY => Some (CtxParams 1 28 2048 485 1024 (2 ^ 15) STD_DEV 32 (2 ^ 10) 32 10 GAUSSIAN)
  | STD128Q_3_LMKCDEY => Some (CtxParams 1 27 2048 524 1024 (2 ^ 15) STD_DEV 32 (2 ^ 9) 32 10 GAUSSIAN)
  | STD192Q_3 => Some (CtxParams 1 34 4096 922 2048 (2 ^ 16) STD_DEV 16 (2 ^ 12) 32 10 UNIFORM_TERNARY)
  | STD256Q_3 => Some (CtxParams 1 27 4096 1400 4096 (2 ^ 16) STD_DEV 21 (2 ^ 6) 32 10 UNIFORM_TERNARY)
  | STD128_4 => Some (CtxParams 1 27 2048 541 2048 (2 ^ 15) STD_DEV 32 (2 ^ 7) 32 10 UNIFORM_TERNARY)
  | STD128_4_LMKCDEY => Some (CtxParams 1 28 2048 522 2048 (2 ^ 15) STD_DEV 32 (2 ^ 10) 32 10 GAUSSIAN)
  | STD128Q_4 => Some (CtxParams 1 50 4096 647 2048 (2 ^ 16) STD_DEV 16 (2 ^ 25) 32 10 UNIFORM_TERNARY)
  | STD128Q_4_LMKCDEY => Some (CtxParams 1 27 2048 524 2048 (2 ^ 15) STD_DEV 32 (2 ^ 7) 32 10 GAUSSIAN)
  | STD192Q_4 => Some (CtxParams 1 34 4096 980 2048 (2 ^ 17) STD_DEV 16 (2 ^ 12) 32 10 UNIFORM_TERNARY)
  | STD256Q_4 => Some (CtxParams 1 27 4096 1625 4096 (2 ^ 21) STD_DEV 16 (2 ^ 6) 32 10 UNIFORM_TERNARY)
  | SIGNED_MOD_TEST => Some (CtxParams 1 28 2048 512 1024 PRIME STD_DEV 25 (2 ^ 7) 23 10 UNIFORM_TERNARY)
  | STD128_LMKCDEY => Some (CtxParams 1 28 2048 446 1024 (2 ^ 13) STD_DEV (2 ^ 5) (2 ^ 10) 32 10 GAUSSIAN)
  | STD128_LMKCDEY_New => Some (CtxParams 1 28 2048 446 1024 (2 ^ 13) STD_DEV (2 ^ 5) (2 ^ 7) 32 10 GAUSSIAN)
  | STD128_AP => Some (CtxParams 1 27 2048 503 1024 (2 ^ 14) STD_DEV (2 ^ 5) (2 ^ 9) 32 10 UNIFORM_TERNARY)
  | STD128 => Some (CtxParams 1 27 2048 503 1024 (2 ^ 14) STD_DEV (2 ^ 5) (2 ^ 9) 32 10 UNIFORM_TERNARY)
  | P128T => Some (CtxParams 1 21 2048 512 1024 (2 ^ 14) STD_NTRU 32 (2 ^ 7) 32 10 UNIFORM_TERNARY)
  | P128G => Some (CtxParams 1 21 2048 446 1024 (2 ^ 14) STD_NTRU 32 (2 ^ 7) 32 10 GAUSSIAN)
  | P128T_2 => Some (CtxParams 1 21 2048 512 1024 (2 ^ 14) STD_NTRU 32 (2 ^ 6) 32 10 UNIFORM_TERNARY)
  | P128G_2 => Some (CtxParams 1 21 2048 446 1024 (2 ^ 14) STD_NTRU 32 (2 ^ 5) 32 10 GAUSSIAN)
  | P192T => Some (CtxParams 1 26 4096 1024 1024 (2 ^ 17) STD_NTRU 28 (2 ^ 9) 32 10 UNIFORM_TERNARY)
  | P192G => Some (CtxParams 1 26 4096 805 1024 (2 ^ 17) STD_NTRU 28 (2 ^ 9) 32 10 GAUSSIAN)
  | STD128_MKNTRU => Some (CtxParams 2 27 4096 765 45181 45181 STD_NTRU 32 (2 ^ 7) 32 10 UNIFORM_TERNARY)
  | STD128_MKNTRU_2 => Some (CtxParams 4 27 4096 765 45181 45181 STD_NTRU 32 (2 ^ 7) 32 10 UNIFORM_TERNARY)
  | STD128_MKNTRU_3 => Some (CtxParams 8 27 4096 765 45181 45181 STD_NTRU 32 (2 ^ 6) 32 10 UNIFORM_TERNARY)
  | STD128_MKNTRU_4 => Some (CtxParams 16 27 4096 765 45181 45181 STD_NTRU 32 (2 ^ 5) 32 10 UNIFORM_TERNARY)
  | STD128_MKNTRU_LWE => Some (CtxParams 2 27 4096 635 32749 32749 STD_DEV 32 (2 ^ 9) 2 10 BINARY)
  | STD128_MKNTRU_LWE_2 => Some (CtxParams 4 27 4096 635 32749 32749 STD_DEV 32 (2 ^ 9) 2 10 BINARY)
  | STD128_MKNTRU_LWE_3 => Some (CtxParams 8 27 4096 635 32749 32749 STD_DEV 32 (2 ^ 9) 2 10 BINARY)
  | STD128_MKNTRU_LWE_4 => Some (CtxParams 16 27 4096 635 32749 32749 STD_DEV 32 (2 ^ 7) 2 10 BINARY)
  | STD100_MKNTRU => Some (CtxParams 2 27 4096 560 45181 45181 STD_NTRU2 32 (2 ^ 9) 32 10 UNIFORM_TERNARY)
  | STD100_MKNTRU_2 => Some (CtxParams 4 27 4096 560 45181 45181 STD_NTRU2 32 (2 ^ 9) 32 10 UNIFORM_TERNARY)
  | STD100_MKNTRU_3 => Some (CtxParams 8 27 4096 560 45181 45181 STD_NTRU2 32 (2 ^ 9) 32 10 UNIFORM_TERNARY)
  | STD100_MKNTRU_4 => Some (CtxParams 16 27 4096 560 45181 45181 STD_NTRU2 32 (2 ^ 9) 32 10 UNIFORM_TERNARY)
  | STD100_MKNTRU_LWE => Some (CtxParams 2 27 4096 500 32749 32749 STD_DEV 32 (2 ^ 9) 2 10 BINARY)
  | STD100_MKNTRU_LWE_2 => Some (CtxParams 4 27 4096 500 32749 32749 STD_DEV 32 (2 ^ 9) 2 10 BINARY)
  | STD100_MKNTRU_LWE_3 => Some (CtxParams 8 27 4096 500 32749 32749 STD_DEV 32 (2 ^ 9) 2 10 BINARY)
  | STD100_MKNTRU_LWE_4 => Some (CtxParams 16 27 4096 500 32749 32749 STD_DEV 32 (2 ^ 9) 2 10 BINARY)
  | STD128Q_3 => None
  end.

(** ** Generation of a context

    [BinFHECryptoParams] holds one of three pairs of parameters. *)
Inductive BinFHECryptoParams :=
  | SingleKey (lwe : LWECryptoParams) (rgsw : RingGSWCryptoParams)
  | MultiNTRU (mntru : MNTRUCryptoParams) (unienc : UniEncCryptoParams)
  | MultiLWE (mklwe : MKLWECryptoParams) (unienc : UniEncCryptoParams).

Section Context_.
Context (arb : FTT -> NativePoly -> res (FTT * NativePoly)).

(** The constructor of the parameters of the multi-key accumulator. *)
Definition new_UniEncCryptoParams (k N : nat) (Q q baseG : Z) (method : BINFHE_METHOD) (numAutoKeys : nat) (polyParams : ILParams) (st : FTT) :
    res (FTT * UniEncCryptoParams) :=
  if negb (IsPowerOfTwo baseG) then Throw (config_error "Gadget base should be a power of two.") else
  if bool_decide (method = LMKCDEY) && (numAutoKeys =? 0)%nat then Throw (config_error "numAutoKeys should be greater than 0.") else
  MkAcc.PreCompute arb (UniEncParams k N Q q baseG (digit_count baseG Q) method polyParams [] [] []) st.

Section Generation.
Context {G : Type} (draw : Z -> Z -> G -> Z * G) (fuel : nat).

(** [ILNativeParams(2 N, Q)]: the order, the modulus and its root of unity. *)
Context (polyParams : nat -> Z -> ILParams).

(** The prime below the first one of the size. *)
Definition intermediate_prime (bits m : Z) (g : G) : res (Z * G) :=
  f ← FirstPrime draw fuel fuel bits m g;
  PreviousPrime draw fuel fuel f.1 m f.2.

(** With explicit parameters.  The tables are those of the sign evaluation. *)
Definition GenerateBinFHEContext_explicit (n N : nat) (q Q baseKS baseG baseR : Z) (method : BINFHE_METHOD) (numAutoKeys : nat) (st : FTT) :
    res (FTT * BinFHECryptoParams) :=
  lwe ← new_LWECryptoParams n N q Q Q baseKS;
  rgsw ← new_RingGSWCryptoParams arb N Q q baseG baseR method true numAutoKeys (polyParams N Q) st;
  Ok (rgsw.1, SingleKey lwe rgsw.2).

(** For large precision.  [FindRingDim] is the table of the security
    standard. *)
Definition precision_base (logQ : Z) : Z * Z :=
  if 25 <? logQ then (2 ^ 14, 54) else if 16 <? logQ then (2 ^ 18, 54) else if 11 <? logQ then (2 ^ 27, 54) else (2 ^ 5, 27).
Definition GenerateBinFHEContext_precision (FindRingDim : Z -> Z) (set : BINFHE_PARAMSET) (arbFunc : bool) (logQ : Z) (N : Z) (method : BINFHE_METHOD)
    (timeOptimization : bool) (st : FTT) (g : G) : res (FTT * BinFHECryptoParams * G) :=
  if negb (bool_decide (GINX = method)) then Throw (not_implemented_error "ERROR: CGGI is the only supported method") else
  if negb (bool_decide (set = STD128)) && negb (bool_decide (set = TOY)) then Throw (not_implemented_error "ERROR: STD128 and TOY are the only supported sets") else
  if 29 <? logQ then Throw (not_implemented_error "ERROR: logQ > 29 is not supported") else
  if logQ <? 11 then Throw (not_implemented_error "ERROR: logQ < 11 is not supported") else
  let b := precision_base logQ in
  let ringDim := if FindRingDim b.2 <=? N then N else FindRingDim b.2 in
  Q ← intermediate_prime b.2 (2 * ringDim) g;
  let q := if arbFunc then ringDim else 2 * ringDim in
  let n := if bool_decide (set = TOY) then 32%nat else 1305%nat in
  lwe ← new_LWECryptoParams n (Z.to_nat ringDim) q Q.1 (2 ^ 35) 32;
  rgsw ← new_RingGSWCryptoParams arb (Z.to_nat ringDim) Q.1 q b.1 23 method (negb (logQ =? 11) && timeOptimization) 10 (polyParams (Z.to_nat ringDim) Q.1) st;
  Ok (rgsw.1, SingleKey lwe rgsw.2, Q.2).

(** For a parameter set.  The parameters of all the schemes are made, whatever
    the method is. *)
Definition ks_modulus (p : BinFHEContextParams) (Q : Z) : Z := if PRIME =? modKS p then Q else modKS p.
Definition unknown_set : exn := config_error "ERROR: Unknown parameter set for FHEW.".
Definition GenerateBinFHEContext (set : BINFHE_PARAMSET) (method : BINFHE_METHOD) (st : FTT) (g : G) : res (FTT * BinFHECryptoParams * G) :=
  match paramsMap set with
  | None => Throw unknown_set
  | Some p =>
    Q ← intermediate_prime (numberBits p) (cyclOrder p) g;
    let ringDim := Z.to_nat (cyclOrder p / 2) in
    let pp := polyParams ringDim Q.1 in
    lwe ← new_LWECryptoParams (latticeParam p) ringDim (mod_ p) Q.1 (ks_modulus p Q.1) (baseKS p);
    mntru ← new_MNTRUCryptoParams (numUser p) (latticeParam p) ringDim (mod_ p) Q.1 (modKS p) (baseKS p);
    mklwe ← new_MKLWECryptoParams (numUser p) (latticeParam p) ringDim (mod_ p) Q.1 (modKS p) (baseKS p);
    r ← (if bool_decide (method ∈ [MKNTRU; MKNTRU_B])
         then u ← new_UniEncCryptoParams (numUser p) ringDim Q.1 (mod_ p) (gadgetBase p) method (numAutoKeys p) pp st; Ok (u.1, MultiNTRU mntru u.2)
         else if bool_decide (method = MKNTRU_LWE)
         then u ← new_UniEncCryptoParams (numUser p) ringDim Q.1 (mod_ p) (gadgetBase p) method (numAutoKeys p) pp st; Ok (u.1, MultiLWE mklwe u.2)
         else w ← new_RingGSWCryptoParams arb ringDim Q.1 (mod_ p) (gadgetBase p) (baseRK p) method false (numAutoKeys p) pp st; Ok (w.1, SingleKey lwe w.2));
    Ok (r, Q.2)
  end.

Definition GenerateBinFHEContext_custom (p : BinFHEContextParams) (method : BINFHE_METHOD) (st : FTT) (g : G) : res (FTT * BinFHECryptoParams * G) :=
  Q ← intermediate_prime (numberBits p) (cyclOrder p) g;
  let ringDim := Z.to_nat (cyclOrder p / 2) in
  lwe ← new_LWECryptoParams (latticeParam p) ringDim (mod_ p) Q.1 (ks_modulus p Q.1) (baseKS p);
  rgsw ← new_RingGSWCryptoParams arb ringDim Q.1 (mod_ p) (gadgetBase p) (baseRK p) method false (numAutoKeys p) (polyParams ringDim Q.1) st;
  Ok (rgsw.1, SingleKey lwe rgsw.2, Q.2).
End Generation.

(** ** The keys of a context *)
Record BinFHEContext := Ctx {
  c_lwe : LWECryptoParams;
  c_rgsw : RingGSWCryptoParams;
  c_BTKey : RingGSWBTKey;
  c_BTKey_map : gmap Z RingGSWBTKey;
  c_timeOptimization : bool
}.
Definition new_context (lwe : LWECryptoParams) (rgsw : RingGSWCryptoParams) (timeOptimization : bool) : BinFHEContext :=
  Ctx lwe rgsw (GSWBTKey None None None) ∅ timeOptimization.

(** What one generation of keys draws. *)
Record KeyDraws := Draws {
  kd_skN : NativeVector; kd_pkA : list NativeVector; kd_pke : NativeVector; kd_gaussA : nat -> nat -> nat -> NativeVector;
  kd_err : nat -> nat -> nat -> Z; kd_sample : nat -> nat -> nat -> RgswSample; kd_auto : nat -> nat -> NativeVector * NativeVector
}.
Definition KeyGen_ (lwe : LWECryptoParams) (ps : RingGSWCryptoParams) (sk : NativeVector) (mode : KEYGEN_MODE) (d : KeyDraws) (st : FTT) : res (FTT * RingGSWBTKey) :=
  Gates.KeyGen arb lwe ps sk mode (kd_skN d) (kd_pkA d) (kd_pke d) (kd_gaussA d) (kd_err d) (kd_sample d) (kd_auto d) st.

(** The bases of a map of tables, in increasing order. *)
Definition map_bases {A} (m : gmap Z A) : list Z := merge_sort Z.le (map_to_list m).*1.

(** A key for every base of the tables; the base of the parameters changes. *)
Fixpoint keys_for_bases (bases : list Z) (lwe : LWECryptoParams) (ps : RingGSWCryptoParams) (sk : NativeVector) (mode : KEYGEN_MODE) (draws : Z -> KeyDraws)
    (m : gmap Z RingGSWBTKey) (st : FTT) : res (FTT * (RingGSWCryptoParams * gmap Z RingGSWBTKey)) :=
  match bases with
  | [] => Ok (st, (ps, m))
  | b :: bases' =>
    let ps := Change_BaseG ps b in
    k ← KeyGen_ lwe ps sk mode (draws b) st;
    keys_for_bases bases' lwe ps sk mode draws (<[b := k.2]> m) k.1
  end.

(** [draws 0] is for the key of the current base. *)
Definition BTKeyGen (c : BinFHEContext) (sk : NativeVector) (mode : KEYGEN_MODE) (draws : Z -> KeyDraws) (st : FTT) : res (FTT * BinFHEContext) :=
  let temp := r_baseG (c_rgsw c) in
  x ← (if c_timeOptimization c
       then y ← keys_for_bases (map_bases (r_Gpower_map (c_rgsw c))) (c_lwe c) (c_rgsw c) sk mode draws (c_BTKey_map c) st; Ok (y.1, (Change_BaseG y.2.1 temp, y.2.2))
       else Ok (st, (c_rgsw c, c_BTKey_map c)));
  if negb (size x.2.2 =? 0)%nat
  then let k := default (GSWBTKey None None None) (x.2.2 !! temp) in
       Ok (x.1, Ctx (c_lwe c) x.2.1 k (<[temp := k]> x.2.2) (c_timeOptimization c))
  else k ← KeyGen_ (c_lwe c) x.2.1 sk mode (draws 0) x.1;
       Ok (k.1, Ctx (c_lwe c) x.2.1 k.2 (<[temp := k.2]> x.2.2) (c_timeOptimization c)).

(** Loading and clearing the keys. *)
Definition BTKeyLoad (c : BinFHEContext) (key : RingGSWBTKey) : BinFHEContext := Ctx (c_lwe c) (c_rgsw c) key (c_BTKey_map c) (c_timeOptimization c).
Definition BTKeyMapLoadSingleElement (c : BinFHEContext) (baseG : Z) (key : RingGSWBTKey) : BinFHEContext :=
  Ctx (c_lwe c) (c_rgsw c) (c_BTKey c) (<[baseG := key]> (c_BTKey_map c)) (c_timeOptimization c).
Definition ClearBTKeys (c : BinFHEContext) : BinFHEContext := Ctx (c_lwe c) (c_rgsw c) (GSWBTKey None None None) ∅ (c_timeOptimization c).

(** ** Operations *)
Definition GetBeta : Z := 128.
Definition GetMaxPlaintextSpace (c : BinFHEContext) : res Z := b ← LShift W GetBeta 1; DividedBy (m_q (c_lwe c)) b.

(** Without a modulus the encryption is for that of the parameters. *)
Definition Encrypt (c : BinFHEContext) (sk : NativeVector) (m p mod_ : Z) (err : Z) (a : NativeVector) : res LWECiphertext :=
  Lwe.Encrypt sk m p (if mod_ =? 0 then m_q (c_lwe c) else mod_) err a.
Definition Encrypt_pk (c : BinFHEContext) (pk : LWEPublicKey) (m p mod_ : Z) (err : Z) (sp ep : NativeVector) : res LWECiphertext :=
  Lwe.EncryptN pk m p (if mod_ =? 0 then m_Q (c_lwe c) else mod_) err sp ep.

(** The check refuses a ciphertext that differs in both the length and the
    modulus. *)
Definition SwitchCTtoqn (c : BinFHEContext) (ksk : LWESwitchingKey) (ct : LWECiphertext) : res LWECiphertext :=
  if negb (Lwe.GetLength ct =? m_N (c_lwe c))%nat && negb (Lwe.GetModulus ct =? m_Q (c_lwe c))
  then Throw (config_error "ERROR: Ciphertext dimension and modulus are not large N and Q") else Lwe.SwitchCTtoqn (c_lwe c) ksk ct.

Definition EvalBinGate (c : BinFHEContext) (gate : BINGATE) (same : bool) (ct1 ct2 : LWECiphertext) (st : FTT) : res (FTT * LWECiphertext) :=
  Gates.EvalBinGate arb (c_lwe c) (c_rgsw c) gate (c_BTKey c) same ct1 ct2 st.
Definition Bootstrap (c : BinFHEContext) (ct : LWECiphertext) (st : FTT) : res (FTT * LWECiphertext) :=
  Gates.Bootstrap arb (c_lwe c) (c_rgsw c) (c_BTKey c) ct st.
Definition EvalFunc (c : BinFHEContext) (ct : LWECiphertext) (LUT : list Z) (st : FTT) : res (FTT * LWECiphertext) :=
  Gates.EvalFunc arb (c_lwe c) (c_rgsw c) (c_BTKey c) ct LUT GetBeta st.
Definition EvalFloor (c : BinFHEContext) (ct : LWECiphertext) (roundbits : Z) (st : FTT) : res (FTT * LWECiphertext) :=
  Gates.EvalFloor arb (c_lwe c) (c_rgsw c) (c_BTKey c) ct GetBeta roundbits st.

(** The copy of the parameters shares those of the accumulator: their base is
    that which the evaluation leaves. *)
Definition with_rgsw (c : BinFHEContext) (ps : RingGSWCryptoParams) : BinFHEContext := Ctx (c_lwe c) ps (c_BTKey c) (c_BTKey_map c) (c_timeOptimization c).
Definition EvalSign (fuel : nat) (c : BinFHEContext) (ct : LWECiphertext) (schemeSwitch : bool) (st : FTT) : res (FTT * BinFHEContext * LWECiphertext) :=
  r ← Gates.EvalSign arb fuel (c_lwe c) (c_rgsw c) (c_BTKey_map c) ct GetBeta schemeSwitch st;
  Ok (r.1.1, with_rgsw c r.1.2, r.2).
Definition EvalDecomp (fuel : nat) (c : BinFHEContext) (ct : LWECiphertext) (st : FTT) : res (FTT * BinFHEContext * list LWECiphertext) :=
  r ← Gates.EvalDecomp arb fuel (c_lwe c) (c_rgsw c) (c_BTKey_map c) ct GetBeta st;
  Ok (r.1.1, with_rgsw c r.1.2, r.2).

(** The table of a function of a plaintext modulo [p], a power of two: the
    value of the window of each position, at the scale of a window.  The code
    compares logarithms as doubles, which agree with those of integers for the
    [p] of tables that fit in memory. *)
Definition GenerateLUTviaFunction (c : BinFHEContext) (f : Z -> Z -> Z) (p : Z) : res (list Z) :=
  if negb (Z.log2_up p =? Z.log2 p) then Throw (not_implemented_error "ERROR: Only support plaintext space to be power-of-two.") else
  let q := m_q (c_lwe c) in
  interval ← DividedBy q p;
  tabulateM (Z.to_nat (ConvertToInt 32 q)) (fun i =>
    x ← DividedBy (Z.of_nat i) interval;
    let temp := f x p in
    if p <=? temp then Throw (not_implemented_error "ERROR: input function should output in Z_{p_output}.") else Mul W temp interval).
End Context_.
