(* ===== verification/ContextSpec.v ===== *)
(** * The keys of a context

    [BTKeyGen] fills a new context with keys that are good for the gates and for
    the evaluations of functions and of large precision: one key for the base
    of the parameters, or, when the tables of the sign evaluation have been
    made, one for every base of [baseGlist]. *)

From Stdlib Require Import ZArith Lia String.
From stdpp Require Import base tactics numbers list strings gmap sorting.
From S2P Require Import NativeVec SchemeCore Prelude Double NativeInt NativeIntFacts ModArith Negacyclic BitReverse Ntt NttFacts NttSpec NttRing Poly PolyFacts Automorphism Gadget RingNoise RingCoefficients AccCore AccCoreFacts RgswAcc LogTable RgswFacts RgswRotation RgswKeys AutoKeys LmkRotation AccSpec Lwe Gates GatesFacts GatesSpec GatesEval GatesKeys FuncSpec SignSpec Context.

(** ** The bases of the tables *)
Lemma map_bases_sign (Q : Z) : map_bases (sign_powers (Q := Q)) = baseGlist.
Proof.
  unfold map_bases. apply (StronglySorted_unique Z.le); [apply StronglySorted_merge_sort; apply _|unfold baseGlist; repeat constructor; lia|].
  rewrite merge_sort_Permutation. unfold sign_powers, baseGlist. cbn zeta.
  rewrite !map_to_list_insert by (rewrite ?lookup_insert_ne by done; apply lookup_empty). rewrite map_to_list_empty. cbn [fmap list_fmap fst].
  etransitivity; [apply perm_swap|]. etransitivity; [apply perm_skip, perm_swap|]. apply perm_swap.
Qed.

(** ** Larger bounds *)
Section Bounds.
Context {st : FTT} {Q psi : Z} {k : nat} {HR : RingTransform st Q psi k} (arb : FTT -> NativePoly -> res (FTT * NativePoly)).

Lemma rlwe_state_bound s v T b b' acc : b <= b' -> rlwe_state (q := Q) (psi := psi) (k := k) s v T b acc -> rlwe_state (q := Q) (psi := psi) (k := k) s v T b' acc.
Proof. intros Hb (c0 & c1 & E & W0 & W1 & noise & Wn & Hn & Ep). exists c0, c1. do 3 (split; [done|]). exists noise. split; [done|]. split; [by eapply inf_le_mono|done]. Qed.

Lemma good_bt_bound ps mu qKS base t s slack bound bound' beta EK : bound <= bound' -> good_bt (HR := HR) arb ps mu qKS base t s slack bound beta EK ->
  good_bt (HR := HR) arb ps mu qKS base t s slack bound' beta EK.
Proof.
  intros Hb (H1 & H2 & (ek & E & eval & Eev & Hrot) & HK). split; [done|]. split; [lia|]. split; [|done]. exists ek. split; [done|]. exists eval. split; [done|].
  destruct Hrot as [[B1 B2] Hr]. split; [lia|]. intros v a Hv Ha. eapply returns_mono; [by apply Hr|]. intros r (Er & d & Hd & Hst). split; [done|]. exists d. split; [done|]. by apply (rlwe_state_bound s v _ bound).
Qed.
End Bounds.

Section Keys.
Context {st : FTT} {Q psi : Z} {k : nat} {HR : RingTransform st Q psi k} (arb : FTT -> NativePoly -> res (FTT * NativePoly)).
Context (lwe : LWECryptoParams) (q qKS : Z) (base : nat) (t : list Z) (Hset : bt_setting lwe q Q qKS k (length t) base).
Context (m_ hN bound beta : Z) (mode : KEYGEN_MODE).
Abbreviation good_keys_ := (good_keys (HR := HR) arb qKS base t hN 0 bound beta).
Abbreviation sign_keys_ := (sign_keys (HR := HR) arb qKS base t hN 0 bound beta).
Abbreviation sk := (secret_key t m_).

#[local] Instance context_modulus : NativeModulus W Q.
Proof using HR. exact rt_modulus. Qed.

(** The draws for a gadget of base [2 ^ g]. *)
Record draws_ok (ps : RingGSWCryptoParams) (g : Z) (G : nat) (d : KeyDraws) : Prop := {
  do_method : r_method ps = GINX /\ r_q ps = q;
  do_setting : method_setting (Q := Q) g G ps q qKS base t;
  do_draws : exists s sg ep, kd_skN d = NVec Q s /\ norm1 (map (centred Q) s) <= hN /\ rotation_noise (Q := Q) g G ps q t sg ep <= bound /\
    bt_draws (Q := Q) (k := k) G qKS t m_ s sg ep beta mode (kd_pkA d) (kd_pke d) (kd_gaussA d) (kd_err d) (kd_sample d)
}.

Lemma KeyGen_good ps g G d : rgsw_params ps Q psi k g G -> draws_ok ps g G d -> returns (KeyGen_ arb lwe ps sk mode d st) (fun r => r.1 = st /\ good_keys_ ps r.2).
Proof using Hset.
  intros Hps [[Hm Hrq] Hmeth (s & sg & ep & Es & HhN & Hb & Hd)]. unfold KeyGen_. rewrite Es.
  eapply returns_mono; [apply (KeyGen_spec (HR := HR) arb g G lwe ps Hps q qKS base t Hset Hrq m_ s sg ep beta mode (kd_pkA d) (kd_pke d) (kd_gaussA d) (kd_err d) (kd_sample d) (kd_auto d) Hmeth Hd ltac:(unfold auto_draws; by rewrite Hm))|].
  intros r [Er Hk]. split; [done|]. split; [by exists g, G|]. exists s. split; [apply (bd_ring Hd)|]. split; [done|].
  intros mu Hmu Hdiv. apply (good_bt_bound (HR := HR) arb) with (bound := rotation_noise (Q := Q) g G ps q t sg ep); [done|].
  assert (rotation_slack ps t = 0) as E0 by (unfold rotation_slack, acc_slack; by rewrite Hm). rewrite <- E0. apply Hk; [done|done|]. by rewrite Hm.
Qed.

(** Without the tables there is one key. *)
Lemma BTKeyGen_single ps g G draws : rgsw_params ps Q psi k g G -> draws_ok ps g G (draws 0) ->
  returns (BTKeyGen arb (new_context lwe ps false) sk mode draws st)
    (fun r => r.1 = st /\ c_lwe r.2 = lwe /\ c_rgsw r.2 = ps /\ good_keys_ ps (c_BTKey r.2) /\ sign_keys_ ps (c_BTKey_map r.2)).
Proof using Hset.
  intros Hps Hd. unfold BTKeyGen. cbn [new_context c_timeOptimization c_rgsw c_BTKey_map c_lwe]. rewrite bind_ok. cbn [fst snd]. rewrite map_size_empty. cbn [Nat.eqb negb].
  eapply returns_bind; [by apply (KeyGen_good ps g G)|]. intros [st' K] [Est HK]. cbn [fst snd] in *. subst st'. apply returns_ok. cbn [fst snd c_lwe c_rgsw c_BTKey c_BTKey_map].
  do 3 (split; [done|]). split; [done|]. split; [exists K; split; [apply lookup_insert_eq|done]|].
  rewrite map_size_insert_None, map_size_empty by apply lookup_empty. done.
Qed.

(** With the tables there is one for every base. *)
Context (ps : RingGSWCryptoParams) (draws : Z -> KeyDraws).
Context (Htab : r_Gpower_map ps = sign_powers (Q := Q)) (Hself : with_base ps (r_baseG ps) = ps) (Hcur : r_baseG ps ∈ baseGlist).
Context (Hdraws : forall b, b ∈ baseGlist -> exists g G, b = 2 ^ g /\ rgsw_params (with_base ps b) Q psi k g G /\ draws_ok (with_base ps b) g G (draws b)).

Lemma change_base b b' : b' ∈ baseGlist -> Change_BaseG (with_base ps b) b' = with_base ps b'.
Proof using Htab. intros Hb. by apply (Change_BaseG_with (Q := Q)). Qed.

Lemma change_bases bases : Forall (fun b => b ∈ baseGlist) bases -> forall b, b ∈ baseGlist -> fold_left Change_BaseG (bases ++ [b]) ps = with_base ps b.
Proof using Htab Hself Hcur.
  intros Hbs b Hb. rewrite fold_left_app. cbn [fold_left]. assert (exists b0, fold_left Change_BaseG bases ps = with_base ps b0) as [b0 ->]; [|by apply change_base].
  replace (fold_left Change_BaseG bases ps) with (fold_left Change_BaseG bases (with_base ps (r_baseG ps))) by (by rewrite Hself).
  generalize (r_baseG ps). clear - Htab Hbs. induction Hbs as [|x l Hx _ IH]; intros b0; cbn [fold_left]; [by eexists|]. rewrite change_base by done. apply IH.
Qed.

Definition keys_at (bases : list Z) (m : gmap Z RingGSWBTKey) : Prop :=
  dom m = list_to_set bases /\ forall b, b ∈ bases -> exists K, m !! b = Some K /\ good_keys_ (with_base ps b) K.

Lemma keys_for_bases_spec bases : Forall (fun b => b ∈ baseGlist) bases -> forall b0 done_ m, keys_at done_ m ->
  returns (keys_for_bases arb bases lwe (with_base ps b0) sk mode draws m st)
    (fun r => r.1 = st /\ (exists b1, r.2.1 = with_base ps b1) /\ keys_at (List.rev bases ++ done_) r.2.2).
Proof using All.
  induction 1 as [|b bases Hb _ IH]; intros b0 done_ m Hm; cbn [keys_for_bases].
  - apply returns_ok. cbn [fst snd]. split; [done|]. split; [by exists b0|done].
  - rewrite change_base by done. destruct (Hdraws b Hb) as (g & G & _ & Hps & Hd).
    eapply returns_bind; [by apply (KeyGen_good (with_base ps b) g G)|]. intros [st' K] [Est HK]. cbn [fst snd] in *. subst st'.
    cbn [List.rev]. rewrite <- app_assoc. apply (IH b (b :: done_)). destruct Hm as [Hdom Hm]. split; [rewrite dom_insert_L, Hdom; done|].
    intros x Hx%list_elem_of_In. destruct Hx as [<-|Hx]; [exists K; split; [apply lookup_insert_eq|done]|].
    destruct (decide (x = b)) as [->|Hne]; [exists K; split; [apply lookup_insert_eq|done]|]. rewrite lookup_insert_ne by done. apply Hm. by apply list_elem_of_In.
Qed.

Lemma BTKeyGen_tables :
  returns (BTKeyGen arb (new_context lwe ps true) sk mode draws st)
    (fun r => r.1 = st /\ c_lwe r.2 = lwe /\ c_rgsw r.2 = ps /\ good_keys_ ps (c_BTKey r.2) /\ sign_keys_ ps (c_BTKey_map r.2)).
Proof using All.
  unfold BTKeyGen. cbn [new_context c_timeOptimization c_rgsw c_BTKey_map c_lwe]. rewrite Htab, map_bases_sign.
  assert (Forall (fun b => b ∈ baseGlist) baseGlist) as Hall by (apply Forall_forall; done). assert (keys_at [] ∅) as H0 by (split; [set_solver|intros b Hb; set_solver]).
  destruct (keys_for_bases_spec baseGlist Hall (r_baseG ps) [] ∅ H0) as ([st' [ps' m]] & E & Est & [b1 Eps] & Hdom & Hm). cbn [fst snd] in *. subst st' ps'. rewrite Hself in E.
  rewrite E, bind_ok. cbn [fst snd]. rewrite change_base, Hself, bind_ok by done. cbn [fst snd].
  assert (forall b, b ∈ baseGlist -> exists K, m !! b = Some K /\ good_keys_ (with_base ps b) K) as Hmb.
  { intros b Hb. apply Hm. rewrite app_nil_r. apply list_elem_of_In, in_rev. rewrite rev_involutive. by apply list_elem_of_In. }
  destruct (Hmb (r_baseG ps) Hcur) as (K & EK & HK). rewrite Hself in HK.
  assert ((size m =? 0) = false)%nat as ->. { apply Nat.eqb_neq. intros E0. apply map_size_empty_inv in E0. rewrite E0 in EK. done. }
  cbn [negb]. rewrite EK. cbn [default]. rewrite insert_id by done. apply returns_ok. cbn [fst snd c_lwe c_rgsw c_BTKey c_BTKey_map].
  do 3 (split; [done|]). split; [done|]. split; [by exists K|]. intros _ bases b Hbs Hb.
  assert (forall x, dynamic x -> x ∈ baseGlist) as Hdyn by (intros x [-> | ->]; apply list_elem_of_In; unfold baseGlist; cbn; auto).
  rewrite (change_bases bases) by (try (eapply Forall_impl; [exact Hbs|]); auto). apply Hmb. by apply Hdyn.
Qed.
End Keys.

(** ** A new context *)
Lemma IsPowerOfTwo_spec g : 0 <= g -> IsPowerOfTwo (2 ^ g) = true.
Proof.
  intros Hg. unfold IsPowerOfTwo. assert (0 < 2 ^ g) by (apply Z.pow_pos_nonneg; lia). rewrite (proj2 (Z.eqb_neq _ _)) by lia.
  replace (2 ^ g - 1) with (Z.ones g) by (rewrite Z.ones_equiv; lia). by rewrite Z.land_ones, Z.mod_same by lia.
Qed.

Section New.
Context {st : FTT} {Q psi : Z} {k : nat} {HR : RingTransform st Q psi k} (arb : FTT -> NativePoly -> res (FTT * NativePoly)).
Context (lwe : LWECryptoParams) (q qKS : Z) (base : nat) (t : list Z) (Hset : bt_setting lwe q Q qKS k (length t) base).
Context (m_ hN bound beta : Z) (mode : KEYGEN_MODE) (baseG baseR : Z) (numAutoKeys : nat) (draws : Z -> KeyDraws).
Abbreviation good_keys_ := (good_keys (HR := HR) arb qKS base t hN 0 bound beta).
Abbreviation sign_keys_ := (sign_keys (HR := HR) arb qKS base t hN 0 bound beta).
Abbreviation sk := (secret_key t m_).
Abbreviation draws_ok_ := (draws_ok (Q := Q) (k := k) q qKS base t m_ hN bound beta mode).

Definition fresh_rgsw : RingGSWCryptoParams :=
  RGSWParams Q q (2 ^ k) baseG baseR (digit_count baseG Q) [] [] [] ∅ (ring_par Q psi k) [] [] GINX numAutoKeys.

(** The draws of the key for the base [b]. *)
Definition draws_for (b : Z) (d : KeyDraws) : Prop :=
  exists g G, b = 2 ^ g /\ b < Q /\ digit_count b Q = S G /\ (S G <= ceil_log Q)%nat /\ draws_ok_ fresh_rgsw g G d.
Definition keys_setting (tables : bool) : Prop :=
  if tables then 2 ^ 27 < Q /\ baseG ∈ baseGlist /\ Forall (fun b => draws_for b (draws b)) baseGlist else draws_for baseG (draws 0).

Lemma draws_same ps ps' g G d : same_choice ps ps' -> draws_ok_ ps g G d -> draws_ok_ ps' g G d.
Proof using Type.
  intros Hsame [[H1 H2] [S1 S2 S3] (s & sg & ep & D1 & D2 & D3 & D4)]. destruct (acc_same_choice Q g G ps ps' q (fun i => t !!! i) (length t) sg ep Hsame) as (M1 & _ & M3).
  destruct Hsame as (E1 & E2 & _). split; [by rewrite E1, E2|split; [done|by apply M1|done]|].
  exists s, sg, ep. split; [done|]. split; [done|]. split; [|done]. unfold rotation_noise in *. by rewrite M3.
Qed.

(** The parameters and the keys of a new context. *)
Definition context_keys (tables : bool) : res (FTT * BinFHEContext) :=
  ps ← new_RingGSWCryptoParams arb (2 ^ k) Q q baseG baseR GINX tables numAutoKeys (ring_par Q psi k) st;
  BTKeyGen arb (new_context lwe ps.2 tables) sk mode draws ps.1.

Lemma context_keys_good tables : keys_setting tables -> returns (context_keys tables)
  (fun r => r.1 = st /\ c_lwe r.2 = lwe /\ good_keys_ (c_rgsw r.2) (c_BTKey r.2) /\ sign_keys_ (c_rgsw r.2) (c_BTKey_map r.2)).
Proof using Hset.
  intros Hk. unfold context_keys, new_RingGSWCryptoParams. fold fresh_rgsw.
  assert (exists g, baseG = 2 ^ g /\ 1 <= g <= 31) as (g0 & Eb & Hg0).
  { destruct tables; [destruct Hk as (_ & Hb & _); apply list_elem_of_In in Hb; destruct Hb as [<- | [<- | [<- | []]]]; [exists 14|exists 18|exists 27]; by split|].
    destruct Hk as (g & G & Eb & _ & _ & _ & Hd). exists g. split; [done|]. apply (ms_gadget (do_setting _ _ _ _ _ _ _ _ _ _ _ _ _ Hd)). }
  assert (IsPowerOfTwo baseG = true) as Hpow by (rewrite Eb; apply IsPowerOfTwo_spec; lia).
  assert (bool_decide (GINX = LMKCDEY) = false) as Hl by (by apply bool_decide_eq_false_2). rewrite Hpow, Hl. cbn [negb andb]. destruct tables.
  - destruct Hk as (HQ & Hb & Hall). rewrite Forall_forall in Hall.
    destruct (PreCompute_sign (HR := HR) arb fresh_rgsw HQ) as (ps & -> & Hself & Htab & Hsame & Hps); [split; try done; by split|]. rewrite bind_ok. cbn [fst snd].
    assert (r_baseG ps = baseG) as Ebg by (by rewrite <- Hself).
    assert (forall b, b ∈ baseGlist -> exists g G, b = 2 ^ g /\ rgsw_params (with_base ps b) Q psi k g G /\ draws_ok_ (with_base ps b) g G (draws b)) as Hdr.
    { intros b Hb'. destruct (Hall b Hb') as (g & G & E & HbQ & Ed & HL & Hd). exists g, G. split; [done|]. rewrite E in *. split; [by apply Hps|].
      apply (draws_same fresh_rgsw); [|done]. by destruct Hsame as (E1 & E2 & E3 & E4 & E5). }
    eapply returns_mono; [exact (BTKeyGen_tables (HR := HR) arb lwe q qKS base t Hset m_ hN bound beta mode ps draws Htab ltac:(by rewrite Ebg) ltac:(by rewrite Ebg) Hdr)|].
    intros r (E1 & E2 & E3 & H1 & H2). by rewrite E3.
  - destruct Hk as (g & G & E & HbQ & Ed & HL & Hd). destruct (do_setting _ _ _ _ _ _ _ _ _ _ _ _ _ Hd) as [Hgad _ _].
    destruct (PreCompute_rgsw (HR := HR) arb g G fresh_rgsw) as (ps & -> & Hps & Hsame); [lia|by rewrite <- E|split; try done; by left|]. rewrite bind_ok. cbn [fst snd].
    eapply returns_mono; [apply (BTKeyGen_single (HR := HR) arb lwe q qKS base t Hset m_ hN bound beta mode ps g G draws Hps); by apply (draws_same fresh_rgsw)|].
    intros r (E1 & E2 & E3 & H1 & H2). by rewrite E3.
Qed.
End New.
