(* ===== verification/ContextProps.v ===== *)
(** * Properties of a context

    From the generation of the keys to decryption: evaluation of functions given
    by tables, and the sign and the digits of values of large precision. *)

From Stdlib Require Import ZArith Lia String.
From stdpp Require Import base tactics numbers list strings gmap sorting.
From S2P Require Import NativeVec SchemeCore Prelude Double NativeInt NativeIntFacts ModArith Negacyclic BitReverse Ntt NttFacts NttSpec NttRing Poly PolyFacts Automorphism Gadget RingNoise RingCoefficients AccCore AccCoreFacts RgswAcc RgswFacts RgswRotation RgswKeys Lwe LweProps Gates GatesFacts GatesSpec GatesEval GatesKeys GatesProps FuncSpec SignSpec Context ContextSpec.

Section Secret.
Context (t : list Z) (m_ : Z) (Hm : 3 <= m_) (Hm_ : NativeModulus W m_) (Ht : forall i, (i < length t)%nat -> -1 <= t !!! i <= 1).
Abbreviation sk := (secret_key t m_).

Lemma decrypt_value q m p e ct : NativeModulus W q -> 0 <= m < p -> wf_ct q (length t) ct -> phase t ct ≡[q] m * (q / p) + e -> 2 * p * (Z.abs e + p) < q ->
  Z.of_nat (length t) * q < 2 ^ 64 -> p * q <= 2 ^ 64 -> Decrypt sk ct p = Ok m.
Proof using All.
  intros Hq Hp Hct Hph He Hfit Hpq. pose proof (nm_bounds (w := W) (m := q)) as Bq. destruct (secret_key_wf t m_ Hm Hm_) as [Wsk Lsk].
  rewrite (Decrypt_spec (q := q)), (secret_key_ints t m_) by (rewrite ?Lsk; (done || lia)). f_equal.
  apply round_phase_correct with (e := e); (done || lia).
Qed.

Lemma fresh_value q m p e a : NativeModulus W q -> 0 <= m < p -> p <= q -> wf_mask q (length t) a -> reduced q e -> (Z.of_nat (length t) + 2) * q < 2 ^ 64 ->
  returns (Lwe.Encrypt sk m p q e a) (fun ct => wf_ct q (length t) ct /\ phase t ct ≡[q] m * (q / p) + centred q e).
Proof using All.
  intros Hq Hp Hpq Ha He Hfit. destruct (secret_key_wf t m_ Hm Hm_) as [Wsk Lsk]. pose proof (nm_bounds (w := W) (m := q)) as Bq. change (2 ^ W) with (2 ^ 64) in Bq.
  eapply returns_mono; [apply (Encrypt_spec (q := q)); rewrite ?Lsk; (done || lia)|].
  intros ct (Wct & _ & _ & Phct). rewrite (secret_key_ints t m_) in Phct by done. rewrite Lsk in Wct. split; [done|].
  rewrite Phct, centred_eqm. unfold plaintext. rewrite (Z.mod_small m (2 ^ 64)), Z.mod_small by lia. done.
Qed.
End Secret.

(** The table of a function of the windows. *)
Definition window_table (w p : Z) (f : Z -> Z -> Z) : list Z := map (fun i => f (Z.of_nat i / w) p * w) (seq 0 (Z.to_nat (w * p))).

Lemma window_table_at w p f x : 0 < w -> 0 <= x < w * p -> window_table w p f !!! Z.to_nat x = f (x / w) p * w.
Proof. intros Hw Hx. unfold window_table. rewrite lookup_total_tab by lia. by rewrite Z2Nat.id by lia. Qed.

Lemma GenerateLUTviaFunction_spec c f rr : m_q (c_lwe c) = 256 * 2 ^ Z.of_nat rr -> 256 * 2 ^ Z.of_nat rr < 2 ^ 32 -> (forall x, 0 <= x < 2 ^ Z.of_nat rr -> 0 <= f x (2 ^ Z.of_nat rr) < 2 ^ Z.of_nat rr) ->
  GetMaxPlaintextSpace c = Ok (2 ^ Z.of_nat rr) /\ GenerateLUTviaFunction c f (2 ^ Z.of_nat rr) = Ok (window_table 256 (2 ^ Z.of_nat rr) f).
Proof.
  intros Eq Hfit Hf. set (p := 2 ^ Z.of_nat rr) in *. assert (0 < p) as Hp by (apply Z.pow_pos_nonneg; lia). split.
  - unfold GetMaxPlaintextSpace. change (LShift W GetBeta 1) with (Ok 256). rewrite bind_ok, Eq. unfold DividedBy. cbn [Z.eqb]. by rewrite Z.mul_comm, Z.div_mul.
  - unfold GenerateLUTviaFunction. assert ((Z.log2_up p =? Z.log2 p) = true) as -> by (apply Z.eqb_eq; unfold p; rewrite Z.log2_up_pow2, Z.log2_pow2; lia). cbn [negb].
    rewrite Eq. unfold DividedBy. rewrite (proj2 (Z.eqb_neq p 0)), bind_ok, Z.div_mul by lia. unfold ConvertToInt. rewrite (Z.mod_small _ (2 ^ 32)) by lia. apply tabulateM_ok. intros i Hi. cbn [Z.eqb]. rewrite bind_ok.
    assert (0 <= Z.of_nat i / 256 < p) as Hx by (split; [apply Z.div_pos|apply Z.div_lt_upper_bound]; lia). pose proof (Hf _ Hx) as Hy. rewrite (proj2 (Z.leb_gt _ _)) by lia.
    unfold Mul, MulFast. cbn [NATIVEINT_DO_CHECKS]. rewrite wrap_small by (change (2 ^ W) with (2 ^ 64); lia). f_equal. ring.
Qed.

(** C5: evaluation of functions.  With the keys of a new context (one, or one
    per base of the sign evaluation) for the method GINX, any function [f] of
    the plaintexts modulo [GetMaxPlaintextSpace], any message, any ternary
    secret and small draws: encrypting the message, evaluating the table of
    [GenerateLUTviaFunction] and decrypting gives the value of [f], by one
    bootstrapping for a negacyclic table, two for a periodic one, and two with
    the modulus doubled for any other; a table of the last kind is refused when
    the modulus is above the dimension of the ring. *)
Theorem EvalFunc_correct (st : FTT) (Q psi : Z) (k : nat) (arb : FTT -> NativePoly -> res (FTT * NativePoly)) (lwe : LWECryptoParams) (q qKS : Z) (base : nat) (t : list Z)
    (m_ hN bound beta : Z) (mode : KEYGEN_MODE) (baseG baseR : Z) (numAutoKeys : nat) (draws : Z -> KeyDraws) (tables : bool) (rr : nat) (f : Z -> Z -> Z) (m e : Z) (a : NativeVector) :
  forall HR : RingTransform st Q psi k, bt_setting lwe q Q qKS k (length t) base -> m_q lwe = q -> q = 256 * 2 ^ Z.of_nat rr -> (0 < rr)%nat ->
  keys_setting (Q := Q) (psi := psi) (k := k) q qKS base t m_ hN bound beta mode baseG baseR numAutoKeys draws tables ->
  3 <= m_ -> NativeModulus W m_ -> (forall i, (i < length t)%nat -> -1 <= t !!! i <= 1) ->
  out_modulus (Q := Q) qKS q -> out_modulus (Q := Q) qKS (2 * q) ->
  let p := 2 ^ Z.of_nat rr in let noise := eval_noise (Q := Q) (k := k) qKS base t hN bound beta q in let sk := secret_key t m_ in
  0 <= m < p -> (forall x, 0 <= x < p -> 0 <= f x p < p) -> wf_mask q (length t) a -> reduced q e ->
  Z.abs (centred q e) + noise < 128 -> noise + p < 128 -> (Z.of_nat (length t) + 2) * q < 2 ^ 64 ->
  (c ← context_keys (st := st) (Q := Q) (psi := psi) (k := k) arb lwe q t m_ mode baseG baseR numAutoKeys draws tables;
   p ← GetMaxPlaintextSpace c.2;
   ct ← Encrypt c.2 sk m p 0 e a;
   lut ← GenerateLUTviaFunction c.2 f p;
   r ← EvalFunc arb c.2 ct lut c.1;
   Decrypt sk r.2 p) =
  (kind ← checkInputFunction (window_table 256 p f) q;
   if (kind =? 2)%nat && (2 ^ Z.of_nat k <? q)
   then Throw (not_implemented_error "ERROR: ciphertext modulus q needs to be <= ring dimension for arbitrary function evaluation") else Ok (f m p)).
Proof.
  intros HR Hset Hmq Hq Hrr Hkeys Hm Hm_ Ht Hom Hom2 p noise sk Hmp Hf Ha He Hmar Hdec Hfit. subst sk.
  destruct (context_keys_good (HR := HR) arb lwe q qKS base t Hset m_ hN bound beta mode baseG baseR numAutoKeys draws tables Hkeys) as ([st' c] & -> & Est & Elwe & HEK & _).
  cbn [fst snd] in *. subst st'. rewrite bind_ok. cbn [fst snd]. destruct (bs_native Hset) as (Hnq & _). destruct (bs_exponents Hset) as [Hdiv Heven]. destruct (bs_dims Hset) as [_ EN].
  pose proof (nm_bounds (w := W) (m := q)) as Bq. pose proof (nm_double (w := W) (m := q)) as Bq2. change (2 ^ W) with (2 ^ 64) in *. pose proof (half_exists (HR := HR) lwe q qKS base t Hset) as (_ & _ & Hq26).
  assert (0 < p) as Hp0 by (apply Z.pow_pos_nonneg; lia). set (P := 2 ^ Z.of_nat (rr - 1)). assert (p = 2 * P) as EP by (unfold p, P; rewrite <- Z.pow_succ_r by lia; f_equal; lia).
  destruct (GenerateLUTviaFunction_spec c f rr) as [E1 E2]; [congruence|lia|done|]. fold p in E1, E2. rewrite E1, bind_ok. unfold Encrypt. rewrite Elwe, Hmq. change (0 =? 0) with true. cbn match.
  destruct (fresh_value t m_ Hm Hm_ Ht q m p e a Hnq Hmp ltac:(lia) Ha He Hfit) as (ct & -> & Hct & Phct). rewrite bind_ok, E2, bind_ok. set (lut := window_table 256 p f).
  assert (forall x, 0 <= x < q -> lut !!! Z.to_nat x = f (x / 256) p * 256) as Hlut by (intros x Hx; apply window_table_at; lia).
  assert (length lut = Z.to_nat q) as Llut by (unfold lut, window_table; rewrite length_tab; f_equal; lia).
  assert (forall x, 0 <= x < q -> 0 <= x / 256 < p) as Hx by (intros x Hx; split; [apply Z.div_pos|apply Z.div_lt_upper_bound]; lia).
  assert (forall x, 0 <= x < q -> reduced q (lut !!! Z.to_nat x)) as Hred by (intros x Hxq; rewrite Hlut by done; pose proof (Hf _ (Hx _ Hxq)); unfold reduced; lia).
  destruct (checkInputFunction_spec lut q (Z.to_nat (q / 2))) as (kind & Ek & _).
  { assert (q / 2 = 128 * p) as -> by (rewrite Hq; fold p; replace (256 * p) with (128 * p * 2) by ring; apply Z.div_mul; lia). lia. }
  { rewrite Llut. destruct Heven as [h ->]. rewrite Z.div_mul by lia. lia. }
  { lia. }
  { intros i Hi. rewrite <- (Nat2Z.id i). apply Hred. destruct Heven as [h ->]. rewrite Z.div_mul in Hi by lia. lia. }
  rewrite Ek, bind_ok. unfold EvalFunc. rewrite Elwe. change GetBeta with 128.
  destruct ((kind =? 2)%nat && (2 ^ Z.of_nat k <? q)) eqn:Eb.
  - apply andb_prop in Eb as [Ek2%Nat.eqb_eq Hlt]. subst kind. unfold Gates.EvalFunc. assert (GetModulus ct = q) as Em by (by destruct Hct as [(? & _) _]). rewrite Em, Ek, bind_ok. cbn [Nat.eqb].
    rewrite EN, Nat2Z.inj_pow. change (Z.of_nat 2) with 2. rewrite Hlt. done.
  - destruct (EvalFunc_spec (HR := HR) arb lwe q qKS base t Hset hN 0 bound beta (c_rgsw c) (c_BTKey c) 128 q P lut (fun x => f x p * 256) ct m (centred q e) kind HEK) as ([st' r] & -> & Est & Wr & _ & e' & He' & Pr); try done; try lia.
    + rewrite Phct. apply eqm_refl. do 2 f_equal. rewrite Hq. fold p. by rewrite Z.div_mul by lia.
    + intros ->. cbn [Nat.eqb andb] in Eb. split; [|done]. apply Z.ltb_ge in Eb. rewrite Nat2Z.inj_pow. change (Z.of_nat 2) with 2. lia.
    + rewrite bind_ok. cbn [snd] in *. rewrite <- EP, (Z.mod_small m p) in Pr by lia. fold noise in He'.
      apply (decrypt_value t m_ Hm Hm_ Ht q (f m p) p e' r Hnq); [by apply Hf|done| | |lia|].
      * rewrite Pr. apply eqm_refl. do 2 f_equal. rewrite Hq. fold p. by rewrite Z.div_mul by lia.
      * assert (2 * p * (Z.abs e' + p) <= 2 * p * 127) by (apply Z.mul_le_mono_nonneg_l; lia). lia.
      * assert (p * q <= q * q) by (apply Z.mul_le_mono_nonneg_r; lia). assert (q * q <= 2 ^ 26 * 2 ^ 26) by (apply Z.mul_le_mono_nonneg; lia). lia.
Qed.

(** ** Large precision *)
Section Large.
Context {st : FTT} {Q psi : Z} {k : nat} {HR : RingTransform st Q psi k} (arb : FTT -> NativePoly -> res (FTT * NativePoly)).
Context (lwe : LWECryptoParams) (q qKS : Z) (base : nat) (t : list Z) (m_ hN bound beta : Z) (rr top : nat) (E : Z).
Abbreviation level j := (2 * 128 * 2 ^ Z.of_nat j).

(** What the evaluations ask for: digits of [rr] bits, values of [top] bits, and
    a noise [E] that the rounds keep. *)
Record large_setting : Prop := {
  ls_base : bt_setting lwe q Q qKS k (length t) base;
  ls_digits : m_q lwe = q /\ q = level rr /\ (0 < rr < top)%nat;
  ls_ring : Z.odd Q = true /\ 0 <= hN /\ 0 <= bound /\ 0 <= beta;
  ls_top : out_modulus (Q := Q) qKS (level top);
  ls_fit : 6 * level top * level top + 3 * level top + level top < 2 ^ 53 /\ 2 * 128 * level top < 2 ^ 63 /\ (Z.of_nat (length t) + 2) * level top < 2 ^ 64;
  ls_noise : 2 ^ Z.of_nat rr * (1 + norm1 t) + 2 * (floor_noise (Q := Q) (k := k) qKS base t hN bound beta 128 top + 0) <= 2 * 2 ^ Z.of_nat rr * E;
  ls_margin : E + floor_noise (Q := Q) (k := k) qKS base t hN bound beta 128 top + 2 * 0 < 128;
  ls_decrypt : E + 2 ^ Z.of_nat rr < 128 /\ 4 * (floor_noise (Q := Q) (k := k) qKS base t hN bound beta 128 top + 2) < q;
  ls_secret : 3 <= m_ /\ NativeModulus W m_ /\ forall i, (i < length t)%nat -> -1 <= t !!! i <= 1
}.

Abbreviation holds_ := (holds t 128 E).

Lemma large_native j : large_setting -> (0 < j <= top)%nat -> NativeModulus W (level j) /\ 4 <= level j < 2 ^ 53.
Proof using All.
  intros H Hj. destruct (ls_base H), (ls_digits H) as (D1 & D2 & D3), (ls_ring H) as (R1 & R2 & R3 & R4), (ls_fit H) as (F1 & F2 & F3).
  apply (level_native (HR := HR) arb lwe q qKS base t (ls_base H) D1 hN 0 bound beta R2 ltac:(lia) R3 R4 R1 128 rr top ltac:(lia) ltac:(lia) D2 (ls_top H) F1 F2 E (ls_noise H) (ls_margin H)); done.
Qed.

Lemma fresh_large V e a : large_setting -> 0 <= V < 2 ^ Z.of_nat top -> wf_mask (level top) (length t) a -> reduced (level top) e -> Z.abs (centred (level top) e) <= E ->
  returns (Lwe.Encrypt (secret_key t m_) V (2 ^ Z.of_nat top) (level top) e a) (holds_ top V).
Proof using All.
  intros H HV Ha He HE. destruct (ls_secret H) as (Hm & Hm_ & Ht), (ls_fit H) as (_ & _ & F3), (ls_digits H) as (_ & _ & D3). destruct (large_native top H ltac:(lia)) as [HL BL].
  eapply returns_mono; [apply (fresh_value t m_ Hm Hm_ Ht (level top)); (done || lia)|]. intros ct [Wct Pct]. split; [done|]. split; [done|]. exists (centred (level top) e). split; [done|].
  rewrite Pct. apply eqm_refl. do 2 f_equal. apply Z.div_mul. lia.
Qed.

(** A value of at most [rr] bits decrypts. *)
Lemma decrypt_large j V ct : large_setting -> (0 < j <= rr)%nat -> holds_ j V ct -> Decrypt (secret_key t m_) ct (GetModulus ct / 256) = Ok V /\ 0 <= V < 2 ^ Z.of_nat rr.
Proof using All.
  intros H Hj (Wct & HV & e & He & Pct). destruct (ls_secret H) as (Hm & Hm_ & Ht), (ls_fit H) as (_ & _ & F3), (ls_digits H) as (_ & _ & D3), (ls_decrypt H) as [Hd _].
  destruct (large_native j H ltac:(lia)) as [HL BL]. assert (GetModulus ct = level j) as Em by (by destruct Wct as [(? & _) _]). rewrite Em. change (2 * 128) with 256 in *. rewrite Z.mul_comm, Z.div_mul by lia.
  set (p := 2 ^ Z.of_nat j) in *. assert (0 < p) as Hp by (apply Z.pow_pos_nonneg; lia). assert (p <= 2 ^ Z.of_nat rr) as Hpr by (apply Z.pow_le_mono_r; lia).
  assert (2 ^ Z.of_nat rr <= 2 ^ Z.of_nat top) by (apply Z.pow_le_mono_r; lia). pose proof (Z.abs_nonneg e). split; [|lia].
  apply (decrypt_value t m_ Hm Hm_ Ht (256 * p) V p e ct HL HV Wct).
  - rewrite Pct. apply eqm_refl. do 2 f_equal. by rewrite Z.div_mul by lia.
  - assert (2 * p * (Z.abs e + p) <= 2 * p * 127) by (apply Z.mul_le_mono_nonneg_l; lia). lia.
  - assert (Z.of_nat (length t) * (256 * p) <= (Z.of_nat (length t) + 2) * (256 * 2 ^ Z.of_nat top)) by (apply Z.mul_le_mono_nonneg; lia). lia.
  - assert (p * (256 * p) <= 128 * 2 ^ 53) by (apply Z.mul_le_mono_nonneg; lia). lia.
Qed.
End Large.

#[global] Arguments ls_base {Q k lwe q qKS base t m_ hN bound beta rr top E} _.
#[global] Arguments ls_digits {Q k lwe q qKS base t m_ hN bound beta rr top E} _.
#[global] Arguments ls_ring {Q k lwe q qKS base t m_ hN bound beta rr top E} _.
#[global] Arguments ls_top {Q k lwe q qKS base t m_ hN bound beta rr top E} _.
#[global] Arguments ls_fit {Q k lwe q qKS base t m_ hN bound beta rr top E} _.
#[global] Arguments ls_noise {Q k lwe q qKS base t m_ hN bound beta rr top E} _.
#[global] Arguments ls_margin {Q k lwe q qKS base t m_ hN bound beta rr top E} _.
#[global] Arguments ls_decrypt {Q k lwe q qKS base t m_ hN bound beta rr top E} _.
#[global] Arguments ls_secret {Q k lwe q qKS base t m_ hN bound beta rr top E} _.

(** C6: the sign of large precision.  With the keys of a new context, encrypting
    a value [V] of [top] bits under the modulus [256 2 ^ top], evaluating its
    sign by clearing [rr] bits per round and decrypting modulo 2 gives the
    highest bit of [V]; the rounds end, the noise does not grow, and with the
    keys of the three bases the gadget changes between the rounds. *)
Theorem EvalSign_correct (st : FTT) (Q psi : Z) (k : nat) (arb : FTT -> NativePoly -> res (FTT * NativePoly)) (lwe : LWECryptoParams) (q qKS : Z) (base : nat) (t : list Z)
    (m_ hN bound beta : Z) (mode : KEYGEN_MODE) (baseG baseR : Z) (numAutoKeys : nat) (draws : Z -> KeyDraws) (tables : bool) (rr top fuel : nat) (E V e : Z) (a : NativeVector) :
  forall HR : RingTransform st Q psi k,
  large_setting (Q := Q) (k := k) lwe q qKS base t m_ hN bound beta rr top E ->
  keys_setting (Q := Q) (psi := psi) (k := k) q qKS base t m_ hN bound beta mode baseG baseR numAutoKeys draws tables ->
  let mod_ := 256 * 2 ^ Z.of_nat top in let sk := secret_key t m_ in
  0 <= V < 2 ^ Z.of_nat top -> wf_mask mod_ (length t) a -> reduced mod_ e -> Z.abs (centred mod_ e) <= E -> (top <= fuel)%nat ->
  (c ← context_keys (st := st) (Q := Q) (psi := psi) (k := k) arb lwe q t m_ mode baseG baseR numAutoKeys draws tables;
   ct ← Encrypt c.2 sk V (2 ^ Z.of_nat top) mod_ e a;
   r ← EvalSign arb fuel c.2 ct false c.1;
   Decrypt sk r.2 2) = Ok (if 2 * V <? 2 ^ Z.of_nat top then 0 else 1).
Proof.
  intros HR H Hkeys mod_ sk HV Ha He HE Hfuel. subst sk mod_. destruct (ls_digits H) as (D1 & D2 & D3), (ls_ring H) as (R1 & R2 & R3 & R4), (ls_fit H) as (F1 & F2 & F3), (ls_secret H) as (Hm & Hm_ & Ht), (ls_decrypt H) as [_ Hd2].
  destruct (context_keys_good (HR := HR) arb lwe q qKS base t (ls_base H) m_ hN bound beta mode baseG baseR numAutoKeys draws tables Hkeys) as ([st' c] & -> & Est & Elwe & _ & HK).
  cbn [fst snd] in *. subst st'. rewrite bind_ok. cbn [fst snd]. unfold Encrypt. assert ((256 * 2 ^ Z.of_nat top =? 0) = false) as -> by (apply Z.eqb_neq; pose proof (Z.pow_pos_nonneg 2 (Z.of_nat top)); lia).
  destruct (fresh_large (HR := HR) arb lwe q qKS base t m_ hN bound beta rr top E V e a H HV Ha He HE) as (ct & Ect & Hct). change (2 * 128) with 256 in Ect. rewrite Ect, bind_ok.
  destruct (EvalSign_spec (HR := HR) arb lwe q qKS base t (ls_base H) D1 hN 0 bound beta R2 ltac:(lia) R3 R4 R1 128 rr top ltac:(lia) ltac:(lia) D2 (ls_top H) F1 F2 E (ls_noise H) (ls_margin H)
    (c_rgsw c) (c_BTKey_map c) fuel ct V false HK ltac:(lia) Hct) as ([[st' ps] r] & Er & _ & Wr & e' & He' & Pr). cbn [fst snd] in *.
  unfold EvalSign. rewrite Elwe. change GetBeta with 128. rewrite Er, !bind_ok. cbn [fst snd].
  destruct (large_native (HR := HR) arb lwe q qKS base t m_ hN bound beta rr top E rr H ltac:(lia)) as [Hnq Bq]. rewrite <- D2 in Hnq, Bq.
  assert (q <= 256 * 2 ^ Z.of_nat top) as Hle by (rewrite D2; apply Z.mul_le_mono_nonneg_l; [lia|apply Z.pow_le_mono_r; lia]).
  apply (decrypt_value t m_ Hm Hm_ Ht q _ 2 e' r Hnq); [destruct (_ <? _); lia|done|exact Pr|lia| |lia].
  assert (Z.of_nat (length t) * q <= (Z.of_nat (length t) + 2) * (256 * 2 ^ Z.of_nat top)) by (apply Z.mul_le_mono_nonneg; lia). lia.
Qed.

(** C7: the digits of large precision.  Encrypting a value of [top] bits,
    [EvalDecomp] and decrypting every ciphertext it returns modulo the number of
    windows of its modulus gives digits of [rr] bits, the lowest one first, from
    which the value comes back. *)
Theorem EvalDecomp_correct (st : FTT) (Q psi : Z) (k : nat) (arb : FTT -> NativePoly -> res (FTT * NativePoly)) (lwe : LWECryptoParams) (q qKS : Z) (base : nat) (t : list Z)
    (m_ hN bound beta : Z) (mode : KEYGEN_MODE) (baseG baseR : Z) (numAutoKeys : nat) (draws : Z -> KeyDraws) (tables : bool) (rr top fuel : nat) (E V e : Z) (a : NativeVector) :
  forall HR : RingTransform st Q psi k,
  large_setting (Q := Q) (k := k) lwe q qKS base t m_ hN bound beta rr top E ->
  keys_setting (Q := Q) (psi := psi) (k := k) q qKS base t m_ hN bound beta mode baseG baseR numAutoKeys draws tables ->
  let mod_ := 256 * 2 ^ Z.of_nat top in let sk := secret_key t m_ in
  0 <= V < 2 ^ Z.of_nat top -> wf_mask mod_ (length t) a -> reduced mod_ e -> Z.abs (centred mod_ e) <= E -> (top <= fuel)%nat ->
  returns (c ← context_keys (st := st) (Q := Q) (psi := psi) (k := k) arb lwe q t m_ mode baseG baseR numAutoKeys draws tables;
           ct ← Encrypt c.2 sk V (2 ^ Z.of_nat top) mod_ e a;
           r ← EvalDecomp arb fuel c.2 ct c.1;
           mapM (fun ct => Decrypt sk ct (GetModulus ct / 256)) r.2)
    (fun ds => Forall (fun d => 0 <= d < 2 ^ Z.of_nat rr) ds /\ from_digits rr ds = V).
Proof.
  intros HR H Hkeys mod_ sk HV Ha He HE Hfuel. subst sk mod_. destruct (ls_digits H) as (D1 & D2 & D3), (ls_ring H) as (R1 & R2 & R3 & R4), (ls_fit H) as (F1 & F2 & F3).
  destruct (context_keys_good (HR := HR) arb lwe q qKS base t (ls_base H) m_ hN bound beta mode baseG baseR numAutoKeys draws tables Hkeys) as ([st' c] & -> & Est & Elwe & _ & HK).
  cbn [fst snd] in *. subst st'. rewrite bind_ok. cbn [fst snd]. unfold Encrypt. assert ((256 * 2 ^ Z.of_nat top =? 0) = false) as -> by (apply Z.eqb_neq; pose proof (Z.pow_pos_nonneg 2 (Z.of_nat top)); lia).
  destruct (fresh_large (HR := HR) arb lwe q qKS base t m_ hN bound beta rr top E V e a H HV Ha He HE) as (ct & Ect & Hct). change (2 * 128) with 256 in Ect. rewrite Ect, bind_ok.
  destruct (EvalDecomp_spec (HR := HR) arb lwe q qKS base t (ls_base H) D1 hN 0 bound beta R2 ltac:(lia) R3 R4 R1 128 rr top ltac:(lia) ltac:(lia) D2 (ls_top H) F1 F2 E (ls_noise H) (ls_margin H)
    (c_rgsw c) (c_BTKey_map c) fuel ct V HK ltac:(lia) Hct) as ([[st' ps] cts'] & Er & _ & j & V' & ds & cts & ct' & Hj & Ects & Hds & Hct' & EV). cbn [fst snd] in *. subst cts'.
  unfold EvalDecomp. rewrite Elwe. change GetBeta with 128. rewrite Er, !bind_ok. cbn [fst snd]. exists (ds ++ [V']).
  assert (Forall2 (fun ct d => Decrypt (secret_key t m_) ct (GetModulus ct / 256) = Ok d /\ 0 <= d < 2 ^ Z.of_nat rr) (cts ++ [ct']) (ds ++ [V'])) as Hall.
  { apply Forall2_app; [|constructor; [|constructor]].
    - apply Forall2_flip. eapply Forall2_impl; [exact Hds|]. intros d c0 Hd. apply (decrypt_large (HR := HR) arb lwe q qKS base t m_ hN bound beta rr top E rr d c0 H ltac:(lia) Hd).
    - by apply (decrypt_large (HR := HR) arb lwe q qKS base t m_ hN bound beta rr top E j V' ct' H). }
  split; [|split; [|done]].
  - apply (mapM_related (fun d c0 => Decrypt (secret_key t m_) c0 (GetModulus c0 / 256) = Ok d)); [done|]. apply Forall2_flip. eapply Forall2_impl; [exact Hall|]. by intros ? ? [? _].
  - eapply Forall2_Forall_r; [exact Hall|]. apply Forall_forall. tauto.
Qed.

(** C14: the loops over the modulus of the evaluations of large precision.
    When a round at least halves the modulus ([4 beta <= q]) the loops of
    [EvalSign] and of [EvalDecomp] end within 63 rounds; when [2 beta < q],
    within as many rounds as the modulus: after that many rounds at most the
    condition is false and the loop returns the state reached, unless a round
    throws, and then the loop throws what the round threw; with that much fuel
    it never runs out, and more fuel changes neither function.  When
    [q = 2 beta] the modulus never changes: after any number of rounds that go
    through, the loop of [EvalSign] still has a round to do, so that it never
    returns. *)
Theorem large_precision_terminates (arb : FTT -> NativePoly -> res (FTT * NativePoly)) (lwe : LWECryptoParams) (ps : RingGSWCryptoParams) (EKs : gmap Z RingGSWBTKey)
    (ct : LWECiphertext) (beta : Z) (schemeSwitch : bool) (st : FTT) :
  let q := m_q lwe in let Q := GetModulus ct in
  let sign_start EK := (st, (ps, EK), (copy_LWECiphertext ct, Q)) in
  let decomp_start EK := (st, (ps, EK), (copy_LWECiphertext ct, Q, [])) in
  0 < q -> 0 <= beta -> 0 <= Q < 2 ^ 64 ->
  (forall bound, 4 * beta <= q /\ bound = 63%nat \/ 2 * beta < q /\ bound = Z.to_nat Q ->
     (forall EK, ends_within bound (fun x => q <? x.2.2) (sign_step arb lwe EKs (r_baseG ps) beta) (sign_start EK)) /\
     (forall EK, ends_within bound (fun x => q <? x.2.1.2) (decomp_step arb lwe EKs (r_baseG ps) beta) (decomp_start EK)) /\
     forall fuel, (bound <= fuel)%nat ->
       Gates.EvalSign arb fuel lwe ps EKs ct beta schemeSwitch st = Gates.EvalSign arb bound lwe ps EKs ct beta schemeSwitch st /\
       Gates.EvalDecomp arb fuel lwe ps EKs ct beta st = Gates.EvalDecomp arb bound lwe ps EKs ct beta st) /\
  (q = 2 * beta -> q < Q -> Q * q < 2 ^ 64 -> forall fuel,
     (forall EK y, for_ fuel (fun _ => sign_step arb lwe EKs (r_baseG ps) beta) (sign_start EK) = Ok y ->
        y.2.2 = Q /\ sign_loop arb fuel lwe EKs (r_baseG ps) beta (sign_start EK) = Throw out_of_fuel) /\
     forall r, Gates.EvalSign arb fuel lwe ps EKs ct beta schemeSwitch st <> Ok r).
Proof.
  intros q Q sign_start decomp_start Hq Hb HQ. split.
  - intros bound Hbound.
    assert (exists mu, (forall m m', q < m -> round_bound q beta m m' -> (mu m' < mu m)%nat) /\ (mu Q <= bound)%nat) as (mu & Hmu & Hle).
    { destruct Hbound as [[H4 ->]|[H2 ->]].
      - exists (fun m => Z.to_nat (Z.log2 m)). split; [intros m m' Hm Hr; by apply (round_halves lwe beta Hq Hb)|].
        destruct (Z.eq_dec Q 0) as [->|Hne]; [cbn; lia|]. assert (Z.log2 Q < 64) by (apply Z.log2_lt_pow2; lia). lia.
      - exists Z.to_nat. split; [intros m m' Hm Hr; by apply (round_decreases lwe beta Hq Hb)|done]. }
    assert (forall EK, ends_within bound (fun x => q <? x.2.2) (sign_step arb lwe EKs (r_baseG ps) beta) (sign_start EK)) as Hs.
    { intros EK. apply (sign_ends arb lwe EKs _ beta Hq Hb mu Hmu); unfold sign_start; cbn [snd]; (done || lia). }
    assert (forall EK, ends_within bound (fun x => q <? x.2.1.2) (decomp_step arb lwe EKs (r_baseG ps) beta) (decomp_start EK)) as Hd.
    { intros EK. apply (decomp_ends arb lwe EKs _ beta Hq Hb mu Hmu); unfold decomp_start; cbn [fst snd]; (done || lia). }
    split; [exact Hs|]. split; [exact Hd|]. intros fuel Hf. unfold Gates.EvalSign, Gates.EvalDecomp, sign_loop, decomp_loop. fold Q q.
    split; (destruct (Q <=? q); [done|]; destruct (EKs !! r_baseG ps) as [EK|]; [|done]).
    + pose proof (ends_fuel bound _ _ _ fuel (Hs EK) Hf) as E. unfold sign_start, q in E |- *. by rewrite E.
    + pose proof (ends_fuel bound _ _ _ fuel (Hd EK) Hf) as E. unfold decomp_start, q in E |- *. by rewrite E.
  - intros E Hlt Hfit fuel. pose proof (fun EK => sign_exhausts arb lwe EKs (r_baseG ps) beta Hq Hb (sign_start EK) fuel E Hlt Hfit) as Hx.
    split; [intros EK y Hy; by apply (Hx EK)|]. intros r. unfold Gates.EvalSign. fold Q q. destruct (Z.leb_spec Q q) as [|_]; [lia|].
    destruct (EKs !! r_baseG ps) as [EK|]; [|done]. destruct (sign_loop arb fuel lwe EKs (r_baseG ps) beta (st, (ps, EK), (copy_LWECiphertext ct, Q))) as [z|] eqn:El; [|done].
    by destruct (proj2 (Hx EK) z).
Qed.

(** A small setting: one key bit, dimension 512, and the ring modulus
    1073738753, of which 234792977 is a primitive 1024-th root. *)
Lemma ring1073738753 : exists st, RingTransform st 1073738753 234792977 9.
Proof.
  by apply ring_transform_check.
Qed.

Definition func_lwe : LWECryptoParams := LWEParams 1 512 512 1073738753 1048576 32.
Definition func_one : list Z := rterm 1073738753 512 1 0.
Definition func_sample (u v i : nat) : RgswSample := RSample (NVec 1073738753 func_one) (fun _ => NVec 1073738753 func_one).
Definition func_draws (b : Z) : KeyDraws :=
  Draws (NVec 1073738753 func_one) [] (NVec 0 []) (fun _ _ _ => NVec 1048576 [5]) (fun _ _ _ => 2) func_sample (fun _ _ => (NVec 0 [], NVec 0 [])).
Abbreviation func_keys st := (context_keys (st := st) (Q := 1073738753) (psi := 234792977) (k := 9) (fun s p => Ok (s, p)) func_lwe 512 [1] 512 SYM_ENCRYPT 32768 32 10 func_draws false).

Lemma func_one_wf : wf_data (q := 1073738753) 9 func_one /\ l1_le 1073738753 512 1 func_one.
Proof.
  split; [split; [done|by apply (wf_vec_check W 1073738753 func_one)]|apply (l1_rterm 1073738753 512 1 0); lia].
Qed.

Lemma func_setting : bt_setting func_lwe 512 1073738753 1048576 9 1 32.
Proof.
  assert (NativeModulus W 512) as H1 by (apply native_modulus_bits; unfold W; lia).
  assert (NativeModulus W 1048576) as H2 by (apply native_modulus_bits; unfold W; lia).
  split; repeat match goal with |- _ /\ _ => split end; first [done|cbn; lia|by exists 2|by exists 256|idtac].
Qed.

Lemma func_keys_setting : keys_setting (Q := 1073738753) (psi := 234792977) (k := 9) 512 1048576 32 [1] 512 1 208892 2 SYM_ENCRYPT 32768 32 10 func_draws false.
Proof.
  destruct func_one_wf as [H1 H2]. exists 15, 1%nat. split; [done|]. split; [lia|]. split; [done|]. split; [apply Nat.leb_le; by vm_compute|].
  split; [done|idtac|idtac].
  - split; [cbn; lia|by left|cbn; lia].
  - exists func_one, 1, 1. split; [done|]. split; [by apply Z.leb_le; vm_compute|]. split; [by apply Z.leb_le; vm_compute|]. split; try done.
    + split; [done|]. split; [apply native_modulus_bits; unfold W; lia|]. intros [|i] Hi; cbn in *; lia.
    + intros. by apply wf_mask_check.
    + intros u v i. exists func_one, (fun _ => func_one). split; [|by intros]. by split.
Qed.

Lemma func_large : large_setting (Q := 1073738753) (k := 9) func_lwe 512 1048576 32 [1] 512 1 208892 2 1 2 5.
Proof.
  split.
  - exact func_setting.
  - split; [done|]. split; [by vm_compute|lia].
  - by split.
  - by split; vm_compute.
  - split; [by vm_compute|by split; vm_compute].
  - by vm_compute.
  - by vm_compute.
  - split; by vm_compute.
  - split; [done|]. split; [apply native_modulus_bits; unfold W; lia|]. intros [|i] Hi; cbn in *; lia.
Qed.

(** Negation modulo 2, which needs the modulus doubled; and a value of two bits. *)
Lemma EvalFunc_correct_witness : exists st, RingTransform st 1073738753 234792977 9 /\
  (c ← func_keys st; p ← GetMaxPlaintextSpace c.2;
   ct ← Encrypt c.2 (secret_key [1] 512) 1 p 0 3 (NVec 512 [100]);
   lut ← GenerateLUTviaFunction c.2 (fun x p => (1 - x) mod p) p;
   r ← EvalFunc (fun s p => Ok (s, p)) c.2 ct lut c.1;
   Decrypt (secret_key [1] 512) r.2 p) = Ok 0.
Proof.
  destruct ring1073738753 as [st HR]. exists st. split; [exact HR|]. etransitivity.
  - apply (EvalFunc_correct st 1073738753 234792977 9 (fun s p => Ok (s, p)) func_lwe 512 1048576 32 [1] 512 1 208892 2 SYM_ENCRYPT 32768 32 10 func_draws false 1
      (fun x p => (1 - x) mod p) 1 3 (NVec 512 [100]) HR func_setting eq_refl eq_refl ltac:(lia) func_keys_setting); try done.
    + intros [|i] Hi; cbn in *; lia.
    + intros x Hx. apply Z.mod_pos_bound. done.
    + by apply wf_mask_check.
  - by vm_compute.
Defined.

Lemma EvalSign_correct_witness : exists st, RingTransform st 1073738753 234792977 9 /\
  (c ← func_keys st; ct ← Encrypt c.2 (secret_key [1] 512) 3 4 1024 2 (NVec 1024 [100]);
   r ← EvalSign (fun s p => Ok (s, p)) 2 c.2 ct false c.1; Decrypt (secret_key [1] 512) r.2 2) = Ok 1.
Proof.
  destruct ring1073738753 as [st HR]. exists st. split; [exact HR|].
  apply (EvalSign_correct st 1073738753 234792977 9 (fun s p => Ok (s, p)) func_lwe 512 1048576 32 [1] 512 1 208892 2 SYM_ENCRYPT 32768 32 10 func_draws false 1 2 2 5 3 2
    (NVec 1024 [100]) HR func_large func_keys_setting); try done. by apply wf_mask_check.
Defined.

Lemma EvalDecomp_correct_witness : exists st, RingTransform st 1073738753 234792977 9 /\
  returns (c ← func_keys st; ct ← Encrypt c.2 (secret_key [1] 512) 3 4 1024 2 (NVec 1024 [100]);
           r ← EvalDecomp (fun s p => Ok (s, p)) 2 c.2 ct c.1; mapM (fun ct => Decrypt (secret_key [1] 512) ct (GetModulus ct / 256)) r.2)
    (fun ds => Forall (fun d => 0 <= d < 2) ds /\ from_digits 1 ds = 3).
Proof.
  destruct ring1073738753 as [st HR]. exists st. split; [exact HR|].
  apply (EvalDecomp_correct st 1073738753 234792977 9 (fun s p => Ok (s, p)) func_lwe 512 1048576 32 [1] 512 1 208892 2 SYM_ENCRYPT 32768 32 10 func_draws false 1 2 2 5 3 2
    (NVec 1024 [100]) HR func_large func_keys_setting); try done. by apply wf_mask_check.
Defined.

(** The same ciphertext: the loop of [EvalSign] runs at least one round, and
    returns. *)
Lemma large_precision_terminates_witness : exists st, RingTransform st 1073738753 234792977 9 /\
  returns (c ← func_keys st; ct ← Encrypt c.2 (secret_key [1] 512) 3 4 1024 2 (NVec 1024 [100]); Ok (c.1, c.2, ct)) (fun '(st, c, ct) =>
    exists EK n y, let start := (st, (c_rgsw c, EK), (copy_LWECiphertext ct, GetModulus ct)) in
      c_BTKey_map c !! r_baseG (c_rgsw c) = Some EK /\ (0 < n <= 63)%nat /\
      for_ n (fun _ => sign_step (fun s p => Ok (s, p)) func_lwe (c_BTKey_map c) (r_baseG (c_rgsw c)) 128) start = Ok y /\ y.2.2 <= 512 /\
      forall fuel, (63 <= fuel)%nat -> sign_loop (fun s p => Ok (s, p)) fuel func_lwe (c_BTKey_map c) (r_baseG (c_rgsw c)) 128 start = Ok y).
Proof.
  destruct ring1073738753 as [st HR]. exists st. split; [exact HR|].
  destruct (context_keys_good (HR := HR) (fun s p => Ok (s, p)) func_lwe 512 1048576 32 [1] func_setting 512 1 208892 2 SYM_ENCRYPT 32768 32 10 func_draws false func_keys_setting) as ([st' c] & -> & Est & _ & _ & HK).
  cbn [fst snd] in *. subst st'. rewrite bind_ok. cbn [fst snd]. unfold Encrypt.
  destruct (fresh_large (HR := HR) (fun s p => Ok (s, p)) func_lwe 512 1048576 32 [1] 512 1 208892 2 1 2 5 3 2 (NVec 1024 [100]) func_large) as (ct & Ect & Hct); [done|by apply wf_mask_check|done|done|].
  change (1024 =? 0) with false. change (2 * 128 * 2 ^ Z.of_nat 2) with 1024 in Ect. change (2 ^ Z.of_nat 2) with 4 in Ect. cbn match. rewrite Ect, !bind_ok.
  apply returns_ok. cbn [fst snd]. assert (GetModulus ct = 1024) as Em by (by destruct Hct as [[(? & _) _] _]).
  destruct (large_precision_terminates (fun s p => Ok (s, p)) func_lwe (c_rgsw c) (c_BTKey_map c) ct 128 false st) as [Hends _]; [done|done|rewrite Em; done|].
  destruct (Hends 63%nat) as (Hs & _); [by left|]. destruct HK as [(EK & EEK & HEK) H3]. destruct (Hs EK) as (n & y & Hn & Hrun & Hend).
  destruct (ls_digits func_large) as (D1 & D2 & D3), (ls_ring func_large) as (R1 & R2 & R3 & R4), (ls_fit func_large) as (F1 & F2 & F3).
  destruct (sign_loop_spec (HR := HR) (fun s p => Ok (s, p)) func_lwe 512 1048576 32 [1] func_setting D1 1 0 208892 2 R2 ltac:(lia) R3 R4 R1 128 1 2 ltac:(lia) ltac:(lia) D2 (ls_top func_large) F1 F2 5
    (ls_noise func_large) (ls_margin func_large) (c_rgsw c) (c_BTKey_map c) (r_baseG (c_rgsw c)) 63 2 3 (st, (c_rgsw c, EK), (copy_LWECiphertext ct, 1024))) as (z & Ez & _); [split; [by exists EK|done]|lia|lia| |].
  { split; [done|]. split; [|done]. split; [by exists []|done]. }
  exists EK, n, y. rewrite Em in *. split; [done|]. destruct Hend as [[Hg Hr]|(_ & e & _ & Hr)].
  - split; [|split; [done|split; [by apply Z.ltb_ge in Hg|exact Hr]]]. split; [|done]. destruct n as [|n]; [|lia]. injection Hrun as <-. done.
  - exfalso. specialize (Hr 63%nat ltac:(lia)). unfold sign_loop in Ez. congruence.
Defined.
