(* ===== verification/MkGate.v ===== *)
(** * Multi-key gates: the composition

    Models the multi-key part of [src/binfhe/lib/binfhe-base-scheme.cpp]: the
    bootstrapping keys ([MKKeyGen]), the ciphertext of a gate constant
    ([ctGateGen]), the blind rotation of a gate ([BootstrapGateCore]) and the
    gates ([EvalBinGate]), for multi-key LWE and for multi-key matrix NTRU.
    The accumulator scheme is chosen by the method.  Drawn values are
    arguments, among them the candidates for invertible ring elements, and so
    is the inversion of the NTL library. *)

From Stdlib Require Import ZArith Lia String.
From stdpp Require Import base tactics numbers list strings gmap.
From S2P Require Import Prelude Double NativeInt NativeIntFacts ModArith NativeVec SchemeCore Negacyclic BitReverse Ntt Poly Gadget AccCore MkAcc Lwe MkLwe MNtru.

Record UniEncBTKey := BTKey {
  BSkey : option UniEncACCKey;
  KSkey2 : option (list (list matrix));
  LKSkey : option MKLWESwitchingKey;
  bt_Pkey : list (list NativePoly);
  bt_f : list NativePoly;
  bt_fvec : list NativeVector;
  bt_F_col0 : list NativeVector;
  bt_lwesk : list NativeVector
}.

Section Gates.
Context (arb : FTT -> NativePoly -> res (FTT * NativePoly)).

(** The accumulator of the method: [UniEncAccumulatorXZW] or
    [UniEncAccumulatorXZW_B].  The constructor refuses other methods, except
    those of the single-key scheme, which leave a null pointer.  The keys of
    the ternary accumulator cannot be made from a multi-key LWE key. *)
Definition acc_KeyGen_MNTRU (method : BINFHE_METHOD) :=
  match method with
  | MKNTRU => Ok (KeyGenAcc arb)
  | MKNTRU_B | MKNTRU_LWE => Ok (KeyGenAcc_B arb)
  | INVALID_METHOD => Throw (config_error "method is invalid")
  | AP | GINX | LMKCDEY => Throw undefined_behaviour
  end.
Definition acc_KeyGen_MKLWE (method : BINFHE_METHOD) :=
  match method with
  | MKNTRU => Throw (not_implemented_error "KeyGenACC operation not supported")
  | MKNTRU_B | MKNTRU_LWE => Ok (KeyGenAcc_B arb)
  | INVALID_METHOD => Throw (config_error "method is invalid")
  | AP | GINX | LMKCDEY => Throw undefined_behaviour
  end.
Definition acc_Eval (method : BINFHE_METHOD) :=
  match method with
  | MKNTRU => Ok (EvalAcc arb)
  | MKNTRU_B | MKNTRU_LWE => Ok (EvalAcc_B arb)
  | INVALID_METHOD => Throw (config_error "method is invalid")
  | AP | GINX | LMKCDEY => Throw undefined_behaviour
  end.

(** ** Key generation *)

(** A drawn vector as a ring element in the evaluation format. *)
Definition key_poly (us : UniEncCryptoParams) (v : NativeVector) (st : FTT) : res (FTT * NativePoly) :=
  p ← SetValues (new_poly (u_polyParams us) EVALUATION false) v COEFFICIENT;
  SetFormat arb st p EVALUATION.

(** NTL's [InvMod] of a polynomial over [Z_q] modulo [x^N + 1]: the [N]
    coefficients of the inverse, if there is one. *)
Context (inv : Z -> nat -> list Z -> option (list Z)).

(** [candidates] are the coefficient vectors that the sampling loop draws. *)
Fixpoint Get_invertible_NativeVector (Q q_boot : Z) (N : nat) (candidates : list (list Z)) : res (NativeVector * NativeVector) :=
  match candidates with
  | [] => Throw out_of_fuel
  | vec :: rest =>
    let poly := map (fun x => x mod q_boot) vec in
    match inv q_boot N poly with
    | None => Get_invertible_NativeVector Q q_boot N rest
    | Some inv_poly => Ok (NVec Q (map (lift_entry q_boot) poly), NVec Q (map (lift_entry q_boot) inv_poly))
    end
  end.

(** [NatVec], with it and [NatVec_inv] as ring elements, for every user. *)
Definition key_polys (us : UniEncCryptoParams) (k : nat) (candidates : nat -> list (list Z)) (st : FTT) :
    res (FTT * list (NativeVector * (NativePoly * NativePoly))) :=
  tabulateS k (fun i st =>
    v ← Get_invertible_NativeVector (u_Q us) (ConvertToInt 32 (u_Q us)) (u_N us) (candidates i);
    p ← SetValues (new_poly (u_polyParams us) EVALUATION false) v.1 COEFFICIENT;
    pinv ← SetValues (new_poly (u_polyParams us) EVALUATION false) v.2 COEFFICIENT;
    a ← SetFormat arb st p EVALUATION;
    b ← SetFormat arb a.1 pinv EVALUATION;
    Ok (b.1, (v.1, (a.2, b.2)))) st.

(** [Pkey[u][i] = e - CRS[i] * sk_u]. *)
Definition public_keys (us : UniEncCryptoParams) (k : nat) (CRS sks : list NativePoly) (e : nat -> nat -> NativeVector) (st : FTT) :
    res (FTT * list (list NativePoly)) :=
  tabulateS k (fun u st =>
    tabulateS (u_digitsG us - 1) (fun i st =>
      ei ← key_poly us (e u i) st;
      crs ← vget CRS i; s ← vget sks u;
      t ← Times crs s;
      p ← Minus ei.2 t;
      Ok (ei.1, p)) st) st.

Definition MKKeyGen_MNTRU (ps : MNTRUCryptoParams) (us : UniEncCryptoParams) (CRS : list NativePoly) (sk : MNTRUPrivateKey)
    (candidates : nat -> list (list Z)) (E : nat -> NativeVector) (e : nat -> nat -> NativeVector)
    (sample : nat -> nat -> nat -> KeySample) (st : FTT) : res (FTT * UniEncBTKey) :=
  let k := n_k ps in
  polys ← key_polys us k candidates st;
  let fvec := polys.2.*1 in
  let sks := polys.2.*2.*1 in
  sv ← GetCol (F sk) 0;
  ksk ← KeySwitchGen2 ps sk fvec E;
  pk ← public_keys us k CRS sks e polys.1;
  keygen ← acc_KeyGen_MNTRU (u_method us);
  bk ← keygen us polys.2.*2.*2 sv CRS sample pk.1;
  Ok (bk.1, BTKey (Some bk.2) (Some ksk) None pk.2 sks fvec sv []).

Definition MKKeyGen_MKLWE (ps : MKLWECryptoParams) (us : UniEncCryptoParams) (CRS : list NativePoly) (sk : list NativeVector)
    (candidates : nat -> list (list Z)) (gaussA : nat -> nat -> nat -> nat -> NativeVector) (err : nat -> nat -> nat -> nat -> Z)
    (e : nat -> nat -> NativeVector) (sample : nat -> nat -> nat -> KeySample) (st : FTT) : res (FTT * UniEncBTKey) :=
  let k := u_k us in
  polys ← key_polys us k candidates st;
  let fvec := polys.2.*1 in
  let sks := polys.2.*2.*1 in
  ksk ← MKKeySwitchGen ps sk fvec gaussA err;
  pk ← public_keys us k CRS sks e polys.1;
  keygen ← acc_KeyGen_MKLWE (u_method us);
  bk ← keygen us polys.2.*2.*2 sk CRS sample pk.1;
  Ok (bk.1, BTKey (Some bk.2) None (Some ksk) pk.2 sks fvec [] sk).

(** ** The constant of a gate, for matrix NTRU

    The error plus [5 mod / 8] times the inverse matrices. *)
Definition ctGateGen (ps : MNTRUCryptoParams) (sk : MNTRUPrivateKey) (gate : BINGATE) (e : nat -> NativeVector) : res MNTRUCiphertext :=
  if negb (bool_decide (gate = NAND)) then Throw (config_error "Support NAND gate Only") else
  let mod_ := n_q ps in
  n ← sk_GetLength sk;
  let k := length (F sk) in
  c ← tabulateM k (fun i =>
    ei ← (if (i =? 0)%nat then five ← Mul W 5 mod_; enc ← DividedBy five 8; add_first enc mod_ (e i) else Ok (e i));
    inverse_row sk mod_ n i ei);
  Ok (MNTRUCt c 4).

(** ** Bootstrapping *)
Definition no_keys {A} : res A :=
  Throw (config_error "Bootstrapping keys have not been generated. Please call MKBTKeyGen before calling bootstrapping.").

(** [(res_0, 0, ..., 0)]. *)
Definition first_acc (us : UniEncCryptoParams) (v : list Z) (st : FTT) : res (FTT * list NativePoly) :=
  p ← SetValues (new_poly (u_polyParams us) COEFFICIENT false) (NVec (u_Q us) v) COEFFICIENT;
  r ← SetFormat arb st p EVALUATION;
  acc ← vset (replicate (u_k us) (new_poly (u_polyParams us) EVALUATION true)) 0 r.2;
  Ok (r.1, acc).

(** [index = b_hat + j]; the entry moves to [index % N], negated when
    [N <= index < 2 N]. *)
Definition rotated_test (N : nat) (Q b_hat : Z) (Rx : list Z) : res (list Z) :=
  for_ N (fun j v =>
    x ← vget Rx j;
    let index := wrap W (b_hat + Z.of_nat j) in
    i ← umod index (Z.of_nat N);
    vset v (Z.to_nat i) (if (Z.of_nat N <=? index) && (index <? 2 * Z.of_nat N) then Sub W Q x else x)) (repeat 0 N).

Definition BootstrapGateCore_MKLWE (us : UniEncCryptoParams) (ek : option UniEncACCKey) (Pkey : list (list NativePoly)) (ct : MKLWECiphertext)
    (st : FTT) : res (FTT * list NativePoly) :=
  match ek with
  | None => no_keys
  | Some ek =>
    q ← MKGetModulus ct;
    let Q := u_Q us in
    let N := u_N us in
    q2p ← Q2p Q (mk_p ct);
    let Q2pNeg := Sub W Q q2p in
    let Rx := map (fun j => if (j <? N / 2)%nat then q2p else Q2pNeg) (seq 0 N) in
    t ← Mul W (mk_b ct) 2; t ← Mul W t (Z.of_nat N); b_hat ← DividedBy t q;
    Rxxb ← rotated_test N Q b_hat Rx;
    acc ← first_acc us Rxxb st;
    Aneg ← GetAneg ct;
    eval ← acc_Eval (u_method us);
    eval us acc.1 ek Pkey acc.2 Aneg
  end.

Definition BootstrapGateCore_MNTRU (us : UniEncCryptoParams) (ek : option UniEncACCKey) (Pkey : list (list NativePoly)) (ct : MNTRUCiphertext)
    (st : FTT) : res (FTT * list NativePoly) :=
  match ek with
  | None => no_keys
  | Some ek =>
    let Q := u_Q us in
    let N := u_N us in
    q2p ← Q2p Q (ct_pt ct);
    let Q2pNeg := Sub W Q q2p in
    let Rx := map (fun j => if (j <? N / 2)%nat then Q2pNeg else q2p) (seq 0 N) in
    acc ← first_acc us Rx st;
    eval ← acc_Eval (u_method us);
    eval us acc.1 ek Pkey acc.2 (elements ct)
  end.

(** [acc[u] = acc[u].Transpose(); SetFormat(COEFFICIENT); GetValues()]. *)
Definition extract_acc (k : nat) (acc : list NativePoly) (st : FTT) : res (FTT * list NativeVector) :=
  tabulateS k (fun u st =>
    a ← vget acc u;
    a ← Transpose a;
    r ← SetFormat arb st a COEFFICIENT;
    v ← GetValues r.2;
    Ok (r.1, v)) st.

(** ** Gates

    [same] says that the two arguments are one object. *)
Definition EvalBinGate_MKLWE (ps : MKLWECryptoParams) (us : UniEncCryptoParams) (gate : BINGATE) (EK : UniEncBTKey) (same : bool)
    (ct1 ct2 : MKLWECiphertext) (st : FTT) : res (FTT * MKLWECiphertext) :=
  if same then Throw (config_error "Input ciphertexts should be independant") else
  let q := ConvertToInt 32 (mk_q ps) in
  let k := mk_k ps in
  let n := mk_n ps in
  let ctprep := copy_MKLWECiphertext ct1 in
  b ← NativeInt.Mod ((5 * q) mod 2 ^ 32 / 8) q;
  let ct_temp := new_MKLWECiphertext (replicate k (NVec q (repeat 0 n))) b in
  ctprep ← MKEvalAddEq ctprep ct2;
  ct_temp ← MKEvalSubEq ct_temp ctprep;
  ctMS1 ← MKModSwitch (Z.of_nat (mk_N ps * 2)) ct_temp;
  acc ← BootstrapGateCore_MKLWE us (BSkey EK) (bt_Pkey EK) ctMS1 st;
  ext ← extract_acc k acc.2 acc.1;
  b ← Add W (Z.shiftr (mk_Q ps) 3) 1;
  let ctExt := new_MKLWECiphertext ext.2 b in
  ctMS ← MKModSwitch (mk_qKS ps) ctExt;
  match LKSkey EK with
  | None => Throw undefined_behaviour
  | Some K => ct ← MKKeySwitch ps K ctMS; Ok (ext.1, ct)
  end.

Definition EvalBinGate_MNTRU (ps : MNTRUCryptoParams) (us : UniEncCryptoParams) (gate : BINGATE) (EK : UniEncBTKey) (same : bool)
    (ct1 ct2 ctNAND : MNTRUCiphertext) (st : FTT) : res (FTT * MNTRUCiphertext) :=
  if same then Throw (config_error "Input ciphertexts should be independant") else
  let k := n_k ps in
  let ctprep := copy_MNTRUCiphertext ct1 in
  let ct_temp := copy_MNTRUCiphertext ctNAND in
  ctprep ← EvalAddEq ctprep ct2;
  ct_temp ← EvalSubEq ct_temp ctprep;
  acc ← BootstrapGateCore_MNTRU us (BSkey EK) (bt_Pkey EK) ct_temp st;
  ext ← extract_acc k acc.2 acc.1;
  ctMS ← ModSwitch (n_qKS ps) (MNTRUCt ext.2 4);
  match KSkey2 EK with
  | None => Throw undefined_behaviour
  | Some K => ct ← KeySwitch2 ps K ctMS; Ok (ext.1, ct)
  end.
End Gates.
