(* ===== verification/MkGateFacts.v ===== *)
(** * The multi-key gate on ring elements

    What the operations of [MkGate] compute: the polynomials of the keys, the
    rotated test polynomial and its constant coefficient, the extraction of a
    multi-key ciphertext from an accumulator and the blind rotation of a
    gate. *)

From Stdlib Require Import ZArith Lia String.
From stdpp Require Import base tactics numbers list strings gmap.
From S2P Require Import Prelude Double NativeInt NativeIntFacts ModArith NativeVec SchemeCore Negacyclic BitReverse Ntt NttFacts NttSpec NttRing Poly PolyFacts Automorphism Gadget RingNoise RingCoefficients AccCore AccCoreFacts MkAcc MkAccFacts MkAccSteps MkAccKeys Lwe MkLwe MNtru MkGate.

(** ** The test polynomial *)
Section TestPolynomial.
Context {st : FTT} {q psi : Z} {k : nat} {HR : RingTransform st q psi k}.
Abbreviation n := (2 ^ k)%nat.
Abbreviation wf := (wf_data (q := q) k).

#[local] Instance test_modulus : NativeModulus W q.
Proof using HR. exact rt_modulus. Qed.

Lemma rsum_entry m (f : nat -> list Z) j : (j < n)%nat -> (forall i, (i < m)%nat -> wf (f i)) -> rsum q n m f !!! j ≡[q] sumZ m (fun i => f i !!! j).
Proof using HR.
  intros Hj Hf. apply (rsum_lookup (q := q) (k := k) m f j Hj). intros i Hi. apply (Hf i Hi).
Qed.

(** The loop of [rotated_test] puts entry [j] at [b + j], for [x^n = -1]. *)
Lemma rotated_test_spec b Rx : 0 <= b < 2 * Z.of_nat n -> wf Rx -> (forall j, (j < n)%nat -> Rx !!! j <> 0) ->
  rotated_test n q b Rx = Ok (rmul q n (mono q n b) Rx).
Proof using HR.
  intros Hb HRx Hnz. pose proof (dim_bound (HR := HR)) as Hn. pose proof (nm_bounds (w := W) (m := q)) as Hq.
  set (pos := fun j => Z.to_nat ((b + Z.of_nat j) mod Z.of_nat n)).
  set (val := fun j => if (Z.of_nat n <=? b + Z.of_nat j) && (b + Z.of_nat j <? 2 * Z.of_nat n) then q - Rx !!! j else Rx !!! j).
  assert (forall j, (pos j < n)%nat) as Hpos.
  { intros j. unfold pos. pose proof (Z.mod_pos_bound (b + Z.of_nat j) (Z.of_nat n) ltac:(lia)). lia. }
  assert (forall i j, (i < n)%nat -> (j < n)%nat -> pos i = pos j -> i = j) as Hinj.
  { intros i j Hi Hj E. unfold pos in E. pose proof (Z.mod_pos_bound (b + Z.of_nat i) (Z.of_nat n) ltac:(lia)).
    pose proof (Z.mod_pos_bound (b + Z.of_nat j) (Z.of_nat n) ltac:(lia)).
    assert ((b + Z.of_nat i) mod Z.of_nat n = (b + Z.of_nat j) mod Z.of_nat n) as [c Ec]%eqm_iff by lia. assert (c = 0) by nia. lia. }
  assert (forall j, (j < n)%nat -> reduced q (val j)) as Hval.
  { intros j Hj. pose proof (entry_reduced k Rx j HRx) as Hr. specialize (Hnz j Hj). unfold val, reduced in *. destruct (_ && _); lia. }
  assert (returns (rotated_test n q b Rx) (fun v => wf v /\ forall j, (j < n)%nat -> v !!! pos j = val j)) as (v & -> & Hv & Ev).
  { unfold rotated_test. apply (returns_for (fun m v => wf v /\ forall j, (j < m)%nat -> v !!! pos j = val j)).
    - split; [apply (rzero_wf (q := q) k)|lia].
    - intros i v Hi [[Lv Fv] Hv]. rewrite (vget_total Rx), bind_ok by (destruct HRx; lia).
      pose proof (entry_reduced k Rx i HRx) as Hr. unfold reduced in Hr.
      rewrite (wrap_small W (b + Z.of_nat i)) by (change (2 ^ W) with (2 ^ 64); lia).
      unfold umod. rewrite (proj2 (Z.eqb_neq _ _)), bind_ok by lia. fold (pos i).
      assert ((if (Z.of_nat n <=? b + Z.of_nat i) && (b + Z.of_nat i <? 2 * Z.of_nat n) then Sub W q (Rx !!! i) else Rx !!! i) = val i) as ->.
      { unfold val. destruct (_ && _); [|done]. unfold Sub, SubFast. cbn [NATIVEINT_DO_CHECKS]. apply wrap_small. lia. }
      rewrite vset_lt by (rewrite Lv; apply Hpos). apply returns_ok. split.
      + split; [by rewrite length_insert|]. apply Forall_insert; auto.
      + intros j Hj. destruct (decide (j = i)) as [->|Hne]; [by rewrite list_lookup_total_insert_eq by (rewrite Lv; apply Hpos)|].
        rewrite list_lookup_total_insert_ne; [apply Hv; lia|]. intros E. apply Hne. apply Hinj; [lia|lia|done]. }
  f_equal. apply (values_eq (q := q) k); [done|apply rmul_wf|]. intros i Hi. rewrite rmul_mono by done.
  set (r := (Z.to_nat b mod n)%nat). set (j := if (i <? r)%nat then (n - r + i)%nat else (i - r)%nat).
  assert (r < n)%nat as Hr by (apply Nat.mod_upper_bound; lia). assert (j < n)%nat as Hj by (unfold j; destruct (Nat.ltb_spec i r); lia).
  assert (pos j = i) as Epos.
  { unfold pos. assert (Z.of_nat r = b mod Z.of_nat n) as Er by (unfold r; rewrite Nat2Z.inj_mod, Z2Nat.id by lia; done).
    rewrite Z.add_mod, <- Er by lia. rewrite (Z.mod_small (Z.of_nat j)) by lia. unfold j.
    destruct (Nat.ltb_spec i r).
    - rewrite <- (Z.mod_add _ (-1)), Z.mod_small by lia. lia.
    - rewrite Z.mod_small by lia. lia. }
  rewrite <- Epos at 1. rewrite Ev by done. unfold val. destruct (_ && _); [|done]. apply eqm_iff. exists 1. ring.
Qed.

(** [x, ..., x, -x, ..., -x], and the sign of its constant coefficient after a
    rotation by [phi]. *)
Definition test_poly (x : Z) : list Z := map (fun j => if (j <? n / 2)%nat then x else Sub W q x) (seq 0 n).
Definition half_turn (phi : Z) : bool := (Z.of_nat n <? 2 * phi) && (2 * phi <=? 3 * Z.of_nat n).

Lemma test_poly_at x j : 0 < x < q -> (j < n)%nat -> test_poly x !!! j = if (j <? n / 2)%nat then x else q - x.
Proof using HR.
  intros Hx Hj. pose proof (nm_bounds (w := W) (m := q)) as Hq. unfold test_poly. rewrite lookup_total_tab by done. destruct (_ <? _)%nat; [done|].
  unfold Sub, SubFast. cbn [NATIVEINT_DO_CHECKS]. apply wrap_small. lia.
Qed.

Lemma test_poly_wf x : 0 < x < q -> wf (test_poly x) /\ forall j, (j < n)%nat -> test_poly x !!! j <> 0.
Proof using HR.
  intros Hx. assert (forall j, (j < n)%nat -> 0 < test_poly x !!! j < q) as H.
  { intros j Hj. rewrite test_poly_at by done. destruct (_ <? _)%nat; lia. }
  assert (length (test_poly x) = n) as L by apply length_tab. split; [|intros j Hj; specialize (H j Hj); lia].
  split; [done|]. apply Forall_lookup. intros j y Hy. assert (j < n)%nat as Hj by (rewrite <- L; by eapply lookup_lt_Some).
  specialize (H j Hj). rewrite (list_lookup_total_correct _ _ _ Hy) in H. unfold reduced. lia.
Qed.

Lemma test_constant x phi : (0 < k)%nat -> 0 < x < q -> 0 <= phi < 2 * Z.of_nat n ->
  rmul q n (mono q n phi) (test_poly x) !!! 0%nat ≡[q] if half_turn phi then - x else x.
Proof using HR.
  intros Hk Hx Hphi. pose proof (pow2_pos_nat k) as Hn. rewrite rmul_mono by done. set (r := (Z.to_nat phi mod n)%nat).
  assert (exists h, n = 2 * h)%nat as [h Eh]. { destruct k as [|k']; [lia|]. exists (2 ^ k')%nat. apply Nat.pow_succ_r'. }
  assert (n / 2 = h)%nat as Eh2 by (rewrite Eh, Nat.mul_comm; by apply Nat.div_mul).
  assert (forall y, q - y ≡[q] - y) as Hneg by (intros y; apply eqm_iff; exists 1; ring).
  assert (forall j, (j < n)%nat -> test_poly x !!! j = if (j <? h)%nat then x else q - x) as Hat by (intros j Hj; rewrite <- Eh2; by apply test_poly_at).
  unfold half_turn. destruct (Nat.ltb_spec (Z.to_nat phi) n) as [Hlt|Hge].
  - assert (r = Z.to_nat phi) as Er by (by apply Nat.mod_small). rewrite Er. destruct (Nat.ltb_spec 0 (Z.to_nat phi)) as [H0|H0].
    + rewrite Nat.add_0_r, Hat by lia. rewrite (proj2 (Z.leb_le (Z.of_nat n) _)), (proj2 (Z.ltb_lt _ (2 * Z.of_nat n))) by lia. cbn [andb].
      rewrite (proj2 (Z.leb_le (2 * phi) _)) by lia.
      destruct (Nat.ltb_spec (n - Z.to_nat phi) h).
      * rewrite (proj2 (Z.ltb_lt _ _)) by lia. done.
      * rewrite (proj2 (Z.ltb_ge _ _)) by lia. cbn [andb]. rewrite Hneg. apply eqm_refl. ring.
    + rewrite (proj2 (Z.leb_gt (Z.of_nat n) _)), (proj2 (Z.ltb_ge _ (2 * phi))) by lia. cbn [andb]. rewrite Hat by lia.
      rewrite (proj2 (Nat.ltb_lt _ _)) by lia. done.
  - assert (r = (Z.to_nat phi - n)%nat) as Er by (unfold r; symmetry; apply (Nat.mod_unique _ _ 1); lia). rewrite Er.
    destruct (Nat.ltb_spec 0 (Z.to_nat phi - n)) as [H0|H0].
    + rewrite Nat.add_0_r, Hat by lia. rewrite (proj2 (Z.ltb_ge _ (2 * Z.of_nat n))), andb_false_r by lia.
      rewrite (proj2 (Z.ltb_lt _ (2 * phi))) by lia. cbn [andb]. destruct (Nat.ltb_spec (n - (Z.to_nat phi - n)) h).
      * rewrite (proj2 (Z.leb_gt _ _)) by lia. done.
      * rewrite (proj2 (Z.leb_le _ _)) by lia. apply Hneg.
    + rewrite (proj2 (Z.leb_le (Z.of_nat n) _)), (proj2 (Z.ltb_lt _ (2 * Z.of_nat n))), (proj2 (Z.ltb_lt _ (2 * phi))), (proj2 (Z.leb_le (2 * phi) _)) by lia.
      cbn [andb]. rewrite Hat by lia. rewrite (proj2 (Nat.ltb_lt _ _)) by lia. done.
Qed.
End TestPolynomial.

(** ** Masks *)
Lemma masks_of U m nn l : length l = U -> (forall u, (u < U)%nat -> wf_mask m nn (l !!! u)) -> l = masks U m nn (fun u i => (l !!! u).[i]).
Proof.
  intros L H. apply list_total_ext; [by rewrite masks_length|]. intros u Hu. rewrite L in Hu. unfold masks. rewrite lookup_total_tab by done.
  destruct (H u Hu) as (Em & Ln & _). destruct (l !!! u) as [m' d]. cbn [modulus data] in *. subst m'. f_equal.
  apply list_total_ext; [by rewrite length_tab|]. intros i Hi. rewrite lookup_total_tab by lia. done.
Qed.

Lemma masks_wf U m nn x u : (forall i, (i < nn)%nat -> reduced m (x u i)) -> (u < U)%nat -> wf_mask m nn (masks U m nn x !!! u).
Proof.
  intros H Hu. unfold masks. rewrite lookup_total_tab by done. split; [done|]. cbn [data]. split; [apply length_tab|]. by apply Forall_tab.
Qed.

Lemma masks_entry U m nn x u i : (u < U)%nat -> (i < nn)%nat -> (masks U m nn x !!! u).[i] = x u i.
Proof. intros Hu Hi. unfold masks. rewrite lookup_total_tab by done. cbn [data]. by rewrite lookup_total_tab. Qed.

(** [GetAneg] negates every entry. *)
Lemma GetAneg_spec m {Hm : NativeModulus W m} U nn ct : (0 < U)%nat -> wf_mkct m U nn ct ->
  GetAneg ct = Ok (masks U m nn (fun u i => (- (mk_a ct !!! u).[i]) mod m)).
Proof.
  intros HU (La & Ha & _). unfold GetAneg. rewrite (vget_total (mk_a ct)), bind_ok by lia. destruct (Ha 0%nat HU) as (-> & -> & _).
  set (g := fun au : NativeVector => NVec m (zip_with (fun x y => (x - y) mod m) (repeat 0 nn) (data au))).
  rewrite (mapM_ok (wf_mask m nn) _ g).
  - f_equal. apply list_total_ext; [by rewrite length_map, masks_length|]. intros u Hu. rewrite length_map in Hu.
    rewrite lookup_total_map by done. unfold g, masks. rewrite lookup_total_tab by lia. f_equal. destruct (Ha u ltac:(lia)) as (_ & Ln & _).
    apply list_total_ext; [rewrite length_zip_with, length_zeros, length_tab; lia|]. intros i Hi. rewrite length_zip_with, length_zeros in Hi.
    rewrite vec_op_lookup by (rewrite ?length_zeros; lia). rewrite lookup_total_tab, zeros_lookup by lia. done.
  - intros au (E & L & F). pose proof (nm_bounds (w := W) (m := m)).
    assert (ModSubV W (NVec m (repeat 0 nn)) au = ModSubEqV W (NVec m (repeat 0 nn)) au) as ->.
    { unfold ModSubV, ModSubEqV. rewrite different_false; [done|by cbn|cbn; rewrite length_zeros; lia]. }
    apply (ModSubEqV_ok (w := W)); [done|done| |done|cbn; rewrite length_zeros; lia]. cbn. apply zeros_Forall. split; lia.
  - apply Forall_lookup. intros u au Hu. rewrite <- (list_lookup_total_correct _ _ _ Hu). apply Ha. rewrite <- La. by eapply lookup_lt_Some.
Qed.

(** ** The blind rotation of a gate *)
Section Bootstrapping.
Context {st : FTT} {q psi : Z} {k : nat} {HR : RingTransform st q psi k} (arb : FTT -> NativePoly -> res (FTT * NativePoly)).
Context (g : Z) (Hg : 1 <= g <= 31) (HgQ : 2 ^ g <= q) (G : nat) (HG : (0 < G)%nat) (HGq : q <= (2 ^ g) ^ Z.of_nat (S G)).
Context (us : UniEncCryptoParams) (Hus : acc_params us q psi k g G).
Context (U : nat) (s a : nat -> list Z) (e P : nat -> nat -> list Z) (sg ep0 rh0 : Z).
Abbreviation n := (2 ^ k)%nat.
Abbreviation wf := (wf_data (q := q) k).
Abbreviation polys_ := (polys (q := q) (psi := psi) (k := k)).
Context (HU : u_k us = U) (HU0 : (0 < U)%nat) (Hsg : 0 <= sg) (Hep0 : 0 <= ep0) (Hrh0 : 0 <= rh0).
Context (Hs : forall u, (u < U)%nat -> wf (s u) /\ l1_le q n sg (s u)).
Context (HP : forall u i, (u < U)%nat -> (i < G)%nat -> wf (e u i) /\ wf (P u i) /\ l1_le q n ep0 (e u i)).
Context (Hpub : pub_rel (q := q) (psi := psi) (k := k) G U s a e P).
Context (Pkey : list (list NativePoly)) (HPkey : forall u, (u < U)%nat -> Pkey !! u = Some (polys_ G (P u))).

#[local] Instance bootstrapping_modulus : NativeModulus W q.
Proof using HR. exact rt_modulus. Qed.

Lemma first_acc_spec v : wf v -> first_acc arb us v st = Ok (st, polys_ U (start (k := k) v)).
Proof using HR Hus HU HU0.
  clear Hg HgQ HG HGq Hs HP Hpub HPkey Hsg Hep0 Hrh0. intros Hv. unfold first_acc. rewrite (ap_polyParams _ _ _ _ _ _ Hus), (ap_Q _ _ _ _ _ _ Hus), HU.
  rewrite (proj2 (SetValues_of (HR := HR) (new_poly (ring_par q psi k) COEFFICIENT false) COEFFICIENT v COEFFICIENT eq_refl Hv) eq_refl), bind_ok.
  rewrite (SetFormat_of (HR := HR)), bind_ok by done. cbn [fst snd].
  rewrite vset_lt, bind_ok by (by rewrite length_replicate). do 2 f_equal. rewrite (zero_of (HR := HR)).
  apply list_eq. intros u. unfold polys. destruct (decide (u < U)%nat) as [Hu|Hu].
  - rewrite lookup_tab by done. unfold start. destruct (decide (u = 0)%nat) as [->|].
    + by rewrite list_lookup_insert_eq by (by rewrite length_replicate).
    + rewrite list_lookup_insert_ne by done. by apply lookup_replicate_2.
  - rewrite !lookup_ge_None_2; [done|rewrite length_tab; lia|rewrite length_insert, length_replicate; lia].
Qed.

Lemma Q2p_spec : 8 < q -> Q2p q 4 = Ok (q / 8 + 1) /\ 0 < q / 8 + 1 < q.
Proof using HR.
  clear - HR. intros Hq. pose proof (nm_bounds (w := W) (m := q)) as Hb. pose proof (nm_double (w := W) (m := q)) as Hd. pose proof (Z.div_mod q 8 ltac:(lia)). pose proof (Z.mod_pos_bound q 8 ltac:(lia)).
  split; [|lia]. unfold Q2p. change (Mul W 2 4) with (@Ok Z 8). rewrite bind_ok. unfold DividedBy. cbn [Z.eqb]. rewrite bind_ok.
  unfold Add, AddFast. cbn [NATIVEINT_DO_CHECKS]. rewrite wrap_small by lia. f_equal. lia.
Qed.

(** The accumulator of a gate holds [x^phi] times the test polynomial, for the
    phase [phi] of the switched ciphertext. *)
Lemma BootstrapGateCore_MKLWE_spec inv (t : nat -> nat -> Z) nn ek ct :
  acc_Eval arb (u_method us) = Ok (EvalAcc_B arb) -> 8 < q -> (0 < k)%nat ->
  wf inv -> (forall y, (y < n)%nat -> slot q psi k y inv * slot q psi k y (s 0%nat) ≡[q] 1) -> (0 < nn)%nat ->
  (forall u i, (u < U)%nat -> (i < nn)%nat -> 0 <= t u i <= 1) ->
  binary_keys (q := q) (psi := psi) (k := k) g G U s a ep0 rh0 inv t nn ek -> wf_mkct (2 * Z.of_nat n) U nn ct -> mk_p ct = 4 ->
  returns (BootstrapGateCore_MKLWE arb us (Some ek) Pkey ct st) (fun r => r.1 = st /\
    acc_state (q := q) (psi := psi) (k := k) U s (test_poly (q := q) (k := k) (q / 8 + 1))
      (mk_b ct - sumZ U (fun u => sumZ nn (fun i => (mk_a ct !!! u).[i] * t u i)))
      (first_bound_B (q := q) g G U sg ep0 rh0 + (Z.of_nat (U * nn) - 1) * step_bound_B (q := q) g G U sg ep0 rh0) r.2).
Proof using All.
  intros Hmethod Hq Hk Hi Hinv Hnn Ht Hek Hct Hp. pose proof (dim_bound (HR := HR)) as Hn.
  destruct (Q2p_spec Hq) as [EQ Hx]. set (x := q / 8 + 1) in *. destruct (test_poly_wf (HR := HR) x Hx) as [Htw Htz].
  assert (2 <= n)%nat as Hn2. { destruct k as [|k']; [lia|]. rewrite Nat.pow_succ_r'. pose proof (pow2_pos_nat k'). lia. }
  assert (NativeModulus W (2 * Z.of_nat n)) as Hm by (apply native_modulus_bits; unfold W; lia).
  destruct (MKGetModulus_spec (q := 2 * Z.of_nat n) U nn ct HU0 Hct) as [Em _]. pose proof (GetAneg_spec (2 * Z.of_nat n) U nn ct HU0 Hct) as Ea.
  destruct Hct as (La & Ha & Hb). unfold reduced in Hb.
  unfold BootstrapGateCore_MKLWE. rewrite Em, bind_ok, (ap_Q _ _ _ _ _ _ Hus), (ap_N _ _ _ _ _ _ Hus), Hp, EQ, bind_ok. fold x.
  unfold Mul, MulFast. cbn [NATIVEINT_DO_CHECKS]. rewrite !bind_ok.
  rewrite (wrap_small W (2 * mk_b ct)) by (change (2 ^ W) with (2 ^ 64); lia). rewrite wrap_small by (change (2 ^ W) with (2 ^ 64); nia).
  unfold DividedBy. rewrite (proj2 (Z.eqb_neq (2 * _) 0)), bind_ok by lia.
  replace (Z.of_nat n * (2 * mk_b ct)) with (mk_b ct * (2 * Z.of_nat n)) by ring. rewrite Z.div_mul by lia.
  change (map _ (seq 0 n)) with (test_poly (q := q) (k := k) x). rewrite (rotated_test_spec (HR := HR)), bind_ok by done.
  assert (wf (rmul q n (mono q n (mk_b ct)) (test_poly (q := q) (k := k) x))) as Hv by apply rmul_wf.
  rewrite first_acc_spec, bind_ok by done. cbn [fst snd]. rewrite Ea, bind_ok, Hmethod, bind_ok.
  eapply returns_mono; [apply (EvalAcc_B_spec (HR := HR) arb g Hg HgQ G HG HGq us Hus U s a e P sg ep0 rh0 HU HU0 Hsg Hep0 Hrh0 Hs HP Hpub Pkey HPkey
    inv t _ nn (2 * Z.of_nat n) ek _ Hi Hinv Hnn); [|done|done]|].
  - intros u i Hu Hi'. split; [by apply Ht|]. apply Z.mod_pos_bound. lia.
  - intros r (E1 & c & noise & E2 & Hc & Hw & Bn & Eph). split; [done|]. exists c, noise. split; [done|]. split; [done|]. split; [done|]. split; [done|].
    rewrite Eph. f_equal. set (T := exponent _ _ _ _).
    assert (T ≡[2 * Z.of_nat n] - sumZ U (fun u => sumZ nn (fun i => (mk_a ct !!! u).[i] * t u i))) as ET.
    { unfold T, exponent. cbn [sumZ]. rewrite Z.add_0_r. rewrite (sumZ_eqm _ U _ (fun u => -1 * sumZ nn (fun i => (mk_a ct !!! u).[i] * t u i))).
      - rewrite sumZ_scale. apply eqm_refl. ring.
      - intros u Hu. rewrite <- sumZ_scale. apply sumZ_eqm. intros i Hi'. rewrite eqm_mod. apply eqm_refl. ring. }
    pose proof (mono_wf (HR := HR) T) as W1. pose proof (mono_wf (HR := HR) (mk_b ct)) as W2.
    apply (slot_ext (HR := HR)); [apply rmul_wf|apply rmul_wf|]. intros y Hy. rewrite !(slot_rmul (HR := HR)) by (done || apply (mono_wf (HR := HR))).
    rewrite Z.mul_assoc. rewrite <- (slot_rmul (HR := HR)), (mono_add (HR := HR)) by done. apply eqm_mul; [|done].
    apply eqm_refl. f_equal. apply mono_periodic. change (T + mk_b ct ≡[2 * Z.of_nat n] mk_b ct - sumZ U (fun u => sumZ nn (fun i => (mk_a ct !!! u).[i] * t u i))).
    rewrite ET. apply eqm_refl. ring.
Qed.
(** The rotation of a multi-key NTRU gate starts from the opposite test
    polynomial, and scales the entries of the ciphertext to exponents. *)
Lemma BootstrapGateCore_MNTRU_spec inv (t : nat -> nat -> Z) nn mod_ ek ct :
  acc_Eval arb (u_method us) = Ok (EvalAcc arb) -> 8 < q ->
  wf inv -> (forall y, (y < n)%nat -> slot q psi k y inv * slot q psi k y (s 0%nat) ≡[q] 1) -> (0 < nn)%nat ->
  (forall u i, (u < U)%nat -> (i < nn)%nat -> -1 <= t u i <= 1) -> mod_ * (2 * Z.of_nat n) < 2 ^ 64 ->
  ternary_keys (q := q) (psi := psi) (k := k) g G U s a ep0 rh0 inv t nn ek -> wf_nct mod_ U nn ct -> ct_pt ct = 4 ->
  returns (BootstrapGateCore_MNTRU arb us (Some ek) Pkey ct st) (fun r => r.1 = st /\
    acc_state (q := q) (psi := psi) (k := k) U s (test_poly (q := q) (k := k) (q - (q / 8 + 1)))
      (sumZ U (fun u => sumZ nn (fun i => (elements ct !!! u).[i] * (2 * Z.of_nat n) / mod_ * t u i)))
      (first_bound (q := q) g G U sg ep0 rh0 + (Z.of_nat (U * nn) - 1) * step_bound (q := q) g G U sg ep0 rh0) r.2).
Proof using All.
  intros Hmethod Hq Hi Hinv Hnn Ht Hmod Hek [Lc Hc] Hp. pose proof (nm_bounds (w := W) (m := q)) as Hqb.
  destruct (Q2p_spec Hq) as [EQ Hx]. set (x := q / 8 + 1) in *. destruct (test_poly_wf (HR := HR) (q - x) ltac:(lia)) as [Htw _].
  unfold BootstrapGateCore_MNTRU. rewrite (ap_Q _ _ _ _ _ _ Hus), (ap_N _ _ _ _ _ _ Hus), Hp, EQ, bind_ok.
  assert (map (fun j => if (j <? n / 2)%nat then Sub W q x else x) (seq 0 n) = test_poly (q := q) (k := k) (q - x)) as ->.
  { assert (forall y, 0 < y < q -> Sub W q y = q - y) as Hs'.
    { intros y Hy. unfold Sub, SubFast. cbn [NATIVEINT_DO_CHECKS]. apply wrap_small. lia. }
    unfold test_poly. apply map_ext. intros j. rewrite !Hs' by lia. destruct (_ <? _)%nat; lia. }
  rewrite first_acc_spec, bind_ok by done. cbn [fst snd]. rewrite Hmethod, bind_ok.
  rewrite (masks_of U mod_ nn (elements ct)) at 1 by done.
  eapply returns_mono; [apply (EvalAcc_spec (HR := HR) arb g Hg HgQ G HG HGq us Hus U s a e P sg ep0 rh0 HU HU0 Hsg Hep0 Hrh0 Hs HP Hpub Pkey HPkey
    inv t (fun u i => (elements ct !!! u).[i]) nn mod_ ek _ Hi Hinv Hnn); [|done|done|done]|].
  - intros u i Hu Hi'. split; [by apply Ht|]. destruct (Hc u Hu) as (_ & Lv & Fv). apply (reduced_at mod_ _ i Fv). lia.
  - intros r [E1 E2]. split; [done|]. unfold exponent in E2. cbn [sumZ] in E2. by rewrite Z.add_0_r in E2.
Qed.
End Bootstrapping.

(** ** Keys *)
Section GateKeys.
Context {st : FTT} {q psi : Z} {k : nat} {HR : RingTransform st q psi k} (arb : FTT -> NativePoly -> res (FTT * NativePoly)).
Context (g : Z) (G : nat) (us : UniEncCryptoParams) (Hus : acc_params us q psi k g G).
Abbreviation n := (2 ^ k)%nat.
Abbreviation wf := (wf_data (q := q) k).
Abbreviation of_ := (poly_of q psi k).
Abbreviation polys_ := (polys (q := q) (psi := psi) (k := k)).
Context (U : nat) (f finv : nat -> list Z) (Hf : forall u, (u < U)%nat -> wf (f u) /\ wf (finv u)).
Context (inv : Z -> nat -> list Z -> option (list Z)) (candidates : nat -> list (list Z)).
Context (Hdrawn : forall u, (u < U)%nat -> Get_invertible_NativeVector inv q (ConvertToInt 32 q) n (candidates u) = Ok (NVec q (f u), NVec q (finv u))).

#[local] Instance gate_keys_modulus : NativeModulus W q.
Proof using HR. exact rt_modulus. Qed.

Lemma set_coefficients v : wf v -> SetValues (new_poly (u_polyParams us) EVALUATION false) (NVec q v) COEFFICIENT = Ok (of_ COEFFICIENT v).
Proof using HR Hus.
  intros Hv. rewrite (ap_polyParams _ _ _ _ _ _ Hus).
  exact (proj2 (SetValues_of (HR := HR) (new_poly (ring_par q psi k) EVALUATION false) COEFFICIENT v COEFFICIENT eq_refl Hv) eq_refl).
Qed.

Lemma key_poly_spec v : wf v -> key_poly arb us (NVec q v) st = Ok (st, of_ EVALUATION v).
Proof using HR Hus. intros Hv. unfold key_poly. rewrite set_coefficients, bind_ok by done. by apply (SetFormat_of (HR := HR)). Qed.

Lemma key_polys_spec : exists l, key_polys arb inv us U candidates st = Ok (st, l) /\
  l.*1 = map (fun u => NVec q (f u)) (seq 0 U) /\ l.*2.*1 = polys_ U f /\ l.*2.*2 = polys_ U finv.
Proof using HR Hus Hf Hdrawn.
  exists (map (fun u => (NVec q (f u), (of_ EVALUATION (f u), of_ EVALUATION (finv u)))) (seq 0 U)). split.
  - apply (tabulateS_ok U _ (fun u => (NVec q (f u), (of_ EVALUATION (f u), of_ EVALUATION (finv u))))). intros u Hu. destruct (Hf u Hu) as [H1 H2].
    rewrite (ap_Q _ _ _ _ _ _ Hus), (ap_N _ _ _ _ _ _ Hus), Hdrawn, bind_ok by done. cbn [fst snd]. rewrite !set_coefficients, !bind_ok by done.
    rewrite (SetFormat_of (HR := HR)), bind_ok by done. cbn [fst snd]. rewrite (SetFormat_of (HR := HR)), bind_ok by done. done.
  - unfold polys. generalize (seq 0 U). intros l. induction l as [|u l (E1 & E2 & E3)]; [done|]. cbn. split; [by f_equal|]. split; by f_equal.
Qed.

(** The ring elements of the public keys. *)
Definition pub_elem (a : nat -> list Z) (ev : nat -> nat -> list Z) (u i : nat) : list Z := rsub q (ev u i) (rmul q n (a i) (f u)).

Lemma pub_elem_wf a ev u i : wf (ev u i) -> wf (pub_elem a ev u i).
Proof using HR. intros H. apply rsub_wf; [done|apply rmul_wf]. Qed.

Lemma pub_elem_rel a ev : (forall i, (i < G)%nat -> wf (a i)) -> (forall u i, (u < U)%nat -> (i < G)%nat -> wf (ev u i)) ->
  pub_rel (q := q) (psi := psi) (k := k) G U f a ev (pub_elem a ev).
Proof using HR Hf.
  intros Ha He u i x Hu Hi Hx. pose proof (He u i Hu Hi) as Hev. pose proof (Ha i Hi) as Hai. destruct (Hf u Hu) as [Hfu _].
  unfold pub_elem. rewrite (slot_rsub (HR := HR)), (slot_rmul (HR := HR)) by (done || apply rmul_wf). done.
Qed.

Lemma public_keys_spec a ev (e : nat -> nat -> NativeVector) CRS :
  (forall i, (i < G)%nat -> wf (a i) /\ CRS !! i = Some (of_ EVALUATION (a i))) ->
  (forall u i, (u < U)%nat -> (i < G)%nat -> e u i = NVec q (ev u i) /\ wf (ev u i)) ->
  public_keys arb us U CRS (polys_ U f) e st = Ok (st, map (fun u => polys_ G (pub_elem a ev u)) (seq 0 U)).
Proof using HR Hus Hf.
  intros Ha He. unfold public_keys. apply (tabulateS_ok U _ (fun u => polys_ G (pub_elem a ev u))). intros u Hu.
  rewrite (ap_digitsG _ _ _ _ _ _ Hus), Nat.sub_succ, Nat.sub_0_r.
  apply (tabulateS_ok G _ (fun i => of_ EVALUATION (pub_elem a ev u i))). intros i Hi.
  destruct (He u i Hu Hi) as [-> Hev], (Ha i Hi) as [Hai Hcrs], (Hf u Hu) as [Hfu _].
  rewrite key_poly_spec, bind_ok by done. cbn [fst snd]. rewrite (vget_lookup _ _ _ Hcrs), bind_ok, polys_get, bind_ok by done.
  rewrite (Times_of (HR := HR)), bind_ok by done. rewrite (Minus_of (HR := HR)), bind_ok by (done || apply rmul_wf). done.
Qed.

(** The vectors that the key switching is made for. *)
Lemma fvec_ints : mk_ints (map (fun u => NVec q (f u)) (seq 0 U)) = map (fun u => map (centred q) (f u)) (seq 0 U) /\
  wf_mkkey U n (map (fun u => NVec q (f u)) (seq 0 U)).
Proof using HR Hf.
  split; [unfold mk_ints; by rewrite map_map|]. split; [apply length_tab|]. intros u Hu. rewrite lookup_total_tab by done.
  destruct (Hf u Hu) as [[L F] _]. split; [|done]. split; [exact (rt_modulus (RingTransform := HR))|done].
Qed.
End GateKeys.

(** The sampling loop returns the first candidate that [inv] accepts, and its
    inverse. *)
Lemma Get_invertible_NativeVector_spec {q : Z} {Hq : NativeModulus W q} (k : nat) (inv : Z -> nat -> list Z -> option (list Z)) (one : list Z) candidates :
  q < 2 ^ 32 ->
  (forall p p', wf_data (q := q) k p -> inv q (2 ^ k)%nat p = Some p' -> wf_data (q := q) k p' /\ rmul q (2 ^ k) p' p = one) ->
  (forall c, c ∈ candidates -> length c = (2 ^ k)%nat) -> (exists c, c ∈ candidates /\ inv q (2 ^ k)%nat (map (fun x => x mod q) c) <> None) ->
  exists c f finv, c ∈ candidates /\ Get_invertible_NativeVector inv q q (2 ^ k) candidates = Ok (NVec q f, NVec q finv) /\
    f = map (fun x => x mod q) c /\ wf_data (q := q) k f /\ wf_data (q := q) k finv /\ rmul q (2 ^ k) finv f = one.
Proof.
  intros H32 Hinv. pose proof (nm_bounds (w := W) (m := q)) as Hb. induction candidates as [|c rest IH]; intros Hc (c0 & Hin & Hi); [by apply not_elem_of_nil in Hin|].
  assert (wf_data (q := q) k (map (fun x => x mod q) c)) as Hw.
  { split; [rewrite length_map; apply Hc; by apply elem_of_cons; left|]. apply map_reduced. intros v. apply (nm_mod (w := W)). }
  cbn [Get_invertible_NativeVector]. destruct (inv q (2 ^ k)%nat (map (fun x => x mod q) c)) as [p'|] eqn:E.
  - destruct (Hinv _ _ Hw E) as [Hw' Hone]. exists c, (map (fun x => x mod q) c), p'. split; [by apply elem_of_cons; left|].
    destruct Hw as [L F], Hw' as [L' F']. rewrite !map_lift by (done || lia). done.
  - destruct IH as (c' & f & finv & Hin' & Hrest); [intros c' Hc'; apply Hc; by apply elem_of_cons; right| |].
    + exists c0. apply elem_of_cons in Hin as [->|Hin]; [by rewrite E in Hi|]. done.
    + exists c', f, finv. split; [by apply elem_of_cons; right|]. exact Hrest.
Qed.

(** A binary secret, as integers. *)
Lemma binary_ints U m nn t : 3 <= m -> (forall u i, (u < U)%nat -> (i < nn)%nat -> 0 <= t u i <= 1) ->
  mk_ints (masks U m nn (fun u i => t u i mod m)) = map (fun u => map (t u) (seq 0 nn)) (seq 0 U).
Proof.
  intros Hm Ht. unfold mk_ints, masks. rewrite map_map. apply map_ext_in. intros u Hu%in_seq. unfold key_ints. cbn [modulus data]. rewrite map_map.
  apply map_ext_in. intros i Hi%in_seq. specialize (Ht u i ltac:(lia) ltac:(lia)). apply centred_unique; [apply Z.mod_pos_bound; lia|symmetry; apply eqm_mod|lia].
Qed.

(** ** Extraction *)
Lemma extract_acc_spec {st : FTT} {q psi : Z} {k : nat} {HR : RingTransform st q psi k} arb U c :
  (forall u, (u < U)%nat -> wf_data (q := q) k (c u)) ->
  extract_acc arb U (polys (q := q) (psi := psi) (k := k) U c) st =
  Ok (st, map (fun u => NVec q (raut q (2 ^ k) (2 * Z.of_nat (2 ^ k) - 1) (c u))) (seq 0 U)).
Proof.
  intros Hc. pose proof (rt_modulus (RingTransform := HR)) as Hq. unfold extract_acc.
  apply (tabulateS_ok U _ (fun u => NVec q (raut q (2 ^ k) (2 * Z.of_nat (2 ^ k) - 1) (c u)))). intros u Hu.
  rewrite polys_get, bind_ok, (Transpose_of (HR := HR)), bind_ok by auto.
  rewrite (SetFormat_of (HR := HR)), bind_ok by (apply raut_wf; auto). done.
Qed.

(** The inner products of the extracted vectors with the ring keys are the
    constant coefficients of the products. *)
Lemma extract_entries {st : FTT} {q psi : Z} {k : nat} {HR : RingTransform st q psi k} U (f c : nat -> list Z) :
  (forall u, (u < U)%nat -> wf_data (q := q) k (f u)) -> (forall u, (u < U)%nat -> wf_data (q := q) k (c u)) ->
  let l := map (fun u => NVec q (raut q (2 ^ k) (2 * Z.of_nat (2 ^ k) - 1) (c u))) (seq 0 U) in
  (forall u, (u < U)%nat -> wf_mask q (2 ^ k) (l !!! u)) /\
  sumZ U (fun u => sumZ (2 ^ k) (fun i => (l !!! u).[i] * centred q (f u !!! i))) ≡[q] acc_phase (q := q) (k := k) U f c !!! 0%nat.
Proof.
  intros Hf Hc l. pose proof (rt_modulus (RingTransform := HR)) as Hq. split.
  - intros u Hu. unfold l. rewrite lookup_total_tab by done. split; [done|]. cbn [data]. apply raut_wf. by apply Hc.
  - unfold acc_phase. rewrite (rsum_entry (HR := HR)) by (first [apply pow2_pos_nat | intros; apply rmul_wf]).
    apply sumZ_eqm. intros u Hu. rewrite <- (transpose_dot (HR := HR)) by auto. apply sumZ_eqm. intros i Hi.
    unfold l. rewrite lookup_total_tab by done. cbn [data]. by rewrite centred_eqm.
Qed.

(** The phase of the extracted ciphertext is the constant coefficient of the
    phase of the accumulator. *)
Lemma extract_phase {st : FTT} {q psi : Z} {k : nat} {HR : RingTransform st q psi k} U (f c : nat -> list Z) b p :
  (forall u, (u < U)%nat -> wf_data (q := q) k (f u)) -> (forall u, (u < U)%nat -> wf_data (q := q) k (c u)) -> reduced q b ->
  let ct := MKCt (map (fun u => NVec q (raut q (2 ^ k) (2 * Z.of_nat (2 ^ k) - 1) (c u))) (seq 0 U)) b p in
  wf_mkct q U (2 ^ k) ct /\
  mk_phase (map (fun u => map (centred q) (f u)) (seq 0 U)) ct ≡[q] b - acc_phase (q := q) (k := k) U f c !!! 0%nat.
Proof.
  intros Hf Hc Hb ct. destruct (extract_entries (HR := HR) U f c Hf Hc) as [Hm Hs]. split.
  - split; [apply length_tab|]. by split.
  - rewrite (mk_phase_ext U (2 ^ k)).
    + cbn [ct mk_a mk_b]. apply eqm_sub; [done|]. rewrite <- Hs. apply sumZ_eqm. intros u Hu. apply sumZ_eqm. intros i Hi.
      rewrite (lookup_total_tab U (fun u => map (centred q) (f u))) by done. rewrite (lookup_total_map (centred q) (f u)) by (rewrite (proj1 (Hf u Hu)); exact Hi). done.
    + apply length_tab.
    + intros u Hu. rewrite lookup_total_tab, length_map by done. apply (Hf u Hu).
Qed.
