(* ===== verification/MkGateSpec.v ===== *)
(** * The multi-key NAND gate, from the drawn values to the plaintext

    [MKKeyGen] for multi-key LWE makes keys that satisfy the relations of the
    accumulator and of the key switching, and [EvalBinGate] on two ciphertexts
    returns a ciphertext whose phase encodes the NAND of the two bits, under
    explicit bounds of the drawn values. *)

From Stdlib Require Import ZArith Lia String.
From stdpp Require Import base tactics numbers list strings gmap.
From S2P Require Import Prelude Double NativeInt NativeIntFacts ModArith NativeVec SchemeCore Negacyclic BitReverse Ntt NttFacts NttSpec NttRing Poly PolyFacts Automorphism Gadget RingNoise RingCoefficients AccCore AccCoreFacts MkAcc MkAccFacts MkAccSteps MkAccKeys Lwe MkLwe MNtru MkGate MkGateFacts.

(** ** The arithmetic of the gate *)

(** The phase of a prepared sum, scaled to the exponents of [x], lies in the
    half turn exactly when no or one quarter of the modulus is taken off. *)
Lemma gate_half_turn q N M e ph phi c norm B :
  0 < q -> 0 < N -> -1 <= M <= 2 -> ph ≡[q] 5 * q / 8 - M * (q / 4) - e ->
  2 * Z.abs (q * (phi + c * (2 * N)) - 2 * N * ph) <= q * (1 + norm) ->
  Z.abs (- ((5 * q) mod 8) + 2 * M * (q mod 4) - 8 * e) <= B -> N * B + 2 * q * (1 + norm) < q * N ->
  let phi' := phi mod (2 * N) in
  (N <? 2 * phi') && (2 * phi' <=? 3 * N) = (0 <=? M) && (M <=? 1).
Proof.
  intros Hq HN HM [z Ez]%eqm_iff Hs Hdev Hb phi'.
  pose proof (Z.div_mod (5 * q) 8 ltac:(lia)) as E8. pose proof (Z.div_mod q 4 ltac:(lia)) as E4.
  set (r := (5 * q) mod 8) in *. set (r' := q mod 4) in *. set (A := 5 * q / 8) in *. set (D := q / 4) in *.
  set (y := phi + (c - z) * (2 * N)).
  set (delta := q * (phi + c * (2 * N)) - 2 * N * ph) in *.
  assert (8 * (q * y) = 2 * N * (q * (5 - 2 * M) - r + 2 * M * r' - 8 * e) + 8 * delta) as Ey.
  { unfold y, delta. rewrite Ez. transitivity (8 * q * phi + 16 * q * (c - z) * N); [ring|].
    transitivity (2 * N * (8 * A - 2 * M * (4 * D) - 8 * e) + 8 * (q * (phi + c * (2 * N)) - 2 * N * (A - M * D - e + z * q))); [ring|].
    replace (8 * A) with (5 * q - r) by lia. replace (4 * D) with (q - r') by lia. ring. }
  assert (Z.abs (2 * N * (- r + 2 * M * r' - 8 * e)) <= 2 * N * B) as Hdev2.
  { rewrite Z.abs_mul, (Z.abs_eq (2 * N)) by lia. apply Z.mul_le_mono_nonneg_l; lia. }
  assert (Z.abs (q * (4 * y - N * (5 - 2 * M))) < q * N) as Hy.
  { assert (2 * (q * (4 * y - N * (5 - 2 * M))) = 2 * N * (- r + 2 * M * r' - 8 * e) + 8 * delta) as E2.
    { transitivity (8 * (q * y) - 2 * N * (q * (5 - 2 * M))); [ring|]. rewrite Ey. ring. }
    lia. }
  rewrite Z.abs_mul, (Z.abs_eq q) in Hy by lia. apply Z.mul_lt_mono_pos_l in Hy; [|done].
  assert (M = -1 \/ M = 0 \/ M = 1 \/ M = 2) as HMc by lia.
  assert (0 <= y < 2 * N) as Hyr by (destruct HMc as [-> | [-> | [-> | ->]]]; lia).
  assert (phi' = y) as ->.
  { unfold phi'. symmetry. apply (Z.mod_unique_pos _ _ (z - c)); [done|unfold y; ring]. }
  destruct HMc as [-> | [-> | [-> | ->]]]; cbn [Z.leb Z.compare Pos.compare Pos.compare_cont andb].
  - rewrite (proj2 (Z.leb_gt (2 * y) _)) by lia. apply andb_false_r.
  - rewrite (proj2 (Z.ltb_lt N (2 * y))), (proj2 (Z.leb_le (2 * y) _)) by lia. done.
  - rewrite (proj2 (Z.ltb_lt N (2 * y))), (proj2 (Z.leb_le (2 * y) _)) by lia. done.
  - rewrite (proj2 (Z.ltb_ge N (2 * y))) by lia. done.
Qed.

(** For the sum of two bits: exactly when one of them is zero. *)
Lemma nand_half_turn q N M e ph phi c norm :
  0 < q -> 0 < N -> 0 <= M <= 2 -> ph ≡[q] 5 * q / 8 - M * (q / 4) - e ->
  2 * Z.abs (q * (phi + c * (2 * N)) - 2 * N * ph) <= q * (1 + norm) ->
  N * (12 + 8 * Z.abs e) + 2 * q * (1 + norm) < q * N ->
  let phi' := phi mod (2 * N) in
  (N <? 2 * phi') && (2 * phi' <=? 3 * N) = negb (M =? 2).
Proof.
  intros Hq HN HM Eph Hs Hb phi'. unfold phi'.
  rewrite (gate_half_turn q N M e ph phi c norm (12 + 8 * Z.abs e)); try done; [|lia|].
  - assert (M = 0 \/ M = 1 \/ M = 2) as [-> | [-> | ->]] by lia; done.
  - pose proof (Z.mod_pos_bound (5 * q) 8 ltac:(lia)). pose proof (Z.mod_pos_bound q 4 ltac:(lia)). nia.
Qed.

(** The noise of the result of a gate: that of the accumulator, of the modulus
    switch and of the key switch. *)
Definition gate_noise (q Q Bn norm Kb : Z) : Z := (q * (8 + 4 * Bn) + 2 * Q * (1 + norm) + 3 * Q + 4 * Q * Kb) / (4 * Q).

Lemma gate_noise_small q Q Bn norm Kb : 0 < Q -> 2 * (q * (8 + 4 * Bn) + 2 * Q * (1 + norm) + 3 * Q + 4 * Q * (Kb + 4)) < Q * q ->
  2 * 4 * (gate_noise q Q Bn norm Kb + 4) < q.
Proof.
  intros HQ Hb. unfold gate_noise. set (X := q * (8 + 4 * Bn) + 2 * Q * (1 + norm) + 3 * Q) in *.
  pose proof (Z.mul_div_le (X + 4 * Q * Kb) (4 * Q) ltac:(lia)) as Hd.
  apply (Z.mul_lt_mono_pos_l Q); [done|]. set (y := (X + 4 * Q * Kb) / (4 * Q)) in *. lia.
Qed.

(** The phase after the extraction, the modulus switch and the key switch. *)
Lemma nand_output Q q m noise ph phi c fin ks Bn Kb norm :
  0 < Q -> 0 < q -> 0 <= m <= 1 -> ph ≡[Q] m * (2 * (Q / 8 + 1)) - noise -> Z.abs noise <= Bn ->
  2 * Z.abs (Q * (phi + c * q) - q * ph) <= Q * (1 + norm) ->
  fin ≡[q] phi - ks -> Z.abs ks <= Kb ->
  exists e, fin ≡[q] m * (q / 4) + e /\ Z.abs e <= gate_noise q Q Bn norm Kb.
Proof.
  intros HQ Hq Hm [z Ez]%eqm_iff HB Hs Hfin HK.
  pose proof (Z.div_mod Q 8 ltac:(lia)) as E8. pose proof (Z.mod_pos_bound Q 8 ltac:(lia)) as B8.
  pose proof (Z.div_mod q 4 ltac:(lia)) as E4. pose proof (Z.mod_pos_bound q 4 ltac:(lia)) as B4.
  set (r := Q mod 8) in *. set (r' := q mod 4) in *. set (A := Q / 8) in *. set (D := q / 4) in *.
  set (delta := Q * (phi + c * q) - q * ph) in *.
  exists (phi + (c - z) * q - m * D - ks). split.
  - rewrite Hfin. apply eqm_iff. exists (z - c). ring.
  - set (e := phi + (c - z) * q - m * D - ks).
    assert (4 * Q * (e + ks) = q * (m * (8 - r)) + Q * (m * r') - 4 * q * noise + 4 * delta) as Ee.
    { unfold e, delta. rewrite Ez. transitivity (4 * Q * phi + 4 * Q * (c - z) * q - Q * (m * (4 * D))); [ring|].
      replace (4 * D) with (q - r') by lia.
      transitivity (q * (m * (8 * A + 8 - Q)) + Q * (m * r') - 4 * q * noise + 4 * (Q * (phi + c * q) - q * (m * (2 * (A + 1)) - noise + z * Q))); [ring|].
      replace (8 * A + 8 - Q) with (8 - r) by lia. done. }
    assert (0 <= m * (8 - r) <= 8 /\ 0 <= m * r' <= 3) as [Hm1 Hm2] by (assert (m = 0 \/ m = 1) as [-> | ->] by lia; lia).
    assert (0 <= q * (m * (8 - r)) <= q * 8) as H1 by (split; [apply Z.mul_nonneg_nonneg|apply Z.mul_le_mono_nonneg_l]; lia).
    assert (0 <= Q * (m * r') <= Q * 3) as H2 by (split; [apply Z.mul_nonneg_nonneg|apply Z.mul_le_mono_nonneg_l]; lia).
    assert (Z.abs (4 * q * noise) <= 4 * q * Bn) as H3 by (rewrite Z.abs_mul, (Z.abs_eq (4 * q)) by lia; apply Z.mul_le_mono_nonneg_l; lia).
    assert (4 * Q * Z.abs (e + ks) <= q * (8 + 4 * Bn) + 2 * Q * (1 + norm) + 3 * Q) as H4.
    { rewrite <- (Z.abs_eq (4 * Q)) at 1 by lia. rewrite <- Z.abs_mul, Ee. lia. }
    assert (4 * Q * Z.abs e <= 4 * Q * Z.abs (e + ks) + 4 * Q * Kb) as H5 by (rewrite <- Z.mul_add_distr_l; apply Z.mul_le_mono_nonneg_l; lia).
    unfold gate_noise. apply Z.div_le_lower_bound; lia.
Qed.

Lemma MKModSwitch_p q ct : returns (MKModSwitch q ct) (fun _ => True) -> returns (MKModSwitch q ct) (fun ct' => mk_p ct' = 4).
Proof.
  intros (ct' & E & _). exists ct'. split; [done|]. revert E. unfold MKModSwitch.
  destruct (MKGetLength ct) as [m|]; [|done]. rewrite bind_ok. destruct (MKGetModulus ct) as [m'|]; [|done]. rewrite bind_ok.
  destruct (tabulateM _ _) as [x|]; [|done]. rewrite bind_ok. destruct (RoundqQ _ _ _) as [b|]; [|done]. rewrite bind_ok. by intros [= <-].
Qed.

Lemma returns_both {A} (m : res A) (P Q : A -> Prop) : returns m P -> returns m Q -> returns m (fun x => P x /\ Q x).
Proof. intros (x & E & Hx) (y & E' & Hy). rewrite E in E'. injection E' as <-. by exists x. Qed.

(** The parameters of a gate: [U] users, keys of [nn] bits, modulus [q]
    for the ciphertexts, [Q] for the ring of dimension [2^k] and [qKS] for the
    key switching, and the sizes that keep every intermediate value in
    range. *)
Record gate_setting (ps : MKLWECryptoParams) (us : UniEncCryptoParams) (q Q qKS : Z) (k : nat) (g : Z) (G U nn base : nat) : Prop := {
  gs_users : mk_k ps = U /\ u_k us = U /\ (0 < U)%nat;
  gs_dims : mk_n ps = nn /\ mk_N ps = (2 ^ k)%nat /\ (0 < nn)%nat;
  gs_moduli : mk_q ps = q /\ mk_Q ps = Q /\ mk_qKS ps = qKS;
  gs_base : mk_baseKS ps = Z.of_nat base /\ (1 < base)%nat;
  gs_method : u_method us = MKNTRU_B \/ u_method us = MKNTRU_LWE;
  gs_native : NativeModulus W q /\ NativeModulus W qKS /\ 8 < Q;
  gs_gadget : 1 <= g <= 31 /\ 2 ^ g < Q /\ Q <= (2 ^ g) ^ Z.of_nat (S G) /\ (0 < G)%nat /\ (G <= 2 ^ k)%nat;
  gs_fit : 5 * q < 2 ^ 32 /\ 6 * q * (2 * 2 ^ Z.of_nat k) + 3 * q + 2 * 2 ^ Z.of_nat k < 2 ^ 53 /\ 6 * Q * qKS + 3 * Q + qKS < 2 ^ 53;
  gs_fit64 : (Z.of_nat nn + 2) * qKS < 2 ^ 64 /\ Z.of_nat base * qKS <= 2 ^ 64
}.

(** The drawn values of the ring: keys with inverses, public values and errors,
    with their sizes. *)
Record ring_draws (Q : Z) (k G U nn : nat) (sg ep rh : Z) (f finv a : nat -> list Z) (ev : nat -> nat -> list Z)
    (e : nat -> nat -> NativeVector) (sample : nat -> nat -> nat -> KeySample) : Prop := {
  rd_key u : (u < U)%nat -> wf_data (q := Q) k (f u) /\ wf_data (q := Q) k (finv u) /\
    rmul Q (2 ^ k) (finv u) (f u) = mono Q (2 ^ k) 0 /\ l1_le Q (2 ^ k) sg (f u);
  rd_crs i : (i < G)%nat -> wf_data (q := Q) k (a i);
  rd_public u i : (u < U)%nat -> (i < G)%nat -> e u i = NVec Q (ev u i) /\ wf_data (q := Q) k (ev u i) /\ l1_le Q (2 ^ k) ep (ev u i);
  rd_sample u s i : (u < U)%nat -> (i <= nn)%nat -> good_sample (q := Q) (k := k) G ep rh (sample u s i);
  rd_sizes : 0 <= sg /\ 0 <= ep /\ 0 <= rh
}.

(** With them, the binary secrets and what the key switching draws. *)
Record gate_draws (Q qKS : Z) (k G U nn : nat) (m_ sg ep rh E : Z)
    (f finv a : nat -> list Z) (ev : nat -> nat -> list Z) (t : nat -> nat -> Z)
    (inv : Z -> nat -> list Z -> option (list Z)) (candidates : nat -> list (list Z)) (e : nat -> nat -> NativeVector) (sample : nat -> nat -> nat -> KeySample)
    (gaussA : nat -> nat -> nat -> nat -> NativeVector) (err : nat -> nat -> nat -> nat -> Z) : Prop := {
  gd_ring : ring_draws Q k G U nn sg ep rh f finv a ev e sample;
  gd_drawn u : (u < U)%nat -> Get_invertible_NativeVector inv Q (ConvertToInt 32 Q) (2 ^ k) (candidates u) = Ok (NVec Q (f u), NVec Q (finv u));
  gd_secret : NativeModulus W m_ /\ forall u i, (u < U)%nat -> (i < nn)%nat -> 0 <= t u i <= 1;
  gd_gauss u i j c : wf_mask qKS nn (gaussA u i j c);
  gd_err u i j c : reduced qKS (err u i j c) /\ Z.abs (centred qKS (err u i j c)) <= E
}.

Arguments gs_users {ps us q Q qKS k g G U nn base}.
Arguments gs_dims {ps us q Q qKS k g G U nn base}.
Arguments gs_moduli {ps us q Q qKS k g G U nn base}.
Arguments gs_base {ps us q Q qKS k g G U nn base}.
Arguments gs_method {ps us q Q qKS k g G U nn base}.
Arguments gs_native {ps us q Q qKS k g G U nn base}.
Arguments gs_gadget {ps us q Q qKS k g G U nn base}.
Arguments gs_fit {ps us q Q qKS k g G U nn base}.
Arguments gs_fit64 {ps us q Q qKS k g G U nn base}.
Arguments gd_ring {Q qKS k G U nn m_ sg ep rh E f finv a ev t inv candidates e sample gaussA err}.
Arguments gd_drawn {Q qKS k G U nn m_ sg ep rh E f finv a ev t inv candidates e sample gaussA err}.
Arguments gd_secret {Q qKS k G U nn m_ sg ep rh E f finv a ev t inv candidates e sample gaussA err}.
Arguments gd_gauss {Q qKS k G U nn m_ sg ep rh E f finv a ev t inv candidates e sample gaussA err}.
Arguments gd_err {Q qKS k G U nn m_ sg ep rh E f finv a ev t inv candidates e sample gaussA err}.
Arguments rd_key {Q k G U nn sg ep rh f finv a ev e sample}.
Arguments rd_crs {Q k G U nn sg ep rh f finv a ev e sample}.
Arguments rd_public {Q k G U nn sg ep rh f finv a ev e sample}.
Arguments rd_sample {Q k G U nn sg ep rh f finv a ev e sample}.
Arguments rd_sizes {Q k G U nn sg ep rh f finv a ev e sample}.

(** What the accumulator needs of the drawn values. *)
Section Ring.
Context {st : FTT} {Q psi : Z} {k : nat} {HR : RingTransform st Q psi k} (arb : FTT -> NativePoly -> res (FTT * NativePoly)).
Context (us : UniEncCryptoParams) (g : Z) (G U nn : nat) (Hus : acc_params us Q psi k g G).
Context (sg ep rh : Z) (f finv a : nat -> list Z) (ev : nat -> nat -> list Z) (e : nat -> nat -> NativeVector) (sample : nat -> nat -> nat -> KeySample).
Context (Hring : ring_draws Q k G U nn sg ep rh f finv a ev e sample).
Abbreviation n := (2 ^ k)%nat.
Abbreviation wf := (wf_data (q := Q) k).
Abbreviation polys_ := (polys (q := Q) (psi := psi) (k := k)).
Abbreviation CRS := (polys_ G a).
Abbreviation pub := (pub_elem (q := Q) (k := k) f a ev).

#[local] Instance ring_modulus : NativeModulus W Q.
Proof using HR. exact rt_modulus. Qed.

Lemma ring_keys u : (u < U)%nat -> wf (f u) /\ wf (finv u) /\ forall x, (x < n)%nat -> slot Q psi k x (finv u) * slot Q psi k x (f u) ≡[Q] 1.
Proof using HR Hring.
  intros Hu. destruct (rd_key Hring u Hu) as (H1 & H2 & H3 & _). split; [done|]. split; [done|]. intros x Hx.
  rewrite <- (slot_rmul (HR := HR)), H3 by done. apply (mono_0 (HR := HR)).
Qed.

Lemma ring_elements u : (u < U)%nat -> wf (f u) /\ wf (finv u).
Proof using HR Hring. intros Hu. by destruct (ring_keys u Hu) as (? & ? & _). Qed.

Lemma crs_lookup i : (i < G)%nat -> CRS !! i = Some (poly_of Q psi k EVALUATION (a i)).
Proof using Type. clear. intros Hi. apply (lookup_tab G (fun i => poly_of Q psi k EVALUATION (a i)) i Hi). Qed.

Lemma public_made : public_keys arb us U CRS (polys_ U f) e st = Ok (st, map (fun u => polys_ G (pub u)) (seq 0 U)).
Proof using HR Hus Hring.
  apply (public_keys_spec (HR := HR) arb g G us Hus U f finv ring_elements).
  - intros i Hi. split; [by apply (rd_crs Hring)|by apply crs_lookup].
  - intros u i Hu Hi. by destruct (rd_public Hring u i Hu Hi) as (? & ? & _).
Qed.

(** The hypotheses of the rotation. *)
Lemma ring_rotation :
  (forall u, (u < U)%nat -> wf (f u) /\ l1_le Q n sg (f u)) /\
  (forall u i, (u < U)%nat -> (i < G)%nat -> wf (ev u i) /\ wf (pub u i) /\ l1_le Q n ep (ev u i)) /\
  pub_rel (q := Q) (psi := psi) (k := k) G U f a ev pub /\
  (forall u, (u < U)%nat -> map (fun u => polys_ G (pub u)) (seq 0 U) !! u = Some (polys_ G (pub u))).
Proof using HR Hring.
  split; [|split; [|split]].
  - intros u Hu. by destruct (rd_key Hring u Hu) as (? & _ & _ & ?).
  - intros u i Hu Hi. destruct (rd_public Hring u i Hu Hi) as (_ & H1 & H2). split; [done|]. split; [by apply (pub_elem_wf (HR := HR))|done].
  - apply (pub_elem_rel (HR := HR) G U f finv ring_elements); [exact (rd_crs Hring)|].
    intros u i Hu Hi. by destruct (rd_public Hring u i Hu Hi) as (_ & ? & _).
  - intros u Hu. apply (lookup_tab U (fun u => polys_ G (pub u)) u Hu).
Qed.
End Ring.

Section Nand.
Context {st : FTT} {Q psi : Z} {k : nat} {HR : RingTransform st Q psi k} (arb : FTT -> NativePoly -> res (FTT * NativePoly)).
Context (ps : MKLWECryptoParams) (us : UniEncCryptoParams) (q qKS g : Z) (G U nn base : nat).
Context (Hset : gate_setting ps us q Q qKS k g G U nn base) (Hus : acc_params us Q psi k g G).
Context (m_ sg ep rh E : Z) (f finv a : nat -> list Z) (ev : nat -> nat -> list Z) (t : nat -> nat -> Z).
Context (inv : Z -> nat -> list Z -> option (list Z)) (candidates : nat -> list (list Z)) (e : nat -> nat -> NativeVector) (sample : nat -> nat -> nat -> KeySample).
Context (gaussA : nat -> nat -> nat -> nat -> NativeVector) (err : nat -> nat -> nat -> nat -> Z).
Context (Hdraws : gate_draws Q qKS k G U nn m_ sg ep rh E f finv a ev t inv candidates e sample gaussA err).
Let Hring := gd_ring Hdraws.
Let keys := ring_keys (HR := HR) G U nn sg ep rh f finv a ev e sample Hring.
Let elements := ring_elements (HR := HR) G U nn sg ep rh f finv a ev e sample Hring.
Abbreviation n := (2 ^ k)%nat.
Abbreviation wf := (wf_data (q := Q) k).
Abbreviation polys_ := (polys (q := Q) (psi := psi) (k := k)).
Abbreviation sk := (masks U m_ nn (fun u i => t u i mod m_)).
Abbreviation CRS := (polys_ G a).
Abbreviation pub := (pub_elem (q := Q) (k := k) f a ev).

#[local] Instance nand_modulus : NativeModulus W Q.
Proof using HR. exact rt_modulus. Qed.

Lemma secret_wf : wf_mkkey U nn sk /\ mk_ints sk = map (fun u => map (t u) (seq 0 nn)) (seq 0 U).
Proof using Hdraws.
  destruct (gd_secret Hdraws) as [Hm Ht]. pose proof (nm_bounds (w := W) (m := m_)) as Hb. split.
  - split; [apply masks_length|]. intros u Hu.
    destruct (masks_wf U m_ nn (fun u i => t u i mod m_) u) as (E1 & E2 & E3); [intros i _; apply (nm_mod (w := W))|done|].
    split; [|done]. split; [by rewrite E1|by rewrite E1].
  - apply binary_ints; [lia|done].
Qed.

(** What [MKKeyGen] returns. *)
Definition good_keys (bt : UniEncBTKey) : Prop :=
  exists ek K, bt = BTKey (Some ek) None (Some K) (map (fun u => polys_ G (pub u)) (seq 0 U)) (polys_ U f) (map (fun u => NVec Q (f u)) (seq 0 U)) [] sk /\
    binary_keys (q := Q) (psi := psi) (k := k) g G U f a ep rh (finv 0%nat) t nn ek /\
    mk_ksk_valid qKS base (digit_count (Z.of_nat base) qKS) U nn n (mk_ints sk) (map (fun u => map (centred Q) (f u)) (seq 0 U)) K err.

Lemma MKKeyGen_MKLWE_spec : constant_ephemerals (q := Q) (k := k) U nn sample -> returns (MKKeyGen_MKLWE arb inv ps us CRS sk candidates gaussA err e sample st) (fun r => r.1 = st /\ good_keys r.2).
Proof using All.
  destruct (gs_users Hset) as (EU & EU' & HU). destruct (gs_dims Hset) as (En & EN & Hnn).
  destruct (gs_moduli Hset) as (Eq & EQ & EK). destruct (gs_base Hset) as [Eb Hb].
  destruct (gs_native Hset) as (Hq & HqKS & _). destruct (gs_gadget Hset) as (Hg & _ & _ & HG & HGn).
  destruct (gs_fit64 Hset) as [F1 F2]. destruct (gd_secret Hdraws) as [Hm Ht].
  destruct secret_wf as [Hskw Eski].
  pose proof (gd_drawn Hdraws) as Hdr.
  intros Hconst. unfold MKKeyGen_MKLWE. rewrite EU'.
  destruct (key_polys_spec (HR := HR) arb g G us Hus U f finv elements inv candidates Hdr) as (l & -> & E0 & E1 & E2). rewrite bind_ok. cbn [fst snd]. rewrite E0, E1, E2.
  destruct (fvec_ints (HR := HR) U f finv elements) as [Ef Hfw].
  eapply returns_bind.
  { apply (MKKeySwitchGen_spec (q := qKS) ps sk (map (fun u => NVec Q (f u)) (seq 0 U)) gaussA err base); rewrite ?EU, ?En, ?EN; try done.
    - apply (gd_gauss Hdraws).
    - intros u i j c. apply (gd_err Hdraws u i j c). }
  intros K HK. cbn beta in HK. rewrite EU, En, EN, Ef in HK.
  rewrite (public_made (HR := HR) arb us g G U nn Hus sg ep rh f finv a ev e sample Hring).
  rewrite bind_ok. cbn [fst snd].
  assert (acc_KeyGen_MKLWE arb (u_method us) = Ok (KeyGenAcc_B arb)) as ->. { destruct (gs_method Hset) as [-> | ->]; done. }
  rewrite bind_ok. eapply returns_bind.
  { apply (KeyGenAcc_B_spec (HR := HR) arb g G us Hus HGn a (rd_crs Hring) CRS (crs_lookup G a) U f finv ep rh HU keys t nn Hnn m_); [|exact (rd_sample Hring)|exact Hconst|done].
    pose proof (nm_bounds (w := W) (m := m_)). change (2 ^ W) with (2 ^ 64) in *. lia. }
  intros r [Er Hek]. apply returns_ok. cbn [fst snd]. split; [done|]. exists r.2, K. done.
Qed.

(** The noise that the accumulator, the key switching and the modulus switch
    may add. *)
Definition acc_noise : Z := first_bound_B (q := Q) g G U sg ep rh + (Z.of_nat (U * nn) - 1) * step_bound_B (q := Q) g G U sg ep rh.
Definition ks_noise_bound : Z := Z.of_nat U * (Z.of_nat n * (Z.of_nat (digit_count (Z.of_nat base) qKS) * E)).
Definition key_norm : Z := sumZ U (fun u => norm1 (map (t u) (seq 0 nn))).
Definition ring_norm : Z := sumZ U (fun u => norm1 (map (centred Q) (f u))).

Lemma norm1_of U' (h : nat -> list Z) : mk_norm1 (map h (seq 0 U')) = sumZ U' (fun u => norm1 (h u)).
Proof using Type. clear. unfold mk_norm1. rewrite length_tab. apply sumZ_ext. intros u Hu. by rewrite lookup_total_tab. Qed.

(** The blind rotation of the gate, with the keys of [MKKeyGen]. *)
Lemma nand_rotation bt ct : good_keys bt -> wf_mkct (2 * Z.of_nat n) U nn ct -> mk_p ct = 4 ->
  returns (BootstrapGateCore_MKLWE arb us (BSkey bt) (bt_Pkey bt) ct st) (fun r => r.1 = st /\
    acc_state (q := Q) (psi := psi) (k := k) U f (test_poly (q := Q) (k := k) (Q / 8 + 1)) (mk_phase (mk_ints sk) ct) acc_noise r.2).
Proof using All.
  intros (ek & K & -> & Hek & _) Hct Hp.
  destruct (gs_users Hset) as (EU & EU' & HU). destruct (gs_dims Hset) as (En & EN & Hnn). destruct (gs_native Hset) as (_ & _ & HQ8).
  destruct (gs_gadget Hset) as (Hg & HgQ & HGq & HG & HGn). destruct (rd_sizes Hring) as (Hsg & Hep & Hrh). destruct (gd_secret Hdraws) as [_ Ht].
  destruct secret_wf as [_ Eski].
  assert (mk_phase (mk_ints sk) ct = mk_b ct - sumZ U (fun u => sumZ nn (fun i => (mk_a ct !!! u).[i] * t u i))) as ->.
  { rewrite Eski, (mk_phase_ext U nn); [|apply length_tab|intros u Hu; rewrite lookup_total_tab by done; apply length_tab].
    f_equal. apply sumZ_ext. intros u Hu. apply sumZ_ext. intros i Hi. by rewrite !lookup_total_tab by done. }
  destruct (ring_rotation (HR := HR) G U nn sg ep rh f finv a ev e sample Hring) as (R1 & R2 & R3 & R4).
  cbn [BSkey bt_Pkey].
  apply (BootstrapGateCore_MKLWE_spec (HR := HR) arb g Hg ltac:(lia) G HG HGq us Hus U f a ev pub sg ep rh EU' HU Hsg Hep Hrh R1 R2 R3 _ R4) with (inv := finv 0%nat); try done.
  - destruct (gs_method Hset) as [-> | ->]; done.
  - apply (rt_dim (RingTransform := HR)).
  - by apply elements.
  - intros y Hy. by apply (keys 0%nat HU).
Qed.

(** The linear part of the gate: the sum is subtracted from [5 q / 8] and the
    result switched to the exponents of [x]. *)
Lemma nand_linear ct1 ct2 m1 m2 e1 e2 :
  wf_mkct q U nn ct1 -> wf_mkct q U nn ct2 -> 0 <= m1 <= 1 -> 0 <= m2 <= 1 ->
  mk_phase (mk_ints sk) ct1 ≡[q] m1 * (q / 4) + e1 -> mk_phase (mk_ints sk) ct2 ≡[q] m2 * (q / 4) + e2 ->
  Z.of_nat n * (12 + 8 * Z.abs (e1 + e2)) + 2 * q * (1 + key_norm) < q * Z.of_nat n ->
  returns (b ← NativeInt.Mod ((5 * ConvertToInt 32 (mk_q ps)) mod 2 ^ 32 / 8) (ConvertToInt 32 (mk_q ps));
           ctprep ← MKEvalAddEq ct1 ct2;
           ct_temp ← MKEvalSubEq (new_MKLWECiphertext (replicate (mk_k ps) (NVec (ConvertToInt 32 (mk_q ps)) (repeat 0 (mk_n ps)))) b) ctprep;
           MKModSwitch (Z.of_nat (mk_N ps * 2)) ct_temp)
    (fun ct => wf_mkct (2 * Z.of_nat n) U nn ct /\ mk_p ct = 4 /\
       half_turn (k := k) (mk_phase (mk_ints sk) ct mod (2 * Z.of_nat n)) = negb (m1 + m2 =? 2)).
Proof using All.
  intros H1 H2 Hm1 Hm2 P1 P2 Hb. destruct (gs_users Hset) as (EU & _ & HU). destruct (gs_dims Hset) as (En & EN & Hnn).
  destruct (gs_moduli Hset) as (Eq & _). destruct (gs_native Hset) as (Hq & _). destruct (gs_fit Hset) as (F1 & F2 & _).
  destruct secret_wf as [[Lsk _] Eski]. pose proof (nm_bounds (w := W) (m := q)) as Hqb. pose proof (dim_bound (HR := HR)) as Hn.
  assert (Z.of_nat n = 2 ^ Z.of_nat k) as Epow by (by rewrite Nat2Z.inj_pow). rewrite <- Epow in F2.
  assert (length (mk_ints sk) = U) as Ls by (by rewrite length_mk_ints).
  assert (forall u, (u < U)%nat -> length (mk_ints sk !!! u) = nn) as Ln by (intros u Hu; rewrite Eski, lookup_total_tab by done; apply length_tab).
  assert (mk_norm1 (mk_ints sk) = key_norm) as Enorm by (rewrite Eski; apply norm1_of).
  assert (ConvertToInt 32 q = q) as Ecv by (unfold ConvertToInt; apply Z.mod_small; lia). rewrite Eq, Ecv, EU, En, EN.
  rewrite (Z.mod_small (5 * q)) by lia. assert (0 <= 5 * q / 8 < q) as Hb8 by (split; [apply Z.div_pos|apply Z.div_lt_upper_bound]; lia).
  unfold NativeInt.Mod. rewrite nm_umod, bind_ok, Z.mod_small by done.
  destruct (MKEval_spec (mk_ints sk) U nn ct1 ct2 HU Ls Ln H1 H2) as [Hadd _].
  eapply returns_bind; [exact Hadd|]. intros ctp [Hctp Pctp].
  set (c0 := new_MKLWECiphertext (replicate U (NVec q (repeat 0 nn))) (5 * q / 8)).
  assert (wf_mkct q U nn c0) as Hc0.
  { split; [apply length_replicate|]. split; [|done]. intros u Hu. cbn [c0 mk_a new_MKLWECiphertext]. rewrite lookup_total_replicate_2 by done.
    split; [done|]. cbn [data]. split; [apply length_zeros|]. apply zeros_Forall. split; lia. }
  assert (mk_phase (mk_ints sk) c0 = 5 * q / 8) as Pc0.
  { rewrite (mk_phase_ext U nn) by done. cbn [c0 mk_a mk_b new_MKLWECiphertext]. rewrite (sumZ_ext _ _ (fun _ => 0)), sumZ_zero; [apply Z.sub_0_r|].
    intros u Hu. rewrite (sumZ_ext _ _ (fun _ => 0)); [apply sumZ_zero|]. intros i Hi. rewrite lookup_total_replicate_2 by done. cbn [data]. by rewrite zeros_lookup. }
  destruct (MKEval_spec (mk_ints sk) U nn c0 ctp HU Ls Ln Hc0 Hctp) as [_ Hsub].
  eapply returns_bind; [exact Hsub|]. intros ctt [Hctt Pctt]. rewrite Pc0, Pctp, P1, P2 in Pctt.
  replace (Z.of_nat (n * 2)) with (2 * Z.of_nat n) by lia.
  assert (returns (MKModSwitch (2 * Z.of_nat n) ctt) (fun ct' => wf_mkct (2 * Z.of_nat n) U nn ct' /\
    exists c, 2 * Z.abs (q * (mk_phase (mk_ints sk) ct' + c * (2 * Z.of_nat n)) - 2 * Z.of_nat n * mk_phase (mk_ints sk) ctt) <= q * (1 + key_norm))) as Hms.
  { rewrite <- Enorm. apply MKModSwitch_spec; (done || lia). }
  eapply returns_mono; [eapply returns_both; [exact Hms|apply MKModSwitch_p; eapply returns_mono; [exact Hms|done]]|].
  intros ct [[Hct [c Hc]] Hp]. split; [done|]. split; [done|]. unfold half_turn.
  apply (nand_half_turn q (Z.of_nat n) (m1 + m2) (e1 + e2) (mk_phase (mk_ints sk) ctt) _ c key_norm); try done; try lia.
  rewrite Pctt. apply eqm_refl. ring.
Qed.

(** The constant coefficient of the accumulator. *)
Lemma acc_constant phi b c noise : (forall u, (u < U)%nat -> wf (c u)) -> wf noise -> inf_le Q n b noise ->
  acc_phase (q := Q) (k := k) U f c = radd Q (rmul Q n (mono Q n phi) (test_poly (q := Q) (k := k) (Q / 8 + 1))) noise ->
  let m := if half_turn (k := k) (phi mod (2 * Z.of_nat n)) then 1 else 0 in
  exists z, Z.abs z <= b /\ (Q / 8 + 1) - acc_phase (q := Q) (k := k) U f c !!! 0%nat ≡[Q] m * (2 * (Q / 8 + 1)) - z.
Proof using HR Hset.
  intros Hc Hw Bn Eph m. pose proof (dim_bound (HR := HR)) as Hn. destruct (gs_native Hset) as (_ & _ & HQ8).
  destruct (Q2p_spec (HR := HR) HQ8) as [_ Hx]. set (x := Q / 8 + 1) in *.
  destruct (Bn 0%nat ltac:(lia)) as (z & Ez & Hz). exists z. split; [done|]. rewrite Eph.
  pose proof (rmul_wf k (mono Q n phi) (test_poly (q := Q) (k := k) x)) as Hw2.
  unfold radd. rewrite vec_op_lookup by (destruct Hw, Hw2; lia). rewrite eqm_mod, Ez.
  pose proof (Z.mod_pos_bound phi (2 * Z.of_nat n) ltac:(lia)) as Hphi.
  rewrite (mono_periodic (q := Q) (k := k) phi (phi mod (2 * Z.of_nat n))) by (by rewrite Z.mod_mod by lia).
  rewrite (test_constant (HR := HR)) by (done || apply (rt_dim (RingTransform := HR))). unfold m.
  destruct (half_turn _); apply eqm_refl; ring.
Qed.

Lemma ks_noise_small (ct : MKLWECiphertext) : exists z, Z.abs z <= ks_noise_bound /\
  sumZ U (fun u => sumZ n (fun i => ks_noise base (digit_count (Z.of_nat base) qKS) (err u) i (mk_a ct !!! u).[i])) ≡[qKS] z.
Proof using Hdraws.
  clear Hset Hus. set (d := digit_count (Z.of_nat base) qKS).
  exists (sumZ U (fun u => sumZ n (fun i => sumZ d (fun j => centred qKS (err u i (Z.to_nat (digit (Z.of_nat base) (mk_a ct !!! u).[i] j)) j))))). split.
  - unfold ks_noise_bound. fold d. apply sumZ_bound. intros u Hu. apply sumZ_bound. intros i Hi. apply sumZ_bound. intros j Hj. apply (gd_err Hdraws).
  - apply sumZ_eqm. intros u Hu. apply sumZ_eqm. intros i Hi. unfold ks_noise. apply sumZ_eqm. intros j Hj. by rewrite centred_eqm.
Qed.

Definition mk_gate_noise : Z := gate_noise qKS Q acc_noise ring_norm ks_noise_bound.

(** From the accumulator to the result: extraction, modulus switch and key
    switch. *)
Lemma nand_finish K acc phi :
  mk_ksk_valid qKS base (digit_count (Z.of_nat base) qKS) U nn n (mk_ints sk) (map (fun u => map (centred Q) (f u)) (seq 0 U)) K err ->
  acc_state (q := Q) (psi := psi) (k := k) U f (test_poly (q := Q) (k := k) (Q / 8 + 1)) phi acc_noise acc ->
  let m := if half_turn (k := k) (phi mod (2 * Z.of_nat n)) then 1 else 0 in
  returns (ext ← extract_acc arb (mk_k ps) acc st;
           b ← Add W (Z.shiftr (mk_Q ps) 3) 1;
           ctMS ← MKModSwitch (mk_qKS ps) (new_MKLWECiphertext ext.2 b);
           ct ← MKKeySwitch ps K ctMS; Ok (ext.1, ct))
    (fun r => r.1 = st /\ wf_mkct qKS U nn r.2 /\ exists e', mk_phase (mk_ints sk) r.2 ≡[qKS] m * (qKS / 4) + e' /\ Z.abs e' <= mk_gate_noise).
Proof using All.
  intros HK (c & noise & -> & Hc & Hw & Bn & Eph) m.
  destruct (gs_users Hset) as (EU & _ & HU). destruct (gs_dims Hset) as (En & EN & Hnn). destruct (gs_moduli Hset) as (_ & EQ & EK).
  destruct (gs_base Hset) as [Eb Hb1]. destruct (gs_native Hset) as (_ & HqKS & HQ8). destruct (gs_fit Hset) as (_ & _ & F3).
  pose proof (nm_bounds (w := W) (m := Q)) as HQb. pose proof (nm_bounds (w := W) (m := qKS)) as HKb. destruct (Q2p_spec (HR := HR) HQ8) as [_ Hx].
  assert (forall u, (u < U)%nat -> wf (f u)) as Hf by (intros u Hu; by apply elements).
  rewrite EU, EQ, EK, (extract_acc_spec (HR := HR)), bind_ok by done. cbn [fst snd].
  assert (Add W (Z.shiftr Q 3) 1 = Ok (Q / 8 + 1)) as ->.
  { rewrite Z.shiftr_div_pow2 by lia. change (2 ^ 3) with 8. unfold Add, AddFast. cbn [NATIVEINT_DO_CHECKS]. f_equal. rewrite wrap_small by lia. ring. }
  rewrite bind_ok.
  destruct (extract_phase (HR := HR) U f c (Q / 8 + 1) 4 Hf Hc ltac:(unfold reduced; lia)) as [Hext Pext]. cbn zeta in Hext, Pext.
  change (MKCt ?l ?b 4) with (new_MKLWECiphertext l b) in Hext, Pext. set (ext := new_MKLWECiphertext _ _) in *.
  destruct (acc_constant phi acc_noise c noise Hc Hw Bn Eph) as (z & Hz & Ez). fold m in Ez.
  set (sN := map (fun u => map (centred Q) (f u)) (seq 0 U)) in *.
  assert (length sN = U) as LN by apply length_tab.
  assert (forall u, (u < U)%nat -> length (sN !!! u) = n) as LN' by (intros u Hu; unfold sN; rewrite lookup_total_tab, length_map by done; apply (Hf u Hu)).
  eapply returns_bind; [apply (MKModSwitch_spec qKS Q U n sN ext); (done || lia)|]. intros ms [Hms [cc Hcc]].
  assert (mk_norm1 sN = ring_norm) as EN1 by apply norm1_of. rewrite EN1 in Hcc.
  eapply returns_bind.
  { apply (MKKeySwitch_spec (q := qKS) ps base (mk_ints sk) sN K err ms); rewrite ?EU, ?En, ?EN; done. }
  intros ct [Hct Pct]. rewrite EU, En, EN in *. apply returns_ok. cbn [fst snd]. split; [done|]. split; [done|].
  destruct (ks_noise_small ms) as (y & Hy & Ey). rewrite Ey in Pct.
  apply (nand_output Q qKS m z (mk_phase sN ext) (mk_phase sN ms) cc _ y acc_noise ks_noise_bound ring_norm); try done; try lia.
  - unfold m. destruct (half_turn _); lia.
  - by rewrite Pext, Ez.
Qed.

(** The gate: the phase of the result encodes the NAND of the bits. *)
Lemma EvalBinGate_MKLWE_spec bt ct1 ct2 m1 m2 e1 e2 gate :
  good_keys bt -> wf_mkct q U nn ct1 -> wf_mkct q U nn ct2 -> 0 <= m1 <= 1 -> 0 <= m2 <= 1 ->
  mk_phase (mk_ints sk) ct1 ≡[q] m1 * (q / 4) + e1 -> mk_phase (mk_ints sk) ct2 ≡[q] m2 * (q / 4) + e2 ->
  Z.of_nat n * (12 + 8 * Z.abs (e1 + e2)) + 2 * q * (1 + key_norm) < q * Z.of_nat n ->
  returns (EvalBinGate_MKLWE arb ps us gate bt false ct1 ct2 st) (fun r => r.1 = st /\ wf_mkct qKS U nn r.2 /\
    exists e', mk_phase (mk_ints sk) r.2 ≡[qKS] (1 - m1 * m2) * (qKS / 4) + e' /\ Z.abs e' <= mk_gate_noise).
Proof using All.
  intros Hbt H1 H2 Hm1 Hm2 P1 P2 B1. pose proof (nand_linear (copy_MKLWECiphertext ct1) ct2 m1 m2 e1 e2 H1 H2 Hm1 Hm2 P1 P2 B1) as Hlin.
  unfold EvalBinGate_MKLWE. cbn zeta.
  destruct (NativeInt.Mod _ _) as [b|]; [|by destruct Hlin as (? & ? & _)]. rewrite bind_ok in Hlin. rewrite bind_ok.
  destruct (MKEvalAddEq (copy_MKLWECiphertext ct1) ct2) as [ctp|]; [|by destruct Hlin as (? & ? & _)]. rewrite bind_ok in Hlin. rewrite bind_ok.
  destruct (MKEvalSubEq _ ctp) as [ctt|]; [|by destruct Hlin as (? & ? & _)]. rewrite bind_ok in Hlin. rewrite bind_ok.
  eapply returns_bind; [exact Hlin|]. clear Hlin. intros ct (Hct & Hp & Hturn).
  eapply returns_bind; [by apply nand_rotation|]. intros [st' acc] [Est Hacc]. cbn [fst snd] in *. subst st'.
  destruct Hbt as (ek & K & -> & _ & HK). cbn [LKSkey].
  eapply returns_mono; [exact (nand_finish K acc _ HK Hacc)|]. intros r (Er & Hr & e' & He & Hb'). split; [done|]. split; [done|].
  exists e'. split; [|done]. rewrite Hturn in He. rewrite He. apply eqm_refl. f_equal. f_equal.
  assert ((m1 = 0 \/ m1 = 1) /\ (m2 = 0 \/ m2 = 1)) as [[-> | ->] [-> | ->]] by lia; done.
Qed.
End Nand.
