(* ===== verification/MkGateNtru.v ===== *)
(** * The multi-key NTRU gate, from the drawn values to the phase

    [MKKeyGen] for multi-key matrix NTRU with the ternary accumulator makes keys
    that satisfy the relations of the accumulator and of the key switching,
    [ctGateGen] encrypts the constant of the gate, and [EvalBinGate] on two
    ciphertexts returns a ciphertext whose phase encodes the NAND of the two
    bits, lowered by an eighth of the modulus, which [Decrypt] puts back. *)

From Stdlib Require Import ZArith Lia String.
From stdpp Require Import base tactics numbers list strings gmap.
From S2P Require Import Prelude Double NativeInt NativeIntFacts ModArith NativeVec SchemeCore Negacyclic BitReverse Ntt NttFacts NttSpec NttRing Poly PolyFacts Automorphism Gadget RingNoise RingCoefficients AccCore AccCoreFacts MkAcc MkAccFacts MkAccSteps MkAccKeys Lwe MkLwe MNtru MkGate MkGateFacts MkGateSpec.

(** The phase after the extraction, the modulus switch and the key switch. *)
Lemma ntru_nand_output Q q m noise ph phi c fin ks Bn Kb norm :
  0 < q <= Q -> 0 <= m <= 1 -> ph ≡[Q] m * (2 * (Q / 8 + 1)) - (Q / 8 + 1) - noise -> Z.abs noise <= Bn ->
  2 * Z.abs (Q * (phi + c * q) - q * ph) <= Q * (1 + norm) ->
  fin ≡[q] phi - ks -> Z.abs ks <= Kb ->
  exists e, fin ≡[q] m * (q / 4) + e - (q / 4 - q / (4 * 2)) /\ Z.abs e <= gate_noise q Q Bn (norm + 4) Kb.
Proof.
  intros Hq Hm Eph HB Hs Hfin HK. set (D := q / 4 - q / (4 * 2)).
  destruct (nand_output Q q m noise (ph + (Q / 8 + 1)) (phi + D) c (fin + D) ks Bn Kb (norm + 4)) as (e & He & Hb); try done; try lia.
  - rewrite Eph. apply eqm_refl. ring.
  - assert (4 * Z.abs (Q * D - q * (Q / 8 + 1)) <= 8 * Q) as HD.
    { pose proof (Z.div_mod Q 8 ltac:(lia)) as E8. pose proof (Z.mod_pos_bound Q 8 ltac:(lia)) as B8.
      pose proof (Z.div_mod q 4 ltac:(lia)) as E4. pose proof (Z.mod_pos_bound q 4 ltac:(lia)) as B4.
      pose proof (Z.div_mod q 8 ltac:(lia)) as F8. pose proof (Z.mod_pos_bound q 8 ltac:(lia)) as C8.
      unfold D. change (4 * 2) with 8. set (R := Q mod 8) in *. set (r4 := q mod 4) in *. set (r8 := q mod 8) in *.
      assert (8 * (Q * (q / 4 - q / 8) - q * (Q / 8 + 1)) = Q * (r8 - 2 * r4) + q * (R - 8)) as E.
      { transitivity (Q * (2 * (4 * (q / 4)) - 8 * (q / 8)) - q * (8 * (Q / 8) + 8)); [ring|].
        replace (4 * (q / 4)) with (q - r4) by lia. replace (8 * (q / 8)) with (q - r8) by lia. replace (8 * (Q / 8)) with (Q - R) by lia. ring. }
      assert (Z.abs (Q * (r8 - 2 * r4)) <= Q * 7) as H1 by (rewrite Z.abs_mul, (Z.abs_eq Q) by lia; apply Z.mul_le_mono_nonneg_l; lia).
      assert (Z.abs (q * (R - 8)) <= q * 8) as H2 by (rewrite Z.abs_mul, (Z.abs_eq q) by lia; apply Z.mul_le_mono_nonneg_l; lia).
      lia. }
    replace (Q * (phi + D + c * q) - q * (ph + (Q / 8 + 1))) with ((Q * (phi + c * q) - q * ph) + (Q * D - q * (Q / 8 + 1))) by ring. lia.
  - rewrite Hfin. apply eqm_refl. ring.
  - exists e. split; [|done]. rewrite <- He. apply eqm_refl. unfold D. ring.
Qed.

(** The parameters of a gate: [U] users, matrices of dimension [nn], modulus
    [q] for the ciphertexts, [Q] for the ring of dimension [2^k] and [qKS] for
    the key switching. *)
Record ntru_setting (ps : MNTRUCryptoParams) (us : UniEncCryptoParams) (q Q qKS : Z) (k : nat) (g : Z) (G U nn : nat) (base : Z) : Prop := {
  ns_users : n_k ps = U /\ u_k us = U /\ (0 < U)%nat;
  ns_dims : n_n ps = nn /\ n_N ps = (2 ^ k)%nat /\ (0 < nn)%nat;
  ns_moduli : n_q ps = q /\ n_qKS ps = qKS;
  ns_base : n_baseKS ps = base /\ 2 <= base <= qKS;
  ns_method : u_method us = MKNTRU;
  ns_native : NativeModulus W q /\ NativeModulus W qKS /\ 8 < Q /\ 8 < qKS <= 2 ^ 31 /\ qKS <= Q;
  ns_gadget : 1 <= g <= 31 /\ 2 ^ g < Q /\ Q <= (2 ^ g) ^ Z.of_nat (S G) /\ (0 < G)%nat /\ (G <= 2 ^ k)%nat;
  ns_fit : 5 * q < 2 ^ 64 /\ q * (2 * 2 ^ Z.of_nat k) < 2 ^ 64 /\ 6 * Q * qKS + 3 * Q + qKS < 2 ^ 53 /\
    Z.of_nat nn * (qKS / 2 * (qKS / 2)) < 2 ^ 63
}.

(** The drawn values: those of the ring, the matrices of the users, whose first
    columns are ternary, and the errors of the key switching. *)
Record ntru_draws (q Q qKS : Z) (k G U nn : nat) (sg ep rh E : Z) (f finv a : nat -> list Z) (ev : nat -> nat -> list Z)
    (inv : Z -> nat -> list Z -> option (list Z)) (candidates : nat -> list (list Z)) (e : nat -> nat -> NativeVector) (sample : nat -> nat -> nat -> KeySample)
    (sk : MNTRUPrivateKey) (err : nat -> NativeVector) : Prop := {
  nd_ring : ring_draws Q k G U nn sg ep rh f finv a ev e sample;
  nd_drawn u : (u < U)%nat -> Get_invertible_NativeVector inv Q (ConvertToInt 32 Q) (2 ^ k) (candidates u) = Ok (NVec Q (f u), NVec Q (finv u));
  nd_key : wf_nkey qKS qKS U nn sk /\ wf_nkey qKS q U nn sk;
  nd_secret u i : (u < U)%nat -> (i < nn)%nat -> -1 <= fcol qKS sk u i <= 1;
  nd_err u : wf_mask qKS nn (err u) /\ Z.abs (centred qKS (err u).[0]) <= E
}.

Arguments ns_users {ps us q Q qKS k g G U nn base}.
Arguments ns_dims {ps us q Q qKS k g G U nn base}.
Arguments ns_moduli {ps us q Q qKS k g G U nn base}.
Arguments ns_base {ps us q Q qKS k g G U nn base}.
Arguments ns_method {ps us q Q qKS k g G U nn base}.
Arguments ns_native {ps us q Q qKS k g G U nn base}.
Arguments ns_gadget {ps us q Q qKS k g G U nn base}.
Arguments ns_fit {ps us q Q qKS k g G U nn base}.
Arguments nd_ring {q Q qKS k G U nn sg ep rh E f finv a ev inv candidates e sample sk err}.
Arguments nd_drawn {q Q qKS k G U nn sg ep rh E f finv a ev inv candidates e sample sk err}.
Arguments nd_key {q Q qKS k G U nn sg ep rh E f finv a ev inv candidates e sample sk err}.
Arguments nd_secret {q Q qKS k G U nn sg ep rh E f finv a ev inv candidates e sample sk err}.
Arguments nd_err {q Q qKS k G U nn sg ep rh E f finv a ev inv candidates e sample sk err}.

Section NtruGate.
Context {st : FTT} {Q psi : Z} {k : nat} {HR : RingTransform st Q psi k} (arb : FTT -> NativePoly -> res (FTT * NativePoly)).
Context (ps : MNTRUCryptoParams) (us : UniEncCryptoParams) (q qKS g : Z) (G U nn : nat) (base : Z).
Context (Hset : ntru_setting ps us q Q qKS k g G U nn base) (Hus : acc_params us Q psi k g G).
Context (sg ep rh E : Z) (f finv a : nat -> list Z) (ev : nat -> nat -> list Z).
Context (inv : Z -> nat -> list Z -> option (list Z)) (candidates : nat -> list (list Z)) (e : nat -> nat -> NativeVector) (sample : nat -> nat -> nat -> KeySample).
Context (sk : MNTRUPrivateKey) (err : nat -> NativeVector).
Context (Hdraws : ntru_draws q Q qKS k G U nn sg ep rh E f finv a ev inv candidates e sample sk err).
Let Hring := nd_ring Hdraws.
Let keys := ring_keys (HR := HR) G U nn sg ep rh f finv a ev e sample Hring.
Let elements_ := ring_elements (HR := HR) G U nn sg ep rh f finv a ev e sample Hring.
Let d := digit_count base qKS.
Abbreviation n := (2 ^ k)%nat.
Abbreviation wf := (wf_data (q := Q) k).
Abbreviation polys_ := (polys (q := Q) (psi := psi) (k := k)).
Abbreviation CRS := (polys_ G a).
Abbreviation pub := (pub_elem (q := Q) (k := k) f a ev).
Abbreviation t := (fcol qKS sk).
Abbreviation secret := (masks U qKS nn (fun u i => t u i mod qKS)).

#[local] Instance ntru_gate_modulus : NativeModulus W Q.
Proof using HR. exact rt_modulus. Qed.

(** The first columns of the matrices, as the accumulator reads them. *)
Lemma first_column : GetCol (F sk) 0 = Ok secret.
Proof using Hset Hdraws.
  destruct (ns_users Hset) as (_ & _ & HU). destruct (ns_dims Hset) as (_ & _ & Hnn). destruct (ns_native Hset) as (_ & HqKS & _).
  destruct (nd_key Hdraws) as [Hk _]. pose proof (nk_F _ _ _ _ _ Hk) as HF. pose proof (nm_bounds (w := W) (m := qKS)) as Hb.
  rewrite (GetCol_spec qKS U nn) by done. f_equal. unfold masks. apply map_ext_in. intros u Hu%in_seq. f_equal. apply map_ext_in. intros i Hi%in_seq.
  destruct HF as [_ Hm]. destruct (Hm u ltac:(lia)) as [_ Hrow]. destruct (Hrow i ltac:(lia)) as (_ & Lr & Fr).
  pose proof (reduced_at qKS _ 0 Fr ltac:(lia)) as Hr. unfold reduced in Hr. unfold fcol, entry.
  transitivity (((F sk !!! u) !!! i).[0] mod qKS); [symmetry; by apply Z.mod_small|]. symmetry. apply centred_eqm.
Qed.

(** The ring keys as integers. *)
Abbreviation sN := (fun u i => key_ints (map (fun u => NVec Q (f u)) (seq 0 U) !!! u) !!! i).

(** What [MKKeyGen] returns. *)
Definition good_ntru_keys (bt : UniEncBTKey) : Prop :=
  exists ek K K2, bt = BTKey (Some ek) (Some K2) None (map (fun u => polys_ G (pub u)) (seq 0 U)) (polys_ U f) (map (fun u => NVec Q (f u)) (seq 0 U)) secret [] /\
    ternary_keys (q := Q) (psi := psi) (k := k) g G U f a ep rh (finv 0%nat) t nn ek /\
    nksk_valid (q := qKS) base U nn n t sN (fun u => (err u).[0]) K /\ multiples (q := qKS) base U nn n K K2.

Lemma MKKeyGen_MNTRU_spec : constant_ephemerals (q := Q) (k := k) U nn sample -> returns (MKKeyGen_MNTRU arb inv ps us CRS sk candidates err e sample st) (fun r => r.1 = st /\ good_ntru_keys r.2).
Proof using All.
  destruct (ns_users Hset) as (EU & EU' & HU). destruct (ns_dims Hset) as (En & EN & Hnn). destruct (ns_moduli Hset) as (Eq & EK).
  destruct (ns_base Hset) as [Eb Hb]. destruct (ns_native Hset) as (Hq & HqKS & _ & Hsmall & _). destruct (ns_gadget Hset) as (Hg & _ & _ & HG & HGn).
  destruct (ns_fit Hset) as (_ & _ & _ & F4). destruct (nd_key Hdraws) as [Hk _]. pose proof (nm_bounds (w := W) (m := qKS)) as HKb.
  intros Hconst. unfold MKKeyGen_MNTRU. rewrite EU.
  destruct (key_polys_spec (HR := HR) arb g G us Hus U f finv elements_ inv candidates (nd_drawn Hdraws)) as (l & -> & E0 & E1 & E2).
  rewrite bind_ok. cbn [fst snd]. rewrite E0, E1, E2, first_column, bind_ok.
  destruct (fvec_ints (HR := HR) U f finv elements_) as [_ [Lf Hfw]]. set (fv := map (fun u => NVec Q (f u)) (seq 0 U)) in *.
  destruct (NTRU_KeySwitchGen_spec (q := qKS) base Hb ltac:(lia) ps sk fv err) as (K & EK0 & HK);
    rewrite ?EU, ?En, ?EN; try done; [intros u; apply (nd_err Hdraws)|].
  rewrite EU, En, EN in HK.
  destruct (KeySwitchGen2_multiples (q := qKS) base Hb ltac:(lia) U nn n HU (pow2_pos_nat k) ps sk fv err K EU EN En EK Eb EK0 (proj1 HK)) as (K2 & -> & HK2).
  rewrite bind_ok. rewrite (public_made (HR := HR) arb us g G U nn Hus sg ep rh f finv a ev e sample Hring), bind_ok. cbn [fst snd].
  rewrite (ns_method Hset). cbn [acc_KeyGen_MNTRU]. rewrite bind_ok. eapply returns_bind.
  { apply (KeyGenAcc_spec (HR := HR) arb g G us Hus HGn a (rd_crs Hring) CRS (crs_lookup G a) U f finv ep rh HU keys t nn Hnn qKS);
      [change (2 ^ W) with (2 ^ 64) in *; lia|exact (rd_sample Hring)|exact Hconst|exact (nd_secret Hdraws)]. }
  intros r [Er Hek]. apply returns_ok. cbn [fst snd]. split; [done|]. by exists r.2, K, K2.
Qed.

(** The constant of the gate. *)
Lemma ctGateGen_spec (ec : nat -> NativeVector) : (forall i, (i < U)%nat -> wf_mask q nn (ec i)) ->
  returns (ctGateGen ps sk NAND ec) (fun ct => wf_nct q U nn ct /\ ct_pt ct = 4 /\
    n_phase U nn t ct ≡[q] 5 * q / 8 + sumZ U (fun i => (ec i).[0])).
Proof using Hset Hdraws.
  intros Hec. destruct (ns_users Hset) as (EU & _ & HU). destruct (ns_dims Hset) as (En & _ & Hnn). destruct (ns_moduli Hset) as (Eq & _).
  destruct (ns_native Hset) as (Hq & HqKS & _). destruct (nd_key Hdraws) as [_ Hk]. destruct (ns_fit Hset) as (F1 & _).
  pose proof (nk_F _ _ _ _ _ Hk) as HF. pose proof (nm_bounds (w := W) (m := q)) as Hqb.
  unfold ctGateGen. rewrite bool_decide_eq_true_2 by done. cbn [negb]. rewrite (sk_GetLength_spec qKS U nn), bind_ok, (proj1 HF), Eq by done.
  assert (reduced q (5 * q / 8)) as Henc by (split; [apply Z.div_pos|apply Z.div_lt_upper_bound]; lia).
  assert (forall B (h : Z -> res B), (five ← Mul W 5 q; enc ← DividedBy five 8; h enc) = h (5 * q / 8)) as E5.
  { intros B h. unfold Mul, MulFast. cbn [NATIVEINT_DO_CHECKS]. rewrite bind_ok, wrap_small by (change (2 ^ W) with (2 ^ 64); lia). by rewrite (Z.mul_comm 5 q). }
  eapply returns_bind.
  { apply (tabulateM_returns U _ (fun i c => wf_mask q nn c /\ forall j, (j < nn)%nat -> c.[j] ≡[q]
      sumZ nn (fun l => ((ec i).[l] + (if decide (i = 0%nat /\ l = 0%nat) then 5 * q / 8 else 0)) * MNtru.finv qKS sk i l j))).
    intros i Hi. pose proof (inverse_row_spec (q := q) qKS U nn sk (5 * q / 8) i (ec i) HqKS HU Hnn Hk Henc Hi (Hec i Hi)) as Hrow.
    destruct (i =? 0)%nat; [|exact Hrow]. by rewrite E5. }
  intros c [Lc Hc]. apply returns_ok. split; [split; [done|]; intros i Hi; by apply Hc|]. split; [done|].
  apply (noisy_phase qKS U nn sk ec); try done. intros i j Hi Hj. by apply Hc.
Qed.

(** The noise of the accumulator and of the key switching. *)
Definition ntru_acc_noise : Z := first_bound (q := Q) g G U sg ep rh + (Z.of_nat (U * nn) - 1) * step_bound (q := Q) g G U sg ep rh.
Definition ntru_ks_noise : Z := Z.of_nat U * (E * (Z.of_nat n * (Z.of_nat d * base))).

(** The linear part of the gate and the exponent of the rotation. *)
Lemma ntru_linear ct0 ct1 ct2 M e0 x B :
  wf_nct q U nn ct0 -> wf_nct q U nn ct1 -> wf_nct q U nn ct2 -> -1 <= M <= 2 -> ct_pt ct0 = 4 ->
  n_phase U nn t ct0 ≡[q] 5 * q / 8 + e0 -> n_phase U nn t ct1 + n_phase U nn t ct2 ≡[q] M * (q / 4) + x ->
  Z.abs (- ((5 * q) mod 8) + 2 * M * (q mod 4) - 8 * (x - e0)) <= B ->
  Z.of_nat n * B + 2 * q * (1 + 2 * n_norm1 U nn t) < q * Z.of_nat n ->
  returns (ctprep ← EvalAddEq ct1 ct2; EvalSubEq ct0 ctprep) (fun ct => wf_nct q U nn ct /\ ct_pt ct = 4 /\
    half_turn (k := k) (sumZ U (fun u => sumZ nn (fun i => (elements ct !!! u).[i] * (2 * Z.of_nat n) / q * t u i)) mod (2 * Z.of_nat n)) = (0 <=? M) && (M <=? 1)).
Proof using HR Hset.
  intros H0 H1 H2 HM Hp P0 P12 HB Hb. destruct (ns_native Hset) as (Hq & _). pose proof (nm_bounds (w := W) (m := q)) as Hqb. pose proof (dim_bound (HR := HR)) as Hn.
  eapply returns_bind; [apply (Eval_spec U nn t ct1 ct2 H1 H2)|]. intros ctp [Hctp Pp].
  assert (returns (EvalSubEq ct0 ctp) (fun ct => ct_pt ct = 4)) as Hpt.
  { destruct (proj2 (Eval_spec U nn t ct0 ctp H0 Hctp)) as (ct & Ect & _). exists ct. split; [done|]. revert Ect. unfold EvalSubEq.
    destruct (tabulateM _ _) as [cs|]; [|done]. rewrite bind_ok. by intros [= <-]. }
  eapply returns_mono; [apply returns_both; [apply (Eval_spec U nn t ct0 ctp H0 Hctp)|exact Hpt]|].
  intros ct [[Hct Pct] Ept]. split; [done|]. split; [done|]. unfold half_turn.
  apply (gate_half_turn q (Z.of_nat n) M (x - e0) (n_phase U nn t ct) _ 0 (2 * n_norm1 U nn t) B); try done; try lia.
  - rewrite Pct, P0, Pp, P12. apply eqm_refl. ring.
  - destruct Hct as [_ Hw].
    assert (Z.abs (q * sumZ U (fun u => sumZ nn (fun i => (elements ct !!! u).[i] * (2 * Z.of_nat n) / q * t u i)) - 2 * Z.of_nat n * n_phase U nn t ct) <=
      q * n_norm1 U nn t) as Hs; [|rewrite Z.mul_0_l, Z.add_0_r; lia].
    unfold n_phase, n_norm1. rewrite <- !sumZ_scale, <- sumZ_sub. apply sumZ_abs_le. intros u Hu. rewrite <- !sumZ_scale, <- sumZ_sub. apply sumZ_abs_le. intros i Hi.
    set (z := (elements ct !!! u).[i]). pose proof (Z.div_mod (z * (2 * Z.of_nat n)) q ltac:(lia)) as Ed. pose proof (Z.mod_pos_bound (z * (2 * Z.of_nat n)) q ltac:(lia)) as Bd.
    replace (q * (z * (2 * Z.of_nat n) / q * t u i) - 2 * Z.of_nat n * (z * t u i)) with (- ((z * (2 * Z.of_nat n)) mod q) * t u i) by lia.
    rewrite Z.abs_mul. apply Z.mul_le_mono_nonneg_r; lia.
Qed.

(** The blind rotation of the gate, with the keys of [MKKeyGen]. *)
Lemma ntru_rotation bt ct : good_ntru_keys bt -> wf_nct q U nn ct -> ct_pt ct = 4 ->
  returns (BootstrapGateCore_MNTRU arb us (BSkey bt) (bt_Pkey bt) ct st) (fun r => r.1 = st /\
    acc_state (q := Q) (psi := psi) (k := k) U f (test_poly (q := Q) (k := k) (Q - (Q / 8 + 1)))
      (sumZ U (fun u => sumZ nn (fun i => (elements ct !!! u).[i] * (2 * Z.of_nat n) / q * t u i))) ntru_acc_noise r.2).
Proof using All.
  intros (ek & K & K2 & -> & Hek & _) Hct Hp.
  destruct (ns_users Hset) as (EU & EU' & HU). destruct (ns_dims Hset) as (_ & _ & Hnn). destruct (ns_native Hset) as (_ & _ & HQ8 & _).
  destruct (ns_gadget Hset) as (Hg & HgQ & HGq & HG & _). destruct (ns_fit Hset) as (_ & F2 & _). destruct (rd_sizes Hring) as (Hsg & Hep & Hrh).
  destruct (ring_rotation (HR := HR) G U nn sg ep rh f finv a ev e sample Hring) as (R1 & R2 & R3 & R4).
  cbn [BSkey bt_Pkey].
  apply (BootstrapGateCore_MNTRU_spec (HR := HR) arb g Hg ltac:(lia) G HG HGq us Hus U f a ev pub sg ep rh EU' HU Hsg Hep Hrh R1 R2 R3 _ R4) with (inv := finv 0%nat); try done.
  - by rewrite (ns_method Hset).
  - by apply elements_.
  - intros y Hy. by apply (keys 0%nat HU).
  - exact (nd_secret Hdraws).
  - by rewrite Nat2Z.inj_pow.
Qed.

(** The constant coefficient of the accumulator. *)
Lemma ntru_acc_constant phi b c noise : wf noise -> inf_le Q n b noise ->
  acc_phase (q := Q) (k := k) U f c = radd Q (rmul Q n (mono Q n phi) (test_poly (q := Q) (k := k) (Q - (Q / 8 + 1)))) noise ->
  let m := if half_turn (k := k) (phi mod (2 * Z.of_nat n)) then 1 else 0 in
  exists z, Z.abs z <= b /\ acc_phase (q := Q) (k := k) U f c !!! 0%nat ≡[Q] m * (2 * (Q / 8 + 1)) - (Q / 8 + 1) - z.
Proof using HR Hset.
  intros Hw Bn Eph m. pose proof (dim_bound (HR := HR)) as Hn. destruct (ns_native Hset) as (_ & _ & HQ8 & _).
  destruct (Q2p_spec (HR := HR) HQ8) as [_ Hx]. set (x := Q / 8 + 1) in *.
  destruct (Bn 0%nat ltac:(lia)) as (z & Ez & Hz). exists (- z). split; [lia|]. rewrite Eph.
  pose proof (rmul_wf k (mono Q n phi) (test_poly (q := Q) (k := k) (Q - x))) as Hw2.
  unfold radd. rewrite vec_op_lookup by (destruct Hw, Hw2; lia). rewrite eqm_mod, Ez.
  pose proof (Z.mod_pos_bound phi (2 * Z.of_nat n) ltac:(lia)) as Hphi.
  rewrite (mono_periodic (q := Q) (k := k) phi (phi mod (2 * Z.of_nat n))) by (by rewrite Z.mod_mod by lia).
  rewrite (test_constant (HR := HR)); [|apply (rt_dim (RingTransform := HR))|lia|done]. unfold m. apply eqm_iff.
  destruct (half_turn _); [exists (-1)|exists 1]; ring.
Qed.

Lemma ntru_ks_noise_small ct : wf_nct qKS U n ct -> exists z, Z.abs z <= ntru_ks_noise /\
  sumZ U (fun u => (err u).[0] * sumZ n (fun i => sumZ d (fun j => digit base (elements ct !!! u).[i] j))) ≡[qKS] z.
Proof using Hset Hdraws.
  intros [Lc Hc]. destruct (ns_base Hset) as [_ Hb].
  exists (sumZ U (fun u => centred qKS (err u).[0] * sumZ n (fun i => sumZ d (fun j => digit base (elements ct !!! u).[i] j)))). split.
  - unfold ntru_ks_noise. apply sumZ_bound. intros u Hu. rewrite Z.abs_mul. destruct (nd_err Hdraws u) as [_ HE].
    apply Z.mul_le_mono_nonneg; [lia|done|lia|]. apply sumZ_bound. intros i Hi. apply sumZ_bound. intros j Hj.
    pose proof (digit_range base (elements ct !!! u).[i] j ltac:(lia)). lia.
  - apply sumZ_eqm. intros u Hu. by rewrite centred_eqm.
Qed.

Definition ntru_gate_noise : Z := gate_noise qKS Q ntru_acc_noise (ring_norm (Q := Q) U f + 4) ntru_ks_noise.

(** From the accumulator to the result: extraction, modulus switch and key
    switch. *)
Lemma ntru_finish K K2 acc phi :
  nksk_valid (q := qKS) base U nn n t sN (fun u => (err u).[0]) K -> multiples (q := qKS) base U nn n K K2 ->
  acc_state (q := Q) (psi := psi) (k := k) U f (test_poly (q := Q) (k := k) (Q - (Q / 8 + 1))) phi ntru_acc_noise acc ->
  let m := if half_turn (k := k) (phi mod (2 * Z.of_nat n)) then 1 else 0 in
  returns (ext ← extract_acc arb (n_k ps) acc st;
           ctMS ← MNtru.ModSwitch (n_qKS ps) (MNTRUCt ext.2 4);
           ct ← MNtru.KeySwitch2 ps K2 ctMS; Ok (ext.1, ct))
    (fun r => r.1 = st /\ wf_nct qKS U nn r.2 /\
       exists e', n_phase U nn t r.2 ≡[qKS] m * (qKS / 4) + e' - (qKS / 4 - qKS / (4 * 2)) /\ Z.abs e' <= ntru_gate_noise).
Proof using All.
  intros HK HK2 (c & noise & -> & Hc & Hw & Bn & Eph) m.
  destruct (ns_users Hset) as (EU & _ & HU). destruct (ns_dims Hset) as (En & EN & Hnn). destruct (ns_moduli Hset) as (_ & EK).
  destruct (ns_base Hset) as [Eb Hb1]. destruct (ns_native Hset) as (_ & HqKS & HQ8 & Hsmall & HKQ). destruct (ns_fit Hset) as (_ & _ & F3 & _).
  pose proof (nm_bounds (w := W) (m := Q)) as HQb.
  assert (forall u, (u < U)%nat -> wf (f u)) as Hf by (intros u Hu; by apply elements_).
  rewrite EU, EK, (extract_acc_spec (HR := HR)), bind_ok by done. cbn [fst snd].
  destruct (extract_entries (HR := HR) U f c Hf Hc) as [Hext Pext]. cbn zeta in Hext, Pext. set (ext := map _ (seq 0 U)) in Hext, Pext |- *.
  destruct (ntru_acc_constant phi ntru_acc_noise c noise Hw Bn Eph) as (z & Hz & Ez). fold m in Ez.
  assert (forall u i, (u < U)%nat -> (i < n)%nat -> sN u i = centred Q (f u !!! i)) as EsN.
  { intros u i Hu Hi. rewrite lookup_total_tab by done. unfold key_ints. cbn [modulus data]. apply lookup_total_map. by rewrite (proj1 (Hf u Hu)). }
  assert (n_phase U n sN (MNTRUCt ext 4) ≡[Q] acc_phase (q := Q) (k := k) U f c !!! 0%nat) as Pe.
  { rewrite <- Pext. apply sumZ_eqm. intros u Hu. apply sumZ_eqm. intros i Hi. cbn [elements]. by rewrite EsN. }
  assert (n_norm1 U n sN = ring_norm (Q := Q) U f) as EN1.
  { unfold n_norm1, ring_norm, norm1. apply sumZ_ext. intros u Hu. rewrite length_map, (proj1 (Hf u Hu)). apply sumZ_ext. intros i Hi.
    rewrite EsN, lookup_total_map by (done || by rewrite (proj1 (Hf u Hu))). done. }
  assert (wf_nct Q U n (MNTRUCt ext 4)) as Hwe by (split; [apply length_tab|done]).
  eapply returns_bind; [apply (NTRU_ModSwitch_spec qKS Q U n sN (MNTRUCt ext 4)); (done || lia)|]. intros ms [Hms [cc Hcc]]. rewrite EN1 in Hcc.
  rewrite (KeySwitch2_eq (q := qKS) base Hb1 ltac:(lia) U nn n HU (pow2_pos_nat k) ps K K2 ms EU En EN EK Eb HK2 Hms), bind_ok.
  destruct (switched_phase (q := qKS) base Hb1 ltac:(lia) U nn n HU (pow2_pos_nat k) t sN (fun u => (err u).[0]) K ms Hnn HK Hms) as [Hsw Psw].
  fold d in Psw. destruct (ntru_ks_noise_small ms Hms) as (y & Hy & Ey). rewrite Ey in Psw.
  apply returns_ok. cbn [fst snd]. split; [done|]. split; [done|].
  apply (ntru_nand_output Q qKS m z (n_phase U n sN (MNTRUCt ext 4)) (n_phase U n sN ms) cc _ (- y) ntru_acc_noise ntru_ks_noise (ring_norm (Q := Q) U f)); try done; try lia.
  - unfold m. destruct (half_turn _); lia.
  - by rewrite Pe, Ez.
  - rewrite Psw. apply eqm_refl. ring.
Qed.

(** The gate: the phase of the result encodes whether no or one quarter of the
    modulus is taken off, lowered by an eighth of the modulus. *)
Lemma EvalBinGate_MNTRU_run bt ct0 ct1 ct2 M e0 x B gate :
  good_ntru_keys bt -> wf_nct q U nn ct0 -> wf_nct q U nn ct1 -> wf_nct q U nn ct2 -> -1 <= M <= 2 -> ct_pt ct0 = 4 ->
  n_phase U nn t ct0 ≡[q] 5 * q / 8 + e0 -> n_phase U nn t ct1 + n_phase U nn t ct2 ≡[q] M * (q / 4) + x ->
  Z.abs (- ((5 * q) mod 8) + 2 * M * (q mod 4) - 8 * (x - e0)) <= B ->
  Z.of_nat n * B + 2 * q * (1 + 2 * n_norm1 U nn t) < q * Z.of_nat n ->
  returns (EvalBinGate_MNTRU arb ps us gate bt false ct1 ct2 ct0 st) (fun r => r.1 = st /\ wf_nct qKS U nn r.2 /\
    exists e', n_phase U nn t r.2 ≡[qKS] (if (0 <=? M) && (M <=? 1) then 1 else 0) * (qKS / 4) + e' - (qKS / 4 - qKS / (4 * 2)) /\ Z.abs e' <= ntru_gate_noise).
Proof using All.
  intros Hbt H0 H1 H2 HM Hp P0 P12 HB Hb. pose proof (ntru_linear (copy_MNTRUCiphertext ct0) (copy_MNTRUCiphertext ct1) ct2 M e0 x B H0 H1 H2 HM eq_refl P0 P12 HB Hb) as Hlin.
  unfold EvalBinGate_MNTRU. cbn zeta.
  destruct (EvalAddEq (copy_MNTRUCiphertext ct1) ct2) as [ctp|]; [|by destruct Hlin as (? & ? & _)]. rewrite bind_ok in Hlin. rewrite bind_ok.
  eapply returns_bind; [exact Hlin|]. clear Hlin. intros ct (Hct & Ep & Hturn).
  eapply returns_bind; [by apply ntru_rotation|]. intros [st' acc] [Est Hacc]. cbn [fst snd] in *. subst st'.
  destruct Hbt as (ek & K & K2 & -> & _ & HK & HK2). cbn [KSkey2].
  eapply returns_mono; [exact (ntru_finish K K2 acc _ HK HK2 Hacc)|]. intros r (Er & Hr & e' & He & Hb'). split; [done|]. split; [done|].
  exists e'. split; [|done]. rewrite Hturn in He. exact He.
Qed.

(** On bits it encodes their NAND. *)
Lemma EvalBinGate_MNTRU_spec bt ct0 ct1 ct2 m1 m2 e0 e1 e2 gate :
  good_ntru_keys bt -> wf_nct q U nn ct0 -> wf_nct q U nn ct1 -> wf_nct q U nn ct2 -> 0 <= m1 <= 1 -> 0 <= m2 <= 1 -> ct_pt ct0 = 4 ->
  n_phase U nn t ct0 ≡[q] 5 * q / 8 + e0 -> n_phase U nn t ct1 ≡[q] m1 * (q / 4) + e1 -> n_phase U nn t ct2 ≡[q] m2 * (q / 4) + e2 ->
  Z.of_nat n * (12 + 8 * Z.abs (e1 + e2 - e0)) + 2 * q * (1 + 2 * n_norm1 U nn t) < q * Z.of_nat n ->
  returns (EvalBinGate_MNTRU arb ps us gate bt false ct1 ct2 ct0 st) (fun r => r.1 = st /\ wf_nct qKS U nn r.2 /\
    exists e', n_phase U nn t r.2 ≡[qKS] (1 - m1 * m2) * (qKS / 4) + e' - (qKS / 4 - qKS / (4 * 2)) /\ Z.abs e' <= ntru_gate_noise).
Proof using All.
  intros Hbt H0 H1 H2 Hm1 Hm2 Hp P0 P1 P2 B1. destruct (ns_native Hset) as (Hq & _). pose proof (nm_bounds (w := W) (m := q)) as Hqb.
  eapply returns_mono; [apply (EvalBinGate_MNTRU_run bt ct0 ct1 ct2 (m1 + m2) e0 (e1 + e2) (12 + 8 * Z.abs (e1 + e2 - e0))); try done; try lia|].
  - rewrite P1, P2. apply eqm_refl. ring.
  - pose proof (Z.mod_pos_bound (5 * q) 8 ltac:(lia)). pose proof (Z.mod_pos_bound q 4 ltac:(lia)). nia.
  - intros r (Er & Hr & e' & He & Hb'). split; [done|]. split; [done|]. exists e'. split; [|done]. rewrite He.
    assert ((m1 = 0 \/ m1 = 1) /\ (m2 = 0 \/ m2 = 1)) as [[-> | ->] [-> | ->]] by lia; done.
Qed.
End NtruGate.
