(* ===== verification/MkGateNtruProps.v ===== *)
(** * The multi-key NTRU gate decrypts to the NAND of its inputs *)

From Stdlib Require Import ZArith Lia String.
From stdpp Require Import base tactics numbers list strings gmap.
From S2P Require Import Prelude Double NativeInt NativeIntFacts ModArith NativeVec SchemeCore Negacyclic BitReverse Ntt NttFacts NttSpec NttRing Poly PolyFacts Automorphism Gadget RingNoise RingCoefficients AccCore AccCoreFacts MkAcc MkAccFacts MkAccSteps MkAccKeys Lwe MkLwe MkLweProps MNtru MNtruProps MkGate MkGateFacts MkGateSpec MkGateNtru.

Lemma ntru_setting_same ps us us' q Q qKS k g G U nn base : u_k us' = u_k us -> u_method us' = u_method us ->
  ntru_setting ps us q Q qKS k g G U nn base -> ntru_setting ps us' q Q qKS k g G U nn base.
Proof. intros E1 E2 [H1 H2 H3 H4 H5 H6 H7 H8]. split; try done; congruence. Qed.

(** The multi-key NTRU gate, from the drawn values to the plaintext.  The
    tables of [PreCompute], the keys that [MKKeyGen] makes from matrices with
    ternary first columns, invertible ring keys, small errors and ephemerals
    that are constant polynomials, the constant
    that [ctGateGen] encrypts, two fresh encryptions of bits and [EvalBinGate]
    return a ciphertext that [Decrypt] maps to the NAND of the bits, whatever
    gate is asked for, when the input noise leaves a quarter turn and the noise
    of the accumulator, of the modulus switch and of the key switching leaves
    an eighth of the modulus. *)
Theorem NTRU_NAND_correct (st : FTT) (Q psi : Z) (k : nat) (arb : FTT -> NativePoly -> res (FTT * NativePoly))
    (ps : MNTRUCryptoParams) (us : UniEncCryptoParams) (q qKS g : Z) (G U nn : nat) (base sg ep rh E : Z)
    (f finv a : nat -> list Z) (ev : nat -> nat -> list Z) (inv : Z -> nat -> list Z -> option (list Z)) (candidates : nat -> list (list Z))
    (e : nat -> nat -> NativeVector) (sample : nat -> nat -> nat -> KeySample) (sk : MNTRUPrivateKey) (err : nat -> NativeVector)
    (gate : BINGATE) (m1 m2 t0 t1 t2 : Z) (e0 : nat -> NativeVector) (e1 e2 : list NativeVector) :
  RingTransform st Q psi k -> base_params (q := Q) (psi := psi) (k := k) g G us -> ntru_setting ps us q Q qKS k g G U nn base ->
  ntru_draws q Q qKS k G U nn sg ep rh E f finv a ev inv candidates e sample sk err -> constant_ephemerals (q := Q) (k := k) U nn sample ->
  0 <= m1 <= 1 -> 0 <= m2 <= 1 -> length e1 = U -> length e2 = U ->
  (forall i, (i < U)%nat -> wf_mask q nn (e0 i) /\ wf_mask q nn (e1 !!! i) /\ wf_mask q nn (e2 !!! i)) ->
  t0 ≡[q] sumZ U (fun i => (e0 i).[0]) -> t1 ≡[q] sumZ U (fun i => (e1 !!! i).[0]) -> t2 ≡[q] sumZ U (fun i => (e2 !!! i).[0]) ->
  let n := 2 ^ Z.of_nat k in
  n * (12 + 8 * Z.abs (t1 + t2 - t0)) + 2 * q * (1 + 2 * n_norm1 U nn (fcol qKS sk)) < q * n ->
  2 * (qKS * (8 + 4 * ntru_acc_noise (Q := Q) g G U nn sg ep rh) + 2 * Q * (5 + ring_norm (Q := Q) U f) + 3 * Q +
       4 * Q * (ntru_ks_noise (k := k) qKS U base E + 4)) < Q * qKS ->
  (us ← PreCompute arb us st;
   bt ← MKKeyGen_MNTRU arb inv ps us.2 (polys (q := Q) (psi := psi) (k := k) G a) sk candidates err e sample us.1;
   ct0 ← ctGateGen ps sk NAND e0;
   ct1 ← Encrypt sk m1 4 q e1;
   ct2 ← Encrypt sk m2 4 q e2;
   r ← EvalBinGate_MNTRU arb ps us.2 gate bt.2 false ct1 ct2 ct0 bt.1;
   Decrypt sk r.2 4) = Ok (1 - m1 * m2).
Proof.
  intros HR Hbase Hset0 Hdraws Hconst Hm1 Hm2 L1 L2 Hw T0 T1 T2 n B1 B2.
  destruct (ns_gadget Hset0) as (Hg & HgQ & _). destruct (ns_users Hset0) as (EU & _ & HU). destruct (ns_dims Hset0) as (En & _ & Hnn).
  destruct (ns_native Hset0) as (Hq & HqKS & HQ8 & Hsmall & _). destruct (nd_key Hdraws) as [Hk1 Hk2].
  destruct (PreCompute_tables_spec (HR := HR) arb g Hg HgQ G us Hbase) as (us' & -> & Hus & Ek & Em). rewrite bind_ok. cbn [fst snd].
  pose proof (ntru_setting_same ps us us' q Q qKS k g G U nn base Ek Em Hset0) as Hset.
  destruct (MKKeyGen_MNTRU_spec (HR := HR) arb ps us' q qKS g G U nn base Hset Hus sg ep rh E f finv a ev inv candidates e sample sk err Hdraws Hconst)
    as ([st' bt] & -> & Est & Hbt). cbn [fst snd] in Est, Hbt |- *. subst st'. rewrite bind_ok. cbn [fst snd].
  destruct (ctGateGen_spec (Q := Q) (k := k) ps us' q qKS g G U nn base Hset sg ep rh E f finv a ev inv candidates e sample sk err Hdraws e0)
    as (ct0 & -> & Hct0 & Ep0 & P0); [intros i Hi; by apply Hw|]. rewrite bind_ok.
  pose proof (two_q (q := q)) as Hq4.
  assert (forall m l t, 0 <= m <= 1 -> length l = U -> (forall i, (i < U)%nat -> wf_mask q nn (l !!! i)) -> t ≡[q] sumZ U (fun i => (l !!! i).[0]) ->
    returns (Encrypt sk m 4 q l) (fun ct => wf_nct q U nn ct /\ n_phase U nn (fcol qKS sk) ct ≡[q] m * (q / 4) + t)) as Henc.
  { intros m l t Hm Hl Hal Ht. eapply returns_mono; [apply (Encrypt_phase (q := q) qKS U nn sk m 4 l); (done || lia)|].
    intros ct (H1 & _ & H2). split; [done|]. rewrite H2, Ht. unfold plaintext. by rewrite !(Z.mod_small m) by lia. }
  destruct (Henc m1 e1 t1 Hm1 L1 ltac:(intros; by apply Hw) T1) as (ct1 & -> & Hct1 & P1). rewrite bind_ok.
  destruct (Henc m2 e2 t2 Hm2 L2 ltac:(intros; by apply Hw) T2) as (ct2 & -> & Hct2 & P2). rewrite bind_ok. rewrite <- T0 in P0.
  assert (Z.of_nat (2 ^ k) = n) as Epow by (unfold n; by rewrite Nat2Z.inj_pow).
  destruct (EvalBinGate_MNTRU_spec (HR := HR) arb ps us' q qKS g G U nn base Hset Hus sg ep rh E f finv a ev inv candidates e sample sk err Hdraws
    bt ct0 ct1 ct2 m1 m2 t0 t1 t2 gate Hbt Hct0 Hct1 Hct2 Hm1 Hm2 Ep0 P0 P1 P2) as ([st' ct] & -> & _ & Hct & e' & Hph & He'); [by rewrite Epow|].
  assert (2 * 4 * (ntru_gate_noise (Q := Q) (k := k) qKS g G U nn base sg ep rh E f + 4) < qKS) as Hsm by (apply gate_noise_small; lia).
  cbn [fst snd] in Hct, Hph |- *. rewrite bind_ok. cbn [snd].
  apply (Decrypt_offset (q := qKS) qKS U nn sk ct _ 4 e'); try done; try lia; [apply Hk1|].
  assert ((m1 = 0 \/ m1 = 1) /\ (m2 = 0 \/ m2 = 1)) as [[-> | ->] [-> | ->]] by lia; lia.
Qed.

(** A small setting: two users with matrices of one entry, 1 and -1, dimension
    16 and the ring modulus 40961, of which 19808 is a primitive 32-nd root. *)
Lemma ring40961 : exists st, RingTransform st 40961 19808 4.
Proof.
  by apply ring_transform_check.
Qed.

Definition tiny_us : UniEncCryptoParams := UniEncParams 2 16 40961 512 16 4 MKNTRU (ring_par 40961 19808 4) [] [] [].
Definition tiny_ps : MNTRUCryptoParams := MNTRUParams 2 1 16 512 40961 16384 2.
Definition tiny_one : list Z := rterm 40961 16 1 0.
Definition tiny_inv (q : Z) (n : nat) (p : list Z) : option (list Z) := if decide (p = tiny_one) then Some tiny_one else None.
Definition tiny_crs (i : nat) : list Z := map (fun j => Z.of_nat (i + j)) (seq 0 16).
Definition tiny_sample (u s i : nat) : KeySample := KSample (NVec 40961 (rterm 40961 16 0 0)) (fun _ => (NVec 40961 tiny_one, NVec 40961 tiny_one)).
Definition tiny_sk : MNTRUPrivateKey := MNTRUSk [[NVec 16384 [1]]; [NVec 16384 [16383]]] [[NVec 16384 [1]]; [NVec 16384 [16383]]].
Definition tiny_errors : list NativeVector := [NVec 512 [1]; NVec 512 [510]].

Lemma tiny_one_wf : wf_data (q := 40961) 4 tiny_one /\ l1_le 40961 16 1 tiny_one.
Proof. split; [split; [done|by apply (wf_vec_check W 40961 tiny_one)]|]. apply (l1_rterm 40961 16 1 0). lia. Qed.

Lemma tiny_setting : ntru_setting tiny_ps tiny_us 512 40961 16384 4 4 3 2 1 2.
Proof.
  assert (NativeModulus W 512) as H1 by (apply native_modulus_bits; unfold W; lia).
  assert (NativeModulus W 16384) as H2 by (apply native_modulus_bits; unfold W; lia).
  split; repeat match goal with |- _ /\ _ => split end; first [done | (cbn; lia)].
Qed.

Lemma tiny_draws : ntru_draws 512 40961 16384 4 3 2 1 1 1 0 1 (fun _ => tiny_one) (fun _ => tiny_one) tiny_crs (fun _ _ => tiny_one)
  tiny_inv (fun _ => [repeat 0 16; tiny_one]) (fun _ _ => NVec 40961 tiny_one) tiny_sample tiny_sk (fun _ => NVec 16384 [16383]).
Proof.
  destruct tiny_one_wf as [H1 H2]. split.
  - split; try done; try lia.
    + intros i Hi. assert (i = 0 \/ i = 1 \/ i = 2)%nat as [-> | [-> | ->]] by lia; (split; [done|by apply (wf_vec_check W 40961 (tiny_crs _))]).
    + intros. exists (rterm 40961 16 0 0), (fun _ => tiny_one), (fun _ => tiny_one). split; [|split; [apply (l1_rterm 40961 16 0 0); lia|by intros]].
      split; [done|]. split; [split; [done|by apply (wf_vec_check W 40961 (rterm 40961 16 0 0))]|]. done.
  - intros. vm_compute. reflexivity.
  - split; apply nkey_ok_spec; done.
  - intros u i Hu Hi. assert (i = 0%nat) as -> by lia. assert (u = 0 \/ u = 1)%nat as [-> | ->] by lia; vm_compute; split; discriminate.
  - intros u. split; [by apply mask_ok_spec|vm_compute; discriminate].
Qed.

Lemma tiny_constant : constant_ephemerals (q := 40961) (k := 4) 2 1 tiny_sample.
Proof. intros u s i _ _. by exists 0. Qed.

Lemma NTRU_NAND_correct_witness : exists st, RingTransform st 40961 19808 4 /\
  (us ← PreCompute (fun s p => Ok (s, p)) tiny_us st;
   bt ← MKKeyGen_MNTRU (fun s p => Ok (s, p)) tiny_inv tiny_ps us.2 (polys (q := 40961) (psi := 19808) (k := 4) 3 tiny_crs) tiny_sk
          (fun _ => [repeat 0 16; tiny_one]) (fun _ => NVec 16384 [16383]) (fun _ _ => NVec 40961 tiny_one) tiny_sample us.1;
   ct0 ← ctGateGen tiny_ps tiny_sk NAND (fun _ => NVec 512 [1]);
   ct1 ← Encrypt tiny_sk 1 4 512 tiny_errors;
   ct2 ← Encrypt tiny_sk 0 4 512 tiny_errors;
   r ← EvalBinGate_MNTRU (fun s p => Ok (s, p)) tiny_ps us.2 NAND bt.2 false ct1 ct2 ct0 bt.1;
   Decrypt tiny_sk r.2 4) = Ok 1.
Proof.
  destruct ring40961 as [st HR]. exists st. split; [exact HR|].
  assert (forall i, (i < 2)%nat -> wf_mask 512 1 (tiny_errors !!! i)) as He.
  { apply (forall_below _ (fun u => mask_ok 512 1 (tiny_errors !!! u))); [|done]. intros u. apply mask_ok_spec. }
  apply (NTRU_NAND_correct st 40961 19808 4 (fun s p => Ok (s, p)) tiny_ps tiny_us 512 16384 4 3 2 1 2 1 1 0 1 (fun _ => tiny_one) (fun _ => tiny_one) tiny_crs (fun _ _ => tiny_one)
    tiny_inv (fun _ => [repeat 0 16; tiny_one]) (fun _ _ => NVec 40961 tiny_one) tiny_sample tiny_sk (fun _ => NVec 16384 [16383])
    NAND 1 0 2 (-1) (-1) (fun _ => NVec 512 [1]) tiny_errors tiny_errors HR);
    try (exact tiny_setting || exact tiny_draws || exact tiny_constant || done || (cbn; unfold reduced; lia)).
  intros i Hi. split; [by apply mask_ok_spec|]. split; by apply He.
Defined.
