(* ===== verification/MkGateProps.v ===== *)
(** * Properties of the multi-key accumulator and of the multi-key gate *)

From Stdlib Require Import ZArith Lia String.
From stdpp Require Import base tactics numbers list strings gmap.
From S2P Require Import Prelude Double NativeInt NativeIntFacts ModArith NativeVec SchemeCore Negacyclic BitReverse Ntt NttFacts NttSpec NttRing Poly PolyFacts Automorphism Gadget RingNoise RingCoefficients AccCore AccCoreFacts MkAcc MkAccFacts MkAccSteps MkAccKeys Lwe MkLwe MkLweProps MNtru MkGate MkGateFacts MkGateSpec.

Lemma gate_setting_same ps us us' q Q qKS k g G U nn base : u_k us' = u_k us -> u_method us' = u_method us ->
  gate_setting ps us q Q qKS k g G U nn base -> gate_setting ps us' q Q qKS k g G U nn base.
Proof. intros E1 E2 [H1 H2 H3 H4 H5 H6 H7 H8 H9]. split; try done; congruence. Qed.

(** The multi-key NAND gate, from the drawn values to the plaintext.  The
    tables of [PreCompute], the keys that [MKKeyGen] makes from binary secrets,
    invertible ring keys, small errors and ephemerals that are constant
    polynomials, two fresh encryptions of bits under
    the joint key and [EvalBinGate] return a ciphertext that decrypts to the
    NAND of the bits, whatever the masks and whatever gate is asked for, when
    the input noise leaves a quarter turn and the noise of the accumulator, of
    the two modulus switches and of the key switching leaves an eighth of the
    modulus. *)
Theorem NAND_correct (st : FTT) (Q psi : Z) (k : nat) (arb : FTT -> NativePoly -> res (FTT * NativePoly))
    (ps : MKLWECryptoParams) (us : UniEncCryptoParams) (q qKS g : Z) (G U nn base : nat) (m_ sg ep rh E : Z)
    (f finv a : nat -> list Z) (ev : nat -> nat -> list Z) (t : nat -> nat -> Z)
    (inv : Z -> nat -> list Z -> option (list Z)) (candidates : nat -> list (list Z)) (e : nat -> nat -> NativeVector) (sample : nat -> nat -> nat -> KeySample)
    (gaussA : nat -> nat -> nat -> nat -> NativeVector) (err : nat -> nat -> nat -> nat -> Z)
    (gate : BINGATE) (m1 m2 err1 err2 : Z) (a1 a2 : list NativeVector) :
  RingTransform st Q psi k -> base_params (q := Q) (psi := psi) (k := k) g G us -> gate_setting ps us q Q qKS k g G U nn base ->
  gate_draws Q qKS k G U nn m_ sg ep rh E f finv a ev t inv candidates e sample gaussA err -> constant_ephemerals (q := Q) (k := k) U nn sample ->
  0 <= m1 <= 1 -> 0 <= m2 <= 1 -> reduced q err1 -> reduced q err2 -> (Z.of_nat (U * nn) + 2) * q < 2 ^ 64 ->
  length a1 = U -> length a2 = U -> (forall u, (u < U)%nat -> wf_mask q nn (a1 !!! u) /\ wf_mask q nn (a2 !!! u)) ->
  let n := 2 ^ Z.of_nat k in
  n * (12 + 8 * Z.abs (centred q err1 + centred q err2)) + 2 * q * (1 + key_norm U nn t) < q * n ->
  2 * (qKS * (8 + 4 * acc_noise (Q := Q) g G U nn sg ep rh) + 2 * Q * (1 + ring_norm (Q := Q) U f) + 3 * Q +
       4 * Q * (ks_noise_bound (k := k) qKS U base E + 4)) < Q * qKS ->
  let sk := masks U m_ nn (fun u i => t u i mod m_) in
  let CRS := polys (q := Q) (psi := psi) (k := k) G a in
  (us ← PreCompute arb us st;
   bt ← MKKeyGen_MKLWE arb inv ps us.2 CRS sk candidates gaussA err e sample us.1;
   ct1 ← MKEncrypt ps sk m1 4 q err1 a1;
   ct2 ← MKEncrypt ps sk m2 4 q err2 a2;
   r ← EvalBinGate_MKLWE arb ps us.2 gate bt.2 false ct1 ct2 bt.1;
   MKDecrypt ps sk r.2 4) = Ok (1 - m1 * m2).
Proof.
  intros HR Hbase Hset0 Hdraws Hconst Hm1 Hm2 He1 He2 Hfit L1 L2 Hmask n B1 B2 sk CRS; subst CRS; subst sk.
  destruct (gs_gadget Hset0) as (Hg & HgQ & _). destruct (gs_users Hset0) as (EU & _ & HU). destruct (gs_dims Hset0) as (En & _ & Hnn).
  destruct (gs_native Hset0) as (Hq & HqKS & HQ8). destruct (gs_fit64 Hset0) as [F1 _]. destruct (gs_fit Hset0) as (_ & _ & F3). pose proof (two_q (q := q)) as Hq4. pose proof (two_q (q := qKS)) as HK4.
  destruct (PreCompute_tables_spec (HR := HR) arb g Hg HgQ G us Hbase) as (us' & -> & Hus & Ek & Em). rewrite bind_ok. cbn [fst snd].
  pose proof (gate_setting_same ps us us' q Q qKS k g G U nn base Ek Em Hset0) as Hset.
  destruct (MKKeyGen_MKLWE_spec (HR := HR) arb ps us' q qKS g G U nn base Hset Hus m_ sg ep rh E f finv a ev t inv candidates e sample gaussA err Hdraws Hconst)
    as ([st' bt] & -> & Est & Hbt). cbn [fst snd] in Est, Hbt |- *. subst st'. rewrite bind_ok. cbn [fst snd].
  destruct (secret_wf (Q := Q) (k := k) qKS G U nn m_ sg ep rh E f finv a ev t inv candidates e sample gaussA err Hdraws) as [Hsk _].
  set (sk := masks U m_ nn (fun u i => t u i mod m_)) in *.
  assert (forall m error al, 0 <= m <= 1 -> reduced q error -> length al = U -> (forall u, (u < U)%nat -> wf_mask q nn (al !!! u)) ->
    returns (MKEncrypt ps sk m 4 q error al) (fun ct => wf_mkct q U nn ct /\ mk_phase (mk_ints sk) ct ≡[q] m * (q / 4) + centred q error)) as Henc.
  { intros m error al Hm Her Hl Hal. eapply returns_mono.
    - apply (MKEncrypt_spec (q := q) ps sk m 4 error al); rewrite ?EU, ?En; (done || lia).
    - rewrite EU, En. intros ct (H1 & _ & _ & H2). split; [done|]. rewrite H2, centred_eqm. unfold plaintext. by rewrite !(Z.mod_small m) by lia. }
  destruct (Henc m1 err1 a1 Hm1 He1 L1 ltac:(intros; by apply Hmask)) as (ct1 & -> & Hct1 & P1). rewrite bind_ok.
  destruct (Henc m2 err2 a2 Hm2 He2 L2 ltac:(intros; by apply Hmask)) as (ct2 & -> & Hct2 & P2). rewrite bind_ok.
  assert (Z.of_nat (2 ^ k) = n) as Epow by (unfold n; by rewrite Nat2Z.inj_pow).
  destruct (EvalBinGate_MKLWE_spec (HR := HR) arb ps us' q qKS g G U nn base Hset Hus m_ sg ep rh E f finv a ev t inv candidates e sample gaussA err Hdraws
    bt ct1 ct2 m1 m2 (centred q err1) (centred q err2) gate Hbt Hct1 Hct2 Hm1 Hm2 P1 P2) as ([st' ct] & -> & _ & Hct & e' & Hph & He'); [by rewrite Epow|].
  assert (2 * 4 * (mk_gate_noise (Q := Q) (k := k) qKS g G U nn base sg ep rh E f + 4) < qKS) as Hsm by (apply gate_noise_small; lia).
  cbn [fst snd] in Hct, Hph |- *. rewrite bind_ok. cbn [snd].
  assert (8 * qKS < Q * qKS) as H8 by (apply Z.mul_lt_mono_pos_r; lia).
  destruct (MKDecrypt_spec (q := qKS) ps sk ct 4) as [-> _]; rewrite ?EU, ?En; try done; try lia. f_equal.
  apply round_phase_correct with (e := e'); try done; try lia.
  assert ((m1 = 0 \/ m1 = 1) /\ (m2 = 0 \/ m2 = 1)) as [[-> | ->] [-> | ->]] by lia; lia.
Qed.

(** A small setting: two users with one key bit each, dimension 8 and the ring
    modulus 12289, of which 4134 is a primitive 16-th root. *)
Lemma ring12289 : exists st, RingTransform st 12289 4134 3.
Proof.
  by apply ring_transform_check.
Qed.

Lemma wf12289 l : length l = 8%nat -> bool_decide (Forall (reduced 12289) l) = true -> wf_data (q := 12289) 3 l.
Proof. intros H1 H2. split; [done|]. by apply bool_decide_eq_true in H2. Qed.

Definition small_us : UniEncCryptoParams := UniEncParams 2 8 12289 512 128 2 MKNTRU_LWE (ring_par 12289 4134 3) [] [] [].
Definition small_ps : MKLWECryptoParams := MKLWEParams 2 1 8 512 12289 4096 32.
Definition small_one : list Z := rterm 12289 8 1 0.
(** An inversion that knows the inverse of one. *)
Definition small_inv (q : Z) (n : nat) (p : list Z) : option (list Z) := if decide (p = small_one) then Some small_one else None.
Definition small_crs (i : nat) : list Z := [3; 1; 4; 1; 5; 9; 2; 6].
Definition small_bit (u i : nat) : Z := if decide (u = 0)%nat then 1 else 0.
Definition small_sample (u s i : nat) : KeySample := KSample (NVec 12289 (rterm 12289 8 0 0)) (fun _ => (NVec 12289 small_one, NVec 12289 small_one)).

Lemma small_one_wf : wf_data (q := 12289) 3 small_one /\ l1_le 12289 8 1 small_one.
Proof. split; [by apply wf12289|]. apply (l1_rterm 12289 8 1 0). lia. Qed.

Lemma small_good u s i : good_sample (q := 12289) (k := 3) 1 1 0 (small_sample u s i).
Proof.
  destruct small_one_wf as [H1 H2]. exists (rterm 12289 8 0 0), (fun _ => small_one), (fun _ => small_one). split; [|split; [apply (l1_rterm 12289 8 0 0); lia|by intros]].
  split; [done|]. split; [by apply wf12289|]. done.
Qed.

Lemma small_constant nn : constant_ephemerals (q := 12289) (k := 3) 2 nn small_sample.
Proof. intros u s i _ _. by exists 0. Qed.

Lemma small_setting : gate_setting small_ps small_us 512 12289 4096 3 7 1 2 1 32.
Proof.
  assert (NativeModulus W 512) as H1 by (apply native_modulus_bits; unfold W; lia).
  assert (NativeModulus W 4096) as H2 by (apply native_modulus_bits; unfold W; lia).
  split; repeat match goal with |- _ /\ _ => split end; first [done | cbn; lia | by right].
Qed.

Lemma small_ring : ring_draws 12289 3 1 2 1 1 1 0 (fun _ => small_one) (fun _ => small_one) small_crs (fun _ _ => small_one)
  (fun _ _ => NVec 12289 small_one) small_sample.
Proof.
  destruct small_one_wf as [H1 H2]. split; try done; try lia.
  - intros i _. by apply wf12289.
  - intros. apply small_good.
Qed.

Lemma small_draws : gate_draws 12289 4096 3 1 2 1 512 1 1 0 2 (fun _ => small_one) (fun _ => small_one) small_crs (fun _ _ => small_one) small_bit
  small_inv (fun _ => [[0; 0; 0; 0; 0; 0; 0; 0]; small_one]) (fun _ _ => NVec 12289 small_one) small_sample (fun _ _ _ _ => NVec 4096 [5]) (fun _ _ _ _ => 2).
Proof.
  split; try done; try lia.
  - exact small_ring.
  - split; [apply native_modulus_bits; unfold W; lia|]. intros u i _ _. unfold small_bit. destruct (decide _); lia.
  - intros. by apply mask_ok_spec.
Qed.

Lemma NAND_correct_witness : exists st, RingTransform st 12289 4134 3 /\
  (us ← PreCompute (fun s p => Ok (s, p)) small_us st;
   bt ← MKKeyGen_MKLWE (fun s p => Ok (s, p)) small_inv small_ps us.2 (polys (q := 12289) (psi := 4134) (k := 3) 1 small_crs)
          (masks 2 512 1 (fun u i => small_bit u i mod 512)) (fun _ => [[0; 0; 0; 0; 0; 0; 0; 0]; small_one])
          (fun _ _ _ _ => NVec 4096 [5]) (fun _ _ _ _ => 2) (fun _ _ => NVec 12289 small_one) small_sample us.1;
   ct1 ← MKEncrypt small_ps (masks 2 512 1 (fun u i => small_bit u i mod 512)) 1 4 512 5 [NVec 512 [100]; NVec 512 [7]];
   ct2 ← MKEncrypt small_ps (masks 2 512 1 (fun u i => small_bit u i mod 512)) 1 4 512 510 [NVec 512 [31]; NVec 512 [511]];
   r ← EvalBinGate_MKLWE (fun s p => Ok (s, p)) small_ps us.2 NAND bt.2 false ct1 ct2 bt.1;
   MKDecrypt small_ps (masks 2 512 1 (fun u i => small_bit u i mod 512)) r.2 4) = Ok 0.
Proof.
  destruct ring12289 as [st HR]. exists st. split; [exact HR|].
  apply (NAND_correct st 12289 4134 3 (fun s p => Ok (s, p)) small_ps small_us 512 4096 7 1 2 1 32 512 1 1 0 2 (fun _ => small_one) (fun _ => small_one) small_crs (fun _ _ => small_one) small_bit
    small_inv (fun _ => [[0; 0; 0; 0; 0; 0; 0; 0]; small_one]) (fun _ _ => NVec 12289 small_one) small_sample (fun _ _ _ _ => NVec 4096 [5]) (fun _ _ _ _ => 2)
    NAND 1 1 5 510 [NVec 512 [100]; NVec 512 [7]] [NVec 512 [31]; NVec 512 [511]] HR); try (exact small_setting || exact small_draws || apply small_constant || done || (cbn; unfold reduced; lia)).
  intros u Hu. split.
  - apply (forall_below (fun u => wf_mask 512 1 ([NVec 512 [100]; NVec 512 [7]] !!! u)) (fun u => mask_ok 512 1 ([NVec 512 [100]; NVec 512 [7]] !!! u)) 2); [intros; by apply mask_ok_spec|done|done].
  - apply (forall_below (fun u => wf_mask 512 1 ([NVec 512 [31]; NVec 512 [511]] !!! u)) (fun u => mask_ok 512 1 ([NVec 512 [31]; NVec 512 [511]] !!! u)) 2); [intros; by apply mask_ok_spec|done|done].
Defined.

(** C8: blind rotation with ternary keys. With the keys that [KeyGenAcc] and
    [MKKeyGen] make, when the ephemeral [r] of every key is a constant
    polynomial, [EvalAcc] on the accumulator [(v, 0, ..., 0)] returns an
    accumulator whose phase under the ring keys is [v] times [x] to the inner
    product of the scaled masks and the secrets, up to a noise with an explicit
    bound; and the cache of the transform is unchanged. The condition on [r] is
    needed: the code multiplies [CRS[i]] by entry [i] of the transform of [r]
    instead of [r] itself (mk-acc-xzw.cpp:167), which agree only for constants;
    for other ephemerals one product is off by an excess that has no bound. The
    generator of [r] has standard deviation 0.15 (mk-cryptoparameters.h:144),
    so that a coefficient is nonzero with probability about 4e-10 and [r] is
    nearly always zero. *)
Theorem EvalAcc_correct (st : FTT) (Q psi : Z) (k : nat) (arb : FTT -> NativePoly -> res (FTT * NativePoly)) (us : UniEncCryptoParams)
    (g : Z) (G U nn : nat) (m_ mod_ sg ep rh : Z) (f finv a : nat -> list Z) (ev : nat -> nat -> list Z)
    (e : nat -> nat -> NativeVector) (sample : nat -> nat -> nat -> KeySample) (t x : nat -> nat -> Z) (v : list Z) :
  RingTransform st Q psi k -> acc_params us Q psi k g G -> u_k us = U -> (0 < U)%nat -> (0 < nn)%nat ->
  1 <= g <= 31 -> 2 ^ g <= Q -> Q <= (2 ^ g) ^ Z.of_nat (S G) -> (0 < G <= 2 ^ k)%nat -> 3 <= m_ < 2 ^ 64 -> mod_ * (2 * 2 ^ Z.of_nat k) < 2 ^ 64 ->
  ring_draws Q k G U nn sg ep rh f finv a ev e sample -> constant_ephemerals (q := Q) (k := k) U nn sample ->
  (forall u i, (u < U)%nat -> (i < nn)%nat -> -1 <= t u i <= 1 /\ 0 <= x u i < mod_) -> wf_data (q := Q) k v ->
  let P := polys (q := Q) (psi := psi) (k := k) in
  returns (ek ← KeyGenAcc arb us (P U finv) (masks U m_ nn (fun u i => t u i mod m_)) (P G a) sample st;
           pk ← public_keys arb us U (P G a) (P U f) e ek.1;
           EvalAcc arb us pk.1 ek.2 pk.2 (P U (start (k := k) v)) (masks U mod_ nn x))
    (fun r => r.1 = st /\ acc_state (q := Q) (psi := psi) (k := k) U f v
       (sumZ U (fun u => sumZ nn (fun i => x u i * (2 * 2 ^ Z.of_nat k) / mod_ * t u i)))
       (first_bound (q := Q) g G U sg ep rh + (Z.of_nat (U * nn) - 1) * step_bound (q := Q) g G U sg ep rh) r.2).
Proof.
  intros HR Hus EU HU Hnn Hg HgQ HGq [HG HGn] Hm Hmod Hring Hconst Htx Hv P; subst P. destruct (rd_sizes Hring) as (Hsg & Hep & Hrh).
  assert (Z.of_nat (2 ^ k) = 2 ^ Z.of_nat k) as Epow by (by rewrite Nat2Z.inj_pow). rewrite <- Epow in *.
  pose proof (ring_keys (HR := HR) G U nn sg ep rh f finv a ev e sample Hring) as Hkeys.
  destruct (ring_rotation (HR := HR) G U nn sg ep rh f finv a ev e sample Hring) as (R1 & R2 & R3 & R4).
  eapply returns_bind.
  { apply (KeyGenAcc_spec (HR := HR) arb g G us Hus HGn a (rd_crs Hring) (polys G a) (crs_lookup G a) U f finv ep rh HU Hkeys t nn Hnn m_ Hm sample (rd_sample Hring) Hconst).
    intros u i Hu Hi. by apply Htx. }
  intros [st' ek] [Est Hek]. cbn [fst snd] in *. subst st'.
  rewrite (public_made (HR := HR) arb us g G U nn Hus sg ep rh f finv a ev e sample Hring), bind_ok. cbn [fst snd].
  eapply returns_mono.
  { apply (EvalAcc_spec (HR := HR) arb g Hg HgQ G HG HGq us Hus U f a ev _ sg ep rh EU HU Hsg Hep Hrh R1 R2 R3 _ R4 (finv 0%nat) t x nn mod_ ek v); try done; by apply Hkeys. }
  intros r [Er Hr]. split; [done|]. unfold exponent in Hr. cbn [sumZ] in Hr. by rewrite Z.add_0_r in Hr.
Qed.

(** Blind rotation with binary keys made with constant ephemerals, on masks that
    are exponents of [x] already. *)
Theorem EvalAcc_B_correct (st : FTT) (Q psi : Z) (k : nat) (arb : FTT -> NativePoly -> res (FTT * NativePoly)) (us : UniEncCryptoParams)
    (g : Z) (G U nn : nat) (m_ sg ep rh : Z) (f finv a : nat -> list Z) (ev : nat -> nat -> list Z)
    (e : nat -> nat -> NativeVector) (sample : nat -> nat -> nat -> KeySample) (t x : nat -> nat -> Z) (v : list Z) :
  RingTransform st Q psi k -> acc_params us Q psi k g G -> u_k us = U -> (0 < U)%nat -> (0 < nn)%nat ->
  1 <= g <= 31 -> 2 ^ g <= Q -> Q <= (2 ^ g) ^ Z.of_nat (S G) -> (0 < G <= 2 ^ k)%nat -> 3 <= m_ < 2 ^ 64 ->
  ring_draws Q k G U nn sg ep rh f finv a ev e sample -> constant_ephemerals (q := Q) (k := k) U nn sample ->
  (forall u i, (u < U)%nat -> (i < nn)%nat -> 0 <= t u i <= 1 /\ 0 <= x u i < 2 * 2 ^ Z.of_nat k) -> wf_data (q := Q) k v ->
  let P := polys (q := Q) (psi := psi) (k := k) in
  returns (ek ← KeyGenAcc_B arb us (P U finv) (masks U m_ nn (fun u i => t u i mod m_)) (P G a) sample st;
           pk ← public_keys arb us U (P G a) (P U f) e ek.1;
           EvalAcc_B arb us pk.1 ek.2 pk.2 (P U (start (k := k) v)) (masks U (2 * 2 ^ Z.of_nat k) nn x))
    (fun r => r.1 = st /\ acc_state (q := Q) (psi := psi) (k := k) U f v (sumZ U (fun u => sumZ nn (fun i => x u i * t u i)))
       (acc_noise (Q := Q) g G U nn sg ep rh) r.2).
Proof.
  intros HR Hus EU HU Hnn Hg HgQ HGq [HG HGn] Hm Hring Hconst Htx Hv P; subst P. destruct (rd_sizes Hring) as (Hsg & Hep & Hrh).
  assert (Z.of_nat (2 ^ k) = 2 ^ Z.of_nat k) as Epow by (by rewrite Nat2Z.inj_pow). rewrite <- Epow in *.
  pose proof (ring_keys (HR := HR) G U nn sg ep rh f finv a ev e sample Hring) as Hkeys.
  destruct (ring_rotation (HR := HR) G U nn sg ep rh f finv a ev e sample Hring) as (R1 & R2 & R3 & R4).
  eapply returns_bind.
  { apply (KeyGenAcc_B_spec (HR := HR) arb g G us Hus HGn a (rd_crs Hring) (polys G a) (crs_lookup G a) U f finv ep rh HU Hkeys t nn Hnn m_ Hm sample (rd_sample Hring) Hconst).
    intros u i Hu Hi. by apply Htx. }
  intros [st' ek] [Est Hek]. cbn [fst snd] in *. subst st'.
  rewrite (public_made (HR := HR) arb us g G U nn Hus sg ep rh f finv a ev e sample Hring), bind_ok. cbn [fst snd].
  eapply returns_mono.
  { apply (EvalAcc_B_spec (HR := HR) arb g Hg HgQ G HG HGq us Hus U f a ev _ sg ep rh EU HU Hsg Hep Hrh R1 R2 R3 _ R4 (finv 0%nat) t x nn _ ek v); try done; by apply Hkeys. }
  intros r [Er Hr]. split; [done|]. unfold exponent in Hr. cbn [sumZ] in Hr. by rewrite Z.add_0_r in Hr.
Qed.

Lemma small_precomputed : exists st us, RingTransform st 12289 4134 3 /\ acc_params us 12289 4134 3 7 1 /\ u_k us = 2%nat.
Proof.
  destruct ring12289 as [st HR].
  assert (base_params (q := 12289) (psi := 4134) (k := 3) 7 1 small_us) as Hb by (split; done).
  destruct (PreCompute_tables_spec (HR := HR) (fun s p => Ok (s, p)) 7 ltac:(lia) ltac:(lia) 1 small_us Hb) as (us & _ & H & E & _).
  by exists st, us.
Qed.

Definition small_sign (u i : nat) : Z := if decide (u = 0)%nat then -1 else 1.
Definition small_v : list Z := [5; 0; 0; 7; 0; 0; 0; 1].

Lemma EvalAcc_correct_witness : exists st us, RingTransform st 12289 4134 3 /\ acc_params us 12289 4134 3 7 1 /\
  returns (ek ← KeyGenAcc (fun s p => Ok (s, p)) us (polys (q := 12289) (psi := 4134) (k := 3) 2 (fun _ => small_one)) (masks 2 512 1 (fun u i => small_sign u i mod 512))
             (polys (q := 12289) (psi := 4134) (k := 3) 1 small_crs) small_sample st;
           pk ← public_keys (fun s p => Ok (s, p)) us 2 (polys (q := 12289) (psi := 4134) (k := 3) 1 small_crs) (polys (q := 12289) (psi := 4134) (k := 3) 2 (fun _ => small_one))
             (fun _ _ => NVec 12289 small_one) ek.1;
           EvalAcc (fun s p => Ok (s, p)) us pk.1 ek.2 pk.2 (polys (q := 12289) (psi := 4134) (k := 3) 2 (start (k := 3) small_v)) (masks 2 512 1 (fun u i => Z.of_nat (100 + 50 * u))))
    (fun r => r.1 = st /\ acc_state (q := 12289) (psi := 4134) (k := 3) 2 (fun _ => small_one) small_v 1 1536 r.2).
Proof.
  destruct small_precomputed as (st & us & HR & Hus & EU). exists st, us. split; [exact HR|]. split; [exact Hus|].
  apply (EvalAcc_correct st 12289 4134 3 (fun s p => Ok (s, p)) us 7 1 2 1 512 512 1 1 0 (fun _ => small_one) (fun _ => small_one) small_crs (fun _ _ => small_one)
    (fun _ _ => NVec 12289 small_one) small_sample small_sign (fun u i => Z.of_nat (100 + 50 * u)) small_v HR Hus EU); try (done || lia || (cbn; lia)).
  - exact small_ring.
  - apply small_constant.
  - intros u i Hu Hi. split; [unfold small_sign; destruct (decide _); lia|lia].
  - by apply wf12289.
Defined.

Lemma EvalAcc_B_correct_witness : exists st us, RingTransform st 12289 4134 3 /\ acc_params us 12289 4134 3 7 1 /\
  returns (ek ← KeyGenAcc_B (fun s p => Ok (s, p)) us (polys (q := 12289) (psi := 4134) (k := 3) 2 (fun _ => small_one)) (masks 2 512 1 (fun u i => small_bit u i mod 512))
             (polys (q := 12289) (psi := 4134) (k := 3) 1 small_crs) small_sample st;
           pk ← public_keys (fun s p => Ok (s, p)) us 2 (polys (q := 12289) (psi := 4134) (k := 3) 1 small_crs) (polys (q := 12289) (psi := 4134) (k := 3) 2 (fun _ => small_one))
             (fun _ _ => NVec 12289 small_one) ek.1;
           EvalAcc_B (fun s p => Ok (s, p)) us pk.1 ek.2 pk.2 (polys (q := 12289) (psi := 4134) (k := 3) 2 (start (k := 3) small_v)) (masks 2 16 1 (fun u i => Z.of_nat (3 + u))))
    (fun r => r.1 = st /\ acc_state (q := 12289) (psi := 4134) (k := 3) 2 (fun _ => small_one) small_v 3 960 r.2).
Proof.
  destruct small_precomputed as (st & us & HR & Hus & EU). exists st, us. split; [exact HR|]. split; [exact Hus|].
  apply (EvalAcc_B_correct st 12289 4134 3 (fun s p => Ok (s, p)) us 7 1 2 1 512 1 1 0 (fun _ => small_one) (fun _ => small_one) small_crs (fun _ _ => small_one)
    (fun _ _ => NVec 12289 small_one) small_sample small_bit (fun u i => Z.of_nat (3 + u)) small_v HR Hus EU); try (done || lia || (cbn; lia)).
  - exact small_ring.
  - apply small_constant.
  - intros u i Hu Hi. split; [unfold small_bit; destruct (decide _); lia|cbn; lia].
  - by apply wf12289.
Defined.

(** C9: the hybrid product with a fresh key, for any ephemeral.  For the key
    that [KeyGenXZW] makes for the bit [m] and the user [index] from an
    ephemeral [r], [HbProd] keeps the cache and multiplies the phase of any
    accumulator by [m], up to a noise with an explicit bound and to the surplus
    that the gadget digits of the accumulator make of the defects of the rows:
    the code adds [skrPoly[i] * CRS[i]], the public value times entry [i] of the
    transform of [r] (mk-acc-xzw.cpp:167), where the relation asks for the
    product by [r], and the defect of row [i] is the difference of the two.
    The surplus is zero when [r] is a constant polynomial, and a witness with
    [r = x] shows that otherwise it is not. *)
Theorem HbProd_correct (st : FTT) (Q psi : Z) (k : nat) (arb : FTT -> NativePoly -> res (FTT * NativePoly)) (us : UniEncCryptoParams)
    (g : Z) (G U nn : nat) (sg ep rh m : Z) (f finv a : nat -> list Z) (ev : nat -> nat -> list Z)
    (e : nat -> nat -> NativeVector) (sample : nat -> nat -> nat -> KeySample) (index : nat) (c : nat -> list Z) (r : list Z) :
  RingTransform st Q psi k -> acc_params us Q psi k g G -> u_k us = U -> (index < U)%nat ->
  1 <= g <= 31 -> 2 ^ g <= Q -> Q <= (2 ^ g) ^ Z.of_nat (S G) -> (0 < G <= 2 ^ k)%nat ->
  ring_draws Q k G U nn sg ep rh f finv a ev e sample -> m = 0 \/ m = 1 -> (forall u, (u < U)%nat -> wf_data (q := Q) k (c u)) ->
  smp_r (sample index 0%nat 0%nat) = NVec Q r ->
  let P := polys (q := Q) (psi := psi) (k := k) in
  let phase := acc_phase (q := Q) (k := k) U f in
  let defects i := rsub Q (rscale Q (ntt Q psi k r !!! i) (a i)) (rmul Q (2 ^ k) r (a i)) in
  let excess := surplus (q := Q) (k := k) g G U f c defects in
  returns (key ← KeyGenXZW arb us (poly_of Q psi k EVALUATION (finv index)) (P G a) m (sample index 0%nat 0%nat) st;
           pk ← public_keys arb us U (P G a) (P U f) e key.1;
           HbProd arb us pk.1 key.2.*1 key.2.*2 index pk.2 (P U c))
    (fun y => y.1 = st /\ exists c' noise, y.2 = P U c' /\ (forall u, (u < U)%nat -> wf_data (q := Q) k (c' u)) /\
       phase c' = radd Q (radd Q (rscale Q m (phase c)) noise) excess /\
       inf_le Q (2 ^ k) (product_bound (q := Q) g G U sg ep rh (Z.of_nat U * (sg * drop_bound (q := Q) g G))) noise) /\
  (constant_ephemeral (q := Q) (k := k) (sample index 0%nat 0%nat) -> excess = rzero (2 ^ k)).
Proof.
  intros HR Hus EU Hidx Hg HgQ HGq [HG HGn] Hring Hm Hc Hr P phase defects excess; subst P phase. destruct (rd_sizes Hring) as (Hsg & Hep & Hrh).
  pose proof (rt_modulus (RingTransform := HR)) as HQ. pose proof (rd_crs Hring) as Ha.
  pose proof (ring_keys (HR := HR) G U nn sg ep rh f finv a ev e sample Hring) as Hkeys.
  destruct (ring_rotation (HR := HR) G U nn sg ep rh f finv a ev e sample Hring) as (R1 & R2 & R3 & R4).
  split; [|intros [c0 E0]; apply (surplus_zero (HR := HR)); [intros; by apply R1|]; intros i Hi; rewrite Hr in E0; injection E0 as ->; by apply (defect_constant (HR := HR) G HGn a Ha)].
  eapply returns_bind.
  { apply (KeyGenXZW_rows (HR := HR) arb g G us Hus HGn a Ha (polys G a) (crs_lookup G a) U f finv ep rh Hkeys index m); [done|done|].
    apply (rd_sample Hring); lia. }
  intros [st' key] [Est (r' & d & ff & Er & Wr & Ekey & Hfam)]. cbn [fst snd] in *. subst st' key. rewrite Hr in Er. injection Er as <-.
  rewrite (public_made (HR := HR) arb us g G U nn Hus sg ep rh f finv a ev e sample Hring), bind_ok. cbn [fst snd].
  destruct (rows_split (q := Q) (psi := psi) (k := k) G (fun i => (radd Q (d i) (defect (q := Q) (psi := psi) (k := k) a r i), ff i))) as [E1 E2]. cbn [fst snd] in E1, E2. unfold rows. rewrite E1, E2.
  assert (forall i, (i < G)%nat -> wf_data (q := Q) k (d i) /\ wf_data (q := Q) k (defect (q := Q) (psi := psi) (k := k) a r i) /\ wf_data (q := Q) k (ff i)) as Hw.
  { intros i Hi. destruct (family_rows g G f a index _ _ _ _ _ Hfam i Hi) as [? ?]. split; [done|]. split; [by apply (defect_wf (HR := HR) G a Ha)|done]. }
  rewrite (HbProd_spec (HR := HR) arb g Hg HgQ G HG us Hus U index (pub_elem (q := Q) (k := k) f a ev) _ ff c _ EU); [|lia|done| | |done].
  2: { intros u Hu. split; [by apply R4|]. intros i Hi. by apply R2. }
  2: { intros i Hi. destruct (Hw i Hi) as (H1 & H2 & H3). split; [by apply radd_wf|done]. }
  assert (wf_data (q := Q) k (rconst (q := Q) (k := k) m)) as Hmw by apply (rconst_wf (HR := HR)).
  assert (l1_le Q (2 ^ k) 1 (rconst (q := Q) (k := k) m)) as Hml by (apply (l1_le_mono _ _ (Z.abs m)); [lia|apply l1_rconst]).
  destruct (product_step (HR := HR) g Hg G HGq U f a ev _ sg ep Hsg Hep R1 R2 R3 index _ ep rh _ d ff c Hidx Hmw ltac:(lia) Hrh Hc Hfam
    (tau_bound (HR := HR) g Hg G HGq U f sg Hsg R1 _ Hmw Hml c Hc)) as (noise & Hn & Bn & Eph).
  apply returns_ok. split; [done|]. eexists _, noise. split; [done|]. split; [intros; apply (hb_wf (HR := HR))|]. split; [|done].
  rewrite (hb_surplus (HR := HR)), Eph, (rmul_rconst m) by (done || apply (acc_phase_wf (HR := HR)) || (intros; by apply R1)). done.
Qed.

(** The ephemeral [x], which is not a constant. *)
Definition wave : list Z := rterm 12289 8 1 1.
Definition wave_sample (u s i : nat) : KeySample := KSample (NVec 12289 wave) (fun _ => (NVec 12289 small_one, NVec 12289 small_one)).
Definition wave_v : list Z := [500; 0; 0; 7; 0; 0; 0; 1].

Lemma wave_ring : ring_draws 12289 3 1 2 1 1 1 1 (fun _ => small_one) (fun _ => small_one) small_crs (fun _ _ => small_one)
  (fun _ _ => NVec 12289 small_one) wave_sample.
Proof.
  destruct small_one_wf as [H1 H2]. split; try done; try lia.
  - intros i _. by apply wf12289.
  - intros. exists wave, (fun _ => small_one), (fun _ => small_one). split; [|split; [apply (l1_rterm 12289 8 1 1); lia|by intros]].
    split; [done|]. split; [by apply wf12289|]. done.
Qed.

Lemma HbProd_correct_witness : exists st us excess, RingTransform st 12289 4134 3 /\ acc_params us 12289 4134 3 7 1 /\ excess <> rzero 8 /\
  returns (key ← KeyGenXZW (fun s p => Ok (s, p)) us (poly_of 12289 4134 3 EVALUATION small_one) (polys (q := 12289) (psi := 4134) (k := 3) 1 small_crs) 1 (wave_sample 1 0 0) st;
           pk ← public_keys (fun s p => Ok (s, p)) us 2 (polys (q := 12289) (psi := 4134) (k := 3) 1 small_crs) (polys (q := 12289) (psi := 4134) (k := 3) 2 (fun _ => small_one))
             (fun _ _ => NVec 12289 small_one) key.1;
           HbProd (fun s p => Ok (s, p)) us pk.1 key.2.*1 key.2.*2 1 pk.2 (polys (q := 12289) (psi := 4134) (k := 3) 2 (fun _ => wave_v)))
    (fun y => exists c' noise, y.2 = polys (q := 12289) (psi := 4134) (k := 3) 2 c' /\
       acc_phase (q := 12289) (k := 3) 2 (fun _ => small_one) c' = radd 12289 (radd 12289 [1000; 0; 0; 14; 0; 0; 0; 2] noise) excess /\ inf_le 12289 8 512 noise).
Proof.
  destruct small_precomputed as (st & us & HR & Hus & EU). exists st, us. eexists. split; [exact HR|]. split; [exact Hus|].
  destruct (HbProd_correct st 12289 4134 3 (fun s p => Ok (s, p)) us 7 1 2 1 1 1 1 1 (fun _ => small_one) (fun _ => small_one) small_crs (fun _ _ => small_one)
      (fun _ _ => NVec 12289 small_one) wave_sample 1 (fun _ => wave_v) wave HR Hus EU) as [H _]; try (done || lia || (cbn; lia)).
  - exact wave_ring.
  - intros u Hu. by apply wf12289.
  - split; [|eapply returns_mono; [exact H|]; intros y (_ & c' & noise & H1 & _ & H2 & H3); exists c', noise; split; [exact H1|]; split; [exact H2|exact H3]].
    vm_compute. discriminate.
Defined.

(** C23: [PreCompute].  For the methods that rotate by monomials it returns the
    powers of the gadget base modulo [Q], and a table whose entry [i], for every
    [i] below [2 N], holds [x^i - 1] in the evaluation format; the lookups of
    the accumulator read [x^c - 1] and [x^-c - 1], and the rest of the
    parameters and the cache are unchanged. *)
Theorem PreCompute_correct (st : FTT) (Q psi : Z) (k : nat) (arb : FTT -> NativePoly -> res (FTT * NativePoly)) (us : UniEncCryptoParams) (g : Z) (G : nat) :
  RingTransform st Q psi k -> 1 <= g <= 31 -> 2 ^ g < Q -> base_params (q := Q) (psi := psi) (k := k) g G us ->
  exists us', PreCompute arb us st = Ok (st, us') /\
    u_Gpower us' = map (fun i => ((2 ^ g) ^ Z.of_nat i) mod Q) (seq 0 (S G)) /\
    length (u_monomials us') = (2 * 2 ^ k)%nat /\
    u_k us' = u_k us /\ u_method us' = u_method us /\ u_N us' = u_N us /\ u_Q us' = u_Q us /\ u_baseG us' = u_baseG us /\
    u_digitsG us' = u_digitsG us /\ u_polyParams us' = u_polyParams us /\
    forall c, 0 <= c < 2 * 2 ^ Z.of_nat k ->
      let X := fun e => poly_of Q psi k EVALUATION (rsub Q (mono Q (2 ^ k) e) (mono Q (2 ^ k) 0)) in
      GetMonomial us' (monomial_index (u_N us') c) = Ok (X c) /\ GetMonomial us' (monomial_neg_index (u_N us') c) = Ok (X (- c)).
Proof.
  intros HR Hg HgQ Hbase. destruct (PreCompute_tables_spec (HR := HR) arb g Hg HgQ G us Hbase) as (us' & E & Hus & Ek & Em). exists us'. split; [done|].
  assert (Z.of_nat (2 ^ k) = 2 ^ Z.of_nat k) as Epow by (by rewrite Nat2Z.inj_pow). destruct Hus as [H1 H2 H3 H4 H5 H6 H7] eqn:EH.
  rewrite H1, H2, H3, H4, H5, H7, (bp_N _ _ _ Hbase), (bp_Q _ _ _ Hbase), (bp_baseG _ _ _ Hbase), (bp_digitsG _ _ _ Hbase), (bp_polyParams _ _ _ Hbase).
  split; [done|]. split; [apply length_tab|]. do 7 (split; [done|]). rewrite <- Epow. intros c Hc X. rewrite <- H1. split.
  - by apply (monomial_pos (HR := HR) g G us' Hus).
  - by apply (monomial_neg (HR := HR) g G us' Hus).
Qed.

Lemma PreCompute_correct_witness : exists st us', RingTransform st 12289 4134 3 /\ PreCompute (fun s p => Ok (s, p)) small_us st = Ok (st, us') /\
  u_Gpower us' = [1; 128] /\
  GetMonomial us' (monomial_neg_index (u_N us') 3) = Ok (poly_of 12289 4134 3 EVALUATION [12288; 0; 0; 0; 0; 12288; 0; 0]).
Proof.
  destruct ring12289 as [st HR].
  destruct (PreCompute_correct st 12289 4134 3 (fun s p => Ok (s, p)) small_us 7 1 HR) as (us' & E & E1 & _ & _ & _ & _ & _ & _ & _ & _ & H); [lia|lia|by split|].
  destruct (H 3 ltac:(lia)) as [_ E2]. exists st, us'. split; [exact HR|]. split; [exact E|]. split; [exact E1|exact E2].
Defined.
