(* ===== verification/MkContext.v ===== *)
(** * The context of the library for multi-key ciphertexts

    Models the multi-key members of [src/binfhe/lib/binfhecontext.cpp] and of
    [src/binfhe/include/binfhecontext.h]: encryption, the decryptions, the
    switching key, the bootstrapping keys that a context keeps ([MKBTKeyGen]),
    the constant of a gate ([ctGateGen]) and [EvalBinGate]; and straight-line
    programs over [EvalBinGate].

    A context holds the parameters of one scheme; a member of another scheme
    follows a null pointer. *)

From Stdlib Require Import ZArith Lia String.
From stdpp Require Import base tactics numbers list strings gmap.
From S2P Require Import Prelude NativeInt ModArith NativeVec SchemeCore Ntt Poly AccCore MkAcc Lwe MkLwe MNtru MkGate Context.

Record MKContext := MkCtx {
  mc_params : BinFHECryptoParams;
  mc_MKBTKey : UniEncBTKey;
  mc_MKBTKey_map : gmap Z UniEncBTKey;
  mc_ctNAND : option MNTRUCiphertext
}.
Definition no_MKBTKey : UniEncBTKey := BTKey None None None [] [] [] [] [].
Definition new_mk_context (ps : BinFHECryptoParams) : MKContext := MkCtx ps no_MKBTKey ∅ None.

(** The parameters that a member reads through their pointers. *)
Definition GetMatrixNTRUParams (c : MKContext) : res MNTRUCryptoParams :=
  match mc_params c with MultiNTRU ps _ => Ok ps | _ => Throw undefined_behaviour end.
Definition GetMKLWEParams (c : MKContext) : res MKLWECryptoParams :=
  match mc_params c with MultiLWE ps _ => Ok ps | _ => Throw undefined_behaviour end.
Definition GetUniEncParams (c : MKContext) : res UniEncCryptoParams :=
  match mc_params c with MultiNTRU _ us | MultiLWE _ us => Ok us | SingleKey _ _ => Throw undefined_behaviour end.

(** ** Encryption and decryption

    Without a modulus the encryption is for that of the parameters.  The
    decryptions of matrix NTRU read the key and the ciphertext only. *)
Definition Encrypt_MKLWE (c : MKContext) (sk : list NativeVector) (m p mod_ : Z) (err : Z) (a : list NativeVector) : res MKLWECiphertext :=
  ps ← GetMKLWEParams c;
  MKEncrypt ps sk m p (if mod_ =? 0 then mk_q ps else mod_) err a.
Definition Decrypt_MKLWE (c : MKContext) (sk : list NativeVector) (ct : MKLWECiphertext) (p : Z) : res Z :=
  ps ← GetMKLWEParams c; MKDecrypt ps sk ct p.
Definition DecryptNAND_MKLWE (c : MKContext) (sk : list NativeVector) (ct : MKLWECiphertext) (p : Z) : res Z :=
  ps ← GetMKLWEParams c; MKDecryptNAND ps sk ct p.

Definition Encrypt_MNTRU (c : MKContext) (sk : MNTRUPrivateKey) (m p mod_ : Z) (e : list NativeVector) : res MNTRUCiphertext :=
  ps ← GetMatrixNTRUParams c;
  MNtru.Encrypt sk m p (if mod_ =? 0 then n_q ps else mod_) e.
Definition Decrypt_MNTRU (c : MKContext) (sk : MNTRUPrivateKey) (ct : MNTRUCiphertext) (p : Z) : res Z := MNtru.Decrypt sk ct p.
Definition DecryptNAND_MNTRU (c : MKContext) (sk : MNTRUPrivateKey) (ct : MNTRUCiphertext) (p : Z) : res Z := MNtru.DecryptNAND sk ct p.
Definition Decrypt2_MNTRU (c : MKContext) (sk : MNTRUPrivateKey) (ct : MNTRUCiphertext) (p : Z) : res Z := MNtru.Decrypt2 sk ct p.

Definition KeySwitchGen_MNTRU (c : MKContext) (sk : MNTRUPrivateKey) (skN : list NativeVector) (E : nat -> NativeVector) : res (list matrix) :=
  ps ← GetMatrixNTRUParams c; MNtru.KeySwitchGen ps sk skN E.

(** ** Keys *)
Section MkContext.
Context (arb : FTT -> NativePoly -> res (FTT * NativePoly)) (inv : Z -> nat -> list Z -> option (list Z)).

(** What the generation of keys draws: the common reference string of the
    parameters, the candidates for invertible elements, the errors of the public
    keys and the samples of the evaluation keys. *)
Record MKKeyDraws := MKDraws {
  md_CRS : list NativePoly; md_candidates : nat -> list (list Z); md_e : nat -> nat -> NativeVector; md_sample : nat -> nat -> nat -> KeySample
}.

(** The two overloads of [MKBTKeyGen] differ in the keys that [generate] makes.
    The table map of multi-key parameters is empty, so that the loop of the time
    optimization makes no key.  A map that has a key is not written again. *)
Definition MKBTKeyGen (generate : UniEncCryptoParams -> FTT -> res (FTT * UniEncBTKey)) (c : MKContext) (st : FTT) : res (FTT * MKContext) :=
  us ← GetUniEncParams c;
  let temp := u_baseG us in
  if negb (size (mc_MKBTKey_map c) =? 0)%nat
  then let k := default no_MKBTKey (mc_MKBTKey_map c !! temp) in
       Ok (st, MkCtx (mc_params c) k (<[temp := k]> (mc_MKBTKey_map c)) (mc_ctNAND c))
  else k ← generate us st;
       Ok (k.1, MkCtx (mc_params c) k.2 (<[temp := k.2]> (mc_MKBTKey_map c)) (mc_ctNAND c)).

Definition MKBTKeyGen_MNTRU (c : MKContext) (sk : MNTRUPrivateKey) (d : MKKeyDraws) (E : nat -> NativeVector) (st : FTT) : res (FTT * MKContext) :=
  MKBTKeyGen (fun us st => ps ← GetMatrixNTRUParams c; MKKeyGen_MNTRU arb inv ps us (md_CRS d) sk (md_candidates d) E (md_e d) (md_sample d) st) c st.
Definition MKBTKeyGen_MKLWE (c : MKContext) (sk : list NativeVector) (d : MKKeyDraws) (gaussA : nat -> nat -> nat -> nat -> NativeVector)
    (err : nat -> nat -> nat -> nat -> Z) (st : FTT) : res (FTT * MKContext) :=
  MKBTKeyGen (fun us st => ps ← GetMKLWEParams c; MKKeyGen_MKLWE arb inv ps us (md_CRS d) sk (md_candidates d) gaussA err (md_e d) (md_sample d) st) c st.

Definition ctGateGen (c : MKContext) (sk : MNTRUPrivateKey) (gate : BINGATE) (e : nat -> NativeVector) : res MKContext :=
  if negb (bool_decide (gate = NAND)) then Throw (config_error "Support NAND gate Only") else
  ps ← GetMatrixNTRUParams c;
  ct ← MkGate.ctGateGen ps sk gate e;
  Ok (MkCtx (mc_params c) (mc_MKBTKey c) (mc_MKBTKey_map c) (Some ct)).

(** ** Gates *)
Definition EvalBinGate_MKLWE (c : MKContext) (gate : BINGATE) (same : bool) (ct1 ct2 : MKLWECiphertext) (st : FTT) : res (FTT * MKLWECiphertext) :=
  if same then Throw (config_error "Input ciphertexts should be independant") else
  ps ← GetMKLWEParams c; us ← GetUniEncParams c;
  MkGate.EvalBinGate_MKLWE arb ps us gate (mc_MKBTKey c) same ct1 ct2 st.
Definition EvalBinGate_MNTRU (c : MKContext) (gate : BINGATE) (same : bool) (ct1 ct2 : MNTRUCiphertext) (st : FTT) : res (FTT * MNTRUCiphertext) :=
  if same then Throw (config_error "Input ciphertexts should be independant") else
  ps ← GetMatrixNTRUParams c; us ← GetUniEncParams c;
  match mc_ctNAND c with
  | None => Throw undefined_behaviour
  | Some ctNAND => MkGate.EvalBinGate_MNTRU arb ps us gate (mc_MKBTKey c) same ct1 ct2 ctNAND st
  end.

End MkContext.

(** ** Straight-line programs

    An instruction applies a gate to two wires and adds a wire.  Two wires are
    the same object when they are the same position.  [gate] is one of the two
    [EvalBinGate] of a context. *)
Record mk_instr := MkI { i_gate : BINGATE; i_left : nat; i_right : nat }.

Section Programs.
Context {CT : Type} (gate : BINGATE -> bool -> CT -> CT -> FTT -> res (FTT * CT)).

Definition mk_step (x : FTT * list CT) (i : mk_instr) : res (FTT * list CT) :=
  ct1 ← vget x.2 (i_left i); ct2 ← vget x.2 (i_right i);
  r ← gate (i_gate i) (i_left i =? i_right i)%nat ct1 ct2 x.1;
  Ok (r.1, x.2 ++ [r.2]).
Fixpoint mk_run (prog : list mk_instr) (x : FTT * list CT) : res (FTT * list CT) :=
  match prog with [] => Ok x | i :: prog' => y ← mk_step x i; mk_run prog' y end.
End Programs.

(** The same program on values, with one operation for every gate. *)
Definition mk_values `{Inhabited V} (op : V -> V -> V) (prog : list mk_instr) (m : list V) : list V :=
  fold_left (fun m i => m ++ [op (m !!! i_left i) (m !!! i_right i)]) prog m.
(** The wires of every instruction exist, differ, and have values that [ok]
    admits. *)
Fixpoint mk_prog_ok `{Inhabited V} (op : V -> V -> V) (ok : V -> V -> Prop) (prog : list mk_instr) (m : list V) : Prop :=
  match prog with
  | [] => True
  | i :: prog' => (i_left i < length m)%nat /\ (i_right i < length m)%nat /\ i_left i <> i_right i /\ ok (m !!! i_left i) (m !!! i_right i) /\
      mk_prog_ok op ok prog' (m ++ [op (m !!! i_left i) (m !!! i_right i)])
  end.

(** A gate that refines the operation gives runs that refine runs. *)
Lemma mk_run_refines `{Inhabited V} {CT} (gate : BINGATE -> bool -> CT -> CT -> FTT -> res (FTT * CT)) (st : FTT)
    (op : V -> V -> V) (ok : V -> V -> Prop) (holds : V -> CT -> Prop) :
  (forall b v1 v2 ct1 ct2, ok v1 v2 -> holds v1 ct1 -> holds v2 ct2 -> returns (gate b false ct1 ct2 st) (fun r => r.1 = st /\ holds (op v1 v2) r.2)) ->
  forall prog m w, mk_prog_ok op ok prog m -> Forall2 holds m w ->
  returns (mk_run gate prog (st, w)) (fun r => r.1 = st /\ Forall2 holds (mk_values op prog m) r.2).
Proof.
  intros Hgate prog. induction prog as [|i prog IH]; intros m w Hp Hw; cbn [mk_prog_ok] in Hp; [by apply returns_ok|].
  destruct Hp as (Hl & Hr & Hne & Hok & Hp). cbn [mk_run]. unfold mk_step. cbn [fst snd].
  assert (forall j, (j < length m)%nat -> exists ct, vget w j = Ok ct /\ holds (m !!! j) ct) as Hget.
  { intros j Hj. destruct (Forall2_lookup_l _ _ _ j (m !!! j) Hw) as (ct & Ect & Hct); [by apply list_lookup_lookup_total_lt|]. exists ct. split; [by apply vget_lookup|done]. }
  destruct (Hget _ Hl) as (ct1 & -> & H1), (Hget _ Hr) as (ct2 & -> & H2). rewrite !bind_ok. cbn [fst snd]. rewrite (proj2 (Nat.eqb_neq _ _) Hne).
  destruct (Hgate (i_gate i) _ _ _ _ Hok H1 H2) as ([st' ct] & -> & E1 & Hct). rewrite !bind_ok. cbn [fst snd] in *. subst st'.
  apply IH; [done|]. apply Forall2_app; [done|by constructor].
Qed.
