(* ===== verification/MkContextSpec.v ===== *)
(** * Circuits over the multi-key gates of a context

    The parameters and the keys that a context makes are those that the gates
    need.  For multi-key LWE a straight-line program over [EvalBinGate] refines
    the program on bits, as every gate returns a ciphertext of a bit with a noise
    that does not depend on its arguments.  For multi-key matrix NTRU the result
    of a gate is encoded differently from its arguments, and a gate on two
    results computes another function. *)

From Stdlib Require Import ZArith Lia String.
From stdpp Require Import base tactics numbers list strings gmap.
From S2P Require Import Prelude Double NativeInt NativeIntFacts ModArith NativeVec SchemeCore Negacyclic BitReverse Ntt NttFacts NttSpec NttRing Poly PolyFacts RingNoise AccCore AccCoreFacts MkAcc MkAccFacts MkAccSteps MkAccKeys Lwe MkLwe MNtru MkGate MkGateFacts MkGateSpec MkGateNtru Context ContextSpec MkContext.

(** ** The parameters of a new context *)
Lemma new_UniEnc_made {st : FTT} {Q psi : Z} {k : nat} {HR : RingTransform st Q psi k} (arb : FTT -> NativePoly -> res (FTT * NativePoly)) users q g G method na :
  1 <= g <= 31 -> 2 ^ g < Q -> digit_count (2 ^ g) Q = S G -> method ∈ [MKNTRU; MKNTRU_B; MKNTRU_LWE] ->
  returns (new_UniEncCryptoParams arb users (2 ^ k) Q q (2 ^ g) method na (ring_par Q psi k) st) (fun r => r.1 = st /\
    acc_params r.2 Q psi k g G /\ u_k r.2 = users /\ u_method r.2 = method /\ u_baseG r.2 = 2 ^ g).
Proof.
  intros Hg HgQ Hd Hm. unfold new_UniEncCryptoParams. rewrite IsPowerOfTwo_spec by lia. cbn [negb].
  assert (bool_decide (method = LMKCDEY) = false /\ uses_monomials method = true) as [-> Hu]. { rewrite !elem_of_cons in Hm. destruct Hm as [-> | [-> | [-> | []%elem_of_nil]]]; done. }
  cbn [andb]. destruct (PreCompute_tables_spec (HR := HR) arb g Hg ltac:(lia) G (UniEncParams users (2 ^ k) Q q (2 ^ g) (digit_count (2 ^ g) Q) method (ring_par Q psi k) [] [] [])) as (us & -> & Hus & Ek & Em); [by split|].
  apply returns_ok. cbn [fst snd]. split; [done|]. split; [done|]. split; [done|]. split; [done|]. by destruct Hus.
Qed.

(** The first keys of a context are those that are made. *)
Lemma MKBTKeyGen_first generate ps us (P : UniEncBTKey -> Prop) (st : FTT) : GetUniEncParams (new_mk_context ps) = Ok us ->
  returns (generate us st) (fun r => r.1 = st /\ P r.2) ->
  returns (MKBTKeyGen generate (new_mk_context ps) st) (fun r => r.1 = st /\ mc_params r.2 = ps /\ P (mc_MKBTKey r.2)).
Proof.
  intros E Hg. unfold MKBTKeyGen. rewrite E, bind_ok. cbn [new_mk_context mc_MKBTKey_map]. rewrite map_size_empty. cbn [negb Nat.eqb].
  eapply returns_bind; [exact Hg|]. intros r [E1 HP]. by apply returns_ok.
Qed.

(** ** Multi-key LWE *)
Definition nand_bit (x y : Z) : Z := 1 - x * y.

Section Circuit.
Context {st : FTT} {Q psi : Z} {k : nat} {HR : RingTransform st Q psi k} (arb : FTT -> NativePoly -> res (FTT * NativePoly)).
Context (ps : MKLWECryptoParams) (us : UniEncCryptoParams) (q g : Z) (G U nn base : nat).
Context (Hset : gate_setting ps us q Q q k g G U nn base) (Hus : acc_params us Q psi k g G).
Context (m_ sg ep rh E : Z) (f finv a : nat -> list Z) (ev : nat -> nat -> list Z) (t : nat -> nat -> Z).
Context (inv : Z -> nat -> list Z -> option (list Z)) (candidates : nat -> list (list Z)) (e : nat -> nat -> NativeVector) (sample : nat -> nat -> nat -> KeySample).
Context (gaussA : nat -> nat -> nat -> nat -> NativeVector) (err : nat -> nat -> nat -> nat -> Z).
Context (Hdraws : gate_draws Q q k G U nn m_ sg ep rh E f finv a ev t inv candidates e sample gaussA err).
Abbreviation sk := (masks U m_ nn (fun u i => t u i mod m_)).
Abbreviation good_keys_ := (good_keys (Q := Q) (psi := psi) (k := k) q g G U nn base m_ ep rh f finv a ev t err).
Abbreviation noise := (mk_gate_noise (Q := Q) (k := k) q g G U nn base sg ep rh E f).

(** A ciphertext of a bit with a noise of at most [beta]. *)
Definition mk_holds (beta m : Z) (ct : MKLWECiphertext) : Prop :=
  0 <= m <= 1 /\ wf_mkct q U nn ct /\ exists x, Z.abs x <= beta /\ mk_phase (mk_ints sk) ct ≡[q] m * (q / 4) + x.

(** A noise that leaves a quarter turn to the sum of two ciphertexts, and an
    eighth of the modulus to the decryption. *)
Definition mk_margin (beta : Z) : Prop :=
  0 <= beta /\ 2 ^ Z.of_nat k * (12 + 16 * beta) + 2 * q * (1 + key_norm U nn t) < q * 2 ^ Z.of_nat k /\ 2 * 4 * (beta + 4) < q.

Lemma fresh_holds beta m er al : 0 <= m <= 1 -> reduced q er -> Z.abs (centred q er) <= beta -> (Z.of_nat (U * nn) + 2) * q < 2 ^ 64 -> 8 < q ->
  length al = U -> (forall u, (u < U)%nat -> wf_mask q nn (al !!! u)) -> returns (MKEncrypt ps sk m 4 q er al) (mk_holds beta m).
Proof using Hset Hdraws.
  intros Hm Her Hb Hfit Hq8 Hl Hal. destruct (gs_users Hset) as (EU & _). destruct (gs_dims Hset) as (En & _). destruct (gs_native Hset) as (Hq & _).
  destruct (secret_wf (Q := Q) (k := k) q G U nn m_ sg ep rh E f finv a ev t inv candidates e sample gaussA err Hdraws) as [Hsk _].
  eapply returns_mono; [apply (MKEncrypt_spec (q := q) ps sk m 4 er al); rewrite ?EU, ?En; (done || lia)|].
  rewrite EU, En. intros ct (H1 & _ & _ & H2). split; [done|]. split; [done|]. exists (centred q er). split; [done|].
  rewrite H2, centred_eqm. unfold plaintext. by rewrite !(Z.mod_small m) by lia.
Qed.

Context (c : MKContext) (Hps : mc_params c = MultiLWE ps us) (Hbt : good_keys_ (mc_MKBTKey c)) (beta : Z) (Hnoise : noise <= beta) (Hmar : mk_margin beta).

Lemma gate_holds gate m1 m2 ct1 ct2 : mk_holds beta m1 ct1 -> mk_holds beta m2 ct2 ->
  returns (EvalBinGate_MKLWE arb c gate false ct1 ct2 st) (fun r => r.1 = st /\ mk_holds beta (nand_bit m1 m2) r.2).
Proof using All.
  intros (Hm1 & W1 & e1 & B1 & P1) (Hm2 & W2 & e2 & B2 & P2). destruct Hmar as (_ & Hm & _). unfold EvalBinGate_MKLWE, GetMKLWEParams, GetUniEncParams. rewrite Hps, !bind_ok.
  assert (Z.of_nat (2 ^ k) = 2 ^ Z.of_nat k) as Epow by (by rewrite Nat2Z.inj_pow).
  eapply returns_mono; [apply (EvalBinGate_MKLWE_spec (HR := HR) arb ps us q q g G U nn base Hset Hus m_ sg ep rh E f finv a ev t inv candidates e sample gaussA err Hdraws
    (mc_MKBTKey c) ct1 ct2 m1 m2 e1 e2 gate Hbt W1 W2 Hm1 Hm2 P1 P2)|].
  - rewrite Epow. assert (2 ^ Z.of_nat k * (12 + 8 * Z.abs (e1 + e2)) <= 2 ^ Z.of_nat k * (12 + 16 * beta)) by (apply Z.mul_le_mono_nonneg_l; lia). lia.
  - intros r (Er & Hr & e' & He & Hb). split; [done|]. split; [unfold nand_bit; nia|]. split; [done|]. exists e'. split; [lia|done].
Qed.

Lemma decrypt_holds m ct : mk_holds beta m ct -> Decrypt_MKLWE c sk ct 4 = Ok m.
Proof using Hset Hdraws Hps Hmar.
  intros (Hm & Hct & x & Hx & Ph). destruct Hmar as (Hb0 & _ & Hb). destruct (gs_users Hset) as (EU & _ & HU). destruct (gs_dims Hset) as (En & _). destruct (gs_native Hset) as (Hq & _).
  destruct (gs_fit64 Hset) as [F1 _]. destruct (secret_wf (Q := Q) (k := k) q G U nn m_ sg ep rh E f finv a ev t inv candidates e sample gaussA err Hdraws) as [Hsk _].
  pose proof (nm_bounds (w := W) (m := q)) as Hqb. destruct (gs_fit Hset) as (F2 & _).
  unfold Decrypt_MKLWE, GetMKLWEParams. rewrite Hps, bind_ok.
  destruct (MKDecrypt_spec (q := q) ps sk ct 4) as [-> _]; rewrite ?EU, ?En; try done; try lia. f_equal.
  apply round_phase_correct with (e := x); (done || lia).
Qed.
End Circuit.

(** ** Multi-key matrix NTRU *)

(** The gate on two bits, when both arguments are encryptions and when both are
    results of gates. *)
Definition ntru_bit (fresh : bool) (x y : Z) : Z := if fresh then nand_bit x y else x + y - x * y.
Definition ntru_op (a b : bool * Z) : bool * Z := (false, ntru_bit a.1 a.2 b.2).
Definition same_kind (a b : bool * Z) : Prop := a.1 = b.1.

(** The wires that a program adds are results. *)
Lemma ntru_results prog : forall m, exists m', mk_values ntru_op prog m = m ++ m' /\ Forall (fun v => v.1 = false) m'.
Proof.
  induction prog as [|i prog IH]; intros m; [exists []; by rewrite app_nil_r|]. cbn [mk_values fold_left].
  destruct (IH (m ++ [ntru_op (m !!! i_left i) (m !!! i_right i)])) as (m' & E & Hm'). eexists (_ :: m').
  split; [unfold mk_values in E; rewrite E, <- app_assoc; reflexivity|by constructor].
Qed.

Section NtruCircuit.
Context {st : FTT} {Q psi : Z} {k : nat} {HR : RingTransform st Q psi k} (arb : FTT -> NativePoly -> res (FTT * NativePoly)).
Context (ps : MNTRUCryptoParams) (us : UniEncCryptoParams) (q g : Z) (G U nn : nat) (base : Z).
Context (Hset : ntru_setting ps us q Q q k g G U nn base) (Hus : acc_params us Q psi k g G).
Context (sg ep rh E : Z) (f finv a : nat -> list Z) (ev : nat -> nat -> list Z).
Context (inv : Z -> nat -> list Z -> option (list Z)) (candidates : nat -> list (list Z)) (e : nat -> nat -> NativeVector) (sample : nat -> nat -> nat -> KeySample).
Context (sk : MNTRUPrivateKey) (err : nat -> NativeVector).
Context (Hdraws : ntru_draws q Q q k G U nn sg ep rh E f finv a ev inv candidates e sample sk err).
Abbreviation t := (fcol q sk).
Abbreviation good_keys_ := (good_ntru_keys (Q := Q) (psi := psi) (k := k) q g G U nn base ep rh f finv a ev sk err).
Abbreviation noise := (ntru_gate_noise (Q := Q) (k := k) q g G U nn base sg ep rh E f).

(** What the phase of a result lacks. *)
Definition eighth_off : Z := q / 4 - q / (4 * 2).

(** An encryption of a bit, or the result of a gate, with a noise of at most
    [beta]. *)
Definition ntru_holds (beta : Z) (v : bool * Z) (ct : MNTRUCiphertext) : Prop :=
  0 <= v.2 <= 1 /\ wf_nct q U nn ct /\ exists x, Z.abs x <= beta /\ n_phase U nn t ct ≡[q] v.2 * (q / 4) + x - (if v.1 then 0 else eighth_off).

(** The constant of the gate with a noise of at most [beta]. *)
Definition constant_holds (beta : Z) (ct : MNTRUCiphertext) : Prop :=
  wf_nct q U nn ct /\ ct_pt ct = 4 /\ exists x, Z.abs x <= beta /\ n_phase U nn t ct ≡[q] 5 * q / 8 + x.

Definition ntru_margin (beta : Z) : Prop :=
  0 <= beta /\ 2 ^ Z.of_nat k * (21 + 24 * beta) + 2 * q * (1 + 2 * n_norm1 U nn t) < q * 2 ^ Z.of_nat k /\ 2 * 4 * (beta + 4) < q.

Lemma ntru_fresh_holds beta m x el : 0 <= m <= 1 -> 8 < q -> length el = U -> (forall i, (i < U)%nat -> wf_mask q nn (el !!! i)) ->
  x ≡[q] sumZ U (fun i => (el !!! i).[0]) -> Z.abs x <= beta -> returns (MNtru.Encrypt sk m 4 q el) (ntru_holds beta (true, m)).
Proof using Hset Hdraws.
  intros Hm Hq8 Hl Hel Hx Hb. destruct (ns_users Hset) as (_ & _ & HU). destruct (ns_dims Hset) as (_ & _ & Hnn). destruct (ns_native Hset) as (Hq & _). destruct (nd_key Hdraws) as [Hk _].
  eapply returns_mono; [apply (Encrypt_phase (q := q) q U nn sk m 4 el); (done || lia)|].
  intros ct (H1 & _ & H2). split; [done|]. split; [done|]. exists x. split; [done|]. cbn [fst snd]. rewrite H2, Hx, Z.sub_0_r. unfold plaintext. by rewrite !(Z.mod_small m) by lia.
Qed.

Context (c : MKContext) (Hps : mc_params c = MultiNTRU ps us) (Hbt : good_keys_ (mc_MKBTKey c)) (beta : Z) (Hnoise : noise <= beta) (Hmar : ntru_margin beta).
Context (ct0 : MNTRUCiphertext) (Hct0 : mc_ctNAND c = Some ct0) (Hconst : constant_holds beta ct0).

(** A gate on two encryptions is a NAND; on two results, an OR. *)
Lemma ntru_gate_holds gate v1 v2 ct1 ct2 : same_kind v1 v2 -> ntru_holds beta v1 ct1 -> ntru_holds beta v2 ct2 ->
  returns (EvalBinGate_MNTRU arb c gate false ct1 ct2 st) (fun r => r.1 = st /\ ntru_holds beta (ntru_op v1 v2) r.2).
Proof using All.
  destruct v1 as [fresh m1], v2 as [? m2]. intros Hk. cbv [same_kind fst] in Hk. subst b.
  intros (Hm1 & W1 & e1 & B1 & P1) (Hm2 & W2 & e2 & B2 & P2). cbn [fst snd] in *. destruct Hconst as (W0 & Ep & e0 & B0 & P0). destruct Hmar as (_ & Hm & _).
  destruct (ns_native Hset) as (Hq & _). pose proof (nm_bounds (w := W) (m := q)) as Hqb.
  unfold EvalBinGate_MNTRU, GetMatrixNTRUParams, GetUniEncParams. rewrite Hps, !bind_ok, Hct0.
  set (delta := if fresh then 0 else q / 4 - 2 * (q / (4 * 2))).
  assert (0 <= delta <= 1) as Hdelta.
  { unfold delta. destruct fresh; [lia|]. change (4 * 2) with 8. pose proof (Z.div_mod q 4 ltac:(lia)). pose proof (Z.mod_pos_bound q 4 ltac:(lia)).
    pose proof (Z.div_mod q 8 ltac:(lia)). pose proof (Z.mod_pos_bound q 8 ltac:(lia)). lia. }
  pose proof (Z.mod_pos_bound (5 * q) 8 ltac:(lia)) as R5. pose proof (Z.mod_pos_bound q 4 ltac:(lia)) as R4.
  set (M := if fresh then m1 + m2 else m1 + m2 - 1). assert (-1 <= M <= 2) as HM by (unfold M; destruct fresh; lia).
  assert (Z.of_nat (2 ^ k) = 2 ^ Z.of_nat k) as Epow by (by rewrite Nat2Z.inj_pow).
  eapply returns_mono; [apply (EvalBinGate_MNTRU_run (HR := HR) arb ps us q q g G U nn base Hset Hus sg ep rh E f finv a ev inv candidates e sample sk err Hdraws
    (mc_MKBTKey c) ct0 ct1 ct2 M e0 (e1 + e2 - delta) (21 + 24 * beta) gate Hbt W0 W1 W2 HM Ep P0)|].
  - rewrite P1, P2. unfold M, delta, eighth_off. destruct fresh; apply eqm_refl; ring.
  - assert (-6 <= 2 * M * (q mod 4) <= 12) by nia. lia.
  - by rewrite Epow.
  - intros r (Er & Hr & e' & He & Hb). split; [done|]. unfold ntru_holds, ntru_op. cbn [fst snd].
    assert ((if (0 <=? M) && (M <=? 1) then 1 else 0) = ntru_bit fresh m1 m2) as EM.
    { unfold M, ntru_bit, nand_bit. assert ((m1 = 0 \/ m1 = 1) /\ (m2 = 0 \/ m2 = 1)) as [[-> | ->] [-> | ->]] by lia; by destruct fresh. }
    rewrite EM in He. split; [|split; [done|]].
    + rewrite <- EM. by destruct (_ && _).
    + exists e'. split; [lia|exact He].
Qed.

Lemma ntru_decrypt_holds m ct : ntru_holds beta (false, m) ct -> Decrypt_MNTRU c sk ct 4 = Ok m.
Proof using Hset Hdraws Hmar.
  intros (Hm & Hct & x & Hx & Ph). cbn [fst snd] in *. destruct Hmar as (Hb0 & _ & Hb). destruct (ns_users Hset) as (_ & _ & HU). destruct (ns_dims Hset) as (_ & _ & Hnn).
  destruct (ns_native Hset) as (Hq & _). destruct (nd_key Hdraws) as [Hk1 _]. destruct (ns_fit Hset) as (F1 & _).
  apply (Decrypt_offset (q := q) q U nn sk ct m 4 x); try done; try lia. apply Hk1.
Qed.

Lemma results_hold b prog m w : Forall2 (ntru_holds b) (mk_values ntru_op prog m) w ->
  Forall2 (fun v ct => ntru_holds b (false, v.2) ct) (drop (length m) (mk_values ntru_op prog m)) (drop (length m) w).
Proof using Type.
  clear. intros Hw%(Forall2_drop _ _ _ (length m)). destruct (ntru_results prog m) as (m' & E & Hm'). rewrite E, drop_app_length in Hw |- *.
  revert Hm' Hw. generalize (drop (length m) w). clear. intros w Hm' Hw. induction Hw as [|[kind x] ct m' w Hx _ IH]; [by constructor|].
  inversion Hm' as [|? ? Hk Hr]; subst. cbn [fst] in Hk. subst kind. constructor; [done|by apply IH].
Qed.
End NtruCircuit.
