(* ===== verification/MkContextProps.v ===== *)
(** * Properties of the multi-key gates of a context: circuits *)

From Stdlib Require Import ZArith Lia String.
From stdpp Require Import base tactics numbers list strings gmap.
From S2P Require Import Prelude Double NativeInt NativeIntFacts ModArith NativeVec SchemeCore Negacyclic BitReverse Ntt NttFacts NttSpec NttRing Poly PolyFacts RingNoise AccCore AccCoreFacts MkAcc MkAccFacts MkAccSteps MkAccKeys Lwe MkLwe MkLweProps MNtru MNtruProps MkGate MkGateFacts MkGateSpec MkGateNtru MkGateProps MkGateNtruProps Context ContextSpec MkContext MkContextSpec.

(** C1: circuits over the multi-key LWE gates. From the parameters of a new
    context, the keys that [MKBTKeyGen] makes, encryptions of bits, any
    straight-line program over [EvalBinGate] and the decryption of every wire
    compose to the program of NANDs on bits, whatever gates are asked for and
    however long the program is. Conditions: the secrets are binary, the ring
    keys invertible; the two wires of a gate are distinct; the noise [beta] of
    a gate and of an encryption leaves a quarter turn to the sum of two
    ciphertexts and an eighth of the modulus to decryption; and the ephemeral
    [r] of every accumulator key is a constant polynomial: the code multiplies
    [CRS[i]] by entry [i] of the transform of [r] instead of [r]
    (mk-acc-xzw.cpp:167), which only agree for such [r]. The generator of [r]
    has standard deviation 0.15 (mk-cryptoparameters.h:144): a coefficient is
    nonzero with probability about 4e-10, so that [r] is nearly always zero. *)
Theorem MK_circuits_correct (st : FTT) (Q psi : Z) (k : nat) (arb : FTT -> NativePoly -> res (FTT * NativePoly)) (ps : MKLWECryptoParams)
    (q g : Z) (G U nn base na : nat) (method : BINFHE_METHOD) (m_ sg ep rh E : Z)
    (f finv a : nat -> list Z) (ev : nat -> nat -> list Z) (t : nat -> nat -> Z)
    (inv : Z -> nat -> list Z -> option (list Z)) (candidates : nat -> list (list Z)) (e : nat -> nat -> NativeVector) (sample : nat -> nat -> nat -> KeySample)
    (gaussA : nat -> nat -> nat -> nat -> NativeVector) (err : nat -> nat -> nat -> nat -> Z)
    (ms : list Z) (errs : nat -> Z) (al : nat -> list NativeVector) (prog : list mk_instr) (beta : Z) :
  RingTransform st Q psi k -> digit_count (2 ^ g) Q = S G ->
  gate_setting ps (UniEncParams U (2 ^ k) Q q (2 ^ g) (S G) method (ring_par Q psi k) [] [] []) q Q q k g G U nn base ->
  gate_draws Q q k G U nn m_ sg ep rh E f finv a ev t inv candidates e sample gaussA err -> constant_ephemerals (q := Q) (k := k) U nn sample ->
  (forall i, (i < length ms)%nat -> 0 <= ms !!! i <= 1 /\ reduced q (errs i) /\ Z.abs (centred q (errs i)) <= beta /\
     length (al i) = U /\ forall u, (u < U)%nat -> wf_mask q nn (al i !!! u)) ->
  mk_gate_noise (Q := Q) (k := k) q g G U nn base sg ep rh E f <= beta -> mk_margin (k := k) q U nn t beta -> (Z.of_nat (U * nn) + 2) * q < 2 ^ 64 ->
  mk_prog_ok nand_bit (fun _ _ => True) prog ms ->
  let sk := masks U m_ nn (fun u i => t u i mod m_) in
  let draws := MKDraws (polys (q := Q) (psi := psi) (k := k) G a) candidates e sample in
  (u ← new_UniEncCryptoParams arb U (2 ^ k) Q q (2 ^ g) method na (ring_par Q psi k) st;
   c ← MKBTKeyGen_MKLWE arb inv (new_mk_context (MultiLWE ps u.2)) sk draws gaussA err u.1;
   cts ← tabulateM (length ms) (fun i => Encrypt_MKLWE c.2 sk (ms !!! i) 4 0 (errs i) (al i));
   r ← mk_run (EvalBinGate_MKLWE arb c.2) prog (c.1, cts);
   mapM (fun ct => Decrypt_MKLWE c.2 sk ct 4) r.2) = Ok (mk_values nand_bit prog ms).
Proof.
  intros HR Hd Hset0 Hdraws Hephemeral Hms Hnoise Hmar Hfit Hprog sk draws; subst draws; subst sk.
  destruct (gs_gadget Hset0) as (Hg & HgQ & _). destruct (gs_moduli Hset0) as (Eq & _). pose proof (gs_method Hset0) as Hmeth. cbn [u_method] in Hmeth.
  destruct (new_UniEnc_made (HR := HR) arb U q g G method na Hg HgQ Hd) as ([st' us] & -> & E1 & Hus & Ek & Em & _); [rewrite !elem_of_cons; tauto|].
  cbn [fst snd] in *. subst st'. rewrite bind_ok. cbn [fst snd].
  assert (gate_setting ps us q Q q k g G U nn base) as Hset by (eapply gate_setting_same; [| |exact Hset0]; done).
  assert (returns (MKBTKeyGen_MKLWE arb inv (new_mk_context (MultiLWE ps us)) (masks U m_ nn (fun u i => t u i mod m_)) (MKDraws (polys (q := Q) (psi := psi) (k := k) G a) candidates e sample) gaussA err st)
    (fun r => r.1 = st /\ mc_params r.2 = MultiLWE ps us /\ good_keys (Q := Q) (psi := psi) (k := k) q g G U nn base m_ ep rh f finv a ev t err (mc_MKBTKey r.2))) as Hkeys.
  { apply (MKBTKeyGen_first _ (MultiLWE ps us) us _ st eq_refl). unfold GetMKLWEParams. cbn [new_mk_context mc_params]. rewrite bind_ok.
    by apply (MKKeyGen_MKLWE_spec (HR := HR) arb ps us q q g G U nn base Hset Hus m_ sg ep rh E f finv a ev t inv candidates e sample gaussA err). }
  destruct Hkeys as ([st' c] & -> & E1 & Hps & Hbt). cbn [fst snd] in *. subst st'. rewrite bind_ok. cbn [fst snd].
  pose proof Hmar as (Hb0 & _ & Hb).
  destruct (tabulateM_related (mk_holds q U nn m_ t beta) (fun i => Encrypt_MKLWE c (masks U m_ nn (fun u i => t u i mod m_)) (ms !!! i) 4 0 (errs i) (al i)) ms) as (cts & -> & Hcts).
  { intros i Hi. destruct (Hms i Hi) as (Hm & Her & Hbe & Hl & Hal). unfold Encrypt_MKLWE, GetMKLWEParams. rewrite Hps, bind_ok, Eq. cbn [Z.eqb].
    by apply (fresh_holds (Q := Q) (k := k) ps us q g G U nn base Hset m_ sg ep rh E f finv a ev t inv candidates e sample gaussA err Hdraws); try lia. }
  rewrite bind_ok.
  destruct (mk_run_refines (EvalBinGate_MKLWE arb c) st nand_bit (fun _ _ => True) (mk_holds q U nn m_ t beta)) with (prog := prog) (m := ms) (w := cts) as ([st' w] & -> & _ & Hw).
  - intros b v1 v2 ct1 ct2 _. by apply (gate_holds (HR := HR) arb ps us q g G U nn base Hset Hus m_ sg ep rh E f finv a ev t inv candidates e sample gaussA err Hdraws c Hps Hbt beta Hnoise Hmar).
  - done.
  - done.
  - rewrite bind_ok. cbn [fst snd]. apply (mapM_related (mk_holds q U nn m_ t beta)); [|done].
    intros ct m. by apply (decrypt_holds (Q := Q) (k := k) ps us q g G U nn base Hset m_ sg ep rh E f finv a ev t inv candidates e sample gaussA err Hdraws c Hps beta Hmar).
Qed.

(** C2: circuits over the multi-key NTRU gates. From the parameters of a new
    context, its keys, the constant of [ctGateGen], encryptions of bits, any
    straight-line program and [Decrypt] of its results compose to the program
    on bits in which a gate on two encryptions is a NAND and a gate on two
    results an OR, whatever gates are asked for: results are lower by an eighth
    of the modulus. Conditions: the first columns of the secret matrices are
    ternary, the ring keys invertible; the two wires of a gate are distinct and
    both encryptions or both results; the noise [beta] of a gate, of an
    encryption and of the constant leaves a quarter turn to two ciphertexts and
    the constant, and an eighth of the modulus to decryption; and the ephemeral
    [r] of every accumulator key is a constant polynomial: the code multiplies
    [CRS[i]] by entry [i] of the transform of [r] instead of [r]
    (mk-acc-xzw.cpp:167). [r] is drawn with standard deviation 0.15 and is
    nearly always zero. *)
Theorem NTRU_circuits_correct (st : FTT) (Q psi : Z) (k : nat) (arb : FTT -> NativePoly -> res (FTT * NativePoly)) (ps : MNTRUCryptoParams)
    (q g : Z) (G U nn na : nat) (base sg ep rh E : Z)
    (f finv a : nat -> list Z) (ev : nat -> nat -> list Z) (inv : Z -> nat -> list Z -> option (list Z)) (candidates : nat -> list (list Z))
    (e : nat -> nat -> NativeVector) (sample : nat -> nat -> nat -> KeySample) (sk : MNTRUPrivateKey) (err : nat -> NativeVector)
    (ms : list Z) (ts : nat -> Z) (es : nat -> list NativeVector) (t0 : Z) (e0 : nat -> NativeVector) (prog : list mk_instr) (beta : Z) :
  RingTransform st Q psi k -> digit_count (2 ^ g) Q = S G ->
  ntru_setting ps (UniEncParams U (2 ^ k) Q q (2 ^ g) (S G) MKNTRU (ring_par Q psi k) [] [] []) q Q q k g G U nn base ->
  ntru_draws q Q q k G U nn sg ep rh E f finv a ev inv candidates e sample sk err -> constant_ephemerals (q := Q) (k := k) U nn sample ->
  (forall i, (i < length ms)%nat -> 0 <= ms !!! i <= 1 /\ length (es i) = U /\ (forall j, (j < U)%nat -> wf_mask q nn (es i !!! j)) /\
     ts i ≡[q] sumZ U (fun j => (es i !!! j).[0]) /\ Z.abs (ts i) <= beta) ->
  (forall j, (j < U)%nat -> wf_mask q nn (e0 j)) -> t0 ≡[q] sumZ U (fun j => (e0 j).[0]) -> Z.abs t0 <= beta ->
  ntru_gate_noise (Q := Q) (k := k) q g G U nn base sg ep rh E f <= beta -> ntru_margin (k := k) q U nn sk beta ->
  mk_prog_ok ntru_op same_kind prog (map (pair true) ms) ->
  let draws := MKDraws (polys (q := Q) (psi := psi) (k := k) G a) candidates e sample in
  (u ← new_UniEncCryptoParams arb U (2 ^ k) Q q (2 ^ g) MKNTRU na (ring_par Q psi k) st;
   c ← MKBTKeyGen_MNTRU arb inv (new_mk_context (MultiNTRU ps u.2)) sk draws err u.1;
   cc ← ctGateGen c.2 sk NAND e0;
   cts ← tabulateM (length ms) (fun i => Encrypt_MNTRU cc sk (ms !!! i) 4 0 (es i));
   r ← mk_run (EvalBinGate_MNTRU arb cc) prog (c.1, cts);
   mapM (fun ct => Decrypt_MNTRU cc sk ct 4) (drop (length ms) r.2)) = Ok (drop (length ms) (mk_values ntru_op prog (map (pair true) ms)).*2).
Proof.
  intros HR Hd Hset0 Hdraws Hephemeral Hms He0 T0 Ht0 Hnoise Hmar Hprog draws; subst draws.
  destruct (ns_gadget Hset0) as (Hg & HgQ & _). destruct (ns_moduli Hset0) as (Eq & _).
  destruct (new_UniEnc_made (HR := HR) arb U q g G MKNTRU na Hg HgQ Hd) as ([st' us] & -> & E1 & Hus & Ek & Em & _); [rewrite !elem_of_cons; tauto|].
  cbn [fst snd] in *. subst st'. rewrite bind_ok. cbn [fst snd].
  assert (ntru_setting ps us q Q q k g G U nn base) as Hset by (eapply ntru_setting_same; [| |exact Hset0]; done).
  assert (returns (MKBTKeyGen_MNTRU arb inv (new_mk_context (MultiNTRU ps us)) sk (MKDraws (polys (q := Q) (psi := psi) (k := k) G a) candidates e sample) err st)
    (fun r => r.1 = st /\ mc_params r.2 = MultiNTRU ps us /\ good_ntru_keys (Q := Q) (psi := psi) (k := k) q g G U nn base ep rh f finv a ev sk err (mc_MKBTKey r.2))) as Hkeys.
  { apply (MKBTKeyGen_first _ (MultiNTRU ps us) us _ st eq_refl). unfold GetMatrixNTRUParams. cbn [new_mk_context mc_params]. rewrite bind_ok.
    by apply (MKKeyGen_MNTRU_spec (HR := HR) arb ps us q q g G U nn base Hset Hus sg ep rh E f finv a ev inv candidates e sample sk err). }
  destruct Hkeys as ([st' c] & -> & E1 & Hps & Hbt). cbn [fst snd] in *. subst st'. rewrite bind_ok. cbn [fst snd].
  pose proof Hmar as (Hb0 & _ & Hb).
  assert (returns (ctGateGen c sk NAND e0) (fun cc => mc_params cc = MultiNTRU ps us /\ mc_MKBTKey cc = mc_MKBTKey c /\
    exists ct0, mc_ctNAND cc = Some ct0 /\ constant_holds q U nn sk beta ct0)) as Hgen.
  { unfold ctGateGen, GetMatrixNTRUParams. cbn [bool_decide negb]. rewrite bool_decide_eq_true_2 by done. cbn [negb]. rewrite Hps, bind_ok.
    eapply returns_bind; [apply (ctGateGen_spec (Q := Q) (k := k) ps us q q g G U nn base Hset sg ep rh E f finv a ev inv candidates e sample sk err Hdraws e0 He0)|].
    intros ct (H1 & H2 & H3). apply returns_ok. cbn [mc_params mc_MKBTKey mc_ctNAND]. split; [done|]. split; [done|]. exists ct. split; [done|]. split; [done|]. split; [done|].
    exists t0. split; [done|]. by rewrite T0. }
  destruct Hgen as (cc & -> & Hps' & Ebt & ct0 & Hct0 & Hconst). rewrite bind_ok. rewrite <- Ebt in Hbt.
  destruct (tabulateM_related (fun m => ntru_holds q U nn sk beta (true, m)) (fun i => Encrypt_MNTRU cc sk (ms !!! i) 4 0 (es i)) ms) as (cts & -> & Hcts).
  { intros i Hi. destruct (Hms i Hi) as (Hm & Hl & Hel & Hx & Hbe). unfold Encrypt_MNTRU, GetMatrixNTRUParams. rewrite Hps', bind_ok, Eq. cbn [Z.eqb].
    apply (ntru_fresh_holds (Q := Q) (k := k) ps us q g G U nn base Hset sg ep rh E f finv a ev inv candidates e sample sk err Hdraws beta _ (ts i)); (done || lia). }
  rewrite bind_ok.
  destruct (mk_run_refines (EvalBinGate_MNTRU arb cc) st ntru_op same_kind (ntru_holds q U nn sk beta)) with (prog := prog) (m := map (pair true) ms) (w := cts) as ([st' w] & -> & _ & Hw).
  - intros b v1 v2 ct1 ct2. by apply (ntru_gate_holds (HR := HR) arb ps us q g G U nn base Hset Hus sg ep rh E f finv a ev inv candidates e sample sk err Hdraws cc Hps' Hbt beta Hnoise Hmar ct0).
  - done.
  - by apply Forall2_fmap_l.
  - rewrite bind_ok. cbn [fst snd]. apply (mapM_related (fun m => ntru_holds q U nn sk beta (false, m))).
    + intros ct m. by apply (ntru_decrypt_holds (Q := Q) (k := k) ps us q g G U nn base Hset sg ep rh E f finv a ev inv candidates e sample sk err Hdraws cc beta Hmar).
    + rewrite <- (length_map (pair true) ms), <- fmap_drop, Forall2_fmap_l. apply results_hold. done.
Qed.

(** A small setting: two users with one key entry each, dimension 16 and the
    ring modulus 1014721, of which 705228 is a primitive 32-nd root; a program
    of two gates on encryptions and one on their results. *)
Lemma ring1014721 : exists st, RingTransform st 1014721 705228 4.
Proof.
  by apply ring_transform_check.
Qed.

Definition circ_one : list Z := rterm 1014721 16 1 0.
Definition circ_inv (q : Z) (n : nat) (p : list Z) : option (list Z) := if decide (p = circ_one) then Some circ_one else None.
Definition circ_crs (i : nat) : list Z := map (fun j => Z.of_nat (i + j)) (seq 0 16).
Definition circ_sample (u s i : nat) : KeySample := KSample (NVec 1014721 (rterm 1014721 16 0 0)) (fun _ => (NVec 1014721 circ_one, NVec 1014721 circ_one)).
Definition circ_draws : MKKeyDraws :=
  MKDraws (polys (q := 1014721) (psi := 705228) (k := 4) 3 circ_crs) (fun _ => [repeat 0 16; circ_one]) (fun _ _ => NVec 1014721 circ_one) circ_sample.
Definition circ_prog : list mk_instr := [MkI NAND 0 1; MkI NAND 1 2; MkI AND 3 4].

Lemma wf1014721 l : length l = 16%nat -> bool_decide (Forall (reduced 1014721) l) = true -> wf_data (q := 1014721) 4 l.
Proof. intros H1 H2. split; [done|]. by apply bool_decide_eq_true in H2. Qed.

Lemma circ_ring : ring_draws 1014721 4 3 2 1 1 1 0 (fun _ => circ_one) (fun _ => circ_one) circ_crs (fun _ _ => circ_one)
  (fun _ _ => NVec 1014721 circ_one) circ_sample.
Proof.
  assert (wf_data (q := 1014721) 4 circ_one /\ l1_le 1014721 16 1 circ_one) as [H1 H2] by (split; [by apply wf1014721|apply (l1_rterm 1014721 16 1 0); lia]).
  split; try done; try lia.
  - intros i Hi. assert (i = 0 \/ i = 1 \/ i = 2)%nat as [-> | [-> | ->]] by lia; by apply wf1014721.
  - intros. exists (rterm 1014721 16 0 0), (fun _ => circ_one), (fun _ => circ_one). split; [|split; [apply (l1_rterm 1014721 16 0 0); lia|by intros]].
    split; [done|]. split; [by apply wf1014721|]. done.
Qed.

Lemma circ_constant : constant_ephemerals (q := 1014721) (k := 4) 2 1 circ_sample.
Proof. intros u s i _ _. by exists 0. Qed.

Definition circ_ps : MKLWECryptoParams := MKLWEParams 2 1 16 4096 1014721 4096 32.

Lemma circ_setting : gate_setting circ_ps (UniEncParams 2 (2 ^ 4) 1014721 4096 (2 ^ 5) 4 MKNTRU_LWE (ring_par 1014721 705228 4) [] [] []) 4096 1014721 4096 4 5 3 2 1 32.
Proof.
  assert (NativeModulus W 4096) as H1 by (apply native_modulus_bits; unfold W; lia).
  split; repeat match goal with |- _ /\ _ => split end; first [done | cbn; lia | by right].
Qed.

Lemma circ_gate_draws : gate_draws 1014721 4096 4 3 2 1 512 1 1 0 1 (fun _ => circ_one) (fun _ => circ_one) circ_crs (fun _ _ => circ_one) small_bit
  circ_inv (fun _ => [repeat 0 16; circ_one]) (fun _ _ => NVec 1014721 circ_one) circ_sample (fun _ _ _ _ => NVec 4096 [5]) (fun _ _ _ _ => 1).
Proof.
  split; try done; try lia.
  - exact circ_ring.
  - split; [apply native_modulus_bits; unfold W; lia|]. intros u i _ _. unfold small_bit. destruct (decide _); lia.
  - intros. by apply mask_ok_spec.
Qed.

Lemma MK_circuits_correct_witness : exists st, RingTransform st 1014721 705228 4 /\
  (u ← new_UniEncCryptoParams (fun s p => Ok (s, p)) 2 (2 ^ 4) 1014721 4096 (2 ^ 5) MKNTRU_LWE 10 (ring_par 1014721 705228 4) st;
   c ← MKBTKeyGen_MKLWE (fun s p => Ok (s, p)) circ_inv (new_mk_context (MultiLWE circ_ps u.2)) (masks 2 512 1 (fun u i => small_bit u i mod 512)) circ_draws
         (fun _ _ _ _ => NVec 4096 [5]) (fun _ _ _ _ => 1) u.1;
   cts ← tabulateM 3 (fun i => Encrypt_MKLWE c.2 (masks 2 512 1 (fun u i => small_bit u i mod 512)) (([1; 0; 1] : list Z) !!! i) 4 0 7 [NVec 4096 [100]; NVec 4096 [4095]]);
   r ← mk_run (EvalBinGate_MKLWE (fun s p => Ok (s, p)) c.2) circ_prog (c.1, cts);
   mapM (fun ct => Decrypt_MKLWE c.2 (masks 2 512 1 (fun u i => small_bit u i mod 512)) ct 4) r.2) = Ok [1; 0; 1; 1; 1; 0].
Proof.
  destruct ring1014721 as [st HR]. exists st. split; [exact HR|].
  refine (MK_circuits_correct st 1014721 705228 4 (fun s p => Ok (s, p)) circ_ps 4096 5 3 2 1 32 10 MKNTRU_LWE 512 1 1 0 1 (fun _ => circ_one) (fun _ => circ_one) circ_crs (fun _ _ => circ_one) small_bit
    circ_inv (fun _ => [repeat 0 16; circ_one]) (fun _ _ => NVec 1014721 circ_one) circ_sample (fun _ _ _ _ => NVec 4096 [5]) (fun _ _ _ _ => 1)
    [1; 0; 1] (fun _ => 7) (fun _ => [NVec 4096 [100]; NVec 4096 [4095]]) circ_prog 120 HR _ circ_setting circ_gate_draws circ_constant _ _ _ _ _).
  - done.
  - intros i Hi. split; [destruct i as [|[|[|i]]]; cbn in *; lia|]. split; [unfold reduced; lia|]. split; [done|]. split; [done|].
    intros u Hu. destruct u as [|[|u]]; [| |lia]; by apply mask_ok_spec.
  - vm_compute. discriminate.
  - split; [lia|]. split; vm_compute; reflexivity.
  - done.
  - cbn. split_and!; (lia || done).
Defined.

Definition circ_nps : MNTRUCryptoParams := MNTRUParams 2 1 16 262144 1014721 262144 2.
Definition circ_sk : MNTRUPrivateKey := MNTRUSk [[NVec 262144 [1]]; [NVec 262144 [262143]]] [[NVec 262144 [1]]; [NVec 262144 [262143]]].

Lemma circ_ntru_setting : ntru_setting circ_nps (UniEncParams 2 (2 ^ 4) 1014721 262144 (2 ^ 5) 4 MKNTRU (ring_par 1014721 705228 4) [] [] []) 262144 1014721 262144 4 5 3 2 1 2.
Proof.
  assert (NativeModulus W 262144) as H1 by (apply native_modulus_bits; unfold W; lia).
  split; repeat match goal with |- _ /\ _ => split end; first [done | (cbn; lia)].
Qed.

Lemma circ_ntru_draws : ntru_draws 262144 1014721 262144 4 3 2 1 1 1 0 1 (fun _ => circ_one) (fun _ => circ_one) circ_crs (fun _ _ => circ_one)
  circ_inv (fun _ => [repeat 0 16; circ_one]) (fun _ _ => NVec 1014721 circ_one) circ_sample circ_sk (fun _ => NVec 262144 [262143]).
Proof.
  split.
  - exact circ_ring.
  - intros. vm_compute. reflexivity.
  - split; apply nkey_ok_spec; done.
  - intros u i Hu Hi. assert (i = 0%nat) as -> by lia. assert (u = 0 \/ u = 1)%nat as [-> | ->] by lia; vm_compute; split; discriminate.
  - intros u. split; [by apply mask_ok_spec|vm_compute; discriminate].
Qed.

Lemma NTRU_circuits_correct_witness : exists st, RingTransform st 1014721 705228 4 /\
  (u ← new_UniEncCryptoParams (fun s p => Ok (s, p)) 2 (2 ^ 4) 1014721 262144 (2 ^ 5) MKNTRU 10 (ring_par 1014721 705228 4) st;
   c ← MKBTKeyGen_MNTRU (fun s p => Ok (s, p)) circ_inv (new_mk_context (MultiNTRU circ_nps u.2)) circ_sk circ_draws (fun _ => NVec 262144 [262143]) u.1;
   cc ← ctGateGen c.2 circ_sk NAND (fun _ => NVec 262144 [1]);
   cts ← tabulateM 3 (fun i => Encrypt_MNTRU cc circ_sk (([1; 0; 1] : list Z) !!! i) 4 0 [NVec 262144 [5]; NVec 262144 [262142]]);
   r ← mk_run (EvalBinGate_MNTRU (fun s p => Ok (s, p)) cc) circ_prog (c.1, cts);
   mapM (fun ct => Decrypt_MNTRU cc circ_sk ct 4) (drop 3 r.2)) = Ok [1; 1; 1].
Proof.
  destruct ring1014721 as [st HR]. exists st. split; [exact HR|].
  refine (NTRU_circuits_correct st 1014721 705228 4 (fun s p => Ok (s, p)) circ_nps 262144 5 3 2 1 10 2 1 1 0 1 (fun _ => circ_one) (fun _ => circ_one) circ_crs (fun _ _ => circ_one)
    circ_inv (fun _ => [repeat 0 16; circ_one]) (fun _ _ => NVec 1014721 circ_one) circ_sample circ_sk (fun _ => NVec 262144 [262143])
    [1; 0; 1] (fun _ => 3) (fun _ => [NVec 262144 [5]; NVec 262144 [262142]]) 2 (fun _ => NVec 262144 [1]) circ_prog 1600 HR _ circ_ntru_setting circ_ntru_draws circ_constant _ _ _ _ _ _ _).
  - done.
  - intros i Hi. split; [destruct i as [|[|[|i]]]; cbn in *; lia|]. split; [done|]. split; [|split; [done|done]].
    intros u Hu. destruct u as [|[|u]]; [| |lia]; by apply mask_ok_spec.
  - intros u _. by apply mask_ok_spec.
  - done.
  - done.
  - vm_compute. discriminate.
  - split; [lia|]. split; vm_compute; reflexivity.
  - cbn. unfold same_kind. cbn. split_and!; (lia || done).
Defined.
