(* ===== verification/VntruGate.v ===== *)
(** * The gates of the vector NTRU scheme

    Models the part of [src/binfhe/lib/binfhe-base-scheme.cpp] that uses the
    vector NTRU accumulator: the bootstrapping keys ([NKeyGen]), the blind
    rotation of a gate and [EvalBinGate]; and the keys of a context
    ([NBTKeyGen] and its neighbours of [binfhecontext.cpp]).  The accumulator of a scheme
    is a pointer that no constructor sets: it is an argument, [None] for the
    null pointer.  The inversion of the NTL library and the drawn values are
    arguments. *)

From Stdlib Require Import ZArith Lia String.
From stdpp Require Import base tactics numbers list strings gmap.
From S2P Require Import Prelude Double NativeInt NativeIntFacts ModArith NativeVec SchemeCore Negacyclic BitReverse Ntt Poly Gadget AccCore RgswAcc Lwe Gates MkGate Context VntruAcc.

Record VectorNTRUBTKey := NBTKey { n_BSkey : option VectorNTRUACCKey; n_KSkey : option LWESwitchingKey; n_Pkey : option LWEPublicKey }.
Definition no_NBTKey : VectorNTRUBTKey := NBTKey None None None.

Section Gates.
Context (arb : FTT -> NativePoly -> res (FTT * NativePoly)) (inv : Z -> nat -> list Z -> option (list Z)) (NACCscheme : option VectorNTRUAccumulator).

(** A call through the pointer. *)
Definition with_accumulator {A} (call : VectorNTRUAccumulator -> res A) : res A :=
  match NACCscheme with None => Throw undefined_behaviour | Some acc => call acc end.

(** ** Keys

    The key generation mode is not used: no public key is made. *)
Definition NKeyGen (lwe : LWECryptoParams) (ps : VectorNTRUCryptoParams) (LWEsk : NativeVector) (candidates : list (list Z))
    (gaussA : nat -> nat -> nat -> NativeVector) (err : nat -> nat -> nat -> Z) (kerr : nat -> nat -> nat -> NativeVector) (st : FTT) : res (FTT * VectorNTRUBTKey) :=
  let Q := ConvertToInt 32 (r_Q ps) in
  v ← Get_invertible_NativeVector inv Q Q (r_N ps) candidates;
  ks ← KeySwitchGen lwe LWEsk v.1 gaussA err;
  p ← SetValues (new_poly (r_polyParams ps) EVALUATION false) v.1 COEFFICIENT;
  pinv ← SetValues (new_poly (r_polyParams ps) EVALUATION false) v.2 COEFFICIENT;
  a ← SetFormat arb st p EVALUATION;
  b ← SetFormat arb a.1 pinv EVALUATION;
  bk ← with_accumulator (fun acc => v_KeyGenAcc acc ps a.2 b.2 LWEsk kerr b.1);
  Ok (bk.1, NBTKey (Some bk.2) (Some ks) None).

(** ** The blind rotation of a gate

    The gate itself is not used. *)
Definition BootstrapGateCore_VNTRU (lwe : LWECryptoParams) (ps : VectorNTRUCryptoParams) (gate : BINGATE) (ek : option VectorNTRUACCKey) (ct : LWECiphertext)
    (st : FTT) : res (FTT * NTRUCiphertext) :=
  match ek with
  | None => no_BTKeys
  | Some ek =>
    let q := GetModulus ct in
    let Q := m_Q lwe in
    q2p ← Q2p Q (ct_p ct);
    let Q2pNeg := Sub W Q q2p in
    let N := m_N lwe in
    factor ← udiv ((2 * Z.of_nat N) mod 2 ^ 32) q;
    d ← Mul W 2 (Z.of_nat N); d ← DividedBy d q; b ← Mul W (ct_b ct) d;
    let m := map (fun j => if (j <? N / 2)%nat then q2p else Q2pNeg) (seq 0 N) in
    new_m ← rotated_test N Q b m;
    azero ← vget (data (ct_a ct)) 0;
    invw ← mask_inverse N (((factor mod 2 ^ 32) * azero + 1) mod 2 ^ 32);
    polym ← SetValues (new_poly (r_polyParams ps) EVALUATION false) (NVec Q new_m) COEFFICIENT;
    polym ← SetFormat arb st polym EVALUATION;
    polym2 ← AutomorphismTransform polym.2 invw;
    with_accumulator (fun acc => v_EvalAcc acc ps ek polym2 (ct_a ct) polym.1)
  end.

(** ** Gates *)

(** The constant [5 q / 8]. *)
Definition gate_constant (lwe : LWECryptoParams) : res LWECiphertext :=
  let q := ConvertToInt 32 (m_q lwe) in
  zero ← NativeVec.SetModulus W (NVec 0 (repeat 0 (m_n lwe))) q;
  b ← NativeInt.Mod ((5 * q) mod 2 ^ 32 / 8) q;
  Ok (new_LWECiphertext zero b).

(** The result of the fast gates, [ctprep], is not used. *)
Definition simple_gate_VNTRU (lwe : LWECryptoParams) (ps : VectorNTRUCryptoParams) (gate : BINGATE) (EK : VectorNTRUBTKey) (ct1 ct2 : LWECiphertext) (st : FTT) :
    res (FTT * LWECiphertext) :=
  let ctprep := copy_LWECiphertext ct1 in
  ct_temp ← gate_constant lwe;
  ct_temp ← (if bool_decide (gate = XOR_FAST) || bool_decide (gate = XNOR_FAST)
             then ctprep ← EvalSubEq ctprep ct2; ctprep ← EvalAddEq ctprep ctprep; Ok ct_temp
             else ctprep ← EvalAddEq ctprep ct2; EvalSubEq ct_temp ctprep);
  acc ← BootstrapGateCore_VNTRU lwe ps gate (n_BSkey EK) ct_temp st;
  a ← Transpose acc.2;
  a ← SetFormat arb acc.1 a COEFFICIENT;
  b ← Add W (Z.shiftr (m_Q lwe) 3) 1;
  v ← GetValues a.2;
  ctMS ← ModSwitch (m_qKS lwe) (new_LWECiphertext v b);
  match n_KSkey EK with
  | None => Throw undefined_behaviour
  | Some K => ctKS ← KeySwitch lwe K ctMS; ct ← ModSwitch (GetModulus ct1) ctKS; Ok (a.1, ct)
  end.

(** [same]: the two arguments are one object. *)
Definition EvalBinGate_VNTRU (lwe : LWECryptoParams) (ps : VectorNTRUCryptoParams) (gate : BINGATE) (EK : VectorNTRUBTKey) (same : bool) (ct1 ct2 : LWECiphertext)
    (st : FTT) : res (FTT * LWECiphertext) :=
  if same then Throw (config_error "Input ciphertexts should be independant") else
  if bool_decide (gate = XOR) || bool_decide (gate = XNOR) then
    ctAND1 ← simple_gate_VNTRU lwe ps AND EK ct1 (EvalNOT ct2) st;
    ctAND2 ← simple_gate_VNTRU lwe ps AND EK (EvalNOT ct1) ct2 ctAND1.1;
    ctOR ← simple_gate_VNTRU lwe ps OR EK ctAND1.2 ctAND2.2 ctAND2.1;
    Ok (ctOR.1, if bool_decide (gate = XOR) then ctOR.2 else EvalNOT ctOR.2)
  else simple_gate_VNTRU lwe ps gate EK ct1 ct2 st.

(** ** The keys of a context *)
Record NTRUContext := NCtx {
  nc_lwe : LWECryptoParams; nc_vntru : VectorNTRUCryptoParams; nc_NBTKey : VectorNTRUBTKey; nc_NBTKey_map : gmap Z VectorNTRUBTKey; nc_timeOptimization : bool
}.

(** What one generation of keys draws. *)
Record NKeyDraws := NDraws {
  nd_candidates : list (list Z); nd_gaussA : nat -> nat -> nat -> NativeVector; nd_err : nat -> nat -> nat -> Z; nd_kerr : nat -> nat -> nat -> NativeVector
}.
Definition NKeyGen_ (lwe : LWECryptoParams) (ps : VectorNTRUCryptoParams) (sk : NativeVector) (d : NKeyDraws) (st : FTT) : res (FTT * VectorNTRUBTKey) :=
  NKeyGen lwe ps sk (nd_candidates d) (nd_gaussA d) (nd_err d) (nd_kerr d) st.

Fixpoint N_keys_for_bases (bases : list Z) (lwe : LWECryptoParams) (ps : VectorNTRUCryptoParams) (sk : NativeVector) (draws : Z -> NKeyDraws)
    (m : gmap Z VectorNTRUBTKey) (st : FTT) : res (FTT * (VectorNTRUCryptoParams * gmap Z VectorNTRUBTKey)) :=
  match bases with
  | [] => Ok (st, (ps, m))
  | b :: bases' =>
    let ps := VNTRU_Change_BaseG ps b in
    k ← NKeyGen_ lwe ps sk (draws b) st;
    N_keys_for_bases bases' lwe ps sk draws (<[b := k.2]> m) k.1
  end.

(** [draws 0] is for the key of the current base. *)
Definition NBTKeyGen (c : NTRUContext) (sk : NativeVector) (draws : Z -> NKeyDraws) (st : FTT) : res (FTT * NTRUContext) :=
  let temp := r_baseG (nc_vntru c) in
  x ← (if nc_timeOptimization c
       then y ← N_keys_for_bases (map_bases (r_Gpower_map (nc_vntru c))) (nc_lwe c) (nc_vntru c) sk draws (nc_NBTKey_map c) st;
            Ok (y.1, (VNTRU_Change_BaseG y.2.1 temp, y.2.2))
       else Ok (st, (nc_vntru c, nc_NBTKey_map c)));
  if negb (size x.2.2 =? 0)%nat
  then let k := default no_NBTKey (x.2.2 !! temp) in Ok (x.1, NCtx (nc_lwe c) x.2.1 k (<[temp := k]> x.2.2) (nc_timeOptimization c))
  else k ← NKeyGen_ (nc_lwe c) x.2.1 sk (draws 0) x.1; Ok (k.1, NCtx (nc_lwe c) x.2.1 k.2 (<[temp := k.2]> x.2.2) (nc_timeOptimization c)).

Definition NBTKeyLoad (c : NTRUContext) (key : VectorNTRUBTKey) : NTRUContext := NCtx (nc_lwe c) (nc_vntru c) key (nc_NBTKey_map c) (nc_timeOptimization c).
Definition NBTKeyMapLoadSingleElement (c : NTRUContext) (baseG : Z) (key : VectorNTRUBTKey) : NTRUContext :=
  NCtx (nc_lwe c) (nc_vntru c) (nc_NBTKey c) (<[baseG := key]> (nc_NBTKey_map c)) (nc_timeOptimization c).
Definition N_ClearBTKeys (c : NTRUContext) : NTRUContext := NCtx (nc_lwe c) (nc_vntru c) no_NBTKey ∅ (nc_timeOptimization c).

(** A context with vector NTRU parameters evaluates its gates with them. *)
Definition NC_EvalBinGate (c : NTRUContext) (gate : BINGATE) (same : bool) (ct1 ct2 : LWECiphertext) (st : FTT) : res (FTT * LWECiphertext) :=
  EvalBinGate_VNTRU (nc_lwe c) (nc_vntru c) gate (nc_NBTKey c) same ct1 ct2 st.
End Gates.
