(* ===== verification/VntruGateSpec.v ===== *)
(** * The gates of the vector NTRU scheme, from phases to phases

    With an accumulator that rotates ([NtruRotation]) and a valid switching key,
    every gate that takes one bootstrapping maps ciphertexts of bits to a
    ciphertext of a bit with a noise that does not depend on the inputs: of NAND, except the two
    fast gates, which give 1.  XOR and XNOR are composed of three of them. *)

From Stdlib Require Import ZArith Lia String.
From stdpp Require Import base tactics numbers list strings gmap.
From S2P Require Import Prelude Double NativeInt NativeIntFacts ModArith NativeVec SchemeCore Negacyclic BitReverse Ntt NttFacts NttSpec NttRing Poly PolyFacts Automorphism Gadget RingNoise RingCoefficients AccCore AccCoreFacts RgswAcc RgswFacts RgswRotation Lwe Gates GatesFacts GatesSpec GatesEval GatesKeys MkGate MkGateFacts MkGateSpec Context VntruAcc VntruFacts VntruRotation VntruGate.

(** The bit that a gate computes. *)
Definition ngate_fun (gate : BINGATE) (x y : Z) : Z :=
  match gate with
  | XOR => gate_fun XOR x y
  | XNOR => gate_fun XNOR x y
  | XOR_FAST | XNOR_FAST => 1
  | _ => gate_fun NAND x y
  end.

Lemma ngate_bit gate x y : is_bit x -> is_bit y -> is_bit (ngate_fun gate x y).
Proof. unfold is_bit. intros [-> | ->] [-> | ->]; destruct gate; cbn; lia. Qed.

Section Gate.
Context {st : FTT} {Q psi : Z} {k : nat} {HR : RingTransform st Q psi k} (arb : FTT -> NativePoly -> res (FTT * NativePoly)).
Context (acc : VectorNTRUAccumulator) (lwe : LWECryptoParams) (ps : VectorNTRUCryptoParams) (Hpp : r_polyParams ps = ring_par Q psi k).
Abbreviation n := (2 ^ k)%nat.
Abbreviation q := (Z.of_nat n).
Context (qKS : Z) (base : nat) (t : list Z) (Hset : bt_setting lwe q Q qKS k (length t) base) (Hnn : (0 < length t)%nat).
Context (f : list Z) (Hf : wf_data (q := Q) k f) (bound beta : Z).
Abbreviation nn := (length t).
Abbreviation wf := (wf_data (q := Q) k).
Abbreviation of_ := (poly_of Q psi k).
Abbreviation fN := (map (centred Q) f).
Abbreviation noise := (boot_noise (Q := Q) q qKS base t f bound beta).
Abbreviation test_ := (test_poly (q := Q) (k := k) (Q / 8 + 1)).

#[local] Instance vntru_gate_modulus : NativeModulus W Q.
Proof using HR. exact rt_modulus. Qed.

(** The interface between the generation of the keys and the gates. *)
Definition good_nbt (EK : VectorNTRUBTKey) : Prop :=
  (exists ek, n_BSkey EK = Some ek /\ NtruRotation (HR := HR) f (v_EvalAcc acc ps ek) nn (fun i => t !!! i) bound) /\
  good_ksk qKS base t fN beta (GSWBTKey None (n_KSkey EK) None).

(** ** The blind rotation *)
Lemma BootstrapGateCore_VNTRU_spec gate ek ct : NtruRotation (HR := HR) f (v_EvalAcc acc ps ek) nn (fun i => t !!! i) bound -> wf_ct q nn ct -> ct_p ct = 4 ->
  returns (BootstrapGateCore_VNTRU arb (Some acc) lwe ps gate (Some ek) ct st) (fun r => r.1 = st /\
    ntru_state (q := Q) (psi := psi) (k := k) f test_ (2 * phase t ct) bound r.2).
Proof using All.
  intros Hrot [(Em & La & Fa) Hb] Hp. destruct (bs_dims Hset) as [En EN]. destruct (bs_moduli Hset) as [EQ _]. pose proof (dim_bound (HR := HR)) as Hn. pose proof (nm_bounds (w := W) (m := Q)) as HQb.
  destruct (Q2p_ok (HR := HR) lwe q qKS base t Hset 4 ltac:(lia)) as (E2p & Hx & _). change (2 * 4) with 8 in *. destruct (test_poly_wf (HR := HR) (Q / 8 + 1) Hx) as [Wt Ht0].
  unfold reduced in Hb. unfold BootstrapGateCore_VNTRU. unfold GetModulus. rewrite Em, EQ, EN, Hp, E2p, bind_ok. unfold udiv. rewrite (proj2 (Z.eqb_neq q 0)), (Z.mod_small (2 * q)), bind_ok, Z.div_mul by lia.
  unfold Mul, MulFast. cbn [NATIVEINT_DO_CHECKS]. rewrite bind_ok, (wrap_small W (q * 2)) by (change (2 ^ W) with (2 ^ 64); lia).
  unfold DividedBy. rewrite (proj2 (Z.eqb_neq q 0)), bind_ok, (Z.mul_comm q 2), Z.div_mul, bind_ok, wrap_small by (change (2 ^ W) with (2 ^ 64); lia).
  change (map _ (seq 0 n)) with test_. rewrite (rotated_test_spec (HR := HR)), bind_ok by (done || lia). set (v := rmul Q n (mono Q n (2 * ct_b ct)) test_). assert (wf v) as Wv by apply rmul_wf.
  rewrite vget_total, bind_ok by lia. pose proof (reduced_at q (ct_a ct) 0 Fa ltac:(lia)) as H0. unfold reduced in H0. set (a0 := (ct_a ct).[0]) in *.
  rewrite (Z.mod_small 2), (Z.mod_small (2 * a0 + 1)) by lia. destruct (order_word (HR := HR)) as (j & Ej & Hj & Hn0 & HM).
  eapply returns_bind; [apply mask_inverse_spec; [done|by exists j|lia|by rewrite Z.add_comm, Z.odd_add_mul_2]|]. intros u [Hu Eu].
  rewrite Hpp, (proj2 (SetValues_of (HR := HR) (new_poly (ring_par Q psi k) EVALUATION false) COEFFICIENT v COEFFICIENT eq_refl Wv) eq_refl), bind_ok.
  rewrite (SetFormat_of (HR := HR)), bind_ok by done. cbn [fst snd].
  destruct (odd_inverse a0 u q (proj1 Hu) Eu) as [Ho Hu0].
  rewrite (Automorphism_evaluation (HR := HR)), bind_ok by (done || lia). cbn [with_accumulator].
  assert (ct_a ct = NVec q (map (fun i => (ct_a ct).[i]) (seq 0 nn))) as ->.
  { destruct (ct_a ct) as [m l]. cbn [modulus data] in *. subst m. f_equal. apply list_total_ext; [by rewrite length_tab|]. intros i Hi. rewrite lookup_total_tab by lia. done. }
  eapply returns_mono; [apply (nr_rotates v (fun i => (ct_a ct).[i]) u Wv); [intros i Hi; apply (reduced_at q (ct_a ct) i Fa); lia|done|done]|].
  intros r [E1 (c & E2 & Wc & Hc)]. split; [done|]. exists c. split; [done|]. split; [done|].
  assert (rotated (q := Q) (k := k) test_ (2 * ct_b ct) 0 v) as H1. { exists (rzero n). split; [apply rzero_wf|]. split; [apply inf_rzero|]. unfold v. by rewrite (radd_0_r (HR := HR)). }
  replace (2 * phase t ct) with (2 * ct_b ct + - (2 * sumZ nn (fun i => (ct_a ct).[i] * t !!! i))) by (unfold phase; ring).
  replace bound with (0 + bound) by ring. by apply (rotated_compose (HR := HR) test_ (2 * ct_b ct) 0 _ bound v).
Qed.

(** ** The decision and the way back *)
Lemma nbound_nonneg EK : good_nbt EK -> 0 <= bound.
Proof using Type. clear. intros [(ek & _ & Hrot) _]. apply nr_bound. Qed.

Lemma VNTRU_extract z x c : 0 <= x <= 1 -> wf c -> rmul Q n f c !!! 0%nat ≡[Q] (1 - 2 * x) * (Q / 8 + 1) + z ->
  let ext := new_LWECiphertext (NVec Q (raut Q n (2 * Z.of_nat n - 1) c)) (Q / 8 + 1) in
  wf_ct Q n ext /\ phase fN ext ≡[Q] x * (2 * (Q / (2 * 4) + 1)) - z.
Proof using HR Hset Hf.
  clear Hnn. intros Hx Hc Ez ext. destruct (Q2p_ok (HR := HR) lwe q qKS base t Hset 4 ltac:(lia)) as (_ & Hx8 & _). change (2 * 4) with 8 in *. split.
  - split; [split; [done|by apply raut_wf]|]. unfold reduced. cbn [ct_b ext new_LWECiphertext]. lia.
  - unfold phase. cbn [ext new_LWECiphertext ct_a ct_b data]. destruct Hf as [Lf Ff]. rewrite length_map, Lf.
    assert (sumZ n (fun i => raut Q n (2 * Z.of_nat n - 1) c !!! i * fN !!! i) ≡[Q] rmul Q n f c !!! 0%nat) as ->.
    { rewrite <- (transpose_dot (HR := HR)) by done. apply sumZ_eqm. intros i Hi. rewrite lookup_total_map by lia. by rewrite centred_eqm. }
    rewrite Ez. apply eqm_refl. ring.
Qed.

(** The constant coefficient of an accumulator. *)
Lemma accumulator_constant T (b : Z) a : ntru_state (q := Q) (psi := psi) (k := k) f test_ T b a ->
  exists c z, a = of_ EVALUATION c /\ wf c /\ Z.abs z <= b /\
    rmul Q n f c !!! 0%nat ≡[Q] (1 - 2 * (if half_turn (k := k) (T mod (2 * q)) then 1 else 0)) * (Q / 8 + 1) + z.
Proof using HR Hset.
  clear Hnn. intros (c & -> & Hc & w & Hw & Bw & Eph). pose proof (dim_bound (HR := HR)) as Hn. destruct (Q2p_ok (HR := HR) lwe q qKS base t Hset 4 ltac:(lia)) as (_ & Hx & _). change (2 * 4) with 8 in *.
  destruct (Bw 0%nat ltac:(lia)) as (z & Ez & Hz). exists c, z. split; [done|]. split; [done|]. split; [done|]. rewrite Eph.
  pose proof (rmul_wf k (mono Q n T) test_) as Hw2. unfold radd. rewrite vec_op_lookup by (destruct Hw, Hw2; lia). rewrite eqm_mod, Ez.
  pose proof (Z.mod_pos_bound T (2 * q) ltac:(lia)). rewrite (mono_periodic (q := Q) (k := k) T (T mod (2 * q))) by (by rewrite Z.mod_mod by lia).
  rewrite (test_constant (HR := HR)) by (lia || apply (rt_dim (RingTransform := HR))). destruct (half_turn _); apply eqm_refl; ring.
Qed.

Lemma switch_back_VNTRU EK ext : good_ksk qKS base t fN beta (GSWBTKey None (n_KSkey EK) None) -> wf_ct Q n ext ->
  exists K ms ks ct', n_KSkey EK = Some K /\ ModSwitch (m_qKS lwe) ext = Ok ms /\ KeySwitch lwe K ms = Ok ks /\ ModSwitch q ks = Ok ct' /\
    wf_ct q nn ct' /\ ct_p ct' = 4 /\ exists c, 2 * Z.abs (Q * qKS * (phase t ct' + c * q) - q * qKS * phase fN ext) <= back_noise Q qKS q base t fN beta.
Proof using HR Hset Hf.
  clear Hnn. intros HK Hext. pose proof (dim_bound (HR := HR)) as Hn. destruct (bs_native Hset) as (_ & HqKS & _). pose proof (nm_bounds (w := W) (m := Q)) as HQb.
  destruct (bs_dims Hset) as [En EN]. destruct (bs_moduli Hset) as (_ & EqKS). destruct (bs_base Hset) as [Eb Hb]. destruct (bs_fit Hset) as [F1 F2].
  assert (length fN = n) as LfN by (rewrite length_map; apply Hf). pose proof HK as (K & e & EqK & _). cbn [g_KSkey] in EqK.
  destruct (switch_back_to lwe _ Q qKS base t fN beta q ext HqKS ltac:(lia) ltac:(lia) En ltac:(lia) EqKS Eb Hb F1 F2 HK) as (ct' & E & H'); [by rewrite LfN|].
  exists K. unfold switch_back in E. cbn [g_KSkey] in E. rewrite EqK in E. destruct (ModSwitch (m_qKS lwe) ext) as [ms|]; [|done]. rewrite bind_ok in E.
  destruct (KeySwitch lwe K ms) as [ks|] eqn:E2; [|done]. rewrite bind_ok in E. exists ms, ks, ct'. do 3 (split; [done|]). split; [exact E|exact H'].
Qed.

(** A gate on a ciphertext that holds [5 q / 8 - M q / 4]. *)
Lemma gate_run_VNTRU EK gate ct ct1 M e : good_nbt EK -> wf_ct q nn ct -> ct_p ct = 4 -> wf_ct q nn ct1 -> 0 <= M <= 2 ->
  phase t ct ≡[q] 5 * q / 8 - M * (q / 4) - e -> 16 + 8 * Z.abs e < q ->
  returns (acc ← BootstrapGateCore_VNTRU arb (Some acc) lwe ps gate (n_BSkey EK) ct st;
           a ← Transpose acc.2; a ← SetFormat arb acc.1 a COEFFICIENT; b ← Add W (Z.shiftr (m_Q lwe) 3) 1; v ← GetValues a.2;
           ctMS ← ModSwitch (m_qKS lwe) (new_LWECiphertext v b);
           match n_KSkey EK with
           | None => Throw undefined_behaviour
           | Some K => ctKS ← KeySwitch lwe K ctMS; ct ← ModSwitch (GetModulus ct1) ctKS; Ok (a.1, ct)
           end)
    (fun r => r.1 = st /\ ct_bit q t noise (if M =? 2 then 0 else 1) r.2).
Proof using All.
  intros Hbt Hct Hp H1 HM Hph He. pose proof (nbound_nonneg EK Hbt) as Hbd. destruct Hbt as [(ek & -> & Hrot) HK].
  eapply returns_bind; [by apply BootstrapGateCore_VNTRU_spec|]. intros [st' a] [E1 Hacc]. cbn [fst snd] in *. subst st'.
  destruct (accumulator_constant _ _ _ Hacc) as (c & z & -> & Hc & Hz & Ez). clear Hacc. rewrite (Transpose_of (HR := HR)), bind_ok by done.
  rewrite (SetFormat_of (HR := HR)), bind_ok by (by apply raut_wf). cbn [fst snd]. rewrite (eighth_ok (HR := HR) lwe q qKS base t Hset), bind_ok. cbn [GetValues poly_of p_values]. rewrite bind_ok.
  set (m := if half_turn (k := k) ((2 * phase t ct) mod (2 * q)) then 1 else 0) in Ez. assert (m = if M =? 2 then 0 else 1) as Em.
  { pose proof (nand_half_turn q q M e (phase t ct) (2 * phase t ct) 0 0 ltac:(lia) ltac:(lia) HM Hph) as E. unfold m, half_turn. rewrite E; [by destruct (M =? 2)|lia|nia]. }
  rewrite <- Em. assert (0 <= m <= 1) as Hm by (rewrite Em; destruct (M =? 2); lia). clearbody m.
  destruct (VNTRU_extract z m c Hm Hc Ez) as [Hext Pext]. change (2 * 4) with 8 in *. set (ext := new_LWECiphertext _ _) in *.
  destruct (switch_back_VNTRU EK ext HK Hext) as (K & ms & ks & ct' & EqK & E1 & E2 & E3 & W' & P' & cc & Hcc). rewrite E1, bind_ok, EqK, E2, bind_ok.
  assert (GetModulus ct1 = q) as -> by (by destruct H1 as [(? & _) _]). rewrite E3, bind_ok. apply returns_ok. cbn [fst snd]. split; [done|].
  pose proof (nm_bounds (w := W) (m := Q)) as HQb. destruct (bs_native Hset) as (_ & HqKS & _). pose proof (nm_bounds (w := W) (m := qKS)) as HKb.
  destruct (output_value Q q qKS 4 m (- z) (phase fN ext) (phase t ct') cc (back_noise Q qKS q base t fN beta) bound) as (e' & He' & Ph'); try done; try lia.
  exists e'. split; [exact He'|]. by split.
Qed.

(** ** Gates *)
Context (Hlq : m_q lwe = q).

Lemma gate_constant_spec : returns (gate_constant lwe) (fun ct => wf_ct q nn ct /\ ct_p ct = 4 /\ phase t ct = 5 * q / 8).
Proof using HR Hset Hlq.
  clear Hnn. pose proof (dim_bound (HR := HR)) as Hn. destruct (bs_dims Hset) as [En _]. destruct (bs_native Hset) as (Hq & _). pose proof (nm_bounds (w := W) (m := q)) as Hb. unfold gate_constant, ConvertToInt. rewrite Hlq, En, (Z.mod_small q), (Z.mod_small (5 * q)) by lia.
  pose proof (Z.div_mod (5 * q) 8 ltac:(lia)). pose proof (Z.mod_pos_bound (5 * q) 8 ltac:(lia)). unfold NativeVec.SetModulus, NativeInt.Mod, umod. change (MAX_MODULUS_SIZE W) with 60.
  assert (GetMSB W q <= 60). { rewrite GetMSB_spec by (change (2 ^ W) with (2 ^ 64); unfold W; lia). enough (Z.log2 q < 59) by lia. apply Z.log2_lt_pow2; lia. }
  rewrite (proj2 (Z.ltb_ge _ _)), bind_ok, (proj2 (Z.eqb_neq q 0)), bind_ok, Z.mod_small by lia. apply returns_ok. cbn [data]. split; [|split; [done|]].
  - split; [split; [done|split; [apply repeat_length|]]|unfold reduced; cbn; lia]. cbn. apply Forall_forall. intros x Hx. apply list_elem_of_In, repeat_spec in Hx as ->. unfold reduced. lia.
  - unfold phase. cbn [new_LWECiphertext ct_a ct_b data]. rewrite (sumZ_ext nn _ (fun _ => 0)), sumZ_zero; [lia|]. intros i Hi. by rewrite zeros_lookup.
Qed.

Lemma simple_gate_VNTRU_spec EK gate ct1 ct2 m1 m2 E : good_nbt EK -> 16 + 16 * E < q -> is_bit m1 -> is_bit m2 -> ct_bit q t E m1 ct1 -> ct_bit q t E m2 ct2 ->
  returns (simple_gate_VNTRU arb (Some acc) lwe ps gate EK ct1 ct2 st) (fun r => r.1 = st /\ ct_bit q t noise (if fast_gate gate then 1 else gate_fun NAND m1 m2) r.2).
Proof using All.
  intros Hbt HE B1 B2 (e1 & He1 & W1 & _ & P1) (e2 & He2 & W2 & _ & P2). unfold simple_gate_VNTRU. eapply returns_bind; [exact gate_constant_spec|]. intros ct0 (W0 & P0 & Ph0).
  assert (bool_decide (gate = XOR_FAST) || bool_decide (gate = XNOR_FAST) = fast_gate gate) as -> by (by destruct gate). destruct (fast_gate gate).
  - eapply returns_bind; [eapply (returns_bind _ _ _ (fun ct => ct = ct0)); [by apply (sub_step lwe q qKS base t Hset)|]|].
    { intros ct (Wc & _). eapply returns_bind; [by apply (add_step lwe q qKS base t Hset)|]. intros ct' _. by apply returns_ok. }
    intros ct ->. apply (gate_run_VNTRU EK gate ct0 ct1 0 0); try done; [rewrite Ph0; apply eqm_refl; ring|lia].
  - eapply returns_bind; [eapply (returns_bind _ _ _ (fun ct => wf_ct q nn ct /\ ct_p ct = 4 /\ phase t ct ≡[q] 5 * q / 8 - (m1 + m2) * (q / 4) - (e1 + e2))); [by apply (add_step lwe q qKS base t Hset (copy_LWECiphertext ct1) ct2)|]|].
    { intros c (Wc & _ & Pc). eapply returns_mono; [by apply (sub_step lwe q qKS base t Hset ct0 c)|]. intros r (Wr & Pr & Phr). split; [done|]. split; [congruence|].
      rewrite Phr, Ph0, Pc. change (phase t (copy_LWECiphertext ct1)) with (phase t ct1). rewrite P1, P2. apply eqm_refl. ring. }
    intros c (Wc & Pc & Phc). replace (gate_fun NAND m1 m2) with (if m1 + m2 =? 2 then 0 else 1) by (destruct B1 as [-> | ->], B2 as [-> | ->]; done).
    apply (gate_run_VNTRU EK gate c ct1 (m1 + m2) (e1 + e2)); try done; [unfold is_bit in *; lia|lia].
Qed.

(** Three NAND gates make XOR. *)
Lemma EvalBinGate_VNTRU_spec EK gate ct1 ct2 m1 m2 E : good_nbt EK -> noise <= E -> 16 + 16 * E < q -> is_bit m1 -> is_bit m2 -> ct_bit q t E m1 ct1 -> ct_bit q t E m2 ct2 ->
  returns (EvalBinGate_VNTRU arb (Some acc) lwe ps gate EK false ct1 ct2 st) (fun r => r.1 = st /\ ct_bit q t noise (ngate_fun gate m1 m2) r.2).
Proof using All.
  intros Hbt Hno HE B1 B2 H1 H2. unfold EvalBinGate_VNTRU. assert (bool_decide (gate = XOR) || bool_decide (gate = XNOR) = composed_gate gate) as -> by (by destruct gate).
  destruct (composed_gate gate) eqn:Hc.
  - pose proof (NOT_bit lwe q qKS base t Hset) as HNOT. assert (forall x y, is_bit x -> is_bit y -> is_bit (gate_fun NAND x y)) as HN by (intros; by apply (gate_fun_bit NAND)).
    pose proof (not_bit m1 B1) as N1. pose proof (not_bit m2 B2) as N2.
    eapply returns_bind; [apply (simple_gate_VNTRU_spec EK AND ct1 (EvalNOT ct2) m1 (1 - m2) E); auto|]. intros [s1 c1] [E1 R1]. cbn [fst snd fast_gate] in *. subst s1.
    eapply returns_bind; [apply (simple_gate_VNTRU_spec EK AND (EvalNOT ct1) ct2 (1 - m1) m2 E); auto|]. intros [s2 c2] [E2 R2]. cbn [fst snd fast_gate] in *. subst s2.
    eapply returns_bind; [apply (simple_gate_VNTRU_spec EK OR c1 c2 (gate_fun NAND m1 (1 - m2)) (gate_fun NAND (1 - m1) m2) E); auto; by eapply bit_mono|].
    intros [s3 c3] [E3 R3]. cbn [fst snd fast_gate] in *. subst s3. apply returns_ok. cbn [fst snd]. split; [done|].
    assert (gate_fun NAND (gate_fun NAND m1 (1 - m2)) (gate_fun NAND (1 - m1) m2) = gate_fun XOR m1 m2) as EX by (destruct B1 as [-> | ->], B2 as [-> | ->]; done). rewrite EX in R3.
    destruct gate; try discriminate Hc; [by rewrite bool_decide_true|]. rewrite bool_decide_false by done. apply HNOT in R3. by destruct B1 as [-> | ->], B2 as [-> | ->].
  - eapply returns_mono; [by apply (simple_gate_VNTRU_spec EK gate ct1 ct2 m1 m2 E)|]. intros r [E1 R1]. split; [done|]. by destruct gate.
Qed.
End Gate.

(** ** The keys *)
Record nkey_draws (Q qKS : Z) (k G : nat) (t : list Z) (m_ sg ep beta : Z) (f finv : list Z)
    (inv : Z -> nat -> list Z -> option (list Z)) (candidates : list (list Z)) (gaussA : nat -> nat -> nat -> NativeVector)
    (err : nat -> nat -> nat -> Z) (kerr : nat -> nat -> nat -> NativeVector) : Prop := {
  kd_secret : 3 <= m_ /\ NativeModulus W m_ /\ Z.of_nat (length t) * m_ < 2 ^ 31 /\ 2 * Z.of_nat (length t) < m_ /\ forall i, (i < length t)%nat -> -1 <= t !!! i <= 1;
  kd_ring : wf_data (q := Q) k f /\ wf_data (q := Q) k finv /\ 0 <= sg /\ l1_le Q (2 ^ k) sg f /\ 0 <= ep;
  kd_inverse : rmul Q (2 ^ k) finv f = mono Q (2 ^ k) 0;
  kd_drawn : Get_invertible_NativeVector inv (Q mod 2 ^ 32) (Q mod 2 ^ 32) (2 ^ k) candidates = Ok (NVec Q f, NVec Q finv);
  kd_masks i j l : wf_mask qKS (length t) (gaussA i j l);
  kd_errors i j l : reduced qKS (err i j l) /\ Z.abs (centred qKS (err i j l)) <= beta;
  kd_samples v i : good_errors (q := Q) (k := k) G ep (kerr v i)
}.
Arguments kd_secret {Q qKS k G t m_ sg ep beta f finv inv candidates gaussA err kerr}.
Arguments kd_ring {Q qKS k G t m_ sg ep beta f finv inv candidates gaussA err kerr}.
Arguments kd_inverse {Q qKS k G t m_ sg ep beta f finv inv candidates gaussA err kerr}.
Arguments kd_drawn {Q qKS k G t m_ sg ep beta f finv inv candidates gaussA err kerr}.
Arguments kd_masks {Q qKS k G t m_ sg ep beta f finv inv candidates gaussA err kerr}.
Arguments kd_errors {Q qKS k G t m_ sg ep beta f finv inv candidates gaussA err kerr}.
Arguments kd_samples {Q qKS k G t m_ sg ep beta f finv inv candidates gaussA err kerr}.

Section Keys.
Context {st : FTT} {Q psi : Z} {k : nat} {HR : RingTransform st Q psi k} (arb : FTT -> NativePoly -> res (FTT * NativePoly)).
Context (lwe : LWECryptoParams) (ps : VectorNTRUCryptoParams) (g : Z) (G : nat) (Hps : rgsw_params ps Q psi k g G).
Context (Hg : 1 <= g <= 31) (HgQ : 2 ^ g <= Q) (HGq : Q <= (2 ^ g) ^ Z.of_nat (S G)).
Abbreviation n := (2 ^ k)%nat.
Abbreviation q := (Z.of_nat n).
Context (qKS : Z) (base : nat) (t : list Z) (Hset : bt_setting lwe q Q qKS k (length t) base) (Hrq : r_q ps = q).
Abbreviation nn := (length t).
Context (Hnn : (0 < nn < n)%nat) (Hfit : (Z.of_nat nn + 2) * qKS < 2 ^ 64 /\ Z.of_nat base * qKS <= 2 ^ 64).

#[local] Instance vntru_keygen_modulus : NativeModulus W Q.
Proof using HR. exact rt_modulus. Qed.

Lemma NKeyGen_spec m_ sg ep beta f finv inv candidates gaussA err kerr :
  nkey_draws Q qKS k G t m_ sg ep beta f finv inv candidates gaussA err kerr ->
  returns (NKeyGen arb inv (Some (VectorNTRUAccumulatorXZDDF arb)) lwe ps (secret_key t m_) candidates gaussA err kerr st)
    (fun r => r.1 = st /\ good_nbt (HR := HR) (VectorNTRUAccumulatorXZDDF arb) ps qKS base t f (vntru_bound (q := Q) g G sg ep nn) beta r.2).
Proof using All.
  intros Hd. destruct (kd_secret Hd) as (Hm & Hm_ & Hnm & Hsum & Ht). destruct (kd_ring Hd) as (Wf & Wi & Hsg & Hfl & Hep). pose proof Wf as [Lf Ff].
  destruct (bs_dims Hset) as [En EN]. destruct (bs_moduli Hset) as [EQ EK]. destruct (bs_base Hset) as [Eb Hb]. destruct (bs_native Hset) as (Hq & HqKS & _). destruct Hfit as [F1 F2].
  assert (forall x, (x < n)%nat -> slot Q psi k x f * slot Q psi k x finv ≡[Q] 1) as Hinv.
  { intros x Hx. rewrite Z.mul_comm, <- (slot_rmul (HR := HR)), (kd_inverse Hd) by done. apply (mono_0 (HR := HR)). }
  unfold NKeyGen, ConvertToInt. rewrite (rp_Q Hps), (rp_N Hps), (kd_drawn Hd), bind_ok. cbn [fst snd].
  eapply returns_bind.
  { apply (KeySwitchGen_spec (q := qKS) lwe (secret_key t m_) (NVec Q f) gaussA err base); rewrite ?EN, ?En; try done.
    - apply length_tab.
    - split; [done|]. unfold secret_key. cbn [modulus data]. apply Forall_tab. intros i Hi. apply Z.mod_pos_bound. lia.
    - split; [exact rt_modulus|done].
    - apply (kd_masks Hd).
    - intros i j l. apply (kd_errors Hd). }
  intros K HK. cbn beta in HK. rewrite (secret_key_ints t m_) in HK by (done || lia). rewrite (rp_polyParams Hps).
  rewrite (proj2 (SetValues_of (HR := HR) (new_poly (ring_par Q psi k) EVALUATION false) COEFFICIENT f COEFFICIENT eq_refl Wf) eq_refl), bind_ok.
  rewrite (proj2 (SetValues_of (HR := HR) (new_poly (ring_par Q psi k) EVALUATION false) COEFFICIENT finv COEFFICIENT eq_refl Wi) eq_refl), bind_ok.
  rewrite (SetFormat_of (HR := HR)), bind_ok by done. cbn [fst snd]. rewrite (SetFormat_of (HR := HR)), bind_ok by done. cbn [fst snd with_accumulator VectorNTRUAccumulatorXZDDF v_KeyGenAcc].
  eapply returns_bind.
  { apply (KeyGenAcc_XZDDF_spec (HR := HR) arb g Hg HgQ G HGq ps Hps Hrq f sg Wf Hsg Hfl ep Hep (fun i => t !!! i) nn ltac:(lia) finv Wi Hinv kerr (kd_samples Hd) m_ Hm Hnm Hsum ltac:(lia) Ht). }
  intros [st' ek] [E1 Hek]. cbn [fst snd] in *. subst st'. apply returns_ok. cbn [fst snd]. split; [done|]. split.
  - exists ek. split; [done|]. by apply (xzddf_rotation (HR := HR) arb g Hg HgQ G HGq ps Hps Hrq f sg Wf Hsg Hfl ep Hep (fun i => t !!! i) nn ltac:(lia) ek).
  - exists K, (fun i j l => centred qKS (err i j l)). split; [done|]. split; [|apply (kd_errors Hd)]. apply (ksk_valid_ext _ _ _ _ _ _ err); [|done]. intros. symmetry. apply centred_eqm.
Qed.
End Keys.
