(* ===== verification/VntruGateProps.v ===== *)
(** * Properties of the vector NTRU scheme *)

From Stdlib Require Import ZArith Lia String.
From stdpp Require Import base tactics numbers list strings gmap.
From S2P Require Import Prelude Double NativeInt NativeIntFacts ModArith NativeVec SchemeCore Negacyclic BitReverse Ntt NttFacts NttSpec NttRing Poly PolyFacts Automorphism Gadget RingNoise RingCoefficients AccCore AccCoreFacts RgswAcc RgswFacts RgswRotation RgswKeys AutoKeys RgswProps Lwe LweProps Gates GatesFacts GatesSpec GatesEval GatesKeys GatesProps MkGate MkGateFacts MkGateSpec Context VntruAcc VntruFacts VntruRotation VntruGate VntruGateSpec.

(** ** Straight-line programs over the gates of a context *)
Inductive ninstr := NNot (i : nat) | NGate (gate : BINGATE) (i j : nat).

Definition ninstr_ok (n : nat) (c : ninstr) : Prop :=
  match c with NNot i => (i < n)%nat | NGate _ i j => (i < n)%nat /\ (j < n)%nat /\ i <> j end.
Fixpoint nprog_ok (n : nat) (prog : list ninstr) : Prop :=
  match prog with [] => True | c :: prog' => ninstr_ok n c /\ nprog_ok (S n) prog' end.

(** The meaning of an instruction on bits. *)
Definition ninstr_bit (c : ninstr) (m : list Z) : Z :=
  match c with NNot i => 1 - m !!! i | NGate gate i j => ngate_fun gate (m !!! i) (m !!! j) end.
Definition ntru_bits (prog : list ninstr) (m : list Z) : list Z := fold_left (fun m c => m ++ [ninstr_bit c m]) prog m.

(** The instruction on ciphertexts. *)
Definition nexec (arb : FTT -> NativePoly -> res (FTT * NativePoly)) (acc : option VectorNTRUAccumulator) (ctx : NTRUContext) (c : ninstr)
    (x : FTT * list LWECiphertext) : res (FTT * LWECiphertext) :=
  match c with
  | NNot i => ct ← vget x.2 i; Ok (x.1, EvalNOT ct)
  | NGate gate i j => ct1 ← vget x.2 i; ct2 ← vget x.2 j; NC_EvalBinGate arb acc ctx gate (i =? j)%nat ct1 ct2 x.1
  end.
Fixpoint ntru_run (arb : FTT -> NativePoly -> res (FTT * NativePoly)) (acc : option VectorNTRUAccumulator) (ctx : NTRUContext) (prog : list ninstr)
    (x : FTT * list LWECiphertext) : res (FTT * list LWECiphertext) :=
  match prog with [] => Ok x | c :: prog' => r ← nexec arb acc ctx c x; ntru_run arb acc ctx prog' (r.1, x.2 ++ [r.2]) end.

Section Circuits.
Context {st : FTT} {Q psi : Z} {k : nat} {HR : RingTransform st Q psi k} (arb : FTT -> NativePoly -> res (FTT * NativePoly)).
Context (acc : VectorNTRUAccumulator) (lwe : LWECryptoParams) (ps : VectorNTRUCryptoParams) (Hpp : r_polyParams ps = ring_par Q psi k).
Abbreviation q := (Z.of_nat (2 ^ k)).
Context (qKS : Z) (base : nat) (t : list Z) (Hset : bt_setting lwe q Q qKS k (length t) base) (Hnn : (0 < length t)%nat) (Hlq : m_q lwe = q).
Context (f : list Z) (Hf : wf_data (q := Q) k f) (bound beta : Z) (EK : VectorNTRUBTKey).
Context (HEK : good_nbt (HR := HR) acc ps qKS base t f bound beta EK) (E : Z) (HE : boot_noise (Q := Q) q qKS base t f bound beta <= E) (Hmar : 16 + 16 * E < q).
Context (map_ : gmap Z VectorNTRUBTKey) (flag : bool).
Abbreviation ctx := (NCtx lwe ps EK map_ flag).
Abbreviation holds_ := (wires_hold q t E).

Lemma nexec_spec c m w : ninstr_ok (length m) c -> holds_ m w ->
  returns (nexec arb (Some acc) ctx c (st, w)) (fun r => r.1 = st /\ is_bit (ninstr_bit c m) /\ ct_bit q t E (ninstr_bit c m) r.2).
Proof using All.
  intros Hc [Hl Hw]. destruct c as [i|gate i j]; cbn [ninstr_ok] in Hc; cbn [nexec fst snd ninstr_bit].
  - destruct (Hw i Hc) as [B1 H1]. rewrite vget_total, bind_ok by lia. apply returns_ok. split; [done|]. split; [by apply not_bit|by apply (NOT_bit lwe q qKS base t Hset)].
  - destruct Hc as (Hi & Hj & Hne). destruct (Hw i Hi) as [B1 H1], (Hw j Hj) as [B2 H2]. rewrite (vget_total w i), bind_ok, (vget_total w j), bind_ok by lia.
    rewrite (proj2 (Nat.eqb_neq i j)) by done. unfold NC_EvalBinGate. cbn [nc_lwe nc_vntru nc_NBTKey].
    eapply returns_mono; [by apply (EvalBinGate_VNTRU_spec (HR := HR) arb acc lwe ps Hpp qKS base t Hset Hnn f Hf bound beta Hlq EK gate _ _ (m !!! i) (m !!! j) E)|].
    intros r [E1 Br]. split; [done|]. split; [by apply ngate_bit|]. by apply (bit_mono q t _ E _ _ HE).
Qed.

(** One step of the run on ciphertexts simulates one step on bits. *)
Lemma ntru_run_spec prog : forall m w, nprog_ok (length m) prog -> holds_ m w ->
  returns (ntru_run arb (Some acc) ctx prog (st, w)) (fun r => r.1 = st /\ holds_ (ntru_bits prog m) r.2).
Proof using All.
  induction prog as [|c prog IH]; intros m w Hp Hw; cbn [nprog_ok] in Hp; [by apply returns_ok|]. destruct Hp as [Hc Hp]. cbn [ntru_run].
  eapply returns_bind; [by apply nexec_spec|]. intros [st' ct] (E1 & Hb & Hct). cbn [fst snd] in *. subst st'.
  change (ntru_bits (c :: prog) m) with (ntru_bits prog (m ++ [ninstr_bit c m])). apply IH; [|by apply wires_app].
  rewrite length_app. cbn [length]. by rewrite Nat.add_1_r.
Qed.
End Circuits.

(** The draws of a generation of keys. *)
Definition context_draws (Q qKS : Z) (k G : nat) (t : list Z) (m_ sg ep beta : Z) (f finv : list Z) (inv : Z -> nat -> list Z -> option (list Z)) (d : NKeyDraws) : Prop :=
  nkey_draws Q qKS k G t m_ sg ep beta f finv inv (nd_candidates d) (nd_gaussA d) (nd_err d) (nd_kerr d).

(** Draws from which keys are made with an accumulator lead, without one, to the
    call through the null pointer. *)
Lemma NKeyGen_without_accumulator arb inv acc lwe ps sk candidates gaussA err kerr st r :
  NKeyGen arb inv (Some acc) lwe ps sk candidates gaussA err kerr st = Ok r -> NKeyGen arb inv None lwe ps sk candidates gaussA err kerr st = Throw undefined_behaviour.
Proof.
  unfold NKeyGen. destruct (Get_invertible_NativeVector _ _ _ _ _) as [v|]; [|done]. rewrite !bind_ok. destruct (KeySwitchGen _ _ _ _ _) as [ks|]; [|done]. rewrite !bind_ok.
  destruct (SetValues _ v.1 _) as [p|]; [|done]. rewrite !bind_ok. destruct (SetValues _ v.2 _) as [pinv|]; [|done]. rewrite !bind_ok.
  destruct (SetFormat arb st p _) as [a|]; [|done]. rewrite !bind_ok. by destruct (SetFormat arb a.1 pinv _) as [b|].
Qed.

(** C4: the vector NTRU gates, as the program is and with their accumulator.
    The accumulator of a scheme is a pointer that is null when the scheme is
    made and that nothing in the program sets.  With the tables of
    [PreCompute], an invertible ring key, small errors, a ternary secret and a
    ciphertext modulus that is the dimension of the ring: (1) as the program
    is, with the null pointer, [NBTKeyGen] calls through it, which is
    undefined, so that there are no keys; (2) if the pointer were set to an
    accumulator of the class [VectorNTRUAccumulatorXZDDF], then with the keys
    of [NBTKeyGen], encrypting bits, running any straight-line program over NOT
    and [EvalBinGate] on distinct wires and decrypting every wire gives what
    the program computes on bits: no operation fails, and the noise does not
    accumulate.  XOR and XNOR are right; every other gate is a NAND, and the
    fast gates are constantly 1. *)
Theorem VNTRU_circuits_correct (st : FTT) (Q psi : Z) (k : nat) (arb : FTT -> NativePoly -> res (FTT * NativePoly)) (lwe : LWECryptoParams) (ps0 : VectorNTRUCryptoParams)
    (g : Z) (G : nat) (qKS : Z) (base : nat) (t : list Z) (m_ sg ep beta : Z) (f finv : list Z) (inv : Z -> nat -> list Z -> option (list Z)) (draws : Z -> NKeyDraws)
    (ms : list Z) (errs : nat -> Z) (masks : nat -> NativeVector) (prog : list ninstr) (E : Z) :
  let q := Z.of_nat (2 ^ k) in
  RingTransform st Q psi k -> base_rgsw (Q := Q) (psi := psi) (k := k) g G ps0 -> r_q ps0 = q -> 1 <= g <= 31 -> 2 ^ g < Q -> Q <= (2 ^ g) ^ Z.of_nat (S G) ->
  bt_setting lwe q Q qKS k (length t) base -> m_q lwe = q -> (0 < length t < 2 ^ k)%nat -> (Z.of_nat (length t) + 2) * qKS < 2 ^ 64 /\ Z.of_nat base * qKS <= 2 ^ 64 ->
  context_draws Q qKS k G t m_ sg ep beta f finv inv (draws 0) ->
  (forall i, (i < length ms)%nat -> is_bit (ms !!! i) /\ wf_mask q (length t) (masks i) /\ reduced q (errs i) /\ Z.abs (centred q (errs i)) <= E) ->
  boot_noise (Q := Q) q qKS base t f (vntru_bound (q := Q) g G sg ep (length t)) beta <= E -> 16 + 16 * E < q -> 64 <= q -> nprog_ok (length ms) prog ->
  let sk := secret_key t m_ in let acc := Some (VectorNTRUAccumulatorXZDDF arb) in
  (ps ← VNTRU_PreCompute arb ps0 false st;
   NBTKeyGen arb inv None (NCtx lwe ps.2 no_NBTKey ∅ false) sk draws ps.1) = Throw undefined_behaviour /\
  (ps ← VNTRU_PreCompute arb ps0 false st;
   c ← NBTKeyGen arb inv acc (NCtx lwe ps.2 no_NBTKey ∅ false) sk draws ps.1;
   cts ← tabulateM (length ms) (fun i => Lwe.Encrypt sk (ms !!! i) 4 q (errs i) (masks i));
   r ← ntru_run arb acc c.2 prog (c.1, cts);
   mapM (fun ct => Lwe.Decrypt sk ct 4) r.2) = Ok (ntru_bits prog ms).
Proof.
  intros q HR Hbase Hrq0 Hg HgQ HGq Hset Hlq Hnn Hfits Hd Hms HE HEq Hq64 Hprog sk acc. subst sk acc.
  destruct (PreCompute_rgsw (HR := HR) arb g G ps0 Hg HgQ Hbase) as (ps & Epre & Hps & Hsame). unfold VNTRU_PreCompute. rewrite Epre, bind_ok. cbn [fst snd].
  destruct (kd_secret Hd) as (Hm & Hm_ & _ & _ & Ht). destruct (kd_ring Hd) as (Hf & _). destruct (bs_native Hset) as (Hq & _). destruct (half_exists (HR := HR) lwe q qKS base t Hset) as (_ & _ & Hq26).
  assert (r_q ps = q) as Hrq by (destruct Hsame as (_ & E2 & _); congruence).
  destruct (NKeyGen_spec (HR := HR) arb lwe ps g G Hps Hg ltac:(lia) HGq qKS base t Hset Hrq Hnn Hfits m_ sg ep beta f finv inv _ _ _ _ Hd) as ([st' EK] & Ekg & E1 & HEK).
  cbn [fst snd] in *. subst st'. unfold NBTKeyGen. cbn [nc_timeOptimization nc_lwe nc_vntru nc_NBTKey_map]. rewrite !bind_ok. cbn [fst snd]. rewrite map_size_empty. cbn [Nat.eqb negb].
  unfold NKeyGen_. split; [by rewrite (NKeyGen_without_accumulator _ _ _ _ _ _ _ _ _ _ _ _ Ekg)|]. rewrite Ekg, !bind_ok. cbn [fst snd].
  destruct (tabulateM_returns (length ms) (fun i => Lwe.Encrypt (secret_key t m_) (ms !!! i) 4 q (errs i) (masks i)) (fun i => ct_bit q t E (ms !!! i))) as (cts & -> & Lcts & Hcts).
  { intros i Hi. destruct (Hms i Hi) as (Hb & Hmask & Herr & HeE). eapply returns_mono; [apply (fresh_bit (q := q) t m_ Hm Hm_ Ht); (done || nia)|]. intros ct Hct. by exists (centred q (errs i)). }
  rewrite bind_ok.
  destruct (ntru_run_spec (HR := HR) arb (VectorNTRUAccumulatorXZDDF arb) lwe ps (rp_polyParams Hps) qKS base t Hset ltac:(lia) Hlq f Hf _ beta EK HEK E HE HEq (<[r_baseG ps := EK]> ∅) false prog ms cts Hprog)
    as ([st' w] & -> & _ & Lw & Hw).
  { split; [done|]. intros i Hi. split; [by apply Hms|by apply Hcts]. }
  rewrite bind_ok. cbn [snd] in *. apply mapM_pointwise; [done|]. intros i Hi. rewrite Lw in Hi. destruct (Hw i Hi) as (Hb & e & He & Wct & _ & Phct).
  apply (decrypt_bit (q := q) t m_ Hm Hm_ Ht _ 4 e); (done || nia).
Qed.

(** The parameters of the examples: the modulus of the masks is the dimension. *)
Definition demo_vntru : VectorNTRUCryptoParams := RGSWParams 1073741441 64 64 32768 32 2 [] [] [] ∅ (ring_par 1073741441 293845527 6) [] [] GINX 10.
Definition demo_vlwe : LWECryptoParams := LWEParams 1 64 64 1073741441 1048576 32.
Definition demo_inverse (q : Z) (n : nat) (p : list Z) : option (list Z) := if decide (p = demo_one) then Some demo_one else None.
Definition demo_ndraws (b : Z) : NKeyDraws := NDraws [repeat 0 64; demo_one] (fun _ _ _ => NVec 1048576 [5]) (fun _ _ _ => 2) (fun _ _ _ => NVec 1073741441 demo_one).

Lemma demo_vbase : base_rgsw (Q := 1073741441) (psi := 293845527) (k := 6) 15 1 demo_vntru.
Proof. split; try done. by left. Qed.

Lemma demo_vsetting : bt_setting demo_vlwe 64 1073741441 1048576 6 1 32.
Proof.
  assert (NativeModulus W 64) as H1 by (apply native_modulus_bits; unfold W; lia).
  destruct demo_setting as [_ _ _ (_ & H2 & _) _ _]. split; repeat match goal with |- _ /\ _ => split end; first [done|cbn; lia|by exists 2|by exists 32|idtac].
Qed.

Lemma demo_errors_good v i : good_errors (q := 1073741441) (k := 6) 1 1 (nd_kerr (demo_ndraws 0) v i).
Proof. destruct demo_one_wf as [H1 H2]. exists (fun _ => demo_one). by intros. Qed.

Lemma demo_one_inverse : rmul 1073741441 64 demo_one demo_one = mono 1073741441 64 0.
Proof. destruct ring1073741441 as [st HR]. exact (mono_add (HR := HR) 0 0). Qed.

Lemma demo_vdraws : context_draws 1073741441 1048576 6 1 [1] 512 1 1 2 demo_one demo_one demo_inverse (demo_ndraws 0).
Proof.
  destruct demo_one_wf as [H1 H2]. destruct demo_draws as [(_ & Hm & _) _ _ _ _ _]. constructor.
  - split; [done|]. split; [done|]. split; [done|]. split; [done|]. intros [|i] Hi; cbn in *; lia.
  - done.
  - exact demo_one_inverse.
  - vm_compute. reflexivity.
  - intros. by apply wf_mask_check.
  - done.
  - exact demo_errors_good.
Qed.

Lemma VNTRU_circuits_correct_witness : exists st, RingTransform st 1073741441 293845527 6 /\
  (ps ← VNTRU_PreCompute (fun s p => Ok (s, p)) demo_vntru false st;
   NBTKeyGen (fun s p => Ok (s, p)) demo_inverse None (NCtx demo_vlwe ps.2 no_NBTKey ∅ false) (secret_key [1] 512) demo_ndraws ps.1) = Throw undefined_behaviour /\
  (ps ← VNTRU_PreCompute (fun s p => Ok (s, p)) demo_vntru false st;
   c ← NBTKeyGen (fun s p => Ok (s, p)) demo_inverse (Some (VectorNTRUAccumulatorXZDDF (fun s p => Ok (s, p)))) (NCtx demo_vlwe ps.2 no_NBTKey ∅ false) (secret_key [1] 512) demo_ndraws ps.1;
   cts ← tabulateM 2 (fun i => Lwe.Encrypt (secret_key [1] 512) (([1; 0] : list Z) !!! i) 4 64 1 (NVec 64 [50]));
   r ← ntru_run (fun s p => Ok (s, p)) (Some (VectorNTRUAccumulatorXZDDF (fun s p => Ok (s, p)))) c.2 [NGate XOR 0 1; NGate AND 0 1; NNot 3; NGate OR 2 3] (c.1, cts);
   mapM (fun ct => Lwe.Decrypt (secret_key [1] 512) ct 4) r.2) = Ok [1; 0; 1; 1; 0; 0].
Proof.
  destruct ring1073741441 as [st HR]. exists st. split; [exact HR|].
  apply (VNTRU_circuits_correct st 1073741441 293845527 6 (fun s p => Ok (s, p)) demo_vlwe demo_vntru 15 1 1048576 32 [1] 512 1 1 2 demo_one demo_one demo_inverse demo_ndraws
    [1; 0] (fun _ => 1) (fun _ => NVec 64 [50]) [NGate XOR 0 1; NGate AND 0 1; NNot 3; NGate OR 2 3] 2 HR demo_vbase eq_refl); try (exact demo_vsetting || exact demo_vdraws || done || (cbn; lia)).
  - intros i Hi. split; [destruct i as [|[|i]]; cbn in *; (by right) || (by left) || lia|]. split; [by apply wf_mask_check|done].
Defined.

(** C11: blind rotation with NTRU keys.  With the tables of [PreCompute] and the
    keys that [KeyGenAcc] makes for an invertible ring key [f] and a ternary
    secret [t], when the modulus of the mask is the dimension, [EvalAcc] on
    the transform of [v] by the inverse of [2 a_0 + 1] returns an accumulator whose
    product by [f] is [v] times [X] to [- 2 sum_i a_i t_i], up to a noise
    that grows with the number of keys only. *)
Theorem VNTRU_EvalAcc_correct (st : FTT) (Q psi : Z) (k : nat) (arb : FTT -> NativePoly -> res (FTT * NativePoly)) (g : Z) (G : nat) (ps0 : VectorNTRUCryptoParams)
    (f finv : list Z) (sg ep : Z) (t a : nat -> Z) (nn : nat) (m_ : Z) (err : nat -> nat -> nat -> NativeVector) (v : list Z) :
  let n := (2 ^ k)%nat in
  RingTransform st Q psi k -> base_rgsw (Q := Q) (psi := psi) (k := k) g G ps0 -> r_q ps0 = Z.of_nat n -> 1 <= g <= 31 -> 2 ^ g < Q -> Q <= (2 ^ g) ^ Z.of_nat (S G) ->
  wf_data (q := Q) k f -> wf_data (q := Q) k finv -> rmul Q n finv f = mono Q n 0 -> 0 <= sg -> l1_le Q n sg f -> 0 <= ep ->
  (forall u i, good_errors (q := Q) (k := k) G ep (err u i)) ->
  (0 < nn < n)%nat -> 3 <= m_ -> Z.of_nat nn * m_ < 2 ^ 31 -> 2 * Z.of_nat nn < m_ -> (forall i, (i < nn)%nat -> -1 <= t i <= 1 /\ 0 <= a i < Z.of_nat n) ->
  wf_data (q := Q) k v ->
  returns (ps ← VNTRU_PreCompute arb ps0 false st;
           ek ← KeyGenAcc_XZDDF arb ps.2 (poly_of Q psi k EVALUATION f) (poly_of Q psi k EVALUATION finv) (NVec m_ (map (fun i => t i mod m_) (seq 0 nn))) err ps.1;
           u ← mask_inverse n (2 * a 0%nat + 1);
           acc ← AutomorphismTransform (poly_of Q psi k EVALUATION v) u;
           EvalAcc_XZDDF arb ps.2 ek.2 acc (NVec (Z.of_nat n) (map a (seq 0 nn))) ek.1)
    (fun r => r.1 = st /\ ntru_state (q := Q) (psi := psi) (k := k) f v (- (2 * sumZ nn (fun i => a i * t i))) (vntru_bound (q := Q) g G sg ep nn) r.2).
Proof.
  intros n HR Hbase Hrq0 Hg HgQ HGq Wf Wi Hinv Hsg Hfl Hep Herr Hnn Hm Hnm Hsum Hta Wv. subst n. pose proof (rt_modulus (RingTransform := HR)) as HQ.
  destruct (PreCompute_rgsw (HR := HR) arb g G ps0 Hg HgQ Hbase) as (ps & Epre & Hps & (_ & Erq & _)). unfold VNTRU_PreCompute. rewrite Epre, bind_ok. cbn [fst snd].
  assert (r_q ps = Z.of_nat (2 ^ k)) as Hrq by congruence. assert (forall i, (i < nn)%nat -> -1 <= t i <= 1) as Ht by (intros; by apply Hta). assert (forall i, (i < nn)%nat -> reduced (Z.of_nat (2 ^ k)) (a i)) as Ha by (intros; by apply Hta).
  eapply returns_bind.
  { apply (KeyGenAcc_XZDDF_spec (HR := HR) arb g Hg ltac:(lia) G HGq ps Hps Hrq f sg Wf Hsg Hfl ep Hep t nn ltac:(lia) finv Wi); try done; [|lia].
    intros x Hx. rewrite Z.mul_comm, <- (slot_rmul (HR := HR)), Hinv by done. apply (mono_0 (HR := HR)). }
  intros [st' ek] [E1 Hek]. cbn [fst snd] in *. subst st'. destruct (order_word (HR := HR)) as (j & Ej & Hj & Hn & HM). pose proof (Hta 0%nat ltac:(lia)) as [_ H0].
  eapply returns_bind; [apply mask_inverse_spec; [done|by exists j|lia|by rewrite Z.add_comm, Z.odd_add_mul_2]|]. intros u [Hu Eu].
  destruct (odd_inverse (a 0%nat) u (Z.of_nat (2 ^ k)) (proj1 Hu) Eu) as [Ho Hpos].
  rewrite (Automorphism_evaluation (HR := HR)), bind_ok by (done || lia).
  by apply (EvalAcc_XZDDF_spec (HR := HR) arb g Hg ltac:(lia) G HGq ps Hps Hrq f sg Wf Hsg Hfl ep Hep t nn ltac:(lia)).
Qed.

Lemma VNTRU_EvalAcc_correct_witness : exists st, RingTransform st 1073741441 293845527 6 /\
  returns (ps ← VNTRU_PreCompute (fun s p => Ok (s, p)) demo_vntru false st;
           ek ← KeyGenAcc_XZDDF (fun s p => Ok (s, p)) ps.2 (poly_of 1073741441 293845527 6 EVALUATION demo_one) (poly_of 1073741441 293845527 6 EVALUATION demo_one)
                  (NVec 512 (map (fun i => -1 mod 512) (seq 0 2))) (nd_kerr (demo_ndraws 0)) ps.1;
           u ← mask_inverse 64 (2 * 5 + 1);
           acc ← AutomorphismTransform (poly_of 1073741441 293845527 6 EVALUATION demo_one) u;
           EvalAcc_XZDDF (fun s p => Ok (s, p)) ps.2 ek.2 acc (NVec 64 (map (fun _ => 5) (seq 0 2))) ek.1)
    (fun r => r.1 = st /\ ntru_state (q := 1073741441) (psi := 293845527) (k := 6) demo_one demo_one (- (2 * (-10))) (vntru_bound (q := 1073741441) 15 1 1 1 2) r.2).
Proof.
  destruct ring1073741441 as [st HR]. destruct demo_one_wf as [H1 H2]. exists st. split; [exact HR|].
  apply (VNTRU_EvalAcc_correct st 1073741441 293845527 6 (fun s p => Ok (s, p)) 15 1 demo_vntru demo_one demo_one 1 1 (fun _ => -1) (fun _ => 5) 2 512 (nd_kerr (demo_ndraws 0)) demo_one
    HR demo_vbase eq_refl); try (exact H1 || exact H2 || exact demo_one_inverse || exact demo_errors_good || done || (cbn; lia)).
Defined.

(** C18: the inverse on [usint].  Euclid's loop ends, and for coprime numbers returns the
    residue modulo [2^32] of an inverse; the result is an inverse itself when
    the modulus is a power of two, the only moduli that the accumulator
    asks for, but not for every modulus: the
    coefficient that should be made positive wraps around. *)
Theorem ModInverse_usint_correct (a b : Z) : 0 <= a -> 1 < b < 2 ^ 32 -> Z.gcd a b = 1 ->
  returns (ModInverse_usint a b) (fun x => 0 <= x < 2 ^ 32 /\ (exists y, x = y mod 2 ^ 32 /\ a * y ≡[b] 1) /\ ((b | 2 ^ 32) -> a * x ≡[b] 1)) /\
  ModInverse_usint 3 7 = Ok 4294967294 /\ ~ 3 * 4294967294 ≡[7] 1.
Proof.
  intros Ha Hb Hg. split; [|by split; [vm_compute|]].
  eapply returns_mono; [by apply ModInverse_usint_spec|]. intros x (y & Ex & Ey). split; [rewrite Ex; apply Z.mod_pos_bound; lia|]. split; [by exists y|].
  intros Hd. rewrite <- Ey. apply eqm_mul; [done|]. rewrite Ex. apply (eqm_divisor (2 ^ 32)); [done|apply eqm_mod].
Qed.

Lemma ModInverse_usint_correct_witness : exists x, ModInverse_usint 11 128 = Ok x /\ 11 * x ≡[128] 1.
Proof.
  destruct (ModInverse_usint_correct 11 128 ltac:(lia) ltac:(lia) eq_refl) as [(x & E & _ & _ & H) _]. exists x. split; [exact E|]. apply H. by exists (2 ^ 25).
Defined.
