(* ===== verification/NumberTheoryProps.v ===== *)
(** * Properties of the number theory and of the generation of parameters *)

From Stdlib Require Import ZArith Lia String.
From stdpp Require Import base tactics numbers list strings gmap sorting.
From S2P Require Import NativeVec SchemeCore Prelude Double NativeInt NativeIntFacts ModArith PrimeField NumberTheory NumberTheoryFacts Negacyclic BitReverse Ntt NttFacts NttSpec NttRing Poly PolyFacts RingNoise AccCore AccCoreFacts MkAcc MkAccFacts MkAccKeys RgswAcc RgswFacts RgswKeys Lwe MkLwe MNtru Context ContextSpec MkContextSpec.

(** A generator for the witnesses, and one that always draws the least number. *)
Definition lcg (lo hi g : Z) : Z * Z := (lo + g mod (hi - lo + 1), (g * 1103515245 + 12345) mod 2 ^ 31).
Definition least (lo hi : Z) (g : unit) : Z * unit := (lo, g).

Lemma least_attempt n g : (attempt least n g).1 = 0.
Proof.
  unfold attempt. cbn [least fst]. assert (forall c s x, x = 0 -> (low_chunks least c s x g).1 = 0) as H.
  { induction c as [|c IH]; intros s x ->; [done|]. cbn [low_chunks]. destruct g. apply IH. rewrite Z.shiftl_0_l. done. }
  rewrite H, Z.shiftl_0_l by done. done.
Qed.

Lemma least_fair fuel : fair least (S fuel).
Proof. intros n g Hn. unfold RNG. cbn [RNG_loop]. rewrite least_attempt, (proj2 (Z.ltb_lt 0 n)) by lia. by eexists. Qed.

(** C17: the Miller-Rabin test.  With a generator that delivers numbers below
    any bound, the test ends for every number below [2 ^ 63]; it accepts every
    prime, and a number that it accepts is 2, 3, 5, or odd with only strong bases
    among those that it drew between 2 and [p - 2]. *)
Theorem MillerRabin_correct (G : Type) (draw : Z -> Z -> G -> Z * G) (fuel niter : nat) (p : Z) (g : G) : fair draw fuel -> 0 <= p < 2 ^ 63 ->
  let ds := odd_part 64 (p - 1) 0 in
  returns (MillerRabinPrimalityTest draw fuel p niter g) (fun r =>
    (Z.prime p -> r.1 = true) /\
    (r.1 = true -> (p = 2 \/ p = 3 \/ p = 5) \/ (7 <= p /\ Z.odd p = true /\ Forall (fun a => 2 <= a <= p - 2 /\ strong a ds.1 ds.2 p) (drawn draw fuel niter p g)))).
Proof. intros Hf Hp. by apply MillerRabin_spec. Qed.

Lemma MillerRabin_correct_witness : returns (MillerRabinPrimalityTest least 1 2047 3 tt) (fun r =>
    (Z.prime 2047 -> r.1 = true) /\
    (r.1 = true -> (2047 = 2 \/ 2047 = 3 \/ 2047 = 5) \/ (7 <= 2047 /\ Z.odd 2047 = true /\ Forall (fun a => 2 <= a <= 2045 /\ strong a 1023 1 2047) [2; 2; 2]))).
Proof. exact (MillerRabin_correct unit least 1 3 2047 tt (least_fair 0) ltac:(lia)). Defined.

(** C16: the modulus of a parameter set.  [PreviousPrime] after [FirstPrime]
    returns whenever the progression of the numbers that are 1 modulo [m] has a
    prime above [2 ^ bits] and one below within reach; what it returns is in
    the progression, not below that prime, and, when it is prime, is the largest
    prime of the progression up to [2 ^ bits]. *)
Theorem intermediate_prime_correct (G : Type) (draw : Z -> Z -> G -> Z * G) (fuel : nat) (bits m above below : Z) (g : G) :
  fair draw fuel -> 0 <= bits <= 60 -> 0 < m < 2 ^ 61 -> Z.prime above -> above ≡[m] 1 -> 2 ^ bits < above < 2 ^ 62 ->
  Z.prime below -> below ≡[m] 1 -> below <= 2 ^ bits -> above - below <= Z.of_nat fuel * m ->
  returns (intermediate_prime draw fuel bits m g) (fun r =>
    r.1 ≡[m] 1 /\ below <= r.1 < above /\ (Z.prime r.1 -> r.1 <= 2 ^ bits /\ forall x, Z.prime x -> x ≡[m] 1 -> x <= 2 ^ bits -> x <= r.1)).
Proof.
  intros Hf Hb Hm Ha Ea Hba Hl El Hlb Hfuel. unfold intermediate_prime.
  destruct (FirstPrime_spec draw fuel Hf fuel bits m above g Hb Hm Ha Ea Hba ltac:(lia)) as (f & -> & Ef & Hfb & Hfirst). rewrite bind_ok.
  destruct (PreviousPrime_spec draw fuel Hf fuel f.1 m below f.2 ltac:(lia) Hl ltac:(by rewrite Ef) ltac:(lia) ltac:(lia)) as (r & -> & Er & Hrb & Hprev).
  apply returns_ok. split; [by rewrite Er|]. split; [lia|]. intros Hp. assert (r.1 <= 2 ^ bits) as Hr.
  { destruct (Z.le_gt_cases r.1 (2 ^ bits)) as [|H]; [done|]. specialize (Hfirst r.1 Hp ltac:(by rewrite Er) ltac:(lia)). lia. }
  split; [done|]. intros x Hx Ex Hxb. apply Hprev; [done|by rewrite Ex, Ef|lia].
Qed.

Lemma prime_check p : 1 < p -> forallb (fun n => negb (p mod n =? 0)) (seqZ 2 (p - 2)) = true -> Z.prime p.
Proof.
  intros Hp H. split; [done|]. intros n Hn Hd. rewrite List.forallb_forall in H. assert (List.In n (seqZ 2 (p - 2))) as Hin by (apply list_elem_of_In, elem_of_seqZ; lia).
  specialize (H n Hin). apply Z.mod_divide in Hd; [|lia]. rewrite Hd in H. done.
Qed.

Lemma intermediate_prime_correct_witness : returns (intermediate_prime least 9 10 16 tt) (fun r =>
    r.1 ≡[16] 1 /\ 1009 <= r.1 < 1153 /\ (Z.prime r.1 -> r.1 <= 2 ^ 10 /\ forall x, Z.prime x -> x ≡[16] 1 -> x <= 2 ^ 10 -> x <= r.1)).
Proof.
  apply (intermediate_prime_correct unit least 9 10 16 1153 1009 tt (least_fair 8)); first [done|lia|by apply prime_check; vm_compute].
Defined.

(** C15: the root of unity of a ring.  For a prime [q] that is 1 modulo [2 N],
    with [N] a power of two, and a generator of random numbers with which
    [FindGenerator] returns, [RootOfUnity] returns the smallest number whose
    [N]-th power is -1, so that all runs agree; and with the tables of that root
    the transforms convert between the two formats of the ring of dimension
    [N]. *)
Theorem RootOfUnity_correct (G : Type) (draw : Z -> Z -> G -> Z * G) (fuel tries k : nat) (q : Z) (g : G) (gen : Z * G) :
  NativeModulus W q -> Z.prime q -> q < 2 ^ 63 -> (0 < k <= 24)%nat -> (2 ^ Z.of_nat (S k) | q - 1) -> FindGenerator draw fuel q g = Ok gen -> (0 < tries)%nat ->
  returns (RootOfUnity draw fuel tries (2 ^ Z.of_nat (S k)) q g) (fun r =>
    (reduced q r.1 /\ r.1 ^ 2 ^ Z.of_nat k ≡[q] -1 /\ forall y, reduced q y -> y ^ 2 ^ Z.of_nat k ≡[q] -1 -> r.1 <= y) /\ exists st, RingTransform st q r.1 k).
Proof.
  intros Hq Hp Hb Hk Hdiv Hgen Htries. eapply returns_mono; [apply (RootOfUnity_spec draw fuel k tries g gen); (done || lia)|].
  intros r (H1 & H2 & H3). split; [done|]. apply ring_transform_exists; try done. pose proof (nm_bounds (w := W) (m := q)). destruct (prime_odd q Hp ltac:(lia)) as [h E].
  replace q with (1 + 2 * h) by lia. by rewrite Z.odd_add_mul_2.
Qed.

Lemma RootOfUnity_correct_witness : returns (RootOfUnity lcg 100 1 16 17 12345) (fun r =>
    (reduced 17 r.1 /\ r.1 ^ 8 ≡[17] -1 /\ forall y, reduced 17 y -> y ^ 8 ≡[17] -1 -> r.1 <= y) /\ exists st, RingTransform st 17 r.1 3).
Proof.
  destruct (FindGenerator lcg 100 17 12345) as [gen|] eqn:E; [|by vm_compute in E].
  refine (RootOfUnity_correct Z lcg 100 1 3 17 12345 gen _ _ _ _ _ E _); first [lia|by exists 1|apply native_modulus_bits; unfold W; lia|by apply prime_check; vm_compute].
Defined.

(** ** Parameter sets *)
Lemma paramsMap_facts set p : paramsMap set = Some p ->
  numUser p <> 0%nat /\ latticeParam p <> 0%nat /\ mod_ p <> 0 /\ baseKS p <> 0 /\ (set ∉ [TOY; SIGNED_MOD_TEST] -> modKS p <> 0) /\ numAutoKeys p <> 0%nat /\ 8 <= cyclOrder p /\ exists g, gadgetBase p = 2 ^ g /\ 5 <= g <= 25.
Proof.
  intros E. destruct set; try discriminate E; injection E as <-; cbn [numUser latticeParam mod_ baseKS gadgetBase modKS numAutoKeys cyclOrder]; do 4 (split; [done|]);
    (split; [first [by intros _|intros H; exfalso; apply H; by repeat constructor]|]); (split; [done|]); (split; [lia|]); match goal with |- exists g, ?b = _ /\ _ => exists (Z.log2 b) end; by vm_compute.
Qed.

Lemma digit_count_S b Q : 1 < Q -> exists G, digit_count b Q = S G.
Proof.
  intros HQ. unfold digit_count. assert (forall f pw d, (d <= digit_count_loop f b Q pw d)%nat) as H.
  { induction f as [|f IH]; intros pw d; cbn [digit_count_loop]; [done|]. destruct (Q <=? pw); [done|]. specialize (IH (pw * b) (S d)). lia. }
  change (digit_count_loop 64 b Q 1 0) with (if Q <=? 1 then 0%nat else digit_count_loop 63 b Q (1 * b) 1). rewrite (proj2 (Z.leb_gt _ _) HQ). specialize (H 63%nat (1 * b) 1%nat). destruct (digit_count_loop 63 b Q (1 * b) 1) as [|G]; [lia|by exists G].
Qed.

Section Sets.
Context (Q : Z) (k : nat) (HQ : 1 < Q < 2 ^ 60).

Lemma modulus_fits : (MAX_MODULUS_SIZE W <? GetMSB W Q) = false /\ (Q =? 0) = false /\ ((2 ^ k =? 0)%nat = false).
Proof using HQ.
  split; [|split; [apply Z.eqb_neq; lia|apply Nat.eqb_neq, Nat.pow_nonzero; lia]]. change (MAX_MODULUS_SIZE W) with 60. apply Z.ltb_ge. rewrite GetMSB_spec by (unfold W; lia).
  assert (Z.log2 Q < 60) by (apply Z.log2_lt_pow2; lia). lia.
Qed.

(** The parameters of the three schemes. *)
Context (p : BinFHEContextParams) (Hp : numUser p <> 0%nat /\ latticeParam p <> 0%nat /\ mod_ p <> 0 /\ baseKS p <> 0).
Lemma schemes_made : modKS p <> 0 ->
  new_LWECryptoParams (latticeParam p) (2 ^ k) (mod_ p) Q (ks_modulus p Q) (baseKS p) = Ok (LWEParams (latticeParam p) (2 ^ k) (mod_ p) Q (modKS p) (baseKS p)) /\
  new_MNTRUCryptoParams (numUser p) (latticeParam p) (2 ^ k) (mod_ p) Q (modKS p) (baseKS p) = Ok (MNTRUParams (numUser p) (latticeParam p) (2 ^ k) (mod_ p) Q (modKS p) (baseKS p)) /\
  new_MKLWECryptoParams (numUser p) (latticeParam p) (2 ^ k) (mod_ p) Q (modKS p) (baseKS p) = Ok (MKLWEParams (numUser p) (latticeParam p) (2 ^ k) (mod_ p) Q (modKS p) (baseKS p)).
Proof using Hp HQ.
  intros HKS. destruct Hp as (H1 & H2 & H3 & H4), modulus_fits as (E1 & E2 & E3).
  apply Nat.eqb_neq in H1, H2. apply Z.eqb_neq in H3, H4. assert ((modKS p =? 0) = false) as EKS by by apply Z.eqb_neq.
  unfold new_LWECryptoParams, new_MNTRUCryptoParams, new_MKLWECryptoParams, ks_modulus, PRIME. rewrite (Z.eqb_sym 0), EKS, H1, H2, H3, H4, E1, E2, E3, EKS. done.
Qed.

Lemma schemes_refused : modKS p = 0 ->
  returns (new_LWECryptoParams (latticeParam p) (2 ^ k) (mod_ p) Q (ks_modulus p Q) (baseKS p)) (fun _ => True) /\
  new_MNTRUCryptoParams (numUser p) (latticeParam p) (2 ^ k) (mod_ p) Q (modKS p) (baseKS p) = Throw (config_error "q_KS (modulus for key switching) can not be zero").
Proof using Hp HQ.
  intros HKS. destruct Hp as (H1 & H2 & H3 & H4), modulus_fits as (E1 & E2 & E3).
  apply Nat.eqb_neq in H1, H2. apply Z.eqb_neq in H3, H4. unfold new_LWECryptoParams, new_MNTRUCryptoParams, ks_modulus, PRIME. rewrite HKS, H1, H2, H3, H4, E1, E2, E3. cbn [Z.eqb]. rewrite E2.
  split; [by apply returns_ok|done].
Qed.
End Sets.

(** The parameters of a context for the set [p], its modulus [Q] and its ring. *)
Definition context_for (p : BinFHEContextParams) (method : BINFHE_METHOD) (Q psi : Z) (k : nat) (ctx : BinFHECryptoParams) : Prop :=
  exists g G, gadgetBase p = 2 ^ g /\
  match ctx with
  | SingleKey lwe rgsw => method ∈ [GINX; AP; LMKCDEY] /\ lwe = LWEParams (latticeParam p) (2 ^ k) (mod_ p) Q (modKS p) (baseKS p) /\ rgsw_params rgsw Q psi k g G
  | MultiNTRU ps us => method ∈ [MKNTRU; MKNTRU_B] /\ ps = MNTRUParams (numUser p) (latticeParam p) (2 ^ k) (mod_ p) Q (modKS p) (baseKS p) /\ acc_params us Q psi k g G /\ u_k us = numUser p
  | MultiLWE ps us => method = MKNTRU_LWE /\ ps = MKLWEParams (numUser p) (latticeParam p) (2 ^ k) (mod_ p) Q (modKS p) (baseKS p) /\ acc_params us Q psi k g G /\ u_k us = numUser p
  end.

Section Generate.
Context {st : FTT} {Q psi : Z} {k : nat} {HR : RingTransform st Q psi k} (arb : FTT -> NativePoly -> res (FTT * NativePoly)).

Lemma new_UniEnc_spec users q g method na : 1 <= g <= 31 -> 2 ^ g < Q -> method ∈ [MKNTRU; MKNTRU_B; MKNTRU_LWE] ->
  returns (new_UniEncCryptoParams arb users (2 ^ k) Q q (2 ^ g) method na (ring_par Q psi k) st) (fun r => r.1 = st /\ (exists G, acc_params r.2 Q psi k g G) /\ u_k r.2 = users).
Proof using HR.
  intros Hg HgQ Hm. assert (1 < 2 ^ g) by (apply Z.pow_gt_1; lia). destruct (digit_count_S (2 ^ g) Q ltac:(lia)) as [G EG].
  eapply returns_mono; [by apply (new_UniEnc_made (HR := HR) arb users q g G method na)|]. intros r (E & Hr & Ek & _). split; [done|]. split; [by exists G|done].
Qed.

Lemma new_Rgsw_spec q g baseR method na : 1 <= g <= 31 -> 2 ^ g < Q -> method ∈ [GINX; AP; LMKCDEY] -> (2 <= k)%nat -> na <> 0%nat ->
  returns (new_RingGSWCryptoParams arb (2 ^ k) Q q (2 ^ g) baseR method false na (ring_par Q psi k) st) (fun r => r.1 = st /\ exists G, rgsw_params r.2 Q psi k g G).
Proof using HR.
  intros Hg HgQ Hm Hk Hna. unfold new_RingGSWCryptoParams. rewrite IsPowerOfTwo_spec by lia. cbn [negb]. assert (1 < 2 ^ g) by (apply Z.pow_gt_1; lia).
  apply Nat.eqb_neq in Hna. rewrite Hna, andb_false_r.
  assert (method = GINX \/ method = AP \/ method = LMKCDEY /\ (2 <= k)%nat) as Hu. { rewrite !elem_of_cons in Hm. destruct Hm as [-> | [-> | [-> | []%elem_of_nil]]]; auto. }
  destruct (digit_count_S (2 ^ g) Q ltac:(lia)) as [G EG].
  destruct (PreCompute_rgsw (HR := HR) arb g G (RGSWParams Q q (2 ^ k) (2 ^ g) baseR (digit_count (2 ^ g) Q) [] [] [] ∅ (ring_par Q psi k) [] [] method na) Hg HgQ) as (ps & -> & Hps & _); [by split|].
  apply returns_ok. cbn [fst snd]. split; [done|]. by exists G.
Qed.
End Generate.

(** C19: the parameter sets.  For the three methods of a single key and those of several keys,
    once the modulus is found and the transform of its ring is ready,
    [GenerateBinFHEContext] makes for every set of its table the parameters of
    the table, with the tables of the accumulator ready for the blind rotation;
    except for TOY and SIGNED_MOD_TEST, which it always refuses because the
    parameters of the multi-key scheme that it also makes have no modulus for
    the key switching, and for STD128Q_3, which the table does not have. *)
Theorem GenerateBinFHEContext_correct (G : Type) (draw : Z -> Z -> G -> Z * G) (fuel : nat) (polyParams : nat -> Z -> ILParams) (arb : FTT -> NativePoly -> res (FTT * NativePoly))
    (set : BINFHE_PARAMSET) (method : BINFHE_METHOD) (p : BinFHEContextParams) (st : FTT) (psi : Z) (k : nat) (g : G) (Q : Z * G) :
  paramsMap set = Some p -> method ∈ [GINX; AP; LMKCDEY; MKNTRU; MKNTRU_B; MKNTRU_LWE] -> intermediate_prime draw fuel (numberBits p) (cyclOrder p) g = Ok Q ->
  RingTransform st Q.1 psi k -> cyclOrder p = 2 ^ Z.of_nat (S k) -> polyParams (2 ^ k)%nat Q.1 = ring_par Q.1 psi k -> gadgetBase p < Q.1 < 2 ^ 60 ->
  GenerateBinFHEContext arb draw fuel polyParams STD128Q_3 method st g = Throw unknown_set /\
  (if decide (set ∈ [TOY; SIGNED_MOD_TEST])
   then GenerateBinFHEContext arb draw fuel polyParams set method st g = Throw (config_error "q_KS (modulus for key switching) can not be zero")
   else returns (GenerateBinFHEContext arb draw fuel polyParams set method st g) (fun r => r.1.1 = st /\ r.2 = Q.2 /\ context_for p method Q.1 psi k r.1.2)).
Proof.
  intros Ep Hm EQ HR Eord Epoly HQ. split; [done|]. destruct (paramsMap_facts set p Ep) as (F1 & F2 & F3 & F4 & FKS & Fna & Ford & gg & Eg & Hgg).
  assert (1 < 2 ^ gg) by (apply Z.pow_gt_1; lia). pose proof (conj F1 (conj F2 (conj F3 F4))) as F. unfold GenerateBinFHEContext. rewrite Ep, EQ, bind_ok.
  assert (Z.to_nat (cyclOrder p / 2) = (2 ^ k)%nat) as ->. { rewrite Eord, Nat2Z.inj_succ, Z.pow_succ_r, Z.mul_comm, Z.div_mul by lia. rewrite <- (Nat2Z.id (2 ^ k)), Nat2Z.inj_pow. done. }
  assert (2 <= k)%nat as Hk. { destruct k as [|[|k']]; [rewrite Eord in Ford; cbn in Ford; lia..|lia]. }
  cbn zeta. rewrite Epoly, Eg in *. destruct (decide (set ∈ [TOY; SIGNED_MOD_TEST])) as [Hset|Hset].
  - assert (modKS p = 0) as HKS. { rewrite !elem_of_cons in Hset. destruct Hset as [-> | [-> | []%elem_of_nil]]; injection Ep as <-; done. }
    destruct (schemes_refused Q.1 k ltac:(lia) p F HKS) as [(lwe & -> & _) ->]. done.
  - destruct (schemes_made Q.1 k ltac:(lia) p F (FKS Hset)) as (-> & -> & ->). rewrite !bind_ok.
    unfold context_for.
    destruct (decide (method ∈ [MKNTRU; MKNTRU_B])) as [H1|H1]; [|destruct (decide (method = MKNTRU_LWE)) as [H2|H2]].
    + rewrite (bool_decide_eq_true_2 _ H1). apply list_elem_of_In in H1 as Hc.
      destruct (new_UniEnc_spec (HR := HR) arb (numUser p) (mod_ p) gg method (numAutoKeys p)) as (u & -> & E1 & [G' Hu] & E2); [lia|lia|destruct Hc as [<- | [<- | []]]; by repeat constructor|].
      rewrite !bind_ok. apply returns_ok. cbn [fst snd]. split; [done|]. split; [done|]. exists gg, G'. split; [done|]. by split; [|split].
    + rewrite (bool_decide_eq_false_2 _ H1), (bool_decide_eq_true_2 _ H2).
      destruct (new_UniEnc_spec (HR := HR) arb (numUser p) (mod_ p) gg method (numAutoKeys p)) as (u & -> & E1 & [G' Hu] & E2); [lia|lia|rewrite H2; by repeat constructor|].
      rewrite !bind_ok. apply returns_ok. cbn [fst snd]. split; [done|]. split; [done|]. exists gg, G'. split; [done|]. by split; [|split].
    + rewrite (bool_decide_eq_false_2 _ H1), (bool_decide_eq_false_2 _ H2).
      assert (method ∈ [GINX; AP; LMKCDEY]) as H3.
      { apply list_elem_of_In in Hm. destruct Hm as [<- | [<- | [<- | [<- | [<- | [<- | []]]]]]]; first [done|by repeat constructor|by exfalso; apply H1; repeat constructor]. }
      destruct (new_Rgsw_spec (HR := HR) arb (mod_ p) gg (baseRK p) method (numAutoKeys p)) as (w & -> & E1 & [G' Hw]); [lia|lia|done|done|done|].
      rewrite !bind_ok. apply returns_ok. cbn [fst snd]. split; [done|]. split; [done|]. exists gg, G'. split; [done|]. by split; [|split].
Qed.

Lemma GenerateBinFHEContext_correct_witness : exists st, RingTransform st 134215681 4073518 10 /\
  GenerateBinFHEContext (fun s p => Ok (s, p)) least 20 (fun n Q => ring_par Q 4073518 10) STD128Q_3 MKNTRU st tt = Throw unknown_set /\
  returns (GenerateBinFHEContext (fun s p => Ok (s, p)) least 20 (fun n Q => ring_par Q 4073518 10) STD128 GINX st tt)
    (fun r => r.1.1 = st /\ r.2 = tt /\ context_for (CtxParams 1 27 2048 503 1024 (2 ^ 14) STD_DEV (2 ^ 5) (2 ^ 9) 32 10 UNIFORM_TERNARY) GINX 134215681 4073518 10 r.1.2).
Proof.
  destruct (ring_transform_check 134215681 4073518 10) as [st HR]; [done|].
  exists st. split; [exact HR|]. split; [done|].
  refine (proj2 (GenerateBinFHEContext_correct unit least 20 (fun n Q => ring_par Q 4073518 10) (fun s p => Ok (s, p)) STD128 GINX _ st 4073518 10 tt (134215681, tt) eq_refl _ _ HR eq_refl eq_refl _)).
  - by repeat constructor.
  - by vm_compute.
  - by vm_compute.
Defined.
